(* ===== verification/_CoqProject ===== *)
-Q . S2P
Prelude.v
CircuitBreaker.v
RequestPool.v
ProgramRuntime.v
RuntimeFrame.v
Lineage.v
Ieee.v
KvTypes.v
KvShard.v
KvIndexer.v
KvSubscriber.v
TextDecode.v
StopDecoder.v
WorkerUrl.v
Worker.v
WorkerRegistry.v
Hashing.v
HashKey.v
Policies.v
PolicyRegistry.v
FloatFacts.v
FloatInt.v
KvSlots.v
TokenizerCache.v
TreeText.v
PrefixTree.v
PrefixTreeUpdate.v
PrefixTreeRemove.v
PrefixTreeSpec.v
CacheAware.v
Binding.v
Factors.v
SchedulerState.v
Scheduler.v
Admission.v
Lifecycle.v
SchedulerInv.v
SchedulerResume.v
SchedulerCalls.v
SchedulerSync.v
SchedulerSpec.v
KvAware.v
ResponseStore.v
Config.v
Retry.v
RateLimit.v
Json.v
Protocols.v
LogprobsMerge.v
Identity.v
KvDiscovery.v
KvThreads.v
KvHash.v
KvDecode.v
ProgramAdapter.v
ServiceDiscovery.v
