(* ===== verification/Prelude.v ===== *)
(** * A verification development for the vLLM router

    The router ([src/]) stands in front of a set of vLLM workers: it keeps a
    registry of them with their health and circuit breakers, picks one for every
    request, schedules the requests of agent programs so that a program stays on
    the worker that holds its KV cache, follows the workers' KV-cache events in
    an index of prefixes, and turns tokens into text when it talks gRPC.  This
    library models the stateful core of it as functions and proves what those
    functions are for.

    ** Files, and the code they model

    - [Prelude]: machine integers, results, list lemmas and tactics.
    - [CircuitBreaker] ([src/core/circuit_breaker.rs]): the breaker of a worker,
      one definition per method over an explicit clock reading; [SpecState] is
      the documented machine.
    - [RequestPool] ([src/program_scheduling/request_pool.rs]): the fair queue of
      waiting requests.
    - [ProgramRuntime] ([src/program_scheduling/runtime.rs]): programs, their
      placements, epochs and generations, dispatch and completion.
    - [Lineage] ([src/program_scheduling/lineage.rs]): the union-find forest of
      program families.
    - [KvTypes] ([src/kv_index/types.rs], [wire.rs], [admit.rs], [mod.rs]): the
      values of KV events, their admission and the block hashes.
    - [KvShard] ([src/kv_index/indexer.rs], [GroupShard]): the radix tree of one
      group on a heap of nodes, with splitting edges, anchors and counts.
    - [KvIndexer] (same file, [KvBlockIndexer]): the index over shards, its
      queries and the visibility of sources.
    - [KvSubscriber] ([src/kv_index/subscriber.rs]): the event loop of one
      worker, with gaps, replay and restarts.
    - [KvDecode] ([decode.rs]), [KvDiscovery] ([discovery.rs], [endpoints.rs])
      and [KvHash] ([src/kv_hash.rs]): events from MessagePack, the supervisor of
      indexes and subscribers with the table of endpoints, and the engine's keys
      of blocks.
    - [KvThreads] ([discovery.rs]): the calls of the supervisor as threads that
      interleave at their locks.
    - [TextDecode] ([src/tokenizer/stream.rs], [sequence.rs]): incremental
      decoding, over the classes [Decoder] and [PieceDecoder].
    - [StopDecoder] ([src/tokenizer/stop.rs]): cutting text at stop sequences.
    - [WorkerUrl] ([src/backend/detect.rs], [src/routers/http/dp_utils.rs]): URL
      schemes and data-parallel ranks.
    - [Worker] ([src/core/worker.rs], [error.rs]): the worker trait as a class,
      its two implementations, health checks and load guards.
    - [WorkerRegistry] ([src/core/worker_registry.rs]): the registry and its
      indexes.
    - [Hashing] ([src/policies/consistent_hash.rs]): the hash of routing keys.
    - [HashKey] ([src/policies/hash_key.rs]): the routing key of a request.
    - [Policies] ([src/policies/mod.rs], [round_robin.rs], [random.rs],
      [power_of_two.rs], [consistent_hash.rs], [rendezvous_hash.rs]): the policy
      trait as a class and five policies.
    - [PolicyRegistry] ([src/policies/registry.rs], [factory.rs]): the policies
      of models.
    - [Ieee], [FloatFacts], [FloatInt]: [f32] and [f64] arithmetic over the
      Standard Library's executable IEEE floats, durations and instants, and the
      integers on which it is exact.
    - [KvSlots], [KvAware] ([src/policies/kv_aware.rs]): the router's count of
      the work in flight, and the policy that weighs it against the KV index.
    - [TokenizerCache] ([src/tokenizer/cache.rs]): the bounded cache of
      encodings, over the class [Lru].
    - [TreeText], [PrefixTree], [PrefixTreeUpdate], [PrefixTreeRemove],
      [PrefixTreeSpec] ([src/tree.rs]): the approximate prefix tree on a heap of
      nodes, insertion, matching, eviction and removal, and the map from texts
      to tenants it stands for.
    - [CacheAware] ([src/policies/cache_aware.rs]): the cache-aware policy over
      the trees.
    - [Binding] ([src/program_scheduling/binding/mod.rs]): the policies that give
      a program its first target, and the table of homes.
    - [Factors] ([factors.rs], [policy.rs]): windows of samples and the estimates
      of lifetimes, rounds, reserves and batch gain.
    - [SchedulerState] ([scheduler_state.rs]), [Scheduler] ([scheduler.rs]),
      [Admission] ([scheduler_admission.rs], [scheduler_global.rs],
      [scheduler_fairness.rs]), [Lifecycle] ([scheduler_lifecycle.rs] and the
      request paths of [scheduler_admission.rs]): the program scheduler.  The
      state is what its lock protects, and each call is one step.
    - [RuntimeFrame], [SchedulerInv], [SchedulerResume], [SchedulerCalls],
      [SchedulerSync], [SchedulerSpec]: its invariant, what the scheduling loops
      do, the preservation by every call, and the properties.
    - [Json] ([src/utils/json.rs]): the values of serde_json and typed access to
      fields, with the header values that other files read.
    - [Protocols] ([src/protocols/spec.rs], [validation.rs], and the choice of the
      output constraint in [src/backend/convert.rs]): the request types, the texts
      they are routed by, chat messages as JSON, reranking and the validation of
      chat requests.
    - [LogprobsMerge] ([src/routers/http/logprobs_merge.rs]): the logprobs of a
      request that two workers serve.
    - [ProgramAdapter] ([src/routers/http/program_adapter.rs],
      [src/token_estimator.rs]): the usage in a response, the completion of a
      program's request and the estimate of prompt tokens.
    - [ServiceDiscovery] ([src/service_discovery.rs]): workers from Kubernetes.
    - [Identity] ([identity.rs]): the identity of a program from the body and the
      headers of a request, over the class [SerdeJson].
    - [ResponseStore] ([src/data_connector/]): stored responses and their chains.
    - [Config] ([src/config/], the conversion in [scheduler_state.rs] and
      [create_from_config] of [src/policies/factory.rs]): the configuration, its
      defaults and its validation.
    - [Retry] ([src/core/retry.rs]) and [RateLimit] ([src/core/token_bucket.rs]
      and the concurrency limit of [src/middleware.rs]): backoff and retries, the
      token bucket and the queue in front of it.

    ** How code becomes definitions

    A struct is a record, an enum an inductive type, a [HashMap] or [DashMap] a
    [gmap], a set a [gset].  A method that mutates takes the state and returns
    the new one, and one method is one step: the theorems are about calls that
    follow one another.  The lock of the scheduler makes its calls do so.  The
    trees ([KvShard], [KvIndexer], [PrefixTree], [CacheAware]) lock node by node,
    and what concurrent calls do between two locks is not modelled there;
    [KvThreads] interleaves the calls of [KvDiscovery].  Where two halves of a method are not one step the halves are definitions of
    their own.  A panic or a loop that does not end is
    [None]; [Result] is [result].  Unsigned integers are [N] with the wrapping,
    saturating or checked operation the source uses.  Objects shared through
    [Arc] live in a heap indexed by address.  Clock readings, random numbers,
    probes, SHA-256, tokenizers and network answers are arguments; what is
    assumed of them is a class or a named hypothesis.  Logging is left out.

    ** What the theorems show

    - KV index: a shard computes exactly the abstract map from block paths to
      their holders, for every sequence of stores, removals and clears
      ([shard_refines]); a query returns maximal intervals of exactly the held
      depths ([find_matches_exact]); an invalidated source is not credited
      ([invalidated_not_credited]); the subscriber never exposes a source with a
      gap in its events ([subscriber_safe]) and applies a gapless stream whole;
      admission and block hashing are characterised.  A payload is accepted
      exactly when it is a well-formed batch ([batch_decoded]); the supervisor
      counts identities and shares indexes right under interleaved calls, as long as
      no two overlapping calls add the same worker and no identity is counted while
      its index is being dropped ([supervisor_sound]), removal clears a worker's claims ([removal_clears]), endpoints are distinct
      ([endpoints_resolved]), and block keys are the digests of canonical CBOR and
      name prefixes, up to collisions among the inputs digested
      ([block_keys_exact]).
    - Program scheduling: the runtime's counts, placements and waiters stay
      consistent ([lifecycle_facts]); completions of an older placement are
      rejected ([completion_fenced], [generation_fence]); the pool keeps every
      request once, first in first out within a program; lineage lookups end
      and path compression does not change them.
    - The scheduler: after any sequence of calls the facts, the runtime, the
      pools and the queues agree ([scheduler_consistent]) and no waiting program
      is lost ([no_waiter_lost]); dispatches go to listed targets; the loops end and
      every admission they make is within the limits of its target
      ([admission_within_limits]; a scheduler that is binding only admits without
      them); with target queues they resume in order ([schedule_in_order]) and, when
      the pools share no target, leave only programs that a target refuses
      ([tick_leaves_refused]).
    - Workers: breaker, with its answers, and health follow their documented
      machines ([run_refines_spec], [health_refines]); the load is the number of live
      guards; the registry's indexes agree with the list of registered workers
      ([registry_refines], [registry_queries]); URLs and ranks round-trip.
    - Policies: the five policies of [Policies] pick an available worker if there
      is one ([policies_pick_available]); adding or removing a worker moves only that
      worker's keys on the ring and under rendezvous hashing
      ([ring_minimal_disruption], [rendezvous_minimal_disruption]); a session
      stays on its worker, round robin is fair, and a model keeps its policy
      while it has workers.
    - Cache-aware routing: the prefix tree answers as the abstract map does
      ([tree_refines]), the policy routes as its branches say over that map, on a
      miss to the least load and not, as its header says, to the smallest tree
      ([cache_aware_routes]), and the trees stay within their size
      ([trees_bounded]).
    - KV-aware routing: the slots count the open requests ([slots_exact]), the
      policy selects the worker of the least projected work ([cheapest_selected])
      and credits exactly the blocks that the index holds ([placement_exact]).
    - Text: the decode stream emits exactly the text of its tokens, and the stop
      decoder stops at the first complete text that contains a stop sequence and cuts
      it there, trying the sequences in the order they are configured
      ([process_tokens_exact]); the cache of encodings does not change them and
      keeps its budgets ([cache_transparent], [cache_bounded]).
    - Requests: what an accepted identity promises ([identity_contract]), which
      configurations are accepted ([validated_router], [validated_scheduler]); while
      no id is stored twice, the response store is the list of stored responses
      ([storage_refines]); retries
      end ([retry_contract]); every request of the limiter has one fate
      ([every_request_accounted]); a chat request is accepted exactly when its
      parameters are in range and have none of the conflicts that are checked, among
      which those of [structured_outputs] are not ([chat_validated]), messages
      round-trip through JSON ([message_roundtrip]), reranking keeps the best
      results ([rerank_best]) and merged logprobs are those of the joined text
      ([merged_texts]).  A streamed response is completed once, with the usage of
      its lines when none is over 1 MiB ([response_accounted]); service discovery asks
      any router for exactly the pods its labels select ([discovery_exact]).
    - The theorems of kind "error" exhibit behaviour that the code does not mean
      to have; they are listed as findings.

    ** Fuel

    The tree walks of [KvShard] take as fuel the number of heap nodes or blocks
    left, and [shard_refines] proves that this is enough: no run is cut short.
    The walks of [Lineage] are proved to end within the size of the forest
    ([lineage_terminates]).  [erase], [chunks], [chunks_exact],
    [chunks_exact_of], [colon_position] and [trim_start] take the length of their input, of which every round
    consumes at least one element.  [depth_from] takes 32 rounds, which reach
    every 32-bit modulus.  The walks of [PrefixTree] take the length of the text,
    its searches the number of nodes, and eviction and removal the number of
    queue entries and nodes; [tree_refines] proves that each run ends.  The
    scheduling loops take the number of queued programs, since every round
    resumes one; [schedule_in_order] proves that they end.  The eviction loop of
    [TokenizerCache] takes the number of entries, [collect_ids] the depth that the
    source gives, and the retry loops the maximum of attempts ([retry_contract]).

    ** What is not modelled

    Not modelled because it is input and output or another package: the HTTP and
    gRPC routers, the server, metrics and traces, the derived
    serde code and the tokenizer wrappers.  Of the scheduler, the asynchronous wait of a
    request is the order of its polls, the logarithm, the exponential and the
    square of the platform are parameters, and the metrics and logs are left out.
    The router's own types of streamed responses pass through it as bytes and are
    not modelled; the MessagePack parsers and the URL parser are classes. *)

From Stdlib Require Export NArith ZArith Lia.
From stdpp Require Export sorting base tactics option gmap fin_maps fin_sets strings numbers.
From stdpp Require Export list.

(** ** Machine integers

    Unsigned machine integers are values of [N] kept below a modulus; each
    arithmetic operation of the source is the operation of that name here. *)

Definition u32_mod : N := 4294967296.
Definition u64_mod : N := 18446744073709551616.
Definition u32_max : N := u32_mod - 1.
Definition u64_max : N := u64_mod - 1.

Definition u32_wrapping_add (a b : N) : N := (a + b) mod u32_mod.
Definition u64_wrapping_add (a b : N) : N := (a + b) mod u64_mod.
Definition u64_saturating_add (a b : N) : N := N.min (a + b) u64_max.

Definition is_u32 (a : N) : Prop := (a < u32_mod)%N.
Definition is_u64 (a : N) : Prop := (a < u64_mod)%N.

(** Natural-number subtraction on [N] truncates at zero, as
    [saturating_sub], [Instant::saturating_duration_since] and
    [Instant::elapsed] do. *)
Definition saturating_sub (a b : N) : N := (a - b)%N.

(** [a + b] and [a - b] on [usize], which must not leave the type. *)
Definition usize_add (a b : N) : option N := if (a + b <? u64_mod)%N then Some (a + b)%N else None.
Definition usize_sub (a b : N) : option N := if (b <=? a)%N then Some (a - b)%N else None.

(** [n as isize] *)
Definition as_isize (n : N) : Z :=
  if (n <? 9223372036854775808)%N then Z.of_N n else (Z.of_N n - 18446744073709551616)%Z.

(** [a - b] on [isize] *)
Definition isize_sub (a b : Z) : option Z :=
  if ((-9223372036854775808 <=? a - b) && (a - b <? 9223372036854775808))%Z then Some (a - b)%Z else None.

(** [n.saturating_add_signed(d)] *)
Definition saturating_add_signed (n : N) (d : Z) : N := Z.to_N (Z.min (Z.max (Z.of_N n + d) 0) (Z.of_N u64_max)).

(** ** Results *)

Inductive result (A E : Type) :=
| Ok (a : A)
| Err (e : E).

Arguments Ok {_ _} _.
Arguments Err {_ _} _.

(** A loop over a list whose body may not return. *)
Fixpoint foldM {A S} (f : A -> S -> option S) (l : list A) (s : S) : option S :=
  match l with
  | [] => Some s
  | x :: l => s ← f x s; foldM f l s
  end.

(** ** Comparisons *)

(** [a.then_with(b)] *)
Definition then_with (a b : comparison) : comparison := match a with Eq => b | _ => a end.

(** [Iterator::max_by]: the last of the greatest. *)
Definition max_by {A} (cmp : A -> A -> comparison) (l : list A) : option A :=
  match l with
  | [] => None
  | x :: l => Some (foldl (fun best y => match cmp best y with Gt => best | _ => y end) x l)
  end.

(** [Iterator::min_by]: the first of the least. *)
Definition min_by {A} (cmp : A -> A -> comparison) (l : list A) : option A :=
  match l with
  | [] => None
  | x :: l => Some (foldl (fun best y => match cmp best y with Gt => y | _ => best end) x l)
  end.

Definition min_by_key {A} (key : A -> N) (l : list A) : option A := min_by (fun x y => key x ?= key y)%N l.

(** [slice::sort_by]: a stable sort. *)
Fixpoint insert_by {A} (cmp : A -> A -> comparison) (x : A) (l : list A) : list A :=
  match l with
  | [] => [x]
  | y :: l => match cmp x y with Gt => y :: insert_by cmp x l | _ => x :: y :: l end
  end.

Definition sort_by {A} (cmp : A -> A -> comparison) (l : list A) : list A := foldr (insert_by cmp) [] l.

Record total_order {A} (cmp : A -> A -> comparison) : Prop := {
  cmp_sym : forall x y, cmp y x = CompOpp (cmp x y);
  cmp_trans : forall c x y z, cmp x y = c -> cmp y z = c -> cmp x z = c;
}.

(** [bool::cmp] and [Option::cmp] *)
Definition bool_cmp (a b : bool) : comparison :=
  match a, b with false, true => Lt | true, false => Gt | _, _ => Eq end.

Definition option_cmp {A} (cmp : A -> A -> comparison) (a b : option A) : comparison :=
  match a, b with
  | None, None => Eq
  | None, Some _ => Lt
  | Some _, None => Gt
  | Some a, Some b => cmp a b
  end.

(** ** Iterators *)

(** [Iterator::find_map] *)
Fixpoint find_map {A B} (f : A -> option B) (l : list A) : option B :=
  match l with
  | [] => None
  | x :: l => match f x with Some y => Some y | None => find_map f l end
  end.

(** [Iterator::take_while] *)
Fixpoint take_while {A} (f : A -> bool) (l : list A) : list A :=
  match l with
  | [] => []
  | x :: l => if f x then x :: take_while f l else []
  end.

(** The keys of a hash table are visited in some order, which does not change
    while the set of keys does not. *)
Class HashOrder := {
  key_order : forall {K : Type} `{Countable K}, gset K -> list K;
  key_order_perm : forall (K : Type) `{Countable K} (s : gset K), key_order s ≡ₚ elements s;
}.

(** [map.iter()] *)
Definition iter `{HashOrder} {K V} `{Countable K} (m : gmap K V) : list (K * V) :=
  omap (fun k => pair k <$> m !! k) (key_order (dom m)).

(** The sum of a count over a map. *)
Definition gmap_sum {K A} `{Countable K} (f : A -> N) (m : gmap K A) : N := map_fold (fun _ a n => f a + n)%N 0%N m.

(** A [BTreeSet] of strings visits its elements in their order. *)
Definition btree_iter (s : gset string) : list string := sort_by String.compare (elements s).

(** ** Record updates

    [r <| f := v |>] is [r] with [v] in its field [f].  A record whose fields
    are updated declares its constructor applied to all its projections. *)

Class Eta (R : Type) := eta_expand : R -> R.
Class Setter {R T : Type} (proj : R -> T) := set_field : (T -> T) -> R -> R.

Ltac solve_setter :=
  match goal with
  | |- @Setter ?R ?T ?proj =>
      let e := constr:(ltac:(typeclasses eauto) : Eta R) in
      let e := eval hnf in (e : R -> R) in
      match eval pattern proj in e with
      | ?build _ => exact (fun f r => build (fun r => f (proj r)) r)
      end
  end.

#[export] Hint Extern 0 (Setter _) => solve_setter : typeclass_instances.

Declare Scope update_scope.
Delimit Scope update_scope with update.
Notation "r <| f := v |>" := (set_field (proj := f) (fun _ => v) r)
  (at level 1, left associativity, f at level 9) : update_scope.
Notation "r <| f ::= g |>" := (set_field (proj := f) g r)
  (at level 1, left associativity, f at level 9) : update_scope.

(** ** Automation *)

(** [lia] with division and modulo by constants. *)
Ltac lia_mod := zify; Z.to_euclidean_division_equations; lia.

(** A closed equation, decided by evaluating both sides in the virtual machine
    without reading the values back. *)
Ltac vm_refl := match goal with |- _ = ?b => vm_cast_no_check (eq_refl b) end.

(** ** Hash order *)

Lemma omap_lookup_elements {K V} `{Countable K} (m : gmap K V) (l : list K) : l ≡ₚ elements (dom m) ->
  omap (fun k => pair k <$> m !! k) l ≡ₚ map_to_list m.
Proof.
  intros Hl. apply NoDup_Permutation; [|apply NoDup_map_to_list|].
  - apply (NoDup_fmap_1 fst).
    assert (forall l', fst <$> omap (fun k => pair k <$> m !! k) l' = filter (fun k => is_Some (m !! k)) l') as ->.
    { induction l' as [|k l' IH]; [done|]. simpl. rewrite filter_cons. destruct (m !! k) as [v|] eqn:E; simpl.
      - f_equal. exact IH.
      - exact IH. }
    apply NoDup_filter. rewrite Hl. apply NoDup_elements.
  - intros [k v]. rewrite elem_of_map_to_list, list_elem_of_omap. split.
    + intros (k' & _ & E). destruct (m !! k') eqn:E'; simpl in E; by simplify_eq.
    + intros E. exists k. rewrite E. split; [|done]. rewrite Hl. apply elem_of_elements, elem_of_dom. by exists v.
Qed.

Lemma iter_perm `{HashOrder} {K V} `{Countable K} (m : gmap K V) : iter m ≡ₚ map_to_list m.
Proof. apply omap_lookup_elements, key_order_perm. Qed.

Lemma elem_of_iter `{HashOrder} {K V} `{Countable K} (m : gmap K V) k v : (k, v) ∈ iter m <-> m !! k = Some v.
Proof. by rewrite iter_perm, elem_of_map_to_list. Qed.

(** ** Lists *)

Lemma elem_of_sublist {A} (x : A) l1 l2 : l1 `sublist_of` l2 -> x ∈ l1 -> x ∈ l2.
Proof. intros H Hx. exact (elem_of_submseteq _ _ _ Hx (sublist_submseteq _ _ H)). Qed.

Lemma StronglySorted_sublist {A} (R : relation A) l1 l2 :
  l1 `sublist_of` l2 -> StronglySorted R l2 -> StronglySorted R l1.
Proof.
  induction 1 as [|x l1 l2 Hsub IH|x l1 l2 Hsub IH]; intros Hs; [done| |].
  - apply StronglySorted_cons in Hs as [HF Hs]. apply StronglySorted_cons. split; [|auto].
    rewrite Forall_forall in HF |- *. intros y Hy. eapply HF, elem_of_sublist; eauto.
  - apply StronglySorted_cons in Hs as [_ Hs]. auto.
Qed.

Lemma filter_none {A} (P : A -> Prop) `{!forall x, Decision (P x)} (l : list A) :
  Forall (fun x => ~ P x) l -> filter P l = [].
Proof. induction 1 as [|x l Hx _ IH]; [done|]. by rewrite filter_cons_False. Qed.

Lemma Forall_sublist {A} (P : A -> Prop) l1 l2 :
  l1 `sublist_of` l2 -> Forall P l2 -> Forall P l1.
Proof. rewrite !Forall_forall. eauto using elem_of_sublist. Qed.

Lemma forallb_Forall_true {A} (f : A -> bool) l :
  forallb f l = true <-> Forall (fun x => f x = true) l.
Proof.
  induction l as [|x l IH]; simpl; [by split|]. by rewrite andb_true_iff, Forall_cons, IH.
Qed.

Lemma filter_ext_elem {A} (P Q : A -> Prop) `{!forall x, Decision (P x), !forall x, Decision (Q x)} (l : list A) :
  (forall x, x ∈ l -> P x <-> Q x) -> filter P l = filter Q l.
Proof.
  induction l as [|x l IH]; intros HPQ; [done|]. rewrite !filter_cons, IH by set_solver.
  pose proof (HPQ x ltac:(left)). repeat case_decide; naive_solver.
Qed.

Lemma filter_of_fmap {A B} (f : A -> B) (P : B -> Prop) `{!forall x, Decision (P x)} (l : list A) :
  filter P (f <$> l) = f <$> filter (fun x => P (f x)) l.
Proof.
  induction l as [|x l IH]; [done|]. rewrite fmap_cons, !filter_cons, IH. by case_decide.
Qed.

(** Elements with distinct keys are determined by their keys. *)
Lemma NoDup_key_inj {A B} (f : A -> B) (l : list A) x y :
  NoDup (f <$> l) -> x ∈ l -> y ∈ l -> f x = f y -> x = y.
Proof.
  intros Hnd [i Hx]%list_elem_of_lookup [j Hy]%list_elem_of_lookup E.
  assert ((f <$> l) !! i = Some (f x)) as H1 by (by rewrite list_lookup_fmap, Hx).
  assert ((f <$> l) !! j = Some (f x)) as H2 by (by rewrite list_lookup_fmap, Hy, E).
  pose proof (NoDup_lookup _ _ _ _ Hnd H1 H2) as ->. congruence.
Qed.

Lemma filter_all {A} (P : A -> Prop) `{!forall x, Decision (P x)} (l : list A) :
  Forall P l -> filter P l = l.
Proof. induction 1 as [|x l Hx _ IH]; [done|]. by rewrite filter_cons_True, IH. Qed.

(** Of two prefixes of a list the shorter is a prefix of the longer. *)
Lemma prefix_of_shorter {A} (l1 l2 l : list A) :
  l1 `prefix_of` l -> l2 `prefix_of` l -> length l1 <= length l2 -> l1 `prefix_of` l2.
Proof.
  intros H1 H2 Hl. destruct (prefix_weak_total _ _ _ H1 H2) as [|H]; [done|].
  by rewrite (prefix_length_eq _ _ H Hl).
Qed.

(** ** Sums over maps *)

Section sums.
Context {K A : Type} `{Countable K} (f : A -> N).

Lemma gmap_sum_empty : gmap_sum f (∅ : gmap K A) = 0%N.
Proof. apply map_fold_empty. Qed.

Lemma gmap_sum_insert (m : gmap K A) k a : m !! k = None -> gmap_sum f (<[k := a]> m) = (f a + gmap_sum f m)%N.
Proof. intros Hk. unfold gmap_sum. by rewrite map_fold_insert_L by (done || intros; lia). Qed.

Lemma gmap_sum_delete (m : gmap K A) k a : m !! k = Some a -> gmap_sum f m = (f a + gmap_sum f (delete k m))%N.
Proof. intros Hk. rewrite <- (insert_delete_id m k a Hk) at 1. by rewrite gmap_sum_insert by apply lookup_delete_eq. Qed.

Lemma gmap_sum_update (m : gmap K A) k a a' : m !! k = Some a -> (gmap_sum f (<[k := a']> m) + f a = gmap_sum f m + f a')%N.
Proof.
  intros Hk. rewrite (gmap_sum_delete m k a Hk), <- insert_delete_eq, gmap_sum_insert by apply lookup_delete_eq. lia.
Qed.

Lemma gmap_sum_elem (m : gmap K A) k a : m !! k = Some a -> (f a <= gmap_sum f m)%N.
Proof. intros Hk. rewrite (gmap_sum_delete m k a Hk). lia. Qed.
End sums.

Lemma gmap_sum_mono {K A} `{Countable K} (f g : A -> N) (m : gmap K A) : map_Forall (fun _ a => f a <= g a)%N m ->
  (gmap_sum f m <= gmap_sum g m)%N.
Proof.
  induction m as [|k a m Hk IH] using map_ind; [rewrite !gmap_sum_empty; lia|].
  rewrite map_Forall_insert by done. intros [H1 H2]. rewrite !gmap_sum_insert by done. specialize (IH H2). lia.
Qed.

(** ** Loops *)

Lemma foldM_inv_Forall {A S} (f : A -> S -> option S) (I : S -> Prop) (P : A -> Prop) l s :
  (forall x s, P x -> I s -> exists s', f x s = Some s' /\ I s') -> Forall P l -> I s ->
  exists s', foldM f l s = Some s' /\ I s'.
Proof.
  intros Hf HP. revert s. induction HP as [|x l Hx _ IH]; intros s Hs; [by exists s|].
  destruct (Hf x s Hx Hs) as (s1 & E & Hs1). simpl. rewrite E. simpl. auto.
Qed.

Lemma foldM_inv {A S} (f : A -> S -> option S) (I : S -> Prop) l s :
  (forall x s, I s -> exists s', f x s = Some s' /\ I s') -> I s -> exists s', foldM f l s = Some s' /\ I s'.
Proof. intros Hf. apply (foldM_inv_Forall f I (fun _ => True)); [auto|by apply Forall_true]. Qed.

(** ** Total orders *)

Lemma Z_total : total_order Z.compare.
Proof.
  split; [intros; apply Z.compare_antisym|]. intros [] x y z; rewrite ?Z.compare_eq_iff, ?Z.compare_lt_iff, ?Z.compare_gt_iff; lia.
Qed.

Lemma N_total : total_order N.compare.
Proof.
  split; [intros; apply N.compare_antisym|]. intros [] x y z; rewrite ?N.compare_eq_iff, ?N.compare_lt_iff, ?N.compare_gt_iff; lia.
Qed.

Lemma bool_total : total_order bool_cmp.
Proof. split; [by intros [] []|]. by intros [] [] [] []. Qed.

Lemma option_total {A} (cmp : A -> A -> comparison) : total_order cmp -> total_order (option_cmp cmp).
Proof.
  intros [Hs Ht]. split; [intros [] []; simpl; auto|].
  intros c [x|] [y|] [z|]; simpl; try congruence. apply Ht.
Qed.

Lemma total_key {A B} (f : A -> B) cmp : total_order cmp -> total_order (fun x y => cmp (f x) (f y)).
Proof. intros [Hs Ht]. split; [auto|]. intros c x y z. apply Ht. Qed.

Lemma total_flip {A} (cmp : A -> A -> comparison) : total_order cmp -> total_order (fun x y => cmp y x).
Proof. intros [Hs Ht]. split; [auto|]. intros c x y z H1 H2. by apply (Ht c z y x). Qed.

Section total.
Context {A : Type} (cmp : A -> A -> comparison) (Ho : total_order cmp).

Lemma cmp_refl x : cmp x x = Eq.
Proof. pose proof (cmp_sym cmp Ho x x) as H. by destruct (cmp x x). Qed.

(** Equal elements compare alike. *)
Lemma cmp_eq_l x y z : cmp x y = Eq -> cmp x z = cmp y z.
Proof.
  intros E. assert (cmp y x = Eq) as E' by (by rewrite (cmp_sym cmp Ho x y), E).
  assert (forall c a b d, cmp a b = c -> cmp b d = c -> cmp a d = c) as Ht by apply (cmp_trans cmp Ho).
  assert (forall a b, cmp a b = Lt -> cmp b a = Gt) as H1 by (intros a b H; by rewrite (cmp_sym cmp Ho a b), H).
  assert (forall a b, cmp a b = Gt -> cmp b a = Lt) as H2 by (intros a b H; by rewrite (cmp_sym cmp Ho a b), H).
  destruct (cmp x z) eqn:Exz, (cmp y z) eqn:Eyz; try done; exfalso.
  - pose proof (Ht Eq y x z E' Exz). congruence.
  - pose proof (Ht Eq y x z E' Exz). congruence.
  - pose proof (Ht Eq x y z E Eyz). congruence.
  - pose proof (Ht Lt x z y Exz (H2 _ _ Eyz)). congruence.
  - pose proof (Ht Eq x y z E Eyz). congruence.
  - pose proof (Ht Lt y z x Eyz (H2 _ _ Exz)). congruence.
Qed.

Lemma cmp_eq_r x y z : cmp x y = Eq -> cmp z x = cmp z y.
Proof. intros E. rewrite (cmp_sym cmp Ho x z), (cmp_sym cmp Ho y z). f_equal. by apply cmp_eq_l. Qed.

Lemma cmp_le_trans x y z : cmp x y <> Gt -> cmp y z <> Gt -> cmp x z <> Gt.
Proof.
  intros H1 H2. destruct (cmp x y) eqn:E1; [by rewrite (cmp_eq_l _ _ z E1)| |done].
  destruct (cmp y z) eqn:E2; [by rewrite <- (cmp_eq_r _ _ x E2), E1| |done].
  by rewrite (cmp_trans cmp Ho Lt x y z E1 E2).
Qed.

Lemma cmp_not_le x y : cmp x y = Gt -> cmp y x <> Gt.
Proof. intros E. by rewrite (cmp_sym cmp Ho x y), E. Qed.

Lemma max_by_none l : max_by cmp l = None <-> l = [].
Proof. by destruct l. Qed.

Lemma max_by_spec l m : max_by cmp l = Some m -> m ∈ l /\ forall x, x ∈ l -> cmp x m <> Gt.
Proof.
  destruct l as [|a l]; [done|]. intros [= <-]. revert a. induction l as [|b l IH]; intros a.
  - split; [left|]. intros x ->%list_elem_of_singleton. simpl. by rewrite cmp_refl.
  - cbn [foldl]. set (m := foldl _ _ l). destruct (cmp a b) eqn:E.
    + destruct (IH b) as [Hin Hmax]. fold m in Hin, Hmax. split; [set_solver|].
      intros x [->|Hx]%elem_of_cons; [|by apply Hmax]. apply cmp_le_trans with b; [congruence|apply Hmax; left].
    + destruct (IH b) as [Hin Hmax]. fold m in Hin, Hmax. split; [set_solver|].
      intros x [->|Hx]%elem_of_cons; [|by apply Hmax]. apply cmp_le_trans with b; [congruence|apply Hmax; left].
    + destruct (IH a) as [Hin Hmax]. fold m in Hin, Hmax. split; [set_solver|].
      intros x [->|[->|Hx]%elem_of_cons]%elem_of_cons; [apply Hmax; left| |apply Hmax; by right].
      apply cmp_le_trans with a; [by apply cmp_not_le|apply Hmax; left].
Qed.

(** When only equal elements compare equal, the order of the list is of no
    matter. *)
Lemma max_by_perm l l' : (forall x y, x ∈ l -> y ∈ l -> cmp x y = Eq -> x = y) -> l ≡ₚ l' -> max_by cmp l = max_by cmp l'.
Proof.
  intros Hinj HP. destruct (max_by cmp l) as [m|] eqn:E, (max_by cmp l') as [m'|] eqn:E'.
  - destruct (max_by_spec _ _ E) as [Hm Hmax], (max_by_spec _ _ E') as [Hm' Hmax']. f_equal. apply Hinj; [done|by rewrite HP|].
    specialize (Hmax m' ltac:(by rewrite HP)). specialize (Hmax' m ltac:(by rewrite <- HP)).
    rewrite (cmp_sym cmp Ho m m') in Hmax. by destruct (cmp m m').
  - apply max_by_none in E'. subst l'. apply Permutation_nil_r in HP. by subst l.
  - apply max_by_none in E. subst l. apply Permutation_nil_l in HP. by subst l'.
  - done.
Qed.

Lemma insert_by_perm x l : insert_by cmp x l ≡ₚ x :: l.
Proof. induction l as [|y l IH]; simpl; [done|]. case_match; [done..|]. rewrite IH. apply Permutation_swap. Qed.

Lemma sort_by_perm l : sort_by cmp l ≡ₚ l.
Proof. induction l as [|x l IH]; simpl; [done|]. by rewrite insert_by_perm, IH. Qed.

Lemma sort_by_sorted l : StronglySorted (fun x y => cmp x y <> Gt) (sort_by cmp l).
Proof.
  induction l as [|x l IH]; simpl; [constructor|]. induction IH as [|y l' Hs IH HF]; simpl; [repeat constructor|].
  destruct (cmp x y) eqn:E.
  1,2: constructor; [by constructor|]; constructor; [congruence|]; eapply Forall_impl; [exact HF|]; intros z Hz;
    apply cmp_le_trans with y; [congruence|done].
  constructor; [done|]. rewrite insert_by_perm. constructor; [by apply cmp_not_le|done].
Qed.

(** A stable sort commutes with filtering. *)
Lemma insert_by_filter (P : A -> Prop) `{!forall x, Decision (P x)} x l :
  StronglySorted (fun x y => cmp x y <> Gt) l ->
  filter P (insert_by cmp x l) = if decide (P x) then insert_by cmp x (filter P l) else filter P l.
Proof.
  induction 1 as [|y l Hs IH HF]; [done|]. cbn [insert_by]. rewrite (filter_cons P y l).
  destruct (cmp x y) eqn:E; [| |rewrite filter_cons, IH; repeat case_decide; simpl; rewrite ?E; done].
  all: rewrite filter_cons, (filter_cons P y l); repeat case_decide; simpl; rewrite ?E; try done.
  all: destruct (filter P l) as [|z l'] eqn:El; [done|]; cbn [insert_by].
  all: assert (z ∈ l) as Hz by (assert (z ∈ filter P l) as Hz by (rewrite El; left); by apply list_elem_of_filter in Hz as [_ ?]).
  all: rewrite Forall_forall in HF; assert (cmp x z <> Gt) by (apply (cmp_le_trans x y z); [congruence|auto]).
  all: by destruct (cmp x z).
Qed.

Lemma sort_by_filter (P : A -> Prop) `{!forall x, Decision (P x)} l :
  sort_by cmp (filter P l) = filter P (sort_by cmp l).
Proof.
  induction l as [|x l IH]; [done|]. cbn [sort_by foldr]. fold (sort_by cmp l).
  rewrite insert_by_filter by apply sort_by_sorted. rewrite filter_cons, <- IH. by case_decide.
Qed.
End total.

Lemma elem_of_btree t ids : t ∈ btree_iter ids <-> t ∈ ids.
Proof. unfold btree_iter. by rewrite sort_by_perm, elem_of_elements. Qed.

Lemma total_then {A} (c1 c2 : A -> A -> comparison) : total_order c1 -> total_order c2 ->
  total_order (fun x y => then_with (c1 x y) (c2 x y)).
Proof.
  intros H1 H2. split.
  - intros x y. rewrite (cmp_sym c1 H1 x y), (cmp_sym c2 H2 x y). by destruct (c1 x y).
  - intros c x y z. destruct (c1 x y) eqn:Exy; simpl.
    + rewrite (cmp_eq_l c1 H1 x y z Exy). intros E1. destruct (c1 y z); simpl; [|done..]. by apply (cmp_trans c2 H2 c x y z).
    + intros <- E2. destruct (c1 y z) eqn:Eyz; simpl in E2; [by rewrite <- (cmp_eq_r c1 H1 y z x Eyz), Exy| |done].
      by rewrite (cmp_trans c1 H1 Lt x y z Exy Eyz).
    + intros <- E2. destruct (c1 y z) eqn:Eyz; simpl in E2; [by rewrite <- (cmp_eq_r c1 H1 y z x Eyz), Exy|done|].
      by rewrite (cmp_trans c1 H1 Gt x y z Exy Eyz).
Qed.

Lemma min_by_spec {A} (cmp : A -> A -> comparison) l : total_order cmp ->
  forall m, min_by cmp l = Some m -> m ∈ l /\ forall x, x ∈ l -> cmp m x <> Gt.
Proof.
  intros Ho. destruct l as [|a l]; [done|]. intros m [= <-]. revert a. induction l as [|b l IH]; intros a.
  - split; [left|]. intros x ->%list_elem_of_singleton. simpl. by rewrite cmp_refl.
  - cbn [foldl]. set (m := foldl _ _ l). destruct (cmp a b) eqn:E.
    3: { destruct (IH b) as [Hin Hmin]. fold m in Hin, Hmin. split; [set_solver|].
      intros x [->|Hx]%elem_of_cons; [|by apply Hmin].
      apply (cmp_le_trans cmp Ho) with b; [apply Hmin; left|by apply (cmp_not_le cmp Ho)]. }
    all: destruct (IH a) as [Hin Hmin]; fold m in Hin, Hmin; split; [set_solver|];
      intros x [->|[->|Hx]%elem_of_cons]%elem_of_cons; [apply Hmin; left| |apply Hmin; by right];
      apply (cmp_le_trans cmp Ho) with a; [apply Hmin; left|congruence].
Qed.

Lemma min_by_key_spec {A} (key : A -> N) l i : min_by_key key l = Some i ->
  i ∈ l /\ forall j, j ∈ l -> (key i <= key j)%N.
Proof. intros H. apply (min_by_spec _ l (total_key key _ N_total)) in H as [? H]. split; [done|]. intros j Hj. by apply H. Qed.

(** Strings compare by their bytes. *)
Lemma string_total : total_order String.compare.
Proof.
  split; [intros; apply String.compare_antisym|].
  intros c x. revert c. induction x as [|a x IH]; intros c [|b y] [|d z]; simpl; try congruence.
  unfold Ascii.compare. pose proof (cmp_trans _ N_total) as Ht. pose proof (cmp_eq_l _ N_total) as Hl.
  pose proof (cmp_eq_r _ N_total) as Hr. set (a' := Ascii.N_of_ascii a). set (b' := Ascii.N_of_ascii b). set (d' := Ascii.N_of_ascii d).
  destruct (a' ?= b')%N eqn:E1.
  - rewrite (Hl _ _ d' E1). destruct (b' ?= d')%N; [apply IH|done..].
  - intros <-. destruct (b' ?= d')%N eqn:E2; intros E; [by rewrite <- (Hr _ _ a' E2), E1| |done]. by rewrite (Ht Lt a' b' d' E1 E2).
  - intros <-. destruct (b' ?= d')%N eqn:E2; intros E; [by rewrite <- (Hr _ _ a' E2), E1|done|]. by rewrite (Ht Gt a' b' d' E1 E2).
Qed.
