(* ===== verification/CircuitBreaker.v ===== *)
(** * The circuit breaker of [src/core/circuit_breaker.rs]

    [CircuitBreaker] is the struct of that file, its atomics and locked cells
    as record fields; one definition per method, each taking the clock reading
    [now] (an [Instant] in nanoseconds) the method makes.  A method is one
    step: the clock is read once and no other thread's method runs inside it.
    [SpecState] and [spec_step] are the state machine the README documents,
    over unbounded counters, and [abs] is the abstraction function. *)

From S2P Require Import Prelude.

Local Open Scope N_scope.

(** ** The data *)

Record CircuitBreakerConfig := {
  failure_threshold : N;   (* u32 *)
  success_threshold : N;   (* u32 *)
  timeout_duration : N;
  window_duration : N;
}.

Definition default_config : CircuitBreakerConfig := {|
  failure_threshold := 5;
  success_threshold := 2;
  timeout_duration := 30 * 1000000000;
  window_duration := 60 * 1000000000;
|}.

Inductive CircuitState := Closed | Open | HalfOpen.

#[export] Instance CircuitState_eq_dec : EqDecision CircuitState.
Proof. solve_decision. Defined.

Record CircuitBreaker := MkBreaker {
  cb_state : CircuitState;
  consecutive_failures : N;    (* AtomicU32 *)
  consecutive_successes : N;   (* AtomicU32 *)
  total_failures : N;          (* AtomicU64 *)
  total_successes : N;         (* AtomicU64 *)
  last_failure_time : option N;
  last_state_change : N;
  config : CircuitBreakerConfig;
}.

Definition with_config (cfg : CircuitBreakerConfig) (now : N) : CircuitBreaker := {|
  cb_state := Closed;
  consecutive_failures := 0;
  consecutive_successes := 0;
  total_failures := 0;
  total_successes := 0;
  last_failure_time := None;
  last_state_change := now;
  config := cfg;
|}.

Definition new (now : N) : CircuitBreaker := with_config default_config now.

(** ** The operations *)

Definition set_consecutive (f s : N) (cb : CircuitBreaker) : CircuitBreaker := {|
  cb_state := cb_state cb;
  consecutive_failures := f;
  consecutive_successes := s;
  total_failures := total_failures cb;
  total_successes := total_successes cb;
  last_failure_time := last_failure_time cb;
  last_state_change := last_state_change cb;
  config := config cb;
|}.

Definition transition_to (now : N) (new_state : CircuitState) (cb : CircuitBreaker)
  : CircuitBreaker :=
  if decide (cb_state cb = new_state) then cb
  else
    let cb' := {|
      cb_state := new_state;
      consecutive_failures := consecutive_failures cb;
      consecutive_successes := consecutive_successes cb;
      total_failures := total_failures cb;
      total_successes := total_successes cb;
      last_failure_time := last_failure_time cb;
      last_state_change := now;
      config := config cb |} in
    match new_state with
    | Closed => set_consecutive 0 0 cb'
    | Open => set_consecutive (consecutive_failures cb) 0 cb'
    | HalfOpen => set_consecutive 0 0 cb'
    end.

Definition check_and_update_state (now : N) (cb : CircuitBreaker) : CircuitBreaker :=
  match cb_state cb with
  | Open =>
      if timeout_duration (config cb) <=? saturating_sub now (last_state_change cb)
      then transition_to now HalfOpen cb
      else cb
  | _ => cb
  end.

Definition can_execute (now : N) (cb : CircuitBreaker) : bool * CircuitBreaker :=
  let cb := check_and_update_state now cb in
  (match cb_state cb with Closed => true | Open => false | HalfOpen => true end, cb).

Definition state (now : N) (cb : CircuitBreaker) : CircuitState * CircuitBreaker :=
  let cb := check_and_update_state now cb in
  (cb_state cb, cb).

Definition record_success (now : N) (cb : CircuitBreaker) : CircuitBreaker :=
  let successes := u32_wrapping_add (consecutive_successes cb) 1 in
  let cb := {|
    cb_state := cb_state cb;
    consecutive_failures := 0;
    consecutive_successes := successes;
    total_failures := total_failures cb;
    total_successes := u64_wrapping_add (total_successes cb) 1;
    last_failure_time := last_failure_time cb;
    last_state_change := last_state_change cb;
    config := config cb |} in
  match cb_state cb with
  | HalfOpen =>
      if success_threshold (config cb) <=? successes
      then transition_to now Closed cb
      else cb
  | Closed => cb
  | Open => cb
  end.

Definition record_failure (now : N) (cb : CircuitBreaker) : CircuitBreaker :=
  let failures := u32_wrapping_add (consecutive_failures cb) 1 in
  let cb := {|
    cb_state := cb_state cb;
    consecutive_failures := failures;
    consecutive_successes := 0;
    total_failures := u64_wrapping_add (total_failures cb) 1;
    total_successes := total_successes cb;
    last_failure_time := Some now;
    last_state_change := last_state_change cb;
    config := config cb |} in
  match cb_state cb with
  | Closed =>
      if failure_threshold (config cb) <=? failures
      then transition_to now Open cb
      else cb
  | HalfOpen => transition_to now Open cb
  | Open => cb
  end.

Definition record_outcome (now : N) (success : bool) (cb : CircuitBreaker) : CircuitBreaker :=
  if success then record_success now cb else record_failure now cb.

Definition is_half_open (now : N) (cb : CircuitBreaker) : bool * CircuitBreaker :=
  let '(s, cb) := state now cb in (bool_decide (s = HalfOpen), cb).

Definition record_test_success (now : N) (cb : CircuitBreaker) : CircuitBreaker :=
  let '(half, cb) := is_half_open now cb in
  if half then record_success now cb else cb.

Definition record_test_failure (now : N) (cb : CircuitBreaker) : CircuitBreaker :=
  let '(half, cb) := is_half_open now cb in
  if half then record_failure now cb else cb.

Definition reset (now : N) (cb : CircuitBreaker) : CircuitBreaker :=
  set_consecutive 0 0 (transition_to now Closed cb).

Definition force_open (now : N) (cb : CircuitBreaker) : CircuitBreaker :=
  transition_to now Open cb.

Definition time_since_last_failure (now : N) (cb : CircuitBreaker) : option N :=
  saturating_sub now <$> last_failure_time cb.

Definition time_since_last_state_change (now : N) (cb : CircuitBreaker) : N :=
  saturating_sub now (last_state_change cb).

Record CircuitBreakerStats := {
  stats_state : CircuitState;
  stats_consecutive_failures : N;
  stats_consecutive_successes : N;
  stats_total_failures : N;
  stats_total_successes : N;
  stats_time_since_last_failure : option N;
  stats_time_since_last_state_change : N;
}.

Definition stats (now : N) (cb : CircuitBreaker) : CircuitBreakerStats * CircuitBreaker :=
  let '(s, cb) := state now cb in
  ({| stats_state := s;
      stats_consecutive_failures := consecutive_failures cb;
      stats_consecutive_successes := consecutive_successes cb;
      stats_total_failures := total_failures cb;
      stats_total_successes := total_successes cb;
      stats_time_since_last_failure := time_since_last_failure now cb;
      stats_time_since_last_state_change := time_since_last_state_change now cb |}, cb).

(** ** Runs *)

(** The public methods that may change the breaker. *)
Inductive op :=
| CanExecute
| QueryState
| Stats
| Outcome (success : bool)
| TestSuccess
| TestFailure
| Reset
| ForceOpen.

Definition step (now : N) (o : op) (cb : CircuitBreaker) : CircuitBreaker :=
  match o with
  | CanExecute => (can_execute now cb).2
  | QueryState => (state now cb).2
  | Stats => (stats now cb).2
  | Outcome b => record_outcome now b cb
  | TestSuccess => record_test_success now cb
  | TestFailure => record_test_failure now cb
  | Reset => reset now cb
  | ForceOpen => force_open now cb
  end.

Definition run (ops : list (N * op)) (cb : CircuitBreaker) : CircuitBreaker :=
  fold_left (fun cb '(now, o) => step now o cb) ops cb.

(** What a call answers; of the statistics, the state, the totals and the time since
    the last failure. *)
Inductive answer :=
| Allowed (b : bool)
| InState (s : CircuitState)
| Reported (s : CircuitState) (failures successes : N) (since_failure : option N)
| Silent.

Definition reply (now : N) (o : op) (cb : CircuitBreaker) : answer :=
  match o with
  | CanExecute => Allowed (can_execute now cb).1
  | QueryState => InState (state now cb).1
  | Stats =>
      let st := (stats now cb).1 in
      Reported (stats_state st) (stats_total_failures st) (stats_total_successes st) (stats_time_since_last_failure st)
  | _ => Silent
  end.

Fixpoint replies (ops : list (N * op)) (cb : CircuitBreaker) : list answer :=
  match ops with
  | [] => []
  | (now, o) :: ops => reply now o cb :: replies ops (step now o cb)
  end.

(** A breaker fed with outcomes only. *)
Definition outcomes (l : list (N * bool)) : list (N * op) := prod_map id Outcome <$> l.

(** A run of [k] failures in a row. *)
Definition has_failure_run (k : nat) (l : list bool) : Prop :=
  exists pre post, l = pre ++ replicate k false ++ post.

(** ** The documented state machine *)

Inductive SpecState :=
| SClosed (failures_in_a_row : N)
| SOpen (since : N)
| SHalfOpen (successes_in_a_row : N).

Definition spec_query (cfg : CircuitBreakerConfig) (now : N) (s : SpecState) : SpecState :=
  match s with
  | SOpen since =>
      if timeout_duration cfg <=? now - since then SHalfOpen 0 else s
  | _ => s
  end.

Definition spec_success (cfg : CircuitBreakerConfig) (s : SpecState) : SpecState :=
  match s with
  | SClosed _ => SClosed 0
  | SOpen since => SOpen since
  | SHalfOpen k =>
      if success_threshold cfg <=? k + 1 then SClosed 0 else SHalfOpen (k + 1)
  end.

Definition spec_failure (cfg : CircuitBreakerConfig) (now : N) (s : SpecState) : SpecState :=
  match s with
  | SClosed n => if failure_threshold cfg <=? n + 1 then SOpen now else SClosed (n + 1)
  | SOpen since => SOpen since
  | SHalfOpen _ => SOpen now
  end.

Definition spec_step (cfg : CircuitBreakerConfig) (now : N) (o : op) (s : SpecState)
  : SpecState :=
  match o with
  | CanExecute | QueryState | Stats => spec_query cfg now s
  | Outcome true => spec_success cfg s
  | Outcome false => spec_failure cfg now s
  | TestSuccess =>
      match spec_query cfg now s with
      | SHalfOpen k => spec_success cfg (SHalfOpen k)
      | s' => s'
      end
  | TestFailure =>
      match spec_query cfg now s with
      | SHalfOpen k => spec_failure cfg now (SHalfOpen k)
      | s' => s'
      end
  | Reset => SClosed 0
  | ForceOpen => match s with SOpen since => SOpen since | _ => SOpen now end
  end.

Definition spec_run (cfg : CircuitBreakerConfig) (ops : list (N * op)) (s : SpecState)
  : SpecState :=
  fold_left (fun s '(now, o) => spec_step cfg now o s) ops s.

(** The outcomes recorded so far, the last one first: a health test is recorded only by
    a half-open breaker. *)
Definition spec_record (cfg : CircuitBreakerConfig) (now : N) (o : op) (s : SpecState) : list (N * bool) :=
  match o, spec_query cfg now s with
  | Outcome b, _ => [(now, b)]
  | TestSuccess, SHalfOpen _ => [(now, true)]
  | TestFailure, SHalfOpen _ => [(now, false)]
  | _, _ => []
  end.

Definition times (b : bool) (log : list (N * bool)) : list N := (filter (fun x => x.2 = b) log).*1.

Definition spec_state (s : SpecState) : CircuitState :=
  match s with SClosed _ => Closed | SOpen _ => Open | SHalfOpen _ => HalfOpen end.

(** A request passes unless the circuit is open; the totals are 64-bit counters. *)
Definition spec_reply (cfg : CircuitBreakerConfig) (now : N) (o : op) (s : SpecState) (log : list (N * bool)) : answer :=
  let s := spec_state (spec_query cfg now s) in
  match o with
  | CanExecute => Allowed (negb (bool_decide (s = Open)))
  | QueryState => InState s
  | Stats => Reported s (N.of_nat (length (times false log)) mod u64_mod) (N.of_nat (length (times true log)) mod u64_mod)
      ((fun t => now - t) <$> head (times false log))
  | _ => Silent
  end.

Fixpoint spec_replies (cfg : CircuitBreakerConfig) (ops : list (N * op)) (s : SpecState) (log : list (N * bool)) : list answer :=
  match ops with
  | [] => []
  | (now, o) :: ops => spec_reply cfg now o s log :: spec_replies cfg ops (spec_step cfg now o s) (spec_record cfg now o s ++ log)
  end.

Definition abs (cb : CircuitBreaker) : SpecState :=
  match cb_state cb with
  | Closed => SClosed (consecutive_failures cb)
  | Open => SOpen (last_state_change cb)
  | HalfOpen => SHalfOpen (consecutive_successes cb)
  end.

(** ** The invariant *)

(** While closed the failure count is below the threshold, and while half open
    the success count is: a count that reached it has already moved the
    breaker.  (A threshold of zero acts as a threshold of one.) *)
Record wf (cb : CircuitBreaker) : Prop := {
  wf_failure_threshold : is_u32 (failure_threshold (config cb));
  wf_success_threshold : is_u32 (success_threshold (config cb));
  wf_failures : is_u32 (consecutive_failures cb);
  wf_successes : is_u32 (consecutive_successes cb);
  wf_closed : cb_state cb = Closed ->
    consecutive_failures cb < N.max 1 (failure_threshold (config cb));
  wf_half_open : cb_state cb = HalfOpen ->
    consecutive_failures cb = 0 /\
    consecutive_successes cb < N.max 1 (success_threshold (config cb));
}.

(** Concrete values the witnesses run. *)
Definition refines_example : list (N * op) :=
  [(1, Outcome false); (2, Outcome false); (3, CanExecute); (40, CanExecute);
   (41, Outcome true); (42, Outcome true)].

Definition small_config : CircuitBreakerConfig := {|
  failure_threshold := 2; success_threshold := 2; timeout_duration := 30; window_duration := 60 |}.

Definition opened_example : CircuitBreaker := force_open 10 (with_config small_config 0).

(** ** Lemmas *)

Create HintDb breaker.

#[export] Hint Unfold step can_execute state stats record_outcome record_test_success
  record_test_failure is_half_open reset force_open check_and_update_state
  record_success record_failure transition_to set_consecutive
  spec_step spec_query spec_success spec_failure abs saturating_sub
  u32_wrapping_add is_u32 u32_mod : breaker.

(** Opens an operation on a breaker whose state is known, deciding every test
    the operation makes. *)
Ltac open_breaker :=
  autounfold with breaker in *; simpl in *;
  repeat (case_match || case_decide || case_bool_decide);
  simplify_eq; simpl in *; rewrite ?N.leb_le, ?N.leb_gt in *.

Lemma step_config now o cb : config (step now o cb) = config cb.
Proof. destruct cb as [[] ??????? ]; destruct o as [| | |[]| | | |]; open_breaker; auto. Qed.

Lemma with_config_wf cfg now :
  is_u32 (failure_threshold cfg) -> is_u32 (success_threshold cfg) ->
  wf (with_config cfg now).
Proof. intros; constructor; simpl; unfold is_u32, u32_mod in *; try done; lia. Qed.

Lemma step_wf now o cb : wf cb -> wf (step now o cb).
Proof.
  intros [? ? ? ? Hc Hh]. destruct cb as [[] ??????? ]; destruct o as [| | |[]| | | |];
    open_breaker; constructor; unfold is_u32, u32_mod; simpl in *; try done;
    intros; try specialize (Hc eq_refl); try destruct (Hh eq_refl); try split; try lia; lia_mod.
Qed.

Lemma step_abs now o cb :
  wf cb -> abs (step now o cb) = spec_step (config cb) now o (abs cb).
Proof.
  intros [? ? ? ? Hc Hh]. destruct cb as [[] ??????? ]; destruct o as [| | |[]| | | |];
    open_breaker; try done; try specialize (Hc eq_refl); try destruct (Hh eq_refl);
    try lia_mod; f_equal; lia_mod.
Qed.

Lemma run_invariant ops cb :
  wf cb ->
  wf (run ops cb) /\ config (run ops cb) = config cb /\
  abs (run ops cb) = spec_run (config cb) ops (abs cb).
Proof.
  revert cb. induction ops as [|[now o] ops IH]; intros cb Hwf; [done|]. simpl.
  destruct (IH (step now o cb)) as (? & Hcfg & Habs); [by apply step_wf|].
  rewrite Hcfg, Habs, step_config, step_abs by done. done.
Qed.

(** The totals and the last failure are those of the recorded outcomes. *)
Record logged (log : list (N * bool)) (cb : CircuitBreaker) : Prop := {
  logged_failures : total_failures cb = N.of_nat (length (times false log)) mod u64_mod;
  logged_successes : total_successes cb = N.of_nat (length (times true log)) mod u64_mod;
  logged_last : last_failure_time cb = head (times false log);
}.

Lemma step_logged log now o cb : logged log cb ->
  logged (spec_record (config cb) now o (abs cb) ++ log) (step now o cb).
Proof.
  intros [Hf Hs Hl]. destruct cb as [[] ??????? ]; destruct o as [| | |[]| | | |];
    autounfold with breaker in *; unfold spec_record; simpl in *;
    repeat (case_match || case_decide || case_bool_decide); simplify_eq; try done;
    constructor; unfold times in *; simpl in *; try done;
    unfold u64_wrapping_add; rewrite N.Div0.add_mod_idemp_l; f_equal; unfold fmap; lia.
Qed.

Lemma reply_spec log now o cb : logged log cb ->
  reply now o cb = spec_reply (config cb) now o (abs cb) log.
Proof.
  intros [Hf Hs Hl]. destruct cb as [[] ??????? ]; destruct o as [| | |[]| | | |];
    unfold reply, spec_reply, time_since_last_failure; open_breaker; done.
Qed.

Lemma replies_spec ops log cb : wf cb -> logged log cb ->
  replies ops cb = spec_replies (config cb) ops (abs cb) log.
Proof.
  revert log cb. induction ops as [|[now o] ops IH]; intros log cb Hwf Hlog; [done|]. simpl.
  rewrite (reply_spec log), <- step_abs by done. f_equal. rewrite <- (step_config now o cb) at 1.
  apply IH; [by apply step_wf|by apply step_logged].
Qed.

Lemma abs_open cb since : abs cb = SOpen since <-> cb_state cb = Open /\ last_state_change cb = since.
Proof. unfold abs. destruct (cb_state cb); naive_solver. Qed.

Lemma abs_half_open cb : cb_state cb = HalfOpen <-> exists k, abs cb = SHalfOpen k.
Proof. unfold abs. destruct (cb_state cb); naive_solver. Qed.

Lemma abs_closed cb : cb_state cb = Closed <-> exists n, abs cb = SClosed n.
Proof. unfold abs. destruct (cb_state cb); naive_solver. Qed.

(** Outcomes alone never leave the open state. *)
Lemma spec_run_open_outcomes cfg (l : list (N * bool)) since :
  spec_run cfg (outcomes l) (SOpen since) = SOpen since.
Proof. induction l as [|[? []] ? IH]; simpl; auto. Qed.

Lemma has_failure_run_cons k b l :
  has_failure_run k (b :: l) <->
  (exists post, b :: l = replicate k false ++ post) \/ has_failure_run k l.
Proof.
  split.
  - intros ([|c pre] & post & Hl); simpl in *; [left; eauto|].
    right. exists pre, post. by simplify_eq.
  - intros [[post Hl]|(pre & post & ->)]; [by exists [], post|]. by exists (b :: pre), post.
Qed.

Lemma spec_run_outcomes cfg (k : nat) (l : list (N * bool)) (n : nat) :
  k = N.to_nat (N.max 1 (failure_threshold cfg)) -> (n < k)%nat ->
  (exists since, spec_run cfg (outcomes l) (SClosed (N.of_nat n)) = SOpen since) <->
  (exists post, l.*2 = replicate (k - n) false ++ post) \/ has_failure_run k l.*2.
Proof.
  intros Hk. revert n. induction l as [|[t b] l IH]; intros n Hn.
  { split; [by intros [? [=]]|]. intros [[post Hl]|(pre & post & Hl)].
    - destruct (k - n)%nat eqn:?; [lia|done].
    - destruct pre, k; simplify_eq/=; lia. }
  csimpl. rewrite has_failure_run_cons. destruct (k - n)%nat as [|j] eqn:Hj; [lia|].
  destruct b; simpl.
  - rewrite (IH 0%nat) by lia. replace (k - 0)%nat with k by lia.
    destruct k as [|k]; [lia|]. split.
    + intros [[post ->]|?]; [|auto]. right. right. by exists [], post.
    + intros [[? [=]]|[[? [=]]|?]]; auto.
  - destruct (N.leb_spec (failure_threshold cfg) (N.of_nat n + 1)).
    + rewrite spec_run_open_outcomes. split; [|eauto]. intros _. left.
      assert (j = 0%nat) as -> by lia. simpl; eauto.
    + replace (N.of_nat n + 1) with (N.of_nat (S n)) by lia. rewrite IH by lia.
      replace (k - S n)%nat with j by lia. split.
      * intros [[post ->]|?]; [left; by exists post|auto].
      * intros [[post [= ->]]|[[post Hp]|?]]; [eauto| |auto]. left.
        assert (k = S (j + n)) as -> by lia. simpl in Hp. injection Hp as ->.
        exists (replicate n false ++ post). by rewrite replicate_add, <-app_assoc.
Qed.

Lemma open_window_step cb now o since :
  cb_state cb = Open -> last_state_change cb = since ->
  since <= now < since + timeout_duration (config cb) -> o <> Reset ->
  cb_state (step now o cb) = Open /\ last_state_change (step now o cb) = since.
Proof.
  intros; destruct cb as [[] ??????? ]; destruct o as [| | |[]| | | |];
    open_breaker; auto; lia.
Qed.

Lemma open_window_run ops cb since :
  cb_state cb = Open -> last_state_change cb = since ->
  Forall (fun '(t, o) => since <= t < since + timeout_duration (config cb) /\ o <> Reset) ops ->
  cb_state (run ops cb) = Open /\ last_state_change (run ops cb) = since /\
  config (run ops cb) = config cb.
Proof.
  revert cb. induction ops as [|[t o] ops IH]; intros cb Hopen Hsince Hops; [done|].
  inversion_clear Hops as [|?? Hto Hops']. simpl in *. destruct Hto as [Ht Ho].
  destruct (open_window_step cb t o since) as [? ?]; [done..|].
  rewrite <-(step_config t o cb). apply IH; [done..|]. by rewrite step_config.
Qed.

(** Successes from the half-open state, below and at the threshold. *)
Lemma spec_run_successes cfg (ts : list N) :
  spec_run cfg ((fun t => (t, Outcome true)) <$> ts) (SHalfOpen 0) =
  if N.of_nat (length ts) <? N.max 1 (success_threshold cfg)
  then SHalfOpen (N.of_nat (length ts)) else SClosed 0.
Proof.
  induction ts as [|t ts IH] using rev_ind; [simpl; by rewrite (proj2 (N.ltb_lt _ _)) by lia|].
  unfold spec_run in *. rewrite fmap_app, fold_left_app, IH, length_app. simpl.
  destruct (N.ltb_spec (N.of_nat (length ts)) (N.max 1 (success_threshold cfg)));
    destruct (N.ltb_spec (N.of_nat (length ts + 1)) (N.max 1 (success_threshold cfg)));
    simpl; try lia; try done;
    destruct (N.leb_spec (success_threshold cfg) (N.of_nat (length ts) + 1)); try lia; try done.
  f_equal; lia.
Qed.

(** ** Properties *)

(** C21: the breaker implements the documented state machine.  After any
    sequence of calls at any times, a breaker made by [with_config] satisfies
    its invariant, keeps its configuration, and is in the state (with the
    consecutive count that matters there, and the instant it opened) that the
    machine over unbounded counters reaches: the 32-bit counters never wrap
    where they are compared.  Every call on the way answered what the machine
    answers: a request passes exactly when the circuit is not open then, the state is
    that of the machine, and the statistics carry it with the numbers of recorded
    failures and successes (as 64-bit counters) and the time since the last failure. *)
Theorem run_refines_spec cfg t0 (ops : list (N * op)) :
  is_u32 (failure_threshold cfg) -> is_u32 (success_threshold cfg) ->
  let cb := run ops (with_config cfg t0) in
  wf cb /\ config cb = cfg /\ abs cb = spec_run cfg ops (SClosed 0) /\
  replies ops (with_config cfg t0) = spec_replies cfg ops (SClosed 0) [].
Proof.
  intros Hf Hs. pose proof (with_config_wf cfg t0 Hf Hs) as Hwf.
  destruct (run_invariant ops _ Hwf) as (? & ? & ?). split_and!; [done..|]. by apply (replies_spec ops []).
Qed.

Lemma run_refines_spec_witness :
  abs (run refines_example (with_config small_config 0)) = SClosed 0 /\
  replies refines_example (with_config small_config 0) = [Silent; Silent; Allowed false; Allowed true; Silent; Silent].
Proof.
  destruct (run_refines_spec small_config 0 refines_example) as (_ & _ & -> & ->); vm_compute; by repeat constructor.
Defined.

(** Fed with outcomes only, a new breaker is open exactly when some
    [failure_threshold] of them in a row were failures (one failure is enough
    for a threshold of zero); a success in between restarts the count. *)
Theorem opens_iff_failure_run cfg t0 (l : list (N * bool)) :
  is_u32 (failure_threshold cfg) -> is_u32 (success_threshold cfg) ->
  cb_state (run (outcomes l) (with_config cfg t0)) = Open <->
  has_failure_run (N.to_nat (N.max 1 (failure_threshold cfg))) l.*2.
Proof.
  intros Hf Hs.
  destruct (run_invariant (outcomes l) (with_config cfg t0)) as (_ & _ & Habs);
    [by apply with_config_wf|].
  pose proof (spec_run_outcomes cfg _ l 0 eq_refl ltac:(lia)) as Hiff.
  change (abs (with_config cfg t0)) with (SClosed (N.of_nat 0)) in Habs. simpl in Habs, Hiff.
  rewrite <-Habs, Nat.sub_0_r in Hiff. split.
  - intros Ho. destruct (proj1 Hiff) as [[post ->]|?];
      [eexists; by apply abs_open|by exists [], post|done].
  - intros Hr. destruct (proj2 Hiff (or_intror Hr)) as [s Hs']. by apply abs_open in Hs' as [? _].
Qed.

Lemma opens_iff_failure_run_witness :
  cb_state (run (outcomes [(1, false); (2, true); (3, false); (4, false)])
    (with_config small_config 0)) = Open.
Proof.
  apply (opens_iff_failure_run small_config 0); [reflexivity..|].
  exists [false; true], []. reflexivity.
Defined.

(** An open breaker rejects for its whole timeout.  Whatever calls are made
    (recorded outcomes, probes, health tests, a further [force_open]), short of
    [reset] and before the timeout has elapsed, the breaker stays open since
    the same instant, and [can_execute] answers [false]. *)
Theorem open_rejects_until_timeout cb since (ops : list (N * op)) now :
  cb_state cb = Open -> last_state_change cb = since ->
  Forall (fun '(t, o) => since <= t < since + timeout_duration (config cb) /\ o <> Reset) ops ->
  since <= now < since + timeout_duration (config cb) ->
  let cb' := run ops cb in
  cb_state cb' = Open /\ last_state_change cb' = since /\ (can_execute now cb').1 = false.
Proof.
  intros Hopen Hsince Hops Hnow.
  destruct (open_window_run ops cb since) as (Ho & Hs & Hcfg); [done..|].
  split_and!; [done..|]. unfold can_execute, check_and_update_state, saturating_sub.
  rewrite Ho, Hs, Hcfg.
  destruct (N.leb_spec (timeout_duration (config cb)) (now - since)); [lia|].
  simpl. by rewrite Ho.
Qed.

Lemma open_rejects_until_timeout_witness :
  (can_execute 39 (run [(11, Outcome true); (12, ForceOpen); (38, CanExecute)] opened_example)).1
  = false.
Proof.
  destruct (open_rejects_until_timeout opened_example 10
    [(11, Outcome true); (12, ForceOpen); (38, CanExecute)] 39) as (_ & _ & H);
    [reflexivity|reflexivity|repeat constructor; discriminate|split; discriminate || reflexivity|exact H].
Defined.

(** Recovery.  Once the timeout of an open breaker has elapsed,
    [can_execute] answers [true] and leaves it half open; it then stays half
    open under fewer than [success_threshold] successes, closes at that many,
    and a failure before that reopens it from the time of that failure. *)
Theorem recovers_after_timeout cb now (ts : list N) tf :
  wf cb -> cb_state cb = Open ->
  last_state_change cb + timeout_duration (config cb) <= now ->
  let cb1 := (can_execute now cb).2 in
  let cb2 := run ((fun t => (t, Outcome true)) <$> ts) cb1 in
  (can_execute now cb).1 = true /\ cb_state cb1 = HalfOpen /\
  (N.of_nat (length ts) < N.max 1 (success_threshold (config cb)) ->
     cb_state cb2 = HalfOpen /\
     cb_state (record_failure tf cb2) = Open /\
     last_state_change (record_failure tf cb2) = tf) /\
  (N.of_nat (length ts) = N.max 1 (success_threshold (config cb)) -> cb_state cb2 = Closed).
Proof.
  intros Hwf Hopen Hnow. simpl. set (cfg := config cb).
  assert (abs (can_execute now cb).2 = SHalfOpen 0) as Habs.
  { change (abs (step now CanExecute cb) = SHalfOpen 0). rewrite step_abs by done. simpl.
    rewrite (proj2 (abs_open cb (last_state_change cb))) by done. simpl.
    destruct (N.leb_spec (timeout_duration (config cb)) (now - last_state_change cb)); [done|lia]. }
  assert (wf (can_execute now cb).2) as Hwf1 by (apply (step_wf now CanExecute); done).
  assert (config (can_execute now cb).2 = cfg) as Hcfg by apply (step_config now CanExecute).
  destruct (run_invariant ((fun t => (t, Outcome true)) <$> ts) _ Hwf1) as (Hwf2 & Hcfg2 & Habs2).
  rewrite Habs, Hcfg, spec_run_successes in Habs2.
  assert (cb_state (can_execute now cb).2 = HalfOpen) as Hhalf by (apply abs_half_open; eauto).
  split_and!; [by unfold can_execute in *; simpl in *; rewrite Hhalf|done| |].
  - intros Hlt. destruct (N.ltb_spec (N.of_nat (length ts)) (N.max 1 (success_threshold cfg))); [|lia].
    split; [apply abs_half_open; eauto|]. apply abs_open.
    change (abs (step tf (Outcome false) (run ((fun t => (t, Outcome true)) <$> ts)
      (can_execute now cb).2)) = SOpen tf).
    by rewrite step_abs, Habs2 by done.
  - intros Heq. destruct (N.ltb_spec (N.of_nat (length ts)) (N.max 1 (success_threshold cfg))); [lia|].
    apply abs_closed; eauto.
Qed.

Lemma recovers_after_timeout_witness :
  cb_state (run ((fun t => (t, Outcome true)) <$> [41; 42]) (can_execute 40 opened_example).2) = Closed.
Proof.
  destruct (recovers_after_timeout opened_example 40 [41; 42] 50) as (_ & _ & _ & H);
    [|reflexivity|discriminate|exact (H eq_refl)].
  constructor; try reflexivity; discriminate.
Defined.
