(* ===== verification/RequestPool.v ===== *)
(** * Retained requests of [src/program_scheduling/request_pool.rs]

    The protocol-neutral values of [domain.rs] that the Program runtime and its
    request pool share ([ProgramRef], [ProgramState], [ProgramStatus],
    [ProgramRequestHints], [ProgramUsageObservation]), and the pool itself: one
    FIFO of pending requests per exact Program generation.  A [VecDeque] is a
    list with its front first.  The [Arc<Notify>] a request shares with its
    handle is named by the request's id, and [permits] is the set of notifiers
    on which [notify_one] has stored a permit that no waiter has consumed. *)

From S2P Require Import Prelude.

Local Open Scope N_scope.

(** ** Values shared with the Router *)

Inductive ProgramState := Active | Paused.

Inductive ProgramStatus := Reasoning | Acting.

#[export] Instance ProgramState_eq_dec : EqDecision ProgramState.
Proof. solve_decision. Defined.

#[export] Instance ProgramStatus_eq_dec : EqDecision ProgramStatus.
Proof. solve_decision. Defined.

Record ProgramRef := MkRef {
  ref_model_pool : string;
  ref_program_id : string;
  ref_generation : N;   (* u64 *)
}.

#[export] Instance ProgramRef_eq_dec : EqDecision ProgramRef.
Proof. solve_decision. Defined.

#[export] Instance ProgramRef_countable : Countable ProgramRef.
Proof.
  refine (inj_countable' (fun r => (ref_model_pool r, ref_program_id r, ref_generation r))
    (fun '(m, p, g) => MkRef m p g) _).
  by intros [].
Defined.

(** Durations are in nanoseconds. *)
Record ProgramRequestHints := {
  hint_request_id : option string;
  hint_priority : Z;
  hint_deadline : option N;
  hint_expected_output_tokens : option N;
  hint_kv_retention_ttl : option N;
}.

Definition default_hints : ProgramRequestHints := {|
  hint_request_id := None;
  hint_priority := 0;
  hint_deadline := None;
  hint_expected_output_tokens := None;
  hint_kv_retention_ttl := None;
|}.

Record ProgramUsageObservation := MkUsage {
  prompt_tokens : option N;
  completion_tokens : option N;
  cached_prompt_tokens : option N;
}.

(** [Option::max]: [None] is below every [Some]. *)
Definition option_max (a b : option N) : option N :=
  match a, b with
  | None, _ => b
  | _, None => a
  | Some x, Some y => Some (N.max x y)
  end.

Definition usage_merge (self other : ProgramUsageObservation) : ProgramUsageObservation := {|
  prompt_tokens := option_max (prompt_tokens self) (prompt_tokens other);
  completion_tokens := option_max (completion_tokens self) (completion_tokens other);
  cached_prompt_tokens := option_max (cached_prompt_tokens self) (cached_prompt_tokens other);
|}.

(** ** The pool *)

Record ProgramRequestHandle := MkHandle {
  handle_program : ProgramRef;
  handle_request_id : N;
}.

Record PendingProgramRequest := MkPending {
  request_id : N;
  arrived_at : N;
  estimated_context_tokens : N;
  routing_text : option string;
  hints : ProgramRequestHints;
}.

Record RequestPool := MkPool {
  requests : gmap ProgramRef (list PendingProgramRequest);
  next_request_id : N;          (* u64 *)
  retained_request_count : N;   (* usize *)
  permits : gset N;
}.

Definition empty_pool : RequestPool := MkPool ∅ 0 0 ∅.

Definition retain (program : ProgramRef) (arrived_at estimated_context_tokens : N)
  (routing_text : option string) (hints : ProgramRequestHints) (pool : RequestPool)
  : ProgramRequestHandle * RequestPool :=
  let request_id := u64_wrapping_add (next_request_id pool) 1 in
  let queue := default [] (requests pool !! program) in
  let pending := MkPending request_id arrived_at estimated_context_tokens routing_text hints in
  (MkHandle program request_id,
   {| requests := <[program := queue ++ [pending]]> (requests pool);
      next_request_id := request_id;
      retained_request_count := u64_saturating_add (retained_request_count pool) 1;
      permits := permits pool |}).

(** What [take_front] and [cancel] do to the map: an emptied queue is removed. *)
Definition put_queue (program : ProgramRef) (queue : list PendingProgramRequest)
  (m : gmap ProgramRef (list PendingProgramRequest)) : gmap ProgramRef (list PendingProgramRequest) :=
  match queue with
  | [] => delete program m
  | _ => <[program := queue]> m
  end.

Definition set_queue (program : ProgramRef) (queue : list PendingProgramRequest)
  (pool : RequestPool) : RequestPool :=
  {| requests := put_queue program queue (requests pool);
     next_request_id := next_request_id pool;
     retained_request_count := saturating_sub (retained_request_count pool) 1;
     permits := permits pool |}.

Definition front (handle : ProgramRequestHandle) (pool : RequestPool)
  : option PendingProgramRequest :=
  match requests pool !! handle_program handle with
  | Some (request :: _) =>
      if request_id request =? handle_request_id handle then Some request else None
  | _ => None
  end.

Definition take_front (handle : ProgramRequestHandle) (pool : RequestPool)
  : option (PendingProgramRequest * RequestPool) :=
  match requests pool !! handle_program handle with
  | Some (request :: queue) =>
      if request_id request =? handle_request_id handle
      then Some (request, set_queue (handle_program handle) queue pool)
      else None
  | _ => None
  end.

(** [iter().position(|request| request.id == id)]. *)
Fixpoint position (id : N) (queue : list PendingProgramRequest) : option nat :=
  match queue with
  | [] => None
  | request :: queue =>
      if request_id request =? id then Some 0%nat else S <$> position id queue
  end.

Definition cancel (handle : ProgramRequestHandle) (pool : RequestPool)
  : option (bool * RequestPool) :=
  queue ← requests pool !! handle_program handle;
  pos ← position (handle_request_id handle) queue;
  Some (bool_decide (pos = 0%nat),
        set_queue (handle_program handle) (delete pos queue) pool).

Definition notify_front (program : ProgramRef) (pool : RequestPool) : RequestPool :=
  match requests pool !! program with
  | Some (request :: _) =>
      {| requests := requests pool;
         next_request_id := next_request_id pool;
         retained_request_count := retained_request_count pool;
         permits := {[ request_id request ]} ∪ permits pool |}
  | _ => pool
  end.

(** A waiter of [ProgramRequestHandle::notified] consumes the stored permit;
    [false] means that it keeps waiting. *)
Definition notified (handle : ProgramRequestHandle) (pool : RequestPool) : bool * RequestPool :=
  if decide (handle_request_id handle ∈ permits pool) then
    (true, {| requests := requests pool;
              next_request_id := next_request_id pool;
              retained_request_count := retained_request_count pool;
              permits := permits pool ∖ {[ handle_request_id handle ]} |})
  else (false, pool).

Definition len (pool : RequestPool) : N := retained_request_count pool.

Definition is_empty (pool : RequestPool) : bool := retained_request_count pool =? 0.

Definition program_len (program : ProgramRef) (pool : RequestPool) : N :=
  match requests pool !! program with Some queue => N.of_nat (length queue) | None => 0 end.

Definition front_hints (program : ProgramRef) (pool : RequestPool) : option ProgramRequestHints :=
  match requests pool !! program with
  | Some (request :: _) => Some (hints request)
  | _ => None
  end.

(** The calls that change a pool. *)
Inductive pool_op :=
| Retain (program : ProgramRef) (arrived_at estimated_context_tokens : N)
    (routing_text : option string) (hints : ProgramRequestHints)
| TakeFront (handle : ProgramRequestHandle)
| Cancel (handle : ProgramRequestHandle)
| NotifyFront (program : ProgramRef)
| Notified (handle : ProgramRequestHandle).

Definition pool_step (o : pool_op) (pool : RequestPool) : RequestPool :=
  match o with
  | Retain p a e t h => (retain p a e t h pool).2
  | TakeFront h => match take_front h pool with Some (_, pool') => pool' | None => pool end
  | Cancel h => match cancel h pool with Some (_, pool') => pool' | None => pool end
  | NotifyFront p => notify_front p pool
  | Notified h => (notified h pool).2
  end.

Definition pool_run (ops : list pool_op) (pool : RequestPool) : RequestPool :=
  fold_left (fun pool o => pool_step o pool) ops pool.

Definition is_retain (o : pool_op) : bool := match o with Retain _ _ _ _ _ => true | _ => false end.

(** What a run hands out: the requests retained, taken and cancelled, in order. *)
Record PoolLog := MkLog {
  log_retained : list (ProgramRef * N);
  log_taken : list (ProgramRef * N);
  log_cancelled : list (ProgramRef * N);
}.

Definition log_step (o : pool_op) (pool : RequestPool) (log : PoolLog) : PoolLog :=
  match o with
  | Retain p a e t h =>
      let handle := (retain p a e t h pool).1 in
      MkLog (log_retained log ++ [(p, handle_request_id handle)]) (log_taken log) (log_cancelled log)
  | TakeFront h =>
      match take_front h pool with
      | Some (r, _) => MkLog (log_retained log)
          (log_taken log ++ [(handle_program h, request_id r)]) (log_cancelled log)
      | None => log
      end
  | Cancel h =>
      match cancel h pool with
      | Some _ => MkLog (log_retained log) (log_taken log)
          (log_cancelled log ++ [(handle_program h, handle_request_id h)])
      | None => log
      end
  | NotifyFront _ | Notified _ => log
  end.

Definition logged_run (ops : list pool_op) (s : RequestPool * PoolLog) : RequestPool * PoolLog :=
  fold_left (fun '(pool, log) o => (pool_step o pool, log_step o pool log)) ops s.

Definition empty_log : PoolLog := MkLog [] [] [].

(** The ids logged for one Program generation. *)
Definition ids_of (p : ProgramRef) (l : list (ProgramRef * N)) : list N :=
  (filter (fun x => x.1 = p) l).*2.

(** The ids waiting for one Program generation, front first. *)
Definition queued_ids (p : ProgramRef) (pool : RequestPool) : list N :=
  request_id <$> default [] (requests pool !! p).

(** ** The specification *)

(** The queue of a Program generation, empty when it has none. *)
Definition queue_of (program : ProgramRef) (pool : RequestPool) : list PendingProgramRequest :=
  default [] (requests pool !! program).

(** The number of requests in all queues. *)
Definition total (m : gmap ProgramRef (list PendingProgramRequest)) : N :=
  map_fold (fun _ q acc => N.of_nat (length q) + acc) 0 m.

(** Every queue is nonempty and in arrival order: ids strictly increase along
    it, are at least one and at most the last id given out, ids are not shared
    between Programs, and the stored count is the number of retained requests. *)
Record pool_wf (pool : RequestPool) : Prop := {
  pool_nonempty : forall p q, requests pool !! p = Some q -> q <> [];
  pool_sorted : forall p q, requests pool !! p = Some q ->
    StronglySorted N.lt (request_id <$> q);
  pool_ids : forall p q r, requests pool !! p = Some q -> r ∈ q ->
    0 < request_id r <= next_request_id pool;
  pool_distinct : forall p1 p2 q1 q2 r1 r2,
    requests pool !! p1 = Some q1 -> requests pool !! p2 = Some q2 ->
    r1 ∈ q1 -> r2 ∈ q2 -> request_id r1 = request_id r2 -> p1 = p2;
  pool_count : retained_request_count pool = total (requests pool);
  pool_next : next_request_id pool < u64_mod;
  pool_count_bound : retained_request_count pool <= next_request_id pool;
}.

(** Nothing is lost, duplicated or reordered: what was retained for a Program
    is what was taken, cancelled or still waits, and taking follows arrival. *)
Definition conserved (s : RequestPool * PoolLog) : Prop :=
  forall p,
    ids_of p (log_retained s.2) ≡ₚ
      ids_of p (log_taken s.2) ++ ids_of p (log_cancelled s.2) ++ queued_ids p s.1 /\
    StronglySorted N.lt (ids_of p (log_taken s.2) ++ queued_ids p s.1) /\
    Forall (fun i => i <= next_request_id s.1) (ids_of p (log_taken s.2)).

(** A concrete run for the witnesses. *)
Definition ref_a : ProgramRef := MkRef "m" "a" 0.
Definition ref_b : ProgramRef := MkRef "m" "b" 0.
Definition pool_example : list pool_op :=
  [Retain ref_a 1 10 None default_hints; Retain ref_a 2 20 None default_hints;
   Retain ref_b 3 30 None default_hints; TakeFront (MkHandle ref_a 2);
   Cancel (MkHandle ref_b 3); TakeFront (MkHandle ref_a 1)].

(** ** Lemmas *)

Lemma total_insert p q m :
  total (<[p:=q]> m) = N.of_nat (length q) + total (delete p m).
Proof.
  unfold total. rewrite <-insert_delete_eq. rewrite (map_fold_insert_L (fun _ q acc => N.of_nat (length q) + acc)); [done|intros; lia|].
  by rewrite lookup_delete_eq.
Qed.

Lemma total_lookup p q m :
  m !! p = Some q -> total m = N.of_nat (length q) + total (delete p m).
Proof. intros H. by rewrite <-(insert_id m p q H) at 1; rewrite total_insert. Qed.

Lemma total_put_queue p q q' m :
  m !! p = Some q -> total (put_queue p q' m) + N.of_nat (length q) = total m + N.of_nat (length q').
Proof.
  intros H. rewrite (total_lookup p q m H). unfold put_queue.
  destruct q'; [simpl|rewrite total_insert]; lia.
Qed.

Lemma total_zero m :
  (forall p q, m !! p = Some q -> q <> []) -> total m = 0 <-> m = ∅.
Proof.
  intros Hne. split; [|by intros ->]. intros H0. apply map_eq. intros p. rewrite lookup_empty.
  destruct (m !! p) as [q|] eqn:Hq; [|done].
  rewrite (total_lookup p q m Hq) in H0. destruct q; [by destruct (Hne p [])|simpl in *; lia].
Qed.

Lemma lookup_put_queue p p' q m :
  p <> p' -> put_queue p q m !! p' = m !! p'.
Proof. intros. unfold put_queue. destruct q; by simplify_map_eq. Qed.

Lemma lookup_put_queue_Some p p' q q0 m :
  put_queue p q m !! p' = Some q0 -> (p' = p /\ q0 = q /\ q <> []) \/ (p' <> p /\ m !! p' = Some q0).
Proof.
  destruct (decide (p' = p)) as [->|Hne].
  - unfold put_queue. destruct q; simplify_map_eq; naive_solver.
  - rewrite lookup_put_queue by done. auto.
Qed.

Lemma queue_of_put_queue p q pool :
  queue_of p (set_queue p q pool) = q.
Proof. unfold queue_of, set_queue, put_queue; simpl. destruct q; by simplify_map_eq. Qed.

Lemma queue_of_set_queue_ne p p' q pool :
  p <> p' -> queue_of p' (set_queue p q pool) = queue_of p' pool.
Proof. intros. unfold queue_of, set_queue; simpl. by rewrite lookup_put_queue. Qed.

Lemma position_spec id q i :
  position id q = Some i -> exists r, q !! i = Some r /\ request_id r = id.
Proof.
  revert i. induction q as [|r q IH]; intros i H; simpl in H; [done|].
  destruct (N.eqb_spec (request_id r) id); [simplify_eq; simpl; eauto|].
  destruct (position id q) as [j|]; simplify_eq/=. by apply IH.
Qed.

(** Both removals keep the order of what is left. *)
Lemma set_queue_wf p q q' pool :
  pool_wf pool -> requests pool !! p = Some q ->
  q' `sublist_of` q -> length q = S (length q') ->
  pool_wf (set_queue p q' pool).
Proof.
  intros [Hne Hsort Hids Hdist Hcount Hnext Hbound] Hq Hsub Hlen.
  pose proof (total_put_queue p q q' _ Hq) as Htot.
  constructor; simpl.
  - intros p0 q0 [(-> & -> & ?)|[? ?]]%lookup_put_queue_Some; eauto.
  - intros p0 q0 [(-> & -> & ?)|[? ?]]%lookup_put_queue_Some; [|eauto].
    eapply StronglySorted_sublist; [by apply fmap_sublist|eauto].
  - intros p0 q0 r [(-> & -> & ?)|[? ?]]%lookup_put_queue_Some ?; [|eauto].
    eauto using elem_of_sublist.
  - intros p1 p2 q1 q2 r1 r2 H1 H2 Hr1 Hr2 Heq.
    apply lookup_put_queue_Some in H1 as [(-> & -> & ?)|[? ?]];
      apply lookup_put_queue_Some in H2 as [(-> & -> & ?)|[? ?]];
      eauto using elem_of_sublist.
  - unfold saturating_sub. lia.
  - done.
  - unfold saturating_sub. lia.
Qed.

Lemma retain_wf p a e t h pool :
  pool_wf pool -> next_request_id pool + 1 < u64_mod -> pool_wf (retain p a e t h pool).2.
Proof.
  intros [Hne Hsort Hids Hdist Hcount Hnext Hbound] Hlt. unfold retain, u64_wrapping_add; simpl.
  rewrite N.mod_small by done.
  set (pending := MkPending (next_request_id pool + 1) a e t h).
  assert (forall p0 q0 r, <[p:=default [] (requests pool !! p) ++ [pending]]> (requests pool) !! p0 = Some q0 ->
    r ∈ q0 -> (r = pending /\ p0 = p) \/ (exists q1, requests pool !! p0 = Some q1 /\ r ∈ q1)) as Hin.
  { intros p0 q0 r Hp Hr. destruct (decide (p0 = p)) as [->|]; simplify_map_eq; [|eauto].
    apply elem_of_app in Hr as [Hr|Hr%list_elem_of_singleton]; simplify_eq; [|auto].
    destruct (requests pool !! p); simpl in *; [eauto|by apply not_elem_of_nil in Hr]. }
  constructor; simpl.
  - intros p0 q0 Hp. destruct (decide (p0 = p)) as [->|]; simplify_map_eq; [|eauto].
    by destruct (default [] _).
  - intros p0 q0. destruct (decide (p0 = p)) as [->|]; intros; simplify_map_eq; [|eauto].
    rewrite fmap_app, StronglySorted_app. simpl.
    destruct (requests pool !! p) as [q|] eqn:Hq; simpl;
      (split_and!; [|eauto; constructor|repeat constructor]).
    + intros x1 x2 (r & -> & Hr)%list_elem_of_fmap ->%list_elem_of_singleton.
      specialize (Hids _ _ _ Hq Hr). lia.
    + intros x1 x2 []%not_elem_of_nil.
  - intros p0 q0 r H Hr. destruct (Hin _ _ _ H Hr) as [[-> ->]|(q1 & H1 & Hr1)]; [simpl; lia|].
    specialize (Hids _ _ _ H1 Hr1). lia.
  - intros p1 p2 q1 q2 r1 r2 H1 H2 Hr1 Hr2 Heq.
    destruct (Hin _ _ _ H1 Hr1) as [[-> ->]|(q1' & H1' & Hr1')];
      destruct (Hin _ _ _ H2 Hr2) as [[-> ->]|(q2' & H2' & Hr2')]; eauto; simpl in *.
    + specialize (Hids _ _ _ H2' Hr2'). lia.
    + specialize (Hids _ _ _ H1' Hr1'). lia.
  - rewrite total_insert, length_app. unfold u64_saturating_add, u64_max. simpl.
    destruct (requests pool !! p) as [q|] eqn:Hq; simpl.
    + rewrite (total_lookup p q) in Hcount by done. unfold u64_mod in *. lia.
    + rewrite delete_id by done. unfold u64_mod in *. lia.
  - done.
  - unfold u64_saturating_add. lia.
Qed.

Lemma take_front_inv h pool r pool' :
  take_front h pool = Some (r, pool') ->
  exists q, requests pool !! handle_program h = Some (r :: q) /\
    request_id r = handle_request_id h /\ pool' = set_queue (handle_program h) q pool.
Proof.
  unfold take_front. intros H. repeat case_match; simplify_eq.
  eexists; split_and!; eauto. by apply N.eqb_eq.
Qed.

Lemma cancel_inv h pool b pool' :
  cancel h pool = Some (b, pool') ->
  exists q i r, requests pool !! handle_program h = Some q /\ q !! i = Some r /\
    request_id r = handle_request_id h /\ b = bool_decide (i = 0%nat) /\
    pool' = set_queue (handle_program h) (delete i q) pool.
Proof.
  unfold cancel. intros (q & Hq & (i & Hi & [= <- <-])%bind_Some)%bind_Some.
  destruct (position_spec _ _ _ Hi) as (r & ? & ?). eauto 10.
Qed.

Lemma pool_step_wf o pool :
  pool_wf pool -> (is_retain o -> next_request_id pool + 1 < u64_mod) ->
  pool_wf (pool_step o pool) /\
  next_request_id (pool_step o pool) = next_request_id pool + (if is_retain o then 1 else 0).
Proof.
  intros Hwf Hid. destruct o as [p a e t h|h|h|p|h]; simpl in *.
  - split; [by apply retain_wf; auto|]. unfold u64_wrapping_add. rewrite N.mod_small by auto. done.
  - rewrite N.add_0_r. destruct (take_front h pool) as [[r pool']|] eqn:E; [|done].
    apply take_front_inv in E as (q & Hq & Hr & ->). split; [|done].
    eapply set_queue_wf; [done..| |done]. by apply sublist_cons.
  - rewrite N.add_0_r. destruct (cancel h pool) as [[b pool']|] eqn:E; [|done].
    apply cancel_inv in E as (q & i & r & Hq & Hi & Hr & -> & ->). split; [|done].
    eapply set_queue_wf; [done..|apply sublist_delete|].
    rewrite length_delete by eauto. apply lookup_lt_Some in Hi. lia.
  - rewrite N.add_0_r. unfold notify_front. destruct Hwf. repeat case_match; done.
  - rewrite N.add_0_r. unfold notified. destruct Hwf. case_decide; done.
Qed.

Lemma ids_of_snoc p l p' i :
  ids_of p (l ++ [(p', i)]) = ids_of p l ++ (if decide (p' = p) then [i] else []).
Proof.
  unfold ids_of. rewrite filter_app, fmap_app. f_equal.
  rewrite filter_cons, filter_nil. simpl. by case_decide.
Qed.

Lemma queued_ids_set_queue p p' q pool :
  queued_ids p (set_queue p' q pool) =
  if decide (p' = p) then request_id <$> q else queued_ids p pool.
Proof.
  unfold queued_ids. change (default [] (requests (set_queue p' q pool) !! p))
    with (queue_of p (set_queue p' q pool)).
  case_decide; subst; [by rewrite queue_of_put_queue|by rewrite queue_of_set_queue_ne].
Qed.

Lemma queued_ids_bound p pool i :
  pool_wf pool -> i ∈ queued_ids p pool -> 0 < i <= next_request_id pool.
Proof.
  intros Hwf (r & -> & Hr)%list_elem_of_fmap.
  destruct (requests pool !! p) as [q|] eqn:Hq; simpl in Hr; [|by apply not_elem_of_nil in Hr].
  by eapply pool_ids.
Qed.

Lemma conserved_step o pool log :
  pool_wf pool -> (is_retain o -> next_request_id pool + 1 < u64_mod) ->
  conserved (pool, log) -> conserved (pool_step o pool, log_step o pool log).
Proof.
  intros Hwf Hid Hcons p. specialize (Hcons p) as (Hperm & Hsort & Hbound). simpl in *.
  destruct o as [p' a e t h|h|h|p'|h]; simpl in *.
  - rewrite ids_of_snoc. unfold queued_ids, u64_wrapping_add in *. simpl.
    rewrite N.mod_small by auto. destruct (decide (p' = p)) as [->|Hne].
    + rewrite lookup_insert_eq. simpl. rewrite fmap_app. simpl. rewrite Hperm, !(assoc_L (++)).
      split_and!; [done| |eapply Forall_impl; [done|simpl; lia]].
      rewrite StronglySorted_app. split_and!; [|done|repeat constructor].
      intros x1 x2 [Hx|Hx]%elem_of_app ->%list_elem_of_singleton.
      * rewrite Forall_forall in Hbound. specialize (Hbound _ Hx). lia.
      * eapply (queued_ids_bound p pool) in Hx; [lia|done].
    + rewrite lookup_insert_ne, app_nil_r by done.
      split_and!; [done..|eapply Forall_impl; [done|simpl; lia]].
  - destruct (take_front h pool) as [[r pool']|] eqn:E; [|done].
    apply take_front_inv in E as (q & Hq & Hr & ->). simpl.
    rewrite queued_ids_set_queue, ids_of_snoc.
    destruct (decide (handle_program h = p)) as [<-|Hne]; [|by rewrite app_nil_r].
    assert (queued_ids (handle_program h) pool = request_id r :: (request_id <$> q)) as Hqq
      by (unfold queued_ids; by rewrite Hq).
    rewrite Hqq in Hperm, Hsort. split_and!.
    + rewrite Hperm. solve_Permutation.
    + by rewrite <-(assoc_L (++)).
    + apply Forall_app_2; [done|]. apply Forall_singleton.
      eapply (queued_ids_bound (handle_program h)); [done|]. rewrite Hqq. constructor.
  - destruct (cancel h pool) as [[b pool']|] eqn:E; [|done].
    apply cancel_inv in E as (q & i & r & Hq & Hi & Hr & -> & ->). simpl.
    rewrite queued_ids_set_queue, ids_of_snoc.
    destruct (decide (handle_program h = p)) as [<-|Hne]; [|by rewrite app_nil_r].
    assert (queued_ids (handle_program h) pool = request_id <$> q) as Hqq
      by (unfold queued_ids; by rewrite Hq).
    rewrite Hqq in Hperm, Hsort. split_and!; [| |done].
    + rewrite Hperm. enough (request_id <$> q ≡ₚ handle_request_id h :: (request_id <$> delete i q))
        as -> by solve_Permutation.
      rewrite <-Hr, <-fmap_cons. by apply fmap_Permutation, delete_Permutation.
    + rewrite list_fmap_delete. eapply StronglySorted_sublist, Hsort.
      apply sublist_app; [done|apply sublist_delete].
  - unfold notify_front. repeat case_match; done.
  - unfold notified. case_decide; done.
Qed.

Lemma logged_run_invariant ops pool log :
  pool_wf pool -> conserved (pool, log) ->
  next_request_id pool + N.of_nat (length (filter is_retain ops)) < u64_mod ->
  let s := logged_run ops (pool, log) in
  s.1 = pool_run ops pool /\ pool_wf s.1 /\ conserved s.
Proof.
  revert pool log. induction ops as [|o ops IH]; intros pool log Hwf Hcons Hn; [done|]. simpl.
  rewrite filter_cons in Hn.
  assert (is_retain o -> next_request_id pool + 1 < u64_mod) as Hid.
  { intros. case_decide; simpl in *; [lia|done]. }
  destruct (pool_step_wf o pool Hwf Hid) as [Hwf' Hnext].
  apply IH; [done|by apply conserved_step|].
  rewrite Hnext. case_decide; destruct (is_retain o); simpl in *; try done; lia.
Qed.

Lemma empty_pool_wf : pool_wf empty_pool.
Proof. by constructor. Qed.

Lemma conserved_empty : conserved (empty_pool, empty_log).
Proof. intros p. repeat constructor. Qed.

(** ** Properties *)

(** The pool keeps its invariant.  After any sequence of calls on an empty
    pool (fewer than 2^64 retained requests in total, so that ids do not
    repeat), no Program has an empty queue, every queue is in arrival order,
    ids are distinct across Programs, and [len] is the number of requests that
    wait. *)
Theorem pool_invariant (ops : list pool_op) :
  N.of_nat (length (filter is_retain ops)) < u64_mod ->
  let pool := pool_run ops empty_pool in
  pool_wf pool /\ len pool = total (requests pool) /\
  (is_empty pool = true <-> requests pool = ∅).
Proof.
  intros Hn; cbv zeta.
  destruct (logged_run_invariant ops empty_pool empty_log) as (Hrun & Hwf & _);
    [apply empty_pool_wf|apply conserved_empty|done|].
  rewrite Hrun in Hwf. split_and!; [done|by apply pool_count|].
  unfold is_empty. rewrite N.eqb_eq, (pool_count _ Hwf). by apply total_zero, pool_nonempty.
Qed.

(** Requests are conserved and served first come, first served.  In any run
    from an empty pool the ids retained for a Program generation are exactly
    those taken, cancelled or still queued, each once, and those taken followed
    by those still queued are in the order of arrival. *)
Theorem pool_fifo_conservation (ops : list pool_op) :
  N.of_nat (length (filter is_retain ops)) < u64_mod ->
  let '(pool, log) := logged_run ops (empty_pool, empty_log) in
  forall p,
    ids_of p (log_retained log) ≡ₚ
      ids_of p (log_taken log) ++ ids_of p (log_cancelled log) ++ queued_ids p pool /\
    StronglySorted N.lt (ids_of p (log_taken log) ++ queued_ids p pool).
Proof.
  intros Hn. destruct (logged_run_invariant ops empty_pool empty_log) as (_ & _ & Hcons);
    [apply empty_pool_wf|apply conserved_empty|done|].
  destruct (logged_run _ _) as [pool log]. intros p.
  destruct (Hcons p) as (? & ? & _). done.
Qed.

Lemma pool_invariant_witness : len (pool_run pool_example empty_pool) = 1.
Proof.
  destruct (pool_invariant pool_example) as (_ & -> & _); vm_compute; reflexivity.
Defined.

Lemma pool_fifo_conservation_witness :
  ids_of ref_a (log_taken (logged_run pool_example (empty_pool, empty_log)).2) = [1] /\
  StronglySorted N.lt ([1] ++ queued_ids ref_a (pool_run pool_example empty_pool)).
Proof.
  split; [reflexivity|].
  pose proof (pool_fifo_conservation pool_example eq_refl) as H.
  exact (proj2 (H ref_a)).
Defined.
