(* ===== verification/ProgramRuntime.v ===== *)
(** * Program generations of [src/program_scheduling/runtime.rs]

    [ProgramRuntime] owns the live Programs, the generation history that fences
    delayed work of released generations, the request pool and the counter of
    placement epochs.  One definition per method; a method that takes
    [&mut self] returns the new runtime, also where it fails after having
    written to it ([admit_front]).  The system of the last part adds the
    dispatches handed out and not yet completed, so that the in-flight counts
    can be compared with them. *)

From S2P Require Import Prelude RequestPool.

Local Open Scope N_scope.

(** ** Data *)

(** [ProgramIdentity] of [identity.rs]. *)
Record ProgramIdentity := {
  id_model_pool : string;
  id_program_id : string;
  id_placement_hash_key : string;
  id_placement_key : string;
  id_expected_resume : bool;
  id_task_id : option string;
  id_session_id : option string;
  id_agent_id : option string;
  id_parent_program_id : option string;
  id_root_program_id : option string;
  id_blocks_parent : bool;
  id_agent_role : option string;
  id_spawn_reason : option string;
  id_step_id : option N;
  id_request_hints : ProgramRequestHints;
}.

Record RuntimeKey := MkKey { key_model_pool : string; key_program_id : string }.

#[export] Instance RuntimeKey_eq_dec : EqDecision RuntimeKey.
Proof. solve_decision. Defined.

#[export] Instance RuntimeKey_countable : Countable RuntimeKey.
Proof.
  refine (inj_countable' (fun k => (key_model_pool k, key_program_id k))
    (fun '(m, p) => MkKey m p) _).
  by intros [].
Defined.

Definition key_of_identity (i : ProgramIdentity) : RuntimeKey :=
  MkKey (id_model_pool i) (id_program_id i).

Definition key_of_ref (r : ProgramRef) : RuntimeKey :=
  MkKey (ref_model_pool r) (ref_program_id r).

Record RuntimeProgram := MkProgram {
  rp_reference : ProgramRef;
  rp_state : ProgramState;
  rp_status : ProgramStatus;
  rp_expected_resume : bool;
  rp_placement : option string;
  rp_placement_epoch : N;                    (* u64 *)
  rp_placement_start_request_pending : bool;
  rp_estimated_context_tokens : N;           (* usize *)
  rp_in_flight_requests : N;                 (* usize *)
}.

Record ProgramRuntime := MkRuntime {
  programs : gmap RuntimeKey RuntimeProgram;
  last_generations : gmap RuntimeKey N;
  released_generations_at : gmap RuntimeKey N;
  request_pool : RequestPool;
  next_placement_epoch : N;                  (* u64 *)
}.

Definition empty_runtime : ProgramRuntime := MkRuntime ∅ ∅ ∅ empty_pool 0.

Record ProgramDispatch := MkDispatch {
  d_program : ProgramRef;
  d_target_id : string;
  d_placement_epoch : N;
  d_request_arrived_at : N;
  d_dispatched_at : N;
  d_estimated_context_tokens : N;
  d_placement_start_request : bool;
  d_routing_text : option string;
  d_request_hints : ProgramRequestHints;
}.

(** ** Record updates *)

Definition with_programs (m : gmap RuntimeKey RuntimeProgram) (rt : ProgramRuntime) : ProgramRuntime :=
  MkRuntime m (last_generations rt) (released_generations_at rt) (request_pool rt)
    (next_placement_epoch rt).

Definition with_pool (pool : RequestPool) (rt : ProgramRuntime) : ProgramRuntime :=
  MkRuntime (programs rt) (last_generations rt) (released_generations_at rt) pool
    (next_placement_epoch rt).

Definition with_epoch (e : N) (rt : ProgramRuntime) : ProgramRuntime :=
  MkRuntime (programs rt) (last_generations rt) (released_generations_at rt) (request_pool rt) e.

Definition put_program (k : RuntimeKey) (p : RuntimeProgram) (rt : ProgramRuntime) : ProgramRuntime :=
  with_programs (<[k := p]> (programs rt)) rt.

Definition with_status (s : ProgramStatus) (p : RuntimeProgram) : RuntimeProgram :=
  MkProgram (rp_reference p) (rp_state p) s (rp_expected_resume p) (rp_placement p)
    (rp_placement_epoch p) (rp_placement_start_request_pending p)
    (rp_estimated_context_tokens p) (rp_in_flight_requests p).

Definition with_placement (s : ProgramState) (pl : option string) (e : N) (pending : bool)
  (p : RuntimeProgram) : RuntimeProgram :=
  MkProgram (rp_reference p) s (rp_status p) (rp_expected_resume p) pl e pending
    (rp_estimated_context_tokens p) (rp_in_flight_requests p).

Definition with_in_flight (n : N) (p : RuntimeProgram) : RuntimeProgram :=
  MkProgram (rp_reference p) (rp_state p) (rp_status p) (rp_expected_resume p) (rp_placement p)
    (rp_placement_epoch p) (rp_placement_start_request_pending p)
    (rp_estimated_context_tokens p) n.

Definition with_estimate (resume : bool) (n : N) (p : RuntimeProgram) : RuntimeProgram :=
  MkProgram (rp_reference p) (rp_state p) (rp_status p) resume (rp_placement p)
    (rp_placement_epoch p) (rp_placement_start_request_pending p) n (rp_in_flight_requests p).

(** ** Operations *)

Definition new_program (r : ProgramRef) (expected_resume : bool) (estimate : N) : RuntimeProgram :=
  MkProgram r Paused Reasoning expected_resume None 0 false estimate 0.

Definition retain_request (identity : ProgramIdentity) (estimated_context_tokens : N)
  (routing_text : option string) (arrived_at : N) (rt : ProgramRuntime)
  : ProgramRequestHandle * ProgramRuntime :=
  let key := key_of_identity identity in
  let released := delete key (released_generations_at rt) in
  let '(program_ref, progs, gens) :=
    match programs rt !! key with
    | Some program =>
        let program := with_estimate (id_expected_resume identity)
          (N.max (rp_estimated_context_tokens program) estimated_context_tokens) program in
        (rp_reference program, <[key := program]> (programs rt), last_generations rt)
    | None =>
        let generation :=
          match last_generations rt !! key with
          | Some g => u64_saturating_add g 1
          | None => 0
          end in
        let reference := MkRef (id_model_pool identity) (id_program_id identity) generation in
        (reference,
         <[key := new_program reference (id_expected_resume identity) estimated_context_tokens]>
           (programs rt),
         <[key := generation]> (last_generations rt))
    end in
  let progs := alter (with_status Reasoning) key progs in
  let '(handle, pool) := retain program_ref arrived_at estimated_context_tokens routing_text
    (id_request_hints identity) (request_pool rt) in
  (handle, MkRuntime progs gens released pool (next_placement_epoch rt)).

(** The placement part of [admit_front]: [None] where the source returns before
    writing, otherwise whether the request starts a placement, the program and
    the epoch counter after the writes. *)
Definition admit_placement (target_id : string) (program : RuntimeProgram) (epoch : N)
  : option (bool * RuntimeProgram * N) :=
  match rp_state program with
  | Paused =>
      let epoch := u64_saturating_add epoch 1 in
      Some (true, with_placement Active (Some target_id) epoch false program, epoch)
  | Active =>
      if decide (rp_placement program = Some target_id) then
        Some (rp_placement_start_request_pending program,
              with_placement Active (rp_placement program) (rp_placement_epoch program) false program,
              epoch)
      else None
  end.

Definition admit_front (handle : ProgramRequestHandle) (target_id : string) (dispatched_at : N)
  (rt : ProgramRuntime) : option ProgramDispatch * ProgramRuntime :=
  let key := key_of_ref (handle_program handle) in
  match programs rt !! key with
  | None => (None, rt)
  | Some program =>
      if decide (rp_reference program = handle_program handle) then
        match admit_placement target_id program (next_placement_epoch rt) with
        | None => (None, rt)
        | Some (starts_placement, program, epoch) =>
            match take_front handle (request_pool rt) with
            | None => (None, with_epoch epoch (put_program key program rt))
            | Some (request, pool) =>
                let program := with_in_flight
                  (u64_saturating_add (rp_in_flight_requests program) 1)
                  (with_status Reasoning program) in
                let pool := notify_front (rp_reference program) pool in
                (Some (MkDispatch (rp_reference program) target_id (rp_placement_epoch program)
                         (arrived_at request) dispatched_at (estimated_context_tokens request)
                         starts_placement (routing_text request) (hints request)),
                 with_pool pool (with_epoch epoch (put_program key program rt)))
            end
        end
      else (None, rt)
  end.

Definition complete_request (dispatch : ProgramDispatch) (usage : ProgramUsageObservation)
  (rt : ProgramRuntime) : bool * ProgramRuntime :=
  let key := key_of_ref (d_program dispatch) in
  match programs rt !! key with
  | None => (false, rt)
  | Some program =>
      if bool_decide (rp_reference program <> d_program dispatch)
         || negb (rp_placement_epoch program =? d_placement_epoch dispatch)
         || (rp_in_flight_requests program =? 0)
      then (false, rt)
      else
        let prompt := default (d_estimated_context_tokens dispatch) (prompt_tokens usage) in
        let program := with_estimate (rp_expected_resume program)
          (N.max (rp_estimated_context_tokens program) prompt) program in
        let program := with_in_flight (rp_in_flight_requests program - 1) program in
        let program :=
          if (rp_in_flight_requests program =? 0)
             && (program_len (rp_reference program) (request_pool rt) =? 0)
          then with_status Acting program else program in
        (true, put_program key program rt)
  end.

Definition cancel_request (handle : ProgramRequestHandle) (rt : ProgramRuntime)
  : bool * ProgramRuntime :=
  match cancel handle (request_pool rt) with
  | None => (false, rt)
  | Some (was_front, pool) =>
      let pool := if was_front : bool then notify_front (handle_program handle) pool else pool in
      let rt := with_pool pool rt in
      let key := key_of_ref (handle_program handle) in
      (true,
       match programs rt !! key with
       | Some program =>
           if bool_decide (rp_reference program = handle_program handle)
              && (rp_in_flight_requests program =? 0)
              && (program_len (rp_reference program) pool =? 0)
           then
             let program := with_status Acting program in
             put_program key
               (if decide (rp_state program = Active)
                then with_placement Paused None (rp_placement_epoch program)
                       (rp_placement_start_request_pending program) program
                else program) rt
           else rt
       | None => rt
       end)
  end.

Definition pause_idle (program_ref : ProgramRef) (rt : ProgramRuntime) : bool * ProgramRuntime :=
  let key := key_of_ref program_ref in
  match programs rt !! key with
  | None => (false, rt)
  | Some program =>
      if bool_decide (rp_reference program <> program_ref)
         || bool_decide (rp_state program <> Active)
         || negb (rp_in_flight_requests program =? 0)
      then (false, rt)
      else (true, put_program key
              (with_placement Paused None (rp_placement_epoch program)
                 (rp_placement_start_request_pending program) program) rt)
  end.

Definition activate (program_ref : ProgramRef) (target_id : string) (rt : ProgramRuntime)
  : bool * ProgramRuntime :=
  let key := key_of_ref program_ref in
  match programs rt !! key with
  | None => (false, rt)
  | Some program =>
      if bool_decide (rp_reference program <> program_ref)
         || bool_decide (rp_state program <> Paused)
         || (program_len program_ref (request_pool rt) =? 0)
      then (false, rt)
      else
        let epoch := u64_saturating_add (next_placement_epoch rt) 1 in
        (true, with_epoch epoch (put_program key
                 (with_placement Active (Some target_id) epoch true
                    (with_status Reasoning program)) rt))
  end.

Definition release_idle (program_ref : ProgramRef) (now : N) (rt : ProgramRuntime)
  : bool * ProgramRuntime :=
  let key := key_of_ref program_ref in
  match programs rt !! key with
  | None => (false, rt)
  | Some program =>
      if bool_decide (rp_reference program = program_ref)
         && (rp_in_flight_requests program =? 0)
         && (program_len program_ref (request_pool rt) =? 0)
      then
        (true, MkRuntime (delete key (programs rt))
                 (<[key := ref_generation (rp_reference program)]> (last_generations rt))
                 (<[key := now]> (released_generations_at rt))
                 (request_pool rt) (next_placement_epoch rt))
      else (false, rt)
  end.

(** The keys [prune_released_generations] collects. *)
Definition generation_expired (now retention : N) (rt : ProgramRuntime) (kv : RuntimeKey * N) : Prop :=
  programs rt !! kv.1 = None /\ retention <= saturating_sub now kv.2.

#[export] Instance generation_expired_dec now retention rt kv :
  Decision (generation_expired now retention rt kv).
Proof. apply and_dec; apply _. Defined.

Definition prune_released_generations (now retention : N) (rt : ProgramRuntime) : ProgramRuntime :=
  let expired := dom (filter (generation_expired now retention rt) (released_generations_at rt)) in
  MkRuntime (programs rt)
    (filter (fun kv => kv.1 ∉ expired) (last_generations rt))
    (filter (fun kv => kv.1 ∉ expired) (released_generations_at rt))
    (request_pool rt) (next_placement_epoch rt).

Definition invalidate_placement (program_ref : ProgramRef) (removed_targets : list string)
  (rt : ProgramRuntime) : bool * ProgramRuntime :=
  let key := key_of_ref program_ref in
  match programs rt !! key with
  | None => (false, rt)
  | Some program =>
      if bool_decide (rp_reference program <> program_ref)
         || match rp_placement program with
            | None => true
            | Some target => bool_decide (target ∉ removed_targets)
            end
      then (false, rt)
      else
        let epoch := u64_saturating_add (next_placement_epoch rt) 1 in
        (true, with_epoch epoch (put_program key
                 (with_in_flight 0 (with_placement Paused None epoch false program)) rt))
  end.

(** The program a reference names exactly, generation included. *)
Definition live_program (program_ref : ProgramRef) (rt : ProgramRuntime) : option RuntimeProgram :=
  match programs rt !! key_of_ref program_ref with
  | Some program => if decide (rp_reference program = program_ref) then Some program else None
  | None => None
  end.

Definition state (program_ref : ProgramRef) (rt : ProgramRuntime)
  : option (ProgramState * ProgramStatus) :=
  (fun p => (rp_state p, rp_status p)) <$> live_program program_ref rt.

Definition placement (program_ref : ProgramRef) (rt : ProgramRuntime) : option string :=
  live_program program_ref rt ≫= rp_placement.

Definition retained_request_count (rt : ProgramRuntime) : N := len (request_pool rt).

Definition request_pool_is_empty (rt : ProgramRuntime) : bool := is_empty (request_pool rt).

Definition front_request_hints (program_ref : ProgramRef) (rt : ProgramRuntime)
  : option ProgramRequestHints := front_hints program_ref (request_pool rt).

Record RuntimeProgramView := {
  view_state : ProgramState;
  view_status : ProgramStatus;
  view_placement : option string;
  view_in_flight_requests : N;
  view_waiting_requests : N;
}.

Definition view (program_ref : ProgramRef) (rt : ProgramRuntime) : option RuntimeProgramView :=
  (fun p => {| view_state := rp_state p;
               view_status := rp_status p;
               view_placement := rp_placement p;
               view_in_flight_requests := rp_in_flight_requests p;
               view_waiting_requests := program_len (rp_reference p) (request_pool rt) |})
    <$> live_program program_ref rt.

(** [RuntimeProgramViewRef]: the facts [iter_views] lends out. *)
Record RuntimeProgramViewRef := {
  viewref_reference : ProgramRef;
  viewref_state : ProgramState;
  viewref_status : ProgramStatus;
  viewref_expected_resume : bool;
  viewref_placement : option string;
  viewref_estimated_context_tokens : N;
  viewref_in_flight_requests : N;
  viewref_waiting_requests : N;
}.

Definition iter_views `{HashOrder} (rt : ProgramRuntime) : list RuntimeProgramViewRef :=
  (fun kp => let p := kp.2 in
    {| viewref_reference := rp_reference p;
       viewref_state := rp_state p;
       viewref_status := rp_status p;
       viewref_expected_resume := rp_expected_resume p;
       viewref_placement := rp_placement p;
       viewref_estimated_context_tokens := rp_estimated_context_tokens p;
       viewref_in_flight_requests := rp_in_flight_requests p;
       viewref_waiting_requests := program_len (rp_reference p) (request_pool rt) |})
    <$> iter (programs rt).

Definition runtime_notify_front (program_ref : ProgramRef) (rt : ProgramRuntime) : ProgramRuntime :=
  with_pool (notify_front program_ref (request_pool rt)) rt.

(** ** The runtime with the dispatches it handed out *)

Record Sys := MkSys {
  sys_rt : ProgramRuntime;
  outstanding : list ProgramDispatch;
}.

(** The counters a run may exhaust only after 2^64 events. *)
Definition counters_left (s : Sys) : Prop :=
  next_request_id (request_pool (sys_rt s)) + 1 < u64_mod /\
  next_placement_epoch (sys_rt s) < u64_max /\
  N.of_nat (length (outstanding s)) < u64_max.

(** Any caller may make any call, in any order, with any handle or reference;
    only a completion needs a dispatch that was handed out, and uses it up. *)
Inductive sys_step : Sys -> Sys -> Prop :=
| step_retain rt out identity est text at_ :
    sys_step (MkSys rt out) (MkSys (retain_request identity est text at_ rt).2 out)
| step_admit rt out handle target at_ d rt' :
    admit_front handle target at_ rt = (Some d, rt') ->
    sys_step (MkSys rt out) (MkSys rt' (d :: out))
| step_admit_fails rt out handle target at_ rt' :
    admit_front handle target at_ rt = (None, rt') ->
    sys_step (MkSys rt out) (MkSys rt' out)
| step_complete rt out i d usage :
    out !! i = Some d ->
    sys_step (MkSys rt out) (MkSys (complete_request d usage rt).2 (delete i out))
| step_cancel rt out handle :
    sys_step (MkSys rt out) (MkSys (cancel_request handle rt).2 out)
| step_pause rt out r :
    sys_step (MkSys rt out) (MkSys (pause_idle r rt).2 out)
| step_activate rt out r target :
    sys_step (MkSys rt out) (MkSys (activate r target rt).2 out)
| step_release rt out r now :
    sys_step (MkSys rt out) (MkSys (release_idle r now rt).2 out)
| step_prune rt out now retention :
    sys_step (MkSys rt out) (MkSys (prune_released_generations now retention rt) out)
| step_invalidate rt out r removed :
    sys_step (MkSys rt out) (MkSys (invalidate_placement r removed rt).2 out)
| step_notify rt out r :
    sys_step (MkSys rt out) (MkSys (runtime_notify_front r rt) out).

Inductive reachable : Sys -> Prop :=
| reach_init : reachable (MkSys empty_runtime [])
| reach_step s s' : reachable s -> counters_left s -> sys_step s s' -> reachable s'.

(** A dispatch of the current placement of a live program. *)
Definition current_dispatch (p : RuntimeProgram) (d : ProgramDispatch) : Prop :=
  d_program d = rp_reference p /\ d_placement_epoch d = rp_placement_epoch p.

#[export] Instance current_dispatch_dec p d : Decision (current_dispatch p d).
Proof. apply and_dec; apply _. Defined.

Definition in_flight_of (p : RuntimeProgram) (out : list ProgramDispatch) : N :=
  N.of_nat (length (filter (current_dispatch p) out)).

(** ** The invariant *)

Record program_ok (pool : RequestPool) (epoch : N) (out : list ProgramDispatch)
  (p : RuntimeProgram) : Prop := {
  ok_active : rp_state p = Active <-> is_Some (rp_placement p);
  ok_paused : rp_state p = Paused -> rp_in_flight_requests p = 0;
  ok_acting : rp_status p = Acting ->
    rp_in_flight_requests p = 0 /\ program_len (rp_reference p) pool = 0;
  ok_started : rp_state p = Active -> 0 < rp_placement_epoch p;
  ok_epoch : rp_placement_epoch p <= epoch;
  ok_in_flight : rp_in_flight_requests p = in_flight_of p out;
}.

Record sys_wf (s : Sys) : Prop := {
  wf_key : forall k p, programs (sys_rt s) !! k = Some p -> key_of_ref (rp_reference p) = k;
  wf_generation : forall k p, programs (sys_rt s) !! k = Some p ->
    last_generations (sys_rt s) !! k = Some (ref_generation (rp_reference p));
  wf_released : forall k t, released_generations_at (sys_rt s) !! k = Some t ->
    programs (sys_rt s) !! k = None;
  wf_program : forall k p, programs (sys_rt s) !! k = Some p ->
    program_ok (request_pool (sys_rt s)) (next_placement_epoch (sys_rt s)) (outstanding s) p;
  wf_live : forall r q, requests (request_pool (sys_rt s)) !! r = Some q ->
    is_Some (live_program r (sys_rt s));
  wf_pool : pool_wf (request_pool (sys_rt s));
  wf_outstanding : Forall (fun d => 0 < d_placement_epoch d <= next_placement_epoch (sys_rt s))
    (outstanding s);
}.

(** Concrete values the witnesses run: two requests of one Program, placed on
    [t0] by a resume. *)
Definition identity_a : ProgramIdentity := {|
  id_model_pool := "m"; id_program_id := "a"; id_placement_hash_key := "a";
  id_placement_key := "a"; id_expected_resume := true; id_task_id := None;
  id_session_id := None; id_agent_id := None; id_parent_program_id := None;
  id_root_program_id := None; id_blocks_parent := false; id_agent_role := None;
  id_spawn_reason := None; id_step_id := None; id_request_hints := default_hints |}.

Definition retained_example : ProgramRuntime :=
  (retain_request identity_a 20 None 2 (retain_request identity_a 10 None 1 empty_runtime).2).2.

Definition resumed_example : ProgramRuntime := (activate ref_a "t0" retained_example).2.

Definition dispatch_example : ProgramDispatch :=
  MkDispatch ref_a "t0" 1 1 3 10 true None default_hints.

Definition dispatched_example : ProgramRuntime :=
  (admit_front (MkHandle ref_a 1) "t0" 3 resumed_example).2.

(** Both requests dispatched, nothing waits. *)
Definition drained_example : Sys :=
  MkSys (admit_front (MkHandle ref_a 2) "t0" 4 dispatched_example).2
    [MkDispatch ref_a "t0" 1 2 4 20 false None default_hints; dispatch_example].

Definition drained_program : RuntimeProgram :=
  MkProgram ref_a Active Reasoning true (Some "t0") 1 false 20 2.

(** One request retained and cancelled: the Program is idle. *)
Definition idle_example : ProgramRuntime :=
  (cancel_request (MkHandle ref_a 1) (retain_request identity_a 10 None 1 empty_runtime).2).2.

(** ** Lemmas *)

Lemma live_program_Some r rt p :
  live_program r rt = Some p <-> programs rt !! key_of_ref r = Some p /\ rp_reference p = r.
Proof. unfold live_program. repeat case_match; naive_solver. Qed.

(** The frame of every transition that updates one live program. *)
Lemma sys_wf_put rt out k p p' rel' pool' epoch' out' :
  sys_wf (MkSys rt out) ->
  programs rt !! k = Some p -> rp_reference p' = rp_reference p ->
  (forall k t, rel' !! k = Some t -> released_generations_at rt !! k = Some t) ->
  pool_wf pool' ->
  (forall r, r <> rp_reference p -> requests pool' !! r = requests (request_pool rt) !! r) ->
  next_placement_epoch rt <= epoch' ->
  Forall (fun d => 0 < d_placement_epoch d <= epoch') out' ->
  (forall p0, rp_reference p0 <> rp_reference p -> in_flight_of p0 out' = in_flight_of p0 out) ->
  program_ok pool' epoch' out' p' ->
  sys_wf (MkSys (MkRuntime (<[k:=p']> (programs rt)) (last_generations rt) rel' pool' epoch') out').
Proof.
  intros [Hkey Hgen Hrel Hprog Hlive Hpool Hout] Hp Href Hrel' Hpool' Hother Hepoch Hout' Hcount Hok.
  simpl in *.
  assert (forall k0 p0, k0 <> k -> programs rt !! k0 = Some p0 -> rp_reference p0 <> rp_reference p)
    as Hne.
  { intros k0 p0 Hk0 Hp0 Heq. apply Hk0. by rewrite <-(Hkey _ _ Hp0), <-(Hkey _ _ Hp), Heq. }
  constructor; simpl; try done.
  - intros k0 p0. destruct (decide (k0 = k)) as [->|]; intros; simplify_map_eq; [|eauto].
    rewrite Href. eauto.
  - intros k0 p0. destruct (decide (k0 = k)) as [->|]; intros; simplify_map_eq; [|eauto].
    rewrite Href. eauto.
  - intros k0 t Hk0%Hrel'%Hrel. destruct (decide (k0 = k)) as [->|]; simplify_map_eq; done.
  - intros k0 p0. destruct (decide (k0 = k)) as [->|]; intros Hp0; simplify_map_eq; [done|].
    destruct (Hprog _ _ Hp0) as [? ? Hact ? ? ?]. constructor; try done; [|lia|].
    + intros Ha. split; [by apply Hact|]. unfold program_len.
      rewrite Hother by eauto. by apply Hact.
    + rewrite Hcount by eauto. done.
  - intros r q Hr. destruct (decide (r = rp_reference p)) as [->|Hner].
    + exists p'. apply live_program_Some. simpl. rewrite (Hkey _ _ Hp). by simplify_map_eq.
    + rewrite Hother in Hr by done. destruct (Hlive _ _ Hr) as [p0 Hp0].
      apply live_program_Some in Hp0 as [Hp0 <-]. exists p0. apply live_program_Some. simpl.
      rewrite lookup_insert_ne; [done|]. intros ->. simplify_eq.
Qed.

(** Updates that touch neither the pool nor the dispatches. *)
Lemma sys_wf_put_simple rt out k p p' epoch' :
  sys_wf (MkSys rt out) ->
  programs rt !! k = Some p -> rp_reference p' = rp_reference p ->
  next_placement_epoch rt <= epoch' ->
  program_ok (request_pool rt) epoch' out p' ->
  sys_wf (MkSys (with_epoch epoch' (put_program k p' rt)) out).
Proof.
  intros Hwf Hp Href Hep Hok. eapply (sys_wf_put rt out k p); try done; [apply Hwf|].
  eapply Forall_impl; [apply Hwf|]. simpl. lia.
Qed.

Lemma with_epoch_same rt : with_epoch (next_placement_epoch rt) rt = rt.
Proof. by destruct rt. Qed.

Lemma sys_wf_put_same rt out k p p' :
  sys_wf (MkSys rt out) ->
  programs rt !! k = Some p -> rp_reference p' = rp_reference p ->
  program_ok (request_pool rt) (next_placement_epoch rt) out p' ->
  sys_wf (MkSys (put_program k p' rt) out).
Proof.
  intros. rewrite <-(with_epoch_same (put_program k p' rt)). by eapply sys_wf_put_simple.
Qed.

Lemma in_flight_of_fresh p out e :
  Forall (fun d => 0 < d_placement_epoch d <= e) out ->
  rp_placement_epoch p = 0 \/ e < rp_placement_epoch p ->
  in_flight_of p out = 0.
Proof.
  intros HF Hp. unfold in_flight_of. rewrite filter_none; [done|].
  eapply Forall_impl; [done|]. simpl. intros d Hd [_ ?]. lia.
Qed.

Lemma in_flight_of_ext p p' out :
  rp_reference p' = rp_reference p -> rp_placement_epoch p' = rp_placement_epoch p ->
  in_flight_of p' out = in_flight_of p out.
Proof.
  intros Hr He. unfold in_flight_of, current_dispatch. f_equal. f_equal.
  apply list_filter_iff. intros d. by rewrite Hr, He.
Qed.

Lemma in_flight_of_cons p d out :
  in_flight_of p (d :: out) = in_flight_of p out + if decide (current_dispatch p d) then 1 else 0.
Proof. unfold in_flight_of. rewrite filter_cons. case_decide; simpl; lia. Qed.

Lemma in_flight_of_delete p d out i :
  out !! i = Some d ->
  in_flight_of p out = in_flight_of p (delete i out) + if decide (current_dispatch p d) then 1 else 0.
Proof.
  intros Hi. rewrite <-in_flight_of_cons. unfold in_flight_of.
  by rewrite (delete_Permutation out i d Hi) at 1.
Qed.

Lemma in_flight_of_le p out : in_flight_of p out <= N.of_nat (length out).
Proof. unfold in_flight_of. pose proof (length_filter (current_dispatch p) out). lia. Qed.

Lemma in_flight_of_other p p0 d out :
  rp_reference p0 <> rp_reference p -> d_program d = rp_reference p -> 
  in_flight_of p0 (d :: out) = in_flight_of p0 out.
Proof.
  intros Hne Hd. rewrite in_flight_of_cons. case_decide as Hc; [|lia].
  destruct Hc. congruence.
Qed.

Lemma queue_len_0 r pool :
  pool_wf pool -> program_len r pool = 0 -> requests pool !! r = None.
Proof.
  unfold program_len. intros Hwf H. destruct (requests pool !! r) as [q|] eqn:Hq; [|done].
  destruct q; [by destruct (pool_nonempty _ Hwf _ _ Hq)|simpl in *; lia].
Qed.

Lemma notify_front_requests r pool : requests (notify_front r pool) = requests pool.
Proof. unfold notify_front. by repeat case_match. Qed.

Lemma notify_front_permit r pool next queue :
  requests (notify_front r pool) !! r = Some (next :: queue) ->
  request_id next ∈ permits (notify_front r pool).
Proof.
  rewrite notify_front_requests. intros H. unfold notify_front. rewrite H. set_solver.
Qed.

Lemma notify_front_wf r pool : pool_wf pool -> pool_wf (notify_front r pool).
Proof. intros Hwf. apply (pool_step_wf (NotifyFront r) pool); [done|by intros []]. Qed.

Lemma program_len_notify r r' pool : program_len r (notify_front r' pool) = program_len r pool.
Proof. unfold program_len. by rewrite notify_front_requests. Qed.

Lemma notify_wf r s out :
  sys_wf (MkSys s out) -> sys_wf (MkSys (runtime_notify_front r s) out).
Proof.
  intros [Hkey Hgen Hrel Hprog Hlive Hpool Hout]. constructor; simpl in *; try done.
  - intros k p Hp. destruct (Hprog k p Hp). constructor; try done.
    by rewrite program_len_notify.
  - intros r' q. rewrite notify_front_requests. apply Hlive.
  - by apply notify_front_wf.
Qed.

Lemma pause_idle_wf r rt out :
  sys_wf (MkSys rt out) -> sys_wf (MkSys (pause_idle r rt).2 out).
Proof.
  intros Hwf. unfold pause_idle. destruct (programs rt !! key_of_ref r) as [p|] eqn:Hp; [|done].
  case_match eqn:E; [done|]. simpl.
  eapply sys_wf_put_same; [done..|].
  destruct (wf_program _ Hwf _ _ Hp) as [? ? ? ? ? ?]. rewrite !orb_false_iff in E.
  destruct E as [[_ _] E]. apply negb_false_iff, N.eqb_eq in E.
  constructor; simpl; done.
Qed.

Lemma activate_wf r target rt out :
  sys_wf (MkSys rt out) -> next_placement_epoch rt < u64_max ->
  sys_wf (MkSys (activate r target rt).2 out).
Proof.
  intros Hwf Hmax. unfold activate. destruct (programs rt !! key_of_ref r) as [p|] eqn:Hp; [|done].
  case_match eqn:E; [done|]. rewrite !orb_false_iff, !bool_decide_eq_false in E.
  destruct E as [[_ Hst] E]. simpl.
  assert (u64_saturating_add (next_placement_epoch rt) 1 = next_placement_epoch rt + 1) as ->
    by (unfold u64_saturating_add; lia).
  eapply sys_wf_put_simple; [done..|simpl; lia|].
  destruct (wf_program _ Hwf _ _ Hp) as [? Hpaused ? ? ? ?]. simpl in *.
  constructor; simpl; try done; [lia|].
  - rewrite Hpaused by (by apply dec_stable). symmetry.
    eapply in_flight_of_fresh; [apply Hwf|simpl; lia].
Qed.

Lemma invalidate_wf r removed rt out :
  sys_wf (MkSys rt out) -> next_placement_epoch rt < u64_max ->
  sys_wf (MkSys (invalidate_placement r removed rt).2 out).
Proof.
  intros Hwf Hmax. unfold invalidate_placement.
  destruct (programs rt !! key_of_ref r) as [p|] eqn:Hp; [|done].
  case_match eqn:E; [done|]. simpl.
  assert (u64_saturating_add (next_placement_epoch rt) 1 = next_placement_epoch rt + 1) as ->
    by (unfold u64_saturating_add; lia).
  eapply sys_wf_put_simple; [done..|simpl; lia|].
  destruct (wf_program _ Hwf _ _ Hp) as [? ? Hact ? ? ?]. simpl in *.
  constructor; simpl; try done.
  - intros Ha. split; [done|]. by apply Hact.
  - symmetry. eapply in_flight_of_fresh; [apply Hwf|simpl; lia].
Qed.

Lemma complete_request_accepts d usage rt p :
  programs rt !! key_of_ref (d_program d) = Some p ->
  (complete_request d usage rt).1 = true <->
  current_dispatch p d /\ rp_in_flight_requests p <> 0.
Proof.
  intros Hp. unfold complete_request, current_dispatch. rewrite Hp. case_match eqn:E; simpl.
  - split; [done|]. intros ([Hr He] & Hf). exfalso.
    rewrite !orb_true_iff, bool_decide_eq_true, negb_true_iff, N.eqb_neq, N.eqb_eq in E.
    destruct E as [[|]|]; congruence.
  - split; [|done]. intros _. rewrite !orb_false_iff, bool_decide_eq_false, negb_false_iff, N.eqb_neq, N.eqb_eq in E.
    destruct E as [[Hr He] Hf]. split; [|done]. split; [|done].
    symmetry. by apply dec_stable.
Qed.

Lemma complete_request_rejects d usage rt :
  (complete_request d usage rt).1 = false -> (complete_request d usage rt).2 = rt.
Proof. unfold complete_request. by repeat case_match. Qed.

(** A dispatch that is no longer current can be dropped. *)
Lemma sys_wf_drop i d rt out :
  sys_wf (MkSys rt out) -> out !! i = Some d ->
  (forall k p, programs rt !! k = Some p -> ~ current_dispatch p d) ->
  sys_wf (MkSys rt (delete i out)).
Proof.
  intros Hwf Hi Hstale. destruct Hwf as [Hkey Hgen Hrel Hprog Hlive Hpool Hout].
  constructor; simpl in *; try done.
  - intros k p Hp. destruct (Hprog _ _ Hp) as [? ? ? ? ? Hf]. constructor; try done.
    rewrite Hf, (in_flight_of_delete p d out i Hi).
    rewrite decide_False by eauto. lia.
  - eapply Forall_sublist; [apply sublist_delete|done].
Qed.

Lemma complete_request_wf i d usage rt out :
  sys_wf (MkSys rt out) -> out !! i = Some d ->
  sys_wf (MkSys (complete_request d usage rt).2 (delete i out)).
Proof.
  intros Hwf Hi.
  destruct (programs rt !! key_of_ref (d_program d)) as [p|] eqn:Hp.
  2:{ unfold complete_request. rewrite Hp. simpl. eapply sys_wf_drop; [done..|].
      intros k p Hk [Hd _]. rewrite Hd, (wf_key _ Hwf _ _ Hk) in Hp. by simplify_eq/=. }
  destruct (wf_program _ Hwf _ _ Hp) as [Hact Hpau Hacting Hst Hep Hf]; simpl in Hacting, Hep, Hf.
  pose proof (in_flight_of_delete p d out i Hi) as Hdel.
  destruct ((complete_request d usage rt).1) eqn:Hres.
  - pose proof (proj1 (complete_request_accepts d usage rt p Hp) Hres) as [Hcur Hnz].
    assert (forall p', rp_reference p' = rp_reference p -> rp_placement_epoch p' = rp_placement_epoch p ->
      rp_in_flight_requests p - 1 = in_flight_of p' (delete i out)) as Hcount.
    { intros p' Hr He. rewrite (in_flight_of_ext p p') by done.
      rewrite decide_True in Hdel by done. lia. }
    unfold complete_request in *. rewrite Hp in *. case_match; [done|]. simpl.
    destruct Hcur as [Hd He].
    eapply (sys_wf_put rt out _ p); try done.
    + by repeat case_match.
    + apply Hwf.
    + eapply Forall_sublist; [apply sublist_delete|apply Hwf].
    + intros p0 Hne. rewrite (in_flight_of_delete p0 d out i Hi).
      rewrite decide_False; [lia|]. intros [? _]. congruence.
    + clear Hres. simpl. destruct (_ && _) eqn:E; constructor; simpl; try done.
      * intros Hs. rewrite Hpau by done. done.
      * intros _. by rewrite andb_true_iff, !N.eqb_eq in E.
      * by apply Hcount.
      * intros Hs. rewrite Hpau by done. done.
      * intros Hs. destruct (Hacting Hs) as [-> ?]. done.
      * by apply Hcount.
  - rewrite complete_request_rejects by done. eapply sys_wf_drop; [done..|].
    intros k p0 Hk Hcur. assert (p0 = p) as ->.
    { destruct Hcur as [Hd _]. rewrite Hd, (wf_key _ Hwf _ _ Hk) in Hp. by simplify_eq/=. }
    rewrite decide_True in Hdel by done. enough (false = true) by done. rewrite <-Hres.
    apply complete_request_accepts with p; [done|]. split; [done|simpl in *; lia].
Qed.

Lemma sys_wf_pool rt out k p pool' :
  sys_wf (MkSys rt out) -> programs rt !! k = Some p -> pool_wf pool' ->
  (forall r, r <> rp_reference p -> requests pool' !! r = requests (request_pool rt) !! r) ->
  program_ok pool' (next_placement_epoch rt) out p ->
  sys_wf (MkSys (with_pool pool' rt) out).
Proof.
  intros Hwf Hp Hpool Hother Hok. unfold with_pool. rewrite <-(insert_id _ _ _ Hp) at 1.
  eapply (sys_wf_put rt out k p); try done. apply Hwf.
Qed.

Lemma set_queue_other r q pool r' :
  r' <> r -> requests (set_queue r q pool) !! r' = requests pool !! r'.
Proof. intros. simpl. by apply lookup_put_queue. Qed.

Lemma cancel_request_wf handle rt out :
  sys_wf (MkSys rt out) -> sys_wf (MkSys (cancel_request handle rt).2 out).
Proof.
  intros Hwf. unfold cancel_request.
  destruct (cancel handle (request_pool rt)) as [[was_front pool]|] eqn:E; [|done]. simpl.
  assert (pool_wf pool) as Hpool.
  { pose proof (pool_step_wf (Cancel handle) (request_pool rt)) as H. simpl in H. rewrite E in H.
    apply H; [apply Hwf|by intros []]. }
  apply cancel_inv in E as (q & i & r & Hq & Hi & Hr & _ & ->).
  destruct (wf_live _ Hwf _ _ Hq) as [p Hp]. apply live_program_Some in Hp as [Hp Href]. simpl in Hp.
  rewrite Hp, Href.
  destruct (wf_program _ Hwf _ _ Hp) as [Hact Hpau Hacting Hst Hep Hf]; simpl in Hacting, Hep, Hf.
  set (pool' := if was_front then _ else _).
  assert (requests pool' = requests (set_queue (handle_program handle) (delete i q) (request_pool rt)))
    as Hreq by (subst pool'; case_match; [apply notify_front_requests|done]).
  assert (pool_wf pool') as Hpool' by (subst pool'; case_match; [by apply notify_front_wf|done]).
  clearbody pool'.
  assert (forall r0, r0 <> rp_reference p -> requests pool' !! r0 = requests (request_pool rt) !! r0)
    as Hother by (intros; rewrite Hreq; apply set_queue_other; congruence).
  assert (rp_status p <> Acting) as Hna.
  { intros Ha. destruct (Hacting Ha) as [_ Hlen]. rewrite Href in Hlen.
    apply queue_len_0 in Hlen; [|apply Hwf]. congruence. }
  rewrite bool_decide_eq_true_2 by done.
  destruct (_ && _) eqn:E.
  - simpl in E. rewrite andb_true_iff, !N.eqb_eq in E. destruct E as [Hnf Hlen].
    unfold put_program, with_programs, with_pool; simpl.
    eapply (sys_wf_put rt out _ p); try done; try apply Hwf; [by case_decide|].
    case_decide as Hs; simpl in *; constructor; simpl; try done; rewrite ?Href; done.
  - eapply sys_wf_pool; [done..|]. constructor; done.
Qed.

Lemma release_idle_wf r now rt out :
  sys_wf (MkSys rt out) -> sys_wf (MkSys (release_idle r now rt).2 out).
Proof.
  intros Hwf. unfold release_idle. destruct (programs rt !! key_of_ref r) as [p|] eqn:Hp; [|done].
  case_match eqn:E; [|done]. rewrite !andb_true_iff, bool_decide_eq_true, !N.eqb_eq in E.
  destruct E as [[Href Hnf] Hlen]. apply queue_len_0 in Hlen; [|apply Hwf].
  destruct Hwf as [Hkey Hgen Hrel Hprog Hlive Hpool Hout]. simpl in *.
  constructor; simpl in *; try done.
  - intros k0 p0 [? ?]%lookup_delete_Some. eauto.
  - intros k0 p0 [? ?]%lookup_delete_Some. rewrite lookup_insert_ne by done. eauto.
  - intros k0 t. destruct (decide (k0 = key_of_ref r)) as [->|]; intros; simplify_map_eq; eauto.
  - intros k0 p0 [? ?]%lookup_delete_Some. eauto.
  - intros r' q Hr'. destruct (Hlive _ _ Hr') as [p0 Hp0].
    apply live_program_Some in Hp0 as [Hp0 Href0]. exists p0. apply live_program_Some. simpl.
    rewrite lookup_delete_ne; [done|]. intros Heq. rewrite <-Heq in Hp0. congruence.
Qed.

Lemma prune_wf now retention rt out :
  sys_wf (MkSys rt out) -> sys_wf (MkSys (prune_released_generations now retention rt) out).
Proof.
  intros [Hkey Hgen Hrel Hprog Hlive Hpool Hout]. constructor; simpl in *; try done.
  - intros k p Hp. apply map_lookup_filter_Some_2; [by apply Hgen|]. simpl.
    intros [t [Ht [Hn _]]%map_lookup_filter_Some]%elem_of_dom. simpl in Hn. congruence.
  - intros k t [? _]%map_lookup_filter_Some. eauto.
Qed.

Lemma retain_other p a e t h pool r :
  r <> p -> requests (retain p a e t h pool).2 !! r = requests pool !! r.
Proof. intros. simpl. by rewrite lookup_insert_ne. Qed.

Lemma retain_request_wf identity est text at_ rt out :
  sys_wf (MkSys rt out) -> next_request_id (request_pool rt) + 1 < u64_mod ->
  sys_wf (MkSys (retain_request identity est text at_ rt).2 out).
Proof.
  intros Hwf Hid. unfold retain_request. set (key := key_of_identity identity).
  destruct (programs rt !! key) as [p|] eqn:Hp.
  - rewrite (surjective_pairing (retain _ _ _ _ _ _)). simpl. rewrite alter_insert_eq.
    destruct (wf_program _ Hwf _ _ Hp) as [Hact Hpau Hacting Hst Hep Hf]; simpl in Hacting, Hep, Hf.
    eapply (sys_wf_put rt out _ p); try done.
    + intros k t [? ?]%lookup_delete_Some. done.
    + apply retain_wf; [apply Hwf|done].
    + intros r Hr. by apply retain_other.
    + apply Hwf.
  - set (gen := match last_generations rt !! key with Some _ => _ | None => _ end).
    set (ref := MkRef (id_model_pool identity) (id_program_id identity) gen).
    destruct (retain _ _ _ _ _ _) as [handle pool'] eqn:Hret. cbn [fst snd]. rewrite alter_insert_eq.
    assert (pool_wf pool' /\ forall r, r <> ref -> requests pool' !! r = requests (request_pool rt) !! r)
      as [Hpool' Hother].
    { replace pool' with ((retain ref at_ est text (id_request_hints identity) (request_pool rt)).2)
        by (by rewrite Hret).
      split; [apply retain_wf; [apply Hwf|done]|intros; by apply retain_other]. }
    assert (key_of_ref ref = key) as Hrefkey by done.
    destruct Hwf as [Hkey Hgen Hrel Hprog Hlive Hpool Hout]. simpl in Hkey, Hgen, Hrel, Hprog, Hlive, Hpool, Hout.
    assert (forall k0 p0, programs rt !! k0 = Some p0 -> rp_reference p0 <> ref) as Hne.
    { intros k0 p0 Hp0 Heq. apply Hkey in Hp0 as Hk0. congruence. }
    constructor; cbn [sys_rt outstanding programs last_generations released_generations_at
      request_pool next_placement_epoch]; try done.
    + intros k0 p0. destruct (decide (k0 = key)) as [->|]; intros; simplify_map_eq; eauto.
    + intros k0 p0. destruct (decide (k0 = key)) as [->|]; intros; simplify_map_eq; eauto.
    + intros k0 t [? ?]%lookup_delete_Some. rewrite lookup_insert_ne by done. eauto.
    + intros k0 p0. destruct (decide (k0 = key)) as [->|]; intros Hp0; simplify_map_eq.
      * constructor; simpl; try done; [lia|]. symmetry. eapply in_flight_of_fresh; [done|by left].
      * destruct (Hprog _ _ Hp0) as [? ? Hact ? ? ?]. constructor; try done.
        unfold program_len. rewrite Hother by eauto. done.
    + intros r q. destruct (decide (r = ref)) as [->|Hr].
      * intros _. eexists. apply live_program_Some. cbn [programs]. rewrite Hrefkey.
        by rewrite lookup_insert_eq.
      * rewrite Hother by done. intros [p0 Hp0]%Hlive.
        apply live_program_Some in Hp0 as [Hp0 Href]. exists p0. apply live_program_Some. cbn [programs].
        rewrite lookup_insert_ne; [done|]. intros Heq. rewrite <-Heq in Hp0. congruence.
Qed.

(** The placement part of an admission, before the request is taken. *)
Lemma admit_placement_ok pool epoch out target p b p' epoch' :
  program_ok pool epoch out p -> epoch < u64_max ->
  Forall (fun d => 0 < d_placement_epoch d <= epoch) out ->
  admit_placement target p epoch = Some (b, p', epoch') ->
  program_ok pool epoch' out p' /\ rp_reference p' = rp_reference p /\
  epoch <= epoch' /\ rp_placement p' = Some target /\ rp_state p' = Active.
Proof.
  intros [Hact Hpau Hacting Hst Hep Hf] Hmax Hout H. unfold admit_placement in H.
  destruct (rp_state p) eqn:Hs; [case_decide; [|done]|]; simplify_eq/=.
  - split_and!; try done; constructor; simpl; done.
  - assert (u64_saturating_add epoch 1 = epoch + 1) as -> by (unfold u64_saturating_add; lia).
    split_and!; try done; [|lia]. constructor; simpl; try done; [lia|].
    rewrite Hpau by done. symmetry. eapply in_flight_of_fresh; [done|simpl; lia].
Qed.

Lemma admit_front_fails_wf handle target at_ rt rt' out :
  sys_wf (MkSys rt out) -> next_placement_epoch rt < u64_max ->
  admit_front handle target at_ rt = (None, rt') -> sys_wf (MkSys rt' out).
Proof.
  intros Hwf Hmax H. unfold admit_front in H.
  destruct (programs rt !! _) as [p|] eqn:Hp; [|by simplify_eq].
  case_decide; [|by simplify_eq].
  destruct (admit_placement _ _ _) as [[[b p'] epoch']|] eqn:Hadm; [|by simplify_eq].
  destruct (take_front _ _) as [[]|]; simplify_eq.
  destruct (admit_placement_ok _ _ _ _ _ _ _ _ (wf_program _ Hwf _ _ Hp) Hmax
    (wf_outstanding _ Hwf) Hadm) as (? & ? & ? & _).
  by eapply sys_wf_put_simple.
Qed.

Lemma admit_front_wf handle target at_ d rt rt' out :
  sys_wf (MkSys rt out) -> next_placement_epoch rt < u64_max ->
  N.of_nat (length out) < u64_max ->
  admit_front handle target at_ rt = (Some d, rt') -> sys_wf (MkSys rt' (d :: out)).
Proof.
  intros Hwf Hmax Hlen H. unfold admit_front in H.
  destruct (programs rt !! _) as [p|] eqn:Hp; [|done].
  case_decide as Href; [|done].
  destruct (admit_placement _ _ _) as [[[b p'] epoch']|] eqn:Hadm; [|done].
  destruct (take_front _ _) as [[request pool]|] eqn:Htake; [|done].
  destruct (admit_placement_ok _ _ _ _ _ _ _ _ (wf_program _ Hwf _ _ Hp) Hmax
    (wf_outstanding _ Hwf) Hadm) as ([Hact Hpau Hacting Hst Hep Hf] & Href' & Hle & Hpl & Hs).
  simpl in Hf, Hle. pose proof (in_flight_of_le p' out).
  assert (pool_wf pool) as Hpool.
  { pose proof (pool_step_wf (TakeFront handle) (request_pool rt)) as Hstep. simpl in Hstep.
    rewrite Htake in Hstep. apply Hstep; [apply Hwf|by intros []]. }
  apply take_front_inv in Htake as (q & Hq & Hr & ->). injection H as <- <-.
  unfold with_pool, with_epoch, put_program, with_programs; simpl.
  eapply (sys_wf_put rt out _ p); try done.
  - by apply notify_front_wf.
  - intros r Hr'. rewrite notify_front_requests. apply set_queue_other. congruence.
  - constructor; [simpl; auto|]. eapply Forall_impl; [apply Hwf|simpl; lia].
  - intros p0 Hne. eapply (in_flight_of_other p'); [congruence|done].
  - constructor; simpl; try done.
    + congruence.
    + rewrite in_flight_of_cons, decide_True by done.
      rewrite (in_flight_of_ext p') by done. unfold u64_saturating_add. lia.
Qed.

Lemma sys_step_wf s s' : sys_wf s -> counters_left s -> sys_step s s' -> sys_wf s'.
Proof.
  intros Hwf (? & ? & ?) Hstep. destruct Hstep; simpl in *;
    eauto using retain_request_wf, admit_front_wf, admit_front_fails_wf, complete_request_wf,
      cancel_request_wf, pause_idle_wf, activate_wf, release_idle_wf, prune_wf, invalidate_wf,
      notify_wf.
Qed.

Lemma init_wf : sys_wf (MkSys empty_runtime []).
Proof. by constructor. Qed.

Lemma reachable_wf s : reachable s -> sys_wf s.
Proof. induction 1; eauto using init_wf, sys_step_wf. Qed.

Lemma resumed_reachable : reachable (MkSys resumed_example []).
Proof.
  apply (reach_step (MkSys retained_example [])); [|vm_compute; done|apply step_activate].
  apply (reach_step (MkSys (retain_request identity_a 10 None 1 empty_runtime).2 []));
    [|vm_compute; done|apply step_retain].
  apply (reach_step (MkSys empty_runtime [])); [apply reach_init|vm_compute; done|apply step_retain].
Qed.

Lemma drained_reachable : reachable drained_example.
Proof.
  apply (reach_step (MkSys dispatched_example [dispatch_example]));
    [|vm_compute; done|apply (step_admit _ _ (MkHandle ref_a 2) "t0" 4); vm_compute; reflexivity].
  apply (reach_step (MkSys resumed_example []));
    [apply resumed_reachable|vm_compute; done|].
  apply (step_admit _ _ (MkHandle ref_a 1) "t0" 3); vm_compute; reflexivity.
Qed.

Lemma drained_live : live_program ref_a (sys_rt drained_example) = Some drained_program.
Proof. vm_compute. reflexivity. Qed.

(** ** Properties *)

(** C4: lifecycle facts agree.  In every state that any sequence of calls can
    reach, a live Program is active exactly when it has a placement; a paused
    one has nothing in flight; one between requests has nothing in flight and
    nothing waiting; its in-flight count is the number of dispatches of its
    current generation and placement handed out and not completed; and requests
    only ever wait for a live generation. *)
Theorem lifecycle_facts s :
  reachable s ->
  (forall r p, live_program r (sys_rt s) = Some p ->
    (rp_state p = Active <-> is_Some (rp_placement p)) /\
    (rp_state p = Paused -> rp_in_flight_requests p = 0) /\
    (rp_status p = Acting ->
      rp_in_flight_requests p = 0 /\ program_len r (request_pool (sys_rt s)) = 0) /\
    rp_in_flight_requests p = in_flight_of p (outstanding s)) /\
  (forall r, program_len r (request_pool (sys_rt s)) <> 0 -> is_Some (live_program r (sys_rt s))).
Proof.
  intros Hwf%reachable_wf. split.
  - intros r p [Hp <-]%live_program_Some. by destruct (wf_program _ Hwf _ _ Hp).
  - intros r Hlen. unfold program_len in Hlen.
    destruct (requests _ !! r) as [q|] eqn:Hq; [|done]. by eapply wf_live.
Qed.

Lemma lifecycle_facts_witness :
  in_flight_of drained_program (outstanding drained_example) = 2.
Proof.
  destruct (lifecycle_facts drained_example drained_reachable) as [H _].
  destruct (H ref_a _ drained_live) as (_ & _ & _ & <-). reflexivity.
Defined.

(** C18: completions are fenced.  A dispatch that is still outstanding completes
    successfully exactly when its Program generation is live and still on the
    placement it was dispatched on, and then it takes one from the in-flight
    count; otherwise the completion is refused and changes nothing, whatever
    releases, failovers, re-materialisations or prunings happened in between. *)
Theorem completion_fenced s i d usage :
  reachable s -> outstanding s !! i = Some d ->
  let res := complete_request d usage (sys_rt s) in
  (res.1 = true <->
    exists p, live_program (d_program d) (sys_rt s) = Some p /\
      rp_placement_epoch p = d_placement_epoch d) /\
  (res.1 = true -> forall p, live_program (d_program d) (sys_rt s) = Some p ->
    exists p', live_program (d_program d) res.2 = Some p' /\
      rp_in_flight_requests p = rp_in_flight_requests p' + 1) /\
  (res.1 = false -> res.2 = sys_rt s).
Proof.
  intros Hwf%reachable_wf Hi. cbv zeta. split_and!; [|intros Hres p Hp|apply complete_request_rejects].
  - destruct (programs (sys_rt s) !! key_of_ref (d_program d)) as [p|] eqn:Hp.
    2:{ unfold complete_request, live_program. rewrite Hp. naive_solver. }
    rewrite (complete_request_accepts d usage _ p Hp). unfold current_dispatch.
    setoid_rewrite live_program_Some. rewrite Hp. split; [naive_solver|].
    intros (? & [[= <-] Href] & He). split; [done|].
    destruct (wf_program _ Hwf _ _ Hp) as [_ _ _ _ _ ->].
    rewrite (in_flight_of_delete p d _ i Hi), decide_True by done. lia.
  - apply live_program_Some in Hp as [Hp Href].
    pose proof (proj1 (complete_request_accepts d usage _ p Hp) Hres) as [_ Hnz].
    unfold complete_request in *. rewrite Hp in *. case_match; [done|]. simpl in *.
    eexists. rewrite live_program_Some. simpl. rewrite lookup_insert_eq.
    split; [split; [done|by case_match]|]. case_match; simpl; lia.
Qed.

Lemma completion_fenced_witness :
  (complete_request dispatch_example (MkUsage (Some 15) None None) (sys_rt drained_example)).1 = true.
Proof.
  apply (completion_fenced drained_example 1 dispatch_example _ drained_reachable eq_refl).
  exists drained_program. split; [exact drained_live|reflexivity].
Defined.

(** A later generation is never confused with a released one.  After a
    Program generation is released, and pruned at any time before the retention
    has elapsed, the next request with the same identity materialises a
    strictly later generation, so a stale reference names nothing. *)
Theorem generation_fence rt r released_at now retention identity est text at_ :
  (release_idle r released_at rt).1 = true ->
  saturating_sub now released_at < retention -> ref_generation r < u64_max ->
  key_of_identity identity = key_of_ref r ->
  let rt1 := (release_idle r released_at rt).2 in
  let rt2 := prune_released_generations now retention rt1 in
  let '(handle, rt3) := retain_request identity est text at_ rt2 in
  ref_generation (handle_program handle) = ref_generation r + 1 /\
  live_program r rt3 = None /\ is_Some (live_program (handle_program handle) rt3).
Proof.
  intros Hrel Hnow Hgen Hkey. cbv zeta. unfold release_idle in *.
  destruct (programs rt !! key_of_ref r) as [p|] eqn:Hp; [|done].
  destruct (_ && _) eqn:E; [|done]. rewrite !andb_true_iff, bool_decide_eq_true in E.
  destruct E as [[Href _] _]. subst r. simpl in *.
  set (rt2 := prune_released_generations _ _ _).
  assert (programs rt2 !! key_of_identity identity = None) as Hnone
    by (rewrite Hkey; apply lookup_delete_eq).
  assert (last_generations rt2 !! key_of_identity identity = Some (ref_generation (rp_reference p)))
    as Hlast.
  { rewrite Hkey. apply map_lookup_filter_Some_2; [apply lookup_insert_eq|]. simpl.
    intros [t [Ht [_ Hexp]]%map_lookup_filter_Some]%elem_of_dom. simpl in *.
    rewrite lookup_insert_eq in Ht. injection Ht as <-. lia. }
  clearbody rt2. unfold retain_request. rewrite Hnone, Hlast.
  assert (u64_saturating_add (ref_generation (rp_reference p)) 1 = ref_generation (rp_reference p) + 1)
    as -> by (unfold u64_saturating_add; lia).
  set (ref := MkRef _ _ _).
  destruct (retain ref _ _ _ _ _) as [handle pool] eqn:Hret.
  assert (handle_program handle = ref) as -> by (unfold retain in Hret; by simplify_eq).
  rewrite alter_insert_eq. split_and!; [done| |].
  - unfold live_program. simpl. rewrite Hkey, lookup_insert_eq. rewrite decide_False; [done|].
    intros Heq. apply (f_equal ref_generation) in Heq. simpl in Heq. lia.
  - eexists. apply live_program_Some. simpl. unfold key_of_identity. by rewrite lookup_insert_eq.
Qed.

Lemma generation_fence_witness :
  let rt2 := prune_released_generations 8 10 (release_idle ref_a 5 idle_example).2 in
  ref_generation (handle_program (retain_request identity_a 1 None 9 rt2).1) = 1.
Proof.
  pose proof (generation_fence idle_example ref_a 5 8 10 identity_a 1 None 9) as H.
  cbv zeta in *. destruct (retain_request _ _ _ _ _) as [h rt3].
  apply H; vm_compute; reflexivity.
Defined.

(** No lost wakeup.  When a request leaves the front of its Program's
    queue, by admission or by cancellation, the request that becomes the front
    holds a wakeup permit. *)
Theorem next_front_is_woken rt rt' handle target at_ next queue :
  ((exists d, admit_front handle target at_ rt = (Some d, rt')) \/
   (cancel_request handle rt = (true, rt') /\ exists r, front handle (request_pool rt) = Some r)) ->
  requests (request_pool rt') !! handle_program handle = Some (next :: queue) ->
  request_id next ∈ permits (request_pool rt').
Proof.
  intros [[d Hadm]|[Hcan [r Hr]]] Hq.
  - unfold admit_front in Hadm. repeat case_match; simplify_eq/=.
    match goal with H : admit_placement _ _ _ = _ |- _ =>
      unfold admit_placement in H; repeat case_match; simplify_eq/= end;
    match goal with H : rp_reference _ = handle_program _ |- _ => rewrite H in * end;
    by apply notify_front_permit in Hq.
  - unfold cancel_request in Hcan. unfold front in Hr.
    destruct (requests (request_pool rt) !! _) as [[|r0 q]|] eqn:Hreq; [done| |done].
    unfold cancel in Hcan. rewrite Hreq in Hcan. simpl in Hcan.
    destruct (request_id r0 =? _); [|done]. simpl in Hcan. injection Hcan as <-.
    repeat case_match; by apply notify_front_permit in Hq.
Qed.

Lemma next_front_is_woken_witness : 2 ∈ permits (request_pool dispatched_example).
Proof.
  apply (next_front_is_woken resumed_example dispatched_example (MkHandle ref_a 1) "t0" 3
    (MkPending 2 2 20 None default_hints) []).
  - left. exists dispatch_example. vm_compute. reflexivity.
  - vm_compute. reflexivity.
Defined.

(** A waiter that is not at the front takes the placement-start mark away
    from the request that is.  [admit_front] on an active Program by a request
    that is not at the front answers [None], yet clears
    [placement_start_request_pending]; every later dispatch of that placement
    then reports that it does not start a placement, the first one included. *)
Theorem waiter_consumes_placement_start rt h p target at_ :
  live_program (handle_program h) rt = Some p -> rp_placement p = Some target ->
  rp_state p = Active -> front h (request_pool rt) = None ->
  (admit_front h target at_ rt).1 = None /\
  forall h' at' d, handle_program h' = handle_program h ->
    (admit_front h' target at' (admit_front h target at_ rt).2).1 = Some d ->
    d_placement_start_request d = false.
Proof.
  intros [Hp Href]%live_program_Some Hpl Hst Hfront.
  assert (take_front h (request_pool rt) = None) as Htake.
  { unfold front in Hfront. unfold take_front. by repeat case_match. }
  assert (admit_front h target at_ rt = (None, with_epoch (next_placement_epoch rt)
    (put_program (key_of_ref (handle_program h))
      (with_placement Active (rp_placement p) (rp_placement_epoch p) false p) rt))) as ->.
  { unfold admit_front, admit_placement. by rewrite Hp, decide_True, Hst, decide_True, Htake. }
  split; [done|]. intros h' at' d Heq. unfold admit_front. simpl. rewrite Heq, lookup_insert_eq.
  rewrite decide_True by done. unfold admit_placement. simpl. rewrite decide_True by done.
  by case_match; [case_match|]; intros; simplify_eq/=.
Qed.

Lemma waiter_consumes_placement_start_witness :
  (admit_front (MkHandle ref_a 2) "t0" 3 resumed_example).1 = None.
Proof.
  refine (proj1 (waiter_consumes_placement_start resumed_example (MkHandle ref_a 2)
    (MkProgram ref_a Active Reasoning true (Some "t0") 1 true 20 0) "t0" 3 _ _ _ _));
    vm_compute; reflexivity.
Defined.

(** A failover leaves an idle Program marked as reasoning.  After the
    placement of a Program with no waiting request is invalidated, nothing of it
    is in flight or waiting, but its status is still what it was, and the
    completions of the requests that were in flight are refused, so they do not
    move it to acting either. *)
Theorem failover_keeps_status s r p removed d usage :
  reachable s -> counters_left s -> live_program r (sys_rt s) = Some p ->
  program_len r (request_pool (sys_rt s)) = 0 -> rp_status p = Reasoning ->
  d ∈ outstanding s -> d_program d = r ->
  (invalidate_placement r removed (sys_rt s)).1 = true ->
  let rt := (invalidate_placement r removed (sys_rt s)).2 in
  complete_request d usage rt = (false, rt) /\
  exists p', live_program r rt = Some p' /\ rp_status p' = Reasoning /\
    rp_in_flight_requests p' = 0 /\ program_len r (request_pool rt) = 0.
Proof.
  intros Hwf%reachable_wf Hleft [Hp Href]%live_program_Some Hlen Hst Hd Hdr Hinv. cbv zeta.
  pose proof (proj1 (Forall_forall _ _) (wf_outstanding _ Hwf) _ Hd) as Hde. simpl in Hde.
  unfold invalidate_placement in *. rewrite Hp in *. case_match; [done|]. simpl. split.
  - unfold complete_request. simpl. rewrite Hdr, lookup_insert_eq.
    destruct (N.eqb_spec (u64_saturating_add (next_placement_epoch (sys_rt s)) 1) (d_placement_epoch d))
      as [He|]; [|simpl; by rewrite ?orb_true_r].
    exfalso. destruct Hleft as (? & ?). unfold u64_saturating_add in He. lia.
  - eexists. rewrite live_program_Some. simpl. rewrite lookup_insert_eq. done.
Qed.

Lemma failover_keeps_status_witness :
  let rt := (invalidate_placement ref_a ["t0"] (sys_rt drained_example)).2 in
  complete_request dispatch_example (MkUsage None None None) rt = (false, rt).
Proof.
  apply (failover_keeps_status drained_example ref_a drained_program ["t0"] dispatch_example
    _ drained_reachable).
  - vm_compute. done.
  - exact drained_live.
  - vm_compute. reflexivity.
  - reflexivity.
  - right. left.
  - reflexivity.
  - vm_compute. reflexivity.
Defined.
