(* ===== verification/RuntimeFrame.v ===== *)
(** * What each call of the runtime changes

    The facts of [ProgramRuntime] that need no bound on its counters, and for
    each call the program it changes, how, and that no other program changes.
    The scheduler's invariants are proved against these. *)

From S2P Require Import Prelude RequestPool ProgramRuntime.

Local Open Scope N_scope.

(** ** Facts *)

(** The retained requests of a program. *)
Definition waiting_of (r : ProgramRef) (rt : ProgramRuntime) : N := program_len r (request_pool rt).

Record program_facts (waiting : N) (p : RuntimeProgram) : Prop := {
  pf_active : rp_state p = Active <-> is_Some (rp_placement p);
  pf_paused : rp_state p = Paused -> rp_in_flight_requests p = 0;
  pf_acting : rp_status p = Acting -> rp_in_flight_requests p = 0 /\ waiting = 0;
}.

Record runtime_ok (rt : ProgramRuntime) : Prop := {
  ro_key : forall k p, programs rt !! k = Some p -> key_of_ref (rp_reference p) = k;
  ro_facts : forall r p, live_program r rt = Some p -> program_facts (waiting_of r rt) p;
  ro_live : forall r, waiting_of r rt <> 0 -> is_Some (live_program r rt);
}.

(** No program but [r] differs. *)
Definition frame (r : ProgramRef) (rt rt' : ProgramRuntime) : Prop :=
  forall r', r' <> r -> live_program r' rt' = live_program r' rt /\ waiting_of r' rt' = waiting_of r' rt.

(** The program [r] is [p'] afterwards, with [n] requests waiting. *)
Definition becomes (r : ProgramRef) (p' : RuntimeProgram) (n : N) (rt rt' : ProgramRuntime) : Prop :=
  runtime_ok rt' /\ live_program r rt' = Some p' /\ waiting_of r rt' = n /\ frame r rt rt' /\
  dom (programs rt') = dom (programs rt).

(** ** Lemmas *)

Lemma live_lookup r rt p : live_program r rt = Some p -> programs rt !! key_of_ref r = Some p /\ rp_reference p = r.
Proof. apply live_program_Some. Qed.

Lemma live_insert r p' progs rt rt' : programs rt' = <[key_of_ref r := p']> progs -> programs rt = progs ->
  rp_reference p' = r -> (forall p, progs !! key_of_ref r = Some p -> rp_reference p = r) ->
  forall r', live_program r' rt' = if decide (r' = r) then Some p' else live_program r' rt.
Proof.
  intros E E0 Hr Hk r'. unfold live_program. rewrite E, E0. case_decide as Hd.
  - subst r'. rewrite lookup_insert_eq. by rewrite decide_True.
  - destruct (decide (key_of_ref r = key_of_ref r')) as [Hk'|Hk'].
    + rewrite <- Hk', lookup_insert_eq. rewrite decide_False by congruence.
      destruct (progs !! key_of_ref r) as [p|] eqn:Ep; [|done]. rewrite decide_False; [done|]. rewrite (Hk p eq_refl). congruence.
    + by rewrite lookup_insert_ne.
Qed.

(** One live program is written. *)
Lemma put_becomes r p p' n rt rt' : runtime_ok rt -> live_program r rt = Some p -> rp_reference p' = r ->
  programs rt' = <[key_of_ref r := p']> (programs rt) ->
  (forall r', r' <> r -> waiting_of r' rt' = waiting_of r' rt) -> waiting_of r rt' = n ->
  program_facts n p' -> becomes r p' n rt rt'.
Proof.
  intros [Hk Hf Hl] Hp Hr E Hw Hn Hp'. apply live_lookup in Hp as Hp0. destruct Hp0 as [Hp0 Hp1].
  assert (forall r', live_program r' rt' = if decide (r' = r) then Some p' else live_program r' rt) as HL.
  { apply (live_insert r p' (programs rt)); [done..|]. intros q Hq. congruence. }
  split_and!.
  - split.
    + intros k q. rewrite E. intros [[<- <-]|[_ Hq]]%lookup_insert_Some; [by rewrite Hr|by apply Hk].
    + intros r' q. rewrite HL. case_decide as Hd.
      * intros [= <-]. subst r'. by rewrite Hn.
      * intros Hq. rewrite Hw by done. by apply Hf.
    + intros r'. rewrite HL. case_decide as Hd; [by eexists|]. rewrite Hw by done. apply Hl.
  - rewrite HL. by rewrite decide_True.
  - done.
  - intros r' Hne. split; [rewrite HL; by rewrite decide_False|auto].
  - rewrite E, dom_insert_L. apply elem_of_dom_2 in Hp0. set_solver.
Qed.

Lemma live_eq r p rt : runtime_ok rt -> programs rt !! key_of_ref r = Some p -> rp_reference p = r -> live_program r rt = Some p.
Proof. intros _ Hp Hr. by apply live_program_Some. Qed.

Lemma live_none r p rt : programs rt !! key_of_ref r = Some p -> rp_reference p <> r -> live_program r rt = None.
Proof. intros Hp Hr. unfold live_program. rewrite Hp. by rewrite decide_False. Qed.

(** ** Calls *)

Definition can_pause (p : RuntimeProgram) : Prop := rp_state p = Active /\ rp_in_flight_requests p = 0.

Definition paused_program (p : RuntimeProgram) : RuntimeProgram :=
  with_placement Paused None (rp_placement_epoch p) (rp_placement_start_request_pending p) p.

Lemma pause_idle_spec r rt : runtime_ok rt ->
  (exists p rt', live_program r rt = Some p /\ can_pause p /\ pause_idle r rt = (true, rt') /\
    becomes r (paused_program p) (waiting_of r rt) rt rt') \/
  (pause_idle r rt = (false, rt) /\ forall p, live_program r rt = Some p -> ~ can_pause p).
Proof.
  intros Hok. unfold pause_idle. destruct (programs rt !! key_of_ref r) as [p|] eqn:Ep.
  2: { right. split; [done|]. intros p [Hp _]%live_lookup. congruence. }
  destruct (bool_decide (rp_reference p <> r)) eqn:E1; simpl.
  { apply bool_decide_eq_true in E1. right. split; [done|]. intros q Hq. by rewrite (live_none r p rt Ep E1) in Hq. }
  apply bool_decide_eq_false in E1. assert (rp_reference p = r) as Hr by (by apply dec_stable).
  pose proof (live_eq r p rt Hok Ep Hr) as Hl.
  destruct (bool_decide (rp_state p <> Active)) eqn:E2; simpl.
  { apply bool_decide_eq_true in E2. right. split; [done|]. intros q Hq [? _]. congruence. }
  apply bool_decide_eq_false in E2.
  destruct (N.eqb_spec (rp_in_flight_requests p) 0) as [E3|E3]; simpl.
  - left. exists p. eexists. split_and!; [done|split; [by apply dec_stable|done]|done|].
    apply (put_becomes r p); try done. split; simpl; try done.
    by apply (ro_facts rt Hok r p Hl).
  - right. split; [done|]. intros q Hq [_ ?]. congruence.
Qed.

Definition can_activate (n : N) (p : RuntimeProgram) : Prop := rp_state p = Paused /\ n <> 0.

Definition activated_program (target_id : string) (epoch : N) (p : RuntimeProgram) : RuntimeProgram :=
  with_placement Active (Some target_id) epoch true (with_status Reasoning p).

Lemma activate_spec r t rt : runtime_ok rt ->
  (exists p rt' e, live_program r rt = Some p /\ can_activate (waiting_of r rt) p /\ activate r t rt = (true, rt') /\
    becomes r (activated_program t e p) (waiting_of r rt) rt rt') \/
  (activate r t rt = (false, rt) /\ forall p, live_program r rt = Some p -> ~ can_activate (waiting_of r rt) p).
Proof.
  intros Hok. unfold activate. destruct (programs rt !! key_of_ref r) as [p|] eqn:Ep.
  2: { right. split; [done|]. intros p [Hp _]%live_lookup. congruence. }
  destruct (bool_decide (rp_reference p <> r)) eqn:E1; simpl.
  { apply bool_decide_eq_true in E1. right. split; [done|]. intros q Hq. by rewrite (live_none r p rt Ep E1) in Hq. }
  apply bool_decide_eq_false in E1. assert (rp_reference p = r) as Hr by (by apply dec_stable).
  pose proof (live_eq r p rt Hok Ep Hr) as Hl.
  destruct (bool_decide (rp_state p <> Paused)) eqn:E2; simpl.
  { apply bool_decide_eq_true in E2. right. split; [done|]. intros q Hq [? _]. congruence. }
  apply bool_decide_eq_false in E2. assert (rp_state p = Paused) as Hs by (by apply dec_stable).
  fold (waiting_of r rt). destruct (N.eqb_spec (waiting_of r rt) 0) as [E3|E3]; simpl.
  - right. split; [done|]. intros q Hq [_ ?]. congruence.
  - left. exists p. eexists _, _. split_and!; [done|done|done|].
    apply (put_becomes r p); done.
Qed.

Definition invalidated_program (epoch : N) (p : RuntimeProgram) : RuntimeProgram :=
  with_in_flight 0 (with_placement Paused None epoch false p).

Lemma invalidate_spec r removed rt : runtime_ok rt ->
  (exists p rt' e t, live_program r rt = Some p /\ rp_placement p = Some t /\ t ∈ removed /\
    invalidate_placement r removed rt = (true, rt') /\ becomes r (invalidated_program e p) (waiting_of r rt) rt rt') \/
  (invalidate_placement r removed rt = (false, rt) /\
    forall p t, live_program r rt = Some p -> rp_placement p = Some t -> t ∉ removed).
Proof.
  intros Hok. unfold invalidate_placement. destruct (programs rt !! key_of_ref r) as [p|] eqn:Ep.
  2: { right. split; [done|]. intros p t [Hp _]%live_lookup. congruence. }
  destruct (bool_decide (rp_reference p <> r)) eqn:E1; simpl.
  { apply bool_decide_eq_true in E1. right. split; [done|]. intros q t Hq. by rewrite (live_none r p rt Ep E1) in Hq. }
  apply bool_decide_eq_false in E1. assert (rp_reference p = r) as Hr by (by apply dec_stable).
  pose proof (live_eq r p rt Hok Ep Hr) as Hl.
  destruct (rp_placement p) as [t|] eqn:Et.
  2: { right. split; [done|]. intros q t Hq. congruence. }
  case_bool_decide as Ht.
  - right. split; [done|]. intros q t' Hq Ht'. congruence.
  - left. exists p. eexists _, _, t. split_and!; [done|done|done|done|].
    apply (put_becomes r p); try done. split; simpl; try done.
    intros Ha. split; [done|]. by apply (ro_facts rt Hok r p Hl).
Qed.

Lemma release_spec r now rt : runtime_ok rt ->
  (exists p rt', live_program r rt = Some p /\ rp_in_flight_requests p = 0 /\ waiting_of r rt = 0 /\
    release_idle r now rt = (true, rt') /\ runtime_ok rt' /\ live_program r rt' = None /\ waiting_of r rt' = 0 /\
    frame r rt rt') \/
  release_idle r now rt = (false, rt).
Proof.
  intros Hok. unfold release_idle. destruct (programs rt !! key_of_ref r) as [p|] eqn:Ep; [|by right].
  destruct (bool_decide (rp_reference p = r)) eqn:E1; simpl; [|by right]. apply bool_decide_eq_true in E1.
  fold (waiting_of r rt).
  destruct (N.eqb_spec (rp_in_flight_requests p) 0) as [E2|]; simpl; [|by right].
  destruct (N.eqb_spec (waiting_of r rt) 0) as [E3|]; simpl; [|by right].
  pose proof (live_eq r p rt Hok Ep E1) as Hl. left. exists p. eexists. do 4 (split; [done|]).
  assert (forall r', live_program r' (MkRuntime (delete (key_of_ref r) (programs rt))
    (<[key_of_ref r := ref_generation (rp_reference p)]> (last_generations rt))
    (<[key_of_ref r := now]> (released_generations_at rt)) (request_pool rt) (next_placement_epoch rt)) =
    if decide (r' = r) then None else live_program r' rt) as HL.
  { intros r'. unfold live_program. simpl. case_decide as Hd.
    - subst r'. by rewrite lookup_delete_eq.
    - destruct (decide (key_of_ref r = key_of_ref r')) as [Hk|Hk].
      + rewrite <- Hk, lookup_delete_eq, Ep. rewrite decide_False; [done|congruence].
      + by rewrite lookup_delete_ne. }
  destruct Hok as [Hk Hf Hlv]. split_and!.
  - split; simpl.
    + intros k q [_ Hq]%lookup_delete_Some. by apply Hk.
    + intros r' q. rewrite HL. case_decide; [done|]. apply Hf.
    + intros r' Hw. rewrite HL. case_decide as Hd; [|by apply Hlv]. subst r'. by destruct Hw.
  - rewrite HL. by rewrite decide_True.
  - done.
  - intros r' Hne. split; [rewrite HL; by rewrite decide_False|done].
Qed.

(** Programs and requests are the same. *)
Definition same_programs (rt rt' : ProgramRuntime) : Prop :=
  programs rt' = programs rt /\ requests (request_pool rt') = requests (request_pool rt).

Lemma same_programs_ok rt rt' : same_programs rt rt' ->
  (forall r, live_program r rt' = live_program r rt) /\ (forall r, waiting_of r rt' = waiting_of r rt) /\
  (runtime_ok rt -> runtime_ok rt').
Proof.
  intros [E1 E2].
  assert (forall r, live_program r rt' = live_program r rt) as HL by (intros r; unfold live_program; by rewrite E1).
  assert (forall r, waiting_of r rt' = waiting_of r rt) as HW by (intros r; unfold waiting_of, program_len; by rewrite E2).
  split_and!; [done..|]. intros [Hk Hf Hl]. split.
  - by rewrite E1.
  - intros r p. rewrite HL, HW. apply Hf.
  - intros r. rewrite HL, HW. apply Hl.
Qed.

Lemma prune_same now retention rt : same_programs rt (prune_released_generations now retention rt).
Proof. done. Qed.

Lemma notify_same r rt : same_programs rt (runtime_notify_front r rt).
Proof. split; [done|]. apply notify_front_requests. Qed.

Lemma becomes_same r p n rt rt' rt'' : becomes r p n rt rt' -> same_programs rt' rt'' -> becomes r p n rt rt''.
Proof.
  intros (Hok & Hl & Hw & Hf & Hd) Hs. destruct (same_programs_ok _ _ Hs) as (HL & HW & HO).
  destruct Hs as [Hs _]. unfold becomes, frame. setoid_rewrite HL. setoid_rewrite HW. rewrite Hs. auto.
Qed.

(** A program after a completion: one request less in flight. *)
Record completed_program (waiting : N) (p p' : RuntimeProgram) : Prop := {
  cp_reference : rp_reference p' = rp_reference p;
  cp_state : rp_state p' = rp_state p;
  cp_placement : rp_placement p' = rp_placement p;
  cp_in_flight : rp_in_flight_requests p' = rp_in_flight_requests p - 1;
  cp_status : rp_status p' = if (rp_in_flight_requests p' =? 0) && (waiting =? 0) then Acting else rp_status p;
}.

Lemma complete_spec d usage rt : runtime_ok rt ->
  (exists p p' rt', live_program (d_program d) rt = Some p /\ 0 < rp_in_flight_requests p /\
    complete_request d usage rt = (true, rt') /\ completed_program (waiting_of (d_program d) rt) p p' /\
    becomes (d_program d) p' (waiting_of (d_program d) rt) rt rt') \/
  complete_request d usage rt = (false, rt).
Proof.
  intros Hok. unfold complete_request. set (r := d_program d).
  destruct (programs rt !! key_of_ref r) as [p|] eqn:Ep; [|by right].
  destruct (bool_decide (rp_reference p <> r)) eqn:E1; simpl; [by right|].
  apply bool_decide_eq_false in E1. assert (rp_reference p = r) as Hr by (by apply dec_stable).
  pose proof (live_eq r p rt Hok Ep Hr) as Hl. destruct (ro_facts rt Hok r p Hl) as [Ha Hp Hc].
  destruct (_ =? _); simpl; [|by right]. destruct (N.eqb_spec (rp_in_flight_requests p) 0) as [E3|E3]; simpl; [by right|].
  left. exists p. rewrite Hr. fold (waiting_of r rt).
  set (p1 := with_in_flight (rp_in_flight_requests p - 1) (with_estimate (rp_expected_resume p)
    (N.max (rp_estimated_context_tokens p) (default (d_estimated_context_tokens d) (prompt_tokens usage))) p)).
  exists (if (rp_in_flight_requests p - 1 =? 0) && (waiting_of r rt =? 0) then with_status Acting p1 else p1). eexists.
  split_and!; [done|lia|done| |].
  - by destruct (_ && _) eqn:E; split; simpl; rewrite ?E.
  - apply (put_becomes r p); try done; [by destruct (_ && _)|].
    destruct (_ && _) eqn:E; split; simpl; try done; try (intros Hs; specialize (Hp Hs); lia).
    + rewrite andb_true_iff, !N.eqb_eq in E. done.
    + intros Hac. destruct (Hc Hac). lia.
Qed.

(** A program after a cancellation: idle programs act, and lose their place. *)
Definition cancelled_program (waiting : N) (p : RuntimeProgram) : RuntimeProgram :=
  if (rp_in_flight_requests p =? 0) && (waiting =? 0)
  then if decide (rp_state p = Active) then paused_program (with_status Acting p) else with_status Acting p
  else p.

Lemma cancel_spec h rt : runtime_ok rt ->
  let r := handle_program h in
  (exists p rt', live_program r rt = Some p /\ 0 < waiting_of r rt /\ cancel_request h rt = (true, rt') /\
    becomes r (cancelled_program (waiting_of r rt - 1) p) (waiting_of r rt - 1) rt rt') \/
  cancel_request h rt = (false, rt).
Proof.
  intros Hok r. unfold cancel_request. destruct (cancel h (request_pool rt)) as [[was_front pool]|] eqn:E; [|by right].
  apply cancel_inv in E as (q & i & x & Hq & Hi & _ & _ & ->). fold r in Hq |- *.
  assert (waiting_of r rt = N.of_nat (length q)) as Hw by (unfold waiting_of, program_len; by rewrite Hq).
  apply lookup_lt_Some in Hi as Hlt. destruct (ro_live rt Hok r) as [p Hl]; [lia|].
  pose proof (live_lookup r rt p Hl) as [Ep Hr]. pose proof (ro_facts rt Hok r p Hl) as [Ha Hpa Hac].
  left. exists p. set (pool' := if was_front then _ else _).
  assert (requests pool' = put_queue r (delete i q) (requests (request_pool rt))) as Hreq
    by (unfold pool'; destruct was_front; [apply notify_front_requests|done]).
  assert (program_len r pool' = waiting_of r rt - 1) as Hlen.
  { unfold program_len. rewrite Hreq, Hw. unfold put_queue.
    destruct (delete i q) as [|y l] eqn:Ed.
    - rewrite lookup_delete_eq. apply (f_equal length) in Ed. rewrite length_delete in Ed by (by eexists). simpl in Ed. lia.
    - rewrite lookup_insert_eq. apply (f_equal length) in Ed. rewrite length_delete in Ed by (by eexists). rewrite <- Ed. lia. }
  assert (forall r', r' <> r -> program_len r' pool' = waiting_of r' rt) as Hother.
  { intros r' Hne. unfold program_len. rewrite Hreq, lookup_put_queue by done. done. }
  clearbody pool'. simpl. rewrite Ep, Hr, Hlen. rewrite bool_decide_eq_true_2 by done. unfold cancelled_program. simpl.
  destruct (_ && _) eqn:E; eexists; (split_and!; [done|lia|done|]).
  - rewrite andb_true_iff, !N.eqb_eq in E.
    case_decide as Hs; (apply (put_becomes r p); [done..| | |]); try done; split; simpl; try done; try lia.
  - apply (put_becomes r p); [done..|by rewrite insert_id|done|done|]. split; [done..|].
    intros H. destruct (Hac H) as [H1 H2]. lia.
Qed.

(** The program a request is retained for. *)
Definition retained_program (identity : ProgramIdentity) (estimate : N) (r : ProgramRef) (p : option RuntimeProgram)
  : RuntimeProgram :=
  match p with
  | Some p => with_status Reasoning (with_estimate (id_expected_resume identity)
      (N.max (rp_estimated_context_tokens p) estimate) p)
  | None => new_program r (id_expected_resume identity) estimate
  end.

Lemma retain_spec identity estimate text at_ rt : runtime_ok rt ->
  exists h rt', retain_request identity estimate text at_ rt = (h, rt') /\
    let r := handle_program h in
    key_of_ref r = key_of_identity identity /\ runtime_ok rt' /\ frame r rt rt' /\
    live_program r rt' = Some (retained_program identity estimate r (live_program r rt)) /\
    waiting_of r rt' = waiting_of r rt + 1.
Proof.
  intros Hok. unfold retain_request. set (k := key_of_identity identity).
  set (new_ref := MkRef _ _ _).
  assert (forall r, waiting_of r rt + 1 = N.of_nat (length (default [] (requests (request_pool rt) !! r)) + 1)) as Hw1.
  { intros r. unfold waiting_of, program_len. destruct (requests _ !! r); simpl; lia. }
  destruct (programs rt !! k) as [p|] eqn:Ep; simpl; eexists _, _; (split; [done|]); simpl.
  - pose proof (ro_key rt Hok k p Ep) as Hk. set (r := rp_reference p) in *.
    assert (live_program r rt = Some p) as Hl by (apply live_program_Some; by rewrite Hk).
    rewrite alter_insert_eq, Hl. simpl.
    match goal with |- _ /\ runtime_ok ?rt' /\ _ => assert (becomes r (retained_program identity estimate r (Some p))
      (waiting_of r rt + 1) rt rt') as (Hok' & Hl' & Hw & Hf & _) end.
    { apply (put_becomes r p); [done..|by rewrite Hk| | |].
      - intros r' Hne. unfold waiting_of, program_len. simpl. by rewrite lookup_insert_ne.
      - unfold waiting_of at 1, program_len. simpl. rewrite lookup_insert_eq, length_app, Hw1. simpl. lia.
      - destruct (ro_facts rt Hok r p Hl). by split. }
    split_and!; done.
  - assert (live_program new_ref rt = None) as Hl by (unfold live_program; by rewrite (Ep : programs rt !! key_of_ref new_ref = None)).
    rewrite alter_insert_eq, Hl. simpl.
    assert (waiting_of new_ref rt = 0) as Hw0.
    { destruct (N.eq_dec (waiting_of new_ref rt) 0) as [|Hn]; [done|]. destruct (ro_live rt Hok new_ref Hn). congruence. }
    match goal with |- _ /\ runtime_ok ?rt' /\ _ =>
      assert (forall r, waiting_of r rt' = if decide (r = new_ref) then 1 else waiting_of r rt) as HW;
      [|assert (forall r, live_program r rt' = if decide (r = new_ref)
          then Some (new_program new_ref (id_expected_resume identity) estimate) else live_program r rt) as HL] end.
    { intros r. unfold waiting_of at 1, program_len. simpl. case_decide as Hd.
      - subst r. rewrite lookup_insert_eq, length_app. specialize (Hw1 new_ref). simpl. lia.
      - by rewrite lookup_insert_ne. }
    { apply (live_insert new_ref _ (programs rt)); [done..|]. intros q Hq. unfold k in Ep. change (key_of_ref new_ref) with k in Hq. unfold k in Hq. congruence. }
    destruct Hok as [Hk Hf Hlv]. split_and!.
    + done.
    + split.
      * simpl. intros k' q [[<- <-]|[_ Hq]]%lookup_insert_Some; [done|by apply Hk].
      * intros r q. rewrite HL, HW. case_decide; [intros [= <-]; split; simpl; [split; [done|by intros []]|done|done]|apply Hf].
      * intros r. rewrite HL, HW. case_decide; [by eexists|apply Hlv].
    + intros r Hne. by rewrite HL, HW, !decide_False.
    + rewrite HL. by rewrite decide_True.
    + rewrite HW, Hw0. by rewrite decide_True.
Qed.

(** A claim of a request of a placed program: the program keeps its place. *)
Record claimed_program (p p' : RuntimeProgram) : Prop := {
  cl_state : rp_state p' = rp_state p;
  cl_placement : rp_placement p' = rp_placement p;
  cl_in_flight : rp_in_flight_requests p <> 0 -> rp_in_flight_requests p' <> 0;
}.

Lemma admit_spec h target at_ rt : runtime_ok rt ->
  let r := handle_program h in
  placement r rt = Some target ->
  exists p p' n d rt', live_program r rt = Some p /\ admit_front h target at_ rt = (d, rt') /\
    claimed_program p p' /\ becomes r p' n rt rt' /\ n <= waiting_of r rt /\
    (forall dispatch, d = Some dispatch -> d_program dispatch = r /\ d_target_id dispatch = target /\
       n + 1 = waiting_of r rt).
Proof.
  intros Hok r Hpl. unfold placement in Hpl. destruct (live_program r rt) as [p|] eqn:Hl; [|done]. simpl in Hpl.
  pose proof (live_lookup r rt p Hl) as [Ep Hr]. pose proof (ro_facts rt Hok r p Hl) as [Ha Hpa Hac].
  assert (rp_state p = Active) as Hs by (apply Ha; by eexists).
  unfold admit_front. fold r. rewrite Ep, decide_True by done. unfold admit_placement. rewrite Hs.
  rewrite decide_True by done.
  destruct (take_front h (request_pool rt)) as [[request pool]|] eqn:E.
  - apply take_front_inv in E as (q & Hq & _ & ->). fold r in Hq |- *.
    assert (waiting_of r rt = N.of_nat (length q) + 1) as Hn by (unfold waiting_of, program_len; rewrite Hq; simpl; lia).
    eexists _, (with_in_flight (u64_saturating_add (rp_in_flight_requests p) 1) (with_status Reasoning
      (with_placement Active (rp_placement p) (rp_placement_epoch p) false p))), (N.of_nat (length q)), _, _.
    split; [done|]. split; [done|]. split_and!; [| |lia|by intros dispatch [= <-]].
    + split; simpl; [done|done|]. unfold u64_saturating_add, u64_max, u64_mod. lia.
    + apply (put_becomes r p); try done.
      * intros r' Hne. unfold waiting_of. simpl. rewrite program_len_notify. unfold program_len.
        by rewrite set_queue_other.
      * unfold waiting_of. simpl. rewrite program_len_notify. unfold program_len, set_queue. simpl. unfold put_queue.
        destruct q; [by rewrite lookup_delete_eq|by rewrite lookup_insert_eq].
  - eexists _, (with_placement Active (rp_placement p) (rp_placement_epoch p) false p), (waiting_of r rt), _, _.
    split; [done|]. split; [done|]. split_and!; [| |lia|done].
    + by split.
    + by apply (put_becomes r p).
Qed.
