(* ===== verification/Lineage.v ===== *)
(** * Program lineage of [src/program_scheduling/lineage.rs]

    The parent forest that resolves a Program's root: [parents] is the source's
    map, a root being its own parent.  The loop of [root] has no bound in the
    source, so its model takes fuel and answers [None] when the fuel runs out;
    on every lineage the code can build, as many steps as the map has entries
    are enough. *)

From S2P Require Import Prelude.

Record LineageKey := MkLineageKey { lk_model_pool : string; lk_program_id : string }.

#[export] Instance LineageKey_eq_dec : EqDecision LineageKey.
Proof. solve_decision. Defined.

#[export] Instance LineageKey_countable : Countable LineageKey.
Proof.
  refine (inj_countable' (fun k => (lk_model_pool k, lk_program_id k))
    (fun '(m, p) => MkLineageKey m p) _).
  by intros [].
Defined.

(** The one field of [ProgramLineage] is its [parents] map. *)
Abbreviation ProgramLineage := (gmap LineageKey LineageKey).

(** [entry(k).or_insert_with(|| k)] *)
Definition or_insert_self (k : LineageKey) (parents : ProgramLineage) : ProgramLineage :=
  match parents !! k with
  | Some _ => parents
  | None => <[k := k]> parents
  end.

(** The [while let] of [root]: the nodes passed and the node it stops at. *)
Fixpoint root_walk (fuel : nat) (parents : ProgramLineage) (current : LineageKey)
  : option (list LineageKey * LineageKey) :=
  match fuel with
  | O => None
  | S fuel =>
      match parents !! current with
      | None => Some ([], current)
      | Some parent =>
          if decide (parent = current) then Some ([], current)
          else '(path, r) ← root_walk fuel parents parent; Some (current :: path, r)
      end
  end.

Definition compress (path : list LineageKey) (r : LineageKey) (parents : ProgramLineage)
  : ProgramLineage :=
  foldl (fun parents node => <[node := r]> parents) parents path.

Definition root (fuel : nat) (model_pool program_id : string) (parents : ProgramLineage)
  : option (string * ProgramLineage) :=
  let start := MkLineageKey model_pool program_id in
  let parents := or_insert_self start parents in
  '(path, current) ← root_walk fuel parents start;
  Some (lk_program_id current, compress path current parents).

(** The bounded loop of [root_readonly]. *)
Fixpoint find_root (rounds : nat) (parents : ProgramLineage) (current : LineageKey) : LineageKey :=
  match rounds with
  | O => current
  | S rounds =>
      match parents !! current with
      | None => current
      | Some parent => if decide (parent = current) then current else find_root rounds parents parent
      end
  end.

Definition root_readonly (model_pool program_id : string) (parents : ProgramLineage) : string :=
  lk_program_id (find_root (S (size parents)) parents (MkLineageKey model_pool program_id)).

(** The bounded loop of [would_cycle]; [true] when the rounds run out. *)
Fixpoint cycle_walk (rounds : nat) (parents : ProgramLineage) (child current : LineageKey) : bool :=
  match rounds with
  | O => true
  | S rounds =>
      if decide (current = child) then true
      else
        match parents !! current with
        | None => false
        | Some parent =>
            if decide (parent = current) then false else cycle_walk rounds parents child parent
        end
  end.

Definition would_cycle (child proposed_parent : LineageKey) (parents : ProgramLineage) : bool :=
  cycle_walk (S (size parents)) parents child proposed_parent.

(** What [observe] does with a declared parent, and again with a declared root. *)
Definition link (model_pool program_id : string) (target : option string) (parents : ProgramLineage)
  : ProgramLineage :=
  match target with
  | None => parents
  | Some id =>
      if decide (id = program_id) then parents
      else
        let program := MkLineageKey model_pool program_id in
        let parent := MkLineageKey model_pool id in
        let parents := or_insert_self parent parents in
        if would_cycle program parent parents then parents else <[program := parent]> parents
  end.

Definition observe (fuel : nat) (model_pool program_id : string)
  (parent_program_id root_program_id : option string) (parents : ProgramLineage)
  : option (string * ProgramLineage) :=
  let parents := or_insert_self (MkLineageKey model_pool program_id) parents in
  let parents := link model_pool program_id parent_program_id parents in
  let parents := link model_pool program_id root_program_id parents in
  root fuel model_pool program_id parents.

(** ** Specification *)

(** [chain parents k n r]: [r] is the root of [k], [n] links away. *)
Inductive chain (parents : ProgramLineage) : LineageKey -> nat -> LineageKey -> Prop :=
| chain_root r : parents !! r = Some r -> chain parents r 0 r
| chain_link k p n r : parents !! k = Some p -> p <> k -> chain parents p n r ->
    chain parents k (S n) r.

(** Every recorded Program reaches a root, within its own model pool. *)
Record forest (parents : ProgramLineage) : Prop := {
  forest_root : forall k, is_Some (parents !! k) -> exists n r, chain parents k n r;
  forest_pool : forall k p, parents !! k = Some p -> lk_model_pool p = lk_model_pool k;
}.

(** [passes parents x k]: [x] is [k] or an ancestor of [k]. *)
Inductive passes (parents : ProgramLineage) (x : LineageKey) : LineageKey -> Prop :=
| passes_here : passes parents x x
| passes_link k p : parents !! k = Some p -> p <> k -> passes parents x p -> passes parents x k.

(** The root of a key, recorded or not. *)
Definition root_key (parents : ProgramLineage) (k : LineageKey) : LineageKey :=
  find_root (S (size parents)) parents k.

(** Roots after one declared link. *)
Definition linked (l l' : ProgramLineage) (x : LineageKey) (target : option LineageKey) : Prop :=
  match target with
  | None => forall k, root_key l' k = root_key l k
  | Some p =>
      (passes l x p -> forall k, root_key l' k = root_key l k) /\
      (~ passes l x p -> forall k,
        (passes l x k -> root_key l' k = root_key l p) /\
        (~ passes l x k -> root_key l' k = root_key l k))
  end.

(** Lineages the code can build: from the empty map by calls that return. *)
Inductive lineage_reachable : ProgramLineage -> Prop :=
| lineage_default : lineage_reachable ∅
| lineage_observe fuel m x p r s l l' :
    lineage_reachable l -> observe fuel m x p r l = Some (s, l') -> lineage_reachable l'
| lineage_root fuel m x s l l' :
    lineage_reachable l -> root fuel m x l = Some (s, l') -> lineage_reachable l'.

(** The lineage of the source's test: a lead, its child and a grandchild, and a
    child whose parent is declared before it is seen. *)
Definition observe_child (x : string) (p : option string) (l : ProgramLineage) : ProgramLineage :=
  default ∅ (snd <$> observe 9 "m" x p None l).

Definition lineage_1 : ProgramLineage := observe_child "a" None ∅.
Definition lineage_2 : ProgramLineage := observe_child "b" (Some "a") lineage_1.
Definition lineage_3 : ProgramLineage := observe_child "c" (Some "b") lineage_2.
Definition lineage_example : ProgramLineage := observe_child "d" (Some "e") lineage_3.

(** ** Lemmas *)

Create HintDb lineage.
#[export] Hint Constructors chain passes : lineage.

Lemma chain_det l k n r n' r' : chain l k n r -> chain l k n' r' -> n = n' /\ r = r'.
Proof.
  intros H. revert n' r'. induction H as [r Hr|k p n r Hk Hp H IH]; intros n' r' H';
    inversion H'; simplify_eq; [done|]. by edestruct IH as [-> ->].
Qed.

Lemma chain_end l k n r : chain l k n r -> l !! r = Some r.
Proof. by induction 1. Qed.

Lemma chain_start l k n r : chain l k n r -> is_Some (l !! k).
Proof. destruct 1; eauto. Qed.

(** The keys on a chain are pairwise distinct and all recorded. *)
Lemma chain_nodes l k n r : chain l k n r ->
  exists ks, NoDup ks /\ length ks = S n /\
    forall x, x ∈ ks -> is_Some (l !! x) /\ exists n' , n' <= n /\ chain l x n' r.
Proof.
  induction 1 as [r Hr|k p n r Hk Hp H (ks & Hnd & Hlen & Hks)].
  - exists [r]. split_and!; [apply NoDup_singleton|done|].
    intros x ->%list_elem_of_singleton. eauto with lineage.
  - exists (k :: ks). split_and!; [|simpl; lia|].
    + apply NoDup_cons. split; [|done]. intros (_ & n' & Hle & Hc)%Hks.
      destruct (chain_det l k n' r (S n) r) as [-> _]; [done|by econstructor|lia].
    + intros x [->|Hx]%elem_of_cons; [split; [eauto|exists (S n); eauto with lineage]|].
      destruct (Hks x Hx) as (? & n' & ? & ?). split; [done|]. exists n'. split; [lia|done].
Qed.

Lemma chain_short l k n r : chain l k n r -> n < size l.
Proof.
  intros (ks & Hnd & Hlen & Hks)%chain_nodes.
  enough (S n <= size l) by lia. rewrite <- Hlen, <- size_dom, <- (size_list_to_set (C := gset _) ks) by done.
  apply subseteq_size. intros x Hx%elem_of_list_to_set. apply elem_of_dom. by apply Hks.
Qed.

Lemma find_root_chain l k n r rounds : chain l k n r -> n < rounds -> find_root rounds l k = r.
Proof.
  intros H. revert rounds. induction H as [r Hr|k p n r Hk Hp H IH];
    intros [|rounds] Hn; try lia; simpl.
  - by rewrite Hr, decide_True.
  - rewrite Hk, decide_False by done. apply IH. lia.
Qed.

Lemma root_key_chain l k n r : chain l k n r -> root_key l k = r.
Proof. intros H. eapply find_root_chain; [done|]. apply chain_short in H. lia. Qed.

Lemma root_key_None l k : l !! k = None -> root_key l k = k.
Proof. intros H. unfold root_key. simpl. by rewrite H. Qed.

Lemma root_walk_chain l k n r fuel : chain l k n r -> n < fuel ->
  exists path, root_walk fuel l k = Some (path, r) /\
    forall x, x ∈ path -> x <> r /\ exists n', chain l x n' r.
Proof.
  intros H. revert fuel. induction H as [r Hr|k p n r Hk Hp H IH];
    intros [|fuel] Hn; try lia; simpl.
  - rewrite Hr, decide_True by done. exists []. split; [done|]. by intros x Hx%elem_of_nil.
  - rewrite Hk, decide_False by done. destruct (IH fuel) as (path & -> & Hpath); [lia|].
    exists (k :: path). split; [done|]. intros x [->|Hx]%elem_of_cons; [|auto].
    split; [|eauto with lineage]. intros ->. apply chain_end in H. congruence.
Qed.

Lemma cycle_walk_chain l x k n r rounds : chain l k n r -> n < rounds ->
  cycle_walk rounds l x k = true <-> passes l x k.
Proof.
  intros H. revert rounds. induction H as [r Hr|k p n r Hk Hp H IH];
    intros [|rounds] Hn; try lia; simpl.
  - case_decide; [subst; split; auto with lineage|]. rewrite Hr, decide_True by done.
    split; [done|]. inversion 1; congruence.
  - case_decide; [subst; split; auto with lineage|]. rewrite Hk, decide_False by done.
    rewrite IH by lia. split; [eauto with lineage|]. inversion 1; congruence.
Qed.

Lemma would_cycle_spec l x k : forest l -> would_cycle x k l = true <-> passes l x k.
Proof.
  intros [Hroot _]. unfold would_cycle. destruct (l !! k) as [p|] eqn:Hk.
  - destruct (Hroot k) as (n & r & H); [eauto|]. eapply cycle_walk_chain; [done|].
    apply chain_short in H. lia.
  - simpl. rewrite Hk. case_decide; [subst; split; auto with lineage|].
    split; [done|]. inversion 1; congruence.
Qed.

(** Inserting away from a chain keeps it. *)
Lemma chain_insert_off l k n r x v : chain l k n r -> ~ passes l x k -> chain (<[x := v]> l) k n r.
Proof.
  induction 1 as [r Hr|k p n r Hk Hp H IH]; intros Hx;
    (assert (x <> k) || assert (x <> r)); try (intros ->; eauto with lineage; fail).
  - constructor. by rewrite lookup_insert_ne.
  - econstructor; [by rewrite lookup_insert_ne|done|]. eauto with lineage.
Qed.

(** A key below [x] has the root [x] has after the insertion. *)
Lemma chain_insert_on l k x v n r : passes l x k -> chain (<[x := v]> l) x n r ->
  exists n', chain (<[x := v]> l) k n' r.
Proof.
  intros Hk Hx. induction Hk as [|k p Hk Hp _ [n' IH]]; [eauto|].
  destruct (decide (x = k)) as [->|]; [eauto|]. exists (S n').
  econstructor; [by rewrite lookup_insert_ne|done|done].
Qed.

(** Pointing a key at its root changes no root. *)
Lemma chain_compress l x n0 r k n s : chain l x n0 r -> x <> r -> chain l k n s ->
  exists n', chain (<[x := r]> l) k n' s.
Proof.
  intros Hx Hxr. induction 1 as [s Hs|k p n s Hk Hp H [n' IH]].
  - assert (x <> s) by (intros <-; inversion Hx; congruence).
    exists 0. constructor. by rewrite lookup_insert_ne.
  - destruct (decide (x = k)) as [->|].
    + destruct (chain_det l k n0 r (S n) s) as [_ <-]; [done|by econstructor|].
      exists 1. econstructor; [by rewrite lookup_insert_eq|done|].
      constructor. rewrite lookup_insert_ne by done. by eapply chain_end.
    + exists (S n'). econstructor; [by rewrite lookup_insert_ne|done|done].
Qed.

Lemma forest_empty : forest ∅.
Proof. split; [by intros ? [??]|done]. Qed.

Lemma chain_pool l k n r : forest l -> chain l k n r -> lk_model_pool r = lk_model_pool k.
Proof.
  intros Hl. induction 1 as [|k p n r Hk Hp H IH]; [done|]. by rewrite IH, (forest_pool _ Hl k p).
Qed.

Lemma passes_pool l x k : forest l -> passes l x k -> lk_model_pool k = lk_model_pool x.
Proof.
  intros Hl. induction 1 as [|k p Hk Hp _ IH]; [done|]. by rewrite <- IH, (forest_pool _ Hl k p).
Qed.

(** A change that keeps every root and records new keys only as roots. *)
Lemma keep_roots l l' : forest l ->
  (forall k n s, chain l k n s -> exists n', chain l' k n' s) ->
  (forall k, l !! k = None -> l' !! k = None \/ l' !! k = Some k) ->
  (forall k p, l' !! k = Some p -> lk_model_pool p = lk_model_pool k) ->
  forest l' /\ forall k, root_key l' k = root_key l k.
Proof.
  intros Hl Hkeep Hnew Hpool.
  assert (forall k, is_Some (l' !! k) -> exists n r, chain l' k n r /\ root_key l k = r) as Hall.
  { intros k [p Hp]. destruct (l !! k) as [q|] eqn:Hk.
    - destruct (forest_root _ Hl k) as (n & r & H); [eauto|]. destruct (Hkeep _ _ _ H) as [n' H'].
      exists n', r. split; [done|]. by eapply root_key_chain.
    - exists 0, k. rewrite (root_key_None l) by done.
      split; [|done]. constructor. destruct (Hnew k Hk); congruence. }
  split.
  - split; [|done]. intros k Hk. destruct (Hall k Hk) as (n & r & H & _). eauto.
  - intros k. destruct (l' !! k) as [p|] eqn:Hp.
    + destruct (Hall k) as (n & r & H & ->); [eauto|]. by eapply root_key_chain.
    + rewrite root_key_None by done. destruct (l !! k) as [q|] eqn:Hk.
      * destruct (forest_root _ Hl k) as (n & r & H); [eauto|].
        destruct (Hkeep _ _ _ H) as [n' [? H']%chain_start]. congruence.
      * by rewrite root_key_None.
Qed.

Lemma or_insert_self_roots x l : forest l ->
  forest (or_insert_self x l) /\ (forall k, root_key (or_insert_self x l) k = root_key l k) /\
  is_Some (or_insert_self x l !! x) /\ size (or_insert_self x l) <= S (size l).
Proof.
  intros Hl. unfold or_insert_self. destruct (l !! x) as [p|] eqn:Hx; [rewrite Hx; eauto|].
  destruct (keep_roots l (<[x := x]> l) Hl) as [Hf Hr].
  - intros k n s H. exists n. induction H as [s Hs|k p n s Hk Hp H IH].
    + constructor. rewrite lookup_insert_ne by congruence. done.
    + econstructor; [rewrite lookup_insert_ne by congruence; done|done|done].
  - intros k Hk. destruct (decide (x = k)) as [->|]; [right; by rewrite lookup_insert_eq|].
    left. by rewrite lookup_insert_ne.
  - intros k p. destruct (decide (x = k)) as [->|].
    + rewrite lookup_insert_eq. congruence.
    + rewrite lookup_insert_ne by done. apply Hl.
  - split_and!; [done|done|by rewrite lookup_insert_eq|rewrite map_size_insert_None by done; lia].
Qed.

Lemma compress_roots path r l : forest l -> l !! r = Some r ->
  (forall x, x ∈ path -> x <> r /\ exists n, chain l x n r) ->
  forest (compress path r l) /\ (forall k, root_key (compress path r l) k = root_key l k).
Proof.
  revert l. induction path as [|x path IH]; intros l Hl Hr Hpath; [done|]. simpl.
  destruct (Hpath x) as [Hxr [n0 Hx]]; [left|].
  destruct (keep_roots l (<[x := r]> l) Hl) as [Hf Hroots].
  - intros k n s. by eapply chain_compress.
  - intros k Hk. left. apply chain_start in Hx as [? Hx].
    rewrite lookup_insert_ne; [done|]. congruence.
  - intros k p. destruct (decide (x = k)) as [->|].
    + rewrite lookup_insert_eq. intros [= <-]. by eapply chain_pool.
    + rewrite lookup_insert_ne by done. apply Hl.
  - destruct (IH (<[x := r]> l) Hf) as [Hf' Hroots'].
    + by rewrite lookup_insert_ne.
    + intros y Hy. destruct (Hpath y) as [Hyr [n Hc]]; [by right|]. split; [done|].
      by eapply chain_compress.
    + split; [done|]. intros k. by rewrite Hroots', Hroots.
Qed.

Lemma root_roots fuel m x l : forest l -> size l < fuel ->
  exists l', root fuel m x l = Some (root_readonly m x l, l') /\
    forest l' /\ forall k, root_key l' k = root_key l k.
Proof.
  intros Hl Hfuel. unfold root.
  destruct (or_insert_self_roots (MkLineageKey m x) l Hl) as (Hf & Hroots & Hx & Hsize).
  destruct (forest_root _ Hf _ Hx) as (n & r & Hc).
  destruct (root_walk_chain _ _ _ _ fuel Hc) as (path & -> & Hpath);
    [apply chain_short in Hc; lia|].
  destruct (compress_roots path r _ Hf (chain_end _ _ _ _ Hc) Hpath) as [Hf' Hroots'].
  eexists. split_and!; [|exact Hf'|intros k; by rewrite Hroots', Hroots].
  simpl. rewrite <- (root_key_chain _ _ _ _ Hc). by rewrite Hroots.
Qed.

Lemma root_walk_mono f f' l k v : root_walk f l k = Some v -> f <= f' -> root_walk f' l k = Some v.
Proof.
  revert f' k v. induction f as [|f IH]; intros [|f'] k v H Hle; try (done || lia). simpl in *.
  case_match; [|done]. case_decide; [done|].
  destruct (root_walk f l l0) as [w|] eqn:E; [|done]. by rewrite (IH f' _ _ E) by lia.
Qed.

(** More fuel never changes an answer. *)
Lemma root_mono f f' m x l v : root f m x l = Some v -> f <= f' -> root f' m x l = Some v.
Proof.
  unfold root. intros H Hle. destruct (root_walk f _ _) as [w|] eqn:E; [|done].
  by rewrite (root_walk_mono _ _ _ _ _ E Hle).
Qed.

Lemma root_result fuel m x l s l' : forest l -> root fuel m x l = Some (s, l') ->
  s = root_readonly m x l /\ forest l' /\ forall k, root_key l' k = root_key l k.
Proof.
  intros Hl H. destruct (root_roots (Nat.max fuel (S (size l))) m x l Hl) as (l'' & Hr & Hf & Hroots);
    [lia|].
  rewrite (root_mono _ (Nat.max fuel (S (size l))) _ _ _ _ H) in Hr by lia. by simplify_eq.
Qed.

Lemma passes_or_insert_self x p k l : forest l ->
  passes (or_insert_self p l) x k <-> passes l x k.
Proof.
  intros Hl. unfold or_insert_self. destruct (l !! p) eqn:Hp; [done|]. split.
  - induction 1 as [|k q Hk Hq _ IH]; [constructor|]. destruct (decide (p = k)) as [->|].
    + rewrite lookup_insert_eq in Hk. congruence.
    + rewrite lookup_insert_ne in Hk by done. eauto with lineage.
  - induction 1 as [|k q Hk Hq _ IH]; [constructor|]. econstructor; [|done|done].
    rewrite lookup_insert_ne by congruence. done.
Qed.

(** Pointing [x] at [p], which is not below [x]. *)
Lemma insert_link_roots x p l : forest l -> is_Some (l !! x) -> is_Some (l !! p) ->
  lk_model_pool p = lk_model_pool x -> ~ passes l x p ->
  let l' := <[x := p]> l in
  forest l' /\ forall k,
    (passes l x k -> root_key l' k = root_key l p) /\
    (~ passes l x k -> root_key l' k = root_key l k).
Proof.
  intros Hl Hx Hp Hpool Hno l'.
  destruct (forest_root _ Hl p Hp) as (n & r & Hc).
  assert (chain l' x (S n) r) as Hx'.
  { econstructor; [apply lookup_insert_eq|intros ->; apply Hno; constructor|].
    by apply chain_insert_off. }
  assert (forall k, passes l x k -> exists n', chain l' k n' r) as Hon
    by (intros; eapply chain_insert_on; done).
  assert (forall k n' s, ~ passes l x k -> chain l k n' s -> chain l' k n' s) as Hoff
    by (intros; by apply chain_insert_off).
  split; [split|].
  - intros k Hk. destruct (would_cycle x k l) eqn:E.
    + apply would_cycle_spec in E; [|done]. destruct (Hon k E) as [n' ?]. eauto.
    + assert (~ passes l x k) as Hk' by (rewrite <- would_cycle_spec, E by done; done).
      destruct (forest_root _ Hl k) as (n' & s & H); [|eauto].
      unfold l' in Hk. rewrite lookup_insert_ne in Hk; [done|]. intros ->. apply Hk'. constructor.
  - intros k q. unfold l'. destruct (decide (x = k)) as [->|].
    + rewrite lookup_insert_eq. by intros [= <-].
    + rewrite lookup_insert_ne by done. apply Hl.
  - intros k. split; intros Hk.
    + destruct (Hon k Hk) as [n' ?]. rewrite (root_key_chain l p _ _ Hc). by eapply root_key_chain.
    + destruct (l !! k) as [q|] eqn:E.
      * destruct (forest_root _ Hl k) as (n' & s & H); [eauto|].
        rewrite (root_key_chain _ _ _ _ H). eapply root_key_chain, Hoff; eauto.
      * rewrite !root_key_None; [done|done|]. unfold l'. rewrite lookup_insert_ne; [done|].
        intros ->. apply Hk. constructor.
Qed.

Lemma link_roots m x t l : forest l -> is_Some (l !! MkLineageKey m x) ->
  forest (link m x t l) /\ is_Some (link m x t l !! MkLineageKey m x) /\
  size (link m x t l) <= S (size l) /\
  linked l (link m x t l) (MkLineageKey m x) (MkLineageKey m <$> t).
Proof.
  intros Hl Hx. unfold link, linked. destruct t as [id|]; simpl; [|auto].
  case_decide as Hid; [subst id; split_and!; auto; intros []; constructor|].
  set (xk := MkLineageKey m x) in *. set (pk := MkLineageKey m id).
  destruct (or_insert_self_roots pk l Hl) as (Hf & Hroots & Hp & Hsize).
  assert (is_Some (or_insert_self pk l !! xk)) as Hx'.
  { unfold or_insert_self. case_match; [done|].
    rewrite lookup_insert_ne; [done|]. by intros [= ?]. }
  pose proof (would_cycle_spec _ xk pk Hf) as Hwc.
  rewrite passes_or_insert_self in Hwc by done. destruct (would_cycle _ _ _).
  - assert (passes l xk pk) by tauto. split_and!; auto. tauto.
  - assert (~ passes l xk pk) as Hno by (intros ?; by apply Hwc in H).
    destruct (insert_link_roots xk pk _ Hf Hx' Hp) as [Hf' Hr'];
      [done|by rewrite passes_or_insert_self|].
    split; [done|]. split; [rewrite lookup_insert_eq; eauto|]. split; [|split; [tauto|]].
    + rewrite map_size_insert. by destruct Hx' as [? ->].
    + intros _ k. specialize (Hr' k). by rewrite !passes_or_insert_self, !Hroots in Hr'.
Qed.

(** Everything one [observe] does, as two declared links. *)
Lemma observe_links fuel m x p r l s l' : forest l -> observe fuel m x p r l = Some (s, l') ->
  let xk := MkLineageKey m x in
  exists l1, forest l1 /\ linked l l1 xk (MkLineageKey m <$> p) /\
    linked l1 l' xk (MkLineageKey m <$> r) /\ forest l' /\ s = root_readonly m x l'.
Proof.
  intros Hl H xk. unfold observe in H.
  destruct (or_insert_self_roots xk l Hl) as (Hf0 & Hr0 & Hx0 & _).
  destruct (link_roots m x p _ Hf0 Hx0) as (Hf1 & Hx1 & _ & Hl1).
  destruct (link_roots m x r _ Hf1 Hx1) as (Hf2 & Hx2 & _ & Hl2).
  destruct (root_result _ _ _ _ _ _ Hf2 H) as (-> & Hf & Hroots).
  eexists. split_and!; [exact Hf1| | |done|].
  - unfold linked in *. destruct p as [p|]; simpl in *.
    + destruct Hl1 as [H1 H2]. rewrite !passes_or_insert_self in * by done. split.
      * intros Hp k. by rewrite H1, Hr0.
      * intros Hp k. specialize (H2 Hp k). by rewrite !passes_or_insert_self, !Hr0 in H2 by done.
    + apply Hr0.
  - unfold linked in *. destruct r as [r|]; simpl in *; [|intros k; by rewrite Hroots].
    destruct Hl2 as [H1 H2]. split; [intros Hp k; by rewrite Hroots, H1|].
    intros Hp k. rewrite Hroots. auto.
  - symmetry. unfold root_readonly. f_equal. apply Hroots.
Qed.

Lemma lineage_forest l : lineage_reachable l -> forest l.
Proof.
  induction 1 as [|????????? IH H|??????? IH H]; [apply forest_empty| |].
  - by destruct (observe_links _ _ _ _ _ _ _ _ IH H) as (? & _ & _ & _ & ? & _).
  - by destruct (root_result _ _ _ _ _ _ IH H) as (_ & ? & _).
Qed.

Lemma lineage_example_reachable : lineage_reachable lineage_example.
Proof.
  apply (lineage_observe 9 "m" "d" (Some "e") None "e" lineage_3); [|vm_refl].
  apply (lineage_observe 9 "m" "c" (Some "b") None "a" lineage_2); [|vm_refl].
  apply (lineage_observe 9 "m" "b" (Some "a") None "a" lineage_1); [|vm_refl].
  apply (lineage_observe 9 "m" "a" None None "a" ∅); [apply lineage_default|vm_refl].
Qed.

Lemma observe_defined l m x p r fuel : forest l -> size l + 3 < fuel ->
  exists s l', observe fuel m x p r l = Some (s, l') /\ forest l'.
Proof.
  intros Hl Hfuel. destruct (or_insert_self_roots (MkLineageKey m x) l Hl) as (Hf0 & _ & Hx0 & Hs0).
  destruct (link_roots m x p _ Hf0 Hx0) as (Hf1 & Hx1 & Hs1 & _).
  destruct (link_roots m x r _ Hf1 Hx1) as (Hf2 & Hx2 & Hs2 & _).
  unfold observe. edestruct (root_roots fuel m x _ Hf2) as (l' & E & Hl' & _); [lia|]. rewrite E. by eexists _, l'.
Qed.

(** ** Properties *)

(** C40: the unbounded loop of [root] ends.  On every lineage the code can build,
    [observe] and [root] return for any arguments once the fuel exceeds the
    number of recorded Programs by three, so no sequence of declarations, cyclic
    ones included, makes the loop run forever. *)
Theorem lineage_terminates l m x p r fuel :
  lineage_reachable l -> size l + 3 < fuel ->
  is_Some (observe fuel m x p r l) /\ is_Some (root fuel m x l).
Proof.
  intros Hl%lineage_forest Hfuel. split.
  - destruct (observe_defined l m x p r fuel Hl Hfuel) as (s & l' & -> & _). done.
  - destruct (root_roots fuel m x l Hl) as (l' & -> & _); [lia|]. done.
Qed.

Lemma lineage_terminates_witness :
  is_Some (observe 9 "m" "a" (Some "c") (Some "d") lineage_example).
Proof.
  refine (proj1 (lineage_terminates lineage_example "m" "a" (Some "c") (Some "d") 9 _ _)).
  - exact lineage_example_reachable.
  - vm_compute. lia.
Defined.

(** Path compression is invisible.  [root] answers what [root_readonly]
    answers, and afterwards every Program, of every model pool, has the root it
    had before. *)
Theorem root_compression l fuel m x s l' :
  lineage_reachable l -> root fuel m x l = Some (s, l') ->
  s = root_readonly m x l /\ forall m' k, root_readonly m' k l' = root_readonly m' k l.
Proof.
  intros Hl%lineage_forest H. destruct (root_result _ _ _ _ _ _ Hl H) as (-> & _ & Hroots).
  split; [done|]. intros m' k. unfold root_readonly. f_equal. apply Hroots.
Qed.

Lemma root_compression_witness :
  root_readonly "m" "c" (default ∅ (snd <$> root 9 "m" "c" lineage_example)) = "a"%string.
Proof.
  destruct (root_compression lineage_example 9 "m" "c" "a"
    (default ∅ (snd <$> root 9 "m" "c" lineage_example)) lineage_example_reachable) as [Hs H].
  - vm_refl.
  - rewrite H. exact (eq_sym Hs).
Defined.

(** What a declared parent does.  After [observe] of a Program [x] with a
    parent [p] and no explicit root: if [x] is [p] or an ancestor of [p] the
    declaration is dropped and no root changes; otherwise exactly [x] and the
    Programs below it move to the root of [p].  The answer is the new root of
    [x], and Programs of other model pools keep their roots. *)
Theorem observe_parent l fuel m x p s l' :
  lineage_reachable l -> observe fuel m x (Some p) None l = Some (s, l') ->
  let xk := MkLineageKey m x in
  s = root_readonly m x l' /\
  (forall m' k, m' <> m -> root_readonly m' k l' = root_readonly m' k l) /\
  (passes l xk (MkLineageKey m p) -> forall k, root_readonly m k l' = root_readonly m k l) /\
  (~ passes l xk (MkLineageKey m p) -> forall k,
    (passes l xk (MkLineageKey m k) -> root_readonly m k l' = root_readonly m p l) /\
    (~ passes l xk (MkLineageKey m k) -> root_readonly m k l' = root_readonly m k l)).
Proof.
  intros Hl%lineage_forest H xk.
  destruct (observe_links _ _ _ _ _ _ _ _ Hl H) as (l1 & Hf1 & Hl1 & Hl2 & _ & ->).
  fold xk in Hl1, Hl2. simpl in Hl1, Hl2. destruct Hl1 as [H1 H2].
  pose proof (would_cycle_spec l xk (MkLineageKey m p) Hl) as Hwc.
  assert (forall k, root_readonly m k l' = lk_program_id (root_key l1 (MkLineageKey m k))) as Hro
    by (intros k; unfold root_readonly; f_equal; apply Hl2).
  split_and!; [done| |intros Hp k; by rewrite Hro, H1|].
  - intros m' k Hm. unfold root_readonly. f_equal. change (root_key l' (MkLineageKey m' k) =
      root_key l (MkLineageKey m' k)). rewrite Hl2. destruct (would_cycle xk _ l).
    + apply H1. tauto.
    + apply H2; [by intros ?%Hwc|]. intros Hk. apply Hm. by apply passes_pool in Hk.
  - intros Hp k. rewrite Hro. destruct (H2 Hp (MkLineageKey m k)) as [Ha Hb].
    split; intros Hk; [by rewrite Ha|by rewrite Hb].
Qed.

Lemma observe_parent_witness :
  root_readonly "m" "c" (observe_child "a" (Some "e") lineage_example) = "e"%string.
Proof.
  pose proof (lineage_forest _ lineage_example_reachable) as Hl.
  destruct (observe_parent lineage_example 9 "m" "a" "e" "e"
    (observe_child "a" (Some "e") lineage_example) lineage_example_reachable) as (_ & _ & _ & H).
  - vm_refl.
  - destruct (H) with (k := "c"%string) as [Hc _].
    + rewrite <- (would_cycle_spec _ _ _ Hl). apply not_true_iff_false. vm_refl.
    + rewrite Hc; [vm_refl|]. apply (would_cycle_spec _ _ _ Hl). vm_refl.
Defined.
