(* ===== verification/Ieee.v ===== *)
(** * Floating-point numbers

    [f32] and [f64] are the IEEE 754 formats binary32 and binary64; Rust rounds to
    nearest, ties to even.  A number is a value of the Standard Library's
    [spec_float] and every operation is computed bit for bit.  The model has one
    NaN: its sign and payload, which only [total_cmp] can see, are those of the
    positive quiet NaN. *)

From Stdlib Require Export Floats.SpecFloat.
From S2P Require Import Prelude.

Abbreviation f32 := spec_float.
Abbreviation f64 := spec_float.

(** ** Conversions *)

(** [n as f32], [n as f64] *)
Definition usize_as_f32 (n : N) : f32 := binary_normalize 24 128 (Z.of_N n) 0 false.
Definition usize_as_f64 (n : N) : f64 := binary_normalize 53 1024 (Z.of_N n) 0 false.

(** [x as f32] *)
Definition f64_as_f32 (x : f64) : f32 :=
  match x with
  | S754_finite s m e => binary_normalize 24 128 (cond_Zopp s (Zpos m)) e s
  | _ => x
  end.

(** The decimal literal [n / d]. *)
Definition f32_lit (n d : N) : f32 := SFdiv 24 128 (usize_as_f32 n) (usize_as_f32 d).
Definition f64_lit (n d : N) : f64 := SFdiv 53 1024 (usize_as_f64 n) (usize_as_f64 d).

(** A decimal literal, correctly rounded whatever its digits. *)
Definition f64_dec (n d : positive) : f64 := SFdiv 53 1024 (S754_finite false n 0) (S754_finite false d 0).

(** ** Arithmetic *)

Definition f32_mul : f32 -> f32 -> f32 := SFmul 24 128.
Definition f32_div : f32 -> f32 -> f32 := SFdiv 24 128.
Definition f64_add : f64 -> f64 -> f64 := SFadd 53 1024.
Definition f64_sub : f64 -> f64 -> f64 := SFsub 53 1024.
Definition f64_mul : f64 -> f64 -> f64 := SFmul 53 1024.
Definition f64_div : f64 -> f64 -> f64 := SFdiv 53 1024.

(** [x > y] *)
Definition float_gt (x y : spec_float) : bool := SFltb y x.

Definition is_nan (x : spec_float) : bool := match x with S754_nan => true | _ => false end.

(** [x.clamp(lo, hi)] for [lo <= hi]: NaN stays. *)
Definition f64_clamp (x lo hi : f64) : f64 :=
  let x := if SFltb x lo then lo else x in
  if SFltb hi x then hi else x.

(** [x.clamp(lo, hi)], which panics unless [lo <= hi]. *)
Definition f64_try_clamp (x lo hi : f64) : option f64 :=
  if SFleb lo hi then Some (f64_clamp x lo hi) else None.

(** [x <= y], [x >= y] and [x < y] *)
Definition f64_le (x y : f64) : bool := SFleb x y.
Definition f64_ge (x y : f64) : bool := SFleb y x.
Definition f64_lt (x y : f64) : bool := SFltb x y.

Definition is_finite (x : f64) : bool :=
  match x with S754_zero _ | S754_finite _ _ _ => true | _ => false end.

Definition f64_sqrt : f64 -> f64 := SFsqrt 53 1024.
Definition f64_abs : f64 -> f64 := SFabs.
Definition f64_neg : f64 -> f64 := SFopp.

(** [x.max(y)], [x.min(y)]: a NaN loses. *)
Definition f64_max (x y : f64) : f64 :=
  if is_nan x then y else if is_nan y then x else if SFltb x y then y else x.
Definition f64_min (x y : f64) : f64 :=
  if is_nan x then y else if is_nan y then x else if SFltb y x then y else x.

(** [iter.sum::<f64>()] *)
Definition f64_sum (l : list f64) : f64 := foldl f64_add (S754_zero true) l.

(** ** Integers and durations *)

(** A finite number as a quotient of integers. *)
Definition f64_ratio (x : f64) : option (Z * Z) :=
  match x with
  | S754_zero _ => Some (0, 1)%Z
  | S754_finite s m e => Some (cond_Zopp s (Zpos m) * 2 ^ Z.max e 0, 2 ^ Z.max (- e) 0)%Z
  | _ => None
  end.

Definition is_negative (x : f64) : bool :=
  match x with S754_zero s | S754_infinity s | S754_finite s _ _ => s | S754_nan => false end.

(** [x.ceil()] and [x.round()], which rounds halves away from zero. *)
Definition f64_ceil (x : f64) : f64 :=
  match f64_ratio x with
  | Some (n, d) => binary_normalize 53 1024 (- ((- n) / d)) 0 (is_negative x)
  | None => x
  end.

Definition f64_round (x : f64) : f64 :=
  match f64_ratio x with
  | Some (n, d) => binary_normalize 53 1024 (Z.sgn n * ((2 * Z.abs n + d) / (2 * d))) 0 (is_negative x)
  | None => x
  end.

(** [x as usize] saturates; NaN is zero. *)
Definition f64_as_usize (x : f64) : N :=
  match x with
  | S754_infinity false => u64_max
  | _ => match f64_ratio x with Some (n, d) => N.min (Z.to_N (n / d)) u64_max | None => 0 end
  end.

(** A [Duration] is a number of nanoseconds. *)
Definition NANOS_PER_SEC : N := 1000000000.

Definition from_secs (n : N) : N := (n * NANOS_PER_SEC)%N.

(** [duration.as_secs_f64()] *)
Definition as_secs_f64 (ns : N) : f64 :=
  f64_add (usize_as_f64 (ns / NANOS_PER_SEC))
    (f64_div (usize_as_f64 (ns mod NANOS_PER_SEC)) (usize_as_f64 NANOS_PER_SEC)).

(** [a / b] to the nearest integer, ties to even. *)
Definition nearest_even (a b : Z) : Z :=
  let q := (a / b)%Z in
  match (2 * (a mod b) ?= b)%Z with Lt => q | Gt => q + 1 | Eq => if Z.even q then q else q + 1 end.

(** [Duration::from_secs_f64(x)] panics on a negative number, on NaN and from
    [2^64] seconds on. *)
Definition from_secs_f64 (x : f64) : option N :=
  if SFltb x (S754_zero false) then None
  else match f64_ratio x with
       | Some (n, d) =>
           if (n / d <? Z.of_N u64_mod)%Z then Some (Z.to_N (nearest_even (n * Z.of_N NANOS_PER_SEC) d)) else None
       | None => None
       end.

(** [instant + duration] panics when the seconds leave [i64]; instants are
    nanoseconds from the origin of the clock. *)
Definition INSTANT_LIMIT : N := 2 ^ 63 * NANOS_PER_SEC.

Definition instant_add (at_ d : N) : option N :=
  if (at_ + d <? INSTANT_LIMIT)%N then Some (at_ + d)%N else None.

(** [duration.saturating_mul(3)] *)
Definition DURATION_MAX : N := u64_mod * NANOS_PER_SEC - 1.

Definition duration_saturating_mul (d n : N) : N := N.min (d * n) DURATION_MAX.

(** ** The total order *)

(** The bits of a nonnegative [f64]. *)
Definition f64_magnitude (x : f64) : Z :=
  match x with
  | S754_zero _ => 0
  | S754_finite _ m e =>
      if (Zpos m <? 2 ^ 52)%Z then Zpos m else (e + 1075) * 2 ^ 52 + (Zpos m - 2 ^ 52)
  | S754_infinity _ => 2047 * 2 ^ 52
  | S754_nan => 2047 * 2 ^ 52 + 2 ^ 51
  end.

(** The bits as a signed integer, with those below the sign bit flipped when it
    is set. *)
Definition f64_key (x : f64) : Z :=
  if is_negative x then - f64_magnitude x - 1 else f64_magnitude x.

(** [x.total_cmp(&y)] *)
Definition total_cmp (x y : f64) : comparison := (f64_key x ?= f64_key y)%Z.

(** ** Facts *)

(** Nothing over a count is above a bound that is not negative. *)
Lemma zero_rate_not_above thr d : SFltb thr (S754_zero false) = false ->
  SFltb thr (f32_div (usize_as_f32 0) d) = false.
Proof.
  intros H. change (usize_as_f32 0) with (S754_zero false). unfold f32_div.
  destruct d as [s| s| |s m e]; simpl.
  - by destruct thr as [|[]| |[]].
  - destruct thr as [|[]| |[]]; simpl in *; done.
  - by destruct thr as [|[]| |[]].
  - destruct thr as [|[]| |[]]; simpl in *; done.
Qed.

Lemma total_cmp_total : total_order total_cmp.
Proof. exact (total_key f64_key _ Z_total). Qed.
