(* ===== verification/KvTypes.v ===== *)
(** * Values of the KV placement index ([src/kv_index/])

    The owners, tiers and localities of [types.rs], the event values of
    [wire.rs], the device admission of [admit.rs], the block hashing of
    [mod.rs] and the key rendering of [subscriber.rs].  An [Arc<str>] is a
    string, a [u8] a [byte].  The SHA-256 digest and the MessagePack values of
    an event's extra keys come from other packages: the digest is an argument,
    and of a MessagePack value only [is_nil] is used, the operation of the
    class [MsgpackValue]. *)

From Stdlib Require Export Strings.Byte Strings.Ascii.
From S2P Require Import Prelude Ieee.
From stdpp Require Import pretty.

Local Open Scope string_scope.

(** ** Owners ([types.rs]) *)

Record RoutableTarget := MkTarget { instance_id : string; target_dp_rank : N }.

#[export] Instance RoutableTarget_eq_dec : EqDecision RoutableTarget.
Proof. solve_decision. Defined.

#[export] Instance RoutableTarget_countable : Countable RoutableTarget.
Proof.
  refine (inj_countable' (fun t => (instance_id t, target_dp_rank t))
    (fun '(i, r) => MkTarget i r) _).
  by intros [].
Defined.

Inductive ResidencyOwner :=
| Worker (source : string) (dp_rank : N) (incarnation : N)
| CacheOwner (pool_id : string) (source : string) (dp_rank : N).

#[export] Instance ResidencyOwner_eq_dec : EqDecision ResidencyOwner.
Proof. solve_decision. Defined.

#[export] Instance ResidencyOwner_countable : Countable ResidencyOwner.
Proof.
  refine (inj_countable'
    (fun o => match o with Worker s r i => inl (s, r, i) | CacheOwner p s r => inr (p, s, r) end)
    (fun x => match x with inl (s, r, i) => Worker s r i | inr (p, s, r) => CacheOwner p s r end) _).
  by intros [].
Defined.

Inductive StorageTier := Device | HostPinned | Disk | External.

#[export] Instance StorageTier_eq_dec : EqDecision StorageTier.
Proof. solve_decision. Defined.

#[export] Instance StorageTier_countable : Countable StorageTier.
Proof.
  refine (inj_countable'
    (fun t => match t with Device => 0 | HostPinned => 1 | Disk => 2 | External => 3 end%nat)
    (fun n => match n with 0 => Device | 1 => HostPinned | 2 => Disk | _ => External end%nat) _).
  by intros [].
Defined.

Inductive Locality := Local | Remote.

#[export] Instance Locality_eq_dec : EqDecision Locality.
Proof. solve_decision. Defined.

Inductive ClearScope := ScopeWorker | ScopeCacheOwner | ScopeAll.

#[export] Instance ClearScope_eq_dec : EqDecision ClearScope.
Proof. solve_decision. Defined.

Definition target (owner : ResidencyOwner) : RoutableTarget :=
  match owner with
  | Worker source dp_rank _ => MkTarget source dp_rank
  | CacheOwner _ source dp_rank => MkTarget source dp_rank
  end.

Definition locality (owner : ResidencyOwner) : Locality :=
  match owner with Worker _ _ _ => Local | CacheOwner _ _ _ => Remote end.

Definition domain (owner : ResidencyOwner) : ClearScope :=
  match owner with Worker _ _ _ => ScopeWorker | CacheOwner _ _ _ => ScopeCacheOwner end.

(** [to_ascii_uppercase] and [to_ascii_lowercase]: byte by byte, only the
    letters of ASCII change. *)
Definition ascii_upper (c : ascii) : ascii :=
  let n := N_of_ascii c in
  if (97 <=? n)%N && (n <=? 122)%N then ascii_of_N (n - 32) else c.

Definition ascii_lower (c : ascii) : ascii :=
  let n := N_of_ascii c in
  if (65 <=? n)%N && (n <=? 90)%N then ascii_of_N (n + 32) else c.

Fixpoint string_map (f : ascii -> ascii) (s : string) : string :=
  match s with
  | EmptyString => EmptyString
  | String c s => String (f c) (string_map f s)
  end.

Definition to_ascii_uppercase : string -> string := string_map ascii_upper.
Definition to_ascii_lowercase : string -> string := string_map ascii_lower.

Inductive HashMode := PythonHashSeed | Sha256 | XxhashCbor.

Definition parse_config (s : string) : HashMode :=
  let s := to_ascii_lowercase s in
  if bool_decide (s = "python_hash_seed") || bool_decide (s = "pythonhashseed") then PythonHashSeed
  else if bool_decide (s = "xxhash_cbor") || bool_decide (s = "xxhashcbor") then XxhashCbor
  else Sha256.

Definition from_medium (s : option string) : StorageTier :=
  match to_ascii_uppercase <$> s with
  | None => Device
  | Some m =>
      if bool_decide (m = "GPU") || bool_decide (m = "DEVICE") then Device
      else if bool_decide (m = "CPU") || bool_decide (m = "HOST") || bool_decide (m = "HOST_PINNED")
      then HostPinned
      else if bool_decide (m = "STORAGE") || bool_decide (m = "DISK") then Disk
      else Device
  end.

(** ** Events ([wire.rs]) *)

(** [rmpv::Value], of which the code here only asks [is_nil]. *)
Class MsgpackValue := { value : Type; is_nil : value -> bool }.

Inductive ExternalBlockHash :=
| Bytes (b : list byte)
| Int (i : N).   (* u64 *)

#[export] Instance byte_eq_decision : EqDecision byte := Byte.byte_eq_dec.

#[export] Instance ExternalBlockHash_eq_dec : EqDecision ExternalBlockHash.
Proof. solve_decision. Defined.

(** What the deserializer hands its visitor, and the visitor's answer. *)
Inductive wire_value := VisitBytes (b : list byte) | VisitU64 (v : N) | VisitI64 (v : Z).

Definition visit_hash (v : wire_value) : result ExternalBlockHash string :=
  match v with
  | VisitBytes b => Ok (Bytes b)
  | VisitU64 v => Ok (Int v)
  | VisitI64 v => if (v <? 0)%Z then Err ("negative block hash: " +:+ pretty v) else Ok (Int (Z.to_N v))
  end.

Record BlockStored `{MsgpackValue} := {
  extra_keys : option (list value);
  stored_hashes : list ExternalBlockHash;
  parent_block_hash : option ExternalBlockHash;
  token_ids : list N;               (* u32 *)
  block_size : N;                   (* u32 *)
  lora_id : option Z;
  stored_medium : option string;
  lora_name : option string;
  stored_group_idx : option N;
  kv_cache_spec_kind : option string;
  kv_cache_spec_sliding_window : option N;
  stored_locality : option string;
  stored_ownership : option string;
  session_id : option string;
}.

Record BlockRemoved := {
  removed_hashes : list ExternalBlockHash;
  removed_medium : option string;
  removed_group_idx : option N;
  removed_locality : option string;
  removed_ownership : option string;
}.

Inductive KVEvent `{MsgpackValue} :=
| EvBlockStored (e : BlockStored)
| EvBlockRemoved (e : BlockRemoved)
| EvAllBlocksCleared.

Record KVEventBatch `{MsgpackValue} := {
  ts : f64;
  events : list KVEvent;
  data_parallel_rank : option N;
}.

(** ** Block hashes ([mod.rs], [subscriber.rs]) *)

(** [slice::chunks(size)] for a nonzero size; the fuel is the length. *)
Fixpoint chunks_fuel {A} (fuel size : nat) (l : list A) : list (list A) :=
  match fuel, l with
  | S fuel, _ :: _ => take size l :: chunks_fuel fuel size (drop size l)
  | _, _ => []
  end.

Definition chunks {A} (size : nat) (l : list A) : list (list A) := chunks_fuel (length l) size l.

Definition byte_of (n : N) : byte := default x00 (Byte.of_N (n mod 256)).

(** [u32::to_le_bytes] *)
Definition to_le_bytes (n : N) : list byte :=
  [byte_of n; byte_of (n / 256); byte_of (n / 65536); byte_of (n / 16777216)]%N.

Definition as_bytes (s : string) : list byte := byte_of_ascii <$> String.list_ascii_of_string s.

(** The bytes one block feeds to the hasher. *)
Definition block_preimage (lora_name : option string) (chunk : list N) : list byte :=
  match lora_name with
  | Some name => if decide (name = "") then [] else as_bytes name
  | None => []
  end ++ chunk ≫= to_le_bytes.

Definition local_block_hashes (sha256 : list byte -> list byte) (token_ids : list N) (block_size : N)
  (lora_name : option string) : list (list byte) :=
  if (block_size =? 0)%N then []
  else (fun chunk => sha256 (block_preimage lora_name chunk)) <$> chunks (N.to_nat block_size) token_ids.

Definition hex_digit (n : N) : ascii :=
  if (n <? 10)%N then ascii_of_N (48 + n) else ascii_of_N (87 + n).

(** [{:02x}] *)
Definition hex_byte (b : byte) : string :=
  String (hex_digit (Byte.to_N b / 16)) (String (hex_digit (Byte.to_N b mod 16)) EmptyString).

Fixpoint hex (b : list byte) : string :=
  match b with
  | [] => ""
  | x :: b => hex_byte x +:+ hex b
  end.

Definition local_block_hash_strings (sha256 : list byte -> list byte) (token_ids : list N)
  (block_size : N) (lora_name : option string) : list string :=
  hex <$> local_block_hashes sha256 token_ids block_size lora_name.

Definition hash_str (h : ExternalBlockHash) : string :=
  match h with
  | Int i => "i:" +:+ pretty i
  | Bytes b => "b:" +:+ hex b
  end.

(** ** Device admission ([admit.rs]) *)

Definition validate_hash (h : ExternalBlockHash) : result unit string :=
  match h with
  | Bytes bytes =>
      if decide (length bytes = 32%nat) then Ok () else Err "KV hash must be 32-byte sha256_cbor bytes"
  | Int _ => Err "KV hash must be 32-byte sha256_cbor bytes"
  end.

(** [for hash in hashes { validate_hash(hash)?; }] *)
Fixpoint validate_hashes (hashes : list ExternalBlockHash) : result unit string :=
  match hashes with
  | [] => Ok ()
  | h :: hashes => match validate_hash h with Ok _ => validate_hashes hashes | Err e => Err e end
  end.

(** [checked_mul] on [usize]. *)
Definition checked_mul (a b : N) : option N :=
  if (a * b <? u64_mod)%N then Some (a * b)%N else None.

Section admission.
Context `{MsgpackValue}.

Definition normal_dense_shape (event : BlockStored) (expected_block_size : N) : bool :=
  (block_size event =? expected_block_size)%N &&
  bool_decide (checked_mul (N.of_nat (length (stored_hashes event))) expected_block_size =
    Some (N.of_nat (length (token_ids event)))).

Definition no_unsupported_extensions (event : BlockStored) : bool :=
  bool_decide (lora_id event = None) && bool_decide (lora_name event = None) &&
  match extra_keys event with
  | None => true
  | Some keys => (length keys =? length (stored_hashes event))%nat && forallb is_nil keys
  end &&
  match kv_cache_spec_kind event with
  | None => true
  | Some kind => bool_decide (kind = "full_attention")
  end &&
  bool_decide (kv_cache_spec_sliding_window event = None) && bool_decide (session_id event = None).

(** The checks common to stores and removals. *)
Definition validate_common (hashes : list ExternalBlockHash) (medium : option string)
  (group : option N) (loc ownership : option string) : result unit string :=
  if bool_decide (medium <> Some "GPU") ||
     match group with Some g => negb (g =? 0)%N | None => false end ||
     match loc with Some l => bool_decide (l <> "LOCAL") | None => false end ||
     bool_decide (ownership <> None)
  then Err "event is outside the GPU group-0 local ownership contract"
  else match hashes with
       | [] => Err "KV event hashes cannot be empty"
       | _ => validate_hashes hashes
       end.

Definition validate_event (event : KVEvent) (expected_block_size : N) : result unit string :=
  match event with
  | EvAllBlocksCleared => Ok ()
  | EvBlockRemoved e =>
      validate_common (removed_hashes e) (removed_medium e) (removed_group_idx e)
        (removed_locality e) (removed_ownership e)
  | EvBlockStored e =>
      if negb (normal_dense_shape e expected_block_size) || negb (no_unsupported_extensions e)
      then Err "stored event is outside the normal-dense complete-block contract"
      else
        match match parent_block_hash e with Some p => validate_hash p | None => Ok () end with
        | Err msg => Err msg
        | Ok _ =>
            validate_common (stored_hashes e) (stored_medium e) (stored_group_idx e)
              (stored_locality e) (stored_ownership e)
        end
  end.

Fixpoint validate_events (events : list KVEvent) (expected_block_size : N) : result unit string :=
  match events with
  | [] => Ok ()
  | e :: events =>
      match validate_event e expected_block_size with
      | Ok _ => validate_events events expected_block_size
      | Err msg => Err msg
      end
  end.

Definition validate_device_batch (batch : KVEventBatch) (expected_block_size : N)
  : result unit string :=
  if (expected_block_size =? 0)%N then Err "expected KV block size must be nonzero"
  else validate_events (events batch) expected_block_size.

(** The contract in the words of the source's comments: dense full-attention
    GPU blocks of group 0, every block complete, every hash 32 bytes, no
    adapter, salt, session or shared ownership. *)
Definition hash_32 (h : ExternalBlockHash) : Prop := exists b, h = Bytes b /\ length b = 32%nat.

Definition local_gpu (hashes : list ExternalBlockHash) (medium : option string) (group : option N)
  (loc ownership : option string) : Prop :=
  medium = Some "GPU" /\ default 0%N group = 0%N /\ default "LOCAL" loc = "LOCAL" /\
  ownership = None /\ hashes <> [] /\ Forall hash_32 hashes.

Definition admissible (expected_block_size : N) (e : KVEvent) : Prop :=
  match e with
  | EvAllBlocksCleared => True
  | EvBlockRemoved e =>
      local_gpu (removed_hashes e) (removed_medium e) (removed_group_idx e) (removed_locality e)
        (removed_ownership e)
  | EvBlockStored e =>
      local_gpu (stored_hashes e) (stored_medium e) (stored_group_idx e) (stored_locality e)
        (stored_ownership e) /\
      block_size e = expected_block_size /\
      (N.of_nat (length (token_ids e)) = N.of_nat (length (stored_hashes e)) * expected_block_size)%N /\
      lora_id e = None /\ lora_name e = None /\
      match extra_keys e with
      | None => True
      | Some keys => length keys = length (stored_hashes e) /\ Forall (fun k => is_nil k = true) keys
      end /\
      default "full_attention" (kv_cache_spec_kind e) = "full_attention" /\
      kv_cache_spec_sliding_window e = None /\ session_id e = None /\
      match parent_block_hash e with Some p => hash_32 p | None => True end
  end.

End admission.

(** [None] and the empty adapter name seed the hash alike. *)
Definition adapter (lora_name : option string) : string := default "" lora_name.

(** A decoder for [hex_byte], used to show that rendering loses nothing. *)
Definition unhex_digit (c : ascii) : N :=
  let n := N_of_ascii c in if (n <? 58)%N then (n - 48)%N else (n - 87)%N.

Fixpoint unhex (s : string) : list byte :=
  match s with
  | String a (String b s) => byte_of (unhex_digit a * 16 + unhex_digit b) :: unhex s
  | _ => []
  end.

(** One admissible store and its witness instance of [MsgpackValue]. *)
#[export] Instance unit_value : MsgpackValue := {| value := unit; is_nil := fun _ => true |}.

Definition stored_example : BlockStored := {|
  extra_keys := Some [()]; stored_hashes := [Bytes (repeat x07 32)];
  parent_block_hash := Some (Bytes (repeat x08 32)); token_ids := [1; 2]%N; block_size := 2%N;
  lora_id := None; stored_medium := Some "GPU"; lora_name := None; stored_group_idx := Some 0%N;
  kv_cache_spec_kind := Some "full_attention"; kv_cache_spec_sliding_window := None;
  stored_locality := Some "LOCAL"; stored_ownership := None; session_id := None |}.

Definition batch_example : KVEventBatch := {|
  ts := S754_zero false; events := [EvBlockStored stored_example; EvAllBlocksCleared];
  data_parallel_rank := None |}.

(** ** Lemmas *)

Lemma unhex_hex b : unhex (hex b) = b.
Proof.
  induction b as [|x b IH]; [done|].
  change (unhex (hex (x :: b))) with
    (byte_of (unhex_digit (hex_digit (Byte.to_N x / 16)) * 16 +
              unhex_digit (hex_digit (Byte.to_N x mod 16))) :: unhex (hex b)).
  rewrite IH. f_equal. by destruct x.
Qed.

#[export] Instance hex_inj : Inj (=) (=) hex.
Proof. intros b1 b2 H. by rewrite <- (unhex_hex b1), H, unhex_hex. Qed.

Lemma to_N_byte_of n : (Byte.to_N (byte_of n) = n mod 256)%N.
Proof.
  unfold byte_of. destruct (Byte.of_N (n mod 256)) as [x|] eqn:E; simpl.
  - symmetry. by apply Byte.to_of_N_iff in E.
  - apply Byte.of_N_None_iff in E. pose proof (N.mod_lt n 256). lia.
Qed.

Lemma byte_of_inj a b : byte_of a = byte_of b -> (a mod 256 = b mod 256)%N.
Proof. intros H. by rewrite <- (to_N_byte_of a), H, to_N_byte_of. Qed.

Lemma to_le_bytes_inj a b : is_u32 a -> is_u32 b -> to_le_bytes a = to_le_bytes b -> a = b.
Proof.
  assert (forall n, is_u32 n -> n = n mod 256 + 256 * (n / 256 mod 256 + 256 *
    (n / 65536 mod 256 + 256 * (n / 16777216 mod 256))))%N as Hn.
  { unfold is_u32, u32_mod. intros n Hn.
    replace (n / 65536)%N with (n / 256 / 256)%N by (rewrite N.Div0.div_div; done).
    replace (n / 16777216)%N with (n / 256 / 256 / 256)%N by (rewrite !N.Div0.div_div; done).
    pose proof (N.div_mod' n 256). pose proof (N.div_mod' (n / 256) 256).
    pose proof (N.div_mod' (n / 256 / 256) 256).
    rewrite (N.mod_small (n / 256 / 256 / 256)); [lia|].
    rewrite !N.Div0.div_div. apply N.Div0.div_lt_upper_bound. lia. }
  unfold to_le_bytes. intros Ha Hb [= H0%byte_of_inj H1%byte_of_inj
    H2%byte_of_inj H3%byte_of_inj]. rewrite (Hn a Ha), (Hn b Hb). congruence.
Qed.

Lemma bind_le_bytes_inj c1 c2 : Forall is_u32 c1 -> Forall is_u32 c2 -> length c1 = length c2 ->
  c1 ≫= to_le_bytes = c2 ≫= to_le_bytes -> c1 = c2.
Proof.
  intros H1. revert c2. induction H1 as [|a c1 Ha H1 IH]; intros [|b c2] H2 Hlen; try done.
  inversion_clear H2. simpl in Hlen. intros E. rewrite !bind_cons in E.
  apply app_inj_1 in E as [E1 E2]; [|done]. f_equal; [by apply to_le_bytes_inj|].
  apply IH; auto with lia.
Qed.

Lemma as_bytes_inj s1 s2 : as_bytes s1 = as_bytes s2 -> s1 = s2.
Proof.
  unfold as_bytes. intros H. apply (f_equal (fmap (M := list) ascii_of_byte)) in H.
  rewrite <- !list_fmap_compose in H.
  assert (forall l : list ascii, (ascii_of_byte ∘ byte_of_ascii) <$> l = l) as Hid.
  { intros l. rewrite <- (list_fmap_id l) at 2. apply list_fmap_ext. intros ? c _. simpl.
    apply Ascii.ascii_of_byte_of_ascii. }
  rewrite !Hid in H.
  by rewrite <- (String.string_of_list_ascii_of_string s1), H, String.string_of_list_ascii_of_string.
Qed.

Lemma block_preimage_adapter l c : block_preimage l c = (as_bytes (adapter l) ++ (c ≫= to_le_bytes))%list.
Proof. unfold block_preimage. destruct l as [n|]; [|done]. simpl. case_decide; by subst. Qed.

Lemma length_le_bytes c : length (c ≫= to_le_bytes) = (4 * length c)%nat.
Proof. induction c as [|a c IH]; [done|]. rewrite bind_cons, length_app, IH. simpl. lia. Qed.

Lemma block_preimage_inj l1 l2 c1 c2 : Forall is_u32 c1 -> Forall is_u32 c2 ->
  length c1 = length c2 -> block_preimage l1 c1 = block_preimage l2 c2 ->
  adapter l1 = adapter l2 /\ c1 = c2.
Proof.
  intros H1 H2 Hlen. rewrite !block_preimage_adapter. intros E.
  apply app_inj_2 in E as [E1%as_bytes_inj E2]; [|by rewrite !length_le_bytes, Hlen].
  split; [done|]. by apply bind_le_bytes_inj.
Qed.

Lemma chunks_fuel_full {A} fuel size n (l : list A) :
  size <> 0%nat -> length l = (n * size)%nat -> (length l <= fuel)%nat ->
  length (chunks_fuel fuel size l) = n /\ concat (chunks_fuel fuel size l) = l /\
  Forall (fun c => length c = size) (chunks_fuel fuel size l).
Proof.
  intros Hsize. revert n l. induction fuel as [|fuel IH]; intros n l Hl Hfuel.
  - destruct l; [|simpl in Hfuel; lia]. simpl in *. destruct n; [done|]. simpl in Hl. lia.
  - destruct l as [|x l]; [simpl in *; destruct n; [done|simpl in Hl; lia]|].
    destruct n as [|n]; [done|]. cbn [chunks_fuel]. set (l' := x :: l) in *.
    destruct (IH n (drop size l')) as (H1 & H2 & H3).
    + rewrite length_drop. lia.
    + rewrite length_drop. lia.
    + simpl. rewrite H1, H2, take_drop. split_and!; [done|done|]. constructor; [|done].
      rewrite length_take. lia.
Qed.

Lemma chunks_full {A} size n (l : list A) : size <> 0%nat -> length l = (n * size)%nat ->
  length (chunks size l) = n /\ concat (chunks size l) = l /\
  Forall (fun c => length c = size) (chunks size l).
Proof. intros. by apply chunks_fuel_full. Qed.

Lemma chunk_hashes_inj (sha256 : list byte -> list byte) size l1 l2 cs1 cs2 : Inj (=) (=) sha256 ->
  Forall (fun c => length c = size) cs1 -> Forall (fun c => length c = size) cs2 ->
  Forall is_u32 (concat cs1) -> Forall is_u32 (concat cs2) ->
  (fun c => sha256 (block_preimage l1 c)) <$> cs1 = (fun c => sha256 (block_preimage l2 c)) <$> cs2 ->
  cs1 = cs2 /\ (cs1 <> [] -> adapter l1 = adapter l2).
Proof.
  intros Hinj Hf1. revert cs2. induction Hf1 as [|c1 cs1 Hc1 Hf1 IH];
    intros [|c2 cs2] Hf2 Hu1 Hu2 E; rewrite ?fmap_nil, ?fmap_cons in E; try discriminate E; [by split|].
  apply Forall_app in Hu1 as [Hu1 Hus1]. apply Forall_app in Hu2 as [Hu2 Hus2].
  apply Forall_cons in Hf2 as [Hc2 Hf2]. injection E as E Es.
  apply Hinj in E. apply block_preimage_inj in E as [Hl ->]; [|done..|congruence].
  destruct (IH cs2) as [-> _]; done.
Qed.

Lemma validate_hash_ok h : validate_hash h = Ok () <-> hash_32 h.
Proof.
  unfold validate_hash, hash_32. destruct h as [b|i]; [|naive_solver].
  case_decide; naive_solver.
Qed.

Lemma validate_hashes_ok hs : validate_hashes hs = Ok () <-> Forall hash_32 hs.
Proof.
  induction hs as [|h hs IH]; simpl; [naive_solver|]. rewrite Forall_cons, <- IH, <- validate_hash_ok.
  destruct (validate_hash h) as [[]|]; naive_solver.
Qed.

Lemma validate_common_ok hs medium group loc ownership :
  validate_common hs medium group loc ownership = Ok () <-> local_gpu hs medium group loc ownership.
Proof.
  unfold validate_common, local_gpu.
  assert (bool_decide (medium <> Some "GPU") = false <-> medium = Some "GPU") as H1
    by (rewrite bool_decide_eq_false; split; [apply dec_stable|naive_solver]).
  assert (match group with Some g => negb (g =? 0)%N | None => false end = false <->
    default 0%N group = 0%N) as H2
    by (destruct group as [g|]; [simpl; rewrite negb_false_iff, N.eqb_eq|]; done).
  assert (match loc with Some l => bool_decide (l <> "LOCAL") | None => false end = false <->
    default "LOCAL" loc = "LOCAL") as H3.
  { destruct loc as [l|]; [|done]. simpl. rewrite bool_decide_eq_false.
    split; [apply dec_stable|naive_solver]. }
  assert (bool_decide (ownership <> None) = false <-> ownership = None) as H4
    by (rewrite bool_decide_eq_false; split; [apply dec_stable|naive_solver]).
  destruct (_ || _) eqn:E.
  - split; [done|]. intros (Ha & Hb & Hc & Hd & _).
    apply H1 in Ha. apply H2 in Hb. apply H3 in Hc. apply H4 in Hd.
    by rewrite Ha, Hb, Hc, Hd in E.
  - rewrite !orb_false_iff, H1, H2, H3, H4 in E. rewrite <- validate_hashes_ok.
    destruct hs; naive_solver.
Qed.

Lemma normal_dense_ok `{MsgpackValue} e bs : (N.of_nat (length (token_ids e)) < u64_mod)%N ->
  normal_dense_shape e bs = true <->
  block_size e = bs /\
  (N.of_nat (length (token_ids e)) = N.of_nat (length (stored_hashes e)) * bs)%N.
Proof.
  intros Hlen. unfold normal_dense_shape, checked_mul.
  rewrite andb_true_iff, N.eqb_eq, bool_decide_eq_true.
  destruct (N.ltb_spec (N.of_nat (length (stored_hashes e)) * bs) u64_mod).
  - split; intros [-> E]; (split; [done|congruence]).
  - split; [by intros [_ [=]]|]. intros [_ Heq]. lia.
Qed.

Lemma no_unsupported_ok `{MsgpackValue} e : no_unsupported_extensions e = true <->
  lora_id e = None /\ lora_name e = None /\
  match extra_keys e with
  | None => True
  | Some keys => length keys = length (stored_hashes e) /\ Forall (fun k => is_nil k = true) keys
  end /\
  default "full_attention" (kv_cache_spec_kind e) = "full_attention" /\
  kv_cache_spec_sliding_window e = None /\ session_id e = None.
Proof.
  unfold no_unsupported_extensions. rewrite !andb_true_iff, !bool_decide_eq_true.
  assert (match extra_keys e with
    | None => true
    | Some keys => (length keys =? length (stored_hashes e))%nat && forallb is_nil keys
    end = true <-> match extra_keys e with
    | None => True
    | Some keys => length keys = length (stored_hashes e) /\ Forall (fun k => is_nil k = true) keys
    end) as ->.
  { destruct (extra_keys e) as [keys|]; [|done].
    by rewrite andb_true_iff, Nat.eqb_eq, forallb_Forall_true. }
  destruct (kv_cache_spec_kind e); simpl; rewrite ?bool_decide_eq_true; tauto.
Qed.

(** ** Properties *)

(** Block keys do not alias.  Rendering an engine block hash as an index key
    is injective: byte hashes and integer hashes never collide with each other
    or among themselves. *)
Theorem hash_str_injective h1 h2 : hash_str h1 = hash_str h2 <-> h1 = h2.
Proof.
  split; [|by intros ->]. destruct h1, h2; simpl; intros [= E]; f_equal.
  - by apply (inj hex).
  - by apply (inj pretty).
Qed.

(** Block-local hashes separate token blocks and adapters.  For a
    collision-free digest, two token sequences of complete blocks have the same
    local hashes only if the tokens are the same and, unless there are none,
    the adapter is the same. *)
Theorem local_hashes_separate sha256 bs n1 n2 tokens1 tokens2 lora1 lora2 :
  Inj (=) (=) sha256 -> (bs <> 0)%N -> Forall is_u32 tokens1 -> Forall is_u32 tokens2 ->
  length tokens1 = (n1 * N.to_nat bs)%nat -> length tokens2 = (n2 * N.to_nat bs)%nat ->
  local_block_hashes sha256 tokens1 bs lora1 = local_block_hashes sha256 tokens2 bs lora2 ->
  tokens1 = tokens2 /\ (tokens1 <> [] -> adapter lora1 = adapter lora2).
Proof.
  intros Hinj Hbs Hu1 Hu2 Hlen1 Hlen2. unfold local_block_hashes.
  destruct (N.eqb_spec bs 0) as [|_]; [done|].
  destruct (chunks_full (N.to_nat bs) n1 tokens1) as (_ & Hc1 & Hf1); [lia|done|].
  destruct (chunks_full (N.to_nat bs) n2 tokens2) as (_ & Hc2 & Hf2); [lia|done|].
  intros E. rewrite <- Hc1 in Hu1. rewrite <- Hc2 in Hu2.
  destruct (chunk_hashes_inj sha256 (N.to_nat bs) lora1 lora2 _ _ Hinj Hf1 Hf2 Hu1 Hu2 E) as [Ecs Hl].
  split; [by rewrite <- Hc1, <- Hc2, Ecs|]. intros Hne. apply Hl. intros Hnil.
  by rewrite Hnil in Hc1.
Qed.

Lemma local_hashes_separate_witness :
  adapter (Some "a") = adapter (Some "a") /\
  local_block_hashes id [1; 2]%N 2 (Some "a") <> local_block_hashes id [1; 2]%N 2 None.
Proof.
  split; [done|]. intros E.
  destruct (local_hashes_separate id 2 1 1 [1; 2]%N [1; 2]%N (Some "a") None) as [_ H];
    [apply _|done|repeat constructor..|done|done|exact E|].
  discriminate H. done.
Defined.

(** Device admission is its contract.  A batch is accepted exactly when the
    expected block size is nonzero and every event satisfies the contract; and
    an accepted store has exactly one local hash per block hash, so pairing the
    two lists drops no block. *)
Theorem validate_device_batch_spec `{MsgpackValue} (batch : KVEventBatch) bs :
  (forall e, EvBlockStored e ∈ events batch -> (N.of_nat (length (token_ids e)) < u64_mod)%N) ->
  (validate_device_batch batch bs = Ok () <-> bs <> 0%N /\ Forall (admissible bs) (events batch)) /\
  (validate_device_batch batch bs = Ok () -> forall e sha256, EvBlockStored e ∈ events batch ->
    length (local_block_hashes sha256 (token_ids e) (block_size e) (lora_name e)) =
    length (stored_hashes e)).
Proof.
  intros Hlen.
  assert (validate_device_batch batch bs = Ok () <->
    bs <> 0%N /\ Forall (admissible bs) (events batch)) as Hiff.
  { unfold validate_device_batch. destruct (N.eqb_spec bs 0) as [|Hbs]; [naive_solver|].
    transitivity (Forall (admissible bs) (events batch)); [|tauto].
    induction (events batch) as [|e es IH]; simpl; [naive_solver|].
    rewrite Forall_cons, <- IH by (intros; apply Hlen; by right).
    assert (validate_event e bs = Ok () <-> admissible bs e) as <-;
      [|destruct (validate_event e bs) as [[]|]; naive_solver].
    destruct e as [e|e|]; simpl; [|apply validate_common_ok|done].
    rewrite <- validate_common_ok.
    pose proof (normal_dense_ok e bs (Hlen e ltac:(left))) as H1.
    pose proof (no_unsupported_ok e) as H2.
    destruct (normal_dense_shape e bs), (no_unsupported_extensions e); simpl;
      try (split; [done|]; intuition congruence).
    destruct (parent_block_hash e) as [p|]; [|intuition congruence].
    pose proof (validate_hash_ok p). destruct (validate_hash p) as [[]|]; intuition congruence. }
  split; [done|]. intros [Hbs Hall]%Hiff e sha256 He.
  rewrite Forall_forall in Hall. destruct (Hall _ He) as (_ & -> & Hshape & _).
  unfold local_block_hashes. destruct (N.eqb_spec bs 0) as [|_]; [done|]. rewrite length_fmap.
  apply (chunks_full (N.to_nat bs) (length (stored_hashes e))); lia.
Qed.

Lemma validate_device_batch_spec_witness :
  length (local_block_hashes id (token_ids stored_example) 2 None) = 1%nat.
Proof.
  refine (proj2 (validate_device_batch_spec batch_example 2 _) _ stored_example id _).
  - intros e [[= ->]|[[=]|[]%elem_of_nil]%elem_of_cons]%elem_of_cons. done.
  - vm_compute. reflexivity.
  - left.
Defined.
