(* ===== verification/KvShard.v ===== *)
(** * One group's radix tree of KV blocks ([GroupShard] of [src/kv_index/indexer.rs])

    The tree is a heap of nodes: a [NodeRef] (an [Arc<RwLock<TreeNode>>]) is an
    address, [root_addr] the root's, and [next_addr] the next [Arc::new].  The
    model is of calls that follow one another: a method is one function from the
    shard to the shard.  (The code locks node by node; a store gives up the lock of
    a parent before it takes that of the child, and what concurrent calls do in
    between is not modelled.)  [None] is a call that does not return a shard: an
    index or [expect] that panics, or a retry loop that finds the same state
    again and so never ends.

    The shard is specified by two things only ([Abs] below): the logical path of
    every engine block key ever stored, and which keys each owner and tier
    currently claims.  The engine's part of the bargain is the contract stated
    in the comments of [remove_claim]: a key always names the same path. *)

From stdpp Require Import functions.
From S2P Require Import Prelude KvTypes.

Abbreviation OwnerTier := (ResidencyOwner * StorageTier)%type.
Abbreviation IncomingBlock := (string * string)%type.     (* seq hash, local hash *)
Abbreviation EdgeBlock := (gset string * string)%type.    (* historical seq hashes, local hash *)

Record TreeNode := MkNode {
  edge : list EdgeBlock;
  claims : list (list OwnerTier);
  children : gmap string nat;
}.

Record GroupShard := MkShard {
  heap : gmap nat TreeNode;
  next_addr : nat;
  anchors : gmap string nat;
  reverse : gmap OwnerTier (gset string);
  counts : gmap OwnerTier N;
}.

Definition root_addr : nat := 0.

(** ** Operations *)

Definition new_shard : GroupShard := MkShard {[ root_addr := MkNode [] [] ∅ ]} 1 ∅ ∅ ∅.

Definition with_edge (blocks : list IncomingBlock) : TreeNode :=
  MkNode ((fun b => ({[ b.1 ]}, b.2)) <$> blocks) ((fun _ => []) <$> blocks) ∅.

(** The length of the prefix on which the local hashes agree. *)
Fixpoint edge_common_prefix (edge : list EdgeBlock) (incoming : list IncomingBlock) : nat :=
  match edge, incoming with
  | (_, l) :: edge, (_, l') :: incoming =>
      if decide (l = l') then S (edge_common_prefix edge incoming) else 0
  | _, _ => 0
  end.

(** [edge.iter().position(|(aliases, _)| aliases.contains(seq))] *)
Fixpoint alias_position (seq : string) (edge : list EdgeBlock) : option nat :=
  match edge with
  | [] => None
  | (aliases, _) :: edge =>
      if decide (seq ∈ aliases) then Some 0 else S <$> alias_position seq edge
  end.

Definition write_node (a : nat) (n : TreeNode) (sh : GroupShard) : GroupShard :=
  MkShard (<[a := n]> (heap sh)) (next_addr sh) (anchors sh) (reverse sh) (counts sh).

Definition reverse_of (sh : GroupShard) (key : OwnerTier) : gset string :=
  default ∅ (reverse sh !! key).

(** The three maps [record_locked] writes for one block. *)
Definition record_maps (seq : string) (node : nat) (key : OwnerTier) (sh : GroupShard) : GroupShard :=
  let seqs := reverse_of sh key in
  MkShard (heap sh) (next_addr sh)
    (<[seq := node]> (anchors sh))
    (<[key := {[ seq ]} ∪ seqs]> (reverse sh))
    (if decide (seq ∈ seqs) then counts sh
     else <[key := (default 0 (counts sh !! key) + 1)%N]> (counts sh)).

(** The loop of [record_locked], from block [i] on. *)
Fixpoint record_from (i : nat) (incoming : list IncomingBlock) (node : nat) (key : OwnerTier)
  (n : TreeNode) (sh : GroupShard) : option (TreeNode * GroupShard) :=
  match incoming with
  | [] => Some (n, sh)
  | (seq, _) :: incoming =>
      '(aliases, l) ← edge n !! i;
      cs ← claims n !! i;
      let n := MkNode (<[i := ({[ seq ]} ∪ aliases, l)]> (edge n))
        (<[i := if decide (key ∈ cs) then cs else cs ++ [key]]> (claims n)) (children n) in
      record_from (S i) incoming node key n (record_maps seq node key sh)
  end.

Definition record_locked (n : TreeNode) (node : nat) (key : OwnerTier)
  (incoming : list IncomingBlock) (sh : GroupShard) : option (TreeNode * GroupShard) :=
  record_from 0 incoming node key n sh.

(** Point every alias of the blocks at a node. *)
Definition reanchor (blocks : list EdgeBlock) (node : nat) (anchors : gmap string nat)
  : gmap string nat :=
  foldl (fun m b => set_fold (fun seq m => <[seq := node]> m) m b.1) anchors blocks.

Definition split_locked (c : TreeNode) (pos : nat) (sh : GroupShard) : option (TreeNode * GroupShard) :=
  let remainder := drop pos (edge c) in
  match remainder with
  | [] => None
  | (_, rem_first) :: _ =>
      let rem_node := next_addr sh in
      let r := MkNode remainder (drop pos (claims c)) (children c) in
      Some (MkNode (take pos (edge c)) (take pos (claims c)) {[ rem_first := rem_node ]},
            MkShard (<[rem_node := r]> (heap sh)) (S rem_node)
              (reanchor remainder rem_node (anchors sh)) (reverse sh) (counts sh))
  end.

(** The loop of [store]: [cursor] is the key of the block the next one follows.
    The fuel bounds the retries; the other rounds each consume a block. *)
Fixpoint store_loop (fuel : nat) (key : OwnerTier) (cursor : option string)
  (blocks : list IncomingBlock) (sh : GroupShard) : option GroupShard :=
  match blocks, fuel with
  | [], _ => Some sh
  | _, O => None
  | (_, local) :: _, S fuel =>
      node ← match cursor with Some seq => anchors sh !! seq | None => Some root_addr end;
      parent ← heap sh !! node;
      match match cursor with Some seq => Some <$> alias_position seq (edge parent)
                            | None => Some None end with
      | None => store_loop fuel key cursor blocks sh
      | Some pos =>
          '(parent, sh) ← match pos with
            | Some pos => if S pos <? length (edge parent) then split_locked parent (S pos) sh
                          else Some (parent, sh)
            | None => Some (parent, sh)
            end;
          let sh := write_node node parent sh in
          match children parent !! local with
          | None =>
              let new_node := next_addr sh in
              let sh := MkShard (heap sh) (S new_node) (anchors sh) (reverse sh) (counts sh) in
              '(new, sh) ← record_locked (with_edge blocks) new_node key blocks sh;
              let sh := write_node new_node new sh in
              Some (write_node node
                (MkNode (edge parent) (claims parent) (<[local := new_node]> (children parent))) sh)
          | Some child =>
              c ← heap sh !! child;
              let matched := edge_common_prefix (edge c) blocks in
              '(c, sh) ← (if matched <? length (edge c) then split_locked c matched sh
                          else Some (c, sh));
              '(c, sh) ← record_locked c child key (take matched blocks) sh;
              let sh := write_node child c sh in
              last_block ← last (take matched blocks);
              store_loop fuel key (Some last_block.1) (drop matched blocks) sh
          end
      end
  end.

Definition store (owner : ResidencyOwner) (tier : StorageTier) (parent_seq : option string)
  (blocks : list IncomingBlock) (sh : GroupShard) : option GroupShard :=
  let go := store_loop (length blocks) (owner, tier) parent_seq blocks sh in
  match parent_seq with
  | Some seq => if decide (is_Some (anchors sh !! seq)) then go else Some sh
  | None => go
  end.

Definition remove_claim (seq : string) (key : OwnerTier) (sh : GroupShard) : option GroupShard :=
  match anchors sh !! seq with
  | None => Some sh
  | Some node =>
      n ← heap sh !! node;
      idx ← alias_position seq (edge n);
      block ← edge n !! idx;
      cs ← claims n !! idx;
      if bool_decide (set_Exists (fun alias => alias ∈ reverse_of sh key) block.1) then Some sh
      else Some (write_node node
             (MkNode (edge n) (<[idx := filter (fun claim => claim <> key) cs]> (claims n)) (children n)) sh)
  end.

Definition set_reverse (r : gmap OwnerTier (gset string)) (sh : GroupShard) : GroupShard :=
  MkShard (heap sh) (next_addr sh) (anchors sh) r (counts sh).

Definition set_counts (c : gmap OwnerTier N) (sh : GroupShard) : GroupShard :=
  MkShard (heap sh) (next_addr sh) (anchors sh) (reverse sh) c.

(** [remove_if(&key, |_, c| *c == 0)] on the counts. *)
Definition drop_zero (key : OwnerTier) (c : gmap OwnerTier N) : gmap OwnerTier N :=
  if decide (c !! key = Some 0%N) then delete key c else c.

Definition remove_one (key : OwnerTier) (seq : string) (sh : GroupShard) : option GroupShard :=
  let removed := bool_decide (seq ∈ reverse_of sh key) in
  let sh := set_reverse (alter (fun seqs => seqs ∖ {[ seq ]}) key (reverse sh)) sh in
  sh ← remove_claim seq key sh;
  if removed then Some (set_counts (drop_zero key (alter (fun c => (c - 1)%N) key (counts sh))) sh)
  else Some sh.

Definition remove (owner : ResidencyOwner) (tier : StorageTier) (seq_hashes : list string)
  (sh : GroupShard) : option GroupShard :=
  foldM (remove_one (owner, tier)) seq_hashes sh.

(** [reverse.remove_if(&key, |_, seqs| seqs.is_empty())] *)
Definition drop_empty (key : OwnerTier) (r : gmap OwnerTier (gset string))
  : gmap OwnerTier (gset string) :=
  if decide (r !! key = Some ∅) then delete key r else r.

Definition same_owner (owner other : ResidencyOwner) : bool :=
  match owner, other with
  | Worker s1 r1 _, Worker s2 r2 _ => bool_decide (s1 = s2) && bool_decide (r1 = r2)
  | CacheOwner p1 _ _, CacheOwner p2 _ _ => bool_decide (p1 = p2)
  | _, _ => false
  end.

(** The keys a [clear] takes. *)
Definition in_clear (owner : ResidencyOwner) (scope : ClearScope) (key : OwnerTier) : bool :=
  (bool_decide (scope = ScopeAll) || bool_decide (scope = domain key.1)) && same_owner owner key.1.

Definition clear_key (key : OwnerTier) (sh : GroupShard) : option GroupShard :=
  let seqs := elements (reverse_of sh key) in
  sh ← remove key.1 key.2 seqs sh;
  Some (set_counts (drop_zero key (counts sh)) (set_reverse (drop_empty key (reverse sh)) sh)).

Definition clear (owner : ResidencyOwner) (scope : ClearScope) (sh : GroupShard) : option GroupShard :=
  foldM (fun key sh => if in_clear owner scope key then clear_key key sh else Some sh)
    (elements (dom (reverse sh))) sh.

(** The keys of one publisher and rank. *)
Definition of_source (source : string) (dp_rank : N) (key : OwnerTier) : bool :=
  bool_decide (target key.1 = MkTarget source dp_rank).

Definition clear_source_key (key : OwnerTier) (sh : GroupShard) : option GroupShard :=
  let seqs := elements (reverse_of sh key) in
  sh ← remove key.1 key.2 seqs sh;
  Some (set_reverse (drop_empty key (reverse sh)) sh).

Definition clear_source (source : string) (dp_rank : N) (sh : GroupShard) : option GroupShard :=
  foldM clear_source_key
    (filter (fun key => of_source source dp_rank key = true) (elements (dom (reverse sh)))) sh.

(** The inner loop of [find_matches]: the claims of the matched edge blocks. *)
Fixpoint match_edge (edge : list EdgeBlock) (claims : list (list OwnerTier)) (rest : list string)
  : option (list (list OwnerTier)) :=
  match edge, rest with
  | (_, l) :: edge, h :: rest =>
      if decide (l = h) then
        match claims with
        | [] => None
        | cs :: claims => cons cs <$> match_edge edge claims rest
        end
      else Some []
  | _, _ => Some []
  end.

(** The outer loop; every round consumes a hash, so the query's length is fuel
    enough. *)
Fixpoint walk (fuel : nat) (sh : GroupShard) (next : option nat) (rest : list string)
  : option (list (list OwnerTier)) :=
  match next, fuel with
  | None, _ => Some []
  | Some _, O => None
  | Some child, S fuel =>
      c ← heap sh !! child;
      matched ← match_edge (edge c) (claims c) rest;
      let advanced := length matched in
      if (advanced =? 0) || (advanced <? length (edge c)) then Some matched
      else
        let rest := drop advanced rest in
        later ← walk fuel sh (local ← head rest; children c !! local) rest;
        Some (matched ++ later)
  end.

(** The first half of [find_matches]: the claims along the matched prefix. *)
Definition node_claims (sh : GroupShard) (local_hashes : list string) : option (list (list OwnerTier)) :=
  root ← heap sh !! root_addr;
  walk (length local_hashes) sh (local ← head local_hashes; children root !! local) local_hashes.

(** ** Specification *)

(** The path of every known key, and the keys each owner and tier claims. *)
Record Abs := MkAbs {
  paths : gmap string (list string);
  active : gset (OwnerTier * string);
}.

Definition empty_abs : Abs := MkAbs ∅ ∅.

(** Some key of this path is claimed by [key]. *)
Definition holds (abs : Abs) (path : list string) (key : OwnerTier) : Prop :=
  exists seq, paths abs !! seq = Some path /\ (key, seq) ∈ active abs.

(** Record a chain of blocks below [base]. *)
Fixpoint abs_record (key : OwnerTier) (base : list string) (blocks : list IncomingBlock) (abs : Abs)
  : Abs :=
  match blocks with
  | [] => abs
  | (seq, l) :: blocks =>
      abs_record key (base ++ [l]) blocks
        (MkAbs (<[seq := base ++ [l]]> (paths abs)) ({[ (key, seq) ]} ∪ active abs))
  end.

(** The path a store continues: none when its parent is unknown. *)
Definition parent_path (abs : Abs) (parent_seq : option string) : option (list string) :=
  match parent_seq with None => Some [] | Some seq => paths abs !! seq end.

Definition abs_store (key : OwnerTier) (parent_seq : option string) (blocks : list IncomingBlock)
  (abs : Abs) : Abs :=
  match parent_path abs parent_seq with
  | None => abs
  | Some base => abs_record key base blocks abs
  end.

Definition abs_remove (key : OwnerTier) (seqs : list string) (abs : Abs) : Abs :=
  MkAbs (paths abs) (filter (fun kq => ~ (kq.1 = key /\ kq.2 ∈ seqs)) (active abs)).

(** Forget every claim of the keys [P] selects. *)
Definition abs_clear (P : OwnerTier -> bool) (abs : Abs) : Abs :=
  MkAbs (paths abs) (filter (fun kq => P kq.1 = false) (active abs)).

(** The engine's contract: every key of the batch is new or names this path. *)
Fixpoint contract (base : list string) (blocks : list IncomingBlock)
  (known : gmap string (list string)) : Prop :=
  match blocks with
  | [] => True
  | (seq, l) :: blocks =>
      (known !! seq = None \/ known !! seq = Some (base ++ [l])) /\
      contract (base ++ [l]) blocks (<[seq := base ++ [l]]> known)
  end.

Definition store_contract (parent_seq : option string) (blocks : list IncomingBlock) (abs : Abs) : Prop :=
  match parent_path abs parent_seq with
  | None => True
  | Some base => contract base blocks (paths abs)
  end.

(** The calls that change a shard, and what they do to the abstract state. *)
Inductive shard_op :=
| OpStore (owner : ResidencyOwner) (tier : StorageTier) (parent_seq : option string)
    (blocks : list IncomingBlock)
| OpRemove (owner : ResidencyOwner) (tier : StorageTier) (seq_hashes : list string)
| OpClear (owner : ResidencyOwner) (scope : ClearScope)
| OpClearSource (source : string) (dp_rank : N).

Definition shard_step (o : shard_op) (sh : GroupShard) : option GroupShard :=
  match o with
  | OpStore owner tier parent_seq blocks => store owner tier parent_seq blocks sh
  | OpRemove owner tier seq_hashes => remove owner tier seq_hashes sh
  | OpClear owner scope => clear owner scope sh
  | OpClearSource source dp_rank => clear_source source dp_rank sh
  end.

Definition abs_step (o : shard_op) (abs : Abs) : Abs :=
  match o with
  | OpStore owner tier parent_seq blocks => abs_store (owner, tier) parent_seq blocks abs
  | OpRemove owner tier seq_hashes => abs_remove (owner, tier) seq_hashes abs
  | OpClear owner scope => abs_clear (in_clear owner scope) abs
  | OpClearSource source dp_rank => abs_clear (of_source source dp_rank) abs
  end.

Definition op_contract (o : shard_op) (abs : Abs) : Prop :=
  match o with
  | OpStore _ _ parent_seq blocks => store_contract parent_seq blocks abs
  | _ => True
  end.

Definition abs_run (ops : list shard_op) (abs : Abs) : Abs := foldl (fun abs o => abs_step o abs) abs ops.

(** Every store of the trace keeps the engine's contract. *)
Fixpoint trace_ok (ops : list shard_op) (abs : Abs) : Prop :=
  match ops with
  | [] => True
  | o :: ops => op_contract o abs /\ trace_ok ops (abs_step o abs)
  end.

(** Two workers store overlapping chains, one of them drops its last block. *)
Definition worker_a : ResidencyOwner := Worker "a" 0 0.
Definition worker_b : ResidencyOwner := Worker "b" 0 0.

Definition shard_example : list shard_op := [
  OpStore worker_a Device None [("1", "x"); ("2", "y")];
  OpStore worker_b Device None [("1", "x"); ("3", "z")];
  OpStore worker_b HostPinned (Some "2") [("4", "w")];
  OpRemove worker_a Device ["2"]]%string.

(** ** The invariant

    [base a] is the path above node [a]'s edge, a ghost function. *)

Definition locals (n : TreeNode) : list string := (edge n).*2.

Record tree_inv (sh : GroupShard) (base : nat -> list string) : Prop := {
  tree_fresh : forall a n, heap sh !! a = Some n -> a < next_addr sh;
  tree_root : exists n, heap sh !! root_addr = Some n /\ edge n = [];
  tree_base_root : base root_addr = [];
  tree_len : forall a n, heap sh !! a = Some n -> length (claims n) = length (edge n);
  tree_edge : forall a n, heap sh !! a = Some n -> a <> root_addr -> edge n <> [];
  tree_child : forall a n l b, heap sh !! a = Some n -> children n !! l = Some b ->
    base b = base a ++ locals n /\ exists m, heap sh !! b = Some m /\ head (locals m) = Some l;
  tree_parent : forall b m, heap sh !! b = Some m -> b <> root_addr ->
    exists a n l, heap sh !! a = Some n /\ children n !! l = Some b;
}.

(** Block [i] of node [a] stands at path [q]. *)
Definition at_path (sh : GroupShard) (base : nat -> list string) (a i : nat) (q : list string) : Prop :=
  exists n, heap sh !! a = Some n /\ i < length (edge n) /\ q = base a ++ take (S i) (locals n).

Record shard_inv (sh : GroupShard) (base : nat -> list string) (abs : Abs) : Prop := {
  inv_tree : tree_inv sh base;
  inv_alias : forall a n i al l seq, heap sh !! a = Some n -> edge n !! i = Some (al, l) -> seq ∈ al ->
    anchors sh !! seq = Some a /\ paths abs !! seq = Some (base a ++ take (S i) (locals n));
  inv_anchor : forall seq, is_Some (paths abs !! seq) ->
    exists a n i al l, anchors sh !! seq = Some a /\ heap sh !! a = Some n /\
      edge n !! i = Some (al, l) /\ seq ∈ al;
  inv_known : forall seq, is_Some (anchors sh !! seq) -> is_Some (paths abs !! seq);
  inv_claims : forall a n i al l cs, heap sh !! a = Some n -> edge n !! i = Some (al, l) ->
    claims n !! i = Some cs ->
    forall key, key ∈ cs <-> exists seq, seq ∈ al /\ (key, seq) ∈ active abs;
  inv_reverse : forall key seq, seq ∈ reverse_of sh key <-> (key, seq) ∈ active abs;
  inv_active : forall key seq, (key, seq) ∈ active abs -> is_Some (paths abs !! seq);
  inv_counts : forall key, counts sh !! key =
    if decide (reverse_of sh key = ∅) then None else Some (N.of_nat (size (reverse_of sh key)));
}.

(** A shard that implements an abstract state. *)
Definition implements (sh : GroupShard) (abs : Abs) : Prop := exists base, shard_inv sh base abs.

(** The edge of a node before its blocks are recorded. *)
Definition bare (blocks : list IncomingBlock) : list EdgeBlock := (fun b => (∅, b.2)) <$> blocks.

(** [Arc::new] without its contents. *)
Definition bump (sh : GroupShard) : GroupShard :=
  MkShard (heap sh) (S (next_addr sh)) (anchors sh) (reverse sh) (counts sh).

(** ** Positions *)

Create HintDb kv.

Lemma locals_length n : length (locals n) = length (edge n).
Proof. apply length_fmap. Qed.

Lemma at_path_length sh base a i q : at_path sh base a i q -> length q = length (base a) + S i.
Proof.
  intros (n & _ & Hi & ->). rewrite length_app, length_take, locals_length. lia.
Qed.

Section tree.
Context (sh : GroupShard) (base : nat -> list string) (Htree : tree_inv sh base).

(** A node below the root follows the last block of its parent. *)
Lemma node_parent b m : heap sh !! b = Some m -> b <> root_addr ->
  exists a n l, heap sh !! a = Some n /\ children n !! l = Some b /\
    base b = base a ++ locals n /\ head (locals m) = Some l.
Proof.
  intros Hb Hne. destruct (tree_parent _ _ Htree b m Hb Hne) as (a & n & l & Ha & Hc).
  destruct (tree_child _ _ Htree _ _ _ _ Ha Hc) as [Hbase (m' & Hm' & Hl)]. simplify_eq.
  eauto 10.
Qed.

(** The root's blocks end at the empty path, every other node's strictly later. *)
Lemma fin_nil a n : heap sh !! a = Some n -> base a ++ locals n = [] <-> a = root_addr.
Proof.
  intros Ha. split.
  - intros [_ Hn]%app_eq_nil. destruct (decide (a = root_addr)) as [|Hne]; [done|].
    destruct (tree_edge _ _ Htree _ _ Ha Hne). by apply fmap_nil_inv in Hn.
  - intros ->. destruct (tree_root _ _ Htree) as (n' & Hn' & He). simplify_eq.
    unfold locals. by rewrite (tree_base_root _ _ Htree), He.
Qed.

Lemma fin_at a n : heap sh !! a = Some n -> a <> root_addr ->
  at_path sh base a (pred (length (edge n))) (base a ++ locals n).
Proof.
  intros Ha Hne. pose proof (tree_edge _ _ Htree _ _ Ha Hne) as He.
  assert (0 < length (edge n)) by (destruct (edge n); [done|simpl; lia]).
  exists n. split_and!; [done|lia|]. rewrite take_ge; [done|]. rewrite locals_length. lia.
Qed.

(** The block before a block: in the same edge, or the end of the parent. *)
Lemma at_pred a i q x : at_path sh base a i (q ++ [x]) ->
  (i = 0 /\ exists p n, heap sh !! p = Some n /\ children n !! x = Some a /\ base p ++ locals n = q) \/
  (exists j n, i = S j /\ at_path sh base a j q /\ heap sh !! a = Some n /\ locals n !! i = Some x).
Proof.
  intros (n & Ha & Hi & Hq).
  destruct (locals n !! i) as [y|] eqn:Hy;
    [|apply lookup_ge_None in Hy; rewrite locals_length in Hy; lia].
  rewrite (take_S_r _ _ _ Hy), (assoc_L (++)) in Hq.
  apply app_inj_2 in Hq as [Hq [= <-]]; [|done].
  destruct i as [|j].
  - left. split; [done|]. rewrite take_0, app_nil_r in Hq. subst q.
    assert (a <> root_addr) as Hne.
    { intros ->. destruct (tree_root _ _ Htree) as (n' & ? & He). simplify_eq.
      rewrite He in Hi. simpl in Hi. lia. }
    destruct (node_parent _ _ Ha Hne) as (p & n' & l & Hp & Hc & Hb & Hl).
    rewrite head_lookup, Hy in Hl. simplify_eq. eauto 10.
  - right. exists j, n. split_and!; [done| |done|done]. exists n. split_and!; [done|lia|done].
Qed.

(** A path names at most one block of the tree. *)
Lemma at_path_unique a i a' i' q :
  at_path sh base a i q -> at_path sh base a' i' q -> a = a' /\ i = i'.
Proof.
  revert a i a' i'. induction q as [|x q IH] using rev_ind; intros a i a' i' H H'.
  { apply at_path_length in H. simpl in H. lia. }
  assert (forall p n j b, heap sh !! p = Some n -> base p ++ locals n = q ->
    at_path sh base b j q -> b = p /\ S j = length (edge n)) as Hmid.
  { intros p n j b Hp Hq Hj. assert (p <> root_addr) as Hne.
    { intros ->. apply at_path_length in Hj. rewrite (proj2 (fin_nil _ _ Hp)) in Hq by done.
      subst q. simpl in Hj. lia. }
    pose proof (fin_at _ _ Hp Hne) as Hfin. rewrite Hq in Hfin.
    destruct (IH _ _ _ _ Hj Hfin) as [-> ->]. destruct Hfin as (n' & ? & ? & _). simplify_eq. lia. }
  destruct (at_pred _ _ _ _ H) as [(-> & p & n & Hp & Hc & Hq)|(j & n & -> & Hj & Ha & Hx)];
    destruct (at_pred _ _ _ _ H') as [(-> & p' & n' & Hp' & Hc' & Hq')|(j' & n' & -> & Hj' & Ha' & Hx')].
  - assert (p = p') as <-; [|by simplify_eq]. destruct (decide (p = root_addr)) as [->|Hne].
    + symmetry. apply (fin_nil _ _ Hp'). rewrite Hq', <- Hq. by apply (fin_nil _ _ Hp).
    + pose proof (fin_at _ _ Hp Hne) as Hfin. rewrite Hq in Hfin.
      by destruct (Hmid _ _ _ _ Hp' Hq' Hfin).
  - destruct (Hmid _ _ _ _ Hp Hq Hj') as [-> Hlast]. simplify_eq.
    apply lookup_lt_Some in Hx'. rewrite locals_length in Hx'. lia.
  - destruct (Hmid _ _ _ _ Hp' Hq' Hj) as [-> Hlast]. simplify_eq.
    apply lookup_lt_Some in Hx. rewrite locals_length in Hx. lia.
  - destruct (IH _ _ _ _ Hj Hj') as [-> ->]. done.
Qed.

Lemma fin_unique a n b m : heap sh !! a = Some n -> heap sh !! b = Some m ->
  base a ++ locals n = base b ++ locals m -> a = b.
Proof.
  intros Ha Hb Heq. destruct (decide (a = root_addr)) as [->|Hne].
  - symmetry. apply (fin_nil _ _ Hb). rewrite <- Heq. by apply (fin_nil _ _ Ha).
  - assert (b <> root_addr) as Hne'.
    { intros ->. apply Hne, (fin_nil _ _ Ha). rewrite Heq. by apply (fin_nil _ _ Hb). }
    pose proof (fin_at _ _ Ha Hne) as H1. pose proof (fin_at _ _ Hb Hne') as H2.
    rewrite Heq in H1. by destruct (at_path_unique _ _ _ _ _ H1 H2).
Qed.

(** What follows the end of a node, and what follows a block inside an edge. *)
Lemma extend_fin a n b j x : heap sh !! a = Some n ->
  at_path sh base b j (base a ++ locals n ++ [x]) -> children n !! x = Some b /\ j = 0.
Proof.
  intros Ha H. rewrite (assoc_L (++)) in H.
  destruct (at_pred _ _ _ _ H) as [(-> & p & m & Hp & Hc & Hq)|(i & m & -> & Hi & Hb & Hx)].
  - assert (p = a) as -> by eauto using fin_unique. by simplify_eq.
  - assert (a <> root_addr) as Hne.
    { intros ->. apply at_path_length in Hi. rewrite (proj2 (fin_nil _ _ Ha)) in Hi by done.
      simpl in Hi. lia. }
    destruct (at_path_unique _ _ _ _ _ Hi (fin_at _ _ Ha Hne)) as [-> ->]. simplify_eq.
    apply lookup_lt_Some in Hx. rewrite locals_length in Hx. lia.
Qed.

Lemma extend_mid a n i b j q x : heap sh !! a = Some n -> S i < length (edge n) ->
  at_path sh base a i q -> at_path sh base b j (q ++ [x]) ->
  b = a /\ j = S i /\ locals n !! S i = Some x.
Proof.
  intros Ha Hi Hq H.
  destruct (at_pred _ _ _ _ H) as [(-> & p & m & Hp & Hc & Hq')|(k & m & -> & Hk & Hb & Hx)].
  - assert (p <> root_addr) as Hne.
    { intros ->. apply at_path_length in Hq. rewrite (proj2 (fin_nil _ _ Hp)) in Hq' by done.
      subst q. simpl in Hq. lia. }
    pose proof (fin_at _ _ Hp Hne) as Hfin. rewrite Hq' in Hfin.
    destruct (at_path_unique _ _ _ _ _ Hq Hfin) as [-> ->]. simplify_eq. lia.
  - destruct (at_path_unique _ _ _ _ _ Hk Hq) as [-> ->]. by simplify_eq.
Qed.

Lemma at_prefix q1 q2 a i : q1 <> [] -> at_path sh base a i (q1 ++ q2) ->
  exists b j, at_path sh base b j q1.
Proof.
  intros Hne. revert a i. induction q2 as [|x q2 IH] using rev_ind; intros a i H.
  - rewrite app_nil_r in H. eauto.
  - rewrite (assoc_L (++)) in H.
    destruct (at_pred _ _ _ _ H) as [(_ & p & m & Hp & _ & Hq)|(k & _ & _ & Hk & _)]; [|eauto].
    assert (p <> root_addr) as Hp'.
    { intros ->. rewrite (proj2 (fin_nil _ _ Hp)) in Hq by done. symmetry in Hq.
      apply app_eq_nil in Hq as [-> _]. done. }
    apply (IH p (pred (length (edge m)))). rewrite <- Hq. by apply fin_at.
Qed.

End tree.

(** ** Splitting an edge *)

Lemma set_fold_anchor node (m : gmap string nat) (X : gset string) seq :
  set_fold (fun seq m => <[seq := node]> m) m X !! seq =
    if decide (seq ∈ X) then Some node else m !! seq.
Proof.
  revert seq. pose (P := fun (r : gmap string nat) (X : gset string) => forall seq, r !! seq =
    if decide (seq ∈ X) then Some node else m !! seq).
  apply (set_fold_ind_L P); [intros seq; by rewrite decide_False by set_solver|].
  intros x Y r Hx IH seq. destruct (decide (seq = x)) as [->|].
  - rewrite lookup_insert_eq, decide_True by set_solver. done.
  - rewrite lookup_insert_ne, IH by done.
    destruct (decide (seq ∈ Y)); [rewrite decide_True by set_solver|rewrite decide_False by set_solver];
      done.
Qed.

Lemma reanchor_in blocks node m seq i al l :
  blocks !! i = Some (al, l) -> seq ∈ al -> reanchor blocks node m !! seq = Some node.
Proof.
  unfold reanchor. intros Hi Hseq. revert m. assert (forall bs (m : gmap string nat),
    m !! seq = Some node ->
    foldl (fun m (b : EdgeBlock) => set_fold (fun seq m => <[seq := node]> m) m b.1) m bs !! seq =
      Some node) as Hkeep.
  { induction bs as [|b bs IH]; intros m Hm; [done|]. simpl. apply IH.
    rewrite set_fold_anchor, Hm. by case_decide. }
  revert i Hi. induction blocks as [|b blocks IH]; intros [|i] Hi m; simplify_eq/=; [|by eapply IH].
  apply Hkeep. by rewrite set_fold_anchor, decide_True.
Qed.

Lemma reanchor_out blocks node m seq :
  (forall i al l, blocks !! i = Some (al, l) -> seq ∉ al) -> reanchor blocks node m !! seq = m !! seq.
Proof.
  unfold reanchor. revert m. induction blocks as [|[al l] blocks IH]; intros m Hout; [done|].
  simpl. rewrite IH, set_fold_anchor, decide_False; [done|by apply (Hout 0 al l)|].
  intros i. apply (Hout (S i)).
Qed.

Section split.
Context (sh : GroupShard) (base : nat -> list string) (abs : Abs) (a : nat) (c : TreeNode) (pos : nat).
Context (Hinv : shard_inv sh base abs) (Ha : heap sh !! a = Some c) (Hpos : 0 < pos < length (edge c)).

Let r := next_addr sh.
Let base' := <[r := base a ++ take pos (locals c)]> base.

Lemma split_result : exists x,
  locals c !! pos = Some x /\
  split_locked c pos sh =
    Some (MkNode (take pos (edge c)) (take pos (claims c)) {[ x := r ]},
          MkShard (<[r := MkNode (drop pos (edge c)) (drop pos (claims c)) (children c)]> (heap sh))
            (S r) (reanchor (drop pos (edge c)) r (anchors sh)) (reverse sh) (counts sh)).
Proof.
  destruct (edge c !! pos) as [[al x]|] eqn:Hx; [|apply lookup_ge_None in Hx; lia].
  exists x. unfold locals. rewrite list_lookup_fmap, Hx. split; [done|].
  unfold split_locked. by rewrite (drop_S _ _ _ Hx).
Qed.

Lemma split_addr : a <> root_addr /\ a <> r /\ r <> root_addr /\
  forall d n, heap sh !! d = Some n -> d <> r.
Proof.
  pose proof (inv_tree _ _ _ Hinv) as Ht.
  assert (forall d n, heap sh !! d = Some n -> d <> r) as Hr
    by (intros d n Hd ->; apply (tree_fresh _ _ Ht) in Hd; unfold r in Hd; lia).
  destruct (tree_root _ _ Ht) as (n & Hn & He). split_and!; [|by eapply Hr|by eapply not_eq_sym, Hr|done].
  intros ->. simplify_eq. rewrite He in Hpos. simpl in Hpos. lia.
Qed.
Lemma split_tree x c' sh' :
  locals c !! pos = Some x -> split_locked c pos sh = Some (c', sh') ->
  tree_inv (write_node a c' sh') base'.
Proof.
  intros Hx Hs. destruct split_result as (x' & Hx' & Hs'). rewrite Hs' in Hs. simplify_eq.
  destruct split_addr as (Har & Hra & Hr0 & Hold). pose proof (inv_tree _ _ _ Hinv) as Ht.
  assert (forall d n, heap sh !! d = Some n -> base' d = base d) as Hbase
    by (intros d n Hd; apply fn_lookup_insert_ne; apply not_eq_sym; eauto).
  assert (base' r = base a ++ take pos (locals c)) as Hbr by apply fn_lookup_insert.
  assert (pos < length (locals c)) by (rewrite locals_length; lia).
  assert (forall b m l, heap sh !! b = Some m -> head (locals m) = Some l ->
    exists m', heap (write_node a
      (MkNode (take pos (edge c)) (take pos (claims c)) {[x := r]})
      (MkShard (<[r := MkNode (drop pos (edge c)) (drop pos (claims c)) (children c)]> (heap sh))
         (S r) (reanchor (drop pos (edge c)) r (anchors sh)) (reverse sh) (counts sh))) !! b = Some m' /\
      head (locals m') = Some l) as Hhead.
  { intros b m l Hb Hl. simpl. destruct (decide (b = a)) as [->|Hba].
    - rewrite lookup_insert_eq. eexists. split; [done|]. simplify_eq. unfold locals in *. simpl.
      rewrite fmap_take, head_lookup, lookup_take_lt by lia. by rewrite <- head_lookup.
    - rewrite !lookup_insert_ne by (done || eapply not_eq_sym; eauto). eauto. }
  split; simpl in *.
  - intros d n [[-> _]|[Hne [[<- _]|[_ Hd]]%lookup_insert_Some]]%lookup_insert_Some.
    + apply (tree_fresh _ _ Ht) in Ha. fold r in Ha. lia.
    + lia.
    + apply (tree_fresh _ _ Ht) in Hd. fold r in Hd. lia.
  - destruct (tree_root _ _ Ht) as (n & Hn & He). exists n. by rewrite !lookup_insert_ne.
  - destruct (tree_root _ _ Ht) as (n & Hn & He). rewrite (Hbase _ _ Hn). apply Ht.
  - pose proof (tree_len _ _ Ht _ _ Ha).
    intros d n [[-> <-]|[Hne [[<- <-]|[_ Hd]]%lookup_insert_Some]]%lookup_insert_Some; simpl.
    + rewrite !length_take. lia.
    + rewrite !length_drop. lia.
    + by apply (tree_len _ _ Ht _ _ Hd).
  - intros d n [[-> <-]|[Hne [[<- <-]|[_ Hd]]%lookup_insert_Some]]%lookup_insert_Some Hd0; simpl.
    + intros Hnil%(f_equal length). rewrite length_take in Hnil. simpl in Hnil. lia.
    + intros Hnil%(f_equal length). rewrite length_drop in Hnil. simpl in Hnil. lia.
    + by apply (tree_edge _ _ Ht _ _ Hd).
  - intros d n l b [[-> <-]|[Hne [[<- <-]|[_ Hd]]%lookup_insert_Some]]%lookup_insert_Some Hb; simpl in Hb.
    + apply lookup_singleton_Some in Hb as [<- <-]. rewrite (Hbase _ _ Ha), Hbr. split.
      * unfold locals. simpl. by rewrite fmap_take.
      * rewrite lookup_insert_ne, lookup_insert_eq by done. eexists. split; [done|].
        unfold locals in *. simpl. by rewrite fmap_drop, head_lookup, lookup_drop, Nat.add_0_r.
    + destruct (tree_child _ _ Ht _ _ _ _ Ha Hb) as [Hbb (m & Hm & Hl)]. split; [|eauto].
      rewrite (Hbase _ _ Hm), Hbr, Hbb, <- (assoc_L (++)). f_equal. unfold locals. simpl.
      by rewrite fmap_drop, take_drop.
    + destruct (tree_child _ _ Ht _ _ _ _ Hd Hb) as [Hbb (m & Hm & Hl)]. split; [|eauto].
      by rewrite (Hbase _ _ Hm), (Hbase _ _ Hd).
  - intros b m Hb Hb0. destruct (decide (b = r)) as [->|Hbr'].
    + exists a. eexists _, x. rewrite lookup_insert_eq. split; [done|]. simpl. by rewrite lookup_singleton_eq.
    + assert (exists m', heap sh !! b = Some m') as [m' Hm'].
      { destruct (decide (b = a)) as [->|]; [eauto|]. rewrite !lookup_insert_ne in Hb by done. eauto. }
      destruct (tree_parent _ _ Ht _ _ Hm' Hb0) as (p & n & l & Hp & Hc).
      destruct (decide (p = a)) as [->|Hpa].
      * exists r. eexists _, l. rewrite lookup_insert_ne, lookup_insert_eq by done. simplify_eq. done.
      * exists p, n, l. rewrite !lookup_insert_ne by (done || eapply not_eq_sym; eauto). done.
Qed.
(** No alias of a block that stays on [c] is re-anchored. *)
Lemma split_stays d n i al l seq : heap sh !! d = Some n -> edge n !! i = Some (al, l) -> seq ∈ al ->
  (d = a -> i < pos) -> forall j al' l', drop pos (edge c) !! j = Some (al', l') -> seq ∉ al'.
Proof.
  intros Hd Hi Hseq Hda j al' l' Hj Hseq'. rewrite lookup_drop in Hj.
  destruct (inv_alias _ _ _ Hinv _ _ _ _ _ _ Hd Hi Hseq) as [H1 H2].
  destruct (inv_alias _ _ _ Hinv _ _ _ _ _ _ Ha Hj Hseq') as [H3 H4].
  rewrite H1 in H3. injection H3 as ->. rewrite Ha in Hd. injection Hd as <-.
  specialize (Hda eq_refl). rewrite H2 in H4. injection H4 as H4.
  apply (f_equal length) in H4. rewrite !length_app, !length_take, locals_length in H4.
  apply lookup_lt_Some in Hi. apply lookup_lt_Some in Hj. lia.
Qed.

Lemma split_inv c' sh' : split_locked c pos sh = Some (c', sh') ->
  shard_inv (write_node a c' sh') base' abs.
Proof.
  intros Hs. destruct split_result as (x & Hx & Hs').
  pose proof (split_tree x c' sh' Hx Hs) as Htree. rewrite Hs' in Hs. simplify_eq.
  destruct split_addr as (Har & Hra & Hr0 & Hold).
  assert (forall d n, heap sh !! d = Some n -> base' d = base d) as Hbase
    by (intros d n Hd; apply fn_lookup_insert_ne; apply not_eq_sym; eauto).
  assert (base' r = base a ++ take pos (locals c)) as Hbr by apply fn_lookup_insert.
  assert (forall i, locals c = take pos (locals c) ++ drop pos (locals c) /\
    take (S (pos + i)) (locals c) = take pos (locals c) ++ take (S i) (drop pos (locals c))) as Htd.
  { intros i. rewrite take_drop. split; [done|]. rewrite take_take_drop. f_equal. lia. }
  split; simpl; [done|..].
  - intros d n i al l seq
      [[<- <-]|[Hne [[<- <-]|[_ Hd]]%lookup_insert_Some]]%lookup_insert_Some Hi Hseq; simpl in Hi.
    + apply lookup_take_Some in Hi as [Hi Hlt].
      destruct (inv_alias _ _ _ Hinv _ _ _ _ _ _ Ha Hi Hseq) as [H1 H2].
      rewrite reanchor_out by (eapply split_stays; eauto). split; [done|].
      rewrite (Hbase _ _ Ha), H2. unfold locals. simpl. rewrite fmap_take, take_take.
      by rewrite Nat.min_l by lia.
    + rewrite (reanchor_in _ _ _ _ _ _ _ Hi Hseq). split; [done|]. rewrite lookup_drop in Hi.
      destruct (inv_alias _ _ _ Hinv _ _ _ _ _ _ Ha Hi Hseq) as [H1 H2].
      rewrite H2, Hbr, <- (assoc_L (++)), (proj2 (Htd i)). unfold locals. simpl. by rewrite fmap_drop.
    + destruct (inv_alias _ _ _ Hinv _ _ _ _ _ _ Hd Hi Hseq) as [H1 H2].
      rewrite reanchor_out by (eapply split_stays; eauto; intros ->; done).
      by rewrite (Hbase _ _ Hd).
  - intros seq Hseq. destruct (inv_anchor _ _ _ Hinv seq Hseq) as (d & n & i & al & l & H1 & Hd & Hi & Hal).
    destruct (decide (d = a)) as [->|Hda]; [destruct (decide (i < pos)) as [Hlt|Hge]|].
    + exists a. eexists _, i, al, l. rewrite lookup_insert_eq, reanchor_out by (eapply split_stays; eauto).
      split_and!; [done|done| |done]. simplify_eq. simpl. by rewrite lookup_take_lt.
    + assert (drop pos (edge c) !! (i - pos) = Some (al, l)) as Hdrop.
      { rewrite lookup_drop. simplify_eq. rewrite <- Hi. f_equal. lia. }
      exists r. eexists _, (i - pos), al, l. rewrite (reanchor_in _ _ _ _ _ _ _ Hdrop Hal).
      rewrite lookup_insert_ne, lookup_insert_eq by done. done.
    + exists d, n, i, al, l. rewrite reanchor_out by (eapply split_stays; eauto; intros ->; done).
      rewrite !lookup_insert_ne by (done || eapply not_eq_sym; eauto). done.
  - intros seq Hseq. apply (inv_known _ _ _ Hinv).
    destruct (anchors sh !! seq) eqn:E; [done|]. rewrite reanchor_out, E in Hseq; [done|].
    intros j al l Hj Hal. rewrite lookup_drop in Hj.
    destruct (inv_alias _ _ _ Hinv _ _ _ _ _ _ Ha Hj Hal). congruence.
  - intros d n i al l cs
      [[<- <-]|[Hne [[<- <-]|[_ Hd]]%lookup_insert_Some]]%lookup_insert_Some Hi Hcs; simpl in *.
    + apply lookup_take_Some in Hi as [Hi _]. apply lookup_take_Some in Hcs as [Hcs _].
      by eapply (inv_claims _ _ _ Hinv).
    + rewrite lookup_drop in Hi. rewrite lookup_drop in Hcs. by eapply (inv_claims _ _ _ Hinv).
    + by eapply (inv_claims _ _ _ Hinv).
  - apply Hinv.
  - apply Hinv.
  - apply Hinv.
Qed.

(** What the split leaves of the node, and the path it now ends at. *)
Lemma split_fin c' sh' : split_locked c pos sh = Some (c', sh') ->
  base' a = base a /\ locals c' = take pos (locals c).
Proof.
  intros Hs. destruct split_result as (x & Hx & Hs'). rewrite Hs' in Hs. simplify_eq.
  destruct split_addr as (_ & Hra & _). split; [by apply fn_lookup_insert_ne, not_eq_sym|].
  unfold locals. simpl. by rewrite fmap_take.
Qed.
End split.

(** ** Recording a block *)

(** Rewriting a node without changing its local hashes and children. *)
Lemma tree_inv_same sh sh' base a n n' :
  tree_inv sh base -> heap sh !! a = Some n -> heap sh' = <[a := n']> (heap sh) ->
  next_addr sh' = next_addr sh -> locals n' = locals n -> children n' = children n ->
  length (claims n') = length (edge n') -> tree_inv sh' base.
Proof.
  intros Ht Ha Hheap Hnext Hloc Hch Hlen.
  assert (forall b m, heap sh' !! b = Some m -> exists m0, heap sh !! b = Some m0 /\
    locals m = locals m0 /\ children m = children m0 /\ (a <> b -> m = m0)) as Hback.
  { intros b m. rewrite Hheap. intros [[<- <-]|[Hne Hb]]%lookup_insert_Some; [|eauto 10].
    exists n. split_and!; done. }
  assert (forall b m0, heap sh !! b = Some m0 -> exists m, heap sh' !! b = Some m /\
    locals m = locals m0 /\ children m = children m0) as Hforth.
  { intros b m0 Hb. rewrite Hheap. destruct (decide (a = b)) as [<-|].
    - rewrite lookup_insert_eq. exists n'. simplify_eq. done.
    - rewrite lookup_insert_ne by done. eauto. }
  split.
  - intros b m (m0 & Hb & _)%Hback. rewrite Hnext. by eapply (tree_fresh _ _ Ht).
  - destruct (tree_root _ _ Ht) as (m0 & Hr & He).
    destruct (Hforth _ _ Hr) as (m & Hm & Hl & _). exists m. split; [done|].
    unfold locals in Hl. rewrite He in Hl. by apply fmap_nil_inv in Hl.
  - apply Ht.
  - intros b m Hb. rewrite Hheap in Hb. apply lookup_insert_Some in Hb as [[<- <-]|[_ Hb]]; [done|].
    by eapply (tree_len _ _ Ht).
  - intros b m (m0 & Hb & Hl & _)%Hback Hne Hnil. apply (tree_edge _ _ Ht _ _ Hb Hne).
    apply (fmap_nil_inv snd). change (locals m0 = []). rewrite <- Hl. unfold locals. by rewrite Hnil.
  - intros b m l d (m0 & Hb & Hl & Hc & _)%Hback Hd. rewrite Hc in Hd.
    destruct (tree_child _ _ Ht _ _ _ _ Hb Hd) as [Hbase (k0 & Hk & Hh)].
    rewrite Hl. split; [done|]. destruct (Hforth _ _ Hk) as (k & ? & Hlk & _). exists k.
    by rewrite Hlk.
  - intros b m (m0 & Hb & _)%Hback Hne.
    destruct (tree_parent _ _ Ht _ _ Hb Hne) as (p & q & l & Hp & Hc).
    destruct (Hforth _ _ Hp) as (q' & ? & _ & Hq'). exists p, q', l. by rewrite Hq'.
Qed.

Section record.
Context (sh : GroupShard) (base : nat -> list string) (abs : Abs) (a : nat) (n : TreeNode).
Context (i : nat) (al : gset string) (l : string) (cs : list OwnerTier) (key : OwnerTier) (seq : string).
Context (Hinv : shard_inv sh base abs) (Ha : heap sh !! a = Some n).
Context (Hi : edge n !! i = Some (al, l)) (Hcs : claims n !! i = Some cs).

Let q := base a ++ take (S i) (locals n).
Context (Hq : paths abs !! seq = None \/ paths abs !! seq = Some q).

Let n' := MkNode (<[i := ({[ seq ]} ∪ al, l)]> (edge n))
  (<[i := if decide (key ∈ cs) then cs else cs ++ [key]]> (claims n)) (children n).
Let abs' := MkAbs (<[seq := q]> (paths abs)) ({[ (key, seq) ]} ∪ active abs).

Lemma record_locals : locals n' = locals n.
Proof.
  unfold locals, n'. simpl. rewrite list_fmap_insert. apply list_insert_id. simpl.
  by rewrite list_lookup_fmap, Hi.
Qed.

(** Only block [i] of node [a] can have [seq] as an alias. *)
Lemma record_alias_here d m j al' l' : heap sh !! d = Some m -> edge m !! j = Some (al', l') ->
  seq ∈ al' -> d = a /\ j = i.
Proof.
  intros Hd Hj Hseq. destruct (inv_alias _ _ _ Hinv _ _ _ _ _ _ Hd Hj Hseq) as [_ Hp].
  destruct Hq as [Hq'|Hq']; [congruence|]. rewrite Hp in Hq'. injection Hq' as Hq'.
  eapply (at_path_unique sh base); [by apply Hinv| |].
  - exists m. split_and!; [done|by eapply lookup_lt_Some|reflexivity].
  - exists n. split_and!; [done|by eapply lookup_lt_Some|]. by rewrite Hq'.
Qed.

(** A block of the new heap, in terms of the old one. *)
Lemma record_block d m j al' l' :
  <[a := n']> (heap sh) !! d = Some m -> edge m !! j = Some (al', l') ->
  exists m0 al0, heap sh !! d = Some m0 /\ edge m0 !! j = Some (al0, l') /\ locals m = locals m0 /\
    al' = (if decide (d = a /\ j = i) then {[ seq ]} ∪ al0 else al0).
Proof.
  intros [[<- <-]|[Hne Hd]]%lookup_insert_Some Hj.
  - exists n. rewrite record_locals. simpl in Hj.
    apply list_lookup_insert_Some in Hj as [(<- & [= <- <-] & _)|[Hji Hj]].
    + exists al. by rewrite decide_True.
    + exists al'. rewrite decide_False by naive_solver. done.
  - exists m, al'. rewrite decide_False by naive_solver. done.
Qed.

Lemma record_reverse key' : reverse_of (record_maps seq a key sh) key' =
  if decide (key' = key) then {[ seq ]} ∪ reverse_of sh key else reverse_of sh key'.
Proof.
  unfold reverse_of at 1, record_maps. simpl.
  destruct (decide (key' = key)) as [->|]; [by rewrite lookup_insert_eq|].
  by rewrite lookup_insert_ne.
Qed.

Lemma record_counts key' : counts (record_maps seq a key sh) !! key' =
  if decide (reverse_of (record_maps seq a key sh) key' = ∅) then None
  else Some (N.of_nat (size (reverse_of (record_maps seq a key sh) key'))).
Proof.
  rewrite record_reverse. pose proof (inv_counts _ _ _ Hinv) as Hc. unfold record_maps. simpl.
  destruct (decide (key' = key)) as [->|Hne].
  - rewrite (decide_False (P := _ ∪ _ = ∅)) by set_solver. destruct (decide (seq ∈ reverse_of sh key)).
    + rewrite Hc, decide_False by set_solver. do 3 f_equal. set_solver.
    + rewrite lookup_insert_eq, Hc. do 2 f_equal. rewrite size_union, size_singleton by set_solver.
      destruct (decide (reverse_of sh key = ∅)) as [->|]; simpl; [done|lia].
  - rewrite <- Hc. case_decide; [done|]. by rewrite lookup_insert_ne.
Qed.

Lemma record_claims d m j al' l' cs' key' :
  <[a := n']> (heap sh) !! d = Some m -> edge m !! j = Some (al', l') -> claims m !! j = Some cs' ->
  key' ∈ cs' <-> exists s, s ∈ al' /\ (key', s) ∈ active abs'.
Proof.
  intros Hd Hj Hcs'. destruct (record_block _ _ _ _ _ Hd Hj) as (m0 & al0 & Hd0 & Hj0 & _ & ->). simpl.
  destruct (decide (d = a /\ j = i)) as [[-> ->]|Hno].
  - rewrite Ha in Hd0. injection Hd0 as <-. rewrite Hi in Hj0. injection Hj0 as <- <-.
    rewrite lookup_insert_eq in Hd. injection Hd as <-. simpl in Hcs'.
    rewrite list_lookup_insert_eq in Hcs' by (by eapply lookup_lt_Some). injection Hcs' as <-.
    pose proof (inv_claims _ _ _ Hinv _ _ _ _ _ _ Ha Hi Hcs) as Hold.
    assert (key' ∈ (if decide (key ∈ cs) then cs else cs ++ [key]) <-> key' ∈ cs \/ key' = key) as ->
      by (case_decide; set_solver).
    rewrite Hold. split; [set_solver|]. intros (s & Hs & Hact).
    apply elem_of_union in Hact as [[= -> ->]%elem_of_singleton|Hact]; [by right|]. left.
    apply elem_of_union in Hs as [->%elem_of_singleton|Hs]; [|eauto].
    destruct (inv_anchor _ _ _ Hinv seq) as (d & m & j & al' & l'' & _ & Hd & Hj' & Hal).
    { by eapply (inv_active _ _ _ Hinv). }
    destruct (record_alias_here _ _ _ _ _ Hd Hj' Hal) as [-> ->]. simplify_eq. eauto.
  - assert (claims m0 !! j = Some cs') as Hcs0.
    { apply lookup_insert_Some in Hd as [[<- <-]|[_ Hd]]; [|congruence]. simplify_eq.
      simpl in Hcs'. rewrite list_lookup_insert_ne in Hcs'; [done|]. naive_solver. }
    rewrite (inv_claims _ _ _ Hinv _ _ _ _ _ _ Hd0 Hj0 Hcs0). split; [set_solver|].
    intros (s & Hs & [[= -> ->]%elem_of_singleton|Hact]%elem_of_union); [|eauto].
    destruct Hno. by eapply record_alias_here.
Qed.

Lemma record_one : shard_inv (write_node a n' (record_maps seq a key sh)) base abs'.
Proof.
  pose proof (tree_len _ _ (inv_tree _ _ _ Hinv) _ _ Ha) as Hlen. split.
  - eapply (tree_inv_same sh); [apply Hinv|exact Ha|done|done|apply record_locals|done|].
    simpl. by rewrite !length_insert.
  - intros d m j al' l' s Hd Hj Hs. simpl in Hd.
    destruct (record_block _ _ _ _ _ Hd Hj) as (m0 & al0 & Hd0 & Hj0 & -> & ->). simpl.
    destruct (decide (s = seq)) as [->|Hne].
    + rewrite !lookup_insert_eq. assert (d = a /\ j = i) as [-> ->].
      { case_decide; [done|]. by eapply record_alias_here. } by simplify_eq.
    + rewrite !lookup_insert_ne by done. eapply (inv_alias _ _ _ Hinv); [done|done|].
      case_decide; set_solver.
  - intros s Hs. simpl in *. destruct (decide (s = seq)) as [->|Hne].
    + exists a, n', i. eexists _, l. rewrite !lookup_insert_eq. split_and!; [done|done| |].
      * simpl. rewrite list_lookup_insert_eq; [done|]. by eapply lookup_lt_Some.
      * set_solver.
    + rewrite lookup_insert_ne in Hs by done. rewrite lookup_insert_ne by done.
      destruct (inv_anchor _ _ _ Hinv s Hs) as (d & m & j & al' & l' & H1 & Hd & Hj & Hal).
      destruct (decide (d = a)) as [->|Hda].
      * exists a, n', j. rewrite lookup_insert_eq. destruct (decide (j = i)) as [->|Hji].
        -- eexists _, l. split_and!; [done|done| |].
           ++ simpl. rewrite list_lookup_insert_eq; [done|]. by eapply lookup_lt_Some.
           ++ simplify_eq. set_solver.
        -- exists al', l'. split_and!; [done|done| |done]. simpl.
           rewrite list_lookup_insert_ne by done. by simplify_eq.
      * exists d, m, j, al', l'. by rewrite lookup_insert_ne.
  - intros s Hs. simpl in *. destruct (decide (s = seq)) as [->|Hne]; [by rewrite lookup_insert_eq|].
    rewrite lookup_insert_ne in Hs by done. rewrite lookup_insert_ne by done.
    by apply (inv_known _ _ _ Hinv).
  - intros d m j al' l' cs' Hd Hj Hcs' key'. by eapply record_claims.
  - intros key' s. change (reverse_of (write_node a n' (record_maps seq a key sh)) key') with
      (reverse_of (record_maps seq a key sh) key'). rewrite record_reverse. simpl.
    pose proof (inv_reverse _ _ _ Hinv). case_decide; set_solver.
  - intros key' s. simpl. destruct (decide (s = seq)) as [->|Hne]; [by rewrite lookup_insert_eq|].
    rewrite lookup_insert_ne by done. intros Hs. eapply (inv_active _ _ _ Hinv key'). set_solver.
  - intros key'. apply record_counts.
Qed.
End record.

Lemma write_write a n n' sh : write_node a n' (write_node a n sh) = write_node a n' sh.
Proof. unfold write_node. simpl. by rewrite insert_insert_eq. Qed.

Lemma write_comm a b n m sh : a <> b ->
  write_node a n (write_node b m sh) = write_node b m (write_node a n sh).
Proof. intros. unfold write_node. simpl. by rewrite insert_insert_ne. Qed.

(** Recording a run of blocks on a node whose local hashes they match. *)
Lemma record_from_inv base a key blocks i n sh abs :
  shard_inv (write_node a n sh) base abs ->
  contract (base a ++ take i (locals n)) blocks (paths abs) ->
  (forall j b, blocks !! j = Some b -> locals n !! (i + j) = Some b.2) ->
  exists n' sh', record_from i blocks a key n sh = Some (n', sh') /\
    heap sh' = heap sh /\ next_addr sh' = next_addr sh /\
    locals n' = locals n /\ children n' = children n /\
    shard_inv (write_node a n' sh') base (abs_record key (base a ++ take i (locals n)) blocks abs).
Proof.
  revert i n sh abs. induction blocks as [|[seq l] blocks IH]; intros i n sh abs Hinv Hcon Hloc.
  { exists n, sh. done. }
  simpl in Hcon. destruct Hcon as [Hq Hcon].
  pose proof (Hloc 0 _ eq_refl) as Hl. rewrite Nat.add_0_r in Hl. simpl in Hl.
  rewrite <- (assoc_L (++)), <- (take_S_r _ _ _ Hl) in Hq, Hcon.
  unfold locals in Hl. rewrite list_lookup_fmap in Hl.
  destruct (edge n !! i) as [[al l0]|] eqn:Hi; [|done]. simpl in Hl. injection Hl as ->.
  assert (heap (write_node a n sh) !! a = Some n) as Ha by apply lookup_insert_eq.
  pose proof (tree_len _ _ (inv_tree _ _ _ Hinv) _ _ Ha) as Hlen.
  destruct (claims n !! i) as [cs|] eqn:Hcs;
    [|apply lookup_ge_None in Hcs; apply lookup_lt_Some in Hi; lia].
  pose proof (record_one _ _ _ _ _ i al l cs key seq Hinv Ha Hi Hcs Hq) as H1.
  pose proof (record_locals n i al l cs key seq Hi) as Hln.
  assert (locals n !! i = Some l) as Hl by (unfold locals; by rewrite list_lookup_fmap, Hi).
  simpl. rewrite Hi, Hcs. simpl.
  change (record_maps seq a key (write_node a n sh)) with
    (write_node a n (record_maps seq a key sh)) in H1. rewrite write_write in H1.
  destruct (IH (S i) _ (record_maps seq a key sh) _ H1) as (n' & sh' & -> & Hh & Hn & Hl' & Hc' & Hinv').
  - by rewrite Hln.
  - intros j b Hj. rewrite Hln. rewrite Nat.add_succ_comm. by apply Hloc.
  - exists n', sh'. rewrite Hl', Hln. split_and!; [done|done|done|done|done|].
    rewrite Hln in Hinv'. by rewrite (take_S_r _ _ _ Hl), (assoc_L (++)) in Hinv'.
Qed.

(** Recording does not read the heap. *)
Lemma record_from_write p m a key blocks i n sh :
  record_from i blocks a key n (write_node p m sh) =
    (fun r => (r.1, write_node p m r.2)) <$> record_from i blocks a key n sh.
Proof.
  revert i n sh. induction blocks as [|[seq l] blocks IH]; intros i n sh; [done|]. simpl.
  destruct (edge n !! i) as [[al l0]|]; [|done]. simpl.
  destruct (claims n !! i) as [cs|]; [|done]. simpl.
  change (record_maps seq a key (write_node p m sh)) with
    (write_node p m (record_maps seq a key sh)). apply IH.
Qed.

(** [with_edge] already lists the keys that recording adds. *)
Lemma record_fresh key a blocks E C ch sh :
  record_from (length E) blocks a key
    (MkNode (E ++ ((fun b => ({[ b.1 ]}, b.2)) <$> blocks)) C ch) sh =
  record_from (length E) blocks a key (MkNode (E ++ bare blocks) C ch) sh.
Proof.
  revert E C sh. induction blocks as [|[seq l] blocks IH]; intros E C sh; [done|].
  cbn [record_from]. unfold bare. rewrite !fmap_cons. simpl.
  rewrite !list_lookup_middle by done. simpl. destruct (C !! length E) as [cs|]; [|done]. simpl.
  rewrite !insert_app_r_alt, !Nat.sub_diag by done. simpl.
  assert ({[seq]} ∪ {[seq]} = ({[seq]} ∪ ∅ : gset string)) as -> by set_solver.
  specialize (IH (E ++ [({[seq]} ∪ ∅, l)])). rewrite length_app, Nat.add_1_r in IH.
  setoid_rewrite <- (assoc_L (++)) in IH. apply IH.
Qed.

(** ** Appending a child *)

Section add_child.
Context (sh : GroupShard) (base : nat -> list string) (abs : Abs) (p : nat) (n : TreeNode).
Context (blocks rest : list IncomingBlock) (seq l : string).
Context (Hinv : shard_inv sh base abs) (Hp : heap sh !! p = Some n).
Context (Hblocks : blocks = (seq, l) :: rest) (Hnone : children n !! l = None).

Let r := next_addr sh.
Let n' := MkNode (edge n) (claims n) (<[l := r]> (children n)).
Let m := MkNode (bare blocks) ((fun _ => []) <$> blocks) ∅.
Let sh' := write_node p n' (write_node r m (bump sh)).
Let base' := <[r := base p ++ locals n]> base.

Lemma add_child_old d k : heap sh !! d = Some k -> d <> r /\ base' d = base d.
Proof.
  intros Hd. assert (d <> r) by (intros ->; apply (tree_fresh _ _ (inv_tree _ _ _ Hinv)) in Hd; unfold r in Hd; lia).
  split; [done|]. by apply fn_lookup_insert_ne, not_eq_sym.
Qed.

(** A node of the new heap: the fresh one, or an old one with its children. *)
Lemma add_child_back d k : heap sh' !! d = Some k ->
  (d = r /\ k = m) \/
  (exists k0, heap sh !! d = Some k0 /\ edge k = edge k0 /\ claims k = claims k0 /\
    forall x b, children k !! x = Some b -> children k0 !! x = Some b \/ (d = p /\ x = l /\ b = r)).
Proof.
  unfold sh'. simpl. intros [[<- <-]|[Hne [[<- <-]|[_ Hd]]%lookup_insert_Some]]%lookup_insert_Some;
    [|by left|right; eauto 10].
  right. exists n. split_and!; [done..|]. intros x b Hx. simpl in Hx. revert Hx. intros [[<- <-]|[_ Hb]]%lookup_insert_Some; auto.
Qed.

Lemma add_child_forth d k0 : heap sh !! d = Some k0 ->
  exists k, heap sh' !! d = Some k /\ edge k = edge k0 /\ claims k = claims k0 /\
    forall x b, children k0 !! x = Some b -> children k !! x = Some b.
Proof.
  intros Hd. destruct (add_child_old _ _ Hd) as [Hr _]. unfold sh'. simpl.
  destruct (decide (d = p)) as [->|Hne].
  - exists n'. rewrite lookup_insert_eq. simplify_eq. split_and!; [done..|]. intros x b Hb. simpl.
    rewrite lookup_insert_ne; [done|]. congruence.
  - exists k0. by rewrite !lookup_insert_ne by done.
Qed.

Lemma add_child_fresh : heap sh' !! r = Some m /\ base' r = base p ++ locals n /\
  heap sh' !! p = Some n' /\ r <> root_addr.
Proof.
  destruct (add_child_old _ _ Hp) as [Hpr _]. unfold sh'. simpl.
  rewrite lookup_insert_eq, lookup_insert_ne, lookup_insert_eq by done.
  split_and!; [done|apply fn_lookup_insert|done|].
  destruct (tree_root _ _ (inv_tree _ _ _ Hinv)) as (k & Hk & _).
  by apply not_eq_sym, (add_child_old _ _ Hk).
Qed.

Lemma add_child_tree : tree_inv sh' base'.
Proof.
  pose proof (inv_tree _ _ _ Hinv) as Ht. destruct add_child_fresh as (Hr & Hbr & Hp' & Hr0).
  split.
  - intros d k [[-> _]|(k0 & Hd & _)]%add_child_back; simpl; [fold r; lia|].
    apply (tree_fresh _ _ Ht) in Hd. lia.
  - destruct (tree_root _ _ Ht) as (k0 & Hk0 & He).
    destruct (add_child_forth _ _ Hk0) as (k & Hk & Hek & _). exists k. by rewrite Hek.
  - destruct (tree_root _ _ Ht) as (k0 & Hk0 & He). rewrite (proj2 (add_child_old _ _ Hk0)). apply Ht.
  - intros d k [[-> ->]|(k0 & Hd & He & Hc & _)]%add_child_back.
    + simpl. unfold bare. by rewrite !length_fmap.
    + rewrite He, Hc. by apply (tree_len _ _ Ht _ _ Hd).
  - intros d k [[-> ->]|(k0 & Hd & He & _)]%add_child_back Hne.
    + simpl. rewrite Hblocks. done.
    + rewrite He. by apply (tree_edge _ _ Ht _ _ Hd).
  - intros d k x b [[-> ->]|(k0 & Hd & He & _ & Hch)]%add_child_back Hb; [done|].
    unfold locals. rewrite He. rewrite (proj2 (add_child_old _ _ Hd)).
    destruct (Hch _ _ Hb) as [Hb0|(-> & -> & ->)].
    + destruct (tree_child _ _ Ht _ _ _ _ Hd Hb0) as [Hbb (c0 & Hc0 & Hh)].
      rewrite (proj2 (add_child_old _ _ Hc0)). split; [done|].
      destruct (add_child_forth _ _ Hc0) as (c & Hc & Hec & _). exists c. unfold locals. by rewrite Hec.
    + rewrite Hbr. split; [by simplify_eq|]. exists m. split; [done|].
      unfold locals, m, bare. rewrite Hblocks. done.
  - intros d k [[-> ->]|(k0 & Hd & _)]%add_child_back Hne.
    + exists p, n', l. split; [done|]. simpl. by rewrite lookup_insert_eq.
    + destruct (tree_parent _ _ Ht _ _ Hd Hne) as (e & k' & x & He & Hx).
      destruct (add_child_forth _ _ He) as (k'' & ? & _ & _ & Hch). eauto 10.
Qed.

Lemma add_child_inv : shard_inv sh' base' abs.
Proof.
  destruct add_child_fresh as (Hr & Hbr & Hp' & Hr0).
  assert (forall i al x, edge m !! i = Some (al, x) -> al = ∅) as Hm.
  { intros i al x. simpl. unfold bare. rewrite list_lookup_fmap.
    intros (b & _ & [= -> _])%fmap_Some. done. }
  split; [apply add_child_tree|..].
  - intros d k i al x s [[-> ->]|(k0 & Hd & He & _)]%add_child_back Hi Hs.
    + apply Hm in Hi. set_solver.
    + unfold locals. rewrite He in *. rewrite (proj2 (add_child_old _ _ Hd)).
      by eapply (inv_alias _ _ _ Hinv).
  - intros s Hs. destruct (inv_anchor _ _ _ Hinv s Hs) as (d & k0 & i & al & x & H1 & Hd & Hi & Hal).
    destruct (add_child_forth _ _ Hd) as (k & Hk & He & _). exists d, k, i, al, x. by rewrite He.
  - apply Hinv.
  - intros d k i al x cs [[-> ->]|(k0 & Hd & He & Hc & _)]%add_child_back Hi Hcs key.
    + apply Hm in Hi as ->. simpl in Hcs. rewrite list_lookup_fmap in Hcs.
      apply fmap_Some in Hcs as (_ & _ & ->). set_solver.
    + rewrite He in Hi. rewrite Hc in Hcs. by eapply (inv_claims _ _ _ Hinv).
  - apply Hinv.
  - apply Hinv.
  - apply Hinv.
Qed.
End add_child.

(** ** Storing *)

Lemma write_same a n sh : heap sh !! a = Some n -> write_node a n sh = sh.
Proof. intros H. destruct sh. unfold write_node. simpl in *. by rewrite insert_id. Qed.

Lemma alias_position_Some seq e i : alias_position seq e = Some i ->
  exists al l, e !! i = Some (al, l) /\ seq ∈ al.
Proof.
  revert i. induction e as [|[al l] e IH]; intros i H; simplify_eq/=.
  case_decide; simplify_eq/=; [eauto|]. apply fmap_Some in H as (j & Hj & ->). by apply IH.
Qed.

Lemma alias_position_is_Some seq e i al l :
  e !! i = Some (al, l) -> seq ∈ al -> is_Some (alias_position seq e).
Proof.
  revert i. induction e as [|[al' l'] e IH]; intros [|i] Hi Hseq; simplify_eq/=.
  - by rewrite decide_True.
  - case_decide; [done|]. rewrite fmap_is_Some. eauto.
Qed.

(** The block a known key names. *)
Lemma locate_key sh base abs seq p : shard_inv sh base abs -> paths abs !! seq = Some p ->
  exists a n i, anchors sh !! seq = Some a /\ heap sh !! a = Some n /\
    alias_position seq (edge n) = Some i /\ i < length (edge n) /\
    p = base a ++ take (S i) (locals n).
Proof.
  intros Hinv Hp. destruct (inv_anchor _ _ _ Hinv seq) as (a & n & j & al & l & Ha & Hn & Hj & Hal);
    [eauto|].
  destruct (alias_position_is_Some _ _ _ _ _ Hj Hal) as [i Hi].
  destruct (alias_position_Some _ _ _ Hi) as (al' & l' & Hi' & Hal').
  destruct (inv_alias _ _ _ Hinv _ _ _ _ _ _ Hn Hi' Hal') as [_ Hp'].
  exists a, n, i. split_and!; [done..|by eapply lookup_lt_Some|]. congruence.
Qed.

(** The node a store continues from, after the split behind an interior block:
    it ends exactly at the path of the parent. *)
Lemma open_cursor sh base abs cursor p : shard_inv sh base abs -> parent_path abs cursor = Some p ->
  exists node n pos n' sh' base',
    match cursor with Some seq => anchors sh !! seq | None => Some root_addr end = Some node /\
    heap sh !! node = Some n /\
    match cursor with Some seq => Some <$> alias_position seq (edge n) | None => Some None end = Some pos /\
    match pos with
    | Some pos => if S pos <? length (edge n) then split_locked n (S pos) sh else Some (n, sh)
    | None => Some (n, sh)
    end = Some (n', sh') /\
    shard_inv (write_node node n' sh') base' abs /\ base' node ++ locals n' = p.
Proof.
  intros Hinv Hp. destruct cursor as [seq|]; simpl in Hp.
  - destruct (locate_key _ _ _ _ _ Hinv Hp) as (a & n & i & Ha & Hn & Hi & Hlt & ->).
    destruct (Nat.ltb_spec (S i) (length (edge n))) as [Hlt'|Hge].
    + assert (0 < S i < length (edge n)) as Hpos by lia.
      destruct (split_result sh n (S i) Hpos) as (x & Hx & Hs).
      destruct (split_fin sh base abs a n (S i) Hinv Hn Hpos _ _ Hs) as [Hb Hl].
      exists a, n, (Some i). eexists _, _, _. rewrite Hi. apply Nat.ltb_lt in Hlt' as Hlt''.
      rewrite Hlt''. split_and!; [done|done|done|exact Hs| |].
      * by eapply (split_inv sh base abs a n (S i) Hinv Hn Hpos).
      * by rewrite Hb, Hl.
    + exists a, n, (Some i), n, sh, base. rewrite Hi. apply Nat.ltb_ge in Hge as Hge'. rewrite Hge'.
      split_and!; [done..|by rewrite write_same|]. rewrite take_ge; [done|].
      rewrite locals_length. lia.
  - destruct (tree_root _ _ (inv_tree _ _ _ Hinv)) as (n & Hn & He). injection Hp as <-.
    exists root_addr, n, None, n, sh, base. split_and!; [done..|by rewrite write_same|].
    by apply (fin_nil _ _ (inv_tree _ _ _ Hinv) _ _ Hn).
Qed.

Lemma edge_common_prefix_spec e blocks k :
  k = edge_common_prefix e blocks ->
  k <= length e /\ k <= length blocks /\ take k e.*2 = (take k blocks).*2.
Proof.
  intros ->. revert blocks. induction e as [|[al l] e IH]; intros [|[s l'] blocks]; simpl;
    try (split_and!; by (lia || done)).
  case_decide; simpl; [|split_and!; by (lia || done)]. subst.
  destruct (IH blocks) as (H1 & H2 & H3). split_and!; [lia|lia|]. f_equal. exact H3.
Qed.

Lemma edge_common_prefix_pos e blocks l :
  head e.*2 = Some l -> head blocks.*2 = Some l -> 0 < edge_common_prefix e blocks.
Proof.
  destruct e as [|[al l'] e], blocks as [|[s l''] blocks]; intros; simplify_eq/=.
  rewrite decide_True by done. lia.
Qed.

Lemma abs_record_app key base b1 b2 abs :
  abs_record key base (b1 ++ b2) abs = abs_record key (base ++ b1.*2) b2 (abs_record key base b1 abs).
Proof.
  revert base abs. induction b1 as [|[s l] b1 IH]; intros base abs; simpl; [by rewrite app_nil_r|].
  by rewrite IH, <- (assoc_L (++)).
Qed.

Lemma contract_app key base b1 b2 abs :
  contract base (b1 ++ b2) (paths abs) <->
  contract base b1 (paths abs) /\ contract (base ++ b1.*2) b2 (paths (abs_record key base b1 abs)).
Proof.
  revert base abs. induction b1 as [|[s l] b1 IH]; intros base abs; simpl; [rewrite app_nil_r; tauto|].
  specialize (IH (base ++ [l]) (MkAbs (<[s := base ++ [l]]> (paths abs)) ({[(key, s)]} ∪ active abs))).
  simpl in IH. rewrite IH, <- (assoc_L (++)). tauto.
Qed.

(** The path of the last block of a recorded chain. *)
Lemma abs_record_last key base blocks b abs : last blocks = Some b ->
  paths (abs_record key base blocks abs) !! b.1 = Some (base ++ blocks.*2).
Proof.
  intros (b1 & ->)%last_Some. rewrite abs_record_app. destruct b as [s l]. simpl.
  by rewrite lookup_insert_eq, fmap_app, (assoc_L (++)).
Qed.

Lemma store_new_child sh base abs node n key blocks rest seq l :
  shard_inv sh base abs -> heap sh !! node = Some n -> blocks = (seq, l) :: rest ->
  children n !! l = None -> contract (base node ++ locals n) blocks (paths abs) ->
  exists new sh' base',
    record_locked (with_edge blocks) (next_addr sh) key blocks (bump sh) = Some (new, sh') /\
    shard_inv (write_node node (MkNode (edge n) (claims n) (<[l := next_addr sh]> (children n)))
      (write_node (next_addr sh) new sh')) base' (abs_record key (base node ++ locals n) blocks abs).
Proof.
  intros Hinv Hn Hb Hnone Hcon. set (r := next_addr sh).
  set (n' := MkNode (edge n) (claims n) (<[l := r]> (children n))).
  set (m := MkNode (bare blocks) ((fun _ => []) <$> blocks) ∅).
  pose proof (add_child_inv sh base abs node n blocks rest seq l Hinv Hn Hb Hnone) as Hadd.
  destruct (add_child_old sh base abs node n Hinv node n Hn) as [Hne _].
  rewrite write_comm in Hadd by done. fold r n' m in Hadd.
  assert (locals m = blocks.*2) as Hlm.
  { unfold locals, m, bare. simpl. rewrite <- list_fmap_compose. done. }
  destruct (record_from_inv _ r key blocks 0 m (write_node node n' (bump sh)) abs Hadd)
    as (new & sh' & Hrec & _ & _ & _ & _ & Hinv').
  { rewrite take_0, app_nil_r, fn_lookup_insert. done. }
  { intros j b Hj. rewrite Hlm. simpl. by rewrite list_lookup_fmap, Hj. }
  rewrite take_0, app_nil_r, fn_lookup_insert in Hinv'.
  rewrite record_from_write in Hrec. apply fmap_Some in Hrec as ([new0 sh0] & Hrec & [= -> ->]).
  exists new0, sh0. eexists. split.
  - unfold record_locked, with_edge.
    rewrite (record_fresh key r blocks [] ((fun _ => []) <$> blocks) ∅ (bump sh)). exact Hrec.
  - rewrite write_comm; [exact Hinv'|done].
Qed.

(** Following an existing child: the matched blocks end up alone on it. *)
Lemma store_child sh base abs node n key blocks rest seq l child :
  shard_inv sh base abs -> heap sh !! node = Some n -> blocks = (seq, l) :: rest ->
  children n !! l = Some child -> contract (base node ++ locals n) blocks (paths abs) ->
  exists c c' sh' c'' sh'' base' k,
    heap sh !! child = Some c /\ k = edge_common_prefix (edge c) blocks /\ 0 < k <= length blocks /\
    (if k <? length (edge c) then split_locked c k sh else Some (c, sh)) = Some (c', sh') /\
    record_locked c' child key (take k blocks) sh' = Some (c'', sh'') /\
    shard_inv (write_node child c'' sh'') base'
      (abs_record key (base node ++ locals n) (take k blocks) abs).
Proof.
  intros Hinv Hn Hb Hc Hcon.
  destruct (tree_child _ _ (inv_tree _ _ _ Hinv) _ _ _ _ Hn Hc) as [Hbase (c & Hcc & Hl)].
  set (k := edge_common_prefix (edge c) blocks).
  destruct (edge_common_prefix_spec (edge c) blocks k eq_refl) as (Hke & Hkb & Hk).
  assert (0 < k) as Hk0 by (eapply edge_common_prefix_pos; [exact Hl|by rewrite Hb]).
  rewrite <- (take_drop k blocks) in Hcon. apply (contract_app key) in Hcon as [Hcon _].
  rewrite <- Hbase in Hcon |- *.
  assert (exists c' sh' base',
    (if k <? length (edge c) then split_locked c k sh else Some (c, sh)) = Some (c', sh') /\
    shard_inv (write_node child c' sh') base' abs /\ base' child = base child /\
    locals c' = take k (locals c)) as (c' & sh' & base' & Hs & Hinv' & Hb' & Hl').
  { destruct (Nat.ltb_spec k (length (edge c))) as [Hlt|Hge].
    - destruct (split_result sh c k) as (x & Hx & Hs); [lia|].
      destruct (split_fin sh base abs child c k Hinv Hcc ltac:(lia) _ _ Hs) as [??].
      eexists _, _, _. split_and!; [exact Hs| |done|done].
      by eapply (split_inv sh base abs child c k Hinv Hcc ltac:(lia)).
    - exists c, sh, base. split_and!; [done|by rewrite write_same|done|].
      rewrite take_ge; [done|]. rewrite locals_length. lia. }
  destruct (record_from_inv base' child key (take k blocks) 0 c' sh' abs Hinv')
    as (c'' & sh'' & Hrec & _ & _ & _ & _ & Hinv'').
  { by rewrite take_0, app_nil_r, Hb'. }
  { intros j b Hj. rewrite Hl'. simpl. change ((edge c).*2) with (locals c) in Hk.
    by rewrite Hk, list_lookup_fmap, Hj. }
  rewrite take_0, app_nil_r, Hb' in Hinv''.
  exists c, c', sh', c'', sh'', base', k. split_and!; done || lia.
Qed.

Lemma store_loop_inv fuel key cursor blocks sh base abs p :
  shard_inv sh base abs -> parent_path abs cursor = Some p -> contract p blocks (paths abs) ->
  length blocks <= fuel ->
  exists sh' base', store_loop fuel key cursor blocks sh = Some sh' /\
    shard_inv sh' base' (abs_record key p blocks abs).
Proof.
  revert cursor blocks sh base abs p.
  induction fuel as [|fuel IH]; intros cursor [|[seq l] rest] sh base abs p Hinv Hp Hcon Hfuel;
    try (by exists sh, base); [simpl in Hfuel; lia|].
  destruct (open_cursor _ _ _ _ _ Hinv Hp) as (node & n & pos & n' & sh1 & base1 & Hnode & Hn & Hpos &
    Hsplit & Hinv1 & Hfin). set (blocks := (seq, l) :: rest) in *.
  assert (heap (write_node node n' sh1) !! node = Some n') as Hn1 by apply lookup_insert_eq.
  rewrite <- Hfin in Hcon |- *.
  unfold blocks at 1. cbn [store_loop]. fold blocks.
  rewrite Hnode. cbn [mbind option_bind]. rewrite Hn. cbn [mbind option_bind].
  rewrite Hpos, Hsplit. cbn [mbind option_bind].
  destruct (children n' !! l) as [child|] eqn:Hchild.
  - destruct (store_child _ _ _ _ _ key blocks rest seq l child Hinv1 Hn1 eq_refl Hchild Hcon)
      as (c & c' & sh2 & c'' & sh3 & base2 & k & Hc & Hk & Hk0 & Hs & Hrec & Hinv2).
    rewrite Hc. cbn [mbind option_bind]. rewrite <- Hk, Hs. cbn [mbind option_bind].
    rewrite Hrec. cbn [mbind option_bind].
    rewrite <- (take_drop k blocks) in Hcon. apply (contract_app key) in Hcon as [_ Hcon].
    destruct (last (take k blocks)) as [b|] eqn:Hlast.
    2:{ apply last_None in Hlast. apply (f_equal length) in Hlast.
        rewrite length_take in Hlast. simpl in Hlast. lia. }
    cbn [mbind option_bind].
    destruct (IH (Some b.1) (drop k blocks) _ _ _ _ Hinv2 (abs_record_last _ _ _ _ _ Hlast) Hcon)
      as (sh' & base' & -> & Hinv').
    { rewrite length_drop. simpl in *. lia. }
    exists sh', base'. split; [done|]. by rewrite <- abs_record_app, take_drop in Hinv'.
  - destruct (store_new_child _ _ _ _ _ key blocks rest seq l Hinv1 Hn1 eq_refl Hchild Hcon)
      as (new & sh2 & base2 & Hrec & Hinv2).
    unfold bump in Hrec. rewrite Hrec. cbn [mbind option_bind]. eauto.
Qed.

(** ** Removing *)

#[local] Arguments abs_remove : simpl never.

(** Two blocks of the tree with a common alias are the same block. *)
Lemma alias_unique sh base abs a n i al l b m j al' l' seq : shard_inv sh base abs ->
  heap sh !! a = Some n -> edge n !! i = Some (al, l) -> seq ∈ al ->
  heap sh !! b = Some m -> edge m !! j = Some (al', l') -> seq ∈ al' -> a = b /\ i = j.
Proof.
  intros Hinv Ha Hi Hs Hb Hj Hs'.
  destruct (inv_alias _ _ _ Hinv _ _ _ _ _ _ Ha Hi Hs) as [_ H1].
  destruct (inv_alias _ _ _ Hinv _ _ _ _ _ _ Hb Hj Hs') as [_ H2].
  rewrite H1 in H2. injection H2 as H2.
  eapply (at_path_unique sh base); [by apply Hinv| |].
  - exists n. split_and!; [done|by eapply lookup_lt_Some|reflexivity].
  - exists m. split_and!; [done|by eapply lookup_lt_Some|]. by rewrite H2.
Qed.

Lemma size_nonempty (X : gset string) : size X <> 0 <-> X <> ∅.
Proof. rewrite size_non_empty_iff. by unfold_leibniz. Qed.

Section remove.
Context (sh : GroupShard) (base : nat -> list string) (abs : Abs) (key : OwnerTier) (seq : string).
Context (Hinv : shard_inv sh base abs).

Let sh1 := set_reverse (alter (fun seqs => seqs ∖ {[ seq ]}) key (reverse sh)) sh.
Let abs' := abs_remove key [seq] abs.

Lemma remove_active k s : (k, s) ∈ active abs' <-> (k, s) ∈ active abs /\ ~ (k = key /\ s = seq).
Proof. unfold abs', abs_remove. simpl. rewrite elem_of_filter, list_elem_of_singleton. simpl. tauto. Qed.

Lemma remove_reverse k : reverse_of sh1 k =
  if decide (k = key) then reverse_of sh key ∖ {[ seq ]} else reverse_of sh k.
Proof.
  unfold sh1, reverse_of. simpl. destruct (decide (k = key)) as [->|].
  - rewrite lookup_alter_eq. destruct (reverse sh !! key); simpl; set_solver.
  - by rewrite lookup_alter_ne.
Qed.

Lemma remove_reverse_active k s : s ∈ reverse_of sh1 k <-> (k, s) ∈ active abs'.
Proof.
  rewrite remove_active, remove_reverse. pose proof (inv_reverse _ _ _ Hinv k s).
  case_decide; set_solver.
Qed.

(** The heap after [remove_claim]: the claims of every block follow the active
    keys. *)
Lemma remove_claim_result : exists sh2, remove_claim seq key sh1 = Some sh2 /\
  tree_inv sh2 base /\ anchors sh2 = anchors sh /\ reverse sh2 = reverse sh1 /\ counts sh2 = counts sh /\
  (forall a n, heap sh2 !! a = Some n -> exists n0, heap sh !! a = Some n0 /\ edge n = edge n0 /\
    forall i al l cs, edge n !! i = Some (al, l) -> claims n !! i = Some cs ->
    forall k, k ∈ cs <-> exists s, s ∈ al /\ (k, s) ∈ active abs') /\
  (forall a n0, heap sh !! a = Some n0 -> exists n, heap sh2 !! a = Some n /\ edge n = edge n0).
Proof.
  unfold remove_claim. change (anchors sh1) with (anchors sh). change (heap sh1) with (heap sh).
  assert (forall a n i al l cs, heap sh !! a = Some n -> edge n !! i = Some (al, l) ->
    claims n !! i = Some cs -> seq ∉ al -> forall k, k ∈ cs <-> exists s, s ∈ al /\ (k, s) ∈ active abs')
    as Hother.
  { intros a n i al l cs Ha Hi Hcs Hno k. rewrite (inv_claims _ _ _ Hinv _ _ _ _ _ _ Ha Hi Hcs).
    setoid_rewrite remove_active. set_solver. }
  destruct (anchors sh !! seq) as [a|] eqn:Hanc.
  2:{ exists sh1. split_and!; [done|by destruct (inv_tree _ _ _ Hinv); split|done..| |eauto].
      intros a n Ha. exists n. split_and!; [done..|]. intros i al l cs Hi Hcs.
      eapply Hother; [done..|]. intros Hal.
      destruct (inv_alias _ _ _ Hinv _ _ _ _ _ _ Ha Hi Hal). congruence. }
  destruct (inv_known _ _ _ Hinv seq) as [p Hp]; [eauto|].
  destruct (locate_key _ _ _ _ _ Hinv Hp) as (a' & n & i & Ha' & Hn & Hpos & Hlt & _). simplify_eq.
  rewrite Hn. cbn [mbind option_bind]. rewrite Hpos. cbn [mbind option_bind].
  destruct (alias_position_Some _ _ _ Hpos) as (al & l & Hi & Hal). rewrite Hi. cbn [mbind option_bind].
  pose proof (tree_len _ _ (inv_tree _ _ _ Hinv) _ _ Hn) as Hlen.
  destruct (claims n !! i) as [cs|] eqn:Hcs; [|apply lookup_ge_None in Hcs; lia]. cbn [mbind option_bind].
  pose proof (inv_claims _ _ _ Hinv _ _ _ _ _ _ Hn Hi Hcs) as Hold.
  assert (forall b m j al' l', heap sh !! b = Some m -> edge m !! j = Some (al', l') -> seq ∈ al' ->
    a = b /\ i = j) as Huniq by (intros; by eapply (alias_unique sh base abs)).
  case_bool_decide as Hact.
  - destruct Hact as (s & Hs & Hrev%remove_reverse_active).
    exists sh1. split_and!; [done|by destruct (inv_tree _ _ _ Hinv); split|done..| |eauto].
    intros b m Hb. change (heap sh1) with (heap sh) in Hb.
    exists m. split_and!; [done..|]. intros j al' l' cs' Hj Hcs'.
    destruct (decide (seq ∈ al')) as [Hin|]; [|by eapply Hother].
    destruct (Huniq _ _ _ _ _ Hb Hj Hin) as [<- <-]. simplify_eq. intros k. rewrite Hold.
    setoid_rewrite remove_active. destruct (decide (k = key)) as [->|]; [|naive_solver].
    apply remove_active in Hrev. naive_solver.
  - eexists. split; [done|]. assert (~ exists s, s ∈ al /\ (key, s) ∈ active abs') as Hno.
    { intros (s & Hs & Hk%remove_reverse_active). apply Hact. by exists s. }
    split_and!; [|done..| |].
    + eapply (tree_inv_same sh); [apply Hinv|exact Hn|done..|]. simpl. by rewrite length_insert.
    + intros b m Hb. simpl in Hb. apply lookup_insert_Some in Hb as [[<- <-]|[Hne Hb]].
      * exists n. split_and!; [done..|]. intros j al' l' cs' Hj Hcs'. simpl in Hj, Hcs'.
        apply list_lookup_insert_Some in Hcs' as [(<- & <- & _)|[Hij Hcs']].
        -- simplify_eq. intros k. rewrite list_elem_of_filter, Hold. setoid_rewrite remove_active.
           setoid_rewrite remove_active in Hno. destruct (decide (k = key)) as [->|]; naive_solver.
        -- eapply Hother; [done..|]. intros Hin. by destruct (Huniq _ _ _ _ _ Hn Hj Hin).
      * exists m. split_and!; [done..|]. intros j al' l' cs' Hj Hcs'. eapply Hother; [done..|].
        intros Hin. by destruct (Huniq _ _ _ _ _ Hb Hj Hin).
    + intros b m Hb. simpl. destruct (decide (a = b)) as [<-|].
      * rewrite lookup_insert_eq. simplify_eq. eauto.
      * rewrite lookup_insert_ne by done. eauto.
Qed.
Lemma remove_one_inv : exists sh', remove_one key seq sh = Some sh' /\ shard_inv sh' base abs'.
Proof.
  destruct remove_claim_result as (sh2 & Hrc & Ht & Hanc & Hrev & Hcnt & Hback & Hforth).
  unfold remove_one. fold sh1. rewrite Hrc. cbn [mbind option_bind].
  assert (forall k, reverse_of sh2 k = reverse_of sh1 k) as Hrof
    by (intros k; unfold reverse_of; by rewrite Hrev).
  set (cnt := if bool_decide (seq ∈ reverse_of sh key)
    then drop_zero key (alter (fun c => (c - 1)%N) key (counts sh2)) else counts sh2).
  exists (set_counts cnt sh2). split.
  { unfold cnt. case_bool_decide; [done|]. by destruct sh2. }
  split; simpl.
  - by destruct Ht; split.
  - intros a n i al l s Ha Hi Hs. destruct (Hback _ _ Ha) as (n0 & Hn0 & He & _).
    unfold locals. rewrite Hanc, He in *. by eapply (inv_alias _ _ _ Hinv).
  - intros s Hs. destruct (inv_anchor _ _ _ Hinv s Hs) as (a & n0 & i & al & l & H1 & Ha & Hi & Hal).
    destruct (Hforth _ _ Ha) as (n & Hn & He). exists a, n, i, al, l. by rewrite Hanc, He.
  - rewrite Hanc. apply Hinv.
  - intros a n i al l cs Ha Hi Hcs. destruct (Hback _ _ Ha) as (n0 & Hn0 & He & Hcl).
    by apply (Hcl i al l).
  - intros k s. etransitivity; [|apply remove_reverse_active].
    change (reverse_of (set_counts cnt sh2) k) with (reverse_of sh2 k). by rewrite Hrof.
  - intros k s [Hs _]%remove_active. by eapply (inv_active _ _ _ Hinv).
  - intros k. change (reverse_of (set_counts cnt sh2) k) with (reverse_of sh2 k).
    rewrite Hrof, remove_reverse. unfold cnt. rewrite Hcnt. pose proof (inv_counts _ _ _ Hinv) as Hc.
    destruct (decide (k = key)) as [->|Hne].
    + case_bool_decide as Hin.
      * specialize (Hc key). rewrite decide_False in Hc by set_solver.
        assert (size (reverse_of sh key ∖ {[seq]}) = size (reverse_of sh key) - 1) as Hsize
          by (rewrite size_difference, size_singleton by set_solver; done).
        assert (size (reverse_of sh key) <> 0) by (apply size_nonempty; set_solver).
        unfold drop_zero. rewrite lookup_alter_eq, Hc. simpl.
        destruct (decide (reverse_of sh key ∖ {[seq]} = ∅)) as [He|Hne].
        -- rewrite He, size_empty in Hsize. rewrite decide_True by (f_equal; lia).
           by rewrite lookup_delete_eq.
        -- apply size_nonempty in Hne.
           rewrite decide_False by (intros [= ?]; lia). rewrite lookup_alter_eq, Hc. simpl. f_equal. lia.
      * replace (reverse_of sh key ∖ {[seq]}) with (reverse_of sh key) by set_solver. apply Hc.
    + rewrite <- Hc. case_bool_decide; [|done]. unfold drop_zero.
      case_decide; rewrite ?lookup_delete_ne, lookup_alter_ne by done; done.
Qed.
End remove.

Lemma abs_remove_nil key abs : abs_remove key [] abs = abs.
Proof.
  unfold abs_remove. destruct abs as [p act]. simpl. f_equal. apply set_eq. intros [k s].
  rewrite elem_of_filter. simpl. set_solver.
Qed.

Lemma abs_remove_cons key seq seqs abs :
  abs_remove key (seq :: seqs) abs = abs_remove key seqs (abs_remove key [seq] abs).
Proof.
  unfold abs_remove. simpl. f_equal. apply set_eq. intros [k s]. rewrite !elem_of_filter. simpl.
  set_solver.
Qed.

Lemma remove_inv owner tier seqs sh base abs : shard_inv sh base abs ->
  exists sh', remove owner tier seqs sh = Some sh' /\ shard_inv sh' base (abs_remove (owner, tier) seqs abs).
Proof.
  unfold remove. revert sh abs. induction seqs as [|seq seqs IH]; intros sh abs Hinv.
  - exists sh. by rewrite abs_remove_nil.
  - destruct (remove_one_inv sh base abs (owner, tier) seq Hinv) as (sh1 & H1 & Hinv1). simpl.
    rewrite H1. simpl. rewrite abs_remove_cons. by apply IH.
Qed.

(** ** Clearing *)

Lemma abs_clear_ext P Q abs : (forall key seq, (key, seq) ∈ active abs -> P key = Q key) ->
  abs_clear P abs = abs_clear Q abs.
Proof.
  intros HPQ. unfold abs_clear. f_equal. apply set_eq. intros [k s]. rewrite !elem_of_filter. simpl.
  split; intros [? Hin]; (split; [|done]); [by rewrite <- (HPQ _ _ Hin)|by rewrite (HPQ _ _ Hin)].
Qed.

Lemma drop_empty_inv key sh base abs : shard_inv sh base abs ->
  shard_inv (set_reverse (drop_empty key (reverse sh)) sh) base abs.
Proof.
  intros Hinv. assert (forall k, reverse_of (set_reverse (drop_empty key (reverse sh)) sh) k =
    reverse_of sh k) as Hr.
  { intros k. unfold reverse_of, drop_empty. simpl. case_decide as E; [|done].
    destruct (decide (k = key)) as [->|]; [by rewrite lookup_delete_eq, E|by rewrite lookup_delete_ne]. }
  destruct Hinv. split; try done.
  - by destruct inv_tree0; split.
  - intros k s. by rewrite Hr.
  - intros k. by rewrite Hr.
Qed.

Lemma drop_zero_same key sh base abs : shard_inv sh base abs -> drop_zero key (counts sh) = counts sh.
Proof.
  intros Hinv. unfold drop_zero. rewrite decide_False; [done|].
  rewrite (inv_counts _ _ _ Hinv key). case_decide as E; [done|]. intros [= H].
  apply size_nonempty in E. lia.
Qed.

Lemma clear_source_key_inv key sh base abs : shard_inv sh base abs ->
  exists sh', clear_source_key key sh = Some sh' /\
    shard_inv sh' base (abs_clear (fun k => bool_decide (k = key)) abs).
Proof.
  intros Hinv. unfold clear_source_key. destruct key as [owner tier].
  destruct (remove_inv owner tier (elements (reverse_of sh (owner, tier))) sh base abs Hinv)
    as (sh1 & H1 & Hinv1). simpl. rewrite H1. cbn [mbind option_bind]. eexists. split; [done|].
  replace (abs_clear _ abs) with (abs_remove (owner, tier) (elements (reverse_of sh (owner, tier))) abs);
    [by apply drop_empty_inv|].
  unfold abs_remove, abs_clear. f_equal. apply set_eq. intros [k s]. rewrite !elem_of_filter. simpl.
  rewrite elem_of_elements, bool_decide_eq_false. split; [|tauto].
  intros [Hno Hin]. split; [|done]. intros ->. apply Hno. split; [done|]. by apply Hinv.
Qed.

Lemma clear_key_source key sh base abs : shard_inv sh base abs -> clear_key key sh = clear_source_key key sh.
Proof.
  intros Hinv. unfold clear_key, clear_source_key.
  destruct (remove_inv key.1 key.2 (elements (reverse_of sh key)) sh base abs Hinv) as (sh1 & -> & Hinv1).
  cbn [mbind option_bind]. by rewrite (drop_zero_same _ _ _ _ Hinv1).
Qed.

Lemma clear_keys_inv keys sh base abs : shard_inv sh base abs ->
  exists sh', foldM clear_source_key keys sh = Some sh' /\
    shard_inv sh' base (abs_clear (fun k => bool_decide (k ∈ keys)) abs).
Proof.
  revert sh abs. induction keys as [|key keys IH]; intros sh abs Hinv.
  - exists sh. split; [done|]. replace (abs_clear _ abs) with abs; [done|].
    unfold abs_clear. destruct abs as [p act]. simpl. f_equal. apply set_eq. intros [k s].
    rewrite elem_of_filter. naive_solver.
  - destruct (clear_source_key_inv key sh base abs Hinv) as (sh1 & H1 & Hinv1).
    destruct (IH _ _ Hinv1) as (sh2 & H2 & Hinv2). exists sh2. simpl. rewrite H1. split; [done|].
    replace (abs_clear (fun k => bool_decide (k ∈ key :: keys)) abs) with
      (abs_clear (fun k => bool_decide (k ∈ keys)) (abs_clear (fun k => bool_decide (k = key)) abs));
      [done|].
    unfold abs_clear. simpl. f_equal. apply set_eq. intros [k s]. rewrite !elem_of_filter. simpl.
    rewrite !bool_decide_eq_false. set_solver.
Qed.

(** Clearing the keys of [reverse] a test selects clears every key it selects. *)
Lemma clear_selected P sh base abs : shard_inv sh base abs ->
  exists sh', foldM clear_source_key (filter (fun k => P k = true) (elements (dom (reverse sh)))) sh =
      Some sh' /\ shard_inv sh' base (abs_clear P abs).
Proof.
  intros Hinv. set (keys := filter _ _).
  destruct (clear_keys_inv keys _ _ _ Hinv) as (sh' & -> & Hinv'). exists sh'.
  split; [done|]. erewrite abs_clear_ext; [exact Hinv'|]. intros key seq Hact. simpl.
  apply Hinv in Hact. unfold reverse_of in Hact. destruct (P key) eqn:E; symmetry.
  - apply bool_decide_eq_true. apply list_elem_of_filter. split; [done|].
    rewrite elem_of_elements. apply elem_of_dom. destruct (reverse sh !! key); [eauto|set_solver].
  - apply bool_decide_eq_false. intros [? _]%list_elem_of_filter. congruence.
Qed.

Lemma clear_loop_filter owner scope keys sh base abs : shard_inv sh base abs ->
  foldM (fun key sh => if in_clear owner scope key then clear_key key sh else Some sh) keys sh =
  foldM clear_source_key (filter (fun k => in_clear owner scope k = true) keys) sh.
Proof.
  revert sh abs. induction keys as [|key keys IH]; intros sh abs Hinv; [done|].
  rewrite filter_cons. destruct (decide (in_clear owner scope key = true)) as [E|E].
  - simpl. rewrite E, (clear_key_source _ _ _ _ Hinv).
    destruct (clear_source_key_inv key sh base abs Hinv) as (sh1 & -> & Hinv1). simpl. by eapply IH.
  - apply not_true_is_false in E. simpl. rewrite E. simpl. by eapply IH.
Qed.

Lemma clear_inv owner scope sh base abs : shard_inv sh base abs ->
  exists sh', clear owner scope sh = Some sh' /\ shard_inv sh' base (abs_clear (in_clear owner scope) abs).
Proof.
  intros Hinv. unfold clear. rewrite (clear_loop_filter _ _ _ _ _ _ Hinv). by apply clear_selected.
Qed.

Lemma clear_source_inv source rank sh base abs : shard_inv sh base abs ->
  exists sh', clear_source source rank sh = Some sh' /\
    shard_inv sh' base (abs_clear (of_source source rank) abs).
Proof. intros Hinv. by apply clear_selected. Qed.

(** ** Matching *)

Lemma match_edge_spec e c rest : length c = length e ->
  exists k, match_edge e c rest = Some (take k c) /\ k <= length e /\ k <= length rest /\
    take k e.*2 = take k rest /\
    (k < length e -> k < length rest -> e.*2 !! k <> rest !! k).
Proof.
  revert c rest. induction e as [|[al l] e IH]; intros [|cs c] [|h rest] Hlen; simplify_eq/=;
    try (exists 0; split_and!; by (done || lia)).
  destruct (decide (l = h)) as [->|Hne].
  - destruct (IH c rest) as (k & -> & H1 & H2 & H3 & H4); [done|].
    exists (S k). simpl. split_and!; [done|lia|lia|by f_equal|]. intros. apply H4; lia.
  - exists 0. split_and!; [done|lia|lia|done|]. intros _ _ [= ?]. done.
Qed.

Lemma holds_at sh base abs a n i cs q key : shard_inv sh base abs ->
  heap sh !! a = Some n -> claims n !! i = Some cs -> q = base a ++ take (S i) (locals n) ->
  key ∈ cs <-> holds abs q key.
Proof.
  intros Hinv Ha Hcs ->. pose proof (tree_len _ _ (inv_tree _ _ _ Hinv) _ _ Ha) as Hlen.
  destruct (edge n !! i) as [[al l]|] eqn:Hi;
    [|apply lookup_ge_None in Hi; apply lookup_lt_Some in Hcs; lia].
  rewrite (inv_claims _ _ _ Hinv _ _ _ _ _ _ Ha Hi Hcs). unfold holds. split.
  - intros (s & Hs & Hact). exists s. split; [|done].
    by destruct (inv_alias _ _ _ Hinv _ _ _ _ _ _ Ha Hi Hs).
  - intros (s & Hp & Hact). exists s. split; [|done].
    destruct (inv_anchor _ _ _ Hinv s) as (b & m & j & al' & l' & _ & Hb & Hj & Hal); [eauto|].
    destruct (inv_alias _ _ _ Hinv _ _ _ _ _ _ Hb Hj Hal) as [_ Hp']. rewrite Hp in Hp'.
    injection Hp' as Hp'. destruct (at_path_unique sh base (inv_tree _ _ _ Hinv) a i b j
      (base a ++ take (S i) (locals n))) as [-> ->]; [| |by simplify_eq].
    + exists n. split_and!; [done|by eapply lookup_lt_Some|done].
    + exists m. split_and!; [done|by eapply lookup_lt_Some|done].
Qed.

Lemma holds_somewhere sh base abs q key : shard_inv sh base abs -> holds abs q key ->
  exists a i, at_path sh base a i q.
Proof.
  intros Hinv (s & Hp & _). destruct (locate_key _ _ _ _ _ Hinv Hp) as (a & n & i & _ & Ha & _ & Hi & ->).
  exists a, i, n. done.
Qed.

(** [take] of a query beyond a block it contains. *)
Lemma take_split {A} k d (rest : list A) x : rest !! k = Some x -> k <= d ->
  exists later, take (S d) rest = (take k rest ++ [x]) ++ later.
Proof.
  intros Hx Hd. exists (drop (S k) (take (S d) rest)). rewrite <- (take_S_r _ _ _ Hx).
  replace (take (S k) rest) with (take (S k) (take (S d) rest)); [by rewrite take_drop|].
  rewrite take_take. f_equal. lia.
Qed.

(** Nothing is held beyond the point where the tree stops following a query. *)
Lemma no_child_no_hold sh base abs a n rest d key : shard_inv sh base abs -> heap sh !! a = Some n ->
  (local ← head rest; children n !! local) = None -> d < length rest ->
  ~ holds abs (base a ++ locals n ++ take (S d) rest) key.
Proof.
  intros Hinv Ha Hnone Hd Hh. destruct rest as [|x rest]; [simpl in Hd; lia|]. simpl in Hnone.
  destruct (holds_somewhere _ _ _ _ _ Hinv Hh) as (b & i & Hat).
  destruct (take_split 0 d (x :: rest) x) as (later & Hl); [done|lia|].
  rewrite Hl in Hat. rewrite !(assoc_L (++)) in Hat. apply at_prefix in Hat as (b' & j & Hat);
    [|apply Hinv|destruct (base a), (locals n); done].
  simpl in Hat. rewrite app_nil_r, <- (assoc_L (++)) in Hat.
  apply (extend_fin _ _ (inv_tree _ _ _ Hinv) _ _ _ _ _ Ha) in Hat as [Hc _]. congruence.
Qed.

Lemma mid_edge_no_hold sh base abs a n rest k d key : shard_inv sh base abs -> heap sh !! a = Some n ->
  0 < k < length (edge n) -> take k (locals n) = take k rest -> locals n !! k <> rest !! k ->
  k <= d < length rest -> ~ holds abs (base a ++ take (S d) rest) key.
Proof.
  intros Hinv Ha Hk Htake Hne Hd Hh.
  destruct (lookup_lt_is_Some_2 rest k) as [x Hx]; [lia|].
  destruct (holds_somewhere _ _ _ _ _ Hinv Hh) as (b & i & Hat).
  destruct (take_split k d rest x Hx) as (later & Hl); [lia|].
  rewrite Hl in Hat. rewrite !(assoc_L (++)) in Hat. apply at_prefix in Hat as (b' & j & Hat);
    [|apply Hinv|by intros [_ ?]%app_eq_nil].
  rewrite <- Htake in Hat.
  assert (at_path sh base a (pred k) (base a ++ take k (locals n))) as Hk'.
  { exists n. replace (S (pred k)) with k by lia. split_and!; [done|lia|done]. }
  assert (S (pred k) < length (edge n)) as Hk1 by lia.
  destruct (extend_mid _ _ (inv_tree _ _ _ Hinv) _ _ _ _ _ _ _ Ha Hk1 Hk' Hat) as (_ & _ & Hloc).
  replace (S (pred k)) with k in Hloc by lia. congruence.
Qed.

Lemma walk_spec fuel sh base abs a n rest : shard_inv sh base abs -> heap sh !! a = Some n ->
  length rest <= fuel ->
  exists css, walk fuel sh (local ← head rest; children n !! local) rest = Some css /\
    length css <= length rest /\
    forall d key, d < length rest ->
      key ∈ default [] (css !! d) <-> holds abs (base a ++ locals n ++ take (S d) rest) key.
Proof.
  intros Hinv. revert a n rest. induction fuel as [|fuel IH]; intros a n rest Ha Hfuel.
  { destruct rest; [|simpl in Hfuel; lia]. exists []. split_and!; [done|done|]. simpl. lia. }
  destruct (local ← head rest; children n !! local) as [b|] eqn:Hnext.
  2:{ exists []. split_and!; [done|simpl; lia|]. intros d key Hd. simpl. split; [by intros ?%elem_of_nil|].
      intros Hh. by destruct (no_child_no_hold _ _ _ _ _ _ _ _ Hinv Ha Hnext Hd Hh). }
  destruct rest as [|x rest0] eqn:Hrest; [done|]. rewrite <- Hrest in *. assert (head rest = Some x)
    as Hx by (by rewrite Hrest). rewrite Hx in Hnext. simpl in Hnext.
  destruct (tree_child _ _ (inv_tree _ _ _ Hinv) _ _ _ _ Ha Hnext) as [Hbase (c & Hc & Hhead)].
  pose proof (tree_len _ _ (inv_tree _ _ _ Hinv) _ _ Hc) as Hlen.
  destruct (match_edge_spec (edge c) (claims c) rest Hlen) as (k & Hm & Hke & Hkr & Htk & Hstop).
  change ((edge c).*2) with (locals c) in *.
  assert (0 < k) as Hk0.
  { destruct k; [|lia]. exfalso. rewrite head_lookup in Hhead, Hx.
    apply Hstop; [|rewrite Hrest; simpl; lia|congruence].
    apply lookup_lt_Some in Hhead. by rewrite locals_length in Hhead. }
  cbn [walk]. rewrite Hc. cbn [mbind option_bind]. rewrite Hm. cbn [mbind option_bind].
  assert (length (take k (claims c)) = k) as Hlk by (rewrite length_take; lia). rewrite Hlk.
  destruct (Nat.eqb_spec k 0) as [|_]; [lia|]. simpl.
  assert (forall d key, d < k -> key ∈ default [] (take k (claims c) !! d) <->
    holds abs (base a ++ locals n ++ take (S d) rest) key) as Hhere.
  { intros d key Hd. rewrite lookup_take_lt by done.
    destruct (lookup_lt_is_Some_2 (claims c) d) as [cs Hcs]; [lia|]. rewrite Hcs. simpl.
    eapply holds_at; [done..|]. rewrite Hbase, <- (assoc_L (++)). do 2 f_equal.
    transitivity (take (S d) (take k (locals c))); [rewrite Htk|];
      by rewrite take_take, Nat.min_l by lia. }
  destruct (Nat.ltb_spec k (length (edge c))) as [Hlt|Hge].
  - exists (take k (claims c)). split_and!; [done|lia|]. intros d key Hd.
    destruct (decide (d < k)); [by apply Hhere|]. rewrite lookup_ge_None_2 by lia. simpl.
    split; [by intros ?%elem_of_nil|]. intros Hh.
    rewrite (assoc_L (++)), <- Hbase in Hh.
    destruct (mid_edge_no_hold _ _ _ _ _ rest k d key Hinv Hc); [lia|done| |lia|done].
    apply Hstop; lia.
  - destruct (IH b c (drop k rest) Hc) as (later & -> & Hll & Hlater); [rewrite length_drop; lia|].
    simpl. rewrite length_drop in Hll. exists (take k (claims c) ++ later). split_and!; [done| |].
    { rewrite length_app. lia. }
    intros d key Hd. destruct (decide (d < k)); [rewrite lookup_app_l by lia; by apply Hhere|].
    rewrite lookup_app_r by lia. rewrite Hlk, Hlater by (rewrite length_drop; lia).
    rewrite Hbase, <- !(assoc_L (++)). do 2 f_equiv.
    rewrite <- (take_ge (locals c) k) by (rewrite locals_length; lia).
    rewrite Htk, take_take_drop. replace (k + S (d - k)) with (S d) by lia. done.
Qed.

(** ** Traces *)

(** Evaluate a closed contract. *)
Ltac solve_contract :=
  repeat match goal with
  | |- _ /\ _ => split
  | |- True => exact I
  | |- _ \/ _ => first [left; vm_compute; reflexivity | right; vm_compute; reflexivity]
  | |- match ?p with Some _ => _ | None => _ end =>
      let v := eval vm_compute in p in replace p with v by (vm_compute; reflexivity)
  | |- _ => progress hnf
  end.

Lemma store_inv owner tier parent_seq blocks sh base abs : shard_inv sh base abs ->
  store_contract parent_seq blocks abs ->
  exists sh' base', store owner tier parent_seq blocks sh = Some sh' /\
    shard_inv sh' base' (abs_store (owner, tier) parent_seq blocks abs).
Proof.
  intros Hinv Hcon. unfold store, abs_store, store_contract in *.
  destruct parent_seq as [seq|]; simpl in *; [|by eapply store_loop_inv].
  destruct (paths abs !! seq) as [p|] eqn:Hp.
  - destruct (locate_key _ _ _ _ _ Hinv Hp) as (a & _ & _ & Ha & _).
    rewrite decide_True by eauto. by eapply store_loop_inv.
  - rewrite decide_False; [eauto|]. intros H%(inv_known _ _ _ Hinv). rewrite Hp in H.
    by destruct H.
Qed.

Lemma shard_step_inv o sh abs : implements sh abs -> op_contract o abs ->
  exists sh', shard_step o sh = Some sh' /\ implements sh' (abs_step o abs).
Proof.
  intros [base Hinv] Hcon. unfold implements. destruct o; simpl in *.
  - destruct (store_inv owner tier parent_seq blocks _ _ _ Hinv Hcon) as (sh' & base' & ? & ?). eauto.
  - destruct (remove_inv owner tier seq_hashes _ _ _ Hinv) as (sh' & ? & ?). eauto.
  - destruct (clear_inv owner scope _ _ _ Hinv) as (sh' & ? & ?). eauto.
  - destruct (clear_source_inv source dp_rank _ _ _ Hinv) as (sh' & ? & ?). eauto.
Qed.

Lemma new_shard_implements : implements new_shard empty_abs.
Proof.
  exists (fun _ => []). split; [split|..]; simpl; try done.
  - intros a n [<- _]%lookup_singleton_Some. unfold root_addr. lia.
  - eexists. by rewrite lookup_singleton_eq.
  - by intros a n [<- <-]%lookup_singleton_Some.
  - by intros a n [<- <-]%lookup_singleton_Some.
  - intros a n l b [<- <-]%lookup_singleton_Some. simpl. by rewrite lookup_empty.
  - by intros b m [<- _]%lookup_singleton_Some.
  - by intros a n i al l seq [<- <-]%lookup_singleton_Some.
  - intros seq [? H]. by rewrite lookup_empty in H.
  - intros seq [? H]. by rewrite lookup_empty in H.
  - by intros a n i al l cs [<- <-]%lookup_singleton_Some.
Qed.

Lemma shard_run_inv ops sh abs : implements sh abs -> trace_ok ops abs ->
  exists sh', foldM shard_step ops sh = Some sh' /\ implements sh' (abs_run ops abs).
Proof.
  revert sh abs. induction ops as [|o ops IH]; intros sh abs Hinv Hok; [by exists sh|].
  destruct Hok as [Ho Hok]. destruct (shard_step_inv o sh abs Hinv Ho) as (sh1 & H1 & Hinv1).
  simpl. rewrite H1. simpl. by apply IH.
Qed.

Lemma node_claims_spec sh abs q : implements sh abs ->
  exists css, node_claims sh q = Some css /\ length css <= length q /\
    forall d key, d < length q -> key ∈ default [] (css !! d) <-> holds abs (take (S d) q) key.
Proof.
  intros [base Hinv]. destruct (tree_root _ _ (inv_tree _ _ _ Hinv)) as (n & Hn & He).
  unfold node_claims. rewrite Hn. cbn [mbind option_bind].
  destruct (walk_spec (length q) sh base abs root_addr n q Hinv Hn) as (css & Hw & Hlen & Hspec); [done|].
  exists css. split; [exact Hw|]. split; [done|]. intros d key Hd. rewrite Hspec by done.
  by rewrite (assoc_L (++)), (proj2 (fin_nil _ _ (inv_tree _ _ _ Hinv) _ _ Hn)).
Qed.

(** ** Properties *)

(** C1: the radix tree implements its specification.  Every sequence of stores,
    removals and clears that keeps the engine's contract runs to completion (no
    index or [expect] panics, no retry spins), and afterwards the claims found
    at every depth of every query are exactly the owners and tiers that
    currently hold a key of that prefix; the count of an owner and tier is the
    number of keys it holds, and owners that hold nothing have no count. *)
Theorem shard_refines ops : trace_ok ops empty_abs ->
  exists sh, foldM shard_step ops new_shard = Some sh /\
    (forall q, exists css, node_claims sh q = Some css /\ length css <= length q /\
      forall d key, d < length q ->
        key ∈ default [] (css !! d) <-> holds (abs_run ops empty_abs) (take (S d) q) key) /\
    (forall key, exists held : gset string,
      (forall seq, seq ∈ held <-> (key, seq) ∈ active (abs_run ops empty_abs)) /\
      counts sh !! key = if decide (held = ∅) then None else Some (N.of_nat (size held))).
Proof.
  intros Hok. destruct (shard_run_inv ops _ _ new_shard_implements Hok) as (sh & Hrun & Himp).
  exists sh. split_and!; [done|intros q; by apply node_claims_spec|].
  destruct Himp as [base Hinv]. intros key. exists (reverse_of sh key).
  split; [apply Hinv|apply Hinv].
Qed.

Lemma shard_refines_witness : exists sh css,
  foldM shard_step shard_example new_shard = Some sh /\
  node_claims sh ["x"; "y"; "w"]%string = Some css /\
  (worker_b, HostPinned) ∈ default [] (css !! 2).
Proof.
  assert (trace_ok shard_example empty_abs) as Hok by solve_contract.
  destruct (shard_refines shard_example Hok) as (sh & Hrun & Hq & _).
  destruct (Hq ["x"; "y"; "w"]%string) as (css & Hc & _ & H).
  exists sh, css. split; [exact Hrun|]. split; [exact Hc|]. apply H; [simpl; lia|].
  exists "4"%string. split; [vm_refl|].
  apply (bool_decide_eq_true_1 _). vm_refl.
Defined.
