(* ===== verification/KvIndexer.v ===== *)
(** * The KV block indexer ([KvBlockIndexer] of [src/kv_index/indexer.rs])

    The second half of a shard's [find_matches], which turns the claims found
    along a query into maximal block intervals per target and tier, and the
    indexer itself: one shard per cache group, the sources whose observations
    are hidden while they are repaired, and the generation counter.  As in
    [KvShard] calls follow one another, so the generation a query reads at its start and at its end is the
    same. *)

From stdpp Require Import functions.
From S2P Require Import Prelude KvTypes KvShard.

Record MatchQuery := {
  group_idx : N;
  local_hashes : list string;
  tiers_of_interest : list StorageTier;
}.

Record TierMatch := MkMatch {
  tm_target : RoutableTarget;
  tm_tier : StorageTier;
  segments : list (N * N);   (* u32 *)
  tm_locality : Locality;
}.

(** ** Collapsing claims into segments *)

(** [depth as u32] *)
Definition as_u32 (n : nat) : N := (N.of_nat n mod u32_mod)%N.

(** The [match entry.segments.last_mut()] of the collapse. *)
Definition extend_segments (depth : nat) (segs : list (N * N)) : list (N * N) :=
  match last segs with
  | Some (s, e) =>
      if (e =? as_u32 depth)%N then removelast segs ++ [(s, as_u32 (S depth))]
      else segs ++ [(as_u32 depth, as_u32 (S depth))]
  | None => segs ++ [(as_u32 depth, as_u32 (S depth))]
  end.

Abbreviation Best := (gmap (RoutableTarget * StorageTier) TierMatch).
Abbreviation Seen := (gset (RoutableTarget * StorageTier)).

(** One owner at one depth. *)
Definition collapse_claim (tiers : list StorageTier) (depth : nat) (claim : OwnerTier)
  (st : Best * Seen) : Best * Seen :=
  let '(owner, tier) := claim in
  let '(best, seen) := st in
  if decide (tier ∈ tiers) then
    let k := (target owner, tier) in
    let first_at_depth := bool_decide (k ∉ seen) in
    let entry := default (MkMatch (target owner) tier [] (locality owner)) (best !! k) in
    let loc := if decide (locality owner = Local) then Local else tm_locality entry in
    let segs := if first_at_depth then extend_segments depth (segments entry) else segments entry in
    (<[k := MkMatch (tm_target entry) (tm_tier entry) segs loc]> best, {[ k ]} ∪ seen)
  else (best, seen).

(** One depth: [seen] is cleared first. *)
Definition collapse_depth (tiers : list StorageTier) (depth : nat) (owners : list OwnerTier)
  (best : Best) : Best :=
  (foldl (fun st claim => collapse_claim tiers depth claim st) (best, ∅) owners).1.

Fixpoint collapse_from (tiers : list StorageTier) (depth : nat) (css : list (list OwnerTier))
  (best : Best) : Best :=
  match css with
  | [] => best
  | owners :: css => collapse_from tiers (S depth) css (collapse_depth tiers depth owners best)
  end.

Definition shard_find_matches (query : MatchQuery) (sh : GroupShard) : option (list TierMatch) :=
  css ← node_claims sh (local_hashes query);
  let best := collapse_from (tiers_of_interest query) 0 css ∅ in
  Some (filter (fun m => segments m <> []) (map_to_list best).*2).

(** ** The indexer *)

Record KvBlockIndexer := MkIndexer {
  shards : gmap N GroupShard;
  suspended_sources : gset (string * N);
  source_generation : N;   (* AtomicU64 *)
}.

Definition new_indexer : KvBlockIndexer := MkIndexer ∅ ∅ 0.

(** Get-or-create. *)
Definition shard (group : N) (ix : KvBlockIndexer) : GroupShard * KvBlockIndexer :=
  match shards ix !! group with
  | Some s => (s, ix)
  | None => (new_shard, MkIndexer (<[group := new_shard]> (shards ix)) (suspended_sources ix)
                          (source_generation ix))
  end.

Definition put_shard (group : N) (s : GroupShard) (ix : KvBlockIndexer) : KvBlockIndexer :=
  MkIndexer (<[group := s]> (shards ix)) (suspended_sources ix) (source_generation ix).

Definition ix_store (group : N) (owner : ResidencyOwner) (tier : StorageTier)
  (parent_seq : option string) (blocks : list IncomingBlock) (ix : KvBlockIndexer)
  : option KvBlockIndexer :=
  let '(s, ix) := shard group ix in
  s ← store owner tier parent_seq blocks s;
  Some (put_shard group s ix).

Definition ix_remove (group : N) (owner : ResidencyOwner) (tier : StorageTier)
  (seq_hashes : list string) (ix : KvBlockIndexer) : option KvBlockIndexer :=
  let '(s, ix) := shard group ix in
  s ← remove owner tier seq_hashes s;
  Some (put_shard group s ix).

(** [for shard in shards { f(shard) }] over a snapshot of the map. *)
Definition each_shard (f : GroupShard -> option GroupShard) (ix : KvBlockIndexer)
  : option KvBlockIndexer :=
  foldM (fun gs ix => s ← f gs.2; Some (put_shard gs.1 s ix)) (map_to_list (shards ix)) ix.

Definition ix_clear (owner : ResidencyOwner) (scope : ClearScope) (ix : KvBlockIndexer)
  : option KvBlockIndexer := each_shard (clear owner scope) ix.

Definition suspend_source (source : string) (dp_rank : N) (ix : KvBlockIndexer) : KvBlockIndexer :=
  MkIndexer (shards ix) ({[ (source, dp_rank) ]} ∪ suspended_sources ix)
    (u64_wrapping_add (source_generation ix) 1).

Definition invalidate_source (source : string) (dp_rank : N) (ix : KvBlockIndexer)
  : option KvBlockIndexer :=
  each_shard (clear_source source dp_rank) (suspend_source source dp_rank ix).

Definition resume_source (source : string) (dp_rank : N) (ix : KvBlockIndexer) : KvBlockIndexer :=
  MkIndexer (shards ix) (suspended_sources ix ∖ {[ (source, dp_rank) ]})
    (u64_wrapping_add (source_generation ix) 1).

Definition find_matches (query : MatchQuery) (ix : KvBlockIndexer)
  : option (list TierMatch * KvBlockIndexer) :=
  let generation := source_generation ix in
  let '(s, ix) := shard (group_idx query) ix in
  matches ← shard_find_matches query s;
  let matches := filter (fun hit =>
    (instance_id (tm_target hit), target_dp_rank (tm_target hit)) ∉ suspended_sources ix) matches in
  Some (if (source_generation ix =? generation)%N then matches else [], ix).

(** ** Specification *)

(** A block interval holds a depth. *)
Definition in_segments (d : nat) (segs : list (N * N)) : Prop :=
  exists s e, (s, e) ∈ segs /\ (s <= N.of_nat d < e)%N.

(** Nonempty intervals in increasing order, a gap between any two: so each is
    maximal. *)
Fixpoint separated (lo : N) (segs : list (N * N)) : Prop :=
  match segs with
  | [] => True
  | (s, e) :: segs => (lo <= s)%N /\ (s < e)%N /\ separated (e + 1) segs
  end.

(** Some owner routing to [t] claims the tier at a depth. *)
Definition claims_of (css : list (list OwnerTier)) (t : RoutableTarget) (tier : StorageTier)
  (d : nat) (owner : ResidencyOwner) : Prop :=
  (owner, tier) ∈ default [] (css !! d) /\ target owner = t.

(** What one row says of the claims along a query. *)
Record row_ok (tiers : list StorageTier) (css : list (list OwnerTier)) (t : RoutableTarget)
  (tier : StorageTier) (m : TierMatch) : Prop := {
  row_target : tm_target m = t;
  row_tier : tm_tier m = tier;
  row_interest : tier ∈ tiers;
  row_separated : separated 0 (segments m);
  row_bound : forall s e, (s, e) ∈ segments m -> (e <= N.of_nat (length css))%N;
  row_depths : forall d, in_segments d (segments m) <-> exists owner, claims_of css t tier d owner;
  row_local : tm_locality m = Local <->
    exists d owner, claims_of css t tier d owner /\ locality owner = Local;
}.

Definition best_ok (tiers : list StorageTier) (css : list (list OwnerTier)) (best : Best) : Prop :=
  forall t tier,
    match best !! (t, tier) with
    | Some m => row_ok tiers css t tier m
    | None => tier ∈ tiers -> forall d owner, ~ claims_of css t tier d owner
    end.

(** The abstract indexer: the abstract shard of every group, and the hidden
    sources. *)
Record IxAbs := MkIxAbs { group_abs : N -> Abs; hidden : gset (string * N) }.

Definition empty_ix_abs : IxAbs := MkIxAbs (fun _ => empty_abs) ∅.

Inductive ix_op :=
| IxStore (group : N) (owner : ResidencyOwner) (tier : StorageTier) (parent_seq : option string)
    (blocks : list IncomingBlock)
| IxRemove (group : N) (owner : ResidencyOwner) (tier : StorageTier) (seq_hashes : list string)
| IxClear (owner : ResidencyOwner) (scope : ClearScope)
| IxSuspend (source : string) (dp_rank : N)
| IxInvalidate (source : string) (dp_rank : N)
| IxResume (source : string) (dp_rank : N)
| IxFind (query : MatchQuery).

Definition ix_step (o : ix_op) (ix : KvBlockIndexer) : option KvBlockIndexer :=
  match o with
  | IxStore g owner tier parent blocks => ix_store g owner tier parent blocks ix
  | IxRemove g owner tier seqs => ix_remove g owner tier seqs ix
  | IxClear owner scope => ix_clear owner scope ix
  | IxSuspend source rank => Some (suspend_source source rank ix)
  | IxInvalidate source rank => invalidate_source source rank ix
  | IxResume source rank => Some (resume_source source rank ix)
  | IxFind query => snd <$> find_matches query ix
  end.

Definition on_group (g : N) (f : Abs -> Abs) (a : IxAbs) : IxAbs :=
  MkIxAbs (<[g := f (group_abs a g)]> (group_abs a)) (hidden a).

Definition on_groups (f : Abs -> Abs) (a : IxAbs) : IxAbs :=
  MkIxAbs (fun g => f (group_abs a g)) (hidden a).

Definition ix_abs_step (o : ix_op) (a : IxAbs) : IxAbs :=
  match o with
  | IxStore g owner tier parent blocks => on_group g (abs_store (owner, tier) parent blocks) a
  | IxRemove g owner tier seqs => on_group g (abs_remove (owner, tier) seqs) a
  | IxClear owner scope => on_groups (abs_clear (in_clear owner scope)) a
  | IxSuspend source rank => MkIxAbs (group_abs a) ({[ (source, rank) ]} ∪ hidden a)
  | IxInvalidate source rank =>
      on_groups (abs_clear (of_source source rank))
        (MkIxAbs (group_abs a) ({[ (source, rank) ]} ∪ hidden a))
  | IxResume source rank => MkIxAbs (group_abs a) (hidden a ∖ {[ (source, rank) ]})
  | IxFind _ => a
  end.

Definition ix_contract (o : ix_op) (a : IxAbs) : Prop :=
  match o with
  | IxStore g _ _ parent blocks => store_contract parent blocks (group_abs a g)
  | _ => True
  end.

Fixpoint ix_trace_ok (ops : list ix_op) (a : IxAbs) : Prop :=
  match ops with
  | [] => True
  | o :: ops => ix_contract o a /\ ix_trace_ok ops (ix_abs_step o a)
  end.

Definition ix_abs_run (ops : list ix_op) (a : IxAbs) : IxAbs := foldl (fun a o => ix_abs_step o a) a ops.

Definition ix_implements (ix : KvBlockIndexer) (a : IxAbs) : Prop :=
  (forall g, implements (default new_shard (shards ix !! g)) (group_abs a g)) /\
  suspended_sources ix = hidden a.

(** Some owner routing to [t] holds the first [S d] blocks of a query at [tier]. *)
Definition target_holds (a : IxAbs) (query : MatchQuery) (t : RoutableTarget) (tier : StorageTier)
  (d : nat) (owner : ResidencyOwner) : Prop :=
  d < length (local_hashes query) /\ target owner = t /\
  holds (group_abs a (group_idx query)) (take (S d) (local_hashes query)) (owner, tier).

Definition visible (a : IxAbs) (t : RoutableTarget) : Prop :=
  (instance_id t, target_dp_rank t) ∉ hidden a.

#[export] Instance visible_dec a t : Decision (visible a t).
Proof. unfold visible. apply _. Defined.

(** The state of the inner loop after the owners [cur] of depth [length css]. *)
Definition depth_ok (tiers : list StorageTier) (css : list (list OwnerTier)) (cur : list OwnerTier)
  (st : Best * Seen) : Prop :=
  best_ok tiers (css ++ [cur]) st.1 /\
  forall t tier, (t, tier) ∈ st.2 <-> tier ∈ tiers /\ exists owner, (owner, tier) ∈ cur /\ target owner = t.

(** What a shard's answer says of the abstract shard. *)
Record answer_ok (abs : Abs) (query : MatchQuery) (ms : list TierMatch) : Prop := {
  answer_rows : forall m, m ∈ ms ->
    tm_tier m ∈ tiers_of_interest query /\ segments m <> [] /\ separated 0 (segments m) /\
    (forall d, in_segments d (segments m) <->
      d < length (local_hashes query) /\ exists owner, target owner = tm_target m /\
        holds abs (take (S d) (local_hashes query)) (owner, tm_tier m)) /\
    (tm_locality m = Local <->
      exists d owner, d < length (local_hashes query) /\ target owner = tm_target m /\
        locality owner = Local /\ holds abs (take (S d) (local_hashes query)) (owner, tm_tier m));
  answer_complete : forall d owner tier, tier ∈ tiers_of_interest query ->
    d < length (local_hashes query) -> holds abs (take (S d) (local_hashes query)) (owner, tier) ->
    exists m, m ∈ ms /\ tm_target m = target owner /\ tm_tier m = tier;
  answer_unique : NoDup ((fun m => (tm_target m, tm_tier m)) <$> ms);
}.

(** A step that is no store by the source. *)
Definition no_store_by (source : string) (dp_rank : N) (o : ix_op) : Prop :=
  match o with
  | IxStore _ owner _ _ _ => target owner <> MkTarget source dp_rank
  | _ => True
  end.

(** Nothing of the source is held in any group. *)
Definition forgotten (source : string) (dp_rank : N) (a : IxAbs) : Prop :=
  forall g key seq, (key, seq) ∈ active (group_abs a g) -> target key.1 <> MkTarget source dp_rank.

(** Two workers, one of them invalidated and resumed. *)
Definition ix_example : list ix_op := [
  IxStore 0 worker_a Device None [("1", "x"); ("2", "y")];
  IxStore 0 worker_b Device None [("1", "x")];
  IxInvalidate "a" 0;
  IxResume "a" 0;
  IxStore 0 worker_b Device (Some "1") [("2", "y")]]%string.

Definition query_example : MatchQuery := {|
  group_idx := 0; local_hashes := ["x"; "y"]%string; tiers_of_interest := [Device; External] |}.

(** ** Segments *)

Lemma separated_snoc lo segs s e : separated lo (segs ++ [(s, e)]) <->
  separated lo segs /\ (forall s' e', (s', e') ∈ segs -> e' + 1 <= s)%N /\ (lo <= s)%N /\ (s < e)%N.
Proof.
  revert lo. induction segs as [|[s0 e0] segs IH]; intros lo; simpl.
  - split; [|tauto]. intros (? & ? & _). split_and!; [done| |done|done]. by intros ?? ?%elem_of_nil.
  - rewrite IH. split.
    + intros (? & ? & ? & Hall & ? & ?). split_and!; [done..| |lia|done].
      intros s' e' [[= -> ->]|]%elem_of_cons; [lia|eauto].
    + intros ((? & ? & ?) & Hall & ? & ?). split_and!; [done..|eauto using list_elem_of_further| |done].
      apply (Hall s0 e0). left.
Qed.

Lemma in_segments_snoc d segs s e :
  in_segments d (segs ++ [(s, e)]) <-> in_segments d segs \/ (s <= N.of_nat d < e)%N.
Proof. unfold in_segments. setoid_rewrite elem_of_app. setoid_rewrite list_elem_of_singleton. naive_solver. Qed.

Lemma separated_bound lo segs s e : separated lo segs -> (s, e) ∈ segs -> (s < e)%N.
Proof.
  revert lo. induction segs as [|[s0 e0] segs IH]; intros lo H; [by intros ?%elem_of_nil|].
  destruct H as (? & ? & ?). intros [[= -> ->]|]%elem_of_cons; eauto.
Qed.

Lemma as_u32_small n : (N.of_nat n < u32_mod)%N -> as_u32 n = N.of_nat n.
Proof. apply N.mod_small. Qed.

(** Adding a depth beyond every interval adds exactly that depth. *)
Lemma extend_segments_spec depth segs : (N.of_nat (S depth) < u32_mod)%N -> separated 0 segs ->
  (forall s e, (s, e) ∈ segs -> (e <= N.of_nat depth)%N) ->
  separated 0 (extend_segments depth segs) /\
  (forall s e, (s, e) ∈ extend_segments depth segs -> (e <= N.of_nat (S depth))%N) /\
  (forall d, in_segments d (extend_segments depth segs) <-> in_segments d segs \/ d = depth).
Proof.
  intros Hu Hsep Hbound. unfold extend_segments. rewrite !as_u32_small by lia.
  assert (separated 0 (segs ++ [(N.of_nat depth, N.of_nat (S depth))]) /\
    (forall s e, (s, e) ∈ segs ++ [(N.of_nat depth, N.of_nat (S depth))] -> (e <= N.of_nat (S depth))%N) /\
    (forall d, in_segments d (segs ++ [(N.of_nat depth, N.of_nat (S depth))]) <->
      in_segments d segs \/ d = depth) \/ exists s, (s, N.of_nat depth) ∈ segs) as Happ.
  { destruct (decide (Exists (fun se => se.2 = N.of_nat depth) segs)) as [Hex|Hno].
    - right. apply Exists_exists in Hex as ([s e] & Hin & Heq). simpl in Heq. subst. eauto.
    - left. split_and!.
      + apply separated_snoc. split_and!; [done| |lia|lia]. intros s e Hin.
        assert (e <> N.of_nat depth). { intros ->. apply Hno, Exists_exists. by eexists (s, _). }
        apply Hbound in Hin. lia.
      + intros s e [Hin|[= -> ->]%list_elem_of_singleton]%elem_of_app; [apply Hbound in Hin; lia|lia].
      + intros d. rewrite in_segments_snoc. assert (N.of_nat depth <= N.of_nat d < N.of_nat (S depth) <->
          d = depth)%N by lia. tauto. }
  destruct (last segs) as [[s e]|] eqn:Hlast.
  2:{ destruct Happ as [|[s Hin]]; [done|]. apply last_None in Hlast as ->. by apply elem_of_nil in Hin. }
  apply last_Some in Hlast as [l ->]. destruct (N.eqb_spec e (N.of_nat depth)) as [->|Hne].
  - rewrite removelast_last. apply separated_snoc in Hsep as (Hs & Hall & ? & ?). split_and!.
    + apply separated_snoc. split_and!; [done..|lia].
    + intros s' e' [Hin|[= -> ->]%list_elem_of_singleton]%elem_of_app; [|lia].
      assert (e' <= N.of_nat depth)%N by (eapply Hbound; apply elem_of_app; eauto). lia.
    + intros d. rewrite !in_segments_snoc. assert (s <= N.of_nat d < N.of_nat (S depth) <->
        s <= N.of_nat d < N.of_nat depth \/ d = depth)%N by lia. tauto.
  - destruct Happ as [|[s' Hin]]; [done|]. exfalso.
    apply separated_snoc in Hsep as (Hs & Hall & ? & ?).
    assert (e <= N.of_nat depth)%N by (eapply Hbound; apply elem_of_app; right; left).
    apply elem_of_app in Hin as [Hin|[= -> <-]%list_elem_of_singleton]; [|done].
    apply Hall in Hin. lia.
Qed.

(** ** The collapse *)

Lemma row_ok_ext tiers css css' t tier m :
  (forall d owner, claims_of css' t tier d owner <-> claims_of css t tier d owner) ->
  length css <= length css' -> row_ok tiers css t tier m -> row_ok tiers css' t tier m.
Proof.
  intros Hext Hlen []. split; try done.
  - intros s e Hin. apply row_bound0 in Hin. lia.
  - intros d. rewrite row_depths0. by setoid_rewrite Hext.
  - rewrite row_local0. by setoid_rewrite Hext.
Qed.

Lemma claims_of_snoc css cur t tier d owner :
  claims_of (css ++ [cur]) t tier d owner <->
  claims_of css t tier d owner \/ (d = length css /\ (owner, tier) ∈ cur /\ target owner = t).
Proof.
  unfold claims_of. destruct (decide (d < length css)).
  - rewrite lookup_app_l by done. split; [tauto|]. intros [|(-> & _)]; [done|lia].
  - rewrite lookup_app_r, (lookup_ge_None_2 css) by lia. simpl.
    destruct (d - length css) as [|n'] eqn:E; simpl.
    + assert (d = length css) as -> by lia. set_solver.
    + split; [set_solver|]. intros [[?%elem_of_nil _]|(-> & _)]; [done|lia].
Qed.

Lemma best_ok_ext tiers css css' best :
  (forall t tier d owner, claims_of css' t tier d owner <-> claims_of css t tier d owner) ->
  length css <= length css' -> best_ok tiers css best -> best_ok tiers css' best.
Proof.
  intros Hext Hlen Hok t tier. specialize (Hok t tier). destruct (best !! (t, tier)) as [m|].
  - eapply (row_ok_ext tiers css); [apply Hext|done|exact Hok].
  - intros Hin d owner. rewrite Hext. by apply Hok.
Qed.

(** The row of the owner being processed. *)
Lemma collapse_row tiers css cur owner tier best seen :
  (N.of_nat (S (length css)) < u32_mod)%N -> tier ∈ tiers -> depth_ok tiers css cur (best, seen) ->
  let k := (target owner, tier) in
  let entry := default (MkMatch (target owner) tier [] (locality owner)) (best !! k) in
  row_ok tiers (css ++ [cur ++ [(owner, tier)]]) (target owner) tier
    (MkMatch (tm_target entry) (tm_tier entry)
      (if bool_decide (k ∉ seen) then extend_segments (length css) (segments entry) else segments entry)
      (if decide (locality owner = Local) then Local else tm_locality entry)).
Proof.
  intros Hu Htier [Hbest Hseen] k entry. specialize (Hseen (target owner) tier). simpl in Hbest, Hseen.
  specialize (Hbest (target owner) tier). fold k in Hbest, Hseen.
  assert (forall d o, claims_of (css ++ [cur ++ [(owner, tier)]]) (target owner) tier d o <->
    claims_of (css ++ [cur]) (target owner) tier d o \/ (d = length css /\ o = owner)) as Hclaims.
  { intros d o. rewrite !claims_of_snoc, elem_of_app, list_elem_of_singleton. naive_solver. }
  assert (exists e0, entry = e0 /\ tm_target e0 = target owner /\ tm_tier e0 = tier /\
    separated 0 (segments e0) /\
    (forall s e, (s, e) ∈ segments e0 -> (e <= N.of_nat (S (length css)))%N) /\
    (forall d, in_segments d (segments e0) <-> exists o, claims_of (css ++ [cur]) (target owner) tier d o) /\
    ((if decide (locality owner = Local) then Local else tm_locality e0) = Local <->
      locality owner = Local \/ exists d o, claims_of (css ++ [cur]) (target owner) tier d o /\
        locality o = Local)) as (e0 & -> & Ht & Htr & Hsep & Hbd & Hdep & Hloc).
  { exists entry. split; [done|]. unfold entry. destruct (best !! k) as [m|]; simpl.
    - destruct Hbest as [? ? ? ? Hb ? Hl]. rewrite length_app, Nat.add_1_r in Hb.
      split_and!; [done..|]. case_decide; [tauto|]. rewrite Hl. tauto.
    - specialize (Hbest Htier). split_and!; [done..| | |].
      + by intros ?? ?%elem_of_nil.
      + intros d. split; [intros (?&?&?%elem_of_nil&_); done|]. intros [o Ho]. by destruct (Hbest d o).
      + case_decide; [tauto|]. split; [done|]. intros [|(d & o & Ho & _)]; [done|]. by destruct (Hbest d o). }
  clear Hbest.
  assert (exists segs, (if bool_decide (k ∉ seen) then extend_segments (length css) (segments e0)
      else segments e0) = segs /\ separated 0 segs /\
    (forall s e, (s, e) ∈ segs -> (e <= N.of_nat (S (length css)))%N) /\
    (forall d, in_segments d segs <-> in_segments d (segments e0) \/ d = length css))
    as (segs & -> & Hs1 & Hs2 & Hs3).
  { case_bool_decide as Hfirst.
    - eexists. split; [done|]. apply extend_segments_spec; [done..|]. intros s e Hin.
      pose proof (separated_bound _ _ _ _ Hsep Hin). pose proof (Hbd _ _ Hin).
      destruct (decide (e = N.of_nat (S (length css)))) as [->|]; [|lia]. exfalso.
      destruct (proj1 (Hdep (length css))) as [o Ho]; [exists s; eexists; split; [done|lia]|].
      apply claims_of_snoc in Ho as [[Ho _]|(_ & Ho & Heq)].
      + rewrite lookup_ge_None_2 in Ho by lia. by apply elem_of_nil in Ho.
      + apply Hfirst, Hseen. eauto.
    - eexists. split; [done|]. split_and!; [done..|]. intros d. split; [tauto|].
      intros [Hd| ->]; [done|]. apply Hdep. apply Hseen in Hfirst as (_ & o & Ho & Heq).
      exists o. apply claims_of_snoc. by right. }
  split; simpl; [done..| | |].
  - rewrite length_app, Nat.add_1_r. done.
  - intros d. rewrite Hs3, Hdep. setoid_rewrite Hclaims. naive_solver.
  - rewrite Hloc. setoid_rewrite Hclaims. naive_solver.
Qed.

Lemma claims_of_other css cur owner tier t' tier' d o : (target owner, tier) <> (t', tier') ->
  claims_of (css ++ [cur ++ [(owner, tier)]]) t' tier' d o <-> claims_of (css ++ [cur]) t' tier' d o.
Proof.
  intros Hne. rewrite !claims_of_snoc, elem_of_app, list_elem_of_singleton. naive_solver.
Qed.

Lemma collapse_claim_ok tiers css cur claim st : (N.of_nat (S (length css)) < u32_mod)%N ->
  depth_ok tiers css cur st ->
  depth_ok tiers css (cur ++ [claim]) (collapse_claim tiers (length css) claim st).
Proof.
  intros Hu Hok. destruct claim as [owner tier], st as [best seen]. unfold collapse_claim.
  assert (length (css ++ [cur]) <= length (css ++ [cur ++ [(owner, tier)]])) as Hlen
    by (rewrite !length_app; simpl; lia).
  destruct (decide (tier ∈ tiers)) as [Hin|Hout].
  - pose proof (collapse_row tiers css cur owner tier best seen Hu Hin Hok) as Hrow.
    destruct Hok as [Hbest Hseen]. split; simpl in *.
    + intros t' tier'. destruct (decide ((target owner, tier) = (t', tier'))) as [[= <- <-]|Hne].
      * by rewrite lookup_insert_eq.
      * rewrite lookup_insert_ne by done. specialize (Hbest t' tier').
        destruct (best !! (t', tier')) as [m|].
        -- eapply row_ok_ext; [intros; by apply claims_of_other|done|done].
        -- intros Hin' d o. rewrite claims_of_other by done. by apply Hbest.
    + intros t' tier'. rewrite elem_of_union, elem_of_singleton, Hseen.
      setoid_rewrite elem_of_app. setoid_rewrite list_elem_of_singleton. naive_solver.
  - destruct Hok as [Hbest Hseen]. split; simpl in *.
    + intros t' tier'. specialize (Hbest t' tier').
      destruct (best !! (t', tier')) as [m|].
      * assert ((target owner, tier) <> (t', tier')) by (intros [= <- <-]; by destruct Hbest).
        eapply row_ok_ext; [intros; by apply claims_of_other|done|done].
      * intros Hin' d o. rewrite claims_of_other by congruence. by apply Hbest.
    + intros t' tier'. rewrite Hseen. setoid_rewrite elem_of_app.
      setoid_rewrite list_elem_of_singleton. naive_solver.
Qed.

Lemma collapse_depth_ok tiers css owners best : (N.of_nat (S (length css)) < u32_mod)%N ->
  best_ok tiers css best -> best_ok tiers (css ++ [owners]) (collapse_depth tiers (length css) owners best).
Proof.
  intros Hu Hok. unfold collapse_depth.
  assert (forall os cur st, depth_ok tiers css cur st -> depth_ok tiers css (cur ++ os)
    (foldl (fun st claim => collapse_claim tiers (length css) claim st) st os)) as Hfold.
  { induction os as [|o os IH]; intros cur st Hst; simpl; [by rewrite app_nil_r|].
    rewrite cons_middle, (assoc_L (++)). by apply IH, collapse_claim_ok. }
  apply (Hfold owners [] (best, ∅)). split; simpl; [|set_solver].
  apply (best_ok_ext tiers css); [|rewrite length_app; lia|done]. intros t tier d o. rewrite claims_of_snoc.
  set_solver.
Qed.

Lemma collapse_from_ok tiers css done best : (N.of_nat (length done + length css) < u32_mod)%N ->
  best_ok tiers done best -> best_ok tiers (done ++ css) (collapse_from tiers (length done) css best).
Proof.
  revert done best. induction css as [|owners css IH]; intros done best Hu Hok; simpl.
  - by rewrite app_nil_r.
  - rewrite cons_middle, (assoc_L (++)).
    replace (S (length done)) with (length (done ++ [owners])) by (rewrite length_app; simpl; lia).
    simpl in Hu. apply IH; [rewrite length_app; simpl; lia|]. apply collapse_depth_ok; [lia|done].
Qed.

Lemma shard_find_matches_ok sh abs query : implements sh abs ->
  (N.of_nat (length (local_hashes query)) < u32_mod)%N ->
  exists ms, shard_find_matches query sh = Some ms /\ answer_ok abs query ms.
Proof.
  intros Himp Hu. destruct (node_claims_spec sh abs (local_hashes query) Himp) as (css & Hc & Hlen & Hspec).
  unfold shard_find_matches. rewrite Hc. cbn [mbind option_bind]. eexists. split; [done|].
  set (tiers := tiers_of_interest query) in *. set (q := local_hashes query) in *.
  assert (best_ok tiers css (collapse_from tiers 0 css ∅)) as Hbest.
  { apply (collapse_from_ok tiers css [] ∅); [simpl; lia|].
    intros t tier. rewrite lookup_empty. intros _ d o [?%elem_of_nil _]. done. }
  set (best := collapse_from tiers 0 css ∅) in *. clearbody best.
  assert (forall t tier d o, claims_of css t tier d o <->
    d < length q /\ target o = t /\ holds abs (take (S d) q) (o, tier)) as Hclaims.
  { intros t tier d o. unfold claims_of. destruct (decide (d < length q)) as [Hd|Hd].
    - rewrite <- Hspec by done. tauto.
    - rewrite lookup_ge_None_2 by lia. simpl. split; [intros [?%elem_of_nil _]; done|tauto]. }
  assert (forall m, m ∈ (map_to_list best).*2 <-> exists t tier, best !! (t, tier) = Some m) as Hrows.
  { intros m. rewrite list_elem_of_fmap. split.
    - intros ([[t tier] m'] & -> & H%elem_of_map_to_list). eauto.
    - intros (t & tier & H). exists (t, tier, m). split; [done|]. by apply elem_of_map_to_list. }
  split.
  - intros m [Hne (t & tier & Hm)%Hrows]%list_elem_of_filter.
    specialize (Hbest t tier). rewrite Hm in Hbest. destruct Hbest as [<- <- ? ? _ Hdep Hloc].
    split_and!; [done..| |].
    + intros d. rewrite Hdep. setoid_rewrite Hclaims. naive_solver.
    + rewrite Hloc. setoid_rewrite Hclaims. naive_solver.
  - intros d owner tier Htier Hd Hh. specialize (Hbest (target owner) tier).
    destruct (best !! (target owner, tier)) as [m|] eqn:Hm.
    + exists m. destruct Hbest as [Ht Htr _ _ _ Hdep _]. split_and!; [|done..].
      apply list_elem_of_filter. split; [|apply Hrows; eauto]. intros Hnil.
      destruct (proj2 (Hdep d)) as (s & e & Hin & _); [exists owner; by apply Hclaims|].
      rewrite Hnil in Hin. by apply elem_of_nil in Hin.
    + exfalso. apply (Hbest Htier d owner). by apply Hclaims.
  - assert ((fun m => (tm_target m, tm_tier m)) <$> (map_to_list best).*2 = (map_to_list best).*1) as Heq.
    { rewrite <- list_fmap_compose. apply list_fmap_ext. intros i [[t tier] m] Hi. simpl.
      apply list_elem_of_lookup_2, elem_of_map_to_list in Hi. specialize (Hbest t tier).
      rewrite Hi in Hbest. by destruct Hbest as [-> ->]. }
    eapply sublist_NoDup; [|apply fmap_sublist, sublist_filter]. rewrite Heq. apply NoDup_fst_map_to_list.
Qed.

(** ** The indexer *)

Lemma shard_ok g ix a : ix_implements ix a ->
  exists s ix', shard g ix = (s, ix') /\ implements s (group_abs a g) /\ ix_implements ix' a /\
    source_generation ix' = source_generation ix.
Proof.
  intros [Hsh Hhid]. unfold shard. pose proof (Hsh g) as Hg. destruct (shards ix !! g) as [s|] eqn:E.
  - exists s, ix. done.
  - eexists _, _. split_and!; [done|done| |done]. split; [|done]. intros g'. simpl.
    destruct (decide (g = g')) as [<-|]; [by rewrite lookup_insert_eq|].
    rewrite lookup_insert_ne by done. apply Hsh.
Qed.

Lemma put_shard_ok g s f ix a : ix_implements ix a -> implements s (f (group_abs a g)) ->
  ix_implements (put_shard g s ix) (on_group g f a).
Proof.
  intros [Hsh Hhid] Hs. split; [|done]. intros g'. simpl. destruct (decide (g = g')) as [<-|].
  - by rewrite lookup_insert_eq, fn_lookup_insert.
  - by rewrite lookup_insert_ne, fn_lookup_insert_ne by done.
Qed.

Lemma each_shard_loop (f : GroupShard -> option GroupShard) l ix : NoDup l.*1 ->
  (forall g s, (g, s) ∈ l -> exists s', f s = Some s') ->
  exists ix', foldM (fun gs ix => s ← f gs.2; Some (put_shard gs.1 s ix)) l ix = Some ix' /\
    suspended_sources ix' = suspended_sources ix /\
    (forall g, g ∉ l.*1 -> shards ix' !! g = shards ix !! g) /\
    (forall g s, (g, s) ∈ l -> shards ix' !! g = f s).
Proof.
  revert ix. induction l as [|[g s] l IH]; intros ix Hnd Hf.
  { exists ix. split_and!; [done..|]. by intros ?? ?%elem_of_nil. }
  simpl in *. apply NoDup_cons in Hnd as [Hg Hnd]. destruct (Hf g s) as [s' Hs']; [left|].
  rewrite Hs'. simpl. destruct (IH (put_shard g s' ix) Hnd) as (ix' & -> & Hsus & Hout & Hin).
  { intros g0 s0 Hin. apply (Hf g0). by right. }
  exists ix'. split_and!; [done|done| |].
  - intros g0 [Hne Hnin]%not_elem_of_cons. rewrite Hout by done. simpl. by rewrite lookup_insert_ne.
  - intros g0 s0 [[= -> ->]|Hin0]%elem_of_cons; [|by apply Hin].
    rewrite Hout by done. simpl. by rewrite lookup_insert_eq.
Qed.

Lemma each_shard_ok f F ix a : ix_implements ix a ->
  (forall s abs, implements s abs -> exists s', f s = Some s' /\ implements s' (F abs)) ->
  f new_shard = Some new_shard ->
  exists ix', each_shard f ix = Some ix' /\ ix_implements ix' (on_groups F a).
Proof.
  intros [Hsh Hhid] Hf Hnew. unfold each_shard.
  destruct (each_shard_loop f (map_to_list (shards ix)) ix) as (ix' & Hrun & Hsus & Hout & Hin).
  - apply NoDup_fst_map_to_list.
  - intros g s Hgs%elem_of_map_to_list. specialize (Hsh g). rewrite Hgs in Hsh.
    destruct (Hf _ _ Hsh) as (s' & ? & _). eauto.
  - exists ix'. split; [done|]. split; [|by rewrite Hsus]. intros g. simpl. specialize (Hsh g).
    destruct (shards ix !! g) as [s|] eqn:Hg.
    + simpl in Hsh. destruct (Hf _ _ Hsh) as (s' & Hs & Himp).
      by rewrite (Hin g s), Hs by (by apply elem_of_map_to_list).
    + rewrite Hout, Hg; [|intros ([g' s] & -> & H%elem_of_map_to_list)%list_elem_of_fmap; simpl in *; congruence].
      destruct (Hf _ _ Hsh) as (s' & Hs & Himp). simpl in *. congruence.
Qed.

Lemma find_matches_result query ix a : ix_implements ix a ->
  (N.of_nat (length (local_hashes query)) < u32_mod)%N ->
  exists ms ix', find_matches query ix =
      Some (filter (fun hit => visible a (tm_target hit)) ms, ix') /\
    ix_implements ix' a /\ answer_ok (group_abs a (group_idx query)) query ms.
Proof.
  intros Hix Hu. destruct (shard_ok (group_idx query) ix a Hix) as (s & ix' & Hs & Himp & Hix' & Hgen).
  destruct (shard_find_matches_ok s _ query Himp Hu) as (ms & Hms & Hans).
  exists ms, ix'. split_and!; [|done|done]. unfold find_matches. rewrite Hs, Hms. cbn [mbind option_bind].
  rewrite Hgen, N.eqb_refl. destruct Hix' as [_ ->]. done.
Qed.

Lemma ix_step_ok o ix a : ix_implements ix a -> ix_contract o a ->
  exists ix', ix_step o ix = Some ix' /\ ix_implements ix' (ix_abs_step o a).
Proof.
  intros Hix Hcon. destruct o; simpl in *.
  - unfold ix_store. destruct (shard_ok group ix a Hix) as (s & ix1 & -> & Hs & Hix1 & _).
    destruct (shard_step_inv (OpStore owner tier parent_seq blocks) s _ Hs Hcon) as (s' & Hs' & Himp).
    simpl in Hs'. rewrite Hs'. eexists. split; [done|]. by apply put_shard_ok.
  - unfold ix_remove. destruct (shard_ok group ix a Hix) as (s & ix1 & -> & Hs & Hix1 & _).
    destruct (shard_step_inv (OpRemove owner tier seq_hashes) s _ Hs I) as (s' & Hs' & Himp).
    simpl in Hs'. rewrite Hs'. eexists. split; [done|]. by apply put_shard_ok.
  - apply each_shard_ok; [done| |done].
    intros s abs Hs. apply (shard_step_inv (OpClear owner scope) s abs Hs I).
  - eexists. split; [done|]. destruct Hix as [? Hhid]. split; simpl; [done|by rewrite Hhid].
  - apply each_shard_ok; [|intros s abs Hs; apply (shard_step_inv (OpClearSource source dp_rank) s abs Hs I)|done].
    destruct Hix as [? Hhid]. split; simpl; [done|by rewrite Hhid].
  - eexists. split; [done|]. destruct Hix as [? Hhid]. split; simpl; [done|by rewrite Hhid].
  - unfold find_matches. destruct (shard_ok (group_idx query) ix a Hix) as (s & ix1 & -> & Hs & Hix1 & _).
    unfold shard_find_matches. destruct (node_claims_spec s _ (local_hashes query) Hs) as (css & -> & _).
    simpl. eauto.
Qed.

Lemma new_indexer_ok : ix_implements new_indexer empty_ix_abs.
Proof. split; [|done]. intros g. simpl. rewrite lookup_empty. apply new_shard_implements. Qed.

Lemma ix_run_ok ops ix a : ix_implements ix a -> ix_trace_ok ops a ->
  exists ix', foldM ix_step ops ix = Some ix' /\ ix_implements ix' (ix_abs_run ops a).
Proof.
  revert ix a. induction ops as [|o ops IH]; intros ix a Hix Hok; [by exists ix|].
  destruct Hok as [Ho Hok]. destruct (ix_step_ok o ix a Hix Ho) as (ix1 & H1 & Hix1).
  simpl. rewrite H1. simpl. by apply IH.
Qed.

Lemma abs_record_active key base blocks abs k seq :
  (k, seq) ∈ active (abs_record key base blocks abs) -> k = key \/ (k, seq) ∈ active abs.
Proof.
  revert base abs. induction blocks as [|[s l] blocks IH]; intros base abs H; simpl in H; [by right|].
  apply IH in H as [|H]; [by left|]. simpl in H. set_solver.
Qed.

Lemma forgotten_step o a source rank : no_store_by source rank o -> forgotten source rank a ->
  forgotten source rank (ix_abs_step o a).
Proof.
  intros Hno Hf g key seq. specialize (Hf g key seq). destruct o; simpl in *; try done.
  - destruct (decide (group = g)) as [<-|]; [|by rewrite fn_lookup_insert_ne].
    rewrite fn_lookup_insert. unfold abs_store. case_match; [|done].
    intros [->|]%abs_record_active; [done|auto].
  - destruct (decide (group = g)) as [<-|]; [|by rewrite fn_lookup_insert_ne].
    rewrite fn_lookup_insert. intros [_ ?]%elem_of_filter. auto.
  - intros [_ ?]%elem_of_filter. auto.
  - intros [_ ?]%elem_of_filter. auto.
Qed.

Lemma forgotten_run ops a source rank : Forall (no_store_by source rank) ops ->
  forgotten source rank a -> forgotten source rank (ix_abs_run ops a).
Proof.
  intros Hops. revert a. induction Hops as [|o ops Ho _ IH]; intros a Ha; [done|].
  by apply IH, forgotten_step.
Qed.

(** ** Properties *)

(** C3: queries are exact.  After any sequence of calls that keeps the engine's
    contract, a query of fewer than 2^32 blocks returns one row per target and
    tier; a row's intervals are nonempty, separated (so maximal) and cover
    exactly the depths at which some owner routing to the target holds the
    query's prefix at that tier; its locality is local exactly when one of these
    owners is a worker; hidden sources are not reported, and everything held by
    a source that is not hidden is. *)
Theorem find_matches_exact ops query :
  ix_trace_ok ops empty_ix_abs -> (N.of_nat (length (local_hashes query)) < u32_mod)%N ->
  let a := ix_abs_run ops empty_ix_abs in
  exists ix ms ix', foldM ix_step ops new_indexer = Some ix /\ find_matches query ix = Some (ms, ix') /\
    NoDup ((fun m => (tm_target m, tm_tier m)) <$> ms) /\
    (forall m, m ∈ ms ->
      visible a (tm_target m) /\ tm_tier m ∈ tiers_of_interest query /\
      segments m <> [] /\ separated 0 (segments m) /\
      (forall d, in_segments d (segments m) <->
        exists owner, target_holds a query (tm_target m) (tm_tier m) d owner) /\
      (tm_locality m = Local <->
        exists d owner, target_holds a query (tm_target m) (tm_tier m) d owner /\ locality owner = Local)) /\
    (forall t tier d owner, visible a t -> tier ∈ tiers_of_interest query ->
      target_holds a query t tier d owner -> exists m, m ∈ ms /\ tm_target m = t /\ tm_tier m = tier).
Proof.
  intros Hok Hu a. destruct (ix_run_ok ops _ _ new_indexer_ok Hok) as (ix & Hrun & Hix). fold a in Hix.
  destruct (find_matches_result query ix a Hix Hu) as (ms & ix' & Hfind & _ & [Hrows Hcomp Huniq]).
  exists ix. eexists _, ix'. split_and!; [done|exact Hfind| | |].
  - eapply sublist_NoDup; [exact Huniq|]. apply fmap_sublist, sublist_filter.
  - intros m [Hvis Hm]%list_elem_of_filter. destruct (Hrows m Hm) as (? & ? & ? & Hd & Hl).
    split_and!; [done..| |].
    + intros d. rewrite Hd. unfold target_holds. naive_solver.
    + rewrite Hl. unfold target_holds. naive_solver.
  - intros t tier d owner Hvis Htier (Hd & <- & Hh).
    destruct (Hcomp d owner tier Htier Hd Hh) as (m & Hm & Ht & Htr). exists m. split_and!; [|done..].
    apply list_elem_of_filter. by rewrite Ht.
Qed.

Lemma find_matches_exact_witness : exists ix ms ix',
  foldM ix_step ix_example new_indexer = Some ix /\
  find_matches query_example ix = Some (ms, ix') /\
  exists m, m ∈ ms /\ tm_target m = MkTarget "b" 0 /\ tm_tier m = Device.
Proof.
  assert (ix_trace_ok ix_example empty_ix_abs) as Hok by solve_contract.
  destruct (find_matches_exact ix_example query_example Hok) as (ix & ms & ix' & Hrun & Hf & _ & _ & H);
    [vm_compute; reflexivity|].
  exists ix, ms, ix'. split; [exact Hrun|]. split; [exact Hf|].
  apply (H (MkTarget "b" 0) Device 1 worker_b).
  - apply (bool_decide_eq_true_1 _). vm_refl.
  - apply (bool_decide_eq_true_1 _). vm_refl.
  - split; [simpl; lia|]. split; [reflexivity|]. exists "2"%string. split; [vm_refl|].
    apply (bool_decide_eq_true_1 _). vm_refl.
Defined.

(** An invalidated source stays forgotten.  Once a source and rank is
    invalidated, no query credits it again, whatever other calls follow (its
    resumption included), until a new store by that source. *)
Theorem invalidated_not_credited ops1 ops2 source rank query :
  ix_trace_ok (ops1 ++ IxInvalidate source rank :: ops2) empty_ix_abs ->
  Forall (no_store_by source rank) ops2 -> (N.of_nat (length (local_hashes query)) < u32_mod)%N ->
  exists ix ms ix',
    foldM ix_step (ops1 ++ IxInvalidate source rank :: ops2) new_indexer = Some ix /\
    find_matches query ix = Some (ms, ix') /\
    Forall (fun m => tm_target m <> MkTarget source rank) ms.
Proof.
  intros Hok Hops Hu. destruct (ix_run_ok _ _ _ new_indexer_ok Hok) as (ix & Hrun & Hix).
  destruct (find_matches_result query ix _ Hix Hu) as (ms & ix' & Hfind & _ & [Hrows _ _]).
  exists ix. eexists _, ix'. split_and!; [done|exact Hfind|].
  apply Forall_forall. intros m [_ Hm]%list_elem_of_filter Ht.
  destruct (Hrows m Hm) as (_ & Hne & Hsep & Hd & _).
  destruct (segments m) as [|[s e] segs]; [done|]. destruct Hsep as (_ & Hlt & _).
  destruct (proj1 (Hd (N.to_nat s))) as (_ & owner & Howner & seq & _ & Hact).
  { exists s, e. split; [left|lia]. }
  unfold ix_abs_run in Hact. rewrite foldl_app in Hact. simpl in Hact.
  eapply (forgotten_run ops2) in Hact; [|exact Hops|].
  - apply Hact. simpl. by rewrite Howner.
  - intros g key seq'. simpl. intros [Hof _]%elem_of_filter Heq. unfold of_source in Hof.
    simpl in Hof. by rewrite bool_decide_eq_true_2 in Hof.
Qed.

Lemma invalidated_not_credited_witness : exists ix ms ix',
  foldM ix_step ix_example new_indexer = Some ix /\
  find_matches query_example ix = Some (ms, ix') /\
  Forall (fun m => tm_target m <> MkTarget "a" 0) ms.
Proof.
  refine (invalidated_not_credited (take 2 ix_example) (drop 3 ix_example) "a" 0 query_example _ _ _).
  - solve_contract.
  - constructor; [exact I|]. constructor; [discriminate|]. constructor.
  - vm_compute. reflexivity.
Defined.
