(* ===== verification/KvSubscriber.v ===== *)
(** * The event subscriber ([src/kv_index/subscriber.rs])

    One subscriber task per worker and rank: it receives sequenced event
    batches, asks the publisher to replay a gap, and suspends, invalidates and
    resumes its source in the indexer.  The loop never reads the indexer, so a
    received message is a function from the loop's variables to new ones and
    the list of [effect]s it causes, in order: the calls on the indexer, an
    applied batch with its sequence number, and the advisory signals.  What the
    replay socket delivers is an input: [None] when the socket cannot be opened,
    connected or written, otherwise the messages in order, the deadline being
    the end of the list.  The MessagePack decoder and SHA-256 are arguments. *)

From S2P Require Import Prelude KvTypes KvShard KvIndexer.

Local Open Scope Z_scope.

Definition END_SEQ : Z := -1.

Inductive IngestionSignal :=
| Advance (last_seq : Z)
| Gap (from_seq to_seq : Z)
| ReplayApplied (replay_seq : Z)
| IncarnationReset (incarnation : N).

(** [i64::wrapping_add], what [+] is in a release build. *)
Definition i64_add (a b : Z) : Z := (a + b + 2 ^ 63) mod 2 ^ 64 - 2 ^ 63.

Definition is_i64 (z : Z) : Prop := - 2 ^ 63 <= z < 2 ^ 63.

(** [u64::from_be_bytes] and [i64::from_be_bytes]. *)
Definition be_value (bytes : list byte) : Z :=
  foldl (fun acc b => acc * 256 + Z.of_N (Byte.to_N b)) 0 bytes.

Definition i64_from_be_bytes (bytes : list byte) : Z :=
  let v := be_value bytes in if v <? 2 ^ 63 then v else v - 2 ^ 64.

Definition read_seq (bytes : list byte) : Z :=
  if (8 <=? length bytes)%nat then i64_from_be_bytes (take 8 bytes) else -1.

Definition owner_for (source_id : string) (dp_rank incarnation : N) : ResidencyOwner :=
  Worker source_id dp_rank incarnation.

Definition event_owner (source_id : string) (dp_rank incarnation : N) (ownership : option string)
  : ResidencyOwner :=
  match ownership with
  | Some pool => if decide (pool = "")%string then Worker source_id dp_rank incarnation
                 else CacheOwner pool source_id dp_rank
  | None => Worker source_id dp_rank incarnation
  end.

Definition event_tier (owner : ResidencyOwner) (medium : option string) : StorageTier :=
  match owner with
  | CacheOwner _ _ _ => External
  | Worker _ _ _ => from_medium medium
  end.

Section subscriber.
Context `{MsgpackValue} (sha256 : list byte -> list byte).
Context (decode : list byte -> option KVEventBatch).
Context (source_id : string) (dp_rank : N) (has_replay : bool).

(** The indexer call one event makes. *)
Definition apply_event (rank incarnation : N) (ev : KVEvent) : ix_op :=
  match ev with
  | EvBlockStored s =>
      let owner := event_owner source_id rank incarnation (stored_ownership s) in
      let locals := local_block_hash_strings sha256 (token_ids s) (block_size s) (lora_name s) in
      let seqs := hash_str <$> stored_hashes s in
      IxStore (default 0%N (stored_group_idx s)) owner (event_tier owner (stored_medium s))
        (hash_str <$> parent_block_hash s) (zip seqs locals)
  | EvBlockRemoved r =>
      let owner := event_owner source_id rank incarnation (removed_ownership r) in
      IxRemove (default 0%N (removed_group_idx r)) owner (event_tier owner (removed_medium r))
        (hash_str <$> removed_hashes r)
  | EvAllBlocksCleared => IxClear (owner_for source_id rank incarnation) ScopeWorker
  end.

Definition apply_batch (incarnation : N) (batch : KVEventBatch) : list ix_op :=
  apply_event (default dp_rank (data_parallel_rank batch)) incarnation <$> events batch.

Inductive effect :=
| Suspend
| Invalidate
| Resume
| Apply (seq : Z) (incarnation : N) (batch : KVEventBatch)
| Emit (s : IngestionSignal).

Definition effect_calls (e : effect) : list ix_op :=
  match e with
  | Suspend => [IxSuspend source_id dp_rank]
  | Invalidate => [IxInvalidate source_id dp_rank]
  | Resume => [IxResume source_id dp_rank]
  | Apply _ incarnation batch => apply_batch incarnation batch
  | Emit _ => []
  end.

(** [batch.data_parallel_rank.is_none_or(|rank| rank == dp_rank)] *)
Definition correct_rank (batch : KVEventBatch) : bool :=
  match data_parallel_rank batch with Some rank => (rank =? dp_rank)%N | None => true end.

Inductive dealer_input := DealerFrames (frames : list (list byte)) | DealerError.

(** The receive loop of [replay]. *)
Fixpoint replay_loop (incarnation : N) (through_seq high : Z) (script : list dealer_input)
  : option Z * list effect :=
  match script with
  | [] | DealerError :: _ => (None, [])
  | DealerFrames frames :: script =>
      let n := length frames in
      match frames !! (n - 2)%nat, frames !! (n - 1)%nat with
      | Some seq_frame, Some payload =>
          if (n <? 4)%nat || negb (length seq_frame =? 8)%nat then (None, [])
          else
            let seq := read_seq seq_frame in
            if seq =? END_SEQ then (None, [])
            else if seq <=? high then replay_loop incarnation through_seq high script
            else if negb (seq =? i64_add high 1) then (None, [])
            else
              match decode payload with
              | None => (None, [])
              | Some batch =>
                  if negb (correct_rank batch) then (None, [])
                  else
                    let here := [Apply seq incarnation batch; Emit (Advance seq)] in
                    if through_seq <=? seq then (Some seq, here)
                    else
                      let '(res, later) := replay_loop incarnation through_seq seq script in
                      (res, here ++ later)
              end
      | _, _ => (None, [])
      end
  end.

Definition replay (incarnation : N) (last_seq through_seq : Z) (script : option (list dealer_input))
  : option Z * list effect :=
  match script with
  | None => (None, [])
  | Some script => replay_loop incarnation through_seq last_seq script
  end.

(** The variables of the loop. *)
Record SubState := MkSub { last_seq : Z; incarnation : N; suspended : bool }.

Definition initial : SubState := MkSub (-1) 0 false.

(** The part of the loop body after the gap test. *)
Definition live_batch (seq : Z) (batch : option KVEventBatch) (st : SubState) : SubState * list effect :=
  match batch with
  | None => (st, [])
  | Some batch =>
      (MkSub seq (incarnation st) false,
       Apply seq (incarnation st) batch :: (if suspended st then [Resume] else []) ++ [Emit (Advance seq)])
  end.

(** From the duplicate test on: a gap is replayed, or its source forgotten. *)
Definition handle_seq (seq : Z) (payload : list byte) (script : option (list dealer_input))
  (st : SubState) : SubState * list effect :=
  if seq <=? last_seq st then (st, [])
  else
    let batch := match decode payload with
                 | Some b => if correct_rank b then Some b else None
                 | None => None
                 end in
    let next := i64_add (last_seq st) 1 in
    if (next <? seq) || bool_decide (batch = None) then
      let to := if bool_decide (batch = None) then seq else i64_add seq (-1) in
      let st1 := MkSub (last_seq st) (incarnation st) true in
      let gap := [Suspend; Emit (Gap next to)] in
      let '(res, effs) := if has_replay then replay (incarnation st) (last_seq st) seq script
                          else (None, []) in
      match res with
      | Some last_replay =>
          (MkSub last_replay (incarnation st) false,
           gap ++ effs ++ [Resume; Emit (ReplayApplied last_replay)])
      | None =>
          let '(st2, later) := live_batch seq batch st1 in
          (st2, gap ++ effs ++ Invalidate :: later)
      end
    else live_batch seq batch st.

(** One received multipart message. *)
Definition handle (frames : list (list byte)) (script : option (list dealer_input)) (st : SubState)
  : SubState * list effect :=
  match frames !! 1%nat, frames !! 2%nat with
  | Some seq_frame, Some payload =>
      if negb (length seq_frame =? 8)%nat then
        (MkSub (last_seq st) (incarnation st) true, [Invalidate])
      else
        let seq := read_seq seq_frame in
        if seq =? END_SEQ then (st, [])
        else if negb (last_seq st =? -1) && (seq <? last_seq st) then
          let inc := u64_wrapping_add (incarnation st) 1 in
          let '(st2, later) := handle_seq seq payload script (MkSub (-1) inc true) in
          (st2, Invalidate :: Emit (IncarnationReset inc) :: later)
        else handle_seq seq payload script st
  | _, _ => (MkSub (last_seq st) (incarnation st) true, [Invalidate])
  end.

(** A run of the loop over its inputs. *)
Fixpoint sub_run (inputs : list (list (list byte) * option (list dealer_input))) (st : SubState)
  : SubState * list effect :=
  match inputs with
  | [] => (st, [])
  | (frames, script) :: inputs =>
      let '(st, e1) := handle frames script st in
      let '(st, e2) := sub_run inputs st in
      (st, e1 ++ e2)
  end.

(** ** Specification *)

(** Whether the source is hidden after some effects. *)
Definition hidden_after (h : bool) (effs : list effect) : bool :=
  foldl (fun h e => match e with Suspend | Invalidate => true | Resume => false | _ => h end) h effs.

(** The sequence numbers applied since the source was last invalidated. *)
Definition applied_after (l : list Z) (effs : list effect) : list Z :=
  foldl (fun l e => match e with Apply seq _ _ => l ++ [seq] | Invalidate => [] | _ => l end) l effs.

(** Consecutive numbers that end at [last]. *)
Fixpoint consecutive (l : list Z) (last : Z) : Prop :=
  match l with
  | [] => True
  | x :: l => match l with [] => x = last | y :: _ => y = x + 1 /\ consecutive l last end
  end.

(** What the publisher sends for batch number [n]: [u64::to_be_bytes] of the
    number, and a payload. *)
Definition be_bytes (n : N) : list byte :=
  byte_of <$> [n / 2 ^ 56; n / 2 ^ 48; n / 2 ^ 40; n / 2 ^ 32; n / 2 ^ 24; n / 2 ^ 16; n / 2 ^ 8; n]%N.

Definition publish (n : N) (payload : list byte) : list (list byte) * option (list dealer_input) :=
  ([[]; be_bytes n; payload], None).

(** The messages for consecutive numbers from [n] on. *)
Fixpoint stream (n : N) (payloads : list (list byte)) : list (list (list byte) * option (list dealer_input)) :=
  match payloads with
  | [] => []
  | p :: payloads => publish n p :: stream (n + 1) payloads
  end.

(** The effects of applying consecutive batches. *)
Fixpoint stream_effects (n : N) (batches : list KVEventBatch) : list effect :=
  match batches with
  | [] => []
  | b :: batches =>
      Apply (Z.of_N n) 0 b :: Emit (Advance (Z.of_N n)) :: stream_effects (n + 1) batches
  end.

(** The indexer calls of a list of effects. *)
Definition calls (effs : list effect) : list ix_op := effs ≫= effect_calls.

(** The loop's state agrees with what it has done. *)
Record sub_ok (h : bool) (applied : list Z) (st : SubState) : Prop := {
  sub_hidden : suspended st = h;
  sub_applied : h = false -> consecutive applied (last_seq st);
  sub_clean : h = true -> applied = [];
  sub_i64 : is_i64 (last_seq st);
}.

(** ** Lemmas *)

Lemma hidden_after_app h e1 e2 : hidden_after h (e1 ++ e2) = hidden_after (hidden_after h e1) e2.
Proof. apply foldl_app. Qed.

Lemma applied_after_app l e1 e2 : applied_after l (e1 ++ e2) = applied_after (applied_after l e1) e2.
Proof. apply foldl_app. Qed.

Lemma consecutive_snoc l last : consecutive l last -> consecutive (l ++ [last + 1]) (last + 1).
Proof.
  induction l as [|x l IH]; [done|]. destruct l as [|y l]; simpl in *; [intros ->; done|].
  intros [-> Hl]. split; [done|]. by apply IH.
Qed.

Lemma i64_add_exact a b : is_i64 (a + b) -> i64_add a b = a + b.
Proof. unfold is_i64, i64_add. intros Hab. rewrite Z.mod_small; lia. Qed.

Lemma be_value_bound l acc : 0 <= acc ->
  0 <= foldl (fun acc b => acc * 256 + Z.of_N (Byte.to_N b)) acc l < (acc + 1) * 256 ^ Z.of_nat (length l).
Proof.
  revert acc. induction l as [|b l IH]; intros acc Hacc; [simpl; lia|].
  cbn [foldl length]. pose proof (Byte.to_N_bounded b).
  rewrite Nat2Z.inj_succ, Z.pow_succ_r by lia.
  destruct (IH (acc * 256 + Z.of_N (Byte.to_N b))) as [H1 H2]; [lia|]. split; [done|].
  eapply Z.lt_le_trans; [exact H2|]. rewrite Z.mul_assoc. apply Z.mul_le_mono_nonneg_r; lia.
Qed.

Lemma read_seq_i64 bytes : is_i64 (read_seq bytes).
Proof.
  unfold read_seq, is_i64. destruct (Nat.leb_spec 8 (length bytes)); [|lia].
  unfold i64_from_be_bytes. pose proof (be_value_bound (take 8 bytes) 0 ltac:(lia)) as Hb.
  rewrite length_take, Nat.min_l in Hb by done. change (be_value (take 8 bytes)) with
    (foldl (fun acc b => acc * 256 + Z.of_N (Byte.to_N b)) 0 (take 8 bytes)).
  destruct (Z.ltb_spec (foldl (fun acc b => acc * 256 + Z.of_N (Byte.to_N b)) 0 (take 8 bytes)) (2 ^ 63));
    simpl in Hb; lia.
Qed.

(** A replay that ends without an answer. *)
Ltac replay_stops Hr := injection Hr as <- <-; split; [done|]; by intros ? [=].

(** A successful replay applied every number up to its answer, in order. *)
Lemma replay_loop_ok inc through high script l res effs h :
  is_i64 high -> consecutive l high -> replay_loop inc through high script = (res, effs) ->
  hidden_after h effs = h /\
  forall last, res = Some last ->
    is_i64 last /\ through <= last /\ consecutive (applied_after l effs) last.
Proof.
  revert high l res effs. induction script as [|[frames|] script IH];
    intros high l res effs Hi Hl Hr; cbn [replay_loop] in Hr; try (by replay_stops Hr).
  destruct (frames !! (length frames - 2)%nat) as [seq_frame|]; [|by replay_stops Hr].
  destruct (frames !! (length frames - 1)%nat) as [payload|]; [|by replay_stops Hr].
  destruct (_ || _); [by replay_stops Hr|]. set (seq := read_seq seq_frame) in *.
  destruct (seq =? END_SEQ); [by replay_stops Hr|].
  destruct (Z.leb_spec seq high) as [|Hlt]; [by eapply IH|].
  pose proof (read_seq_i64 seq_frame) as Hs. fold seq in Hs.
  rewrite i64_add_exact in Hr by (unfold is_i64 in *; lia).
  destruct (Z.eqb_spec seq (high + 1)) as [Heq|]; [|by replay_stops Hr]. simpl in Hr.
  destruct (decode payload) as [batch|]; [|by replay_stops Hr].
  destruct (correct_rank batch); [|by replay_stops Hr]. simpl in Hr.
  assert (consecutive (l ++ [seq]) seq) as Hl' by (rewrite Heq; by apply consecutive_snoc).
  destruct (Z.leb_spec through seq).
  - simplify_eq/=. split; [done|]. intros last [= <-]. done.
  - destruct (replay_loop inc through seq script) as [res' later] eqn:Hrec. simplify_eq/=.
    destruct (IH _ _ _ _ Hs Hl' Hrec) as [Hh Hres]. split; [done|]. exact Hres.
Qed.

Lemma live_batch_ok seq batch h l st st' effs :
  sub_ok h l st -> is_i64 seq -> (h = false -> seq = last_seq st + 1) ->
  live_batch seq batch st = (st', effs) -> sub_ok (hidden_after h effs) (applied_after l effs) st'.
Proof.
  intros [Hh Ha Hc Hi] Hs Hnext Hlive. unfold live_batch in Hlive.
  destruct batch as [b|]; [|by simplify_eq/=]. simplify_eq/=. destruct (suspended st); simpl.
  - split; simpl; try done. by rewrite Hc by done.
  - split; simpl; try done. intros _. rewrite Hnext by done. by apply consecutive_snoc, Ha.
Qed.

Lemma handle_seq_ok seq payload script h l st st' effs :
  sub_ok h l st -> is_i64 seq -> handle_seq seq payload script st = (st', effs) ->
  sub_ok (hidden_after h effs) (applied_after l effs) st'.
Proof.
  intros Hok Hs Hseq. unfold handle_seq in Hseq.
  destruct (Z.leb_spec seq (last_seq st)); [by simplify_eq/=|]. destruct Hok as [Hh Ha Hc Hi].
  rewrite i64_add_exact in Hseq by (unfold is_i64 in *; lia).
  set (batch := match decode payload with Some _ => _ | None => None end) in *.
  destruct (_ || _) eqn:Hgap.
  - assert (consecutive l (last_seq st)) as Hl by (destruct h; [by rewrite Hc|auto]).
    destruct (if has_replay then replay _ _ _ _ else _) as [res effs0] eqn:Hrep.
    assert (hidden_after true effs0 = true /\ forall last, res = Some last ->
      is_i64 last /\ seq <= last /\ consecutive (applied_after l effs0) last) as [Hh0 Hres].
    { destruct has_replay; [|by replay_stops Hrep]. unfold replay in Hrep.
      destruct script as [script|]; [|by replay_stops Hrep].
      exact (replay_loop_ok _ _ _ _ _ _ _ true Hi Hl Hrep). }
    destruct res as [last|].
    + destruct (Hres last eq_refl) as (Hil & _ & Hcons). simplify_eq. simpl.
      rewrite hidden_after_app, applied_after_app. by split.
    + destruct (live_batch seq batch _) as [st2 later] eqn:Hlive. simplify_eq. simpl.
      rewrite hidden_after_app, applied_after_app. simpl.
      eapply (live_batch_ok seq batch true []); [|done| |exact Hlive]; [by split|done].
  - apply orb_false_iff in Hgap as [Hnext _]. apply Z.ltb_ge in Hnext.
    eapply live_batch_ok; [by split|done| |done]. intros _. lia.
Qed.

Lemma handle_ok frames script h l st st' effs :
  sub_ok h l st -> handle frames script st = (st', effs) ->
  sub_ok (hidden_after h effs) (applied_after l effs) st'.
Proof.
  intros Hok Hh. unfold handle in Hh.
  assert (sub_ok true [] (MkSub (last_seq st) (incarnation st) true)) as Hbad
    by (destruct Hok; by split).
  destruct (frames !! 1%nat) as [seq_frame|]; [|by simplify_eq].
  destruct (frames !! 2%nat) as [payload|]; [|by simplify_eq].
  destruct (negb _); [by simplify_eq|]. pose proof (read_seq_i64 seq_frame) as Hs.
  destruct (read_seq seq_frame =? END_SEQ); [by simplify_eq|].
  destruct (_ && _).
  - destruct (handle_seq _ _ _ _) as [st2 later] eqn:Hseq. simplify_eq. simpl.
    eapply handle_seq_ok; [|exact Hs|exact Hseq]. by split.
  - by eapply handle_seq_ok.
Qed.

Lemma sub_run_ok inputs h l st st' effs : sub_ok h l st -> sub_run inputs st = (st', effs) ->
  sub_ok (hidden_after h effs) (applied_after l effs) st'.
Proof.
  revert h l st effs. induction inputs as [|[frames script] inputs IH]; intros h l st effs Hok Hrun;
    cbn [sub_run] in Hrun; [by simplify_eq|].
  destruct (handle frames script st) as [st1 e1] eqn:H1.
  destruct (sub_run inputs st1) as [st2 e2] eqn:H2. simplify_eq.
  rewrite hidden_after_app, applied_after_app. eapply IH; [|exact H2]. by eapply handle_ok.
Qed.

Lemma initial_ok : sub_ok false [] initial.
Proof. by split. Qed.

Lemma ix_abs_run_app o1 o2 a : ix_abs_run (o1 ++ o2) a = ix_abs_run o2 (ix_abs_run o1 a).
Proof. apply foldl_app. Qed.

Lemma apply_batch_hidden inc batch a : hidden (ix_abs_run (apply_batch inc batch) a) = hidden a.
Proof.
  unfold apply_batch. generalize (default dp_rank (data_parallel_rank batch)) as rank. intros rank.
  revert a. induction (events batch) as [|ev evs IH]; intros a; [done|].
  unfold ix_abs_run in *. simpl. rewrite IH. by destruct ev.
Qed.

Lemma invalidate_forgets a : forgotten source_id dp_rank (ix_abs_step (IxInvalidate source_id dp_rank) a).
Proof.
  intros g key seq. simpl. intros [Hof _]%elem_of_filter Heq. unfold of_source in Hof. simpl in Hof.
  by rewrite bool_decide_eq_true_2 in Hof.
Qed.

(** The index follows the effects: what is hidden, and what is forgotten. *)
Lemma calls_hidden effs h a : ((source_id, dp_rank) ∈ hidden a <-> h = true) ->
  (source_id, dp_rank) ∈ hidden (ix_abs_run (calls effs) a) <-> hidden_after h effs = true.
Proof.
  revert h a. induction effs as [|e effs IH]; intros h a Ha; [done|].
  unfold calls. rewrite bind_cons, ix_abs_run_app. apply IH.
  destruct e; simpl; [set_solver..|by rewrite apply_batch_hidden|done].
Qed.

Lemma calls_forgotten effs l a : (l = [] -> forgotten source_id dp_rank a) ->
  applied_after l effs = [] -> forgotten source_id dp_rank (ix_abs_run (calls effs) a).
Proof.
  revert l a. induction effs as [|e effs IH]; intros l a Ha Hl; [by apply Ha|].
  unfold calls. rewrite bind_cons, ix_abs_run_app. eapply IH; [|exact Hl].
  destruct e; simpl; try done; [intros _; apply invalidate_forgets|].
  intros Hnil%app_eq_nil. by destruct Hnil.
Qed.

(** The number a publisher writes is the number the subscriber reads. *)
Lemma read_seq_be_bytes n : (n < 2 ^ 63)%N -> read_seq (be_bytes n) = Z.of_N n.
Proof.
  intros Hn. unfold read_seq, i64_from_be_bytes. simpl length. cbn [Nat.leb].
  assert (be_value (take 8 (be_bytes n)) = Z.of_N n) as ->; [|destruct (Z.ltb_spec (Z.of_N n) (2 ^ 63)); lia].
  assert (forall j k : N, j = (8 + k)%N ->
    Z.of_N (n / 2 ^ j) * 256 + Z.of_N ((n / 2 ^ k) mod 256) = Z.of_N (n / 2 ^ k)) as Hstep.
  { intros j k ->. rewrite N.pow_add_r, N.mul_comm, <- N.Div0.div_div.
    pose proof (N.div_mod' (n / 2 ^ k) 256). change (2 ^ 8)%N with 256%N. lia. }
  unfold be_value, be_bytes. cbn [fmap list_fmap take foldl]. rewrite !to_N_byte_of.
  rewrite (N.mod_small (n / 2 ^ 56)) by (apply N.Div0.div_lt_upper_bound; lia).
  rewrite Z.mul_0_l, Z.add_0_l.
  rewrite (Hstep 56%N 48%N), (Hstep 48%N 40%N), (Hstep 40%N 32%N), (Hstep 32%N 24%N), (Hstep 24%N 16%N),
    (Hstep 16%N 8%N) by done.
  pose proof (Hstep 8%N 0%N eq_refl) as H0. by rewrite N.pow_0_r, N.div_1_r in H0.
Qed.

Lemma live_next n payload batch st : (n < 2 ^ 63)%N -> decode payload = Some batch ->
  correct_rank batch = true -> st = MkSub (Z.of_N n - 1) 0 false ->
  handle [[]; be_bytes n; payload] None st =
    (MkSub (Z.of_N n) 0 false, [Apply (Z.of_N n) 0 batch; Emit (Advance (Z.of_N n))]).
Proof.
  intros Hn Hd Hr ->. unfold handle. simpl lookup. cbv iota.
  change (length (be_bytes n)) with 8%nat. simpl negb. cbv iota. rewrite read_seq_be_bytes by done.
  destruct (Z.eqb_spec (Z.of_N n) END_SEQ) as [He|_]; [unfold END_SEQ in He; lia|]. simpl last_seq.
  destruct (Z.ltb_spec (Z.of_N n) (Z.of_N n - 1)); [lia|]. rewrite andb_false_r.
  unfold handle_seq. simpl last_seq. destruct (Z.leb_spec (Z.of_N n) (Z.of_N n - 1)); [lia|].
  rewrite Hd, Hr. rewrite i64_add_exact by (unfold is_i64; lia).
  destruct (Z.ltb_spec (Z.of_N n - 1 + 1) (Z.of_N n)); [lia|]. done.
Qed.

Lemma sub_run_stream payloads batches n :
  Forall2 (fun p b => decode p = Some b /\ correct_rank b = true) payloads batches ->
  (n + N.of_nat (length payloads) < 2 ^ 63)%N ->
  sub_run (stream n payloads) (MkSub (Z.of_N n - 1) 0 false) =
    (MkSub (Z.of_N n + Z.of_nat (length payloads) - 1) 0 false, stream_effects n batches).
Proof.
  intros HF. revert n. induction HF as [|p b payloads batches [Hd Hr] _ IH]; intros n Hn.
  { simpl. do 2 f_equal. lia. }
  cbn [stream publish sub_run stream_effects length]. cbn [length] in Hn.
  rewrite (live_next n p b) by (done || lia).
  specialize (IH (n + 1)%N). replace (Z.of_N (n + 1) - 1) with (Z.of_N n) in IH by lia.
  rewrite IH by lia. do 2 f_equal. lia.
Qed.

(** ** Properties *)

(** C8: the subscriber never exposes a torn history.  After any sequence of
    received messages and replay answers, the source is hidden in the indexer
    exactly when the loop considers it suspended; while it is hidden the indexer
    holds nothing of it; and while it is visible the batches applied since it
    was last cleared carry consecutive sequence numbers that end at the loop's
    [last_seq], so no lost eviction can leave a stale block credited. *)
Theorem subscriber_safe inputs :
  let '(st, effs) := sub_run inputs initial in
  let a := ix_abs_run (calls effs) empty_ix_abs in
  ((source_id, dp_rank) ∈ hidden a <-> suspended st = true) /\
  (suspended st = true -> forgotten source_id dp_rank a) /\
  (suspended st = false -> consecutive (applied_after [] effs) (last_seq st)).
Proof.
  destruct (sub_run inputs initial) as [st effs] eqn:Hrun. cbv zeta.
  destruct (sub_run_ok _ _ _ _ _ _ initial_ok Hrun) as [Hh Ha Hc _]. rewrite Hh. split_and!.
  - apply calls_hidden. simpl. set_solver.
  - intros Ht. apply (calls_forgotten effs []); [|auto]. intros _ g key seq. simpl. set_solver.
  - exact Ha.
Qed.

(** A gapless stream is applied whole.  A publisher that numbers its batches
    from zero without a gap has every batch applied exactly once, in order, and
    its source is never hidden; the numbers survive their big-endian encoding. *)
Theorem gapless_stream_applied payloads batches :
  Forall2 (fun p b => decode p = Some b /\ correct_rank b = true) payloads batches ->
  (N.of_nat (length payloads) < 2 ^ 63)%N ->
  sub_run (stream 0 payloads) initial =
    (MkSub (Z.of_nat (length payloads) - 1) 0 false, stream_effects 0 batches).
Proof. intros HF Hn. apply (sub_run_stream payloads batches 0%N HF). lia. Qed.

End subscriber.

Lemma gapless_stream_applied_witness :
  (sub_run (fun _ => Some batch_example) 0 false (stream 0 [[]; []]) initial).1 = MkSub 1 0 false.
Proof.
  rewrite (gapless_stream_applied (fun _ => Some batch_example) 0 false [[]; []]
    [batch_example; batch_example]).
  - reflexivity.
  - repeat constructor.
  - vm_compute. reflexivity.
Defined.
