(* ===== verification/TextDecode.v ===== *)
(** * Text and incremental decoding ([src/tokenizer/stream.rs], [sequence.rs])

    A Rust string is its list of UTF-8 bytes; slicing at a byte that is not a
    character boundary panics, which is [None] here.  The tokenizer is a trait
    object, the class [Decoder] here; what a decoder that maps every token to a
    fixed piece of text promises is the class [PieceDecoder].  [DecodeStream]
    turns a stream of tokens into text chunks, [Sequence] keeps a growing list
    of tokens and their text. *)

From S2P Require Import Prelude KvTypes.

Abbreviation text := (list byte).

(** ** Strings as bytes *)

(** A continuation byte [10xxxxxx] of a UTF-8 sequence. *)
Definition is_continuation (b : byte) : bool := (128 <=? Byte.to_N b)%N && (Byte.to_N b <? 192)%N.

(** [str::is_char_boundary] *)
Definition is_char_boundary (s : text) (n : nat) : bool :=
  match s !! n with
  | Some b => negb (is_continuation b)
  | None => (n =? length s)
  end.

(** [&s[n..]] *)
Definition slice_from (s : text) (n : nat) : option text :=
  if is_char_boundary s n then Some (drop n s) else None.

(** The replacement character U+FFFD. *)
Definition replacement : text := [xef; xbf; xbd].

Definition ends_with (s suffix : text) : bool :=
  bool_decide (drop (length s - length suffix) s = suffix).

Definition starts_with (s prefix : text) : bool := bool_decide (take (length prefix) s = prefix).

(** [str::find]: the first position at which [needle] occurs. *)
Fixpoint find (needle s : text) : option nat :=
  if starts_with s needle then Some 0
  else match s with [] => None | _ :: s => S <$> find needle s end.

(** [str::replace(needle, "")] for a nonempty needle; every round consumes a
    byte, so the length is fuel enough. *)
Fixpoint erase (fuel : nat) (needle s : text) : text :=
  match fuel, s with
  | S fuel, b :: s' =>
      if starts_with s needle then erase fuel needle (drop (length needle) s)
      else b :: erase fuel needle s'
  | _, _ => []
  end.

(** ** The tokenizer *)

(** [traits::Decoder]: an error is its message. *)
Class Decoder := decode : list N -> bool -> result text string.

(** A decoder that maps every token to a piece of text of its own. *)
Class PieceDecoder (D : Decoder) := {
  piece : bool -> N -> text;
  decode_pieces : forall tokens skip, decode tokens skip = Ok (tokens ≫= piece skip);
  piece_valid : forall skip token, is_char_boundary (piece skip token) 0 = true;
}.

(** What a call that can fail or panic does: the value, an error message, or a
    panic. *)
Inductive outcome (A : Type) := Returns (a : A) | Fails (msg : string) | Panics.
Arguments Returns {_} _.
Arguments Fails {_} _.
Arguments Panics {_}.

(** ** DecodeStream *)

Section stream.
Context `{D : Decoder}.

Record DecodeStream := MkStream {
  skip_special_tokens : bool;
  all_token_ids : list N;
  prefix_offset : nat;
  read_offset : nat;
}.

Definition INITIAL_INCREMENTAL_DETOKENIZATION_OFFSET : nat := 5.

Definition new_stream (prompt_token_ids : list N) (skip : bool) : DecodeStream :=
  let n := length prompt_token_ids in
  MkStream skip prompt_token_ids (n - INITIAL_INCREMENTAL_DETOKENIZATION_OFFSET) n.

(** [&ids[a..b]]; the offsets never pass each other or the end. *)
Definition slice {A} (ids : list A) (a b : nat) : list A := take (b - a) (drop a ids).

Definition step (id : N) (st : DecodeStream) : outcome (option text) * DecodeStream :=
  let ids := all_token_ids st ++ [id] in
  let st := MkStream (skip_special_tokens st) ids (prefix_offset st) (read_offset st) in
  match decode (slice ids (prefix_offset st) (read_offset st)) (skip_special_tokens st) with
  | Err e => (Fails e, st)
  | Ok prefix_text =>
      match decode (drop (prefix_offset st) ids) (skip_special_tokens st) with
      | Err e => (Fails e, st)
      | Ok new_text =>
          if (length prefix_text <? length new_text) && negb (ends_with new_text replacement) then
            match slice_from new_text (length prefix_text) with
            | None => (Panics, st)
            | Some chunk =>
                (Returns (Some chunk),
                 MkStream (skip_special_tokens st) ids (read_offset st) (length ids))
            end
          else (Returns None, st)
      end
  end.

(** [?] stops the loop at the first error. *)
Fixpoint step_batch (token_ids : list N) (st : DecodeStream) : outcome (list text) * DecodeStream :=
  match token_ids with
  | [] => (Returns [], st)
  | id :: token_ids =>
      match step id st with
      | (Returns chunk, st) =>
          match step_batch token_ids st with
          | (Returns chunks, st) =>
              (Returns (match chunk with Some c => c :: chunks | None => chunks end), st)
          | (o, st) => (o, st)
          end
      | (Fails e, st) => (Fails e, st)
      | (Panics, st) => (Panics, st)
      end
  end.

Definition flush (st : DecodeStream) : outcome (option text) * DecodeStream :=
  if read_offset st <? length (all_token_ids st) then
    match decode (drop (read_offset st) (all_token_ids st)) (skip_special_tokens st) with
    | Err e => (Fails e, st)
    | Ok remaining =>
        let st := MkStream (skip_special_tokens st) (all_token_ids st) (prefix_offset st)
          (length (all_token_ids st)) in
        (Returns (match remaining with [] => None | _ => Some remaining end), st)
    end
  else (Returns None, st).

(** ** Sequence *)

Record Sequence := MkSequence {
  seq_token_ids : list N;
  seq_prefix_offset : nat;
  seq_read_offset : nat;
}.

Definition new_sequence : Sequence := MkSequence [] 0 0.

Definition with_tokens (token_ids : list N) : Sequence := MkSequence token_ids 0 (length token_ids).

Definition seq_clear (s : Sequence) : Sequence := MkSequence [] 0 0.

Definition seq_text (s : Sequence) : result text string := decode (seq_token_ids s) false.

(** [while !is_char_boundary(n) && n > 0 { n -= 1 }] *)
Fixpoint back_to_boundary (s : text) (n : nat) : nat :=
  match n with
  | O => O
  | S n' => if is_char_boundary s n then n else back_to_boundary s n'
  end.

Definition append_token (token_id : N) (s : Sequence) : result text string * Sequence :=
  let old_read_offset := seq_read_offset s in
  let ids := seq_token_ids s ++ [token_id] in
  let s := MkSequence ids (seq_prefix_offset s) (length ids) in
  if (seq_prefix_offset s =? 0) && (old_read_offset =? 0) then
    match decode ids false with
    | Err e => (Err e, s)
    | Ok t => if ends_with t replacement then (Ok [], s) else (Ok t, MkSequence ids 0 (length ids))
    end
  else
    match decode (slice ids (seq_prefix_offset s) old_read_offset) false with
    | Err e => (Err e, s)
    | Ok prefix_text =>
        match decode (drop (seq_prefix_offset s) ids) false with
        | Err e => (Err e, s)
        | Ok new_text =>
            let prefix_text_len := back_to_boundary new_text (length prefix_text) in
            if length prefix_text <? length new_text then
              if ends_with new_text replacement then (Ok [], s)
              else (Ok (erase (length new_text) replacement (drop prefix_text_len new_text)),
                    MkSequence ids old_read_offset (length ids))
            else (Ok [], s)
        end
    end.

(** [append_text]; the encoder is a trait object too. *)
Definition append_text (encode : text -> result (list N) string) (input : text) (s : Sequence)
  : result unit string * Sequence :=
  match encode input with
  | Err e => (Err e, s)
  | Ok ids => (Ok tt, MkSequence (seq_token_ids s ++ ids) (seq_prefix_offset s) (seq_read_offset s))
  end.

Fixpoint append_tokens (token_ids : list N) (s : Sequence) : result text string * Sequence :=
  match token_ids with
  | [] => (Ok [], s)
  | id :: token_ids =>
      match append_token id s with
      | (Err e, s) => (Err e, s)
      | (Ok t, s) =>
          match append_tokens token_ids s with
          | (Err e, s) => (Err e, s)
          | (Ok t', s) => (Ok (t ++ t'), s)
          end
      end
  end.

End stream.

(** The state of a stream: everything before [read_offset] has been emitted. *)
Definition stream_ok (st : DecodeStream) : Prop :=
  prefix_offset st <= read_offset st <= length (all_token_ids st).

(** ** Instances and examples *)

(** Token [n] is the letter [n]. *)
#[export] Instance letters : Decoder := fun tokens _ => Ok (byte_of <$> (filter (fun t => (t < 128)%N) tokens)).

Definition letter (skip : bool) (token : N) : text :=
  if decide (token < 128)%N then [byte_of token] else [].

#[export] Instance letters_pieces : PieceDecoder letters.
Proof.
  refine {| piece := letter |}.
  - intros tokens skip. unfold decode, letters. f_equal. induction tokens as [|t tokens IH]; [done|].
    rewrite bind_cons, filter_cons, <- IH. unfold letter. by case_decide.
  - intros skip token. unfold letter. case_decide as Ht; [|done]. unfold is_char_boundary, is_continuation.
    cbn [lookup list_lookup]. rewrite to_N_byte_of, N.mod_small by lia.
    destruct (N.leb_spec 128 token); [lia|done].
Defined.

(** A byte-level tokenizer on the bytes of [aéb]: an incomplete character decodes
    to the replacement character. *)
Definition byte_level : Decoder := fun tokens _ =>
  Ok (match tokens with
      | [97] => [x61]
      | [97; 195] => [x61; xef; xbf; xbd]
      | [97; 195; 169] => [x61; xc3; xa9]
      | [97; 195; 169; 98] => [x61; xc3; xa9; x62]
      | _ => []
      end)%N.

(** ** Lemmas *)

Section pieces.
Context `{D : Decoder} `{!PieceDecoder D}.

Lemma pieces_app skip t1 t2 : (t1 ++ t2) ≫= piece skip = (t1 ≫= piece skip) ++ (t2 ≫= piece skip).
Proof. apply bind_app. Qed.

(** The text after a prefix of whole pieces starts at a character boundary. *)
Lemma pieces_boundary skip tokens : is_char_boundary (tokens ≫= piece skip) 0 = true.
Proof.
  induction tokens as [|t tokens IH]; [done|]. rewrite bind_cons.
  pose proof (piece_valid skip t) as Ht. unfold is_char_boundary in *.
  destruct (piece skip t) as [|b p]; [done|]. done.
Qed.

Lemma slice_from_pieces skip t1 t2 :
  slice_from ((t1 ≫= piece skip) ++ (t2 ≫= piece skip)) (length (t1 ≫= piece skip)) =
    Some (t2 ≫= piece skip).
Proof.
  unfold slice_from. rewrite drop_app_length.
  assert (is_char_boundary ((t1 ≫= piece skip) ++ (t2 ≫= piece skip)) (length (t1 ≫= piece skip)) = true)
    as ->; [|done].
  pose proof (pieces_boundary skip t2) as Hb. unfold is_char_boundary in *.
  rewrite lookup_app_r, Nat.sub_diag by done.
  destruct ((t2 ≫= piece skip) !! 0) eqn:E; [done|].
  apply Nat.eqb_eq in Hb. rewrite length_app. apply Nat.eqb_eq. lia.
Qed.

Lemma step_pieces id st : stream_ok st ->
  exists chunk st', step id st = (Returns chunk, st') /\ stream_ok st' /\
    skip_special_tokens st' = skip_special_tokens st /\
    all_token_ids st' = all_token_ids st ++ [id] /\
    default [] chunk ++ (drop (read_offset st') (all_token_ids st') ≫= piece (skip_special_tokens st)) =
      drop (read_offset st) (all_token_ids st') ≫= piece (skip_special_tokens st).
Proof.
  intros [Hp Hr]. unfold step. cbn [all_token_ids prefix_offset read_offset skip_special_tokens].
  set (ids := all_token_ids st ++ [id]). set (skip := skip_special_tokens st).
  rewrite !decode_pieces.
  assert (length ids = S (length (all_token_ids st))) as Hlen
    by (unfold ids; rewrite length_app; simpl; lia).
  assert (drop (prefix_offset st) ids = slice ids (prefix_offset st) (read_offset st) ++ drop (read_offset st) ids)
    as Hsplit.
  { unfold slice. rewrite <- (take_drop (read_offset st - prefix_offset st) (drop (prefix_offset st) ids)) at 1.
    f_equal. rewrite drop_drop. f_equal. lia. }
  rewrite Hsplit, pieces_app, slice_from_pieces. destruct (_ && _).
  - eexists _, _. split; [done|]. simpl. split_and!; [unfold stream_ok; simpl; lia|done|done|].
    rewrite drop_all. by rewrite app_nil_r.
  - eexists _, _. split; [done|]. simpl. split_and!; [unfold stream_ok; simpl; lia|done..].
Qed.

Lemma step_batch_pieces tokens st : stream_ok st ->
  exists chunks st', step_batch tokens st = (Returns chunks, st') /\ stream_ok st' /\
    skip_special_tokens st' = skip_special_tokens st /\
    concat chunks ++ (drop (read_offset st') (all_token_ids st') ≫= piece (skip_special_tokens st)) =
      drop (read_offset st) (all_token_ids st ++ tokens) ≫= piece (skip_special_tokens st).
Proof.
  revert st. induction tokens as [|t tokens IH]; intros st Hok.
  { exists [], st. split_and!; try done. by rewrite app_nil_r. }
  destruct (step_pieces t st Hok) as (chunk & st1 & Hs & Hok1 & Hk1 & Hids & Htext). simpl. rewrite Hs.
  destruct (IH st1 Hok1) as (chunks & st2 & -> & Hok2 & Hk2 & Hrest).
  eexists _, st2. split; [done|]. split_and!; [done|congruence|].
  rewrite Hk1 in Hrest. rewrite cons_middle, (assoc_L (++)), <- Hids.
  destruct Hok as [_ Hr]. destruct Hok1 as [_ Hr1].
  rewrite (drop_app_le _ _ (read_offset st)) by (rewrite Hids, length_app; lia).
  rewrite pieces_app, <- Htext, <- (assoc_L (++)), <- pieces_app, <- drop_app_le by done.
  rewrite <- Hrest. destruct chunk; simpl; [by rewrite (assoc_L (++))|done].
Qed.

End pieces.

(** ** Properties *)

(** A decode stream loses and repeats nothing.  For a tokenizer that maps
    every token to a fixed piece of text, the chunks of a stream followed by its
    flush are exactly the text of the generated tokens; no error or panic
    occurs, and the prompt's text is not emitted. *)
Theorem stream_complete `{D : Decoder} `{!PieceDecoder D} prompt skip tokens :
  exists chunks st rest st', step_batch tokens (new_stream prompt skip) = (Returns chunks, st) /\
    flush st = (Returns rest, st') /\
    concat chunks ++ default [] rest = tokens ≫= piece skip.
Proof.
  destruct (step_batch_pieces tokens (new_stream prompt skip)) as (chunks & st & Hrun & Hok & Hk & Htext).
  { split; simpl; lia. }
  simpl in Hk, Htext. rewrite drop_app_length in Htext. exists chunks, st. unfold flush.
  rewrite decode_pieces, Hk. destruct (Nat.ltb_spec (read_offset st) (length (all_token_ids st))).
  - eexists _, _. split_and!; [done|done|]. rewrite <- Htext. f_equal.
    by destruct (drop (read_offset st) (all_token_ids st) ≫= piece skip).
  - eexists _, _. split_and!; [done|done|]. rewrite <- Htext, (drop_ge (all_token_ids st)) by lia. done.
Qed.

Lemma stream_complete_witness : exists chunks st rest st',
  step_batch [97; 200; 98]%N (new_stream [99]%N true) = (Returns chunks, st) /\
  flush st = (Returns rest, st') /\ concat chunks ++ default [] rest = [x61; x62].
Proof. exact (stream_complete [99]%N true [97; 200; 98]%N). Defined.

(** [Sequence] drops characters.  With a byte-level tokenizer, appending the
    bytes of [aéb] one token at a time returns the text [ab]: the two-byte
    character, complete after its second token, is never returned, because the
    replacement character it is compared with is longer. *)
Theorem sequence_loses_character :
  (append_tokens (D := byte_level) [97; 195; 169; 98]%N new_sequence).1 = Ok [x61; x62] /\
  seq_text (D := byte_level) (append_tokens (D := byte_level) [97; 195; 169; 98]%N new_sequence).2 =
    Ok [x61; xc3; xa9; x62].
Proof. split; reflexivity. Qed.
