(* ===== verification/StopDecoder.v ===== *)
(** * The stop-sequence decoder ([src/tokenizer/stop.rs])

    Tokens are decoded incrementally, and the text is cut at the first stop
    sequence: text that may be the beginning of one is held back in the jail.
    [feed] is what [process_token] does with newly decoded text; the theorems
    about it speak of the text fed so far, those about [process_token] of the
    tokens. *)

From S2P Require Import Prelude KvTypes TextDecode.

Inductive SequenceDecoderOutput :=
| Text (t : text)
| Held
| Stopped
| StoppedWithText (t : text).

Record StopSequenceConfig := {
  stop_tokens : gset N;
  stop_sequences : list text;
  visible_stop_tokens : gset N;
  visible_stop_sequences : list text;
}.

Record StopSequenceDecoder := MkDecoder {
  config : StopSequenceConfig;
  jail_buffer : text;
  token_buffer : list N;
  prefix_offset : nat;
  read_offset : nat;
  stopped : bool;
  skip_special_tokens : bool;
}.

Definition new_decoder (cfg : StopSequenceConfig) (skip : bool) : StopSequenceDecoder :=
  MkDecoder cfg [] [] 0 0 false skip.

(** *** Builders *)

Definition default_config : StopSequenceConfig :=
  {| stop_tokens := ∅; stop_sequences := []; visible_stop_tokens := ∅; visible_stop_sequences := [] |}.

Definition with_stop_token (token_id : N) (c : StopSequenceConfig) : StopSequenceConfig :=
  {| stop_tokens := {[ token_id ]} ∪ stop_tokens c; stop_sequences := stop_sequences c;
     visible_stop_tokens := visible_stop_tokens c; visible_stop_sequences := visible_stop_sequences c |}.

Definition with_stop_sequence (sequence : text) (c : StopSequenceConfig) : StopSequenceConfig :=
  {| stop_tokens := stop_tokens c; stop_sequences := stop_sequences c ++ [sequence];
     visible_stop_tokens := visible_stop_tokens c; visible_stop_sequences := visible_stop_sequences c |}.

Definition with_visible_stop_token (token_id : N) (c : StopSequenceConfig) : StopSequenceConfig :=
  {| stop_tokens := stop_tokens c; stop_sequences := stop_sequences c;
     visible_stop_tokens := {[ token_id ]} ∪ visible_stop_tokens c;
     visible_stop_sequences := visible_stop_sequences c |}.

Definition with_visible_stop_sequence (sequence : text) (c : StopSequenceConfig) : StopSequenceConfig :=
  {| stop_tokens := stop_tokens c; stop_sequences := stop_sequences c;
     visible_stop_tokens := visible_stop_tokens c;
     visible_stop_sequences := visible_stop_sequences c ++ [sequence] |}.

(** [StopSequenceDecoderBuilder]: the configuration and [skip_special_tokens]. *)
Definition new_builder : StopSequenceConfig * bool := (default_config, true).

Definition on_config (f : StopSequenceConfig -> StopSequenceConfig) (b : StopSequenceConfig * bool)
  : StopSequenceConfig * bool := (f b.1, b.2).

Definition set_skip_special_tokens (skip : bool) (b : StopSequenceConfig * bool)
  : StopSequenceConfig * bool := (b.1, skip).

Definition build (b : StopSequenceConfig * bool) : StopSequenceDecoder := new_decoder b.1 b.2.

(** ** Text *)

(** The first configured sequence that occurs, and where. *)
Fixpoint first_stop (stops : list text) (check_text : text) : option (text * nat) :=
  match stops with
  | [] => None
  | s :: stops =>
      match find s check_text with
      | Some pos => Some (s, pos)
      | None => first_stop stops check_text
      end
  end.

(** The starts of [char_indices], from [i] on. *)
Fixpoint char_starts (i : nat) (s : text) : list nat :=
  match s with
  | [] => []
  | b :: s => if is_continuation b then char_starts (S i) s else i :: char_starts (S i) s
  end.

(** The inner loop over suffixes, shortest first, with its [break]. *)
Fixpoint longest_partial (stop_seq check_text : text) (starts : list nat) (acc : nat) : nat :=
  match starts with
  | [] => acc
  | start :: starts =>
      let suffix := drop start check_text in
      if length stop_seq <=? length suffix then acc
      else longest_partial stop_seq check_text starts
             (if starts_with stop_seq suffix then Nat.max acc (length suffix) else acc)
  end.

Definition partial_match_len (stops : list text) (check_text : text) : nat :=
  foldl (fun acc s => longest_partial s check_text (reverse (char_starts 0 check_text)) acc) 0 stops.

(** What new text does: decoding stops with an output, or it goes on with an
    output and a new jail, the offsets advancing. *)
Inductive fed :=
| Stops (output : SequenceDecoderOutput)
| Continues (output : SequenceDecoderOutput) (jail : text).

Definition feed (cfg : StopSequenceConfig) (jail new_text : text) : fed :=
  let check_text := jail ++ new_text in
  match first_stop (stop_sequences cfg) check_text with
  | Some (_, pos) =>
      let output := take pos check_text in
      Stops (if bool_decide (output = []) then Stopped else StoppedWithText output)
  | None =>
      match first_stop (visible_stop_sequences cfg) check_text with
      | Some (s, pos) => Stops (StoppedWithText (take (pos + length s) check_text))
      | None =>
          let len := partial_match_len (stop_sequences cfg ++ visible_stop_sequences cfg) check_text in
          if 0 <? len then
            let safe_end := length check_text - len in
            let safe_text := take safe_end check_text in
            Continues (if bool_decide (safe_text = []) then Held else Text safe_text)
              (drop safe_end check_text)
          else Continues (Text check_text) []
      end
  end.

(** ** The decoder *)

Section decoder.
Context `{D : Decoder}.

Definition with_stopped (jail : text) (d : StopSequenceDecoder) : StopSequenceDecoder :=
  MkDecoder (config d) jail (token_buffer d) (prefix_offset d) (read_offset d) true
    (skip_special_tokens d).

(** From the incremental decoding on: [d] already has the token. *)
Definition process_text (d : StopSequenceDecoder)
  : outcome SequenceDecoderOutput * StopSequenceDecoder :=
  let ids := token_buffer d in
  match (if prefix_offset d <? read_offset d
         then decode (slice ids (prefix_offset d) (read_offset d)) (skip_special_tokens d)
         else Ok []) with
  | Err e => (Fails e, d)
  | Ok prefix_text =>
      match decode (drop (prefix_offset d) ids) (skip_special_tokens d) with
      | Err e => (Fails e, d)
      | Ok new_full_text =>
          if ends_with new_full_text replacement then (Returns Held, d)
          else if length prefix_text <? length new_full_text then
            match slice_from new_full_text (length prefix_text) with
            | None => (Panics, d)
            | Some new_text =>
                match feed (config d) (jail_buffer d) new_text with
                | Stops output => (Returns output, with_stopped [] d)
                | Continues output jail =>
                    (Returns output,
                     MkDecoder (config d) jail ids (read_offset d) (length ids) (stopped d)
                       (skip_special_tokens d))
                end
            end
          else (Returns Held, d)
      end
  end.

Definition process_token (token_id : N) (d : StopSequenceDecoder)
  : outcome SequenceDecoderOutput * StopSequenceDecoder :=
  if stopped d then (Returns Stopped, d)
  else if decide (token_id ∈ stop_tokens (config d)) then
    (Returns (match jail_buffer d with [] => Stopped | jail => StoppedWithText jail end),
     with_stopped [] d)
  else if decide (token_id ∈ visible_stop_tokens (config d)) then
    match decode [token_id] (skip_special_tokens d) with
    | Err e => (Fails e, with_stopped (jail_buffer d) d)
    | Ok stop_text => (Returns (StoppedWithText (jail_buffer d ++ stop_text)), with_stopped [] d)
    end
  else
    process_text (MkDecoder (config d) (jail_buffer d) (token_buffer d ++ [token_id])
      (prefix_offset d) (read_offset d) (stopped d) (skip_special_tokens d)).

Fixpoint process_tokens (token_ids : list N) (d : StopSequenceDecoder)
  : outcome (list SequenceDecoderOutput) * StopSequenceDecoder :=
  match token_ids with
  | [] => (Returns [], d)
  | t :: token_ids =>
      match process_token t d with
      | (Returns o, d) =>
          match process_tokens token_ids d with
          | (Returns os, d) => (Returns (o :: os), d)
          | (r, d) => (r, d)
          end
      | (Fails e, d) => (Fails e, d)
      | (Panics, d) => (Panics, d)
      end
  end.

Definition flush (d : StopSequenceDecoder) : SequenceDecoderOutput * StopSequenceDecoder :=
  (Text (jail_buffer d),
   MkDecoder (config d) [] (token_buffer d) (prefix_offset d) (read_offset d) (stopped d)
     (skip_special_tokens d)).

Definition is_stopped (d : StopSequenceDecoder) : bool := stopped d.

Definition reset (d : StopSequenceDecoder) : StopSequenceDecoder :=
  MkDecoder (config d) [] [] 0 0 false (skip_special_tokens d).

End decoder.

(** ** Specification *)

Definition output_text (o : SequenceDecoderOutput) : text :=
  match o with Text t | StoppedWithText t => t | Held | Stopped => [] end.

(** [s] occurs in [t] at byte [p]. *)
Definition occurs_at (s t : text) (p : nat) : Prop := exists a b, t = a ++ s ++ b /\ length a = p.

Definition occurs (s t : text) : Prop := exists p, occurs_at s t p.

(** The stop sequences are nonempty strings: their first byte starts a
    character. *)
Definition stops_valid (stops : list text) : Prop :=
  Forall (fun s => exists b s', s = b :: s' /\ is_continuation b = false) stops.

Definition all_stops (cfg : StopSequenceConfig) : list text :=
  stop_sequences cfg ++ visible_stop_sequences cfg.

(** [out] has been emitted and [jail] held of the text [fed]. *)
Record jail_ok (stops : list text) (out jail fed : text) : Prop := {
  jail_text : fed = out ++ jail;
  jail_clean : Forall (fun s => ~ occurs s fed) stops;
  jail_longest : forall s a c, s ∈ stops -> fed = a ++ c -> c `prefix_of` s -> c <> s ->
    length c <= length jail;
  jail_partial : jail <> [] -> exists s, s ∈ stops /\ jail `prefix_of` s /\ jail <> s;
}.

Definition no_stop (stops : list text) (t : text) : Prop := Forall (fun s => ~ occurs s t) stops.

(** [s] is the first of [stops], in the order they are configured, that occurs in
    [t], and [p] is its leftmost occurrence. *)
Definition first_match (stops : list text) (t s : text) (p : nat) : Prop :=
  occurs_at s t p /\ (forall q, occurs_at s t q -> p <= q) /\
  exists before after, stops = before ++ s :: after /\ no_stop before t.

(** Where the output ends once [t] contains a stop: before the matched hidden
    sequence; if no hidden sequence occurs, after the matched visible one. *)
Definition cut_at (cfg : StopSequenceConfig) (t out : text) : Prop :=
  (exists s p, first_match (stop_sequences cfg) t s p /\ out = take p t) \/
  (no_stop (stop_sequences cfg) t /\
   exists s p, first_match (visible_stop_sequences cfg) t s p /\ out = take (p + length s) t).

(** [jail] is the longest end of [t] that may still become a stop sequence. *)
Definition held_back (stops : list text) (t jail : text) : Prop :=
  jail `suffix_of` t /\
  (jail <> [] -> exists s, s ∈ stops /\ jail `prefix_of` s /\ jail <> s) /\
  forall s c, s ∈ stops -> c `suffix_of` t -> c `prefix_of` s -> c <> s -> length c <= length jail.

(** [feed]'s search over the whole text. *)
Definition cut (cfg : StopSequenceConfig) (t : text) : option text :=
  match first_stop (stop_sequences cfg) t with
  | Some (_, pos) => Some (take pos t)
  | None =>
      match first_stop (visible_stop_sequences cfg) t with
      | Some (s, pos) => Some (take (pos + length s) t)
      | None => None
      end
  end.

(** The suffixes at character boundaries that begin a stop sequence. *)
Definition partial_suffix (stops : list text) (t : text) (k : nat) : Prop :=
  k ∈ char_starts 0 t /\ exists s, s ∈ stops /\ length (drop k t) < length s /\ drop k t `prefix_of` s.

Section tokens_spec.
Context `{D : Decoder} `{!PieceDecoder D} (cfg : StopSequenceConfig) (skip : bool).

(** The text of tokens, and whether it is cut in the middle of a character. *)
Definition text_of (tokens : list N) : text := tokens ≫= piece skip.

Definition incomplete (tokens : list N) : bool := ends_with (text_of tokens) replacement.

(** [k] is the number of the first tokens whose text is the last one that is not
    cut in the middle of a character. *)
Definition last_complete (tokens : list N) (k : nat) : Prop :=
  k <= length tokens /\ incomplete (take k tokens) = false /\
  forall j, k < j <= length tokens -> incomplete (take j tokens) = true.

(** A decoder that has consumed [tokens], emitted [out] and has not stopped. *)
Record running (tokens : list N) (out : text) (d : StopSequenceDecoder) : Prop := {
  running_config : config d = cfg /\ skip_special_tokens d = skip /\ stopped d = false;
  running_tokens : token_buffer d = tokens;
  running_offsets : prefix_offset d <= read_offset d <= length tokens;
  running_jail : jail_ok (all_stops cfg) out (jail_buffer d) (text_of (take (read_offset d) tokens));
  running_read : incomplete (take (read_offset d) tokens) = false;
  running_pending : forall j, read_offset d <= j <= length tokens ->
    text_of (take j tokens) = text_of (take (read_offset d) tokens) \/ incomplete (take j tokens) = true;
  running_uncut : forall j, j <= length tokens -> incomplete (take j tokens) = false ->
    cut cfg (text_of (take j tokens)) = None;
}.

End tokens_spec.

(** ** Lemmas on text *)

Lemma starts_with_prefix s p : starts_with s p = true <-> p `prefix_of` s.
Proof.
  unfold starts_with. rewrite bool_decide_eq_true. split.
  - intros H. exists (drop (length p) s). by rewrite <- H at 1; rewrite take_drop.
  - intros [k ->]. apply take_app_length.
Qed.

Lemma occurs_at_cons s b t p : occurs_at s t p -> occurs_at s (b :: t) (S p).
Proof. intros (x & y & -> & <-). by exists (b :: x), y. Qed.

Lemma find_spec s t : match find s t with
  | Some p => occurs_at s t p /\ forall q, occurs_at s t q -> p <= q
  | None => ~ occurs s t
  end.
Proof.
  induction t as [|b t IH]; simpl; destruct (starts_with _ s) eqn:E.
  - apply starts_with_prefix in E as [k Hk]. split; [by exists [], k|lia].
  - intros (p & x & y & H & _). symmetry in H. apply app_eq_nil in H as [-> [-> ->]%app_eq_nil].
    assert (starts_with [] [] = true) by done. congruence.
  - apply starts_with_prefix in E as [k Hk]. split; [by exists [], k|lia].
  - assert (forall p, occurs_at s (b :: t) p -> exists q, p = S q /\ occurs_at s t q) as Hcons.
    { intros p (x & y & H & Hp). destruct x as [|b' x]; simplify_eq/=.
      - assert (starts_with (s ++ y) s = true) by (apply starts_with_prefix; by exists y). congruence.
      - exists (length x). split; [done|]. by exists x, y. }
    destruct (find s t) as [p|]; simpl.
    + destruct IH as [H1 H2]. split; [by apply occurs_at_cons|].
      intros q (q' & -> & Hq')%Hcons. apply le_n_S, H2, Hq'.
    + intros (p & (q & -> & Hq)%Hcons). apply IH. by exists q.
Qed.

Lemma find_None s t : find s t = None <-> ~ occurs s t.
Proof.
  pose proof (find_spec s t) as H. destruct (find s t) as [p|]; [|done].
  split; [done|]. intros Hno. destruct Hno. exists p. apply H.
Qed.

(** Shifting a search past a prefix in which no occurrence starts. *)
Lemma find_shift s out t : (forall p, occurs_at s (out ++ t) p -> length out <= p) ->
  find s (out ++ t) = (fun p => length out + p) <$> find s t.
Proof.
  intros Hafter.
  assert (forall p, occurs_at s (out ++ t) p <-> exists q, p = length out + q /\ occurs_at s t q) as Hiff.
  { intros p. split.
    - intros Hp. pose proof (Hafter p Hp) as Hle. destruct Hp as (x & y & H & <-).
      exists (length x - length out). split; [lia|].
      exists (drop (length out) x), y. rewrite length_drop. split; [|done].
      apply (f_equal (drop (length out))) in H. rewrite drop_app_length in H. rewrite H.
      by rewrite drop_app_le.
    - intros (q & -> & x & y & -> & <-). exists (out ++ x), y. by rewrite (assoc_L (++)), length_app. }
  pose proof (find_spec s (out ++ t)) as H1. pose proof (find_spec s t) as H2.
  destruct (find s (out ++ t)) as [p|], (find s t) as [q|]; simpl; [|exfalso..|done].
  - destruct H1 as [H1 Hmin1], H2 as [H2 Hmin2]. f_equal.
    apply Hiff in H1 as (q' & -> & Hq'). apply Hmin2 in Hq'.
    assert (length out + q' <= length out + q) by (apply Hmin1, Hiff; eauto). lia.
  - destruct H1 as [(q & -> & Hq)%Hiff _]. apply H2. by exists q.
  - destruct H2 as [H2 _]. apply H1. exists (length out + q). apply Hiff. eauto.
Qed.

Lemma first_stop_shift stops out t :
  Forall (fun s => forall p, occurs_at s (out ++ t) p -> length out <= p) stops ->
  first_stop stops (out ++ t) = (fun sp => (sp.1, length out + sp.2)) <$> first_stop stops t.
Proof.
  induction 1 as [|s stops Hs _ IH]; simpl; [done|]. rewrite (find_shift _ _ _ Hs).
  by destruct (find s t).
Qed.

Lemma first_stop_None stops t : first_stop stops t = None <-> Forall (fun s => ~ occurs s t) stops.
Proof.
  induction stops as [|s stops IH]; simpl; [by split|]. rewrite Forall_cons, <- IH, <- find_None.
  destruct (find s t); naive_solver.
Qed.

Lemma first_stop_match stops t s p : first_stop stops t = Some (s, p) -> first_match stops t s p.
Proof.
  induction stops as [|s' stops IH]; simpl; [done|]. pose proof (find_spec s' t) as Hf.
  destruct (find s' t) as [p'|].
  - intros [= <- <-]. destruct Hf. split_and!; [done..|]. exists [], stops. by split; [|constructor].
  - intros (? & ? & before & after & -> & Hno)%IH. split_and!; [done..|].
    exists (s' :: before), after. by split; [|constructor].
Qed.

Lemma cut_Some cfg t out : cut cfg t = Some out -> cut_at cfg t out.
Proof.
  unfold cut. destruct (first_stop (stop_sequences cfg) t) as [[s p]|] eqn:E.
  - intros [= <-]. left. exists s, p. split; [by apply first_stop_match|done].
  - apply first_stop_None in E. destruct (first_stop (visible_stop_sequences cfg) t) as [[s p]|] eqn:E'; [|done].
    intros [= <-]. right. split; [done|]. exists s, p. split; [by apply first_stop_match|done].
Qed.

Lemma char_starts_spec i s k : k ∈ char_starts i s <->
  exists j b, k = i + j /\ s !! j = Some b /\ is_continuation b = false.
Proof.
  revert i. induction s as [|b s IH]; intros i; simpl.
  - split; [by intros ?%elem_of_nil|]. intros (? & ? & ? & ? & ?). done.
  - assert ((exists j b0, k = S i + j /\ s !! j = Some b0 /\ is_continuation b0 = false) <->
      exists j b0, k = i + S j /\ s !! j = Some b0 /\ is_continuation b0 = false) as Hs.
    { split; intros (j & b0 & -> & ? & ?); exists j, b0; split_and!; done || lia. }
    destruct (is_continuation b) eqn:E; [rewrite IH, Hs|rewrite elem_of_cons, IH, Hs]; split.
    + intros (j & b0 & -> & ? & ?). by exists (S j), b0.
    + intros ([|j] & b0 & -> & Hj & ?); simplify_eq/=; [congruence|]. by exists j, b0.
    + intros [->|(j & b0 & -> & ? & ?)]; [exists 0, b; split_and!; done || lia|]. by exists (S j), b0.
    + intros ([|j] & b0 & -> & Hj & ?); simplify_eq/=; [left; lia|]. right. by exists j, b0.
Qed.

Lemma char_starts_sorted i s : StronglySorted lt (char_starts i s).
Proof.
  revert i. induction s as [|b s IH]; intros i; simpl; [constructor|]. case_match; [done|].
  constructor; [done|]. apply Forall_forall. intros k (j & ? & -> & _)%char_starts_spec. lia.
Qed.

(** The inner loop finds every shorter suffix that begins the sequence, and only
    such suffixes. *)
Lemma longest_partial_spec stop t starts acc : StronglySorted gt starts ->
  acc <= longest_partial stop t starts acc /\
  (forall k, k ∈ starts -> length (drop k t) < length stop -> drop k t `prefix_of` stop ->
    length (drop k t) <= longest_partial stop t starts acc) /\
  (longest_partial stop t starts acc = acc \/
    exists k, k ∈ starts /\ longest_partial stop t starts acc = length (drop k t) /\
      length (drop k t) < length stop /\ drop k t `prefix_of` stop).
Proof.
  revert acc. induction starts as [|k starts IH]; intros acc Hs; simpl.
  { split_and!; [lia|by intros ? ?%elem_of_nil|by left]. }
  apply StronglySorted_cons in Hs as [Hk Hs]. rewrite Forall_forall in Hk.
  destruct (Nat.leb_spec (length stop) (length (drop k t))) as [Hle|Hlt].
  - split_and!; [lia| |by left]. intros k' [->|Hk']%elem_of_cons Hlen _; [lia|].
    specialize (Hk _ Hk'). rewrite !length_drop in *. lia.
  - set (acc' := if starts_with stop (drop k t) then acc `max` length (drop k t) else acc).
    destruct (IH acc' Hs) as (H1 & H2 & H3).
    assert (acc <= acc') by (unfold acc'; case_match; lia). split_and!; [lia| |].
    + intros k' [->|Hk']%elem_of_cons Hlen Hpre; [|by apply H2].
      apply starts_with_prefix in Hpre. unfold acc' in *. rewrite Hpre in *. lia.
    + destruct H3 as [H3|(k' & ? & ? & ? & ?)]; [|right; exists k'; split_and!; [by right|done..]].
      rewrite H3. unfold acc'. destruct (starts_with stop (drop k t)) eqn:E; [|by left].
      destruct (Nat.max_spec acc (length (drop k t))) as [[_ ->]|[_ ->]]; [right|by left].
      exists k. split_and!; [left|done|done|by apply starts_with_prefix].
Qed.

Lemma starts_descending t : StronglySorted gt (reverse (char_starts 0 t)).
Proof.
  generalize (char_starts_sorted 0 t). generalize (char_starts 0 t). induction 1 as [|k l Hs IH Hk].
  { constructor. }
  rewrite reverse_cons. apply StronglySorted_app. split_and!; [|done|repeat constructor].
  intros x y Hx Hy. apply list_elem_of_singleton in Hy as ->. rewrite elem_of_reverse in Hx.
  rewrite Forall_forall in Hk. by apply Hk.
Qed.

Lemma partial_match_len_spec stops t :
  (forall k, partial_suffix stops t k -> length (drop k t) <= partial_match_len stops t) /\
  (partial_match_len stops t = 0 \/
   exists k, partial_suffix stops t k /\ partial_match_len stops t = length (drop k t)).
Proof.
  unfold partial_match_len.
  induction stops as [|s stops [IH1 IH2]] using rev_ind; [split; [|by left]|].
  { intros k (_ & s & ?%elem_of_nil & _). done. }
  rewrite foldl_app. simpl. revert IH1 IH2.
  set (acc := foldl _ _ _). intros IH1 IH2.
  destruct (longest_partial_spec s t _ acc (starts_descending t)) as (H1 & H2 & H3). split.
  - intros k (Hk & s' & [Hs'|Hs']%elem_of_app & Hlen & Hpre).
    + assert (length (drop k t) <= acc) by (apply IH1; split; eauto). lia.
    + apply list_elem_of_singleton in Hs' as ->. apply H2; by rewrite ?elem_of_reverse.
  - destruct H3 as [->|(k & Hk & -> & Hlen & Hpre)].
    + destruct IH2 as [IH2|(k & (Hk & s' & Hs' & ?) & IH2)]; [by left|right].
      exists k. split; [|done]. split; [done|]. exists s'. split; [set_solver|done].
    + right. exists k. split; [|done]. rewrite elem_of_reverse in Hk. split; [done|].
      exists s. split; [set_solver|done].
Qed.

Lemma suffix_partial stops a c s : stops_valid stops -> s ∈ stops -> c `prefix_of` s -> c <> s ->
  c <> [] -> partial_suffix stops (a ++ c) (length a) /\ drop (length a) (a ++ c) = c.
Proof.
  intros Hv Hs Hpre Hne Hnil. rewrite drop_app_length. split; [|done]. split.
  - unfold stops_valid in Hv. rewrite Forall_forall in Hv.
    destruct (Hv s Hs) as (b & s' & -> & Hb). destruct c as [|b' c]; [done|].
    apply char_starts_spec. exists (length a), b'. split; [lia|].
    rewrite lookup_app_r, Nat.sub_diag by lia. split; [done|].
    apply prefix_cons_inv_1 in Hpre as ->. done.
  - exists s. split; [done|]. rewrite drop_app_length. split; [|done].
    destruct Hpre as [k ->]. destruct k as [|b k]; [by rewrite app_nil_r in Hne|].
    rewrite length_app. simpl. lia.
Qed.

(** ** The jail *)

Section jail.
Context (cfg : StopSequenceConfig) (Hvalid : stops_valid (all_stops cfg)).

Lemma jail_ok_start : jail_ok (all_stops cfg) [] [] [].
Proof.
  constructor; [done| | |done].
  - eapply Forall_impl; [exact Hvalid|]. intros s (b & s' & -> & _) (p & x & y & H & _).
    destruct x; discriminate H.
  - intros s a c _ H _ _. symmetry in H. apply app_eq_nil in H as [_ ->]. done.
Qed.

(** A stop sequence that new text completes begins in the jail or in the new
    text, so searching the jail and the new text is searching everything. *)
Lemma stops_after_output out jail f t s p : jail_ok (all_stops cfg) out jail f ->
  s ∈ all_stops cfg -> occurs_at s (out ++ jail ++ t) p -> length out <= p.
Proof.
  intros [-> Hclean Hlong _] Hs (x & y & H & <-).
  destruct (decide (length out <= length x)) as [|Hlt]; [done|exfalso].
  rewrite (assoc_L (++)) in H. destruct (decide (length (x ++ s) <= length (out ++ jail))) as [Hin|Hout].
  - rewrite Forall_forall in Hclean. apply (Hclean s Hs). exists (length x), x.
    apply (f_equal (take (length (out ++ jail)))) in H. rewrite take_app_length in H.
    rewrite (assoc_L (++)), take_app_ge in H by done. eexists. by rewrite H, (assoc_L (++)).
  - rewrite length_app in Hout.
    assert (exists c, out ++ jail = x ++ c /\ c `prefix_of` s) as (c & Hc & Hpre).
    { exists (take (length (out ++ jail) - length x) s).
      apply (f_equal (take (length (out ++ jail)))) in H. rewrite take_app_length in H. split.
      - rewrite H at 1. rewrite take_app_ge by (rewrite length_app; lia).
        rewrite take_app_le by lia. done.
      - apply prefix_take. }
    assert (length (out ++ jail) = length x + length c) as Hlen by (rewrite Hc, length_app; done).
    assert (c <> s) as Hne by (intros ->; lia).
    pose proof (Hlong s x c Hs Hc Hpre Hne). rewrite length_app in Hlen. lia.
Qed.

Lemma cut_shift out jail f t : jail_ok (all_stops cfg) out jail f ->
  cut cfg (f ++ t) = (out ++.) <$> cut cfg (jail ++ t).
Proof.
  intros Hok. rewrite (jail_text _ _ _ _ Hok), <- (assoc_L (++)). unfold cut.
  assert (forall stops, stops ⊆ all_stops cfg -> first_stop stops (out ++ jail ++ t) =
    (fun sp => (sp.1, length out + sp.2)) <$> first_stop stops (jail ++ t)) as Hshift.
  { intros stops Hsub. apply first_stop_shift, Forall_forall. intros s Hs p.
    eapply stops_after_output; [done|]. by apply Hsub. }
  rewrite !Hshift by (unfold all_stops; set_solver).
  destruct (first_stop (stop_sequences cfg) _) as [[s pos]|]; simpl; [by rewrite take_app_add|].
  destruct (first_stop (visible_stop_sequences cfg) _) as [[s pos]|]; simpl; [|done].
  by rewrite <- Nat.add_assoc, take_app_add.
Qed.

Lemma cut_None t : cut cfg t = None <-> no_stop (all_stops cfg) t.
Proof.
  unfold cut, no_stop, all_stops. rewrite Forall_app, <- !first_stop_None.
  repeat case_match; naive_solver.
Qed.

(** A suffix that may begin a stop and reaches into the output would have had a
    longer jail before: every such suffix is found in the jail and the new text. *)
Lemma candidate_in_check out jail f t s a c : jail_ok (all_stops cfg) out jail f ->
  s ∈ all_stops cfg -> f ++ t = a ++ c -> c `prefix_of` s -> c <> s -> length c <= length (jail ++ t).
Proof.
  intros Hok Hs Hfed Hpre Hne. pose proof (jail_text _ _ _ _ Hok) as Hf.
  apply Nat.nlt_ge. intros Hgt. set (n := length f - length a).
  assert (length a + length c = length f + length t) as Hl by (rewrite <- !length_app; by rewrite Hfed).
  rewrite length_app in Hgt.
  assert (length f = length out + length jail) as Hlf by (rewrite Hf, length_app; done).
  assert (f = a ++ take n c) as Hf'.
  { apply (f_equal (take (length f))) in Hfed. rewrite take_app_length in Hfed.
    rewrite Hfed at 1. apply take_app_ge. lia. }
  assert (length (take n c) <= length jail) as Hj.
  { eapply (jail_longest _ _ _ _ Hok s a); [done|done|etrans; [apply prefix_take|done]|].
    intros Heq. apply Hne. destruct Hpre as [k Hk].
    apply (f_equal length) in Heq. rewrite length_take, Hk, length_app in Heq.
    destruct k; [by rewrite app_nil_r in Hk|]. simpl in Heq. lia. }
  rewrite length_take in Hj. lia.
Qed.

Lemma candidate_len out jail f t s a c : jail_ok (all_stops cfg) out jail f ->
  s ∈ all_stops cfg -> f ++ t = a ++ c -> c `prefix_of` s -> c <> s ->
  length c <= partial_match_len (all_stops cfg) (jail ++ t).
Proof.
  intros Hok Hs Hfed Hpre Hne. pose proof (candidate_in_check _ _ _ _ _ _ _ Hok Hs Hfed Hpre Hne) as Hle.
  destruct (partial_match_len_spec (all_stops cfg) (jail ++ t)) as [Hmax _].
  destruct (decide (c = [])) as [->|Hnil]; [simpl; lia|].
  assert (jail ++ t = drop (length out) a ++ c) as Hsuf.
  { rewrite (jail_text _ _ _ _ Hok), <- (assoc_L (++)) in Hfed.
    assert (length out <= length a).
    { apply (f_equal length) in Hfed. rewrite length_app in Hle. rewrite !length_app in Hfed. lia. }
    apply (f_equal (drop (length out))) in Hfed. rewrite drop_app_length in Hfed.
    rewrite Hfed. by apply drop_app_le. }
  destruct (suffix_partial (all_stops cfg) (drop (length out) a) c s) as [Hp Hd]; [done..|].
  rewrite <- Hsuf in Hp, Hd. specialize (Hmax _ Hp). by rewrite Hd in Hmax.
Qed.

Lemma jail_ok_held out jail f : jail_ok (all_stops cfg) out jail f -> held_back (all_stops cfg) f jail.
Proof.
  intros [-> _ Hlong Hpart]. split_and!; [by exists out|done|].
  intros s c Hs [a Ha]. by apply (Hlong s a c).
Qed.

(** Holding back the longest suffix that may begin a stop keeps the invariant. *)
Lemma jail_step out jail f t : jail_ok (all_stops cfg) out jail f -> cut cfg (f ++ t) = None ->
  let check_text := jail ++ t in
  let safe_end := length check_text - partial_match_len (all_stops cfg) check_text in
  jail_ok (all_stops cfg) (out ++ take safe_end check_text) (drop safe_end check_text) (f ++ t).
Proof.
  intros Hok Hcut check_text safe_end. pose proof (jail_text _ _ _ _ Hok) as Hf.
  destruct (partial_match_len_spec (all_stops cfg) check_text) as [_ Hreal].
  assert (length (drop safe_end check_text) = partial_match_len (all_stops cfg) check_text) as Hlen.
  { rewrite length_drop. unfold safe_end.
    destruct Hreal as [->|(k & _ & ->)]; [lia|]. rewrite length_drop. lia. }
  constructor.
  - rewrite Hf, <- !(assoc_L (++)), take_drop. done.
  - by apply cut_None.
  - intros s a c Hs Hfed Hpre Hne. rewrite Hlen. by eapply candidate_len.
  - intros Hnil. destruct Hreal as [Hz|(k & (_ & s & Hs & Hlt & Hpre) & Hk)].
    { rewrite Hz in Hlen. by apply nil_length_inv in Hlen. }
    assert (drop safe_end check_text = drop k check_text) as Heq.
    { destruct (decide (k <= length check_text)).
      - f_equal. unfold safe_end. rewrite Hk, length_drop. lia.
      - rewrite Hk, (drop_ge check_text k) in Hlen by lia. apply nil_length_inv in Hlen. congruence. }
    rewrite Heq. exists s. split_and!; [done|done|]. intros E. rewrite E in Hlt. lia.
Qed.

Lemma feed_spec out jail f t : jail_ok (all_stops cfg) out jail f ->
  match feed cfg jail t with
  | Stops o => cut cfg (f ++ t) = Some (out ++ output_text o)
  | Continues o jail' => cut cfg (f ++ t) = None /\
      jail_ok (all_stops cfg) (out ++ output_text o) jail' (f ++ t)
  end.
Proof.
  intros Hok. pose proof (cut_shift _ _ _ t Hok) as Hcut.
  assert (cut cfg (jail ++ t) = None -> cut cfg (f ++ t) = None) as Hnone by (by intros H; rewrite Hcut, H).
  unfold feed. unfold cut at 2 in Hcut. unfold cut at 1 in Hnone.
  destruct (first_stop (stop_sequences cfg) _) as [[s pos]|]; simpl in Hcut.
  { rewrite Hcut. case_bool_decide as E; [by rewrite E|done]. }
  destruct (first_stop (visible_stop_sequences cfg) _) as [[s pos]|]; simpl in Hcut; [done|].
  pose proof (jail_step _ _ _ t Hok Hcut) as Hstep. cbv zeta in Hstep. fold (all_stops cfg).
  destruct (Nat.ltb_spec 0 (partial_match_len (all_stops cfg) (jail ++ t))) as [Hpos|Hz].
  - split; [done|]. case_bool_decide as E; [|done]. by rewrite E in Hstep.
  - split; [done|]. replace (partial_match_len _ _) with 0 in Hstep by lia.
    by rewrite Nat.sub_0_r, drop_all, firstn_all in Hstep.
Qed.

End jail.

(** ** The decoder over tokens *)

Lemma ends_with_suffix s p : ends_with s p = true <-> p `suffix_of` s.
Proof.
  unfold ends_with. rewrite bool_decide_eq_true. split.
  - intros H. exists (take (length s - length p) s). rewrite <- H at 2. by rewrite take_drop.
  - intros [k ->]. rewrite length_app. rewrite Nat.add_sub. apply drop_app_length.
Qed.

Section tokens.
Context `{D : Decoder} `{!PieceDecoder D} (cfg : StopSequenceConfig) (skip : bool).
Context (Hvalid : stops_valid (all_stops cfg)).

Abbreviation text_of := (text_of skip).
Abbreviation incomplete := (incomplete skip).
Abbreviation running := (running cfg skip).

Lemma text_of_app t1 t2 : text_of (t1 ++ t2) = text_of t1 ++ text_of t2.
Proof. apply pieces_app. Qed.

Lemma text_of_split r tokens : text_of tokens = text_of (take r tokens) ++ text_of (drop r tokens).
Proof. by rewrite <- text_of_app, take_drop. Qed.

Lemma slice_from_text t1 t2 :
  slice_from (text_of t1 ++ text_of t2) (length (text_of t1)) = Some (text_of t2).
Proof. apply slice_from_pieces. Qed.

Lemma incomplete_drop p tokens : ends_with (text_of (drop p tokens)) replacement = true ->
  incomplete tokens = true.
Proof.
  unfold incomplete. rewrite (text_of_split p tokens), !ends_with_suffix. apply suffix_app_r.
Qed.

(** A piece is made of whole characters, so text that ends in the replacement
    character has it within its last nonempty pieces. *)
Lemma incomplete_pieces t1 t2 : text_of t2 <> [] ->
  incomplete (t1 ++ t2) = ends_with (text_of t2) replacement.
Proof.
  intros Hne. apply Bool.eq_iff_eq_true. unfold incomplete. rewrite text_of_app, !ends_with_suffix.
  split; [|apply suffix_app_r]. intros [x Hx]. pose proof (pieces_boundary skip t2) as Hb.
  fold (text_of t2) in Hb. apply app_eq_inv in Hx as [(k & _ & Hk)|(k & _ & ->)]; [|by exists k].
  destruct (text_of t2) as [|b u]; [done|]. unfold is_char_boundary in Hb. simpl in Hb.
  destruct k as [|b1 [|b2 [|b3 k]]]; [by exists []|..]; exfalso; unfold replacement in Hk; simplify_eq/=.
  by destruct k.
Qed.

Lemma running_new : running [] [] (new_decoder cfg skip).
Proof.
  constructor; simpl; [done|done|lia|by apply jail_ok_start|done| |].
  { intros j [_ Hj]. left. by destruct j. }
  intros j _ _. rewrite take_nil. apply cut_None, (jail_clean _ [] []). by apply jail_ok_start.
Qed.

Lemma uncut_snoc tokens t : cut cfg (text_of (tokens ++ [t])) = None \/ incomplete (tokens ++ [t]) = true ->
  (forall j, j <= length tokens -> incomplete (take j tokens) = false ->
    cut cfg (text_of (take j tokens)) = None) ->
  forall j, j <= length (tokens ++ [t]) -> incomplete (take j (tokens ++ [t])) = false ->
    cut cfg (text_of (take j (tokens ++ [t]))) = None.
Proof.
  intros Hlast Hold j Hj. destruct (decide (j <= length tokens)) as [Hle|Hgt].
  { rewrite take_app_le by done. by apply Hold. }
  rewrite length_app in Hj. simpl in Hj. rewrite take_ge by (rewrite length_app; simpl; lia).
  intros Hc. destruct Hlast; [done|congruence].
Qed.

Lemma pending_snoc r tokens t : r <= length tokens ->
  text_of (tokens ++ [t]) = text_of (take r tokens) \/ incomplete (tokens ++ [t]) = true ->
  (forall j, r <= j <= length tokens ->
    text_of (take j tokens) = text_of (take r tokens) \/ incomplete (take j tokens) = true) ->
  forall j, r <= j <= length (tokens ++ [t]) ->
    text_of (take j (tokens ++ [t])) = text_of (take r (tokens ++ [t])) \/
    incomplete (take j (tokens ++ [t])) = true.
Proof.
  intros Hr Hlast Hold j Hj. rewrite (take_app_le _ _ r) by done.
  destruct (decide (j <= length tokens)) as [Hle|Hgt].
  { rewrite take_app_le by done. apply Hold. lia. }
  rewrite length_app in Hj. simpl in Hj. by rewrite take_ge by (rewrite length_app; simpl; lia).
Qed.

(** One token that is not a stop token. *)
Lemma process_token_spec tokens out d t : running tokens out d ->
  t ∉ stop_tokens cfg -> t ∉ visible_stop_tokens cfg ->
  exists o d', process_token t d = (Returns o, d') /\
    (running (tokens ++ [t]) (out ++ output_text o) d' \/
     stopped d' = true /\ incomplete (tokens ++ [t]) = false /\
     cut cfg (text_of (tokens ++ [t])) = Some (out ++ output_text o)).
Proof.
  intros [(Hcfg & Hskip & Hst) Htok [Hp Hr] Hjail Hread Hpend Huncut] Hs1 Hs2.
  unfold process_token. rewrite Hst, Hcfg, !decide_False by done. unfold process_text.
  cbn [token_buffer prefix_offset read_offset skip_special_tokens config jail_buffer stopped].
  rewrite Hskip, Htok. set (ids := tokens ++ [t]).
  assert (take (read_offset d) ids = take (read_offset d) tokens) as Htake by by apply take_app_le.
  assert (drop (prefix_offset d) ids =
    slice ids (prefix_offset d) (read_offset d) ++ drop (read_offset d) ids) as Hsplit.
  { unfold slice. rewrite <- (take_drop (read_offset d - prefix_offset d) (drop (prefix_offset d) ids)) at 1.
    f_equal. rewrite drop_drop. f_equal. lia. }
  assert ((if prefix_offset d <? read_offset d
    then decode (slice ids (prefix_offset d) (read_offset d)) skip else Ok []) =
    Ok (text_of (slice ids (prefix_offset d) (read_offset d)))) as ->.
  { destruct (Nat.ltb_spec (prefix_offset d) (read_offset d)); [apply decode_pieces|].
    unfold slice. by replace (read_offset d - prefix_offset d) with 0 by lia. }
  rewrite decode_pieces. fold (text_of (drop (prefix_offset d) ids)).
  assert (length ids = S (length tokens)) as Hlen by (unfold ids; rewrite length_app; simpl; lia).
  destruct (ends_with _ replacement) eqn:Hend.
  { apply incomplete_drop in Hend. eexists _, _. split; [done|]. left. simpl. rewrite app_nil_r.
    constructor; simpl; [done|done|lia|by rewrite Htake|by rewrite Htake| |].
    - apply pending_snoc; [done|by right|done].
    - apply uncut_snoc; [by right|done]. }
  rewrite Hsplit, text_of_app, slice_from_text.
  pose proof (text_of_split (read_offset d) ids) as Hids. rewrite Htake in Hids.
  destruct (Nat.ltb_spec (length (text_of (slice ids (prefix_offset d) (read_offset d))))
    (length (text_of (slice ids (prefix_offset d) (read_offset d)) ++ text_of (drop (read_offset d) ids))))
    as [Hgt|Hle].
  - assert (incomplete ids = false) as Hcomplete.
    { rewrite <- (take_drop (prefix_offset d) ids), incomplete_pieces; [done|].
      intros E. rewrite <- text_of_app, <- Hsplit, E in Hgt. simpl in Hgt. lia. }
    pose proof (feed_spec _ Hvalid _ _ _ (text_of (drop (read_offset d) ids)) Hjail) as Hfeed.
    rewrite <- Hids in Hfeed. destruct (feed cfg _ _) as [o|o jail']; eexists _, _; (split; [done|]).
    { by right. }
    left. destruct Hfeed as [Hnone Hok]. constructor; simpl; [done|done|lia| | | |].
    + by rewrite firstn_all.
    + by rewrite firstn_all.
    + intros j Hj. left. by replace j with (length ids) by lia.
    + apply uncut_snoc; [by left|done].
  - rewrite length_app in Hle. assert (text_of (drop (read_offset d) ids) = []) as Hnil
      by (apply nil_length_inv; lia).
    eexists _, _. split; [done|]. left. simpl. rewrite app_nil_r.
    rewrite Hnil, app_nil_r in Hids.
    constructor; simpl; [done|done|lia|by rewrite Htake|by rewrite Htake| |].
    + apply pending_snoc; [done|by left|done].
    + apply uncut_snoc; [left|done]. fold ids. rewrite Hids.
      by apply cut_None, (jail_clean _ _ _ _ Hjail).
Qed.

Lemma process_tokens_stopped ts d : stopped d = true ->
  process_tokens ts d = (Returns ((fun _ => Stopped) <$> ts), d).
Proof.
  intros Hd. induction ts as [|t ts IH]; simpl; [done|]. unfold process_token. rewrite Hd.
  by rewrite IH.
Qed.

(** Tokens after tokens, none of them stop tokens. *)
Lemma process_tokens_spec ts tokens out d : running tokens out d ->
  Forall (fun t => (t ∉ stop_tokens cfg) /\ t ∉ visible_stop_tokens cfg) ts ->
  exists outs d' out', process_tokens ts d = (Returns outs, d') /\
    out' = out ++ concat (output_text <$> outs) /\
    (running (tokens ++ ts) out' d' \/
     stopped d' = true /\ exists k, k <= length (tokens ++ ts) /\
       incomplete (take k (tokens ++ ts)) = false /\
       cut cfg (text_of (take k (tokens ++ ts))) = Some out' /\
       forall j, j < k -> incomplete (take j (tokens ++ ts)) = false ->
         cut cfg (text_of (take j (tokens ++ ts))) = None).
Proof.
  intros Hrun Hts. revert tokens out d Hrun.
  induction Hts as [|t ts [Ht1 Ht2] Hts IH]; intros tokens out d Hrun.
  { exists [], d, out. simpl. rewrite !app_nil_r. auto. }
  destruct (process_token_spec tokens out d t Hrun Ht1 Ht2) as (o & d1 & Hstep & Hcase).
  simpl. rewrite Hstep, cons_middle, (assoc_L (++)). destruct Hcase as [Hrun1|(Hstop & Hcomplete & Hcut)].
  - destruct (IH _ _ _ Hrun1) as (outs & d2 & out' & -> & -> & Hcase). exists (o :: outs), d2.
    eexists. split; [done|]. split; [|done]. rewrite fmap_cons. simpl. by rewrite (assoc_L (++)).
  - rewrite (process_tokens_stopped ts d1 Hstop). eexists _, d1, (out ++ output_text o). split; [done|].
    assert (concat (output_text <$> ((fun _ => Stopped) <$> ts)) = []) as Hnone
      by (clear; induction ts; done).
    split; [rewrite fmap_cons; simpl; by rewrite Hnone, app_nil_r|]. right. split; [done|].
    exists (length (tokens ++ [t])). rewrite take_app_length. split_and!; [rewrite (length_app (tokens ++ [t])); lia|done|done|].
    intros j Hj. rewrite length_app in Hj. simpl in Hj.
    rewrite take_app_le, take_app_le by (rewrite ?length_app; simpl; lia).
    apply (running_uncut _ _ _ _ _ Hrun). lia.
Qed.

(** What has been read is the text of the last complete prefix. *)
Lemma running_complete tokens out d : running tokens out d -> exists k, last_complete skip tokens k /\
  text_of (take k tokens) = out ++ jail_buffer d.
Proof.
  intros [_ _ [_ Hr] Hjail Hread Hpend _]. rewrite <- (jail_text _ _ _ _ Hjail).
  assert (forall n, read_offset d <= n <= length tokens -> exists k, read_offset d <= k <= n /\
    incomplete (take k tokens) = false /\
    forall j, k < j <= n -> incomplete (take j tokens) = true) as Hlast.
  { intros n [Hn Hlen]. induction Hn as [|n Hn IH].
    { exists (read_offset d). split_and!; [lia..|done|lia]. }
    destruct (incomplete (take (S n) tokens)) eqn:E.
    - destruct IH as (k & Hk & Hc & Hj); [lia|]. exists k. split_and!; [lia..|done|].
      intros j Hj'. destruct (decide (j = S n)) as [->|]; [done|]. apply Hj. lia.
    - exists (S n). split_and!; [lia..|done|lia]. }
  destruct (Hlast (length tokens)) as (k & Hk & Hc & Hj); [lia|]. exists k. split; [done || split_and!; [lia|done..]|].
  destruct (Hpend k Hk) as [|]; [done|congruence].
Qed.

End tokens.

(** ** Properties *)

(** C16: the stop-sequence decoder cuts exactly at the first stop.  For a
    tokenizer that maps tokens to pieces, nonempty stop sequences and tokens
    that are not stop tokens, [process_tokens] never fails or panics.  Text that
    ends in the replacement character U+FFFD counts as cut in the middle of a
    character and is not looked at until a later token completes it.  Either the
    decoder stops: what it has emitted is the text up to the first token after
    which that text is complete and contains a stop sequence, cut before the
    leftmost occurrence of the first configured hidden sequence that occurs, or,
    if none does, after that of the first configured visible one.  Or it has not
    stopped: no complete text so far contains a stop sequence, what it has emitted
    and its flush together are the last complete text, and what it holds back
    of it is the longest end that may still become a stop sequence.  Text
    that follows the last complete text is not flushed. *)
Theorem process_tokens_exact `{D : Decoder} `{!PieceDecoder D} cfg skip tokens :
  stops_valid (all_stops cfg) ->
  Forall (fun t => (t ∉ stop_tokens cfg) /\ t ∉ visible_stop_tokens cfg) tokens ->
  exists outs d out, process_tokens tokens (new_decoder cfg skip) = (Returns outs, d) /\
    out = concat (output_text <$> outs) /\
    if is_stopped d then
      exists k, k <= length tokens /\ incomplete skip (take k tokens) = false /\
        cut_at cfg (text_of skip (take k tokens)) out /\
        forall j, j < k -> incomplete skip (take j tokens) = false ->
          no_stop (all_stops cfg) (text_of skip (take j tokens))
    else
      (forall j, j <= length tokens -> incomplete skip (take j tokens) = false ->
        no_stop (all_stops cfg) (text_of skip (take j tokens))) /\
      exists k, last_complete skip tokens k /\
        text_of skip (take k tokens) = out ++ output_text (flush d).1 /\
        held_back (all_stops cfg) (text_of skip (take k tokens)) (output_text (flush d).1).
Proof.
  intros Hvalid Htokens.
  destruct (process_tokens_spec cfg skip Hvalid tokens [] [] _ (running_new cfg skip Hvalid) Htokens)
    as (outs & d & out & Hrun & Hout & Hcase). exists outs, d, out. split_and!; [done..|].
  unfold is_stopped. simpl in Hcase |- *.
  destruct Hcase as [Hr|(-> & k & Hk & Hc & Hcut & Hno)].
  - destruct (running_config _ _ _ _ _ Hr) as (_ & _ & ->). split.
    + intros j Hj Hc. apply cut_None. by apply (running_uncut _ _ _ _ _ Hr).
    + destruct (running_complete _ _ _ _ _ Hr) as (k & Hk & Htext). exists k. split_and!; [done..|].
      rewrite Htext, <- (jail_text _ _ _ _ (running_jail _ _ _ _ _ Hr)).
      apply (jail_ok_held _ _ _ _ (running_jail _ _ _ _ _ Hr)).
  - exists k. split_and!; [done..|by apply cut_Some|]. intros j Hj Hc'. apply cut_None. by apply Hno.
Qed.

Lemma process_tokens_exact_witness :
  let cfg := with_stop_sequence [x62; x63] (with_visible_stop_sequence [x64] default_config) in
  exists outs d out,
    process_tokens [97; 98; 98; 99; 100]%N (new_decoder cfg true) = (Returns outs, d) /\
    out = concat (output_text <$> outs) /\
    exists k, k <= 5 /\ cut_at cfg (text_of true (take k [97; 98; 98; 99; 100]%N)) out.
Proof.
  intros cfg.
  destruct (process_tokens_exact cfg true [97; 98; 98; 99; 100]%N) as (outs & d & out & Hrun & Hout & H).
  - repeat constructor; eexists _, _; done.
  - repeat constructor; apply not_elem_of_empty.
  - exists outs, d, out. split_and!; [done..|].
    assert (is_stopped (process_tokens [97; 98; 98; 99; 100]%N (new_decoder cfg true)).2 = true)
      as Hs by (vm_compute; reflexivity).
    rewrite Hrun in Hs. simpl in Hs. rewrite Hs in H. destruct H as (k & ? & _ & ? & _). eauto.
Defined.

(** A stop token releases the held text.  After tokens that complete no
    stop sequence and end with a complete character, a stop token stops the
    decoder, and everything emitted then is the text of the tokens, followed by
    the token's own text exactly when it is a visible stop token. *)
Theorem stop_token_releases `{D : Decoder} `{!PieceDecoder D} cfg skip tokens t outs d :
  stops_valid (all_stops cfg) ->
  Forall (fun t => (t ∉ stop_tokens cfg) /\ t ∉ visible_stop_tokens cfg) tokens ->
  t ∈ stop_tokens cfg ∪ visible_stop_tokens cfg ->
  process_tokens tokens (new_decoder cfg skip) = (Returns outs, d) ->
  is_stopped d = false -> incomplete skip tokens = false ->
  exists o d', process_token t d = (Returns o, d') /\ is_stopped d' = true /\
    concat (output_text <$> outs) ++ output_text o =
      text_of skip tokens ++ (if decide (t ∈ stop_tokens cfg) then [] else piece skip t).
Proof.
  intros Hvalid Htokens Ht Hrun Hnot Hcomplete.
  destruct (process_tokens_spec cfg skip Hvalid tokens [] [] _ (running_new cfg skip Hvalid) Htokens)
    as (outs' & d' & out & Hrun' & Hout & Hcase). rewrite Hrun in Hrun'. injection Hrun' as <- <-.
  destruct Hcase as [Hr|[Hs _]]; [|unfold is_stopped in Hnot; congruence]. simpl in Hr, Hout. subst out.
  destruct (running_config _ _ _ _ _ Hr) as (Hc & Hk & Hst).
  assert (text_of skip tokens = concat (output_text <$> outs) ++ jail_buffer d) as Htext.
  { destruct (running_complete _ _ _ _ _ Hr) as (k & (Hle & _ & Hlast) & <-).
    destruct (decide (k = length tokens)) as [->|]; [by rewrite firstn_all|].
    specialize (Hlast (length tokens)). rewrite firstn_all in Hlast. rewrite Hlast in Hcomplete by lia. done. }
  unfold process_token. rewrite Hst, Hc. destruct (decide (t ∈ stop_tokens cfg)) as [Hin|Hin].
  - eexists _, _. split_and!; [done|done|]. rewrite Htext, app_nil_r. by destruct (jail_buffer d).
  - rewrite decide_True by set_solver. rewrite decode_pieces. eexists _, _. split_and!; [done|done|].
    simpl. rewrite app_nil_r, Hk, Htext, (assoc_L (++)). done.
Qed.

Lemma stop_token_releases_witness :
  let cfg := with_visible_stop_token 33%N (with_stop_sequence [x62; x63] default_config) in
  exists outs d o d', process_tokens [97; 98]%N (new_decoder cfg true) = (Returns outs, d) /\
    process_token 33%N d = (Returns o, d') /\ is_stopped d' = true /\
    concat (output_text <$> outs) ++ output_text o = [x61; x62] ++ [x21].
Proof.
  intros cfg.
  destruct (process_tokens [97; 98]%N (new_decoder cfg true)) as [[outs| |] d] eqn:E; [|discriminate E..].
  destruct (stop_token_releases cfg true [97; 98]%N 33%N outs d) as (o & d' & H1 & H2 & H3).
  - repeat constructor; eexists _, _; done.
  - repeat constructor; apply (bool_decide_eq_true_1 _); vm_refl.
  - apply (bool_decide_eq_true_1 _). vm_refl.
  - exact E.
  - vm_compute in E. injection E as <- <-. reflexivity.
  - vm_refl.
  - exists outs, d, o, d'. split_and!; [done..|]. rewrite H3. vm_refl.
Defined.

(** The stop sequences are tried in the order they are configured: with stops [b]
    and [a], a token whose text is [ab] is cut at [b]. *)
Example configured_order_decides :
  first_match [[x62]; [x61]] [x61; x62] [x62] 1 /\
  feed (with_stop_sequence [x61] (with_stop_sequence [x62] default_config)) [] [x61; x62] =
    Stops (StoppedWithText [x61]).
Proof. split; [by apply first_stop_match|done]. Qed.
