(* ===== verification/WorkerUrl.v ===== *)
(** * Worker URLs ([src/backend/detect.rs], [src/routers/http/dp_utils.rs])

    The scheme of a worker's URL says how it is reached, and an [@rank] suffix
    which data-parallel engine it names.  Strings are byte strings; every
    separator is an ASCII character, so splitting bytes is splitting text.  The
    [str] methods the code uses are modelled at the head of the file.  The
    request of [/metrics] is an argument. *)

From S2P Require Import Prelude.
From stdpp Require Import pretty.
From Stdlib Require Import Strings.Ascii.

Local Open Scope string_scope.

(** ** Strings *)

(** [str::strip_prefix] *)
Fixpoint strip_prefix (p s : string) : option string :=
  match p, s with
  | "", _ => Some s
  | String a p, String b s => if Ascii.eqb a b then strip_prefix p s else None
  | String _ _, "" => None
  end.

Definition str_starts_with (s p : string) : bool := bool_decide (is_Some (strip_prefix p s)).

(** [str::split] at a character: never empty. *)
Fixpoint str_split (c : ascii) (s : string) : list string :=
  match s with
  | "" => [""]
  | String a s =>
      if Ascii.eqb a c then "" :: str_split c s
      else match str_split c s with
           | h :: t => String a h :: t
           | [] => [String a ""]
           end
  end.

(** [str::split_once]: at the first occurrence of the pattern. *)
Fixpoint split_once (pat s : string) : option (string * string) :=
  match strip_prefix pat s with
  | Some rest => Some ("", rest)
  | None =>
      match s with
      | "" => None
      | String a s => prod_map (String a) id <$> split_once pat s
      end
  end.

(** [str::rsplit_once]: at the last occurrence of the character. *)
Fixpoint rsplit_once (c : ascii) (s : string) : option (string * string) :=
  match s with
  | "" => None
  | String a s =>
      match rsplit_once c s with
      | Some (prefix, rest) => Some (String a prefix, rest)
      | None => if Ascii.eqb a c then Some ("", s) else None
      end
  end.

(** [trim_end_matches] of a character. *)
Fixpoint trim_end (c : ascii) (s : string) : string :=
  match s with
  | "" => ""
  | String a s =>
      match trim_end c s with
      | "" => if Ascii.eqb a c then "" else String a ""
      | s => String a s
      end
  end.

Definition newline : ascii := "010".
Definition carriage_return : ascii := "013".

(** A terminated line loses one trailing carriage return. *)
Definition strip_cr (s : string) : string :=
  match rsplit_once carriage_return s with
  | Some (line, "") => line
  | _ => s
  end.

(** [str::lines]: the last part is a line only when it is not empty. *)
Definition lines (s : string) : list string :=
  let parts := str_split newline s in
  (strip_cr <$> take (length parts - 1) parts) ++
  match last parts with Some "" | None => [] | Some l => [l] end.

Definition digit (c : ascii) : option N :=
  let n := Ascii.N_of_ascii c in
  if ((48 <=? n) && (n <=? 57))%N then Some (n - 48)%N else None.

Fixpoint parse_digits (max acc : N) (s : string) : option N :=
  match s with
  | "" => Some acc
  | String c s =>
      match digit c with
      | Some d => let v := (acc * 10 + d)%N in if (v <=? max)%N then parse_digits max v s else None
      | None => None
      end
  end.

(** [str::parse] of an unsigned integer: a plus sign is allowed, no digits or an
    overflow is an error. *)
Definition parse_uint (max : N) (s : string) : option N :=
  match s with
  | "" => None
  | String "+" "" => None
  | String "+" s => parse_digits max 0 s
  | s => parse_digits max 0 s
  end.

Definition parse_usize : string -> option N := parse_uint u64_max.
Definition parse_u32 : string -> option N := parse_uint u32_max.

(** [Ipv4Addr] as text: four numbers without leading zeros. *)
Definition print_ipv4 (bits : N) : string :=
  pretty (bits / 2 ^ 24)%N +:+ "." +:+ pretty (bits / 2 ^ 16 mod 256)%N +:+ "." +:+ pretty (bits / 2 ^ 8 mod 256)%N +:+ "." +:+ pretty (bits mod 256)%N.

Definition parse_octet (s : string) : option N :=
  match s with
  | String c s' => if bool_decide (c = "+"%char) || (bool_decide (c = "0"%char) && negb (bool_decide (s' = ""))) then None else parse_uint 255 s
  | "" => None
  end.

Definition parse_ipv4 (s : string) : option N :=
  match str_split "." s with
  | [a; b; c; d] =>
      a ← parse_octet a; b ← parse_octet b; c ← parse_octet c; d ← parse_octet d;
      Some (a * 2 ^ 24 + b * 2 ^ 16 + c * 2 ^ 8 + d)%N
  | _ => None
  end.

Definition has_char (c : ascii) (s : string) : bool := bool_decide (c ∈ String.list_ascii_of_string s).

(** ** Schemes *)

Inductive ConnectionMode := Http | Grpc.

#[export] Instance ConnectionMode_eq_dec : EqDecision ConnectionMode.
Proof. solve_decision. Defined.

Inductive WorkerPoolKind := HttpPool | GrpcPool.

#[export] Instance WorkerPoolKind_eq_dec : EqDecision WorkerPoolKind.
Proof. solve_decision. Defined.

Definition is_grpc_url (url : string) : bool := str_starts_with url "grpc://".

Definition url_kind (url : string) : WorkerPoolKind :=
  if is_grpc_url url then GrpcPool else HttpPool.

(** [{existing:?}] *)
Definition kind_name (k : WorkerPoolKind) : string :=
  match k with HttpPool => "Http" | GrpcPool => "Grpc" end.

(** The loop of [classify_worker_urls]. *)
Fixpoint classify_from (kind : option WorkerPoolKind) (urls : list string)
  : result (option WorkerPoolKind) string :=
  match urls with
  | [] => Ok kind
  | url :: urls =>
      if str_starts_with url "grpcs://" then
        Err ("grpcs:// workers require tonic TLS support, which is not enabled yet: " +:+ url)
      else
        let next := url_kind url in
        match kind with
        | None => classify_from (Some next) urls
        | Some existing =>
            if bool_decide (existing = next) then classify_from kind urls
            else Err ("mixed worker schemes are not supported " +:+
              "(grpc:// is token_ids-only; http:// proxies text). " +:+
              "got " +:+ url +:+ " in a " +:+ kind_name existing +:+ " pool")
        end
  end.

Definition classify_worker_urls (urls : list string) : result (option WorkerPoolKind) string :=
  classify_from None urls.

Definition connection_mode_from_url (url : string) : ConnectionMode :=
  if is_grpc_url url then Grpc else Http.

Definition strip_dp_suffix (url : string) : string :=
  match rsplit_once "@" url with
  | Some (prefix, rank) => match parse_u32 rank with Some _ => prefix | None => url end
  | None => url
  end.

Definition parse_dp_rank (url : string) : option N :=
  '(_, rank) ← rsplit_once "@" url; parse_u32 rank.

Definition grpc_connect_uri (url : string) : result string string :=
  let base := strip_dp_suffix url in
  match strip_prefix "grpc://" base with
  | Some rest => Ok ("http://" +:+ rest)
  | None =>
      match strip_prefix "grpcs://" base with
      | Some rest =>
          Err ("grpcs:// workers require tonic TLS support, which is not enabled yet: " +:+ rest)
      | None => Err ("not a grpc worker URL: " +:+ url)
      end
  end.

Definition grpc_socket_addr (url : string) : result string string :=
  match grpc_connect_uri url with
  | Err e => Err e
  | Ok uri =>
      match strip_prefix "http://" uri with
      | Some addr => Ok addr
      | None =>
          match strip_prefix "https://" uri with
          | Some addr => Ok addr
          | None => Err ("failed to parse grpc address from " +:+ url)
          end
      end
  end.

(** ** Data-parallel ranks *)

(** [format!("{}@{}", url, rank)] *)
Definition dp_url (url : string) (rank : N) : string := url +:+ "@" +:+ pretty rank.

(** The label of one line of the metrics. *)
Definition engine_label (line : string) : option string :=
  '(_, after_label) ← split_once ("engine=" +:+ String "034" "") line;
  '(engine, _) ← split_once (String "034" "") after_label;
  Some engine.

Definition count_engine_labels (metrics_body : string) : option N :=
  let engines : gset string :=
    list_to_set (omap engine_label (filter (fun l => str_starts_with l "vllm:" = true) (lines metrics_body))) in
  if bool_decide (engines = ∅) then None else Some (N.of_nat (size engines)).

Definition extract_dp_rank (worker_url : string) : result (string * N) string :=
  match str_split "@" worker_url with
  | [base; rank] =>
      match parse_usize rank with
      | Some dp_rank => Ok (base, dp_rank)
      | None => Err ("failed to parse dp_rank from worker_url: " +:+ worker_url)
      end
  | _ => Err ("invalid worker_url format: " +:+ worker_url)
  end.

Definition parse_worker_url (worker_url : string) : string * option N :=
  match extract_dp_rank worker_url with
  | Ok (base, rank) => (base, Some rank)
  | Err _ => (worker_url, None)
  end.

(** [fetch] is the text of a successful answer. *)
Definition discover_dp_size (fetch : string -> option string) (worker_url : string)
    (fallback_dp_size : N) : N :=
  let fallback_dp_size := N.max fallback_dp_size 1 in
  let '(base_url, _) := parse_worker_url worker_url in
  let metrics_url := trim_end "/" base_url +:+ "/metrics" in
  match fetch metrics_url ≫= count_engine_labels with
  | Some dp_size => dp_size
  | None => fallback_dp_size
  end.

(** The ranks [0..dp_size]. *)
Definition ranks (dp_size : N) : list N := N.of_nat <$> seq 0 (N.to_nat dp_size).

Definition get_dp_aware_workers (worker_urls : list string) (dp_size : N) : list string :=
  worker_urls ≫= fun url => dp_url url <$> ranks dp_size.

(** The headers of a request. *)
Definition add_dp_rank_header (headers : list (string * string)) (dp_rank : option N)
  : list (string * string) :=
  match dp_rank with
  | Some rank => headers ++ [("X-data-parallel-rank", pretty rank)]
  | None => headers
  end.

(** How the workers of a pool are reached. *)
Definition pool_mode (k : WorkerPoolKind) : ConnectionMode :=
  match k with HttpPool => Http | GrpcPool => Grpc end.

(** ** Lemmas *)

Lemma digit_pretty x : (x < 10)%N -> digit (pretty_N_char x) = Some x.
Proof.
  intros Hx. assert (x ∈ (0 :: 1 :: 2 :: 3 :: 4 :: 5 :: 6 :: 7 :: 8 :: 9 :: [])%N) as Hin.
  { destruct (decide (x ∈ [0; 1; 2; 3; 4; 5; 6; 7; 8; 9]%N)) as [|Hn]; [done|].
    rewrite !not_elem_of_cons in Hn. lia. }
  repeat (apply elem_of_cons in Hin as [->|Hin]; [reflexivity|]). by apply elem_of_nil in Hin.
Qed.

(** Reading a printed number back. *)
Lemma parse_pretty_go max x s : (x <= max)%N ->
  parse_digits max 0 (pretty_N_go x s) = parse_digits max x s.
Proof.
  revert s. induction (N.lt_wf_0 x) as [x _ IH]. intros s Hx.
  destruct (decide (x = 0)%N) as [->|Hnz]; [by rewrite pretty_N_go_0|].
  rewrite pretty_N_go_step by lia.
  assert (x / 10 < x)%N by (apply N.div_lt; lia). rewrite IH by lia. simpl.
  rewrite digit_pretty by (apply N.mod_lt; lia).
  assert (x / 10 * 10 + x mod 10 = x)%N as -> by (rewrite (N.mul_comm _ 10); symmetry; apply N.div_mod; lia).
  destruct (N.leb_spec x max); [done|lia].
Qed.

Lemma digit_not_special x : (x < 10)%N -> pretty_N_char x <> "+"%char /\ pretty_N_char x <> "@"%char.
Proof. intros Hx. apply digit_pretty in Hx. split; intros E; rewrite E in Hx; discriminate Hx. Qed.

(** A printed number is a nonempty string of digits. *)
Lemma pretty_head (n : N) : exists d rest, (d < 10)%N /\ pretty n = String (pretty_N_char d) rest.
Proof.
  destruct (decide (n = 0)%N) as [->|Hnz]; [by exists 0%N, ""|].
  unfold pretty, pretty_N. rewrite decide_False by done.
  enough (forall x s, (0 < x)%N -> exists d rest, (d < 10)%N /\ pretty_N_go x s = String (pretty_N_char d) rest)
    as H by (apply H; lia).
  intros x. induction (N.lt_wf_0 x) as [x _ IH]. intros s Hx. rewrite pretty_N_go_step by done.
  assert (x mod 10 < 10)%N by (apply N.mod_lt; lia).
  destruct (decide (x / 10 = 0)%N) as [->|Hd]; [rewrite pretty_N_go_0; eauto|].
  apply IH; [apply N.div_lt; lia|by apply N.neq_0_lt_0].
Qed.

Lemma parse_pretty max n : (n <= max)%N -> parse_uint max (pretty n) = Some n.
Proof.
  intros Hn. assert (parse_digits max 0 (pretty n) = Some n) as Hp.
  { destruct (decide (n = 0)%N) as [->|Hnz].
    - by destruct max.
    - unfold pretty, pretty_N. rewrite decide_False by done. by rewrite parse_pretty_go. }
  destruct (pretty_head n) as (d & rest & Hd & E). rewrite E in Hp |- *.
  destruct (digit_not_special d Hd) as [Hplus _]. unfold parse_uint.
  destruct (pretty_N_char d) as [[] [] [] [] [] [] [] []]; exact Hp || (exfalso; by apply Hplus).
Qed.

Lemma pretty_go_chars c x s : (forall d, (d < 10)%N -> pretty_N_char d <> c) ->
  has_char c s = false -> has_char c (pretty_N_go x s) = false.
Proof.
  intros Hc. revert s. induction (N.lt_wf_0 x) as [x _ IH]. intros s Hs.
  destruct (decide (x = 0)%N) as [->|Hnz]; [by rewrite pretty_N_go_0|].
  rewrite pretty_N_go_step by lia. apply IH; [apply N.div_lt; lia|].
  apply bool_decide_eq_false in Hs. apply bool_decide_eq_false. simpl. rewrite not_elem_of_cons.
  split; [|done]. intros E. eapply Hc; [|done]. apply N.mod_lt. lia.
Qed.

Lemma pretty_no_at (n : N) : has_char "@" (pretty n) = false.
Proof.
  destruct (decide (n = 0)%N) as [->|Hnz]; [done|].
  unfold pretty, pretty_N. rewrite decide_False by done. apply pretty_go_chars; [|done].
  intros d Hd. apply digit_not_special, Hd.
Qed.

Lemma has_char_cons c a s : has_char c (String a s) = false <-> a <> c /\ has_char c s = false.
Proof.
  unfold has_char. simpl. rewrite !bool_decide_eq_false, not_elem_of_cons. naive_solver.
Qed.

Lemma split_no_char c s : has_char c s = false -> str_split c s = [s].
Proof.
  induction s as [|a s IH]; [done|]. intros [Ha Hs]%has_char_cons. simpl.
  apply Ascii.eqb_neq in Ha as ->. by rewrite IH.
Qed.

Lemma split_at_char c s t : has_char c s = false -> has_char c t = false ->
  str_split c (s +:+ String c t) = [s; t].
Proof.
  intros Hs Ht. induction s as [|a s IH]; simpl.
  - by rewrite Ascii.eqb_refl, split_no_char.
  - apply has_char_cons in Hs as [Ha Hs]. apply Ascii.eqb_neq in Ha as ->. by rewrite IH.
Qed.

Lemma rsplit_no_char c s : has_char c s = false -> rsplit_once c s = None.
Proof.
  induction s as [|a s IH]; [done|]. intros [Ha Hs]%has_char_cons. simpl.
  rewrite IH by done. by apply Ascii.eqb_neq in Ha as ->.
Qed.

Lemma rsplit_at_char c s t : has_char c t = false -> rsplit_once c (s +:+ String c t) = Some (s, t).
Proof.
  intros Ht. induction s as [|a s IH]; simpl.
  - by rewrite rsplit_no_char, Ascii.eqb_refl.
  - by rewrite IH.
Qed.

Lemma extract_dp_url url rank : has_char "@" url = false -> (rank <= u64_max)%N ->
  extract_dp_rank (dp_url url rank) = Ok (url, rank).
Proof.
  intros Hurl Hrank. unfold extract_dp_rank, dp_url.
  change ("@" +:+ pretty rank) with (String "@" (pretty rank)).
  rewrite split_at_char by (done || apply pretty_no_at). unfold parse_usize. by rewrite parse_pretty.
Qed.

Lemma dp_url_inj url1 url2 rank1 rank2 : dp_url url1 rank1 = dp_url url2 rank2 ->
  url1 = url2 /\ rank1 = rank2.
Proof.
  intros E. apply (f_equal (rsplit_once "@")) in E. unfold dp_url in E.
  change ("@" +:+ pretty rank1) with (String "@" (pretty rank1)) in E.
  change ("@" +:+ pretty rank2) with (String "@" (pretty rank2)) in E.
  rewrite !rsplit_at_char in E by apply pretty_no_at. injection E as -> E. by apply (inj pretty) in E.
Qed.

Lemma NoDup_ranks n : NoDup (ranks n).
Proof. apply NoDup_fmap_2; [apply _|apply NoDup_seq]. Qed.

Lemma elem_of_ranks r n : r ∈ ranks n <-> (r < n)%N.
Proof.
  unfold ranks. rewrite list_elem_of_fmap. split.
  - intros (k & -> & Hk%elem_of_seq). lia.
  - intros Hr. exists (N.to_nat r). split; [lia|]. apply elem_of_seq. lia.
Qed.

Lemma NoDup_dp_aware_workers urls dp_size : NoDup urls -> NoDup (get_dp_aware_workers urls dp_size).
Proof.
  induction 1 as [|u urls Hu Hnd IH]; [constructor|].
  unfold get_dp_aware_workers. rewrite bind_cons. apply NoDup_app. split_and!; [| |exact IH].
  - apply NoDup_fmap_2; [|apply NoDup_ranks]. intros r1 r2 E. by apply dp_url_inj in E as [_ ->].
  - intros x (r & -> & _)%list_elem_of_fmap Hx. apply list_elem_of_bind in Hx as (b & Hx & Hb).
    apply list_elem_of_fmap in Hx as (r' & E & _). by apply dp_url_inj in E as [<- _].
Qed.

Lemma classify_from_spec kind urls : match classify_from kind urls with
  | Ok k => Forall (fun u => str_starts_with u "grpcs://" = false) urls /\
      (kind = None /\ urls = [] /\ k = None \/
       exists e, k = Some e /\ (kind = Some e \/ kind = None /\ urls <> []) /\
         Forall (fun u => url_kind u = e) urls)
  | Err _ => Exists (fun u => str_starts_with u "grpcs://" = true) urls \/
      exists u1 u2, (kind = Some u1 \/ u1 ∈ url_kind <$> urls) /\ u2 ∈ urls /\ url_kind u2 <> u1
  end.
Proof.
  revert kind. induction urls as [|u urls IH]; intros kind; simpl.
  { split; [constructor|]. destruct kind as [e|]; [right; exists e; eauto|by left]. }
  destruct (str_starts_with u "grpcs://") eqn:Hs; [left; by left|].
  destruct kind as [e|].
  - case_bool_decide as He.
    + specialize (IH (Some e)). destruct (classify_from (Some e) urls) as [k|].
      * destruct IH as [H1 [(? & _)|(e' & -> & [Hk|(? & _)] & H3)]]; [done| |done].
        injection Hk as <-. split; [by constructor|]. right. exists e. split_and!; [done|by left|].
        by constructor.
      * destruct IH as [IH|(u1 & u2 & [H1|H1] & H2 & H3)]; [left; by right|right..].
        -- exists u1, u2. split_and!; [by left|by right|done].
        -- exists u1, u2. split_and!; [right; by right|by right|done].
    + right. exists e, u. split_and!; [by left|left|done].
  - specialize (IH (Some (url_kind u))). destruct (classify_from (Some (url_kind u)) urls) as [k|].
    + destruct IH as [H1 [(? & _)|(e' & -> & [Hk|(? & _)] & H3)]]; [done| |done].
      injection Hk as <-. split; [by constructor|]. right. exists (url_kind u).
      split_and!; [done|by right|by constructor].
    + destruct IH as [IH|(u1 & u2 & H1 & H2 & H3)]; [left; by right|right].
      exists u1, u2. split_and!; [right|by right|done]. destruct H1 as [[= <-]|H1]; [left|by right].
Qed.

Lemma url_kind_mode url : connection_mode_from_url url = pool_mode (url_kind url).
Proof. unfold connection_mode_from_url, url_kind. by destruct (is_grpc_url url). Qed.

(** ** Properties *)

(** A pool of workers is homogeneous.  [classify_worker_urls] answers no
    kind exactly for no URLs, and a kind exactly when there are URLs, none is
    [grpcs://] and all are reached in that kind's connection mode; it is an
    error otherwise. *)
Theorem classify_homogeneous urls :
  (classify_worker_urls urls = Ok None <-> urls = []) /\
  (forall k, classify_worker_urls urls = Ok (Some k) <->
    urls <> [] /\ Forall (fun u => str_starts_with u "grpcs://" = false /\
                                   connection_mode_from_url u = pool_mode k) urls).
Proof.
  pose proof (classify_from_spec None urls) as H. fold (classify_worker_urls urls) in H.
  assert (forall k u, connection_mode_from_url u = pool_mode k <-> url_kind u = k) as Hmode.
  { intros k u. rewrite url_kind_mode. destruct (url_kind u), k; naive_solver. }
  destruct (classify_worker_urls urls) as [k'|e].
  - destruct H as [Hs [(_ & -> & ->)|(e & -> & [?|[_ Hne]] & He)]]; [|done|].
    { split; [done|]. intros k. naive_solver. }
    split; [naive_solver|]. intros k. split.
    + intros [= <-]. split; [done|]. apply Forall_and. split; [done|].
      eapply Forall_impl; [exact He|]. intros u. apply Hmode.
    + intros [_ Hk]. do 2 f_equal. destruct urls as [|u urls]; [done|].
      apply Forall_inv in He, Hk. destruct Hk as [_ Hk]. apply Hmode in Hk. congruence.
  - assert (urls <> []) as Hne.
    { intros ->. destruct H as [H|(? & ? & _ & H & _)]; [by apply Exists_nil in H|by apply elem_of_nil in H]. }
    split; [done|]. intros k. split; [done|]. intros [_ Hk]. rewrite Forall_forall in Hk. exfalso.
    destruct H as [(u & Hu & Hbad)%Exists_exists|(k1 & u2 & [?|H1] & H2 & H3)]; [|done|].
    + destruct (Hk u Hu). congruence.
    + apply list_elem_of_fmap in H1 as (u1 & -> & H1).
      destruct (Hk u1 H1) as [_ E1], (Hk u2 H2) as [_ E2]. apply Hmode in E1, E2. congruence.
Qed.

(** A rank suffix is read back.  From the URL made for a rank, the base URL
    and the rank are recovered: by [extract_dp_rank] when the base has no at
    sign, and by [strip_dp_suffix] and [parse_dp_rank] for any base when the
    rank fits 32 bits. *)
Theorem dp_url_roundtrip url rank :
  (has_char "@" url = false -> is_u64 rank ->
    parse_worker_url (dp_url url rank) = (url, Some rank)) /\
  (is_u32 rank -> strip_dp_suffix (dp_url url rank) = url /\ parse_dp_rank (dp_url url rank) = Some rank).
Proof.
  unfold is_u64, is_u32. split.
  - intros Hurl Hr. unfold parse_worker_url. rewrite extract_dp_url; [done|done|unfold u64_max; lia].
  - intros Hr. unfold strip_dp_suffix, parse_dp_rank, dp_url, parse_u32.
    change ("@" +:+ pretty rank) with (String "@" (pretty rank)).
    rewrite rsplit_at_char by apply pretty_no_at. simpl.
    by rewrite !parse_pretty by (unfold u32_max; lia).
Qed.

Lemma dp_url_roundtrip_witness :
  parse_worker_url (dp_url "http://a:8000" 3) = ("http://a:8000", Some 3%N) /\
  parse_dp_rank (dp_url "http://u@a:8000" 3) = Some 3%N.
Proof.
  split; [apply (dp_url_roundtrip "http://a:8000" 3); done|].
  apply (dp_url_roundtrip "http://u@a:8000" 3). done.
Defined.

(** Expanding distinct workers for data parallelism gives distinct URLs,
    and the URLs name exactly every rank of every worker. *)
Theorem dp_expansion_exact urls dp_size : NoDup urls ->
  Forall (fun u => has_char "@" u = false) urls -> is_u64 dp_size ->
  NoDup (get_dp_aware_workers urls dp_size) /\
  forall base rank, (base, Some rank) ∈ parse_worker_url <$> get_dp_aware_workers urls dp_size <->
    base ∈ urls /\ (rank < dp_size)%N.
Proof.
  intros Hnd Hat Hsize. rewrite Forall_forall in Hat.
  assert (forall u, u ∈ get_dp_aware_workers urls dp_size <->
    exists b r, u = dp_url b r /\ b ∈ urls /\ (r < dp_size)%N) as Hin.
  { intros u. unfold get_dp_aware_workers. rewrite list_elem_of_bind. split.
    - intros (b & Hu & Hb). apply list_elem_of_fmap in Hu as (r & -> & Hr).
      apply elem_of_ranks in Hr. eauto.
    - intros (b & r & -> & Hb & Hr). exists b. split; [|done]. apply list_elem_of_fmap.
      exists r. split; [done|]. by apply elem_of_ranks. }
  assert (forall b r, b ∈ urls -> (r < dp_size)%N -> parse_worker_url (dp_url b r) = (b, Some r)) as Hparse.
  { intros b r Hb Hr. unfold parse_worker_url. rewrite extract_dp_url; [done|by apply Hat|].
    unfold is_u64, u64_max in *. lia. }
  split.
  - by apply NoDup_dp_aware_workers.
  - intros base rank. rewrite list_elem_of_fmap. split.
    + intros (u & E & (b & r & -> & Hb & Hr)%Hin). rewrite Hparse in E by done. by injection E as -> ->.
    + intros [Hb Hr]. exists (dp_url base rank). rewrite Hparse, Hin by done. eauto 6.
Qed.

Lemma dp_expansion_exact_witness :
  ("http://b:8000", Some 1%N) ∈
    parse_worker_url <$> get_dp_aware_workers ["http://a:8000"; "http://b:8000"] 2.
Proof.
  refine (proj2 (proj2 (dp_expansion_exact ["http://a:8000"; "http://b:8000"] 2 _ _ _) _ _) _).
  - apply (bool_decide_eq_true_1 _). vm_refl.
  - repeat constructor.
  - done.
  - split; [set_solver|lia].
Defined.
