(* ===== verification/Worker.v ===== *)
(** * Workers ([src/core/worker.rs], [src/core/error.rs])

    A worker is a backend: its metadata, its health as its probes have found
    it, the number of requests it is serving, and its circuit breaker.  The
    trait is the class [Worker]; its default methods are definitions over the
    class; [BasicWorker] and [DPAwareWorker] are instances, and [AnyWorker] is
    the trait object.  A worker's atomics are the fields of its record, and a
    method is one step.  What a probe answers is an argument, and the metrics a
    method records are part of its result. *)

From S2P Require Import Prelude WorkerUrl CircuitBreaker.
From stdpp Require Import pretty.
From Stdlib Require Import Strings.Ascii.

Local Open Scope string_scope.

(** ** Data *)

Inductive WorkerError :=
| HealthCheckFailed (url reason : string)
| WorkerNotFound (url : string)
| InvalidConfiguration (message : string)
| NetworkError (url error : string)
| WorkerAtCapacity (url : string)
| InvalidUrl (url : string).

(** [Display for WorkerError] *)
Definition error_fmt (e : WorkerError) : string :=
  match e with
  | HealthCheckFailed url reason => "Health check failed for worker " +:+ url +:+ ": " +:+ reason
  | WorkerNotFound url => "Worker not found: " +:+ url
  | InvalidConfiguration message => "Invalid worker configuration: " +:+ message
  | NetworkError url error => "Network error for worker " +:+ url +:+ ": " +:+ error
  | WorkerAtCapacity url => "Worker at capacity: " +:+ url
  | InvalidUrl url => "Invalid URL format: " +:+ url
  end.

Definition connection_mode_fmt (m : ConnectionMode) : string :=
  match m with Http => "HTTP" | Grpc => "gRPC" end.

Inductive WorkerType := Regular | Prefill (bootstrap_port : option N) | Decode.

#[export] Instance WorkerType_eq_dec : EqDecision WorkerType.
Proof. solve_decision. Defined.

Definition worker_type_fmt (t : WorkerType) : string :=
  match t with
  | Regular => "Regular"
  | Prefill (Some port) => "Prefill(bootstrap:" +:+ pretty port +:+ ")"
  | Prefill None => "Prefill"
  | Decode => "Decode"
  end.

Record HealthConfig := {
  timeout_secs : N;
  check_interval_secs : N;
  endpoint : string;
  health_failure_threshold : N;   (* u32 *)
  health_success_threshold : N;   (* u32 *)
}.

Definition default_health_config : HealthConfig := {|
  timeout_secs := 5;
  check_interval_secs := 30;
  endpoint := "/health";
  health_failure_threshold := 3;
  health_success_threshold := 2;
|}.

Record WorkerMetadata := {
  meta_url : string;
  meta_worker_type : WorkerType;
  meta_connection_mode : ConnectionMode;
  labels : gmap string string;
  health_config : HealthConfig;
}.

(** The metrics a method records. *)
Inductive Metric :=
| WorkerHealth (url : string) (healthy : bool)
| CbOutcome (url outcome : string)
| CbTransition (url from to : string)
| CbState (url : string) (code : N)
| RunningRequests (url : string) (count : N).

(** What the probes answer: whether an HTTP request of a URL with a timeout
    returns a success status, and whether a gRPC health call succeeds. *)
Record Probes := {
  http_ok : string -> N -> bool;
  grpc_ok : string -> N -> bool;
}.

(** ** The trait *)

Class Worker (W : Type) := {
  metadata : W -> WorkerMetadata;
  is_healthy : W -> bool;
  set_healthy : bool -> W -> W * list Metric;
  check_health_async : Probes -> W -> result unit WorkerError * W * list Metric;
  load : W -> N;
  increment_load : W -> W;
  decrement_load : W -> W;
  reset_load : W -> W;
  processed_requests : W -> N;
  increment_processed : W -> W;
  circuit_breaker : W -> CircuitBreaker;
  set_circuit_breaker : CircuitBreaker -> W -> W;
  is_dp_aware : W -> bool;
  base_url : W -> string;
  dp_rank : W -> option N;
  dp_size : W -> option N;
}.

Section trait.
Context `{Worker W}.

Definition url (w : W) : string := meta_url (metadata w).
Definition worker_type (w : W) : WorkerType := meta_worker_type (metadata w).
Definition connection_mode (w : W) : ConnectionMode := meta_connection_mode (metadata w).

(** Asking the breaker may move it. *)
Definition is_available (now : N) (w : W) : bool * W :=
  if is_healthy w then
    let '(ok, cb) := can_execute now (circuit_breaker w) in (ok, set_circuit_breaker cb w)
  else (false, w).

Definition state_name (s : CircuitState) : string :=
  match s with Closed => "closed" | Open => "open" | HalfOpen => "half_open" end.

Definition state_code (s : CircuitState) : N :=
  match s with Closed => 0 | Open => 1 | HalfOpen => 2 end.

(** The breaker is asked for its state three times; every call reads the clock. *)
Definition record_outcome (now1 now2 now3 now4 : N) (success : bool) (w : W) : W * list Metric :=
  let outcome := CbOutcome (url w) (if success then "success" else "failure") in
  let '(before, cb) := CircuitBreaker.state now1 (circuit_breaker w) in
  let cb := CircuitBreaker.record_outcome now2 success cb in
  let '(after, cb) := CircuitBreaker.state now3 cb in
  let transition := if bool_decide (before = after) then []
    else [CbTransition (url w) (state_name before) (state_name after)] in
  let '(last, cb) := CircuitBreaker.state now4 cb in
  (set_circuit_breaker cb w, outcome :: transition ++ [CbState (url w) (state_code last)]).

Definition endpoint_url (route : string) (w : W) : string := base_url w +:+ route.

Definition model_id (w : W) : string := default "unknown" (labels (metadata w) !! "model_id").

Definition priority (w : W) : N :=
  default 50%N (labels (metadata w) !! "priority" ≫= parse_u32).

End trait.

(** ** BasicWorker *)

Record BasicWorker := MkBasic {
  bw_metadata : WorkerMetadata;
  load_counter : N;            (* AtomicUsize *)
  processed_counter : N;       (* AtomicUsize *)
  healthy : bool;
  consecutive_failures : N;    (* AtomicUsize *)
  consecutive_successes : N;   (* AtomicUsize *)
  bw_circuit_breaker : CircuitBreaker;
}.

(** [now] is the instant at which the breaker is made. *)
Definition with_connection_mode (now : N) (url : string) (wt : WorkerType) (mode : ConnectionMode)
  : BasicWorker := {|
  bw_metadata := {| meta_url := url; meta_worker_type := wt; meta_connection_mode := mode;
    labels := ∅; health_config := default_health_config |};
  load_counter := 0;
  processed_counter := 0;
  healthy := true;
  consecutive_failures := 0;
  consecutive_successes := 0;
  bw_circuit_breaker := CircuitBreaker.new now;
|}.

Definition new_basic (now : N) (url : string) (wt : WorkerType) : BasicWorker :=
  with_connection_mode now url wt (connection_mode_from_url url).

Definition with_metadata (m : WorkerMetadata) (w : BasicWorker) : BasicWorker :=
  MkBasic m (load_counter w) (processed_counter w) (healthy w) (consecutive_failures w)
    (consecutive_successes w) (bw_circuit_breaker w).

Definition with_labels (l : gmap string string) (w : BasicWorker) : BasicWorker :=
  let m := bw_metadata w in
  with_metadata {| meta_url := meta_url m; meta_worker_type := meta_worker_type m;
    meta_connection_mode := meta_connection_mode m; labels := l; health_config := health_config m |} w.

Definition with_health_config (cfg : HealthConfig) (w : BasicWorker) : BasicWorker :=
  let m := bw_metadata w in
  with_metadata {| meta_url := meta_url m; meta_worker_type := meta_worker_type m;
    meta_connection_mode := meta_connection_mode m; labels := labels m; health_config := cfg |} w.

Definition with_breaker (cb : CircuitBreaker) (w : BasicWorker) : BasicWorker :=
  MkBasic (bw_metadata w) (load_counter w) (processed_counter w) (healthy w) (consecutive_failures w)
    (consecutive_successes w) cb.

Definition with_circuit_breaker_config (now : N) (cfg : CircuitBreakerConfig) (w : BasicWorker)
  : BasicWorker := with_breaker (with_config cfg now) w.

(** The health and its two counters. *)
Definition with_health (h : bool) (failures successes : N) (w : BasicWorker) : BasicWorker :=
  MkBasic (bw_metadata w) (load_counter w) (processed_counter w) h failures successes
    (bw_circuit_breaker w).

Definition with_load (load processed : N) (w : BasicWorker) : BasicWorker :=
  MkBasic (bw_metadata w) load processed (healthy w) (consecutive_failures w)
    (consecutive_successes w) (bw_circuit_breaker w).

Definition normalised_url (w : BasicWorker) : result string WorkerError :=
  let u := meta_url (bw_metadata w) in
  if has_char "@"%char u then
    match str_split "@"%char u with
    | [base; rank] => match parse_usize rank with Some _ => Ok base | None => Err (InvalidUrl u) end
    | _ => Err (InvalidUrl u)
    end
  else Ok u.

Definition basic_set_healthy (h : bool) (w : BasicWorker) : BasicWorker * list Metric :=
  (with_health h (consecutive_failures w) (consecutive_successes w) w,
   [WorkerHealth (meta_url (bw_metadata w)) h]).

(** The answer of the probe; an unusable URL is an error before any probe. *)
Definition probe (p : Probes) (w : BasicWorker) : result bool WorkerError :=
  let hc := health_config (bw_metadata w) in
  match meta_connection_mode (bw_metadata w) with
  | Http =>
      match normalised_url w with
      | Err e => Err e
      | Ok u => Ok (http_ok p (u +:+ endpoint hc) (timeout_secs hc))
      end
  | Grpc => Ok (grpc_ok p (meta_url (bw_metadata w)) (timeout_secs hc))
  end.

(** What an answer does to the counters and the health. *)
Definition apply_health (health_result : bool) (w : BasicWorker)
  : result unit WorkerError * BasicWorker * list Metric :=
  let hc := health_config (bw_metadata w) in
  if health_result then
    let successes := u64_wrapping_add (consecutive_successes w) 1 in
    let w := with_health (healthy w) 0 successes w in
    if negb (healthy w) && (health_success_threshold hc <=? successes)%N then
      let '(w, m) := basic_set_healthy true w in
      (Ok tt, with_health (healthy w) (consecutive_failures w) 0 w, m)
    else (Ok tt, w, [])
  else
    let failures := u64_wrapping_add (consecutive_failures w) 1 in
    let w := with_health (healthy w) failures 0 w in
    let error := HealthCheckFailed (meta_url (bw_metadata w))
      ("Health check failed (consecutive failures: " +:+ pretty failures +:+ ")") in
    if healthy w && (health_failure_threshold hc <=? failures)%N then
      let '(w, m) := basic_set_healthy false w in
      (Err error, with_health (healthy w) 0 (consecutive_successes w) w, m)
    else (Err error, w, []).

Definition basic_check_health (p : Probes) (w : BasicWorker)
  : result unit WorkerError * BasicWorker * list Metric :=
  match probe p w with
  | Err e => (Err e, w, [])
  | Ok health_result => apply_health health_result w
  end.

(** [fetch_update] with [checked_sub]: a count of zero stays. *)
Definition checked_decrement (n : N) : N := if (n =? 0)%N then n else (n - 1)%N.

Definition basic_worker : Worker BasicWorker := {|
  metadata := bw_metadata;
  is_healthy := healthy;
  set_healthy := basic_set_healthy;
  check_health_async := basic_check_health;
  load := load_counter;
  increment_load w := with_load (u64_wrapping_add (load_counter w) 1) (processed_counter w) w;
  decrement_load w := with_load (checked_decrement (load_counter w)) (processed_counter w) w;
  reset_load w := with_load 0 (processed_counter w) w;
  processed_requests := processed_counter;
  increment_processed w := with_load (load_counter w) (u64_wrapping_add (processed_counter w) 1) w;
  circuit_breaker := bw_circuit_breaker;
  set_circuit_breaker := with_breaker;
  is_dp_aware _ := false;
  base_url w := meta_url (bw_metadata w);
  dp_rank _ := None;
  dp_size _ := None;
|}.

#[export] Existing Instance basic_worker.

(** ** DPAwareWorker *)

Record DPAwareWorker := MkDP {
  base_worker : BasicWorker;
  dpw_rank : N;
  dpw_size : N;
  dpw_base_url : string;
}.

Definition new_dp (now : N) (base_url : string) (dp_rank dp_size : N) (wt : WorkerType)
  : DPAwareWorker :=
  MkDP (new_basic now (dp_url base_url dp_rank) wt) dp_rank dp_size base_url.

Definition with_base (b : BasicWorker) (w : DPAwareWorker) : DPAwareWorker :=
  MkDP b (dpw_rank w) (dpw_size w) (dpw_base_url w).

Definition dp_with_circuit_breaker_config (now : N) (cfg : CircuitBreakerConfig) (w : DPAwareWorker)
  : DPAwareWorker := with_base (with_circuit_breaker_config now cfg (base_worker w)) w.

Definition dp_with_health_config (cfg : HealthConfig) (w : DPAwareWorker) : DPAwareWorker :=
  with_base (with_health_config cfg (base_worker w)) w.

Definition dp_aware_worker : Worker DPAwareWorker := {|
  metadata w := metadata (base_worker w);
  is_healthy w := is_healthy (base_worker w);
  set_healthy h w := let '(b, m) := set_healthy h (base_worker w) in (with_base b w, m);
  check_health_async p w :=
    let '(r, b, m) := check_health_async p (base_worker w) in (r, with_base b w, m);
  load w := load (base_worker w);
  increment_load w := with_base (increment_load (base_worker w)) w;
  decrement_load w := with_base (decrement_load (base_worker w)) w;
  reset_load w := with_base (reset_load (base_worker w)) w;
  processed_requests w := processed_requests (base_worker w);
  increment_processed w := with_base (increment_processed (base_worker w)) w;
  circuit_breaker w := circuit_breaker (base_worker w);
  set_circuit_breaker cb w := with_base (set_circuit_breaker cb (base_worker w)) w;
  is_dp_aware _ := true;
  base_url := dpw_base_url;
  dp_rank w := Some (dpw_rank w);
  dp_size w := Some (dpw_size w);
|}.

#[export] Existing Instance dp_aware_worker.

(** ** Trait objects *)

Inductive AnyWorker := Basic (w : BasicWorker) | DPAware (w : DPAwareWorker).

Definition any_worker : Worker AnyWorker := {|
  metadata w := match w with Basic b => metadata b | DPAware d => metadata d end;
  is_healthy w := match w with Basic b => is_healthy b | DPAware d => is_healthy d end;
  set_healthy h w := match w with
    | Basic b => let '(b, m) := set_healthy h b in (Basic b, m)
    | DPAware d => let '(d, m) := set_healthy h d in (DPAware d, m) end;
  check_health_async p w := match w with
    | Basic b => let '(r, b, m) := check_health_async p b in (r, Basic b, m)
    | DPAware d => let '(r, d, m) := check_health_async p d in (r, DPAware d, m) end;
  load w := match w with Basic b => load b | DPAware d => load d end;
  increment_load w := match w with
    | Basic b => Basic (increment_load b) | DPAware d => DPAware (increment_load d) end;
  decrement_load w := match w with
    | Basic b => Basic (decrement_load b) | DPAware d => DPAware (decrement_load d) end;
  reset_load w := match w with
    | Basic b => Basic (reset_load b) | DPAware d => DPAware (reset_load d) end;
  processed_requests w := match w with
    | Basic b => processed_requests b | DPAware d => processed_requests d end;
  increment_processed w := match w with
    | Basic b => Basic (increment_processed b) | DPAware d => DPAware (increment_processed d) end;
  circuit_breaker w := match w with Basic b => circuit_breaker b | DPAware d => circuit_breaker d end;
  set_circuit_breaker cb w := match w with
    | Basic b => Basic (set_circuit_breaker cb b) | DPAware d => DPAware (set_circuit_breaker cb d) end;
  is_dp_aware w := match w with Basic b => is_dp_aware b | DPAware d => is_dp_aware d end;
  base_url w := match w with Basic b => base_url b | DPAware d => base_url d end;
  dp_rank w := match w with Basic b => dp_rank b | DPAware d => dp_rank d end;
  dp_size w := match w with Basic b => dp_size b | DPAware d => dp_size d end;
|}.

#[export] Existing Instance any_worker.

(** ** WorkerFactory *)

Definition create_regular (now : N) (url : string) : AnyWorker := Basic (new_basic now url Regular).

Definition create_regular_with_config (now : N) (url : string) (cfg : CircuitBreakerConfig)
  : AnyWorker := Basic (with_circuit_breaker_config now cfg (new_basic now url Regular)).

Definition create_prefill (now : N) (url : string) (bootstrap_port : option N) : AnyWorker :=
  Basic (new_basic now url (Prefill bootstrap_port)).

Definition create_prefill_with_config (now : N) (url : string) (bootstrap_port : option N)
    (cfg : CircuitBreakerConfig) : AnyWorker :=
  Basic (with_circuit_breaker_config now cfg (new_basic now url (Prefill bootstrap_port))).

Definition create_decode (now : N) (url : string) : AnyWorker := Basic (new_basic now url Decode).

Definition create_decode_with_config (now : N) (url : string) (cfg : CircuitBreakerConfig)
  : AnyWorker := Basic (with_circuit_breaker_config now cfg (new_basic now url Decode)).

Definition create_from_urls (now : N) (regular_urls : list string)
    (prefill_urls : list (string * option N)) (decode_urls : list string)
  : list AnyWorker * list AnyWorker * list AnyWorker :=
  (create_regular now <$> regular_urls,
   (fun '(u, port) => create_prefill now u port) <$> prefill_urls,
   create_decode now <$> decode_urls).

Definition create_regular_with_labels (now : N) (url : string) (l : gmap string string)
    (cfg : CircuitBreakerConfig) : AnyWorker :=
  Basic (with_labels l (with_circuit_breaker_config now cfg (new_basic now url Regular))).

Definition create_prefill_with_labels (now : N) (url : string) (bootstrap_port : option N)
    (l : gmap string string) (cfg : CircuitBreakerConfig) : AnyWorker :=
  Basic (with_labels l (with_circuit_breaker_config now cfg (new_basic now url (Prefill bootstrap_port)))).

Definition create_decode_with_labels (now : N) (url : string) (l : gmap string string)
    (cfg : CircuitBreakerConfig) : AnyWorker :=
  Basic (with_labels l (with_circuit_breaker_config now cfg (new_basic now url Decode))).

Definition create_dp_aware (now : N) (base_url : string) (dp_rank dp_size : N) (wt : WorkerType)
  : AnyWorker := DPAware (new_dp now base_url dp_rank dp_size wt).

Definition create_workers (now : N) (urls : list string) (data_parallel_size : N) : list AnyWorker :=
  if (1 <? data_parallel_size)%N then
    urls ≫= fun u =>
      (fun rank => create_dp_aware now u rank data_parallel_size Regular) <$> ranks data_parallel_size
  else create_regular now <$> urls.

(** ** Collections *)

Definition healthy_workers (ws : list AnyWorker) : list AnyWorker :=
  filter (fun w => is_healthy w = true) ws.

(** A sum of [usize]. *)
Definition total_load (ws : list AnyWorker) : N := foldl (fun acc w => u64_wrapping_add acc (load w)) 0%N ws.

Fixpoint find_worker (u : string) (ws : list AnyWorker) : option AnyWorker :=
  match ws with
  | [] => None
  | w :: ws => if bool_decide (url w = u) then Some w else find_worker u ws
  end.

Definition urls_to_workers (now : N) (urls : list string) : list AnyWorker := create_regular now <$> urls.

Definition workers_to_urls (ws : list AnyWorker) : list string := url <$> ws.

(** ** Load guards *)

Record WorkerLoadGuard := { active : bool }.

Section guards.
Context `{Worker W}.

Definition running_requests (w : W) : list Metric := [RunningRequests (url w) (load w)].

Definition guard_new (w : W) : WorkerLoadGuard * W * list Metric :=
  let w := increment_load w in ({| active := true |}, w, running_requests w).

Definition guard_drop (g : WorkerLoadGuard) (w : W) : W * list Metric :=
  if active g then let w := decrement_load w in (w, running_requests w) else (w, []).

(** [release] consumes the guard, so it is dropped at its end, inactive. *)
Definition guard_release (g : WorkerLoadGuard) (w : W) : W * list Metric :=
  let w := decrement_load w in
  let '(w', m) := guard_drop {| active := false |} w in
  (w', (running_requests w ++ m)%list).

(** What happens to one worker: guards are made, released and dropped by the
    tasks that own them, and health checks, outcomes and counts interleave. *)
Inductive guard_op :=
| GuardNew (id : N)
| GuardRelease (id : N)
| GuardDrop (id : N)
| HealthCheck (p : Probes)
| RequestOutcome (now : N) (success : bool)
| Availability (now : N)
| Processed.

Definition guard_step (o : guard_op) (s : W * gmap N WorkerLoadGuard) : W * gmap N WorkerLoadGuard :=
  let '(w, guards) := s in
  match o with
  | GuardNew id =>
      match guards !! id with
      | Some _ => s
      | None => let '(g, w, _) := guard_new w in (w, <[id := g]> guards)
      end
  | GuardRelease id =>
      match guards !! id with
      | Some g => ((guard_release g w).1, delete id guards)
      | None => s
      end
  | GuardDrop id =>
      match guards !! id with
      | Some g => ((guard_drop g w).1, delete id guards)
      | None => s
      end
  | HealthCheck p => let '(_, w, _) := check_health_async p w in (w, guards)
  | RequestOutcome now success => ((record_outcome now now now now success w).1, guards)
  | Availability now => ((is_available now w).2, guards)
  | Processed => (increment_processed w, guards)
  end.

Definition guard_run (ops : list guard_op) (s : W * gmap N WorkerLoadGuard)
  : W * gmap N WorkerLoadGuard := foldl (fun s o => guard_step o s) s ops.

End guards.

(** ** The health checker *)

(** Shared workers, by the identity of the object. *)
Abbreviation heap := (gmap N AnyWorker).

(** One check of one shared worker. *)
Definition check_at (p : Probes) (h : heap) (a : N) : heap :=
  match h !! a with
  | Some w => let '(_, w, _) := check_health_async p w in <[a := w]> h
  | None => h
  end.

(** One round of [start_health_checker]. *)
Definition health_round (workers : list N) (p : Probes) (h : heap) : heap :=
  foldl (check_at p) h workers.

(** The loop: every tick sees whether shutdown was requested. *)
Fixpoint health_loop (workers : list N) (ticks : list (bool * Probes)) (h : heap) : heap :=
  match ticks with
  | [] => h
  | (true, _) :: _ => h
  | (false, p) :: ticks => health_loop workers ticks (health_round workers p h)
  end.

(** ** Specification *)

(** What a worker promises to those who count its load. *)
Class WorkerLaws (W : Type) `{Worker W} := {
  load_increment : forall w, load (increment_load w) = u64_wrapping_add (load w) 1;
  load_decrement : forall w, load (decrement_load w) = (load w - 1)%N;
  load_check : forall p w, load (check_health_async p w).1.2 = load w;
  load_breaker : forall cb w, load (set_circuit_breaker cb w) = load w;
  load_processed : forall w, load (increment_processed w) = load w;
}.

(** The load is the number of guards, all of them active. *)
Definition guards_ok `{Worker W} (s : W * gmap N WorkerLoadGuard) : Prop :=
  load s.1 = N.of_nat (size s.2) /\ map_Forall (fun _ g => active g = true) s.2.

(** Health as documented: consecutive failures while healthy, consecutive
    successes while unhealthy. *)
Inductive Health := Up (failures : N) | Down (successes : N).

Definition spec_check (hc : HealthConfig) (h : Health) (ok : bool) : Health :=
  match h, ok with
  | Up _, true => Up 0
  | Up n, false => if (health_failure_threshold hc <=? n + 1)%N then Down 0 else Up (n + 1)
  | Down n, true => if (health_success_threshold hc <=? n + 1)%N then Up 0 else Down (n + 1)
  | Down _, false => Down 0
  end.

Definition spec_healthy (h : Health) : bool := match h with Up _ => true | Down _ => false end.

(** The basic worker inside a worker. *)
Definition basic_of (w : AnyWorker) : BasicWorker :=
  match w with Basic b => b | DPAware d => base_worker d end.

Definition health_of (w : AnyWorker) : Health :=
  let b := basic_of w in
  if healthy b then Up (consecutive_failures b) else Down (consecutive_successes b).

(** A count below its threshold: the check that reaches it flips the health. *)
Record health_wf (w : AnyWorker) : Prop := {
  wf_failure_u32 : is_u32 (health_failure_threshold (health_config (metadata w)));
  wf_success_u32 : is_u32 (health_success_threshold (health_config (metadata w)));
  wf_count : match health_of w with
    | Up n => (n < N.max 1 (health_failure_threshold (health_config (metadata w))))%N
    | Down n => (n < N.max 1 (health_success_threshold (health_config (metadata w))))%N
    end;
}.

(** A sequence of checks: the results and the worker. *)
Fixpoint checks (ps : list Probes) (w : AnyWorker) : list (result unit WorkerError) * AnyWorker :=
  match ps with
  | [] => ([], w)
  | p :: ps =>
      let '(r, w, _) := check_health_async p w in
      let '(rs, w) := checks ps w in (r :: rs, w)
  end.

(** What a probe of the worker answers, when its URL can be asked at all. *)
Definition answer (w : AnyWorker) (p : Probes) : result bool WorkerError := probe p (basic_of w).

Definition is_ok {A E} (r : result A E) : bool := match r with Ok _ => true | Err _ => false end.

(** Probes that all answer the same. *)
Definition all_ok (b : bool) : Probes := {| http_ok := fun _ _ => b; grpc_ok := fun _ _ => b |}.

(** ** Lemmas *)

#[export] Instance basic_laws : WorkerLaws BasicWorker.
Proof.
  constructor; try done.
  - intros w. simpl. unfold checked_decrement. destruct (N.eqb_spec (load_counter w) 0); [simpl; lia|done].
  - intros p w. simpl. unfold basic_check_health, apply_health. destruct (probe p w) as [[]|]; [| |done];
      simpl; case_match; done.
Qed.

#[export] Instance dp_laws : WorkerLaws DPAwareWorker.
Proof.
  constructor; try done.
  - intros w. apply (load_decrement (base_worker w)).
  - intros p w. pose proof (load_check p (base_worker w)) as E. simpl in *.
    destruct (basic_check_health p (base_worker w)) as [[r b] m]. done.
Qed.

#[export] Instance any_laws : WorkerLaws AnyWorker.
Proof.
  constructor.
  - intros [b|d]; [apply (load_increment b)|apply (load_increment d)].
  - intros [b|d]; [apply (load_decrement b)|apply (load_decrement d)].
  - intros p [b|d].
    + pose proof (load_check p b) as E. simpl in *. by destruct (basic_check_health p b) as [[? ?] ?].
    + pose proof (load_check p d) as E. simpl in *. by destruct (basic_check_health p _) as [[? ?] ?].
  - by intros cb [b|d].
  - by intros [b|d].
Qed.

Section laws.
Context `{WorkerLaws W}.

Lemma load_outcome n1 n2 n3 n4 b w : load (record_outcome n1 n2 n3 n4 b w).1 = load w.
Proof. apply load_breaker. Qed.

Lemma load_available now w : load (is_available now w).2 = load w.
Proof. unfold is_available. destruct (is_healthy w); [apply load_breaker|done]. Qed.

Lemma guards_ok_delete w guards id g w' : guards_ok (w, guards) -> guards !! id = Some g ->
  load w' = (load w - 1)%N -> guards_ok (w', delete id guards).
Proof.
  intros [Hl Ha] Hid Hw. split; simpl in *.
  - rewrite map_size_delete, Hid, Hw, Hl. lia.
  - by apply map_Forall_delete.
Qed.

Lemma guard_step_ok o s : guards_ok s -> (N.of_nat (size s.2) + 1 < u64_mod)%N ->
  guards_ok (guard_step o s) /\ size (guard_step o s).2 <= S (size s.2).
Proof.
  destruct s as [w guards]. intros Hok Hsize. pose proof Hok as [Hl Ha]. simpl in *.
  destruct o as [id|id|id|p|now b|now|]; simpl.
  - destruct (guards !! id) as [g|] eqn:E; [split; [done|simpl; lia]|]. simpl.
    rewrite map_size_insert, E. split; [|lia]. split; simpl.
    + rewrite load_increment, map_size_insert, E, Hl. unfold u64_wrapping_add. rewrite N.mod_small; lia.
    + by apply map_Forall_insert.
  - destruct (guards !! id) as [g|] eqn:E; [|split; [done|simpl; lia]]. simpl.
    rewrite map_size_delete, E. split; [|lia]. eapply guards_ok_delete; [done..|apply load_decrement].
  - destruct (guards !! id) as [g|] eqn:E; [|split; [done|simpl; lia]]. simpl.
    rewrite map_size_delete, E. split; [|lia]. unfold guard_drop. rewrite (Ha _ _ E).
    eapply guards_ok_delete; [done..|apply load_decrement].
  - pose proof (load_check p w) as Hc. destruct (check_health_async p w) as [[r w'] m].
    split; [|simpl; lia]. split; [|done]. simpl in *. by rewrite Hc.
  - split; [|lia]. split; [|done]. exact (eq_trans (load_outcome now now now now b w) Hl).
  - split; [|lia]. split; [|done]. exact (eq_trans (load_available now w) Hl).
  - split; [|lia]. split; [|done]. exact (eq_trans (load_processed w) Hl).
Qed.

Lemma guard_run_ok ops s : guards_ok s -> (N.of_nat (size s.2) + N.of_nat (length ops) < u64_mod)%N ->
  guards_ok (guard_run ops s).
Proof.
  revert s. induction ops as [|o ops IH]; intros s Hok Hsize; [done|]. simpl in *.
  destruct (guard_step_ok o s Hok) as [Hok' Hs']; [lia|]. apply IH; [done|lia].
Qed.
End laws.

(** A worker behaves as the basic worker inside it. *)
Lemma check_basic_of p w : let '(r, w', m) := check_health_async p w in
  basic_check_health p (basic_of w) = (r, basic_of w', m) /\ metadata w' = bw_metadata (basic_of w').
Proof. destruct w as [b|d]; simpl; by destruct (basic_check_health p _) as [[? ?] ?]. Qed.

Lemma metadata_basic_of w : metadata w = bw_metadata (basic_of w).
Proof. by destruct w. Qed.

Lemma apply_health_metadata b w : bw_metadata (apply_health b w).1.2 = bw_metadata w.
Proof. unfold apply_health. destruct b; simpl; by case_match. Qed.

(** One answered check is one step of the documented machine. *)
Lemma apply_health_spec ok w w' r m : health_wf (Basic w) -> apply_health ok w = (r, w', m) ->
  is_ok r = ok /\ health_wf (Basic w') /\
  health_of (Basic w') = spec_check (health_config (bw_metadata w)) (health_of (Basic w)) ok.
Proof.
  intros [Hf Hs Hc] E.
  assert (forall x, (x < u32_mod)%N -> (x + 1) mod u64_mod = x + 1)%N as Hsmall.
  { intros x Hx. apply N.mod_small. unfold u32_mod, u64_mod in *. lia. }
  unfold is_u32 in *. simpl in Hf, Hs, Hc. unfold health_of in Hc. simpl in Hc.
  unfold apply_health, u64_wrapping_add in E. unfold health_of. simpl.
  destruct (healthy w) eqn:Hh; destruct ok; simpl in *;
    rewrite ?Hh in E; simpl in E;
    try (rewrite Hsmall in E by (unfold u32_mod in *; lia));
    repeat case_match; simplify_eq; simpl in *; rewrite ?Hh; (split; [done|]); (split; [|done]);
    (constructor; simpl; [done..|]); unfold health_of; simpl; rewrite ?Hh;
    repeat match goal with H : (_ <=? _)%N = false |- _ => apply N.leb_gt in H end; lia.
Qed.

Lemma answer_metadata w w' p : metadata w' = metadata w -> answer w' p = answer w p.
Proof.
  rewrite !metadata_basic_of. unfold answer, probe, normalised_url. by intros ->.
Qed.

Lemma health_wf_basic w : health_wf w <-> health_wf (Basic (basic_of w)).
Proof. destruct w; split; intros []; by constructor. Qed.

(** A check that is answered. *)
Lemma check_spec p w ok : health_wf w -> answer w p = Ok ok ->
  let '(r, w', m) := check_health_async p w in
  is_ok r = ok /\ health_wf w' /\ metadata w' = metadata w /\
  health_of w' = spec_check (health_config (metadata w)) (health_of w) ok.
Proof.
  intros Hwf Ha. pose proof (check_basic_of p w) as Hb.
  destruct (check_health_async p w) as [[r w'] m]. destruct Hb as [Hb Hm].
  unfold basic_check_health in Hb. unfold answer in Ha. rewrite Ha in Hb.
  pose proof (apply_health_metadata ok (basic_of w)) as Hm'. rewrite Hb in Hm'. simpl in Hm'.
  apply health_wf_basic in Hwf. destruct (apply_health_spec _ _ _ _ _ Hwf Hb) as (H1 & H2 & H3).
  split_and!; [done|by apply health_wf_basic|by rewrite Hm, Hm', metadata_basic_of|].
  rewrite metadata_basic_of. exact H3.
Qed.

Lemma checks_spec ps w answers : health_wf w -> Forall2 (fun p b => answer w p = Ok b) ps answers ->
  let '(rs, w') := checks ps w in
  is_ok <$> rs = answers /\ health_wf w' /\
  health_of w' = foldl (spec_check (health_config (metadata w))) (health_of w) answers.
Proof.
  intros Hwf Hps. revert w Hwf Hps.
  induction ps as [|p ps IH] in answers |- *; intros w Hwf Hps;
    inversion Hps as [|? b ? bs Hb Hbs]; subst; cbn [checks]; [done|].
  pose proof (check_spec p w b Hwf Hb) as Hc. destruct (check_health_async p w) as [[r w1] m].
  destruct Hc as (Hr & Hwf1 & Hm1 & Hh1).
  assert (Forall2 (fun p b => answer w1 p = Ok b) ps bs) as Hbs1.
  { eapply Forall2_impl; [exact Hbs|]. intros p' b' <-. by apply answer_metadata. }
  specialize (IH bs w1 Hwf1 Hbs1). destruct (checks ps w1) as [rs w2].
  destruct IH as (H1 & H2 & H3). rewrite fmap_cons, H1, Hr, H3, Hh1, Hm1. done.
Qed.

Lemma is_healthy_spec w : is_healthy w = spec_healthy (health_of w).
Proof. destruct w as [b|d]; unfold health_of; simpl; by destruct (healthy _). Qed.

Lemma created_dp now u rank size wt : has_char "@"%char u = false -> is_u64 rank ->
  normalised_url (basic_of (create_dp_aware now u rank size wt)) = Ok u /\
  parse_worker_url (url (create_dp_aware now u rank size wt)) = (u, Some rank).
Proof.
  intros Hu Hr. unfold is_u64 in Hr.
  assert (has_char "@"%char (dp_url u rank) = true) as Hat.
  { apply bool_decide_eq_true. unfold dp_url. clear. induction u as [|a u IH]; simpl.
    - set_solver.
    - set_solver. }
  assert (extract_dp_rank (dp_url u rank) = Ok (u, rank)) as He
    by (apply extract_dp_url; [done|unfold u64_max; lia]).
  split.
  - unfold normalised_url. simpl. rewrite Hat. unfold extract_dp_rank in He.
    repeat case_match; try done. by injection He as -> ->.
  - unfold parse_worker_url, url. simpl. by rewrite He.
Qed.

(** ** Properties *)

(** C22: health follows the thresholds.  For any worker and any sequence of
    answered probes, the worker's health is that of the documented machine:
    a healthy worker becomes unhealthy exactly at the configured number of
    failures in a row, an unhealthy one healthy exactly at the configured number
    of successes in a row; and every check returns [Ok] exactly when its probe
    succeeded. *)
Theorem health_refines ps w answers : health_wf w ->
  Forall2 (fun p b => answer w p = Ok b) ps answers ->
  is_ok <$> (checks ps w).1 = answers /\
  is_healthy (checks ps w).2 =
    spec_healthy (foldl (spec_check (health_config (metadata w))) (health_of w) answers) /\
  health_wf (checks ps w).2.
Proof.
  intros Hwf Hps. pose proof (checks_spec ps w answers Hwf Hps) as H.
  destruct (checks ps w) as [rs w']. destruct H as (H1 & H2 & H3).
  split_and!; [done| |done]. cbn [fst snd]. by rewrite is_healthy_spec, H3.
Qed.

Lemma health_refines_witness :
  let w := create_dp_aware 0 "http://a:8000" 1 2 Regular in
  is_healthy (checks (all_ok <$> [false; false; true; false; false; false; true]) w).2 = false.
Proof.
  intros w.
  destruct (health_refines (all_ok <$> [false; false; true; false; false; false; true]) w
    [false; false; true; false; false; false; true]) as (_ & H & _).
  - constructor; done.
  - repeat constructor.
  - rewrite H. reflexivity.
Defined.

(** C20: the load is the number of requests in flight.  However guards are made,
    released and dropped, and whatever health checks and outcomes come between,
    a worker's load is the number of live guards. *)
Theorem load_counts_guards `{WorkerLaws W} ops (w : W) : load w = 0%N ->
  (N.of_nat (length ops) < u64_mod)%N ->
  load (guard_run ops (w, ∅)).1 = N.of_nat (size (guard_run ops (w, ∅)).2).
Proof.
  intros Hw Hlen. apply (guard_run_ok ops (w, ∅)).
  - split; [exact Hw|apply map_Forall_empty].
  - simpl. rewrite map_size_empty. done.
Qed.

Lemma load_counts_guards_witness :
  let ops := [GuardNew 1; GuardNew 2; HealthCheck (all_ok false); GuardRelease 1; GuardDrop 1] in
  load (guard_run ops (create_regular 0 "http://a:8000", ∅)).1 =
    N.of_nat (size (guard_run ops (create_regular 0 "http://a:8000", ∅)).2).
Proof. apply load_counts_guards; done. Defined.

(** Every created worker can be probed and addressed.  For worker URLs
    without an at sign, [create_workers] makes workers with distinct URLs; each
    one's base URL is a configured one, its own URL parses back to that and its
    rank, and its health is probed at the base URL. *)
Theorem created_workers_addressed now urls dp : NoDup urls ->
  Forall (fun u => has_char "@"%char u = false) urls -> is_u64 dp ->
  NoDup (workers_to_urls (create_workers now urls dp)) /\
  Forall (fun w => base_url w ∈ urls /\ parse_worker_url (url w) = (base_url w, dp_rank w) /\
    normalised_url (basic_of w) = Ok (base_url w)) (create_workers now urls dp).
Proof.
  intros Hnd Hat Hdp. unfold create_workers, workers_to_urls. destruct (1 <? dp)%N.
  - split.
    + assert (url <$> (urls ≫= fun u => (fun r => create_dp_aware now u r dp Regular) <$> ranks dp) =
        get_dp_aware_workers urls dp) as ->.
      { unfold get_dp_aware_workers. clear. induction urls as [|u urls IH]; [done|].
        rewrite !bind_cons, fmap_app, IH. f_equal. rewrite <- list_fmap_compose. done. }
      by apply NoDup_dp_aware_workers.
    + rewrite Forall_forall in Hat. apply Forall_forall. intros w (u & Hw & Hu)%list_elem_of_bind.
      apply list_elem_of_fmap in Hw as (r & -> & Hr%elem_of_ranks).
      destruct (created_dp now u r dp Regular) as [H1 H2]; [by apply Hat|unfold is_u64 in *; lia|].
      split_and!; [done|exact H2|exact H1].
  - split; [|apply Forall_fmap, Forall_forall; rewrite Forall_forall in Hat].
    + assert (url <$> (create_regular now <$> urls) = urls) as ->; [|done].
      rewrite <- list_fmap_compose. clear. induction urls as [|u urls IH]; [done|].
      rewrite fmap_cons, IH. done.
    + intros u Hu. specialize (Hat u Hu). split_and!; [done| |].
      * unfold parse_worker_url, extract_dp_rank, url. simpl. by rewrite split_no_char.
      * unfold normalised_url. simpl. by rewrite Hat.
Qed.

Lemma created_workers_addressed_witness :
  NoDup (workers_to_urls (create_workers 0 ["http://a:1"; "http://b:1"] 2)).
Proof.
  apply (created_workers_addressed 0 ["http://a:1"; "http://b:1"] 2).
  - apply (bool_decide_eq_true_1 _). vm_refl.
  - repeat constructor.
  - done.
Defined.

(** A URL with credentials is never probed.  When an HTTP worker's URL has
    an at sign that is not followed by a rank, every check fails before the
    probe, so no number of checks changes the worker: it stays as healthy as it
    was made. *)
Theorem credentials_never_probed w e ps : connection_mode w = Http ->
  normalised_url (basic_of w) = Err e ->
  checks ps w = (replicate (length ps) (Err e), w).
Proof.
  intros Hm He. induction ps as [|p ps IH]; simpl; [done|].
  assert (basic_check_health p (basic_of w) = (Err e, basic_of w, [])) as Hc.
  { unfold basic_check_health, probe. unfold connection_mode in Hm. rewrite metadata_basic_of in Hm.
    by rewrite Hm, He. }
  destruct w as [b|d]; simpl in Hc; rewrite Hc; simpl; [by rewrite IH|].
  replace (with_base (base_worker d) d) with d by (by destruct d). by rewrite IH.
Qed.

Lemma credentials_never_probed_witness :
  let w := create_regular 0 "http://user:secret@a:8000" in
  is_healthy (checks (all_ok <$> replicate 10 false) w).2 = true.
Proof.
  intros w. rewrite (credentials_never_probed w (InvalidUrl "http://user:secret@a:8000")).
  - reflexivity.
  - reflexivity.
  - vm_refl.
Defined.
