(* ===== verification/WorkerRegistry.v ===== *)
(** * The worker registry ([src/core/worker_registry.rs])

    All workers by identifier, and five indexes over them: by URL, by model
    (identifiers and, for speed, the workers), by type and by connection mode.
    An [Arc<dyn Worker>] is a [WorkerRef]: the identity of the shared object and
    its metadata, which never changes; its health and load are read in the heap
    of shared workers.  The identifiers [Uuid::new_v4] makes are arguments, and
    the iteration order of a [DashMap] is that of [map_to_list], which theorems
    do not rely on.  A call is one step; [register_id] and [register_at] are the
    two halves of [register], for interleavings. *)

From S2P Require Import Prelude WorkerUrl Worker.

Local Open Scope string_scope.

(** ** Data *)

Record WorkerRef := MkRef {
  arc : N;
  ref_meta : WorkerMetadata;
}.

Definition ref_url (w : WorkerRef) : string := meta_url (ref_meta w).
Definition ref_type (w : WorkerRef) : WorkerType := meta_worker_type (ref_meta w).
Definition ref_mode (w : WorkerRef) : ConnectionMode := meta_connection_mode (ref_meta w).
Definition ref_model (w : WorkerRef) : string := default "unknown" (labels (ref_meta w) !! "model_id").

#[export] Instance WorkerType_countable : Countable WorkerType.
Proof.
  refine (inj_countable'
    (fun t => match t with Regular => inl false | Decode => inl true | Prefill p => inr p end)
    (fun x => match x with inl false => Regular | inl true => Decode | inr p => Prefill p end) _).
  by intros [].
Defined.

#[export] Instance ConnectionMode_countable : Countable ConnectionMode.
Proof.
  refine (inj_countable' (fun m => match m with Http => true | Grpc => false end)
    (fun b : bool => if b then Http else Grpc) _).
  by intros [].
Defined.

Record WorkerRegistry := MkRegistry {
  workers : gmap string WorkerRef;
  model_workers : gmap string (list string);
  model_index : gmap string (list WorkerRef);
  type_workers : gmap WorkerType (list string);
  connection_workers : gmap ConnectionMode (list string);
  url_to_id : gmap string string;
  revision : N;   (* AtomicU64 *)
}.

Definition new_registry : WorkerRegistry := MkRegistry ∅ ∅ ∅ ∅ ∅ ∅ 0.

(** [entry(k).or_default().push(v)] *)
Definition push {K} `{Countable K} {V} (k : K) (v : V) (m : gmap K (list V)) : gmap K (list V) :=
  <[k := (default [] (m !! k) ++ [v])%list]> m.

(** [get_mut(k)] and [retain] *)
Definition retain {K} `{Countable K} {V} (k : K) (P : V -> Prop) `{!forall x, Decision (P x)}
    (m : gmap K (list V)) : gmap K (list V) :=
  match m !! k with
  | Some l => <[k := filter P l]> m
  | None => m
  end.

Definition notify_worker_state_change (r : WorkerRegistry) : WorkerRegistry :=
  MkRegistry (workers r) (model_workers r) (model_index r) (type_workers r) (connection_workers r)
    (url_to_id r) (u64_wrapping_add (revision r) 1).

(** ** Changes *)

Definition register_id (new_id : string) (w : WorkerRef) (r : WorkerRegistry) : string :=
  default new_id (url_to_id r !! ref_url w).

Definition register_at (worker_id : string) (w : WorkerRef) (r : WorkerRegistry) : WorkerRegistry :=
  notify_worker_state_change (MkRegistry
    (<[worker_id := w]> (workers r))
    (push (ref_model w) worker_id (model_workers r))
    (push (ref_model w) w (model_index r))
    (push (ref_type w) worker_id (type_workers r))
    (push (ref_mode w) worker_id (connection_workers r))
    (<[ref_url w := worker_id]> (url_to_id r))
    (revision r)).

Definition register (new_id : string) (w : WorkerRef) (r : WorkerRegistry) : string * WorkerRegistry :=
  let worker_id := register_id new_id w r in (worker_id, register_at worker_id w r).

Definition remove (worker_id : string) (r : WorkerRegistry) : option WorkerRef * WorkerRegistry :=
  match workers r !! worker_id with
  | Some w =>
      (Some w, notify_worker_state_change (MkRegistry
        (delete worker_id (workers r))
        (retain (ref_model w) (fun id => id <> worker_id) (model_workers r))
        (retain (ref_model w) (fun w' => ref_url w' <> ref_url w) (model_index r))
        (retain (ref_type w) (fun id => id <> worker_id) (type_workers r))
        (retain (ref_mode w) (fun id => id <> worker_id) (connection_workers r))
        (delete (ref_url w) (url_to_id r))
        (revision r)))
  | None => (None, r)
  end.

Definition remove_by_url (u : string) (r : WorkerRegistry) : option WorkerRef * WorkerRegistry :=
  match url_to_id r !! u with
  | Some worker_id =>
      remove worker_id (MkRegistry (workers r) (model_workers r) (model_index r) (type_workers r)
        (connection_workers r) (delete u (url_to_id r)) (revision r))
  | None => (None, r)
  end.

(** ** Queries *)

Definition get (r : WorkerRegistry) (worker_id : string) : option WorkerRef := workers r !! worker_id.

Definition get_by_url (r : WorkerRegistry) (u : string) : option WorkerRef := url_to_id r !! u ≫= get r.

Definition get_by_model (r : WorkerRegistry) (m : string) : list WorkerRef :=
  omap (get r) (default [] (model_workers r !! m)).

Definition get_by_model_fast (r : WorkerRegistry) (m : string) : list WorkerRef :=
  default [] (model_index r !! m).

Definition has_model (r : WorkerRegistry) (m : string) : bool :=
  match model_index r !! m with Some (_ :: _) => true | _ => false end.

Definition get_by_type (r : WorkerRegistry) (t : WorkerType) : list WorkerRef :=
  omap (get r) (default [] (type_workers r !! t)).

Definition get_all (r : WorkerRegistry) : list WorkerRef := (map_to_list (workers r)).*2.

Definition get_all_with_ids (r : WorkerRegistry) : list (string * WorkerRef) := map_to_list (workers r).

Definition is_prefill (t : WorkerType) : bool := match t with Prefill _ => true | _ => false end.

Definition get_prefill_workers (r : WorkerRegistry) : list WorkerRef :=
  filter (fun w => is_prefill (ref_type w) = true) (get_all r).

Definition get_decode_workers (r : WorkerRegistry) : list WorkerRef := get_by_type r Decode.

Definition get_by_connection (r : WorkerRegistry) (c : ConnectionMode) : list WorkerRef :=
  omap (get r) (default [] (connection_workers r !! c)).

Definition get_all_urls (r : WorkerRegistry) : list string := ref_url <$> get_all r.

Definition get_models (r : WorkerRegistry) : list string :=
  (filter (fun e => e.2 <> []) (map_to_list (model_workers r))).*1.

(** The health and load of a shared worker; one that is not in the heap is not
    healthy and idle. *)
Definition healthy_in (h : heap) (w : WorkerRef) : bool :=
  match h !! arc w with Some x => is_healthy x | None => false end.

Definition load_in (h : heap) (w : WorkerRef) : N :=
  match h !! arc w with Some x => load x | None => 0 end.

(** The filters of [get_workers_filtered]. *)
Definition passes (h : heap) (t : option WorkerType) (c : option ConnectionMode) (healthy_only : bool)
    (w : WorkerRef) : bool :=
  match t with Some t => bool_decide (ref_type w = t) | None => true end &&
  match c with Some c => bool_decide (ref_mode w = c) | None => true end &&
  (negb healthy_only || healthy_in h w).

Definition get_workers_filtered (h : heap) (r : WorkerRegistry) (m : option string)
    (t : option WorkerType) (c : option ConnectionMode) (healthy_only : bool) : list WorkerRef :=
  filter (fun w => passes h t c healthy_only w = true)
    (match m with Some m => get_by_model_fast r m | None => get_all r end).

Record WorkerRegistryStats := MkStats {
  total_workers : nat;
  total_models : nat;
  healthy_workers : nat;
  total_load : N;
  regular_workers : nat;
  prefill_workers : nat;
  decode_workers : nat;
}.

(** The body of the loop of [stats]. *)
Definition count_worker (h : heap) (s : WorkerRegistryStats) (w : WorkerRef) : WorkerRegistryStats :=
  let healthy := if healthy_in h w then S (healthy_workers s) else healthy_workers s in
  let load := u64_wrapping_add (total_load s) (load_in h w) in
  match ref_type w with
  | Regular => MkStats (total_workers s) (total_models s) healthy load
      (S (regular_workers s)) (prefill_workers s) (decode_workers s)
  | Prefill _ => MkStats (total_workers s) (total_models s) healthy load
      (regular_workers s) (S (prefill_workers s)) (decode_workers s)
  | Decode => MkStats (total_workers s) (total_models s) healthy load
      (regular_workers s) (prefill_workers s) (S (decode_workers s))
  end.

Definition stats (h : heap) (r : WorkerRegistry) : WorkerRegistryStats :=
  foldl (count_worker h)
    (MkStats (size (workers r)) (length (get_models r)) 0 0 0 0 0) (get_all r).

(** ** The health checker *)

(** One worker of a round: its availability is read before and after the
    check, and a change bumps the revision. *)
Definition check_worker (p : Probes) (now1 now2 : N) (w : WorkerRef) (s : heap * N) : heap * N :=
  let '(h, rev) := s in
  match h !! arc w with
  | Some x =>
      let '(was_available, x) := is_available now1 x in
      let '(_, x, _) := check_health_async p x in
      let '(available, x) := is_available now2 x in
      (<[arc w := x]> h,
       if bool_decide (was_available = available) then rev else u64_wrapping_add rev 1)
  | None => s
  end.

(** A round over the workers present; [clock] gives the two readings for each. *)
Definition check_round (p : Probes) (clock : list (N * N)) (r : WorkerRegistry) (h : heap)
  : WorkerRegistry * heap :=
  let '(h, rev) := foldl (fun s '(w, (now1, now2)) => check_worker p now1 now2 w s)
    (h, revision r) (zip (get_all r) clock) in
  (MkRegistry (workers r) (model_workers r) (model_index r) (type_workers r) (connection_workers r)
    (url_to_id r) rev, h).

(** ** Specification: the workers in order of registration *)

Inductive registry_op :=
| Register (new_id : string) (w : WorkerRef)
| Remove (worker_id : string)
| RemoveByUrl (u : string)
| Notify.

Definition registry_step (o : registry_op) (r : WorkerRegistry) : WorkerRegistry :=
  match o with
  | Register new_id w => (register new_id w r).2
  | Remove id => (remove id r).2
  | RemoveByUrl u => (remove_by_url u r).2
  | Notify => notify_worker_state_change r
  end.

Definition registry_run (ops : list registry_op) (r : WorkerRegistry) : WorkerRegistry :=
  foldl (fun r o => registry_step o r) r ops.

Abbreviation entries := (list (string * WorkerRef)).

Definition spec_step (o : registry_op) (l : entries) : entries :=
  match o with
  | Register id w => (l ++ [(id, w)])%list
  | Remove id => filter (fun e => e.1 <> id) l
  | RemoveByUrl u => filter (fun e => ref_url e.2 <> u) l
  | Notify => l
  end.

Definition spec_run (ops : list registry_op) : entries := foldl (fun l o => spec_step o l) [] ops.

(** What callers keep to: a new identifier is new, and a worker is registered
    only when its URL is not. *)
Definition allowed (o : registry_op) (l : entries) : bool :=
  match o with
  | Register id w => bool_decide (id ∉ l.*1) && bool_decide (ref_url w ∉ ref_url <$> l.*2)
  | _ => true
  end.

Fixpoint all_allowed (ops : list registry_op) (l : entries) : bool :=
  match ops with
  | [] => true
  | o :: ops => allowed o l && all_allowed ops (spec_step o l)
  end.

(** An index by [key] holds the entries of each key, in order. *)
Definition indexed {K V} `{Countable K} (key : WorkerRef -> K) (val : string * WorkerRef -> V)
    (m : gmap K (list V)) (l : entries) : Prop :=
  forall k, default [] (m !! k) = val <$> filter (fun e => key e.2 = k) l.

Record refines (r : WorkerRegistry) (l : entries) : Prop := {
  ref_ids : NoDup l.*1;
  ref_urls : NoDup (ref_url <$> l.*2);
  ref_workers : forall id w, workers r !! id = Some w <-> (id, w) ∈ l;
  ref_url_to_id : forall u id, url_to_id r !! u = Some id <-> exists w, (id, w) ∈ l /\ ref_url w = u;
  ref_model_workers : indexed ref_model fst (model_workers r) l;
  ref_model_index : indexed ref_model snd (model_index r) l;
  ref_type_workers : indexed ref_type fst (type_workers r) l;
  ref_connection_workers : indexed ref_mode fst (connection_workers r) l;
}.

(** Workers for the examples: one object, URL and model each. *)
Definition example_ref (a : N) (u model : string) : WorkerRef :=
  MkRef a {| meta_url := u; meta_worker_type := Regular; meta_connection_mode := Http;
    labels := {[ "model_id" := model ]}; health_config := default_health_config |}.

Definition example_ops : list registry_op :=
  [Register "1" (example_ref 1 "http://a:1" "m"); Register "2" (example_ref 2 "http://b:1" "m");
   RemoveByUrl "http://a:1"; Register "3" (example_ref 3 "http://a:1" "n"); Remove "2"].

(** ** Lemmas *)

Section index.
Context {K V : Type} `{Countable K} (key : WorkerRef -> K) (val : string * WorkerRef -> V).

Lemma indexed_empty : indexed key val ∅ [].
Proof. intros k. by rewrite lookup_empty. Qed.

Lemma indexed_push m l id w : indexed key val m l ->
  indexed key val (push (key w) (val (id, w)) m) (l ++ [(id, w)])%list.
Proof.
  intros Hm k. unfold push. rewrite filter_app, fmap_app. destruct (decide (key w = k)) as [<-|Hk].
  - rewrite lookup_insert_eq. simpl. rewrite Hm, filter_cons_True by done. done.
  - rewrite lookup_insert_ne, Hm by done. rewrite filter_cons_False by done. by rewrite app_nil_r.
Qed.

(** Removing the one entry of an identifier from the list of its key. *)
Lemma indexed_retain m l id w (P : V -> Prop) `{!forall x, Decision (P x)} :
  NoDup l.*1 -> (id, w) ∈ l -> (forall e, e ∈ l -> P (val e) <-> e.1 <> id) ->
  indexed key val m l -> indexed key val (retain (key w) P m) (filter (fun e => e.1 <> id) l).
Proof.
  intros Hnd Hin HP Hm k. unfold retain. destruct (decide (key w = k)) as [<-|Hk].
  - assert (default [] ((match m !! key w with Some l0 => <[key w:=filter P l0]> m | None => m end) !! key w)
      = filter P (default [] (m !! key w))) as ->.
    { destruct (m !! key w) as [l0|] eqn:E; [by rewrite lookup_insert_eq|by rewrite E]. }
    rewrite Hm, filter_of_fmap, !list_filter_filter. f_equal.
    apply filter_ext_elem. intros e He. rewrite (HP e He). naive_solver.
  - rewrite list_filter_filter.
    assert (filter (fun e => key e.2 = k /\ e.1 <> id) l = filter (fun e => key e.2 = k) l) as ->.
    { apply filter_ext_elem. intros e He. split; [naive_solver|]. intros Hke. split; [done|].
      intros E. apply Hk. by rewrite (NoDup_key_inj fst l e (id, w) Hnd He Hin E) in Hke. }
    rewrite <- Hm. destruct (m !! key w); [by rewrite lookup_insert_ne|done].
Qed.
End index.

Lemma refines_new : refines new_registry [].
Proof.
  constructor; try apply indexed_empty; [constructor|constructor| |]; intros; split.
  - intros H. exfalso. exact (lookup_empty_Some _ _ H).
  - by intros ?%elem_of_nil.
  - intros H. exfalso. exact (lookup_empty_Some _ _ H).
  - by intros (? & ?%elem_of_nil & _).
Qed.

Lemma refines_notify r l : refines r l -> refines (notify_worker_state_change r) l.
Proof. intros []. by constructor. Qed.

Lemma refines_register r l id w : refines r l -> id ∉ l.*1 -> ref_url w ∉ ref_url <$> l.*2 ->
  refines (register id w r).2 (l ++ [(id, w)])%list.
Proof.
  intros [Hids Hurls Hw Hu Hmw Hmi Htw Hcw] Hid Hurl. unfold register, register_id.
  assert (url_to_id r !! ref_url w = None) as ->.
  { destruct (url_to_id r !! ref_url w) as [id'|] eqn:E; [|done]. apply Hu in E as (w' & Hin & E).
    destruct Hurl. rewrite <- E. apply list_elem_of_fmap. exists w'. split; [done|].
    apply list_elem_of_fmap. by exists (id', w'). }
  apply refines_notify. simpl. constructor; simpl.
  - rewrite fmap_app. apply NoDup_app. split_and!; [done| |apply NoDup_singleton]. set_solver.
  - rewrite !fmap_app. apply NoDup_app. split_and!; [done| |apply NoDup_singleton]. set_solver.
  - intros id' w'. rewrite elem_of_app, list_elem_of_singleton.
    destruct (decide (id' = id)) as [->|Hne].
    + rewrite lookup_insert_eq. split; [intros [= <-]; by right|].
      intros [Hin|[= ->]]; [|done]. destruct Hid. apply list_elem_of_fmap. by exists (id, w').
    + rewrite lookup_insert_ne, Hw by done. naive_solver.
  - intros u id'. setoid_rewrite elem_of_app. setoid_rewrite list_elem_of_singleton.
    destruct (decide (u = ref_url w)) as [->|Hne].
    + rewrite lookup_insert_eq. split; [intros [= <-]; eauto|].
      intros (w' & [Hin|[= -> ->]] & E); [|done]. destruct Hurl. rewrite <- E.
      apply list_elem_of_fmap. exists w'. split; [done|]. apply list_elem_of_fmap. by exists (id', w').
    + rewrite lookup_insert_ne, Hu by done. naive_solver.
  - apply (indexed_push ref_model fst _ _ id w Hmw).
  - apply (indexed_push ref_model snd _ _ id w Hmi).
  - apply (indexed_push ref_type fst _ _ id w Htw).
  - apply (indexed_push ref_mode fst _ _ id w Hcw).
Qed.

(** An entry is known by its identifier and by its URL. *)
Lemma entry_by_id r l id w w' : refines r l -> (id, w) ∈ l -> (id, w') ∈ l -> w = w'.
Proof.
  intros Hr H1 H2. pose proof (NoDup_key_inj fst l _ _ (ref_ids _ _ Hr) H1 H2 eq_refl). congruence.
Qed.

Lemma entry_by_url r l id w id' w' : refines r l -> (id, w) ∈ l -> (id', w') ∈ l ->
  ref_url w = ref_url w' -> id = id' /\ w = w'.
Proof.
  intros Hr H1 H2 E. pose proof (ref_urls _ _ Hr) as Hnd. rewrite <- list_fmap_compose in Hnd.
  pose proof (NoDup_key_inj (ref_url ∘ snd) l _ _ Hnd H1 H2 E). by simplify_eq.
Qed.

Lemma refines_remove r l id w m : refines r l -> (id, w) ∈ l ->
  (forall u, u <> ref_url w -> m !! u = url_to_id r !! u) ->
  refines (remove id (MkRegistry (workers r) (model_workers r) (model_index r) (type_workers r)
    (connection_workers r) m (revision r))).2 (filter (fun e => e.1 <> id) l).
Proof.
  intros Hr Hin Hm. pose proof Hr as [Hids Hurls Hw Hu Hmw Hmi Htw Hcw]. unfold remove. simpl.
  pose proof Hin as Hw'. apply Hw in Hw' as ->. apply refines_notify. constructor; simpl.
  - eapply sublist_NoDup; [exact Hids|]. apply fmap_sublist, sublist_filter.
  - eapply sublist_NoDup; [exact Hurls|]. apply fmap_sublist, fmap_sublist, sublist_filter.
  - intros id' w'. rewrite list_elem_of_filter. simpl. rewrite lookup_delete_Some, Hw. naive_solver.
  - intros u id'. rewrite lookup_delete_Some. setoid_rewrite list_elem_of_filter. simpl. split.
    + intros [Hne E]. rewrite Hm, Hu in E by done. destruct E as (w' & Hin' & <-).
      exists w'. split_and!; [|done|done]. intros ->. by rewrite (entry_by_id _ _ _ _ _ Hr Hin Hin') in Hne.
    + intros (w' & [Hne Hin'] & <-).
      assert (ref_url w <> ref_url w') as Hne'.
      { intros E. by destruct (entry_by_url _ _ _ _ _ _ Hr Hin Hin' E) as [-> _]. }
      split; [done|]. rewrite Hm by done. apply Hu. eauto.
  - by apply (indexed_retain ref_model fst).
  - apply (indexed_retain ref_model snd); [done..| |done]. intros [id' w'] He. simpl. split.
    + intros Hne ->. by rewrite (entry_by_id _ _ _ _ _ Hr Hin He) in Hne.
    + intros Hne E. by destruct (entry_by_url _ _ _ _ _ _ Hr He Hin E) as [-> _].
  - by apply (indexed_retain ref_type fst).
  - by apply (indexed_retain ref_mode fst).
Qed.

Lemma refines_step o r l : refines r l -> allowed o l = true ->
  refines (registry_step o r) (spec_step o l).
Proof.
  intros Hr Hok. destruct o as [id w|id|u|]; simpl in *.
  - apply andb_true_iff in Hok as [H1%bool_decide_eq_true H2%bool_decide_eq_true].
    by apply (refines_register r l id w).
  - destruct (workers r !! id) as [w|] eqn:E.
    + apply (ref_workers _ _ Hr) in E.
      pose proof (refines_remove r l id w (url_to_id r) Hr E ltac:(done)) as H. by destruct r.
    + unfold remove. rewrite E. simpl. rewrite filter_all; [done|].
      apply Forall_forall. intros [id' w'] He Eid. apply (ref_workers _ _ Hr) in He. simpl in *. congruence.
  - unfold remove_by_url. destruct (url_to_id r !! u) as [id|] eqn:E.
    + apply (ref_url_to_id _ _ Hr) in E as (w & Hin & <-).
      rewrite (filter_ext_elem _ (fun e => e.1 <> id)).
      * apply (refines_remove _ _ _ w); [done..|]. intros u Hu. by rewrite lookup_delete_ne.
      * intros [id' w'] He. simpl. split; intros Hne E; apply Hne.
        -- subst. by rewrite (entry_by_id _ _ _ _ _ Hr Hin He).
        -- by destruct (entry_by_url _ _ _ _ _ _ Hr He Hin E).
    + simpl. rewrite filter_all; [done|]. apply Forall_forall. intros [id' w'] He Hu.
      assert (url_to_id r !! u = Some id') by (apply (ref_url_to_id _ _ Hr); eauto). congruence.
  - by apply refines_notify.
Qed.

Lemma refines_run ops r l : refines r l -> all_allowed ops l = true ->
  refines (registry_run ops r) (foldl (fun l o => spec_step o l) l ops).
Proof.
  revert r l. induction ops as [|o ops IH]; intros r l Hr Hok; simpl in *; [done|].
  apply andb_true_iff in Hok as [H1 H2]. apply IH; [by apply refines_step|done].
Qed.

(** Reading the identifiers of an index gives its workers. *)
Lemma refines_index {K} `{Countable K} (key : WorkerRef -> K) m r l k : refines r l ->
  indexed key fst m l -> omap (get r) (default [] (m !! k)) = filter (fun w => key w = k) l.*2.
Proof.
  intros Hr Hm. rewrite Hm, filter_of_fmap.
  assert (Forall (fun e => workers r !! e.1 = Some e.2) (filter (fun e => key e.2 = k) l)) as Hl.
  { apply Forall_forall. intros [id w] [_ He]%list_elem_of_filter. by apply (ref_workers _ _ Hr). }
  induction Hl as [|e l' He _ IH]; [done|]. rewrite !fmap_cons. simpl. unfold get at 1. rewrite He. f_equal. exact IH.
Qed.

Lemma refines_all r l : refines r l -> map_to_list (workers r) ≡ₚ l.
Proof.
  intros Hr. apply NoDup_Permutation; [apply NoDup_map_to_list|eapply NoDup_fmap_1, (ref_ids _ _ Hr)|].
  intros [id w]. by rewrite elem_of_map_to_list, (ref_workers _ _ Hr).
Qed.

Lemma refines_fast r l m : refines r l -> get_by_model_fast r m = filter (fun w => ref_model w = m) l.*2.
Proof. intros Hr. unfold get_by_model_fast. by rewrite (ref_model_index _ _ Hr), filter_of_fmap. Qed.

Lemma refines_by_url r l u w : refines r l -> get_by_url r u = Some w <-> w ∈ l.*2 /\ ref_url w = u.
Proof.
  intros Hr. unfold get_by_url. rewrite bind_Some, list_elem_of_fmap. unfold get. split.
  - intros (id & (w' & Hin & <-)%(ref_url_to_id _ _ Hr) & Hw%(ref_workers _ _ Hr)).
    rewrite (entry_by_id _ _ _ _ _ Hr Hin Hw). split; [by exists (id, w)|done].
  - intros [([id w'] & -> & Hin) <-]. exists id. split; [|by apply (ref_workers _ _ Hr)].
    apply (ref_url_to_id _ _ Hr). eauto.
Qed.

Lemma exists_filter (P : WorkerRef -> Prop) `{!forall x, Decision (P x)} (l : list WorkerRef) :
  filter P l <> [] <-> exists w, w ∈ l /\ P w.
Proof.
  split.
  - intros Hne. destruct (filter P l) as [|w l'] eqn:E; [done|].
    exists w. assert (w ∈ filter P l) as [? ?]%list_elem_of_filter by (rewrite E; left). done.
  - intros (w & Hw & HP) E. assert (w ∈ filter P l) as Hin by (by apply list_elem_of_filter).
    rewrite E in Hin. by apply elem_of_nil in Hin.
Qed.

Lemma refines_has_model r l m : refines r l ->
  has_model r m = true <-> exists w, w ∈ l.*2 /\ ref_model w = m.
Proof.
  intros Hr. rewrite <- (exists_filter (fun w => ref_model w = m)), <- (refines_fast _ _ _ Hr).
  unfold has_model, get_by_model_fast. destruct (model_index r !! m) as [[|? ?]|]; simpl; naive_solver.
Qed.

Lemma refines_models r l m : refines r l ->
  m ∈ get_models r <-> exists w, w ∈ l.*2 /\ ref_model w = m.
Proof.
  intros Hr. unfold get_models. rewrite list_elem_of_fmap, <- (exists_filter (fun w => ref_model w = m)).
  pose proof (ref_model_workers _ _ Hr m) as Hm. rewrite filter_of_fmap. split.
  - intros ([m' ids] & Em & [Hne Hin]%list_elem_of_filter) E. apply elem_of_map_to_list in Hin.
    simpl in Em, Hne. subst m'. rewrite Hin in Hm. simpl in Hm. apply Hne. rewrite Hm.
    apply fmap_nil_inv in E. by rewrite E.
  - intros Hne. destruct (model_workers r !! m) as [ids|] eqn:E; simpl in Hm.
    + exists (m, ids). split; [done|]. apply list_elem_of_filter. rewrite elem_of_map_to_list. split; [|done].
      simpl. rewrite Hm. intros E0%fmap_nil_inv. by rewrite E0 in Hne.
    + symmetry in Hm. apply fmap_nil_inv in Hm. by rewrite Hm in Hne.
Qed.

Lemma count_workers_spec h ws s : let s' := foldl (count_worker h) s ws in
  total_workers s' = total_workers s /\ total_models s' = total_models s /\
  healthy_workers s' = healthy_workers s + length (filter (fun w => healthy_in h w = true) ws) /\
  regular_workers s' = regular_workers s + length (filter (fun w => ref_type w = Regular) ws) /\
  prefill_workers s' = prefill_workers s + length (filter (fun w => is_prefill (ref_type w) = true) ws) /\
  decode_workers s' = decode_workers s + length (filter (fun w => ref_type w = Decode) ws).
Proof.
  revert s. induction ws as [|w ws IH]; intros s; simpl.
  { rewrite !Nat.add_0_r. done. }
  destruct (IH (count_worker h s w)) as (-> & -> & -> & -> & -> & ->). rewrite !filter_cons.
  unfold count_worker. destruct (ref_type w); simpl; repeat case_decide; simpl;
    repeat case_match; simpl in *; try congruence; split_and!; lia.
Qed.

(** ** Properties *)

(** C17: the registry refines the list of its workers.  After any registrations
    and removals that keep to the callers' contract, every index answers for
    exactly the registered workers, in order of registration: by model through
    both indexes, by type, by connection mode, by URL, and all of them. *)
Theorem registry_refines ops : all_allowed ops [] = true ->
  let r := registry_run ops new_registry in
  let ws := (spec_run ops).*2 in
  (forall m, get_by_model r m = filter (fun w => ref_model w = m) ws /\
             get_by_model_fast r m = filter (fun w => ref_model w = m) ws) /\
  (forall t, get_by_type r t = filter (fun w => ref_type w = t) ws) /\
  (forall c, get_by_connection r c = filter (fun w => ref_mode w = c) ws) /\
  (forall u w, get_by_url r u = Some w <-> w ∈ ws /\ ref_url w = u) /\
  get_all_with_ids r ≡ₚ spec_run ops.
Proof.
  intros Hok r ws. pose proof (refines_run ops _ _ refines_new Hok) as Hr.
  fold (spec_run ops) in Hr. fold r in Hr. split_and!.
  - intros m. split; [|by apply refines_fast].
    apply (refines_index ref_model _ _ _ _ Hr), (ref_model_workers _ _ Hr).
  - intros t. apply (refines_index ref_type _ _ _ _ Hr), (ref_type_workers _ _ Hr).
  - intros c. apply (refines_index ref_mode _ _ _ _ Hr), (ref_connection_workers _ _ Hr).
  - intros u w. by apply refines_by_url.
  - by apply refines_all.
Qed.

Lemma registry_refines_witness :
  get_by_model_fast (registry_run example_ops new_registry) "n" = [example_ref 3 "http://a:1" "n"].
Proof.
  destruct (registry_refines example_ops) as [H _]; [vm_refl|].
  destruct (H "n") as [_ ->]. vm_refl.
Defined.

(** The derived queries of the registry agree with its workers.  Under the
    callers' contract, a filtered query returns exactly the workers that pass
    every given filter, a model is listed exactly when some worker serves it,
    and the statistics count the workers of each kind. *)
Theorem registry_queries ops h : all_allowed ops [] = true ->
  let r := registry_run ops new_registry in
  let ws := (spec_run ops).*2 in
  (forall m t c b, get_workers_filtered h r m t c b ≡ₚ
    filter (fun w => (m = None \/ m = Some (ref_model w)) /\ passes h t c b w = true) ws) /\
  (forall m, m ∈ get_models r <-> has_model r m = true) /\
  (forall m, has_model r m = true <-> exists w, w ∈ ws /\ ref_model w = m) /\
  (let s := stats h r in
   total_workers s = length ws /\
   healthy_workers s = length (filter (fun w => healthy_in h w = true) ws) /\
   regular_workers s = length (filter (fun w => ref_type w = Regular) ws) /\
   prefill_workers s = length (filter (fun w => is_prefill (ref_type w) = true) ws) /\
   decode_workers s = length (filter (fun w => ref_type w = Decode) ws)).
Proof.
  intros Hok r ws. pose proof (refines_run ops _ _ refines_new Hok) as Hr.
  fold (spec_run ops) in Hr. fold r in Hr.
  assert (get_all r ≡ₚ ws) as Hall by (apply fmap_Permutation, refines_all, Hr).
  split_and!.
  - intros m t c b. unfold get_workers_filtered. destruct m as [m|].
    + rewrite (refines_fast _ _ _ Hr), list_filter_filter. erewrite filter_ext_elem; [reflexivity|].
      intros w _. naive_solver.
    + rewrite Hall. erewrite filter_ext_elem; [reflexivity|]. intros w _. naive_solver.
  - intros m. by rewrite (refines_models _ _ _ Hr), (refines_has_model _ _ _ Hr).
  - intros m. by apply refines_has_model.
  - unfold stats.
    destruct (count_workers_spec h (get_all r) (MkStats (size (workers r)) (length (get_models r)) 0 0 0 0 0))
      as (H1 & _ & H3 & H4 & H5 & H6). cbv zeta. rewrite H1, H3, H4, H5, H6. simpl. rewrite !Hall.
    split; [|done]. rewrite <- length_map_to_list, (refines_all _ _ Hr).
    unfold ws. by rewrite length_fmap.
Qed.

Lemma registry_queries_witness :
  has_model (registry_run example_ops new_registry) "n" = true.
Proof.
  destruct (registry_queries example_ops ∅) as (_ & _ & H & _); [vm_refl|].
  apply H. exists (example_ref 3 "http://a:1" "n"). split; [|vm_refl].
  replace (spec_run example_ops).*2 with [example_ref 3 "http://a:1" "n"] by vm_refl. left.
Defined.

(** Registering a URL again does not update the indexes.  The worker
    registered again for another model is found under both, is counted once,
    and once it is removed its old object is still listed for the old model. *)
Theorem reregister_leaves_stale :
  let old := example_ref 1 "http://a:1" "m" in
  let new := example_ref 2 "http://a:1" "n" in
  let r := registry_run [Register "1" old; Register "2" new] new_registry in
  let r' := (remove_by_url "http://a:1" r).2 in
  get_all r = [new] /\ get_by_model r "m" = [new] /\ get_by_model r "n" = [new] /\
  get_by_model_fast r "m" = [old] /\
  get_all r' = [] /\ get_by_url r' "http://a:1" = None /\ get_by_model_fast r' "m" = [old].
Proof. split_and!; vm_refl. Qed.

(** Two registrations of one URL whose lookups both come first leave a worker
    that its URL no longer finds. *)
Lemma concurrent_register_leaks :
  let w1 := example_ref 1 "http://a:1" "m" in
  let w2 := example_ref 2 "http://a:1" "m" in
  let id1 := register_id "1" w1 new_registry in
  let id2 := register_id "2" w2 new_registry in
  let r := register_at id2 w2 (register_at id1 w1 new_registry) in
  let r' := (remove_by_url "http://a:1" r).2 in
  get_all r' = [w1] /\ get_by_url r' "http://a:1" = None.
Proof. split; vm_refl. Qed.
