(* ===== verification/Hashing.v ===== *)
(** * Hashing of routing keys ([src/policies/consistent_hash.rs])

    [fbi_hash]: MurmurHash64A over bytes, FurcHash on top of its bits, and the
    widening of FurcHash's result to 64 bits.  FurcHash reads an unbounded
    stream of bits, 64 at a time from a chain of rehashes, through a cache; the
    reference [bit_at] reads the same stream without one. *)

From S2P Require Import Prelude KvTypes TextDecode.

Local Open Scope N_scope.

(** ** MurmurHash64A *)

Definition M : N := 0xc6a4a7935bd1e995.
Definition R : N := 47.
Definition SEED : N := 4193360111.

Definition wrapping_mul (a b : N) : N := (a * b) mod u64_mod.

(** [u64::from_le_bytes] *)
Fixpoint from_le_bytes (l : list byte) : N :=
  match l with
  | [] => 0
  | b :: l => Byte.to_N b + 256 * from_le_bytes l
  end.

(** The full 8-byte chunks and the rest. *)
Fixpoint chunks_exact_fuel (fuel : nat) (key : list byte) : list (list byte) * list byte :=
  match fuel with
  | O => ([], key)
  | S fuel =>
      if (8 <=? length key)%nat then
        let '(cs, r) := chunks_exact_fuel fuel (drop 8 key) in (take 8 key :: cs, r)
      else ([], key)
  end.

Definition chunks_exact (key : list byte) : list (list byte) * list byte :=
  chunks_exact_fuel (length key) key.

Definition mix_chunk (h : N) (chunk : list byte) : N :=
  let k := from_le_bytes chunk in
  let k := wrapping_mul k M in
  let k := N.lxor k (N.shiftr k R) in
  let k := wrapping_mul k M in
  wrapping_mul (N.lxor h k) M.

(** The bytes of the rest, the last one first, each at its place. *)
Fixpoint xor_remainder (i : N) (remainder : list byte) (h : N) : N :=
  match remainder with
  | [] => h
  | b :: remainder => N.lxor (xor_remainder (i + 1) remainder h) (N.shiftl (Byte.to_N b) (8 * i))
  end.

Definition mix_remainder (remainder : list byte) (h : N) : N :=
  match remainder with
  | [] => h
  | _ => wrapping_mul (xor_remainder 0 remainder h) M
  end.

Definition finish (h : N) : N :=
  let h := N.lxor h (N.shiftr h R) in
  let h := wrapping_mul h M in
  N.lxor h (N.shiftr h R).

Definition murmur_hash_64a (key : list byte) (seed : N) : N :=
  let h := N.lxor seed (wrapping_mul (N.of_nat (length key)) M) in
  let '(chunks, remainder) := chunks_exact key in
  finish (mix_remainder remainder (foldl mix_chunk h chunks)).

Definition murmur_rehash_64a (k : N) : N :=
  let h := N.lxor SEED (wrapping_mul 8 M) in
  let k := wrapping_mul k M in
  let k := N.lxor k (N.shiftr k R) in
  let k := wrapping_mul k M in
  let h := wrapping_mul (N.lxor h k) M in
  finish h.

(** ** FurcHash *)

(** [hash_cache] and [old_ord], which is minus one at first. *)
Record BitCache := MkCache { hash_cache : list N; old_ord : Z }.

(** [resize] and assignment at [n]. *)
Definition cache_set (n : nat) (v : N) (c : list N) : list N :=
  let c := if (length c <=? n)%nat then c ++ replicate (n + 1 - length c) 0 else c in
  <[n := v]> c.

(** One round of the loop that extends the cache. *)
Definition extend_cache (key : list byte) (c : list N) (n : Z) : list N :=
  let hash_value := if (n =? 0)%Z then murmur_hash_64a key SEED
                    else murmur_rehash_64a (nth (Z.to_nat (n - 1)) c 0) in
  cache_set (Z.to_nat n) hash_value c.

Definition furc_get_bit (key : list byte) (idx : N) (st : BitCache) : bool * BitCache :=
  let ord := Z.of_N (N.shiftr idx 6) in
  let st :=
    if (old_ord st <? ord)%Z then
      MkCache (foldl (extend_cache key) (hash_cache st)
        (seqZ (old_ord st + 1) (ord - old_ord st))) ord
    else st in
  (N.testbit (nth (Z.to_nat ord) (hash_cache st) 0) (N.land idx 0x3f), st).

Definition MAX_TRIES : nat := 32.
Definition FURC_SHIFT : N := 23.

(** [while m > (1u32 << d) { d += 1 }]: 32 rounds reach every [u32]. *)
Fixpoint depth_from (fuel d : nat) (m : N) : nat :=
  match fuel with
  | O => d
  | S fuel => if N.shiftl 1 (N.of_nat d) <? m then depth_from fuel (S d) m else d
  end.

(** The bit source of the rest: a state and the reading of a bit. *)
Section furc.
Context {S : Type} (get_bit : N -> S -> bool * S).

(** Descend until a one bit; [None] is the early return of zero. *)
Fixpoint descend (d : nat) (a : N) (st : S) : option (nat * N * S) :=
  let '(b, st) := get_bit a st in
  if b then Some (d, a, st)
  else match d with
       | O => None
       | Datatypes.S d => descend d (N.of_nat d) st
       end.

Fixpoint build_num (k : nat) (num a : N) (st : S) : N * N * S :=
  match k with
  | O => (num, a, st)
  | Datatypes.S k =>
      let '(b, st) := get_bit a st in
      build_num k (N.lor (N.shiftl num 1) (N.b2n b)) (a + FURC_SHIFT) st
  end.

Fixpoint furc_tries (tries : nat) (m : N) (d : nat) (a : N) (st : S) : N :=
  match tries with
  | O => 0
  | Datatypes.S tries =>
      match descend d a st with
      | None => 0
      | Some (d, a, st) =>
          let '(num, a, st) := build_num (d - 1) 1 (a + FURC_SHIFT) st in
          if num <? m then num else furc_tries tries m d a st
      end
  end.

Definition furc_with (m : N) (st : S) : N :=
  if m <=? 1 then 0
  else
    let d := depth_from 32 0 m in
    furc_tries MAX_TRIES m d (N.of_nat d) st.
End furc.

Definition furc_hash (key : list byte) (m : N) : N :=
  furc_with (furc_get_bit key) m (MkCache [] (-1)).

Definition LARGE_MODULUS : N := 8388607.

(** [u32::to_le_bytes] of FurcHash's result. *)
Definition fbi_hash (key : list byte) : N :=
  murmur_hash_64a (to_le_bytes (furc_hash key LARGE_MODULUS)) SEED.

(** ** Reference *)

(** The [n]-th word of the stream of a key. *)
Fixpoint word_at (key : list byte) (n : nat) : N :=
  match n with
  | O => murmur_hash_64a key SEED
  | S n => murmur_rehash_64a (word_at key n)
  end.

Definition bit_at (key : list byte) (idx : N) : bool :=
  N.testbit (word_at key (N.to_nat (idx / 64))) (idx mod 64).

(** FurcHash reading the stream itself. *)
Definition furc_ref (key : list byte) (m : N) : N :=
  furc_with (fun idx _ => (bit_at key idx, tt)) m tt.

(** The cache holds the words of the stream up to [old_ord]. *)
Definition cache_ok (key : list byte) (st : BitCache) : Prop :=
  (-1 <= old_ord st)%Z /\ hash_cache st = word_at key <$> seq 0 (Z.to_nat (old_ord st + 1)).

(** ** Lemmas *)

#[global] Opaque murmur_hash_64a murmur_rehash_64a.

Lemma cache_set_snoc v c : cache_set (length c) v c = c ++ [v].
Proof.
  unfold cache_set. rewrite (proj2 (Nat.leb_le _ _) (le_n _)).
  replace (length c + 1 - length c)%nat with 1%nat by lia. simpl.
  by rewrite insert_app_r_alt, Nat.sub_diag by lia.
Qed.

Lemma extend_cache_word key n :
  extend_cache key (word_at key <$> seq 0 n) (Z.of_nat n) = word_at key <$> seq 0 (S n).
Proof.
  unfold extend_cache. rewrite Nat2Z.id, seq_S, fmap_app. simpl.
  assert (length (word_at key <$> seq 0 n) = n) as Hlen by (by rewrite length_fmap, length_seq).
  replace (cache_set n) with (cache_set (length (word_at key <$> seq 0 n))) by (by rewrite Hlen).
  rewrite cache_set_snoc. do 2 f_equal. destruct n as [|n]; [done|].
  destruct (Z.eqb_spec (Z.of_nat (S n)) 0); [lia|].
  replace (Z.to_nat (Z.of_nat (S n) - 1)) with n by lia.
  assert (nth n (word_at key <$> seq 0 (S n)) 0 = word_at key n) as ->; [|done].
  apply nth_lookup_Some. by rewrite list_lookup_fmap, lookup_seq_lt by lia.
Qed.

Lemma extend_cache_run key n k :
  foldl (extend_cache key) (word_at key <$> seq 0 n) (seqZ (Z.of_nat n) (Z.of_nat k)) =
    word_at key <$> seq 0 (n + k).
Proof.
  revert n. induction k as [|k IH]; intros n; [by rewrite Nat.add_0_r|].
  rewrite seqZ_cons by lia. simpl. rewrite extend_cache_word.
  replace (Z.succ (Z.of_nat n)) with (Z.of_nat (S n)) by lia.
  replace (Z.pred (Z.of_nat (S k))) with (Z.of_nat k) by lia. rewrite IH. do 2 f_equal. lia.
Qed.

(** A cached bit is the bit of the stream, and the cache stays right. *)
Lemma furc_get_bit_spec key idx st : cache_ok key st ->
  (furc_get_bit key idx st).1 = bit_at key idx /\ cache_ok key (furc_get_bit key idx st).2.
Proof.
  intros [Hord Hcache]. unfold furc_get_bit, bit_at.
  assert (N.shiftr idx 6 = idx / 64) as Hshift by (by rewrite N.shiftr_div_pow2).
  assert (N.land idx 0x3f = idx mod 64) as Hland.
  { change 0x3f with (N.ones 6). by rewrite N.land_ones. }
  rewrite Hshift, Hland. set (o := N.to_nat (idx / 64)).
  assert (Z.of_N (idx / 64) = Z.of_nat o) as -> by (unfold o; lia).
  set (st' := if (old_ord st <? Z.of_nat o)%Z then _ else _).
  assert (cache_ok key st' /\ (Z.of_nat o <= old_ord st')%Z) as [Hok Hle].
  { unfold st'. destruct (Z.ltb_spec (old_ord st) (Z.of_nat o)); [|split; [done|lia]].
    split; [split; simpl; [lia|]|simpl; lia]. rewrite Hcache.
    replace (old_ord st + 1)%Z with (Z.of_nat (Z.to_nat (old_ord st + 1))) at 2 by lia.
    replace (Z.of_nat o - old_ord st)%Z with (Z.of_nat (Z.to_nat (Z.of_nat o - old_ord st))) by lia.
    rewrite extend_cache_run. do 2 f_equal. lia. }
  split; [|done]. simpl. f_equal. rewrite Nat2Z.id. destruct Hok as [_ ->].
  apply nth_lookup_Some. rewrite list_lookup_fmap, lookup_seq_lt by lia. done.
Qed.

(** The same algorithm over two bit sources that agree gives the same result. *)
Section simulation.
Context {S T : Type} (get1 : N -> S -> bool * S) (get2 : N -> T -> bool * T) (rel : S -> T -> Prop).
Context (Hget : forall idx s t, rel s t ->
  (get1 idx s).1 = (get2 idx t).1 /\ rel (get1 idx s).2 (get2 idx t).2).

Lemma descend_sim d a s t : rel s t ->
  match descend get1 d a s, descend get2 d a t with
  | Some (d1, a1, s'), Some (d2, a2, t') => d1 = d2 /\ a1 = a2 /\ rel s' t'
  | None, None => True
  | _, _ => False
  end.
Proof.
  revert a s t. induction d as [|d IH]; intros a s t Hr; simpl;
    destruct (Hget a s t Hr) as [H1 H2]; destruct (get1 a s) as [b1 s'], (get2 a t) as [b2 t'];
    simpl in *; subst; destruct b2; try done. by apply IH.
Qed.

Lemma build_num_sim k num a s t : rel s t ->
  (build_num get1 k num a s).1 = (build_num get2 k num a t).1 /\
  rel (build_num get1 k num a s).2 (build_num get2 k num a t).2.
Proof.
  revert num a s t. induction k as [|k IH]; intros num a s t Hr; simpl; [done|].
  destruct (Hget a s t Hr) as [H1 H2]. destruct (get1 a s) as [b1 s'], (get2 a t) as [b2 t'].
  simpl in *. subst. by apply IH.
Qed.

Lemma furc_tries_sim tries m d a s t : rel s t ->
  furc_tries get1 tries m d a s = furc_tries get2 tries m d a t.
Proof.
  revert d a s t. induction tries as [|tries IH]; intros d a s t Hr; simpl; [done|].
  pose proof (descend_sim d a s t Hr) as Hd.
  destruct (descend get1 d a s) as [[[d1 a1] s1]|], (descend get2 d a t) as [[[d2 a2] t1]|]; try done.
  destruct Hd as (-> & -> & Hr1).
  destruct (build_num_sim (d2 - 1) 1 (a2 + FURC_SHIFT) s1 t1 Hr1) as [H1 H2].
  destruct (build_num get1 _ _ _ s1) as [[n1 b1] s2], (build_num get2 _ _ _ t1) as [[n2 b2] t2].
  simpl in *. injection H1 as -> ->. destruct (n2 <? m); [done|]. by apply IH.
Qed.

Lemma furc_with_sim m s t : rel s t -> furc_with get1 m s = furc_with get2 m t.
Proof. intros Hr. unfold furc_with. destruct (m <=? 1); [done|]. by apply furc_tries_sim. Qed.
End simulation.

Lemma furc_tries_lt {S} (get : N -> S -> bool * S) tries m d a s : 0 < m ->
  furc_tries get tries m d a s < m.
Proof.
  intros Hm. revert d a s. induction tries as [|tries IH]; intros d a s; simpl; [done|].
  destruct (descend get d a s) as [[[? ?] ?]|]; [|done].
  destruct (build_num get _ _ _ _) as [[num ?] ?]. destruct (N.ltb_spec num m); [done|apply IH].
Qed.

(** ** Properties *)

(** FurcHash's cache is transparent and its result in range.  For every key
    and modulus, the hash computed through the cache is the one computed from
    the bit stream itself, and it is below the modulus. *)
Theorem furc_cache_transparent key m :
  furc_hash key m = furc_ref key m /\ furc_hash key m < N.max 1 m.
Proof.
  split.
  - apply (furc_with_sim _ _ (fun st _ => cache_ok key st)).
    + intros idx st [] Hok. apply (furc_get_bit_spec key idx st Hok).
    + done.
  - unfold furc_hash, furc_with. destruct (N.leb_spec m 1) as [|Hm]; [lia|].
    eapply N.lt_le_trans; [apply furc_tries_lt; lia|lia].
Qed.
