(* ===== verification/HashKey.v ===== *)
(** * Routing keys of requests ([src/policies/hash_key.rs])

    The key that the hashing policies route by: a session header, a field of the
    body found by a scan that is not a JSON parser, or the body itself.  Text is
    UTF-8 bytes; positions are byte positions.  A header map is from lower-case
    names to values. *)

From S2P Require Import Prelude KvTypes TextDecode Hashing.

Abbreviation RequestHeaders := (gmap string text).

(** ** Characters *)

Definition quote : byte := x22.
Definition apostrophe : byte := x27.
Definition colon : byte := x3a.
Definition open_brace : byte := x7b.
Definition close_brace : byte := x7d.

(** [char::is_whitespace]: how many bytes the whitespace character at the head
    of the text takes, zero when there is none. *)
Definition whitespace_len (t : text) : nat :=
  match t with
  | (x09 | x0a | x0b | x0c | x0d | x20) :: _ => 1
  | xc2 :: (x85 | xa0) :: _ => 2
  | xe1 :: x9a :: x80 :: _ => 3
  | xe2 :: x80 :: (x80 | x81 | x82 | x83 | x84 | x85 | x86 | x87 | x88 | x89 | x8a
                   | xa8 | xa9 | xaf) :: _ => 3
  | xe2 :: x81 :: x9f :: _ => 3
  | xe3 :: x80 :: x80 :: _ => 3
  | _ => 0
  end.

(** The position of a colon that only whitespace precedes; every round consumes
    a character, so the length is fuel enough. *)
Fixpoint colon_position (fuel : nat) (t : text) : option nat :=
  match fuel, t with
  | S fuel, b :: _ =>
      if Byte.eqb b colon then Some 0
      else match whitespace_len t with
           | O => None
           | n => (fun i => n + i) <$> colon_position fuel (drop n t)
           end
  | _, _ => None
  end.

(** [str::trim_start] *)
Fixpoint trim_start (fuel : nat) (t : text) : text :=
  match fuel, whitespace_len t with
  | S fuel, S n => trim_start fuel (drop (S n) t)
  | _, _ => t
  end.

(** [str::find] of one of several ASCII characters. *)
Fixpoint find_any (cs : list byte) (t : text) : option nat :=
  match t with
  | [] => None
  | b :: t => if existsb (Byte.eqb b) cs then Some 0 else S <$> find_any cs t
  end.

Definition delimiters : list byte := [x2c; x20; x7d; x5d; x0a; x0d; x09].

(** [format!("{:016x}", n)] *)
Definition hex16 (n : N) : text :=
  (fun i => byte_of_ascii (hex_digit (N.shiftr n (4 * i) mod 16))) <$>
    [15; 14; 13; 12; 11; 10; 9; 8; 7; 6; 5; 4; 3; 2; 1; 0]%N.

(** ** Fields of the body *)

Definition quoted (q : byte) (field_name : text) : text := [q] ++ field_name ++ [q].

(** The body of the loop over the patterns: the position after the colon. *)
Definition field_start (t pattern : text) : option nat :=
  match find pattern t with
  | Some field_pos =>
      let after_field := drop (field_pos + length pattern) t in
      (fun i => field_pos + length pattern + i + 1) <$> colon_position (length after_field) after_field
  | None => None
  end.

Fixpoint first_some {A B} (f : A -> option B) (l : list A) : option B :=
  match l with
  | [] => None
  | x :: l => match f x with Some y => Some y | None => first_some f l end
  end.

Definition find_field_start (t field_name : text) : option nat :=
  first_some (field_start t) [quoted quote field_name; quoted apostrophe field_name].

(** The loop of [extract_json_object]: the position after the brace that closes
    the first one. *)
Fixpoint closing_brace (i : nat) (count : Z) (t : text) : option nat :=
  match t with
  | [] => None
  | b :: t =>
      if Byte.eqb b open_brace then closing_brace (S i) (count + 1) t
      else if Byte.eqb b close_brace then
        if (count - 1 =? 0)%Z then Some (S i) else closing_brace (S i) (count - 1) t
      else closing_brace (S i) count t
  end.

Definition extract_json_object (t : text) : option text :=
  if negb (starts_with t [open_brace]) then None
  else (fun end_pos => take end_pos t) <$> closing_brace 0 0 t.

(** The text of a quoted value. *)
Definition until_quote (q : byte) (t : text) : option text :=
  (fun end_quote => take end_quote t) <$> find [q] t.

(** The body of the loop of [extract_field_value]. *)
Definition field_value (t pattern : text) : option text :=
  match find pattern t with
  | None => None
  | Some field_pos =>
      let after_field := drop (field_pos + length pattern) t in
      match colon_position (length after_field) after_field with
      | None => None
      | Some colon_idx =>
          let after_colon := drop (colon_idx + 1) after_field in
          let trimmed := trim_start (length after_colon) after_colon in
          if starts_with trimmed [quote] then until_quote quote (drop 1 trimmed)
          else if starts_with trimmed [apostrophe] then until_quote apostrophe (drop 1 trimmed)
          else
            let end_pos := default (length trimmed) (find_any delimiters trimmed) in
            if 0 <? end_pos then Some (take end_pos trimmed) else None
      end
  end.

Definition extract_field_value (t field_name : text) : option text :=
  first_some (field_value t) [quoted quote field_name; quoted apostrophe field_name; field_name].

Definition extract_nested_field_value (t parent_field child_field : text) : option text :=
  match find_field_start t parent_field with
  | Some parent_start =>
      match find [open_brace] (drop parent_start t) with
      | Some obj_start =>
          match extract_json_object (drop (parent_start + obj_start) t) with
          | Some obj_content => extract_field_value obj_content child_field
          | None => None
          end
      | None => None
      end
  | None => None
  end.

(** ** Keys *)

Definition SESSION_HEADER_NAMES : list string :=
  ["x-session-id"; "x-user-id"; "x-tenant-id"; "x-correlation-id"; "x-request-id"; "x-trace-id"].

Definition header_key (headers : RequestHeaders) (header_name : string) : option text :=
  match headers !! header_name with
  | Some [] | None => None
  | Some value => Some (as_bytes "header:" ++ as_bytes header_name ++ [colon] ++ value)
  end.

Definition extract_hash_key_from_headers (headers : RequestHeaders) : option text :=
  first_some (header_key headers) SESSION_HEADER_NAMES.

Definition extract_hash_key_from_body (request_text : option text) : option text :=
  match default [] request_text with
  | [] => None
  | t =>
      match extract_nested_field_value t (as_bytes "session_params") (as_bytes "session_id") with
      | Some session_id => Some (as_bytes "session:" ++ session_id)
      | None =>
          match extract_field_value t (as_bytes "user") with
          | Some user => Some (as_bytes "user:" ++ user)
          | None =>
              match extract_field_value t (as_bytes "session_id") with
              | Some session_id => Some (as_bytes "session:" ++ session_id)
              | None =>
                  match extract_field_value t (as_bytes "user_id") with
                  | Some user_id => Some (as_bytes "user:" ++ user_id)
                  | None => None
                  end
              end
          end
      end
  end.

Definition extract_hash_key (request_text : option text) (headers : option RequestHeaders) : text :=
  match headers ≫= extract_hash_key_from_headers with
  | Some key => key
  | None =>
      match extract_hash_key_from_body request_text with
      | Some key => key
      | None =>
          let t := default [] request_text in
          if 100 <? length t then as_bytes "request_hash:" ++ hex16 (fbi_hash t)
          else as_bytes "request:" ++ t
      end
  end.

(** A body with a quoted field: spaces may surround the colon. *)
Definition body_with_field (pre name : text) (k1 k2 : nat) (value post : text) : text :=
  pre ++ quoted quote name ++ replicate k1 x20 ++ [colon] ++ replicate k2 x20 ++
    quoted quote value ++ post.

(** ** Lemmas *)

Lemma colon_position_spaces fuel k rest : k < fuel ->
  colon_position fuel (replicate k x20 ++ [colon] ++ rest) = Some k.
Proof.
  revert fuel. induction k as [|k IH]; intros [|fuel] Hf; [lia|done|lia|]. simpl.
  change (drop 0 (replicate k x20 ++ colon :: rest)) with (replicate k x20 ++ [colon] ++ rest).
  rewrite IH by lia. done.
Qed.

Lemma trim_start_spaces fuel k rest : k <= fuel -> whitespace_len rest = 0 ->
  trim_start fuel (replicate k x20 ++ rest) = rest.
Proof.
  revert fuel. induction k as [|k IH]; intros fuel Hf Hw; simpl.
  - destruct fuel; simpl; [done|]. by rewrite Hw.
  - destruct fuel as [|fuel]; [lia|]. simpl. apply IH; [lia|done].
Qed.

Lemma find_byte q v rest : q ∉ v -> find [q] (v ++ q :: rest) = Some (length v).
Proof.
  induction v as [|b v IH]; intros Hv; simpl.
  - unfold starts_with. simpl. by rewrite bool_decide_eq_true_2.
  - apply not_elem_of_cons in Hv as [Hb Hv]. unfold starts_with at 1. simpl.
    rewrite take_0, bool_decide_eq_false_2 by congruence. by rewrite IH.
Qed.

Lemma drop_found (pre pat rest : text) : drop (length pre + length pat) (pre ++ pat ++ rest) = rest.
Proof. by rewrite (assoc_L (++)), <- length_app, drop_app_length. Qed.

(** ** Properties *)

(** A quoted field of the body is read back.  When the first occurrence of a
    quoted field name is followed by a colon and a quoted value, with any spaces
    around the colon, [extract_field_value] returns that value whole. *)
Theorem field_roundtrip pre name k1 k2 value post : quote ∉ value ->
  find (quoted quote name) (body_with_field pre name k1 k2 value post) = Some (length pre) ->
  extract_field_value (body_with_field pre name k1 k2 value post) name = Some value.
Proof.
  intros Hv Hfind. unfold extract_field_value, first_some, field_value. rewrite Hfind.
  unfold body_with_field. rewrite drop_found.
  rewrite colon_position_spaces by (rewrite length_app, length_replicate; simpl; lia).
  replace (k1 + 1) with (length (replicate k1 x20) + length [colon]) by (rewrite length_replicate; done).
  rewrite drop_found.
  rewrite trim_start_spaces; [|rewrite length_app, length_replicate; lia|done].
  unfold quoted, starts_with. rewrite <- !(assoc_L (++)). simpl.
  unfold until_quote. rewrite drop_0, find_byte by done. simpl. by rewrite take_app_length.
Qed.

Lemma field_roundtrip_witness :
  extract_field_value (body_with_field (as_bytes "{") (as_bytes "user") 1 2 (as_bytes "alice") (as_bytes "}"))
    (as_bytes "user") = Some (as_bytes "alice").
Proof.
  apply field_roundtrip; [|vm_compute; reflexivity].
  apply (bool_decide_eq_true_1 _). vm_refl.
Defined.
