(* ===== verification/Policies.v ===== *)
(** * Routing policies ([src/policies/]: [mod.rs], [round_robin.rs],
    [random.rs], [power_of_two.rs], [consistent_hash.rs], [rendezvous_hash.rs])

    A policy picks the index of a worker for a request.  The trait is the class
    [LoadBalancingPolicy]; each policy's state is a record and [AnyPolicy] is the
    trait object.  Picking asks the workers' breakers, which may move them, and
    counts the request at some workers, so it returns the workers as well.  The
    clock readings and the random numbers of a call are its [Env]; a call that
    draws more numbers than the environment holds has no result.  A [BTreeMap]
    is an association list in increasing order of keys.  The cache-aware and the
    KV-aware policies have files of their own; metrics and logs are left out. *)

From S2P Require Import Prelude KvTypes TextDecode CircuitBreaker WorkerUrl Worker Hashing HashKey.
From stdpp Require Import pretty.
From Stdlib Require Import Strings.Ascii.

(** ** The trait *)

(** [now] is read when the workers are filtered, [later] when the chosen one is
    asked again. *)
Record Env := MkEnv {
  now : N;
  later : N;
  draws : list nat;
}.

Abbreviation selection P := (option (option nat * list AnyWorker * P)).

Class LoadBalancingPolicy (P : Type) := {
  select_worker_with_headers :
    Env -> list AnyWorker -> option text -> option RequestHeaders -> P -> selection P;
  name : P -> string;
  needs_request_text : P -> bool;
  needs_headers : P -> bool;
  update_loads : gmap string Z -> P -> P;
  reset : P -> P;
}.

Section trait.
Context `{LoadBalancingPolicy P}.

Definition select_worker (e : Env) (ws : list AnyWorker) (request_text : option text) (p : P)
  : selection P := select_worker_with_headers e ws request_text None p.

(** The two pools are asked one after the other, each with its own readings. *)
Definition select_worker_pair_with_headers (e1 e2 : Env) (prefill_ws decode_ws : list AnyWorker)
    (request_text : option text) (headers : option RequestHeaders) (p : P)
  : option (option (nat * nat) * list AnyWorker * list AnyWorker * P) :=
  match select_worker_with_headers e1 prefill_ws request_text headers p with
  | None => None
  | Some (None, prefill_ws, p) => Some (None, prefill_ws, decode_ws, p)
  | Some (Some prefill_idx, prefill_ws, p) =>
      match select_worker_with_headers e2 decode_ws request_text headers p with
      | None => None
      | Some (decode_idx, decode_ws, p) =>
          Some ((fun d => (prefill_idx, d)) <$> decode_idx, prefill_ws, decode_ws, p)
      end
  end.
End trait.

(** ** Helpers *)

(** The indices of the available workers, from [i] on. *)
Fixpoint healthy_from (i : nat) (now : N) (ws : list AnyWorker) : list nat * list AnyWorker :=
  match ws with
  | [] => ([], [])
  | w :: ws =>
      let '(ok, w) := is_available now w in
      let '(l, ws) := healthy_from (S i) now ws in
      (if ok then i :: l else l, w :: ws)
  end.

Definition get_healthy_worker_indices (now : N) (ws : list AnyWorker) : list nat * list AnyWorker :=
  healthy_from 0 now ws.

Definition normalize_model_key (model_id : string) : string :=
  if decide (model_id = "") then "default"
  else if decide (model_id = "unknown") then "default"
  else model_id.

(** [workers[idx].increment_processed()] *)
Definition count_request (idx : nat) (ws : list AnyWorker) : list AnyWorker :=
  alter increment_processed idx ws.

(** ** Round robin *)

Record RoundRobinPolicy := MkRoundRobin { counter : N (* AtomicUsize *) }.

Definition new_round_robin : RoundRobinPolicy := MkRoundRobin 0.

Definition round_robin_select (e : Env) (ws : list AnyWorker) (p : RoundRobinPolicy)
  : selection RoundRobinPolicy :=
  let '(healthy_indices, ws) := get_healthy_worker_indices (now e) ws in
  match healthy_indices with
  | [] => Some (None, ws, p)
  | _ =>
      let count := counter p in
      let selected_idx := N.to_nat (count mod N.of_nat (length healthy_indices)) in
      Some (healthy_indices !! selected_idx, ws, MkRoundRobin (u64_wrapping_add count 1))
  end.

Definition round_robin_policy : LoadBalancingPolicy RoundRobinPolicy := {|
  select_worker_with_headers e ws _ _ p := round_robin_select e ws p;
  name _ := "round_robin";
  needs_request_text _ := false;
  needs_headers _ := false;
  update_loads _ p := p;
  reset _ := MkRoundRobin 0;
|}.

#[export] Existing Instance round_robin_policy.

(** ** Random *)

Inductive RandomPolicy := MkRandom.

(** A draw is any number, reduced to the range that is asked for. *)
Definition random_range (n draw : nat) : nat := draw mod n.

Definition random_select (e : Env) (ws : list AnyWorker) (p : RandomPolicy) : selection RandomPolicy :=
  let '(healthy_indices, ws) := get_healthy_worker_indices (now e) ws in
  match healthy_indices, draws e with
  | [], _ => Some (None, ws, p)
  | _, [] => None
  | _, d :: _ => Some (healthy_indices !! random_range (length healthy_indices) d, ws, p)
  end.

Definition random_policy : LoadBalancingPolicy RandomPolicy := {|
  select_worker_with_headers e ws _ _ p := random_select e ws p;
  name _ := "random";
  needs_request_text _ := false;
  needs_headers _ := false;
  update_loads _ p := p;
  reset p := p;
|}.

#[export] Existing Instance random_policy.

(** ** Power of two choices *)

Record PowerOfTwoPolicy := MkPowerOfTwo { cached_loads : gmap string Z (* isize *) }.

Definition new_power_of_two : PowerOfTwoPolicy := MkPowerOfTwo ∅.

Definition get_worker_load (p : PowerOfTwoPolicy) (w : AnyWorker) : Z :=
  default (as_isize (load w)) (cached_loads p !! url w).

(** [while idx2 == idx1] *)
Fixpoint draw_other (n idx1 : nat) (draws : list nat) : option nat :=
  match draws with
  | [] => None
  | d :: draws => if random_range n d =? idx1 then draw_other n idx1 draws else Some (random_range n d)
  end.

Definition power_of_two_select (e : Env) (ws : list AnyWorker) (p : PowerOfTwoPolicy)
  : selection PowerOfTwoPolicy :=
  let '(healthy_indices, ws) := get_healthy_worker_indices (now e) ws in
  match healthy_indices with
  | [] => Some (None, ws, p)
  | [i] => Some (Some i, ws, p)
  | _ =>
      let n := length healthy_indices in
      match draws e with
      | [] => None
      | d :: draws =>
          let idx1 := random_range n d in
          match draw_other n idx1 draws with
          | None => None
          | Some idx2 =>
              match healthy_indices !! idx1, healthy_indices !! idx2 with
              | Some worker_idx1, Some worker_idx2 =>
                  match ws !! worker_idx1, ws !! worker_idx2 with
                  | Some w1, Some w2 =>
                      let selected_idx :=
                        if (get_worker_load p w1 <=? get_worker_load p w2)%Z
                        then worker_idx1 else worker_idx2 in
                      Some (Some selected_idx, count_request selected_idx ws, p)
                  | _, _ => None
                  end
              | _, _ => None
              end
          end
      end
  end.

Definition power_of_two_policy : LoadBalancingPolicy PowerOfTwoPolicy := {|
  select_worker_with_headers e ws _ _ p := power_of_two_select e ws p;
  name _ := "power_of_two";
  needs_request_text _ := false;
  needs_headers _ := false;
  update_loads loads _ := MkPowerOfTwo loads;
  reset p := p;
|}.

#[export] Existing Instance power_of_two_policy.

(** ** Consistent hashing *)

Definition VIRTUAL_NODES_PER_WORKER : N := 160.

Abbreviation ring := (list (N * string)).

Record ConsistentHashPolicy := MkConsistent {
  hash_ring : ring;
  current_workers : list string;
}.

Definition new_consistent : ConsistentHashPolicy := MkConsistent [] [].

(** [BTreeMap::insert] *)
Fixpoint ring_insert (h : N) (u : string) (r : ring) : ring :=
  match r with
  | [] => [(h, u)]
  | (h', u') :: r =>
      if (h <? h')%N then (h, u) :: (h', u') :: r
      else if (h =? h')%N then (h, u) :: r
      else (h', u') :: ring_insert h u r
  end.

(** The points of one worker. *)
Definition virtual_points (nodes : N) (u : string) : list N :=
  (fun i => fbi_hash (as_bytes (u +:+ ":" +:+ pretty i))) <$> ranks nodes.

Definition add_worker_points (nodes : N) (r : ring) (u : string) : ring :=
  foldl (fun r h => ring_insert h u r) r (virtual_points nodes u).

Definition build_ring (nodes : N) (worker_urls : list string) : ring :=
  foldl (add_worker_points nodes) [] worker_urls.

Definition update_hash_ring (ws : list AnyWorker) (p : ConsistentHashPolicy) : ConsistentHashPolicy :=
  let worker_urls := url <$> ws in
  if bool_decide (current_workers p = worker_urls) then p
  else MkConsistent (build_ring VIRTUAL_NODES_PER_WORKER worker_urls) worker_urls.

(** [range(h..).next()] *)
Fixpoint ring_next (h : N) (r : ring) : option (N * string) :=
  match r with
  | [] => None
  | (h', u) :: r => if (h <=? h')%N then Some (h', u) else ring_next h r
  end.

Definition ring_owner (h : N) (r : ring) : option string :=
  snd <$> match ring_next h r with Some e => Some e | None => head r end.

Definition find_worker_by_hash (hash_key : text) (p : ConsistentHashPolicy) : option string :=
  ring_owner (fbi_hash hash_key) (hash_ring p).

Definition extract_dp_info (worker_url : string) : string * option N :=
  if has_char "@"%char worker_url then
    match str_split "@"%char worker_url with
    | [base; rank] =>
        match parse_usize rank with
        | Some dp_rank => (base, Some dp_rank)
        | None => (worker_url, None)
        end
    | _ => (worker_url, None)
    end
  else (worker_url, None).

(** [Iterator::position] *)
Fixpoint position (f : AnyWorker -> bool) (ws : list AnyWorker) : option nat :=
  match ws with
  | [] => None
  | w :: ws => if f w then Some 0 else S <$> position f ws
  end.

(** The worker a ring entry stands for. *)
Definition target_index (target_worker_url : string) (ws : list AnyWorker) : option nat :=
  let '(base_url, dp_rank) := extract_dp_info target_worker_url in
  match dp_rank with
  | Some _ => position (fun w => bool_decide (url w = target_worker_url)) ws
  | None => position (fun w => bool_decide ((extract_dp_info (url w)).1 = base_url)) ws
  end.

Definition consistent_select (e : Env) (ws : list AnyWorker) (request_text : option text)
    (headers : option RequestHeaders) (p : ConsistentHashPolicy) : selection ConsistentHashPolicy :=
  let '(healthy_indices, ws) := get_healthy_worker_indices (now e) ws in
  match healthy_indices with
  | [] => Some (None, ws, p)
  | fallback_idx :: _ =>
      let p := update_hash_ring ws p in
      let hash_key := extract_hash_key request_text headers in
      match find_worker_by_hash hash_key p with
      | None => Some (Some fallback_idx, ws, p)
      | Some target_worker_url =>
          match target_index target_worker_url ws with
          | None => Some (Some fallback_idx, count_request fallback_idx ws, p)
          | Some idx =>
              match ws !! idx with
              | None => None
              | Some w =>
                  let '(ok, w) := is_available (later e) w in
                  let ws := <[idx := w]> ws in
                  let idx := if ok then idx else fallback_idx in
                  Some (Some idx, count_request idx ws, p)
              end
          end
      end
  end.

Definition consistent_hash_policy : LoadBalancingPolicy ConsistentHashPolicy := {|
  select_worker_with_headers := consistent_select;
  name _ := "consistent_hash";
  needs_request_text _ := true;
  needs_headers _ := true;
  update_loads _ p := p;
  reset _ := MkConsistent [] [];
|}.

#[export] Existing Instance consistent_hash_policy.

(** ** Rendezvous hashing *)

Inductive RendezvousHashPolicy := MkRendezvous.

(** [max_by_key]: of equal maxima the last. *)
Fixpoint max_by_key (score : nat -> N) (l : list nat) : option nat :=
  match l with
  | [] => None
  | i :: l =>
      match max_by_key score l with
      | Some j => if (score j <? score i)%N then Some i else Some j
      | None => Some i
      end
  end.

(** The score of a worker for a key. *)
Definition rendezvous_score (hash_key : text) (u : string) : N :=
  fbi_hash (hash_key ++ [colon] ++ as_bytes u).

Definition score_at (hash_key : text) (ws : list AnyWorker) (idx : nat) : N :=
  match ws !! idx with Some w => rendezvous_score hash_key (url w) | None => 0 end.

Definition rendezvous_select (e : Env) (ws : list AnyWorker) (request_text : option text)
    (headers : option RequestHeaders) (p : RendezvousHashPolicy) : selection RendezvousHashPolicy :=
  let '(healthy_indices, ws) := get_healthy_worker_indices (now e) ws in
  match healthy_indices with
  | [] => Some (None, ws, p)
  | _ =>
      let hash_key := extract_hash_key request_text headers in
      match max_by_key (score_at hash_key ws) healthy_indices with
      | Some selected_idx => Some (Some selected_idx, count_request selected_idx ws, p)
      | None => None
      end
  end.

Definition rendezvous_hash_policy : LoadBalancingPolicy RendezvousHashPolicy := {|
  select_worker_with_headers := rendezvous_select;
  name _ := "rendezvous_hash";
  needs_request_text _ := true;
  needs_headers _ := true;
  update_loads _ p := p;
  reset p := p;
|}.

#[export] Existing Instance rendezvous_hash_policy.

(** ** Trait objects *)

Inductive AnyPolicy :=
| RoundRobin (p : RoundRobinPolicy)
| Random (p : RandomPolicy)
| PowerOfTwo (p : PowerOfTwoPolicy)
| ConsistentHash (p : ConsistentHashPolicy)
| RendezvousHash (p : RendezvousHashPolicy).

Definition lift_selection {P} (f : P -> AnyPolicy) (s : selection P) : selection AnyPolicy :=
  (fun r => (r.1, f r.2)) <$> s.

Definition any_policy : LoadBalancingPolicy AnyPolicy := {|
  select_worker_with_headers e ws t h p := match p with
    | RoundRobin p => lift_selection RoundRobin (select_worker_with_headers e ws t h p)
    | Random p => lift_selection Random (select_worker_with_headers e ws t h p)
    | PowerOfTwo p => lift_selection PowerOfTwo (select_worker_with_headers e ws t h p)
    | ConsistentHash p => lift_selection ConsistentHash (select_worker_with_headers e ws t h p)
    | RendezvousHash p => lift_selection RendezvousHash (select_worker_with_headers e ws t h p)
    end;
  name p := match p with
    | RoundRobin p => name p | Random p => name p | PowerOfTwo p => name p
    | ConsistentHash p => name p | RendezvousHash p => name p end;
  needs_request_text p := match p with
    | RoundRobin p => needs_request_text p | Random p => needs_request_text p
    | PowerOfTwo p => needs_request_text p | ConsistentHash p => needs_request_text p
    | RendezvousHash p => needs_request_text p end;
  needs_headers p := match p with
    | RoundRobin p => needs_headers p | Random p => needs_headers p
    | PowerOfTwo p => needs_headers p | ConsistentHash p => needs_headers p
    | RendezvousHash p => needs_headers p end;
  update_loads l p := match p with
    | RoundRobin p => RoundRobin (update_loads l p) | Random p => Random (update_loads l p)
    | PowerOfTwo p => PowerOfTwo (update_loads l p)
    | ConsistentHash p => ConsistentHash (update_loads l p)
    | RendezvousHash p => RendezvousHash (update_loads l p) end;
  reset p := match p with
    | RoundRobin p => RoundRobin (reset p) | Random p => Random (reset p)
    | PowerOfTwo p => PowerOfTwo (reset p) | ConsistentHash p => ConsistentHash (reset p)
    | RendezvousHash p => RendezvousHash (reset p) end;
|}.

#[export] Existing Instance any_policy.

(** ** Specification *)

Definition available_at (t : N) (w : AnyWorker) : bool := (is_available t w).1.

(** Enough random numbers for any policy to pick among [n] workers. *)
Definition enough_draws (e : Env) (n : nat) : Prop :=
  n = 0 \/ exists d ds, draws e = d :: ds /\
    (n = 1 \/ Exists (fun d' => random_range n d' <> random_range n d) ds).

(** What a policy may answer. *)
Definition good_pick (e : Env) (ws : list AnyWorker) (r : option nat) : Prop :=
  match r with
  | Some i => exists w, ws !! i = Some w /\
      (available_at (now e) w = true \/ available_at (later e) (is_available (now e) w).2 = true)
  | None => Forall (fun w => available_at (now e) w = false) ws
  end.

(** A worker whose availability is its health, now and later: it is unhealthy
    or its breaker is closed. *)
Definition steady (w : AnyWorker) : Prop :=
  is_healthy w = false \/ cb_state (circuit_breaker w) = Closed.

(** Round robin for a sequence of requests: the indices it picks. *)
Fixpoint round_robin_picks (es : list Env) (ws : list AnyWorker) (p : RoundRobinPolicy) : list (option nat) :=
  match es with
  | [] => []
  | e :: es =>
      match round_robin_select e ws p with
      | Some (i, ws, p) => i :: round_robin_picks es ws p
      | None => []
      end
  end.

(** The indices of the healthy workers. *)
Fixpoint healthy_positions (i : nat) (ws : list AnyWorker) : list nat :=
  match ws with
  | [] => []
  | w :: ws => if is_healthy w then i :: healthy_positions (S i) ws else healthy_positions (S i) ws
  end.

(** The worker at a point of the ring: the last one that has the point. *)
Definition point_owner (nodes x : N) (worker_urls : list string) : option string :=
  last (filter (fun u => x ∈ virtual_points nodes u) worker_urls).

Definition ring_sorted (r : ring) : Prop := StronglySorted N.lt r.*1.

(** The ring is the one of the workers it was built for. *)
Definition ring_ok (p : ConsistentHashPolicy) : Prop :=
  hash_ring p = build_ring VIRTUAL_NODES_PER_WORKER (current_workers p).

(** The best URL for a key: the last of those with the highest score. *)
Fixpoint best_url (hash_key : text) (urls : list string) : option string :=
  match urls with
  | [] => None
  | u :: urls =>
      match best_url hash_key urls with
      | Some v => if (rendezvous_score hash_key v <? rendezvous_score hash_key u)%N then Some u else Some v
      | None => Some u
      end
  end.

(** The URLs of the available workers. *)
Definition available_urls (t : N) (ws : list AnyWorker) : list string :=
  url <$> filter (fun w => available_at t w = true) ws.

(** The URL of the worker that was picked. *)
Definition picked_url {P} (ws : list AnyWorker) (s : selection P) : option string :=
  match s with
  | Some (Some i, _, _) => url <$> ws !! i
  | _ => None
  end.

(** ** Lemmas: availability *)

#[global] Opaque fbi_hash.

Lemma healthy_from_workers i t ws : (healthy_from i t ws).2 = (fun w => (is_available t w).2) <$> ws.
Proof.
  revert i. induction ws as [|w ws IH]; intros i; [done|]. simpl healthy_from. rewrite fmap_cons.
  destruct (is_available t w) as [ok w']. specialize (IH (S i)).
  destruct (healthy_from (S i) t ws) as [l ws']. simpl in *. by rewrite IH.
Qed.

Lemma healthy_from_elem i t ws k : k ∈ (healthy_from i t ws).1 <->
  exists j w, k = i + j /\ ws !! j = Some w /\ available_at t w = true.
Proof.
  revert i. induction ws as [|w ws IH]; intros i; simpl healthy_from.
  { split; [by intros ?%elem_of_nil|]. by intros (? & ? & _ & ? & _). }
  assert (((exists j w', k = S i + j /\ ws !! j = Some w' /\ available_at t w' = true)) <->
    exists j w', k = i + S j /\ ws !! j = Some w' /\ available_at t w' = true) as Hs.
  { split; intros (j & w' & -> & ? & ?); exists j, w'; split_and!; done || lia. }
  specialize (IH (S i)). rewrite Hs in IH. clear Hs.
  assert (available_at t w = (is_available t w).1) as Ha by done.
  destruct (is_available t w) as [ok w'']. destruct (healthy_from (S i) t ws) as [l ws']. simpl in *.
  destruct ok; rewrite ?elem_of_cons, IH; split.
  - intros [->|(j & w' & -> & ? & ?)]; [exists 0, w; split_and!; done || lia|]. by exists (S j), w'.
  - intros ([|j] & w' & -> & Hj & Hok); [left; lia|right]. by exists j, w'.
  - intros (j & w' & -> & ? & ?). by exists (S j), w'.
  - intros ([|j] & w' & -> & Hj & Hok); simplify_eq/=; [congruence|]. by exists j, w'.
Qed.

Lemma healthy_elem t ws k : k ∈ (get_healthy_worker_indices t ws).1 <->
  exists w, ws !! k = Some w /\ available_at t w = true.
Proof.
  unfold get_healthy_worker_indices. rewrite healthy_from_elem. split.
  - intros (j & w & -> & ? & ?). eauto.
  - intros (w & ? & ?). by exists k, w.
Qed.

Lemma healthy_none t ws : (get_healthy_worker_indices t ws).1 = [] ->
  Forall (fun w => available_at t w = false) ws.
Proof.
  intros E. apply Forall_forall. intros w [k Hk]%list_elem_of_lookup.
  destruct (available_at t w) eqn:Ha; [|done].
  assert (k ∈ (get_healthy_worker_indices t ws).1) as Hin by (apply healthy_elem; eauto).
  rewrite E in Hin. by apply elem_of_nil in Hin.
Qed.

Lemma healthy_workers_after t ws : (get_healthy_worker_indices t ws).2 = (fun w => (is_available t w).2) <$> ws.
Proof. apply healthy_from_workers. Qed.

(** Asking for availability keeps everything but the breaker. *)
Lemma available_metadata t w : metadata (is_available t w).2 = metadata w.
Proof. unfold is_available. destruct (is_healthy w); [|done]. by destruct w. Qed.

(** ** Lemmas: every policy picks an available worker *)

Lemma good_pick_healthy e ws i : i ∈ (get_healthy_worker_indices (now e) ws).1 -> good_pick e ws (Some i).
Proof. intros (w & ? & ?)%healthy_elem. exists w. auto. Qed.

Lemma good_pick_none e ws : (get_healthy_worker_indices (now e) ws).1 = [] -> good_pick e ws None.
Proof. apply healthy_none. Qed.

Lemma lookup_lt_elem {A} (l : list A) i : i < length l -> exists x, l !! i = Some x /\ x ∈ l.
Proof.
  intros Hi. destruct (lookup_lt_is_Some_2 l i Hi) as [x Hx]. exists x. split; [done|].
  by apply list_elem_of_lookup_2 in Hx.
Qed.

(** The call returns an answer that is good by [H]. *)
Ltac answer H := eexists _, _, _; split; [done|by apply H].

Lemma round_robin_good e ws p : exists r ws' p',
  round_robin_select e ws p = Some (r, ws', p') /\ good_pick e ws r.
Proof.
  unfold round_robin_select. pose proof (good_pick_healthy e ws) as Hh. pose proof (good_pick_none e ws) as Hn.
  destruct (get_healthy_worker_indices (now e) ws) as [l ws']. simpl in *.
  destruct l as [|i l]; [answer Hn|]. set (l' := i :: l) in *.
  destruct (lookup_lt_elem l' (N.to_nat (counter p mod N.of_nat (length l')))) as (x & Hx & Hin).
  { assert (counter p mod N.of_nat (length l') < N.of_nat (length l'))%N; [|lia].
    apply N.mod_lt. simpl. lia. }
  rewrite Hx. eexists _, _, _. split; [done|]. by apply Hh.
Qed.

Lemma random_good e ws p : enough_draws e (length (get_healthy_worker_indices (now e) ws).1) ->
  exists r ws' p', random_select e ws p = Some (r, ws', p') /\ good_pick e ws r.
Proof.
  unfold random_select. pose proof (good_pick_healthy e ws) as Hh. pose proof (good_pick_none e ws) as Hn.
  destruct (get_healthy_worker_indices (now e) ws) as [l ws']. simpl in *. intros Hd.
  destruct l as [|i l]; [answer Hn|]. destruct Hd as [?|(d & ds & -> & _)]; [done|]. set (l' := i :: l) in *.
  destruct (lookup_lt_elem l' (random_range (length l') d)) as (x & Hx & Hin).
  { apply Nat.mod_upper_bound. done. }
  rewrite Hx. eexists _, _, _. split; [done|]. by apply Hh.
Qed.

Lemma draw_other_spec n i ds : Exists (fun d => random_range n d <> i) ds ->
  exists j, draw_other n i ds = Some j /\ j <> i /\ exists d, j = random_range n d.
Proof.
  induction 1 as [d ds Hd|d ds _ IH]; simpl; destruct (Nat.eqb_spec (random_range n d) i); eauto 6.
  done.
Qed.

Lemma power_of_two_good e ws p : enough_draws e (length (get_healthy_worker_indices (now e) ws).1) ->
  exists r ws' p', power_of_two_select e ws p = Some (r, ws', p') /\ good_pick e ws r.
Proof.
  unfold power_of_two_select. pose proof (good_pick_healthy e ws) as Hh.
  pose proof (good_pick_none e ws) as Hn. pose proof (healthy_workers_after (now e) ws) as Hws.
  pose proof (healthy_elem (now e) ws) as Hel.
  destruct (get_healthy_worker_indices (now e) ws) as [l ws']. simpl in *. intros Hd.
  destruct l as [|i [|j l]]; [answer Hn|eexists _, _, _; split; [done|]; apply Hh; left|].
  destruct Hd as [?|(d & ds & -> & [?|Hex])]; [done|done|]. set (l' := i :: j :: l) in *.
  destruct (draw_other_spec _ _ _ Hex) as (k & -> & _ & d' & ->).
  destruct (lookup_lt_elem l' (random_range (length l') d)) as (x & -> & Hx); [by apply Nat.mod_upper_bound|].
  destruct (lookup_lt_elem l' (random_range (length l') d')) as (y & -> & Hy); [by apply Nat.mod_upper_bound|].
  assert (forall z, z ∈ l' -> is_Some (ws' !! z)) as Hsome.
  { intros z (w & Hz & _)%Hel. rewrite Hws, list_lookup_fmap, Hz. by eexists. }
  destruct (Hsome x Hx) as [w1 ->], (Hsome y Hy) as [w2 ->].
  eexists _, _, _. split; [done|]. apply Hh. by case_match.
Qed.

Lemma position_bound f ws i : position f ws = Some i -> is_Some (ws !! i).
Proof.
  revert i. induction ws as [|w ws IH]; intros i; simpl; [done|]. destruct (f w); [intros [= <-]; by eexists|].
  intros (j & Hj & ->)%fmap_Some. by apply IH.
Qed.

Lemma consistent_good e ws t h p : exists r ws' p',
  consistent_select e ws t h p = Some (r, ws', p') /\ good_pick e ws r.
Proof.
  unfold consistent_select. pose proof (good_pick_healthy e ws) as Hh.
  pose proof (good_pick_none e ws) as Hn. pose proof (healthy_workers_after (now e) ws) as Hws.
  destruct (get_healthy_worker_indices (now e) ws) as [l ws']. simpl in *.
  destruct l as [|i l]; [answer Hn|]. assert (good_pick e ws (Some i)) as Hi by (apply Hh; left).
  destruct (find_worker_by_hash _ _) as [u|]; [|answer Hi].
  destruct (target_index u ws') as [idx|] eqn:Ht; [|answer Hi].
  assert (is_Some (ws' !! idx)) as [w Hw].
  { unfold target_index in Ht. destruct (extract_dp_info u) as [? []]; by eapply position_bound. }
  rewrite Hw. destruct (is_available (later e) w) as [ok w'] eqn:Ha. eexists _, _, _. split; [done|].
  destruct ok; [|done]. rewrite Hws, list_lookup_fmap in Hw.
  destruct (ws !! idx) as [w0|] eqn:E; [|done]. simpl in Hw. injection Hw as <-.
  exists w0. split; [done|]. right. unfold available_at. by rewrite Ha.
Qed.

Lemma max_by_key_elem score l i : max_by_key score l = Some i -> i ∈ l.
Proof.
  revert i. induction l as [|j l IH]; intros i; simpl; [done|].
  destruct (max_by_key score l) as [k|]; [case_match|]; intros [= <-]; [left|right; by apply IH|left].
Qed.

Lemma rendezvous_good e ws t h p : exists r ws' p',
  rendezvous_select e ws t h p = Some (r, ws', p') /\ good_pick e ws r.
Proof.
  unfold rendezvous_select. pose proof (good_pick_healthy e ws) as Hh. pose proof (good_pick_none e ws) as Hn.
  destruct (get_healthy_worker_indices (now e) ws) as [l ws']. simpl in *.
  destruct l as [|i l]; [answer Hn|].
  destruct (max_by_key _ (i :: l)) as [k|] eqn:Hk.
  - eexists _, _, _. split; [done|]. apply Hh. by eapply max_by_key_elem.
  - exfalso. simpl in Hk. repeat case_match; done.
Qed.

(** ** Lemmas: the ring *)

Lemma ring_insert_elem h u r x v : ring_sorted r ->
  (x, v) ∈ ring_insert h u r <-> (x = h /\ v = u) \/ (x <> h /\ (x, v) ∈ r).
Proof.
  unfold ring_sorted. induction r as [|[h' u'] r IH]; intros Hs; simpl.
  { rewrite list_elem_of_singleton, elem_of_nil. naive_solver. }
  rewrite fmap_cons in Hs. apply StronglySorted_cons in Hs as [Hlt Hs]. simpl in Hlt.
  rewrite Forall_forall in Hlt.
  assert (forall y w, (y, w) ∈ r -> (h' < y)%N) as Hgt.
  { intros y w Hy. apply Hlt. apply list_elem_of_fmap. by exists (y, w). }
  destruct (N.ltb_spec h h') as [Hl|Hl]; [|destruct (N.eqb_spec h h') as [->|Hne]].
  - rewrite !elem_of_cons. split; [|naive_solver].
    intros [[= -> ->]|[[= -> ->]|Hin]]; [by left|right; split; [lia|by left]|right].
    split; [|by right]. specialize (Hgt _ _ Hin). lia.
  - rewrite !elem_of_cons. split; [|naive_solver].
    intros [[= -> ->]|Hin]; [by left|right]. specialize (Hgt _ _ Hin). split; [lia|by right].
  - rewrite !elem_of_cons, (IH Hs). split; [|naive_solver].
    intros [[= -> ->]|[?|[? ?]]]; [right; split; [congruence|by left]|by left|right; split; [done|by right]].
Qed.

Lemma ring_insert_sorted h u r : ring_sorted r -> ring_sorted (ring_insert h u r).
Proof.
  unfold ring_sorted. induction r as [|[h' u'] r IH]; intros Hs; simpl; [repeat constructor|].
  pose proof Hs as Hs0. rewrite fmap_cons in Hs. apply StronglySorted_cons in Hs as [Hlt Hs].
  destruct (N.ltb_spec h h') as [Hl|Hl]; [|destruct (N.eqb_spec h h') as [->|Hne]].
  - rewrite fmap_cons. apply StronglySorted_cons. split; [|done]. simpl in *. constructor; [done|].
    eapply Forall_impl; [exact Hlt|]. intros y Hy. simpl in Hy. lia.
  - rewrite fmap_cons. by apply StronglySorted_cons.
  - rewrite fmap_cons. apply StronglySorted_cons. split; [|by apply IH].
    rewrite Forall_forall in Hlt. apply Forall_forall. intros y Hy.
    apply list_elem_of_fmap in Hy as ([y' v] & -> & Hy). apply (ring_insert_elem h u r _ _ Hs) in Hy.
    simpl in *. destruct Hy as [[-> ->]|[_ Hy]]; [lia|]. apply Hlt, list_elem_of_fmap. by exists (y', v).
Qed.

Lemma points_elem pts u r x v : ring_sorted r ->
  ring_sorted (foldl (fun r h => ring_insert h u r) r pts) /\
  ((x, v) ∈ foldl (fun r h => ring_insert h u r) r pts <->
    (x ∈ pts /\ v = u) \/ ((x ∉ pts) /\ (x, v) ∈ r)).
Proof.
  revert r. induction pts as [|h pts IH]; intros r Hs; simpl.
  { split; [done|]. set_solver. }
  destruct (IH (ring_insert h u r) (ring_insert_sorted h u r Hs)) as [IH1 IH2]. split; [done|].
  rewrite IH2, (ring_insert_elem h u r x v Hs), !elem_of_cons.
  destruct (decide (x ∈ pts)); destruct (decide (x = h)); naive_solver.
Qed.

Lemma build_ring_spec nodes worker_urls :
  ring_sorted (build_ring nodes worker_urls) /\
  forall x v, (x, v) ∈ build_ring nodes worker_urls <-> point_owner nodes x worker_urls = Some v.
Proof.
  unfold build_ring. induction worker_urls as [|u us [IH1 IH2]] using rev_ind.
  { split; [constructor|]. intros x v. simpl. split; [by intros ?%elem_of_nil|done]. }
  rewrite foldl_app. simpl. unfold add_worker_points at 1 3. split.
  { by apply (points_elem (virtual_points nodes u) u _ 0 u). }
  intros x v. rewrite (proj2 (points_elem (virtual_points nodes u) u _ x v IH1)), IH2.
  unfold point_owner. rewrite filter_app, filter_cons. case_decide as Hx.
  - rewrite filter_nil, last_snoc. naive_solver.
  - rewrite filter_nil, app_nil_r. naive_solver.
Qed.

(** The next point of a sorted ring is its least point from [h] on. *)
Lemma ring_next_spec h r : ring_sorted r ->
  match ring_next h r with
  | Some (x, v) => (x, v) ∈ r /\ (h <= x)%N /\ forall y w, (y, w) ∈ r -> (h <= y)%N -> (x <= y)%N
  | None => forall y w, (y, w) ∈ r -> (y < h)%N
  end.
Proof.
  unfold ring_sorted. induction r as [|[x v] r IH]; intros Hs; simpl; [by intros ? ? ?%elem_of_nil|].
  rewrite fmap_cons in Hs. apply StronglySorted_cons in Hs as [Hlt Hs]. rewrite Forall_forall in Hlt.
  assert (forall y w, (y, w) ∈ r -> (x < y)%N) as Hgt.
  { intros y w Hy. apply Hlt, list_elem_of_fmap. by exists (y, w). }
  destruct (N.leb_spec h x) as [Hle|Hl].
  - split_and!; [left|done|]. intros y w [[= -> ->]|Hy]%elem_of_cons _; [lia|].
    specialize (Hgt _ _ Hy). lia.
  - specialize (IH Hs). destruct (ring_next h r) as [[x' v']|].
    + destruct IH as (H1 & H2 & H3). split_and!; [by right|done|].
      intros y w [[= -> ->]|Hy]%elem_of_cons Hy'; [lia|by eapply H3].
    + intros y w [[= -> ->]|Hy]%elem_of_cons; [lia|by eapply IH].
Qed.

Lemma head_next r : head r = ring_next 0 r.
Proof. destruct r as [|[x v] r]; simpl; [done|]. destruct (N.leb_spec 0 x); [done|lia]. Qed.

(** A ring that keeps the points of [r1] whose owner is not [u], and has no
    others, keeps their keys. *)
Lemma ring_next_sub h r1 r2 u x v : ring_sorted r1 -> ring_sorted r2 ->
  (forall y w, (y, w) ∈ r1 -> w <> u -> (y, w) ∈ r2) ->
  (forall y w, (y, w) ∈ r2 -> exists w', (y, w') ∈ r1) ->
  v <> u -> ring_next h r1 = Some (x, v) -> ring_next h r2 = Some (x, v).
Proof.
  intros Hs1 Hs2 Hkeep Hsub Hv Hn. pose proof (ring_next_spec h r1 Hs1) as H1. rewrite Hn in H1.
  destruct H1 as (Hin & Hle & Hmin). pose proof (ring_next_spec h r2 Hs2) as H2.
  destruct (ring_next h r2) as [[x' v']|].
  - destruct H2 as (Hin' & Hle' & Hmin'). destruct (Hsub _ _ Hin') as [w' Hw'].
    pose proof (Hmin _ _ Hw' Hle'). pose proof (Hmin' _ _ (Hkeep _ _ Hin Hv) Hle).
    assert (x' = x) as -> by lia. do 2 f_equal.
    assert ((x, v') = (x, v)) as [= ->]; [|done].
    eapply (NoDup_key_inj fst r2); [|done|by apply Hkeep|done].
    unfold ring_sorted in Hs2. clear -Hs2. induction Hs2 as [|y l Hl IH Hy]; [constructor|].
    constructor; [|done]. intros Hin. rewrite Forall_forall in Hy. specialize (Hy _ Hin). lia.
  - specialize (H2 _ _ (Hkeep _ _ Hin Hv)). lia.
Qed.

Lemma ring_next_none h r1 r2 : ring_sorted r1 -> ring_sorted r2 ->
  (forall y w, (y, w) ∈ r2 -> exists w', (y, w') ∈ r1) -> ring_next h r1 = None -> ring_next h r2 = None.
Proof.
  intros Hs1 Hs2 Hsub Hn. pose proof (ring_next_spec h r1 Hs1) as H1. rewrite Hn in H1.
  pose proof (ring_next_spec h r2 Hs2) as H2. destruct (ring_next h r2) as [[x v]|]; [|done].
  destruct H2 as (Hin & Hle & _). destruct (Hsub _ _ Hin) as [w' Hw']. specialize (H1 _ _ Hw'). lia.
Qed.

Lemma last_filter {A} (P : A -> Prop) `{!forall x, Decision (P x)} l x :
  last l = Some x -> P x -> last (filter P l) = Some x.
Proof.
  intros [l' ->]%last_Some Hx. rewrite filter_app, filter_cons_True, filter_nil by done. by rewrite last_snoc.
Qed.

Lemma point_owner_remove nodes x us u :
  (forall v, point_owner nodes x us = Some v -> v <> u ->
    point_owner nodes x (filter (fun u' => u' <> u) us) = Some v) /\
  (forall v, point_owner nodes x (filter (fun u' => u' <> u) us) = Some v ->
    exists v', point_owner nodes x us = Some v').
Proof.
  unfold point_owner. split.
  - intros v Hv Hne. rewrite list_filter_filter. rewrite (filter_ext_elem _
      (fun u' => u' <> u /\ x ∈ virtual_points nodes u')) by naive_solver.
    rewrite <- list_filter_filter. by apply (last_filter (fun u' => u' <> u)).
  - intros v Hv. apply last_Some_elem_of in Hv. rewrite !list_elem_of_filter in Hv.
    destruct Hv as (Hx & _ & Hin). destruct (last (filter _ us)) as [v'|] eqn:E; [by exists v'|].
    apply last_None in E. assert (v ∈ filter (fun u' => x ∈ virtual_points nodes u') us) as H
      by (by apply list_elem_of_filter). rewrite E in H. by apply elem_of_nil in H.
Qed.

(** Without [u] a key keeps its owner, unless that is [u]. *)
Lemma ring_owner_remove nodes h us u v : ring_owner h (build_ring nodes us) = Some v -> v <> u ->
  ring_owner h (build_ring nodes (filter (fun u' => u' <> u) us)) = Some v.
Proof.
  destruct (build_ring_spec nodes us) as [Hs1 H1].
  destruct (build_ring_spec nodes (filter (fun u' => u' <> u) us)) as [Hs2 H2].
  assert (forall y w, (y, w) ∈ build_ring nodes us -> w <> u ->
    (y, w) ∈ build_ring nodes (filter (fun u' => u' <> u) us)) as Hkeep.
  { intros y w Hy%H1 Hw. apply H2. by apply (point_owner_remove nodes y us u). }
  assert (forall y w, (y, w) ∈ build_ring nodes (filter (fun u' => u' <> u) us) ->
    exists w', (y, w') ∈ build_ring nodes us) as Hsub.
  { intros y w Hy%H2. apply (point_owner_remove nodes y us u) in Hy as [w' Hw']. exists w'. by apply H1. }
  unfold ring_owner. rewrite !head_next. intros Hv Hne.
  destruct (ring_next h (build_ring nodes us)) as [[x w]|] eqn:E.
  - simpl in Hv. injection Hv as ->. by rewrite (ring_next_sub _ _ _ u x v Hs1 Hs2 Hkeep Hsub Hne E).
  - rewrite (ring_next_none _ _ _ Hs1 Hs2 Hsub E).
    destruct (ring_next 0 (build_ring nodes us)) as [[x w]|] eqn:E0; [|done]. simpl in Hv. injection Hv as ->.
    by rewrite (ring_next_sub _ _ _ u x v Hs1 Hs2 Hkeep Hsub Hne E0).
Qed.

(** The owner of a key is a worker of the ring. *)
Lemma ring_owner_in nodes h us v : ring_owner h (build_ring nodes us) = Some v -> v ∈ us.
Proof.
  destruct (build_ring_spec nodes us) as [Hs H1]. unfold ring_owner. rewrite head_next. intros Hv.
  assert (exists x, (x, v) ∈ build_ring nodes us) as [x Hx].
  { pose proof (ring_next_spec h _ Hs) as Hn. pose proof (ring_next_spec 0 _ Hs) as H0.
    destruct (ring_next h _) as [[x w]|]; [simpl in Hv; injection Hv as ->; exists x; apply Hn|].
    destruct (ring_next 0 _) as [[x w]|]; [simpl in Hv; injection Hv as ->; exists x; apply H0|done]. }
  apply H1 in Hx. unfold point_owner in Hx. apply last_Some_elem_of in Hx. by apply list_elem_of_filter in Hx as [_ ?].
Qed.

(** With virtual nodes and workers every key has an owner. *)
Lemma ring_owner_some nodes h us : (0 < nodes)%N -> us <> [] -> is_Some (ring_owner h (build_ring nodes us)).
Proof.
  intros Hn Hus. destruct us as [|u us]; [done|]. destruct (build_ring_spec nodes (u :: us)) as [Hs H1].
  unfold ring_owner. destruct (ring_next h _) as [[x w]|] eqn:E; [by exists w|].
  destruct (build_ring nodes (u :: us)) as [|[x w] r]; [|by exists w]. exfalso.
  assert (virtual_points nodes u <> []) as Hv.
  { unfold virtual_points, ranks. intros Hnil%fmap_nil_inv%fmap_nil_inv. apply (f_equal length) in Hnil.
    rewrite length_seq in Hnil. simpl in Hnil. lia. }
  destruct (virtual_points nodes u) as [|x0 l] eqn:Ev; [done|].
  destruct (point_owner nodes x0 (u :: us)) as [v|] eqn:Ep; [apply H1 in Ep; by apply elem_of_nil in Ep|].
  unfold point_owner in Ep. apply last_None in Ep.
  assert (u ∈ filter (fun u => x0 ∈ virtual_points nodes u) (u :: us)) as Hin.
  { apply list_elem_of_filter. rewrite Ev. split; left. }
  rewrite Ep in Hin. by apply elem_of_nil in Hin.
Qed.

(** ** Lemmas: rendezvous *)

Lemma best_url_max key us v : best_url key us = Some v ->
  v ∈ us /\ forall u, u ∈ us -> (rendezvous_score key u <= rendezvous_score key v)%N.
Proof.
  revert v. induction us as [|a us IH]; intros v; simpl; [done|].
  destruct (best_url key us) as [b|] eqn:E.
  - destruct (IH b eq_refl) as [Hb Hmax].
    destruct (N.ltb_spec (rendezvous_score key b) (rendezvous_score key a)) as [Hlt|Hge]; intros [= <-].
    + split; [left|]. intros u [->|Hu]%elem_of_cons; [lia|]. specialize (Hmax u Hu). lia.
    + split; [by right|]. intros u [->|Hu]%elem_of_cons; [done|by apply Hmax].
  - intros [= <-]. destruct us as [|b us]; [|simpl in E; repeat case_match; done].
    split; [left|]. intros u Hu. apply list_elem_of_singleton in Hu as ->. lia.
Qed.

Lemma best_url_remove key us u v : best_url key us = Some v -> v <> u ->
  best_url key (filter (fun u' => u' <> u) us) = Some v.
Proof.
  revert v. induction us as [|a us IH]; intros v; simpl; [done|].
  rewrite filter_cons. destruct (best_url key us) as [b|] eqn:E.
  - destruct (N.ltb_spec (rendezvous_score key b) (rendezvous_score key a)) as [Hlt|Hge]; intros [= <-] Hne.
    + rewrite decide_True by done. simpl.
      destruct (best_url key (filter _ us)) as [c|] eqn:Ec; [|done].
      destruct (best_url_max _ _ _ Ec) as [[_ Hc]%list_elem_of_filter _].
      destruct (best_url_max _ _ _ E) as [_ Hmax]. specialize (Hmax c Hc).
      destruct (N.ltb_spec (rendezvous_score key c) (rendezvous_score key a)); [done|lia].
    + specialize (IH b eq_refl Hne). case_decide; [|done]. simpl. rewrite IH.
      destruct (N.ltb_spec (rendezvous_score key b) (rendezvous_score key a)); [lia|done].
  - intros [= <-] Hne. destruct us as [|b us]; [|simpl in E; repeat case_match; done].
    by rewrite decide_True.
Qed.

(** The best index has the best URL. *)
Lemma max_by_key_best key ws l us : Forall2 (fun i u => url <$> ws !! i = Some u) l us ->
  match max_by_key (score_at key ws) l, best_url key us with
  | Some i, Some u => url <$> ws !! i = Some u
  | None, None => True
  | _, _ => False
  end.
Proof.
  assert (forall i u, url <$> ws !! i = Some u -> score_at key ws i = rendezvous_score key u) as Hscore.
  { intros i u (w & E & ->)%fmap_Some. unfold score_at. by rewrite E. }
  induction 1 as [|i u l us Hi Hl IH]; simpl; [done|].
  destruct (max_by_key (score_at key ws) l) as [j|], (best_url key us) as [v|]; try done.
  rewrite (Hscore _ _ Hi), (Hscore _ _ IH). by destruct (_ <? _)%N.
Qed.

Lemma healthy_from_urls i t ws :
  Forall2 (fun k u => exists j w, k = i + j /\ ws !! j = Some w /\ url w = u)
    (healthy_from i t ws).1 (available_urls t ws).
Proof.
  unfold available_urls. revert i. induction ws as [|w ws IH]; intros i; [constructor|].
  simpl healthy_from. rewrite filter_cons.
  assert (available_at t w = (is_available t w).1) as Ha by done.
  specialize (IH (S i)). destruct (is_available t w) as [ok w'].
  destruct (healthy_from (S i) t ws) as [l ws']. simpl in *. rewrite Ha.
  assert (Forall2 (fun k u => exists j w0, k = i + j /\ (w :: ws) !! j = Some w0 /\ url w0 = u) l
    (url <$> filter (fun w => available_at t w = true) ws)) as IH'.
  { eapply Forall2_impl; [exact IH|]. intros k u (j & w0 & -> & ? & ?). exists (S j), w0.
    split_and!; [lia|done|done]. }
  destruct ok; simpl; [|done]. constructor; [|done]. exists 0, w. split_and!; [lia|done|done].
Qed.

(** The URL rendezvous hashing picks. *)
Lemma rendezvous_picks e ws t h p :
  picked_url ws (rendezvous_select e ws t h p) = best_url (extract_hash_key t h) (available_urls (now e) ws).
Proof.
  unfold rendezvous_select. pose proof (healthy_from_urls 0 (now e) ws) as Hf.
  pose proof (healthy_workers_after (now e) ws) as Hws. unfold get_healthy_worker_indices in *.
  destruct (healthy_from 0 (now e) ws) as [l ws']. simpl in *. subst ws'.
  set (ws' := (fun w => (is_available (now e) w).2) <$> ws).
  assert (Forall2 (fun i u => url <$> ws' !! i = Some u) l (available_urls (now e) ws)) as Hf'.
  { eapply Forall2_impl; [exact Hf|]. intros k u (j & w & -> & Hj & <-). unfold ws'. simpl.
    rewrite list_lookup_fmap, Hj. simpl. f_equal. unfold url. by rewrite available_metadata. }
  assert (forall i, url <$> ws !! i = url <$> ws' !! i) as Hurl.
  { intros i. unfold ws'. rewrite list_lookup_fmap. destruct (ws !! i); simpl; [|done].
    unfold url. by rewrite available_metadata. }
  pose proof (max_by_key_best (extract_hash_key t h) ws' l _ Hf') as Hmax.
  destruct l as [|i l]; [by destruct (best_url _ _)|].
  destruct (max_by_key _ (i :: l)) as [k|], (best_url _ _) as [v|]; try done. simpl. by rewrite Hurl.
Qed.

(** ** Lemmas: steady workers *)

Lemma steady_available t w : steady w -> is_available t w = (is_healthy w, w).
Proof.
  unfold is_available, steady. intros [->|Hc]; [done|]. destruct (is_healthy w); [|done].
  unfold can_execute, check_and_update_state. rewrite Hc, Hc. f_equal.
  destruct w as [b|d]; simpl; [by destruct b|]. by destruct d as [[] ? ? ?].
Qed.

Lemma steady_healthy_from i t ws : Forall steady ws -> healthy_from i t ws = (healthy_positions i ws, ws).
Proof.
  intros Hs. revert i. induction Hs as [|w ws Hw _ IH]; intros i; [done|]. simpl healthy_from.
  rewrite (steady_available t w Hw), IH. done.
Qed.

Lemma steady_healthy t ws : Forall steady ws ->
  get_healthy_worker_indices t ws = (healthy_positions 0 ws, ws).
Proof. apply steady_healthy_from. Qed.

(** ** Lemmas: round robin *)

Lemma round_robin_picks_steady es ws c : Forall steady ws -> healthy_positions 0 ws <> [] ->
  (c + N.of_nat (length es) < u64_mod)%N ->
  round_robin_picks es ws (MkRoundRobin c) =
    (fun j => healthy_positions 0 ws !! ((N.to_nat c + j) mod length (healthy_positions 0 ws))) <$>
      seq 0 (length es).
Proof.
  intros Hs Hne. revert c. induction es as [|e es IH]; intros c Hc; [done|].
  simpl length. simpl seq. rewrite fmap_cons. simpl round_robin_picks. unfold round_robin_select.
  rewrite (steady_healthy (now e) ws Hs). set (l := healthy_positions 0 ws) in *.
  destruct l as [|i l0] eqn:El; [done|]. rewrite <- El in *. simpl counter.
  unfold u64_wrapping_add. simpl in Hc. rewrite (N.mod_small (c + 1)) by lia. rewrite IH by lia.
  f_equal.
  - f_equal. rewrite Nat.add_0_r, N2Nat.inj_mod, Nat2N.id. done.
  - rewrite <- fmap_S_seq, <- list_fmap_compose. apply list_fmap_ext. intros j k _. simpl. do 2 f_equal. lia.
Qed.

Lemma mod_block c n a : 0 < n -> (fun j => (c + j) mod n) <$> seq a n ≡ₚ seq 0 n.
Proof.
  intros Hn. apply submseteq_length_Permutation; [|by rewrite length_fmap, !length_seq].
  apply NoDup_submseteq.
  - apply NoDup_fmap_2_strong; [|apply NoDup_seq]. intros x y Hx Hy E.
    rewrite elem_of_seq in Hx, Hy.
    pose proof (Nat.div_mod_eq (c + x) n). pose proof (Nat.div_mod_eq (c + y) n).
    assert ((c + x) / n = (c + y) / n); [|nia]. nia.
  - intros x (j & -> & _)%list_elem_of_fmap. apply elem_of_seq. pose proof (Nat.mod_upper_bound (c + j) n). lia.
Qed.

Lemma lookup_all {A} (l : list A) : (fun i => l !! i) <$> seq 0 (length l) = Some <$> l.
Proof.
  apply list_eq. intros i. rewrite !list_lookup_fmap. destruct (decide (i < length l)) as [Hi|Hi].
  - rewrite lookup_seq_lt by done. simpl. by destruct (lookup_lt_is_Some_2 l i Hi) as [x ->].
  - rewrite lookup_seq_ge, (lookup_ge_None_2 l i) by lia. done.
Qed.

Lemma picks_block {A} (l : list A) c a : l <> [] ->
  (fun j => l !! ((c + j) mod length l)) <$> seq a (length l) ≡ₚ Some <$> l.
Proof.
  intros Hl. rewrite <- (lookup_all l), <- (mod_block c (length l) a) by (destruct l; simpl; [done|lia]).
  by rewrite <- list_fmap_compose.
Qed.

(** ** Lemmas: affinity *)

Lemma count_request_fmap {B} (f : AnyWorker -> B) i ws : (forall w, f (increment_processed w) = f w) ->
  f <$> count_request i ws = f <$> ws.
Proof.
  intros Hf. apply list_eq. intros j. unfold count_request. rewrite !list_lookup_fmap.
  destruct (decide (j = i)) as [->|Hne].
  - rewrite list_lookup_alter_eq. destruct (ws !! i) as [w|]; [exact (f_equal Some (Hf w))|done].
  - by rewrite list_lookup_alter_ne.
Qed.

Lemma count_request_urls i ws : url <$> count_request i ws = url <$> ws.
Proof. apply count_request_fmap. by intros [b|d]. Qed.

Lemma count_request_healthy i ws : is_healthy <$> count_request i ws = is_healthy <$> ws.
Proof. apply count_request_fmap. by intros [b|d]. Qed.

Lemma count_request_steady i ws : Forall steady ws -> Forall steady (count_request i ws).
Proof.
  intros Hs. rewrite Forall_forall in Hs. apply Forall_forall. intros w [j Hj]%list_elem_of_lookup.
  unfold count_request in Hj. destruct (decide (j = i)) as [->|Hne].
  - rewrite list_lookup_alter_eq in Hj. destruct (ws !! i) as [w'|] eqn:E; [|done]. simplify_eq/=.
    assert (steady w') as Hw' by (apply Hs; by eapply list_elem_of_lookup_2). by destruct w'.
  - rewrite list_lookup_alter_ne in Hj by done. apply Hs. by eapply list_elem_of_lookup_2.
Qed.

Lemma healthy_positions_ext i ws ws' : is_healthy <$> ws = is_healthy <$> ws' ->
  healthy_positions i ws = healthy_positions i ws'.
Proof.
  revert i ws'. induction ws as [|w ws IH]; intros i [|w' ws'] E; try done.
  rewrite !fmap_cons in E.
  assert (is_healthy w = is_healthy w' /\ is_healthy <$> ws = is_healthy <$> ws') as [E1 E2]
    by (split; congruence). cbn [healthy_positions]. rewrite E1.
  by rewrite (IH (S i) ws').
Qed.

Lemma position_ext (g : string -> bool) ws ws' : url <$> ws = url <$> ws' ->
  position (fun w => g (url w)) ws = position (fun w => g (url w)) ws'.
Proof.
  revert ws'. induction ws as [|w ws IH]; intros [|w' ws'] E; try done.
  rewrite !fmap_cons in E.
  assert (url w = url w' /\ url <$> ws = url <$> ws') as [E1 E2] by (split; congruence). cbn [position]. rewrite E1. by rewrite (IH ws').
Qed.

Lemma target_index_ext u ws ws' : url <$> ws = url <$> ws' -> target_index u ws = target_index u ws'.
Proof.
  intros E. unfold target_index. destruct (extract_dp_info u) as [base []].
  - pose proof (position_ext (fun x : string => bool_decide (x = u)) _ _ E) as H. exact H.
  - pose proof (position_ext (fun x : string => bool_decide ((extract_dp_info x).1 = base)) _ _ E) as H. exact H.
Qed.

Lemma update_hash_ring_current ws ws' p : url <$> ws = url <$> ws' ->
  update_hash_ring ws' (update_hash_ring ws p) = update_hash_ring ws p.
Proof.
  intros E. unfold update_hash_ring at 1. rewrite <- E. unfold update_hash_ring.
  destruct (bool_decide (current_workers p = url <$> ws)) eqn:Eb; simpl.
  - by rewrite Eb.
  - by rewrite bool_decide_eq_true_2.
Qed.

Lemma update_hash_ring_is ws p : ring_ok p -> hash_ring (update_hash_ring ws p) = build_ring VIRTUAL_NODES_PER_WORKER (url <$> ws).
Proof. unfold update_hash_ring. intros Hp. case_bool_decide as E; [|done]. by rewrite Hp, E. Qed.

(** What consistent hashing picks among steady workers, and what it leaves. *)
Lemma consistent_steady e ws t h p : Forall steady ws ->
  exists r ws' p', consistent_select e ws t h p = Some (r, ws', p') /\
    r = match healthy_positions 0 ws with
        | [] => None
        | fallback_idx :: _ =>
            match find_worker_by_hash (extract_hash_key t h) (update_hash_ring ws p) with
            | None => Some fallback_idx
            | Some u =>
                match target_index u ws with
                | None => Some fallback_idx
                | Some idx => if default false (is_healthy <$> ws !! idx) then Some idx else Some fallback_idx
                end
            end
        end /\
    (ws' = ws \/ exists j, ws' = count_request j ws) /\ (p' = p \/ p' = update_hash_ring ws p) /\
    (healthy_positions 0 ws <> [] -> p' = update_hash_ring ws p).
Proof.
  intros Hs. unfold consistent_select. rewrite (steady_healthy _ _ Hs). cbv beta iota zeta.
  destruct (healthy_positions 0 ws) as [|fb l]; [eexists _, _, _; split_and!; [done|done|naive_solver..]|].
  destruct (find_worker_by_hash _ _) as [u|]; [|eexists _, _, _; split_and!; [done|done|naive_solver..]].
  destruct (target_index u ws) as [idx|] eqn:Ht; [|eexists _, _, _; split_and!; [done|done|naive_solver..]].
  assert (is_Some (ws !! idx)) as [w Hw].
  { unfold target_index in Ht. destruct (extract_dp_info u) as [? []]; by eapply position_bound. }
  rewrite Hw. rewrite Forall_forall in Hs.
  rewrite (steady_available _ w) by (apply Hs; by eapply list_elem_of_lookup_2).
  rewrite list_insert_id by done. change (default false (is_healthy <$> Some w)) with (is_healthy w).
  destruct (is_healthy w); (eexists _, _, _; split_and!; [done|done|naive_solver..]).
Qed.

(** ** Properties *)

(** C36: each of the five policies of [AnyPolicy] (round robin, random, power of two,
    consistent hash, rendezvous hash) picks an available worker.  With enough
    random numbers a selection returns; the worker it picks is healthy and its
    breaker lets the request pass, at the first reading of the clock or at the
    second; and it picks none only when none is available.  (The cache-aware
    policy is not among them: on a cache hit it looks at the health flag only.) *)
Theorem policies_pick_available e ws t h (p : AnyPolicy) :
  enough_draws e (length (get_healthy_worker_indices (now e) ws).1) ->
  exists r ws' p', select_worker_with_headers e ws t h p = Some (r, ws', p') /\ good_pick e ws r.
Proof.
  intros Hd. destruct p as [p|p|p|p|p]; simpl.
  - destruct (round_robin_good e ws p) as (r & ws' & p' & -> & ?). simpl. eauto 7.
  - destruct (random_good e ws p Hd) as (r & ws' & p' & -> & ?). simpl. eauto 7.
  - destruct (power_of_two_good e ws p Hd) as (r & ws' & p' & -> & ?). simpl. eauto 7.
  - destruct (consistent_good e ws t h p) as (r & ws' & p' & -> & ?). simpl. eauto 7.
  - destruct (rendezvous_good e ws t h p) as (r & ws' & p' & -> & ?). simpl. eauto 7.
Qed.

Lemma policies_pick_available_witness :
  exists r ws' p', select_worker_with_headers (MkEnv 0 0 [3; 5; 4])
    [create_regular 0 "http://a:1"; create_regular 0 "http://b:1"] None None
    (PowerOfTwo new_power_of_two) = Some (r, ws', p') /\
    good_pick (MkEnv 0 0 [3; 5; 4]) [create_regular 0 "http://a:1"; create_regular 0 "http://b:1"] r.
Proof.
  apply policies_pick_available. right. exists 3, [5; 4]. split; [done|]. right.
  apply Exists_cons_tl, Exists_cons_hd. done.
Defined.

(** Round robin is fair.  Among workers whose availability does not change,
    any [k] full rounds pick every healthy worker exactly [k] times. *)
Theorem round_robin_fair es ws c k : Forall steady ws -> healthy_positions 0 ws <> [] ->
  length es = k * length (healthy_positions 0 ws) -> (c + N.of_nat (length es) < u64_mod)%N ->
  round_robin_picks es ws (MkRoundRobin c) ≡ₚ concat (replicate k (Some <$> healthy_positions 0 ws)).
Proof.
  intros Hs Hne Hlen Hc. rewrite round_robin_picks_steady by done. rewrite Hlen. clear es Hlen Hc.
  set (l := healthy_positions 0 ws) in *. induction k as [|k IH]; [done|].
  change (S k * length l) with (length l + k * length l). rewrite Nat.add_comm, seq_app, fmap_app, IH.
  simpl. rewrite (picks_block l (N.to_nat c)) by done. apply Permutation_app_comm.
Qed.

Lemma round_robin_fair_witness :
  let ws := [create_regular 0 "http://a:1"; create_regular 0 "http://b:1"] in
  round_robin_picks (replicate 4 (MkEnv 0 0 [])) ws (MkRoundRobin 7) ≡ₚ [Some 0; Some 1; Some 0; Some 1].
Proof.
  intros ws. apply (round_robin_fair (replicate 4 (MkEnv 0 0 [])) ws 7 2).
  - repeat constructor; by right.
  - done.
  - done.
  - done.
Defined.

(** C37: the ring moves no key but those of the worker that comes or goes.  For
    two worker lists that differ by one worker, a key that the larger ring does
    not give to that worker has the same owner in both, even when virtual nodes
    of different workers collide. *)
Theorem ring_minimal_disruption key ws ws' p p' u v : ring_ok p -> ring_ok p' ->
  url <$> ws' = filter (fun u' => u' <> u) (url <$> ws) ->
  find_worker_by_hash key (update_hash_ring ws p) = Some v -> v <> u ->
  find_worker_by_hash key (update_hash_ring ws' p') = Some v.
Proof.
  intros Hp Hp' Hws. unfold find_worker_by_hash. rewrite !update_hash_ring_is, Hws by done.
  apply ring_owner_remove.
Qed.

Lemma ring_minimal_disruption_witness :
  let ws := create_regular 0 <$> ["http://a:1"; "http://b:1"] in
  let ws' := create_regular 0 <$> ["http://b:1"] in
  find_worker_by_hash (as_bytes "user:2") (update_hash_ring ws' new_consistent) = Some "http://b:1".
Proof.
  intros ws ws'.
  apply (ring_minimal_disruption (as_bytes "user:2") ws ws' new_consistent new_consistent "http://a:1").
  - reflexivity.
  - reflexivity.
  - reflexivity.
  - vm_refl.
  - done.
Defined.

(** Rendezvous hashing moves no key but those of the worker that comes or
    goes.  When the available workers differ by one, a request whose choice is
    not that worker is sent to the same URL. *)
Theorem rendezvous_minimal_disruption e e' ws ws' t h p p' u v :
  available_urls (now e') ws' = filter (fun u' => u' <> u) (available_urls (now e) ws) ->
  picked_url ws (rendezvous_select e ws t h p) = Some v -> v <> u ->
  picked_url ws' (rendezvous_select e' ws' t h p') = Some v.
Proof.
  rewrite !rendezvous_picks. intros -> Hv Hne. by apply best_url_remove.
Qed.

Lemma rendezvous_minimal_disruption_witness :
  let ws := create_regular 0 <$> ["http://a:1"; "http://b:1"; "http://c:1"] in
  let ws' := create_regular 0 <$> ["http://b:1"; "http://c:1"] in
  let e := MkEnv 0 0 [] in
  exists v, picked_url ws' (rendezvous_select e ws' (Some (as_bytes "hi")) None MkRendezvous) = Some v.
Proof.
  intros ws ws' e.
  destruct (picked_url ws (rendezvous_select e ws (Some (as_bytes "hi")) None MkRendezvous))
    as [v|] eqn:E; [|vm_compute in E; discriminate E].
  exists v. apply (rendezvous_minimal_disruption e e ws ws' _ _ MkRendezvous MkRendezvous "http://a:1").
  - reflexivity.
  - exact E.
  - vm_compute in E. injection E as <-. done.
Defined.

(** A session stays on its worker.  Two requests with the same session
    header go to the same worker under consistent hashing, whatever their
    bodies, while the workers' availability does not change. *)
Theorem session_affinity e1 e2 ws t1 t2 headers key p r ws1 p1 : Forall steady ws ->
  extract_hash_key_from_headers headers = Some key ->
  consistent_select e1 ws t1 (Some headers) p = Some (r, ws1, p1) ->
  exists ws2 p2, consistent_select e2 ws1 t2 (Some headers) p1 = Some (r, ws2, p2).
Proof.
  intros Hs Hkey Hsel. assert (forall t, extract_hash_key t (Some headers) = key) as Hk.
  { intros t. unfold extract_hash_key. simpl. by rewrite Hkey. }
  destruct (consistent_steady e1 ws t1 (Some headers) p Hs) as (r' & ws' & p' & E & Hr & Hws & Hp & Hp').
  rewrite Hsel in E. injection E as <- <- <-. rewrite Hk in Hr.
  assert (Forall steady ws1 /\ url <$> ws = url <$> ws1 /\ is_healthy <$> ws = is_healthy <$> ws1)
    as (Hs' & Hurl & Hh).
  { destruct Hws as [->|[j ->]]; [done|].
    rewrite count_request_urls, count_request_healthy. split; [by apply count_request_steady|done]. }
  destruct (consistent_steady e2 ws1 t2 (Some headers) p1 Hs') as (r2 & ws2 & p2 & E & Hr2 & _).
  exists ws2, p2. rewrite E. do 3 f_equal. rewrite Hr, Hr2, Hk. rewrite <- (healthy_positions_ext 0 ws ws1 Hh).
  destruct (healthy_positions 0 ws) as [|fb l]; [done|]. rewrite Hp' by done.
  rewrite (update_hash_ring_current ws ws1 p Hurl). destruct (find_worker_by_hash _ _) as [u|]; [|done].
  rewrite <- (target_index_ext u ws ws1 Hurl). destruct (target_index u ws) as [idx|]; [|done].
  apply (f_equal (fun l => l !! idx)) in Hh. rewrite !list_lookup_fmap in Hh. by rewrite Hh.
Qed.

Lemma session_affinity_witness :
  let ws := create_regular 0 <$> ["http://a:1"; "http://b:1"] in
  let headers : RequestHeaders := {[ "x-session-id" := as_bytes "s" ]} in
  exists r ws1 p1 ws2 p2,
    consistent_select (MkEnv 0 0 []) ws None (Some headers) new_consistent = Some (r, ws1, p1) /\
    consistent_select (MkEnv 9 9 []) ws1 (Some (as_bytes "other")) (Some headers) p1 = Some (r, ws2, p2).
Proof.
  intros ws headers.
  destruct (consistent_select (MkEnv 0 0 []) ws None (Some headers) new_consistent)
    as [[[r ws1] p1]|] eqn:E; [|vm_compute in E; discriminate E].
  destruct (session_affinity (MkEnv 0 0 []) (MkEnv 9 9 []) ws None (Some (as_bytes "other")) headers
    (as_bytes "header:x-session-id:s") new_consistent r ws1 p1) as (ws2 & p2 & E2).
  - repeat constructor; by right.
  - vm_refl.
  - exact E.
  - exists r, ws1, p1, ws2, p2. split; [reflexivity|exact E2].
Defined.
