(* ===== verification/PolicyRegistry.v ===== *)
(** * The policies of models ([src/policies/registry.rs], [factory.rs])

    Every model served by some worker has one policy object, made when its first
    worker comes and dropped when its last one goes.  An [Arc] of a policy is the
    identity of the object and its kind; the parameters of the cache-aware and
    KV-aware policies are not represented.  The identity of a new object is an
    argument of the call that makes it. *)

From S2P Require Import Prelude KvTypes.

Local Open Scope string_scope.

(** ** Kinds of policies *)

Inductive PolicyKind :=
| KRandom | KRoundRobin | KCacheAware | KKvAware | KPowerOfTwo | KConsistentHash | KRendezvousHash.

#[export] Instance PolicyKind_eq_dec : EqDecision PolicyKind.
Proof. solve_decision. Defined.

(** [name] of each policy *)
Definition kind_name (k : PolicyKind) : string :=
  match k with
  | KRandom => "random"
  | KRoundRobin => "round_robin"
  | KCacheAware => "cache_aware"
  | KKvAware => "kv_aware"
  | KPowerOfTwo => "power_of_two"
  | KConsistentHash => "consistent_hash"
  | KRendezvousHash => "rendezvous_hash"
  end.

(** [PolicyFactory::create_by_name]; [to_lowercase] of an ASCII name. *)
Definition create_by_name (name : string) : option PolicyKind :=
  let name := to_ascii_lowercase name in
  if decide (name = "random") then Some KRandom
  else if decide (name = "round_robin" \/ name = "roundrobin") then Some KRoundRobin
  else if decide (name = "power_of_two" \/ name = "poweroftwo") then Some KPowerOfTwo
  else if decide (name = "cache_aware" \/ name = "cacheaware") then Some KCacheAware
  else if decide (name = "kv_aware" \/ name = "kvaware") then Some KKvAware
  else if decide (name = "consistent_hash" \/ name = "consistenthash") then Some KConsistentHash
  else if decide (name = "rendezvous_hash" \/ name = "rendezvoushash") then Some KRendezvousHash
  else None.

(** ** The registry *)

Record PolicyRef := MkPolicy { policy_arc : N; policy_kind : PolicyKind }.

Record PolicyRegistry := MkRegistry {
  model_policies : gmap string PolicyRef;
  model_worker_counts : gmap string N;
  default_policy : PolicyRef;
  prefill_policy : option PolicyRef;
  decode_policy : option PolicyRef;
}.

(** [create_policy_from_config] makes the policy the configuration names. *)
Definition new_registry (arc : N) (default_policy_config : PolicyKind) : PolicyRegistry :=
  MkRegistry ∅ ∅ (MkPolicy arc default_policy_config) None None.

Definition create_policy_from_type (arc : N) (policy_type : string) (r : PolicyRegistry) : PolicyRef :=
  if decide (policy_type = "round_robin") then MkPolicy arc KRoundRobin
  else if decide (policy_type = "random") then MkPolicy arc KRandom
  else if decide (policy_type = "cache_aware") then MkPolicy arc KCacheAware
  else if decide (policy_type = "kv_aware") then MkPolicy arc KKvAware
  else if decide (policy_type = "power_of_two") then MkPolicy arc KPowerOfTwo
  else if decide (policy_type = "rendezvous_hash") then MkPolicy arc KRendezvousHash
  else default_policy r.

Definition determine_policy_for_model (arc : N) (policy_hint : option string) (r : PolicyRegistry)
  : PolicyRef :=
  match policy_hint with
  | Some policy_type => create_policy_from_type arc policy_type r
  | None => default_policy r
  end.

Definition on_worker_added (arc : N) (model_id : string) (policy_hint : option string)
    (r : PolicyRegistry) : PolicyRef * PolicyRegistry :=
  let counts := <[model_id := u64_wrapping_add (default 0%N (model_worker_counts r !! model_id)) 1]>
    (model_worker_counts r) in
  match model_policies r !! model_id with
  | Some existing_policy =>
      (existing_policy,
       MkRegistry (model_policies r) counts (default_policy r) (prefill_policy r) (decode_policy r))
  | None =>
      let policy := determine_policy_for_model arc policy_hint r in
      (policy,
       MkRegistry (<[model_id := policy]> (model_policies r)) counts (default_policy r)
         (prefill_policy r) (decode_policy r))
  end.

Definition on_worker_removed (model_id : string) (r : PolicyRegistry) : PolicyRegistry :=
  match model_worker_counts r !! model_id with
  | None => r
  | Some count =>
      let count := saturating_sub count 1 in
      if (count =? 0)%N then
        MkRegistry (delete model_id (model_policies r)) (delete model_id (model_worker_counts r))
          (default_policy r) (prefill_policy r) (decode_policy r)
      else
        MkRegistry (model_policies r) (<[model_id := count]> (model_worker_counts r))
          (default_policy r) (prefill_policy r) (decode_policy r)
  end.

Definition get_policy (r : PolicyRegistry) (model_id : string) : option PolicyRef :=
  model_policies r !! model_id.

Definition get_default_policy (r : PolicyRegistry) : PolicyRef := default_policy r.

Definition get_policy_or_default (r : PolicyRegistry) (model_id : string) : PolicyRef :=
  default (get_default_policy r) (get_policy r model_id).

Definition get_all_mappings (r : PolicyRegistry) : gmap string string :=
  (fun p => kind_name (policy_kind p)) <$> model_policies r.

Definition get_worker_counts (r : PolicyRegistry) : gmap string N := model_worker_counts r.

Definition clear (r : PolicyRegistry) : PolicyRegistry :=
  MkRegistry ∅ ∅ (default_policy r) (prefill_policy r) (decode_policy r).

Definition set_prefill_policy (p : PolicyRef) (r : PolicyRegistry) : PolicyRegistry :=
  MkRegistry (model_policies r) (model_worker_counts r) (default_policy r) (Some p) (decode_policy r).

Definition set_decode_policy (p : PolicyRef) (r : PolicyRegistry) : PolicyRegistry :=
  MkRegistry (model_policies r) (model_worker_counts r) (default_policy r) (prefill_policy r) (Some p).

Definition get_prefill_policy (r : PolicyRegistry) : PolicyRef :=
  default (get_default_policy r) (prefill_policy r).

Definition get_decode_policy (r : PolicyRegistry) : PolicyRef :=
  default (get_default_policy r) (decode_policy r).

(** ** Specification *)

Inductive policy_op :=
| WorkerAdded (arc : N) (model_id : string) (policy_hint : option string)
| WorkerRemoved (model_id : string)
| SetPrefill (p : PolicyRef)
| SetDecode (p : PolicyRef)
| Clear.

Definition policy_step (o : policy_op) (r : PolicyRegistry) : PolicyRegistry :=
  match o with
  | WorkerAdded arc m hint => (on_worker_added arc m hint r).2
  | WorkerRemoved m => on_worker_removed m r
  | SetPrefill p => set_prefill_policy p r
  | SetDecode p => set_decode_policy p r
  | Clear => clear r
  end.

Definition policy_run (ops : list policy_op) (r : PolicyRegistry) : PolicyRegistry :=
  foldl (fun r o => policy_step o r) r ops.

(** The number of workers of a model: the clear and the removals of workers that
    are not there aside. *)
Definition spec_count (m : string) (n : N) (o : policy_op) : N :=
  match o with
  | WorkerAdded _ m' _ => if decide (m' = m) then (n + 1)%N else n
  | WorkerRemoved m' => if decide (m' = m) then (n - 1)%N else n
  | Clear => 0%N
  | _ => n
  end.

Definition workers_of (m : string) (ops : list policy_op) : N := foldl (spec_count m) 0%N ops.

(** A model has a count and a policy exactly while it has workers. *)
Definition tracks (r : PolicyRegistry) (count : string -> N) : Prop :=
  forall m, model_worker_counts r !! m = (if (count m =? 0)%N then None else Some (count m)) /\
            (is_Some (model_policies r !! m) <-> (0 < count m)%N).

Definition registry_example : list policy_op :=
  [WorkerAdded 1 "m" (Some "round_robin"); WorkerAdded 2 "m" (Some "random"); WorkerRemoved "m";
   WorkerAdded 3 "n" None].

(** ** Lemmas *)

Lemma tracks_step o r count : tracks r count -> (forall m, count m + 1 < u64_mod)%N ->
  tracks (policy_step o r) (fun m => spec_count m (count m) o).
Proof.
  intros Ht Hsmall m. destruct (Ht m) as [Hc Hp]. destruct o as [arc m' hint|m'|p|p|]; simpl; try done.
  - destruct (Ht m') as [Hc' Hp']. unfold on_worker_added.
    assert (default 0%N (model_worker_counts r !! m') = count m') as ->.
    { rewrite Hc'. destruct (N.eqb_spec (count m') 0); simpl; lia. }
    unfold u64_wrapping_add. rewrite N.mod_small by apply Hsmall.
    assert (forall ps : gmap string PolicyRef, (forall k, is_Some (ps !! k) <-> k = m' \/ is_Some (model_policies r !! k)) ->
      <[m':=(count m' + 1)%N]> (model_worker_counts r) !! m =
        (if ((if decide (m' = m) then count m + 1 else count m) =? 0)%N then None
         else Some (if decide (m' = m) then (count m + 1)%N else count m)) /\
      (is_Some (ps !! m) <-> (0 < if decide (m' = m) then count m + 1 else count m)%N)) as Hgo.
    { intros ps Hps. rewrite Hps. case_decide as E.
      - subst m'. rewrite lookup_insert_eq. destruct (N.eqb_spec (count m + 1) 0); [lia|].
        split; [done|]. split; [lia|]. by left.
      - rewrite lookup_insert_ne, Hp by done. split; [done|]. naive_solver. }
    destruct (model_policies r !! m') as [p|] eqn:E; simpl; apply Hgo; intros k.
    + split; [by right|]. intros [->|?]; [by rewrite E|done].
    + destruct (decide (k = m')) as [->|Hne]; [rewrite lookup_insert_eq|rewrite lookup_insert_ne by done];
        naive_solver.
  - destruct (Ht m') as [Hc' Hp']. unfold on_worker_removed. rewrite Hc'.
    destruct (N.eqb_spec (count m') 0) as [Hz|Hnz].
    { case_decide; [subst|done]. rewrite Hz in *. done. }
    unfold saturating_sub. destruct (N.eqb_spec (count m' - 1) 0) as [Hz|Hnz']; simpl.
    + case_decide; [subst m'|].
      * rewrite !lookup_delete_eq, Hz. split; [done|]. split; [by intros []|lia].
      * by rewrite !lookup_delete_ne.
    + case_decide; [subst m'|by rewrite lookup_insert_ne].
      rewrite lookup_insert_eq. destruct (N.eqb_spec (count m - 1) 0); [lia|]. split; [done|].
      rewrite Hp. lia.
  - rewrite !lookup_empty. split; [done|]. split; [by intros []|lia].
Qed.

Lemma spec_count_bound m n o : (spec_count m n o <= n + 1)%N.
Proof. destruct o; simpl; try case_decide; lia. Qed.

Lemma tracks_run ops r count b : tracks r count -> (forall m, count m <= b)%N ->
  (b + N.of_nat (length ops) < u64_mod)%N ->
  tracks (policy_run ops r) (fun m => foldl (spec_count m) (count m) ops).
Proof.
  revert r count b. induction ops as [|o ops IH]; intros r count b Ht Hb Hlen; [done|]. simpl in *.
  apply (IH _ (fun m => spec_count m (count m) o) (b + 1)%N).
  - apply tracks_step; [done|]. intros m. specialize (Hb m). lia.
  - intros m. pose proof (spec_count_bound m (count m) o). specialize (Hb m). lia.
  - lia.
Qed.

Lemma tracks_new arc k : tracks (new_registry arc k) (fun _ => 0%N).
Proof. intros m. simpl. rewrite !lookup_empty. split; [done|]. split; [by intros []|lia]. Qed.

(** While a model keeps a worker it keeps its policy. *)
Lemma policy_step_sticky o r count m p : tracks r count -> get_policy r m = Some p ->
  (0 < spec_count m (count m) o)%N -> get_policy (policy_step o r) m = Some p.
Proof.
  unfold get_policy. intros Ht Hp Hpos. destruct o as [arc m' hint|m'|q|q|]; simpl in *; try done.
  - unfold on_worker_added. destruct (model_policies r !! m') eqn:E; simpl; [done|].
    rewrite lookup_insert_ne; [done|]. intros ->. congruence.
  - unfold on_worker_removed. destruct (Ht m') as [-> _].
    destruct (N.eqb_spec (count m') 0); [done|]. unfold saturating_sub.
    destruct (N.eqb_spec (count m' - 1) 0) as [Hz|]; simpl; [|done].
    rewrite lookup_delete_ne; [done|]. intros ->. rewrite decide_True in Hpos by done. lia.
Qed.

(** ** Properties *)

(** Models have policies exactly while they have workers, and keep them.
    After any additions, removals and clears, the registry's counts are the
    numbers of workers, a model has a policy exactly when its count is positive,
    and a further call that leaves the model a worker leaves it its policy. *)
Theorem policy_tracks_workers arc k ops o m : (N.of_nat (length ops) < u64_mod)%N ->
  let r := policy_run ops (new_registry arc k) in
  default 0%N (get_worker_counts r !! m) = workers_of m ops /\
  (is_Some (get_policy r m) <-> (0 < workers_of m ops)%N) /\
  forall p, get_policy r m = Some p -> (0 < workers_of m (ops ++ [o]))%N ->
    get_policy (policy_step o r) m = Some p.
Proof.
  intros Hlen r. assert (tracks r (fun m => workers_of m ops)) as Ht.
  { apply (tracks_run ops _ (fun _ => 0%N) 0); [apply tracks_new|lia|lia]. }
  destruct (Ht m) as [Hc Hp]. split_and!; [|done|].
  - unfold get_worker_counts. rewrite Hc. destruct (N.eqb_spec (workers_of m ops) 0); simpl; lia.
  - intros p Hget Hpos. eapply policy_step_sticky; [exact Ht|done|].
    unfold workers_of in *. by rewrite foldl_app in Hpos.
Qed.

Lemma policy_tracks_workers_witness :
  get_policy (policy_step (WorkerAdded 9 "m" (Some "random"))
    (policy_run registry_example (new_registry 0 KCacheAware))) "m" = Some (MkPolicy 1 KRoundRobin).
Proof.
  destruct (policy_tracks_workers 0 KCacheAware registry_example (WorkerAdded 9 "m" (Some "random")) "m")
    as (_ & _ & H); [vm_compute; reflexivity|].
  apply H; [vm_refl|vm_compute; reflexivity].
Defined.

(** A hint of the one policy that [create_policy_from_type] does not know gives
    the default policy, though the factory knows its name. *)
Lemma consistent_hash_hint_ignored arc r :
  create_by_name "consistent_hash" = Some KConsistentHash /\
  create_policy_from_type arc "consistent_hash" r = default_policy r.
Proof. split; reflexivity. Qed.
