(* ===== verification/FloatFacts.v ===== *)
(** * Facts about floating-point numbers

    What rounding does to a positive mantissa; a positive count converts to a
    float that is at least one. *)

From S2P Require Import Prelude Ieee.

Local Open Scope Z_scope.

Lemma shr_1_nonneg r : 0 <= shr_m r -> 0 <= shr_m (shr_1 r).
Proof. destruct r as [m r s]. destruct m as [|[]|[]]; simpl; lia. Qed.

Lemma shr_nonneg r e n : 0 <= shr_m r -> 0 <= shr_m (shr r e n).1.
Proof.
  intros H. unfold shr. destruct n as [|p|p]; simpl; try done.
  generalize dependent r. generalize (shr_1_nonneg). intros Hs.
  induction p as [p IH|p IH|]; intros r Hr; simpl; auto.
Qed.

Lemma digits2_bound p : 2 ^ (Zpos (digits2_pos p) - 1) <= Zpos p < 2 ^ Zpos (digits2_pos p).
Proof.
  induction p as [p IH|p IH|]; cbn [digits2_pos]; [| |by split].
  all: rewrite Pos2Z.inj_succ; replace (Z.succ (Zpos (digits2_pos p)) - 1) with (Zpos (digits2_pos p)) by lia.
  all: replace (Zpos (digits2_pos p)) with (Z.succ (Zpos (digits2_pos p) - 1)) at 1 by lia.
  all: rewrite !Z.pow_succ_r by lia; lia.
Qed.

Lemma digits2_unique p d : 2 ^ (d - 1) <= Zpos p < 2 ^ d -> Zpos (digits2_pos p) = d.
Proof.
  intros [H1 H2]. pose proof (digits2_bound p) as [H3 H4].
  assert (0 < d) by (destruct d; [simpl in H2; lia|lia|rewrite (Z.pow_neg_r 2 (Zneg p0)) in H2 by lia; lia]).
  destruct (Z.lt_trichotomy (Zpos (digits2_pos p)) d) as [Hc|[Hc|Hc]]; [|done|]; exfalso.
  - assert (2 ^ Zpos (digits2_pos p) <= 2 ^ (d - 1)) by (apply Z.pow_le_mono_r; lia). lia.
  - assert (2 ^ d <= 2 ^ (Zpos (digits2_pos p) - 1)) by (apply Z.pow_le_mono_r; lia). lia.
Qed.

Lemma shr_1_div r : 0 <= shr_m r -> shr_m (shr_1 r) = shr_m r / 2.
Proof.
  destruct r as [m r s]. destruct m as [|[p|p|]|p]; cbn [shr_m shr_1]; intros H; [done| | |done|lia].
  - rewrite (Pos2Z.inj_xI p). replace (2 * Zpos p + 1) with (1 + Zpos p * 2) by lia. by rewrite Z.div_add by done.
  - rewrite (Pos2Z.inj_xO p). rewrite Z.mul_comm. by rewrite Z.div_mul.
Qed.

Lemma shr_div r e n : 0 <= n -> 0 <= shr_m r -> shr_m (shr r e n).1 = shr_m r / 2 ^ n /\ (shr r e n).2 = e + n.
Proof.
  intros Hn Hr. unfold shr. destruct n as [|p|p]; [rewrite Z.div_1_r; split; [done|simpl; lia]| |lia]. split; [|done].
  cbn [fst]. clear Hn. revert r Hr. induction p as [p IH|p IH|]; intros r Hr; cbn [iter_pos].
  - pose proof (shr_1_nonneg r Hr) as H1. pose proof (shr_nonneg (shr_1 r) e (Zpos p) H1) as H2. cbn [shr fst] in H2.
    rewrite IH, IH, shr_1_div by done. rewrite (Pos2Z.inj_xI p).
    rewrite !Z.div_div by lia. f_equal. replace (2 * Zpos p + 1) with (Zpos p + Zpos p + 1) by lia.
    rewrite !Z.pow_add_r by lia. ring.
  - pose proof (shr_nonneg r e (Zpos p) Hr) as H2. cbn [shr fst] in H2.
    rewrite IH, IH by done. rewrite (Pos2Z.inj_xO p), Z.div_div by lia. f_equal.
    replace (2 * Zpos p) with (Zpos p + Zpos p) by lia. rewrite Z.pow_add_r by lia. ring.
  - by rewrite shr_1_div.
Qed.

Lemma iter_xO m n : Zpos (Pos.iter xO m n) = Zpos m * 2 ^ Zpos n.
Proof.
  induction n as [|n IH] using Pos.peano_ind; [simpl; lia|].
  rewrite Pos.iter_succ, Pos2Z.inj_xO, IH, Pos2Z.inj_succ, Z.pow_succ_r by lia. lia.
Qed.

(** The exponent and the mantissa a rounding ends with. *)
Lemma shr_fexp_spec p e l : -1021 <= Zpos (digits2_pos p) + e ->
  let n := Z.max 0 (Zpos (digits2_pos p) - 53) in
  shr_m (shr_fexp 53 1024 (Zpos p) e l).1 = Zpos p / 2 ^ n /\ (shr_fexp 53 1024 (Zpos p) e l).2 = e + n.
Proof.
  intros H n. unfold shr_fexp. set (k := fexp _ _ _ - e).
  assert (k = Zpos (digits2_pos p) - 53) as Hk by (unfold k, fexp, emin; cbn [Zdigits2]; lia).
  assert (shr_m (shr_record_of_loc (Zpos p) l) = Zpos p) as Hm by (by destruct l as [|[]]).
  destruct (Z.leb_spec 0 k) as [Hk0|Hk0].
  - destruct (shr_div (shr_record_of_loc (Zpos p) l) e k Hk0) as [-> ->]; [rewrite Hm; lia|]. rewrite Hm.
    by replace n with k by lia.
  - replace n with 0 by lia. rewrite Z.div_1_r. destruct k; [lia|lia|]. simpl. split; [done|lia].
Qed.

(** A number with 53 binary digits or more is rounded to one that is as large as
    53 digits with the same exponent. *)
Lemma round_aux_large p e : 53 <= Zpos (digits2_pos p) -> -52 <= e ->
  f64_le (S754_finite false (2 ^ 52) (-52)) (binary_round_aux 53 1024 false (Zpos p) e loc_Exact) = true.
Proof.
  intros Hd He. unfold binary_round_aux. pose proof (digits2_bound p) as [Hlo Hhi].
  destruct (shr_fexp_spec p e loc_Exact) as [H1 H2]; [lia|]. destruct (shr_fexp 53 1024 (Zpos p) e loc_Exact) as [r1 e1].
  cbn [fst snd] in H1, H2. set (n := Z.max 0 (Zpos (digits2_pos p) - 53)) in *.
  assert (2 ^ 52 <= shr_m r1) as H3.
  { rewrite H1. apply Z.div_le_lower_bound; [lia|]. rewrite <- Z.pow_add_r by lia.
    replace (n + 52) with (Zpos (digits2_pos p) - 1) by lia. done. }
  set (m := round_nearest_even _ _). assert (2 ^ 52 <= m) as H4.
  { unfold m. destruct (loc_of_shr_record r1) as [|[]]; simpl; try lia. destruct (Z.even _); lia. }
  destruct m as [|q|q] eqn:Em; [lia| |lia]. pose proof (digits2_bound q) as [Hqlo Hqhi].
  assert (53 <= Zpos (digits2_pos q)) as Hq.
  { destruct (Z.leb_spec 53 (Zpos (digits2_pos q))); [done|].
    assert (2 ^ Zpos (digits2_pos q) <= 2 ^ 52) by (apply Z.pow_le_mono_r; lia). lia. }
  destruct (shr_fexp_spec q e1 loc_Exact) as [H5 H6]; [lia|]. destruct (shr_fexp 53 1024 (Zpos q) e1 loc_Exact) as [r2 e2].
  cbn [fst snd] in H5, H6. set (n2 := Z.max 0 (Zpos (digits2_pos q) - 53)) in *.
  assert (2 ^ 52 <= shr_m r2) as H7.
  { rewrite H5. apply Z.div_le_lower_bound; [lia|]. rewrite <- Z.pow_add_r by lia.
    replace (n2 + 52) with (Zpos (digits2_pos q) - 1) by lia. done. }
  destruct (shr_m r2) as [|m2|m2]; [lia| |lia]. destruct (e2 <=? 1024 - 53); [|done].
  unfold f64_le, SFleb. cbn [SFcompare]. destruct (Z.compare_spec (-52) e2) as [Hc|Hc|Hc]; [|done|lia].
  change (Pos.compare_cont Eq (2 ^ 52) m2) with (Pos.compare (2 ^ 52) m2).
  destruct (Pos.compare_spec (2 ^ 52) m2); [done|done|lia].
Qed.

(** The conversion of a positive count is at least one. *)
Lemma usize_positive n : (0 < n)%N -> f64_le (usize_as_f64 1) (usize_as_f64 n) = true.
Proof.
  intros Hn. replace (usize_as_f64 1) with (S754_finite false (2 ^ 52) (-52)) by (by vm_compute).
  destruct n as [|p]; [lia|]. unfold usize_as_f64. cbn [Z.of_N]. unfold binary_normalize, binary_round.
  set (k := fexp _ _ _). pose proof (digits2_bound p) as [Hlo Hhi].
  assert (k = Zpos (digits2_pos p) - 53) as Hk by (unfold k, fexp, emin; lia).
  unfold shl_align. rewrite Z.sub_0_r. destruct k as [|q|q] eqn:Ek.
  - apply round_aux_large; lia.
  - apply round_aux_large; lia.
  - apply round_aux_large; [|lia]. rewrite (digits2_unique _ 53); [done|]. rewrite iter_xO.
    replace 53 with (Zpos (digits2_pos p) + Zpos q) at 2 by lia.
    replace (53 - 1) with (Zpos (digits2_pos p) - 1 + Zpos q) by lia.
    rewrite !Z.pow_add_r by lia. nia.
Qed.
