(* ===== verification/FloatInt.v ===== *)
(** * Integers as floating-point numbers

    Arithmetic on integers below [2^53] is exact in [f64]: sums, differences,
    products, comparisons and conversions are those of the integers. *)

From S2P Require Import Prelude Ieee FloatFacts.

Local Open Scope Z_scope.

Abbreviation D p := (Zpos (digits2_pos p)).

(** ** Exact roundings *)

Lemma shr_exact m e n : 0 <= n -> shr (Build_shr_record (m * 2 ^ n) false false) e n = (Build_shr_record m false false, e + n).
Proof.
  intros Hn. unfold shr. destruct n as [|p|p]; [rewrite Z.mul_1_r, Z.add_0_r; done| |lia]. f_equal. clear Hn e.
  assert (forall m, shr_1 (Build_shr_record (m * 2) false false) = Build_shr_record m false false) as H1.
  { intros [|q|q]; [done| |]; simpl; by rewrite Pos.mul_comm. }
  revert m. induction p as [p IH|p IH|]; intros m; cbn [iter_pos].
  - replace (m * 2 ^ Zpos p~1) with (m * 2 ^ Zpos p * 2 ^ Zpos p * 2); [by rewrite H1, !IH|].
    rewrite (Pos2Z.inj_xI p). replace (2 * Zpos p + 1) with (Zpos p + Zpos p + 1) by lia. rewrite !Z.pow_add_r by lia. ring.
  - replace (m * 2 ^ Zpos p~0) with (m * 2 ^ Zpos p * 2 ^ Zpos p); [by rewrite !IH|].
    rewrite (Pos2Z.inj_xO p). replace (2 * Zpos p) with (Zpos p + Zpos p) by lia. rewrite !Z.pow_add_r by lia. ring.
  - apply H1.
Qed.

Lemma digits_shift p c n : 0 <= n -> Zpos p = Zpos c * 2 ^ n -> D p = D c + n.
Proof.
  intros Hn E. apply digits2_unique. rewrite E. pose proof (digits2_bound c) as [H1 H2].
  replace (D c + n - 1) with (D c - 1 + n) by lia. rewrite !Z.pow_add_r by lia. nia.
Qed.

Lemma round_aux_exact p e c n : D c = 53 -> 0 <= n -> Zpos p = Zpos c * 2 ^ n -> -1074 <= e + n <= 971 ->
  binary_round_aux 53 1024 false (Zpos p) e loc_Exact = S754_finite false c (e + n).
Proof.
  intros Hc Hn E He. unfold binary_round_aux, shr_fexp. cbn [Zdigits2]. rewrite (digits_shift p c n Hn E), Hc.
  unfold fexp, emin. replace (Z.max _ _ - e) with n by lia. cbn [shr_record_of_loc]. rewrite E, shr_exact by done.
  cbn [shr_m loc_of_shr_record round_nearest_even Zdigits2]. rewrite Hc.
  replace (Z.max _ _ - (e + n)) with 0 by lia. cbn [shr shr_record_of_loc shr_m].
  by rewrite (proj2 (Z.leb_le (e + n) (1024 - 53))) by lia.
Qed.

Lemma shl_align_value p e e' : e' <= e -> Zpos (shl_align p e e').1 = Zpos p * 2 ^ (e - e').
Proof.
  intros H. unfold shl_align. destruct (e' - e) as [|d|d] eqn:E; [replace (e - e') with 0 by lia; simpl; lia|lia|].
  simpl fst. rewrite iter_xO. f_equal. f_equal. lia.
Qed.

Lemma normalize_exact p e c t : D c = 53 -> -1074 <= t <= 971 ->
  (t <= e /\ Zpos c = Zpos p * 2 ^ (e - t)) \/ (e <= t /\ Zpos p = Zpos c * 2 ^ (t - e)) ->
  binary_normalize 53 1024 (Zpos p) e false = S754_finite false c t.
Proof.
  intros Hc Ht Hv. unfold binary_normalize, binary_round.
  assert (D p + e = 53 + t) as Hd.
  { destruct Hv as [[Hle E]|[Hle E]]; [pose proof (digits_shift c p (e - t) ltac:(lia) E)|pose proof (digits_shift p c (t - e) ltac:(lia) E)]; lia. }
  rewrite Hd. replace (fexp 53 1024 (53 + t)) with t by (unfold fexp, emin; lia). destruct Hv as [[Hle E]|[Hle E]].
  - pose proof (shl_align_value p e t Hle) as Hs. unfold shl_align in *. destruct (t - e) as [|d|d] eqn:Ed; [|lia|].
    + replace t with (e + 0) by lia. apply round_aux_exact; [done|done| |lia]. replace (e - t) with 0 in E by lia. rewrite Z.pow_0_r in *. lia.
    + simpl fst in Hs. rewrite <- E in Hs. injection Hs as ->. replace (S754_finite false c t) with (S754_finite false c (t + 0)) by (by rewrite Z.add_0_r).
      apply round_aux_exact; [done|done|rewrite Z.pow_0_r; lia|lia].
  - unfold shl_align. destruct (t - e) as [|d|d] eqn:Ed; [| |lia].
    + replace t with (e + 0) by lia. apply round_aux_exact; [done|done|done|lia].
    + replace t with (e + Zpos d) by lia. apply round_aux_exact; [done|done|done|lia].
Qed.

(** ** Integers *)

(** The mantissa of an integer. *)
Definition mantissa (p : positive) : positive := Z.to_pos (Zpos p * 2 ^ (53 - D p)).

Section small.
Context (p : positive) (Hp : Zpos p < 2 ^ 53).

Lemma small_digits : 1 <= D p <= 53.
Proof.
  pose proof (digits2_bound p) as [H1 H2]. split; [lia|]. destruct (Z.leb_spec (D p) 53); [done|].
  assert (2 ^ 53 <= 2 ^ (D p - 1)) by (apply Z.pow_le_mono_r; lia). lia.
Qed.

Lemma mantissa_value : Zpos (mantissa p) = Zpos p * 2 ^ (53 - D p).
Proof. unfold mantissa. pose proof small_digits. apply Z2Pos.id. nia. Qed.

Lemma mantissa_digits : D (mantissa p) = 53.
Proof. pose proof small_digits. rewrite (digits_shift (mantissa p) p (53 - D p)); [lia|lia|apply mantissa_value]. Qed.

(** A number with an integer value is that integer. *)
Lemma normalize_int m e : e <= 0 -> m = Zpos p * 2 ^ (- e) -> binary_normalize 53 1024 m e false = S754_finite false (mantissa p) (D p - 53).
Proof.
  intros He Hm. pose proof small_digits as Hd. destruct m as [|q|q]; [nia| |nia].
  apply normalize_exact; [apply mantissa_digits|lia|]. rewrite mantissa_value. destruct (Z.leb_spec (D p - 53) e) as [Hle|Hle].
  - left. split; [done|]. rewrite Hm, <- Z.mul_assoc, <- Z.pow_add_r by lia. do 2 f_equal. lia.
  - right. split; [lia|]. rewrite Hm, <- Z.mul_assoc, <- Z.pow_add_r by lia. do 2 f_equal. lia.
Qed.

Lemma usize_small : usize_as_f64 (Npos p) = S754_finite false (mantissa p) (D p - 53).
Proof. unfold usize_as_f64. simpl Z.of_N. apply normalize_int; [done|]. simpl. lia. Qed.
End small.

Lemma usize_int n m e : (n < 2 ^ 53)%N -> e <= 0 -> m = Z.of_N n * 2 ^ (- e) -> binary_normalize 53 1024 m e false = usize_as_f64 n.
Proof.
  intros Hn He Hm. destruct n as [|p]; [by rewrite Hm|]. rewrite usize_small by lia. by apply normalize_int; [lia| |].
Qed.

Lemma aligned p e : Zpos p < 2 ^ 53 -> e <= D p - 53 -> Zpos (shl_align (mantissa p) (D p - 53) e).1 = Zpos p * 2 ^ (- e).
Proof.
  intros Hp He. pose proof (small_digits p Hp). rewrite shl_align_value, mantissa_value, <- Z.mul_assoc, <- Z.pow_add_r by (done || lia).
  do 2 f_equal. lia.
Qed.

Section arithmetic.
Context (a b : N) (Ha : (a < 2 ^ 53)%N) (Hb : (b < 2 ^ 53)%N).

Lemma add_int : (a + b < 2 ^ 53)%N -> f64_add (usize_as_f64 a) (usize_as_f64 b) = usize_as_f64 (a + b).
Proof.
  intros Hs. destruct a as [|p], b as [|q]; [done|rewrite N.add_0_l, usize_small by lia; done|rewrite N.add_0_r, usize_small by lia; done|].
  rewrite (usize_small p), (usize_small q) by lia. unfold f64_add, SFadd. cbn [cond_Zopp]. pose proof (small_digits p). pose proof (small_digits q).
  rewrite !aligned by lia. apply usize_int; [lia|lia|]. rewrite N2Z.inj_add. simpl. lia.
Qed.

Lemma sub_int : (b <= a)%N -> f64_sub (usize_as_f64 a) (usize_as_f64 b) = usize_as_f64 (a - b).
Proof.
  intros Hs. destruct b as [|q]; [destruct a as [|p]; [done|]; rewrite N.sub_0_r, usize_small by lia; done|].
  destruct a as [|p]; [lia|]. rewrite (usize_small p), (usize_small q) by lia. unfold f64_sub, SFsub. cbn [cond_Zopp].
  pose proof (small_digits p). pose proof (small_digits q). rewrite !aligned by lia. apply usize_int; [lia|lia|].
  rewrite N2Z.inj_sub by done. simpl. lia.
Qed.

Lemma mul_int : (a * b < 2 ^ 53)%N -> f64_mul (usize_as_f64 a) (usize_as_f64 b) = usize_as_f64 (a * b).
Proof.
  intros Hs. destruct a as [|p]; [destruct b as [|q]; [done|]; rewrite (usize_small q) by lia; done|].
  destruct b as [|q]; [rewrite usize_small by lia; done|]. change (Npos p * Npos q)%N with (Npos (p * q)).
  rewrite !usize_small by lia. unfold f64_mul, SFmul. cbn [xorb].
  pose proof (small_digits p ltac:(lia)). pose proof (small_digits q ltac:(lia)). pose proof (small_digits (p * q) ltac:(lia)).
  assert (D p + D q <= D (p * q) + 1) as Hd.
  { pose proof (digits2_bound p) as [Hp _]. pose proof (digits2_bound q) as [Hq _]. pose proof (digits2_bound (p * q)) as [_ Hpq].
    destruct (Z.leb_spec (D p + D q) (D (p * q) + 1)); [done|]. exfalso.
    assert (2 ^ D (p * q) <= 2 ^ ((D p - 1) + (D q - 1))) as Hle by (apply Z.pow_le_mono_r; lia). rewrite Z.pow_add_r in Hle by lia. nia. }
  rewrite (round_aux_exact _ _ (mantissa (p * q)) (D (p * q) + 53 - D p - D q)); [f_equal; lia|apply mantissa_digits; lia|lia| |lia].
  rewrite Pos2Z.inj_mul, !mantissa_value by lia. rewrite Pos2Z.inj_mul.
  assert (2 ^ (53 - D p) * 2 ^ (53 - D q) = 2 ^ (53 - D (p * q)) * 2 ^ (D (p * q) + 53 - D p - D q)) as E.
  { rewrite <- !Z.pow_add_r by lia. f_equal. lia. }
  transitivity (Zpos p * Zpos q * (2 ^ (53 - D p) * 2 ^ (53 - D q))); [ring|]. rewrite E. ring.
Qed.

Lemma compare_int : SFcompare (usize_as_f64 a) (usize_as_f64 b) = Some (a ?= b)%N.
Proof.
  destruct a as [|p], b as [|q]; [done|by rewrite usize_small by lia..|]. rewrite (usize_small p), (usize_small q) by lia. cbn [SFcompare].
  pose proof (digits2_bound p) as [H1 H2]. pose proof (digits2_bound q) as [H3 H4]. change (Npos p ?= Npos q)%N with (p ?= q)%positive.
  destruct (Z.compare_spec (D p - 53) (D q - 53)) as [Hd|Hd|Hd]; f_equal.
  - change (Pos.compare_cont Eq (mantissa p) (mantissa q)) with (mantissa p ?= mantissa q)%positive.
    pose proof (mantissa_value p ltac:(lia)) as Hm1. pose proof (mantissa_value q ltac:(lia)) as Hm2.
    replace (D q) with (D p) in Hm2 by lia. pose proof (small_digits p ltac:(lia)).
    assert (0 < 2 ^ (53 - D p)) by lia.
    destruct (Pos.compare_spec p q), (Pos.compare_spec (mantissa p) (mantissa q)); try done; exfalso; subst; nia.
  - symmetry. apply Pos.compare_lt_iff. assert (2 ^ D p <= 2 ^ (D q - 1)) by (apply Z.pow_le_mono_r; lia). lia.
  - symmetry. apply Pos.compare_gt_iff. assert (2 ^ D q <= 2 ^ (D p - 1)) by (apply Z.pow_le_mono_r; lia). lia.
Qed.

End arithmetic.

Lemma min_int a b : (a < 2 ^ 53)%N -> (b < 2 ^ 53)%N -> f64_min (usize_as_f64 a) (usize_as_f64 b) = usize_as_f64 (N.min a b).
Proof.
  intros Ha Hb. assert (forall n, (n < 2 ^ 53)%N -> is_nan (usize_as_f64 n) = false) as Hn by (intros [|p] H; [done|by rewrite usize_small by lia]).
  unfold f64_min. rewrite !Hn by done. unfold SFltb. rewrite compare_int by done. destruct (N.compare_spec b a); f_equal; lia.
Qed.

Lemma max_zero_int a : (a < 2 ^ 53)%N -> f64_max (usize_as_f64 a) (S754_zero false) = usize_as_f64 a.
Proof. intros Ha. destruct a as [|p]; [done|]. by rewrite usize_small by lia. Qed.

(** The value of an integer. *)
Lemma ratio_int a : (a < 2 ^ 53)%N -> exists n d, f64_ratio (usize_as_f64 a) = Some (n, d) /\ 0 < d /\ n = Z.of_N a * d.
Proof.
  intros Ha. destruct a as [|p]; [by exists 0, 1|]. rewrite usize_small by lia. pose proof (small_digits p ltac:(lia)).
  unfold f64_ratio. cbn [cond_Zopp]. eexists _, _. split; [done|]. rewrite mantissa_value by lia.
  replace (Z.max (D p - 53) 0) with 0 by lia. replace (Z.max (- (D p - 53)) 0) with (53 - D p) by lia. simpl. lia.
Qed.

Lemma ceil_int a : (a < 2 ^ 53)%N -> f64_ceil (usize_as_f64 a) = usize_as_f64 a.
Proof.
  intros Ha. destruct (ratio_int a Ha) as (n & d & E & Hd & ->). unfold f64_ceil. rewrite E.
  replace (- (- (Z.of_N a * d) / d)) with (Z.of_N a) by (rewrite <- Z.mul_opp_l, Z.div_mul; lia).
  destruct a as [|p]; [done|]. rewrite usize_small by lia. cbn [is_negative]. rewrite <- usize_small by lia. done.
Qed.

Lemma as_usize_int a : (a < 2 ^ 53)%N -> f64_as_usize (usize_as_f64 a) = a.
Proof.
  intros Ha. destruct (ratio_int a Ha) as (n & d & E & Hd & ->). unfold f64_as_usize. rewrite E, Z.div_mul by lia. rewrite N2Z.id.
  replace (N.min a u64_max) with a by (unfold u64_max, u64_mod; lia). destruct a as [|p]; [done|]. by rewrite usize_small by lia.
Qed.

(** ** Counts of any size *)

Lemma digits_div p n : 0 <= n < D p -> exists q, Zpos p / 2 ^ n = Zpos q /\ D q = D p - n.
Proof.
  intros Hn. pose proof (digits2_bound p) as [H1 H2].
  assert (2 ^ (D p - n - 1) <= Zpos p / 2 ^ n < 2 ^ (D p - n)) as Hq.
  { split.
    - apply Z.div_le_lower_bound; [lia|]. rewrite <- Z.pow_add_r by lia. by replace (n + (D p - n - 1)) with (D p - 1) by lia.
    - apply Z.div_lt_upper_bound; [lia|]. rewrite <- Z.pow_add_r by lia. by replace (n + (D p - n)) with (D p) by lia. }
  destruct (Zpos p / 2 ^ n) as [|q|q]; [|by exists q; split; [|apply digits2_unique]|].
  all: assert (0 < 2 ^ (D p - n - 1)) by (apply Z.pow_pos_nonneg; lia); lia.
Qed.

Lemma digits_succ p : D p <= D (Pos.succ p) <= D p + 1.
Proof.
  pose proof (digits2_bound p) as [H1 H2]. pose proof (digits2_bound (Pos.succ p)) as [H3 H4]. rewrite Pos2Z.inj_succ in H3, H4.
  split; apply Z.le_ngt; intros Hlt.
  - assert (2 ^ D (Pos.succ p) <= 2 ^ (D p - 1)) by (apply Z.pow_le_mono_r; lia). lia.
  - assert (2 ^ (D p + 1) <= 2 ^ (D (Pos.succ p) - 1)) as H by (apply Z.pow_le_mono_r; lia). rewrite Z.pow_add_r in H by lia. lia.
Qed.

(** Rounding keeps a number in range. *)
Lemma round_aux_finite p e : -1021 <= D p + e <= 900 -> exists m e',
  binary_round_aux 53 1024 false (Zpos p) e loc_Exact = S754_finite false m e' /\ D p + e <= D m + e' <= D p + e + 1 /\ D m <= 53.
Proof.
  intros He. unfold binary_round_aux. destruct (shr_fexp_spec p e loc_Exact) as [H1 H2]; [lia|].
  destruct (shr_fexp 53 1024 (Zpos p) e loc_Exact) as [r1 e1]. cbn [fst snd] in H1, H2.
  destruct (digits_div p (Z.max 0 (D p - 53))) as (q & Hq & Dq); [lia|]. rewrite Hq in H1. rewrite H1.
  assert (exists u, round_nearest_even (Zpos q) (loc_of_shr_record r1) = Zpos u /\ D q <= D u <= D q + 1) as (u & -> & Hu).
  { pose proof (digits_succ q). assert (Zpos q + 1 = Zpos (Pos.succ q)) as Hs by lia.
    destruct (loc_of_shr_record r1) as [|[]]; cbn [round_nearest_even]; rewrite ?Hs; try destruct (Z.even _).
    all: first [exists q; split; [reflexivity|lia]|exists (Pos.succ q); split; [reflexivity|lia]]. }
  destruct (shr_fexp_spec u e1 loc_Exact) as [H3 H4]; [lia|]. destruct (shr_fexp 53 1024 (Zpos u) e1 loc_Exact) as [r2 e2].
  cbn [fst snd] in H3, H4. destruct (digits_div u (Z.max 0 (D u - 53))) as (v & Hv & Dv); [lia|]. rewrite Hv in H3. rewrite H3.
  rewrite (proj2 (Z.leb_le _ _)) by lia. exists v, e2. split; [done|lia].
Qed.

Lemma usize_finite p : D p <= 64 -> exists m e, usize_as_f64 (Npos p) = S754_finite false m e /\ D p <= D m + e <= D p + 1.
Proof.
  intros Hp. unfold usize_as_f64. simpl Z.of_N. unfold binary_normalize, binary_round, shl_align.
  replace (fexp _ _ _) with (D p - 53) by (unfold fexp, emin; lia). rewrite Z.sub_0_r. destruct (D p - 53) as [|q|q] eqn:E.
  - destruct (round_aux_finite p 0) as (m & e & -> & H); [lia|]. exists m, e. split; [done|lia].
  - destruct (round_aux_finite p 0) as (m & e & -> & H); [lia|]. exists m, e. split; [done|lia].
  - pose proof (digits_shift (Pos.iter xO p q) p (Zpos q) ltac:(lia) (iter_xO p q)) as Hd.
    destruct (round_aux_finite (Pos.iter xO p q) (Zneg q)) as (m & e & -> & H); [lia|]. exists m, e. split; [done|lia].
Qed.

Lemma u64_digits p : (Npos p < u64_mod)%N -> D p <= 64.
Proof.
  intros H. unfold u64_mod in H. pose proof (digits2_bound p) as [H1 _]. apply Z.le_ngt. intros Hlt.
  assert (2 ^ 64 <= 2 ^ (D p - 1)) by (apply Z.pow_le_mono_r; lia). lia.
Qed.

(** The product of two counts is finite, and zero only when one of them is. *)
Lemma mul_usize_finite a b : (a < u64_mod)%N -> (b < u64_mod)%N ->
  (f64_mul (usize_as_f64 a) (usize_as_f64 b) = S754_zero false /\ (a = 0 \/ b = 0)%N) \/
  exists m e, f64_mul (usize_as_f64 a) (usize_as_f64 b) = S754_finite false m e /\ -52 <= e /\ (0 < a)%N.
Proof.
  intros Ha Hb. destruct a as [|p].
  { left. destruct b as [|q]; [auto|]. destruct (usize_finite q (u64_digits q Hb)) as (m & e & -> & _). auto. }
  destruct (usize_finite p (u64_digits p Ha)) as (m & e & -> & H1). destruct b as [|q]; [by auto|].
  destruct (usize_finite q (u64_digits q Hb)) as (m' & e' & -> & H2). right. unfold f64_mul, SFmul. cbn [xorb].
  pose proof (u64_digits p Ha). pose proof (u64_digits q Hb).
  assert (D m + D m' - 1 <= D (m * m') <= D m + D m') as Hd.
  { pose proof (digits2_bound m) as [? ?]. pose proof (digits2_bound m') as [? ?]. pose proof (digits2_bound (m * m')) as [? ?].
    rewrite Pos2Z.inj_mul in *. split; apply Z.le_ngt; intros Hlt.
    - assert (2 ^ D (m * m') <= 2 ^ ((D m - 1) + (D m' - 1))) as Hle by (apply Z.pow_le_mono_r; lia). rewrite Z.pow_add_r in Hle by lia. nia.
    - assert (2 ^ (D m + D m') <= 2 ^ (D (m * m') - 1)) as Hle by (apply Z.pow_le_mono_r; lia). rewrite Z.pow_add_r in Hle by lia. nia. }
  destruct (round_aux_finite (m * m') (e + e')) as (x & y & -> & H3 & H4); [lia|]. eexists _, _. split_and!; [done|lia|done].
Qed.

(** The total order of integers. *)
Lemma key_small p : Zpos p < 2 ^ 53 -> f64_key (usize_as_f64 (Npos p)) = (D p + 1021) * 2 ^ 52 + Zpos (mantissa p).
Proof.
  intros Hp. rewrite usize_small by done. unfold f64_key, f64_magnitude. cbn [is_negative].
  pose proof (digits2_bound (mantissa p)) as [H _]. rewrite mantissa_digits in H by done.
  rewrite (proj2 (Z.ltb_ge _ _)) by (change (2 ^ (53 - 1)) with (2 ^ 52) in H; lia). lia.
Qed.

Lemma total_int a b : (a < 2 ^ 53)%N -> (b < 2 ^ 53)%N -> total_cmp (usize_as_f64 a) (usize_as_f64 b) = (a ?= b)%N.
Proof.
  intros Ha Hb. assert (forall p q, Zpos p < 2 ^ 53 -> Zpos q < 2 ^ 53 -> Zpos p < Zpos q ->
    f64_key (usize_as_f64 (Npos p)) < f64_key (usize_as_f64 (Npos q))) as Hlt.
  { intros p q Hp Hq Hpq. rewrite !key_small by done. pose proof (digits2_bound p) as [P1 P2]. pose proof (digits2_bound q) as [Q1 Q2].
    pose proof (digits2_bound (mantissa p)) as M1. pose proof (digits2_bound (mantissa q)) as M2. rewrite mantissa_digits in M1, M2 by done.
    change (2 ^ (53 - 1)) with (2 ^ 52) in M1, M2. change (2 ^ 53) with (2 * 2 ^ 52) in M1, M2.
    assert (D p <= D q) as Hd.
    { apply Z.le_ngt. intros Hd. assert (2 ^ D q <= 2 ^ (D p - 1)) by (apply Z.pow_le_mono_r; lia). lia. }
    destruct (decide (D p = D q)) as [E|]; [|nia]. rewrite E, !mantissa_value, E by done. pose proof (small_digits q Hq). nia. }
  assert (forall p, Zpos p < 2 ^ 53 -> 0 < f64_key (usize_as_f64 (Npos p))) as H0 by (intros p Hp; rewrite key_small by done; lia).
  unfold total_cmp. destruct a as [|p], b as [|q]; change (f64_key (usize_as_f64 0)) with 0.
  - done.
  - apply Z.compare_lt_iff, H0. lia.
  - apply Z.compare_gt_iff, H0. lia.
  - change (Npos p ?= Npos q)%N with (p ?= q)%positive. destruct (Pos.compare_spec p q) as [->|H|H].
    + apply Z.compare_refl.
    + apply Z.compare_lt_iff, Hlt; lia.
    + apply Z.compare_gt_iff, Hlt; lia.
Qed.
