(* ===== verification/KvSlots.v ===== *)
(** * Request slots of the KV-aware policy ([InMemorySlotManager] and
      [KvRequestSlot] of [src/policies/kv_aware.rs])

    The router's own count of the work it sent to each target: the prompt tokens
    that are still to be computed and the requests that are not finished.  The
    handle of a request is cloned and used by several tasks, so the change of
    its phase and the update of the counters it causes are separate steps. *)

From S2P Require Import Prelude KvTypes.

Local Open Scope N_scope.

(** ** Counters *)

Record SlotCounters := MkCounters {
  active_prefill_tokens : N;   (* AtomicU64 *)
  active_requests : N;         (* AtomicUsize *)
}.

Abbreviation InMemorySlotManager := (gmap RoutableTarget SlotCounters).

Definition default_counters : SlotCounters := MkCounters 0 0.

(** [sample]; a [LoadSample] has the fields of the counters. *)
Definition sample (t : RoutableTarget) (m : InMemorySlotManager) : SlotCounters := default default_counters (m !! t).

Definition update_or_insert (t : RoutableTarget) (update : SlotCounters -> SlotCounters) (m : InMemorySlotManager)
  : InMemorySlotManager := <[t := update (default default_counters (m !! t))]> m.

Definition prune_if_idle (t : RoutableTarget) (m : InMemorySlotManager) : InMemorySlotManager :=
  match m !! t with
  | Some c => if (active_requests c =? 0) && (active_prefill_tokens c =? 0) then delete t m else m
  | None => m
  end.

Definition begin_prefill (t : RoutableTarget) (prefill_tokens : N) (m : InMemorySlotManager) : InMemorySlotManager :=
  update_or_insert t (fun c =>
    MkCounters (u64_wrapping_add (active_prefill_tokens c) prefill_tokens) (u64_wrapping_add (active_requests c) 1)) m.

Definition begin_decode (prefill_target decode_target : RoutableTarget) (prefill_tokens : N) (m : InMemorySlotManager)
  : InMemorySlotManager :=
  if decide (prefill_target = decode_target) then
    update_or_insert prefill_target (fun c =>
      MkCounters (saturating_sub (active_prefill_tokens c) prefill_tokens) (active_requests c)) m
  else
    let m := update_or_insert prefill_target (fun c =>
      MkCounters (saturating_sub (active_prefill_tokens c) prefill_tokens) (saturating_sub (active_requests c) 1)) m in
    let m := update_or_insert decode_target (fun c =>
      MkCounters (active_prefill_tokens c) (u64_wrapping_add (active_requests c) 1)) m in
    prune_if_idle prefill_target m.

(** The two steps of [free]. *)
Definition release_request (t : RoutableTarget) (m : InMemorySlotManager) : InMemorySlotManager :=
  alter (fun c => MkCounters (active_prefill_tokens c) (saturating_sub (active_requests c) 1)) t m.

Definition free (t : RoutableTarget) (m : InMemorySlotManager) : InMemorySlotManager :=
  prune_if_idle t (release_request t m).

Definition slot_unregister_target (t : RoutableTarget) (m : InMemorySlotManager) : InMemorySlotManager := prune_if_idle t m.

(** ** Handles *)

(** The values 0, 1 and 2 of the shared state. *)
Inductive phase := InPrefill | InDecode | Freed.

#[export] Instance phase_eq_dec : EqDecision phase.
Proof. solve_decision. Defined.

Record KvRequestSlot := MkSlot {
  slot_target : RoutableTarget;
  slot_prefill_tokens : N;
  slot_phase : phase;
}.

(** The calls of one task with no other in between. *)
Definition slot_begin_decode (s : KvRequestSlot) (m : InMemorySlotManager) : KvRequestSlot * InMemorySlotManager :=
  match slot_phase s with
  | InPrefill => (MkSlot (slot_target s) (slot_prefill_tokens s) InDecode,
                  begin_decode (slot_target s) (slot_target s) (slot_prefill_tokens s) m)
  | _ => (s, m)
  end.

Definition slot_release (s : KvRequestSlot) (m : InMemorySlotManager) : KvRequestSlot * InMemorySlotManager :=
  let '(s, m) := slot_begin_decode s m in
  match slot_phase s with
  | InDecode => (MkSlot (slot_target s) (slot_prefill_tokens s) Freed, free (slot_target s) m)
  | _ => (s, m)
  end.

(** ** Tasks that share handles *)

(** What a task does to the counters after it won a change of phase. *)
Inductive action :=
| DoDecode (t : RoutableTarget) (tokens : N)
| DoFree (t : RoutableTarget)
| DoPrune (t : RoutableTarget).

Record System := MkSystem {
  manager : InMemorySlotManager;
  handles : gmap nat KvRequestSlot;
  pending : list action;
}.

Definition empty_system : System := MkSystem ∅ ∅ [].

Inductive event :=
| Begin (id : nat) (t : RoutableTarget) (tokens : N)
| CasDecode (id : nat)
| CasFree (id : nat)
| Act (i : nat)
| Unregister (t : RoutableTarget).

Definition set_phase (p : phase) (s : KvRequestSlot) : KvRequestSlot := MkSlot (slot_target s) (slot_prefill_tokens s) p.

(** [begin_request] makes a handle; [begin_decode] is [CasDecode], and [release]
    is [CasDecode] and [CasFree], each with its action some time later. *)
Definition perform (e : event) (s : System) : System :=
  match e with
  | Begin id t tokens =>
      match handles s !! id with
      | Some _ => s
      | None => MkSystem (begin_prefill t tokens (manager s)) (<[id := MkSlot t tokens InPrefill]> (handles s)) (pending s)
      end
  | CasDecode id =>
      match handles s !! id with
      | Some (MkSlot t tokens InPrefill) =>
          MkSystem (manager s) (<[id := MkSlot t tokens InDecode]> (handles s)) (DoDecode t tokens :: pending s)
      | _ => s
      end
  | CasFree id =>
      match handles s !! id with
      | Some (MkSlot t tokens InDecode) =>
          MkSystem (manager s) (<[id := MkSlot t tokens Freed]> (handles s)) (DoFree t :: pending s)
      | _ => s
      end
  | Act i =>
      match pending s !! i with
      | Some (DoDecode t tokens) => MkSystem (begin_decode t t tokens (manager s)) (handles s) (delete i (pending s))
      | Some (DoFree t) => MkSystem (release_request t (manager s)) (handles s) (DoPrune t :: delete i (pending s))
      | Some (DoPrune t) => MkSystem (prune_if_idle t (manager s)) (handles s) (delete i (pending s))
      | None => s
      end
  | Unregister t => MkSystem (slot_unregister_target t (manager s)) (handles s) (pending s)
  end.

Definition run (es : list event) (s : System) : System := foldl (fun s e => perform e s) s es.

(** ** Accounting *)

Definition sum_of {A} (f : A -> N) (l : list A) : N := foldr (fun x n => f x + n) 0 l.

(** The prompt tokens of a request that count for the target, and the request. *)
Definition owed_tokens (t : RoutableTarget) (s : KvRequestSlot) : N :=
  if decide (slot_target s = t /\ slot_phase s = InPrefill) then slot_prefill_tokens s else 0.

Definition owed_request (t : RoutableTarget) (s : KvRequestSlot) : N :=
  if decide (slot_target s = t /\ slot_phase s <> Freed) then 1 else 0.

Definition late_tokens (t : RoutableTarget) (a : action) : N :=
  match a with DoDecode t' n => if decide (t' = t) then n else 0 | _ => 0 end.

Definition late_request (t : RoutableTarget) (a : action) : N :=
  match a with DoFree t' => if decide (t' = t) then 1 else 0 | _ => 0 end.

Definition owed (t : RoutableTarget) (s : System) : SlotCounters :=
  MkCounters (gmap_sum (owed_tokens t) (handles s) + sum_of (late_tokens t) (pending s))
    (gmap_sum (owed_request t) (handles s) + sum_of (late_request t) (pending s)).

(** What the requests of a history may add up to. *)
Definition begun (es : list event) : N := sum_of (fun e => match e with Begin _ _ n => n + 1 | _ => 0 end) es.

Record system_ok (room : N) (s : System) : Prop := {
  so_sample : forall t, sample t (manager s) = owed t s;
  so_room : forall t, active_prefill_tokens (owed t s) + active_requests (owed t s) + room < u64_mod;
}.

(** ** Lemmas *)

Lemma sum_of_delete {A} (f : A -> N) l i x : l !! i = Some x -> sum_of f l = f x + sum_of f (delete i l).
Proof.
  unfold sum_of. revert i. induction l as [|y l IH]; intros [|i] Hi; simpl in *; simplify_eq; [done|]. rewrite (IH i Hi). lia.
Qed.

Lemma sample_update t t' f m : sample t (update_or_insert t' f m) = if decide (t' = t) then f (sample t m) else sample t m.
Proof. unfold sample, update_or_insert. case_decide; [subst; by rewrite lookup_insert_eq|by rewrite lookup_insert_ne]. Qed.

Lemma sample_prune t t' m : sample t (prune_if_idle t' m) = sample t m.
Proof.
  unfold prune_if_idle. destruct (m !! t') as [c|] eqn:Hc; [|done]. destruct (_ && _) eqn:Hz; [|done].
  apply andb_true_iff in Hz as [H1%N.eqb_eq H2%N.eqb_eq]. unfold sample. destruct (decide (t' = t)) as [->|Hne].
  - rewrite lookup_delete_eq, Hc. destruct c. simpl in *. by subst.
  - by rewrite lookup_delete_ne.
Qed.

Lemma sample_release t t' m : sample t (release_request t' m) =
  if decide (t' = t) then MkCounters (active_prefill_tokens (sample t m)) (active_requests (sample t m) - 1) else sample t m.
Proof.
  unfold sample, release_request. case_decide; [subst; rewrite lookup_alter_eq|by rewrite lookup_alter_ne].
  by destruct (m !! t).
Qed.

(** A handle changes. *)
Lemma owed_update t s m id slot slot' acts : handles s !! id = Some slot ->
  active_prefill_tokens (owed t (MkSystem m (<[id := slot']> (handles s)) acts)) + owed_tokens t slot + sum_of (late_tokens t) (pending s)
    = active_prefill_tokens (owed t s) + owed_tokens t slot' + sum_of (late_tokens t) acts /\
  active_requests (owed t (MkSystem m (<[id := slot']> (handles s)) acts)) + owed_request t slot + sum_of (late_request t) (pending s)
    = active_requests (owed t s) + owed_request t slot' + sum_of (late_request t) acts.
Proof.
  intros Hid. pose proof (gmap_sum_update (owed_tokens t) _ id slot slot' Hid). pose proof (gmap_sum_update (owed_request t) _ id slot slot' Hid).
  unfold owed. simpl. lia.
Qed.

Lemma counters_eq c c' : active_prefill_tokens c = active_prefill_tokens c' -> active_requests c = active_requests c' -> c = c'.
Proof. destruct c, c'. simpl. congruence. Qed.

(** A task wins a change of phase: the counters still owe what it has to do. *)
Lemma cas_ok room s id t n p p' a : system_ok room s -> handles s !! id = Some (MkSlot t n p) ->
  (forall t', owed_tokens t' (MkSlot t n p) = owed_tokens t' (MkSlot t n p') + late_tokens t' a) ->
  (forall t', owed_request t' (MkSlot t n p) = owed_request t' (MkSlot t n p') + late_request t' a) ->
  system_ok room (MkSystem (manager s) (<[id := MkSlot t n p']> (handles s)) (a :: pending s)).
Proof.
  intros [Hs Hr] Hid Ht Hq.
  assert (forall t', owed t' (MkSystem (manager s) (<[id := MkSlot t n p']> (handles s)) (a :: pending s)) = owed t' s) as Ho.
  { intros t'. pose proof (owed_update t' s (manager s) id _ (MkSlot t n p') (a :: pending s) Hid) as [H1 H2].
    specialize (Ht t'). specialize (Hq t'). unfold sum_of in H1, H2. cbn [foldr] in H1, H2. apply counters_eq; lia. }
  split; intros t'; rewrite Ho; [apply Hs|apply Hr].
Qed.

(** An action that is due is done. *)
Lemma act_ok room s i a m acts : system_ok room s -> pending s !! i = Some a ->
  (forall t, sum_of (late_tokens t) acts = sum_of (late_tokens t) (delete i (pending s))) ->
  (forall t, sum_of (late_request t) acts = sum_of (late_request t) (delete i (pending s))) ->
  (forall t, late_tokens t a <= active_prefill_tokens (sample t (manager s)) -> late_request t a <= active_requests (sample t (manager s)) ->
    sample t m = MkCounters (active_prefill_tokens (sample t (manager s)) - late_tokens t a)
                   (active_requests (sample t (manager s)) - late_request t a)) ->
  system_ok room (MkSystem m (handles s) acts).
Proof.
  intros [Hs Hr] Hi H1 H2 Hm.
  assert (forall t, owed t s = MkCounters (active_prefill_tokens (owed t (MkSystem m (handles s) acts)) + late_tokens t a)
    (active_requests (owed t (MkSystem m (handles s) acts)) + late_request t a)) as Ho.
  { intros t. unfold owed. simpl. rewrite H1, H2, (sum_of_delete (late_tokens t) _ i a Hi), (sum_of_delete (late_request t) _ i a Hi).
    f_equal; lia. }
  split; intros t; specialize (Ho t); specialize (Hs t); specialize (Hr t).
  - cbn [manager]. rewrite Hm by (rewrite Hs, Ho; cbn [active_prefill_tokens active_requests]; lia). rewrite Hs, Ho.
    apply counters_eq; cbn [active_prefill_tokens active_requests]; lia.
  - rewrite Ho in Hr. cbn [active_prefill_tokens active_requests] in Hr. lia.
Qed.

Lemma begin_ok room s id t n : system_ok (room + (n + 1)) s -> handles s !! id = None ->
  system_ok room (MkSystem (begin_prefill t n (manager s)) (<[id := MkSlot t n InPrefill]> (handles s)) (pending s)).
Proof.
  intros [Hs Hr] Hid.
  assert (forall t', owed t' (MkSystem (begin_prefill t n (manager s)) (<[id := MkSlot t n InPrefill]> (handles s)) (pending s))
    = if decide (t = t') then MkCounters (active_prefill_tokens (owed t' s) + n) (active_requests (owed t' s) + 1) else owed t' s) as Ho.
  { intros t'. unfold owed. simpl. rewrite !gmap_sum_insert by done. unfold owed_tokens at 1, owed_request at 1. simpl.
    destruct (decide (t = t')) as [->|Hne].
    - rewrite !decide_True by (split; done). f_equal; lia.
    - rewrite !decide_False by (intros [? _]; done). f_equal; lia. }
  split; intros t'; rewrite Ho; [simpl|]; specialize (Hs t'); specialize (Hr t').
  - unfold begin_prefill. rewrite sample_update. case_decide; [|done]. rewrite Hs. unfold u64_wrapping_add.
    by rewrite !N.mod_small by lia.
  - case_decide; cbn [active_prefill_tokens active_requests]; lia.
Qed.

Lemma slots_perform_ok room e s : system_ok (room + begun [e]) s -> system_ok room (perform e s).
Proof.
  intros H. assert (system_ok room s) as Hs by (destruct H as [Hs Hr]; split; [done|]; intros t; specialize (Hr t); lia).
  destruct e as [id t n|id|id|i|t]; simpl.
  - destruct (handles s !! id) eqn:Hid; [done|]. apply begin_ok; [|done]. unfold begun, sum_of in H. simpl in H. by rewrite N.add_0_r in H.
  - destruct (handles s !! id) as [[t n []]|] eqn:Hid; try done. apply (cas_ok room s id t n InPrefill InDecode); try done; intros t'.
    all: unfold owed_tokens, owed_request, late_tokens, late_request; simpl; repeat case_decide; naive_solver lia.
  - destruct (handles s !! id) as [[t n []]|] eqn:Hid; try done. apply (cas_ok room s id t n InDecode Freed); try done; intros t'.
    all: unfold owed_tokens, owed_request, late_tokens, late_request; simpl; repeat case_decide; naive_solver lia.
  - destruct (pending s !! i) as [[t n|t|t]|] eqn:Hi; [| | |done].
    + apply (act_ok room s i (DoDecode t n)); try done. intros t'. simpl. unfold begin_decode. destruct (decide (t = t)) as [_|]; [|done].
      rewrite sample_update. case_decide; intros _ _; apply counters_eq; simpl; unfold saturating_sub; lia.
    + apply (act_ok room s i (DoFree t)); try done. intros t'. simpl. rewrite sample_release.
      case_decide; intros _ _; apply counters_eq; simpl; lia.
    + apply (act_ok room s i (DoPrune t)); try done. intros t' _ _. rewrite sample_prune. apply counters_eq; simpl; lia.
  - destruct Hs as [Hs Hr]. split; intros t'; [|apply Hr]. simpl. unfold slot_unregister_target. rewrite sample_prune. apply Hs.
Qed.

Lemma slots_run_ok es room s : system_ok (room + begun es) s -> system_ok room (run es s).
Proof.
  revert s. induction es as [|e es IH]; intros s Hs; [by rewrite N.add_0_r in Hs|]. apply IH, slots_perform_ok.
  assert (begun (e :: es) = begun [e] + begun es) as E by (unfold begun, sum_of; simpl; lia). rewrite E in Hs.
  by rewrite <- N.add_assoc, (N.add_comm (begun es)).
Qed.

(** ** Properties *)

(** C34: the slots count the open requests exactly.  However the tasks that share
    the handles of requests overlap, the counters of a target are the prompt
    tokens of its requests in prefill and the number of its requests that are
    not freed, up to what tasks still have to take off; nothing is taken off
    twice, and when no task is at work and all requests are freed the target
    counts as idle. *)
Theorem slots_exact es t : begun es < u64_mod -> let s := run es empty_system in
  sample t (manager s) = owed t s /\
  (pending s = [] -> (forall id slot, handles s !! id = Some slot -> slot_phase slot = Freed) -> sample t (manager s) = default_counters).
Proof.
  intros Hb s. assert (system_ok 0 s) as [Hs _].
  { apply slots_run_ok. split; intros t'; unfold owed; simpl; rewrite !gmap_sum_empty; [done|]. unfold sum_of. simpl. lia. }
  split; [apply Hs|]. intros Hp Hall. rewrite Hs. unfold owed. rewrite Hp.
  assert (forall f : KvRequestSlot -> N, (forall slot, slot_phase slot = Freed -> f slot = 0) -> gmap_sum f (handles s) = 0) as Hz.
  { intros f Hf. assert (gmap_sum f (handles s) <= gmap_sum (fun _ => 0) (handles s)) as Hle.
    { apply gmap_sum_mono. intros id slot Hid. rewrite Hf by by apply (Hall id). lia. }
    assert (forall m : gmap nat KvRequestSlot, gmap_sum (fun _ => 0) m = 0) as H0.
    { intros m. induction m as [|k a m Hk IH] using map_ind; [apply gmap_sum_empty|]. by rewrite gmap_sum_insert. }
    rewrite H0 in Hle. lia. }
  rewrite !Hz; [done| |]; intros slot Hf; unfold owed_tokens, owed_request; rewrite Hf; by rewrite decide_False by naive_solver.
Qed.

(** An entry can outlive its requests: when another task frees the request before
    the task that began its decoding has updated the counters, the entry is
    pruned and the late update inserts it again. *)
Lemma late_decode_leaves_entry : let t := MkTarget "a" 0 in
  let s := run [Begin 0 t 0; CasDecode 0; CasFree 0; Act 0; Act 0; Act 0] empty_system in
  pending s = [] /\ manager s = {[ t := default_counters ]}.
Proof. split; vm_compute; reflexivity. Qed.

(** ** Witnesses *)

Lemma slots_exact_witness : let t := MkTarget "a" 0 in
  sample t (manager (run [Begin 0 t 90; Begin 1 t 5; CasDecode 0; Act 0] empty_system)) = MkCounters 5 2.
Proof.
  intros t. destruct (slots_exact [Begin 0 t 90; Begin 1 t 5; CasDecode 0; Act 0] t) as [H _]; [vm_compute; reflexivity|].
  rewrite H. vm_compute. reflexivity.
Defined.
