(* ===== verification/TokenizerCache.v ===== *)
(** * The cache of encodings ([src/tokenizer/cache.rs])

    A bounded cache in front of a tokenizer.  The [lru] package is the class
    [Lru], with its documentation as [LruLaws]; the tokenizer is a function.  An
    [encode] call takes the lock twice and runs the tokenizer in between, so it
    is two steps, and the steps of concurrent calls mix.  Counters for metrics
    other than the occupancy of all caches are left out; [None] is a panic. *)

From S2P Require Import Prelude.
From stdpp Require Import pretty.

Local Open Scope N_scope.
Local Open Scope update_scope.

(** ** The [lru] package *)

(** [lru_iter] lists the entries, the most recently used first. *)
Class Lru (C K E : Type) := {
  sparse : N -> C;
  cap : C -> N;
  lru_len : C -> N;
  lru_iter : C -> list (K * E);
  lru_contains : K -> C -> bool;
  lru_get : K -> C -> option E * C;
  lru_push : K -> E -> C -> option (K * E) * C;
  pop_lru : C -> option (K * E) * C;
}.

Section lists.
Context {K E : Type} `{EqDecision K}.

Fixpoint assoc (k : K) (l : list (K * E)) : option E :=
  match l with
  | [] => None
  | (k', e) :: l => if decide (k' = k) then Some e else assoc k l
  end.

Definition without (k : K) (l : list (K * E)) : list (K * E) := filter (fun kv => kv.1 <> k) l.
End lists.

(** The documented behaviour of the package. *)
Class LruLaws (C K E : Type) `{EqDecision K, Lru C K E} := {
  sparse_iter n : lru_iter (sparse n) = [];
  sparse_cap n : cap (sparse n) = n;
  len_iter c : lru_len c = N.of_nat (length (lru_iter c));
  contains_iter k c : lru_contains k c = bool_decide (is_Some (assoc k (lru_iter c)));
  get_value k c : (lru_get k c).1 = assoc k (lru_iter c);
  get_iter k c : lru_iter (lru_get k c).2 =
    match assoc k (lru_iter c) with Some e => (k, e) :: without k (lru_iter c) | None => lru_iter c end;
  get_cap k c : cap (lru_get k c).2 = cap c;
  push_cap k e c : cap (lru_push k e c).2 = cap c;
  push_present k e c old : assoc k (lru_iter c) = Some old ->
    (lru_push k e c).1 = Some (k, old) /\ lru_iter (lru_push k e c).2 = (k, e) :: without k (lru_iter c);
  push_room k e c : assoc k (lru_iter c) = None -> lru_len c < cap c ->
    (lru_push k e c).1 = None /\ lru_iter (lru_push k e c).2 = (k, e) :: lru_iter c;
  push_full k e c l victim : assoc k (lru_iter c) = None -> cap c <= lru_len c -> lru_iter c = l ++ [victim] ->
    (lru_push k e c).1 = Some victim /\ lru_iter (lru_push k e c).2 = (k, e) :: l;
  pop_empty c : lru_iter c = [] -> pop_lru c = (None, c);
  pop_last c l victim : lru_iter c = l ++ [victim] ->
    (pop_lru c).1 = Some victim /\ lru_iter (pop_lru c).2 = l /\ cap (pop_lru c).2 = cap c;
}.

(** ** Data *)

Record TokenizerCacheConfig := MkCacheConfig {
  max_entries : N;
  max_bytes : N;
  max_entry_bytes : N;
}.

Definition default_cache_config : TokenizerCacheConfig := MkCacheConfig 10000 (64 * 1024 * 1024) (1024 * 1024).

Definition validate (cfg : TokenizerCacheConfig) : result unit string :=
  if max_entries cfg =? 0 then Err "tokenizer cache max_entries must be at least 1"
  else if max_bytes cfg =? 0 then Err "tokenizer cache max_bytes must be at least 1"
  else if max_entry_bytes cfg =? 0 then Err "tokenizer cache max_entry_bytes must be at least 1"
  else if max_bytes cfg <? max_entry_bytes cfg then
    Err ("tokenizer cache max_entry_bytes (" +:+ pretty (max_entry_bytes cfg) +:+ ") must not exceed max_bytes ("
      +:+ pretty (max_bytes cfg) +:+ ")")
  else Ok tt.

Record CacheEntry (V : Type) := MkEntry { encoding : V; entry_bytes : N }.

Arguments MkEntry {_} _ _.
Arguments encoding {_} _.
Arguments entry_bytes {_} _.

Record CacheState (C : Type) := MkState { lru : C; bytes : N }.

Arguments MkState {_} _ _.
Arguments lru {_} _.
Arguments bytes {_} _.

Record EncodeCache (C : Type) := MkCache {
  config : TokenizerCacheConfig;
  state : CacheState C;
  hits : N;
  misses : N;
  evictions : N;
  oversized : N;
}.

Arguments MkCache {_} _ _ _ _ _ _.
Arguments config {_} _.
Arguments state {_} _.
Arguments hits {_} _.
Arguments misses {_} _.
Arguments evictions {_} _.
Arguments oversized {_} _.

#[export] Instance EncodeCache_eta {C} : Eta (EncodeCache C) := fun c =>
  MkCache (config c) (state c) (hits c) (misses c) (evictions c) (oversized c).

Record TokenizerCacheStats := MkStats {
  stat_hits : N;
  stat_misses : N;
  stat_evictions : N;
  stat_oversized : N;
  stat_entries : N;
  stat_bytes : N;
}.

(** The totals of all caches of the process. *)
Record Occupancy := MkOccupancy { occ_entries : N; occ_bytes : N }.

Definition publish_occupancy_delta (entries_delta bytes_delta : Z) (o : Occupancy) : Occupancy :=
  if ((entries_delta =? 0) && (bytes_delta =? 0))%Z then o
  else MkOccupancy (saturating_add_signed (occ_entries o) entries_delta) (saturating_add_signed (occ_bytes o) bytes_delta).

(** ** The cache *)

Section cache.
Context {C K V Er : Type} `{EqDecision K} `{L : !Lru C K (CacheEntry V)}.

Definition new_cache (cfg : TokenizerCacheConfig) : result (EncodeCache C) string :=
  match validate cfg with
  | Err e => Err e
  | Ok _ => Ok (MkCache cfg (MkState (sparse (max_entries cfg)) 0) 0 0 0 0)
  end.

Definition cache_len (c : EncodeCache C) : N := lru_len (lru (state c)).

Definition stats (c : EncodeCache C) : TokenizerCacheStats :=
  MkStats (hits c) (misses c) (evictions c) (oversized c) (cache_len c) (bytes (state c)).

(** The deltas [after as isize - before as isize]. *)
Definition publish_change (entries_before bytes_before : N) (st : CacheState C) (o : Occupancy) : option Occupancy :=
  de ← isize_sub (as_isize (lru_len (lru st))) (as_isize entries_before);
  db ← isize_sub (as_isize (bytes st)) (as_isize bytes_before);
  Some (publish_occupancy_delta de db o).

(** What [clear] and [drop] take off the totals. *)
Definition publish_removal (st : CacheState C) (o : Occupancy) : option Occupancy :=
  de ← isize_sub 0 (as_isize (lru_len (lru st)));
  db ← isize_sub 0 (as_isize (bytes st));
  Some (publish_occupancy_delta de db o).

Definition clear (c : EncodeCache C) (o : Occupancy) : option (EncodeCache C * Occupancy) :=
  o ← publish_removal (state c) o;
  Some (c <| state := MkState (sparse (cap (lru (state c)))) 0 |>, o).

Definition drop_cache (c : EncodeCache C) (o : Occupancy) : option Occupancy := publish_removal (state c) o.

Definition lookup (input : K) (c : EncodeCache C) : option V * EncodeCache C :=
  let '(r, l) := lru_get input (lru (state c)) in
  (encoding <$> r, c <| state := MkState l (bytes (state c)) |>).

(** [while state.bytes > max_bytes]; every round removes an entry. *)
Fixpoint shrink (fuel : nat) (limit : N) (st : CacheState C) (evicted : N) : option (CacheState C * N) :=
  if limit <? bytes st then
    match fuel with
    | O => None
    | S fuel =>
        match pop_lru (lru st) with
        | (Some victim, l) =>
            b ← usize_sub (bytes st) (entry_bytes victim.2);
            shrink fuel limit (MkState l b) (evicted + 1)
        | (None, l) => Some (MkState l (bytes st), evicted)
        end
    end
  else Some (st, evicted).

Definition insert (input : K) (v : V) (n : N) (c : EncodeCache C) (o : Occupancy) : option (EncodeCache C * Occupancy) :=
  let entries_before := cache_len c in
  let bytes_before := bytes (state c) in
  let replacing := lru_contains input (lru (state c)) in
  let '(old, l) := lru_push input (MkEntry v n) (lru (state c)) in
  '(b, evicted) ← match old with
                  | Some (_, old_entry) =>
                      b ← usize_sub bytes_before (entry_bytes old_entry);
                      Some (b, if replacing then 0 else 1)
                  | None => Some (bytes_before, 0)
                  end;
  b ← usize_add b n;
  '(st, evicted) ← shrink (S (N.to_nat (lru_len l))) (max_bytes (config c)) (MkState l b) evicted;
  o ← publish_change entries_before bytes_before st o;
  Some (c <| state := st |> <| evictions ::= fun e => u64_wrapping_add e evicted |>, o).

(** The first half of [get_or_encode]: the encoding, or a miss. *)
Definition probe (input : K) (c : EncodeCache C) : option V * EncodeCache C :=
  let '(r, c) := lookup input c in
  match r with
  | Some v => (Some v, c <| hits ::= fun n => u64_wrapping_add n 1 |>)
  | None => (None, c <| misses ::= fun n => u64_wrapping_add n 1 |>)
  end.

(** The second half, with what the tokenizer returned. *)
Definition keep (estimate : V -> N) (input : K) (encoded : result V Er) (c : EncodeCache C) (o : Occupancy)
  : option (result V Er * EncodeCache C * Occupancy) :=
  match encoded with
  | Err e => Some (Err e, c, o)
  | Ok v =>
      if max_entry_bytes (config c) <? estimate v
      then Some (Ok v, c <| oversized ::= fun n => u64_wrapping_add n 1 |>, o)
      else '(c, o) ← insert input v (estimate v) c o; Some (Ok v, c, o)
  end.

(** A call that no other call overlaps. *)
Definition get_or_encode (estimate : V -> N) (encode : K -> result V Er) (input : K) (c : EncodeCache C) (o : Occupancy)
  : option (result V Er * EncodeCache C * Occupancy) :=
  match probe input c with
  | (Some v, c) => Some (Ok v, c, o)
  | (None, c) => keep estimate input (encode input) c o
  end.

(** ** Concurrent calls *)

(** The caches of the process, and the calls that are running the tokenizer of a
    cache. *)
Record System := MkSystem {
  caches : gmap nat (EncodeCache C);
  occupancy : Occupancy;
  running : list (nat * K);
}.

Definition empty_system : System := MkSystem ∅ (MkOccupancy 0 0) [].

(** One of the calls ends. *)
Fixpoint finished (call : nat * K) (calls : list (nat * K)) : list (nat * K) :=
  match calls with
  | [] => []
  | call' :: calls => if decide (call' = call) then calls else call' :: finished call calls
  end.

Inductive event :=
| NewCache (id : nat) (cfg : TokenizerCacheConfig)
| Probe (id : nat) (input : K)
| Finish (id : nat) (input : K)
| Clear (id : nat)
| Drop (id : nat).

Context (estimate : nat -> K -> V -> N) (encode : nat -> K -> result V Er).

(** One step and the result of the call that it ends.  An event of a cache that
    does not exist is none; a cache is dropped when no call borrows it. *)
Definition perform (e : event) (s : System) : option (option (nat * K * result V Er) * System) :=
  match e with
  | NewCache id cfg =>
      match caches s !! id, new_cache cfg with
      | None, Ok c => Some (None, MkSystem (<[id := c]> (caches s)) (occupancy s) (running s))
      | _, _ => Some (None, s)
      end
  | Probe id input =>
      match caches s !! id with
      | None => Some (None, s)
      | Some c =>
          match probe input c with
          | (Some v, c) => Some (Some (id, input, Ok v), MkSystem (<[id := c]> (caches s)) (occupancy s) (running s))
          | (None, c) => Some (None, MkSystem (<[id := c]> (caches s)) (occupancy s) ((id, input) :: running s))
          end
      end
  | Finish id input =>
      if decide ((id, input) ∈ running s) then
        match caches s !! id with
        | None => Some (None, s)
        | Some c =>
            '(r, c, o) ← keep (estimate id input) input (encode id input) c (occupancy s);
            Some (Some (id, input, r), MkSystem (<[id := c]> (caches s)) o (finished (id, input) (running s)))
        end
      else Some (None, s)
  | Clear id =>
      match caches s !! id with
      | None => Some (None, s)
      | Some c => '(c, o) ← clear c (occupancy s); Some (None, MkSystem (<[id := c]> (caches s)) o (running s))
      end
  | Drop id =>
      match caches s !! id with
      | Some c =>
          if bool_decide (Forall (fun call => call.1 <> id) (running s)) then
            o ← drop_cache c (occupancy s); Some (None, MkSystem (delete id (caches s)) o (running s))
          else Some (None, s)
      | None => Some (None, s)
      end
  end.

Fixpoint run (es : list event) (s : System) : option (list (nat * K * result V Er) * System) :=
  match es with
  | [] => Some ([], s)
  | e :: es =>
      '(r, s) ← perform e s;
      '(rs, s) ← run es s;
      Some (match r with Some r => r :: rs | None => rs end, s)
  end.

End cache.

(** ** The size of an entry *)

#[local] Set Warnings "-register-all".

(** What the estimate reads of an encoding of the [tokenizers] package. *)
Inductive HfEncoding := MkHf (get_ids : list N) (get_tokens : list string) (get_overflowing : list HfEncoding) (n_sequences : N).

Inductive Encoding := Hf (inner : HfEncoding) | Sp (ids : list N) | Tiktoken (ids : list N).

(** The sizes of [String] and [Vec] are 24 bytes, of [Arc] and [usize] 8. *)
Definition ENTRY_OVERHEAD_BYTES : N := 24 + (8 + 8) + 4 * 8.

Definition PER_TOKEN : N := 4 * 4 + 8 + 16 + 24.

Definition sum_of {A} (f : A -> N) (l : list A) : N := foldr (fun x n => f x + n) 0 l.

Section estimate.
(** [size_of::<tokenizers::tokenizer::Encoding>()] *)
Context (size_of_hf : N).

Fixpoint estimate_hf_bytes (e : HfEncoding) : N :=
  match e with
  | MkHf ids tokens overflowing sequences =>
      N.of_nat (length ids) * PER_TOKEN + sum_of (fun t => N.of_nat (String.length t)) tokens
      + sum_of (fun overflow => size_of_hf + estimate_hf_bytes overflow) overflowing
      + (if 1 <? sequences then sequences * (8 + 16) else 0)
  end.

Definition estimate_encoding_bytes (e : Encoding) : N :=
  match e with
  | Sp ids | Tiktoken ids => 24 + N.of_nat (length ids) * 4
  | Hf inner => size_of_hf + estimate_hf_bytes inner
  end.

Definition estimate_entry_bytes (input : string) (e : Encoding) : N :=
  ENTRY_OVERHEAD_BYTES + N.of_nat (String.length input) + estimate_encoding_bytes e.
End estimate.

(** ** Invariant *)

Definition total {K V} (l : list (K * CacheEntry V)) : N := sum_of (fun kv => entry_bytes kv.2) l.

Section invariant.
Context {C K V Er : Type} `{HK : EqDecision K} `{L : !Lru C K (CacheEntry V)}.
Context (estimate : nat -> K -> V -> N) (encode : nat -> K -> result V Er).

Definition faithful (id : nat) (limit : N) (kv : K * CacheEntry V) : Prop :=
  encode id kv.1 = Ok (encoding kv.2) /\ entry_bytes kv.2 = estimate id kv.1 (encoding kv.2) /\ entry_bytes kv.2 <= limit.

Record cache_ok (id : nat) (c : EncodeCache C) : Prop := {
  ck_config : validate (config c) = Ok tt;
  ck_cap : cap (lru (state c)) = max_entries (config c);
  ck_keys : NoDup (lru_iter (lru (state c))).*1;
  ck_len : cache_len c <= max_entries (config c);
  ck_total : bytes (state c) = total (lru_iter (lru (state c)));
  ck_bytes : bytes (state c) <= max_bytes (config c);
  ck_entries : Forall (faithful id (max_entry_bytes (config c))) (lru_iter (lru (state c)));
}.

(** The budget of a cache. *)
Definition budget (cfg : TokenizerCacheConfig) : N := max_entries cfg + max_bytes cfg.

Definition budgets (es : list (@event K)) : N :=
  sum_of (fun e => match e with NewCache _ cfg => budget cfg | _ => 0 end) es.

(** [room] is what later caches may still use of the address space. *)
Record system_ok (room : N) (s : @System C K) : Prop := {
  so_caches : forall id c, caches s !! id = Some c -> cache_ok id c;
  so_entries : occ_entries (occupancy s) = gmap_sum cache_len (caches s);
  so_bytes : occ_bytes (occupancy s) = gmap_sum (fun c => bytes (state c)) (caches s);
  so_budget : gmap_sum (fun c => budget (config c)) (caches s) + room < 2 ^ 63;
}.
End invariant.

(** ** Lists of entries *)

Section lists.
Context {K E : Type} `{EqDecision K}.
Implicit Types l : list (K * E).

Lemma assoc_elem k l e : assoc k l = Some e -> (k, e) ∈ l.
Proof. induction l as [|[k' e'] l IH]; simpl; [done|]. case_decide; [intros; simplify_eq; left|right; auto]. Qed.

Lemma assoc_none k l : assoc k l = None <-> k ∉ l.*1.
Proof.
  induction l as [|[k' e'] l IH]; simpl; [split; [intros _; apply not_elem_of_nil|done]|]. case_decide; set_solver.
Qed.

Lemma without_none k l : k ∉ l.*1 -> without k l = l.
Proof.
  intros Hk. apply filter_all, Forall_forall. intros [k' e] Hx. simpl. intros ->. apply Hk, list_elem_of_fmap. by exists (k, e).
Qed.

Lemma without_keys k l : NoDup l.*1 -> (k ∉ (without k l).*1) /\ NoDup (without k l).*1.
Proof.
  intros Hnd. unfold without. split.
  - intros Hk. apply list_elem_of_fmap in Hk as (kv & Hk & Hin). apply list_elem_of_filter in Hin as [Hne _]. by apply Hne.
  - pose proof (filter_of_fmap fst (fun k' => k' <> k) l) as <-. by apply NoDup_filter.
Qed.

(** Taking an entry out of the list. *)
Lemma assoc_split k l e : NoDup l.*1 -> assoc k l = Some e -> l ≡ₚ (k, e) :: without k l.
Proof.
  induction l as [|[k' e'] l IH]; simpl; [done|]. intros [Hk' Hnd]%NoDup_cons Ha. unfold without. rewrite filter_cons. simpl.
  case_decide as Hkk.
  - subst k'. injection Ha as ->. rewrite decide_False by (by intros Hne; apply Hne).
    fold (without k l). by rewrite without_none.
  - rewrite decide_True by done. fold (without k l). rewrite (IH Hnd Ha) at 1. apply Permutation_swap.
Qed.
End lists.

Section totals.
Context {K V : Type} `{EqDecision K}.
Implicit Types l : list (K * CacheEntry V).

Lemma total_app l1 l2 : total (l1 ++ l2) = total l1 + total l2.
Proof. unfold total, sum_of. induction l1 as [|x l1 IH]; [done|]. cbn [foldr app]. rewrite IH. lia. Qed.

Lemma total_cons x l : total (x :: l) = entry_bytes x.2 + total l.
Proof. done. Qed.

#[global] Instance total_perm : Proper ((≡ₚ) ==> (=)) (@total K V).
Proof. induction 1; rewrite ?total_cons in *; [done|congruence|lia|congruence]. Qed.
End totals.

(** ** The operations keep the invariant *)

Lemma validate_spec cfg : validate cfg = Ok tt -> 0 < max_entries cfg /\ 0 < max_bytes cfg /\ max_entry_bytes cfg <= max_bytes cfg.
Proof.
  unfold validate. destruct (N.eqb_spec (max_entries cfg) 0), (N.eqb_spec (max_bytes cfg) 0), (N.eqb_spec (max_entry_bytes cfg) 0),
    (N.ltb_spec (max_bytes cfg) (max_entry_bytes cfg)); try done. lia.
Qed.

Section proofs.
Context {C K V Er : Type} `{HK : EqDecision K} `{L : !Lru C K (CacheEntry V)} `{LL : !LruLaws C K (CacheEntry V)}.
Context (estimate : nat -> K -> V -> N) (encode : nat -> K -> result V Er).
Abbreviation cache_ok := (cache_ok estimate encode).
Implicit Types c : EncodeCache C.

Lemma shrink_ok fuel limit (st : CacheState C) evicted : (length (lru_iter (lru st)) < fuel)%nat ->
  bytes st = total (lru_iter (lru st)) ->
  exists st' evicted' dropped, shrink fuel limit st evicted = Some (st', evicted') /\
    lru_iter (lru st) = lru_iter (lru st') ++ dropped /\ evicted' = evicted + N.of_nat (length dropped) /\
    bytes st' = total (lru_iter (lru st')) /\ bytes st' <= limit /\ cap (lru st') = cap (lru st) /\
    (forall x l, lru_iter (lru st) = x :: l -> entry_bytes x.2 <= limit -> exists l', lru_iter (lru st') = x :: l').
Proof.
  revert st evicted. induction fuel as [|fuel IH]; intros st evicted Hf Hb; [lia|]. cbn [shrink].
  destruct (N.ltb_spec limit (bytes st)) as [Hlt|Hge].
  2: { exists st, evicted, []. rewrite app_nil_r. split_and!; try done; [simpl; lia|]. intros x l -> _. by exists l. }
  destruct (lru_iter (lru st)) as [|y l _] eqn:El using rev_ind; [simpl in Hb; cbn in Hb; lia|].
  destruct (pop_last (lru st) l y El) as (E1 & E2 & E3). destruct (pop_lru (lru st)) as [r lc]. simpl in E1, E2, E3. subst r.
  rewrite total_app, total_cons in Hb. unfold usize_sub. rewrite (proj2 (N.leb_le _ _)) by lia. cbn [mbind option_bind].
  destruct (IH (MkState lc (bytes st - entry_bytes y.2)) (evicted + 1)) as (st' & ev & dropped & Hs & H1 & H2 & H3 & H4 & H5 & H6).
  { simpl. rewrite E2. rewrite length_app in Hf. simpl in Hf. lia. }
  { simpl. rewrite E2. unfold total at 2 in Hb. simpl in Hb. lia. }
  simpl in H1, H5, H6. rewrite E2 in H1, H6. exists st', ev, (dropped ++ [y]). rewrite Hs, length_app. simpl. split_and!; try done.
  - by rewrite H1, app_assoc.
  - lia.
  - congruence.
  - intros x l0 Hx Hle. destruct l as [|x' l]; simpl in Hx; simplify_eq; [|by apply (H6 x l)].
    exfalso. unfold total in Hb. cbn in Hb. lia.
Qed.

(** The totals follow the change of one cache. *)
Lemma publish_exact (e b e' b' : N) o : e < 2 ^ 63 -> b < 2 ^ 63 -> e' < 2 ^ 63 -> b' < 2 ^ 63 ->
  e <= occ_entries o < 2 ^ 63 -> b <= occ_bytes o < 2 ^ 63 ->
  (de ← isize_sub (as_isize e') (as_isize e); db ← isize_sub (as_isize b') (as_isize b); Some (publish_occupancy_delta de db o))
  = Some (MkOccupancy (occ_entries o - e + e') (occ_bytes o - b + b')).
Proof.
  intros He Hb He' Hb' Hoe Hob. unfold as_isize. rewrite !(proj2 (N.ltb_lt _ _)) by lia. unfold isize_sub.
  assert (forall x y : Z, (0 <= x < 2 ^ 63 -> 0 <= y < 2 ^ 63 ->
    ((-9223372036854775808 <=? x - y) && (x - y <? 9223372036854775808)) = true)%Z) as Hr.
  { intros x y Hx Hy. apply andb_true_iff. split; [apply Z.leb_le|apply Z.ltb_lt]; lia. }
  rewrite !Hr by lia. cbn [mbind option_bind]. unfold publish_occupancy_delta, saturating_add_signed, u64_max, u64_mod.
  destruct (Z.eqb_spec (Z.of_N e' - Z.of_N e) 0), (Z.eqb_spec (Z.of_N b' - Z.of_N b) 0); simpl; destruct o as [oe ob]; simpl in *.
  all: do 2 f_equal; lia.
Qed.

(** A push leaves the new entry in front of some of the others, in their order. *)
Lemma push_ok id c k v n : cache_ok id c ->
  exists old l rest, lru_push k (MkEntry v n) (lru (state c)) = (old, l) /\ lru_iter l = (k, MkEntry v n) :: rest /\
    rest `prefix_of` without k (lru_iter (lru (state c))) /\ cap l = cap (lru (state c)) /\ lru_len l <= max_entries (config c) /\
    exists ev, match old with
      | Some (_, old_entry) => b ← usize_sub (bytes (state c)) (entry_bytes old_entry); Some (b, ev)
      | None => Some (bytes (state c), ev)
      end = Some (total rest, ev) /\
      ev = match old with Some _ => if lru_contains k (lru (state c)) then 0 else 1 | None => 0 end.
Proof.
  intros [Hv Hcap Hnd Hlen Ht _ _]. apply validate_spec in Hv as (Hv & _). set (e := MkEntry v n). set (q := lru (state c)) in *.
  pose proof (push_cap k e q) as Hpc. unfold cache_len in Hlen. fold q in Hlen. rewrite len_iter in Hlen.
  destruct (lru_push k e q) as [old l] eqn:Ep. simpl in Hpc. exists old, l. unfold usize_sub.
  destruct (assoc k (lru_iter q)) as [prev|] eqn:Ea.
  - destruct (push_present k e q prev Ea) as [E1 E2]. rewrite Ep in E1, E2. simpl in E1, E2. subst old.
    exists (without k (lru_iter q)). pose proof (assoc_split k _ prev Hnd Ea) as Hsp.
    assert (total (lru_iter q) = entry_bytes prev + total (without k (lru_iter q))) as Htot by (by rewrite Hsp at 1; rewrite total_cons).
    split_and!; try done.
    + rewrite len_iter, E2. cbn [length]. apply Permutation_length in Hsp. simpl in Hsp. lia.
    + eexists. rewrite (proj2 (N.leb_le _ _)) by lia. cbn [mbind option_bind]. split; [do 2 f_equal; lia|done].
  - assert (without k (lru_iter q) = lru_iter q) as Hw by (apply without_none, assoc_none, Ea).
    destruct (N.lt_ge_cases (lru_len q) (cap q)) as [Hroom|Hfull].
    + destruct (push_room k e q Ea Hroom) as [E1 E2]. rewrite Ep in E1, E2. simpl in E1, E2. subst old. exists (lru_iter q).
      rewrite Hw. split_and!; try done; [|by eexists; rewrite Ht].
      rewrite len_iter in Hroom |- *. rewrite E2. cbn [length]. lia.
    + rewrite len_iter in Hfull. destruct (lru_iter q) as [|y l0 _] eqn:El using rev_ind.
      { simpl in Hfull. lia. }
      destruct (push_full k e q l0 y) as [E1 E2]; [by rewrite El|rewrite len_iter, El; lia|done|].
      rewrite Ep in E1, E2. simpl in E1, E2. subst old. exists l0. rewrite Hw. destruct y as [ky ey].
      rewrite total_app, total_cons in Ht. change (total []) with 0 in Ht. simpl in Ht.
      split_and!; try done; [by eexists| |].
      * rewrite len_iter, E2. rewrite length_app in Hlen. simpl in *. lia.
      * eexists. rewrite (proj2 (N.leb_le _ _)) by lia. cbn [mbind option_bind]. split; [do 2 f_equal; lia|done].
Qed.

Lemma cache_insert_ok id c k v o : cache_ok id c -> encode id k = Ok v -> estimate id k v <= max_entry_bytes (config c) ->
  budget (config c) < 2 ^ 63 -> cache_len c <= occ_entries o < 2 ^ 63 -> bytes (state c) <= occ_bytes o < 2 ^ 63 ->
  exists c' rest, insert k v (estimate id k v) c o =
      Some (c', MkOccupancy (occ_entries o - cache_len c + cache_len c') (occ_bytes o - bytes (state c) + bytes (state c'))) /\
    cache_ok id c' /\ config c' = config c /\ lru_iter (lru (state c')) = (k, MkEntry v (estimate id k v)) :: rest /\
    rest `prefix_of` without k (lru_iter (lru (state c))).
Proof.
  intros Hok He Hest Hbud Hoe Hob. pose proof Hok as [Hv Hcap Hnd Hlen Ht Hb Hent]. pose proof (validate_spec _ Hv) as (Hv1 & Hv2 & Hv3).
  unfold insert. destruct (push_ok id c k v (estimate id k v) Hok) as (old & l & rest & Ep & Hl & Hpre & Hpc & Hpl & ev & Eb & Hev).
  unfold budget in Hbud. pose proof (without_keys k _ Hnd) as [Hk Hndw].
  assert (total rest <= bytes (state c)) as Htr.
  { rewrite Ht. destruct (assoc k (lru_iter (lru (state c)))) as [prev|] eqn:Ea.
    - rewrite (assoc_split k _ prev Hnd Ea), total_cons. destruct Hpre as [q ->]. rewrite total_app. lia.
    - rewrite (without_none k) in Hpre by (by apply assoc_none). destruct Hpre as [q ->]. rewrite total_app. lia. }
  rewrite Ep. assert (forall A (f : N * N -> option A), (match old with
      | Some (_, old_entry) => b ← usize_sub (bytes (state c)) (entry_bytes old_entry); Some (b, if lru_contains k (lru (state c)) then 0 else 1)
      | None => Some (bytes (state c), 0) end ≫= f) = f (total rest, ev)) as Hbind.
  { intros A f. destruct old as [[ko eo]|]; subst ev; by rewrite Eb. }
  rewrite Hbind. cbn [mbind option_bind]. unfold usize_add. rewrite (proj2 (N.ltb_lt _ _)) by (unfold u64_mod; lia). cbn [mbind option_bind].
  destruct (shrink_ok (S (N.to_nat (lru_len l))) (max_bytes (config c)) (MkState l (total rest + estimate id k v)) ev)
    as (st & ev' & dropped & Es & Hd & _ & Htot & Hlim & Hsc & Hnew).
  { simpl. rewrite len_iter. lia. }
  { simpl. rewrite Hl, total_cons. simpl. lia. }
  rewrite Es. cbn [mbind option_bind]. simpl in Hd, Hsc, Hnew. destruct (Hnew _ _ Hl) as [rest' Hst]; [simpl; lia|].
  assert (rest' `prefix_of` rest) as Hpre'. { exists dropped. rewrite Hl, Hst in Hd. by injection Hd. }
  assert (lru_len (lru st) <= max_entries (config c)) as Hlen'.
  { rewrite len_iter in Hpl |- *. rewrite Hd, length_app in Hpl. lia. }
  unfold publish_change. rewrite publish_exact by (unfold cache_len in *; lia). cbn [mbind option_bind].
  exists (c <| state := st |> <| evictions ::= fun e => u64_wrapping_add e ev' |>), rest'. split; [reflexivity|]. split_and!; [|done|done|by etrans].
  assert (rest' `prefix_of` without k (lru_iter (lru (state c)))) as Hp by (by etrans).
  split; simpl; [done|congruence| |done|done|done|]; rewrite Hst.
  - simpl. destruct Hp as [q Hq]. rewrite Hq, fmap_app in Hk, Hndw. apply NoDup_app in Hndw as [Hndw _]. apply NoDup_cons. set_solver.
  - apply Forall_cons. split; [by split_and!|]. apply (Forall_sublist _ _ (lru_iter (lru (state c)))); [|done].
    destruct Hp as [q Hq]. etrans; [|apply (sublist_filter (fun kv => kv.1 <> k))]. fold (without k (lru_iter (lru (state c)))).
    rewrite Hq. by apply sublist_inserts_r.
Qed.

(** A hit moves its entry to the front. *)
Lemma probe_ok id c k : cache_ok id c -> exists r c', probe k c = (r, c') /\ cache_ok id c' /\ config c' = config c /\
  cache_len c' = cache_len c /\ bytes (state c') = bytes (state c) /\ (forall v, r = Some v -> encode id k = Ok v) /\
  r = encoding <$> assoc k (lru_iter (lru (state c))).
Proof.
  intros [Hv Hcap Hnd Hlen Ht Hb Hent]. unfold probe, lookup. pose proof (get_value k (lru (state c))) as Eg.
  pose proof (get_iter k (lru (state c))) as Ei. pose proof (get_cap k (lru (state c))) as Ec.
  destruct (lru_get k (lru (state c))) as [r l]. simpl in Eg, Ei, Ec. subst r.
  assert (lru_iter l ≡ₚ lru_iter (lru (state c))) as Hp.
  { destruct (assoc _ _) as [e|] eqn:Ea; rewrite Ei; [|done]. symmetry. by apply assoc_split. }
  assert (cache_ok id (c <| state := MkState l (bytes (state c)) |>)) as Hok.
  { split; simpl; [done|congruence|by rewrite Hp|unfold cache_len in *; simpl; rewrite len_iter in *; by rewrite Hp|by rewrite Hp|done|by rewrite Hp]. }
  assert (lru_len l = cache_len c) as Hl by (unfold cache_len; by rewrite !len_iter, Hp).
  destruct (assoc k (lru_iter (lru (state c)))) as [e|] eqn:Ea; simpl; eexists _, _; (split; [reflexivity|]).
  all: split_and!; try done; try (by destruct Hok).
  intros v [= <-]. apply assoc_elem in Ea. rewrite Forall_forall in Hent. by destruct (Hent _ Ea).
Qed.

Lemma empty_ok id cfg h m e v : validate cfg = Ok tt -> cache_ok id (MkCache cfg (MkState (sparse (max_entries cfg)) 0) h m e v).
Proof.
  intros Hv. split; simpl; rewrite ?sparse_iter, ?sparse_cap; try done.
  - apply NoDup_nil_2.
  - unfold cache_len. simpl. rewrite len_iter, sparse_iter. simpl. lia.
  - apply N.le_0_l.
Qed.

Lemma new_ok id cfg c : new_cache cfg = Ok c -> cache_ok id c /\ config c = cfg /\ cache_len c = 0 /\ bytes (state c) = 0.
Proof.
  unfold new_cache. destruct (validate cfg) as [[]|] eqn:Hv; [|done]. intros [= <-]. unfold cache_len. simpl.
  rewrite len_iter, sparse_iter. split_and!; [by apply empty_ok|done..].
Qed.

Lemma removal_ok id c o : cache_ok id c -> budget (config c) < 2 ^ 63 -> cache_len c <= occ_entries o < 2 ^ 63 ->
  bytes (state c) <= occ_bytes o < 2 ^ 63 ->
  publish_removal (state c) o = Some (MkOccupancy (occ_entries o - cache_len c) (occ_bytes o - bytes (state c))).
Proof.
  intros [] Hbud Hoe Hob. unfold budget, cache_len in *. unfold publish_removal.
  pose proof (publish_exact (lru_len (lru (state c))) (bytes (state c)) 0 0 o) as H. change (as_isize 0) with 0%Z in H.
  rewrite H by lia. by rewrite !N.add_0_r.
Qed.

Lemma clear_ok id c o : cache_ok id c -> budget (config c) < 2 ^ 63 -> cache_len c <= occ_entries o < 2 ^ 63 ->
  bytes (state c) <= occ_bytes o < 2 ^ 63 -> exists c',
  clear c o = Some (c', MkOccupancy (occ_entries o - cache_len c) (occ_bytes o - bytes (state c))) /\
  cache_ok id c' /\ config c' = config c /\ cache_len c' = 0 /\ bytes (state c') = 0.
Proof.
  intros Hok Hbud Hoe Hob. unfold clear. rewrite (removal_ok id) by done. eexists. split; [reflexivity|]. destruct Hok as [Hv Hcap].
  unfold cache_len. simpl. rewrite len_iter, sparse_iter, Hcap. split_and!; [by apply empty_ok|done..].
Qed.

Lemma keep_ok id c k o : cache_ok id c -> budget (config c) < 2 ^ 63 -> cache_len c <= occ_entries o < 2 ^ 63 ->
  bytes (state c) <= occ_bytes o < 2 ^ 63 -> exists c',
  keep (estimate id k) k (encode id k) c o =
    Some (encode id k, c', MkOccupancy (occ_entries o - cache_len c + cache_len c') (occ_bytes o - bytes (state c) + bytes (state c'))) /\
  cache_ok id c' /\ config c' = config c.
Proof.
  intros Hok Hbud Hoe Hob. unfold keep.
  assert (o = MkOccupancy (occ_entries o - cache_len c + cache_len c) (occ_bytes o - bytes (state c) + bytes (state c))) as Ho.
  { destruct o as [oe ob]. simpl in *. f_equal; lia. }
  destruct (encode id k) as [v|er] eqn:Ee; [|exists c; split; [by rewrite <- Ho|done]].
  destruct (N.ltb_spec (max_entry_bytes (config c)) (estimate id k v)) as [Hbig|Hfits].
  - exists (c <| oversized ::= fun n => u64_wrapping_add n 1 |>). split; [do 2 f_equal; exact Ho|]. split; [|done]. by destruct Hok.
  - destruct (cache_insert_ok id c k v o Hok Ee Hfits Hbud Hoe Hob) as (c' & rest & -> & Hok' & Hcfg & _). by exists c'.
Qed.

Abbreviation system_ok := (system_ok estimate encode).

(** What the totals say of one cache. *)
Lemma system_bounds room (s : @System C K) id c : system_ok room s -> caches s !! id = Some c ->
  budget (config c) < 2 ^ 63 /\ cache_len c <= occ_entries (occupancy s) < 2 ^ 63 /\ bytes (state c) <= occ_bytes (occupancy s) < 2 ^ 63.
Proof.
  intros [Hc He Hb Hbud] Hid. pose proof (gmap_sum_elem (fun c => budget (config c)) _ _ _ Hid) as H1. simpl in H1.
  pose proof (gmap_sum_elem cache_len _ _ _ Hid) as H2. pose proof (gmap_sum_elem (fun c => bytes (state c)) _ _ _ Hid) as H3. simpl in H3.
  assert (gmap_sum cache_len (caches s) <= gmap_sum (fun c => budget (config c)) (caches s)) as H4.
  { apply gmap_sum_mono. intros i c' Hi. destruct (Hc i c' Hi). unfold budget. lia. }
  assert (gmap_sum (fun c => bytes (state c)) (caches s) <= gmap_sum (fun c => budget (config c)) (caches s)) as H5.
  { apply gmap_sum_mono. intros i c' Hi. destruct (Hc i c' Hi). unfold budget. lia. }
  rewrite He, Hb. lia.
Qed.

(** One cache changes and the totals follow. *)
Lemma update_ok room (s : @System C K) id c c' o calls : system_ok room s -> caches s !! id = Some c -> cache_ok id c' ->
  config c' = config c -> occ_entries o = occ_entries (occupancy s) - cache_len c + cache_len c' ->
  occ_bytes o = occ_bytes (occupancy s) - bytes (state c) + bytes (state c') ->
  system_ok room (MkSystem (<[id := c']> (caches s)) o calls).
Proof.
  intros Hs Hid Hc' Hcfg Heo Hbo. pose proof (system_bounds _ _ _ _ Hs Hid) as (_ & Hle & Hlb). destruct Hs as [Hc He Hb Hbud].
  pose proof (gmap_sum_update cache_len _ id c c' Hid) as H1. pose proof (gmap_sum_update (fun c => bytes (state c)) _ id c c' Hid) as H2.
  pose proof (gmap_sum_update (fun c => budget (config c)) _ id c c' Hid) as H3. simpl in H2, H3. rewrite Hcfg in H3.
  split; simpl; [|lia|lia|lia]. intros i d Hi. apply lookup_insert_Some in Hi as [[<- <-]|[_ Hi]]; [done|by apply Hc].
Qed.

Lemma cache_perform_ok room e (s : @System C K) : system_ok (room + budgets [e]) s -> exists r s',
  perform estimate encode e s = Some (r, s') /\ system_ok room s' /\ match r with Some (id, k, v) => v = encode id k | None => True end.
Proof.
  intros Hs0. assert (system_ok room s) as Hs by (destruct Hs0; split; try done; lia).
  destruct e as [id cfg|id k|id k|id|id]; cbn [perform].
  - destruct (caches s !! id) eqn:Hid; [by eexists _, _|]. destruct (new_cache cfg) as [c|] eqn:Hn; [|by eexists _, _].
    destruct (new_ok id cfg c Hn) as (Hc & Hcfg & Hl & Hb). eexists _, _. split_and!; [done| |done].
    destruct Hs0 as [Hcs He Hbt Hbud]. split; simpl; rewrite ?gmap_sum_insert by done; [|lia|lia|].
    + intros i d Hi. apply lookup_insert_Some in Hi as [[<- <-]|[_ Hi]]; [done|by apply Hcs].
    + rewrite Hcfg. unfold budgets in Hbud. cbn in Hbud. lia.
  - destruct (caches s !! id) as [c|] eqn:Hid; [|by eexists _, _].
    destruct (probe_ok id c k (so_caches _ _ _ _ Hs _ _ Hid)) as (r & c' & -> & Hc' & Hcfg & Hl & Hb & Hr & _).
    pose proof (system_bounds _ _ _ _ Hs Hid) as (_ & Hle & Hlb).
    destruct r as [v|]; eexists _, _; (split; [done|]); (split; [apply (update_ok room s id c c'); try done; lia|]); [|done].
    by rewrite (Hr v).
  - case_decide; [|by eexists _, _]. destruct (caches s !! id) as [c|] eqn:Hid; [|by eexists _, _].
    pose proof (system_bounds _ _ _ _ Hs Hid) as (Hbud & Hle & Hlb).
    destruct (keep_ok id c k _ (so_caches _ _ _ _ Hs _ _ Hid) Hbud Hle Hlb) as (c' & -> & Hc' & Hcfg). eexists _, _.
    split; [done|]. split; [|done]. by apply (update_ok room s id c c').
  - destruct (caches s !! id) as [c|] eqn:Hid; [|by eexists _, _]. pose proof (system_bounds _ _ _ _ Hs Hid) as (Hbud & Hle & Hlb).
    destruct (clear_ok id c _ (so_caches _ _ _ _ Hs _ _ Hid) Hbud Hle Hlb) as (c' & -> & Hc' & Hcfg & Hl & Hb). eexists _, _.
    split; [done|]. split; [|done]. apply (update_ok room s id c c'); try done; simpl; lia.
  - destruct (caches s !! id) as [c|] eqn:Hid; [|by eexists _, _]. case_bool_decide; [|by eexists _, _].
    pose proof (system_bounds _ _ _ _ Hs Hid) as (Hbud & Hle & Hlb). unfold drop_cache.
    rewrite (removal_ok id) by (done || by apply (so_caches _ _ _ _ Hs)). eexists _, _. split; [done|]. split; [|done].
    destruct Hs as [Hcs He Hb Hbt]. rewrite (gmap_sum_delete _ _ _ _ Hid) in He. rewrite (gmap_sum_delete _ _ _ _ Hid) in Hb.
    rewrite (gmap_sum_delete _ _ _ _ Hid) in Hbt. split; simpl; [|lia..].
    intros i d [_ Hi]%lookup_delete_Some. by apply Hcs.
Qed.

Lemma cache_run_ok es room (s : @System C K) : system_ok (room + budgets es) s -> exists rs s',
  run estimate encode es s = Some (rs, s') /\ system_ok room s' /\ Forall (fun r => r.2 = encode r.1.1 r.1.2) rs.
Proof.
  revert s. induction es as [|e es IH]; intros s Hs; [eexists _, _; split_and!; [done|by rewrite N.add_0_r in Hs|by apply Forall_nil]|].
  destruct (cache_perform_ok (room + budgets es) e s) as (r & s1 & Hp & Hs1 & Hr).
  { assert (budgets (e :: es) = budgets [e] + budgets es) as E by (unfold budgets, sum_of; simpl; lia). rewrite E in Hs.
    destruct Hs. split; try done. lia. }
  destruct (IH s1 Hs1) as (rs & s2 & Hrun & Hs2 & Hrs). cbn [run]. rewrite Hp. cbn [mbind option_bind]. rewrite Hrun. cbn [mbind option_bind].
  eexists _, _. split_and!; [done|done|]. destruct r as [[[id k] v]|]; [by constructor|done].
Qed.
End proofs.

(** ** Properties *)

Section properties.
Context {C K V Er : Type} `{HK : EqDecision K} `{L : !Lru C K (CacheEntry V)} `{LL : !LruLaws C K (CacheEntry V)}.
Context (estimate : nat -> K -> V -> N) (encode : nat -> K -> result V Er).

(** C15: the cache does not change what a tokenizer returns.  However the steps of
    concurrent calls on the caches of the process mix, no step panics and every
    call returns exactly what the tokenizer behind its cache gives for its
    input, errors included, while the budgets of the caches fit the address
    space. *)
Theorem cache_transparent es : budgets es < 2 ^ 63 -> exists rs s,
  run estimate encode es (@empty_system C K) = Some (rs, s) /\ Forall (fun r => r.2 = encode r.1.1 r.1.2) rs.
Proof.
  intros Hb. destruct (cache_run_ok estimate encode es 0 (@empty_system C K)) as (rs & s & Hr & _ & Hrs); [|by exists rs, s].
  split; simpl; rewrite ?gmap_sum_empty; try done; lia.
Qed.

(** The budgets hold after every sequence of steps: a cache has at most
    [max_entries] entries of at most [max_entry_bytes] each, their sizes add up
    to the recorded count of bytes and stay within [max_bytes], and the totals
    of the process are the sums over its caches. *)
Theorem cache_bounded es rs s : budgets es < 2 ^ 63 -> run estimate encode es (@empty_system C K) = Some (rs, s) ->
  (forall id c, caches s !! id = Some c -> cache_len c <= max_entries (config c) /\
    bytes (state c) = total (lru_iter (lru (state c))) /\ bytes (state c) <= max_bytes (config c) /\
    Forall (fun kv => entry_bytes kv.2 <= max_entry_bytes (config c)) (lru_iter (lru (state c)))) /\
  occ_entries (occupancy s) = gmap_sum cache_len (caches s) /\
  occ_bytes (occupancy s) = gmap_sum (fun c => bytes (state c)) (caches s).
Proof.
  intros Hb Hr. destruct (cache_run_ok estimate encode es 0 (@empty_system C K)) as (rs' & s' & Hr' & Hs & _).
  { split; simpl; rewrite ?gmap_sum_empty; try done; lia. }
  rewrite Hr in Hr'. injection Hr' as <- <-. destruct Hs as [Hc He Hbt _]. split_and!; [|done|done].
  intros id c Hid. destruct (Hc id c Hid) as [_ _ _ H1 H2 H3 H4]. split_and!; try done.
  eapply Forall_impl; [exact H4|]. by intros kv (_ & _ & ?).
Qed.

(** What was encoded last is kept.  After a call that misses and whose result
    is not too large, the cache lists the result first and behind it the most
    recently used of the other entries, so a call for the same input is a hit. *)
Theorem cache_keeps_recent id c input v o : cache_ok estimate encode id c -> budget (config c) < 2 ^ 63 ->
  cache_len c <= occ_entries o < 2 ^ 63 -> bytes (state c) <= occ_bytes o < 2 ^ 63 ->
  assoc input (lru_iter (lru (state c))) = None -> encode id input = Ok v -> estimate id input v <= max_entry_bytes (config c) ->
  exists c' o' rest, get_or_encode (estimate id input) (encode id) input c o = Some (Ok v, c', o') /\
    lru_iter (lru (state c')) = (input, MkEntry v (estimate id input v)) :: rest /\
    rest `prefix_of` lru_iter (lru (state c)) /\ (probe input c').1 = Some v.
Proof.
  intros Hok Hbud Hoe Hob Ha He Hest. unfold get_or_encode, probe, lookup.
  pose proof (get_value input (lru (state c))) as Eg. pose proof (get_iter input (lru (state c))) as Ei.
  pose proof (get_cap input (lru (state c))) as Ec.
  destruct (lru_get input (lru (state c))) as [r l]. simpl in Eg, Ei, Ec. rewrite Ha in Eg, Ei. subst r. cbn [fmap option_fmap option_map].
  set (c1 := _ <| misses ::= _ |>). assert (lru (state c1) = l) as Hl by done. assert (config c1 = config c) as Hcfg by done.
  assert (bytes (state c1) = bytes (state c)) as Hbs by done. clearbody c1.
  assert (cache_len c1 = cache_len c) as Hcl by (unfold cache_len; rewrite Hl, !len_iter; by rewrite Ei).
  assert (cache_ok estimate encode id c1) as Hok1 by (destruct Hok; split; rewrite ?Hl, ?Hcfg, ?Hbs, ?Hcl, ?Ei, ?Ec; done).
  rewrite <- Hcfg in Hbud, Hest. rewrite <- Hcl in Hoe. rewrite <- Hbs in Hob.
  destruct (cache_insert_ok estimate encode id c1 input v o Hok1 He Hest Hbud Hoe Hob) as (c' & rest & Hins & Hok' & Hcfg' & Hit & Hpre).
  unfold keep. rewrite He, (proj2 (N.ltb_ge _ _)) by done. rewrite Hins. cbn [mbind option_bind]. eexists _, _, rest.
  rewrite Hl, Ei, (without_none input) in Hpre by (by apply assoc_none). split_and!; [done|done|done|].
  pose proof (get_value input (lru (state c'))) as Eg'. destruct (lru_get input (lru (state c'))) as [r' l']. simpl in Eg'. subst r'.
  rewrite Hit. simpl. by rewrite decide_True.
Qed.
End properties.

(** ** Examples *)

(** The package as a list in the order of use. *)
Record list_lru (K E : Type) := MkListLru { items_cap : N; items : list (K * E) }.

Arguments MkListLru {_ _} _ _.
Arguments items_cap {_ _} _.
Arguments items {_ _} _.

Section list_lru.
Context {K E : Type} `{EqDecision K}.

#[export] Instance list_is_lru : Lru (list_lru K E) K E := {|
  sparse n := MkListLru n [];
  cap := items_cap;
  lru_len c := N.of_nat (length (items c));
  lru_iter := items;
  lru_contains k c := bool_decide (is_Some (assoc k (items c)));
  lru_get k c := match assoc k (items c) with
                 | Some e => (Some e, MkListLru (items_cap c) ((k, e) :: without k (items c)))
                 | None => (None, c)
                 end;
  lru_push k e c := match assoc k (items c) with
                    | Some old => (Some (k, old), MkListLru (items_cap c) ((k, e) :: without k (items c)))
                    | None =>
                        if N.of_nat (length (items c)) <? items_cap c then (None, MkListLru (items_cap c) ((k, e) :: items c))
                        else (last (items c), MkListLru (items_cap c) ((k, e) :: removelast (items c)))
                    end;
  pop_lru c := match items c with
               | [] => (None, c)
               | _ => (last (items c), MkListLru (items_cap c) (removelast (items c)))
               end;
|}.

#[export] Instance list_lru_laws : LruLaws (list_lru K E) K E.
Proof.
  split; try done; simpl.
  - intros k c. by destruct (assoc k (items c)).
  - intros k c. by destruct (assoc k (items c)).
  - intros k c. by destruct (assoc k (items c)).
  - intros k e c. destruct (assoc k (items c)); [done|]. by destruct (_ <? _).
  - by intros k e c old ->.
  - intros k e c -> Hl. by rewrite (proj2 (N.ltb_lt _ _)).
  - intros k e c l v -> Hl Hi. rewrite (proj2 (N.ltb_ge _ _)) by done. simpl. by rewrite Hi, last_snoc, removelast_last.
  - intros c. by intros ->.
  - intros c l v Hi. rewrite Hi, last_snoc, removelast_last. by destruct l.
Qed.
End list_lru.

(** A tokenizer of numbers, and two overlapping calls on a cache of two entries. *)
Definition double (id : nat) (n : N) : result N string := if n =? 0 then Err "empty"%string else Ok (2 * n).

Definition some_calls : list (@event N) :=
  [NewCache 0 (MkCacheConfig 2 10 4); Probe 0 1; Probe 0 1; Finish 0 1; Probe 0 1; Finish 0 1; Probe 0 2; Finish 0 2;
   Probe 0 3; Finish 0 3; Probe 0 0; Finish 0 0; Clear 0; Drop 0].

(** ** Witnesses *)

Lemma cache_transparent_witness : exists s, run (fun _ _ _ => 3) double some_calls (@empty_system (list_lru N (CacheEntry N)) N)
  = Some ([(0%nat, 1, Ok 2); (0%nat, 1, Ok 2); (0%nat, 1, Ok 2); (0%nat, 2, Ok 4); (0%nat, 3, Ok 6); (0%nat, 0, Err "empty"%string)], s).
Proof.
  destruct (cache_transparent (C := list_lru N (CacheEntry N)) (fun _ _ _ => 3) double some_calls) as (rs & s & H & _);
    [vm_compute; reflexivity|].
  exists s. rewrite H. vm_compute in H. injection H as <- <-. reflexivity.
Defined.

Lemma cache_bounded_witness : exists rs s c, run (fun _ _ _ => 3) double (take 10 some_calls) (@empty_system (list_lru N (CacheEntry N)) N)
  = Some (rs, s) /\ caches s !! 0%nat = Some c /\ cache_len c = 2 /\ occ_bytes (occupancy s) = gmap_sum (fun c => bytes (state c)) (caches s).
Proof.
  destruct (run (fun _ _ _ => 3) double (take 10 some_calls) (@empty_system (list_lru N (CacheEntry N)) N)) as [[rs s]|] eqn:H;
    [|vm_compute in H; discriminate].
  pose proof (cache_bounded (fun _ _ _ => 3) double (take 10 some_calls) rs s ltac:(vm_compute; reflexivity) H) as (_ & _ & Hb).
  destruct (caches s !! 0%nat) as [c|] eqn:Hc; [|vm_compute in H; injection H as <- <-; vm_compute in Hc; discriminate].
  exists rs, s, c. split_and!; [reflexivity|exact Hc| |exact Hb].
  vm_compute in H. injection H as <- <-. vm_compute in Hc. injection Hc as <-. reflexivity.
Defined.

Lemma cache_keeps_recent_witness : exists (c' : EncodeCache (list_lru N (CacheEntry N))) o',
  get_or_encode (Er := string) (fun _ => 3) (double 0) 7 (MkCache (MkCacheConfig 2 10 4) (MkState (sparse 2) 0) 0 0 0 0) (MkOccupancy 0 0)
  = Some (Ok 14, c', o') /\ (probe 7 c').1 = Some 14.
Proof.
  destruct (cache_keeps_recent (fun _ _ _ => 3) double 0
    (MkCache (MkCacheConfig 2 10 4) (MkState (sparse (C := list_lru N (CacheEntry N)) 2) 0) 0 0 0 0) 7 14 (MkOccupancy 0 0))
    as (c' & o' & rest & H1 & _ & _ & H2); try done.
  - apply empty_ok. reflexivity.
  - exists c', o'. split; [exact H1|exact H2].
Defined.
