(* ===== verification/TreeText.v ===== *)
(** * The strings of the prefix tree ([src/tree.rs])

    The tree cuts its texts at characters, while Rust slices strings at bytes.
    A [&str] is here its list of characters (code points); [str_bytes] are its
    UTF-8 bytes and a byte slice that does not fall on a character boundary
    panics, which is [None].  The helpers of the tree have fast paths over ASCII
    bytes; the theorems show that they never panic and that they count
    characters. *)

From S2P Require Import Prelude.

Abbreviation str := (list N).

(** ** Characters and bytes *)

Definition encode_utf8 (c : N) : list N :=
  if (c <? 128)%N then [c]
  else if (c <? 2048)%N then [192 + c / 64; 128 + c mod 64]%N
  else if (c <? 65536)%N then [224 + c / 4096; 128 + c / 64 mod 64; 128 + c mod 64]%N
  else [240 + c / 262144; 128 + c / 4096 mod 64; 128 + c / 64 mod 64; 128 + c mod 64]%N.

(** [str::as_bytes] *)
Definition str_bytes (s : str) : list N := s ≫= encode_utf8.

(** [str::chars]: the characters of UTF-8 bytes *)
Fixpoint chars (bytes : list N) : str :=
  match bytes with
  | [] => []
  | b :: bytes =>
      if (b <? 128)%N then b :: chars bytes
      else if (b <? 224)%N then
        match bytes with
        | b1 :: bytes => ((b - 192) * 64 + (b1 - 128))%N :: chars bytes
        | _ => []
        end
      else if (b <? 240)%N then
        match bytes with
        | b1 :: b2 :: bytes => ((b - 224) * 4096 + (b1 - 128) * 64 + (b2 - 128))%N :: chars bytes
        | _ => []
        end
      else
        match bytes with
        | b1 :: b2 :: b3 :: bytes =>
            ((b - 240) * 262144 + (b1 - 128) * 4096 + (b2 - 128) * 64 + (b3 - 128))%N :: chars bytes
        | _ => []
        end
  end.

(** [[u8]::is_ascii] *)
Definition is_ascii (bytes : list N) : bool := forallb (fun b => b <? 128)%N bytes.

(** [&s[k..]] for a byte offset [k] *)
Fixpoint byte_slice (s : str) (k : nat) : option str :=
  match k, s with
  | O, _ => Some s
  | _, [] => None
  | _, c :: s =>
      let w := length (encode_utf8 c) in
      if (w <=? k) then byte_slice s (k - w) else None
  end.

(** [&s[..k]] for a byte offset [k] *)
Fixpoint byte_prefix (s : str) (k : nat) : option str :=
  match k, s with
  | O, _ => Some []
  | _, [] => None
  | _, c :: s =>
      let w := length (encode_utf8 c) in
      if (w <=? k) then cons c <$> byte_prefix s (k - w) else None
  end.

(** [s.char_indices().nth(n)]: the byte offset of a character *)
Fixpoint char_index (s : str) (n : nat) : option nat :=
  match s, n with
  | [], _ => None
  | _, O => Some 0
  | c :: s, S n => (fun i => length (encode_utf8 c) + i) <$> char_index s n
  end.

(** ** Helpers of the tree *)

Definition advance_by_chars (s : str) (n : nat) : option str :=
  if (n =? 0) then Some s
  else if (length (str_bytes s) <=? n) then Some []
  else if is_ascii (take n (str_bytes s)) then byte_slice s n
  else match char_index s n with
       | Some idx => byte_slice s idx
       | None => Some []
       end.

Definition take_chars (s : str) (n : nat) : option str :=
  if (n =? 0) then Some []
  else match char_index s n with
       | Some idx => byte_prefix s idx
       | None => Some s
       end.

(** The length of the common prefix of two lists. *)
Fixpoint common_prefix (a b : list N) : nat :=
  match a, b with
  | x :: a, y :: b => if (x =? y)%N then S (common_prefix a b) else 0
  | _, _ => 0
  end.

(** [a.chars().zip(b.chars()).take_while(..).count()] *)
Definition shared_prefix_count_chars (a b : str) : nat := common_prefix a b.

Definition shared_prefix_count (a b : str) : nat :=
  let common_byte_len := common_prefix (str_bytes a) (str_bytes b) in
  if is_ascii (take common_byte_len (str_bytes a)) then common_byte_len
  else shared_prefix_count_chars a b.

(** ** Node texts *)

Record NodeText := MkText { node_text : str; char_count : nat }.

Definition new_text (s : str) : NodeText := MkText s (length s).

Definition empty_text : NodeText := MkText [] 0.

Definition first_char (t : NodeText) : option N := head (node_text t).

Definition split_at_char (t : NodeText) (char_idx : nat) : option (NodeText * NodeText) :=
  if (char_idx =? 0) then Some (empty_text, t)
  else if (char_count t <=? char_idx) then Some (t, empty_text)
  else
    let byte_idx := default (length (str_bytes (node_text t))) (char_index (node_text t) char_idx) in
    p ← byte_prefix (node_text t) byte_idx;
    s ← byte_slice (node_text t) byte_idx;
    Some (MkText p char_idx, MkText s (char_count t - char_idx)).

(** ** Bytes of characters *)

(** Decoding the bytes of a character gives it back. *)
Lemma chars_encode c l : (c < 1114112)%N -> chars (encode_utf8 c ++ l) = c :: chars l.
Proof.
  intros Hc. unfold encode_utf8.
  destruct (N.ltb_spec c 128); [|destruct (N.ltb_spec c 2048); [|destruct (N.ltb_spec c 65536)]]; cbn [app chars].
  - by rewrite (proj2 (N.ltb_lt _ _)).
  - rewrite (proj2 (N.ltb_ge _ _)), (proj2 (N.ltb_lt _ _)) by lia_mod. f_equal. lia_mod.
  - rewrite !(proj2 (N.ltb_ge _ _)), (proj2 (N.ltb_lt _ _)) by lia_mod. f_equal. lia_mod.
  - rewrite !(proj2 (N.ltb_ge _ _)) by lia_mod. f_equal. lia_mod.
Qed.

Lemma chars_bytes s : Forall (fun c => c < 1114112)%N s -> chars (str_bytes s) = s.
Proof.
  induction 1 as [|c s Hc _ IH]; [done|]. change (str_bytes (c :: s)) with (encode_utf8 c ++ str_bytes s).
  by rewrite chars_encode, IH.
Qed.

Lemma encode_nonempty c : exists b l, encode_utf8 c = b :: l.
Proof. unfold encode_utf8. repeat case_match; eauto. Qed.

Lemma encode_ascii c : (c < 128)%N -> encode_utf8 c = [c].
Proof. intros H. unfold encode_utf8. by rewrite (proj2 (N.ltb_lt _ _) H). Qed.

(** Only an ASCII character starts with an ASCII byte. *)
Lemma encode_head_ascii c b l : encode_utf8 c = b :: l -> (b < 128)%N -> c = b /\ l = [].
Proof.
  unfold encode_utf8. intros H Hb.
  repeat case_match; injection H as <- <-; [done|exfalso; revert Hb; apply N.le_ngt; by apply N.le_trans with (2 := N.le_add_r _ _)..].
Qed.

Lemma encode_length c : 1 <= length (encode_utf8 c).
Proof. destruct (encode_nonempty c) as (b & l & ->). simpl. lia. Qed.

Lemma str_bytes_cons c s : str_bytes (c :: s) = encode_utf8 c ++ str_bytes s.
Proof. done. Qed.

Lemma str_bytes_length s : length s <= length (str_bytes s).
Proof.
  induction s as [|c s IH]; [done|]. rewrite str_bytes_cons, length_app.
  pose proof (encode_length c). simpl. lia.
Qed.

Lemma byte_slice_0 s : byte_slice s 0 = Some s.
Proof. by destruct s. Qed.

Lemma byte_slice_skip c s k : byte_slice (c :: s) (length (encode_utf8 c) + k) = byte_slice s k.
Proof.
  pose proof (encode_length c). destruct (length (encode_utf8 c) + k) eqn:E; [lia|].
  simpl. rewrite <- E. rewrite (proj2 (Nat.leb_le _ _)) by lia. f_equal. lia.
Qed.

Lemma byte_prefix_skip c s k :
  byte_prefix (c :: s) (length (encode_utf8 c) + k) = cons c <$> byte_prefix s k.
Proof.
  pose proof (encode_length c). destruct (length (encode_utf8 c) + k) eqn:E; [lia|].
  simpl. rewrite <- E. rewrite (proj2 (Nat.leb_le _ _)) by lia. do 2 f_equal. lia.
Qed.

(** The offset of a character is a boundary: cutting there cuts the characters. *)
Lemma char_index_cut s n :
  match char_index s n with
  | Some idx => n < length s /\ byte_slice s idx = Some (drop n s) /\ byte_prefix s idx = Some (take n s)
  | None => length s <= n
  end.
Proof.
  revert n. induction s as [|c s IH]; intros n; [simpl; lia|].
  destruct n as [|n]; [simpl; auto with lia|].
  specialize (IH n). simpl char_index. destruct (char_index s n) as [i|]; cbn [fmap option_fmap option_map]; [|simpl; lia].
  destruct IH as (Hl & Hs & Hp). rewrite byte_slice_skip, byte_prefix_skip, Hs, Hp.
  split; [simpl; lia|done].
Qed.

Lemma byte_slice_ascii s n :
  n <= length (str_bytes s) -> is_ascii (take n (str_bytes s)) = true -> byte_slice s n = Some (drop n s).
Proof.
  revert s. induction n as [|n IH]; intros s Hn Ha; [by rewrite byte_slice_0|].
  destruct s as [|c s]; [simpl in Hn; lia|].
  destruct (encode_nonempty c) as (b & l & E).
  rewrite str_bytes_cons, E in Ha, Hn. simpl in Ha, Hn. apply andb_true_iff in Ha as [Hb Ha].
  apply N.ltb_lt in Hb. destruct (encode_head_ascii _ _ _ E Hb) as [-> ->].
  change (S n) with (1 + n). replace 1 with (length (encode_utf8 b)) at 1 by (by rewrite encode_ascii).
  rewrite byte_slice_skip. simpl in *. apply IH; [lia|done].
Qed.

Lemma common_prefix_nil_r a : common_prefix a [] = 0.
Proof. by destruct a. Qed.

(** An ASCII run of equal bytes is a run of equal characters. *)
Lemma common_prefix_ascii a b :
  is_ascii (take (common_prefix (str_bytes a) (str_bytes b)) (str_bytes a)) = true ->
  common_prefix (str_bytes a) (str_bytes b) = common_prefix a b.
Proof.
  revert b. induction a as [|c a IH]; intros b Ha; [done|].
  destruct b as [|d b]; [by rewrite common_prefix_nil_r|].
  destruct (encode_nonempty c) as (x & l & Ec), (encode_nonempty d) as (y & l' & Ed).
  rewrite !str_bytes_cons, Ec, Ed in Ha |- *. simpl in Ha |- *.
  destruct (N.eqb_spec x y) as [<-|Hxy].
  - simpl in Ha. apply andb_true_iff in Ha as [Hx Ha]. apply N.ltb_lt in Hx.
    destruct (encode_head_ascii _ _ _ Ec Hx) as [-> ->].
    destruct (encode_head_ascii _ _ _ Ed Hx) as [-> ->].
    rewrite N.eqb_refl. f_equal. by apply IH.
  - destruct (N.eqb_spec c d) as [->|]; [congruence|done].
Qed.

(** ** What the helpers compute *)

Lemma advance_by_chars_drop s n : advance_by_chars s n = Some (drop n s).
Proof.
  unfold advance_by_chars. destruct (Nat.eqb_spec n 0) as [->|Hn]; [done|].
  destruct (Nat.leb_spec (length (str_bytes s)) n) as [Hl|Hl].
  { pose proof (str_bytes_length s). rewrite drop_ge by lia. done. }
  destruct (is_ascii _) eqn:Ha; [apply byte_slice_ascii; [lia|done]|].
  pose proof (char_index_cut s n) as H. destruct (char_index s n); [apply H|].
  by rewrite drop_ge.
Qed.

Lemma take_chars_take s n : take_chars s n = Some (take n s).
Proof.
  unfold take_chars. destruct (Nat.eqb_spec n 0) as [->|Hn]; [done|].
  pose proof (char_index_cut s n) as H. destruct (char_index s n); [apply H|].
  by rewrite take_ge.
Qed.

Lemma shared_prefix_count_eq a b : shared_prefix_count a b = common_prefix a b.
Proof. unfold shared_prefix_count. case_match eqn:Ha; [by apply common_prefix_ascii|done]. Qed.

Lemma split_new_text s n :
  split_at_char (new_text s) n = Some (new_text (take n s), new_text (drop n s)).
Proof.
  unfold split_at_char, new_text; simpl. destruct (Nat.eqb_spec n 0) as [->|Hn]; [done|].
  destruct (Nat.leb_spec (length s) n) as [Hl|Hl]; [by rewrite take_ge, drop_ge|].
  pose proof (char_index_cut s n) as H. destruct (char_index s n); [|lia].
  destruct H as (_ & Hs & Hp). simpl. rewrite Hs, Hp. simpl.
  by rewrite length_take_le, length_drop by lia.
Qed.

(** The string helpers of the tree never panic and count characters: the
    ASCII fast paths of [advance_by_chars] and [shared_prefix_count] agree with
    dropping characters and with the common prefix of the characters,
    [take_chars] takes characters, and splitting a node's text at a character
    cuts it there with exact cached counts. *)
Theorem text_helpers_exact :
  (forall s n, advance_by_chars s n = Some (drop n s)) /\
  (forall s n, take_chars s n = Some (take n s)) /\
  (forall a b, shared_prefix_count a b = shared_prefix_count_chars a b) /\
  (forall s n, split_at_char (new_text s) n = Some (new_text (take n s), new_text (drop n s))).
Proof.
  auto using advance_by_chars_drop, take_chars_take, shared_prefix_count_eq, split_new_text.
Qed.

(** ** Common prefixes *)

Lemma common_prefix_spec a b :
  take (common_prefix a b) a = take (common_prefix a b) b /\
  common_prefix a b <= length a /\ common_prefix a b <= length b /\
  forall p, p `prefix_of` a -> p `prefix_of` b -> length p <= common_prefix a b.
Proof.
  revert b. induction a as [|x a IH]; intros b.
  { simpl. split_and!; [done|lia|lia|]. intros p ->%prefix_nil_inv _. simpl. lia. }
  destruct b as [|y b]; simpl.
  { split_and!; [done|lia|lia|]. intros p _ ->%prefix_nil_inv. simpl. lia. }
  destruct (N.eqb_spec x y) as [->|Hxy].
  - destruct (IH b) as (H1 & H2 & H3 & H4). split_and!; [simpl; congruence|lia|lia|].
    intros [|z p] Ha Hb; simpl; [lia|].
    pose proof (H4 p (prefix_cons_inv_2 _ _ _ _ Ha) (prefix_cons_inv_2 _ _ _ _ Hb)). lia.
  - split_and!; [done|lia|lia|]. intros [|z p] Ha Hb; simpl; [lia|].
    pose proof (prefix_cons_inv_1 _ _ _ _ Ha). pose proof (prefix_cons_inv_1 _ _ _ _ Hb). congruence.
Qed.

