(* ===== verification/PrefixTree.v ===== *)
(** * The approximate prefix tree ([src/tree.rs])

    A radix tree of the texts sent to each tenant (a worker URL).  A [NodeRef]
    (an [Arc<Node>]) is an address in a heap; [root_addr] is the root's and
    [next_addr] the next [Arc::new].  A call is one step: the model is of calls
    that follow one another.  The iteration order of hash maps and the order in
    which a binary heap returns equal elements are not fixed by the program:
    they are the class [Unordered].  The global epoch counter is passed through
    the calls that read it.  [None] is a call that panics or does not return.
    The counts of characters are unbounded: a count never exceeds the number of
    characters that are in memory.

    This file holds the operations, the invariant of the tree and what queries
    find; [PrefixTreeUpdate] has the operations that change the tree. *)

From S2P Require Import Prelude TreeText.

(** ** Data *)

Record Node := MkNode {
  children : gmap N nat;
  text : NodeText;
  tenant_last_access_time : gmap string N;
  parent : option nat;
  last_tenant : option string;
}.

Record Tree := MkTree {
  heap : gmap nat Node;
  next_addr : nat;
  tenant_char_count : gmap string nat;
}.

Record EvictionEntry := MkEntry {
  timestamp : N;
  entry_tenant : string;
  entry_node : nat;
}.

Record PrefixMatchResult := MkMatch {
  tenant : string;
  matched_char_count : nat;
  input_char_count : nat;
}.

(** Popping a [BinaryHeap] of [Reverse] entries takes one with the least
    timestamp. *)
Class Unordered := {
  unordered_hash :: HashOrder;
  pop : list EvictionEntry -> option (EvictionEntry * list EvictionEntry);
  pop_none : forall pq, pop pq = None -> pq = [];
  pop_some : forall pq e pq', pop pq = Some (e, pq') ->
    pq ≡ₚ e :: pq' /\ Forall (fun e' => timestamp e <= timestamp e')%N pq';
}.

Definition root_addr : nat := 0.

Definition root_node : Node := MkNode ∅ empty_text ∅ None None.

Definition new_tree : Tree := MkTree {[ root_addr := root_node ]} 1 ∅.

(** [EPOCH_COUNTER.fetch_add(1)]: the value and the counter after it. *)
Definition get_epoch (counter : N) : N * N := (counter, u64_wrapping_add counter 1).

(** ** Writing nodes *)

Definition set_node (n : nat) (d : Node) (t : Tree) : Tree :=
  MkTree (<[n := d]> (heap t)) (next_addr t) (tenant_char_count t).

Definition set_counts (c : gmap string nat) (t : Tree) : Tree :=
  MkTree (heap t) (next_addr t) c.

Definition set_children (c : gmap N nat) (d : Node) : Node :=
  MkNode c (text d) (tenant_last_access_time d) (parent d) (last_tenant d).

Definition set_tenants (m : gmap string N) (d : Node) : Node :=
  MkNode (children d) (text d) m (parent d) (last_tenant d).

Definition set_last (l : option string) (d : Node) : Node :=
  MkNode (children d) (text d) (tenant_last_access_time d) (parent d) l.

(** [entry(tenant).and_modify(|count| *count += n).or_insert(n)] *)
Definition add_count (x : string) (n : nat) (m : gmap string nat) : gmap string nat :=
  <[x := default 0 (m !! x) + n]> m.

(** [contains_key] of the tenants of a node *)
Definition has_tenant (x : string) (d : Node) : bool :=
  bool_decide (is_Some (tenant_last_access_time d !! x)).

(** Attach a tenant to a node of [chars] characters unless it is there. *)
Definition attach (x : string) (n : nat) (d : Node) (chars : nat) (t : Tree) : Tree :=
  if has_tenant x d then t
  else set_node n (set_tenants (<[x := 0%N]> (tenant_last_access_time d)) d)
         (set_counts (add_count x chars (tenant_char_count t)) t).

(** [entry(key).or_insert(v)] *)
Definition or_insert {V} (k : string) (v : V) (m : gmap string V) : gmap string V :=
  match m !! k with Some _ => m | None => <[k := v]> m end.

(** ** Insertion *)

(** A new leaf below [prev] that holds the remaining text. *)
Definition new_leaf (x : string) (epoch : N) (first : N) (remaining : str) (prev : nat) (p : Node)
  (t : Tree) : Tree :=
  let leaf := MkNode ∅ (new_text remaining) {[ x := epoch ]} (Some prev) (Some x) in
  let n := next_addr t in
  MkTree (<[prev := set_children (<[first := n]> (children p)) p]> (<[n := leaf]> (heap t))) (S n)
    (add_count x (length remaining) (tenant_char_count t)).

(** Split the node [m] below [prev] at [shared] characters; the new upper node
    copies its tenants. *)
Definition split_node (first : N) (shared : nat) (prev : nat) (p : Node) (m : nat) (d : Node) (t : Tree)
  : option (nat * Node * Tree) :=
  '(matched, contracted) ← split_at_char (text d) shared;
  first_new_char ← first_char contracted;
  let n := next_addr t in
  let upper := MkNode {[ first_new_char := m ]} matched (tenant_last_access_time d) (Some prev)
                 (last_tenant d) in
  let lower := MkNode (children d) contracted (tenant_last_access_time d) (Some n) (last_tenant d) in
  Some (n, upper,
    MkTree (<[m := lower]> (<[prev := set_children (<[first := n]> (children p)) p]>
             (<[n := upper]> (heap t)))) (S n) (tenant_char_count t)).

(** Every round consumes at least one character of the text. *)
Fixpoint insert_loop (fuel : nat) (x : string) (epoch : N) (remaining : str) (prev : nat) (t : Tree)
  : option Tree :=
  match remaining, fuel with
  | [], _ =>
      p ← heap t !! prev;
      Some (set_node prev (set_tenants (<[x := epoch]> (tenant_last_access_time p)) p) t)
  | _, O => None
  | first :: _, S fuel =>
      p ← heap t !! prev;
      match children p !! first with
      | None => Some (new_leaf x epoch first remaining prev p t)
      | Some m =>
          d ← heap t !! m;
          let shared := shared_prefix_count remaining (node_text (text d)) in
          if (shared <? char_count (text d)) then
            '(n, upper, t) ← split_node first shared prev p m d t;
            let t := attach x n upper shared t in
            remaining ← advance_by_chars remaining shared;
            insert_loop fuel x epoch remaining n t
          else
            let t := attach x m d (char_count (text d)) t in
            remaining ← advance_by_chars remaining shared;
            insert_loop fuel x epoch remaining m t
      end
  end.

Definition insert (s : str) (x : string) (counter : N) (t : Tree) : option (N * Tree) :=
  root ← heap t !! root_addr;
  let t := set_node root_addr (set_tenants (or_insert x 0%N (tenant_last_access_time root)) root) t in
  let t := set_counts (or_insert x 0 (tenant_char_count t)) t in
  let '(epoch, counter) := get_epoch counter in
  t ← insert_loop (length s) x epoch s root_addr t;
  Some (counter, t).

Definition insert_capped (s : str) (x : string) (max_chars : nat) (counter : N) (t : Tree)
  : option (bool * N * Tree) :=
  if (max_chars =? 0) then Some (false, counter, t)
  else if match tenant_char_count t !! x with Some count => max_chars <=? count | None => false end
  then Some (false, counter, t)
  else '(counter, t) ← insert s x counter t; Some (true, counter, t).

(** ** Queries *)

(** The walk of both prefix matches: the characters matched and the node that
    ends it; [follow] is the condition to enter a child. *)
Fixpoint walk (follow : Node -> bool) (fuel : nat) (h : gmap nat Node) (remaining : str)
  (matched : nat) (prev : nat) : option (nat * nat) :=
  match remaining, fuel with
  | [], _ => Some (matched, prev)
  | _, O => None
  | first :: _, S fuel =>
      p ← h !! prev;
      match children p !! first with
      | None => Some (matched, prev)
      | Some m =>
          d ← h !! m;
          if follow d then
            let shared := shared_prefix_count remaining (node_text (text d)) in
            if (shared =? char_count (text d)) then
              remaining ← advance_by_chars remaining shared;
              walk follow fuel h remaining (matched + shared) m
            else Some (matched + shared, m)
          else Some (matched, prev)
      end
  end.

Definition any_node (d : Node) : bool := true.

(** The first tenant an iteration over the node's tenants returns. *)
Definition some_tenant `{Unordered} (d : Node) : string :=
  default "empty" (fst <$> head (iter (tenant_last_access_time d))).

(** The cached tenant if it still holds the node, or any other, which is then
    cached. *)
Definition pick_tenant `{Unordered} (d : Node) : string * Node :=
  match last_tenant d with
  | Some x => if has_tenant x d then (x, d)
              else (some_tenant d, set_last (Some (some_tenant d)) d)
  | None => (some_tenant d, set_last (Some (some_tenant d)) d)
  end.

Definition prefix_match_with_counts `{Unordered} (s : str) (counter : N) (t : Tree)
  : option (PrefixMatchResult * N * Tree) :=
  '(matched, curr) ← walk any_node (length s) (heap t) s 0 root_addr;
  d ← heap t !! curr;
  let '(x, d) := pick_tenant d in
  let '(epoch, counter) := get_epoch counter in
  let d := if (N.land epoch 7 =? 0)%N
           then set_tenants (<[x := epoch]> (tenant_last_access_time d)) d else d in
  Some (MkMatch x matched (length s), counter, set_node curr d t).

Definition prefix_match `{Unordered} (s : str) (counter : N) (t : Tree)
  : option (str * string * N * Tree) :=
  '(r, counter, t) ← prefix_match_with_counts s counter t;
  matched_text ← take_chars s (matched_char_count r);
  Some (matched_text, tenant r, counter, t).

Definition prefix_match_tenant_state (s : str) (x : string) (t : Tree) : option (nat * nat) :=
  walk (has_tenant x) (length s) (heap t) s 0 root_addr.

Definition prefix_match_tenant_char_count (s : str) (x : string) (t : Tree) : option nat :=
  fst <$> prefix_match_tenant_state s x t.

Definition prefix_match_tenant (s : str) (x : string) (counter : N) (t : Tree)
  : option (str * N * Tree) :=
  '(matched, curr) ← prefix_match_tenant_state s x t;
  d ← heap t !! curr;
  matched_text ← take_chars s matched;
  if has_tenant x d then
    let '(epoch, counter) := get_epoch counter in
    Some (matched_text, counter,
      set_node curr (set_tenants (<[x := epoch]> (tenant_last_access_time d)) d) t)
  else Some (matched_text, counter, t).

Section unordered.
Context `{Unordered}.

(** ** Traversal *)

(** [while let Some(curr) = stack.pop()], pushing the children of every node;
    [visit] is what the loop does with the node.  The head of the list is the
    top of the stack. *)
Fixpoint dfs {A} (visit : nat -> Node -> A -> option A) (fuel : nat) (h : gmap nat Node)
  (stack : list nat) (acc : A) : option A :=
  match stack, fuel with
  | [], _ => Some acc
  | _, O => None
  | curr :: stack, S fuel =>
      d ← h !! curr;
      acc ← visit curr d acc;
      dfs visit fuel h (reverse (snd <$> iter (children d)) ++ stack) acc
  end.

(** [node.children.iter().any(..contains_key(tenant))] *)
Definition has_child_with_tenant (h : gmap nat Node) (x : string) (d : Node) : bool :=
  existsb (fun kc => match h !! kc.2 with Some c => has_tenant x c | None => false end)
    (iter (children d)).

Definition leaf_of (h : gmap nat Node) (d : Node) : list string :=
  let candidates : gmap string bool := (fun _ => true) <$> tenant_last_access_time d in
  let mark (c : Node) (m : gmap string bool) :=
    foldl (fun m kv => <[kv.1 := false]> m) m (iter (tenant_last_access_time c)) in
  let candidates := foldl (fun m kc => match h !! kc.2 with Some c => mark c m | None => m end)
    candidates (iter (children d)) in
  fst <$> filter (fun kv => kv.2 = true) (iter candidates).

Definition get_used_size_per_tenant (t : Tree) : option (gmap string nat) :=
  dfs (fun _ d acc =>
         Some (foldl (fun acc kv => add_count kv.1 (char_count (text d)) acc) acc
                 (iter (tenant_last_access_time d))))
    (size (heap t)) (heap t) [root_addr] ∅.

(** ** Removal *)

(** [if node.children.is_empty() && node.tenant_last_access_time.is_empty()]:
    unlink the node from its parent. *)
Definition unlink_if_empty (d : Node) (h : gmap nat Node) : option (gmap nat Node) :=
  if bool_decide (children d = ∅) && bool_decide (tenant_last_access_time d = ∅) then
    match parent d, first_char (text d) with
    | Some q, Some fc => p ← h !! q; Some (<[q := set_children (delete fc (children p)) p]> h)
    | _, _ => Some h
    end
  else Some h.

(** Take the tenant from a node; the parent if it becomes a leaf for it. *)
Definition detach (x : string) (n : nat) (d : Node) (h : gmap nat Node)
  : option (gmap nat Node * option (nat * N)) :=
  let d := set_tenants (delete x (tenant_last_access_time d)) d in
  h ← unlink_if_empty d (<[n := d]> h);
  match parent d with
  | None => Some (h, None)
  | Some q =>
      p ← h !! q;
      match tenant_last_access_time p !! x with
      | None => Some (h, None)
      | Some ts => Some (h, if has_child_with_tenant h x p then None else Some (q, ts))
      end
  end.

(** One round of the eviction loop. *)
Definition evict_step (max_size : nat) (e : EvictionEntry) (pq : list EvictionEntry) (t : Tree)
  : option (list EvictionEntry * Tree) :=
  let x := entry_tenant e in
  d ← heap t !! entry_node e;
  if match tenant_char_count t !! x with Some used_size => used_size <=? max_size | None => false end
  then Some (pq, t)
  else if negb (has_tenant x d && negb (has_child_with_tenant (heap t) x d)) then Some (pq, t)
  else
    let counts := alter (fun count => count - char_count (text d)) x (tenant_char_count t) in
    '(h, up) ← detach x (entry_node e) d (heap t);
    Some (match up with Some (q, ts) => MkEntry ts x q :: pq | None => pq end,
          MkTree h (next_addr t) counts).

Fixpoint evict_loop (fuel : nat) (max_size : nat) (pq : list EvictionEntry) (t : Tree) : option Tree :=
  match pop pq, fuel with
  | None, _ => Some t
  | _, O => None
  | Some (e, pq), S fuel =>
      '(pq, t) ← evict_step max_size e pq t;
      evict_loop fuel max_size pq t
  end.

(** The leaves of every tenant, with their timestamps. *)
Definition collect_leaves (t : Tree) : option (list EvictionEntry) :=
  dfs (fun n d acc =>
         Some (foldl (fun acc x => match tenant_last_access_time d !! x with
                                   | Some ts => MkEntry ts x n :: acc | None => acc end)
                 acc (leaf_of (heap t) d)))
    (size (heap t)) (heap t) [root_addr] [].

(** The number of tenants at the nodes of the heap; every round of the loops
    takes one of them or an entry of the queue. *)
Definition attachments (h : gmap nat Node) : nat :=
  map_fold (fun _ d acc => size (tenant_last_access_time d) + acc) 0 h.

Definition evict_tenant_by_size (max_size : nat) (t : Tree) : option Tree :=
  pq ← collect_leaves t;
  evict_loop (length pq + 2 * attachments (heap t)) max_size pq t.

(** The queue of [remove_tenant]. *)
Fixpoint remove_loop (fuel : nat) (x : string) (queue : list nat) (h : gmap nat Node)
  : option (gmap nat Node) :=
  match queue, fuel with
  | [], _ => Some h
  | _, O => None
  | n :: queue, S fuel =>
      d ← h !! n;
      '(h, up) ← detach x n d h;
      remove_loop fuel x (queue ++ match up with Some (q, _) => [q] | None => [] end) h
  end.

Definition collect_tenant_leaves (x : string) (t : Tree) : option (list nat) :=
  dfs (fun n d acc =>
         Some (if has_tenant x d && negb (has_child_with_tenant (heap t) x d) then acc ++ [n] else acc))
    (size (heap t)) (heap t) [root_addr] [].

Definition remove_tenant (x : string) (t : Tree) : option Tree :=
  queue ← collect_tenant_leaves x t;
  h ← remove_loop (length queue + 2 * attachments (heap t)) x queue (heap t);
  Some (MkTree h (next_addr t) (delete x (tenant_char_count t))).

End unordered.

(** [get_tenant_char_count] *)
Definition get_tenant_char_count (t : Tree) : gmap string nat := tenant_char_count t.

(** ** The invariant

    [P] gives every node of the tree (every node that is linked from the root)
    the text on the path to it. *)

Definition holds (d : Node) (x : string) : Prop := is_Some (tenant_last_access_time d !! x).

(** The node [n] hangs below [p]. *)
Record linked (P : gmap nat str) (h : gmap nat Node) (n : nat) (q : str) (d : Node)
    (p : nat) (ps : str) (pd : Node) (c : N) : Prop := {
  l_parent : parent d = Some p;
  l_path : P !! p = Some ps;
  l_node : h !! p = Some pd;
  l_text : q = ps ++ node_text (text d);
  l_first : first_char (text d) = Some c;
  l_child : children pd !! c = Some n;
  l_tenants : forall x, holds d x -> holds pd x;
  l_used : exists x, holds d x;
}.

Arguments l_parent {P h n q d p ps pd c} _.
Arguments l_path {P h n q d p ps pd c} _.
Arguments l_node {P h n q d p ps pd c} _.
Arguments l_text {P h n q d p ps pd c} _.
Arguments l_first {P h n q d p ps pd c} _.
Arguments l_child {P h n q d p ps pd c} _.
Arguments l_tenants {P h n q d p ps pd c} _.
Arguments l_used {P h n q d p ps pd c} _.

Record shape (P : gmap nat str) (h : gmap nat Node) : Prop := {
  sh_root : exists r, h !! root_addr = Some r /\ parent r = None /\ text r = empty_text /\
    P !! root_addr = Some [];
  sh_node : forall n q, P !! n = Some q -> exists d, h !! n = Some d /\
    text d = new_text (node_text (text d));
  sh_up : forall n q d, P !! n = Some q -> h !! n = Some d -> n <> root_addr ->
    exists p ps pd c, linked P h n q d p ps pd c;
  sh_down : forall p ps pd c m, P !! p = Some ps -> h !! p = Some pd -> children pd !! c = Some m ->
    exists q d, P !! m = Some q /\ h !! m = Some d /\ parent d = Some p /\ first_char (text d) = Some c;
}.

Arguments sh_root {P h} _.
Arguments sh_node {P h} _.
Arguments sh_up {P h} _.
Arguments sh_down {P h} _.

(** A text on the path to a node that [F] accepts. *)
Definition reaches (P : gmap nat str) (h : gmap nat Node) (F : Node -> bool) (s : str) : Prop :=
  exists n q d, P !! n = Some q /\ h !! n = Some d /\ F d = true /\ s `prefix_of` q.

(** A tenant owns the texts that were sent to it and their prefixes: those on the
    paths to its nodes. *)
Definition owns (P : gmap nat str) (h : gmap nat Node) (x : string) : str -> Prop :=
  reaches P h (has_tenant x).

Lemma has_tenant_spec x d : has_tenant x d = true <-> holds d x.
Proof. apply bool_decide_eq_true. Qed.

Section shape.
Context {P : gmap nat str} {h : gmap nat Node} (Hs : shape P h).

Lemma shape_child_linked p ps pd c m :
  P !! p = Some ps -> h !! p = Some pd -> children pd !! c = Some m ->
  exists q d, P !! m = Some q /\ h !! m = Some d /\ m <> root_addr /\ linked P h m q d p ps pd c.
Proof.
  intros Hp Hpd Hc. destruct (sh_down Hs _ _ _ _ _ Hp Hpd Hc) as (q & d & Hq & Hd & Hpar & Hf).
  assert (m <> root_addr) as Hm.
  { intros ->. destruct (sh_root Hs) as (r & Hr & Hpr & _). congruence. }
  destruct (sh_up Hs _ _ _ Hq Hd Hm) as (p' & ps' & pd' & c' & L).
  exists q, d. split_and!; [done..|].
  pose proof (l_parent L). pose proof (l_path L).
  pose proof (l_node L). pose proof (l_first L).
  by assert (p' = p /\ ps' = ps /\ pd' = pd /\ c' = c) as (<- & <- & <- & <-) by (split_and!; congruence).
Qed.

(** Only the root has the empty path. *)
Lemma shape_path_nil n : P !! n = Some [] -> n = root_addr.
Proof.
  intros Hn. destruct (decide (n = root_addr)) as [|Hne]; [done|].
  destruct (sh_node Hs _ _ Hn) as (d & Hd & _).
  destruct (sh_up Hs _ _ _ Hn Hd Hne) as (p & ps & pd & c & L).
  pose proof (l_text L) as E. pose proof (l_first L) as F.
  unfold first_char in F. destruct (node_text (text d)); [done|]. by destruct ps.
Qed.

(** ** Paths determine nodes *)

Lemma shape_up n q : P !! n = Some q -> n <> root_addr ->
  exists d p ps pd c rest, h !! n = Some d /\ linked P h n q d p ps pd c /\
    node_text (text d) = c :: rest /\ q = ps ++ c :: rest.
Proof.
  intros Hn Hne. destruct (sh_node Hs _ _ Hn) as (d & Hd & _).
  destruct (sh_up Hs _ _ _ Hn Hd Hne) as (p & ps & pd & c & L).
  pose proof (l_first L) as F.
  unfold first_char in F. destruct (node_text (text d)) as [|c' rest] eqn:T; simplify_eq/=.
  exists d, p, ps, pd, c, rest. split_and!; [done..|]. rewrite (l_text L), T. done.
Qed.

(** The edge of [n] holds the last character of [s]. *)
Definition covers (n : nat) (s : str) : Prop :=
  exists q d p ps pd c, P !! n = Some q /\ h !! n = Some d /\ linked P h n q d p ps pd c /\
    length ps < length s /\ s `prefix_of` q.

Lemma covers_self n q : P !! n = Some q -> n <> root_addr -> covers n q.
Proof.
  intros Hn Hne. destruct (shape_up n q Hn Hne) as (d & p & ps & pd & c & rest & Hd & L & _ & E).
  exists q, d, p, ps, pd, c. split_and!; [done..| |done]. rewrite E, length_app. simpl. lia.
Qed.

(** Two siblings whose paths share a character below their parent are equal. *)
Lemma siblings_eq n1 n2 q1 q2 d1 d2 p1 p2 ps pd1 pd2 c1 c2 s :
  linked P h n1 q1 d1 p1 ps pd1 c1 -> linked P h n2 q2 d2 p2 ps pd2 c2 -> p1 = p2 ->
  length ps < length s -> s `prefix_of` q1 -> s `prefix_of` q2 -> n1 = n2.
Proof.
  intros L1 L2 <- Hl H1 H2.
  assert (c1 = c2) as <-.
  { pose proof (l_first L1) as F1. pose proof (l_first L2) as F2.
    pose proof (l_text L1) as E1. pose proof (l_text L2) as E2.
    unfold first_char in F1, F2.
    destruct (lookup_lt_is_Some_2 s (length ps) Hl) as [c Hc].
    pose proof (prefix_lookup_Some _ _ _ _ Hc H1) as K1. pose proof (prefix_lookup_Some _ _ _ _ Hc H2) as K2.
    rewrite E1, lookup_app_r, Nat.sub_diag, <- head_lookup, F1 in K1 by lia.
    rewrite E2, lookup_app_r, Nat.sub_diag, <- head_lookup, F2 in K2 by lia. congruence. }
  pose proof (l_node L1). pose proof (l_node L2).
  pose proof (l_child L1). pose proof (l_child L2). congruence.
Qed.

Lemma covers_parent n q d p ps pd c : linked P h n q d p ps pd c -> ps <> [] -> covers p ps.
Proof.
  intros L Hps. apply covers_self; [apply (l_path L)|].
  intros ->. destruct (sh_root Hs) as (r & _ & _ & _ & Hr).
  pose proof (l_path L). congruence.
Qed.

(** A text ends on one edge only. *)
Lemma covers_unique_le (k : nat) :
  (forall s n1 n2, length s < k -> covers n1 s -> covers n2 s -> n1 = n2) ->
  forall s n1 q1 d1 p1 ps1 pd1 c1 n2 q2 d2 p2 ps2 pd2 c2, length s = k ->
  linked P h n1 q1 d1 p1 ps1 pd1 c1 -> linked P h n2 q2 d2 p2 ps2 pd2 c2 ->
  P !! n1 = Some q1 -> h !! n1 = Some d1 -> length ps1 <= length ps2 < length s ->
  s `prefix_of` q1 -> s `prefix_of` q2 -> n1 = n2.
Proof.
  intros IH s n1 q1 d1 p1 ps1 pd1 c1 n2 q2 d2 p2 ps2 pd2 c2 Hk L1 L2 Hq1 Hd1 Hl H1 H2.
  pose proof (l_path L1) as Hp1. pose proof (l_path L2) as Hp2.
  assert (ps2 `prefix_of` q1) as Hps2.
  { transitivity s; [|done]. apply prefix_of_shorter with q2; [|done|lia].
    rewrite (l_text L2). by apply prefix_app_r. }
  assert (ps1 `prefix_of` ps2) as Hps1.
  { apply prefix_of_shorter with q1; [|done|lia].
    rewrite (l_text L1). by apply prefix_app_r. }
  destruct (decide (length ps1 = length ps2)) as [El|Hlt].
  - pose proof (prefix_length_eq _ _ Hps1 ltac:(lia)) as <-.
    refine (siblings_eq _ _ _ _ _ _ _ _ _ _ _ _ _ s L1 L2 _ ltac:(lia) H1 H2).
    destruct ps1 as [|a ps1].
    { by rewrite (shape_path_nil _ Hp1), (shape_path_nil _ Hp2). }
    apply (IH (a :: ps1)); [lia|eapply covers_parent; [exact L1|done]|eapply covers_parent; [exact L2|done]].
  - assert (covers n1 ps2) as C1 by (exists q1, d1, p1, ps1, pd1, c1; split_and!; [done..|lia|done]).
    assert (covers p2 ps2) as C2.
    { eapply covers_parent; [exact L2|]. intros ->. simpl in *. lia. }
    pose proof (IH ps2 n1 p2 ltac:(lia) C1 C2) as ->.
    apply prefix_length in H1. replace ps2 with q1 in Hl by congruence. lia.
Qed.

Lemma covers_unique s n1 n2 : covers n1 s -> covers n2 s -> n1 = n2.
Proof.
  remember (length s) as k eqn:Hk. revert s n1 n2 Hk.
  induction k as [k IH] using lt_wf_ind. intros s n1 n2 -> C1 C2.
  assert (forall s' m1 m2, length s' < length s -> covers m1 s' -> covers m2 s' -> m1 = m2) as IH'
    by (intros s' m1 m2 Hlt; exact (IH _ Hlt s' m1 m2 eq_refl)).
  destruct C1 as (q1 & d1 & p1 & ps1 & pd1 & c1 & Hq1 & Hd1 & L1 & Hl1 & H1).
  destruct C2 as (q2 & d2 & p2 & ps2 & pd2 & c2 & Hq2 & Hd2 & L2 & Hl2 & H2).
  destruct (Nat.le_ge_cases (length ps1) (length ps2)).
  - refine (covers_unique_le _ IH' s _ _ _ _ _ _ _ _ _ _ _ _ _ _ eq_refl L1 L2 Hq1 Hd1 _ H1 H2). lia.
  - symmetry.
    refine (covers_unique_le _ IH' s _ _ _ _ _ _ _ _ _ _ _ _ _ _ eq_refl L2 L1 Hq2 Hd2 _ H2 H1). lia.
Qed.

(** A node whose path goes on past [prev]'s lies below the child of [prev] for
    the next character, and that child holds its tenants. *)
Lemma descend prev ps pd n q d c :
  P !! prev = Some ps -> h !! prev = Some pd -> P !! n = Some q -> h !! n = Some d ->
  ps ++ [c] `prefix_of` q ->
  exists m qm dm, children pd !! c = Some m /\ P !! m = Some qm /\ h !! m = Some dm /\
    qm `prefix_of` q /\ forall x, holds d x -> holds dm x.
Proof.
  intros Hp Hpd. remember (length q) as k eqn:Hk. revert n q d Hk.
  induction k as [k IH] using lt_wf_ind. intros n q d -> Hn Hd Hc.
  assert (n <> root_addr) as Hne.
  { intros ->. destruct (sh_root Hs) as (r & _ & _ & _ & Hr). rewrite Hr in Hn. injection Hn as <-.
    apply prefix_length in Hc. rewrite length_app in Hc. simpl in Hc. lia. }
  destruct (shape_up n q Hn Hne) as (d' & p & qs & qd & c' & rest & Hd' & L & T & E).
  replace d' with d in * by congruence. clear Hd' d'.
  pose proof (l_path L) as Hqs. pose proof (l_node L) as Hqd.
  pose proof (prefix_length _ _ Hc) as Hlc. rewrite length_app in Hlc. simpl in Hlc.
  assert (qs `prefix_of` q) as Hqq by (rewrite E; by apply prefix_app_r).
  destruct (decide (length ps < length qs)) as [Hlt|Hge].
  - destruct (IH (length qs)) with (n := p) (q := qs) (d := qd) as (m & qm & dm & H1 & H2 & H3 & H4 & H5);
      [rewrite E, length_app; simpl; lia|done..| |].
    { apply prefix_of_shorter with q; [done..|]. rewrite length_app. simpl. lia. }
    exists m, qm, dm. split_and!; [done..|by transitivity qs|].
    intros x Hx. apply H5, (l_tenants L), Hx.
  - assert (ps `prefix_of` q) as Hpq by (transitivity (ps ++ [c]); [by apply prefix_app_r|done]).
    assert (p = prev) as ->.
    { destruct ps as [|a ps'].
      { destruct qs; [|simpl in *; lia]. by rewrite (shape_path_nil _ Hqs), (shape_path_nil _ Hp). }
      assert (covers prev (a :: ps')) as Cp.
      { apply covers_self; [done|]. intros ->. destruct (sh_root Hs) as (r & _ & _ & _ & Hr). congruence. }
      destruct (decide (length qs = length (a :: ps'))) as [El|Hlt].
      - assert (qs = a :: ps') as ->.
        { apply prefix_length_eq; [|lia]. apply prefix_of_shorter with q; [done..|lia]. }
        apply covers_unique with (a :: ps'); [|done]. by eapply covers_parent; [exact L|].
      - assert (n = prev) as ->.
        { apply covers_unique with (a :: ps'); [|done]. exists q, d, p, qs, qd, c'.
          split_and!; [done..|lia|done]. }
        replace q with (a :: ps') in Hlc by congruence. lia. }
    assert (qs = ps) as -> by congruence. assert (qd = pd) as -> by congruence.
    assert (c' = c) as ->.
    { destruct Hc as [k Hk]. rewrite E, <- app_assoc in Hk. apply app_inv_head in Hk. by injection Hk. }
    exists n, q, d. split_and!; [apply (l_child L)|done..|auto].
Qed.

(** ** Queries *)

Section walk.
Context (F : Node -> bool).
Context (F_up : forall d d', (forall x, holds d x -> holds d' x) -> F d = true -> F d' = true).

(** Entering the child [m] matches what it shares with the rest of the text. *)
Lemma walk_enter prev ps pd first rest m qm dm :
  P !! prev = Some ps -> linked P h m qm dm prev ps pd first -> P !! m = Some qm -> h !! m = Some dm ->
  let shared := shared_prefix_count (first :: rest) (node_text (text dm)) in
  char_count (text dm) = length (node_text (text dm)) /\ 1 <= shared <= length (first :: rest) /\
  take (length ps + shared) (ps ++ first :: rest) `prefix_of` qm /\
  (shared = char_count (text dm) -> qm = ps ++ take shared (first :: rest)) /\
  (shared <> char_count (text dm) -> forall s', s' `prefix_of` ps ++ first :: rest -> s' `prefix_of` qm ->
    length s' <= length ps + shared) /\
  shared <= char_count (text dm).
Proof.
  intros Hp L Hm Hdm shared. subst shared. rewrite shared_prefix_count_eq.
  destruct (sh_node Hs _ _ Hm) as (d' & Hd' & Ht). replace d' with dm in Ht by congruence.
  assert (char_count (text dm) = length (node_text (text dm))) as Hc by (rewrite Ht at 1; done).
  destruct (common_prefix_spec (first :: rest) (node_text (text dm))) as (E & Hl1 & Hl2 & Hmax).
  pose proof (l_text L) as Eq. pose proof (l_first L) as Ef. unfold first_char in Ef.
  rewrite Hc. split_and!; [done| |done| | | |lia].
  - destruct (node_text (text dm)) as [|c' w]; simplify_eq/=. rewrite N.eqb_refl. lia.
  - rewrite take_app_add, E, Eq. apply prefix_app, prefix_take.
  - intros Es. rewrite E, Es, take_ge by lia. done.
  - intros Hne s' H1 H2. destruct (decide (length s' <= length ps)) as [|Hgt]; [lia|].
    assert (s' = ps ++ drop (length ps) s') as Es'.
    { assert (ps `prefix_of` s') as [k ->] by (eapply prefix_of_shorter; [by apply prefix_app_r|exact H1|lia]).
      by rewrite drop_app_length. }
    rewrite Es' in H1, H2. rewrite Eq in H2. apply prefix_app_inv in H1, H2.
    pose proof (Hmax _ H1 H2) as Hb. rewrite length_drop in Hb. lia.
Qed.

(** What [F] accepts past [prev] lies below its child for the next character. *)
Lemma reaches_beyond prev ps pd first rest s' :
  P !! prev = Some ps -> h !! prev = Some pd -> s' `prefix_of` ps ++ first :: rest ->
  reaches P h F s' -> length ps < length s' ->
  exists m qm dm q, children pd !! first = Some m /\ P !! m = Some qm /\ h !! m = Some dm /\
    F dm = true /\ qm `prefix_of` q /\ s' `prefix_of` q.
Proof.
  intros Hp Hpd Hpre (n & q & d & Hn & Hd & HF & Hq) Hl.
  assert (ps ++ [first] `prefix_of` s') as Hps.
  { eapply prefix_of_shorter; [|exact Hpre|rewrite length_app; simpl; lia].
    apply prefix_app. apply (prefix_app_r [first] [first] rest); done. }
  destruct (descend prev ps pd n q d first Hp Hpd Hn Hd) as (m & qm & dm & H1 & H2 & H3 & H4 & H5);
    [by transitivity s'|].
  exists m, qm, dm, q. split_and!; [done..|by apply (F_up d)|done|done].
Qed.

(** How a walk over [s] may end: at a node whose path holds the matched
    characters, with nothing longer that [F] accepts. *)
Definition walked (s : str) (k n : nat) : Prop :=
  exists q d, P !! n = Some q /\ h !! n = Some d /\ (n = root_addr /\ k = 0 \/ F d = true) /\
    k <= length s /\ take k s `prefix_of` q /\
    forall s', s' `prefix_of` s -> reaches P h F s' -> length s' <= k.

Lemma walked_stop ps remaining prev pd :
  P !! prev = Some ps -> h !! prev = Some pd -> (prev = root_addr /\ ps = []) \/ F pd = true ->
  (forall s', s' `prefix_of` ps ++ remaining -> reaches P h F s' -> length s' <= length ps) ->
  walked (ps ++ remaining) (length ps) prev.
Proof.
  intros Hp Hpd HF Hmax. exists ps, pd. split_and!; [done..| | | |done].
  - destruct HF as [[-> ->]|]; auto.
  - rewrite length_app. lia.
  - by rewrite take_app_length.
Qed.

Lemma walked_partial prev ps pd first rest m qm dm :
  P !! prev = Some ps -> h !! prev = Some pd -> linked P h m qm dm prev ps pd first ->
  P !! m = Some qm -> h !! m = Some dm -> F dm = true ->
  let shared := shared_prefix_count (first :: rest) (node_text (text dm)) in
  shared <> char_count (text dm) -> walked (ps ++ first :: rest) (length ps + shared) m.
Proof.
  intros Hp Hpd L Hm Hdm HF shared Hne.
  destruct (walk_enter _ _ _ _ rest _ _ _ Hp L Hm Hdm) as (Hcc & Hsh & Hpre & _ & Hmax & Hle).
  fold shared in Hsh, Hpre, Hmax, Hle. exists qm, dm.
  split_and!; [done..|auto|rewrite length_app; lia|done|]. intros s' H1 H2.
  destruct (decide (length s' <= length ps)) as [|Hl]; [lia|].
  destruct (reaches_beyond _ _ _ _ _ _ Hp Hpd H1 H2 ltac:(lia)) as (m' & qm' & dm' & q & C & M & D & _ & Q & S).
  pose proof (l_child L). assert (m' = m) as -> by congruence. assert (qm' = qm) as -> by congruence.
  destruct (decide (length s' <= length qm)) as [Hs'|Hs'].
  - apply (Hmax Hne); [done|]. by apply prefix_of_shorter with q.
  - exfalso. apply Hne. rewrite Hcc. apply Nat.le_antisymm; [lia|].
    assert (qm `prefix_of` ps ++ first :: rest) as Hqm.
    { transitivity s'; [|done]. apply prefix_of_shorter with q; [done..|lia]. }
    rewrite (l_text L) in Hqm. apply prefix_app_inv in Hqm. subst shared. rewrite shared_prefix_count_eq.
    by apply (common_prefix_spec (first :: rest) (node_text (text dm))).
Qed.

Lemma tree_walk_spec fuel : forall remaining ps prev pd,
  P !! prev = Some ps -> h !! prev = Some pd -> length remaining <= fuel ->
  (prev = root_addr /\ ps = []) \/ F pd = true ->
  exists k n, walk F fuel h remaining (length ps) prev = Some (k, n) /\ walked (ps ++ remaining) k n.
Proof.
  induction fuel as [|fuel IH]; intros [|first rest] ps prev pd Hp Hpd Hfuel HF; [|simpl in *; lia|..].
  1-2: exists (length ps), prev; split; [done|]; apply (walked_stop ps [] prev pd); [done..|];
    intros s' H _; apply prefix_length in H; rewrite app_nil_r in H; done.
  cbn [walk]. rewrite Hpd. cbn [mbind option_bind].
  destruct (children pd !! first) as [m|] eqn:Hc.
  - destruct (shape_child_linked _ _ _ _ _ Hp Hpd Hc) as (qm & dm & Hm & Hdm & _ & L).
    rewrite Hdm. cbn [mbind option_bind]. destruct (F dm) eqn:Hf.
    + destruct (walk_enter _ _ _ _ rest _ _ _ Hp L Hm Hdm) as (Hcc & Hsh & _ & Hfull & _).
      destruct (Nat.eqb_spec (shared_prefix_count (first :: rest) (node_text (text dm))) (char_count (text dm)))
        as [He|Hne].
      * set (shared := shared_prefix_count _ _) in *. rewrite advance_by_chars_drop. cbn [mbind option_bind].
        replace (length ps + shared) with (length qm).
        2: { rewrite (Hfull He), length_app, length_take. simpl in *; lia. }
        destruct (IH (drop shared (first :: rest)) qm m dm) as (k & n & -> & W); [done..| |auto|].
        { rewrite length_drop. simpl in *. lia. }
        exists k, n. split; [done|]. rewrite (Hfull He), <- app_assoc, take_drop in W. done.
      * eexists _, _. split; [done|]. by apply (walked_partial prev ps pd first rest m qm dm).
    + exists (length ps), prev. split; [done|]. apply (walked_stop ps (first :: rest) prev pd); [done..|]. intros s' H1 H2.
      destruct (decide (length s' <= length ps)) as [|Hl]; [done|].
      destruct (reaches_beyond _ _ _ _ _ _ Hp Hpd H1 H2 ltac:(lia)) as (m' & qm' & dm' & q & ? & ? & ? & ? & _).
      congruence.
  - exists (length ps), prev. split; [done|]. apply (walked_stop ps (first :: rest) prev pd); [done..|]. intros s' H1 H2.
    destruct (decide (length s' <= length ps)) as [|Hl]; [done|].
    destruct (reaches_beyond _ _ _ _ _ _ Hp Hpd H1 H2 ltac:(lia)) as (m' & qm' & dm' & q & ? & _).
    congruence.
Qed.
End walk.
End shape.
