(* ===== verification/PrefixTreeUpdate.v ===== *)
(** * Changes of the prefix tree ([src/tree.rs])

    How insertion, matching, removal and eviction change a tree of [PrefixTree],
    against a specification without nodes: every tenant owns a finite set of
    texts ([Abs]).  Insertion adds the prefixes of the text, removal forgets the
    tenant, eviction shrinks the sets of the tenants over the budget, matching
    changes nothing, and the character count of a tenant is the number of texts
    it owns. *)

From S2P Require Import Prelude TreeText PrefixTree.

(** ** Characters used by a tenant *)

(** The characters that a node holds for a tenant. *)
Definition weight (h : gmap nat Node) (x : string) (n : nat) : nat :=
  match h !! n with
  | Some d => if has_tenant x d then length (node_text (text d)) else 0
  | None => 0
  end.

Definition used (P : gmap nat str) (h : gmap nat Node) (x : string) : nat :=
  map_fold (fun n _ acc => weight h x n + acc) 0 P.

Lemma used_insert P h x n q : P !! n = None -> used (<[n := q]> P) h x = weight h x n + used P h x.
Proof. intros Hn. unfold used. rewrite map_fold_insert_L; [done|intros; lia|done]. Qed.

Lemma used_delete P h x n q : P !! n = Some q -> used P h x = weight h x n + used (delete n P) h x.
Proof. intros Hn. unfold used. rewrite (map_fold_delete_L _ _ n q P); [done|intros; lia|done]. Qed.

Lemma used_ext P h h' x :
  (forall n q, P !! n = Some q -> weight h' x n = weight h x n) -> used P h' x = used P h x.
Proof.
  induction P as [|n q P Hn IH] using map_ind; intros E; [done|].
  rewrite !used_insert by done. rewrite (E n q) by (by rewrite lookup_insert_eq).
  rewrite IH; [done|]. intros m q' Hm. apply (E m q'). rewrite lookup_insert_ne by congruence. done.
Qed.

(** ** The invariant of the tree *)

Record tree_ok (P : gmap nat str) (t : Tree) : Prop := {
  ok_shape : shape P (heap t);
  ok_fresh : forall n, next_addr t <= n -> heap t !! n = None;
  ok_count : forall x k, tenant_char_count t !! x = Some k -> k = used P (heap t) x;
  ok_registered : forall n q d x, P !! n = Some q -> heap t !! n = Some d -> n <> root_addr -> holds d x ->
    is_Some (tenant_char_count t !! x);
}.

Arguments ok_shape {P t} _.
Arguments ok_fresh {P t} _.
Arguments ok_count {P t} _.
Arguments ok_registered {P t} _.

(** ** Rewriting some nodes *)

(** The links of a node to its parent and to its children. *)
Definition up_ok (P : gmap nat str) (h : gmap nat Node) (n : nat) (q : str) (d : Node) : Prop :=
  if decide (n = root_addr) then parent d = None /\ text d = empty_text
  else exists p ps pd c, linked P h n q d p ps pd c.

Definition down_ok (P : gmap nat str) (h : gmap nat Node) (n : nat) (d : Node) : Prop :=
  forall c m, children d !! c = Some m -> exists q dm, P !! m = Some q /\ h !! m = Some dm /\
    parent dm = Some n /\ first_char (text dm) = Some c.

Definition node_ok (P : gmap nat str) (h : gmap nat Node) (n : nat) (q : str) : Prop :=
  exists d, h !! n = Some d /\ text d = new_text (node_text (text d)) /\ up_ok P h n q d /\ down_ok P h n d.

Lemma shape_iff P h :
  shape P h <-> P !! root_addr = Some [] /\ forall n q, P !! n = Some q -> node_ok P h n q.
Proof.
  split.
  - intros Hs. destruct (sh_root Hs) as (r & Hr & Hpr & Htr & HPr). split; [done|]. intros n q Hn.
    destruct (sh_node Hs _ _ Hn) as (d & Hd & T). exists d. split_and!; [done..| |].
    + unfold up_ok. case_decide as E; [|by apply (sh_up Hs)].
      assert (d = r) as -> by congruence. done.
    + intros c m Hc. by apply (sh_down Hs _ _ _ _ _ Hn Hd Hc).
  - intros [HP Hn]. split.
    + destruct (Hn _ _ HP) as (r & Hr & T & U & _). unfold up_ok in U. rewrite decide_True in U by done.
      exists r. naive_solver.
    + intros n q Hq. destruct (Hn _ _ Hq) as (d & Hd & T & _). eauto.
    + intros n q d Hq Hd Hne. destruct (Hn _ _ Hq) as (d' & Hd' & _ & U & _).
      unfold up_ok in U. rewrite decide_False in U by done. by assert (d = d') as -> by congruence.
    + intros p ps pd c m Hp Hpd Hc. destruct (Hn _ _ Hp) as (d & Hd & _ & _ & D).
      assert (d = pd) as -> by congruence. by apply D.
Qed.

(** A tree in which the nodes [T] are rewritten: these are well linked, and what
    the others see of them stays. *)
Lemma shape_frame P h P' h' (T : list nat) :
  shape P h -> P' !! root_addr = Some [] ->
  (forall n, n ∉ T -> P' !! n = P !! n /\ h' !! n = h !! n) ->
  (forall n q, n ∈ T -> P' !! n = Some q -> node_ok P' h' n q) ->
  (forall n q d p ps pd c, n ∉ T -> p ∈ T -> P !! n = Some q -> h !! n = Some d ->
    linked P h n q d p ps pd c -> P' !! p = Some ps /\ exists pd', h' !! p = Some pd' /\
      children pd' !! c = Some n /\ forall x, holds d x -> holds pd' x) ->
  (forall p ps pd c m q d, p ∉ T -> m ∈ T -> P !! m = Some q -> h !! m = Some d ->
    linked P h m q d p ps pd c -> is_Some (P' !! m) /\ exists d', h' !! m = Some d' /\
      parent d' = Some p /\ first_char (text d') = Some c) ->
  shape P' h'.
Proof.
  intros Hs HP Hsame HT Hup Hdown. apply shape_iff. split; [done|]. intros n q Hn.
  destruct (decide (n ∈ T)) as [|HnT]; [by apply HT|]. destruct (Hsame n HnT) as [EP Eh].
  rewrite EP in Hn. destruct (proj2 (proj1 (shape_iff P h) Hs) n q Hn) as (d & Hd & Ht & U & D).
  exists d. split_and!; [by rewrite Eh|done| |].
  - unfold up_ok in *. case_decide as En; [done|]. destruct U as (p & ps & pd & c & L).
    destruct (decide (p ∈ T)) as [HpT|HpT].
    + destruct (Hup n q d p ps pd c) as (H1 & pd' & H2 & H3 & H4); [done..|].
      exists p, ps, pd', c. destruct L. split; auto.
    + destruct (Hsame p HpT) as [EP' Eh']. exists p, ps, pd, c. destruct L. split; congruence || auto.
  - intros c m Hc. destruct (shape_child_linked Hs _ _ _ _ _ Hn Hd Hc) as (qm & dm & Hm & Hdm & _ & L).
    destruct (decide (m ∈ T)) as [HmT|HmT].
    + destruct (Hdown n q d c m qm dm) as ([q' H1] & d' & H2 & H3 & H4); [done..|]. by exists q', d'.
    + destruct (Hsame m HmT) as [EP' Eh']. exists qm, dm. destruct L. split_and!; congruence.
Qed.

(** A node is not its own parent. *)
Lemma linked_ne P h n q d p ps pd c : P !! n = Some q -> linked P h n q d p ps pd c -> p <> n.
Proof.
  intros Hn L ->. pose proof (l_path L) as Hp. pose proof (l_text L) as E. pose proof (l_first L) as F.
  assert (ps = q) as <- by congruence. unfold first_char in F. apply (f_equal length) in E.
  rewrite length_app in E. destruct (node_text (text d)); simpl in *; [done|lia].
Qed.

(** Changing the tenants of a node. *)
Lemma shape_tenants P h n q d d' :
  shape P h -> P !! n = Some q -> h !! n = Some d ->
  children d' = children d -> text d' = text d -> parent d' = parent d ->
  (forall p pd x, parent d = Some p -> h !! p = Some pd -> holds d' x -> holds pd x) ->
  (forall c m dm x, children d !! c = Some m -> h !! m = Some dm -> holds dm x -> holds d' x) ->
  (n <> root_addr -> exists x, holds d' x) ->
  shape P (<[n := d']> h).
Proof.
  intros Hs Hn Hd Ec Et Ep Hup Hdown Hne.
  destruct (proj2 (proj1 (shape_iff P h) Hs) n q Hn) as (d0 & Hd0 & Ht & U & D).
  assert (d0 = d) as -> by congruence.
  apply (shape_frame P h P _ [n]); [done|by destruct (sh_root Hs) as (? & ? & ? & ? & ?)|..].
  - intros m Hm. rewrite lookup_insert_ne by set_solver. done.
  - intros m qm ->%list_elem_of_singleton Hm. assert (qm = q) as -> by congruence.
    exists d'. rewrite lookup_insert_eq, Et. split_and!; [done..| |].
    + unfold up_ok in *. rewrite Et, Ep. case_decide; [done|]. destruct U as (p & ps & pd & c & L).
      pose proof (linked_ne _ _ _ _ _ _ _ _ _ Hn L). exists p, ps, pd, c. destruct L.
      split; rewrite ?Et, ?Ep; eauto. by rewrite lookup_insert_ne.
    + intros c m. rewrite Ec. intros Hc.
      destruct (shape_child_linked Hs _ _ _ _ _ Hn Hd Hc) as (qm & dm & H1 & H2 & _ & L).
      pose proof (linked_ne _ _ _ _ _ _ _ _ _ H1 L).
      exists qm, dm. rewrite lookup_insert_ne by done. by destruct L.
  - intros m qm dm p ps pd c Hm ->%list_elem_of_singleton Hqm Hdm L. destruct L.
    assert (pd = d) as -> by congruence. split; [done|]. exists d'. rewrite lookup_insert_eq, Ec. split_and!; eauto.
  - intros p ps pd c m qm dm Hp ->%list_elem_of_singleton Hqm Hdm L. destruct L.
    assert (dm = d) as -> by congruence. split; [done|]. exists d'. by rewrite lookup_insert_eq, Et, Ep.
Qed.

(** ** Writing a node whose links stay *)

Lemma weight_write h x n d' m :
  weight (<[n := d']> h) x m =
  if decide (n = m) then (if has_tenant x d' then length (node_text (text d')) else 0) else weight h x m.
Proof. unfold weight. case_decide as E; [subst; by rewrite lookup_insert_eq|by rewrite lookup_insert_ne]. Qed.

Lemma weight_node h x n d :
  h !! n = Some d -> weight h x n = if has_tenant x d then length (node_text (text d)) else 0.
Proof. intros E. unfold weight. by rewrite E. Qed.

Lemma owns_write P h n q d' y s : P !! n = Some q ->
  owns P (<[n := d']> h) y s <->
  (holds d' y /\ s `prefix_of` q) \/
  exists m qm dm, m <> n /\ P !! m = Some qm /\ h !! m = Some dm /\ holds dm y /\ s `prefix_of` qm.
Proof.
  intros Hn. unfold owns, reaches. split.
  - intros (m & qm & dm & Hm & Hdm & Hy%has_tenant_spec & Hp). destruct (decide (n = m)) as [->|Hne].
    + rewrite lookup_insert_eq in Hdm. simplify_eq. auto.
    + rewrite lookup_insert_ne in Hdm by done. right. exists m, qm, dm. auto.
  - intros [[Hy Hp]|(m & qm & dm & Hne & Hm & Hdm & Hy & Hp)].
    + exists n, q, d'. rewrite lookup_insert_eq, has_tenant_spec. auto.
    + exists m, qm, dm. rewrite lookup_insert_ne, has_tenant_spec by done. auto.
Qed.

Lemma owns_read P h n q d y s : P !! n = Some q -> h !! n = Some d ->
  owns P h y s <->
  (holds d y /\ s `prefix_of` q) \/
  exists m qm dm, m <> n /\ P !! m = Some qm /\ h !! m = Some dm /\ holds dm y /\ s `prefix_of` qm.
Proof. intros Hn Hd. rewrite <- (insert_id h n d Hd) at 1. by apply owns_write. Qed.

Lemma holds_insert d x v y :
  holds (set_tenants (<[x := v]> (tenant_last_access_time d)) d) y <-> holds d y \/ y = x.
Proof.
  unfold holds; simpl. destruct (decide (x = y)) as [->|].
  - rewrite lookup_insert_eq. naive_solver.
  - rewrite lookup_insert_ne by done. naive_solver.
Qed.

Lemma holds_delete d x y :
  holds (set_tenants (delete x (tenant_last_access_time d)) d) y <-> holds d y /\ y <> x.
Proof.
  unfold holds; simpl. destruct (decide (x = y)) as [->|].
  - rewrite lookup_delete_eq. split; [by intros []|naive_solver].
  - rewrite lookup_delete_ne by done. naive_solver.
Qed.

Lemma has_tenant_ext d d' x : (holds d x <-> holds d' x) -> has_tenant x d = has_tenant x d'.
Proof. apply bool_decide_ext. Qed.

Lemma has_tenant_false x d : ~ holds d x -> has_tenant x d = false.
Proof. apply bool_decide_eq_false_2. Qed.

(** Writing one node changes what is used by its own weight only. *)
Lemma used_write P h n q d' x : P !! n = Some q ->
  used P (<[n := d']> h) x + weight h x n =
  used P h x + (if has_tenant x d' then length (node_text (text d')) else 0).
Proof.
  intros Hn. rewrite !(used_delete P _ x n q) by done. rewrite weight_write, decide_True by done.
  rewrite (used_ext (delete n P) h); [lia|]. intros m qm [Hne _]%lookup_delete_Some.
  by rewrite weight_write, decide_False.
Qed.

Section holds.
Context {P : gmap nat str} {h : gmap nat Node} (Hs : shape P h).

Lemma parent_holds n q d p pd y :
  P !! n = Some q -> h !! n = Some d -> parent d = Some p -> h !! p = Some pd -> holds d y -> holds pd y.
Proof.
  intros Hn Hd Hp Hpd Hy. destruct (decide (n = root_addr)) as [->|Hne].
  - destruct (sh_root Hs) as (r & Hr & Hpr & _). congruence.
  - destruct (sh_up Hs _ _ _ Hn Hd Hne) as (p' & ps & pd' & c & L).
    pose proof (l_parent L). pose proof (l_node L). assert (pd = pd') as -> by congruence.
    by apply (l_tenants L).
Qed.

Lemma child_holds n q d c m dm y :
  P !! n = Some q -> h !! n = Some d -> children d !! c = Some m -> h !! m = Some dm ->
  holds dm y -> holds d y.
Proof.
  intros Hn Hd Hc Hm Hy. destruct (shape_child_linked Hs _ _ _ _ _ Hn Hd Hc) as (qm & dm' & _ & Hdm & _ & L).
  assert (dm' = dm) as -> by congruence. by apply (l_tenants L).
Qed.

Lemma node_holds n q d : P !! n = Some q -> h !! n = Some d -> n <> root_addr -> exists y, holds d y.
Proof. intros Hn Hd Hne. destruct (sh_up Hs _ _ _ Hn Hd Hne) as (p & ps & pd & c & L). apply (l_used L). Qed.
End holds.

Lemma fresh_write P t n d d' m :
  tree_ok P t -> heap t !! n = Some d -> next_addr t <= m -> <[n := d']> (heap t) !! m = None.
Proof.
  intros Hok Hd Hm. rewrite lookup_insert_ne; [by apply (ok_fresh Hok)|].
  intros <-. rewrite (ok_fresh Hok) in Hd by done. done.
Qed.

Lemma add_count_lookup x n m y :
  add_count x n m !! y = if decide (x = y) then Some (default 0 (m !! x) + n) else m !! y.
Proof. unfold add_count. by rewrite lookup_insert. Qed.

Section node.
Context {P : gmap nat str} {t : Tree} (Hok : tree_ok P t).
Let Hs := ok_shape Hok.

(** A node that keeps its links and its tenants. *)
Lemma touch_ok n q d d' :
  P !! n = Some q -> heap t !! n = Some d ->
  children d' = children d -> text d' = text d -> parent d' = parent d ->
  (forall y, holds d' y <-> holds d y) ->
  tree_ok P (set_node n d' t) /\ forall y s, owns P (<[n := d']> (heap t)) y s <-> owns P (heap t) y s.
Proof.
  intros Hn Hd Ec Et Ep Hh. split; [split|].
  - apply (shape_tenants _ _ n q d d'); [done..| | |].
    + intros p pd y Hp Hpd Hy%Hh. by apply (parent_holds Hs n q d p).
    + intros c m dm y Hc Hm Hy. by apply Hh, (child_holds Hs n q d c m dm).
    + intros Hne. destruct (node_holds Hs n q d) as [y Hy]; [done..|]. exists y. by apply Hh.
  - intros m. by apply (fresh_write P t n d).
  - intros x k Hk. rewrite (ok_count Hok x k Hk). symmetry. apply used_ext. intros m qm Hm. simpl.
    rewrite weight_write. case_decide as E; [subst m|done].
    by rewrite (weight_node _ _ _ _ Hd), Et, (has_tenant_ext d' d).
  - intros m qm dm x Hm Hdm Hne Hx. simpl in Hdm. destruct (decide (n = m)) as [->|].
    + rewrite lookup_insert_eq in Hdm. injection Hdm as <-. by apply (ok_registered Hok m q d x), Hh.
    + rewrite lookup_insert_ne in Hdm by done. by apply (ok_registered Hok m qm dm x).
  - intros y s. rewrite (owns_write _ _ _ q), (owns_read P (heap t) n q d) by done. by rewrite Hh.
Qed.

(** A node that gains a tenant its parent has. *)
Lemma gain_ok n q d x v :
  P !! n = Some q -> heap t !! n = Some d -> ~ holds d x ->
  is_Some (tenant_char_count t !! x) ->
  (forall p pd, parent d = Some p -> heap t !! p = Some pd -> holds pd x) ->
  let d' := set_tenants (<[x := v]> (tenant_last_access_time d)) d in
  let c := add_count x (length (node_text (text d))) (tenant_char_count t) in
  tree_ok P (set_node n d' (set_counts c t)) /\
  forall y s, owns P (<[n := d']> (heap t)) y s <-> owns P (heap t) y s \/ (y = x /\ s `prefix_of` q).
Proof.
  intros Hn Hd Hx [k Hk] Hup d' c. pose proof (holds_insert d x v : forall y, holds d' y <-> _) as Hh.
  split; [split|].
  - apply (shape_tenants _ _ n q d d'); [done..| | |].
    + intros p pd y Hp Hpd [Hy| ->]%Hh; [by apply (parent_holds Hs n q d p)|by apply (Hup p)].
    + intros c' m dm y Hc Hm Hy. apply Hh. left. by apply (child_holds Hs n q d c' m dm).
    + intros _. exists x. apply Hh. auto.
  - intros m. by apply (fresh_write P t n d).
  - intros y k' Hk'. simpl in Hk' |- *. unfold c in Hk'. rewrite add_count_lookup in Hk'.
    pose proof (used_write P (heap t) n q d' y Hn) as U. rewrite (weight_node _ _ _ _ Hd) in U.
    case_decide as E; simpl in U.
    + subst y. rewrite (proj2 (has_tenant_spec x d')), (has_tenant_false x d) in U by (done || apply Hh; auto).
      rewrite Hk in Hk'. pose proof (ok_count Hok x k Hk). simplify_eq/=. lia.
    + rewrite (has_tenant_ext d' d) in U by (rewrite Hh; naive_solver).
      pose proof (ok_count Hok y k' Hk'). lia.
  - intros m qm dm y Hm Hdm Hne Hy. simpl in *. unfold c. rewrite add_count_lookup.
    case_decide as E; [done|]. destruct (decide (n = m)) as [->|].
    + rewrite lookup_insert_eq in Hdm. injection Hdm as <-. apply (ok_registered Hok m q d y); [done..|].
      apply Hh in Hy as [|]; congruence.
    + rewrite lookup_insert_ne in Hdm by done. by apply (ok_registered Hok m qm dm y).
  - intros y s. rewrite (owns_write _ _ _ q), (owns_read P (heap t) n q d) by done. rewrite Hh. naive_solver.
Qed.

(** [attach] makes the tenant hold the node. *)
Lemma attach_ok n q d x :
  P !! n = Some q -> heap t !! n = Some d -> is_Some (tenant_char_count t !! x) ->
  (forall p pd, parent d = Some p -> heap t !! p = Some pd -> holds pd x) ->
  let t' := attach x n d (length (node_text (text d))) t in
  tree_ok P t' /\ dom (tenant_char_count t') = dom (tenant_char_count t) /\
  (exists d', heap t' !! n = Some d' /\ holds d' x) /\
  forall y s, owns P (heap t') y s <-> owns P (heap t) y s \/ (y = x /\ s `prefix_of` q).
Proof.
  intros Hn Hd Hr Hup t'. unfold t', attach. destruct (has_tenant x d) eqn:Hx.
  - apply has_tenant_spec in Hx. split_and!; [done|done|eauto|]. intros y s. split; [auto|].
    intros [|[-> Hp]]; [done|]. exists n, q, d. rewrite has_tenant_spec. auto.
  - assert (~ holds d x) as Hnx by (rewrite <- has_tenant_spec; congruence).
    destruct (gain_ok n q d x 0%N Hn Hd Hnx Hr Hup) as [H1 H2]. split_and!; [done| |simpl|done].
    + simpl. unfold add_count. rewrite dom_insert_L. apply elem_of_dom in Hr. set_solver.
    + eexists. rewrite lookup_insert_eq. split; [done|]. apply holds_insert. auto.
Qed.
End node.

(** ** New nodes *)

Lemma linked_length P h n q d p ps pd c : linked P h n q d p ps pd c -> length ps < length q.
Proof.
  intros L. pose proof (l_first L) as F. unfold first_char in F. rewrite (l_text L), length_app.
  destruct (node_text (text d)); simpl in *; [done|lia].
Qed.

Lemma path_fresh P h n m q : shape P h -> h !! n = None -> P !! m = Some q -> n <> m.
Proof. intros Hs Hn Hm ->. destruct (sh_node Hs _ _ Hm) as (d & Hd & _). congruence. Qed.

(** A node keeps its place when it changes its children only. *)
Lemma up_ok_children P h P' h' n q d c' :
  P !! n = Some q -> up_ok P h n q d ->
  (forall p ps pd c, linked P h n q d p ps pd c -> P' !! p = Some ps /\ h' !! p = Some pd) ->
  up_ok P' h' n q (set_children c' d).
Proof.
  intros Hn U Hsame. unfold up_ok in *. case_decide; [done|]. destruct U as (p & ps & pd & c & L).
  destruct (Hsame p ps pd c L) as [H1 H2].
  exists p, ps, pd, c. by destruct L.
Qed.

Section splice.
Context {P : gmap nat str} {h : gmap nat Node} (Hs : shape P h).
Context {n prev : nat} {ps : str} {pd : Node}.
Context (Hn : h !! n = None) (Hp : P !! prev = Some ps) (Hpd : h !! prev = Some pd).
Context (c : N).
Let pd' := set_children (<[c := n]> (children pd)) pd.

(** [prev] is well linked when its child for [c] becomes the new node; the old
    child for [c] may have been rewritten. *)
Lemma splice_prev P' h' qn nd :
  P' !! prev = Some ps -> h' !! prev = Some pd' -> P' !! n = Some qn -> h' !! n = Some nd ->
  parent nd = Some prev -> first_char (text nd) = Some c ->
  (forall k, k <> prev -> k <> n -> children pd !! c <> Some k -> P' !! k = P !! k /\ h' !! k = h !! k) ->
  node_ok P' h' prev ps.
Proof.
  intros Hp' Hpd' HPn Hhn Hpar Hf Hsame.
  destruct (proj2 (proj1 (shape_iff P h) Hs) prev ps Hp) as (d & Hd & T & U & D).
  assert (d = pd) as -> by congruence. exists pd'. split_and!; [done..| |].
  - apply (up_ok_children P h _ _ prev ps pd _ Hp U). intros p qs qd c' L.
    pose proof (path_fresh P h n p qs Hs Hn (l_path L)). pose proof (linked_ne _ _ _ _ _ _ _ _ _ Hp L).
    destruct (Hsame p) as [-> ->]; [done..| |by destruct L].
    intros Hc. destruct (shape_child_linked Hs _ _ _ _ _ Hp Hpd Hc) as (qm & dm & H1 & H2 & _ & L').
    pose proof (linked_length _ _ _ _ _ _ _ _ _ L). pose proof (linked_length _ _ _ _ _ _ _ _ _ L').
    pose proof (l_path L). assert (qm = qs) as -> by congruence. lia.
  - intros c' m. unfold pd'. simpl. intros [[<- <-]|[Hne Hm']]%lookup_insert_Some; [eauto 6|].
    destruct (shape_child_linked Hs _ _ _ _ _ Hp Hpd Hm') as (qm & dm & H1 & H2 & _ & L).
    pose proof (path_fresh P h n m qm Hs Hn H1). pose proof (linked_ne _ _ _ _ _ _ _ _ _ H1 L).
    destruct (Hsame m) as [E1 E2]; [done..| |].
    + intros Hc. destruct (shape_child_linked Hs _ _ _ _ _ Hp Hpd Hc) as (qm' & dm' & H1' & H2' & _ & L').
      pose proof (l_first L). pose proof (l_first L'). congruence.
    + exists qm, dm. rewrite E1, E2. by destruct L.
Qed.

(** What a rewritten [prev] still offers to its other children and its parent. *)
Lemma splice_child m q d p qs qd c' :
  linked P h m q d p qs qd c' -> P !! m = Some q -> children pd !! c <> Some m -> p = prev ->
  qs = ps /\ children pd' !! c' = Some m /\ forall x, holds d x -> holds pd' x.
Proof.
  intros L Hm Hne ->. destruct L. assert (qd = pd) as -> by congruence.
  split_and!; [congruence| |done]. unfold pd'. simpl. rewrite lookup_insert_ne; congruence.
Qed.

Lemma new_leaf_shape rest leaf :
  children pd !! c = None ->
  text leaf = new_text (c :: rest) -> parent leaf = Some prev -> children leaf = ∅ ->
  (exists y, holds leaf y) -> (forall y, holds leaf y -> holds pd y) ->
  shape (<[n := ps ++ c :: rest]> P) (<[prev := pd']> (<[n := leaf]> h)).
Proof.
  intros Hc Ht Hpar Hch Hused Hhold. pose proof (path_fresh P h n prev ps Hs Hn Hp) as Hnp.
  destruct (sh_root Hs) as (r & Hr & _ & _ & HPr). pose proof (path_fresh P h n _ _ Hs Hn HPr) as Hnr.
  apply (shape_frame P h _ _ [prev; n]); [done|by rewrite lookup_insert_ne|..].
  - intros m Hm. rewrite !lookup_insert_ne by set_solver. done.
  - intros m q Hm Hq. assert (m = prev \/ m = n) as [-> | ->] by set_solver.
    + rewrite lookup_insert_ne in Hq by done. assert (q = ps) as -> by congruence.
      apply splice_prev with (ps ++ c :: rest) leaf; rewrite ?Ht; simplify_map_eq; try done.
      intros k H1 H2 _. by rewrite !lookup_insert_ne.
    + rewrite lookup_insert_eq in Hq. injection Hq as <-. exists leaf.
      rewrite lookup_insert_ne, lookup_insert_eq by done. split_and!; [done|by rewrite Ht| |].
      * unfold up_ok. rewrite decide_False by done. exists prev, ps, pd', c.
        split; rewrite ?Ht; simplify_map_eq; try done.
      * intros c' m. by rewrite Hch.
  - intros m q d p qs qd c' HmT HpT Hm Hd L.
    assert (p = prev) as ->.
    { pose proof (path_fresh P h n p qs Hs Hn (l_path L)). set_solver. }
    destruct (splice_child m q d prev qs qd c' L Hm ltac:(congruence) eq_refl) as (-> & H1 & H2).
    rewrite lookup_insert_ne by done. split; [done|]. exists pd'. by rewrite lookup_insert_eq.
  - intros p qs qd c' m q d HpT HmT Hm Hd L.
    assert (m = prev) as ->.
    { pose proof (path_fresh P h n m q Hs Hn Hm). set_solver. }
    rewrite lookup_insert_ne by done. split; [done|]. exists pd'. rewrite lookup_insert_eq.
    assert (d = pd) as -> by congruence. by destruct L.
Qed.

(** The node [m] below [prev] is split: [n] takes its first characters. *)
Section split.
Context {m : nat} {qm : str} {d : Node} (Hc : children pd !! c = Some m).
Context (Hm : P !! m = Some qm) (Hd : h !! m = Some d).
Context {w w2 : str} {c2 : N} (Ew : node_text (text d) = w ++ c2 :: w2) (Ehd : head w = Some c).
Context {nd d' : Node} (Tn : text nd = new_text w) (Pn : parent nd = Some prev).
Context (Cn : children nd = {[ c2 := m ]}) (Td : text d' = new_text (c2 :: w2)).
Context (Pd : parent d' = Some n) (Cd : children d' = children d).
Context (Xn : forall x, holds nd x <-> holds d x) (Xd : forall x, holds d' x <-> holds d x).
Let P' := <[n := ps ++ w]> P.
Let h' := <[m := d']> (<[prev := pd']> (<[n := nd]> h)).

Lemma split_linked : linked P h m qm d prev ps pd c.
Proof.
  destruct (shape_child_linked Hs _ _ _ _ _ Hp Hpd Hc) as (q0 & d0 & H1 & H2 & Hmr & L).
  assert (q0 = qm) as -> by congruence. by assert (d0 = d) as -> by congruence.
Qed.

Lemma split_distinct : n <> prev /\ n <> m /\ prev <> m /\ n <> root_addr /\ m <> root_addr.
Proof.
  destruct (sh_root Hs) as (r & Hr & Hpr & _ & HPr). split_and!.
  - by apply (path_fresh P h n prev ps).
  - by apply (path_fresh P h n m qm).
  - apply (linked_ne _ _ _ _ _ _ _ _ _ Hm split_linked).
  - by apply (path_fresh P h n _ []).
  - pose proof (l_parent split_linked). intros ->. congruence.
Qed.

Lemma split_upper : node_ok P' h' n (ps ++ w).
Proof.
  destruct split_distinct as (Hnp & Hnm & Hpm & Hnr & Hmr). pose proof split_linked as L.
  exists nd. unfold P', h'. split_and!; [by simplify_map_eq|by rewrite Tn| |].
  - unfold up_ok. rewrite decide_False by done. exists prev, ps, pd', c.
    split; rewrite ?Tn; simplify_map_eq; try done.
    + intros x Hx%Xn. by apply (l_tenants L).
    + destruct (l_used L) as [x Hx]. exists x. by apply Xn.
  - intros c' k. rewrite Cn. intros [<- <-]%lookup_singleton_Some. exists qm, d'.
    rewrite Td. by simplify_map_eq.
Qed.

Lemma split_lower : node_ok P' h' m qm.
Proof.
  destruct split_distinct as (Hnp & Hnm & Hpm & Hnr & Hmr). pose proof split_linked as L.
  exists d'. unfold P', h'. split_and!; [by simplify_map_eq|by rewrite Td| |].
  - unfold up_ok. rewrite decide_False by done. exists n, (ps ++ w), nd, c2.
    split; rewrite ?Td; simplify_map_eq; try done.
    + rewrite (l_text L), Ew. by rewrite <- app_assoc.
    + by rewrite Cn, lookup_singleton_eq.
    + intros x Hx%Xd. by apply Xn.
    + destruct (l_used L) as [x Hx]. exists x. by apply Xd.
  - intros c' k. rewrite Cd. intros Hk'.
    destruct (shape_child_linked Hs _ _ _ _ _ Hm Hd Hk') as (qk & dk & H3 & H4 & _ & L').
    pose proof (linked_ne _ _ _ _ _ _ _ _ _ H3 L'). pose proof (path_fresh P h n k qk Hs Hn H3).
    assert (prev <> k).
    { intros ->. pose proof (linked_length _ _ _ _ _ _ _ _ _ L).
      pose proof (linked_length _ _ _ _ _ _ _ _ _ L'). assert (qk = ps) as -> by congruence. lia. }
    exists qk, dk. rewrite !lookup_insert_ne by done. by destruct L'.
Qed.

Lemma split_shape : shape P' h'.
Proof.
  destruct split_distinct as (Hnp & Hnm & Hpm & Hnr & Hmr). pose proof split_linked as L.
  destruct (sh_root Hs) as (r & Hr & _ & _ & HPr).
  apply (shape_frame P h _ _ [prev; n; m]); [done|by unfold P'; rewrite lookup_insert_ne|..].
  - intros k Hk. unfold P', h'. rewrite !lookup_insert_ne by set_solver. done.
  - intros k q Hk Hq. unfold P' in Hq. assert (k = prev \/ k = n \/ k = m) as [-> | [-> | ->]] by set_solver.
    + rewrite lookup_insert_ne in Hq by done. assert (q = ps) as -> by congruence.
      apply splice_prev with (ps ++ w) nd; unfold P', h'; rewrite ?Tn; simplify_map_eq; try done.
      intros k H3 H4 H5. by rewrite !lookup_insert_ne by congruence.
    + rewrite lookup_insert_eq in Hq. injection Hq as <-. apply split_upper.
    + rewrite lookup_insert_ne in Hq by done. assert (q = qm) as -> by congruence. apply split_lower.
  - intros k q dk p qs qd c' HkT HpT Hk Hdk L'. pose proof (path_fresh P h n p qs Hs Hn (l_path L')).
    unfold P', h'. assert (p = prev \/ p = m) as [-> | ->] by set_solver.
    + destruct (splice_child k q dk prev qs qd c' L' Hk) as (-> & H3 & H4); [set_solver|done|].
      rewrite lookup_insert_ne by done. split; [done|]. exists pd'. by simplify_map_eq.
    + pose proof (l_tenants L') as HT. destruct L'. assert (qd = d) as -> by congruence.
      rewrite lookup_insert_ne by done. split; [done|]. exists d'. simplify_map_eq. rewrite Cd.
      split_and!; [done..|]. intros x Hx. by apply Xd, HT.
  - intros p qs qd c' k q dk HpT HkT Hk Hdk L'. pose proof (path_fresh P h n k q Hs Hn Hk).
    assert (k <> m) as Hkm.
    { intros ->. apply HpT. pose proof (l_parent L). pose proof (l_parent L').
      assert (p = prev) as -> by congruence. set_solver. }
    assert (k = prev) as -> by set_solver. unfold P', h'.
    rewrite lookup_insert_ne by done. split; [done|]. exists pd'. simplify_map_eq. by destruct L'.
Qed.
End split.
End splice.

Lemma owns_fresh P h n q nd y s : P !! n = None ->
  owns (<[n := q]> P) (<[n := nd]> h) y s <-> owns P h y s \/ (holds nd y /\ s `prefix_of` q).
Proof.
  intros HP. rewrite (owns_write _ _ _ q) by (by rewrite lookup_insert_eq). unfold owns, reaches. split.
  - intros [|(m & qm & dm & Hne & Hm & Hd & Hy & Hp)]; [auto|]. left. exists m, qm, dm.
    rewrite has_tenant_spec. rewrite lookup_insert_ne in Hm by done. auto.
  - intros [(m & qm & dm & Hm & Hd & Hy & Hp)|]; [|auto]. right. exists m, qm, dm.
    rewrite has_tenant_spec in Hy. assert (m <> n) by congruence. rewrite lookup_insert_ne by done. auto.
Qed.

Lemma owns_same P h m q d d' y s : P !! m = Some q -> h !! m = Some d -> (holds d' y <-> holds d y) ->
  owns P (<[m := d']> h) y s <-> owns P h y s.
Proof. intros Hm Hd E. rewrite (owns_write _ _ _ q), (owns_read P h m q d), E by done. done. Qed.

Lemma used_fresh P h n q nd x : P !! n = None ->
  used (<[n := q]> P) (<[n := nd]> h) x =
  used P h x + (if has_tenant x nd then length (node_text (text nd)) else 0).
Proof.
  intros HP. rewrite used_insert, weight_write, decide_True by done. rewrite (used_ext P h); [lia|].
  intros m qm Hm. rewrite weight_write, decide_False; [done|congruence].
Qed.

Lemma used_same P h m q d d' x : P !! m = Some q -> h !! m = Some d -> text d' = text d ->
  (holds d' x <-> holds d x) -> used P (<[m := d']> h) x = used P h x.
Proof.
  intros Hm Hd Et Eh. pose proof (used_write P h m q d' x Hm) as U.
  rewrite (weight_node _ _ _ _ Hd), Et, (has_tenant_ext d' d) in U by done. lia.
Qed.

Lemma below_next P t m d : tree_ok P t -> heap t !! m = Some d -> m < next_addr t.
Proof.
  intros Hok Hm. destruct (decide (next_addr t <= m)) as [Hle|]; [|lia].
  rewrite (ok_fresh Hok m Hle) in Hm. done.
Qed.

(** ** Insertion *)

Section insert.
Context {P : gmap nat str} {t : Tree} (Hok : tree_ok P t).
Context {prev : nat} {ps : str} {pd : Node} (Hp : P !! prev = Some ps) (Hpd : heap t !! prev = Some pd).
Context (x : string) (Hx : holds pd x) (Hr : is_Some (tenant_char_count t !! x)).
Let n := next_addr t.

Lemma next_fresh : heap t !! n = None /\ P !! n = None /\ n <> prev /\ n <> root_addr.
Proof.
  assert (heap t !! n = None) as Hn by (by apply (ok_fresh Hok)).
  destruct (sh_root (ok_shape Hok)) as (r & Hr' & _). split_and!; [done| |congruence|congruence].
  destruct (P !! n) as [q|] eqn:E; [|done]. by destruct (path_fresh _ _ _ _ _ (ok_shape Hok) Hn E).
Qed.

Lemma new_leaf_ok c rest epoch : children pd !! c = None ->
  let t' := new_leaf x epoch c (c :: rest) prev pd t in
  tree_ok (<[n := ps ++ c :: rest]> P) t' /\ dom (tenant_char_count t') = dom (tenant_char_count t) /\
  forall y s, owns (<[n := ps ++ c :: rest]> P) (heap t') y s <->
    owns P (heap t) y s \/ (y = x /\ s `prefix_of` ps ++ c :: rest).
Proof.
  intros Hc. destruct next_fresh as (Hn & HPn & Hnp & Hnr).
  set (leaf := MkNode ∅ (new_text (c :: rest)) {[ x := epoch ]} (Some prev) (Some x)).
  set (pd' := set_children (<[c := n]> (children pd)) pd).
  assert (forall y, holds leaf y <-> y = x) as Hleaf.
  { intros y. unfold holds, leaf. simpl. destruct (decide (x = y)) as [->|].
    - rewrite lookup_singleton_eq. naive_solver.
    - rewrite lookup_singleton_ne by done. split; [by intros []|congruence]. }
  simpl. fold n leaf pd'. split_and!; [split; simpl; fold n leaf pd'| |].
  - apply new_leaf_shape; try done; [apply (ok_shape Hok)|exists x; by apply Hleaf|].
    intros y ->%Hleaf. done.
  - intros m Hm. pose proof (below_next _ _ _ _ Hok Hpd). unfold n in *.
    rewrite !lookup_insert_ne by lia. apply (ok_fresh Hok). lia.
  - intros y k. rewrite add_count_lookup. intros Hk.
    rewrite (used_same _ _ prev ps pd) by (simplify_map_eq; done).
    rewrite used_fresh by done. simpl. case_decide as E.
    + subst y. destruct Hr as [k0 Hk0]. rewrite Hk0 in Hk. pose proof (ok_count Hok x k0 Hk0).
      rewrite (proj2 (has_tenant_spec x leaf)) by (by apply Hleaf). simplify_eq/=. lia.
    + rewrite has_tenant_false by (rewrite Hleaf; congruence). pose proof (ok_count Hok y k Hk). lia.
  - intros m q d y Hm Hd Hne Hy. rewrite add_count_lookup. case_decide as E; [done|].
    destruct (decide (m = n)) as [->|Hmn].
    { simplify_map_eq. apply Hleaf in Hy. congruence. }
    rewrite lookup_insert_ne in Hm by done. destruct (decide (m = prev)) as [->|Hmp].
    { rewrite lookup_insert_eq in Hd. injection Hd as <-. by apply (ok_registered Hok prev ps pd y). }
    rewrite !lookup_insert_ne in Hd by done. by apply (ok_registered Hok m q d y).
  - unfold add_count. rewrite dom_insert_L. apply elem_of_dom in Hr. set_solver.
  - intros y s. rewrite (owns_same _ _ prev ps pd) by (simplify_map_eq; done).
    rewrite owns_fresh by done. by rewrite Hleaf.
Qed.

(** A split changes neither who owns what nor what is used. *)
Lemma split_node_ok c m qm d shared :
  children pd !! c = Some m -> P !! m = Some qm -> heap t !! m = Some d ->
  1 <= shared < length (node_text (text d)) ->
  let w := take shared (node_text (text d)) in
  exists nd t', split_node c shared prev pd m d t = Some (n, nd, t') /\
    tree_ok (<[n := ps ++ w]> P) t' /\ heap t' !! n = Some nd /\
    parent nd = Some prev /\ text nd = new_text w /\
    (exists pd', heap t' !! prev = Some pd' /\ holds pd' x) /\
    tenant_char_count t' = tenant_char_count t /\
    forall y s, owns (<[n := ps ++ w]> P) (heap t') y s <-> owns P (heap t) y s.
Proof.
  intros Hc Hm Hd Hsh w. destruct next_fresh as (Hn & HPn & Hnp & Hnr). pose proof (ok_shape Hok) as Hs.
  destruct (sh_node Hs _ _ Hm) as (d0 & Hd0 & T). assert (d0 = d) as -> by congruence.
  unfold split_node. rewrite T, split_new_text. cbn [mbind option_bind]. fold w.
  assert (exists c2 w2, drop shared (node_text (text d)) = c2 :: w2) as (c2 & w2 & Edrop).
  { destruct (drop shared (node_text (text d))) eqn:E; [|eauto].
    apply (f_equal length) in E. rewrite length_drop in E. simpl in E. lia. }
  rewrite Edrop. cbn [first_char new_text node_text head mbind option_bind]. fold n.
  set (nd := MkNode {[ c2 := m ]} (new_text w) (tenant_last_access_time d) (Some prev) (last_tenant d)).
  set (d' := MkNode (children d) (new_text (c2 :: w2)) (tenant_last_access_time d) (Some n) (last_tenant d)).
  set (pd' := set_children (<[c := n]> (children pd)) pd).
  assert (node_text (text d) = w ++ c2 :: w2) as Ew by (unfold w; rewrite <- Edrop; by rewrite take_drop).
  destruct (shape_child_linked Hs _ _ _ _ _ Hp Hpd Hc) as (q0 & d0 & H1 & H2 & Hmr & L).
  assert (q0 = qm) as -> by congruence. assert (d0 = d) as -> by congruence. clear Hd0 H1 H2.
  pose proof (linked_ne _ _ _ _ _ _ _ _ _ Hm L) as Hpm. assert (n <> m) as Hnm by congruence.
  eexists nd, _. split; [done|]. simpl. split_and!; [split; simpl| |done|done| |done|].
  - apply (split_shape Hs Hn Hp Hpd c Hc Hm Hd Ew); try done.
    unfold w. pose proof (l_first L) as F. unfold first_char in F.
    destruct (node_text (text d)), shared; try done; simpl in *; lia.
  - intros k Hk. pose proof (below_next _ _ _ _ Hok Hpd). pose proof (below_next _ _ _ _ Hok Hd).
    unfold n in *. rewrite !lookup_insert_ne by lia. apply (ok_fresh Hok). lia.
  - intros y k Hk. rewrite (ok_count Hok y k Hk).
    pose proof (used_write (<[n := ps ++ w]> P) (<[prev := pd']> (<[n := nd]> (heap t))) m qm d' y) as U.
    rewrite (weight_node _ _ _ d), (used_same _ _ prev ps pd), used_fresh in U by (simplify_map_eq; done).
    specialize (U ltac:(by rewrite lookup_insert_ne)). cbn [nd d' text new_text node_text] in U.
    rewrite (has_tenant_ext nd d), (has_tenant_ext d' d), Ew, length_app in U by done.
    destruct (has_tenant y d); lia.
  - intros k q dk y Hk Hdk Hne Hy. destruct (decide (k = n)) as [->|Hkn].
    { simplify_map_eq. by apply (ok_registered Hok m qm d y). }
    rewrite lookup_insert_ne in Hk by done. destruct (decide (k = m)) as [->|Hkm].
    { simplify_map_eq. by apply (ok_registered Hok m qm d y). }
    destruct (decide (k = prev)) as [->|Hkp].
    { simplify_map_eq. by apply (ok_registered Hok prev ps pd y). }
    rewrite !lookup_insert_ne in Hdk by done. by apply (ok_registered Hok k q dk y).
  - by simplify_map_eq.
  - exists pd'. by simplify_map_eq.
  - intros y s. rewrite (owns_same _ _ m qm d) by (simplify_map_eq; done).
    rewrite (owns_same _ _ prev ps pd) by (simplify_map_eq; done).
    rewrite owns_fresh by done. split; [|auto]. intros [|[Hy Hpre]]; [done|].
    exists m, qm, d. rewrite has_tenant_spec. split_and!; [done..|].
    transitivity (ps ++ w); [done|]. rewrite (l_text L), Ew. apply prefix_app. by apply prefix_app_r.
Qed.
End insert.

Lemma insert_loop_ok x epoch fuel : forall P t remaining prev ps pd,
  tree_ok P t -> P !! prev = Some ps -> heap t !! prev = Some pd -> holds pd x ->
  is_Some (tenant_char_count t !! x) -> length remaining <= fuel ->
  exists P' t', insert_loop fuel x epoch remaining prev t = Some t' /\ tree_ok P' t' /\
    dom (tenant_char_count t') = dom (tenant_char_count t) /\
    forall y s, owns P' (heap t') y s <->
      owns P (heap t) y s \/ (y = x /\ s `prefix_of` ps ++ remaining).
Proof.
  induction fuel as [|fuel IH]; intros P t [|first rest] prev ps pd Hok Hp Hpd Hx Hr Hf; [|simpl in Hf; lia|..].
  1-2: simpl; rewrite Hpd; simpl;
    destruct (touch_ok Hok prev ps pd (set_tenants (<[x := epoch]> (tenant_last_access_time pd)) pd)) as [H1 H2];
      [done..|intros y; rewrite holds_insert; naive_solver|];
    exists P; eexists; split_and!; [done..|]; intros y s; simpl; rewrite H2, app_nil_r; split; [auto|];
    intros [|[-> Hpre]]; [done|]; exists prev, ps, pd; by rewrite has_tenant_spec.
  cbn [insert_loop]. rewrite Hpd. cbn [mbind option_bind].
  destruct (children pd !! first) as [m|] eqn:Hc.
  2: { destruct (new_leaf_ok Hok Hp Hpd x Hx Hr first rest epoch Hc) as (H1 & H2 & H3).
       eexists _, _. split_and!; [done|exact H1|exact H2|exact H3]. }
  pose proof (ok_shape Hok) as Hs.
  destruct (shape_child_linked Hs _ _ _ _ _ Hp Hpd Hc) as (qm & d & Hm & Hd & _ & L).
  rewrite Hd. cbn [mbind option_bind].
  destruct (walk_enter Hs _ _ _ _ rest _ _ _ Hp L Hm Hd) as (Hcc & Hsh & _ & Hfull & _ & Hle).
  set (shared := shared_prefix_count (first :: rest) (node_text (text d))) in *.
  assert (length (drop shared (first :: rest)) <= fuel) as Hfuel by (rewrite length_drop; simpl in *; lia).
  assert (take shared (node_text (text d)) = take shared (first :: rest)) as Ew.
  { unfold shared. rewrite shared_prefix_count_eq. symmetry. apply common_prefix_spec. }
  destruct (Nat.ltb_spec shared (char_count (text d))) as [Hlt|Hge].
  - destruct (split_node_ok Hok Hp Hpd x Hx first m qm d shared) as
      (nd & t1 & -> & Hok1 & Hnd & Hpar & Tnd & (pd1 & Hpd1 & Hx1) & Hcnt & Hown); [done..|lia|].
    cbn [mbind option_bind].
    destruct (attach_ok Hok1 (next_addr t) (ps ++ take shared (node_text (text d))) nd x) as (Hok2 & Hdom2 & (nd2 & Hnd2 & Hx2) & Hown2);
      [by rewrite lookup_insert_eq|done|by rewrite Hcnt|..].
    { intros p qd Ep Eq. congruence. }
    rewrite Tnd, Ew in Hok2, Hdom2, Hnd2, Hown2. cbn [new_text node_text] in Hok2, Hdom2, Hnd2, Hown2.
    rewrite length_take, Nat.min_l in Hok2, Hdom2, Hnd2, Hown2 by lia. rewrite Ew in Hok1, Hown.
    rewrite advance_by_chars_drop. cbn [mbind option_bind].
    destruct (IH _ _ (drop shared (first :: rest)) (next_addr t) (ps ++ take shared (first :: rest)) nd2 Hok2) as (P' & t' & -> & H1 & H2 & H3);
      [by rewrite lookup_insert_eq|done|done| |done|].
    { apply elem_of_dom. rewrite Hdom2, Hcnt. by apply elem_of_dom. }
    exists P', t'. split_and!; [done..|by rewrite H2, Hdom2, Hcnt|]. intros y s.
    rewrite H3, Hown2, Hown, <- app_assoc, take_drop. split; [|naive_solver].
    intros [[|[-> Hpre]]|]; [auto| |auto]. right. split; [done|]. transitivity (ps ++ take shared (first :: rest)); [done|].
    apply prefix_app, prefix_take.
  - assert (shared = char_count (text d)) as He by lia.
    destruct (attach_ok Hok m qm d x Hm Hd Hr) as (Hok2 & Hdom2 & (d2 & Hd2 & Hx2) & Hown2).
    { intros p qd Ep Eq. pose proof (l_parent L). congruence. }
    rewrite <- Hcc in Hok2, Hdom2, Hd2, Hown2. rewrite advance_by_chars_drop. cbn [mbind option_bind].
    destruct (IH _ _ (drop shared (first :: rest)) m qm d2 Hok2) as (P' & t' & -> & H1 & H2 & H3);
      [done..| |done|].
    { apply elem_of_dom. rewrite Hdom2. by apply elem_of_dom. }
    exists P', t'. split_and!; [done..|by rewrite H2, Hdom2|]. intros y s.
    rewrite H3, Hown2, (Hfull He), <- app_assoc, take_drop. split; [|naive_solver].
    intros [[|[-> Hpre]]|]; [auto| |auto]. right. split; [done|]. transitivity (ps ++ take shared (first :: rest)); [done|].
    apply prefix_app, prefix_take.
Qed.

Lemma used_zero P h x : (forall n q, P !! n = Some q -> weight h x n = 0) -> used P h x = 0.
Proof.
  induction P as [|n q P Hn IH] using map_ind; intros E; [done|].
  rewrite used_insert by done. rewrite (E n q) by (by rewrite lookup_insert_eq).
  rewrite IH; [done|]. intros m q' Hm. apply (E m q'). rewrite lookup_insert_ne by congruence. done.
Qed.

(** Registering a tenant with no characters. *)
Lemma register_ok P t x : tree_ok P t -> tree_ok P (set_counts (or_insert x 0 (tenant_char_count t)) t).
Proof.
  intros Hok. unfold or_insert. destruct (tenant_char_count t !! x) as [k0|] eqn:Hx.
  { by destruct t. }
  split; simpl.
  - apply (ok_shape Hok).
  - apply (ok_fresh Hok).
  - intros y k [[<- <-]|[_ Hk]]%lookup_insert_Some; [|by apply (ok_count Hok)].
    symmetry. apply used_zero. intros n q Hn. destruct (sh_node (ok_shape Hok) _ _ Hn) as (d & Hd & _).
    rewrite (weight_node _ _ _ _ Hd). case_match eqn:Hy; [|done]. apply has_tenant_spec in Hy.
    destruct (decide (n = root_addr)) as [->|Hne].
    + destruct (sh_root (ok_shape Hok)) as (r & Hr & _ & Hrt & _). assert (d = r) as -> by congruence.
      by rewrite Hrt.
    + destruct (ok_registered Hok n q d x Hn Hd Hne Hy). congruence.
  - intros n q d y Hn Hd Hne Hy. rewrite lookup_insert. case_decide; [done|].
    by apply (ok_registered Hok n q d y).
Qed.

Lemma add_count_0 x m : is_Some (m !! x) -> add_count x 0 m = m.
Proof. intros [k Hk]. unfold add_count. rewrite Hk. simpl. rewrite Nat.add_0_r. by apply insert_id. Qed.

Lemma holds_or_insert d x v y :
  holds (set_tenants (or_insert x v (tenant_last_access_time d)) d) y <-> holds d y \/ y = x.
Proof.
  unfold or_insert. destruct (tenant_last_access_time d !! x) eqn:E; [|apply holds_insert].
  unfold holds. simpl. naive_solver.
Qed.

(** The first steps of [insert]: the tenant is registered and holds the root. *)
Lemma enter_root_ok P t x r : tree_ok P t -> heap t !! root_addr = Some r ->
  let r' := set_tenants (or_insert x 0%N (tenant_last_access_time r)) r in
  let t' := set_node root_addr r' (set_counts (or_insert x 0 (tenant_char_count t)) t) in
  tree_ok P t' /\ is_Some (tenant_char_count t' !! x) /\
  dom (tenant_char_count t') = {[ x ]} ∪ dom (tenant_char_count t) /\
  forall y u, owns P (heap t') y u <-> owns P (heap t) y u \/ (y = x /\ u = []).
Proof.
  intros Hok Hr r'. destruct (sh_root (ok_shape Hok)) as (r0 & Hr0 & Hpr & Htr & HPr).
  assert (r0 = r) as -> by congruence.
  set (t1 := set_counts (or_insert x 0 (tenant_char_count t)) t).
  pose proof (register_ok P t x Hok) as Hok1. fold t1 in Hok1.
  assert (is_Some (tenant_char_count t1 !! x)) as Hx1.
  { unfold t1, or_insert. simpl. destruct (tenant_char_count t !! x) eqn:E; simplify_map_eq; eauto. }
  assert (dom (tenant_char_count t1) = {[ x ]} ∪ dom (tenant_char_count t)) as Hdom1.
  { unfold t1, or_insert. simpl. destruct (tenant_char_count t !! x) eqn:E; [|by rewrite dom_insert_L].
    apply elem_of_dom_2 in E. set_solver. }
  cut (tree_ok P (set_node root_addr r' t1) /\
    forall y u, owns P (<[root_addr := r']> (heap t)) y u <-> owns P (heap t) y u \/ (y = x /\ u = []));
    [simpl; naive_solver|].
  destruct (has_tenant x r) eqn:Hxr.
  - apply has_tenant_spec in Hxr.
    destruct (touch_ok Hok1 root_addr [] r r') as [H1 H2]; [done..| |].
    { intros y. unfold r'. rewrite holds_or_insert. naive_solver. }
    split; [done|]. intros y u. rewrite (H2 y u : owns P (<[root_addr := r']> (heap t)) y u <-> _).
    split; [auto|]. intros [|[-> ->]]; [done|]. exists root_addr, [], r. by rewrite has_tenant_spec.
  - assert (~ holds r x) as Hnx by (rewrite <- has_tenant_spec; congruence).
    assert (r' = set_tenants (<[x := 0%N]> (tenant_last_access_time r)) r) as Er.
    { unfold r', or_insert. unfold holds in Hnx. destruct (tenant_last_access_time r !! x); [|done].
      destruct Hnx. eauto. }
    destruct (gain_ok Hok1 root_addr [] r x 0%N HPr Hr Hnx Hx1) as [H1 H2]; [congruence|].
    rewrite Htr, add_count_0, <- Er in H1 by done. rewrite <- Er in H2. split; [by destruct t1|].
    intros y u. rewrite (H2 y u : owns P (<[root_addr := r']> (heap t)) y u <-> _).
    split; [intros [|[-> ->%prefix_nil_inv]]; auto|intros [|[-> ->]]; auto using prefix_nil].
Qed.

Lemma insert_ok P t s x counter : tree_ok P t ->
  exists P' t', insert s x counter t = Some (u64_wrapping_add counter 1, t') /\ tree_ok P' t' /\
    dom (tenant_char_count t') = {[ x ]} ∪ dom (tenant_char_count t) /\
    forall y u, owns P' (heap t') y u <-> owns P (heap t) y u \/ (y = x /\ u `prefix_of` s).
Proof.
  intros Hok. destruct (sh_root (ok_shape Hok)) as (r & Hr & _ & _ & HPr).
  unfold insert. rewrite Hr. cbn [mbind option_bind get_epoch].
  destruct (enter_root_ok P t x r Hok Hr) as (Hok1 & Hx1 & Hdom1 & Hown1).
  set (r' := set_tenants (or_insert x 0%N (tenant_last_access_time r)) r) in *.
  change (set_counts (or_insert x 0 (tenant_char_count (set_node root_addr r' t))) (set_node root_addr r' t))
    with (set_node root_addr r' (set_counts (or_insert x 0 (tenant_char_count t)) t)).
  destruct (insert_loop_ok x counter (length s) P _ s root_addr [] r' Hok1) as
    (P' & t' & -> & H1 & H2 & H3); [done..|by simpl; rewrite lookup_insert_eq| |done|done|].
  { unfold r'. apply holds_or_insert. auto. }
  exists P', t'. split_and!; [done..|by rewrite H2|]. intros y u. rewrite H3, Hown1.
  split; [|naive_solver]. intros [[|[-> ->]]|]; auto using prefix_nil.
Qed.

(** ** Matching *)

(** The root may gain a tenant that is not registered: it holds no characters. *)
Lemma root_gain_ok P t r r' : tree_ok P t -> heap t !! root_addr = Some r ->
  children r' = children r -> text r' = text r -> parent r' = parent r ->
  (forall y, holds r y -> holds r' y) ->
  tree_ok P (set_node root_addr r' t) /\
  forall y u, u <> [] -> owns P (<[root_addr := r']> (heap t)) y u <-> owns P (heap t) y u.
Proof.
  intros Hok Hr Ec Et Ep Hh. pose proof (ok_shape Hok) as Hs.
  destruct (sh_root Hs) as (r0 & Hr0 & Hpr & Htr & HPr). assert (r0 = r) as -> by congruence.
  split; [split; simpl|].
  - apply (shape_tenants _ _ root_addr [] r r'); [done..| | |done].
    + intros p pd y Hp. congruence.
    + intros c m dm y Hc Hm Hy. by apply Hh, (child_holds Hs root_addr [] r c m dm).
  - intros m. by apply (fresh_write P t root_addr r).
  - intros y k Hk. rewrite (ok_count Hok y k Hk).
    pose proof (used_write P (heap t) root_addr [] r' y HPr) as U.
    rewrite (weight_node _ _ _ _ Hr), Et, Htr in U. simpl in U. repeat case_match; lia.
  - intros m q d y Hm Hd Hne. rewrite lookup_insert_ne in Hd by done. by apply (ok_registered Hok m q d y).
  - intros y u Hu. rewrite (owns_write _ _ _ []), (owns_read P (heap t) root_addr [] r) by done.
    split; (intros [[_ ->%prefix_nil_inv]|]; [done|auto]).
Qed.

Section matching.
Context `{Unordered}.

Lemma some_tenant_spec d :
  holds d (some_tenant d) \/ (tenant_last_access_time d = ∅ /\ some_tenant d = "empty").
Proof.
  unfold some_tenant. pose proof (iter_perm (tenant_last_access_time d)) as HP.
  destruct (iter (tenant_last_access_time d)) as [|[x v] l]; simpl.
  - right. split; [|done]. by apply map_to_list_empty_iff, Permutation_nil_r.
  - left. exists v. apply elem_of_map_to_list. rewrite <- HP. by left.
Qed.

Lemma pick_tenant_spec d x d' : pick_tenant d = (x, d') ->
  children d' = children d /\ text d' = text d /\ parent d' = parent d /\
  tenant_last_access_time d' = tenant_last_access_time d /\
  (holds d x \/ tenant_last_access_time d = ∅ /\ x = "empty").
Proof.
  unfold pick_tenant. pose proof (some_tenant_spec d) as S. intros E.
  repeat case_match; simplify_eq/=; auto 10. split_and!; auto. left. by apply has_tenant_spec.
Qed.

Lemma prefix_match_ok P t s counter : tree_ok P t ->
  exists r t', prefix_match_with_counts s counter t = Some (r, u64_wrapping_add counter 1, t') /\
    tree_ok P t' /\ tenant_char_count t' = tenant_char_count t /\
    (forall y u, u <> [] -> owns P (heap t') y u <-> owns P (heap t) y u) /\
    input_char_count r = length s /\ matched_char_count r <= length s /\
    (owns P (heap t) (tenant r) (take (matched_char_count r) s) \/
     matched_char_count r = 0 /\ tenant r = "empty") /\
    forall y u, u `prefix_of` s -> owns P (heap t) y u -> length u <= matched_char_count r.
Proof.
  intros Hok. pose proof (ok_shape Hok) as Hs. destruct (sh_root Hs) as (r & Hr & _ & _ & HPr).
  unfold prefix_match_with_counts.
  destruct (tree_walk_spec Hs any_node ltac:(done) (length s) s [] root_addr r HPr Hr) as
    (k & n & E & q & d & Hn & Hd & _ & Hk & Hpre & Hmax); [done|auto|].
  simpl in E, Hk, Hpre, Hmax. rewrite E. cbn [mbind option_bind]. rewrite Hd. cbn [mbind option_bind].
  destruct (pick_tenant d) as [x d'] eqn:Ep. cbn [get_epoch].
  destruct (pick_tenant_spec d x d' Ep) as (Ec & Et & Epar & Eten & Hx).
  set (d2 := if (N.land counter 7 =? 0)%N then set_tenants (<[x := counter]> (tenant_last_access_time d')) d'
             else d').
  assert (children d2 = children d /\ text d2 = text d /\ parent d2 = parent d) as (Ec2 & Et2 & Ep2)
    by (unfold d2; by case_match).
  eexists _, _. split; [done|]. cbn [tenant matched_char_count input_char_count].
  cut (tree_ok P (set_node n d2 t) /\
    forall y u, u <> [] -> owns P (<[n := d2]> (heap t)) y u <-> owns P (heap t) y u).
  { intros [H1 H2]. split_and!; [done..| |].
    - destruct Hx as [Hx|[He ->]].
      + left. exists n, q, d. by rewrite has_tenant_spec.
      + right. split; [|done]. destruct (decide (n = root_addr)) as [->|Hne].
        * assert (q = []) as -> by congruence. apply prefix_nil_inv, (f_equal length) in Hpre.
          rewrite length_take in Hpre. simpl in Hpre. lia.
        * destruct (node_holds Hs n q d Hn Hd Hne) as [y [v Hy]]. by rewrite He in Hy.
    - intros y u Hu (m & qm & dm & Hm & Hdm & _ & Hp). apply Hmax; [done|]. by exists m, qm, dm. }
  destruct Hx as [Hx|[He ->]].
  - destruct (touch_ok Hok n q d d2) as [H1 H2]; [done..| |split; [done|naive_solver]].
    intros y. unfold d2. case_match; unfold holds in *; simpl; rewrite ?Eten; [|done].
    destruct (decide (x = y)) as [->|]; simplify_map_eq; [|done]. split; [done|eauto].
  - assert (n = root_addr) as ->.
    { destruct (decide (n = root_addr)) as [->|Hne]; [done|].
      destruct (node_holds Hs n q d Hn Hd Hne) as [y [v Hy]]. by rewrite He in Hy. }
    apply (root_gain_ok P t d d2); [done..|]. intros y [v Hy]. by rewrite He in Hy.
Qed.

Lemma prefix_match_tenant_ok P t s x : tree_ok P t ->
  exists k n q d, prefix_match_tenant_state s x t = Some (k, n) /\ P !! n = Some q /\
    heap t !! n = Some d /\ k <= length s /\
    (k = 0 \/ owns P (heap t) x (take k s)) /\
    forall u, u `prefix_of` s -> owns P (heap t) x u -> length u <= k.
Proof.
  intros Hok. pose proof (ok_shape Hok) as Hs. destruct (sh_root Hs) as (r & Hr & _ & _ & HPr).
  assert (forall d d', (forall y, holds d y -> holds d' y) -> has_tenant x d = true -> has_tenant x d' = true) as Hmono.
  { intros d d' Hdd Hx%has_tenant_spec. apply has_tenant_spec. auto. }
  destruct (tree_walk_spec Hs (has_tenant x) Hmono (length s) s [] root_addr r HPr Hr)
    as (k & n & E & q & d & Hn & Hd & HF & Hk & Hpre & Hmax); [done|auto|].
  exists k, n, q, d. split_and!; [done..| |done]. destruct HF as [[-> ->]|HF]; [auto|]. right. by exists n, q, d.
Qed.
End matching.
