(* ===== verification/PrefixTreeRemove.v ===== *)
(** * Removal and eviction in the prefix tree ([src/tree.rs])

    The traversal of the tree, taking a tenant from a node, [remove_tenant] and
    [evict_tenant_by_size], and the specification of the whole tree ([Abs]): the
    set of texts every tenant owns. *)

From S2P Require Import Prelude TreeText PrefixTree PrefixTreeUpdate.

Section unordered.
Context `{U : Unordered}.

(** ** Traversal *)

(** Visit the nodes of a list in turn. *)
Definition visit_all {A} (g : nat -> Node -> A -> A) (h : gmap nat Node) (l : list nat) (acc : A) : A :=
  foldl (fun acc n => match h !! n with Some d => g n d acc | None => acc end) acc l.

Section dfs.
Context {P : gmap nat str} {h : gmap nat Node} (Hs : shape P h).

(** The nodes that have been visited and those on the stack. *)
Record dfs_inv (visited stack : list nat) : Prop := {
  di_nodup : NoDup (visited ++ stack);
  di_root : root_addr ∈ visited ++ stack;
  di_in : forall n, n ∈ visited ++ stack -> is_Some (P !! n);
  di_parent : forall n d p, n ∈ visited ++ stack -> h !! n = Some d -> parent d = Some p -> p ∈ visited;
  di_children : forall n d c m, n ∈ visited -> h !! n = Some d -> children d !! c = Some m ->
    m ∈ visited ++ stack;
}.

Lemma child_addrs_elem d m : m ∈ reverse (snd <$> iter (children d)) <-> exists c, children d !! c = Some m.
Proof.
  rewrite elem_of_reverse, list_elem_of_fmap. split.
  - intros ([c m'] & -> & Hm%elem_of_iter). eauto.
  - intros [c Hc]. exists (c, m). by rewrite elem_of_iter.
Qed.

Lemma dfs_inv_step visited n stack q d :
  P !! n = Some q -> h !! n = Some d -> dfs_inv visited (n :: stack) ->
  dfs_inv (visited ++ [n]) (reverse (snd <$> iter (children d)) ++ stack).
Proof.
  intros Hn Hd [Hnd Hroot Hin Hpar Hch].
  assert (forall m, m ∈ reverse (snd <$> iter (children d)) -> exists qm dm c, P !! m = Some qm /\
    h !! m = Some dm /\ parent dm = Some n /\ children d !! c = Some m) as Hkids.
  { intros m [c Hc]%child_addrs_elem. destruct (sh_down Hs _ _ _ _ _ Hn Hd Hc) as (qm & dm & ? & ? & ? & _). eauto 10. }
  assert (n ∉ visited) as Hnv.
  { intros Hv. apply NoDup_app in Hnd as (_ & Hdis & _). apply (Hdis n Hv). left. }
  assert (NoDup (reverse (snd <$> iter (children d)))) as Hkd.
  { rewrite reverse_Permutation, iter_perm. apply NoDup_fmap_2_strong; [|apply NoDup_map_to_list].
    intros [c1 m1] [c2 m2] H1%elem_of_map_to_list H2%elem_of_map_to_list E. simpl in E. subst m2.
    destruct (sh_down Hs _ _ _ _ _ Hn Hd H1) as (? & d1 & _ & E1 & _ & F1).
    destruct (sh_down Hs _ _ _ _ _ Hn Hd H2) as (? & d2 & _ & E2 & _ & F2). congruence. }
  split.
  - rewrite <- app_assoc. simpl. rewrite (Permutation_app_comm (reverse _) stack), app_comm_cons, app_assoc.
    apply NoDup_app. split_and!; [done| |done]. intros m Hm Hk.
    destruct (Hkids m Hk) as (qm & dm & c & _ & Hdm & Hp & _). apply Hnv. by apply (Hpar m dm n).
  - set_solver.
  - intros m Hm. assert (m ∈ visited ++ n :: stack \/ m ∈ reverse (snd <$> iter (children d))) as [|Hk] by set_solver.
    + by apply Hin.
    + destruct (Hkids m Hk) as (qm & ? & ? & ? & _). eauto.
  - intros m dm p Hm Hdm Hp.
    assert (m ∈ visited ++ n :: stack \/ m ∈ reverse (snd <$> iter (children d))) as [|Hk] by set_solver.
    + apply elem_of_app. left. by apply (Hpar m dm p).
    + destruct (Hkids m Hk) as (qm & dm' & ? & ? & ? & ? & _). assert (p = n) as -> by congruence. set_solver.
  - intros m dm c k Hm Hdm Hk. assert (m ∈ visited \/ m = n) as [Hv| ->] by set_solver.
    + pose proof (Hch m dm c k Hv Hdm Hk). set_solver.
    + assert (dm = d) as -> by congruence. assert (k ∈ reverse (snd <$> iter (children d))) by (apply child_addrs_elem; eauto).
      set_solver.
Qed.

Lemma dfs_inv_done visited : dfs_inv visited [] -> visited ≡ₚ (map_to_list P).*1.
Proof.
  intros [Hnd Hroot Hin Hpar Hch]. rewrite app_nil_r in *. apply NoDup_Permutation; [done|apply NoDup_fst_map_to_list|].
  intros n. rewrite list_elem_of_fmap. split.
  - intros Hn. destruct (Hin n Hn) as [q Hq]. exists (n, q). by rewrite elem_of_map_to_list.
  - intros ([n' q] & -> & Hq%elem_of_map_to_list). simpl. remember (length q) as k eqn:Hk.
    revert n' q Hk Hq. induction k as [k IH] using lt_wf_ind. intros n' q -> Hq.
    destruct (decide (n' = root_addr)) as [->|Hne]; [done|].
    destruct (shape_up Hs n' q Hq Hne) as (d & p & ps & pd & c & rest & Hd & L & _ & _).
    pose proof (linked_length _ _ _ _ _ _ _ _ _ L) as Hlt.
    assert (p ∈ visited) as Hp by (apply (IH (length ps) Hlt p ps); [done|apply (l_path L)]).
    apply (Hch p pd c n'); [done|apply (l_node L)|apply (l_child L)].
Qed.

Lemma dfs_inv_length visited stack : dfs_inv visited stack -> length visited + length stack <= size P.
Proof.
  intros Hi. rewrite <- length_app, <- length_map_to_list, <- (length_fmap fst).
  apply submseteq_length, NoDup_submseteq; [apply Hi|]. intros n Hn. destruct (di_in _ _ Hi n Hn) as [q Hq].
  apply list_elem_of_fmap. exists (n, q). by rewrite elem_of_map_to_list.
Qed.

Lemma dfs_spec {A} (g : nat -> Node -> A -> A) fuel : forall visited stack acc,
  dfs_inv visited stack -> size P - length visited <= fuel ->
  exists l, dfs (fun n d acc => Some (g n d acc)) fuel h stack acc = Some (visit_all g h l acc) /\
    visited ++ l ≡ₚ (map_to_list P).*1.
Proof.
  induction fuel as [|fuel IH]; intros visited [|n stack] acc Hi Hf.
  - exists []. split; [done|]. rewrite app_nil_r. by apply dfs_inv_done.
  - exfalso. apply dfs_inv_length in Hi. simpl in Hi. lia.
  - exists []. split; [done|]. rewrite app_nil_r. by apply dfs_inv_done.
  - destruct (di_in _ _ Hi n ltac:(set_solver)) as [q Hq]. destruct (sh_node Hs _ _ Hq) as (d & Hd & _).
    simpl. rewrite Hd. simpl.
    destruct (IH (visited ++ [n]) (reverse (snd <$> iter (children d)) ++ stack) (g n d acc)) as (l & E & Hl).
    + by apply dfs_inv_step with q.
    + rewrite length_app. simpl. lia.
    + exists (n :: l). rewrite E. unfold visit_all at 2. simpl. rewrite Hd. split; [done|].
      rewrite <- Hl, <- app_assoc. done.
Qed.

Lemma dfs_inv_start : dfs_inv [] [root_addr].
Proof.
  destruct (sh_root Hs) as (r & Hr & Hp & _ & HP). split; simpl.
  - apply NoDup_singleton.
  - set_solver.
  - intros n ->%list_elem_of_singleton. eauto.
  - intros n d p ->%list_elem_of_singleton. congruence.
  - set_solver.
Qed.

(** A traversal from the root visits every node of the tree once. *)
Lemma dfs_all {A} (g : nat -> Node -> A -> A) acc :
  exists l, dfs (fun n d acc => Some (g n d acc)) (size h) h [root_addr] acc = Some (visit_all g h l acc) /\
    l ≡ₚ (map_to_list P).*1.
Proof.
  apply (dfs_spec g (size h) [] [root_addr] acc dfs_inv_start). simpl. rewrite Nat.sub_0_r.
  rewrite <- !size_dom. apply subseteq_size. intros n [q Hq]%elem_of_dom.
  destruct (sh_node Hs _ _ Hq) as (d & Hd & _). apply elem_of_dom. eauto.
Qed.
End dfs.

(** ** Leaves of a tenant *)

Definition child_with (h : gmap nat Node) (x : string) (d : Node) : Prop :=
  exists c m dm, children d !! c = Some m /\ h !! m = Some dm /\ holds dm x.

Lemma has_child_spec h x d : has_child_with_tenant h x d = true <-> child_with h x d.
Proof.
  unfold has_child_with_tenant. rewrite existsb_exists. split.
  - intros ([c m] & Hin & Hx). simpl in Hx. destruct (h !! m) as [dm|] eqn:E; [|done].
    exists c, m, dm. rewrite <- has_tenant_spec. split_and!; [|done..].
    by apply elem_of_iter, list_elem_of_In.
  - intros (c & m & dm & Hc & Hm & Hx). exists (c, m). split.
    + by apply list_elem_of_In, elem_of_iter.
    + simpl. rewrite Hm. by apply has_tenant_spec.
Qed.

(** The node is a leaf for the tenant. *)
Definition leaf (P : gmap nat str) (h : gmap nat Node) (x : string) (n : nat) : Prop :=
  exists q d, P !! n = Some q /\ h !! n = Some d /\ holds d x /\ ~ child_with h x d.

Lemma mark_lookup (l : list (string * N)) (m : gmap string bool) x :
  foldl (fun m kv => <[kv.1 := false]> m) m l !! x = if decide (x ∈ l.*1) then Some false else m !! x.
Proof.
  revert m. induction l as [|[k v] l IH]; intros m; [done|]. simpl. rewrite IH.
  rewrite lookup_insert. repeat case_decide; try done; set_solver.
Qed.

Lemma iter_keys (c : Node) x : x ∈ (iter (tenant_last_access_time c)).*1 <-> holds c x.
Proof.
  rewrite list_elem_of_fmap. split.
  - intros ([k v] & -> & Hk%elem_of_iter). by exists v.
  - intros [v Hv]. exists (x, v). by rewrite elem_of_iter.
Qed.

Lemma mark_children (h : gmap nat Node) l (m : gmap string bool) x :
  foldl (fun m kc => match h !! kc.2 with
                     | Some c => foldl (fun m kv => <[kv.1 := false]> m) m (iter (tenant_last_access_time c))
                     | None => m end) m l !! x =
  if existsb (fun kc : N * nat => match h !! kc.2 with Some c => has_tenant x c | None => false end) l
  then Some false else m !! x.
Proof.
  revert m. induction l as [|[c n] l IH]; intros m; [done|]. simpl. rewrite IH.
  destruct (existsb _ l); [by rewrite orb_true_r|]. rewrite orb_false_r.
  destruct (h !! n) as [d|]; [|done]. rewrite mark_lookup.
  destruct (has_tenant x d) eqn:E; case_decide as Hd; try done; exfalso.
  - apply Hd, iter_keys, has_tenant_spec, E.
  - apply iter_keys, has_tenant_spec in Hd. congruence.
Qed.

Lemma leaf_of_spec h d x : x ∈ leaf_of h d <-> holds d x /\ ~ child_with h x d.
Proof.
  unfold leaf_of. rewrite list_elem_of_fmap.
  set (m := foldl _ _ _).
  assert (m !! x = if has_child_with_tenant h x d then Some false
                   else (fun _ => true) <$> tenant_last_access_time d !! x) as Hm.
  { unfold m. rewrite mark_children. by rewrite lookup_fmap. }
  rewrite <- has_child_spec, not_true_iff_false. split.
  - intros ([k b] & -> & [Hb Hk%elem_of_iter]%list_elem_of_filter). simpl in *. subst b. rewrite Hm in Hk.
    destruct (has_child_with_tenant h k d); [done|]. split; [|done].
    unfold holds. destruct (tenant_last_access_time d !! k); [eauto|done].
  - intros [[v Hv] Hc]. exists (x, true). split; [done|]. apply list_elem_of_filter. split; [done|].
    apply elem_of_iter. by rewrite Hm, Hc, Hv.
Qed.

(** ** Taking a tenant from a node *)

Lemma attachments_write h n d d' : h !! n = Some d ->
  attachments (<[n := d']> h) + size (tenant_last_access_time d) =
  attachments h + size (tenant_last_access_time d').
Proof.
  intros Hd. unfold attachments.
  rewrite <- insert_delete_eq. rewrite map_fold_insert_L by (try rewrite lookup_delete_eq; auto with lia; intros; lia).
  rewrite (map_fold_delete_L _ _ n d h) by (auto; intros; lia). lia.
Qed.

(** The shape of a tree from which an empty leaf node is unlinked. *)
Lemma unlink_shape P h n q d d' p ps pd c :
  shape P h -> P !! n = Some q -> h !! n = Some d -> linked P h n q d p ps pd c -> children d = ∅ ->
  shape (delete n P) (<[p := set_children (delete c (children pd)) pd]> (<[n := d']> h)).
Proof.
  intros Hs Hn Hd L Hch. pose proof (linked_ne _ _ _ _ _ _ _ _ _ Hn L) as Hpn.
  destruct (sh_root Hs) as (r & Hr & Hpr & _ & HPr).
  assert (n <> root_addr) as Hnr by (intros ->; pose proof (l_parent L); congruence).
  pose proof (l_path L) as Hp. pose proof (l_node L) as Hpd. pose proof (l_child L) as Hc.
  pose proof (linked_length _ _ _ _ _ _ _ _ _ L) as Hlen.
  set (pd' := set_children (delete c (children pd)) pd).
  apply (shape_frame P h _ _ [n; p]); [done|by rewrite lookup_delete_ne|..].
  - intros k Hk. rewrite lookup_delete_ne, !lookup_insert_ne by set_solver. done.
  - intros k qk Hk [Hkn Hqk]%lookup_delete_Some. assert (k = p) as -> by set_solver.
    assert (qk = ps) as -> by congruence.
    destruct (proj2 (proj1 (shape_iff P h) Hs) p ps Hp) as (d0 & Hd0 & T & V & D).
    assert (d0 = pd) as -> by congruence. exists pd'. rewrite lookup_insert_eq. split_and!; [done..| |].
    + apply (up_ok_children P h _ _ p ps pd _ Hp V). intros k ks kd c' L'.
      pose proof (linked_ne _ _ _ _ _ _ _ _ _ Hp L'). pose proof (linked_length _ _ _ _ _ _ _ _ _ L').
      pose proof (l_path L'). pose proof (l_node L').
      assert (k <> n) by (intros ->; assert (ks = q) as -> by congruence; lia).
      by rewrite lookup_delete_ne, !lookup_insert_ne.
    + intros c' k. unfold pd'. simpl. intros [Hne Hk']%lookup_delete_Some.
      destruct (shape_child_linked Hs _ _ _ _ _ Hp Hpd Hk') as (qk & dk & H1 & H2 & _ & L').
      pose proof (linked_ne _ _ _ _ _ _ _ _ _ H1 L').
      assert (k <> n) by (intros ->; pose proof (l_first L); pose proof (l_first L'); congruence).
      exists qk, dk. rewrite lookup_delete_ne, !lookup_insert_ne by done. by destruct L'.
  - intros k qk dk p' qs qd c' HkT HpT Hk Hdk L'. pose proof (l_node L'). pose proof (l_child L').
    assert (p' <> n) by (intros ->; assert (qd = d) as -> by congruence; rewrite Hch in *; done).
    assert (p' = p) as -> by set_solver. assert (qd = pd) as -> by congruence.
    rewrite lookup_delete_ne by done. split; [apply (l_path L')|]. exists pd'. rewrite lookup_insert_eq.
    split_and!; [done| |apply (l_tenants L')]. unfold pd'. simpl. rewrite lookup_delete_ne; [done|].
    intros ->. set_solver.
  - intros p' qs qd c' k qk dk HpT HkT Hk Hdk L'.
    assert (k <> n) by (intros ->; pose proof (l_parent L); pose proof (l_parent L'); set_solver).
    assert (k = p) as -> by set_solver. rewrite lookup_delete_ne by done. split; [eauto|].
    exists pd'. rewrite lookup_insert_eq. assert (dk = pd) as -> by congruence. by destruct L'.
Qed.

(** What taking the tenant [x] from the leaf node [n] does to the tree: [P'] and
    [h'] are the tree after it. *)
Record detached (P : gmap nat str) (h : gmap nat Node) (x : string) (n : nat) (d : Node)
    (P' : gmap nat str) (h' : gmap nat Node) : Prop := {
  dt_shape : shape P' h';
  dt_path : forall m q, P' !! m = Some q -> P !! m = Some q;
  dt_kept : forall m q, P !! m = Some q -> m <> n -> P' !! m = Some q;
  dt_gone : P' !! n = None -> forall y, holds d y -> y = x;
  dt_dom : forall m, is_Some (h' !! m) <-> is_Some (h !! m);
  dt_node : forall m dm dm', h !! m = Some dm -> h' !! m = Some dm' ->
    text dm' = text dm /\
    (forall y, tenant_last_access_time dm' !! y =
      if decide (m = n /\ y = x) then None else tenant_last_access_time dm !! y) /\
    (forall c k, children dm !! c = Some k -> is_Some (P' !! k) -> children dm' !! c = Some k) /\
    (forall c k, children dm' !! c = Some k -> children dm !! c = Some k);
  dt_used : forall y, used P' h' y + (if decide (y = x) then length (node_text (text d)) else 0) = used P h y;
  dt_measure : S (attachments h') = attachments h;
}.

Lemma write_dom (h : gmap nat Node) n d d' m : h !! n = Some d -> is_Some (<[n := d']> h !! m) <-> is_Some (h !! m).
Proof.
  intros Hd. destruct (decide (n = m)) as [<-|].
  - rewrite lookup_insert_eq, Hd. naive_solver.
  - by rewrite lookup_insert_ne.
Qed.

Section detach.
Context {P : gmap nat str} {h : gmap nat Node} (Hs : shape P h).
Context {x : string} {n : nat} {q : str} {d : Node} (Hn : P !! n = Some q) (Hd : h !! n = Some d).
Context (Hx : holds d x) (Hleaf : ~ child_with h x d).
Let d' := set_tenants (delete x (tenant_last_access_time d)) d.

Lemma detach_used y :
  used P (<[n := d']> h) y + (if decide (y = x) then length (node_text (text d)) else 0) = used P h y.
Proof.
  pose proof (used_write P h n q d' y Hn) as E. rewrite (weight_node _ _ _ _ Hd) in E.
  change (text d') with (text d) in E. case_decide as Hy.
  - subst y. rewrite (proj2 (has_tenant_spec x d) Hx), (has_tenant_false x d') in E; [lia|].
    unfold d'. rewrite holds_delete. naive_solver.
  - rewrite (has_tenant_ext d' d) in E by (unfold d'; rewrite holds_delete; naive_solver). lia.
Qed.

Lemma detach_measure : S (attachments (<[n := d']> h)) = attachments h.
Proof.
  pose proof (attachments_write h n d d' Hd) as E. unfold d' in E at 2. simpl in E.
  destruct Hx as [v Hv]. rewrite map_size_delete_Some in E by eauto.
  assert (size (tenant_last_access_time d) <> 0) by (rewrite map_size_non_empty_iff; intros Z; rewrite Z in Hv; done).
  lia.
Qed.

Lemma detach_lookup m dm' : <[n := d']> h !! m = Some dm' -> exists dm, h !! m = Some dm /\
  text dm' = text dm /\ parent dm' = parent dm /\ children dm' = children dm /\
  forall y, tenant_last_access_time dm' !! y =
    if decide (m = n /\ y = x) then None else tenant_last_access_time dm !! y.
Proof.
  intros [[<- <-]|[Hne Hm]]%lookup_insert_Some.
  - exists d. split_and!; [done..|]. intros y. simpl. case_decide as Hy.
    + destruct Hy as [_ ->]. by rewrite lookup_delete_eq.
    + rewrite lookup_delete_ne; [done|]. naive_solver.
  - exists dm'. split_and!; [done..|]. intros y. rewrite decide_False; [done|]. naive_solver.
Qed.

(** The node stays when it has tenants or children left, or is the root. *)
Lemma detached_stays : (n = root_addr \/ children d <> ∅ \/ tenant_last_access_time d' <> ∅) ->
  detached P h x n d P (<[n := d']> h).
Proof.
  intros Hstay. split; try done.
  - apply (shape_tenants P h n q d d'); try done.
    + intros p pd y Hp Hpd Hy. unfold d' in Hy. apply holds_delete in Hy as [Hy _].
      by apply (parent_holds Hs n q d p pd y).
    + intros c m dm y Hc Hm Hy. unfold d'. apply holds_delete. split; [by apply (child_holds Hs n q d c m dm y)|].
      intros ->. apply Hleaf. by exists c, m, dm.
    + intros Hne. destruct Hstay as [|[Hc|Ht]]; [done| |].
      * apply map_choose in Hc as (c & m & Hc).
        destruct (shape_child_linked Hs _ _ _ _ _ Hn Hd Hc) as (qm & dm & _ & Hm & _ & L).
        destruct (l_used L) as [y Hy]. exists y. unfold d'. apply holds_delete. split; [by apply (l_tenants L)|].
        intros ->. apply Hleaf. by exists c, m, dm.
      * apply map_choose in Ht as (y & v & Hy). exists y, v. done.
  - congruence.
  - intros m. by apply (write_dom h n d).
  - intros m dm dm' Hm Hm'. destruct (detach_lookup m dm' Hm') as (dm0 & H1 & H2 & H3 & H4 & H5).
    assert (dm0 = dm) as -> by congruence. rewrite H4. auto.
  - apply detach_used.
  - apply detach_measure.
Qed.

Lemma detached_unlinked p ps pd c :
  linked P h n q d p ps pd c -> children d = ∅ -> tenant_last_access_time d' = ∅ ->
  detached P h x n d (delete n P) (<[p := set_children (delete c (children pd)) pd]> (<[n := d']> h)).
Proof.
  intros L Hc Ht. pose proof (linked_ne _ _ _ _ _ _ _ _ _ Hn L) as Hpn. pose proof (l_node L) as Hpd.
  set (pd' := set_children (delete c (children pd)) pd).
  assert (<[n := d']> h !! p = Some pd) as Hpd1 by (by rewrite lookup_insert_ne).
  split.
  - by apply unlink_shape with q d ps.
  - intros m qm [_ Hm]%lookup_delete_Some. done.
  - intros m qm Hm Hne. by rewrite lookup_delete_ne.
  - intros _ y Hy. destruct (decide (y = x)) as [|Hyx]; [done|].
    assert (holds d' y) as [v Hv] by (unfold d'; by apply holds_delete). by rewrite Ht in Hv.
  - intros m. rewrite (write_dom _ p pd) by done. by apply (write_dom h n d).
  - intros m dm dm' Hm Hm'.
    assert (exists dm1, <[n := d']> h !! m = Some dm1 /\ text dm' = text dm1 /\
      tenant_last_access_time dm' = tenant_last_access_time dm1 /\
      (forall c' k, children dm1 !! c' = Some k -> k <> n -> children dm' !! c' = Some k) /\
      (forall c' k, children dm' !! c' = Some k -> children dm1 !! c' = Some k)) as (dm1 & H1 & T1 & A1 & C1 & C2).
    { apply lookup_insert_Some in Hm' as [[<- <-]|[Hne Hm']]; [|naive_solver].
      exists pd. split_and!; [done..| |].
      - intros c' k Hk Hkn. unfold pd'. simpl. rewrite lookup_delete_ne; [done|].
        intros <-. pose proof (l_child L). congruence.
      - intros c' k Hk. unfold pd' in Hk. simpl in Hk. by apply lookup_delete_Some in Hk as [_ Hk]. }
    destruct (detach_lookup m dm1 H1) as (dm0 & H2 & H3 & H4 & H5 & H6). assert (dm0 = dm) as -> by congruence.
    rewrite T1, A1, <- H5. split_and!; [done..| |done]. intros c' k Hk [qk [Hkn _]%lookup_delete_Some]. by apply C1.
  - intros y. rewrite <- (detach_used y). f_equal. rewrite (used_delete P _ y n q Hn).
    rewrite (weight_node _ _ _ d') by (by rewrite lookup_insert_eq).
    rewrite has_tenant_false; [|intros [v Hv]; by rewrite Ht in Hv]. simpl.
    apply used_ext. intros m qm [Hne Hm]%lookup_delete_Some. rewrite weight_write.
    case_decide as E; [subst m|done]. by rewrite (weight_node _ _ _ pd) by done.
  - rewrite <- detach_measure. f_equal. pose proof (attachments_write (<[n := d']> h) p pd pd' Hpd1) as E.
    simpl in E. lia.
Qed.
End detach.

Lemma detached_holds P h x n d P' h' m dm dm' y :
  detached P h x n d P' h' -> h !! m = Some dm -> h' !! m = Some dm' ->
  (holds dm' y <-> holds dm y /\ ~ (m = n /\ y = x)).
Proof.
  intros D Hm Hm'. destruct (dt_node _ _ _ _ _ _ _ D _ _ _ Hm Hm') as (_ & E & _). unfold holds. rewrite E.
  destruct (decide (m = n /\ y = x)); [|tauto]. split; [by intros []|tauto].
Qed.

(** A leaf after the step was one before, unless its only child with the tenant
    was the node the tenant is taken from. *)
Lemma detached_leaf P h x n d P' h' y m :
  shape P h -> detached P h x n d P' h' -> h !! n = Some d -> holds d x ->
  leaf P' h' y m -> leaf P h y m \/ (y = x /\ parent d = Some m).
Proof.
  intros Hs D Hd Hx (q & dm' & Hq & Hm' & Hy & Hch).
  destruct (proj1 (dt_dom _ _ _ _ _ _ _ D m)) as [dm Hm]; [eauto|].
  apply (dt_path _ _ _ _ _ _ _ D) in Hq.
  pose proof (proj1 (detached_holds _ _ _ _ _ _ _ _ _ _ _ D Hm Hm') Hy) as [Hydm _].
  destruct (has_child_with_tenant h y dm) eqn:E.
  - apply has_child_spec in E as (c & k & dk & Hc & Hk & Hyk).
    destruct (sh_down Hs _ _ _ _ _ Hq Hm Hc) as (qk & dk0 & Hqk & Hk0 & Hpar & _).
    assert (dk0 = dk) as -> by congruence.
    destruct (decide (k = n /\ y = x)) as [[-> ->]|Hkn].
    { right. split; [done|]. congruence. }
    exfalso. apply Hch. destruct (proj2 (dt_dom _ _ _ _ _ _ _ D k)) as [dk1 Hdk1]; [eauto|].
    exists c, k, dk1. split_and!; [|done|].
    + apply (dt_node _ _ _ _ _ _ _ D m dm dm' Hm Hm'); [done|].
      destruct (decide (k = n)) as [->|]; [|rewrite (dt_kept _ _ _ _ _ _ _ D k qk); eauto].
      destruct (P' !! n) eqn:EP; [eauto|]. assert (dk = d) as -> by congruence.
      destruct Hkn. split; [done|]. by apply (dt_gone _ _ _ _ _ _ _ D EP).
    + apply (detached_holds _ _ _ _ _ _ _ _ _ _ _ D Hk Hdk1). naive_solver.
  - left. exists q, dm. split_and!; [done..|]. rewrite <- has_child_spec. congruence.
Qed.

Lemma detached_owns P h x n d P' h' y u :
  shape P h -> h !! n = Some d -> detached P h x n d P' h' ->
  (owns P' h' y u -> owns P h y u) /\ (y <> x -> owns P h y u -> owns P' h' y u).
Proof.
  intros Hs Hd D. unfold owns, reaches. split.
  - intros (m & q & dm' & Hm & Hdm' & Hy%has_tenant_spec & Hp).
    destruct (proj1 (dt_dom _ _ _ _ _ _ _ D m)) as [dm Hdm]; [eauto|]. exists m, q, dm.
    rewrite has_tenant_spec. split_and!; [by apply (dt_path _ _ _ _ _ _ _ D)|done| |done].
    by apply (detached_holds _ _ _ _ _ _ _ _ _ _ _ D Hdm Hdm').
  - intros Hyx (m & q & dm & Hm & Hdm & Hy%has_tenant_spec & Hp).
    destruct (proj2 (dt_dom _ _ _ _ _ _ _ D m)) as [dm' Hdm']; [eauto|]. exists m, q, dm'.
    rewrite has_tenant_spec. split_and!; [|done| |done].
    + destruct (decide (m = n)) as [->|]; [|by apply (dt_kept _ _ _ _ _ _ _ D)].
      destruct (P' !! n) as [q'|] eqn:E; [by rewrite (dt_path _ _ _ _ _ _ _ D _ _ E) in Hm|].
      destruct Hyx. apply (dt_gone _ _ _ _ _ _ _ D E). congruence.
    + apply (detached_holds _ _ _ _ _ _ _ _ _ _ _ D Hdm Hdm'). naive_solver.
Qed.

Lemma detach_ok P h x n q d :
  shape P h -> P !! n = Some q -> h !! n = Some d -> holds d x -> ~ child_with h x d ->
  exists P' h' up, detach x n d h = Some (h', up) /\ detached P h x n d P' h' /\
    (forall m, parent d = Some m -> leaf P' h' x m -> exists ts, up = Some (m, ts)) /\
    (forall m ts, up = Some (m, ts) -> parent d = Some m /\ leaf P' h' x m /\
      exists dm, h' !! m = Some dm /\ tenant_last_access_time dm !! x = Some ts).
Proof.
  intros Hs Hn Hd Hx Hleaf. unfold detach.
  set (d' := set_tenants (delete x (tenant_last_access_time d)) d).
  assert (exists P' h', unlink_if_empty d' (<[n := d']> h) = Some h' /\ detached P h x n d P' h') as (P' & h' & -> & D).
  { unfold unlink_if_empty. destruct (decide (n = root_addr)) as [->|Hne].
    - destruct (sh_root Hs) as (r & Hr & Hpr & _). assert (r = d) as -> by congruence.
      exists P, (<[root_addr := d']> h). split; [|by apply (detached_stays Hs Hn Hd Hx Hleaf); auto].
      change (parent d') with (parent d). rewrite Hpr. by case_match.
    - destruct (shape_up Hs n q Hn Hne) as (d0 & p & ps & pd & c & rest & Hd0 & L & _).
      assert (d0 = d) as -> by congruence. pose proof (linked_ne _ _ _ _ _ _ _ _ _ Hn L).
      change (children d') with (children d). change (parent d') with (parent d). change (text d') with (text d).
      rewrite (l_parent L), (l_first L), lookup_insert_ne, (l_node L) by done.
      destruct (decide (children d = ∅)) as [Hc|Hc]; [destruct (decide (tenant_last_access_time d' = ∅)) as [Ht|Ht]|].
      + rewrite !bool_decide_eq_true_2 by done. simpl. eexists _, _. split; [done|].
        by apply (detached_unlinked Hs Hn Hd Hx Hleaf p ps).
      + rewrite (bool_decide_eq_false_2 (tenant_last_access_time d' = ∅)), andb_false_r by done.
        eexists _, _. split; [done|]. apply (detached_stays Hs Hn Hd Hx Hleaf). auto.
      + rewrite (bool_decide_eq_false_2 (children d = ∅)) by done. simpl.
        eexists _, _. split; [done|]. apply (detached_stays Hs Hn Hd Hx Hleaf). auto. }
  cbn [mbind option_bind]. change (parent d') with (parent d).
  destruct (parent d) as [p|] eqn:Hpar; [|exists P', h', None; split_and!; [done..|naive_solver]].
  assert (n <> root_addr) as Hne.
  { intros ->. destruct (sh_root Hs) as (r & Hr & Hpr & _). congruence. }
  destruct (shape_up Hs n q Hn Hne) as (d0 & p0 & ps & pd & c & rest & Hd0 & L & _).
  assert (d0 = d) as -> by congruence. pose proof (l_parent L). assert (p0 = p) as -> by congruence.
  destruct (proj2 (dt_dom _ _ _ _ _ _ _ D p)) as [pd' Hpd']; [rewrite (l_node L); eauto|].
  pose proof (dt_kept _ _ _ _ _ _ _ D p ps (l_path L) (linked_ne _ _ _ _ _ _ _ _ _ Hn L)) as Hps.
  rewrite Hpd'. cbn [mbind option_bind]. exists P', h'.
  destruct (tenant_last_access_time pd' !! x) as [ts|] eqn:Hts; eexists; (split; [done|]);
    (split; [done|]); split.
  - intros m [= <-] (q' & dm & _ & Hm & _ & Hch). assert (dm = pd') as -> by congruence.
    rewrite <- has_child_spec, not_true_iff_false in Hch. rewrite Hch. eauto.
  - intros m ts'. destruct (has_child_with_tenant h' x pd') eqn:Hch; [done|]. intros [= <- <-]. split; [done|]. split; [|eauto].
    exists ps, pd'. split_and!; [done..|by exists ts|]. rewrite <- has_child_spec. congruence.
  - intros m [= <-] (q' & dm & _ & Hm & [v Hv] & _). congruence.
  - done.
Qed.

(** Paths have a greatest length. *)
Lemma paths_bounded (P : gmap nat str) : exists B, forall n q, P !! n = Some q -> length q <= B.
Proof.
  induction P as [|n q P Hn [B IH]] using map_ind; [exists 0; by intros n q|].
  exists (length q + B). intros m q' [[_ <-]|[_ Hm]]%lookup_insert_Some; [lia|].
  specialize (IH _ _ Hm). lia.
Qed.

(** A tenant that holds a node has a leaf. *)
Lemma holder_leaf P h x n q d : shape P h -> P !! n = Some q -> h !! n = Some d -> holds d x ->
  exists m, leaf P h x m.
Proof.
  intros Hs. destruct (paths_bounded P) as [B HB]. remember (B - length q) as k eqn:Hk. revert n q d Hk.
  induction k as [k IH] using lt_wf_ind. intros n q d -> Hn Hd Hx.
  destruct (has_child_with_tenant h x d) eqn:E.
  - apply has_child_spec in E as (c & m & dm & Hc & Hm & Hy).
    destruct (shape_child_linked Hs _ _ _ _ _ Hn Hd Hc) as (qm & dm' & Hqm & Hdm' & _ & L).
    pose proof (linked_length _ _ _ _ _ _ _ _ _ L). pose proof (HB _ _ Hqm).
    refine (IH (B - length qm) _ m qm dm eq_refl Hqm Hm Hy). lia.
  - exists n, q, d. split_and!; [done..|]. rewrite <- has_child_spec. congruence.
Qed.

(** A leaf elsewhere stays one. *)
Lemma detached_leaf_stays P h x n d P' h' y m :
  detached P h x n d P' h' -> m <> n -> leaf P h y m -> leaf P' h' y m.
Proof.
  intros D Hne (q & dm & Hq & Hm & Hy & Hch).
  destruct (proj2 (dt_dom _ _ _ _ _ _ _ D m)) as [dm' Hm']; [eauto|].
  exists q, dm'. split_and!; [by apply (dt_kept _ _ _ _ _ _ _ D)|done| |].
  - apply (detached_holds _ _ _ _ _ _ _ _ _ _ _ D Hm Hm'). naive_solver.
  - intros (c & k & dk' & Hc & Hk' & Hyk). apply Hch.
    destruct (proj1 (dt_dom _ _ _ _ _ _ _ D k)) as [dk Hk]; [eauto|]. exists c, k, dk. split_and!; [|done|].
    + by apply (dt_node _ _ _ _ _ _ _ D m dm dm').
    + by apply (detached_holds _ _ _ _ _ _ _ _ _ _ _ D Hk Hk').
Qed.

Lemma detached_not_leaf P h x n d P' h' : detached P h x n d P' h' -> ~ leaf P' h' x n.
Proof.
  intros D (q & dn' & Hq & Hn' & Hx & _).
  destruct (proj1 (dt_dom _ _ _ _ _ _ _ D n)) as [dn Hn]; [eauto|].
  apply (detached_holds _ _ _ _ _ _ _ _ _ _ _ D Hn Hn') in Hx. naive_solver.
Qed.

(** ** Removal of a tenant *)

(** What a removal may do to a tree: nodes disappear, tenants disappear. *)
Record shrunk (P : gmap nat str) (h : gmap nat Node) (P' : gmap nat str) (h' : gmap nat Node) : Prop := {
  sk_path : forall m q, P' !! m = Some q -> P !! m = Some q;
  sk_dom : forall m, is_Some (h' !! m) <-> is_Some (h !! m);
  sk_holds : forall m dm dm' y, h !! m = Some dm -> h' !! m = Some dm' -> holds dm' y -> holds dm y;
}.

Lemma shrunk_refl P h : shrunk P h P h.
Proof. split; [done..|]. naive_solver congruence. Qed.

Lemma shrunk_step P h x n d P1 h1 P' h' :
  detached P h x n d P1 h1 -> shrunk P1 h1 P' h' -> shrunk P h P' h'.
Proof.
  intros D [S1 S2 S3]. split.
  - intros m q Hm. by apply (dt_path _ _ _ _ _ _ _ D), S1.
  - intros m. by rewrite S2, (dt_dom _ _ _ _ _ _ _ D m).
  - intros m dm dm' y Hm Hm' Hy. destruct (proj1 (S2 m)) as [dm1 Hm1]; [eauto|].
    apply (detached_holds _ _ _ _ _ _ _ _ _ _ _ D Hm Hm1). by apply (S3 m dm1 dm').
Qed.

(** The queue of leaves after a step. *)
Lemma detach_queue P h x n q d P1 h1 (up : option (nat * N)) queue :
  shape P h -> P !! n = Some q -> h !! n = Some d -> holds d x -> detached P h x n d P1 h1 ->
  (forall m, parent d = Some m -> leaf P1 h1 x m -> exists ts, up = Some (m, ts)) ->
  (forall m ts, up = Some (m, ts) -> parent d = Some m /\ leaf P1 h1 x m) ->
  NoDup (n :: queue) -> (forall m, m ∈ n :: queue <-> leaf P h x m) ->
  let queue1 := queue ++ match up with Some (q, _) => [q] | None => [] end in
  NoDup queue1 /\ forall m, m ∈ queue1 <-> leaf P1 h1 x m.
Proof.
  intros Hs Hn Hd Hx D Hup1 Hup2 [Hnq Hnd]%NoDup_cons Hq queue1.
  assert (forall m ts, up = Some (m, ts) -> m ∉ queue) as Hnew.
  { intros m ts ->. destruct (Hup2 m ts eq_refl) as [Hpar Hl].
    intros Hmq. destruct (proj1 (Hq m)) as (q' & dm & Hqm & Hdm & _ & Hch'); [set_solver|].
    apply Hch'. destruct (decide (n = root_addr)) as [->|Hne].
    { destruct (sh_root Hs) as (r & Hr & Hpr & _). congruence. }
    destruct (sh_up Hs _ _ _ Hn Hd Hne) as (p & ps & pd & c & L). pose proof (l_parent L). pose proof (l_node L).
    assert (p = m) as -> by congruence. assert (pd = dm) as -> by congruence.
    exists c, n, d. split_and!; [apply (l_child L)|done..]. }
  split.
  - unfold queue1. destruct up as [[m ts]|]; [|by rewrite app_nil_r]. pose proof (Hnew m ts eq_refl).
    apply NoDup_app. split_and!; [done|set_solver|apply NoDup_singleton].
  - intros m. unfold queue1. rewrite elem_of_app. split.
    + intros [Hm'|Hm'].
      * apply (detached_leaf_stays _ _ _ _ _ _ _ _ _ D); [set_solver|]. apply Hq. set_solver.
      * destruct up as [[m' ts]|]; [|set_solver]. apply list_elem_of_singleton in Hm' as ->.
        apply (Hup2 m' ts eq_refl).
    + intros Hl. destruct (detached_leaf P h x n d P1 h1 x m Hs D Hd Hx Hl) as [Hl'|[_ Hp]].
      * apply Hq in Hl' as [->|]%elem_of_cons; [|auto]. by destruct (detached_not_leaf _ _ _ _ _ _ _ D).
      * destruct (Hup1 m Hp Hl) as [ts ->]. set_solver.
Qed.

Lemma remove_loop_ok x fuel : forall P h queue,
  shape P h -> NoDup queue -> (forall m, m ∈ queue <-> leaf P h x m) ->
  length queue + 2 * attachments h <= fuel ->
  exists P' h', remove_loop fuel x queue h = Some h' /\ shape P' h' /\ shrunk P h P' h' /\
    (forall m, ~ leaf P' h' x m) /\
    forall y, y <> x -> used P' h' y = used P h y /\ forall u, owns P' h' y u <-> owns P h y u.
Proof.
  induction fuel as [|fuel IH]; intros P h [|n queue] Hs Hnd Hq Hf; [|simpl in Hf; lia|..].
  1-2: exists P, h; split_and!; [done..|apply shrunk_refl| |done]; intros m Hm%Hq; set_solver.
  destruct (proj1 (Hq n)) as (q & d & Hn & Hd & Hx & Hch); [set_solver|].
  destruct (detach_ok P h x n q d Hs Hn Hd Hx Hch) as (P1 & h1 & up & E & D & Hup1 & Hup2).
  destruct (detach_queue P h x n q d P1 h1 up queue) as [Hnd1 Hq1]; [done..|naive_solver|done|done|].
  pose proof (dt_measure _ _ _ _ _ _ _ D) as Hm.
  destruct (IH P1 h1 (queue ++ match up with Some (q, _) => [q] | None => [] end)) as (P' & h' & E' & H1 & H2 & H3 & H4);
    [apply (dt_shape _ _ _ _ _ _ _ D)|done|done| |].
  { rewrite length_app. simpl in Hf. destruct up as [[]|]; simpl; lia. }
  exists P', h'. cbn [remove_loop]. rewrite Hd. cbn [mbind option_bind]. rewrite E. cbn [mbind option_bind].
  split_and!; [done..|by apply (shrunk_step _ _ _ _ _ _ _ _ _ D)|done|].
  intros y Hy. destruct (H4 y Hy) as [U1 O1]. split.
  - rewrite U1, <- (dt_used _ _ _ _ _ _ _ D y), decide_False by done. lia.
  - intros u. rewrite O1. split; [apply (detached_owns P h x n d P1 h1 y u Hs Hd D)|].
    by apply (detached_owns P h x n d P1 h1 y u Hs Hd D).
Qed.

Lemma collect_tenant_leaves_ok P t x : shape P (heap t) ->
  exists queue, collect_tenant_leaves x t = Some queue /\ NoDup queue /\
    forall m, m ∈ queue <-> leaf P (heap t) x m.
Proof.
  intros Hs. unfold collect_tenant_leaves.
  destruct (dfs_all Hs (fun n d acc => if has_tenant x d && negb (has_child_with_tenant (heap t) x d)
                                       then acc ++ [n] else acc) []) as (l & -> & Hl).
  assert (NoDup l) as Hnd by (rewrite Hl; apply NoDup_fst_map_to_list).
  assert (forall m, m ∈ l <-> is_Some (P !! m)) as Hin.
  { intros m. rewrite Hl, list_elem_of_fmap. split.
    - intros ([m' q] & -> & Hm%elem_of_map_to_list). by exists q.
    - intros [q Hq]. exists (m, q). by rewrite elem_of_map_to_list. }
  set (isleaf := fun n => match heap t !! n with
    | Some d => has_tenant x d && negb (has_child_with_tenant (heap t) x d) | None => false end).
  assert (forall acc, visit_all (fun n d acc => if has_tenant x d && negb (has_child_with_tenant (heap t) x d)
    then acc ++ [n] else acc) (heap t) l acc = acc ++ filter (fun n => isleaf n = true) l) as ->.
  { clear. induction l as [|n l IH]; intros acc; [by rewrite app_nil_r|]. unfold visit_all in *. simpl.
    rewrite IH, filter_cons. case_decide as Hc; unfold isleaf in Hc; destruct (heap t !! n) as [d|]; try done;
      destruct (has_tenant x d && _); try done. by rewrite <- app_assoc. }
  eexists. split; [done|]. simpl. split; [by apply NoDup_filter|].
  intros m. rewrite list_elem_of_filter, Hin. unfold isleaf. split.
  - intros [Hm [q Hq]]. destruct (heap t !! m) as [d|] eqn:Hd; [|done]. apply andb_true_iff in Hm as [H1 H2].
    exists q, d. split_and!; [done..|by apply has_tenant_spec|]. rewrite <- has_child_spec. by destruct (has_child_with_tenant _ _ _).
  - intros (q & d & Hq & Hd & Hx & Hch). rewrite Hd, <- has_child_spec, not_true_iff_false in *.
    rewrite Hch, (proj2 (has_tenant_spec x d)) by done. eauto.
Qed.

Lemma remove_tenant_ok P t x : tree_ok P t ->
  exists P' t', remove_tenant x t = Some t' /\ tree_ok P' t' /\
    tenant_char_count t' = delete x (tenant_char_count t) /\
    (forall u, ~ owns P' (heap t') x u) /\
    forall y, y <> x -> forall u, owns P' (heap t') y u <-> owns P (heap t) y u.
Proof.
  intros Hok. pose proof (ok_shape Hok) as Hs. unfold remove_tenant.
  destruct (collect_tenant_leaves_ok P t x Hs) as (queue & -> & Hnd & Hq). cbn [mbind option_bind].
  destruct (remove_loop_ok x (length queue + 2 * attachments (heap t)) P (heap t) queue Hs Hnd Hq) as
    (P' & h' & -> & Hs' & [S1 S2 S3] & Hno & Hsame); [lia|]. cbn [mbind option_bind].
  assert (forall n q d, P' !! n = Some q -> h' !! n = Some d -> ~ holds d x) as Hgone.
  { intros n q d Hn Hd Hx. destruct (holder_leaf P' h' x n q d Hs' Hn Hd Hx) as [m Hm]. by apply (Hno m). }
  eexists P', _. split; [done|]. simpl. split_and!; [split; simpl|done| |].
  - done.
  - intros n Hn. destruct (h' !! n) as [d|] eqn:Hd; [|done].
    destruct (proj1 (S2 n)) as [d0 Hd0]; [eauto|]. by rewrite (ok_fresh Hok) in Hd0.
  - intros y k [Hy Hk]%lookup_delete_Some. destruct (Hsame y) as [-> _]; [done|]. by apply (ok_count Hok).
  - intros n q d y Hn Hd Hne Hy. destruct (proj1 (S2 n)) as [d0 Hd0]; [eauto|].
    assert (y <> x) by (intros ->; by apply (Hgone n q d)).
    rewrite lookup_delete_ne by done. apply (ok_registered Hok n q d0 y); [by apply S1|done..|].
    by apply (S3 n d0 d y).
  - intros u (n & q & d & Hn & Hd & Hx%has_tenant_spec & _). by apply (Hgone n q d).
  - intros y Hy. by apply Hsame.
Qed.

(** ** Eviction *)

(** The tenant is not known to be within its budget. *)
Definition over (max_size : nat) (t : Tree) (x : string) : Prop :=
  forall k, tenant_char_count t !! x = Some k -> max_size < k.

(** The queue holds every leaf of a tenant that is over its budget, with its
    timestamp; entries of nodes that lost the tenant may be left over. *)
Record evict_inv (max_size : nat) (P : gmap nat str) (pq : list EvictionEntry) (t : Tree) : Prop := {
  ei_ok : tree_ok P t;
  ei_node : forall e, e ∈ pq -> is_Some (heap t !! entry_node e);
  ei_entry : forall e d, e ∈ pq -> heap t !! entry_node e = Some d -> holds d (entry_tenant e) ->
    is_Some (P !! entry_node e) /\ tenant_last_access_time d !! entry_tenant e = Some (timestamp e);
  ei_cover : forall x n, leaf P (heap t) x n -> over max_size t x ->
    exists e, e ∈ pq /\ entry_tenant e = x /\ entry_node e = n;
}.

(** How eviction changes a tree. *)
Record evicted (max_size : nat) (P : gmap nat str) (t : Tree) (P' : gmap nat str) (t' : Tree) : Prop := {
  ev_dom : dom (tenant_char_count t') = dom (tenant_char_count t);
  ev_within : forall x k, tenant_char_count t !! x = Some k -> k <= max_size ->
    tenant_char_count t' !! x = Some k /\ forall u, owns P' (heap t') x u <-> owns P (heap t) x u;
  ev_owns : forall x u, owns P' (heap t') x u -> owns P (heap t) x u;
}.

Lemma evicted_refl max_size P t : evicted max_size P t P t.
Proof. by split. Qed.

Lemma evicted_trans max_size P t P1 t1 P2 t2 :
  evicted max_size P t P1 t1 -> evicted max_size P1 t1 P2 t2 -> evicted max_size P t P2 t2.
Proof.
  intros [A1 A2 A3] [B1 B2 B3]. split; [congruence| |auto].
  intros x k Hk Hle. destruct (A2 x k Hk Hle) as [Hk1 Ho1]. destruct (B2 x k Hk1 Hle) as [Hk2 Ho2].
  split; [done|]. intros u. by rewrite Ho2, Ho1.
Qed.

(** Dropping an entry that is not a leaf of a tenant over its budget. *)
Lemma evict_inv_drop max_size P e pq t :
  evict_inv max_size P (e :: pq) t ->
  (leaf P (heap t) (entry_tenant e) (entry_node e) -> ~ over max_size t (entry_tenant e)) ->
  evict_inv max_size P pq t.
Proof.
  intros [I1 I2 I3 I4] Hdrop. split; [done|set_solver| |].
  - intros e' d He'. apply I3. set_solver.
  - intros x n Hl Ho. destruct (I4 x n Hl Ho) as (e' & [->|He']%elem_of_cons & <- & <-); [|eauto].
    exfalso. by apply Hdrop.
Qed.

Section evict_one.
Context {max_size : nat} {P : gmap nat str} {pq : list EvictionEntry} {t : Tree} {e : EvictionEntry}.
Context (Hi : evict_inv max_size P (e :: pq) t).
Let x := entry_tenant e.
Let n := entry_node e.
Context {q : str} {d : Node} (Hn : P !! n = Some q) (Hd : heap t !! n = Some d).
Context (Hx : holds d x) (Hover : over max_size t x).
Context {P' : gmap nat str} {h' : gmap nat Node} (D : detached P (heap t) x n d P' h').
Let counts := alter (fun count => count - char_count (text d)) x (tenant_char_count t).
Let t' := MkTree h' (next_addr t) counts.

Lemma evict_counts y k : counts !! y = Some k ->
  exists k0, tenant_char_count t !! y = Some k0 /\ k0 = used P (heap t) y /\ k = used P' h' y /\ k <= k0 /\
    (y <> x -> k0 = k).
Proof.
  unfold counts. pose proof (ei_ok _ _ _ _ Hi) as Hok. pose proof (dt_used _ _ _ _ _ _ _ D y) as HU.
  destruct (sh_node (ok_shape Hok) _ _ Hn) as (d0 & Hd0 & T). assert (d0 = d) as -> by congruence.
  assert (char_count (text d) = length (node_text (text d))) as Hcc by (by rewrite T at 1).
  intros Hk. destruct (decide (y = x)) as [->|Hne].
  - rewrite lookup_alter_eq in Hk. destruct (tenant_char_count t !! x) as [k0|] eqn:E; [|done].
    injection Hk as <-. pose proof (ok_count Hok x k0 E). exists k0. split_and!; [done|done|lia|lia|done].
  - rewrite lookup_alter_ne in Hk by done. pose proof (ok_count Hok y k Hk). exists k.
    split_and!; [done|done|lia|lia|done].
Qed.

Lemma evict_tree_ok : tree_ok P' t'.
Proof.
  pose proof (ei_ok _ _ _ _ Hi) as Hok. split; simpl.
  - apply (dt_shape _ _ _ _ _ _ _ D).
  - intros m Hm. destruct (h' !! m) as [dm|] eqn:E; [|done].
    destruct (proj1 (dt_dom _ _ _ _ _ _ _ D m)) as [d0 Hd0]; [eauto|]. by rewrite (ok_fresh Hok) in Hd0.
  - intros y k Hk. destruct (evict_counts y k Hk) as (k0 & _ & _ & E & _). done.
  - intros m qm dm' y Hm Hdm' Hne Hy.
    destruct (proj1 (dt_dom _ _ _ _ _ _ _ D m)) as [dm Hdm]; [by exists dm'|].
    destruct (proj1 (detached_holds _ _ _ _ _ _ _ _ _ _ y D Hdm Hdm') Hy) as [Hy0 _].
    unfold counts. rewrite lookup_alter_is_Some.
    apply (ok_registered Hok m qm dm y); [by apply (dt_path _ _ _ _ _ _ _ D)|done..].
Qed.

Lemma evict_evicted : evicted max_size P t P' t'.
Proof.
  pose proof (ei_ok _ _ _ _ Hi) as Hok. split; simpl.
  - unfold counts. by rewrite dom_alter_L.
  - intros y k Hk Hle. assert (y <> x) as Hyx by (intros ->; specialize (Hover k Hk); lia).
    unfold counts. rewrite lookup_alter_ne by done. split; [done|].
    intros u. destruct (detached_owns P (heap t) x n d P' h' y u (ok_shape Hok) Hd D). naive_solver.
  - intros y u. by apply (detached_owns P (heap t) x n d P' h' y u (ok_shape Hok) Hd D).
Qed.

Lemma evict_entries (up : option (nat * N)) :
  (forall m, parent d = Some m -> leaf P' h' x m -> exists ts, up = Some (m, ts)) ->
  (forall m ts, up = Some (m, ts) -> parent d = Some m /\ leaf P' h' x m /\
      exists dm, h' !! m = Some dm /\ tenant_last_access_time dm !! x = Some ts) ->
  evict_inv max_size P' (match up with Some (m, ts) => MkEntry ts x m :: pq | None => pq end) t'.
Proof.
  intros Hup1 Hup2. destruct Hi as [Hok I2 I3 I4].
  assert (forall e', e' ∈ match up with Some (m, ts) => MkEntry ts x m :: pq | None => pq end ->
    e' ∈ pq \/ exists m ts, up = Some (m, ts) /\ e' = MkEntry ts x m) as Hsplit.
  { intros e' He'. destruct up as [[m ts]|]; [|auto]. apply elem_of_cons in He' as [->|]; eauto. }
  split.
  - apply evict_tree_ok.
  - intros e' [He'|(m & ts & E & ->)]%Hsplit; simpl.
    + apply (dt_dom _ _ _ _ _ _ _ D), I2. set_solver.
    + destruct (Hup2 m ts E) as (_ & _ & dm & Hdm & _). eauto.
  - intros e' dm' [He'|(m & ts & E & ->)]%Hsplit Hdm' Hy; simpl in *.
    + destruct (proj1 (dt_dom _ _ _ _ _ _ _ D (entry_node e'))) as [dm Hdm]; [by exists dm'|].
      destruct (proj1 (detached_holds _ _ _ _ _ _ _ _ _ _ _ D Hdm Hdm') Hy) as [Hy0 Hne].
      destruct (I3 e' dm) as [[q' Hq'] Hts]; [set_solver|done..|]. split.
      * destruct (decide (entry_node e' = n)) as [En|]; [|rewrite (dt_kept _ _ _ _ _ _ _ D _ q'); eauto].
        destruct (P' !! entry_node e') eqn:E; [eauto|]. exfalso. apply Hne. split; [done|]. rewrite En in *.
        apply (dt_gone _ _ _ _ _ _ _ D E). congruence.
      * destruct (dt_node _ _ _ _ _ _ _ D _ _ _ Hdm Hdm') as (_ & Et & _). by rewrite Et, decide_False.
    + destruct (Hup2 m ts E) as (_ & (q' & dm & Hq' & Hdm & _) & dm1 & Hdm1 & Hts).
      assert (dm1 = dm') as -> by congruence. split; [eauto|done].
  - intros y m Hl Ho.
    destruct (detached_leaf P (heap t) x n d P' h' y m (ok_shape Hok) D Hd Hx Hl) as [Hl'|[-> Hp]].
    + destruct (I4 y m Hl') as (e' & [->|He']%elem_of_cons & <- & <-).
      * intros k Hk. destruct (decide (y = x)) as [->|Hyx]; [by apply Hover|].
        apply Ho. simpl. unfold counts. by rewrite lookup_alter_ne.
      * exfalso. by apply (detached_not_leaf _ _ _ _ _ _ _ D).
      * exists e'. split; [|done]. destruct up as [[]|]; set_solver.
    + destruct (Hup1 m Hp Hl) as [ts ->]. exists (MkEntry ts x m). split; [left|done].
Qed.
End evict_one.

Lemma within_spec max_size t x :
  match tenant_char_count t !! x with Some used_size => used_size <=? max_size | None => false end = true <->
  ~ over max_size t x.
Proof.
  unfold over. destruct (tenant_char_count t !! x) as [k|]; split.
  - intros Hk%Nat.leb_le Ho. specialize (Ho k eq_refl). lia.
  - intros Ho. destruct (Nat.leb_spec k max_size) as [|Hlt]; [done|]. destruct Ho. by intros ? [= <-].
  - done.
  - intros Ho. by destruct Ho.
Qed.

(** One round: either the entry is dropped, or its tenant is over the budget and
    its node a leaf for it, and the tenant is taken from the node. *)
Lemma evict_step_ok max_size P e pq t : evict_inv max_size P (e :: pq) t ->
  exists P' pq' t', evict_step max_size e pq t = Some (pq', t') /\ evict_inv max_size P' pq' t' /\
    evicted max_size P t P' t' /\
    length pq' + 2 * attachments (heap t') < length (e :: pq) + 2 * attachments (heap t) /\
    ((pq', t') = (pq, t) \/ leaf P (heap t) (entry_tenant e) (entry_node e) /\ over max_size t (entry_tenant e)).
Proof.
  intros Hi. pose proof (ei_ok _ _ _ _ Hi) as Hok. unfold evict_step.
  destruct (ei_node _ _ _ _ Hi e) as [d Hd]; [left|]. rewrite Hd. cbn [mbind option_bind].
  assert (forall Q : Prop, (leaf P (heap t) (entry_tenant e) (entry_node e) -> ~ over max_size t (entry_tenant e)) ->
    exists P' pq' t', Some (pq, t) = Some (pq', t') /\ evict_inv max_size P' pq' t' /\
    evicted max_size P t P' t' /\
    length pq' + 2 * attachments (heap t') < length (e :: pq) + 2 * attachments (heap t) /\
    ((pq', t') = (pq, t) \/ Q)) as Hdrop.
  { intros Q Hdrop. exists P, pq, t. split_and!; [done|by apply (evict_inv_drop max_size P e)|apply evicted_refl|simpl; lia|auto]. }
  destruct (match tenant_char_count t !! _ with Some _ => _ | None => _ end) eqn:Hw.
  { apply Hdrop. intros _. by apply within_spec. }
  assert (over max_size t (entry_tenant e)) as Hover.
  { intros k Hk. rewrite Hk in Hw. by apply Nat.leb_gt. }
  destruct (negb _) eqn:Hl.
  { apply Hdrop. intros (q & d0 & _ & Hd0 & Hx & Hch). assert (d0 = d) as -> by congruence.
    rewrite (proj2 (has_tenant_spec _ d) Hx) in Hl. rewrite <- has_child_spec, not_true_iff_false in Hch.
    by rewrite Hch in Hl. }
  apply negb_false_iff, andb_true_iff in Hl as [Hx%has_tenant_spec Hch%negb_true_iff].
  assert (~ child_with (heap t) (entry_tenant e) d) as Hch' by (rewrite <- has_child_spec; congruence).
  destruct (ei_entry _ _ _ _ Hi e d) as [[q Hq] _]; [left|done..|].
  destruct (detach_ok P (heap t) (entry_tenant e) (entry_node e) q d (ok_shape Hok) Hq Hd Hx Hch')
    as (P' & h' & up & -> & D & Hup1 & Hup2). cbn [mbind option_bind].
  exists P'. eexists _, _. split; [done|]. split_and!.
  - by apply (evict_entries Hi Hq Hd Hx Hover D).
  - by apply (evict_evicted Hi Hd Hover D).
  - simpl. pose proof (dt_measure _ _ _ _ _ _ _ D). destruct up as [[]|]; simpl; lia.
  - right. split; [|done]. by exists q, d.
Qed.

Lemma evict_inv_perm max_size P pq pq' t : pq ≡ₚ pq' -> evict_inv max_size P pq t -> evict_inv max_size P pq' t.
Proof.
  intros HP [I1 I2 I3 I4]. split; [done| | |].
  - intros e. rewrite <- HP. apply I2.
  - intros e d. rewrite <- HP. apply I3.
  - intros x n Hl Ho. destruct (I4 x n Hl Ho) as (e & He & ?). exists e. by rewrite <- HP.
Qed.

Lemma used_pos P h x : used P h x <> 0 -> exists n q, P !! n = Some q /\ weight h x n <> 0.
Proof.
  induction P as [|n q P Hn IH] using map_ind; intros E; [done|]. rewrite used_insert in E by done.
  destruct (decide (weight h x n = 0)) as [Hw|Hw].
  - destruct IH as (m & q' & Hm & Hw'); [lia|]. exists m, q'. rewrite lookup_insert_ne by congruence. done.
  - exists n, q. by rewrite lookup_insert_eq.
Qed.

(** With no entry left, every tenant is within its budget. *)
Lemma evict_inv_nil max_size P t x k :
  evict_inv max_size P [] t -> tenant_char_count t !! x = Some k -> k <= max_size.
Proof.
  intros [Hok _ _ I4] Hk. destruct (decide (k <= max_size)) as [|Hgt]; [done|]. exfalso.
  assert (exists n q d, P !! n = Some q /\ heap t !! n = Some d /\ holds d x) as (n & q & d & Hn & Hd & Hx).
  { destruct (used_pos P (heap t) x) as (n & q & Hn & Hw); [rewrite <- (ok_count Hok x k Hk); lia|].
    unfold weight in Hw. destruct (heap t !! n) as [d|] eqn:Hd; [|done]. exists n, q, d.
    split_and!; [done..|]. apply has_tenant_spec. by destruct (has_tenant x d). }
  destruct (holder_leaf P (heap t) x n q d (ok_shape Hok) Hn Hd Hx) as [m Hm].
  destruct (I4 x m Hm) as (e & He & _); [|set_solver]. intros k' Hk'. assert (k' = k) as -> by congruence. lia.
Qed.

Lemma evict_loop_ok max_size fuel : forall P pq t,
  evict_inv max_size P pq t -> length pq + 2 * attachments (heap t) <= fuel ->
  exists P' t', evict_loop fuel max_size pq t = Some t' /\ evict_inv max_size P' [] t' /\
    evicted max_size P t P' t'.
Proof.
  induction fuel as [|fuel IH]; intros P pq t Hi Hf.
  - destruct pq; [|simpl in Hf; lia]. exists P, t. simpl. destruct (pop []) as [[e pq']|] eqn:E.
    + apply pop_some in E as [E _]. by apply Permutation_nil_cons in E.
    + split_and!; [done..|apply evicted_refl].
  - simpl. destruct (pop pq) as [[e pq1]|] eqn:E.
    + apply pop_some in E as [E _]. apply (evict_inv_perm _ _ _ _ _ E) in Hi. rewrite E in Hf.
      destruct (evict_step_ok max_size P e pq1 t Hi) as (P1 & pq2 & t1 & -> & Hi1 & Hev & Hm & _).
      cbn [mbind option_bind]. destruct (IH P1 pq2 t1 Hi1) as (P' & t' & E' & Hi' & Hev'); [lia|].
      exists P', t'. split_and!; [done..|by apply (evicted_trans _ _ _ P1 t1)].
    + apply pop_none in E as ->. exists P, t. split_and!; [done..|apply evicted_refl].
Qed.

Lemma visit_leaves h (l : list nat) acc e :
  e ∈ visit_all (fun n d acc =>
    foldl (fun acc x => match tenant_last_access_time d !! x with
                        | Some ts => MkEntry ts x n :: acc | None => acc end) acc (leaf_of h d)) h l acc <->
  e ∈ acc \/ exists d, entry_node e ∈ l /\ h !! entry_node e = Some d /\ entry_tenant e ∈ leaf_of h d /\
    tenant_last_access_time d !! entry_tenant e = Some (timestamp e).
Proof.
  assert (forall n d xs acc', e ∈ foldl (fun acc x => match tenant_last_access_time d !! x with
    | Some ts => MkEntry ts x n :: acc | None => acc end) acc' xs <->
    e ∈ acc' \/ entry_node e = n /\ entry_tenant e ∈ xs /\
      tenant_last_access_time d !! entry_tenant e = Some (timestamp e)) as Hin.
  { intros n d xs. induction xs as [|x xs IH]; intros acc'; simpl; [set_solver|]. rewrite IH.
    destruct (tenant_last_access_time d !! x) as [ts|] eqn:E.
    - rewrite !elem_of_cons. destruct e as [ts' x' n']. simpl. naive_solver.
    - rewrite elem_of_cons. naive_solver. }
  revert acc. induction l as [|n l IH]; intros acc; [set_solver|]. unfold visit_all in *. simpl. rewrite IH.
  setoid_rewrite elem_of_cons. destruct (h !! n) as [d|] eqn:E; [rewrite Hin|]; split.
  - intros [[|(<- & H1 & H2)]|(d' & H1 & H2)]; [auto|right; exists d; auto|right; exists d'; auto].
  - intros [|(d' & [->|H1] & H2 & H3 & H4)]; [auto| |right; exists d'; auto].
    assert (d' = d) as -> by congruence. auto.
  - intros [|(d' & H1 & H2)]; [auto|right; exists d'; auto].
  - intros [|(d' & [->|H1] & H2 & H3)]; [auto|congruence|right; exists d'; auto].
Qed.

Lemma collect_leaves_ok max_size P t : tree_ok P t ->
  exists pq, collect_leaves t = Some pq /\ evict_inv max_size P pq t.
Proof.
  intros Hok. pose proof (ok_shape Hok) as Hs. unfold collect_leaves.
  destruct (dfs_all Hs (fun n d acc => foldl (fun acc x => match tenant_last_access_time d !! x with
    | Some ts => MkEntry ts x n :: acc | None => acc end) acc (leaf_of (heap t) d)) []) as (l & -> & Hl).
  eexists. split; [done|].
  assert (forall m, m ∈ l <-> is_Some (P !! m)) as Hin.
  { intros m. rewrite Hl, list_elem_of_fmap. split.
    - intros ([m' q] & -> & Hm%elem_of_map_to_list). by exists q.
    - intros [q Hq]. exists (m, q). by rewrite elem_of_map_to_list. }
  split; [done|..].
  - intros e [?|(d & _ & Hd & _)]%visit_leaves; [set_solver|eauto].
  - intros e d [?|(d' & Hn & Hd' & _ & Hts)]%visit_leaves Hd Hx; [set_solver|].
    apply Hin in Hn. split; [done|congruence].
  - intros x n (q & d & Hn & Hd & Hx & Hch) _. destruct (proj1 (iff_refl (holds d x)) Hx) as [ts Hts].
    exists (MkEntry ts x n). split; [|done]. apply visit_leaves. right. exists d. simpl.
    split_and!; [apply Hin; eauto|done| |done]. by apply leaf_of_spec.
Qed.

Lemma evict_ok max_size P t : tree_ok P t ->
  exists P' t', evict_tenant_by_size max_size t = Some t' /\ tree_ok P' t' /\ evicted max_size P t P' t' /\
    forall x k, tenant_char_count t' !! x = Some k -> k <= max_size.
Proof.
  intros Hok. unfold evict_tenant_by_size. destruct (collect_leaves_ok max_size P t Hok) as (pq & -> & Hi).
  cbn [mbind option_bind].
  destruct (evict_loop_ok max_size (length pq + 2 * attachments (heap t)) P pq t Hi) as (P' & t' & -> & Hi' & Hev); [done|].
  exists P', t'. split_and!; [done|apply (ei_ok _ _ _ _ Hi')|done|].
  intros x k. by apply (evict_inv_nil max_size P').
Qed.
End unordered.
