(* ===== verification/PrefixTreeSpec.v ===== *)
(** * What the prefix tree promises ([src/tree.rs])

    The specification knows no nodes: every registered tenant owns a finite set
    of texts.  The theorems show that every sequence of calls returns and leaves
    a tree that represents the specified sets, that a tenant's character count is
    the size of its set, what the matches find, that the budget of
    [insert_capped] holds, and in which order eviction takes leaves. *)

From S2P Require Import Prelude TreeText PrefixTree PrefixTreeUpdate PrefixTreeRemove.

(** ** Specification *)

Abbreviation Abs := (gmap string (gset str)).

(** The nonempty prefixes of a text. *)
Definition prefixes (s : str) : list str := (fun i => take (S i) s) <$> seq 0 (length s).

Definition abs_insert (s : str) (x : string) (A : Abs) : Abs :=
  <[x := default ∅ (A !! x) ∪ list_to_set (prefixes s)]> A.

Definition at_budget (max_chars : nat) (x : string) (A : Abs) : bool :=
  (max_chars =? 0) || match A !! x with Some T => max_chars <=? size T | None => false end.

(** The length of the longest prefix of [s] in the set. *)
Definition longest (T : gset str) (s : str) : nat :=
  foldr max 0 (filter (fun i => take i s ∈ T) (seq 1 (length s))).

(** What any tenant owns. *)
Definition all_texts (A : Abs) : gset str := ⋃ (map_to_list A).*2.

Inductive tree_op :=
| OpInsert (s : str) (x : string)
| OpInsertCapped (s : str) (x : string) (max_chars : nat)
| OpMatch (s : str)
| OpMatchTenant (s : str) (x : string)
| OpRemove (x : string)
| OpEvict (max_size : nat).

Inductive abs_step : tree_op -> Abs -> Abs -> Prop :=
| StepInsert s x A : abs_step (OpInsert s x) A (abs_insert s x A)
| StepCapped s x max_chars A :
    abs_step (OpInsertCapped s x max_chars) A
      (if at_budget max_chars x A then A else abs_insert s x A)
| StepMatch s A : abs_step (OpMatch s) A A
| StepMatchTenant s x A : abs_step (OpMatchTenant s x) A A
| StepRemove x A : abs_step (OpRemove x) A (delete x A)
| StepEvict max_size A A' :
    dom A' = dom A ->
    (forall x T T', A !! x = Some T -> A' !! x = Some T' ->
      T' ⊆ T /\ size T' <= max_size /\ (size T <= max_size -> T' = T)) ->
    abs_step (OpEvict max_size) A A'.

Inductive abs_run : list tree_op -> Abs -> Abs -> Prop :=
| run_nil A : abs_run [] A A
| run_cons op ops A A1 A2 : abs_step op A A1 -> abs_run ops A1 A2 -> abs_run (op :: ops) A A2.

Section unordered.
Context `{U : Unordered}.

Definition run_op (op : tree_op) (st : N * Tree) : option (N * Tree) :=
  let '(counter, t) := st in
  match op with
  | OpInsert s x => insert s x counter t
  | OpInsertCapped s x max_chars =>
      '(_, counter, t) ← insert_capped s x max_chars counter t; Some (counter, t)
  | OpMatch s => '(_, counter, t) ← prefix_match_with_counts s counter t; Some (counter, t)
  | OpMatchTenant s x => '(_, counter, t) ← prefix_match_tenant s x counter t; Some (counter, t)
  | OpRemove x => t ← remove_tenant x t; Some (counter, t)
  | OpEvict max_size => t ← evict_tenant_by_size max_size t; Some (counter, t)
  end.

Fixpoint run_ops (ops : list tree_op) (st : N * Tree) : option (N * Tree) :=
  match ops with
  | [] => Some st
  | op :: ops => st ← run_op op st; run_ops ops st
  end.

End unordered.

(** The tree [t] stores the sets [A]; the sets are closed under prefixes. *)
Record represents (A : Abs) (t : Tree) : Prop := {
  rep_ok : exists P, tree_ok P t /\ forall x T, A !! x = Some T ->
    forall u, u ∈ T <-> u <> [] /\ owns P (heap t) x u;
  rep_count : forall x, tenant_char_count t !! x = size <$> A !! x;
}.

(** ** Counting what a tenant owns *)

(** The texts that end on the edge of a node the tenant holds. *)
Definition edge_texts (h : gmap nat Node) (x : string) (n : nat) (q : str) : list str :=
  match h !! n with
  | Some d => if has_tenant x d
              then (fun i => take (S i) q) <$> seq (length q - length (node_text (text d))) (length (node_text (text d)))
              else []
  | None => []
  end.

Lemma edge_texts_length h x n q : length (edge_texts h x n q) = weight h x n.
Proof.
  unfold edge_texts, weight. repeat case_match; [|done..]. by rewrite length_fmap, length_seq.
Qed.

Lemma used_length P h x : used P h x = length (map_to_list P ≫= fun nq => edge_texts h x nq.1 nq.2).
Proof.
  induction P as [|n q P Hn IH] using map_ind; [done|].
  rewrite used_insert, map_to_list_insert by done. rewrite bind_cons, length_app, edge_texts_length, IH. done.
Qed.

Lemma text_le_path P h n q d : shape P h -> P !! n = Some q -> h !! n = Some d ->
  length (node_text (text d)) <= length q.
Proof.
  intros Hs Hn Hd. destruct (decide (n = root_addr)) as [->|Hne].
  - destruct (sh_root Hs) as (r & Hr & _ & Ht & _). assert (r = d) as -> by congruence. rewrite Ht. simpl. lia.
  - destruct (sh_up Hs _ _ _ Hn Hd Hne) as (p & ps & pd & c & L). rewrite (l_text L), length_app. lia.
Qed.

Lemma edge_texts_elem P h x n q u : shape P h -> P !! n = Some q ->
  u ∈ edge_texts h x n q -> (exists d, h !! n = Some d /\ holds d x) /\ covers (P := P) (h := h) n u /\
    u `prefix_of` q /\ u <> [].
Proof.
  intros Hs Hn. unfold edge_texts. destruct (h !! n) as [d|] eqn:Hd; [|set_solver].
  destruct (has_tenant x d) eqn:Hx; [|set_solver]. apply has_tenant_spec in Hx.
  rewrite list_elem_of_fmap. intros (i & -> & Hi%elem_of_seq). split; [eauto|].
  destruct (decide (n = root_addr)) as [->|Hne].
  { destruct (sh_root Hs) as (r & Hr & _ & Ht & _). assert (r = d) as -> by congruence.
    rewrite Ht in Hi. simpl in Hi. lia. }
  destruct (shape_up Hs n q Hn Hne) as (d0 & p & ps & pd & c & rest & Hd0 & L & _).
  assert (d0 = d) as -> by congruence. pose proof (l_text L) as E. rewrite E, length_app in Hi.
  assert (length (take (S i) q) = S i) as Hlen by (rewrite length_take, E, length_app; lia).
  split_and!.
  - exists q, d, p, ps, pd, c. split_and!; [done..|lia|apply prefix_take].
  - apply prefix_take.
  - intros Hnil. by rewrite Hnil in Hlen.
Qed.

Lemma edge_texts_covers P h x n q d u p ps pd c : P !! n = Some q -> h !! n = Some d -> holds d x ->
  linked P h n q d p ps pd c -> length ps < length u -> u `prefix_of` q -> u ∈ edge_texts h x n q.
Proof.
  intros Hn Hd Hx L Hlt Hp. unfold edge_texts. rewrite Hd, (proj2 (has_tenant_spec x d) Hx).
  apply list_elem_of_fmap. exists (length u - 1). pose proof (prefix_length _ _ Hp).
  pose proof (l_text L) as E. pose proof (f_equal length E) as El. rewrite length_app in El. split.
  - replace (S (length u - 1)) with (length u) by lia. destruct Hp as [k ->]. by rewrite take_app_length.
  - apply elem_of_seq. lia.
Qed.

(** A text that a tenant owns ends on an edge of a node the tenant holds. *)
Lemma owns_covered P h x u : shape P h -> owns P h x u -> u <> [] ->
  exists n q d p ps pd c, P !! n = Some q /\ h !! n = Some d /\ holds d x /\ linked P h n q d p ps pd c /\
    length ps < length u /\ u `prefix_of` q.
Proof.
  intros Hs (n & q & d & Hn & Hd & Hx%has_tenant_spec & Hp) Hu.
  remember (length q) as k eqn:Hk. revert n q d Hk Hn Hd Hx Hp.
  induction k as [k IH] using lt_wf_ind. intros n q d -> Hn Hd Hx Hp.
  destruct (decide (n = root_addr)) as [->|Hne].
  { destruct (sh_root Hs) as (r & _ & _ & _ & HP). assert (q = []) as -> by congruence.
    by apply prefix_nil_inv in Hp. }
  destruct (sh_up Hs _ _ _ Hn Hd Hne) as (p & ps & pd & c & L).
  destruct (decide (length ps < length u)) as [|Hge]; [by exists n, q, d, p, ps, pd, c|].
  refine (IH (length ps) (linked_length _ _ _ _ _ _ _ _ _ L) p ps pd eq_refl (l_path L) (l_node L) (l_tenants L _ Hx) _).
  apply prefix_of_shorter with q; [done| |lia]. rewrite (l_text L). by apply prefix_app_r.
Qed.

(** The characters a tenant uses are as many as the texts it owns. *)
Lemma used_size (P : gmap nat str) (h : gmap nat Node) (x : string) (T : gset str) : shape P h ->
  (forall u, u ∈ T <-> u <> [] /\ owns P h x u) -> used P h x = size T.
Proof.
  intros Hs HT. rewrite used_length. set (l := _ ≫= _).
  assert (NoDup l) as Hnd.
  { apply NoDup_bind; [| |apply NoDup_map_to_list].
    - intros [n1 q1] [n2 q2] u H1%elem_of_map_to_list H2%elem_of_map_to_list Hu1 Hu2. simpl in *.
      destruct (edge_texts_elem P h x n1 q1 u Hs H1 Hu1) as (_ & C1 & _).
      destruct (edge_texts_elem P h x n2 q2 u Hs H2 Hu2) as (_ & C2 & _).
      pose proof (covers_unique Hs u n1 n2 C1 C2) as ->. congruence.
    - intros [n q] Hn%elem_of_map_to_list. simpl. unfold edge_texts. destruct (h !! n) as [d|] eqn:Hd; [|constructor].
      destruct (has_tenant x d); [|constructor]. apply NoDup_fmap_2_strong; [|apply NoDup_seq].
      pose proof (text_le_path P h n q d Hs Hn Hd).
      intros i j Hi%elem_of_seq Hj%elem_of_seq E. apply (f_equal length) in E. rewrite !length_take in E. lia. }
  assert (T = list_to_set l) as ->; [|by rewrite size_list_to_set].
  apply set_eq. intros u. rewrite HT, elem_of_list_to_set. unfold l. rewrite list_elem_of_bind. split.
  - intros [Hu Ho]. destruct (owns_covered P h x u Hs Ho Hu) as (n & q & d & p & ps & pd & c & Hn & Hd & Hx & L & Hl & Hp).
    exists (n, q). rewrite elem_of_map_to_list. split; [|done]. by apply (edge_texts_covers P h x n q d u p ps pd c).
  - intros ([n q] & Hu & Hn%elem_of_map_to_list). simpl in *.
    destruct (edge_texts_elem P h x n q u Hs Hn Hu) as ((d & Hd & Hx) & _ & Hp & Hne). split; [done|].
    exists n, q, d. by rewrite has_tenant_spec.
Qed.

Lemma elem_of_prefixes s u : u ∈ prefixes s <-> u <> [] /\ u `prefix_of` s.
Proof.
  unfold prefixes. rewrite list_elem_of_fmap. split.
  - intros (i & -> & Hi%elem_of_seq). split; [|apply prefix_take]. by destruct s; [simpl in Hi; lia|].
  - intros [Hne Hp]. exists (length u - 1). pose proof (prefix_length _ _ Hp).
    assert (length u <> 0) by (by destruct u). split.
    + replace (S (length u - 1)) with (length u) by lia. destruct Hp as [k ->]. by rewrite take_app_length.
    + apply elem_of_seq. lia.
Qed.

(** ** Trees and the sets they represent *)

Lemma represents_intro A P t : tree_ok P t -> dom A = dom (tenant_char_count t) ->
  (forall x T, A !! x = Some T -> forall u, u ∈ T <-> u <> [] /\ owns P (heap t) x u) -> represents A t.
Proof.
  intros Hok Hdom HA. split; [eauto|]. intros x. destruct (A !! x) as [T|] eqn:E; simpl.
  - assert (x ∈ dom (tenant_char_count t)) as [k Hk]%elem_of_dom by (rewrite <- Hdom; by eapply elem_of_dom_2).
    rewrite Hk. f_equal. rewrite (ok_count Hok x k Hk). by apply used_size; [apply (ok_shape Hok)|apply HA].
  - apply not_elem_of_dom. rewrite <- Hdom. by apply not_elem_of_dom.
Qed.

Lemma represents_dom A t : represents A t -> dom A = dom (tenant_char_count t).
Proof.
  intros [_ Hc]. apply set_eq. intros x. rewrite !elem_of_dom, Hc. by rewrite fmap_is_Some.
Qed.

(** Matches keep everything but the empty text at the root. *)
Lemma represents_same A P t P' t' : represents A t -> tree_ok P' t' ->
  tenant_char_count t' = tenant_char_count t -> tree_ok P t ->
  (forall x T, A !! x = Some T -> forall u, u ∈ T <-> u <> [] /\ owns P (heap t) x u) ->
  (forall y u, u <> [] -> owns P' (heap t') y u <-> owns P (heap t) y u) -> represents A t'.
Proof.
  intros Hr Hok Hc _ HA Ho. apply (represents_intro A P' t' Hok).
  - by rewrite Hc, <- (represents_dom A t Hr).
  - intros x T HT u. rewrite (HA x T HT u). split; intros [Hu Hou]; split; (done || by apply Ho).
Qed.

(** A tenant that is not registered owns no text. *)
Lemma unregistered_owns P t x u : tree_ok P t -> tenant_char_count t !! x = None -> u <> [] ->
  ~ owns P (heap t) x u.
Proof.
  intros Hok Hx Hu Ho.
  destruct (owns_covered P (heap t) x u (ok_shape Hok) Ho Hu) as (n & q & d & p & ps & pd & c & Hn & Hd & Hxd & L & _).
  assert (n <> root_addr) as Hne.
  { intros ->. destruct (sh_root (ok_shape Hok)) as (r & Hr & Hp & _). pose proof (l_parent L). congruence. }
  destruct (ok_registered Hok n q d x Hn Hd Hne Hxd). congruence.
Qed.

Lemma insert_represents A t s x counter : represents A t ->
  exists t', insert s x counter t = Some (u64_wrapping_add counter 1, t') /\ represents (abs_insert s x A) t'.
Proof.
  intros Hr. destruct (rep_ok _ _ Hr) as (P & Hok & HA).
  destruct (insert_ok P t s x counter Hok) as (P' & t' & E & Hok' & Hdom & Ho). exists t'. split; [done|].
  apply (represents_intro _ P'); [done| |].
  - unfold abs_insert. rewrite dom_insert_L, Hdom. by rewrite (represents_dom A t Hr).
  - intros y T. unfold abs_insert. intros [[<- <-]|[Hne HT]]%lookup_insert_Some u.
    + rewrite elem_of_union, elem_of_list_to_set, elem_of_prefixes, Ho.
      destruct (A !! x) as [T|] eqn:ET; simpl; [rewrite (HA x T ET); naive_solver|].
      assert (tenant_char_count t !! x = None) as Hnone by (by rewrite (rep_count _ _ Hr), ET).
      pose proof (unregistered_owns P t x u Hok Hnone). set_solver.
    + rewrite (HA y T HT), Ho. naive_solver.
Qed.

Section unordered.
Context `{U : Unordered}.

(** Whether a tenant owns a text, asked of the tree. *)
Lemma owns_query P t x u : tree_ok P t -> u <> [] ->
  prefix_match_tenant_char_count u x t = Some (length u) <-> owns P (heap t) x u.
Proof.
  intros Hok Hu. unfold prefix_match_tenant_char_count.
  destruct (prefix_match_tenant_ok P t u x Hok) as (k & n & q & d & -> & _ & _ & Hk & Hown & Hmax). simpl. split.
  - intros [= ->]. destruct Hown as [H0|Ho]; [by destruct u|]. by rewrite take_ge in Ho.
  - intros Ho. specialize (Hmax u (reflexivity u) Ho). f_equal. lia.
Qed.

Lemma evict_represents A t max_size : represents A t ->
  exists A' t', evict_tenant_by_size max_size t = Some t' /\ abs_step (OpEvict max_size) A A' /\ represents A' t'.
Proof.
  intros Hr. destruct (rep_ok _ _ Hr) as (P & Hok & HA).
  destruct (evict_ok max_size P t Hok) as (P' & t' & E & Hok' & [Hdom Hwithin Howns] & Hmax).
  set (keep := fun x (T : gset str) => filter (fun u => prefix_match_tenant_char_count u x t' = Some (length u)) T).
  set (A' := map_imap (fun x T => Some (keep x T)) A).
  assert (forall x, A' !! x = keep x <$> A !! x) as HA'.
  { intros x. unfold A'. rewrite map_lookup_imap. by destruct (A !! x). }
  assert (dom A' = dom A) as Hd.
  { apply set_eq. intros x. by rewrite !elem_of_dom, HA', fmap_is_Some. }
  assert (represents A' t') as Hr'.
  { apply (represents_intro A' P'); [done|by rewrite Hd, Hdom, (represents_dom A t Hr)|].
    intros x T'. rewrite HA'. intros (T & HT & ->)%fmap_Some u. unfold keep. rewrite elem_of_filter, (HA x T HT).
    split.
    - intros (Hq & Hu & _). split; [done|]. by apply (owns_query P' t' x u Hok' Hu).
    - intros [Hu Ho]. split_and!; [by apply (owns_query P' t' x u Hok' Hu)|done|by apply Howns]. }
  exists A', t'. split_and!; [done| |done]. constructor; [done|].
  intros x T T' HT HT'. pose proof (rep_count _ _ Hr' x) as Hc'. rewrite HT' in Hc'. simpl in Hc'.
  rewrite HA', HT in HT'. injection HT' as <-. split_and!; [unfold keep; set_solver|by apply (Hmax x)|].
  intros Hle. pose proof (rep_count _ _ Hr x) as Hc. rewrite HT in Hc. destruct (Hwithin x _ Hc Hle) as [_ Ho].
  apply set_eq. intros u. unfold keep. rewrite elem_of_filter, (HA x T HT). split; [naive_solver|].
  intros [Hu Hou]. split; [|done]. apply (owns_query P' t' x u Hok' Hu). by apply Ho.
Qed.

(** ** Every call returns and does what is specified *)

Lemma step_represents op A counter t : represents A t ->
  exists counter' t' A', run_op op (counter, t) = Some (counter', t') /\ abs_step op A A' /\ represents A' t'.
Proof.
  intros Hr. destruct (rep_ok _ _ Hr) as (P & Hok & HA). destruct op as [s x|s x max_chars|s|s x|x|max_size]; simpl.
  - destruct (insert_represents A t s x counter Hr) as (t' & -> & Hr').
    eexists _, t', _. split_and!; [done|constructor|done].
  - unfold insert_capped. exists (if at_budget max_chars x A then counter else u64_wrapping_add counter 1).
    pose proof (rep_count _ _ Hr x) as Hc.
    assert (at_budget max_chars x A = (max_chars =? 0) ||
      match tenant_char_count t !! x with Some count => max_chars <=? count | None => false end) as Eb.
    { unfold at_budget. rewrite Hc. by destruct (A !! x). }
    pose proof (StepCapped s x max_chars A) as Hstep. rewrite Eb in *.
    destruct (max_chars =? 0); simpl; [by exists t, A|].
    destruct (match tenant_char_count t !! x with Some _ => _ | None => _ end); simpl; [by exists t, A|].
    destruct (insert_represents A t s x counter Hr) as (t' & -> & Hr'). simpl. by exists t', (abs_insert s x A).
  - destruct (prefix_match_ok P t s counter Hok) as (r & t' & -> & Hok' & Hc & Ho & _). simpl.
    exists (u64_wrapping_add counter 1), t', A. split_and!; [done|constructor|].
    by apply (represents_same A P t P t').
  - unfold prefix_match_tenant.
    destruct (prefix_match_tenant_ok P t s x Hok) as (k & n & q & d & -> & Hn & Hd & _). simpl. rewrite Hd. simpl.
    rewrite take_chars_take. simpl. destruct (has_tenant x d) eqn:Hx; simpl.
    + eexists _, _, A. split_and!; [done|constructor|].
      destruct (touch_ok Hok n q d (set_tenants (<[x := counter]> (tenant_last_access_time d)) d)) as [H1 H2]; [done..| |].
      { apply has_tenant_spec in Hx. intros y. rewrite holds_insert. naive_solver. }
      apply (represents_same A P t P); try done.
    + exists counter, t, A. split_and!; [done|constructor|done].
  - destruct (remove_tenant_ok P t x Hok) as (P' & t' & -> & Hok' & Hc & Hgone & Ho). simpl.
    exists counter, t', (delete x A). split_and!; [done|constructor|].
    apply (represents_intro _ P'); [done|by rewrite Hc, !dom_delete_L, (represents_dom A t Hr)|].
    intros y T [Hne HT]%lookup_delete_Some u. rewrite (HA y T HT), Ho by done. done.
  - destruct (evict_represents A t max_size Hr) as (A' & t' & -> & Hstep & Hr'). simpl. by exists counter, t', A'.
Qed.

Lemma new_represents : represents ∅ new_tree.
Proof.
  apply (represents_intro ∅ {[ root_addr := [] ]}); [|done|].
  - split; simpl.
    + apply shape_iff. rewrite lookup_singleton_eq. split; [done|].
      intros n q [<- <-]%lookup_singleton_Some. exists root_node. rewrite lookup_singleton_eq.
      split_and!; [done..|by unfold up_ok; rewrite decide_True|]. intros c m. done.
    + intros n Hn. rewrite lookup_singleton_ne; [done|]. unfold root_addr. lia.
    + done.
    + intros n q d x [<- _]%lookup_singleton_Some. done.
  - intros x T. done.
Qed.

Lemma run_represents ops A counter t : represents A t ->
  exists counter' t' A', run_ops ops (counter, t) = Some (counter', t') /\ abs_run ops A A' /\ represents A' t'.
Proof.
  revert A counter t. induction ops as [|op ops IH]; intros A counter t Hr.
  - exists counter, t, A. split_and!; [done|constructor|done].
  - destruct (step_represents op A counter t Hr) as (c1 & t1 & A1 & E1 & Hs1 & Hr1).
    destruct (IH A1 c1 t1 Hr1) as (c2 & t2 & A2 & E2 & Hs2 & Hr2).
    exists c2, t2, A2. cbn [run_ops]. rewrite E1. simpl. split_and!; [done|by apply run_cons with A1|done].
Qed.

(** C10: Every sequence of insertions, capped insertions, matches, removals and
    evictions on a new tree returns, for every order in which maps iterate and
    equal timestamps are popped, and the tree then represents exactly the sets of
    texts the specification computes; the character count of every tenant is
    the number of texts it owns. *)
Theorem tree_refines ops counter :
  exists counter' t A, run_ops ops (counter, new_tree) = Some (counter', t) /\
    abs_run ops ∅ A /\ represents A t.
Proof. apply run_represents, new_represents. Qed.

(** ** Queries *)

Lemma foldr_max_spec l n : foldr max 0 l = n <-> (n = 0 \/ n ∈ l) /\ forall m, m ∈ l -> m <= n.
Proof.
  split.
  - intros <-. induction l as [|a l [IH1 IH2]]; simpl; [set_solver|]. split.
    + destruct (Nat.max_spec a (foldr max 0 l)) as [[_ ->]|[_ ->]]; [set_solver|right; left].
    + intros m [->|Hm]%elem_of_cons; [lia|]. specialize (IH2 m Hm). lia.
  - intros [Hn Hmax]. revert n Hn Hmax. induction l as [|a l IH]; intros n Hn Hmax; simpl; [set_solver|].
    pose proof (Hmax a ltac:(left)). destruct (decide (n ∈ l)) as [Hl|Hl].
    + rewrite (IH n); [lia|auto|]. intros m Hm. apply Hmax. by right.
    + assert (foldr max 0 l <= n) as Hle.
      { clear IH Hn Hl. induction l as [|b l IHl]; simpl; [lia|].
        pose proof (Hmax b ltac:(right; left)). assert (foldr max 0 l <= n); [|lia].
        apply IHl. intros m Hm. apply Hmax. set_solver. }
      destruct Hn as [->|[->|]%elem_of_cons]; [lia|lia|done].
Qed.

Lemma longest_eq (T : gset str) s k : k <= length s -> k = 0 \/ take k s ∈ T ->
  (forall u, u `prefix_of` s -> u ∈ T -> length u <= k) -> longest T s = k.
Proof.
  intros Hk Hin Hmax. apply foldr_max_spec. split.
  - destruct (decide (k = 0)) as [|Hne]; [auto|]. right. apply list_elem_of_filter.
    split; [by destruct Hin|]. apply elem_of_seq. lia.
  - intros m [Hm Hs%elem_of_seq]%list_elem_of_filter. specialize (Hmax _ (prefix_take s m) Hm).
    rewrite length_take in Hmax. lia.
Qed.

Lemma elem_of_all_texts (A : Abs) u : u ∈ all_texts A <-> exists x T, A !! x = Some T /\ u ∈ T.
Proof.
  unfold all_texts. rewrite elem_of_union_list. setoid_rewrite list_elem_of_fmap. split.
  - intros (T & ([x T'] & -> & HT%elem_of_map_to_list) & Hu). eauto.
  - intros (x & T & HT & Hu). exists T. split; [|done]. exists (x, T). by rewrite elem_of_map_to_list.
Qed.

Lemma fold_counts (kvs : list (string * N)) n (m : gmap string nat) x : NoDup kvs.*1 ->
  default 0 (foldl (fun acc (kv : string * N) => add_count kv.1 n acc) m kvs !! x) =
  default 0 (m !! x) + (if decide (x ∈ kvs.*1) then n else 0).
Proof.
  revert m. induction kvs as [|[y v] kvs IH]; intros m Hnd; simpl in *; [lia|].
  apply NoDup_cons in Hnd as [Hy Hnd]. rewrite IH by done. rewrite add_count_lookup.
  repeat case_decide; simpl; subst; try set_solver; lia.
Qed.

Lemma visit_sizes P h l (m : gmap string nat) x : shape P h -> (forall n, n ∈ l -> is_Some (P !! n)) ->
  default 0 (visit_all (fun _ d acc => foldl (fun acc kv => add_count kv.1 (char_count (text d)) acc) acc
    (iter (tenant_last_access_time d))) h l m !! x) =
  default 0 (m !! x) + sum_list (weight h x <$> l).
Proof.
  intros Hs. revert m. induction l as [|n l IH]; intros m Hl; [simpl; lia|].
  destruct (Hl n ltac:(left)) as [q Hq]. destruct (sh_node Hs _ _ Hq) as (d & Hd & Ht).
  unfold visit_all in *. cbn [foldl]. rewrite Hd, IH by (intros k Hk; apply Hl; by right).
  rewrite fold_counts by (rewrite iter_perm; apply NoDup_fst_map_to_list).
  cut ((if decide (x ∈ (iter (tenant_last_access_time d)).*1) then char_count (text d) else 0) = weight h x n).
  { intros ->. rewrite fmap_cons. simpl. lia. }
  rewrite (weight_node _ _ _ _ Hd).
  assert (char_count (text d) = length (node_text (text d))) as -> by (by rewrite Ht at 1).
  destruct (has_tenant x d) eqn:E; case_decide as Hk; try done; exfalso.
  - apply Hk, iter_keys, has_tenant_spec, E.
  - apply iter_keys, has_tenant_spec in Hk. congruence.
Qed.

Lemma used_sum P h x : used P h x = sum_list (weight h x <$> (map_to_list P).*1).
Proof.
  induction P as [|n q P Hn IH] using map_ind; [done|]. rewrite used_insert, IH by done.
  by rewrite (map_to_list_insert P n q Hn).
Qed.

(** A tenant owns a text when its set has it. *)
Lemma represents_owns A t : represents A t ->
  exists P, tree_ok P t /\ forall x u, u <> [] -> owns P (heap t) x u <-> exists T, A !! x = Some T /\ u ∈ T.
Proof.
  intros Hr. destruct (rep_ok _ _ Hr) as (P & Hok & HA). exists P. split; [done|]. intros x u Hu. split.
  - intros Ho. destruct (A !! x) as [T|] eqn:E; [exists T; split; [done|]; by apply (HA x T E)|].
    destruct (unregistered_owns P t x u Hok); [by rewrite (rep_count _ _ Hr), E|done..].
  - intros (T & HT & HuT). by apply (HA x T HT).
Qed.

Lemma take_nonempty {A} (s : list A) k : k <> 0 -> k <= length s -> take k s <> [].
Proof. intros Hk Hle E%(f_equal length). rewrite length_take in E. simpl in E. lia. Qed.

Lemma tenant_query A t s x : represents A t ->
  prefix_match_tenant_char_count s x t = Some (longest (default ∅ (A !! x)) s).
Proof.
  intros Hr. destruct (represents_owns A t Hr) as (P & Hok & Hown).
  unfold prefix_match_tenant_char_count.
  destruct (prefix_match_tenant_ok P t s x Hok) as (k & n & q & d & -> & _ & _ & Hk & Hin & Hmax). simpl. f_equal.
  symmetry. apply longest_eq; [done| |].
  - destruct (decide (k = 0)) as [|Hne]; [auto|]. right. destruct Hin as [|Ho]; [done|].
    by apply Hown in Ho as (T & -> & HT); [|by apply take_nonempty].
  - intros u Hu HuT. destruct (decide (u = [])) as [->|Hne]; [simpl; lia|]. apply Hmax; [done|]. apply Hown; [done|].
    destruct (A !! x) as [T|]; simpl in HuT; [eauto|set_solver].
Qed.

(** A match finds the longest prefix that a tenant owns, and an owner of it. *)
Lemma match_query A t s counter : represents A t ->
  exists r t', prefix_match_with_counts s counter t = Some (r, u64_wrapping_add counter 1, t') /\
    represents A t' /\ matched_char_count r = longest (all_texts A) s /\ input_char_count r = length s /\
    (0 < matched_char_count r -> exists T, A !! tenant r = Some T /\ take (matched_char_count r) s ∈ T).
Proof.
  intros Hr. destruct (represents_owns A t Hr) as (P & Hok & Hown).
  destruct (prefix_match_ok P t s counter Hok) as (r & t' & E & Hok' & Hc & Ho & Hi & Hk & Hin & Hmax).
  exists r, t'.
  assert (0 < matched_char_count r -> exists T, A !! tenant r = Some T /\ take (matched_char_count r) s ∈ T) as Hten.
  { intros Hpos. destruct Hin as [Hr1|[? _]]; [|lia]. apply Hown; [|done]. apply take_nonempty; lia. }
  split_and!; [done| | |done..].
  - apply (represents_intro A P t' Hok'); [by rewrite Hc, <- (represents_dom A t Hr)|].
    intros x T HT u. split.
    + intros Hu. destruct (rep_ok _ _ Hr) as (P1 & _ & HA1). pose proof (proj1 (proj1 (HA1 x T HT u) Hu)).
      split; [done|]. apply Ho, Hown; eauto.
    + intros [Hu Hou]. apply Ho, Hown in Hou as (T' & ? & ?); [|done..]. congruence.
  - symmetry. apply longest_eq; [done| |].
    + destruct (decide (matched_char_count r = 0)) as [|Hne]; [auto|]. right.
      destruct Hten as (T & HT & HuT); [lia|]. apply elem_of_all_texts. eauto.
    + intros u Hu (x & T & HT & HuT)%elem_of_all_texts. destruct (decide (u = [])) as [->|]; [simpl; lia|].
      apply (Hmax x); [done|]. apply Hown; eauto.
Qed.

(** What the queries of a tree find.  The match of one tenant is the length
    of the longest prefix of the text that the tenant owns; the match of any
    tenant is the longest prefix that some tenant owns, and the tenant it names
    owns it; the sizes computed by walking the tree are the numbers of owned
    texts. *)
Theorem tree_queries_exact A t s : represents A t ->
  (forall x, prefix_match_tenant_char_count s x t = Some (longest (default ∅ (A !! x)) s)) /\
  (forall counter, exists r counter' t', prefix_match_with_counts s counter t = Some (r, counter', t') /\
    matched_char_count r = longest (all_texts A) s /\ input_char_count r = length s /\
    (0 < matched_char_count r -> exists T, A !! tenant r = Some T /\ take (matched_char_count r) s ∈ T)) /\
  (exists sizes, get_used_size_per_tenant t = Some sizes /\
    forall x T, A !! x = Some T -> default 0 (sizes !! x) = size T).
Proof.
  intros Hr. split_and!.
  - intros x. by apply tenant_query.
  - intros counter. destruct (match_query A t s counter Hr) as (r & t' & E & _ & H). by eexists r, _, t'.
  - destruct (rep_ok _ _ Hr) as (P & Hok & HA). pose proof (ok_shape Hok) as Hs. unfold get_used_size_per_tenant.
    destruct (dfs_all Hs (fun _ d acc => foldl (fun acc kv => add_count kv.1 (char_count (text d)) acc) acc
      (iter (tenant_last_access_time d))) ∅) as (l & -> & Hl). eexists. split; [done|]. intros x T HT.
    rewrite (visit_sizes P); [|done|].
    + simpl. rewrite Hl, <- used_sum. apply used_size; [done|]. by apply HA.
    + intros n. rewrite Hl, list_elem_of_fmap. intros ([n' q] & -> & Hn%elem_of_map_to_list). by exists q.
Qed.

(** ** The budget of capped insertion *)

(** Calls that insert only with a budget, texts of at most [len] characters;
    tenants are registered with the empty text. *)
Definition budgeted (max_chars len : nat) (op : tree_op) : Prop :=
  match op with
  | OpInsert s _ => s = []
  | OpInsertCapped s _ m => m = max_chars /\ length s <= len
  | _ => True
  end.

Lemma prefixes_length s : length (prefixes s) = length s.
Proof. unfold prefixes. by rewrite length_fmap, length_seq. Qed.

Lemma abs_insert_size (s : str) (x : string) (A : Abs) :
  size (default ∅ (A !! x) ∪ list_to_set (prefixes s) : gset str) <= size (default ∅ (A !! x) : gset str) + length s.
Proof.
  rewrite size_union_alt. apply Nat.add_le_mono_l.
  transitivity (size (list_to_set (prefixes s) : gset str)); [apply subseteq_size; set_solver|].
  rewrite <- prefixes_length. clear. induction (prefixes s) as [|u l IH]; simpl; [done|].
  rewrite size_union_alt. transitivity (1 + size (list_to_set l ∖ {[ u ]} : gset str)); [by rewrite size_singleton|].
  simpl. apply le_n_S. transitivity (size (list_to_set l : gset str)); [apply subseteq_size; set_solver|done].
Qed.

Lemma abs_step_budget max_chars len op A A' : budgeted max_chars len op -> abs_step op A A' ->
  (forall x T, A !! x = Some T -> size T <= pred max_chars + len) ->
  forall x T, A' !! x = Some T -> size T <= pred max_chars + len.
Proof.
  intros Hb Hstep HA x T HT. destruct Hstep as [s y A|s y m A|s A|s y A|y A|m A A' Hd Hev]; simpl in Hb.
  - subst s. unfold abs_insert in HT. apply lookup_insert_Some in HT as [[-> <-]|[_ HT]]; [|by apply (HA x)].
    pose proof (abs_insert_size [] x A) as Hs. etransitivity; [exact Hs|]. rewrite Nat.add_0_r.
    destruct (A !! x) as [T|] eqn:E; [by apply (HA x T)|]. apply Nat.le_0_l.
  - destruct Hb as [-> Hlen]. destruct (at_budget max_chars y A) eqn:E; [by apply (HA x)|].
    unfold abs_insert in HT. apply lookup_insert_Some in HT as [[-> <-]|[_ HT]]; [|by apply (HA x)].
    pose proof (abs_insert_size s x A) as Hs. unfold at_budget in E. apply orb_false_iff in E as [E1%Nat.eqb_neq E2].
    destruct (A !! x) as [T|]; [apply Nat.leb_gt in E2; simpl in Hs; simpl; lia|].
    assert (size (default ∅ (None : option (gset str)) : gset str) = 0) as H0 by done.
    rewrite H0 in Hs. lia.
  - by apply (HA x).
  - by apply (HA x).
  - apply lookup_delete_Some in HT as [_ HT]. by apply (HA x).
  - assert (is_Some (A !! x)) as [T0 HT0].
    { apply elem_of_dom. rewrite <- Hd. by eapply elem_of_dom_2. }
    destruct (Hev x T0 T HT0 HT) as (Hsub & _). pose proof (subseteq_size _ _ Hsub). pose proof (HA x T0 HT0). lia.
Qed.

(** While texts are inserted with a budget only, no tenant's character count
    passes the budget by more than one text: it is at most the budget less one plus
    the length of the longest text, whatever is matched, removed or evicted in
    between. *)
Theorem capped_budget max_chars len ops counter counter' t :
  Forall (budgeted max_chars len) ops -> run_ops ops (counter, new_tree) = Some (counter', t) ->
  forall x k, tenant_char_count t !! x = Some k -> k <= pred max_chars + len.
Proof.
  intros Hops Hrun x k Hk.
  destruct (run_represents ops ∅ counter new_tree new_represents) as (c' & t' & A & E & Habs & Hr).
  assert (t' = t) as -> by congruence.
  rewrite (rep_count _ _ Hr) in Hk. apply fmap_Some in Hk as (T & HT & ->).
  assert (forall x T, (∅ : Abs) !! x = Some T -> size T <= pred max_chars + len) as H0 by done.
  clear - Hops Habs HT H0. revert H0. induction Habs as [A|op ops A A1 A2 Hs Ha IH]; intros H0; [by apply (H0 x)|].
  apply Forall_cons in Hops as [Hop Hops]. apply IH; [done..|].
  intros y T' HT'. by apply (abs_step_budget max_chars len op A A1 Hop Hs H0 y).
Qed.

(** ** The order of eviction *)

(** The states of the eviction loop. *)
Inductive evicting (max_size : nat) (t : Tree) : list EvictionEntry -> Tree -> Prop :=
| evicting_start pq : collect_leaves t = Some pq -> evicting max_size t pq t
| evicting_step pq e pq1 t1 pq2 t2 :
    evicting max_size t pq t1 -> pop pq = Some (e, pq1) -> evict_step max_size e pq1 t1 = Some (pq2, t2) ->
    evicting max_size t pq2 t2.

Lemma evicting_inv max_size P t pq t1 : tree_ok P t -> evicting max_size t pq t1 ->
  exists P1, evict_inv max_size P1 pq t1.
Proof.
  intros Hok. induction 1 as [pq E|pq e pq1 t1 pq2 t2 _ [P1 IH] Hpop Hstep].
  - destruct (collect_leaves_ok max_size P t Hok) as (pq' & E' & Hi). exists P. congruence.
  - apply pop_some in Hpop as [HP _]. apply (evict_inv_perm _ _ _ _ _ HP) in IH.
    destruct (evict_step_ok max_size P1 e pq1 t1 IH) as (P2 & pq' & t' & E & Hi & _). exists P2. congruence.
Qed.

(** Eviction is least recently used first: when a round of the loop takes a
    tenant from a node, that tenant was over its budget, the node was a leaf for
    it, and no leaf of any tenant over its budget has an older timestamp. *)
Theorem evict_lru max_size A t pq t1 e pq1 pq2 t2 :
  represents A t -> evicting max_size t pq t1 -> pop pq = Some (e, pq1) ->
  evict_step max_size e pq1 t1 = Some (pq2, t2) -> t2 <> t1 ->
  exists P, tree_ok P t1 /\ over max_size t1 (entry_tenant e) /\
    leaf P (heap t1) (entry_tenant e) (entry_node e) /\
    forall x n d ts, over max_size t1 x -> leaf P (heap t1) x n -> heap t1 !! n = Some d ->
      tenant_last_access_time d !! x = Some ts -> (timestamp e <= ts)%N.
Proof.
  intros Hr Hev Hpop Hstep Hne. destruct (rep_ok _ _ Hr) as (P0 & Hok & _).
  destruct (evicting_inv max_size P0 t pq t1 Hok Hev) as [P Hi]. exists P.
  apply pop_some in Hpop as [HP Hmin]. apply (evict_inv_perm _ _ _ _ _ HP) in Hi.
  destruct (evict_step_ok max_size P e pq1 t1 Hi) as (P2 & pq' & t' & E & _ & _ & _ & [?|[Hl Ho]]); [congruence|].
  split_and!; [apply (ei_ok _ _ _ _ Hi)|done|done|]. intros x n d ts Hox Hlx Hd Hts.
  destruct (ei_cover _ _ _ _ Hi x n Hlx Hox) as (e' & He' & <- & <-).
  destruct (ei_entry _ _ _ _ Hi e' d He' Hd) as [_ Hts']; [by exists ts|]. assert (timestamp e' = ts) as <- by congruence.
  apply elem_of_cons in He' as [->|He']; [done|]. rewrite Forall_forall in Hmin. by apply Hmin.
Qed.
End unordered.

(** ** An order *)

(** Maps iterate in the order of [map_to_list], and of equal timestamps the first
    is popped. *)
Fixpoint pop_first (pq : list EvictionEntry) : option (EvictionEntry * list EvictionEntry) :=
  match pq with
  | [] => None
  | e :: pq =>
      match pop_first pq with
      | None => Some (e, [])
      | Some (e', pq') => if (timestamp e <=? timestamp e')%N then Some (e, pq) else Some (e', e :: pq')
      end
  end.

Lemma pop_first_none pq : pop_first pq = None -> pq = [].
Proof. destruct pq; [done|]. simpl. repeat case_match; done. Qed.

Lemma pop_first_some pq e pq' : pop_first pq = Some (e, pq') ->
  pq ≡ₚ e :: pq' /\ Forall (fun e' => timestamp e <= timestamp e')%N pq'.
Proof.
  revert e pq'. induction pq as [|a pq IH]; intros e pq' E; [done|]. simpl in E.
  destruct (pop_first pq) as [[m rest]|] eqn:Em.
  - destruct (IH m rest eq_refl) as [HP HF]. destruct (N.leb_spec (timestamp a) (timestamp m)); simplify_eq.
    + split; [done|]. rewrite HP. constructor; [done|]. eapply Forall_impl; [exact HF|]. simpl. intros. lia.
    + split; [rewrite HP; apply Permutation_swap|]. constructor; [lia|done].
  - apply pop_first_none in Em as ->. by simplify_eq.
Qed.

#[export] Instance first_order : Unordered := {|
  unordered_hash := {| key_order _ _ _ s := elements s; key_order_perm _ _ _ s := Permutation_refl _ |};
  pop := pop_first;
  pop_none := pop_first_none;
  pop_some := pop_first_some;
|}.

(** ** Witnesses *)

Lemma tree_queries_exact_witness :
  exists t, represents (abs_insert [97; 98]%N "w1" ∅) t /\
    prefix_match_tenant_char_count [97; 98; 99]%N "w1" t = Some 2.
Proof.
  destruct (insert_represents ∅ new_tree [97; 98]%N "w1" 0 new_represents) as (t & _ & Hr).
  exists t. split; [exact Hr|].
  rewrite (proj1 (tree_queries_exact _ t [97; 98; 99]%N Hr) "w1"). vm_refl.
Defined.

Definition capped_ops : list tree_op :=
  [OpInsertCapped [97; 98; 99]%N "w1" 2; OpInsertCapped [100]%N "w1" 2].

Lemma capped_budget_witness :
  exists counter t, run_ops capped_ops (0%N, new_tree) = Some (counter, t) /\
    tenant_char_count t !! "w1" = Some 3 /\ 3 <= pred 2 + 3.
Proof.
  destruct (run_represents capped_ops ∅ 0 new_tree new_represents) as (c & t & A & E & _ & _).
  assert (tenant_char_count t !! "w1" = Some 3) as Hk.
  { replace t with (default (0%N, new_tree) (run_ops capped_ops (0%N, new_tree))).2 by (by rewrite E). vm_refl. }
  assert (Forall (budgeted 2 3) capped_ops) as Hb.
  { apply Forall_cons; split; [split; [done|simpl; lia]|].
    apply Forall_cons; split; [split; [done|simpl; lia]|]. apply Forall_nil_2. }
  exists c, t. split; [exact E|]. split; [exact Hk|].
  exact (capped_budget 2 3 capped_ops 0%N c t Hb E "w1" 3 Hk).
Defined.

(** Two leaves of a tenant over its budget: the older one goes first. *)
Definition lru_ops : list tree_op := [OpInsert [97; 98]%N "w1"; OpInsert [99; 100]%N "w1"].
Definition lru_tree : Tree := (default (0%N, new_tree) (run_ops lru_ops (0%N, new_tree))).2.
Definition lru_round : list EvictionEntry * Tree :=
  default ([], new_tree) (evict_step 2 (MkEntry 0 "w1" 1) [MkEntry 1 "w1" 2] lru_tree).

Lemma evict_lru_witness :
  exists A pq, represents A lru_tree /\ evicting 2 lru_tree pq lru_tree /\
    exists P, tree_ok P lru_tree /\ leaf P (heap lru_tree) "w1" 1 /\
      forall x n d ts, over 2 lru_tree x -> leaf P (heap lru_tree) x n -> heap lru_tree !! n = Some d ->
        tenant_last_access_time d !! x = Some ts -> (0 <= ts)%N.
Proof.
  destruct (run_represents lru_ops ∅ 0 new_tree new_represents) as (c & t & A & E & _ & Hr).
  assert (t = lru_tree) as -> by (unfold lru_tree; by rewrite E).
  assert (evicting 2 lru_tree [MkEntry 0 "w1" 1; MkEntry 1 "w1" 2] lru_tree) as Hev
    by (constructor; vm_refl).
  exists A, [MkEntry 0 "w1" 1; MkEntry 1 "w1" 2]. split; [exact Hr|]. split; [exact Hev|].
  destruct (evict_lru 2 A lru_tree _ lru_tree (MkEntry 0 "w1" 1) [MkEntry 1 "w1" 2] lru_round.1 lru_round.2 Hr Hev)
    as (P & H1 & H2 & H3 & H4).
  - vm_refl.
  - unfold lru_round. destruct (evict_step 2 (MkEntry 0 "w1" 1) [MkEntry 1 "w1" 2] lru_tree) as [[pq2 t2]|] eqn:Es;
      [reflexivity|]. exfalso. assert (is_Some (evict_step 2 (MkEntry 0 "w1" 1) [MkEntry 1 "w1" 2] lru_tree)) as [? ?].
    { apply (bool_decide_eq_true_1 _). vm_refl. }
    congruence.
  - intros Heq. apply (f_equal (fun t => tenant_char_count t !! "w1")) in Heq. vm_compute in Heq. discriminate.
  - exists P. split; [exact H1|]. split; [exact H3|exact H4].
Defined.
