(* ===== verification/CacheAware.v ===== *)
(** * The cache-aware policy ([src/policies/cache_aware.rs])

    The policy keeps a prefix tree of request texts for every model; its tenants
    are worker URLs.  It sends a request to the worker that was sent the longest
    prefix of it, unless the loads are out of balance.  The program scheduler uses
    the same trees to place new programs ([evaluate_initial_placement]).

    The static counter of the trees' timestamps is a field of the policy.  The
    background thread runs [evict_cache] with the configured size, between any two
    calls.  Metrics and logs are left out. *)

From S2P Require Import Prelude KvTypes TextDecode CircuitBreaker WorkerUrl Worker HashKey Policies Ieee.
From S2P Require Import TreeText PrefixTree PrefixTreeUpdate PrefixTreeRemove PrefixTreeSpec.
From Stdlib Require Strings.String Strings.Byte.

(** ** State *)

Record CacheAwareConfig := MkCacheAwareConfig {
  cache_threshold : f32;
  balance_abs_threshold : N;      (* usize *)
  balance_rel_threshold : f32;
  eviction_interval_secs : N;     (* u64 *)
  max_tree_size : N;              (* usize *)
}.

Definition default_cache_config : CacheAwareConfig :=
  MkCacheAwareConfig (f32_lit 1 2) 32 (f32_lit 11 10) 30 10000.

Record CacheAwarePolicy := MkCacheAware {
  config : CacheAwareConfig;
  trees : gmap string Tree;       (* DashMap<String, Arc<Tree>> *)
  epoch_counter : N;              (* AtomicU64 *)
}.

Definition with_config (cfg : CacheAwareConfig) (counter : N) : CacheAwarePolicy :=
  MkCacheAware cfg ∅ counter.

Definition new_cache_aware (counter : N) : CacheAwarePolicy := with_config default_cache_config counter.

Definition set_trees (ts : gmap string Tree) (counter : N) (p : CacheAwarePolicy) : CacheAwarePolicy :=
  MkCacheAware (config p) ts counter.

(** Replace the tree of a model. *)
Definition set_tree (k : string) (counter : N) (t : Tree) (p : CacheAwarePolicy) : CacheAwarePolicy :=
  set_trees (<[k := t]> (trees p)) counter p.

(** [entry(k).or_insert_with(Tree::new)] *)
Definition tree_entry (k : string) (p : CacheAwarePolicy) : Tree := default new_tree (trees p !! k).

(** The characters of a request text. *)
Definition request_chars (t : list byte) : str := chars (Byte.to_N <$> t).

(** ** Workers *)

Definition add_worker_key (k url : string) (p : CacheAwarePolicy) : option CacheAwarePolicy :=
  '(counter, t) ← insert [] url (epoch_counter p) (tree_entry k p);
  Some (set_tree k counter t p).

Definition add_worker (w : AnyWorker) (p : CacheAwarePolicy) : option CacheAwarePolicy :=
  add_worker_key (normalize_model_key (model_id w)) (url w) p.

(** The model is the key as it is given. *)
Definition add_worker_by_url (url model_id : string) (p : CacheAwarePolicy) : option CacheAwarePolicy :=
  add_worker_key model_id url p.

Section unordered.
Context `{U : Unordered}.

Definition remove_from (k x : string) (p : CacheAwarePolicy) : option CacheAwarePolicy :=
  match trees p !! k with
  | Some t => t ← remove_tenant x t; Some (set_tree k (epoch_counter p) t p)
  | None => Some p
  end.

Definition remove_worker (w : AnyWorker) (p : CacheAwarePolicy) : option CacheAwarePolicy :=
  remove_from (normalize_model_key (model_id w)) (url w) p.

(** [for tree in trees.iter()] *)
Definition each_tree (f : Tree -> option Tree) (p : CacheAwarePolicy) : option CacheAwarePolicy :=
  foldM (fun kt p => t ← f kt.2; Some (set_tree kt.1 (epoch_counter p) t p)) (iter (trees p)) p.

Definition remove_worker_by_url (url : string) (p : CacheAwarePolicy) : option CacheAwarePolicy :=
  each_tree (remove_tenant url) p.

Definition evict_cache (max_size : N) (p : CacheAwarePolicy) : option CacheAwarePolicy :=
  each_tree (evict_tenant_by_size (N.to_nat max_size)) p.

(** One round of the background thread, which runs if an interval is set. *)
Definition eviction_round (p : CacheAwarePolicy) : option CacheAwarePolicy :=
  if (0 <? eviction_interval_secs (config p))%N then evict_cache (max_tree_size (config p)) p else Some p.

Definition get_tenant_char_counts (model_id : string) (p : CacheAwarePolicy) : gmap string nat :=
  match trees p !! normalize_model_key model_id with
  | Some t => get_tenant_char_count t
  | None => ∅
  end.

(** The workers of each model, in their order. *)
Definition group_by_model (ws : list AnyWorker) : gmap string (list AnyWorker) :=
  foldl (fun m w => let k := normalize_model_key (model_id w) in
                    <[k := default [] (m !! k) ++ [w]]> m) ∅ ws.

Definition init_workers (ws : list AnyWorker) (p : CacheAwarePolicy) : option CacheAwarePolicy :=
  foldM (fun kws p =>
    foldM (fun w p => add_worker_key kws.1 (url w) p) kws.2
      (set_tree kws.1 (epoch_counter p) (tree_entry kws.1 p) p))
    (iter (group_by_model ws)) p.

(** ** Selection *)

(** The text is learned unless the worker is at its budget. *)
Definition insert_and_record (k : string) (s : str) (worker_url : string) (counter : N) (t : Tree)
    (p : CacheAwarePolicy) : option CacheAwarePolicy :=
  '(_, counter, t) ← insert_capped s worker_url (N.to_nat (max_tree_size (config p))) counter t;
  Some (set_tree k counter t p).

(** [workers[idx].load()] *)
Definition load_at (ws : list AnyWorker) (idx : nat) : N := from_option load 0%N (ws !! idx).

(** The least and the greatest load of the healthy workers. *)
Definition load_range (ws : list AnyWorker) (healthy_indices : list nat) : N * N :=
  let '(min_load, max_load) :=
    foldl (fun '(lo, hi) l => (N.min lo l, N.max hi l)) (u64_max, 0%N) (load_at ws <$> healthy_indices) in
  (if (min_load =? u64_max)%N then 0%N else min_load, max_load).

Definition is_imbalanced (cfg : CacheAwareConfig) (min_load max_load : N) : bool :=
  (balance_abs_threshold cfg <? max_load - min_load)%N &&
  float_gt (usize_as_f32 max_load) (f32_mul (usize_as_f32 min_load) (balance_rel_threshold cfg)).

Definition select_worker_min_load (ws : list AnyWorker) (request_text : option (list byte))
    (healthy_indices : list nat) (k : string) (p : CacheAwarePolicy) : selection CacheAwarePolicy :=
  match min_by_key (load_at ws) healthy_indices with
  | None => Some (None, ws, p)
  | Some idx =>
      w ← ws !! idx;
      p ← match request_text, trees p !! k with
          | Some text, Some t => insert_and_record k (request_chars text) (url w) (epoch_counter p) t p
          | _, _ => Some p
          end;
      Some (Some idx, count_request idx ws, p)
  end.

Definition match_rate (matched input : nat) : f32 :=
  if (input =? 0) then S754_zero false
  else f32_div (usize_as_f32 (N.of_nat matched)) (usize_as_f32 (N.of_nat input)).

(** The worker of a tenant, if it is listed and healthy; its breaker is not
    asked. *)
Definition tenant_worker (tenant_url : string) (ws : list AnyWorker) : option nat :=
  idx ← position (fun w => bool_decide (url w = tenant_url)) ws;
  w ← ws !! idx;
  if is_healthy w then Some idx else None.

Definition select_by_cache (ws : list AnyWorker) (s : str) (healthy_indices : list nat) (first : nat)
    (k : string) (t : Tree) (p : CacheAwarePolicy) : selection CacheAwarePolicy :=
  '(r, counter, t) ← prefix_match_with_counts s (epoch_counter p) t;
  let hit := float_gt (match_rate (matched_char_count r) (input_char_count r)) (cache_threshold (config p)) in
  match if hit then tenant_worker (tenant r) ws else min_by_key (load_at ws) healthy_indices with
  | Some idx =>
      w ← ws !! idx;
      p ← insert_and_record k s (url w) counter t p;
      Some (Some idx, count_request idx ws, p)
  | None =>
      t ← if hit then remove_tenant (tenant r) t else Some t;
      Some (Some first, count_request first ws, set_tree k counter t p)
  end.

Definition cache_aware_select (e : Env) (ws : list AnyWorker) (request_text : option (list byte))
    (p : CacheAwarePolicy) : selection CacheAwarePolicy :=
  let '(healthy_indices, ws) := get_healthy_worker_indices (now e) ws in
  match healthy_indices with
  | [] => Some (None, ws, p)
  | first :: _ =>
      w ← ws !! first;
      let k := normalize_model_key (model_id w) in
      let '(min_load, max_load) := load_range ws healthy_indices in
      if is_imbalanced (config p) min_load max_load
      then select_worker_min_load ws request_text healthy_indices k p
      else
        match trees p !! k with
        | None =>
            draw ← head (draws e);
            idx ← healthy_indices !! random_range (length healthy_indices) draw;
            Some (Some idx, count_request idx ws, p)
        | Some t => select_by_cache ws (request_chars (default [] request_text)) healthy_indices first k t p
        end
  end.

Definition cache_aware_policy : LoadBalancingPolicy CacheAwarePolicy := {|
  select_worker_with_headers e ws text _ p := cache_aware_select e ws text p;
  name _ := "cache_aware"%string;
  needs_request_text _ := true;
  needs_headers _ := false;
  update_loads _ p := p;
  reset p := p;
|}.

(** The decode worker is the least loaded one. *)
Definition cache_aware_select_pair (e1 e2 : Env) (prefill_workers decode_workers : list AnyWorker)
    (request_text : option (list byte)) (p : CacheAwarePolicy)
  : option (option (nat * nat) * list AnyWorker * list AnyWorker * CacheAwarePolicy) :=
  '(r, prefill_workers, p) ← cache_aware_select e1 prefill_workers request_text p;
  match r with
  | None => Some (None, prefill_workers, decode_workers, p)
  | Some prefill_idx =>
      let '(healthy_decode, decode_workers) := get_healthy_worker_indices (now e2) decode_workers in
      Some ((fun d => (prefill_idx, d)) <$> min_by_key (load_at decode_workers) healthy_decode,
        prefill_workers, decode_workers, p)
  end.
End unordered.

(** ** Placement of programs *)

Record CacheAwareCandidate := MkCandidate {
  target_id : string;
  kv_pressure : f64;
}.

Record CacheAwarePlacement := MkPlacement {
  placed_target_id : string;
  placed_match_rate : f32;
}.

Record Scored := MkScored {
  candidate : CacheAwareCandidate;
  affinity : f64;
  headroom : f64;
  score : f64;
}.

Definition one : f64 := f64_lit 1 1.

Definition score_candidate (input_chars matched_chars : nat) (c : CacheAwareCandidate) : Scored :=
  let affinity := if (input_chars =? 0) then S754_zero false
                  else f64_div (usize_as_f64 (N.of_nat matched_chars)) (usize_as_f64 (N.of_nat input_chars)) in
  let headroom := f64_sub one (f64_clamp (kv_pressure c) (S754_zero false) one) in
  MkScored c affinity headroom (f64_mul (f64_add one affinity) headroom).

Definition compare_scored (left right : Scored) : comparison :=
  then_with (total_cmp (score left) (score right))
    (then_with (total_cmp (headroom left) (headroom right))
      (then_with (total_cmp (affinity left) (affinity right))
        (String.compare (target_id (candidate right)) (target_id (candidate left))))).

Definition evaluate_initial_placement (model_id : string) (s : str) (candidates : list CacheAwareCandidate)
    (p : CacheAwarePolicy) : option (option CacheAwarePlacement) :=
  let tree := trees p !! normalize_model_key model_id in
  scored ← mapM (fun c =>
    matched ← match tree with Some t => prefix_match_tenant_char_count s (target_id c) t | None => Some 0 end;
    Some (score_candidate (length s) matched c)) candidates;
  Some ((fun b => MkPlacement (target_id (candidate b)) (f64_as_f32 (affinity b))) <$> max_by compare_scored scored).

Definition commit_placement (model_id : string) (s : str) (x : string) (p : CacheAwarePolicy)
  : option CacheAwarePolicy :=
  if decide (s = []) then Some p
  else
    let k := normalize_model_key model_id in
    insert_and_record k s x (epoch_counter p) (tree_entry k p) p.

Definition remove_placement_target `{Unordered} (model_id x : string) (p : CacheAwarePolicy)
  : option CacheAwarePolicy := remove_from (normalize_model_key model_id) x p.

(** ** Specification *)

(** The trees of all models. *)
Definition stores (B : gmap string Abs) (p : CacheAwarePolicy) : Prop :=
  forall k, option_Forall2 represents (B !! k) (trees p !! k).

(** The texts a worker is known to have been sent, unless it is at its budget. *)
Definition learn (cfg : CacheAwareConfig) (k : string) (s : str) (x : string) (B : gmap string Abs)
  : gmap string Abs :=
  match B !! k with
  | Some A => if at_budget (N.to_nat (max_tree_size cfg)) x A then B else <[k := abs_insert s x A]> B
  | None => B
  end.

Definition least_loaded (ws : list AnyWorker) (healthy : list nat) (idx : nat) : Prop :=
  idx ∈ healthy /\ forall j, j ∈ healthy -> (load_at ws idx <= load_at ws j)%N.

Definition most_loaded (ws : list AnyWorker) (healthy : list nat) (idx : nat) : Prop :=
  idx ∈ healthy /\ forall j, j ∈ healthy -> (load_at ws j <= load_at ws idx)%N.

(** Both thresholds are passed by the extreme loads. *)
Definition imbalanced (cfg : CacheAwareConfig) (ws : list AnyWorker) (healthy : list nat) : Prop :=
  exists i j, least_loaded ws healthy i /\ most_loaded ws healthy j /\
    (balance_abs_threshold cfg < load_at ws j - load_at ws i)%N /\
    float_gt (usize_as_f32 (load_at ws j)) (f32_mul (usize_as_f32 (load_at ws i)) (balance_rel_threshold cfg)) = true.

(** A tenant that owns the longest prefix any tenant owns. *)
Definition owner (A : Abs) (s : str) (x : string) : Prop :=
  0 < longest (all_texts A) s -> exists T, A !! x = Some T /\ take (longest (all_texts A) s) s ∈ T.

Definition cache_hit (cfg : CacheAwareConfig) (A : Abs) (s : str) : bool :=
  float_gt (match_rate (longest (all_texts A) s) (length s)) (cache_threshold cfg).

(** The first worker with a URL. *)
Definition listed (ws : list AnyWorker) (x : string) (idx : nat) (w : AnyWorker) : Prop :=
  ws !! idx = Some w /\ url w = x /\ forall j w', j < idx -> ws !! j = Some w' -> url w' <> x.

(** How a request is routed among the workers, of which those at [healthy] are
    available, and what the trees then know. *)
Inductive routed (cfg : CacheAwareConfig) (ws : list AnyWorker) (text : option (list byte))
    (B : gmap string Abs) : list nat -> option nat -> gmap string Abs -> Prop :=
| routed_none : routed cfg ws text B [] None B
| routed_least first l w0 idx w :
    ws !! first = Some w0 -> imbalanced cfg ws (first :: l) ->
    least_loaded ws (first :: l) idx -> ws !! idx = Some w ->
    routed cfg ws text B (first :: l) (Some idx)
      (match text with
       | Some s => learn cfg (normalize_model_key (model_id w0)) (request_chars s) (url w) B
       | None => B end)
| routed_blind first l w0 idx :
    ws !! first = Some w0 -> ~ imbalanced cfg ws (first :: l) ->
    B !! normalize_model_key (model_id w0) = None -> idx ∈ first :: l ->
    routed cfg ws text B (first :: l) (Some idx) B
| routed_hit first l w0 A x idx w :
    let s := request_chars (default [] text) in
    ws !! first = Some w0 -> ~ imbalanced cfg ws (first :: l) ->
    B !! normalize_model_key (model_id w0) = Some A -> cache_hit cfg A s = true ->
    owner A s x -> listed ws x idx w -> is_healthy w = true ->
    routed cfg ws text B (first :: l) (Some idx) (learn cfg (normalize_model_key (model_id w0)) s x B)
| routed_miss first l w0 A idx w :
    let s := request_chars (default [] text) in
    ws !! first = Some w0 -> ~ imbalanced cfg ws (first :: l) ->
    B !! normalize_model_key (model_id w0) = Some A -> cache_hit cfg A s = false ->
    least_loaded ws (first :: l) idx -> ws !! idx = Some w ->
    routed cfg ws text B (first :: l) (Some idx) (learn cfg (normalize_model_key (model_id w0)) s (url w) B)
| routed_stale first l w0 A x :
    let s := request_chars (default [] text) in
    ws !! first = Some w0 -> ~ imbalanced cfg ws (first :: l) ->
    B !! normalize_model_key (model_id w0) = Some A -> cache_hit cfg A s = true ->
    owner A s x -> (forall idx w, listed ws x idx w -> is_healthy w = false) ->
    routed cfg ws text B (first :: l) (Some first) (<[normalize_model_key (model_id w0) := delete x A]> B).

(** The calls of the policy. *)
Inductive policy_op :=
| PAddWorker (w : AnyWorker)
| PAddWorkerByUrl (url model_id : string)
| PRemoveWorker (w : AnyWorker)
| PRemoveWorkerByUrl (url : string)
| PInitWorkers (ws : list AnyWorker)
| PEvict (max_size : N)
| PEvictionRound
| PSelect (e : Env) (ws : list AnyWorker) (text : option (list byte))
| PSelectPair (e1 e2 : Env) (prefill decode : list AnyWorker) (text : option (list byte))
| PCommit (model_id : string) (s : str) (x : string)
| PRemoveTarget (model_id x : string).

Definition run_policy_op `{Unordered} (op : policy_op) (p : CacheAwarePolicy) : option CacheAwarePolicy :=
  match op with
  | PAddWorker w => add_worker w p
  | PAddWorkerByUrl u m => add_worker_by_url u m p
  | PRemoveWorker w => remove_worker w p
  | PRemoveWorkerByUrl u => remove_worker_by_url u p
  | PInitWorkers ws => init_workers ws p
  | PEvict n => evict_cache n p
  | PEvictionRound => eviction_round p
  | PSelect e ws text => snd <$> cache_aware_select e ws text p
  | PSelectPair e1 e2 prefill decode text => snd <$> cache_aware_select_pair e1 e2 prefill decode text p
  | PCommit m s x => commit_placement m s x p
  | PRemoveTarget m x => remove_placement_target m x p
  end.

(** The texts have at most [len] characters, a draw is at hand and no load is
    the greatest number. *)
Definition op_within (len : nat) (op : policy_op) : Prop :=
  match op with
  | PSelect e ws text | PSelectPair e _ ws _ text =>
      draws e <> [] /\ Forall (fun w => load w < u64_max)%N ws /\ length (request_chars (default [] text)) <= len
  | PCommit _ s _ => length s <= len
  | _ => True
  end.

(** Every tree is well formed and no worker is over the bound. *)
Definition stored (bound : nat) (p : CacheAwarePolicy) : Prop :=
  exists B, stores B p /\ forall k A x T, B !! k = Some A -> A !! x = Some T -> size T <= bound.

(** ** Loads *)

Lemma fold_range ls lo hi :
  foldl (fun '(lo, hi) l => (N.min lo l, N.max hi l)) (lo, hi) ls = (foldr N.min lo ls, foldr N.max hi ls).
Proof.
  revert lo hi. induction ls as [|a ls IH]; intros lo hi; simpl; [done|]. rewrite IH. f_equal.
  - clear. induction ls as [|b ls IH]; simpl; [lia|]. rewrite IH. lia.
  - clear. induction ls as [|b ls IH]; simpl; [lia|]. rewrite IH. lia.
Qed.

Lemma foldr_min_glb hi ls x : (x <= foldr N.min hi ls)%N <-> (x <= hi)%N /\ Forall (N.le x) ls.
Proof.
  induction ls as [|a ls IH]; simpl; [rewrite Forall_nil; tauto|]. rewrite N.min_glb_iff, IH, Forall_cons. tauto.
Qed.

Lemma foldr_max_lub lo ls x : (foldr N.max lo ls <= x)%N <-> (lo <= x)%N /\ Forall (fun a => a <= x)%N ls.
Proof.
  induction ls as [|a ls IH]; simpl; [rewrite Forall_nil; tauto|]. rewrite N.max_lub_iff, IH, Forall_cons. tauto.
Qed.

Lemma most_loaded_some ws a l : exists i, most_loaded ws (a :: l) i.
Proof.
  induction l as [|b l IH] in a |- *.
  - exists a. split; [left|by intros j ->%list_elem_of_singleton].
  - destruct (IH b) as (i & Hi & Hmax). destruct (N.le_ge_cases (load_at ws a) (load_at ws i)).
    + exists i. split; [by right|]. intros j [->|Hj]%elem_of_cons; auto.
    + exists a. split; [left|]. intros j [->|Hj]%elem_of_cons; [done|]. specialize (Hmax j Hj). lia.
Qed.

Lemma load_range_spec ws healthy i j : least_loaded ws healthy i -> most_loaded ws healthy j ->
  (load_at ws i < u64_max)%N -> load_range ws healthy = (load_at ws i, load_at ws j).
Proof.
  intros [Hi Hmin] [Hj Hmax] Hlt. unfold load_range. rewrite fold_range.
  assert (foldr N.min u64_max (load_at ws <$> healthy) = load_at ws i) as ->.
  { apply N.le_antisymm.
    - pose proof (proj1 (foldr_min_glb u64_max (load_at ws <$> healthy) _) (N.le_refl _)) as [_ HF].
      rewrite Forall_forall in HF. apply HF, list_elem_of_fmap. eauto.
    - apply foldr_min_glb. split; [lia|]. apply Forall_forall. intros x (k & -> & Hk)%list_elem_of_fmap. auto. }
  assert (foldr N.max 0%N (load_at ws <$> healthy) = load_at ws j) as ->.
  { apply N.le_antisymm.
    - apply foldr_max_lub. split; [lia|]. apply Forall_forall. intros x (k & -> & Hk)%list_elem_of_fmap. auto.
    - pose proof (proj1 (foldr_max_lub 0 (load_at ws <$> healthy) _) (N.le_refl _)) as [_ HF].
      rewrite Forall_forall in HF. apply HF, list_elem_of_fmap. eauto. }
  by rewrite (proj2 (N.eqb_neq _ _)) by lia.
Qed.

Lemma available_load t (w : AnyWorker) : load (is_available t w).2 = load w.
Proof. unfold is_available. destruct (is_healthy w); [|done]. by destruct w. Qed.

Lemma least_loaded_some ws a l : exists i, min_by_key (load_at ws) (a :: l) = Some i /\ least_loaded ws (a :: l) i.
Proof.
  destruct (min_by_key (load_at ws) (a :: l)) as [i|] eqn:Hi; [|done]. exists i. split; [done|].
  by apply min_by_key_spec.
Qed.

(** The test of the code decides whether the loads are out of balance. *)
Lemma is_imbalanced_spec cfg ws a l : Forall (fun w => load w < u64_max)%N ws ->
  let '(lo, hi) := load_range ws (a :: l) in is_imbalanced cfg lo hi = true <-> imbalanced cfg ws (a :: l).
Proof.
  intros Hl. assert (forall i, load_at ws i < u64_max)%N as Hlt.
  { intros i. unfold load_at. destruct (ws !! i) as [w|] eqn:E; [|done]. by eapply Forall_lookup in Hl. }
  destruct (least_loaded_some ws a l) as (i & _ & Hi). destruct (most_loaded_some ws a l) as [j Hj].
  rewrite (load_range_spec ws _ i j Hi Hj (Hlt i)). unfold is_imbalanced. rewrite andb_true_iff, N.ltb_lt. split.
  - intros [H1 H2]. by exists i, j.
  - intros (i' & j' & Hi' & Hj' & H).
    assert (load_at ws i' = load_at ws i) as <- by (apply N.le_antisymm; [apply Hi', Hi|apply Hi, Hi']).
    assert (load_at ws j' = load_at ws j) as <- by (apply N.le_antisymm; [apply Hj, Hj'|apply Hj', Hj]). done.
Qed.

(** ** The trees *)

Lemma stores_insert B p k A t counter : stores B p -> represents A t ->
  stores (<[k := A]> B) (set_tree k counter t p).
Proof.
  intros Hs Hr k'. simpl. destruct (decide (k = k')) as [->|Hne].
  - rewrite !lookup_insert_eq. by constructor.
  - rewrite !lookup_insert_ne by done. apply Hs.
Qed.

Lemma stores_same B p k A t counter : stores B p -> B !! k = Some A -> represents A t ->
  stores B (set_tree k counter t p).
Proof. intros Hs HB Hr. rewrite <- (insert_id B k A HB). by apply stores_insert. Qed.

Lemma stores_lookup B p k A : stores B p -> B !! k = Some A -> exists t, trees p !! k = Some t /\ represents A t.
Proof. intros Hs HB. specialize (Hs k). rewrite HB in Hs. inversion Hs; subst. eauto. Qed.

Lemma stores_none B p k : stores B p -> B !! k = None -> trees p !! k = None.
Proof. intros Hs HB. specialize (Hs k). rewrite HB in Hs. by inversion Hs. Qed.

Lemma insert_and_record_ok B p k A s x counter t : stores B p -> B !! k = Some A -> represents A t ->
  exists p', insert_and_record k s x counter t p = Some p' /\ config p' = config p /\
    stores (learn (config p) k s x B) p'.
Proof.
  intros Hs HB Hr. unfold insert_and_record, learn. rewrite HB.
  destruct (step_represents (U := first_order) (OpInsertCapped s x (N.to_nat (max_tree_size (config p)))) A counter t Hr)
    as (c' & t' & A' & E & Hstep & Hr'). inversion Hstep; subst. simpl in E.
  destruct (insert_capped _ _ _ _ _) as [[[b c1] t1]|]; simpl in *; [|done]. injection E as -> ->.
  eexists. split_and!; [done|done|]. destruct (at_budget _ _ _).
  - by apply (stores_same B p k A).
  - by apply stores_insert.
Qed.

Lemma remove_represents `{Unordered} A t x : represents A t ->
  exists t', remove_tenant x t = Some t' /\ represents (delete x A) t'.
Proof.
  intros Hr. destruct (step_represents (OpRemove x) A 0 t Hr) as (c' & t' & A' & E & Hstep & Hr').
  inversion Hstep; subst. simpl in E. destruct (remove_tenant x t); simpl in *; [|done]. injection E as _ ->. eauto.
Qed.

(** ** Selection *)

Lemma listed_position f ws i : position f ws = Some i <->
  (exists w, ws !! i = Some w /\ f w = true) /\ forall j w, j < i -> ws !! j = Some w -> f w = false.
Proof.
  revert i. induction ws as [|a ws IH]; intros i; simpl; [split; [done|naive_solver]|].
  destruct (f a) eqn:Ef.
  - split; [intros [= <-]; split; [eauto|intros; lia]|]. intros [(w & Hw & Hf) Hno].
    destruct i as [|i]; [done|]. specialize (Hno 0 a ltac:(lia) eq_refl). congruence.
  - destruct i as [|i].
    + split; [intros (? & ? & ?)%fmap_Some; lia|]. intros [(w & [= ->] & Hf) _]. congruence.
    + rewrite fmap_Some. setoid_rewrite IH. split.
      * intros (? & [H1 H2] & [= <-]). split; [done|]. intros [|j] w Hj Hw; [by simplify_eq/=|].
        apply (H2 j w); [lia|done].
      * intros [H1 H2]. exists i. split; [|done]. split; [done|]. intros j w Hj Hw. apply (H2 (S j) w); [lia|done].
Qed.

Lemma tenant_worker_some x ws idx : tenant_worker x ws = Some idx ->
  exists w, listed ws x idx w /\ is_healthy w = true.
Proof.
  unfold tenant_worker. intros (i & Hp & H)%bind_Some. apply bind_Some in H as (w & Hw & H).
  destruct (is_healthy w) eqn:Eh; [|done]. injection H as <-. exists w. split; [|done].
  apply listed_position in Hp as [(w' & Hw' & Hu) Hno]. assert (w' = w) as -> by congruence.
  apply bool_decide_eq_true in Hu. split_and!; [done..|]. intros j w' Hj Hw2.
  specialize (Hno j w' Hj Hw2). by apply bool_decide_eq_false in Hno.
Qed.

Lemma tenant_worker_none x ws idx w : tenant_worker x ws = None -> listed ws x idx w -> is_healthy w = false.
Proof.
  intros H (Hw & Hu & Hno). unfold tenant_worker in H.
  assert (position (fun w => bool_decide (url w = x)) ws = Some idx) as Hp.
  { apply listed_position. split; [exists w; split; [done|by apply bool_decide_eq_true]|].
    intros j w' Hj Hw'. apply bool_decide_eq_false. by apply (Hno j). }
  rewrite Hp in H. cbn [mbind option_bind] in H. rewrite Hw in H. cbn [mbind option_bind] in H.
  by destruct (is_healthy w).
Qed.

Section unordered.
Context `{U : Unordered}.

Lemma select_by_cache_ok cfg ws text first l w0 A B p t : config p = cfg -> stores B p ->
  let k := normalize_model_key (model_id w0) in
  ws !! first = Some w0 -> Forall (fun i => is_Some (ws !! i)) (first :: l) -> ~ imbalanced cfg ws (first :: l) ->
  B !! k = Some A -> represents A t ->
  exists idx p' B', select_by_cache ws (request_chars (default [] text)) (first :: l) first k t p =
      Some (Some idx, count_request idx ws, p') /\
    config p' = cfg /\ stores B' p' /\ routed cfg ws text B (first :: l) (Some idx) B'.
Proof.
  intros Hcfg Hs k Hw0 Hin Hbal HB Hr. unfold select_by_cache. set (s := request_chars _).
  destruct (match_query A t s (epoch_counter p) Hr) as (r & t' & -> & Hr' & Hm & Hi & Hown). cbn [mbind option_bind].
  assert (owner A s (tenant r)) as Ho by (intros Hpos; rewrite <- Hm in *; auto).
  assert (float_gt (match_rate (matched_char_count r) (input_char_count r)) (cache_threshold (config p)) = cache_hit cfg A s)
    as -> by (by rewrite Hm, Hi, Hcfg).
  destruct (cache_hit cfg A s) eqn:Ehit.
  - destruct (tenant_worker (tenant r) ws) as [idx|] eqn:Et.
    + destruct (tenant_worker_some _ _ _ Et) as (w & Hl & Hh). pose proof Hl as (Hw & Hu & _). rewrite Hw. simpl.
      destruct (insert_and_record_ok B p k A s (url w) (u64_wrapping_add (epoch_counter p) 1) t' Hs HB Hr') as (p' & -> & Hc & Hs').
      rewrite Hu, Hcfg in *. eexists idx, p', _. split_and!; [done|done|exact Hs'|]. by apply routed_hit with A w.
    + destruct (remove_represents A t' (tenant r) Hr') as (t2 & -> & Hr2). simpl.
      eexists first, _, _. split_and!; [done|done|by apply stores_insert|].
      apply routed_stale; try done. intros idx w. by apply tenant_worker_none.
  - destruct (least_loaded_some ws first l) as (idx & -> & Hleast).
    assert (is_Some (ws !! idx)) as [w Hw] by (rewrite Forall_forall in Hin; apply Hin, Hleast). rewrite Hw. simpl.
    destruct (insert_and_record_ok B p k A s (url w) (u64_wrapping_add (epoch_counter p) 1) t' Hs HB Hr') as (p' & -> & Hc & Hs').
    rewrite Hcfg in *. eexists idx, p', _. split_and!; [done|done|exact Hs'|]. by apply routed_miss with A.
Qed.

Lemma select_min_load_ok cfg ws text first l w0 B p : config p = cfg -> stores B p ->
  let k := normalize_model_key (model_id w0) in
  ws !! first = Some w0 -> Forall (fun i => is_Some (ws !! i)) (first :: l) -> imbalanced cfg ws (first :: l) ->
  exists idx p' B', select_worker_min_load ws text (first :: l) k p = Some (Some idx, count_request idx ws, p') /\
    config p' = cfg /\ stores B' p' /\ routed cfg ws text B (first :: l) (Some idx) B'.
Proof.
  intros Hcfg Hs k Hw0 Hin Hbal. unfold select_worker_min_load.
  destruct (least_loaded_some ws first l) as (idx & -> & Hleast).
  assert (is_Some (ws !! idx)) as [w Hw] by (rewrite Forall_forall in Hin; apply Hin, Hleast). rewrite Hw. cbn [mbind option_bind].
  pose proof (routed_least cfg ws text B first l w0 idx w Hw0 Hbal Hleast Hw) as Hrt. fold k in Hrt.
  destruct text as [s|]; [|by exists idx, p, B]. unfold learn in Hrt.
  destruct (B !! k) as [A|] eqn:HB.
  - destruct (stores_lookup B p k A Hs HB) as (t & -> & Hr).
    destruct (insert_and_record_ok B p k A (request_chars s) (url w) (epoch_counter p) t Hs HB Hr) as (p' & -> & Hc & Hs').
    unfold learn in Hs'. rewrite HB, Hcfg in *. by eexists idx, p', _.
  - rewrite (stores_none B p k Hs HB). by exists idx, p, B.
Qed.

Lemma select_ok e ws text p B : stores B p -> draws e <> [] -> Forall (fun w => load w < u64_max)%N ws ->
  let '(healthy, ws1) := get_healthy_worker_indices (now e) ws in
  exists r p' B', cache_aware_select e ws text p =
      Some (r, match r with Some idx => count_request idx ws1 | None => ws1 end, p') /\
    config p' = config p /\ stores B' p' /\ routed (config p) ws1 text B healthy r B'.
Proof.
  intros Hs Hd Hl. unfold cache_aware_select.
  pose proof (healthy_workers_after (now e) ws) as Haft. pose proof (healthy_elem (now e) ws) as Hel.
  destruct (get_healthy_worker_indices (now e) ws) as [healthy ws1]. simpl in Haft, Hel.
  assert (Forall (fun i => is_Some (ws1 !! i)) healthy) as Hin.
  { apply Forall_forall. intros i (w & Hw & _)%Hel. rewrite Haft, list_lookup_fmap, Hw. eauto. }
  assert (Forall (fun w => load w < u64_max)%N ws1) as Hl1.
  { rewrite Haft. apply Forall_fmap. eapply Forall_impl; [exact Hl|]. intros w. unfold compose. by rewrite available_load. }
  destruct healthy as [|first l]; [exists None, p, B; split_and!; [done..|constructor]|].
  pose proof Hin as [[w0 Hw0] _]%Forall_cons. rewrite Hw0. cbn [mbind option_bind].
  set (k := normalize_model_key (model_id w0)). pose proof (is_imbalanced_spec (config p) ws1 first l Hl1) as Himb.
  destruct (load_range ws1 (first :: l)) as [lo hi]. destruct (is_imbalanced (config p) lo hi).
  - destruct (select_min_load_ok (config p) ws1 text first l w0 B p eq_refl Hs Hw0 Hin (proj1 Himb eq_refl))
      as (idx & p' & B' & E & H). fold k in E. rewrite E. by exists (Some idx), p', B'.
  - assert (~ imbalanced (config p) ws1 (first :: l)) as Hbal by (intros H%Himb; done).
    destruct (B !! k) as [A|] eqn:HB.
    + destruct (stores_lookup B p k A Hs HB) as (t & Ht & Hr). rewrite Ht.
      destruct (select_by_cache_ok (config p) ws1 text first l w0 A B p t eq_refl Hs Hw0 Hin Hbal HB Hr)
        as (idx & p' & B' & E & H). fold k in E. rewrite E. by exists (Some idx), p', B'.
    + rewrite (stores_none B p k Hs HB). destruct (draws e) as [|d ds]; [done|]. cbn [head mbind option_bind].
      destruct (lookup_lt_is_Some_2 (first :: l) (random_range (length (first :: l)) d)) as [idx Hidx];
        [apply Nat.mod_upper_bound; done|]. rewrite Hidx. exists (Some idx), p, B. split_and!; [done..|].
      apply (routed_blind _ _ _ _ _ _ w0); [done..|]. by eapply list_elem_of_lookup_2.
Qed.

(** C11: Selection, when the policy's trees store the texts [B], there is a random
    number to draw and no counter of requests is full, returns and routes as the
    code's branches say.  No worker is picked when none is available.  Out of
    balance a least loaded available worker is picked.  In balance, any available
    worker is picked when the model has no tree; when the longest known prefix
    is a large enough part of the text, the owner of it that is listed, if its
    health flag is set (its breaker is not asked); if it is gone or unhealthy it is
    forgotten and the first available worker is picked; otherwise, on a miss, a
    least loaded available worker, whatever the sizes of the trees.  The trees
    then store what the specification says and the request is counted at the
    chosen worker.  (The header of the source promises the worker with the smallest
    tree on a miss; the branch and its comment take the least loaded one, see
    [miss_ignores_tree_size].) *)
Theorem cache_aware_routes e ws text p B : stores B p -> draws e <> [] -> Forall (fun w => load w < u64_max)%N ws ->
  let '(healthy, ws1) := get_healthy_worker_indices (now e) ws in
  exists r p' B', cache_aware_select e ws text p =
      Some (r, match r with Some idx => count_request idx ws1 | None => ws1 end, p') /\
    config p' = config p /\ stores B' p' /\ routed (config p) ws1 text B healthy r B'.
Proof. apply select_ok. Qed.
End unordered.

(** ** Sequences of calls *)

Section calls.
Context `{U : Unordered} (cfg : CacheAwareConfig) (len : nat).
Let M : nat := N.to_nat (max_tree_size cfg).
Let bound : nat := pred M + len.
Let ok (p : CacheAwarePolicy) : Prop := stored bound p /\ config p = cfg.

(** One call of a tree. *)
Lemma ok_tree op k c p : budgeted M len op -> ok p ->
  exists c' t', run_op op (c, tree_entry k p) = Some (c', t') /\ ok (set_tree k c' t' p).
Proof.
  intros Hb [(B & Hs & Hsize) Hc]. unfold tree_entry.
  assert (represents (default ∅ (B !! k)) (default new_tree (trees p !! k))) as Hr.
  { destruct (B !! k) as [A|] eqn:E; [destruct (stores_lookup B p k A Hs E) as (t & -> & ?); done|].
    rewrite (stores_none B p k Hs E). apply new_represents. }
  destruct (step_represents op _ c _ Hr) as (c' & t' & A' & -> & Hstep & Hr'). exists c', t'. split; [done|].
  split; [|done]. exists (<[k := A']> B). split; [by apply stores_insert|].
  intros k' A x T [[-> <-]|[Hne HA]]%lookup_insert_Some HT; [|by apply (Hsize k' A x T)].
  apply (abs_step_budget M len op (default ∅ (B !! k')) A' Hb Hstep) with x; [|done].
  intros y T' HT'. destruct (B !! k') as [A0|] eqn:E; [by apply (Hsize k' A0 y T')|done].
Qed.

Lemma ok_add k u p : ok p -> exists p', add_worker_key k u p = Some p' /\ ok p'.
Proof.
  intros Hp. destruct (ok_tree (OpInsert [] u) k (epoch_counter p) p eq_refl Hp) as (c' & t' & E & Hp').
  unfold add_worker_key. simpl in E. rewrite E. eauto.
Qed.

Lemma ok_entry k p : ok p -> ok (set_tree k (epoch_counter p) (tree_entry k p) p).
Proof.
  intros [(B & Hs & Hsize) Hc]. split; [|done]. unfold tree_entry. destruct (B !! k) as [A|] eqn:E.
  - exists B. split; [|done]. destruct (stores_lookup B p k A Hs E) as (t & -> & Hr). by apply (stores_same B p k A).
  - exists (<[k := ∅]> B). rewrite (stores_none B p k Hs E). split; [apply stores_insert; [done|apply new_represents]|].
    intros k' A x T [[-> <-]|[_ HA]]%lookup_insert_Some HT; [done|by apply (Hsize k' A x T)].
Qed.

Lemma ok_init ws p : ok p -> exists p', init_workers ws p = Some p' /\ ok p'.
Proof.
  apply foldM_inv. intros [k ms] p1 Hp1. apply foldM_inv; [|by apply ok_entry]. intros w p2. apply ok_add.
Qed.

Lemma ok_each f op p : (forall c t, run_op op (c, t) = (t ← f t; Some (c, t))) -> budgeted M len op -> ok p ->
  exists p', each_tree f p = Some p' /\ ok p'.
Proof.
  intros Hf Hb Hp. unfold each_tree.
  assert (forall k t, (k, t) ∈ iter (trees p) -> trees p !! k = Some t) as Hkt
    by (intros k t; rewrite iter_perm; apply elem_of_map_to_list).
  assert (NoDup (iter (trees p)).*1) as Hnd by (rewrite iter_perm; apply NoDup_fst_map_to_list).
  revert Hkt Hnd Hp. generalize (iter (trees p)). intros l. revert p.
  induction l as [|[k t] l IH]; intros p Hkt Hnd Hp; [by exists p|]. apply NoDup_cons in Hnd as [Hk Hnd].
  cbn [foldM fst snd]. assert (tree_entry k p = t) as Ht by (unfold tree_entry; by rewrite (Hkt k t ltac:(left))).
  destruct (ok_tree op k (epoch_counter p) p Hb Hp) as (c' & t' & E & Hp'). rewrite Ht, Hf in E.
  destruct (f t) as [t1|]; simpl in E; [|done]. injection E as -> ->. cbn [mbind option_bind].
  apply IH; [|done..]. intros k' t2 Hin. simpl. rewrite lookup_insert_ne; [apply Hkt; by right|].
  intros ->. apply Hk, list_elem_of_fmap. by exists (k', t2).
Qed.

Lemma ok_remove k x p : ok p -> exists p', remove_from k x p = Some p' /\ ok p'.
Proof.
  intros Hp. unfold remove_from. destruct (trees p !! k) as [t|] eqn:Ht; [|by exists p].
  destruct (ok_tree (OpRemove x) k (epoch_counter p) p I Hp) as (c' & t' & E & Hp').
  unfold tree_entry in E. rewrite Ht in E. simpl in E. destruct (remove_tenant x t); simpl in *; [|done].
  injection E as <- ->. eauto.
Qed.

Lemma ok_commit m s x p : length s <= len -> ok p -> exists p', commit_placement m s x p = Some p' /\ ok p'.
Proof.
  intros Hl Hp. unfold commit_placement, insert_and_record. case_decide; [by exists p|].
  pose proof Hp as [_ ->].
  destruct (ok_tree (OpInsertCapped s x M) (normalize_model_key m) (epoch_counter p) p (conj eq_refl Hl) Hp)
    as (c' & t' & E & Hp'). simpl in E. fold M.
  destruct (insert_capped s x M (epoch_counter p) _) as [[[b c1] t1]|]; simpl in *; [|done]. injection E as -> ->. eauto.
Qed.

(** What selection learns stays within the bound. *)
Lemma routed_within ws text B healthy r B' : routed cfg ws text B healthy r B' ->
  length (request_chars (default [] text)) <= len ->
  (forall k A x T, B !! k = Some A -> A !! x = Some T -> size T <= bound) ->
  forall k A x T, B' !! k = Some A -> A !! x = Some T -> size T <= bound.
Proof.
  intros Hr Hl HB.
  assert (forall k s x, length s <= len -> forall k' A y T,
    learn cfg k s x B !! k' = Some A -> A !! y = Some T -> size T <= bound) as Hlearn.
  { intros k s x Hs k' A y T. unfold learn. destruct (B !! k) as [A0|] eqn:E; [|apply HB].
    fold M. pose proof (StepCapped s x M A0) as Hstep. destruct (at_budget M x A0); [apply HB|].
    intros [[-> <-]|[_ HA]]%lookup_insert_Some HT; [|by apply (HB k' A y T)].
    assert (budgeted M len (OpInsertCapped s x M)) as Hb by done.
    apply (abs_step_budget M len _ _ _ Hb Hstep) with y; [|done]. intros z T'. by apply HB with k'. }
  destruct Hr; try done; try by apply Hlearn.
  - destruct text; [by apply Hlearn|done].
  - intros k A' y T [[<- <-]|[_ HA]]%lookup_insert_Some HT; [|by apply (HB k A' y T)].
    apply lookup_delete_Some in HT as [_ HT]. by apply (HB _ A y T H1).
Qed.

Lemma ok_select e ws text p : draws e <> [] -> Forall (fun w => load w < u64_max)%N ws ->
  length (request_chars (default [] text)) <= len -> ok p ->
  exists r ws' p', cache_aware_select e ws text p = Some (r, ws', p') /\ ok p'.
Proof.
  intros Hd Hload Hl [(B & Hs & Hsize) Hc]. pose proof (select_ok e ws text p B Hs Hd Hload) as H.
  destruct (get_healthy_worker_indices (now e) ws) as [healthy ws1].
  destruct H as (r & p' & B' & E & Hc' & Hs' & Hrt). rewrite Hc in Hrt. eexists r, _, p'. split; [exact E|].
  split; [|congruence]. exists B'. split; [done|]. by apply (routed_within _ _ _ _ _ _ Hrt Hl).
Qed.

Lemma ok_op op p : op_within len op -> ok p -> exists p', run_policy_op op p = Some p' /\ ok p'.
Proof.
  intros Hop Hp. destruct op as [w|u m|w|u|ws|n| |e ws t|e1 e2 ws ds t|m s x|m x]; cbn [run_policy_op].
  - by apply ok_add.
  - by apply ok_add.
  - by apply ok_remove.
  - by apply ok_each with (OpRemove u).
  - by apply ok_init.
  - by apply ok_each with (OpEvict (N.to_nat n)).
  - unfold eviction_round. case_match; [|by exists p]. by apply ok_each with (OpEvict (N.to_nat (max_tree_size (config p)))).
  - destruct Hop as (Hd & Hw & Hl). destruct (ok_select e ws t p Hd Hw Hl Hp) as (r & ws' & p' & -> & Hp'). by exists p'.
  - destruct Hop as (Hd & Hw & Hl). unfold cache_aware_select_pair.
    destruct (ok_select e1 ws t p Hd Hw Hl Hp) as (r & ws' & p' & -> & Hp'). cbn [mbind option_bind].
    destruct r; [destruct (get_healthy_worker_indices (now e2) ds)|]; by exists p'.
  - by apply ok_commit.
  - by apply ok_remove.
Qed.

(** C39: Every sequence of calls of a new policy returns: every tree stays well
    formed, and whatever was evicted or removed in between, no worker's
    character count, as [get_tenant_char_counts] reports it, exceeds the
    configured size by a whole text. *)
Theorem trees_bounded ops counter : Forall (op_within len) ops ->
  exists p, foldM run_policy_op ops (with_config cfg counter) = Some p /\ stored (pred (N.to_nat (max_tree_size cfg)) + len) p /\
    forall m x k, get_tenant_char_counts m p !! x = Some k -> k <= pred (N.to_nat (max_tree_size cfg)) + len.
Proof.
  intros Hops. destruct (foldM_inv_Forall run_policy_op ok (op_within len) ops (with_config cfg counter)) as (p & E & Hp & Hc).
  - intros op p. apply ok_op.
  - done.
  - split; [|done]. exists ∅. split; [|done]. intros k. constructor.
  - exists p. split_and!; [done..|]. destruct Hp as (B & Hs & Hsize). intros m x k. unfold get_tenant_char_counts.
    destruct (trees p !! normalize_model_key m) as [t|] eqn:Ht; [|done].
    pose proof (Hs (normalize_model_key m)) as Hk. rewrite Ht in Hk. inversion Hk as [A ? Hr HA|]; subst. symmetry in HA.
    unfold get_tenant_char_count. rewrite (rep_count _ _ Hr). intros (T & HT & ->)%fmap_Some. by apply (Hsize (normalize_model_key m) A x T).
Qed.
End calls.

(** ** Affinity *)

Lemma longest_owned (T : gset str) s : s <> [] -> s ∈ T -> longest T s = length s.
Proof.
  intros Hne Hs. apply longest_eq; [done| |by intros u Hu%prefix_length _]. right. by rewrite take_ge.
Qed.

Lemma owner_whole A s x T : s <> [] -> A !! x = Some T -> s ∈ T ->
  forall y, owner A s y <-> exists T', A !! y = Some T' /\ s ∈ T'.
Proof.
  intros Hne HA Hs y. unfold owner.
  rewrite (longest_owned _ s Hne) by (apply elem_of_all_texts; eauto). rewrite take_ge by done.
  split; [|auto]. intros H. apply H. destruct s; [done|]. simpl. lia.
Qed.

Lemma learn_lookup cfg k s x B A : B !! k = Some A -> at_budget (N.to_nat (max_tree_size cfg)) x A = false ->
  learn cfg k s x B !! k = Some (abs_insert s x A).
Proof. intros HB Hb. unfold learn. by rewrite HB, Hb, lookup_insert_eq. Qed.

(** A hit with a single owner goes there. *)
Lemma routed_to_owner cfg ws text B first l r B' w0 A x idx w :
  let s := request_chars (default [] text) in
  routed cfg ws text B (first :: l) r B' -> ws !! first = Some w0 -> ~ imbalanced cfg ws (first :: l) ->
  B !! normalize_model_key (model_id w0) = Some A -> cache_hit cfg A s = true ->
  (forall y, owner A s y -> y = x) -> listed ws x idx w -> is_healthy w = true -> r = Some idx.
Proof.
  intros s Hr Hw0 Hbal HB Hhit Honly Hl Hh.
  inversion Hr; subst; clear Hr; simplify_eq; try done.
  - f_equal. match goal with Ho : owner A _ ?x0, H : listed ws ?x0 ?i _ |- _ => rewrite (Honly x0 Ho) in H end.
    destruct Hl as (Hw & Hu & Hno). match goal with H : listed _ _ _ _ |- _ => destruct H as (Hw' & Hu' & Hno') end.
    destruct (Nat.lt_trichotomy idx0 idx) as [Hlt|[->|Hlt]]; [|done|].
    + by destruct (Hno _ _ Hlt Hw').
    + by destruct (Hno' _ _ Hlt Hw).
  - match goal with H : cache_hit _ _ _ = false |- _ => by pose proof (eq_trans (eq_sym Hhit) H) end.
  - exfalso. match goal with Ho : owner A _ ?x0, H : forall idx w, listed ws ?x0 idx w -> is_healthy w = false |- _ =>
      rewrite (Honly x0 Ho) in H; specialize (H idx w Hl) end. congruence.
Qed.

(** What a routed request leaves behind when no tenant is stale. *)
Lemma routed_learns cfg ws text B first l idx B' w0 A :
  let s := request_chars (default [] text) in
  routed cfg ws text B (first :: l) (Some idx) B' -> is_Some text -> ws !! first = Some w0 ->
  B !! normalize_model_key (model_id w0) = Some A -> SFltb (cache_threshold cfg) (S754_zero false) = false ->
  (forall x, x ∈ dom A -> exists i w, listed ws x i w /\ is_healthy w = true) ->
  exists w, ws !! idx = Some w /\ B' = learn cfg (normalize_model_key (model_id w0)) s (url w) B.
Proof.
  intros s Hr [t Ht] Hw0 HB Hthr Hlive. inversion Hr; subst; clear Hr; simplify_eq; cbn [default from_option id] in *.
  - eauto.
  - match goal with H : listed _ _ _ _ |- _ => destruct H as (Hw & <- & _) end. eauto.
  - eauto.
  - exfalso. match goal with Ho : owner A _ ?x0, H : forall idx w, listed ws ?x0 idx w -> is_healthy w = false, Hh : cache_hit _ _ _ = true |- _ =>
      rename Ho into Hown, H into Hgone, Hh into Hhit; rename x0 into x end.
    destruct (decide (0 < longest (all_texts A) (request_chars t))) as [Hpos|Hzero].
    + destruct (Hown Hpos) as (T & HT & _). destruct (Hlive x) as (i & w & Hl & Hh); [by eapply elem_of_dom_2|].
      specialize (Hgone i w Hl). congruence.
    + change (cache_hit cfg A (request_chars t) = true) in Hhit. unfold cache_hit, match_rate, float_gt in Hhit.
      replace (longest _ _) with 0 in Hhit by lia. case_match; [congruence|].
      change (N.of_nat 0) with 0%N in Hhit. by rewrite zero_rate_not_above in Hhit.
Qed.

(** Affinity.  A request whose text no worker has been sent is routed, all
    tenants being live, and the chosen worker is below its budget.  Then the next
    request with the same text, if the worker is still healthy, the model is the
    same, the loads are in balance and a full match passes the threshold, goes to
    the same worker. *)
Theorem cache_affinity `{Unordered} e1 e2 ws ws' t p B A idx ws1 p1 w w' :
  let s := request_chars t in
  stores B p -> s <> [] -> draws e1 <> [] -> draws e2 <> [] ->
  Forall (fun w => load w < u64_max)%N ws -> Forall (fun w => load w < u64_max)%N ws' ->
  let '(h1, live) := get_healthy_worker_indices (now e1) ws in
  let '(h2, live') := get_healthy_worker_indices (now e2) ws' in
  let k := normalize_model_key <$> (model_id <$> (i ← head h1; live !! i)) in
  normalize_model_key <$> (model_id <$> (i ← head h2; live' !! i)) = k ->
  (k ≫= fun k => B !! k) = Some A -> s ∉ all_texts A ->
  (forall x, x ∈ dom A -> exists i w, listed live x i w /\ is_healthy w = true) ->
  SFltb (cache_threshold (config p)) (S754_zero false) = false ->
  float_gt (match_rate (length s) (length s)) (cache_threshold (config p)) = true ->
  cache_aware_select e1 ws (Some t) p = Some (Some idx, ws1, p1) -> live !! idx = Some w ->
  at_budget (N.to_nat (max_tree_size (config p))) (url w) A = false ->
  ~ imbalanced (config p) live' h2 -> listed live' (url w) idx w' -> is_healthy w' = true ->
  exists ws2 p2, cache_aware_select e2 ws' (Some t) p1 = Some (Some idx, ws2, p2).
Proof.
  intros s Hs Hne Hd1 Hd2 Hl1 Hl2. pose proof (select_ok e1 ws (Some t) p B Hs Hd1 Hl1) as H1.
  assert (forall p1 B1, stores B1 p1 -> let '(healthy, ws1) := get_healthy_worker_indices (now e2) ws' in
    exists r p' B', cache_aware_select e2 ws' (Some t) p1 =
      Some (r, match r with Some idx => count_request idx ws1 | None => ws1 end, p') /\
    config p' = config p1 /\ stores B' p' /\ routed (config p1) ws1 (Some t) B1 healthy r B') as H2.
  { intros p' B1 Hs1. by apply select_ok. }
  destruct (get_healthy_worker_indices (now e1) ws) as [h1 live], (get_healthy_worker_indices (now e2) ws') as [h2 live'].
  intros k Hk HB Hnew Hlive Hthr Hfull Esel Hw Hb Hbal Hlist Hh.
  destruct H1 as (r & p' & B1 & E & Hc & Hs1 & Hrt). rewrite E in Esel. injection Esel as -> <- ->.
  destruct h1 as [|f1 l1]; [done|]. unfold k in *. cbn [head mbind option_bind] in *.
  destruct (live !! f1) as [w0|] eqn:Hw0; [|done]. simpl in HB.
  destruct (routed_learns _ _ _ _ _ _ _ _ w0 A Hrt ltac:(eauto) Hw0 HB Hthr Hlive) as (w1 & Hw1 & ->).
  assert (w1 = w) as -> by congruence. clear Hrt.
  destruct (H2 p1 _ Hs1) as (r & p2 & B2 & E2 & _ & _ & Hrt2). rewrite Hc in Hrt2.
  destruct h2 as [|f2 l2]; [done|]. cbn [head mbind option_bind] in *.
  destruct (live' !! f2) as [w0'|] eqn:Hw0'; [|done]. simpl in Hk. injection Hk as Hk.
  pose proof (learn_lookup (config p) _ s (url w) B A HB Hb) as HB1. cbn [default] in HB1.
  assert (abs_insert s (url w) A !! url w = Some (default ∅ (A !! url w) ∪ list_to_set (prefixes s))) as HA1
    by (unfold abs_insert; by rewrite lookup_insert_eq).
  assert (s ∈ default ∅ (A !! url w) ∪ (list_to_set (prefixes s) : gset str)) as Hin.
  { apply elem_of_union_r, elem_of_list_to_set, elem_of_prefixes. done. }
  assert (r = Some idx) as ->; [|by rewrite E2; eauto].
  refine (routed_to_owner _ _ _ _ _ _ _ _ w0' (abs_insert s (url w) A) (url w) idx w' Hrt2 Hw0' Hbal _ _ _ Hlist Hh).
  - by rewrite Hk.
  - unfold cache_hit. simpl. fold s. rewrite (longest_owned _ s Hne); [done|]. apply elem_of_all_texts. eauto.
  - simpl. fold s. intros y. rewrite (owner_whole _ s (url w) _ Hne HA1 Hin y). unfold abs_insert.
    intros (T' & [[-> _]|[_ HT']]%lookup_insert_Some & HsT); [done|]. destruct Hnew. apply elem_of_all_texts. eauto.
Qed.

(** A cache hit does not ask the circuit breaker.  When a single worker owns
    the longest prefix of the text and is marked healthy, it is chosen although it
    is not available and another worker is. *)
Theorem cache_hit_ignores_breaker `{Unordered} e ws t p B A x idx w :
  let s := request_chars t in
  stores B p -> draws e <> [] -> Forall (fun w => load w < u64_max)%N ws ->
  let '(healthy, live) := get_healthy_worker_indices (now e) ws in
  healthy <> [] -> ~ imbalanced (config p) live healthy ->
  ((normalize_model_key <$> (model_id <$> (i ← head healthy; live !! i))) ≫= fun k => B !! k) = Some A ->
  cache_hit (config p) A s = true -> (forall y, owner A s y -> y = x) ->
  listed live x idx w -> is_healthy w = true -> idx ∉ healthy ->
  exists ws' p', cache_aware_select e ws (Some t) p = Some (Some idx, ws', p').
Proof.
  intros s Hs Hd Hl. pose proof (select_ok e ws (Some t) p B Hs Hd Hl) as H1.
  destruct (get_healthy_worker_indices (now e) ws) as [healthy live]. intros Hne Hbal HB Hhit Honly Hlist Hh _.
  destruct H1 as (r & p' & B1 & E & _ & _ & Hrt). destruct healthy as [|first l]; [done|].
  cbn [head mbind option_bind] in HB. destruct (live !! first) as [w0|] eqn:Hw0; [|done]. simpl in HB.
  rewrite (routed_to_owner _ _ _ _ _ _ _ _ w0 A x idx w Hrt Hw0 Hbal HB Hhit Honly Hlist Hh) in E. eauto.
Qed.

(** ** Placement *)

(** What the trees make of a candidate. *)
Definition placement_score (B : gmap string Abs) (model_id : string) (s : str) (c : CacheAwareCandidate) : Scored :=
  score_candidate (length s)
    (longest (default ∅ (default ∅ (B !! normalize_model_key model_id) !! target_id c)) s) c.

Lemma compare_scored_total : total_order compare_scored.
Proof.
  repeat apply total_then; try exact (total_key _ _ total_cmp_total).
  exact (total_flip _ (total_key (fun x => target_id (candidate x)) _ string_total)).
Qed.

Lemma compare_scored_target x y : compare_scored x y = Eq -> target_id (candidate x) = target_id (candidate y).
Proof.
  unfold compare_scored. repeat (destruct (total_cmp _ _); simpl; try done).
  intros E%String.compare_eq_iff. done.
Qed.

Lemma longest_empty (s : str) : longest ∅ s = 0.
Proof. apply longest_eq; [lia|auto|set_solver]. Qed.

Lemma placement_eval B p m s cs : stores B p ->
  evaluate_initial_placement m s cs p = Some ((fun b => MkPlacement (target_id (candidate b)) (f64_as_f32 (affinity b))) <$>
    max_by compare_scored (placement_score B m s <$> cs)).
Proof.
  intros Hs. unfold evaluate_initial_placement.
  rewrite (proj2 (mapM_Some _ _ (placement_score B m s <$> cs))); [done|].
  apply Forall2_fmap_r, Forall_Forall2_diag, Forall_true. intros c. unfold placement_score.
  destruct (B !! normalize_model_key m) as [A|] eqn:E.
  - destruct (stores_lookup B p _ A Hs E) as (t & -> & Hr). by rewrite (tenant_query A t s (target_id c) Hr).
  - rewrite (stores_none B p _ Hs E). simpl. by rewrite lookup_empty, longest_empty.
Qed.

(** Placement evaluates every candidate by the longest prefix of the text its
    target was sent and its headroom, and returns one that no candidate beats in
    the order of score, headroom, affinity and target name; it returns none only
    without candidates, it changes nothing, and when targets are distinct the
    order of the candidates is of no matter. *)
Theorem placement_best B p m s cs : stores B p ->
  exists r, evaluate_initial_placement m s cs p = Some r /\
    (r = None <-> cs = []) /\
    (forall pl, r = Some pl -> exists c, c ∈ cs /\ placed_target_id pl = target_id c /\
      placed_match_rate pl = f64_as_f32 (affinity (placement_score B m s c)) /\
      forall c', c' ∈ cs -> compare_scored (placement_score B m s c') (placement_score B m s c) <> Gt) /\
    (NoDup (target_id <$> cs) -> forall cs', cs ≡ₚ cs' -> evaluate_initial_placement m s cs' p = Some r).
Proof.
  intros Hs. eexists. split; [by apply placement_eval|]. split_and!.
  - rewrite fmap_None, max_by_none. by destruct cs.
  - intros pl (b & Hb & ->)%fmap_Some. apply (max_by_spec _ compare_scored_total) in Hb as [Hin Hmax].
    apply list_elem_of_fmap in Hin as (c & -> & Hc). exists c. split_and!; [done..|].
    intros c' Hc'. apply Hmax, list_elem_of_fmap. eauto.
  - intros Hnd cs' HP. rewrite (placement_eval B p m s cs' Hs). do 2 f_equal. symmetry.
    apply (max_by_perm _ compare_scored_total); [|by rewrite HP].
    intros x y (c & -> & Hc)%list_elem_of_fmap (c' & -> & Hc')%list_elem_of_fmap E%compare_scored_target.
    f_equal. by apply (NoDup_key_inj target_id cs).
Qed.

(** ** Examples *)

Definition cache_ws : list AnyWorker := [create_regular 0 "http://a:1"; create_regular 0 "http://b:1"].

(** The breaker of the first worker is open. *)
Definition tripped_ws : list AnyWorker :=
  [set_circuit_breaker (force_open 0 (CircuitBreaker.new 0)) (create_regular 0 "http://a:1");
   create_regular 0 "http://b:1"].

Definition cache_env : Env := MkEnv 0 0 [7].

(** "ab" *)
Definition cache_text : list byte := [x61; x62]%byte.

(** A policy whose tree has the text of one worker. *)
Definition cache_policy (t : Tree) : CacheAwarePolicy :=
  set_tree "default" 1 t (with_config default_cache_config 0).

Definition cache_texts (s : str) : gmap string Abs := {[ "default" := abs_insert s "http://a:1" ∅ ]}.

Lemma cache_policy_stores s : exists t, insert s "http://a:1" 0 new_tree = Some (1%N, t) /\ stores (cache_texts s) (cache_policy t).
Proof.
  destruct (insert_represents ∅ new_tree s "http://a:1" 0 new_represents) as (t & E & Hr).
  exists t. split; [exact E|]. unfold cache_texts. rewrite <- (insert_empty "default").
  apply stores_insert; [|done]. intros k. constructor.
Qed.

Lemma cache_balanced ws : load_range ws [0; 1] = (0, 0)%N -> Forall (fun w => load w < u64_max)%N ws ->
  ~ imbalanced default_cache_config ws [0; 1].
Proof.
  intros E Hl H. pose proof (is_imbalanced_spec default_cache_config ws 0 [1] Hl) as Hi. rewrite E in Hi.
  apply Hi in H. vm_compute in H. done.
Qed.

Lemma cache_loads : Forall (fun w => load w < u64_max)%N cache_ws /\ Forall (fun w => load w < u64_max)%N tripped_ws.
Proof. repeat constructor. Qed.

Lemma cache_aware_routes_witness :
  exists t r p' B', stores (cache_texts [97; 98]%N) (cache_policy t) /\
    cache_aware_select cache_env cache_ws (Some cache_text) (cache_policy t) =
      Some (r, match r with Some idx => count_request idx cache_ws | None => cache_ws end, p') /\
    routed default_cache_config cache_ws (Some cache_text) (cache_texts [97; 98]%N) [0; 1] r B'.
Proof.
  destruct (cache_policy_stores [97; 98]%N) as (t & _ & Hs). exists t.
  assert (draws cache_env <> []) as Hd by done.
  pose proof (cache_aware_routes cache_env cache_ws (Some cache_text) _ _ Hs Hd (proj1 cache_loads)) as H.
  assert (get_healthy_worker_indices (now cache_env) cache_ws = ([0; 1], cache_ws)) as E by vm_refl.
  rewrite E in H. destruct H as (r & p' & B' & H1 & _ & _ & H2). exists r, p', B'. split; [exact Hs|]. split; [exact H1|exact H2].
Defined.

Definition policy_calls : list policy_op :=
  [PInitWorkers cache_ws; PSelect cache_env cache_ws (Some cache_text); PSelect cache_env cache_ws (Some cache_text);
   PEvict 1; PRemoveWorkerByUrl "http://a:1"].

Lemma trees_bounded_witness :
  exists p, foldM run_policy_op policy_calls (with_config default_cache_config 0) = Some p /\ stored (pred (N.to_nat (max_tree_size default_cache_config)) + 2) p.
Proof.
  assert (Forall (op_within 2) policy_calls) as Hops.
  { repeat constructor; try (intros; discriminate); try (simpl; lia). }
  destruct (trees_bounded default_cache_config 2 policy_calls 0 Hops) as (p & E & Hp & _).
  exists p. split; [exact E|exact Hp].
Defined.

Lemma cache_affinity_witness :
  exists t p1 ws2 p2, cache_aware_select cache_env cache_ws (Some cache_text) (cache_policy t) =
      Some (Some 0, count_request 0 cache_ws, p1) /\
    cache_aware_select cache_env cache_ws (Some cache_text) p1 = Some (Some 0, ws2, p2).
Proof.
  destruct (cache_policy_stores []) as (t & Et & Hs). exists t.
  assert (draws cache_env <> []) as Hd by done.
  assert (exists p1, cache_aware_select cache_env cache_ws (Some cache_text) (cache_policy t) =
    Some (Some 0, count_request 0 cache_ws, p1)) as [p1 E1].
  { replace t with (default (0%N, new_tree) (insert [] "http://a:1" 0 new_tree)).2 by (by rewrite Et).
    eexists. vm_compute. reflexivity. }
  pose proof (cache_affinity cache_env cache_env cache_ws cache_ws cache_text _ _ (abs_insert [] "http://a:1" ∅) 0
    (count_request 0 cache_ws) p1 (create_regular 0 "http://a:1") (create_regular 0 "http://a:1") Hs) as H.
  assert (get_healthy_worker_indices (now cache_env) cache_ws = ([0; 1], cache_ws)) as E by vm_refl.
  rewrite E in H. destruct H as (ws2 & p2 & E2).
  - by vm_compute.
  - done.
  - done.
  - apply cache_loads.
  - apply cache_loads.
  - reflexivity.
  - apply (lookup_insert_eq (M := gmap string)).
  - apply (bool_decide_eq_true_1 _). vm_refl.
  - intros x Hx. assert (x = "http://a:1") as ->.
    { unfold abs_insert in Hx. rewrite insert_empty, dom_singleton in Hx. by apply elem_of_singleton in Hx. }
    exists 0, (create_regular 0 "http://a:1"). split_and!; [|done]. split_and!; [done..|]. intros j w' Hj. lia.
  - vm_refl.
  - vm_refl.
  - exact E1.
  - reflexivity.
  - vm_refl.
  - apply cache_balanced; [vm_refl|apply cache_loads].
  - split_and!; [done..|]. intros j w' Hj. lia.
  - reflexivity.
  - exists p1, ws2, p2. split; [exact E1|exact E2].
Defined.

Lemma cache_hit_ignores_breaker_witness :
  (get_healthy_worker_indices 0 tripped_ws).1 = [1] /\
  exists t ws' p', cache_aware_select cache_env tripped_ws (Some cache_text) (cache_policy t) = Some (Some 0, ws', p').
Proof.
  split; [vm_refl|]. destruct (cache_policy_stores [97; 98]%N) as (t & _ & Hs). exists t.
  assert (draws cache_env <> []) as Hd by done.
  pose proof (cache_hit_ignores_breaker cache_env tripped_ws cache_text _ _ (abs_insert [97; 98]%N "http://a:1" ∅)
    "http://a:1" 0 (set_circuit_breaker (force_open 0 (CircuitBreaker.new 0)) (create_regular 0 "http://a:1")) Hs Hd
    (proj2 cache_loads)) as H.
  assert (get_healthy_worker_indices (now cache_env) tripped_ws = ([1], tripped_ws)) as E by vm_refl.
  rewrite E in H. apply H.
  - done.
  - intros Hi. pose proof (is_imbalanced_spec default_cache_config tripped_ws 1 [] (proj2 cache_loads)) as Hsp.
    replace (load_range tripped_ws [1]) with (0, 0)%N in Hsp by vm_refl. apply Hsp in Hi. vm_compute in Hi. discriminate.
  - apply (lookup_insert_eq (M := gmap string)).
  - vm_refl.
  - intros y Ho. destruct Ho as (T & HT & _); [apply Nat.ltb_lt; vm_refl|].
    unfold abs_insert in HT. apply lookup_insert_Some in HT as [[<- _]|[_ HT]]; done.
  - split_and!; [done..|]. intros j w' Hj. lia.
  - reflexivity.
  - intros H0%list_elem_of_singleton. done.
Defined.

Lemma placement_best_witness :
  exists t r, evaluate_initial_placement "m" [97]%N [MkCandidate "http://a:1" (f64_lit 1 2); MkCandidate "http://b:1" (f64_lit 1 2)]
    (cache_policy t) = Some r /\ r <> None.
Proof.
  destruct (cache_policy_stores [97; 98]%N) as (t & _ & Hs). exists t.
  destruct (placement_best _ _ "m" [97]%N [MkCandidate "http://a:1" (f64_lit 1 2); MkCandidate "http://b:1" (f64_lit 1 2)] Hs)
    as (r & E & Hn & _). exists r. split; [exact E|]. intros H%Hn. discriminate.
Defined.

(** On a miss with equal loads the first worker is picked although only the other
    has an empty tree. *)
Example miss_ignores_tree_size :
  let p := cache_policy (default (0%N, new_tree) (insert [97; 98]%N "http://a:1" 0 new_tree)).2 in
  exists ws' p', cache_aware_select cache_env cache_ws (Some [x7a]%byte) p = Some (Some 0, ws', p').
Proof. eexists _, _. vm_compute. reflexivity. Qed.
