(* ===== verification/Binding.v ===== *)
(** * Binding new programs to targets ([src/program_scheduling/binding/mod.rs])

    A program generation is bound to a home target when it is first seen, by one
    of five strategies; the table of bindings keeps it there while the target
    exists.  The trait [ProgramBindingPolicy] is a class with one instance per
    strategy; the boxed policy of the table is their sum.  A policy that panics
    returns [None]. *)

From S2P Require Import Prelude KvTypes RequestPool ProgramRuntime Hashing Policies Ieee.
From S2P Require Import TreeText PrefixTree PrefixTreeUpdate PrefixTreeSpec CacheAware.
From Stdlib Require Strings.String.

Local Open Scope N_scope.

(** ** Data *)

Inductive ProgramBindingStrategy :=
| ConsistentHash
| ProgramRoundRobin
| LeastProgramCount
| ReasoningTokenBalance
| CacheAwareStrategy.

#[export] Instance ProgramBindingStrategy_eq_dec : EqDecision ProgramBindingStrategy.
Proof. solve_decision. Defined.

Record ProgramBindingCandidate := MkBindingCandidate {
  cand_target_id : string;
  accounted_programs : N;               (* usize *)
  accounted_tokens : f64;
  cand_capacity_tokens : option N;      (* Option<usize> *)
  cand_kv_pressure : f64;
  immediately_admissible : bool;
}.

(** ** The policy trait *)

Class ProgramBindingPolicy (P : Type) := {
  select : ProgramIdentity -> list ProgramBindingCandidate -> option string -> P ->
    option (option string * P);
  commit_placement : string -> string -> string -> P -> option P;
  remove_target : string -> string -> P -> option P;
}.

(** The characters of a routing text. *)
Definition routing_chars (text : string) : str := request_chars (as_bytes text).

(** *** Consistent hashing *)

Record ConsistentHashBinding := MkHashBinding {
  virtual_nodes : N;                    (* u32 *)
  rings : gmap string (list string * ring);
}.

Definition binding_ring (model_pool : string) (targets : list string) (p : ConsistentHashBinding)
  : option (ring * ConsistentHashBinding) :=
  let rebuild :=
    match rings p !! model_pool with
    | Some (current, _) => bool_decide (current <> targets)
    | None => true
    end in
  let p :=
    if rebuild
    then MkHashBinding (virtual_nodes p)
           (<[model_pool := (targets, build_ring (virtual_nodes p) targets)]> (rings p))
    else p in
  (fun tr => (tr.2, p)) <$> rings p !! model_pool.

Definition hash_binding_select (identity : ProgramIdentity) (candidates : list ProgramBindingCandidate)
    (p : ConsistentHashBinding) : option (option string * ConsistentHashBinding) :=
  let targets := cand_target_id <$> candidates in
  '(r, p) ← binding_ring (id_model_pool identity) targets p;
  match r with
  | [] => Some (None, p)
  | _ => Some (ring_owner (fbi_hash (as_bytes (id_placement_hash_key identity))) r, p)
  end.

Definition hash_binding : ProgramBindingPolicy ConsistentHashBinding := {|
  select identity candidates _ p := hash_binding_select identity candidates p;
  commit_placement _ _ _ p := Some p;
  remove_target _ _ p := Some p;
|}.
#[export] Existing Instance hash_binding.

(** *** Round robin *)

Record RoundRobinBinding := MkRoundRobinBinding { next_by_model : gmap string N (* usize *) }.

Definition round_robin_binding_select (identity : ProgramIdentity) (candidates : list ProgramBindingCandidate)
    (p : RoundRobinBinding) : option (option string * RoundRobinBinding) :=
  match candidates with
  | [] => Some (None, p)
  | _ =>
      let next := default 0 (next_by_model p !! id_model_pool identity) in
      c ← candidates !! N.to_nat (next mod N.of_nat (length candidates));
      Some (Some (cand_target_id c),
            MkRoundRobinBinding (<[id_model_pool identity := u64_wrapping_add next 1]> (next_by_model p)))
  end.

Definition round_robin_binding : ProgramBindingPolicy RoundRobinBinding := {|
  select identity candidates _ p := round_robin_binding_select identity candidates p;
  commit_placement _ _ _ p := Some p;
  remove_target _ _ p := Some p;
|}.
#[export] Existing Instance round_robin_binding.

(** *** Fewest programs *)

Inductive LeastProgramCountBinding := MkLeastCount.

(** The key [(accounted_programs, target_id)]. *)
Definition compare_count (left right : ProgramBindingCandidate) : comparison :=
  then_with (accounted_programs left ?= accounted_programs right)
    (String.compare (cand_target_id left) (cand_target_id right)).

Definition least_count_binding : ProgramBindingPolicy LeastProgramCountBinding := {|
  select _ candidates _ p := Some (cand_target_id <$> min_by compare_count candidates, p);
  commit_placement _ _ _ p := Some p;
  remove_target _ _ p := Some p;
|}.
#[export] Existing Instance least_count_binding.

(** *** Most unaccounted tokens *)

Inductive ReasoningTokenBalanceBinding := MkTokenBalance.

(** The candidate with its unaccounted capacity; without a capacity it panics. *)
Definition remaining_tokens (c : ProgramBindingCandidate) : option (ProgramBindingCandidate * f64) :=
  (fun capacity => (c, f64_sub (usize_as_f64 capacity) (accounted_tokens c))) <$> cand_capacity_tokens c.

Definition compare_remaining (left right : ProgramBindingCandidate * f64) : comparison :=
  then_with (total_cmp left.2 right.2) (String.compare (cand_target_id right.1) (cand_target_id left.1)).

Definition token_balance_binding : ProgramBindingPolicy ReasoningTokenBalanceBinding := {|
  select _ candidates _ p :=
    cs ← mapM remaining_tokens candidates;
    Some ((fun c => cand_target_id c.1) <$> max_by compare_remaining cs, p);
  commit_placement _ _ _ p := Some p;
  remove_target _ _ p := Some p;
|}.
#[export] Existing Instance token_balance_binding.

(** *** Cache aware *)

Section boxed.
Context `{U : Unordered}.

Record CacheAwareBinding := MkCacheBinding { binding_affinity : CacheAwarePolicy }.

(** The candidates that fit now, or all of them. *)
Definition eligible_candidates (candidates : list ProgramBindingCandidate) : list ProgramBindingCandidate :=
  match filter (fun c => immediately_admissible c = true) candidates with
  | [] => candidates
  | eligible => eligible
  end.

Definition cache_candidates (candidates : list ProgramBindingCandidate) : list CacheAwareCandidate :=
  (fun c => MkCandidate (cand_target_id c) (cand_kv_pressure c)) <$> eligible_candidates candidates.

Definition cache_binding_select (identity : ProgramIdentity) (candidates : list ProgramBindingCandidate)
    (routing_text : option string) (p : CacheAwareBinding) : option (option string * CacheAwareBinding) :=
  (fun placement : option CacheAwarePlacement => (placed_target_id <$> placement, p)) <$>
    evaluate_initial_placement (id_model_pool identity) (routing_chars (default ""%string routing_text))
      (cache_candidates candidates) (binding_affinity p).

Definition cache_binding : ProgramBindingPolicy CacheAwareBinding := {|
  select := cache_binding_select;
  commit_placement model_pool text target_id p :=
    MkCacheBinding <$> CacheAware.commit_placement model_pool (routing_chars text) target_id (binding_affinity p);
  remove_target model_pool target_id p :=
    MkCacheBinding <$> remove_placement_target model_pool target_id (binding_affinity p);
|}.
#[local] Existing Instance cache_binding.

(** ** The table of bindings *)

(** [Box<dyn ProgramBindingPolicy>] *)
Inductive AnyBinding :=
| HashBinding (p : ConsistentHashBinding)
| RobinBinding (p : RoundRobinBinding)
| CountBinding (p : LeastProgramCountBinding)
| BalanceBinding (p : ReasoningTokenBalanceBinding)
| CacheBinding (p : CacheAwareBinding).

Definition lift_select {P} (f : P -> AnyBinding) (r : option (option string * P))
  : option (option string * AnyBinding) := (fun rp => (rp.1, f rp.2)) <$> r.

Definition any_binding : ProgramBindingPolicy AnyBinding := {|
  select identity candidates text p :=
    match p with
    | HashBinding p => lift_select HashBinding (select identity candidates text p)
    | RobinBinding p => lift_select RobinBinding (select identity candidates text p)
    | CountBinding p => lift_select CountBinding (select identity candidates text p)
    | BalanceBinding p => lift_select BalanceBinding (select identity candidates text p)
    | CacheBinding p => lift_select CacheBinding (select identity candidates text p)
    end;
  commit_placement model_pool text target_id p :=
    match p with
    | HashBinding p => HashBinding <$> commit_placement model_pool text target_id p
    | RobinBinding p => RobinBinding <$> commit_placement model_pool text target_id p
    | CountBinding p => CountBinding <$> commit_placement model_pool text target_id p
    | BalanceBinding p => BalanceBinding <$> commit_placement model_pool text target_id p
    | CacheBinding p => CacheBinding <$> commit_placement model_pool text target_id p
    end;
  remove_target model_pool target_id p :=
    match p with
    | HashBinding p => HashBinding <$> remove_target model_pool target_id p
    | RobinBinding p => RobinBinding <$> remove_target model_pool target_id p
    | CountBinding p => CountBinding <$> remove_target model_pool target_id p
    | BalanceBinding p => BalanceBinding <$> remove_target model_pool target_id p
    | CacheBinding p => CacheBinding <$> remove_target model_pool target_id p
    end;
|}.
#[local] Existing Instance any_binding.

(** [ProgramBindingKey] has the two fields of [RuntimeKey]. *)
Record ProgramBindings := MkBindings {
  policy : AnyBinding;
  bindings : gmap RuntimeKey string;
}.

Definition new_bindings (strategy : ProgramBindingStrategy) (hash_virtual_nodes : N) (counter : N)
  : ProgramBindings :=
  MkBindings
    match strategy with
    | ConsistentHash => HashBinding (MkHashBinding hash_virtual_nodes ∅)
    | ProgramRoundRobin => RobinBinding (MkRoundRobinBinding ∅)
    | LeastProgramCount => CountBinding MkLeastCount
    | ReasoningTokenBalance => BalanceBinding MkTokenBalance
    | CacheAwareStrategy => CacheBinding (MkCacheBinding (new_cache_aware counter))
    end ∅.

Definition compare_target (left right : ProgramBindingCandidate) : comparison :=
  String.compare (cand_target_id left) (cand_target_id right).

(** The binding of a program to one of the candidates. *)
Definition live_binding (identity : ProgramIdentity) (candidates : list ProgramBindingCandidate)
    (b : ProgramBindings) : option string :=
  target_id ← bindings b !! key_of_identity identity;
  if decide (target_id ∈ cand_target_id <$> candidates) then Some target_id else None.

Definition bind (identity : ProgramIdentity) (candidates : list ProgramBindingCandidate)
    (routing_text : option string) (b : ProgramBindings) : option (option string * ProgramBindings) :=
  match live_binding identity candidates b with
  | Some target_id => Some (Some target_id, b)
  | None =>
      '(r, p) ← select identity (sort_by compare_target candidates) routing_text (policy b);
      match r with
      | None => Some (None, MkBindings p (bindings b))
      | Some target_id => Some (Some target_id, MkBindings p (<[key_of_identity identity := target_id]> (bindings b)))
      end
  end.

Definition binding (identity : ProgramIdentity) (b : ProgramBindings) : option string :=
  bindings b !! key_of_identity identity.

Definition release (identity : ProgramIdentity) (b : ProgramBindings) : option string * ProgramBindings :=
  (bindings b !! key_of_identity identity, MkBindings (policy b) (delete (key_of_identity identity) (bindings b))).

Definition release_program (program : ProgramRef) (b : ProgramBindings) : option string * ProgramBindings :=
  (bindings b !! key_of_ref program, MkBindings (policy b) (delete (key_of_ref program) (bindings b))).

Definition remove_bound (target_id : string) (b : ProgramBindings) : N * ProgramBindings :=
  let kept := filter (fun kv => kv.2 <> target_id) (bindings b) in
  (N.of_nat (size (bindings b)) - N.of_nat (size kept), MkBindings (policy b) kept).

Definition commit_binding (program : ProgramRef) (text target_id : string) (b : ProgramBindings)
  : option ProgramBindings :=
  (fun p => MkBindings p (bindings b)) <$> commit_placement (ref_model_pool program) text target_id (policy b).

Definition remove_affinity_target (model_pool target_id : string) (b : ProgramBindings)
  : option ProgramBindings :=
  (fun p => MkBindings p (bindings b)) <$> remove_target model_pool target_id (policy b).

End boxed.
#[export] Existing Instance cache_binding.
#[export] Existing Instance any_binding.

(** ** What a policy promises *)

(** A policy that is well-formed and ready for the candidates selects one of
    them, if there are any, by its criterion; its other calls keep it so. *)
Class BindingContract (P : Type) `{!ProgramBindingPolicy P} := {
  policy_ok : P -> Prop;
  policy_ready : P -> list ProgramBindingCandidate -> Prop;
  picks : P -> ProgramIdentity -> list ProgramBindingCandidate -> option string -> string -> Prop;
  select_contract : forall identity cs text p, policy_ok p -> policy_ready p cs ->
    exists r p', select identity cs text p = Some (r, p') /\ policy_ok p' /\
      (forall cs', policy_ready p cs' -> policy_ready p' cs') /\ (r = None <-> cs = []) /\
      forall x, r = Some x -> x ∈ cand_target_id <$> cs /\ picks p identity cs text x;
  commit_contract : forall m text x p, policy_ok p ->
    exists p', commit_placement m text x p = Some p' /\ policy_ok p' /\
      forall cs', policy_ready p cs' -> policy_ready p' cs';
  remove_contract : forall m x p, policy_ok p ->
    exists p', remove_target m x p = Some p' /\ policy_ok p' /\
      forall cs', policy_ready p cs' -> policy_ready p' cs';
}.

(** The rings of the table are those of their targets. *)
Definition rings_ok (p : ConsistentHashBinding) : Prop :=
  forall m targets r, rings p !! m = Some (targets, r) -> r = build_ring (virtual_nodes p) targets.

(** The target a ring of all candidates gives the program's key. *)
Definition hash_picks (nodes : N) (identity : ProgramIdentity) (cs : list ProgramBindingCandidate) (x : string) : Prop :=
  ring_owner (fbi_hash (as_bytes (id_placement_hash_key identity))) (build_ring nodes (cand_target_id <$> cs)) = Some x.

(** The best of the eligible candidates by the texts their targets were sent. *)
Definition cache_picks (p : CacheAwarePolicy) (identity : ProgramIdentity) (cs : list ProgramBindingCandidate)
    (text : option string) (x : string) : Prop :=
  exists B c, stores B p /\ c ∈ cache_candidates cs /\ x = target_id c /\
    let score := placement_score B (id_model_pool identity) (routing_chars (default ""%string text)) in
    forall c', c' ∈ cache_candidates cs -> compare_scored (score c') (score c) <> Gt.

(** ** Sequences of calls *)

Inductive table_op :=
| OpBind (identity : ProgramIdentity) (cs : list ProgramBindingCandidate) (text : option string)
| OpRelease (program : ProgramRef)
| OpRemoveTarget (target_id : string)
| OpCommit (program : ProgramRef) (text target_id : string)
| OpForget (model_pool target_id : string).

Definition run_table_op `{Unordered} (op : table_op) (b : ProgramBindings) : option ProgramBindings :=
  match op with
  | OpBind identity cs text => snd <$> bind identity cs text b
  | OpRelease program => Some (release_program program b).2
  | OpRemoveTarget x => Some (remove_bound x b).2
  | OpCommit program text x => commit_binding program text x b
  | OpForget m x => remove_affinity_target m x b
  end.

(** What a strategy needs of its candidates. *)
Definition strategy_ready (strategy : ProgramBindingStrategy) (nodes : N) (cs : list ProgramBindingCandidate) : Prop :=
  match strategy with
  | ConsistentHash => 0 < nodes
  | ReasoningTokenBalance => Forall (fun c => is_Some (cand_capacity_tokens c)) cs
  | _ => True
  end.

Definition op_ready (strategy : ProgramBindingStrategy) (nodes : N) (op : table_op) : Prop :=
  match op with OpBind _ cs _ => strategy_ready strategy nodes cs | _ => True end.

(** ** Lemmas: the five strategies *)

Lemma rings_ok_insert m targets p : rings_ok p ->
  rings_ok (MkHashBinding (virtual_nodes p) (<[m := (targets, build_ring (virtual_nodes p) targets)]> (rings p))).
Proof.
  intros Hp m' ts r. simpl. intros [[-> [= <- <-]]|[_ H]]%lookup_insert_Some; [done|]. by apply (Hp m').
Qed.

Lemma binding_ring_ok m targets p : rings_ok p ->
  exists p', binding_ring m targets p = Some (build_ring (virtual_nodes p) targets, p') /\
    rings_ok p' /\ virtual_nodes p' = virtual_nodes p.
Proof.
  intros Hp. unfold binding_ring. destruct (rings p !! m) as [[ts r]|] eqn:E; [case_bool_decide as Ht|].
  2: { rewrite E. simpl. exists p. subst. by rewrite (Hp m targets r E). }
  all: cbn [rings virtual_nodes]; rewrite lookup_insert_eq; simpl; eexists; split_and!; [done|by apply rings_ok_insert|done].
Qed.

Lemma hash_select_eq identity cs p : rings_ok p ->
  exists p', hash_binding_select identity cs p =
      Some (ring_owner (fbi_hash (as_bytes (id_placement_hash_key identity)))
              (build_ring (virtual_nodes p) (cand_target_id <$> cs)), p') /\
    rings_ok p' /\ virtual_nodes p' = virtual_nodes p.
Proof.
  intros Hp. unfold hash_binding_select.
  destruct (binding_ring_ok (id_model_pool identity) (cand_target_id <$> cs) p Hp) as (p' & -> & Hp' & Hv).
  cbn [mbind option_bind]. exists p'. by destruct (build_ring _ _).
Qed.

#[export, refine] Instance hash_contract : BindingContract ConsistentHashBinding := {|
  policy_ok := rings_ok;
  policy_ready p _ := 0 < virtual_nodes p;
  picks p identity cs _ x := hash_picks (virtual_nodes p) identity cs x;
|}.
Proof.
  - intros identity cs text p Hp Hv. destruct (hash_select_eq identity cs p Hp) as (p' & E & Hp' & Hv').
    eexists _, p'. split_and!; [exact E|done|by rewrite Hv'| |].
    + split; [|by intros ->]. intros Hn. destruct cs as [|c cs]; [done|]. exfalso.
      destruct (ring_owner_some (virtual_nodes p) (fbi_hash (as_bytes (id_placement_hash_key identity)))
        (cand_target_id <$> c :: cs) Hv) as [x Hx]; [done|]. congruence.
    + intros x Hx. split; [by eapply ring_owner_in|done].
  - intros m text x p Hp. by exists p.
  - intros m x p Hp. by exists p.
Defined.

#[export, refine] Instance robin_contract : BindingContract RoundRobinBinding := {|
  policy_ok _ := True;
  policy_ready _ _ := True;
  picks p identity cs _ x := exists c,
    cs !! N.to_nat (default 0 (next_by_model p !! id_model_pool identity) mod N.of_nat (length cs)) = Some c /\
    x = cand_target_id c;
|}.
Proof.
  - intros identity cs text p _ _. simpl. unfold round_robin_binding_select.
    destruct cs as [|c0 cs]; [by exists None, p|].
    set (i := N.to_nat _). destruct (lookup_lt_is_Some_2 (c0 :: cs) i) as [c Hc].
    { unfold i. cbn [length]. pose proof (N.mod_lt (default 0 (next_by_model p !! id_model_pool identity))
        (N.of_nat (S (length cs)))). lia. }
    rewrite Hc. cbn [mbind option_bind]. eexists _, _. split_and!; [done..| |].
    + split; [done|discriminate].
    + intros x [= <-]. split; [|by exists c]. apply list_elem_of_fmap_2, list_elem_of_lookup. eauto.
  - intros m text x p _. by exists p.
  - intros m x p _. by exists p.
Defined.

Lemma compare_count_total : total_order compare_count.
Proof.
  apply total_then; [exact (total_key accounted_programs _ N_total)|exact (total_key cand_target_id _ string_total)].
Qed.

#[export, refine] Instance count_contract : BindingContract LeastProgramCountBinding := {|
  policy_ok _ := True;
  policy_ready _ _ := True;
  picks _ _ cs _ x := exists c, c ∈ cs /\ x = cand_target_id c /\ forall c', c' ∈ cs -> compare_count c c' <> Gt;
|}.
Proof.
  - intros identity cs text p _ _. eexists _, p. split_and!; [done..| |].
    + rewrite fmap_None. by destruct cs.
    + intros x (c & Hc & ->)%fmap_Some. apply (min_by_spec _ _ compare_count_total) in Hc as [Hin Hmin].
      split; [by apply list_elem_of_fmap_2|eauto].
  - intros m text x p _. by exists p.
  - intros m x p _. by exists p.
Defined.

Lemma compare_remaining_total : total_order compare_remaining.
Proof.
  apply total_then; [exact (total_key snd _ total_cmp_total)|].
  exact (total_flip _ (total_key (fun c : ProgramBindingCandidate * f64 => cand_target_id c.1) _ string_total)).
Qed.

Lemma remaining_all cs : Forall (fun c => is_Some (cand_capacity_tokens c)) cs ->
  exists rs, mapM remaining_tokens cs = Some rs /\ rs.*1 = cs /\
    forall c r, (c, r) ∈ rs <-> c ∈ cs /\ remaining_tokens c = Some (c, r).
Proof.
  induction 1 as [|c cs [n Hc] _ IH]; [exists []; split_and!; [done..|]; intros; set_solver|].
  destruct IH as (rs & E & Hf & Hel).
  assert (remaining_tokens c = Some (c, f64_sub (usize_as_f64 n) (accounted_tokens c))) as Hrc
    by (unfold remaining_tokens; by rewrite Hc).
  cbn [mapM]. rewrite Hrc, E. simpl. eexists. split_and!; [done|by rewrite fmap_cons, Hf|].
  intros c' r. rewrite !elem_of_cons, Hel. naive_solver.
Qed.

#[export, refine] Instance balance_contract : BindingContract ReasoningTokenBalanceBinding := {|
  policy_ok _ := True;
  policy_ready _ cs := Forall (fun c => is_Some (cand_capacity_tokens c)) cs;
  picks _ _ cs _ x := exists c r, c ∈ cs /\ remaining_tokens c = Some (c, r) /\ x = cand_target_id c /\
    forall c' r', c' ∈ cs -> remaining_tokens c' = Some (c', r') -> compare_remaining (c', r') (c, r) <> Gt;
|}.
Proof.
  - intros identity cs text p _ Hr. simpl. destruct (remaining_all cs Hr) as (rs & -> & Hf & Hel). cbn [mbind option_bind].
    eexists _, p. split_and!; [done..| |].
    + rewrite fmap_None, max_by_none, <- Hf. by destruct rs.
    + intros x ([c r] & Hc & ->)%fmap_Some. apply (max_by_spec _ compare_remaining_total) in Hc as [Hin Hmax].
      apply Hel in Hin as [Hin Hrem]. split; [by apply list_elem_of_fmap_2|]. exists c, r. split_and!; [done..|].
      intros c' r' Hc' Hr'. by apply Hmax, Hel.
  - intros m text x p _. by exists p.
  - intros m x p _. by exists p.
Defined.

Lemma cache_candidates_sub cs c : c ∈ cache_candidates cs -> target_id c ∈ cand_target_id <$> cs.
Proof.
  unfold cache_candidates. intros (c' & -> & Hc')%list_elem_of_fmap. simpl. apply list_elem_of_fmap_2.
  unfold eligible_candidates in Hc'. destruct (filter _ cs) eqn:E; [done|]. rewrite <- E in Hc'.
  by apply list_elem_of_filter in Hc' as [_ ?].
Qed.

Lemma cache_candidates_nil cs : cache_candidates cs = [] <-> cs = [].
Proof.
  unfold cache_candidates, eligible_candidates. split; [|by intros ->]. intros H%fmap_nil_inv.
  by destruct (filter _ cs) as [|? ?].
Qed.

Lemma commit_stores B p m s x : stores B p ->
  exists p' B', CacheAware.commit_placement m s x p = Some p' /\ stores B' p'.
Proof.
  intros Hs. unfold CacheAware.commit_placement. case_decide; [by exists p, B|]. set (k := normalize_model_key m).
  unfold insert_and_record, tree_entry.
  assert (represents (default ∅ (B !! k)) (default new_tree (trees p !! k))) as Hr.
  { destruct (B !! k) as [A|] eqn:E; [destruct (stores_lookup B p k A Hs E) as (t & -> & ?); done|].
    rewrite (stores_none B p k Hs E). apply new_represents. }
  destruct (step_represents (U := first_order) (OpInsertCapped s x (N.to_nat (max_tree_size (config p)))) _
    (epoch_counter p) _ Hr) as (c' & t' & A' & E & _ & Hr'). simpl in E.
  destruct (insert_capped _ _ _ _ _) as [[[b c1] t1]|]; simpl in *; [|done]. injection E as -> ->.
  eexists _, (<[k := A']> B). split; [done|]. by apply stores_insert.
Qed.

Lemma remove_stores `{Unordered} B p k x : stores B p -> exists p' B', remove_from k x p = Some p' /\ stores B' p'.
Proof.
  intros Hs. unfold remove_from. destruct (B !! k) as [A|] eqn:E.
  - destruct (stores_lookup B p k A Hs E) as (t & -> & Hr). destruct (remove_represents A t x Hr) as (t' & -> & Hr').
    simpl. eexists _, _. split; [done|]. by apply stores_insert.
  - rewrite (stores_none B p k Hs E). eauto.
Qed.

#[export, refine] Instance cache_contract `{U : Unordered} : BindingContract CacheAwareBinding := {|
  policy_ok p := exists B, stores B (binding_affinity p);
  policy_ready _ _ := True;
  picks p := cache_picks (binding_affinity p);
|}.
Proof.
  - intros identity cs text p [B Hs] _. simpl. unfold cache_binding_select.
    rewrite (placement_eval B _ _ _ _ Hs). cbn [fmap option_fmap option_map].
    eexists _, p. split_and!; [done|by exists B|done| |].
    + rewrite !fmap_None, max_by_none, <- cache_candidates_nil. by destruct (cache_candidates cs).
    + intros x (pl & (b & Hb & ->)%fmap_Some & ->)%fmap_Some.
      apply (max_by_spec _ compare_scored_total) in Hb as [Hin Hmax].
      apply list_elem_of_fmap in Hin as (c & -> & Hc). split; [by apply (cache_candidates_sub cs c)|].
      exists B, c. split_and!; [done..|]. intros score c' Hc'. by apply Hmax, list_elem_of_fmap_2.
  - intros m text x p [B Hs]. simpl. destruct (commit_stores B _ m (routing_chars text) x Hs) as (p' & B' & -> & Hs').
    eexists. split_and!; [done|by exists B'|done].
  - intros m x p [B Hs]. simpl. destruct (remove_stores B _ (normalize_model_key m) x Hs) as (p' & B' & E & Hs').
    unfold remove_placement_target. rewrite E. eexists. split_and!; [done|by exists B'|done].
Defined.

(** The boxed policy. *)
#[export, refine] Instance any_contract `{U : Unordered} : BindingContract AnyBinding := {|
  policy_ok p := match p with
    | HashBinding p => policy_ok p | RobinBinding p => policy_ok p | CountBinding p => policy_ok p
    | BalanceBinding p => policy_ok p | CacheBinding p => policy_ok p end;
  policy_ready p := match p with
    | HashBinding p => policy_ready p | RobinBinding p => policy_ready p | CountBinding p => policy_ready p
    | BalanceBinding p => policy_ready p | CacheBinding p => policy_ready p end;
  picks p := match p with
    | HashBinding p => picks p | RobinBinding p => picks p | CountBinding p => picks p
    | BalanceBinding p => picks p | CacheBinding p => picks p end;
|}.
Proof.
  - intros identity cs text [p|p|p|p|p] Hok Hr;
      destruct (select_contract identity cs text p Hok Hr) as (r & p' & E & Hp' & Hr' & Hn & Hx);
      exists r; eexists; (split; [exact (f_equal (lift_select _) E)|]); done.
  - intros m text x [p|p|p|p|p] Hok; destruct (commit_contract m text x p Hok) as (p' & E & Hp' & Hr');
      eexists; (split; [exact (f_equal (fmap _) E)|]); done.
  - intros m x [p|p|p|p|p] Hok; destruct (remove_contract m x p Hok) as (p' & E & Hp' & Hr');
      eexists; (split; [exact (f_equal (fmap _) E)|]); done.
Defined.

(** ** The table *)

Definition bindings_ok `{Unordered} (b : ProgramBindings) : Prop := policy_ok (policy b).
Definition bindings_ready `{Unordered} (b : ProgramBindings) (cs : list ProgramBindingCandidate) : Prop :=
  policy_ready (policy b) (sort_by compare_target cs).

Section table.
Context `{U : Unordered}.

Lemma sorted_targets cs x : x ∈ cand_target_id <$> sort_by compare_target cs <-> x ∈ cand_target_id <$> cs.
Proof. by rewrite sort_by_perm. Qed.

Lemma sort_nil cs : sort_by compare_target cs = [] <-> cs = [].
Proof.
  split; [|by intros ->]. intros E. apply Permutation_nil_r. by rewrite <- (sort_by_perm compare_target cs), E.
Qed.

(** A bound program keeps its target while it is a candidate; otherwise the
    policy picks, and the table records its choice. *)
Lemma bind_spec identity cs text b : bindings_ok b -> bindings_ready b cs ->
  exists r b', bind identity cs text b = Some (r, b') /\ bindings_ok b' /\
    (forall cs', bindings_ready b cs' -> bindings_ready b' cs') /\ (r = None <-> cs = []) /\
    (forall x, r = Some x -> x ∈ cand_target_id <$> cs) /\
    (forall x, live_binding identity cs b = Some x -> r = Some x /\ b' = b) /\
    (live_binding identity cs b = None -> bindings b' = match r with
      | Some x => <[key_of_identity identity := x]> (bindings b)
      | None => bindings b
      end /\ forall x, r = Some x -> picks (policy b) identity (sort_by compare_target cs) text x).
Proof.
  intros Hok Hr. unfold bind. destruct (live_binding identity cs b) as [x|] eqn:E.
  - exists (Some x), b. unfold live_binding in E. destruct (bindings b !! _) as [y|]; simpl in E; [|done].
    case_decide as Hy; [|done]. injection E as ->. split_and!; try done; [|naive_solver..].
    split; [done|intros ->]. by apply elem_of_nil in Hy.
  - destruct (select_contract identity (sort_by compare_target cs) text (policy b) Hok Hr)
      as (r & p' & -> & Hok' & Hr' & Hn & Hx). cbn [mbind option_bind].
    rewrite sort_nil in Hn. setoid_rewrite sorted_targets in Hx.
    exists r. destruct r as [x|]; eexists; split_and!; try done; naive_solver.
Qed.

Lemma new_bindings_ok strategy nodes counter : bindings_ok (new_bindings strategy nodes counter).
Proof.
  destruct strategy; try exact I.
  - intros m ts r. simpl. by rewrite lookup_empty.
  - exists ∅. intros k. simpl. rewrite !lookup_empty. constructor.
Qed.

Lemma new_bindings_ready strategy nodes counter cs : strategy_ready strategy nodes cs ->
  bindings_ready (new_bindings strategy nodes counter) cs.
Proof. destruct strategy; try done. unfold bindings_ready. simpl. by rewrite sort_by_perm. Qed.

Lemma run_table_ok strategy nodes ops b : Forall (op_ready strategy nodes) ops -> bindings_ok b ->
  (forall cs, strategy_ready strategy nodes cs -> bindings_ready b cs) ->
  exists b', foldM run_table_op ops b = Some b' /\
    (bindings_ok b' /\ forall cs, bindings_ready b cs -> bindings_ready b' cs) /\
    forall cs, strategy_ready strategy nodes cs -> bindings_ready b' cs.
Proof.
  intros Hops Hok Hr. set (I b' := (bindings_ok b' /\ (forall cs, bindings_ready b cs -> bindings_ready b' cs)) /\
    forall cs, strategy_ready strategy nodes cs -> bindings_ready b' cs).
  apply (foldM_inv_Forall run_table_op I (op_ready strategy nodes)); [|done|by repeat split].
  intros op b1 Hop [[Hok1 Hb1] Hr1]. destruct op as [identity cs text|program|x|program text x|m x]; simpl.
  - destruct (bind_spec identity cs text b1 Hok1 (Hr1 cs Hop)) as (r & b2 & -> & Hok2 & Hr2 & _).
    exists b2. split; [done|]. unfold I. split_and!; auto.
  - eexists. split; [done|]. exact (conj (conj Hok1 Hb1) Hr1).
  - eexists. split; [done|]. exact (conj (conj Hok1 Hb1) Hr1).
  - unfold commit_binding. destruct (commit_contract (ref_model_pool program) text x (policy b1) Hok1) as (p & -> & Hp & Hpr).
    eexists. split; [done|]. unfold I, bindings_ok, bindings_ready in *. cbn [policy]. split_and!; auto.
  - unfold remove_affinity_target. destruct (remove_contract m x (policy b1) Hok1) as (p & -> & Hp & Hpr).
    eexists. split; [done|]. unfold I, bindings_ok, bindings_ready in *. cbn [policy]. split_and!; auto.
Qed.

(** A table that hashes keeps the number of virtual nodes. *)
Definition hash_table (nodes : N) (b : ProgramBindings) : Prop :=
  exists p, policy b = HashBinding p /\ rings_ok p /\ virtual_nodes p = nodes.

Lemma hash_table_bind nodes identity cs text b : hash_table nodes b ->
  exists r b', bind identity cs text b = Some (r, b') /\ hash_table nodes b' /\
    (live_binding identity cs b = None ->
      r = ring_owner (fbi_hash (as_bytes (id_placement_hash_key identity)))
            (build_ring nodes (cand_target_id <$> sort_by compare_target cs))).
Proof.
  intros (p & Ep & Hp & Hv). unfold bind. destruct (live_binding identity cs b) as [x|].
  - exists (Some x), b. split_and!; [done| |done]. by exists p.
  - rewrite Ep. simpl. destruct (hash_select_eq identity (sort_by compare_target cs) p Hp) as (p' & -> & Hp' & Hv').
    rewrite Hv. cbn [mbind option_bind lift_select fmap option_fmap option_map fst snd].
    destruct (ring_owner _ _) as [x|]; eexists _, _; (split_and!; [done| |done]); exists p'; split_and!; [done|done|congruence|done|done|congruence].
Qed.

Lemma hash_table_run nodes ops b : hash_table nodes b ->
  exists b', foldM run_table_op ops b = Some b' /\ hash_table nodes b'.
Proof.
  apply foldM_inv. intros [identity cs text|program|x|program text x|m x] b1 Hb1; simpl.
  - destruct (hash_table_bind nodes identity cs text b1 Hb1) as (r & b2 & -> & Hb2 & _). by exists b2.
  - by eexists.
  - by eexists.
  - destruct Hb1 as (p & Ep & Hp). unfold commit_binding. rewrite Ep. simpl. eexists. split; [done|]. by exists p.
  - destruct Hb1 as (p & Ep & Hp). unfold remove_affinity_target. rewrite Ep. simpl. eexists. split; [done|]. by exists p.
Qed.

End table.

(** ** The table of a router *)

(** In any sequence of calls the table of bindings answers every call.  A
    program bound to one of the candidates keeps its target and the table does
    not change; another is bound to the candidate its strategy picks, which is
    recorded and is one of the candidates, and it gets none only without
    candidates. *)
Theorem bind_picks `{Unordered} strategy nodes counter ops identity cs text :
  Forall (op_ready strategy nodes) ops -> strategy_ready strategy nodes cs ->
  exists b r b', foldM run_table_op ops (new_bindings strategy nodes counter) = Some b /\
    bind identity cs text b = Some (r, b') /\ (r = None <-> cs = []) /\
    (forall x, r = Some x -> x ∈ cand_target_id <$> cs) /\
    (forall x, live_binding identity cs b = Some x -> r = Some x /\ b' = b) /\
    (live_binding identity cs b = None -> bindings b' = match r with
      | Some x => <[key_of_identity identity := x]> (bindings b)
      | None => bindings b
      end /\ forall x, r = Some x -> picks (policy b) identity (sort_by compare_target cs) text x).
Proof.
  intros Hops Hcs.
  destruct (run_table_ok strategy nodes ops (new_bindings strategy nodes counter) Hops (new_bindings_ok _ _ _))
    as (b & E & [Hok _] & Hr); [intros; by apply new_bindings_ready|].
  destruct (bind_spec identity cs text b Hok (Hr cs Hcs)) as (r & b' & Eb & _ & _ & Hrest). by exists b, r, b'.
Qed.

(** With consistent hashing, routers that saw different calls still agree: a
    program that is bound to none of the candidates gets from any table the same
    target, and without target [x] it gets the same target again, unless that
    was [x]. *)
Theorem binding_disruption `{Unordered} nodes counter1 counter2 ops1 ops2 identity cs x text1 text2 :
  let without := filter (fun c => cand_target_id c <> x) cs in
  exists b1 b2, foldM run_table_op ops1 (new_bindings ConsistentHash nodes counter1) = Some b1 /\
    foldM run_table_op ops2 (new_bindings ConsistentHash nodes counter2) = Some b2 /\
    (live_binding identity cs b1 = None -> exists r b1', bind identity cs text1 b1 = Some (r, b1') /\
      (live_binding identity cs b2 = None -> exists b2', bind identity cs text2 b2 = Some (r, b2')) /\
      (forall y, r = Some y -> y <> x -> live_binding identity without b2 = None ->
        exists b2', bind identity without text2 b2 = Some (Some y, b2'))).
Proof.
  intros without.
  assert (forall counter, hash_table nodes (new_bindings ConsistentHash nodes counter)) as Hnew.
  { intros counter. eexists. split_and!; [done| |done]. intros m ts r. simpl. by rewrite lookup_empty. }
  destruct (hash_table_run nodes ops1 _ (Hnew counter1)) as (b1 & -> & H1).
  destruct (hash_table_run nodes ops2 _ (Hnew counter2)) as (b2 & -> & H2).
  exists b1, b2. do 2 (split; [done|]). intros Hl1.
  destruct (hash_table_bind nodes identity cs text1 b1 H1) as (r & b1' & E1 & _ & Hr). specialize (Hr Hl1).
  exists r, b1'. split_and!; [done| |].
  - intros Hl2. destruct (hash_table_bind nodes identity cs text2 b2 H2) as (r2 & b2' & E2 & _ & Hr2).
    exists b2'. by rewrite E2, (Hr2 Hl2), Hr.
  - intros y -> Hy Hl2. destruct (hash_table_bind nodes identity without text2 b2 H2) as (r2 & b2' & E2 & _ & Hr2).
    exists b2'. rewrite E2, (Hr2 Hl2). do 2 f_equal. unfold without.
    rewrite (sort_by_filter compare_target (total_key cand_target_id _ string_total)).
    pose proof (filter_of_fmap cand_target_id (fun u => u <> x) (sort_by compare_target cs)) as Hf. rewrite <- Hf.
    by apply ring_owner_remove.
Qed.

(** ** Examples *)

Definition program_identity (m p : string) : ProgramIdentity :=
  {| id_model_pool := m; id_program_id := p; id_placement_hash_key := p; id_placement_key := p;
     id_expected_resume := true; id_task_id := None; id_session_id := None; id_agent_id := None;
     id_parent_program_id := None; id_root_program_id := None; id_blocks_parent := false; id_agent_role := None;
     id_spawn_reason := None; id_step_id := None; id_request_hints := default_hints |}.

Definition idle_candidate (t : string) (programs : N) : ProgramBindingCandidate :=
  MkBindingCandidate t programs (S754_zero false) (Some 1000) (S754_zero false) true.

(** ** Witnesses *)

Lemma bind_picks_witness :
  exists b b', foldM run_table_op [OpBind (program_identity "m" "p") [idle_candidate "t1" 0] None]
      (new_bindings ReasoningTokenBalance 0 0) = Some b /\
    bind (program_identity "m" "q") [idle_candidate "t2" 0; idle_candidate "t1" 3] None b = Some (Some "t1"%string, b') /\
    live_binding (program_identity "m" "p") [idle_candidate "t2" 0; idle_candidate "t1" 0] b = Some "t1"%string.
Proof.
  destruct (bind_picks ReasoningTokenBalance 0 0 [OpBind (program_identity "m" "p") [idle_candidate "t1" 0] None]
    (program_identity "m" "q") [idle_candidate "t2" 0; idle_candidate "t1" 3] None) as (b & r & b' & E & Eb & _).
  - repeat constructor; eexists; reflexivity.
  - repeat constructor; eexists; reflexivity.
  - exists b, b'. split; [exact E|]. vm_compute in E. injection E as <-. split; [|reflexivity].
    rewrite Eb. vm_compute in Eb. by injection Eb as <- <-.
Defined.
