(* ===== verification/Factors.v ===== *)
(** * Progress-TTL estimates ([src/program_scheduling/factors.rs], [policy.rs])

    The scheduler keeps three windows of recent samples for every target and
    computes its estimates from them: the rounds a program may expect, the growth
    to reserve, the gain of a larger batch and how long an idle program keeps its
    place.  Numbers are those of the source, bit for bit; the logarithm and the
    exponential come from the platform's library and are a class.  An estimate
    that panics is [None]. *)

From S2P Require Import Prelude Ieee.

Local Open Scope N_scope.

(** ** Samples *)

Record RequestSample := MkSample {
  sample_prompt_tokens : N;                     (* usize *)
  sample_completion_tokens : N;
  sample_cached_prompt_tokens : N;
  context_growth_tokens : option N;
  e2e_seconds : f64;
  decode_seconds : option f64;
  queue_seconds : f64;
  sample_rounds_since_ttl_pause : N;
  finished_at : N;                              (* Instant *)
}.

Record ContinuitySample := MkContinuity {
  interval_seconds : f64;
  cache_miss_impact : f64;
}.

Record ProgressTtlFactors := MkFactors {
  factor_requests : list RequestSample;         (* VecDeque, oldest first *)
  continuities : list ContinuitySample;
  ttl_pause_rounds : list N;
}.

Definition default_factors : ProgressTtlFactors := MkFactors [] [] [].

Definition push_bounded {T} (window : list T) (sample : T) (limit : N) : list T :=
  if limit =? 0 then window
  else
    let window := if N.of_nat (length window) =? limit then tail window else window in
    window ++ [sample].

Definition push_request (sample : RequestSample) (limit : N) (f : ProgressTtlFactors) : ProgressTtlFactors :=
  MkFactors (push_bounded (factor_requests f) sample limit) (continuities f) (ttl_pause_rounds f).

Definition push_continuity (sample : ContinuitySample) (limit : N) (f : ProgressTtlFactors) : ProgressTtlFactors :=
  MkFactors (factor_requests f) (push_bounded (continuities f) sample limit) (ttl_pause_rounds f).

Definition push_ttl_pause_rounds (rounds limit : N) (f : ProgressTtlFactors) : ProgressTtlFactors :=
  MkFactors (factor_requests f) (continuities f) (push_bounded (ttl_pause_rounds f) rounds limit).

Definition request_window_complete (limit : N) (f : ProgressTtlFactors) : bool :=
  (0 <? limit) && (limit <=? N.of_nat (length (factor_requests f))).

Definition continuity_window_complete (limit : N) (f : ProgressTtlFactors) : bool :=
  (0 <? limit) && (limit <=? N.of_nat (length (continuities f))).

(** ** Averages *)

Definition optional_average (values : list f64) : option f64 :=
  let '(sum, count) := foldl (fun '(sum, count) value => (f64_add sum value, count + 1)) (S754_zero false, 0) values in
  if 0 <? count then Some (f64_div sum (usize_as_f64 count)) else None.

Definition average (values : list f64) : f64 := default (S754_zero false) (optional_average values).

Definition average_context_growth_tokens (f : ProgressTtlFactors) : f64 :=
  average (omap (fun s => usize_as_f64 <$> context_growth_tokens s) (factor_requests f)).

Definition average_prompt_tokens (f : ProgressTtlFactors) : f64 :=
  average ((fun s => usize_as_f64 (sample_prompt_tokens s)) <$> factor_requests f).

Definition average_completion_tokens (f : ProgressTtlFactors) : f64 :=
  average ((fun s => usize_as_f64 (sample_completion_tokens s)) <$> factor_requests f).

Definition average_e2e_seconds (f : ProgressTtlFactors) : f64 := average (e2e_seconds <$> factor_requests f).

Definition average_decode_seconds (f : ProgressTtlFactors) : option f64 :=
  optional_average
    (filter (fun seconds => is_finite seconds && f64_ge seconds (S754_zero false)) (omap decode_seconds (factor_requests f))).

Definition average_cached_prompt_tokens (f : ProgressTtlFactors) : f64 :=
  average ((fun s => usize_as_f64 (sample_cached_prompt_tokens s)) <$> factor_requests f).

Definition average_uncached_prompt_tokens (f : ProgressTtlFactors) : f64 :=
  average ((fun s => usize_as_f64 (saturating_sub (sample_prompt_tokens s) (sample_cached_prompt_tokens s)))
    <$> factor_requests f).

Definition average_rounds_since_ttl_pause (f : ProgressTtlFactors) : f64 :=
  average ((fun s => usize_as_f64 (sample_rounds_since_ttl_pause s)) <$> factor_requests f).

Definition request_throughput_per_second (f : ProgressTtlFactors) : f64 :=
  match head (factor_requests f), last (factor_requests f) with
  | Some first, Some last =>
      let n := N.of_nat (length (factor_requests f)) in
      let elapsed := saturating_sub (finished_at last) (finished_at first) in
      if n <? 2 then S754_zero false
      else if elapsed =? 0 then S754_zero false
      else f64_div (usize_as_f64 (n - 1)) (as_secs_f64 elapsed)
  | _, _ => S754_zero false
  end.

(** ** Configuration *)

Record PrefillCostModel := MkPrefill {
  intercept_seconds : f64;
  linear_seconds_per_1k_tokens : f64;
  quadratic_seconds_per_1k_tokens_squared : f64;
  decode_throughput_alpha : f64;
}.

Definition default_prefill : PrefillCostModel :=
  MkPrefill (f64_dec 6600061907132926 100000000000000000) (f64_dec 5702024012166613 100000000000000000)
    (f64_dec 44057347937978475 10000000000000000000) (f64_dec 15 100).

Record DecodeThroughputModel := MkDecode {
  fixed_step_seconds : f64;
  batch_step_seconds_per_request : f64;
  context_step_seconds_per_token : f64;
}.

Definition default_decode : DecodeThroughputModel :=
  MkDecode (f64_dec 10635218423115973 1000000000000000000) (f64_dec 4192803698834784 10000000000000000000)
    (f64_dec 1420458414996201 10000000000000000000000).

Record ProgressTtlConfig := MkTtlConfig {
  token_capacity : option N;                    (* Option<usize> *)
  decode_buffer_tokens : N;
  max_acting_ttl : N;                           (* Duration *)
  high_watermark_ratio : f64;
  low_watermark_ratio : f64;
  max_segment_rounds : N;
  stats_window_size : N;
  enable_batch_gain_admission : bool;
  prefill : PrefillCostModel;
  decode : DecodeThroughputModel;
}.

Definition default_ttl_config : ProgressTtlConfig :=
  MkTtlConfig None 100 (from_secs 10) (f64_lit 1 1) (f64_lit 1 1) 14 100 true default_prefill default_decode.

(** ** Estimates *)

(** [f64::ln], [f64::exp] and [x.powi(2)] *)
Class Libm := { ln : f64 -> f64; exp : f64 -> f64; powi2 : f64 -> f64 }.

Section policy.
Context `{M : Libm} (cfg : ProgressTtlConfig).

Definition f0 : f64 := S754_zero false.
Definition f1 : f64 := f64_lit 1 1.
Definition f2 : f64 := f64_lit 2 1.

Definition cache_miss_impact_seconds (uncached_prompt_tokens : N) : f64 :=
  if uncached_prompt_tokens =? 0 then f0
  else
    let x := f64_div (usize_as_f64 uncached_prompt_tokens) (f64_lit 1000 1) in
    let prefill_seconds :=
      f64_add (f64_add (intercept_seconds (prefill cfg)) (f64_mul (linear_seconds_per_1k_tokens (prefill cfg)) x))
        (f64_mul (f64_mul (quadratic_seconds_per_1k_tokens_squared (prefill cfg)) x) x) in
    f64_mul prefill_seconds (f64_sub f2 (decode_throughput_alpha (prefill cfg))).

Definition SQRT_2 : f64 := f64_dec 141421356237309504880 100000000000000000000.

Definition normal_cdf (value : f64) : f64 :=
  let x := f64_div value SQRT_2 in
  let sign := if f64_lt x f0 then f64_neg f1 else f1 in
  let x := f64_abs x in
  let t := f64_div f1 (f64_add f1 (f64_mul (f64_dec 3275911 10000000) x)) in
  let polynomial :=
    f64_mul (f64_add (f64_mul (f64_sub (f64_mul (f64_add (f64_mul (f64_sub
      (f64_mul (f64_dec 1061405429 1000000000) t) (f64_dec 1453152027 1000000000)) t)
      (f64_dec 1421413741 1000000000)) t) (f64_dec 284496736 1000000000)) t) (f64_dec 254829592 1000000000)) t in
  let erf := f64_mul sign (f64_sub f1 (f64_mul polynomial (exp (f64_mul (f64_neg x) x)))) in
  f64_clamp (f64_mul (f64_dec 1 2) (f64_add f1 erf)) f0 f1.

(** The expected gain of keeping an idle program for [ttl] seconds. *)
Definition ttl_utility (cost log_mean log_sigma lognormal_mean ttl : f64) : f64 :=
  if f64_le ttl f0 then f0
  else
    let z := f64_div (f64_sub (ln ttl) log_mean) log_sigma in
    let hit_probability := normal_cdf z in
    let truncated_interval :=
      f64_mul lognormal_mean
        (normal_cdf (f64_div (f64_sub (f64_sub (ln ttl) log_mean) (f64_mul log_sigma log_sigma)) log_sigma)) in
    f64_sub (f64_sub (f64_mul cost hit_probability) truncated_interval)
      (f64_mul ttl (f64_sub f1 hit_probability)).

(** The values of [ttl] that are tried. *)
Definition ttl_candidates (min_ttl max_ttl : f64) : list f64 :=
  [f0; min_ttl; max_ttl] ++
  if float_gt max_ttl min_ttl then
    let log_min := ln min_ttl in
    let log_max := ln max_ttl in
    (fun index : nat =>
       let ratio := f64_div (usize_as_f64 (N.of_nat index)) (f64_lit 31 1) in
       exp (f64_add log_min (f64_mul (f64_sub log_max log_min) ratio))) <$> seq 0 32
  else [].

(** The last of the best, with its utility. *)
Definition best_ttl (utility : f64 -> f64) (candidates : list f64) : f64 * f64 :=
  foldl (fun best ttl => let u := utility ttl in if f64_ge u best.2 then (ttl, u) else best)
    (f0, S754_infinity true) candidates.

Definition fitted_acting_ttl (factors : ProgressTtlFactors) (cost : f64) : option N :=
  if negb (continuity_window_complete (stats_window_size cfg) factors) then Some 0
  else
    let intervals := filter (fun interval => is_finite interval && float_gt interval f0)
      (interval_seconds <$> continuities factors) in
    match intervals with
    | [] => Some 0
    | _ =>
        let n := usize_as_f64 (N.of_nat (length intervals)) in
        let log_mean := f64_div (f64_sum (ln <$> intervals)) n in
        let log_variance := f64_div (f64_sum ((fun interval => powi2 (f64_sub (ln interval) log_mean)) <$> intervals)) n in
        let log_sigma := f64_max (f64_sqrt log_variance) (f64_dec 1 1000000) in
        let max_ttl := f64_min (as_secs_f64 (max_acting_ttl cfg)) cost in
        if f64_le max_ttl f0 || f64_le cost f0 then Some 0
        else
          let min_ttl := f64_min (f64_dec 5 100) max_ttl in
          let lognormal_mean := exp (f64_add log_mean (f64_div (f64_mul log_sigma log_sigma) f2)) in
          let best := best_ttl (ttl_utility cost log_mean log_sigma lognormal_mean) (ttl_candidates min_ttl max_ttl) in
          if f64_lt best.2 f0 then Some 0 else from_secs_f64 best.1
    end.

Definition target_rounds (factors : ProgressTtlFactors) : option f64 :=
  if negb (request_window_complete (stats_window_size cfg) factors) then Some f0
  else f64_try_clamp (f64_ceil (f64_mul f2 (average_rounds_since_ttl_pause factors))) f1
         (usize_as_f64 (max_segment_rounds cfg)).

Definition continuous_growth_reserve_tokens (factors : ProgressTtlFactors) (active_remaining_rounds : list f64)
  : option f64 :=
  rounds ← target_rounds factors;
  let growth := average_context_growth_tokens factors in
  if f64_le rounds f0 || f64_le growth f0 then Some f0
  else Some (f64_mul growth (f64_add rounds (f64_sum active_remaining_rounds))).

Definition decode_throughput (batch_size total_context_tokens : N) : f64 :=
  let batch := usize_as_f64 batch_size in
  f64_div batch
    (f64_add (f64_add (fixed_step_seconds (decode cfg)) (f64_mul (batch_step_seconds_per_request (decode cfg)) batch))
       (f64_mul (context_step_seconds_per_token (decode cfg)) (usize_as_f64 total_context_tokens))).

Record BatchGainInputs := MkGainInputs {
  gain_factors : ProgressTtlFactors;
  batch_size_before : N;
  total_context_tokens_before : N;
  candidate_context_tokens : N;
  gain_used_tokens : f64;
  gain_required_tokens : f64;
  protected_remaining_rounds : list f64;
  protected_recovery_cost_seconds : list f64;
  candidate_recovery_cost_seconds : f64;
}.

Record BatchGainEstimate := MkGain {
  batch_gain_seconds : f64;
  gain_candidate_cost_seconds : f64;
  continuity_loss_seconds : f64;
  admits : bool;
}.

(** [f64::EPSILON] *)
Definition EPSILON : f64 := f64_dec 1 4503599627370496.

(** What the programs already running would lose. *)
Definition continuity_loss (capacity : N) (input : BatchGainInputs) : option f64 :=
  let growth := average_context_growth_tokens (gain_factors input) in
  if f64_le growth f0 then Some f0
  else
    rounds ← target_rounds (gain_factors input);
    let total_protected_rounds := f64_sum (protected_remaining_rounds input) in
    let remaining := f64_max (f64_sub (f64_mul (usize_as_f64 capacity) (low_watermark_ratio cfg)) (gain_used_tokens input)) f0 in
    let before := f64_min total_protected_rounds (f64_div remaining growth) in
    let after := f64_min total_protected_rounds
      (f64_div (f64_max (f64_sub (f64_sub remaining (gain_required_tokens input)) (f64_mul growth rounds)) f0) growth) in
    Some
      (if float_gt before f0 && f64_le after EPSILON then S754_infinity false
       else if bool_decide (protected_recovery_cost_seconds input = []) || f64_le after EPSILON then f0
       else f64_mul (f64_div (f64_max (f64_sub before after) f0) after) (average (protected_recovery_cost_seconds input))).

Definition estimate_batch_gain (input : BatchGainInputs) : option BatchGainEstimate :=
  let cost := candidate_recovery_cost_seconds input in
  let disabled := MkGain f0 cost f0 false in
  match token_capacity cfg with
  | None => Some disabled
  | Some capacity =>
      if negb (enable_batch_gain_admission cfg)
         || negb (request_window_complete (stats_window_size cfg) (gain_factors input))
         || (batch_size_before input =? 0)
      then Some disabled
      else
        let throughput_before := decode_throughput (batch_size_before input) (total_context_tokens_before input) in
        let throughput_after := decode_throughput (batch_size_before input + 1)
          (u64_saturating_add (total_context_tokens_before input) (candidate_context_tokens input)) in
        if f64_le throughput_before f0 then Some disabled
        else
          let relative_batch_gain := f64_max (f64_sub (f64_div throughput_after throughput_before) f1) f0 in
          let average_decode := default
            (f64_div (f64_mul (usize_as_f64 (batch_size_before input)) (average_completion_tokens (gain_factors input)))
               throughput_before) (average_decode_seconds (gain_factors input)) in
          if negb (is_finite average_decode) || f64_le average_decode f0 then Some disabled
          else
            let gain := f64_mul average_decode relative_batch_gain in
            loss ← continuity_loss capacity input;
            Some (MkGain gain cost loss (f64_ge gain (f64_add cost loss)))
  end.

End policy.

(** ** The windows *)

(** The last [n] elements of a list. *)
Definition last_n {A} (n : nat) (l : list A) : list A := drop (length l - n) l.

Lemma push_bounded_last {T} (w : list T) x limit : 0 < limit -> (length w <= N.to_nat limit)%nat ->
  push_bounded w x limit = last_n (N.to_nat limit) (w ++ [x]).
Proof.
  intros Hl Hw. unfold push_bounded, last_n. rewrite (proj2 (N.eqb_neq limit 0)) by lia. rewrite length_app. simpl.
  destruct (N.eqb_spec (N.of_nat (length w)) limit) as [E|E].
  - replace (length w + 1 - N.to_nat limit)%nat with 1%nat by lia. destruct w; [simpl in *; lia|done].
  - by replace (length w + 1 - N.to_nat limit)%nat with 0%nat by lia.
Qed.

Lemma last_n_snoc {A} n (l : list A) x : last_n n (last_n n l ++ [x]) = last_n n (l ++ [x]).
Proof.
  unfold last_n. rewrite !length_app, length_drop. simpl. destruct (decide (length l <= n)%nat).
  - replace (length l - n)%nat with 0%nat by lia. rewrite drop_0. do 2 f_equal. lia.
  - replace (length l - (length l - n) + 1 - n)%nat with 1%nat by lia.
    rewrite <- (drop_app_le l [x]) by lia. rewrite drop_drop. f_equal. lia.
Qed.

(** A window holds the last samples pushed, at most [limit] of them. *)
Lemma window_last {T} (xs : list T) limit : 0 < limit ->
  foldl (fun w x => push_bounded w x limit) [] xs = last_n (N.to_nat limit) xs.
Proof.
  intros Hl. induction xs as [|x xs IH] using rev_ind; [done|].
  rewrite foldl_snoc, IH, push_bounded_last, last_n_snoc; [done..|]. unfold last_n. rewrite length_drop. lia.
Qed.

Lemma push_bounded_length {T} (w : list T) x limit :
  (length w <= N.to_nat limit)%nat -> (length (push_bounded w x limit) <= N.to_nat limit)%nat.
Proof.
  intros Hw. unfold push_bounded. destruct (N.eqb_spec limit 0); [done|]. rewrite length_app. simpl.
  destruct (N.eqb_spec (N.of_nat (length w)) limit); [|lia]. destruct w; simpl in *; lia.
Qed.
