(* ===== verification/SchedulerState.v ===== *)
(** * The state of the program scheduler ([src/program_scheduling/scheduler_state.rs])

    The configuration, the scheduling facts of one program generation, the
    observations of one target and the state behind the scheduler's lock.
    Instants and durations are nanoseconds. *)

From S2P Require Import Prelude RequestPool ProgramRuntime Lineage Ieee Factors Binding.

Local Open Scope N_scope.

(** ** Configuration *)

Inductive ProgramResumeOrder := Fcfs | Mru.

Inductive ProgramSchedulingEnableKey := AgenticContext | Auto.

Record ProgramSchedulerConfig := MkSchedulerConfig {
  enable_key : ProgramSchedulingEnableKey;
  binding_only : bool;
  global_queue : bool;
  resume_order : ProgramResumeOrder;
  cross_rank_headroom_ratio : f64;
  binding_strategy : ProgramBindingStrategy;
  hash_virtual_nodes : N;                       (* u32 *)
  max_active_programs_per_target : N;           (* usize *)
  metrics_interval : N;                         (* Duration *)
  admission_waiting_request_threshold : N;      (* usize *)
  queue_timeout : N;                            (* Duration *)
  force_resume_timeout_limit : N;               (* Duration *)
  paused_retention_ttl : N;                     (* Duration *)
  shared_prefix_freshness_warmup : N;           (* Duration *)
  shared_prefix_freshness_kv_turnovers : f64;
  progress_ttl : ProgressTtlConfig;
}.

Definition default_scheduler_config : ProgramSchedulerConfig :=
  MkSchedulerConfig AgenticContext false false Mru (f64_dec 12 10) ConsistentHash 160 64 (from_secs 1) 1
    (from_secs 600) (from_secs 300) (from_secs 1800) (from_secs 100) (f64_lit 2 1) default_ttl_config.

(** ** One program *)

Inductive ProgramPauseReason :=
| TtlExpired
| CapacityRepair
| MaxSegmentYield
| RequestFailed
| RequestCancelled.

#[export] Instance ProgramPauseReason_eq_dec : EqDecision ProgramPauseReason.
Proof. solve_decision. Defined.

Record ProgramDecisionState := MkDecision {
  placement_key : string;
  placement_hash_key : string;
  task_id : option string;
  session_id : option string;
  agent_id : option string;
  parent_program_id : option string;
  blocks_parent : bool;
  agent_role : option string;
  spawn_reason : option string;
  step_id : N;                                  (* u64 *)
  home_target : option string;
  last_target : option string;
  context_tokens : N;                           (* estimated_context_tokens *)
  output_token_reservation : option N;
  context_shrink_observations : N;              (* u8 *)
  completed_requests : N;
  segment_served_rounds : N;
  rounds_since_activation : N;
  ttl_pause_sampled_segment_rounds : N;
  rounds_since_ttl_pause : N;
  segment_started_at : option N;                (* Instant *)
  last_context_tokens : option N;
  last_completion_tokens : N;
  shared_prefix_tokens : N;
  shared_prefix_observed : bool;
  shared_prefix_freshness_anchor_at : N;        (* Instant *)
  shared_prefix_fresh_until : option N;         (* Instant *)
  lifetime_generated_tokens : N;
  last_request_finished_at : option N;          (* Instant *)
  last_cache_miss_impact_seconds : f64;
  acting_since : option N;                      (* Instant *)
  ttl_deadline : option N;                      (* Instant *)
  queued_at : option N;                         (* Instant *)
  force_resume_deadline : option N;             (* Instant *)
  force_resume_timeout : option N;              (* Duration *)
  force_resume_active_remaining_rounds : f64;
  force_resume_pool_remaining_rounds : f64;
  force_resume_request_throughput_per_second : f64;
  paused_at : option N;                         (* Instant *)
  last_pause_reason : option ProgramPauseReason;
  pause_when_idle : bool;
  terminate_when_idle : bool;
}.

#[export] Instance ProgramDecisionState_eta : Eta ProgramDecisionState := fun d =>
  MkDecision (placement_key d) (placement_hash_key d) (task_id d) (session_id d) (agent_id d) (parent_program_id d)
    (blocks_parent d) (agent_role d) (spawn_reason d) (step_id d) (home_target d) (last_target d) (context_tokens d)
    (output_token_reservation d) (context_shrink_observations d) (completed_requests d) (segment_served_rounds d)
    (rounds_since_activation d) (ttl_pause_sampled_segment_rounds d) (rounds_since_ttl_pause d) (segment_started_at d)
    (last_context_tokens d) (last_completion_tokens d) (shared_prefix_tokens d) (shared_prefix_observed d)
    (shared_prefix_freshness_anchor_at d) (shared_prefix_fresh_until d) (lifetime_generated_tokens d)
    (last_request_finished_at d) (last_cache_miss_impact_seconds d) (acting_since d) (ttl_deadline d) (queued_at d)
    (force_resume_deadline d) (force_resume_timeout d) (force_resume_active_remaining_rounds d)
    (force_resume_pool_remaining_rounds d) (force_resume_request_throughput_per_second d) (paused_at d)
    (last_pause_reason d) (pause_when_idle d) (terminate_when_idle d).

Definition new_decision (placement_key placement_hash_key : string) (home : option string) (estimate now : N)
  : ProgramDecisionState :=
  MkDecision placement_key placement_hash_key None None None None false None None 0 home home estimate None 0 0 0 0 0 0
    None None 0 0 false now None 0 None f0 None None (Some now) None None f0 f0 f0 (Some now) None false false.

Definition private_tokens_with_output (decode_buffer_tokens : N) (expected_output_tokens : option N)
    (d : ProgramDecisionState) : f64 :=
  usize_as_f64 (u64_saturating_add (saturating_sub (context_tokens d) (shared_prefix_tokens d))
    (default decode_buffer_tokens (expected_output_tokens ∪ output_token_reservation d))).

Definition private_tokens (decode_buffer_tokens : N) (d : ProgramDecisionState) : f64 :=
  private_tokens_with_output decode_buffer_tokens None d.

Local Open Scope update_scope.

Definition observe_completed_context (observed : N) (d : ProgramDecisionState) : ProgramDecisionState :=
  if context_tokens d <=? observed then d <| context_tokens := observed |> <| context_shrink_observations := 0 |>
  else
    let d := d <| context_shrink_observations := N.min (context_shrink_observations d + 1) 255 |> in
    if 2 <=? context_shrink_observations d
    then d <| context_tokens := observed |> <| context_shrink_observations := 0 |>
    else d.

(** ** One target *)

(** [ProgramTarget] of [domain.rs]. *)
Record ProgramTarget := MkTarget {
  pt_id : string;
  pt_base_url : string;
  pt_dp_rank : option N;
}.

#[export] Instance ProgramTarget_eq_dec : EqDecision ProgramTarget.
Proof. solve_decision. Defined.

Inductive CapacityAccountingSource :=
| FromBackendObservation
| RouterLedgerMissingObservation
| RouterLedgerStaleObservation
| RouterLedgerMissingTokenEstimate.

Record RankObservationState := MkObservation {
  kv_cache_usage : option f64;
  running_requests : option N;
  waiting_requests : option N;
  router_active_reasoning_programs : N;
  router_active_reasoning_requests : N;
  estimated_active_reasoning_tokens : option f64;
  estimated_active_program_tokens : option f64;
  observed_at : option N;                       (* Instant *)
  active_program_token_delta : f64;
  reported_capacity_source : option CapacityAccountingSource;
}.

#[export] Instance RankObservationState_eta : Eta RankObservationState := fun o =>
  MkObservation (kv_cache_usage o) (running_requests o) (waiting_requests o) (router_active_reasoning_programs o)
    (router_active_reasoning_requests o) (estimated_active_reasoning_tokens o) (estimated_active_program_tokens o)
    (observed_at o) (active_program_token_delta o) (reported_capacity_source o).

Definition default_observation : RankObservationState := MkObservation None None None 0 0 None None None f0 None.

(** ** The state behind the lock *)

(** [Arc<[ProgramTarget]>]: [Arc::ptr_eq] compares addresses. *)
Record TargetSnapshot := MkSnapshot {
  snapshot_addr : nat;
  snapshot_targets : list ProgramTarget;
}.

Record ProgramSchedulerState := MkState {
  runtime : ProgramRuntime;
  table : ProgramBindings;                      (* bindings *)
  decisions : gmap ProgramRef ProgramDecisionState;
  targets : gmap string ProgramTarget;          (* BTreeMap *)
  model_targets : gmap string (gset string);    (* HashMap of BTreeSets *)
  model_target_snapshots : gmap string TargetSnapshot;
  target_snapshot_revision : N;                 (* u64 *)
  rank_queues : gmap string (list ProgramRef);  (* HashMap of VecDeques *)
  global_queues : gmap string (list ProgramRef);
  observations : gmap string RankObservationState;
  rank_factors : gmap string ProgressTtlFactors;
  lineage : ProgramLineage;
}.

#[export] Instance ProgramSchedulerState_eta : Eta ProgramSchedulerState := fun s =>
  MkState (runtime s) (table s) (decisions s) (targets s) (model_targets s) (model_target_snapshots s)
    (target_snapshot_revision s) (rank_queues s) (global_queues s) (observations s) (rank_factors s) (lineage s).

Definition new_state (cfg : ProgramSchedulerConfig) (counter : N) : ProgramSchedulerState :=
  MkState empty_runtime (new_bindings (binding_strategy cfg) (hash_virtual_nodes cfg) counter)
    ∅ ∅ ∅ ∅ 0 ∅ ∅ ∅ ∅ ∅.

(** ** Accesses the modules share *)

(** [for queue in queues.values_mut() { queue.retain(|queued| queued != program) }] *)
Definition unqueue (program : ProgramRef) (queues : gmap string (list ProgramRef)) : gmap string (list ProgramRef) :=
  filter (fun queued => queued <> program) <$> queues.

(** Drop a program from every queue. *)
Definition unqueue_all (program : ProgramRef) (s : ProgramSchedulerState) : ProgramSchedulerState :=
  s <| rank_queues ::= unqueue program |> <| global_queues ::= unqueue program |>.

(** [queues.entry(key).or_default().push_back(program)] *)
Definition enqueue (key : string) (program : ProgramRef) (queues : gmap string (list ProgramRef))
  : gmap string (list ProgramRef) := <[key := default [] (queues !! key) ++ [program]]> queues.

(** [if let Some(decision) = decisions.get_mut(program) { ... }] *)
Definition with_decision (program : ProgramRef) (f : ProgramDecisionState -> ProgramDecisionState)
    (s : ProgramSchedulerState) : ProgramSchedulerState := s <| decisions ::= alter f program |>.

(** [factors.entry(target).or_default()] and a push *)
Definition with_factors (target_id : string) (f : ProgressTtlFactors -> ProgressTtlFactors)
    (s : ProgramSchedulerState) : ProgramSchedulerState :=
  s <| rank_factors ::= fun m => <[target_id := f (default default_factors (m !! target_id))]> m |>.

(** [observations.entry(target).or_default()] and a write *)
Definition with_observation (target_id : string) (f : RankObservationState -> RankObservationState)
    (s : ProgramSchedulerState) : ProgramSchedulerState :=
  s <| observations ::= fun m => <[target_id := f (default default_observation (m !! target_id))]> m |>.

Definition adjust_usage (target_id : string) (delta_tokens : f64) (s : ProgramSchedulerState) : ProgramSchedulerState :=
  with_observation target_id (fun o => o <| active_program_token_delta ::= fun x => f64_add x delta_tokens |>) s.

(** A program waits: it is paused, reasons and has retained requests. *)
Definition is_waiting (v : RuntimeProgramView) : bool :=
  bool_decide (view_state v = Paused) && bool_decide (view_status v = Reasoning) && (0 <? view_waiting_requests v).

(** The queued programs that wait. *)
Definition reasoning_waiters (queue : option (list ProgramRef)) (s : ProgramSchedulerState) : list ProgramRef :=
  filter (fun program => from_option is_waiting false (view program (runtime s)) = true) (default [] queue).
