(* ===== verification/Scheduler.v ===== *)
(** * Targets and observations of the program scheduler
      ([src/program_scheduling/scheduler.rs])

    Each method that takes the lock is one step on the state.  A panic is
    [None].  The clock readings a method takes are arguments; those of
    [sync_target_snapshot] are two for every program that is bound again. *)

From S2P Require Import Prelude RequestPool ProgramRuntime Lineage Ieee Factors PrefixTree Binding SchedulerState.

Local Open Scope N_scope.
Local Open Scope update_scope.

Section scheduler.
Context `{U : Unordered} (cfg : ProgramSchedulerConfig).

(** ** Usage of a target *)

Definition buffer : N := decode_buffer_tokens (progress_ttl cfg).

Definition observation_is_fresh (now : N) (o : RankObservationState) : bool :=
  match observed_at o with
  | Some at_ => saturating_sub now at_ <=? duration_saturating_mul (metrics_interval cfg) 3
  | None => false
  end.

(** The observation of a target, if it is fresh. *)
Definition fresh_observation (target_id : string) (now : N) (s : ProgramSchedulerState) : option RankObservationState :=
  o ← observations s !! target_id;
  if observation_is_fresh now o then Some o else None.

Definition observed_target_usage (target_id : string) (now : N) (s : ProgramSchedulerState) : option f64 :=
  o ← fresh_observation target_id now s;
  (fun tokens => f64_max (f64_add tokens (active_program_token_delta o)) f0) <$> estimated_active_program_tokens o.

(** The programs placed on a target. *)
Definition active_on (target_id : string) (rt : ProgramRuntime) : list RuntimeProgramViewRef :=
  filter (fun v => viewref_state v = Active /\ viewref_placement v = Some target_id) (iter_views rt).

(** The scheduling facts of the programs of a list of views. *)
Definition decisions_of (s : ProgramSchedulerState) (vs : list RuntimeProgramViewRef) : list ProgramDecisionState :=
  omap (fun v => decisions s !! viewref_reference v) vs.

Definition target_usage (target_id : string) (now : N) (s : ProgramSchedulerState) : f64 :=
  match observed_target_usage target_id now s with
  | Some tokens => tokens
  | None => f64_sum (private_tokens buffer <$> decisions_of s (active_on target_id (runtime s)))
  end.

Definition capacity_accounting_source (o : option RankObservationState) (now : N) : CapacityAccountingSource :=
  match o with
  | None => RouterLedgerMissingObservation
  | Some o =>
      match observed_at o with
      | None => RouterLedgerMissingObservation
      | Some at_ =>
          if duration_saturating_mul (metrics_interval cfg) 3 <? saturating_sub now at_ then RouterLedgerStaleObservation
          else match estimated_active_program_tokens o with
               | None => RouterLedgerMissingTokenEstimate
               | Some _ => FromBackendObservation
               end
      end
  end.

Definition report_capacity_accounting_transitions (now : N) (s : ProgramSchedulerState) : ProgramSchedulerState :=
  foldl (fun s target_id =>
    let source := capacity_accounting_source (observations s !! target_id) now in
    with_observation target_id (fun o => o <| reported_capacity_source := Some source |>) s)
    s (btree_iter (dom (targets s))).

(** ** Candidates for binding *)

Record BindingRuntimeSummary := MkSummary {
  sum_accounted_programs : N;
  sum_accounted_tokens : f64;
  pending_new_program_tokens : f64;
  sum_active_programs : N;
  router_usage : f64;
}.

#[local] Instance BindingRuntimeSummary_eta : Eta BindingRuntimeSummary := fun b =>
  MkSummary (sum_accounted_programs b) (sum_accounted_tokens b) (pending_new_program_tokens b) (sum_active_programs b)
    (router_usage b).

Definition default_summary : BindingRuntimeSummary := MkSummary 0 f0 f0 0 f0.

(** The placement of an active program. *)
Definition count_active (d : option ProgramDecisionState) (b : BindingRuntimeSummary) : BindingRuntimeSummary :=
  let b := b <| sum_active_programs ::= fun n => n + 1 |> in
  match d with
  | Some d => b <| router_usage ::= fun x => f64_add x (private_tokens buffer d) |>
  | None => b
  end.

(** The target a program is bound to. *)
Definition count_bound (v : RuntimeProgramViewRef) (d : ProgramDecisionState) (b : BindingRuntimeSummary)
  : BindingRuntimeSummary :=
  let tokens := private_tokens buffer d in
  let b :=
    if bool_decide (viewref_state v = Active) || bool_decide (viewref_status v = Reasoning)
    then b <| sum_accounted_programs ::= fun n => n + 1 |> <| sum_accounted_tokens ::= fun x => f64_add x tokens |>
    else b in
  if bool_decide (viewref_state v = Paused) && bool_decide (viewref_status v = Reasoning)
     && bool_decide (viewref_placement v = None) && (0 <? viewref_waiting_requests v) && (completed_requests d =? 0)
  then b <| pending_new_program_tokens ::= fun x => f64_add x tokens |>
  else b.

(** The loop over the programs: the context of the program itself and the
    summaries of the targets. *)
Definition summarize (identity : ProgramIdentity) (s : ProgramSchedulerState)
    (acc : N * gmap string BindingRuntimeSummary) (v : RuntimeProgramViewRef) : N * gmap string BindingRuntimeSummary :=
  let '(estimate, summaries) := acc in
  let estimate :=
    if bool_decide (key_of_ref (viewref_reference v) = key_of_identity identity)
    then viewref_estimated_context_tokens v else estimate in
  let d := decisions s !! viewref_reference v in
  let summaries :=
    match viewref_state v, viewref_placement v with
    | Active, Some target_id => alter (count_active d) target_id summaries
    | _, _ => summaries
    end in
  let summaries :=
    match d with
    | Some d =>
        match last_target d with
        | Some target_id => alter (count_bound v d) target_id summaries
        | None => summaries
        end
    | None => summaries
    end in
  (estimate, summaries).

Definition binding_candidate (required_tokens : f64) (now : N) (s : ProgramSchedulerState) (target_id : string)
    (b : BindingRuntimeSummary) : ProgramBindingCandidate :=
  let capacity := token_capacity (progress_ttl cfg) in
  let usage := default (router_usage b) (observed_target_usage target_id now s) in
  {| cand_target_id := target_id;
     accounted_programs := sum_accounted_programs b;
     accounted_tokens := sum_accounted_tokens b;
     cand_capacity_tokens := capacity;
     cand_kv_pressure :=
       match capacity with
       | None => f0
       | Some capacity =>
           if capacity =? 0 then f1
           else f64_clamp (f64_div (f64_add usage (pending_new_program_tokens b)) (usize_as_f64 capacity)) f0 f1
       end;
     immediately_admissible :=
       (u64_saturating_add (sum_active_programs b) 1 <=? max_active_programs_per_target cfg) &&
       match capacity with
       | None => true
       | Some capacity =>
           f64_le (f64_add usage required_tokens)
             (f64_mul (usize_as_f64 capacity) (low_watermark_ratio (progress_ttl cfg)))
       end |}.

Definition binding_candidates (identity : ProgramIdentity) (now : N) (s : ProgramSchedulerState)
  : list ProgramBindingCandidate :=
  match model_targets s !! id_model_pool identity with
  | None => []
  | Some target_ids =>
      let '(estimate, summaries) :=
        foldl (summarize identity s) (0, gset_to_gmap default_summary target_ids) (iter_views (runtime s)) in
      let required_tokens := usize_as_f64 (u64_saturating_add estimate buffer) in
      (fun target_id => binding_candidate required_tokens now s target_id (default default_summary (summaries !! target_id)))
        <$> btree_iter target_ids
  end.

(** ** The facts of a program *)

(** What every request says about its program. *)
Definition update_metadata (identity : ProgramIdentity) (step : N) (d : ProgramDecisionState) : ProgramDecisionState :=
  d <| task_id := id_task_id identity |> <| session_id := id_session_id identity |>
    <| agent_id := id_agent_id identity |> <| parent_program_id := id_parent_program_id identity |>
    <| blocks_parent := id_blocks_parent identity |> <| agent_role := id_agent_role identity |>
    <| spawn_reason := id_spawn_reason identity |>
    <| output_token_reservation := hint_expected_output_tokens (id_request_hints identity) |> <| step_id := step |>.

Definition ensure_decision_state (identity : ProgramIdentity) (reference : ProgramRef) (estimate now : N)
    (routing_text : option string) (s : ProgramSchedulerState) : option ProgramSchedulerState :=
  '(_, l) ← observe (size (lineage s) + 4) (id_model_pool identity) (id_program_id identity)
    (id_parent_program_id identity) (id_root_program_id identity) (lineage s);
  let s := s <| lineage := l |> in
  match decisions s !! reference with
  | Some d =>
      let d :=
        if context_tokens d <=? estimate
        then d <| context_tokens := estimate |> <| context_shrink_observations := 0 |> else d in
      let d := update_metadata identity (default (u64_saturating_add (step_id d) 1) (id_step_id identity)) d in
      Some (s <| decisions ::= <[reference := d]> |>)
  | None =>
      '(home, b) ← bind identity (binding_candidates identity now s) routing_text (table s);
      let d := update_metadata identity (default 0 (id_step_id identity))
        (new_decision (id_placement_key identity) (id_placement_hash_key identity) home estimate now) in
      Some (s <| table := b |> <| decisions ::= <[reference := d]> |>)
  end.

(** [restart_shared_prefix_freshness] of [scheduler_admission.rs]. *)
Definition restart_shared_prefix_freshness (pause_at : N) (d : ProgramDecisionState) : option ProgramDecisionState :=
  let duration := (fun deadline => saturating_sub deadline (shared_prefix_freshness_anchor_at d)) <$> shared_prefix_fresh_until d in
  let d := d <| shared_prefix_freshness_anchor_at := pause_at |> in
  match duration with
  | Some duration => deadline ← instant_add pause_at duration; Some (d <| shared_prefix_fresh_until := Some deadline |>)
  | None => Some d
  end.

(** ** Targets *)

(** [ProgramIdentity::for_rebinding] of [identity.rs]. *)
Definition for_rebinding (reference : ProgramRef) (hash_key key : string) (expected_resume : bool) : ProgramIdentity :=
  {| id_model_pool := ref_model_pool reference; id_program_id := ref_program_id reference;
     id_placement_hash_key := hash_key; id_placement_key := key; id_expected_resume := expected_resume;
     id_task_id := None; id_session_id := None; id_agent_id := None; id_parent_program_id := None;
     id_root_program_id := None; id_blocks_parent := false; id_agent_role := None; id_spawn_reason := None;
     id_step_id := None; id_request_hints := default_hints |}.

(** [targets.iter().map(|target| (target.id, target)).collect::<BTreeMap>()] *)
Definition targets_by_id (ts : list ProgramTarget) : gmap string ProgramTarget :=
  foldl (fun m t => <[pt_id t := t]> m) ∅ ts.

(** The pool lists these targets already, as they are. *)
Definition targets_unchanged (model_pool : string) (incoming : gmap string ProgramTarget) (s : ProgramSchedulerState) : bool :=
  bool_decide (model_targets s !! model_pool = Some (dom incoming)) &&
  bool_decide (map_Forall (fun target_id target => targets s !! target_id = Some target) incoming).

(** [entry(target).or_default()] for every target. *)
Definition or_defaults {V} (d : V) (ids : gset string) (m : gmap string V) : gmap string V := m ∪ gset_to_gmap d ids.

(** Nothing about a removed target is kept. *)
Definition forget_target (model_pool target_id : string) (s : ProgramSchedulerState) : option ProgramSchedulerState :=
  b ← remove_affinity_target model_pool target_id (remove_bound target_id (table s)).2;
  Some (s <| table := b |> <| rank_queues ::= delete target_id |> <| rank_factors ::= delete target_id |>
          <| observations ::= delete target_id |>).

Record Affected := MkAffected {
  aff_program : ProgramRef;
  aff_expected_resume : bool;
  aff_waiting_requests : N;
  aff_target_disappeared : bool;
  aff_placement_key : string;
  aff_placement_hash_key : string;
}.

(** The programs of the pool that are bound to none of its targets. *)
Definition affected_programs (model_pool : string) (current removed : gset string) (s : ProgramSchedulerState)
  : list Affected :=
  omap (fun v =>
    if bool_decide (ref_model_pool (viewref_reference v) = model_pool) then
      d ← decisions s !! viewref_reference v;
      if match last_target d with None => true | Some t => bool_decide (t ∉ current) end
      then Some (MkAffected (viewref_reference v) (viewref_expected_resume v) (viewref_waiting_requests v)
             match last_target d with None => false | Some t => bool_decide (t ∈ removed) end
             (placement_key d) (placement_hash_key d))
      else None
    else None) (iter_views (runtime s)).

(** One program is bound again; [times] are the readings for the candidates and
    for the pause. *)
Definition rebind (model_pool : string) (removed : gset string) (times : ProgramRef -> N * N) (a : Affected)
    (s : ProgramSchedulerState) : option ProgramSchedulerState :=
  let program := aff_program a in
  let '(invalidated, rt) := invalidate_placement program (btree_iter removed) (runtime s) in
  let s := s <| runtime := rt |> <| table ::= fun b => (release_program program b).2 |> in
  let s := unqueue_all program s in
  let identity := for_rebinding program (aff_placement_hash_key a) (aff_placement_key a) (aff_expected_resume a) in
  '(replacement, b) ← bind identity (binding_candidates identity (times program).1 s) None (table s);
  let s := s <| table := b |> in
  s ← match decisions s !! program with
      | None => Some s
      | Some d =>
          let d := d <| home_target := replacement |> <| last_target := replacement |> in
          d ← (if invalidated || aff_target_disappeared a then
                 let now := (times program).2 in
                 restart_shared_prefix_freshness now
                   (d <| paused_at := Some now |> <| pause_when_idle := false |> <| ttl_deadline := None |>
                      <| segment_started_at := None |>)
               else Some d);
          Some (s <| decisions ::= <[program := d]> |>)
      end;
  Some (if 0 <? aff_waiting_requests a then
          if global_queue cfg then s <| global_queues ::= enqueue model_pool program |>
          else match replacement with
               | Some target_id => s <| rank_queues ::= enqueue target_id program |>
               | None => s
               end
        else s).

Definition sync_target_snapshot_locked (model_pool : string) (snapshot : TargetSnapshot) (times : ProgramRef -> N * N)
    (s : ProgramSchedulerState) : option ProgramSchedulerState :=
  if match model_target_snapshots s !! model_pool with
     | Some current => snapshot_addr current =? snapshot_addr snapshot
     | None => false
     end%nat
  then Some s
  else
    let incoming := targets_by_id (snapshot_targets snapshot) in
    let current : gset string := dom incoming in
    let unchanged := targets_unchanged model_pool incoming s in
    let s := s <| model_target_snapshots ::= <[model_pool := snapshot]> |> in
    if unchanged then Some s
    else if target_snapshot_revision s + 1 <? u64_mod then
      let previous := default ∅ (model_targets s !! model_pool) in
      let removed := previous ∖ current in
      let s := s <| target_snapshot_revision ::= fun n => n + 1 |> <| model_targets ::= <[model_pool := current]> |>
        <| targets ::= fun m => incoming ∪ m |>
        <| global_queues ::= fun m => <[model_pool := default [] (m !! model_pool)]> m |>
        <| rank_queues ::= or_defaults [] current |> <| rank_factors ::= or_defaults default_factors current |>
        <| observations ::= or_defaults default_observation current |> in
      s ← foldM (forget_target model_pool) (btree_iter removed) s;
      s ← foldM (rebind model_pool removed times) (affected_programs model_pool current removed s) s;
      Some (s <| targets ::= filter (fun kv => map_Exists (fun _ ids => kv.1 ∈ ids) (model_targets s)) |>)
    else None.

(** Several pools under one lock. *)
Definition sync_target_snapshots (snapshots : list (string * TargetSnapshot)) (times : ProgramRef -> N * N)
    (s : ProgramSchedulerState) : option ProgramSchedulerState :=
  foldM (fun ps => sync_target_snapshot_locked ps.1 ps.2 times) snapshots s.

(** [targets], [all_targets] and [model_pools] *)
Definition pool_targets (model_pool : string) (s : ProgramSchedulerState) : list ProgramTarget :=
  omap (fun target_id => targets s !! target_id) (btree_iter (default ∅ (model_targets s !! model_pool))).

Definition all_targets (s : ProgramSchedulerState) : list ProgramTarget :=
  omap (fun target_id => targets s !! target_id) (btree_iter (dom (targets s))).

Definition model_pools (s : ProgramSchedulerState) : list string := btree_iter (dom (model_targets s)).

(** ** Observations *)

(** [BackendObservation] of [observations.rs]. *)
Record BackendObservation := MkBackend {
  raw_target_id : string;
  raw_base_url : string;
  raw_dp_rank : option N;
  raw_kv_cache_usage : option f64;
  raw_running_requests : option N;
  raw_waiting_requests : option N;
  raw_observed_at : N;
}.

Record ObservationCheckpoint := MkCheckpoint {
  ledger_checkpoint : f64;
  active_reasoning_programs : N;
  active_reasoning_requests : N;
  active_reasoning_private_tokens : f64;
  active_acting_private_tokens : f64;
}.

#[local] Instance ObservationCheckpoint_eta : Eta ObservationCheckpoint := fun c =>
  MkCheckpoint (ledger_checkpoint c) (active_reasoning_programs c) (active_reasoning_requests c)
    (active_reasoning_private_tokens c) (active_acting_private_tokens c).

Record BackendObservationEpoch := MkEpoch {
  epoch_revision : N;
  checkpoints : gmap string ObservationCheckpoint;
}.

Definition count_checkpoint (s : ProgramSchedulerState) (v : RuntimeProgramViewRef) (c : ObservationCheckpoint)
  : ObservationCheckpoint :=
  let tokens := private_tokens buffer <$> decisions s !! viewref_reference v in
  match viewref_status v with
  | Reasoning =>
      let c := c <| active_reasoning_programs ::= fun n => n + 1 |>
        <| active_reasoning_requests ::= fun n => n + viewref_in_flight_requests v |> in
      match tokens with
      | Some t => c <| active_reasoning_private_tokens ::= fun x => f64_add x t |>
      | None => c
      end
  | Acting =>
      match tokens with
      | Some t => c <| active_acting_private_tokens ::= fun x => f64_add x t |>
      | None => c
      end
  end.

Definition begin_observation (ts : list ProgramTarget) (s : ProgramSchedulerState) : BackendObservationEpoch :=
  let initial := foldl (fun m t =>
    <[pt_id t := MkCheckpoint (from_option active_program_token_delta f0 (observations s !! pt_id t)) 0 0 f0 f0]> m) ∅ ts in
  MkEpoch (target_snapshot_revision s)
    (foldl (fun m v =>
       match viewref_state v, viewref_placement v with
       | Active, Some target_id => alter (count_checkpoint s v) target_id m
       | _, _ => m
       end) initial (iter_views (runtime s))).

(** What a scrape says about the tokens of the reasoning programs. *)
Definition estimate_reasoning_tokens (raw : BackendObservation) (c : ObservationCheckpoint) : option f64 :=
  usage ← raw_kv_cache_usage raw;
  capacity ← token_capacity (progress_ttl cfg);
  let native_used := f64_mul usage (usize_as_f64 capacity) in
  let running := default 0 (raw_running_requests raw) in
  Some
    (if 0 <? running then
       f64_div (f64_mul native_used (usize_as_f64 (N.max (active_reasoning_programs c) running))) (usize_as_f64 running)
     else if 0 <? active_reasoning_programs c then active_reasoning_private_tokens c
     else native_used).

Definition apply_observation (epoch : BackendObservationEpoch) (s : ProgramSchedulerState) (raw : BackendObservation)
  : ProgramSchedulerState :=
  match checkpoints epoch !! raw_target_id raw, targets s !! raw_target_id raw with
  | Some c, Some _ =>
      let reasoning := estimate_reasoning_tokens raw c in
      with_observation (raw_target_id raw) (fun o =>
        o <| active_program_token_delta ::= fun x => f64_sub x (ledger_checkpoint c) |>
          <| kv_cache_usage := raw_kv_cache_usage raw |> <| running_requests := raw_running_requests raw |>
          <| waiting_requests := raw_waiting_requests raw |>
          <| router_active_reasoning_programs := active_reasoning_programs c |>
          <| router_active_reasoning_requests := active_reasoning_requests c |>
          <| estimated_active_reasoning_tokens := reasoning |>
          <| estimated_active_program_tokens := (fun r => f64_add r (active_acting_private_tokens c)) <$> reasoning |>
          <| observed_at := Some (raw_observed_at raw) |>) s
  | _, _ => s
  end.

Definition apply_observations (epoch : BackendObservationEpoch) (raws : list BackendObservation)
    (s : ProgramSchedulerState) : ProgramSchedulerState :=
  if epoch_revision epoch =? target_snapshot_revision s then foldl (apply_observation epoch) s raws else s.

End scheduler.
