(* ===== verification/Admission.v ===== *)
(** * Resuming programs ([src/program_scheduling/scheduler_admission.rs],
      [scheduler_global.rs] and [scheduler_fairness.rs])

    A paused program with retained requests waits in a queue, of its target or,
    with [global_queue], of its pool.  Scheduling resumes the first program in
    resume order that a target admits, until none is admitted.  The loops take
    the length of the queue as fuel: every round takes a program out of it. *)

From S2P Require Import Prelude RequestPool ProgramRuntime Ieee Factors PrefixTree Binding SchedulerState Scheduler.

Local Open Scope N_scope.
Local Open Scope update_scope.

Section admission.
Context `{U : Unordered} (cfg : ProgramSchedulerConfig).

(** ** Resume order *)

Definition no_decision : ProgramDecisionState := new_decision "" "" None 0 0.

(** [state.decisions[program]] where it is known to exist. *)
Definition decision_of (s : ProgramSchedulerState) (program : ProgramRef) : ProgramDecisionState :=
  default no_decision (decisions s !! program).

Definition has_decision (s : ProgramSchedulerState) (program : ProgramRef) : bool :=
  bool_decide (is_Some (decisions s !! program)).

(** The deadline for resuming the program has passed. *)
Definition is_forced (now : N) (d : ProgramDecisionState) : bool :=
  match force_resume_deadline d with Some deadline => deadline <=? now | None => false end.

Definition front_priority (s : ProgramSchedulerState) (program : ProgramRef) : Z :=
  from_option hint_priority 0%Z (front_request_hints program (runtime s)).

Definition resume_tier_cmp (s : ProgramSchedulerState) (now : N) (left right : ProgramRef) : comparison :=
  then_with (bool_cmp (is_forced now (decision_of s right)) (is_forced now (decision_of s left)))
    (front_priority s right ?= front_priority s left)%Z.

Definition has_yielded (d : ProgramDecisionState) : bool := bool_decide (last_pause_reason d = Some MaxSegmentYield).

Definition segment_yield_cmp (s : ProgramSchedulerState) (left right : ProgramRef) : comparison :=
  bool_cmp (has_yielded (decision_of s left)) (has_yielded (decision_of s right)).

Definition program_id_cmp (left right : ProgramRef) : comparison :=
  String.compare (ref_program_id left) (ref_program_id right).

Definition fcfs_resume_cmp (s : ProgramSchedulerState) (left right : ProgramRef) : comparison :=
  then_with (option_cmp N.compare (queued_at (decision_of s left)) (queued_at (decision_of s right)))
    (program_id_cmp left right).

Definition ordinary_resume_cmp (s : ProgramSchedulerState) (left right : ProgramRef) : comparison :=
  match resume_order cfg with
  | Fcfs => fcfs_resume_cmp s left right
  | Mru =>
      then_with (option_cmp N.compare (last_request_finished_at (decision_of s right))
                   (last_request_finished_at (decision_of s left)))
        (then_with (option_cmp N.compare (queued_at (decision_of s left)) (queued_at (decision_of s right)))
           (program_id_cmp left right))
  end.

Definition local_resume_cmp (s : ProgramSchedulerState) (now : N) (left right : ProgramRef) : comparison :=
  then_with (resume_tier_cmp s now left right)
    (then_with (segment_yield_cmp s left right) (ordinary_resume_cmp s left right)).

Definition cross_rank_cmp (s : ProgramSchedulerState) (now : N) (left right : ProgramRef) : comparison :=
  then_with (resume_tier_cmp s now left right)
    (then_with (segment_yield_cmp s left right) (fcfs_resume_cmp s left right)).

(** Sorting two programs or more reads the facts of all of them. *)
Definition sort_programs (cmp : ProgramRef -> ProgramRef -> comparison) (s : ProgramSchedulerState)
    (queued : list ProgramRef) : option (list ProgramRef) :=
  match queued with
  | [] | [_] => Some queued
  | _ => if forallb (has_decision s) queued then Some (sort_by cmp queued) else None
  end.

Definition order_resume_candidates (now : N) (s : ProgramSchedulerState) (queued : list ProgramRef)
  : option (list ProgramRef) := sort_programs (local_resume_cmp s now) s queued.

Definition order_cross_rank_candidates (now : N) (s : ProgramSchedulerState) (queued : list ProgramRef)
  : option (list ProgramRef) := sort_programs (cross_rank_cmp s now) s queued.

(** ** Admission *)

Record RankAdmissionPlan := MkPlan {
  plan_used_tokens : f64;
  plan_required_tokens : f64;
  plan_reserve_tokens : f64;
  plan_capacity_tokens : option N;
  plan_forced : bool;
  plan_batch_gain : bool;
}.

(** The target's engine has too many requests waiting. *)
Definition backend_saturated (target_id : string) (now : N) (s : ProgramSchedulerState) : bool :=
  (0 <? admission_waiting_request_threshold cfg) &&
  match fresh_observation cfg target_id now s ≫= waiting_requests with
  | Some waiting => admission_waiting_request_threshold cfg <=? waiting
  | None => false
  end.

Definition count_fits (count : N) : bool := u64_saturating_add count 1 <=? max_active_programs_per_target cfg.

(** The rounds left to an active program. *)
Definition remaining_rounds (rounds floor : f64) (d : ProgramDecisionState) : f64 :=
  f64_max (f64_sub rounds (usize_as_f64 (rounds_since_activation d))) floor.

Definition reserve (factors : option ProgressTtlFactors) (active : list ProgramDecisionState) : option f64 :=
  match factors with
  | None => Some f0
  | Some factors =>
      rounds ← target_rounds (progress_ttl cfg) factors;
      continuous_growth_reserve_tokens (progress_ttl cfg) factors (remaining_rounds rounds f0 <$> active)
  end.

(** Whether a larger batch is worth what it costs. *)
Definition batch_gain_admits (factors : ProgressTtlFactors) (d : ProgramDecisionState)
    (active : list RuntimeProgramViewRef) (used required : f64) (s : ProgramSchedulerState) : option bool :=
  rounds ← target_rounds (progress_ttl cfg) factors;
  let running := filter (fun v => viewref_status v = Reasoning) active in
  let protected := omap (fun d =>
    let remaining := remaining_rounds rounds f0 d in
    if float_gt remaining f0 then Some (remaining, last_cache_miss_impact_seconds d) else None) (decisions_of s active) in
  estimate ← estimate_batch_gain (progress_ttl cfg)
    {| gain_factors := factors;
       batch_size_before := N.of_nat (length running);
       total_context_tokens_before := foldl u64_wrapping_add 0 (context_tokens <$> decisions_of s running);
       candidate_context_tokens := context_tokens d;
       gain_used_tokens := used;
       gain_required_tokens := required;
       protected_remaining_rounds := protected.*1;
       protected_recovery_cost_seconds := protected.*2;
       candidate_recovery_cost_seconds :=
         cache_miss_impact_seconds (progress_ttl cfg) (saturating_sub (context_tokens d) (shared_prefix_tokens d)) |};
  Some (admits estimate).

Definition low_watermark (capacity : N) : f64 := f64_mul (usize_as_f64 capacity) (low_watermark_ratio (progress_ttl cfg)).

(** The part of [rank_admission_plan] after its guards. *)
Definition capacity_plan (program : ProgramRef) (d : ProgramDecisionState) (target_id : string) (now : N)
    (s : ProgramSchedulerState) : option (option RankAdmissionPlan) :=
  let forced := is_forced now d in
  let active := active_on target_id (runtime s) in
  let used := target_usage cfg target_id now s in
  let active_count := N.of_nat (length active) in
  let required := private_tokens_with_output (buffer cfg)
    (front_request_hints program (runtime s) ≫= hint_expected_output_tokens) d in
  let capacity := token_capacity (progress_ttl cfg) in
  match capacity with
  | None =>
      Some (if negb forced && negb (count_fits active_count) then None
            else Some (MkPlan used required f0 None forced false))
  | Some capacity_tokens =>
      let low := low_watermark capacity_tokens in
      let immediate_fits := f64_le (f64_add used required) low in
      let factors := rank_factors s !! target_id in
      reserve_tokens ← reserve factors (decisions_of s active);
      let reserve_fits := f64_le (f64_add (f64_add used required) reserve_tokens) low in
      if forced || (count_fits active_count && immediate_fits && reserve_fits)
      then Some (Some (MkPlan used required reserve_tokens capacity forced false))
      else if negb (count_fits active_count) || negb immediate_fits then Some None
      else
        match factors with
        | None => Some None
        | Some factors =>
            ok ← batch_gain_admits factors d active used required s;
            Some (if ok : bool then Some (MkPlan used required reserve_tokens capacity forced true) else None)
        end
  end.

Definition rank_admission_plan (program : ProgramRef) (target_id : string) (now : N) (s : ProgramSchedulerState)
  : option (option RankAdmissionPlan) :=
  match view program (runtime s), decisions s !! program with
  | Some v, Some d =>
      if negb (global_queue cfg) && bool_decide (last_target d <> Some target_id) then Some None
      else if negb (is_waiting v) then Some None
      else if backend_saturated target_id now s then Some None
      else capacity_plan program d target_id now s
  | _, _ => Some None
  end.

(** The facts of a program that is resumed. *)
Definition resume_decision (target_id : string) (now : N) (d : ProgramDecisionState) : ProgramDecisionState :=
  d <| last_target := Some target_id |> <| rounds_since_activation := 0 |> <| acting_since := None |>
    <| ttl_deadline := None |> <| segment_started_at := Some (default now (segment_started_at d)) |>
    <| paused_at := None |> <| last_pause_reason := None |> <| pause_when_idle := false |> <| queued_at := None |>
    <| force_resume_deadline := None |> <| force_resume_timeout := None |>
    <| force_resume_active_remaining_rounds := f0 |> <| force_resume_pool_remaining_rounds := f0 |>
    <| force_resume_request_throughput_per_second := f0 |>.

(** The plan is only reported. *)
Definition commit_admission (program : ProgramRef) (target_id : string) (now : N) (s : ProgramSchedulerState)
  : bool * ProgramSchedulerState :=
  match decisions s !! program with
  | None => (false, s)
  | Some d =>
      let tokens := private_tokens (buffer cfg) d in
      let '(activated, rt) := activate program target_id (runtime s) in
      let s := s <| runtime := rt |> in
      if negb activated then (false, s)
      else
        let s := with_decision program (resume_decision target_id now) s in
        let s := adjust_usage target_id tokens s in
        let s := unqueue_all program s in
        (true, s <| runtime ::= runtime_notify_front program |>)
  end.

(** [Iterator::find_map] of a function that may panic. *)
Fixpoint find_mapM {A B} (f : A -> option (option B)) (l : list A) : option (option B) :=
  match l with
  | [] => Some None
  | x :: l => r ← f x; match r with Some y => Some (Some y) | None => find_mapM f l end
  end.

(** The result of a call, with what it was called for. *)
Definition tagged {A B} (x : A) (r : option (option B)) : option (option (A * B)) :=
  match r with Some r => Some (pair x <$> r) | None => None end.

(** Resume programs of [candidates] until [choose] finds none. *)
Fixpoint resume_loop (fuel : nat) (candidates : ProgramSchedulerState -> option (list ProgramRef))
    (choose : ProgramSchedulerState -> ProgramRef -> option (option string)) (now : N) (s : ProgramSchedulerState)
  : option (bool * ProgramSchedulerState) :=
  queued ← candidates s;
  choice ← find_mapM (fun program => tagged program (choose s program)) queued;
  match choice with
  | None => Some (false, s)
  | Some (program, target_id) =>
      match fuel with
      | O => None
      | S fuel =>
          '(_, s) ← resume_loop fuel candidates choose now (commit_admission program target_id now s).2;
          Some (true, s)
      end
  end.

(** ** Queues of targets *)

Definition local_candidates (target_id : string) (now : N) (s : ProgramSchedulerState) : option (list ProgramRef) :=
  order_resume_candidates now s (reasoning_waiters (rank_queues s !! target_id) s).

Definition local_choice (target_id : string) (now : N) (s : ProgramSchedulerState) (program : ProgramRef)
  : option (option string) :=
  match rank_admission_plan program target_id now s with
  | Some plan => Some ((fun _ => target_id) <$> plan)
  | None => None
  end.

Definition queue_length (queues : gmap string (list ProgramRef)) (key : string) : nat :=
  length (default [] (queues !! key)).

(** [for key in keys]: whether anything changed, and the state. *)
Definition for_keys (keys : list string) (f : string -> ProgramSchedulerState -> option (bool * ProgramSchedulerState))
    (s : ProgramSchedulerState) : option (bool * ProgramSchedulerState) :=
  foldM (fun key '(changed, s) => '(c, s) ← f key s; Some (changed || c, s)) keys (false, s).

Definition schedule_rank_local (now : N) (s : ProgramSchedulerState) : option (bool * ProgramSchedulerState) :=
  for_keys (key_order (dom (rank_queues s))) (fun target_id s =>
    resume_loop (queue_length (rank_queues s) target_id) (local_candidates target_id now) (local_choice target_id now) now s) s.

(** ** Queues of pools *)

Definition global_reasoning_waiters (model_pool : string) (s : ProgramSchedulerState) : list ProgramRef :=
  reasoning_waiters (global_queues s !! model_pool) s.

Definition global_local_resume_order (model_pool : string) (now : N) (s : ProgramSchedulerState)
  : option (list ProgramRef) := order_resume_candidates now s (global_reasoning_waiters model_pool s).

Definition global_cross_rank_order (model_pool : string) (now : N) (s : ProgramSchedulerState)
  : option (list ProgramRef) :=
  order_cross_rank_candidates now s
    (filter (fun program => is_Some (decisions s !! program ≫= last_pause_reason)) (global_reasoning_waiters model_pool s)).

Definition destination_has_local_waiter (candidate : ProgramRef) (destination : string) (s : ProgramSchedulerState) : bool :=
  existsb (fun program =>
    bool_decide (program <> candidate) &&
    bool_decide (decisions s !! program ≫= last_target = Some destination))
    (global_reasoning_waiters (ref_model_pool candidate) s).

(** A queued program has been there for an observation interval. *)
Definition waited_interval (now : N) (d : ProgramDecisionState) : bool :=
  match queued_at d with Some at_ => metrics_interval cfg <=? saturating_sub now at_ | None => false end.

Definition window_complete (target_id : string) (s : ProgramSchedulerState) : bool :=
  from_option (request_window_complete (stats_window_size (progress_ttl cfg))) false (rank_factors s !! target_id).

Definition cross_rank_candidate_is_mature (d : ProgramDecisionState) (source destination : string) (now : N)
    (s : ProgramSchedulerState) : bool :=
  window_complete source s && window_complete destination s && waited_interval now d.

Definition higher_priority_source_waiters (candidate : ProgramRef) (source : string) (now : N) (s : ProgramSchedulerState)
  : N :=
  N.of_nat (length (filter (fun program =>
    program <> candidate /\
    from_option (fun d => bool_decide (last_target d = Some source) && waited_interval now d) false (decisions s !! program) = true /\
    local_resume_cmp s now program candidate = Lt) (global_reasoning_waiters (ref_model_pool candidate) s))).

Definition source_has_resume_pressure (program : ProgramRef) (source : string) (now : N) (s : ProgramSchedulerState) : bool :=
  let threshold := admission_waiting_request_threshold cfg in
  (threshold =? 0) ||
  match fresh_observation cfg source now s ≫= waiting_requests with
  | Some waiting => threshold <=? waiting
  | None => false
  end ||
  (1 <=? higher_priority_source_waiters program source now s).

Definition destination_has_context_headroom (d : ProgramDecisionState) (source destination : string) (now : N)
    (s : ProgramSchedulerState) : bool :=
  match token_capacity (progress_ttl cfg) with
  | None => true
  | Some capacity =>
      let limit := low_watermark capacity in
      let destination_headroom := f64_max (f64_sub limit (target_usage cfg destination now s)) f0 in
      let source_headroom := f64_max (f64_sub limit (target_usage cfg source now s)) f0 in
      f64_ge destination_headroom
        (f64_add source_headroom (f64_mul (cross_rank_headroom_ratio cfg) (usize_as_f64 (context_tokens d))))
  end.

Definition active_program_count (target_id : string) (s : ProgramSchedulerState) : N :=
  N.of_nat (length (active_on target_id (runtime s))).

(** The load of a destination with the program on it. *)
Definition destination_pressure (target_id : string) (plan : RankAdmissionPlan) (s : ProgramSchedulerState) : f64 :=
  match plan_capacity_tokens plan with
  | None =>
      f64_div (usize_as_f64 (active_program_count target_id s + 1)) (usize_as_f64 (N.max (max_active_programs_per_target cfg) 1))
  | Some capacity =>
      f64_div (f64_add (f64_add (plan_used_tokens plan) (plan_required_tokens plan)) (plan_reserve_tokens plan))
        (usize_as_f64 (N.max capacity 1))
  end.

Definition destination_cmp (now : N) (s : ProgramSchedulerState) (left right : string * RankAdmissionPlan) : comparison :=
  let waiting target_id := default 0 (fresh_observation cfg target_id now s ≫= waiting_requests) in
  then_with (waiting left.1 ?= waiting right.1)
    (then_with (total_cmp (destination_pressure left.1 left.2 s) (destination_pressure right.1 right.2 s))
      (then_with (active_program_count left.1 s ?= active_program_count right.1 s)
        (String.compare left.1 right.1))).

(** The guards on a destination other than its admission. *)
Definition cross_rank_eligible (program : ProgramRef) (d : ProgramDecisionState) (source destination : string) (now : N)
    (s : ProgramSchedulerState) : bool :=
  bool_decide (destination <> source) &&
  negb (destination_has_local_waiter program destination s) &&
  cross_rank_candidate_is_mature d source destination now s &&
  source_has_resume_pressure program source now s &&
  destination_has_context_headroom d source destination now s.

Definition select_cross_rank_admission (program : ProgramRef) (now : N) (s : ProgramSchedulerState)
  : option (option (string * RankAdmissionPlan)) :=
  match decisions s !! program with
  | None => Some None
  | Some d =>
      match last_pause_reason d, last_target d, model_targets s !! ref_model_pool program with
      | Some _, Some source, Some ids =>
          plans ← mapM (fun target_id => tagged target_id (rank_admission_plan program target_id now s))
            (filter (fun target_id => cross_rank_eligible program d source target_id now s = true) (btree_iter ids));
          Some (min_by (destination_cmp now s) (omap id plans))
      | _, _, _ => Some None
      end
  end.

Definition global_local_choice (now : N) (s : ProgramSchedulerState) (program : ProgramRef) : option (option string) :=
  match decisions s !! program ≫= last_target with
  | None => Some None
  | Some target_id => local_choice target_id now s program
  end.

Definition cross_rank_choice (now : N) (s : ProgramSchedulerState) (program : ProgramRef) : option (option string) :=
  match select_cross_rank_admission program now s with
  | Some r => Some (fst <$> r)
  | None => None
  end.

(** Local resumes first, then moves to other targets. *)
Definition schedule_pool (now : N) (model_pool : string) (s : ProgramSchedulerState)
  : option (bool * ProgramSchedulerState) :=
  '(c1, s) ← resume_loop (queue_length (global_queues s) model_pool) (global_local_resume_order model_pool now)
    (global_local_choice now) now s;
  '(c2, s) ← resume_loop (queue_length (global_queues s) model_pool) (global_cross_rank_order model_pool now)
    (cross_rank_choice now) now s;
  Some (c1 || c2, s).

Definition schedule_global_waiting (now : N) (s : ProgramSchedulerState) : option (bool * ProgramSchedulerState) :=
  for_keys (key_order (dom (global_queues s))) (schedule_pool now) s.

Definition schedule_waiting (now : N) (s : ProgramSchedulerState) : option (bool * ProgramSchedulerState) :=
  if global_queue cfg then schedule_global_waiting now s else schedule_rank_local now s.

(** ** Pausing *)

Definition pause_idle (program : ProgramRef) (reason : ProgramPauseReason) (now : N) (s : ProgramSchedulerState)
  : option (bool * ProgramSchedulerState) :=
  match placement program (runtime s), decisions s !! program with
  | Some target_id, Some d =>
      let tokens := private_tokens (buffer cfg) d in
      let '(paused, rt) := ProgramRuntime.pause_idle program (runtime s) in
      if negb paused then Some (false, s <| runtime := rt |>)
      else
        d ← restart_shared_prefix_freshness now
          (d <| paused_at := Some now |> <| last_pause_reason := Some reason |> <| rounds_since_activation := 0 |>
             <| acting_since := None |> <| ttl_deadline := None |> <| pause_when_idle := false |>);
        Some (true, adjust_usage target_id (f64_neg tokens) (s <| runtime := rt |> <| decisions ::= <[program := d]> |>))
  | _, _ => Some (false, s)
  end.

(** ** Fairness *)

Record ForceResumeEstimate := MkForce {
  force_timeout : N;                            (* Duration *)
  force_active_remaining_rounds : f64;
  force_pool_remaining_rounds : f64;
  force_request_throughput_per_second : f64;
}.

Definition force_fallback (timeout : N) : ForceResumeEstimate := MkForce timeout f0 f0 f0.

(** A program that reasons keeps at least one round. *)
Definition round_floor (status : ProgramStatus) : f64 := usize_as_f64 (if decide (status = Reasoning) then 1 else 0).

(** The estimate from the rounds ahead and the rate of requests. *)
Definition force_estimate (active_remaining pool_remaining throughput : f64) : option ForceResumeEstimate :=
  let maximum := as_secs_f64 (force_resume_timeout_limit cfg) in
  let minimum := f64_min (f64_lit 30 1) maximum in
  seconds ← f64_try_clamp (f64_div (f64_mul (f64_lit 3 1) (f64_add active_remaining pool_remaining)) throughput)
    minimum maximum;
  timeout ← from_secs_f64 seconds;
  Some (MkForce timeout active_remaining pool_remaining throughput).

(** Not positive: the estimate cannot be made. *)
Definition no_rate (rounds throughput : f64) : bool := f64_le rounds f0 || f64_le throughput f0.

Definition local_force_resume_timeout (target_id : string) (candidate : ProgramRef) (now : N) (s : ProgramSchedulerState)
  : option ForceResumeEstimate :=
  let fallback := force_fallback (force_resume_timeout_limit cfg) in
  match rank_factors s !! target_id with
  | None => Some fallback
  | Some factors =>
      let throughput := request_throughput_per_second factors in
      rounds ← target_rounds (progress_ttl cfg) factors;
      if no_rate rounds throughput then Some fallback
      else
        let active_remaining := f64_sum (omap (fun v =>
          remaining_rounds rounds (round_floor (viewref_status v)) <$> decisions s !! viewref_reference v)
          (active_on target_id (runtime s))) in
        queued ← order_resume_candidates now s
          (filter (fun program => decisions s !! program ≫= last_target = Some target_id)
             (reasoning_waiters (rank_queues s !! target_id) s));
        let ahead := take_while (fun program => bool_decide (program <> candidate)) queued in
        force_estimate active_remaining (f64_mul (usize_as_f64 (N.of_nat (length ahead))) (f64_max rounds f1)) throughput
  end.

(** The rounds of every target of the pool and the sum of their rates, unless
    one of them has none. *)
Definition pool_rates (ids : gset string) (s : ProgramSchedulerState) : option (option (gmap string f64 * f64)) :=
  foldM (fun target_id acc =>
    match acc, rank_factors s !! target_id with
    | Some (rounds_of, total), Some factors =>
        rounds ← target_rounds (progress_ttl cfg) factors;
        let throughput := request_throughput_per_second factors in
        Some (if no_rate rounds throughput then None
              else Some (<[target_id := rounds]> rounds_of, f64_add total throughput))
    | _, _ => Some None
    end) (btree_iter ids) (Some (∅, f0)).

Definition global_force_resume_timeout (candidate : ProgramRef) (now : N) (s : ProgramSchedulerState)
  : option ForceResumeEstimate :=
  let fallback := force_fallback (force_resume_timeout_limit cfg) in
  let ids := default ∅ (model_targets s !! ref_model_pool candidate) in
  if bool_decide (ids = ∅) then Some fallback
  else
    rates ← pool_rates ids s;
    match rates with
    | None => Some fallback
    | Some (rounds_of, total) =>
        if f64_le total f0 then Some fallback
        else
          let active_remaining := f64_sum (omap (fun v =>
            target_id ← viewref_placement v;
            rounds ← rounds_of !! target_id;
            remaining_rounds rounds (round_floor (viewref_status v)) <$> decisions s !! viewref_reference v)
            (filter (fun v => viewref_state v = Active) (iter_views (runtime s)))) in
          let fallback_rounds :=
            f64_div (f64_sum (iter rounds_of).*2) (usize_as_f64 (N.max (N.of_nat (size rounds_of)) 1)) in
          queued ← order_resume_candidates now s (global_reasoning_waiters (ref_model_pool candidate) s);
          let pool_remaining := f64_sum (omap (fun program =>
            (fun d => f64_max (default fallback_rounds (last_target d ≫= fun target_id => rounds_of !! target_id)) f1)
              <$> decisions s !! program)
            (take_while (fun program => bool_decide (program <> candidate)) queued)) in
          force_estimate active_remaining pool_remaining total
    end.

Definition set_force_resume_deadline (target_id : string) (candidate : ProgramRef) (now : N) (s : ProgramSchedulerState)
  : option ProgramSchedulerState :=
  estimate ← (if global_queue cfg then global_force_resume_timeout candidate now s
              else local_force_resume_timeout target_id candidate now s);
  let timeout := N.min (default (force_timeout estimate) (front_request_hints candidate (runtime s) ≫= hint_deadline))
    (queue_timeout cfg) in
  match decisions s !! candidate with
  | None => Some s
  | Some d =>
      deadline ← instant_add now timeout;
      Some (s <| decisions ::= <[candidate :=
        d <| force_resume_deadline := Some deadline |> <| force_resume_timeout := Some timeout |>
          <| force_resume_active_remaining_rounds := force_active_remaining_rounds estimate |>
          <| force_resume_pool_remaining_rounds := force_pool_remaining_rounds estimate |>
          <| force_resume_request_throughput_per_second := force_request_throughput_per_second estimate |>]> |>)
  end.

(** The programs that wait for the target, in resume order. *)
Definition yield_waiters (program : ProgramRef) (target_id : string) (now : N) (s : ProgramSchedulerState)
  : option (list ProgramRef) :=
  if global_queue cfg then
    queued ← order_resume_candidates now s (global_reasoning_waiters (ref_model_pool program) s);
    Some (filter (fun waiter => decisions s !! waiter ≫= last_target = Some target_id) queued)
  else order_resume_candidates now s (reasoning_waiters (rank_queues s !! target_id) s).

Definition yield_completed_segment (program : ProgramRef) (now : N) (s : ProgramSchedulerState)
  : option (bool * ProgramSchedulerState) :=
  match view program (runtime s), decisions s !! program with
  | Some v, Some d =>
      if bool_decide (view_state v <> Active) || bool_decide (view_status v <> Acting)
         || (rounds_since_activation d <? max_segment_rounds (progress_ttl cfg))
      then Some (false, s)
      else
        match view_placement v with
        | None => Some (false, s)
        | Some target_id =>
            queued ← yield_waiters program target_id now s;
            match filter (fun waiter => waiter <> program) queued with
            | [] => Some (false, s)
            | waiter :: _ =>
                let waiter_required := from_option (private_tokens (buffer cfg)) f0 (decisions s !! waiter) in
                let future_relief := f64_sum (private_tokens (buffer cfg) <$>
                  filter (fun d => pause_when_idle d = true)
                    (decisions_of s (filter (fun v => viewref_status v = Reasoning) (active_on target_id (runtime s))))) in
                if float_gt waiter_required future_relief then pause_idle program MaxSegmentYield now s
                else Some (false, s)
            end
        end
  | _, _ => Some (false, s)
  end.

End admission.
