(* ===== verification/Lifecycle.v ===== *)
(** * Requests and programs in the scheduler
      ([src/program_scheduling/scheduler_lifecycle.rs] and the request paths of
      [scheduler_admission.rs])

    Every call of the router on the scheduler: a request is retained, claimed,
    cancelled or completed, and a tick evaluates deadlines, repairs capacity and
    schedules.  Each is one step under the lock. *)

From S2P Require Import Prelude RequestPool ProgramRuntime Ieee Factors PrefixTree Binding SchedulerState Scheduler Admission.

Local Open Scope N_scope.
Local Open Scope update_scope.

(** [ScheduleError] of [contracts.rs]. *)
Inductive ScheduleError :=
| InvalidIdentity (reason : string)
| NoTargets
| QueueTimeout.

Inductive CompletionAction :=
| Terminate
| Pause (reason : ProgramPauseReason)
| StartActingTtl.

#[export] Instance CompletionAction_eq_dec : EqDecision CompletionAction.
Proof. solve_decision. Defined.

Section lifecycle.
Context `{U : Unordered} `{M : Libm} (cfg : ProgramSchedulerConfig).

(** ** Releasing programs *)

(** The target of an active program and its tokens there. *)
Definition active_relief (program : ProgramRef) (s : ProgramSchedulerState) : option (string * f64) :=
  v ← view program (runtime s);
  if decide (view_state v = Active) then
    target_id ← view_placement v;
    d ← decisions s !! program;
    Some (target_id, private_tokens (buffer cfg) d)
  else None.

Definition release_program (program : ProgramRef) (now : N) (s : ProgramSchedulerState) : ProgramSchedulerState :=
  let s := unqueue_all program s in
  let relief := active_relief program s in
  let '(released, rt) := release_idle program now (runtime s) in
  let s := s <| runtime := rt |> in
  if released then
    let s := match relief with Some (target_id, tokens) => adjust_usage target_id (f64_neg tokens) s | None => s end in
    s <| decisions ::= delete program |> <| table ::= fun b => (Binding.release_program program b).2 |>
  else s.

(** Paused programs that nothing happened to for long. *)
Definition retention_expired (now : N) (s : ProgramSchedulerState) (v : RuntimeProgramViewRef) : bool :=
  bool_decide (viewref_state v = Paused) && bool_decide (viewref_status v = Acting)
  && (viewref_in_flight_requests v =? 0) && (viewref_waiting_requests v =? 0)
  && match decisions s !! viewref_reference v ≫= paused_at with
     | Some at_ => paused_retention_ttl cfg <=? saturating_sub now at_
     | None => false
     end.

Definition release_expired_paused (now : N) (s : ProgramSchedulerState) : bool * ProgramSchedulerState :=
  let expired := viewref_reference <$> filter (fun v => retention_expired now s v = true) (iter_views (runtime s)) in
  (bool_decide (expired <> []), foldl (fun s program => release_program program now s) s expired).

(** ** Idle programs *)

Definition ttl_expired (now : N) (s : ProgramSchedulerState) (v : RuntimeProgramViewRef) : bool :=
  bool_decide (viewref_state v = Active) && bool_decide (viewref_status v = Acting)
  && (viewref_in_flight_requests v =? 0)
  && match decisions s !! viewref_reference v ≫= ttl_deadline with Some deadline => deadline <=? now | None => false end.

Definition expire_ttl (now : N) (program : ProgramRef) (acc : bool * ProgramSchedulerState)
  : option (bool * ProgramSchedulerState) :=
  let '(changed, s) := acc in
  let '(target, rounds, segment_rounds) :=
    match decisions s !! program with
    | Some d => (last_target d, saturating_sub (segment_served_rounds d) (ttl_pause_sampled_segment_rounds d),
                 segment_served_rounds d)
    | None => (None, 0, 0)
    end in
  '(paused, s) ← pause_idle cfg program TtlExpired now s;
  if paused : bool then
    let s := with_decision program (fun d =>
      d <| ttl_pause_sampled_segment_rounds := segment_rounds |> <| rounds_since_ttl_pause := 0 |>) s in
    Some (true, match target with
                | Some target_id =>
                    with_factors target_id (push_ttl_pause_rounds rounds (stats_window_size (progress_ttl cfg))) s
                | None => s
                end)
  else Some (changed, s).

Definition expire_acting_ttls (now : N) (s : ProgramSchedulerState) : option (bool * ProgramSchedulerState) :=
  foldM (expire_ttl now)
    (viewref_reference <$> filter (fun v => ttl_expired now s v = true) (iter_views (runtime s))) (false, s).

(** ** Capacity repair *)

Record CapacityVictim := MkVictim {
  victim_reference : ProgramRef;
  victim_status : ProgramStatus;
  victim_score : f64;
  sort_private_tokens : f64;
}.

(** What the loop over the programs of a target collects. *)
Record RepairScan := MkScan {
  reasoning_count : N;
  marked_reasoning_count : N;
  future_private_relief : f64;
  scan_router_usage : f64;
  victims : list CapacityVictim;
}.

#[local] Instance RepairScan_eta : Eta RepairScan := fun r =>
  MkScan (reasoning_count r) (marked_reasoning_count r) (future_private_relief r) (scan_router_usage r) (victims r).

Definition empty_scan : RepairScan := MkScan 0 0 f0 f0 [].

Definition is_victim (v : RuntimeProgramViewRef) (d : ProgramDecisionState) : bool :=
  match viewref_status v with
  | Acting => viewref_in_flight_requests v =? 0
  | Reasoning => negb (pause_when_idle d) && (0 <? viewref_in_flight_requests v)
  end.

(** Long segments with short contexts score high. *)
Definition victim_of (average_prompt : f64) (now : N) (v : RuntimeProgramViewRef) (d : ProgramDecisionState)
  : CapacityVictim :=
  let elapsed := match segment_started_at d with
                 | Some started => as_secs_f64 (saturating_sub now started)
                 | None => f0
                 end in
  let input := match viewref_status v with
               | Acting => default (context_tokens d) (last_context_tokens d)
               | Reasoning => context_tokens d
               end in
  let weight := f64_max (f64_div f1 (f64_sqrt (f64_max (f64_div (usize_as_f64 input) average_prompt) (f64_dec 1 1000000))))
    (f64_dec 1 2) in
  MkVictim (viewref_reference v) (viewref_status v) (f64_mul elapsed weight) (private_tokens (buffer cfg) d).

Definition scan_program (average_prompt : f64) (now : N) (s : ProgramSchedulerState) (r : RepairScan)
    (v : RuntimeProgramViewRef) : RepairScan :=
  let r :=
    match decisions s !! viewref_reference v with
    | None => r
    | Some d =>
        let tokens := private_tokens (buffer cfg) d in
        let r := r <| scan_router_usage ::= fun x => f64_add x tokens |> in
        let r := if bool_decide (viewref_status v = Reasoning) && pause_when_idle d
                 then r <| marked_reasoning_count ::= fun n => n + 1 |>
                        <| future_private_relief ::= fun x => f64_add x tokens |>
                 else r in
        if is_victim v d then r <| victims ::= fun l => l ++ [victim_of average_prompt now v d] |> else r
    end in
  if decide (viewref_status v = Reasoning) then r <| reasoning_count ::= fun n => n + 1 |> else r.

Definition victim_cmp (left right : CapacityVictim) : comparison :=
  then_with (total_cmp (victim_score right) (victim_score left))
    (then_with (total_cmp (sort_private_tokens right) (sort_private_tokens left))
       (program_id_cmp (victim_reference left) (victim_reference right))).

(** One victim is paused, or marked to be paused when it is idle. *)
Definition relieve (average_completion : f64) (now : N) (victim : CapacityVictim) (s : ProgramSchedulerState)
  : option (option f64 * ProgramSchedulerState) :=
  d ← decisions s !! victim_reference victim;
  let relief := f64_add (private_tokens (buffer cfg) d)
    (match victim_status victim with Reasoning => average_completion | Acting => f0 end) in
  match victim_status victim with
  | Acting =>
      '(paused, s) ← pause_idle cfg (victim_reference victim) CapacityRepair now s;
      Some ((if paused : bool then Some relief else None), s)
  | Reasoning =>
      Some (Some relief, with_decision (victim_reference victim) (fun d => d <| pause_when_idle := true |>) s)
  end.

(** Relieve victims until the projection is low enough. *)
Fixpoint relieve_all (average_completion low : f64) (now : N) (vs : list CapacityVictim) (projected : f64)
    (acc : bool * ProgramSchedulerState) : option (bool * ProgramSchedulerState) :=
  match vs with
  | [] => Some acc
  | victim :: vs =>
      if f64_le projected low then Some acc
      else
        '(relief, s) ← relieve average_completion now victim acc.2;
        match relief with
        | Some relief => relieve_all average_completion low now vs (f64_max (f64_sub projected relief) f0) (true, s)
        | None => relieve_all average_completion low now vs projected (acc.1, s)
        end
  end.

Definition repair_target (capacity now : N) (target_id : string) (acc : bool * ProgramSchedulerState)
  : option (bool * ProgramSchedulerState) :=
  let s := acc.2 in
  let high := f64_mul (usize_as_f64 capacity) (high_watermark_ratio (progress_ttl cfg)) in
  let low := low_watermark cfg capacity in
  let factors := rank_factors s !! target_id in
  let average_completion := from_option (fun f => f64_ceil (average_completion_tokens f)) f0 factors in
  let average_prompt := from_option (fun f => f64_max (average_prompt_tokens f) f1) f1 factors in
  let scan := foldl (scan_program average_prompt now s) empty_scan (active_on target_id (runtime s)) in
  let completion_relief := f64_mul average_completion (usize_as_f64 (marked_reasoning_count scan)) in
  let usage := default (scan_router_usage scan) (observed_target_usage cfg target_id now s) in
  let projected := f64_max (f64_sub (f64_sub
    (f64_add usage (f64_mul average_completion (usize_as_f64 (reasoning_count scan)))) (future_private_relief scan))
    completion_relief) f0 in
  if f64_le projected high then Some acc
  else relieve_all average_completion low now (sort_by victim_cmp (victims scan)) projected acc.

Definition repair_capacity (now : N) (s : ProgramSchedulerState) : option (bool * ProgramSchedulerState) :=
  match token_capacity (progress_ttl cfg) with
  | None => Some (false, s)
  | Some capacity => foldM (repair_target capacity now) (btree_iter (dom (targets s))) (false, s)
  end.

(** ** Decisions *)

Definition run_request_arrival_decisions (now : N) (s : ProgramSchedulerState) : option ProgramSchedulerState :=
  let s := (release_expired_paused now s).2 in
  '(_, s) ← expire_acting_ttls now s;
  '(_, s) ← repair_capacity now s;
  '(_, s) ← schedule_waiting cfg now s;
  Some s.

Definition run_periodic_decisions (now : N) (s : ProgramSchedulerState) : option ProgramSchedulerState :=
  let s := s <| runtime ::= prune_released_generations now (N.max (paused_retention_ttl cfg) (from_secs 60)) |> in
  '(_, s) ← expire_acting_ttls now s;
  let s := (release_expired_paused now s).2 in
  if binding_only cfg then Some s
  else
    '(_, s) ← repair_capacity now s;
    '(_, s) ← schedule_waiting cfg now s;
    Some s.

(** The metrics published at the end change nothing. *)
Definition tick (now : N) (s : ProgramSchedulerState) : option ProgramSchedulerState :=
  s ← run_periodic_decisions now s;
  Some (report_capacity_accounting_transitions cfg now s).

(** ** Completion *)

Definition shared_prefix_freshness (target_id : string) (s : ProgramSchedulerState) : option N :=
  let warmup := shared_prefix_freshness_warmup cfg in
  match rank_factors s !! target_id, token_capacity (progress_ttl cfg) with
  | Some factors, Some capacity =>
      if negb (request_window_complete (stats_window_size (progress_ttl cfg)) factors) then Some warmup
      else
        let active_reasoning := N.of_nat (length (filter (fun v => viewref_status v = Reasoning)
          (active_on target_id (runtime s)))) in
        let average_uncached := average_uncached_prompt_tokens factors in
        let average_latency := average_e2e_seconds factors in
        if (active_reasoning =? 0) || f64_le average_uncached f0 || f64_le average_latency f0 then Some warmup
        else
          let seconds := f64_div (f64_div (f64_mul (f64_mul (shared_prefix_freshness_kv_turnovers cfg)
            (usize_as_f64 capacity)) average_latency) (usize_as_f64 active_reasoning)) average_uncached in
          if is_finite seconds && f64_ge seconds f0 then from_secs_f64 seconds else Some warmup
  | _, _ => Some warmup
  end.

Definition CACHE_CONTINUITY_HIT_RATIO : f64 := f64_dec 9 10.

(** Nothing in flight and nothing waiting, or the action is left for later. *)
Definition completion_action (after : option RuntimeProgramView) (success : bool) (d : ProgramDecisionState)
  : option CompletionAction :=
  match after with
  | Some v =>
      if (view_in_flight_requests v =? 0) && (view_waiting_requests v =? 0) then
        Some (if terminate_when_idle d then Terminate
              else if pause_when_idle d then Pause CapacityRepair
              else if negb success then Pause RequestFailed
              else StartActingTtl)
      else None
  | None => None
  end.

(** What a completion tells the scheduler. *)
Record Completion := MkCompletion {
  comp_observed_prompt : N;
  comp_cached_prompt : N;
  comp_explicit_cached : N;
  comp_miss_impact : f64;
  comp_acting_ttl : N;                          (* Duration *)
  comp_freshness : N;                           (* Duration *)
}.

(** A segment begins: the shared prefix is observed again if that is due. *)
Definition start_segment (c : Completion) (dispatch : ProgramDispatch) (due : bool) (d : ProgramDecisionState)
  : option ProgramDecisionState :=
  let d := d <| segment_served_rounds := 0 |> <| ttl_pause_sampled_segment_rounds := 0 |>
    <| segment_started_at := Some (d_dispatched_at dispatch) |> in
  if due then
    until ← instant_add (shared_prefix_freshness_anchor_at d) (comp_freshness c);
    Some (d <| shared_prefix_tokens := comp_explicit_cached c |> <| shared_prefix_observed := true |>
            <| shared_prefix_fresh_until := Some until |>)
  else Some d.

(** The facts of a program after one of its requests succeeded. *)
Definition count_success (c : Completion) (continuous : bool) (completion_tokens now : N) (d : ProgramDecisionState)
  : ProgramDecisionState :=
  let round := if continuous then 1 else 0 in
  d <| completed_requests ::= fun n => u64_saturating_add n 1 |>
    <| segment_served_rounds ::= fun n => u64_saturating_add n 1 |>
    <| rounds_since_activation ::= fun n => u64_saturating_add n round |>
    <| rounds_since_ttl_pause ::= fun n => u64_saturating_add n round |>
    <| last_context_tokens := Some (comp_observed_prompt c) |> <| last_completion_tokens := completion_tokens |>
    <| lifetime_generated_tokens ::= fun n => u64_saturating_add n completion_tokens |>
    <| last_request_finished_at := Some now |> <| last_cache_miss_impact_seconds := comp_miss_impact c |>.

(** The part of a completion that writes the facts of the program: the facts and
    the sample for the window of the target. *)
Definition record_completion (c : Completion) (dispatch : ProgramDispatch) (success : bool)
    (usage : ProgramUsageObservation) (decode : option f64) (action : option CompletionAction) (now : N)
    (d : ProgramDecisionState) : option (ProgramDecisionState * option RequestSample) :=
  let previous := last_context_tokens d in
  let observed := comp_observed_prompt c in
  let growth :=
    previous ← previous;
    let growth := saturating_sub observed previous in
    if (0 <? previous) && (0 <? growth) && (growth <? previous) then Some growth else None in
  let continuous :=
    match previous with
    | None => true
    | Some previous =>
        f64_ge (usize_as_f64 (comp_cached_prompt c)) (f64_mul CACHE_CONTINUITY_HIT_RATIO (usize_as_f64 previous))
    end in
  let starts := d_placement_start_request dispatch && (bool_decide (previous = None) || negb continuous) in
  let due := starts && (negb (shared_prefix_observed d)
    || match shared_prefix_fresh_until d with Some deadline => deadline <=? now | None => true end) in
  let d :=
    match prompt_tokens usage with
    | Some _ => observe_completed_context observed d
    | None =>
        if context_tokens d <=? observed
        then d <| context_tokens := observed |> <| context_shrink_observations := 0 |> else d
    end in
  '(d, sample) ←
    (if success then
       d ← (if starts then start_segment c dispatch due d else Some d);
       let completion := default 0 (completion_tokens usage) in
       let d := count_success c continuous completion now d in
       Some (d, Some {|
         sample_prompt_tokens := observed;
         sample_completion_tokens := completion;
         sample_cached_prompt_tokens := comp_cached_prompt c;
         context_growth_tokens := growth;
         e2e_seconds := as_secs_f64 (saturating_sub now (d_request_arrived_at dispatch));
         decode_seconds := decode;
         queue_seconds := as_secs_f64 (saturating_sub (d_dispatched_at dispatch) (d_request_arrived_at dispatch));
         sample_rounds_since_ttl_pause := rounds_since_ttl_pause d;
         finished_at := now |})
     else Some (d, None));
  d ← (if decide (action = Some StartActingTtl) then
         deadline ← instant_add now (comp_acting_ttl c);
         Some (d <| acting_since := Some now |> <| ttl_deadline := Some deadline |>)
       else Some d);
  Some (d <| output_token_reservation := None |>, sample).

(** The reads of [complete] before it writes. *)
Definition read_completion (dispatch : ProgramDispatch) (usage : ProgramUsageObservation) (d : ProgramDecisionState)
    (s : ProgramSchedulerState) : option Completion :=
  let factors := rank_factors s !! d_target_id dispatch in
  let observed := default (d_estimated_context_tokens dispatch) (prompt_tokens usage) in
  let fallback := from_option (fun f => f64_as_usize (f64_round (average_cached_prompt_tokens f))) 0 factors in
  let shared := N.min (shared_prefix_tokens d) observed in
  let impact := cache_miss_impact_seconds (progress_ttl cfg) (saturating_sub observed shared) in
  ttl ← match factors with Some f => fitted_acting_ttl (progress_ttl cfg) f impact | None => Some 0 end;
  freshness ← shared_prefix_freshness (d_target_id dispatch) s;
  Some {|
    comp_observed_prompt := observed;
    comp_cached_prompt := N.min (default fallback (cached_prompt_tokens usage)) observed;
    comp_explicit_cached := N.min (default 0 (cached_prompt_tokens usage)) observed;
    comp_miss_impact := impact;
    comp_acting_ttl := default ttl (hint_kv_retention_ttl (d_request_hints dispatch));
    comp_freshness := freshness |}.

(** The usage of the target changes with the facts of a program that is still
    active. *)
Definition account_completion (program : ProgramRef) (target_id : string) (before : f64) (s : ProgramSchedulerState)
  : ProgramSchedulerState :=
  match view program (runtime s), decisions s !! program with
  | Some v, Some d =>
      if decide (view_state v = Active)
      then adjust_usage target_id (f64_sub (private_tokens (buffer cfg) d) before) s else s
  | _, _ => s
  end.

Definition complete (dispatch : ProgramDispatch) (success terminate : bool) (usage : ProgramUsageObservation)
    (decode : option f64) (now : N) (s : ProgramSchedulerState) : option ProgramSchedulerState :=
  let program := d_program dispatch in
  let target_id := d_target_id dispatch in
  match view program (runtime s), decisions s !! program with
  | Some before, Some d0 =>
      if decide (view_placement before = Some target_id) then
        let tokens_before := private_tokens (buffer cfg) d0 in
        c ← read_completion dispatch usage d0 s;
        let '(accepted, rt) := complete_request dispatch usage (runtime s) in
        let s := s <| runtime := rt |> in
        if negb accepted then Some s
        else
          let after := view program (runtime s) in
          let s := match after with
                   | Some v => if (view_in_flight_requests v =? 0) && (0 <? view_waiting_requests v)
                               then with_decision program (fun d => d <| pause_when_idle := false |>) s else s
                   | None => s
                   end in
          let s := with_decision program (fun d => d <| terminate_when_idle ::= fun b => b || terminate |>) s in
          let action := decisions s !! program ≫= completion_action after success in
          s ← match action with
              | Some (Pause reason) => snd <$> pause_idle cfg program reason now s
              | _ => Some s
              end;
          d ← decisions s !! program;
          '(d, sample) ← record_completion c dispatch success usage decode action now d;
          let s := s <| decisions ::= <[program := d]> |> in
          let s := account_completion program target_id tokens_before s in
          let s := match sample with
                   | Some sample =>
                       with_factors target_id (push_request sample (stats_window_size (progress_ttl cfg))) s
                   | None => s
                   end in
          let s := if decide (action = Some Terminate) then release_program program now s else s in
          s ← (if binding_only cfg then Some s else snd <$> yield_completed_segment cfg program now s);
          run_periodic_decisions now s
      else Some s
  | _, _ => Some s
  end.

(** ** Requests *)

Definition activate_binding_only (program : ProgramRef) (now : N) (s : ProgramSchedulerState) : ProgramSchedulerState :=
  if decide (view_state <$> view program (runtime s) = Some Active)
  then s <| runtime ::= runtime_notify_front program |>
  else
    match decisions s !! program ≫= last_target with
    | Some target_id => (commit_admission cfg program target_id now s).2
    | None => s
    end.

(** The interval since the program's last request is a sample of its target. *)
Definition observe_continuity (program : ProgramRef) (arrived_at : N) (s : ProgramSchedulerState) : ProgramSchedulerState :=
  match view program (runtime s), decisions s !! program with
  | Some v, Some d =>
      match last_request_finished_at d, last_target d with
      | Some finished_at, Some target_id =>
          let interval := as_secs_f64 (saturating_sub arrived_at finished_at) in
          if (view_in_flight_requests v =? 0) && is_finite interval && f64_ge interval f0
          then with_factors target_id (push_continuity (MkContinuity interval (last_cache_miss_impact_seconds d))
                 (stats_window_size (progress_ttl cfg))) s
          else s
      | _, _ => s
      end
  | _, _ => s
  end.

(** A program without a placement joins the queue it is scheduled from. *)
Definition join_queue (identity : ProgramIdentity) (program : ProgramRef) (target_id : string) (arrived_at : N)
    (s : ProgramSchedulerState) : option ProgramSchedulerState :=
  let join (key : string) (queues : gmap string (list ProgramRef)) :=
    if bool_decide (program ∈ default [] (queues !! key)) then <[key := default [] (queues !! key)]> queues
    else enqueue key program queues in
  let s := if global_queue cfg then s <| global_queues ::= join (id_model_pool identity) |>
           else s <| rank_queues ::= join target_id |> in
  let s := with_decision program (fun d => d <| queued_at := Some (default arrived_at (queued_at d)) |>) s in
  set_force_resume_deadline cfg target_id program arrived_at s.

(** The critical section of [acquire_synced]; [activated_at] is the reading of
    [activate_binding_only]. *)
Definition acquire_locked (identity : ProgramIdentity) (estimate : N) (routing_text : option string)
    (arrived_at activated_at : N) (s : ProgramSchedulerState)
  : option (result ProgramRequestHandle ScheduleError * ProgramSchedulerState) :=
  let '(handle, rt) := retain_request identity estimate routing_text arrived_at (runtime s) in
  let program := handle_program handle in
  let s := observe_continuity program arrived_at (s <| runtime := rt |>) in
  let previous_tokens := from_option (private_tokens (buffer cfg)) f0 (decisions s !! program) in
  s ← ensure_decision_state cfg identity program estimate arrived_at routing_text s;
  d ← decisions s !! program;
  let current_tokens := private_tokens (buffer cfg) d in
  let decide_now (s : ProgramSchedulerState) :=
    s ← (if binding_only cfg then Some (activate_binding_only program activated_at s)
         else run_request_arrival_decisions arrived_at s);
    Some (Ok handle, s) in
  match view program (runtime s) ≫= view_placement with
  | Some target_id =>
      decide_now
        (if negb (pause_when_idle d) && float_gt current_tokens previous_tokens
         then adjust_usage target_id (f64_sub current_tokens previous_tokens) s else s)
  | None =>
      match last_target d with
      | None => Some (Err NoTargets, s)
      | Some target_id => s ← join_queue identity program target_id arrived_at s; decide_now s
      end
  end.

Definition claim_dispatch (handle : ProgramRequestHandle) (now : N) (s : ProgramSchedulerState)
  : option (option ProgramDispatch * ProgramSchedulerState) :=
  match placement (handle_program handle) (runtime s) with
  | None => Some (None, s)
  | Some target_id =>
      let '(dispatch, rt) := admit_front handle target_id now (runtime s) in
      let s := s <| runtime := rt |> in
      match dispatch with
      | None => Some (None, s)
      | Some dispatch =>
          match d_routing_text dispatch with
          | None => Some (Some dispatch, s)
          | Some text =>
              b ← commit_binding (d_program dispatch) text (d_target_id dispatch) (table s);
              Some (Some dispatch, s <| table := b |>)
          end
      end
  end.

(** A program that its cancelled request leaves idle is paused. *)
Definition pause_cancelled (before : option RuntimeProgramView) (program : ProgramRef) (now : N) (s : ProgramSchedulerState)
  : option ProgramSchedulerState :=
  match before, view program (runtime s), decisions s !! program with
  | Some before, Some after, Some d =>
      match last_target d with
      | Some target_id =>
          if bool_decide (view_state before = Active) && bool_decide (view_state after = Paused) then
            d' ← restart_shared_prefix_freshness now
              (d <| paused_at := Some now |> <| last_pause_reason := Some RequestCancelled |>
                 <| rounds_since_activation := 0 |> <| pause_when_idle := false |>);
            Some (adjust_usage target_id (f64_neg (private_tokens (buffer cfg) d)) s <| decisions ::= <[program := d']> |>)
          else Some s
      | None => Some s
      end
  | _, _, _ => Some s
  end.

(** Nothing of the program is in flight or waiting. *)
Definition is_idle (v : RuntimeProgramView) : bool :=
  (view_in_flight_requests v =? 0) && (view_waiting_requests v =? 0).

(** The three readings are those of the pause, the release and the schedule. *)
Definition cancel_retained_request (handle : ProgramRequestHandle) (paused_at released_at scheduled_at : N)
    (s : ProgramSchedulerState) : option ProgramSchedulerState :=
  let program := handle_program handle in
  let before := view program (runtime s) in
  let '(cancelled, rt) := cancel_request handle (runtime s) in
  let s := s <| runtime := rt |> in
  if negb cancelled then Some s
  else
    s ← pause_cancelled before program paused_at s;
    let after := view program (runtime s) in
    let s := if from_option (fun v => 0 <? view_waiting_requests v) false after then s else unqueue_all program s in
    let s := if from_option is_idle false after
                && from_option (fun d => completed_requests d =? 0) false (decisions s !! program)
             then release_program program released_at s else s in
    '(_, s) ← schedule_waiting cfg scheduled_at s;
    Some s.

(** One round of the loop of [acquire_synced]: the request is dispatched, times
    out, or waits on. *)
Definition acquire_poll (handle : ProgramRequestHandle) (arrived_at claimed_at now : N)
    (cancelled_at : N * N * N) (s : ProgramSchedulerState)
  : option (option (result ProgramDispatch ScheduleError) * ProgramSchedulerState) :=
  '(dispatch, s) ← claim_dispatch handle claimed_at s;
  match dispatch with
  | Some dispatch => Some (Some (Ok dispatch), s)
  | None =>
      deadline ← instant_add arrived_at (queue_timeout cfg);
      if deadline <=? now then
        let '(t1, t2, t3) := cancelled_at in
        s ← cancel_retained_request handle t1 t2 t3 s;
        Some (Some (Err QueueTimeout), s)
      else Some (None, s)
  end.

End lifecycle.
