(* ===== verification/SchedulerInv.v ===== *)
(** * What the scheduler keeps consistent

    The runtime says which programs exist and where they are placed, the
    decisions say what the scheduler knows about them, and the queues say which
    of them wait.  [sched_ok] states how the three agree, with each other and
    with the targets of the pools.  This file shows that the steps which concern
    one program keep it. *)

From S2P Require Import Prelude RequestPool ProgramRuntime RuntimeFrame Lineage Ieee FloatFacts Factors PrefixTree Binding SchedulerState Scheduler Admission Lifecycle.

Local Open Scope N_scope.
Local Open Scope update_scope.

(** ** Results *)

(** The call returns a value with [P], and if it does not return then [T] fails. *)
Definition returns (T : Prop) {A} (o : option A) (P : A -> Prop) : Prop :=
  match o with Some a => P a | None => ~ T end.

(** ** Configurations *)

(** What [validate_program_scheduling] of [config/validation.rs] asks for. *)
Record config_ok (cfg : ProgramSchedulerConfig) : Prop := {
  co_nodes : binding_strategy cfg = ConsistentHash -> 0 < hash_virtual_nodes cfg;
  co_capacity : binding_strategy cfg = ReasoningTokenBalance -> is_Some (token_capacity (progress_ttl cfg));
  co_rounds : 0 < max_segment_rounds (progress_ttl cfg);
}.

Section state.
Context `{U : Unordered} (cfg : ProgramSchedulerConfig).

(** ** One program *)

Definition queue_map (s : ProgramSchedulerState) : gmap string (list ProgramRef) :=
  if global_queue cfg then global_queues s else rank_queues s.

(** The queue scheduling reads for a target or a pool. *)
Definition queue_at (s : ProgramSchedulerState) (key : string) : list ProgramRef := default [] (queue_map s !! key).

(** The queue a program belongs to. *)
Definition queue_key (r : ProgramRef) (d : ProgramDecisionState) : option string :=
  if global_queue cfg then Some (ref_model_pool r) else last_target d.

(** The targets of the pool. *)
Definition pool_ids (s : ProgramSchedulerState) (model_pool : string) : gset string :=
  default ∅ (model_targets s !! model_pool).

(** A program, its retained requests, its facts, the queues it is in and the
    targets of its pool fit together.  [E] says that waiting programs are never
    left out of their queue. *)
Record local_ok (E : Prop) (r : ProgramRef) (p : option RuntimeProgram) (waiting : N) (d : option ProgramDecisionState)
    (queued : string -> Prop) (ids : gset string) : Prop := {
  lo_live : is_Some d <-> is_Some p;
  lo_queued : forall k, queued k -> exists p' d', p = Some p' /\ d = Some d' /\
    rp_state p' = Paused /\ waiting <> 0 /\ queue_key r d' = Some k;
  lo_waits : E -> forall p' d' k, p = Some p' -> d = Some d' -> rp_state p' = Paused -> waiting <> 0 ->
    last_target d' <> None -> queue_key r d' = Some k -> queued k;
  lo_placed : forall p' d' t, p = Some p' -> d = Some d' -> rp_placement p' = Some t -> last_target d' = Some t;
  lo_bound : forall d' t, d = Some d' -> last_target d' = Some t -> t ∈ ids;
  lo_unbound : forall d', d = Some d' -> last_target d' = None -> ids = ∅;
  lo_marked : forall p' d', p = Some p' -> d = Some d' -> pause_when_idle d' = true -> rp_state p' = Active;
}.

Definition scheduled_ok (E : Prop) (s : ProgramSchedulerState) (r : ProgramRef) : Prop :=
  local_ok E r (live_program r (runtime s)) (waiting_of r (runtime s)) (decisions s !! r)
    (fun k => r ∈ queue_at s k) (pool_ids s (ref_model_pool r)).

(** ** The state *)

Definition table_ok (b : ProgramBindings) : Prop :=
  bindings_ok b /\ forall cs, strategy_ready (binding_strategy cfg) (hash_virtual_nodes cfg) cs -> bindings_ready b cs.

(** No target is in two pools, or the queues are those of the pools. *)
Definition separate (pools : gmap string (gset string)) : Prop :=
  global_queue cfg = true \/
  forall m1 m2 t, t ∈ default ∅ (pools !! m1) -> t ∈ default ∅ (pools !! m2) -> m1 = m2.

Record sched_ok (E : Prop) (s : ProgramSchedulerState) : Prop := {
  so_runtime : runtime_ok (runtime s);
  so_programs : forall r, scheduled_ok E s r;
  so_queues : forall k, NoDup (queue_at s k);
  so_table : table_ok (table s);
  so_forest : forest (lineage s);
  so_targets : forall t, is_Some (targets s !! t) <-> exists m, t ∈ pool_ids s m;
  so_separate : E -> separate (model_targets s);
}.

(** The deadline of the shared prefix can be moved to [now]. *)
Definition span_fits (now : N) (d : ProgramDecisionState) : Prop :=
  forall until, shared_prefix_fresh_until d = Some until ->
    is_Some (instant_add now (saturating_sub until (shared_prefix_freshness_anchor_at d))).

Definition fits (now : N) (s : ProgramSchedulerState) : Prop :=
  forall r d, decisions s !! r = Some d -> span_fits now d.

(** No program but [r] differs. *)
Record touches (r : ProgramRef) (s s' : ProgramSchedulerState) : Prop := {
  to_runtime : runtime_ok (runtime s) -> runtime_ok (runtime s');
  to_frame : frame r (runtime s) (runtime s');
  to_decisions : forall r', r' <> r -> decisions s' !! r' = decisions s !! r';
  to_queues : forall k r', r' <> r -> r' ∈ queue_at s' k <-> r' ∈ queue_at s k;
  to_nodup : (forall k, NoDup (queue_at s k)) -> forall k, NoDup (queue_at s' k);
  to_pools : model_targets s' = model_targets s;
  to_targets : targets s' = targets s;
  to_table : table_ok (table s) -> table_ok (table s');
  to_forest : forest (lineage s) -> forest (lineage s');
}.

(** Retained requests and requests in flight are the same. *)
Definition same_load (s s' : ProgramSchedulerState) : Prop := forall r,
  waiting_of r (runtime s') = waiting_of r (runtime s) /\
  rp_in_flight_requests <$> live_program r (runtime s') = rp_in_flight_requests <$> live_program r (runtime s).

(** The part of the state the invariant is about. *)
Definition core (s : ProgramSchedulerState) :=
  (runtime s, table s, decisions s, targets s, model_targets s, rank_queues s, global_queues s, lineage s).

(** ** Lemmas *)

Lemma returns_bind {A B} T (o : option A) (f : A -> option B) P Q :
  returns T o P -> (forall a, P a -> returns T (f a) Q) -> returns T (o ≫= f) Q.
Proof. destruct o; simpl; auto. Qed.

Lemma returns_mono {A} T (o : option A) (P Q : A -> Prop) : returns T o P -> (forall a, P a -> Q a) -> returns T o Q.
Proof. destruct o; simpl; auto. Qed.

Lemma returns_weaken {A} (T T' : Prop) (o : option A) P : (T' -> T) -> returns T o P -> returns T' o P.
Proof. destruct o; simpl; auto. Qed.

Lemma returns_foldM {A S} T (f : A -> S -> option S) (I : list A -> S -> Prop) l s :
  I l s -> (forall x l s, I (x :: l) s -> returns T (f x s) (I l)) -> returns T (foldM f l s) (I []).
Proof.
  revert s. induction l as [|x l IH]; intros s Hs Hf; simpl; [done|].
  eapply returns_bind; [by apply Hf|]. intros s' Hs'. by apply IH.
Qed.

Lemma touches_refl r s : touches r s s.
Proof. by split. Qed.

Lemma touches_trans r s1 s2 s3 : touches r s1 s2 -> touches r s2 s3 -> touches r s1 s3.
Proof.
  intros [A1 A2 A3 A4 A5 A6 A7 A8 A9] [B1 B2 B3 B4 B5 B6 B7 B8 B9]. split; auto.
  - intros r' Hr. destruct (A2 r' Hr), (B2 r' Hr). split; congruence.
  - intros r' Hr. by rewrite B3, A3.
  - intros k r' Hr. by rewrite B4, A4.
  - congruence.
  - congruence.
Qed.

Lemma scheduled_frame E r r' s s' : touches r s s' -> r' <> r -> scheduled_ok E s r' -> scheduled_ok E s' r'.
Proof.
  intros [T1 T2 T3 T4 T5 T6 T7 T8 T9] Hr [L1 L2 L3 L4 L5 L6 L7]. unfold scheduled_ok, pool_ids.
  destruct (T2 r' Hr) as [-> ->]. rewrite T3, T6 by done. split; auto.
  - intros k. rewrite T4 by done. apply L2.
  - intros HE p d k H1 H2 H3 H4 H5 H6. rewrite T4 by done. by apply (L3 HE p d k).
Qed.

Lemma touches_ok E r s s' : sched_ok E s -> touches r s s' -> scheduled_ok E s' r -> sched_ok E s'.
Proof.
  intros [Hr Hp Hq Ht Hf Hi Hs] Hto Hl. pose proof Hto as [T1 T2 T3 T4 T5 T6 T7 T8 T9]. split; auto.
  - intros r'. destruct (decide (r' = r)) as [->|Hne]; [done|]. by apply (scheduled_frame E r r' s).
  - intros t. unfold pool_ids. rewrite T7, T6. apply Hi.
  - by rewrite T6.
Qed.

Lemma core_ok E s s' : core s' = core s -> sched_ok E s -> sched_ok E s'.
Proof.
  intros [= E1 E2 E3 E4 E5 E6 E7 E8] [H1 H2 H3 H4 H5 H6 H7].
  assert (forall k, queue_at s' k = queue_at s k) as Hq by (intros k; unfold queue_at, queue_map; by rewrite E6, E7).
  assert (forall m, pool_ids s' m = pool_ids s m) as Hi by (intros m; unfold pool_ids; by rewrite E5).
  split; try (rewrite ?E1, ?E2, ?E5, ?E8; done).
  - intros r. destruct (H2 r) as [L1 L2 L3 L4 L5 L6 L7]. unfold scheduled_ok. rewrite E1, E3, Hi. split; auto.
    + intros k. rewrite Hq. apply L2.
    + intros HE p d k. rewrite Hq. by apply L3.
  - intros k. by rewrite Hq.
  - intros t. rewrite E4. setoid_rewrite Hi. apply H6.
Qed.

Lemma queue_at_unqueue r s k : queue_at (unqueue_all r s) k = filter (fun q => q <> r) (queue_at s k).
Proof.
  unfold queue_at, queue_map, unqueue_all, unqueue. destruct (global_queue cfg); simpl; rewrite lookup_fmap.
  - by destruct (global_queues s !! k).
  - by destruct (rank_queues s !! k).
Qed.

Lemma unqueue_touches r s : touches r s (unqueue_all r s).
Proof.
  split; try done.
  - intros k r' Hr. rewrite queue_at_unqueue, list_elem_of_filter. naive_solver.
  - intros H k. rewrite queue_at_unqueue. by apply NoDup_filter.
Qed.

Lemma alter_touches r f s : touches r s (with_decision r f s).
Proof. split; try done. intros r' Hr. simpl. by rewrite lookup_alter_ne. Qed.

Lemma runtime_touches r rt s : (runtime_ok (runtime s) -> runtime_ok rt) -> frame r (runtime s) rt ->
  touches r s (s <| runtime := rt |>).
Proof. intros H1 H2. by split. Qed.

Lemma becomes_touches r p n s rt : becomes r p n (runtime s) rt -> touches r s (s <| runtime := rt |>).
Proof. intros (H1 & _ & _ & H2 & _). by apply runtime_touches. Qed.

(** ** Shapes *)

Lemma local_active E r p n d (Q : string -> Prop) ids t : program_facts n p -> rp_placement p = Some t -> last_target d = Some t -> t ∈ ids ->
  (forall k, ~ Q k) -> local_ok E r (Some p) n (Some d) Q ids.
Proof.
  intros [Ha _ _] Hp Hd Hi HQ.
  assert (rp_state p = Active) as Hs by (apply Ha; by eexists). split.
  - done.
  - intros k Hk. by destruct (HQ k).
  - intros _ p' d' k [= <-] _ Hs'. congruence.
  - intros p' d' t' [= <-] [= <-]. congruence.
  - intros d' t' [= <-] Ht'. by assert (t' = t) as -> by congruence.
  - intros d' [= <-]. congruence.
  - intros p' d' [= <-] [= <-]. done.
Qed.

Lemma local_paused E r p n d (Q : string -> Prop) ids : program_facts n p -> rp_state p = Paused ->
  (forall t, last_target d = Some t -> t ∈ ids) -> (last_target d = None -> ids = ∅) -> pause_when_idle d = false ->
  (forall k, Q k -> n <> 0 /\ queue_key r d = Some k) ->
  (E -> forall k, n <> 0 -> last_target d <> None -> queue_key r d = Some k -> Q k) ->
  local_ok E r (Some p) n (Some d) Q ids.
Proof.
  intros [Ha _ _] Hs Hb Hu Hm Hq Hw. split.
  - done.
  - intros k Hk. exists p, d. by destruct (Hq k Hk).
  - intros HE p' d' k [= <-] [= <-] _. auto.
  - intros p' d' t [= <-] [= <-] Ht. destruct Ha as [_ Ha]. rewrite Ha in Hs; [done|by eexists].
  - intros d' t [= <-]. auto.
  - intros d' [= <-]. auto.
  - intros p' d' [= <-] [= <-]. congruence.
Qed.

Lemma local_gone E r n (Q : string -> Prop) ids : (forall k, ~ Q k) -> local_ok E r None n None Q ids.
Proof. intros HQ. split; try done. intros k Hk. by destruct (HQ k). Qed.

(** ** Calls *)

Section calls.
Context (E T : Prop).

(** [s'] is as [s] should leave it, for the deadlines of [now] too if [T]. *)
Definition inv (now : N) (s : ProgramSchedulerState) : Prop := sched_ok E s /\ (T -> fits now s).

Lemma decision_live s r d : sched_ok E s -> decisions s !! r = Some d -> exists p, live_program r (runtime s) = Some p /\
  program_facts (waiting_of r (runtime s)) p.
Proof.
  intros H Hd. destruct (so_programs E s H r) as [[Hl _] _ _ _ _ _ _]. destruct Hl as [p Hp]; [by eexists|].
  exists p. split; [done|]. by apply (ro_facts _ (so_runtime E s H)).
Qed.

Lemma live_decision s r p : sched_ok E s -> live_program r (runtime s) = Some p -> exists d, decisions s !! r = Some d.
Proof. intros H Hp. destruct (so_programs E s H r) as [[_ Hl] _ _ _ _ _ _]. apply Hl. by eexists. Qed.

(** A commit of a program that waits. *)
Record committed (r : ProgramRef) (t : string) (s s' : ProgramSchedulerState) : Prop := {
  cm_touches : touches r s s';
  cm_load : waiting_of r (runtime s') = waiting_of r (runtime s);
  cm_dom : dom (programs (runtime s')) = dom (programs (runtime s));
  cm_active : exists p d d0, live_program r (runtime s') = Some p /\ decisions s' !! r = Some d /\
    decisions s !! r = Some d0 /\ rp_placement p = Some t /\ last_target d = Some t /\ pause_when_idle d = false /\
    shared_prefix_fresh_until d = shared_prefix_fresh_until d0 /\
    shared_prefix_freshness_anchor_at d = shared_prefix_freshness_anchor_at d0;
  cm_queues : forall k, queue_at s' k = filter (fun q => q <> r) (queue_at s k);
  cm_paused : exists p, live_program r (runtime s) = Some p /\ rp_state p = Paused;
  cm_requests : requests (request_pool (runtime s')) = requests (request_pool (runtime s));
  cm_observations : forall t', t' <> t -> observations s' !! t' = observations s !! t';
  cm_factors : rank_factors s' = rank_factors s;
}.

Lemma activate_pool r t rt : request_pool (activate r t rt).2 = request_pool rt.
Proof. unfold activate. by repeat case_match. Qed.

Lemma commit_spec r t now s : sched_ok E s ->
  (exists s', commit_admission cfg r t now s = (true, s') /\ committed r t s s') \/
  (exists s', commit_admission cfg r t now s = (false, s') /\ (sched_ok E s -> sched_ok E s') /\
    forall p, live_program r (runtime s) = Some p -> ~ can_activate (waiting_of r (runtime s)) p).
Proof.
  intros H. unfold commit_admission. destruct (decisions s !! r) as [d|] eqn:Ed.
  2: { right. eexists. split_and!; [done|done|]. intros p Hp. destruct (live_decision s r p H Hp). congruence. }
  destruct (activate_spec r t (runtime s) (so_runtime E s H)) as [(p & rt & e & Hp & [Hs _] & Ea & Hb)|[-> Hn]].
  2: { right. eexists. split; [done|]. split; [|done]. by apply core_ok. }
  pose proof (activate_pool r t (runtime s)) as Hpool. rewrite Ea in Hpool |- *.
  left. eexists. split; [done|]. cbn [negb].
  pose proof (becomes_same _ _ _ _ _ _ Hb (notify_same r rt)) as Hb'.
  destruct Hb' as (H1 & H2 & H3 & H4 & H5).
  match goal with |- committed _ _ _ ?x => set (s' := x) end.
  assert (forall k, queue_at s' k = filter (fun q => q <> r) (queue_at s k)) as HQ by (intros k; apply (queue_at_unqueue r s k)).
  split.
  - split; try done.
    + intros r' Hr. simpl. by rewrite lookup_alter_ne.
    + intros k r' Hr. rewrite HQ, list_elem_of_filter. naive_solver.
    + intros Hq k. rewrite HQ. by apply NoDup_filter.
  - done.
  - done.
  - exists (activated_program t e p), (resume_decision t now d), d. simpl. rewrite lookup_alter_eq, Ed. done.
  - done.
  - by exists p.
  - simpl in *. by rewrite notify_front_requests, Hpool.
  - intros t' Ht. simpl. by rewrite lookup_insert_ne.
  - done.
Qed.

Lemma fits_touches now r s s' : touches r s s' -> fits now s ->
  (forall d, decisions s' !! r = Some d -> span_fits now d) -> fits now s'.
Proof.
  intros Ht Hf Hr r' d. destruct (decide (r' = r)) as [->|Hne]; [apply Hr|].
  rewrite (to_decisions _ _ _ Ht r' Hne). apply Hf.
Qed.

Lemma committed_ok now r t s s' : inv now s -> t ∈ pool_ids s (ref_model_pool r) -> committed r t s s' -> inv now s'.
Proof.
  intros [H HT] Ht [Hto Hw Hd (p & d & d0 & Hp & Hdec & Hd0 & Hpl & Hl & Hm & Hu & Han) Hq _ _ _ _]. split.
  - apply (touches_ok E r s); [done|done|]. unfold scheduled_ok. rewrite Hp, Hdec. unfold pool_ids.
    rewrite (to_pools _ _ _ Hto). apply (local_active E r p _ d _ _ t); try done.
    + apply (ro_facts (runtime s')); [|done]. by apply (to_runtime _ _ _ Hto), (so_runtime E s).
    + intros k. rewrite Hq, list_elem_of_filter. naive_solver.
  - intros HT'. apply (fits_touches now r s); [done|auto|]. intros d' Hd'. assert (d' = d) as -> by congruence.
    intros u. rewrite Hu, Han. by apply (HT HT' r).
Qed.

Lemma restart_spec now d : returns (span_fits now d) (restart_shared_prefix_freshness now d) (fun d' =>
  span_fits now d' /\ last_target d' = last_target d /\ pause_when_idle d' = pause_when_idle d).
Proof.
  unfold restart_shared_prefix_freshness. destruct (shared_prefix_fresh_until d) as [u|] eqn:Eu; simpl.
  - destruct (instant_add now _) as [deadline|] eqn:Ei; simpl.
    + split_and!; [|done|done]. intros u'. simpl. intros [= <-]. unfold instant_add in *.
      destruct (_ <? _) eqn:El; [|done]. injection Ei as <-. exists (now + saturating_sub u (shared_prefix_freshness_anchor_at d)).
      unfold saturating_sub in *. replace (now + (u - shared_prefix_freshness_anchor_at d) - now) with (u - shared_prefix_freshness_anchor_at d) by lia.
      by rewrite El.
    + intros Hf. destruct (Hf u Eu) as [x Hx]. congruence.
  - split_and!; [|done|done]. intros u. simpl. congruence.
Qed.

Lemma core_touches r s s1 s2 : touches r s s1 -> core s2 = core s1 -> touches r s s2.
Proof.
  intros [A1 A2 A3 A4 A5 A6 A7 A8 A9] Ec. unfold core in Ec. injection Ec as E1 E2 E3 E4 E5 E6 E7 E8.
  assert (forall k, queue_at s2 k = queue_at s1 k) as Hq by (intros k; unfold queue_at, queue_map; by rewrite E6, E7).
  split; rewrite ?E1, ?E2, ?E3, ?E4, ?E5, ?E8; auto; setoid_rewrite Hq; auto.
Qed.

Lemma core_inv now s s' : core s' = core s -> inv now s -> inv now s'.
Proof.
  intros Ec [H HT]. split; [by apply (core_ok E s)|]. unfold core in Ec. injection Ec as _ _ Ed _. unfold fits. by rewrite Ed.
Qed.

(** A program that is placed is in no queue. *)
Lemma active_not_queued s r p k : sched_ok E s -> live_program r (runtime s) = Some p -> rp_state p = Active ->
  r ∉ queue_at s k.
Proof.
  intros H Hp Ha Hk. destruct (lo_queued _ _ _ _ _ _ _ (so_programs E s H r) k Hk) as (p' & d' & Hp' & _ & Hs & _). congruence.
Qed.

Lemma not_waiting_not_queued s r k : sched_ok E s -> waiting_of r (runtime s) = 0 -> r ∉ queue_at s k.
Proof. intros H Hw Hk. by destruct (lo_queued _ _ _ _ _ _ _ (so_programs E s H r) k Hk) as (p' & d' & _ & _ & _ & ? & _). Qed.

Lemma pause_ok r reason now s : inv now s -> waiting_of r (runtime s) = 0 ->
  returns T (pause_idle cfg r reason now s) (fun res => inv now res.2 /\ touches r s res.2 /\ same_load s res.2).
Proof.
  intros HI Hw. pose proof HI as [H HT]. unfold pause_idle.
  assert (inv now s /\ touches r s s /\ same_load s s) as Hsame by (split_and!; [done|apply touches_refl|done]).
  destruct (placement r (runtime s)) as [t|] eqn:Ept; [|done]. destruct (decisions s !! r) as [d|] eqn:Ed; [|done].
  destruct (pause_idle_spec r (runtime s) (so_runtime E s H)) as [(p & rt & Hp & Hc & -> & Hb)|[-> _]]; cbn [negb].
  2: { split_and!; [by apply (core_inv now s)|by apply (core_touches r s s)|done]. }
  eapply returns_bind; [eapply returns_weaken; [|apply restart_spec]; intros HT'; exact (HT HT' r d Ed)|].
  intros d' (Hf & Hl & Hm). simpl in Hl, Hm. destruct Hb as (H1 & H2 & H3 & H4 & H5).
  match goal with |- returns _ (Some (_, ?x)) _ => set (s' := x) end.
  assert (touches r s s') as Hto by (split; try done; intros r' Hr; simpl; by rewrite lookup_insert_ne).
  assert (decisions s' !! r = Some d') as Ed' by (simpl; by rewrite lookup_insert_eq).
  destruct (so_programs E s H r) as [L1 L2 L3 L4 L5 L6 L7]. cbn [returns snd]. split_and!; [split| |].
  - apply (touches_ok E r s); [done|done|]. unfold scheduled_ok. rewrite Ed'. change (runtime s') with rt. rewrite H2, H3.
    apply (local_paused E r); [by rewrite <- H3; apply (ro_facts _ H1)|done| | |done| |].
    + intros t'. rewrite Hl. by apply L5.
    + rewrite Hl. by apply L6.
    + intros k Hk. by destruct (not_waiting_not_queued s r k H Hw).
    + intros _ k Hn. by rewrite Hw in Hn.
  - intros HT'. apply (fits_touches now r s); [done|auto|]. intros x. rewrite Ed'. by intros [= <-].
  - done.
  - intros r'. destruct (decide (r' = r)) as [->|Hne].
    + simpl. by rewrite H2, H3, Hp.
    + destruct (H4 r' Hne) as [E1 E2]. simpl. by rewrite E1, E2.
Qed.

Lemma release_ok r now at_ s : inv now s -> waiting_of r (runtime s) = 0 ->
  inv now (release_program cfg r at_ s) /\ touches r s (release_program cfg r at_ s) /\
  waiting_of r (runtime (release_program cfg r at_ s)) = 0.
Proof.
  intros [H HT] Hw. unfold release_program. set (relief := active_relief _ _ _).
  assert (forall k, r ∉ queue_at s k) as Hnq by (intros k; by apply not_waiting_not_queued).
  destruct (release_spec r at_ (runtime s) (so_runtime E s H)) as [(p & rt & Hp & _ & _ & Er & H1 & H2 & H3 & H4)|Er];
    change (runtime (unqueue_all r s)) with (runtime s); rewrite Er.
  - match goal with |- inv _ ?x /\ _ => set (s' := x) end.
    assert (runtime s' = rt /\ decisions s' = delete r (decisions s) /\ targets s' = targets s /\
      model_targets s' = model_targets s /\ lineage s' = lineage s /\ table s' = (Binding.release_program r (table s)).2 /\
      forall k, queue_at s' k = queue_at (unqueue_all r s) k) as (S1 & S2 & S3 & S4 & S5 & S6 & S7)
      by (unfold s'; by destruct relief as [[]|]).
    clearbody s'. assert (touches r s s') as Hto.
    { split; rewrite ?S1, ?S2, ?S3, ?S4, ?S5, ?S6; try done.
      - intros r' Hr. by rewrite lookup_delete_ne.
      - intros k r' Hr. rewrite S7. by apply (to_queues _ _ _ (unqueue_touches r s)).
      - intros Hn k. rewrite S7. by apply (to_nodup _ _ _ (unqueue_touches r s)). }
    split_and!; [split| |by rewrite S1]; [|intros HT'|done].
    + apply (touches_ok E r s); [done|done|]. unfold scheduled_ok. rewrite S1, S2, H2, lookup_delete_eq.
      apply local_gone. intros k. rewrite S7, queue_at_unqueue, list_elem_of_filter. naive_solver.
    + apply (fits_touches now r s); [done|auto|]. rewrite S2, lookup_delete_eq. done.
  - match goal with |- inv _ ?x /\ _ => set (s' := x) end.
    assert (touches r s s') as Hto by (apply (core_touches r s (unqueue_all r s)); [apply unqueue_touches|done]).
    split_and!; [split| |done]; [|auto|done].
    apply (touches_ok E r s); [done|done|]. destruct (so_programs E s H r) as [L1 L2 L3 L4 L5 L6 L7].
    split; auto; [|intros _ p d k _ _ _ Hn; by destruct Hn].
    intros k. rewrite (queue_at_unqueue r s k : queue_at s' k = _), list_elem_of_filter. naive_solver.
Qed.

(** The facts of a program change, but neither its target nor its deadlines. *)
Definition inert (s : ProgramSchedulerState) (r : ProgramRef) (d d' : ProgramDecisionState) : Prop :=
  last_target d' = last_target d /\
  (T -> shared_prefix_fresh_until d' = shared_prefix_fresh_until d /\
    shared_prefix_freshness_anchor_at d' = shared_prefix_freshness_anchor_at d) /\
  (pause_when_idle d' = true -> pause_when_idle d = true \/
    exists p, live_program r (runtime s) = Some p /\ rp_state p = Active).

Lemma alter_ok now r f s : inv now s -> (forall d, decisions s !! r = Some d -> inert s r d (f d)) -> inv now (with_decision r f s).
Proof.
  intros [H HT] Hf. destruct (decisions s !! r) as [d|] eqn:Ed.
  2: { apply (core_inv now s); [|done]. unfold core, with_decision. simpl. by rewrite alter_id by (intros; congruence). }
  destruct (Hf d eq_refl) as (F1 & F2 & F4).
  assert (decisions (with_decision r f s) !! r = Some (f d)) as Ed' by (simpl; by rewrite lookup_alter_eq, Ed). split.
  - apply (touches_ok E r s); [done|apply alter_touches|]. unfold scheduled_ok. rewrite Ed'.
    destruct (so_programs E s H r) as [L1 L2 L3 L4 L5 L6 L7]. rewrite Ed in *. split.
    + rewrite <- L1. by split.
    + intros k Hk. destruct (L2 k Hk) as (p & d0 & Hp & [= <-] & Hs & Hw & Hkey). exists p, (f d). split_and!; [done..|].
      unfold queue_key in *. by rewrite F1.
    + intros HE p d' k Hp [= <-]. unfold queue_key. rewrite F1. by apply (L3 HE p d k).
    + intros p d' t Hp [= <-]. rewrite F1. by apply (L4 p d t).
    + intros d' t [= <-]. rewrite F1. by apply (L5 d t).
    + intros d' [= <-]. rewrite F1. by apply (L6 d).
    + intros p d' Hp [= <-] Hm. destruct (F4 Hm) as [Hm'|(p' & Hp' & Hi)]; [by apply (L7 p d)|].
      simpl in Hp. congruence.
  - intros HT'. apply (fits_touches now r s); [apply alter_touches|auto|]. rewrite Ed'. intros x [= <-] u.
    destruct (F2 HT') as [-> ->]. by apply (HT HT' r).
Qed.

Lemma insert_alter {A} (m : gmap ProgramRef A) r x y : m !! r = Some x -> <[r := y]> m = alter (fun _ => y) r m.
Proof.
  intros H. apply map_eq. intros r'. destruct (decide (r' = r)) as [->|Hne].
  - by rewrite lookup_insert_eq, lookup_alter_eq, H.
  - by rewrite lookup_insert_ne, lookup_alter_ne.
Qed.

Lemma insert_decision_ok now r d d' s : inv now s -> decisions s !! r = Some d -> inert s r d d' ->
  inv now (s <| decisions ::= <[r := d']> |>).
Proof.
  intros H Hd Hi. apply (core_inv now (with_decision r (fun _ => d') s)).
  - unfold core. simpl. by rewrite (insert_alter (decisions s) r d d' Hd).
  - apply alter_ok; [done|]. intros x Hx. assert (x = d) as -> by congruence. done.
Qed.

(** ** Views *)

Lemma elem_of_views s v : sched_ok E s -> v ∈ iter_views (runtime s) ->
  exists p, live_program (viewref_reference v) (runtime s) = Some p /\ viewref_state v = rp_state p /\
    viewref_status v = rp_status p /\ viewref_placement v = rp_placement p /\
    viewref_in_flight_requests v = rp_in_flight_requests p /\
    viewref_waiting_requests v = waiting_of (viewref_reference v) (runtime s) /\
    program_facts (waiting_of (viewref_reference v) (runtime s)) p.
Proof.
  intros H Hv. unfold iter_views in Hv. apply list_elem_of_fmap in Hv as ([k p] & -> & Hp). apply elem_of_iter in Hp.
  simpl in *. assert (live_program (rp_reference p) (runtime s) = Some p) as Hl.
  { apply live_program_Some. by rewrite (ro_key _ (so_runtime E s H) k p Hp). }
  exists p. split_and!; try done. by apply (ro_facts _ (so_runtime E s H)).
Qed.

Lemma views_NoDup s : sched_ok E s -> NoDup (viewref_reference <$> iter_views (runtime s)).
Proof.
  intros H. unfold iter_views. rewrite <- list_fmap_compose. simpl.
  rewrite (iter_perm (programs (runtime s))). apply NoDup_fmap_2_strong; [|apply NoDup_map_to_list].
  intros [k1 p1] [k2 p2] H1%elem_of_map_to_list H2%elem_of_map_to_list Heq. simpl in Heq.
  pose proof (ro_key _ (so_runtime E s H) _ _ H1). pose proof (ro_key _ (so_runtime E s H) _ _ H2). congruence.
Qed.

(** ** Deadlines and releases *)

Lemma expire_ok now s : inv now s -> returns T (expire_acting_ttls cfg now s) (fun res => inv now res.2).
Proof.
  intros HI. unfold expire_acting_ttls.
  set (I l (acc : bool * ProgramSchedulerState) := inv now acc.2 /\ Forall (fun r => waiting_of r (runtime acc.2) = 0) l).
  apply (returns_mono T _ (I [])); [|by intros a []]. apply (returns_foldM T _ I).
  - split; [done|]. apply Forall_forall. intros r (v & -> & Hv)%list_elem_of_fmap.
    apply list_elem_of_filter in Hv as [Hx Hv]. destruct (elem_of_views s v (proj1 HI) Hv) as (p & Hp & _ & Es & _ & _ & _ & Hf).
    apply (pf_acting _ _ Hf). rewrite <- Es. unfold ttl_expired in Hx. rewrite !andb_true_iff in Hx.
    by destruct Hx as [[[_ Hx%bool_decide_eq_true] _] _].
  - intros r l [changed s1] [HI1 [Hr Hl]%Forall_cons]. unfold expire_ttl. simpl in HI1, Hr, Hl.
    destruct (match decisions s1 !! r with Some _ => _ | None => _ end) as [[target rounds] segment].
    eapply returns_bind; [by apply pause_ok|]. intros [paused s2] (HI2 & _ & Hload). simpl in *.
    assert (Forall (fun r => waiting_of r (runtime s2) = 0) l) as Hl2.
    { eapply Forall_impl; [exact Hl|]. intros x Hx. simpl in *. by rewrite (proj1 (Hload x)). }
    destruct paused; [|done]. split; [|by destruct target].
    assert (inv now (with_decision r (fun d => d <| ttl_pause_sampled_segment_rounds := segment |> <| rounds_since_ttl_pause := 0 |>) s2))
      by (apply alter_ok; [done|]; intros d _; split_and!; [done..|by left]).
    destruct target; [|done]. by eapply core_inv; [|done].
Qed.

Lemma release_all_ok now at_ l s : inv now s -> Forall (fun r => waiting_of r (runtime s) = 0) l ->
  inv now (foldl (fun s r => release_program cfg r at_ s) s l).
Proof.
  revert s. induction l as [|r l IH]; intros s HI Hl; [done|].
  simpl. apply Forall_cons in Hl as [Hr Hl]. destruct (release_ok r now at_ s HI Hr) as (HI' & Hto & Hw).
  apply IH; [done|]. eapply Forall_impl; [exact Hl|]. intros x Hx. simpl in *.
  destruct (decide (x = r)) as [->|Hne]; [done|]. by rewrite (proj2 (to_frame _ _ _ Hto x Hne)).
Qed.

Lemma release_expired_ok now at_ s : inv now s -> inv now (release_expired_paused cfg at_ s).2.
Proof.
  intros HI. apply release_all_ok; [done|]. apply Forall_forall. intros r (v & -> & Hv)%list_elem_of_fmap.
  apply list_elem_of_filter in Hv as [Hx Hv]. destruct (elem_of_views s v (proj1 HI) Hv) as (p & Hp & _ & Es & _ & _ & _ & Hf).
  apply (pf_acting _ _ Hf). rewrite <- Es. unfold retention_expired in Hx. rewrite !andb_true_iff in Hx.
  by destruct Hx as [[[[_ Hx%bool_decide_eq_true] _] _] _].
Qed.

(** ** Capacity repair *)

(** What a victim was chosen for still holds. *)
Definition victim_ok (s : ProgramSchedulerState) (v : CapacityVictim) : Prop :=
  exists p, live_program (victim_reference v) (runtime s) = Some p /\
    match victim_status v with
    | Acting => waiting_of (victim_reference v) (runtime s) = 0
    | Reasoning => rp_in_flight_requests p <> 0
    end.

Lemma victim_load s s' v : same_load s s' -> victim_ok s v -> victim_ok s' v.
Proof.
  intros Hl (p & Hp & Hv). destruct (Hl (victim_reference v)) as [Hw Hi]. rewrite Hp in Hi. simpl in Hi.
  destruct (live_program _ (runtime s')) as [p'|] eqn:Hp'; [|done]. simpl in Hi. exists p'. split; [done|].
  destruct (victim_status v); [congruence|by rewrite Hw].
Qed.

Lemma relieve_ok average now v s : inv now s -> victim_ok s v ->
  returns T (relieve cfg average now v s) (fun res => inv now res.2 /\ same_load s res.2).
Proof.
  intros HI (p & Hp & Hv). unfold relieve. destruct (live_decision s _ p (proj1 HI) Hp) as [d Hd]. rewrite Hd. simpl.
  destruct (victim_status v).
  - simpl. split; [|done]. apply alter_ok; [done|]. intros d' _. split_and!; [done..|]. intros _. right. exists p.
    split; [done|]. destruct (rp_state p) eqn:Es; [done|]. by destruct (pf_paused _ _ (ro_facts _ (so_runtime E s (proj1 HI)) _ p Hp) Es).
  - eapply returns_bind; [by apply pause_ok|]. intros [paused s'] (HI' & _ & Hl). done.
Qed.

Lemma relieve_all_ok average low now vs projected acc : inv now acc.2 -> Forall (victim_ok acc.2) vs ->
  returns T (relieve_all cfg average low now vs projected acc) (fun res => inv now res.2).
Proof.
  revert projected acc. induction vs as [|v vs IH]; intros projected acc HI Hvs; [done|]. simpl.
  destruct (f64_le projected low); [done|]. apply Forall_cons in Hvs as [Hv Hvs].
  eapply returns_bind; [by apply relieve_ok|]. intros [relief s'] [HI' Hl]. simpl in HI', Hl.
  assert (Forall (victim_ok s') vs) by (eapply Forall_impl; [exact Hvs|]; intros x; by apply victim_load).
  by destruct relief; apply IH.
Qed.

Lemma scan_victims average now s l r : sched_ok E s -> Forall (fun v => v ∈ iter_views (runtime s)) l ->
  Forall (victim_ok s) (victims r) -> Forall (victim_ok s) (victims (foldl (scan_program cfg average now s) r l)).
Proof.
  intros H Hl. revert r. induction Hl as [|v l Hv _ IH]; intros r Hr; [done|]. simpl. apply IH.
  unfold scan_program. destruct (elem_of_views s v H Hv) as (p & Hp & _ & Es & _ & Ei & _ & Hf).
  assert (forall d, is_victim v d = true -> victim_ok s (victim_of cfg average now v d)) as Hok.
  { intros d Hd. exists p. split; [done|]. unfold is_victim in Hd. simpl. rewrite Es in *. destruct (rp_status p) eqn:Ep.
    - apply andb_true_iff in Hd as [_ Hd%N.ltb_lt]. lia.
    - by apply (pf_acting _ _ Hf). }
  destruct (decisions s !! viewref_reference v) as [d|]; [|by case_decide].
  specialize (Hok d). destruct (is_victim v d); simpl.
  - case_decide; destruct (_ && _); simpl; apply Forall_app; split; auto.
  - by case_decide; destruct (_ && _); simpl.
Qed.

Lemma repair_ok now s : inv now s -> returns T (repair_capacity cfg now s) (fun res => inv now res.2).
Proof.
  intros HI. unfold repair_capacity. destruct (token_capacity _) as [capacity|]; [|done].
  apply (returns_foldM T _ (fun _ acc => inv now acc.2)); [done|]. intros t _ [changed s1] HI1.
  unfold repair_target. destruct (f64_le _ _); [done|]. apply relieve_all_ok; [done|].
  rewrite sort_by_perm. apply scan_victims; [by apply HI1| |done].
  apply Forall_forall. intros v Hv. unfold active_on in Hv. by apply list_elem_of_filter in Hv as [_ Hv].
Qed.

End calls.

End state.
