(* ===== verification/SchedulerResume.v ===== *)
(** * Scheduling resumes what can be resumed

    The loops of the scheduler end, they resume programs in resume order and
    within the limits of their targets, and what still waits afterwards is
    refused by its target. *)

From S2P Require Import Prelude RequestPool ProgramRuntime RuntimeFrame Lineage Ieee FloatFacts Factors PrefixTree Binding SchedulerState Scheduler Admission Lifecycle SchedulerInv.

Local Open Scope N_scope.
Local Open Scope update_scope.

Section resume.
Context `{U : Unordered} (cfg : ProgramSchedulerConfig) (C : config_ok cfg) (E T : Prop).

(** A program waits to be resumed. *)
Definition waits (s : ProgramSchedulerState) (r : ProgramRef) : Prop := from_option is_waiting false (view r (runtime s)) = true.

(** The target admits the program. *)
Definition admitted (now : N) (s : ProgramSchedulerState) (r : ProgramRef) (t : string) : Prop :=
  exists plan, rank_admission_plan cfg r t now s = Some (Some plan).

Definition refused (now : N) (s : ProgramSchedulerState) (r : ProgramRef) (t : string) : Prop :=
  rank_admission_plan cfg r t now s = Some None.

(** The loops, as what they do: the first program in order that is chosen is
    resumed, until none is chosen. *)
Inductive greedy (candidates : ProgramSchedulerState -> option (list ProgramRef))
    (choose : ProgramSchedulerState -> ProgramRef -> option (option string)) (now : N)
  : list (ProgramRef * string) -> ProgramSchedulerState -> ProgramSchedulerState -> Prop :=
| greedy_done s l : candidates s = Some l -> Forall (fun r => choose s r = Some None) l -> greedy candidates choose now [] s s
| greedy_step s l1 r l2 t s1 tr s2 : candidates s = Some (l1 ++ r :: l2) -> Forall (fun r => choose s r = Some None) l1 ->
    choose s r = Some (Some t) -> commit_admission cfg r t now s = (true, s1) -> committed cfg r t s s1 ->
    greedy candidates choose now tr s1 s2 -> greedy candidates choose now ((r, t) :: tr) s s2.

(** A target resumes its waiting programs in resume order. *)
Inductive resumes (now : N) : list (ProgramRef * string) -> ProgramSchedulerState -> ProgramSchedulerState -> Prop :=
| resumes_nil s : resumes now [] s s
| resumes_cons s r t s1 tr s2 : r ∈ queue_at cfg s t -> waits s r -> admitted now s r t ->
    (forall q, q ∈ queue_at cfg s t -> waits s q -> local_resume_cmp cfg s now q r = Lt -> refused now s q t) ->
    commit_admission cfg r t now s = (true, s1) -> resumes now tr s1 s2 -> resumes now ((r, t) :: tr) s s2.

(** The tokens a program needs on a target. *)
Definition required_tokens (s : ProgramSchedulerState) (r : ProgramRef) (d : ProgramDecisionState) : f64 :=
  private_tokens_with_output (buffer cfg) (front_request_hints r (runtime s) ≫= hint_expected_output_tokens) d.

(** The engine of the target has no backlog and, unless the deadline for resuming
    the program has passed, the target has room for one more program and for
    its tokens below the low watermark. *)
Definition within_limits (now : N) (s : ProgramSchedulerState) (r : ProgramRef) (t : string) : Prop :=
  exists d, decisions s !! r = Some d /\ backend_saturated cfg t now s = false /\
  (is_forced now d = true \/ count_fits cfg (active_program_count t s) = true /\
    forall capacity, token_capacity (progress_ttl cfg) = Some capacity ->
      f64_le (f64_add (target_usage cfg t now s) (required_tokens s r d)) (low_watermark cfg capacity) = true).

(** Programs that wait are admitted one after the other, each to a target of its
    pool that is within its limits at that moment. *)
Inductive admissions (now : N) : list (ProgramRef * string) -> ProgramSchedulerState -> ProgramSchedulerState -> Prop :=
| admissions_nil s : admissions now [] s s
| admissions_cons s r t s1 tr s2 : waits s r -> t ∈ pool_ids s (ref_model_pool r) -> within_limits now s r t ->
    commit_admission cfg r t now s = (true, s1) -> admissions now tr s1 s2 -> admissions now ((r, t) :: tr) s s2.

(** No program that waits for the target is admitted. *)
Definition settled (now : N) (t : string) (s : ProgramSchedulerState) : Prop :=
  forall r, r ∈ queue_at cfg s t -> waits s r -> refused now s r t.

(** ** Plans are always made *)

Lemma target_rounds_some f : exists x, target_rounds (progress_ttl cfg) f = Some x.
Proof.
  unfold target_rounds. destruct (negb _); [by eexists|]. unfold f64_try_clamp.
  change f1 with (usize_as_f64 1). pose proof (usize_positive _ (co_rounds cfg C)) as H. unfold f64_le in H. rewrite H. by eexists.
Qed.

Lemma reserve_some f ds : exists x, reserve cfg f ds = Some x.
Proof.
  unfold reserve, continuous_growth_reserve_tokens. destruct f as [f|]; [|by eexists].
  destruct (target_rounds_some f) as [x ->]. simpl. case_match; by eexists.
Qed.

Lemma batch_gain_some f d active used required s : exists b, batch_gain_admits cfg f d active used required s = Some b.
Proof.
  unfold batch_gain_admits, estimate_batch_gain, continuity_loss. destruct (target_rounds_some f) as [x Hx]. rewrite Hx. cbn [mbind option_bind].
  repeat case_match; simplify_eq; try (by eexists).
  all: simpl in *; rewrite ?Hx; cbn [mbind option_bind]; repeat case_match; by eexists.
Qed.

Lemma capacity_plan_some r d t now s : exists o, capacity_plan cfg r d t now s = Some o.
Proof.
  unfold capacity_plan. destruct (token_capacity _) as [capacity|]; [|by eexists].
  destruct (reserve_some (rank_factors s !! t) (decisions_of s (active_on t (runtime s)))) as [x ->]. cbn [mbind option_bind].
  case_match; [by eexists|]. case_match; [by eexists|]. destruct (rank_factors s !! t) as [f|]; [|by eexists].
  destruct (batch_gain_some f d (active_on t (runtime s)) (target_usage cfg t now s)
    (private_tokens_with_output (buffer cfg) (front_request_hints r (runtime s) ≫= hint_expected_output_tokens) d) s) as [b ->].
  by eexists.
Qed.

Lemma plan_some r t now s : exists o, rank_admission_plan cfg r t now s = Some o.
Proof.
  unfold rank_admission_plan. repeat case_match; try (by eexists). apply capacity_plan_some.
Qed.

Lemma admitted_waits now s r t : admitted now s r t -> waits s r /\
  exists d, decisions s !! r = Some d /\ (global_queue cfg = false -> last_target d = Some t).
Proof.
  intros [plan H]. unfold rank_admission_plan in H. unfold waits.
  destruct (view r (runtime s)) as [v|]; [|done]. destruct (decisions s !! r) as [d|]; [|done].
  destruct (negb (global_queue cfg) && _) eqn:E1; [done|]. simpl. destruct (is_waiting v); [|done]. split; [done|].
  exists d. split; [done|]. intros Hg. rewrite Hg in E1. simpl in E1. apply bool_decide_eq_false in E1. by apply dec_stable.
Qed.

Lemma waits_spec s r : waits s r <-> exists p, live_program r (runtime s) = Some p /\ rp_state p = Paused /\
  rp_status p = Reasoning /\ waiting_of r (runtime s) <> 0.
Proof.
  unfold waits, view. destruct (live_program r (runtime s)) as [p|] eqn:Hp; simpl.
  - unfold is_waiting. simpl. rewrite !andb_true_iff, !bool_decide_eq_true, N.ltb_lt.
    pose proof (live_lookup r (runtime s) p Hp) as [_ ->]. fold (waiting_of r (runtime s)).
    split; [intros [[H1 H2] H3]; exists p; split_and!; [done..|lia]|intros (p' & [= <-] & H1 & H2 & H3); split_and!; [done..|lia]].
  - split; [done|]. by intros (p & ? & _).
Qed.

(** ** What a plan says *)

(** Why a target refuses a program that waits for it. *)
Definition refusal (now : N) (s : ProgramSchedulerState) (r : ProgramRef) (d : ProgramDecisionState) (t : string) : Prop :=
  backend_saturated cfg t now s = true \/
  is_forced now d = false /\
    (count_fits cfg (active_program_count t s) = false \/
     exists capacity, token_capacity (progress_ttl cfg) = Some capacity /\
       (f64_le (f64_add (target_usage cfg t now s) (required_tokens s r d)) (low_watermark cfg capacity) = false \/
        exists extra, reserve cfg (rank_factors s !! t) (decisions_of s (active_on t (runtime s))) = Some extra /\
          f64_le (f64_add (f64_add (target_usage cfg t now s) (required_tokens s r d)) extra) (low_watermark cfg capacity) = false)).

Lemma refused_why now s r t d : refused now s r t -> waits s r -> decisions s !! r = Some d ->
  global_queue cfg = true \/ last_target d = Some t -> refusal now s r d t.
Proof.
  intros Hr Hw Hd Ht. unfold refused, rank_admission_plan in Hr. unfold waits in Hw.
  destruct (view r (runtime s)) as [v|]; [|done]. rewrite Hd in Hr.
  assert (negb (global_queue cfg) && bool_decide (last_target d <> Some t) = false) as E1.
  { apply andb_false_iff. destruct Ht as [->|Ht]; [by left|right]. apply bool_decide_eq_false. naive_solver. }
  rewrite E1 in Hr. simpl in Hw. rewrite Hw in Hr. simpl in Hr. unfold refusal.
  destruct (backend_saturated cfg t now s); [by left|right]. unfold capacity_plan in Hr. fold (required_tokens s r d) in Hr.
  fold (active_program_count t s) in Hr. destruct (is_forced now d); simpl in Hr.
  - destruct (token_capacity _) as [capacity|]; [|done]. destruct (reserve_some (rank_factors s !! t) (decisions_of s (active_on t (runtime s)))) as [x Hx].
    by rewrite Hx in Hr.
  - split; [done|]. destruct (count_fits cfg (active_program_count t s)); [right|by left]. simpl in Hr.
    destruct (token_capacity _) as [capacity|]; [|done]. exists capacity. split; [done|].
    destruct (f64_le _ (low_watermark cfg capacity)) eqn:El; [|by left]. right.
    destruct (reserve_some (rank_factors s !! t) (decisions_of s (active_on t (runtime s)))) as [x Hx].
    exists x. split; [done|]. rewrite Hx in Hr. cbn [mbind option_bind] in Hr. simpl in Hr.
    by destruct (f64_le (f64_add _ x) _).
Qed.

(** Within its limits, unless its deadline has passed. *)
Lemma admitted_limits now s r t : admitted now s r t -> within_limits now s r t.
Proof.
  intros [plan Hr]. unfold rank_admission_plan in Hr. destruct (view r (runtime s)) as [v|]; [|done].
  destruct (decisions s !! r) as [d|] eqn:Hd; [|done]. exists d. split; [done|].
  destruct (_ && bool_decide _); [done|]. destruct (negb (is_waiting v)); [done|].
  destruct (backend_saturated cfg t now s); [done|]. split; [done|]. unfold capacity_plan in Hr.
  fold (required_tokens s r d) in Hr. fold (active_program_count t s) in Hr.
  destruct (is_forced now d); [by left|right]. simpl in Hr. destruct (token_capacity _) as [capacity|].
  - destruct (reserve_some (rank_factors s !! t) (decisions_of s (active_on t (runtime s)))) as [x Hx].
    rewrite Hx in Hr. cbn [mbind option_bind] in Hr. destruct (count_fits _ _); [|done]. split; [done|].
    intros c [= <-]. destruct (f64_le (f64_add (target_usage cfg t now s) _) _); [done|]. done.
  - destruct (count_fits _ _); done.
Qed.

(** ** The loops *)

Lemma find_mapM_spec {A B} (f : A -> option (option B)) l : (forall x, x ∈ l -> is_Some (f x)) ->
  (find_mapM f l = Some None /\ Forall (fun x => f x = Some None) l) \/
  (exists l1 x l2 y, l = l1 ++ x :: l2 /\ find_mapM f l = Some (Some y) /\ f x = Some (Some y) /\
     Forall (fun x => f x = Some None) l1).
Proof.
  induction l as [|x l IH]; intros Hf; simpl; [by left|].
  destruct (Hf x) as [[y|] Hx]; [left| |]; rewrite Hx; cbn [mbind option_bind].
  - right. exists [], x, l, y. by rewrite Hx.
  - destruct IH as [[H1 H2]|(l1 & x' & l2 & y & -> & H1 & H2 & H3)]; [intros z Hz; apply Hf; by right|left; auto|].
    right. exists (x :: l1), x', l2, y. split_and!; auto.
Qed.

Lemma tagged_spec {A B} (x : A) (r : option (option B)) :
  (tagged x r = Some None <-> r = Some None) /\ (forall y, tagged x r = Some (Some y) <-> exists b, r = Some (Some b) /\ y = (x, b)).
Proof. destruct r as [[b|]|]; simpl; split; naive_solver. Qed.

Section loop.
Context (k : string) (candidates : ProgramSchedulerState -> option (list ProgramRef))
  (choose : ProgramSchedulerState -> ProgramRef -> option (option string)) (now : N).
Context (Hcand : forall s, sched_ok cfg E s -> exists l, candidates s = Some l /\ forall r, r ∈ l -> r ∈ queue_at cfg s k).
Context (Hchoose : forall s r, sched_ok cfg E s -> exists o, choose s r = Some o /\
  forall t, o = Some t -> t ∈ pool_ids s (ref_model_pool r) /\ admitted now s r t).

Lemma resume_loop_greedy fuel s : inv cfg E T now s -> (length (queue_at cfg s k) <= fuel)%nat ->
  exists tr s', resume_loop cfg fuel candidates choose now s = Some (bool_decide (tr <> []), s') /\
    greedy candidates choose now tr s s' /\ admissions now tr s s' /\ inv cfg E T now s'.
Proof.
  revert s. induction fuel as [|fuel IH]; intros s HI Hfuel; cbn [resume_loop].
  all: destruct (Hcand s (proj1 HI)) as (l & Hl & Hin); rewrite Hl; cbn [mbind option_bind].
  all: destruct (find_mapM_spec (fun r => tagged r (choose s r)) l) as [[-> Hno]|(l1 & r & l2 & y & -> & -> & Hy & Hno)];
    [intros r _; destruct (Hchoose s r (proj1 HI)) as (o & -> & _); by eexists| |]; cbn [mbind option_bind].
  1,3: exists [], s; split_and!; [done| |constructor|done]; apply (greedy_done _ _ _ _ l Hl); eapply Forall_impl; [exact Hno|];
    intros r Hr; by apply tagged_spec in Hr.
  all: apply tagged_spec in Hy as (t & Ht & ->).
  - specialize (Hin r ltac:(set_solver)). destruct (queue_at cfg s k); [set_solver|simpl in Hfuel; lia].
  - destruct (Hchoose s r (proj1 HI)) as (o & Ho & Hpool). rewrite Ht in Ho. injection Ho as <-. destruct (Hpool t eq_refl) as [Hids Ha].
    destruct (admitted_waits now s r t Ha) as [Hw _].
    destruct (commit_spec cfg E r t now s (proj1 HI)) as [(s1 & Ec & Hc)|(s1 & _ & _ & Hn)].
    2: { apply waits_spec in Hw as (p & Hp & Hs & _ & Hwt). by destruct (Hn p Hp). }
    rewrite Ec. cbn [snd]. destruct (IH s1) as (tr & s' & -> & Hg & Had & HI').
    + by apply (committed_ok cfg E T now r t s).
    + rewrite (cm_queues cfg r t s s1 Hc). specialize (Hin r ltac:(set_solver)).
      pose proof (length_filter_lt (fun q => q <> r) (queue_at cfg s k) r Hin ltac:(naive_solver)). lia.
    + exists ((r, t) :: tr), s'. split_and!; [done| | |done]; [|by apply (admissions_cons now s r t s1); [| |apply admitted_limits|..]].
      eapply (greedy_step _ _ _ s l1 r l2 t s1); try done. eapply Forall_impl; [exact Hno|]. intros q Hq. by apply tagged_spec in Hq.
Qed.

End loop.

(** ** Resume order *)

Lemma resume_tier_total s now : total_order (resume_tier_cmp s now).
Proof.
  apply total_then; [exact (total_flip _ (total_key (fun r => is_forced now (decision_of s r)) _ bool_total))|].
  exact (total_flip _ (total_key (front_priority s) _ Z_total)).
Qed.

Lemma fcfs_total s : total_order (fcfs_resume_cmp s).
Proof.
  apply total_then; [|exact (total_key ref_program_id _ string_total)].
  exact (total_key (fun r => queued_at (decision_of s r)) _ (option_total _ N_total)).
Qed.

Lemma local_resume_total s now : total_order (local_resume_cmp cfg s now).
Proof.
  apply total_then; [apply resume_tier_total|]. apply total_then.
  { exact (total_key (fun r => has_yielded (decision_of s r)) _ bool_total). }
  unfold ordinary_resume_cmp. destruct (resume_order cfg); [apply fcfs_total|]. apply total_then; [|apply fcfs_total].
  exact (total_flip _ (total_key (fun r => last_request_finished_at (decision_of s r)) _ (option_total _ N_total))).
Qed.

Lemma sort_programs_sorted cmp s l : (forall r, r ∈ l -> is_Some (decisions s !! r)) -> sort_programs cmp s l = Some (sort_by cmp l).
Proof.
  intros H. destruct l as [|x [|y l]]; [done..|]. unfold sort_programs.
  assert (forallb (has_decision s) (x :: y :: l) = true) as ->; [|done].
  apply forallb_forall. intros r Hr%list_elem_of_In. by apply bool_decide_eq_true, H.
Qed.

Lemma elem_of_waiters q s r : r ∈ reasoning_waiters q s <-> r ∈ default [] q /\ waits s r.
Proof. unfold reasoning_waiters. rewrite list_elem_of_filter. unfold waits. naive_solver. Qed.

(** Queued programs have their facts. *)
Lemma queued_decision s r k : sched_ok cfg E s -> r ∈ queue_at cfg s k -> is_Some (decisions s !! r).
Proof. intros H Hr. destruct (lo_queued _ _ _ _ _ _ _ _ (so_programs cfg E s H r) k Hr) as (p & d & _ & Hd & _). by exists d. Qed.

(** ** Queues of targets *)

Section local.
Context (Hg : global_queue cfg = false).

Lemma queue_at_rank s t : queue_at cfg s t = default [] (rank_queues s !! t).
Proof. unfold queue_at, queue_map. by rewrite Hg. Qed.

Lemma local_candidates_spec t now s : sched_ok cfg E s ->
  exists l, local_candidates cfg t now s = Some l /\ StronglySorted (fun x y => local_resume_cmp cfg s now x y <> Gt) l /\
    forall r, r ∈ l <-> r ∈ queue_at cfg s t /\ waits s r.
Proof.
  intros H. unfold local_candidates, order_resume_candidates. rewrite sort_programs_sorted.
  - eexists. split; [done|]. split; [apply sort_by_sorted, local_resume_total|].
    intros r. rewrite sort_by_perm, elem_of_waiters, queue_at_rank. done.
  - intros r [Hr _]%elem_of_waiters. apply (queued_decision s r t H). by rewrite queue_at_rank.
Qed.

Lemma local_choice_spec t now s r :
  (local_choice cfg t now s r = Some None <-> refused now s r t) /\
  (forall t', local_choice cfg t now s r = Some (Some t') <-> t' = t /\ admitted now s r t).
Proof.
  unfold local_choice, refused, admitted. destruct (rank_admission_plan cfg r t now s) as [[plan|]|]; simpl; split; naive_solver.
Qed.

Lemma local_choice_ok t now s r : sched_ok cfg E s -> exists o, local_choice cfg t now s r = Some o /\
  forall t', o = Some t' -> t' ∈ pool_ids s (ref_model_pool r) /\ admitted now s r t'.
Proof.
  intros H. destruct (plan_some r t now s) as [o Ho]. unfold local_choice. rewrite Ho. eexists. split; [done|].
  intros t' [plan [-> ->]]%fmap_Some. destruct (admitted_waits now s r t) as (Hw & d & Hd & Hl); [by exists plan|].
  split; [|by exists plan]. by apply (lo_bound _ _ _ _ _ _ _ _ (so_programs cfg E s H r) d), Hl.
Qed.

Lemma greedy_resumes t now tr s s' : inv cfg E T now s ->
  greedy (local_candidates cfg t now) (local_choice cfg t now) now tr s s' ->
  resumes now tr s s' /\ settled now t s' /\ Forall (fun rt => rt.2 = t) tr.
Proof.
  intros HI Hg'. induction Hg' as [s l Hl HF|s l1 r l2 t' s1 tr s2 Hl HF Ht' Ec Hc _ IH].
  - destruct (local_candidates_spec t now s (proj1 HI)) as (l' & Hl' & _ & Hin). assert (l' = l) as -> by congruence.
    split_and!; [constructor| |done]. intros r Hr Hw. rewrite Forall_forall in HF. apply local_choice_spec, HF, Hin. done.
  - destruct (local_candidates_spec t now s (proj1 HI)) as (l' & Hl' & Hs & Hin). assert (l' = l1 ++ r :: l2) as -> by congruence.
    destruct (local_choice_ok t now s r (proj1 HI)) as (o & Ho & Hids). rewrite Ht' in Ho. injection Ho as <-.
    apply local_choice_spec in Ht' as [-> Ha]. destruct (Hids t eq_refl) as [Ht _].
    destruct IH as (IH1 & IH2 & IH3); [by apply (committed_ok cfg E T now r t s)|]. split_and!; [|done|by constructor].
    destruct (proj1 (Hin r)) as [Hr Hw]; [set_solver|]. apply (resumes_cons now s r t s1); try done.
    intros q Hq Hqw Hlt. rewrite Forall_forall in HF. apply local_choice_spec, HF.
    pose proof (proj2 (Hin q) (conj Hq Hqw)) as [Hq1|Hq2]%elem_of_app; [done|].
    apply StronglySorted_app in Hs as (_ & _ & Hs). apply StronglySorted_cons in Hs as [Hs _]. rewrite Forall_forall in Hs.
    apply elem_of_cons in Hq2 as [->|Hq2]; [by rewrite (cmp_refl _ (local_resume_total s now)) in Hlt|].
    specialize (Hs q Hq2). by rewrite (cmp_sym _ (local_resume_total s now) q r), Hlt in Hs.
Qed.

End local.

(** ** Targets do not interfere *)

Lemma filter_views_ext {K A B} (P : B -> Prop) `{!forall x, Decision (P x)} (h h' : A -> B) (f f' : K -> option A) (l : list K) :
  (forall k, k ∈ l -> h <$> f k = h' <$> f' k \/
     (forall x, f k = Some x -> ~ P (h x)) /\ (forall x, f' k = Some x -> ~ P (h' x))) ->
  filter P (h <$> omap f l) = filter P (h' <$> omap f' l).
Proof.
  induction l as [|k l IH]; intros Hx; [done|]. cbn [omap list_omap].
  assert (filter P (h <$> omap f l) = filter P (h' <$> omap f' l)) as IH' by (apply IH; intros x Hin; apply Hx; by right).
  destruct (Hx k ltac:(left)) as [Hk|[H1 H2]].
  - destruct (f k) as [x|], (f' k) as [x'|]; try done. simpl in Hk. injection Hk as Hk. rewrite !fmap_cons, !filter_cons, Hk, IH'. done.
  - destruct (f k) as [x|], (f' k) as [x'|]; rewrite ?fmap_cons, ?filter_cons; try rewrite (decide_False (P := P (h x))) by auto;
      try rewrite (decide_False (P := P (h' x'))) by auto; done.
Qed.

Section frame.
Context (r : ProgramRef) (t : string) (s s1 : ProgramSchedulerState) (H : sched_ok cfg E s) (Hc : committed cfg r t s s1).

Lemma programs_frame k : programs (runtime s1) !! k = programs (runtime s) !! k \/
  (exists p p1, programs (runtime s) !! k = Some p /\ programs (runtime s1) !! k = Some p1 /\
    rp_state p = Paused /\ rp_reference p = r /\ rp_placement p1 = Some t).
Proof.
  destruct (programs (runtime s) !! k) as [p|] eqn:Ep.
  - pose proof (ro_key _ (so_runtime cfg E s H) k p Ep) as Hk.
    assert (live_program (rp_reference p) (runtime s) = Some p) as Hl by (apply live_program_Some; by rewrite Hk).
    destruct (decide (rp_reference p = r)) as [Hr|Hr].
    + right. destruct (cm_active cfg r t s s1 Hc) as (p1 & d & d0 & Hp1 & _ & _ & Hpl & _).
      destruct (cm_paused cfg r t s s1 Hc) as (p0 & Hp0 & Hs). exists p, p1. apply live_lookup in Hp1 as [Hp1 _].
      rewrite <- Hr, Hk in Hp1. rewrite Hr in Hl. assert (p0 = p) as -> by congruence. done.
    + left. destruct (to_frame _ _ _ _ (cm_touches cfg r t s s1 Hc) _ Hr) as [Hl1 _]. rewrite Hl in Hl1.
      apply live_lookup in Hl1 as [Hl1 _]. by rewrite Hk in Hl1.
  - left. apply not_elem_of_dom. rewrite (cm_dom cfg r t s s1 Hc). by apply not_elem_of_dom.
Qed.

Lemma program_len_frame q : program_len q (request_pool (runtime s1)) = program_len q (request_pool (runtime s)).
Proof. unfold program_len. by rewrite (cm_requests cfg r t s s1 Hc). Qed.

Lemma active_on_frame t1 : t1 <> t -> active_on t1 (runtime s1) = active_on t1 (runtime s).
Proof.
  intros Ht. unfold active_on, iter_views, iter. rewrite (cm_dom cfg r t s s1 Hc). apply filter_views_ext. intros k _.
  destruct (programs_frame k) as [->|(p & p1 & -> & -> & Hs & _ & Hp1)].
  - left. destruct (programs (runtime s) !! k); simpl; [|done]. by rewrite program_len_frame.
  - right. split; intros x [= <-]; simpl; [rewrite Hp1|rewrite Hs]; naive_solver.
Qed.

Lemma decisions_of_frame vs : Forall (fun v => viewref_reference v <> r) vs -> decisions_of s1 vs = decisions_of s vs.
Proof.
  induction 1 as [|v vs Hv _ IH]; [done|]. unfold decisions_of in *. cbn [omap list_omap].
  by rewrite (to_decisions _ _ _ _ (cm_touches cfg r t s s1 Hc) _ Hv), IH.
Qed.

Lemma active_not_committed t1 : Forall (fun v => viewref_reference v <> r) (active_on t1 (runtime s)).
Proof.
  apply Forall_forall. intros v Hv. unfold active_on in Hv. apply list_elem_of_filter in Hv as [[Hs _] Hv].
  destruct (elem_of_views cfg E s v H Hv) as (p & Hp & Es & _). destruct (cm_paused cfg r t s s1 Hc) as (p0 & Hp0 & Hs0).
  intros Hr. rewrite Hr in Hp. congruence.
Qed.

Lemma plan_frame q t1 now : q <> r -> t1 <> t -> rank_admission_plan cfg q t1 now s1 = rank_admission_plan cfg q t1 now s.
Proof.
  intros Hq Ht. destruct (to_frame _ _ _ _ (cm_touches cfg r t s s1 Hc) q Hq) as [Hl _].
  assert (view q (runtime s1) = view q (runtime s)) as Hv.
  { unfold view. rewrite Hl. destruct (live_program q (runtime s)); [|done]. simpl. by rewrite program_len_frame. }
  assert (fresh_observation cfg t1 now s1 = fresh_observation cfg t1 now s) as Hf
    by (unfold fresh_observation; by rewrite (cm_observations cfg r t s s1 Hc t1 Ht)).
  assert (front_request_hints q (runtime s1) = front_request_hints q (runtime s)) as Hh
    by (unfold front_request_hints, front_hints; by rewrite (cm_requests cfg r t s s1 Hc)).
  pose proof (active_not_committed t1) as Hn. pose proof (active_on_frame t1 Ht) as Ha.
  assert (target_usage cfg t1 now s1 = target_usage cfg t1 now s) as Hu.
  { unfold target_usage, observed_target_usage. rewrite Hf, Ha. by rewrite decisions_of_frame. }
  unfold rank_admission_plan. rewrite Hv, (to_decisions _ _ _ _ (cm_touches cfg r t s s1 Hc) q Hq).
  unfold backend_saturated. rewrite Hf. unfold capacity_plan, batch_gain_admits.
  rewrite Ha, Hu, Hh, (cm_factors cfg r t s s1 Hc), (decisions_of_frame (active_on t1 (runtime s))) by done.
  rewrite (decisions_of_frame (filter _ (active_on t1 (runtime s)))); [done|].
  apply Forall_forall. intros v [_ Hv']%list_elem_of_filter. rewrite Forall_forall in Hn. auto.
Qed.

Lemma waits_frame q : q <> r -> waits s1 q <-> waits s q.
Proof.
  intros Hq. destruct (to_frame _ _ _ _ (cm_touches cfg r t s s1 Hc) q Hq) as [Hl Hw]. rewrite !waits_spec, Hl, Hw. done.
Qed.

Lemma settled_frame now t1 : t1 <> t -> settled now t1 s -> settled now t1 s1.
Proof.
  intros Ht Hs q. rewrite (cm_queues cfg r t s s1 Hc), list_elem_of_filter. intros [Hq Hin] Hw.
  unfold refused. rewrite plan_frame by done. apply Hs; [done|]. by apply waits_frame in Hw.
Qed.

End frame.

Lemma resumes_app now tr1 tr2 s s1 s2 : resumes now tr1 s s1 -> resumes now tr2 s1 s2 -> resumes now (tr1 ++ tr2) s s2.
Proof. induction 1; intros Hr; [done|]. simpl. econstructor; eauto. Qed.

Lemma admissions_app now tr1 tr2 s s1 s2 : admissions now tr1 s s1 -> admissions now tr2 s1 s2 -> admissions now (tr1 ++ tr2) s s2.
Proof. induction 1; intros Ha; [done|]. simpl. econstructor; eauto. Qed.

Lemma app_changed {A} (l1 l2 : list A) : bool_decide (l1 <> []) || bool_decide (l2 <> []) = bool_decide (l1 ++ l2 <> []).
Proof. by destruct l1, l2. Qed.

(** ** Scheduling of target queues *)

Section rank_local.
Context (Hg : global_queue cfg = false).

Lemma greedy_settled t now tr s s' t1 : inv cfg E T now s -> t1 <> t ->
  greedy (local_candidates cfg t now) (local_choice cfg t now) now tr s s' -> settled now t1 s -> settled now t1 s'.
Proof.
  intros HI Ht Hgr. induction Hgr as [|s l1 r l2 t' s1 tr s2 Hl HF Ht' Ec Hc _ IH]; [done|]. intros Hs.
  destruct (local_choice_ok Hg t now s r (proj1 HI)) as (o & Ho & Hids). rewrite Ht' in Ho. injection Ho as <-.
  destruct (Hids t' eq_refl) as [Hin _]. apply local_choice_spec in Ht' as [-> _]. apply IH.
  - by apply (committed_ok cfg E T now r t s).
  - by apply (settled_frame r t s s1 (proj1 HI) Hc).
Qed.

Lemma rank_loop_ok t now s : inv cfg E T now s ->
  exists tr s', resume_loop cfg (queue_length (rank_queues s) t) (local_candidates cfg t now) (local_choice cfg t now) now s
      = Some (bool_decide (tr <> []), s') /\ resumes now tr s s' /\ admissions now tr s s' /\ inv cfg E T now s' /\
    settled now t s' /\ forall t1, t1 <> t -> settled now t1 s -> settled now t1 s'.
Proof.
  intros HI.
  destruct (resume_loop_greedy t (local_candidates cfg t now) (local_choice cfg t now) now) with (queue_length (rank_queues s) t) s
    as (tr & s' & -> & Hgr & Had & HI').
  - intros s0 H0. destruct (local_candidates_spec Hg t now s0 H0) as (l & -> & _ & Hin). exists l. split; [done|]. naive_solver.
  - intros s0 r H0. by apply local_choice_ok.
  - done.
  - unfold queue_length. by rewrite queue_at_rank.
  - destruct (greedy_resumes Hg t now tr s s' HI Hgr) as (H1 & H2 & _). exists tr, s'. split_and!; try done.
    intros t1 Ht1. by apply (greedy_settled t now tr s s').
Qed.

Lemma schedule_rank_local_ok now s : inv cfg E T now s ->
  exists tr s', schedule_rank_local cfg now s = Some (bool_decide (tr <> []), s') /\ resumes now tr s s' /\ admissions now tr s s' /\
    inv cfg E T now s' /\ forall t, settled now t s'.
Proof.
  intros HI. unfold schedule_rank_local, for_keys. set (keys := key_order _).
  assert (forall t, t ∉ keys -> settled now t s) as Hset.
  { intros t Ht r. rewrite queue_at_rank by done. destruct (rank_queues s !! t) eqn:Eq; [|by intros ?%elem_of_nil].
    destruct Ht. unfold keys. rewrite key_order_perm. apply elem_of_elements, elem_of_dom. by eexists. }
  assert (forall c, exists tr s', foldM (fun key '(changed, s) => '(c, s) ← resume_loop cfg (queue_length (rank_queues s) key)
      (local_candidates cfg key now) (local_choice cfg key now) now s; Some (changed || c, s)) keys (c, s)
      = Some (c || bool_decide (tr <> []), s') /\ resumes now tr s s' /\ admissions now tr s s' /\ inv cfg E T now s' /\ forall t, settled now t s') as Hall.
  2: { apply (Hall false). }
  clearbody keys. revert s HI Hset. induction keys as [|t keys IH]; intros s HI Hset c.
  - exists [], s. rewrite orb_false_r. split_and!; [done|constructor|constructor|done|]. intros t. apply Hset. set_solver.
  - cbn [foldM]. destruct (rank_loop_ok t now s HI) as (tr1 & s1 & -> & Hr1 & Ha1 & HI1 & Ht & Hother). cbn [mbind option_bind].
    destruct (IH s1 HI1) with (c || bool_decide (tr1 <> [])) as (tr2 & s2 & -> & Hr2 & Ha2 & HI2 & Hs2).
    { intros t1 Ht1. destruct (decide (t1 = t)) as [->|Hne]; [done|]. apply Hother; [done|]. apply Hset. set_solver. }
    exists (tr1 ++ tr2), s2. split_and!; [|by eapply resumes_app|by eapply admissions_app|done|done].
    by rewrite <- orb_assoc, app_changed.
Qed.

End rank_local.

(** ** Scheduling of pool queues *)

Lemma elem_of_mapM {A B} (f : A -> option B) l k : mapM f l = Some k -> forall y, y ∈ k <-> exists x, x ∈ l /\ f x = Some y.
Proof.
  revert k. induction l as [|x l IH]; simpl; intros k.
  - intros [= <-] y. split; [by intros ?%elem_of_nil|]. by intros (x & ?%elem_of_nil & _).
  - intros (y0 & Hy0 & (k0 & Hk0 & [= <-])%bind_Some)%bind_Some y. rewrite elem_of_cons, (IH k0 Hk0). set_solver.
Qed.

Section global.
Context (Hg : global_queue cfg = true).

Lemma queue_at_global s m : queue_at cfg s m = default [] (global_queues s !! m).
Proof. unfold queue_at, queue_map. by rewrite Hg. Qed.

Lemma destination_total now s : total_order (destination_cmp cfg now s).
Proof.
  unfold destination_cmp. apply total_then; [|apply total_then; [|apply total_then]].
  - exact (total_key (fun c : string * RankAdmissionPlan => default 0 (fresh_observation cfg c.1 now s ≫= waiting_requests)) _ N_total).
  - exact (total_key (fun c : string * RankAdmissionPlan => destination_pressure cfg c.1 c.2 s) _ total_cmp_total).
  - exact (total_key (fun c : string * RankAdmissionPlan => active_program_count c.1 s) _ N_total).
  - exact (total_key (fun c : string * RankAdmissionPlan => c.1) _ string_total).
Qed.

(** A destination is admitted, eligible, and none of those is better. *)
Lemma cross_rank_spec r now s : exists o, select_cross_rank_admission cfg r now s = Some o /\
  forall t plan, o = Some (t, plan) -> exists d source, decisions s !! r = Some d /\ last_target d = Some source /\
    t ∈ pool_ids s (ref_model_pool r) /\ rank_admission_plan cfg r t now s = Some (Some plan) /\
    cross_rank_eligible cfg r d source t now s = true /\
    forall t' plan', t' ∈ pool_ids s (ref_model_pool r) -> cross_rank_eligible cfg r d source t' now s = true ->
      rank_admission_plan cfg r t' now s = Some (Some plan') -> destination_cmp cfg now s (t, plan) (t', plan') <> Gt.
Proof.
  unfold select_cross_rank_admission, pool_ids. destruct (decisions s !! r) as [d|] eqn:Ed; [|by eexists].
  destruct (last_pause_reason d), (last_target d) as [source|] eqn:El, (model_targets s !! ref_model_pool r) as [ids|]; try (by eexists).
  set (f t := tagged t (rank_admission_plan cfg r t now s)). set (l := filter _ _).
  assert (forall t, t ∈ l <-> t ∈ ids /\ cross_rank_eligible cfg r d source t now s = true) as Hl
    by (intros t; unfold l; rewrite list_elem_of_filter, elem_of_btree; naive_solver).
  destruct (mapM_is_Some_2 f l) as [plans Hp].
  { apply Forall_forall. intros t _. change (is_Some (f t)). unfold f. destruct (plan_some r t now s) as [o' ->]. by eexists. }
  rewrite Hp. cbn [mbind option_bind]. eexists. split; [done|]. intros t plan Hm.
  apply (min_by_spec _ _ (destination_total now s)) in Hm as [Hin Hmin].
  assert (forall t plan, (t, plan) ∈ omap id plans <-> t ∈ l /\ rank_admission_plan cfg r t now s = Some (Some plan)) as Hplans.
  { intros t' plan'. rewrite list_elem_of_omap. setoid_rewrite (elem_of_mapM f l plans Hp). split.
    - intros (x & (t1 & Ht1 & Hf) & Hx). simpl in Hx. subst x. unfold f in Hf. apply tagged_spec in Hf as (b & Hb & [= -> ->]). done.
    - intros [Ht' Hpl]. exists (Some (t', plan')). split; [|done]. exists t'. split; [done|]. unfold f. by rewrite Hpl. }
  apply Hplans in Hin as [Ht Hplan]. apply Hl in Ht as [Ht He]. exists d, source. split_and!; try done.
  intros t' plan' Ht' He' Hp'. apply Hmin, Hplans. split; [by apply Hl|done].
Qed.

Lemma pool_order_spec m s cmp l0 : sched_ok cfg E s -> (forall r, r ∈ l0 -> r ∈ global_reasoning_waiters m s) ->
  exists l, sort_programs cmp s l0 = Some l /\ forall r, r ∈ l -> r ∈ queue_at cfg s m.
Proof.
  intros H H0. assert (forall r, r ∈ l0 -> r ∈ queue_at cfg s m) as Hin.
  { intros r [Hr _]%H0%elem_of_waiters. by rewrite queue_at_global. }
  rewrite sort_programs_sorted; [|intros r Hr; apply (queued_decision s r m H); auto].
  eexists. split; [done|]. intros r. rewrite sort_by_perm. apply Hin.
Qed.

Lemma global_choice_ok now s r : sched_ok cfg E s -> exists o, global_local_choice cfg now s r = Some o /\
  forall t, o = Some t -> t ∈ pool_ids s (ref_model_pool r) /\ admitted now s r t.
Proof.
  intros H. unfold global_local_choice. destruct (decisions s !! r) as [d|] eqn:Ed; [|by eexists]. simpl.
  destruct (last_target d) as [t|] eqn:El; [|by eexists]. unfold local_choice. destruct (plan_some r t now s) as [o Ho].
  rewrite Ho. eexists. split; [done|]. intros t' [plan [-> ->]]%fmap_Some.
  split; [by apply (lo_bound _ _ _ _ _ _ _ _ (so_programs cfg E s H r) d)|by exists plan].
Qed.

Lemma cross_choice_ok now s r : sched_ok cfg E s -> exists o, cross_rank_choice cfg now s r = Some o /\
  forall t, o = Some t -> t ∈ pool_ids s (ref_model_pool r) /\ admitted now s r t.
Proof.
  intros H. unfold cross_rank_choice. destruct (cross_rank_spec r now s) as (o & -> & Ho). eexists. split; [done|].
  intros t [[t' plan] [Heq ->]]%fmap_Some. destruct (Ho t' plan Heq) as (d & source & _ & _ & Ht & Hp & _).
  split; [done|by exists plan].
Qed.

Lemma schedule_pool_ok now m s : inv cfg E T now s -> exists tr s', schedule_pool cfg now m s = Some (bool_decide (tr <> []), s') /\
  admissions now tr s s' /\ inv cfg E T now s'.
Proof.
  intros HI. unfold schedule_pool.
  destruct (resume_loop_greedy m (global_local_resume_order cfg m now) (global_local_choice cfg now) now)
    with (queue_length (global_queues s) m) s as (tr & s1 & -> & _ & Ha1 & HI1).
  - intros s0 H0. by apply pool_order_spec.
  - intros s0 r H0. by apply global_choice_ok.
  - done.
  - unfold queue_length. by rewrite queue_at_global.
  - cbn [mbind option_bind].
    destruct (resume_loop_greedy m (global_cross_rank_order m now) (cross_rank_choice cfg now) now)
      with (queue_length (global_queues s1) m) s1 as (tr2 & s2 & -> & _ & Ha2 & HI2).
    + intros s0 H0. apply pool_order_spec; [done|]. by intros r [_ Hr]%list_elem_of_filter.
    + intros s0 r H0. by apply cross_choice_ok.
    + done.
    + unfold queue_length. by rewrite queue_at_global.
    + exists (tr ++ tr2), s2. rewrite <- app_changed. split_and!; [done|by eapply admissions_app|done].
Qed.

Lemma schedule_pools_ok now s : inv cfg E T now s ->
  exists tr s', schedule_global_waiting cfg now s = Some (bool_decide (tr <> []), s') /\ admissions now tr s s' /\ inv cfg E T now s'.
Proof.
  intros HI. unfold schedule_global_waiting, for_keys. set (keys := key_order _). clearbody keys.
  assert (forall c, exists tr s', foldM (fun m '(changed, s) => '(c, s) ← schedule_pool cfg now m s; Some (changed || c, s)) keys (c, s)
    = Some (c || bool_decide (tr <> []), s') /\ admissions now tr s s' /\ inv cfg E T now s') as Hall; [|exact (Hall false)].
  revert s HI. induction keys as [|m keys IH]; intros s HI c.
  - exists [], s. rewrite orb_false_r. split_and!; [done|constructor|done].
  - cbn [foldM]. destruct (schedule_pool_ok now m s HI) as (tr1 & s1 & -> & Ha1 & HI1). cbn [mbind option_bind].
    destruct (IH s1 HI1 (c || bool_decide (tr1 <> []))) as (tr2 & s2 & -> & Ha2 & HI2).
    exists (tr1 ++ tr2), s2. split_and!; [by rewrite <- orb_assoc, app_changed|by eapply admissions_app|done].
Qed.

End global.

(** ** Scheduling *)

Lemma schedule_ok now s : inv cfg E T now s ->
  exists tr s', schedule_waiting cfg now s = Some (bool_decide (tr <> []), s') /\ admissions now tr s s' /\ inv cfg E T now s'.
Proof.
  intros HI. unfold schedule_waiting. destruct (global_queue cfg) eqn:Hg.
  - by apply schedule_pools_ok.
  - destruct (schedule_rank_local_ok Hg now s HI) as (tr & s' & -> & _ & Ha & HI' & _). by exists tr, s'.
Qed.

End resume.
