(* ===== verification/SchedulerCalls.v ===== *)
(** * The calls of the scheduler keep it consistent

    Requests that arrive, are claimed, cancelled or completed, ticks, and the
    synchronisation of targets keep [sched_ok]. *)

From S2P Require Import Prelude RequestPool ProgramRuntime RuntimeFrame Lineage Ieee Factors PrefixTree Binding SchedulerState Scheduler Admission Lifecycle SchedulerInv SchedulerResume.

Local Open Scope N_scope.
Local Open Scope update_scope.

Section calls.
Context `{U : Unordered} `{M : Libm} (cfg : ProgramSchedulerConfig) (C : config_ok cfg) (E T : Prop).

Abbreviation inv := (inv cfg E T).

(** ** Ticks *)

Lemma same_programs_inv now s rt : same_programs (runtime s) rt -> inv now s -> inv now (s <| runtime := rt |>).
Proof.
  intros Hs [[H1 H2 H3 H4 H5 H6 H7] HT]. destruct (same_programs_ok _ _ Hs) as (HL & HW & HO). split; [|done]. split; auto.
  intros r. unfold scheduled_ok. simpl. rewrite HL, HW. apply H2.
Qed.

Lemma schedule_returns now s : inv now s -> returns T (schedule_waiting cfg now s) (fun res => inv now res.2).
Proof. intros HI. destruct (schedule_ok cfg C E T now s HI) as (tr & s' & -> & _ & HI'). done. Qed.

Lemma arrival_ok now s : inv now s -> returns T (run_request_arrival_decisions cfg now s) (inv now).
Proof.
  intros HI. unfold run_request_arrival_decisions.
  eapply returns_bind; [by apply expire_ok, release_expired_ok|]. intros [c1 s1] H1.
  eapply returns_bind; [by apply repair_ok|]. intros [c2 s2] H2.
  eapply returns_bind; [by apply schedule_returns|]. by intros [c3 s3] H3.
Qed.

Lemma periodic_ok now s : inv now s -> returns T (run_periodic_decisions cfg now s) (inv now).
Proof.
  intros HI. unfold run_periodic_decisions.
  eapply returns_bind; [apply expire_ok, (same_programs_inv now s); [apply prune_same|done]|]. intros [c1 s1] H1.
  pose proof (release_expired_ok cfg E T now now s1 H1) as H1'. destruct (binding_only cfg); [done|].
  eapply returns_bind; [by apply repair_ok|]. intros [c2 s2] H2.
  eapply returns_bind; [by apply schedule_returns|]. by intros [c3 s3] H3.
Qed.

Lemma report_core now s : core (report_capacity_accounting_transitions cfg now s) = core s.
Proof.
  unfold report_capacity_accounting_transitions. generalize (btree_iter (dom (targets s))). intros l.
  revert s. induction l as [|t l IH]; intros s; [done|]. simpl. by rewrite IH.
Qed.

Lemma tick_ok now s : inv now s -> returns T (tick cfg now s) (inv now).
Proof.
  intros HI. unfold tick. eapply returns_bind; [by apply periodic_ok|]. intros s1 H1. apply (core_inv cfg E T now s1); [|done]. apply report_core.
Qed.

Lemma observations_core epoch raws s : core (apply_observations cfg epoch raws s) = core s.
Proof.
  unfold apply_observations. destruct (_ =? _); [|done]. revert s. induction raws as [|raw raws IH]; intros s; [done|]. simpl.
  rewrite IH. unfold apply_observation. by repeat case_match.
Qed.

(** ** Claims *)

Lemma claim_ok h now at_ s : inv now s -> exists d s', claim_dispatch h at_ s = Some (d, s') /\ inv now s' /\
  forall dispatch, d = Some dispatch -> d_program dispatch = handle_program h /\
    placement (handle_program h) (runtime s) = Some (d_target_id dispatch).
Proof.
  intros HI. pose proof HI as [H HT]. unfold claim_dispatch. set (r := handle_program h).
  destruct (placement r (runtime s)) as [t|] eqn:Hpl; [|by exists None, s].
  destruct (admit_spec h t at_ (runtime s) (so_runtime cfg E s H) Hpl) as (p & p' & n & d & rt & Hp & Ea & [Hcs Hcp _] & Hb & Hn & Hd).
  rewrite Ea. fold r in Hp, Hb, Hd, Hn. unfold placement in Hpl. rewrite Hp in Hpl. simpl in Hpl.
  pose proof (becomes_touches cfg r p' n s rt Hb) as Hto. destruct Hb as (B1 & B2 & B3 & B4 & _).
  assert (inv now (s <| runtime := rt |>)) as HI'.
  { split; [|done]. apply (touches_ok cfg E r s); [done|done|]. unfold scheduled_ok. simpl. rewrite B2, B3.
    destruct (live_decision cfg E s r p H Hp) as [dec Hdec]. rewrite Hdec.
    destruct (so_programs cfg E s H r) as [L1 L2 L3 L4 L5 L6 L7]. pose proof (L4 p dec t Hp Hdec Hpl) as Hl.
    apply (local_active cfg E r p' n dec _ _ t); [by rewrite <- B3; apply (ro_facts _ B1)|congruence|done|by apply (L5 dec)|].
    intros k Hk. apply (active_not_queued cfg E s r p k H Hp); [|done]. apply (pf_active _ _ (ro_facts _ (so_runtime cfg E s H) r p Hp)). by eexists. }
  destruct d as [dispatch|]; [|by eexists _, _]. destruct (Hd dispatch eq_refl) as (D1 & D2 & _).
  destruct (d_routing_text dispatch) as [text|].
  - destruct (run_table_ok (binding_strategy cfg) (hash_virtual_nodes cfg) [OpCommit (d_program dispatch) text (d_target_id dispatch)] (table s))
      as (b & Eb & [Hok _] & Hready); [by repeat constructor|apply (so_table cfg E s H)..|].
    simpl in Eb. apply bind_Some in Eb as (b' & Eb & [= <-]).
    change (table (s <| runtime := rt |>)) with (table s). rewrite Eb. simpl. eexists _, _. split; [done|]. split.
    + destruct HI' as [[A1 A2 A3 A4 A5 A6 A7] HT']. split; [|done]. split; try done.
    + intros x [= <-]. by rewrite D2, <- Hpl.
  - eexists _, _. split; [done|]. split; [done|]. intros x [= <-]. by rewrite D2, <- Hpl.
Qed.

(** ** Arrivals *)

Lemma observe_continuity_core r at_ s : core (observe_continuity cfg r at_ s) = core s.
Proof. unfold observe_continuity. by repeat case_match. Qed.

Lemma candidate_targets identity now s : cand_target_id <$> binding_candidates cfg identity now s =
  btree_iter (pool_ids s (id_model_pool identity)).
Proof.
  unfold binding_candidates, pool_ids. destruct (model_targets s !! id_model_pool identity) as [ids|]; [|by vm_compute].
  destruct (foldl _ _ _) as [estimate summaries]. rewrite <- list_fmap_compose. simpl. apply list_fmap_id.
Qed.

Lemma candidates_ready identity now s : strategy_ready (binding_strategy cfg) (hash_virtual_nodes cfg) (binding_candidates cfg identity now s).
Proof.
  unfold strategy_ready. destruct (binding_strategy cfg) eqn:Es; try done; [by apply (co_nodes cfg C)|].
  pose proof (co_capacity cfg C Es) as Hc. unfold binding_candidates. destruct (model_targets s !! _) as [ids|]; [|done].
  destruct (foldl _ _ _) as [estimate summaries]. apply Forall_fmap, Forall_true. intros t. done.
Qed.

(** A program gets a target of its pool, or none of an empty pool. *)
Lemma bind_ok identity now text s : table_ok cfg (table s) -> exists home b,
  bind identity (binding_candidates cfg identity now s) text (table s) = Some (home, b) /\ table_ok cfg b /\
  (forall t, home = Some t -> t ∈ pool_ids s (id_model_pool identity)) /\
  (home = None -> pool_ids s (id_model_pool identity) = ∅).
Proof.
  intros [Hok Hready].
  destruct (bind_spec identity (binding_candidates cfg identity now s) text (table s) Hok (Hready _ (candidates_ready identity now s)))
    as (home & b & Eb & Hok' & Hready' & Hnone & Hin & _). exists home, b. split_and!; [done|by split; auto| |].
  - intros t Ht. specialize (Hin t Ht). rewrite candidate_targets in Hin. by apply elem_of_btree in Hin.
  - intros Hh. apply Hnone in Hh. pose proof (candidate_targets identity now s) as Hc. rewrite Hh in Hc. simpl in Hc.
    apply elem_of_equiv_empty_L. intros t Ht. apply elem_of_btree in Ht. rewrite <- Hc in Ht. by apply elem_of_nil in Ht.
Qed.

Lemma local_queue_late r p n d (Q : string -> Prop) ids : local_ok cfg False r p n d Q ids ->
  (E -> forall p' d' k, p = Some p' -> d = Some d' -> rp_state p' = Paused -> n <> 0 ->
    last_target d' <> None -> queue_key cfg r d' = Some k -> Q k) -> local_ok cfg E r p n d Q ids.
Proof. intros [L1 L2 L3 L4 L5 L6 L7] H. by split. Qed.

(** The state after a request was retained. *)
Record arrived (r : ProgramRef) (s s' : ProgramSchedulerState) : Prop := {
  ar_touches : touches cfg r s s';
  ar_local : scheduled_ok cfg False s' r;
  ar_waiting : waiting_of r (runtime s') <> 0;
  ar_decision : is_Some (decisions s' !! r);
}.

Lemma retained_touches identity estimate text at_ s h rt : sched_ok cfg E s ->
  retain_request identity estimate text at_ (runtime s) = (h, rt) ->
  touches cfg (handle_program h) s (observe_continuity cfg (handle_program h) at_ (s <| runtime := rt |>)).
Proof.
  intros H Er. destruct (retain_spec identity estimate text at_ (runtime s) (so_runtime cfg E s H)) as (h' & rt' & Er' & _ & Hok & Hf & _).
  rewrite Er in Er'. injection Er' as <- <-. apply (core_touches cfg _ s (s <| runtime := rt |>)); [by apply runtime_touches|apply observe_continuity_core].
Qed.

Lemma ensure_old identity estimate text at_ s h rt d d' l : sched_ok cfg E s -> forest l ->
  retain_request identity estimate text at_ (runtime s) = (h, rt) -> let r := handle_program h in
  decisions s !! r = Some d -> last_target d' = last_target d -> pause_when_idle d' = pause_when_idle d ->
  arrived r s ((observe_continuity cfg r at_ (s <| runtime := rt |>)) <| lineage := l |> <| decisions ::= <[r := d']> |>).
Proof.
  intros H Hfor Er r Hd Hl Hm. pose proof (retained_touches identity estimate text at_ s h rt H Er) as Hto. fold r in Hto.
  destruct (retain_spec identity estimate text at_ (runtime s) (so_runtime cfg E s H)) as (h' & rt' & Er' & _ & Hok & Hf & Hlive & Hw).
  rewrite Er in Er'. injection Er' as <- <-. fold r in Hf, Hlive, Hw.
  destruct (decision_live cfg E s r d H Hd) as (p0 & Hp0 & Hf0). rewrite Hp0 in Hlive. simpl in Hlive.
  pose proof (observe_continuity_core r at_ (s <| runtime := rt |>)) as Hc. set (s1 := observe_continuity _ _ _ _) in *. clearbody s1.
  unfold core in Hc. injection Hc as C1 C2 C3 C4 C5 C6 C7 C8. simpl in C1, C2, C3, C4, C5, C6, C7, C8.
  assert (forall k, queue_at cfg s1 k = queue_at cfg s k) as Hq by (intros k; unfold queue_at, queue_map; by rewrite C6, C7).
  split.
  - eapply touches_trans; [exact Hto|]. split; try done. intros r' Hr. simpl. by rewrite lookup_insert_ne.
  - unfold scheduled_ok, pool_ids. simpl. rewrite C1, C5, lookup_insert_eq, Hlive, Hw.
    destruct (so_programs cfg E s H r) as [L1 L2 L3 L4 L5 L6 L7]. split.
    + done.
    + intros k Hk. destruct (L2 k) as (p1 & d1 & Hp1 & Hd1 & Hs1 & Hw1 & Hk1); [by rewrite <- Hq|].
      eexists _, d'. split_and!; [done|done|by simplify_eq|lia|]. unfold queue_key in *. rewrite Hl. by simplify_eq.
    + done.
    + intros p' x t [= <-] [= <-] Ht. rewrite Hl. by apply (L4 p0 d t).
    + intros x t [= <-]. rewrite Hl. by apply (L5 d t).
    + intros x [= <-]. rewrite Hl. by apply (L6 d).
    + intros p' x [= <-] [= <-]. rewrite Hm. by apply (L7 p0 d).
  - simpl. rewrite C1, Hw. lia.
  - simpl. rewrite lookup_insert_eq. by eexists.
Qed.

Lemma ensure_new identity estimate text at_ s h rt d l b : sched_ok cfg E s -> forest l -> table_ok cfg b ->
  retain_request identity estimate text at_ (runtime s) = (h, rt) -> let r := handle_program h in
  decisions s !! r = None -> (forall t, last_target d = Some t -> t ∈ pool_ids s (ref_model_pool r)) ->
  (last_target d = None -> pool_ids s (ref_model_pool r) = ∅) -> pause_when_idle d = false ->
  arrived r s ((observe_continuity cfg r at_ (s <| runtime := rt |>)) <| lineage := l |> <| table := b |> <| decisions ::= <[r := d]> |>).
Proof.
  intros H Hfor Hb Er r Hd Hin Hno Hm. pose proof (retained_touches identity estimate text at_ s h rt H Er) as Hto. fold r in Hto.
  destruct (retain_spec identity estimate text at_ (runtime s) (so_runtime cfg E s H)) as (h' & rt' & Er' & _ & Hok & Hf & Hlive & Hw).
  rewrite Er in Er'. injection Er' as <- <-. fold r in Hf, Hlive, Hw.
  destruct (live_program r (runtime s)) as [p0|] eqn:Hp0; [by destruct (live_decision cfg E s r p0 H Hp0) as [? ?]; congruence|].
  simpl in Hlive. pose proof (observe_continuity_core r at_ (s <| runtime := rt |>)) as Hc. set (s1 := observe_continuity _ _ _ _) in *. clearbody s1.
  unfold core in Hc. injection Hc as C1 C2 C3 C4 C5 C6 C7 C8. simpl in C1, C2, C3, C4, C5, C6, C7, C8.
  assert (forall k, r ∉ queue_at cfg s1 k) as Hq.
  { intros k Hk. destruct (lo_queued _ _ _ _ _ _ _ _ (so_programs cfg E s H r) k) as (p1 & _ & Hp1 & _); [|congruence].
    unfold queue_at, queue_map in *. by rewrite <- C6, <- C7. }
  split.
  - eapply touches_trans; [exact Hto|]. split; try done. intros r' Hr. simpl. by rewrite lookup_insert_ne.
  - unfold scheduled_ok, pool_ids. simpl. rewrite C1, C5, lookup_insert_eq, Hlive. fold (pool_ids s (ref_model_pool r)).
    apply local_paused; try done; [by apply (ro_facts _ Hok)|]. intros k Hk. by destruct (Hq k).
  - simpl. rewrite C1, Hw. lia.
  - simpl. rewrite lookup_insert_eq. by eexists.
Qed.

Lemma ensure_ok identity estimate text at_ s h rt : sched_ok cfg E s ->
  retain_request identity estimate text at_ (runtime s) = (h, rt) -> let r := handle_program h in
  exists s', ensure_decision_state cfg identity r estimate at_ text (observe_continuity cfg r at_ (s <| runtime := rt |>)) = Some s' /\
    arrived r s s'.
Proof.
  intros H Er r. unfold ensure_decision_state.
  pose proof (observe_continuity_core r at_ (s <| runtime := rt |>)) as Hc. unfold core in Hc. injection Hc as C1 C2 C3 C4 C5 C6 C7 C8.
  simpl in C1, C2, C3, C4, C5, C6, C7, C8.
  destruct (observe_defined (lineage s) (id_model_pool identity) (id_program_id identity) (id_parent_program_id identity)
    (id_root_program_id identity) (size (lineage s) + 4) (so_forest cfg E s H)) as (x & l & Eo & Hfor); [lia|].
  rewrite C8, Eo. cbn [mbind option_bind]. simpl (decisions _). rewrite C3. destruct (decisions s !! r) as [d|] eqn:Hd.
  - eexists. split; [done|]. apply (ensure_old identity estimate text at_ s h rt d _ l H Hfor Er Hd); by destruct (_ <=? _).
  - destruct (bind_ok identity at_ text ((observe_continuity cfg r at_ (s <| runtime := rt |>)) <| lineage := l |>)) as (home & b & Eb & Hb & Hin & Hno).
    { simpl. rewrite C2. apply (so_table cfg E s H). }
    rewrite Eb. cbn [mbind option_bind]. eexists. split; [done|].
    destruct (retain_spec identity estimate text at_ (runtime s) (so_runtime cfg E s H)) as (h' & rt' & Er' & Hk & _).
    rewrite Er in Er'. injection Er' as <- <-. fold r in Hk. injection Hk as Hk _.
    unfold pool_ids in Hin, Hno. simpl in Hin, Hno. rewrite C5 in Hin, Hno. rewrite <- Hk in Hin, Hno.
    by apply (ensure_new identity estimate text at_ s h rt _ l b H Hfor Hb Er Hd).
Qed.

(** Only facts of the program change, neither its target nor its mark. *)
Definition adjusts (r : ProgramRef) (s s' : ProgramSchedulerState) : Prop :=
  core s' = core (s <| decisions := decisions s' |>) /\ (forall r', r' <> r -> decisions s' !! r' = decisions s !! r') /\
  forall d, decisions s !! r = Some d -> exists d', decisions s' !! r = Some d' /\
    last_target d' = last_target d /\ pause_when_idle d' = pause_when_idle d.

Lemma set_force_adjusts t r now s s' : set_force_resume_deadline cfg t r now s = Some s' -> adjusts r s s'.
Proof.
  unfold set_force_resume_deadline. intros (estimate & _ & H)%bind_Some. destruct (decisions s !! r) as [d|] eqn:Hd.
  - apply bind_Some in H as (deadline & _ & [= <-]). split_and!; [done| |].
    + intros r' Hr. simpl. by rewrite lookup_insert_ne.
    + intros d'. rewrite Hd. intros [= <-]. eexists. simpl. by rewrite lookup_insert_eq.
  - injection H as <-. split_and!; [done|done|]. by rewrite Hd.
Qed.

Lemma adjusts_queue r s s' k : adjusts r s s' -> queue_at cfg s' k = queue_at cfg s k.
Proof. intros [Hc _]. unfold core in Hc. injection Hc as _ _ _ _ C6 C7 _. unfold queue_at, queue_map. simpl in *. by rewrite C6, C7. Qed.

Lemma adjusts_touches r s s' : adjusts r s s' -> touches cfg r s s'.
Proof.
  intros Ha. pose proof (fun k => adjusts_queue r s s' k Ha) as Hq. destruct Ha as (Hc & Hd & _).
  unfold core in Hc. injection Hc as C1 C2 C4 C5 C6 C7 C8. simpl in *.
  split; rewrite ?C1, ?C2, ?C4, ?C5, ?C8; try done; setoid_rewrite Hq; done.
Qed.

Lemma join_ok identity r t at_ s0 s s' d p : arrived r s0 s -> sched_ok cfg E s0 -> id_model_pool identity = ref_model_pool r ->
  decisions s !! r = Some d -> last_target d = Some t -> live_program r (runtime s) = Some p -> rp_placement p = None ->
  join_queue cfg identity r t at_ s = Some s' -> touches cfg r s0 s' /\ scheduled_ok cfg E s' r.
Proof.
  intros [Hto Hloc Hw _] H Hid Hd Hl Hp Hpl Hj. unfold join_queue in Hj.
  set (key := if global_queue cfg then id_model_pool identity else t).
  set (s1 := if global_queue cfg then _ else _) in Hj. set (s2 := with_decision r _ s1) in Hj.
  assert (forall k, queue_at cfg s1 k = if decide (k = key) then
    (if decide (r ∈ queue_at cfg s key) then queue_at cfg s key else queue_at cfg s key ++ [r]) else queue_at cfg s k) as Hq1.
  { intros k. unfold s1, key, queue_at, queue_map, enqueue. destruct (global_queue cfg); simpl; unfold bool_decide; repeat case_decide; subst;
      rewrite ?lookup_insert_eq, ?lookup_insert_ne by done; done. }
  assert (core s1 = core (s <| rank_queues := rank_queues s1 |> <| global_queues := global_queues s1 |>)) as Hc1
    by (unfold s1; by destruct (global_queue cfg)).
  unfold core in Hc1. injection Hc1 as C1 C2 C3 C4 C5 C8. simpl in C1, C2, C3, C4, C5, C8.
  assert (touches cfg r s s1) as Hto1.
  { split; rewrite ?C1, ?C2, ?C3, ?C4, ?C5, ?C8; try done.
    - intros k r' Hr. rewrite Hq1. repeat case_decide; subst; set_solver.
    - intros Hn k. rewrite Hq1. repeat case_decide; try done. apply NoDup_app. split_and!; [done|set_solver|apply NoDup_singleton]. }
  pose proof (set_force_adjusts t r at_ s2 s' Hj) as Ha.
  assert (touches cfg r s0 s') as Hto'.
  { eapply touches_trans; [exact Hto|]. eapply touches_trans; [exact Hto1|]. eapply touches_trans; [apply alter_touches|]. by apply adjusts_touches. }
  split; [done|]. destruct Ha as (Hca & _ & Hda).
  destruct (Hda (d <| queued_at := Some (default at_ (queued_at d)) |>)) as (d' & Hd' & Hl' & Hm').
  { simpl. rewrite lookup_alter_eq, C3, Hd. done. }
  simpl in Hl', Hm'. unfold core in Hca. injection Hca as A1 A2 A4 A5 A6 A7 A8. simpl in A1, A2, A4, A5, A6, A7, A8.
  assert (forall k, queue_at cfg s' k = queue_at cfg s1 k) as Hq2 by (intros k; unfold queue_at, queue_map; by rewrite A6, A7).
  assert (queue_key cfg r d' = Some key) as Hkey.
  { unfold queue_key, key. destruct (global_queue cfg); [by rewrite Hid|by rewrite Hl']. }
  unfold scheduled_ok, pool_ids. rewrite A1, C1, A5, C5, Hp, Hd'. fold (pool_ids s (ref_model_pool r)).
  unfold scheduled_ok in Hloc. rewrite Hp, Hd in Hloc. destruct Hloc as [L1 L2 L3 L4 L5 L6 L7].
  assert (runtime_ok (runtime s)) as Hok by (apply (to_runtime _ _ _ _ Hto), (so_runtime cfg E s0 H)).
  pose proof (ro_facts _ Hok r p Hp) as Hf.
  assert (rp_state p = Paused) as Hs by (destruct (rp_state p) eqn:Es; [apply (pf_active _ _ Hf) in Es as [? ?]; congruence|done]).
  apply local_paused; try done.
  - intros t'. rewrite Hl'. by apply L5.
  - rewrite Hl'. congruence.
  - rewrite Hm'. destruct (pause_when_idle d) eqn:Em; [|done]. by rewrite (L7 p d eq_refl eq_refl Em) in Hs.
  - intros k. rewrite Hq2, Hq1, Hkey. destruct (decide (k = key)) as [->|Hk]; [done|]. intros Hin. destruct (L2 k Hin) as (p1 & d1 & _ & [= <-] & _ & _ & Hk1).
    unfold queue_key in *. rewrite Hl', Hk1 in Hkey. congruence.
  - intros _ k _ _. rewrite Hkey. intros [= <-]. rewrite Hq2, Hq1. rewrite decide_True by done. case_decide; [done|]. set_solver.
Qed.

End calls.

(** ** Calls that return *)

Section steps.
Context `{U : Unordered} `{M : Libm} (cfg : ProgramSchedulerConfig) (C : config_ok cfg) (E : Prop).

Abbreviation sched_ok := (sched_ok cfg E).

Lemma sched_inv now s : sched_ok s -> inv cfg E False now s.
Proof. by split. Qed.

Lemma returned {A} (o : option A) P a : returns False o P -> o = Some a -> P a.
Proof. intros H ->. done. Qed.

Lemma activate_ok r at_ s : sched_ok s -> sched_ok (activate_binding_only cfg r at_ s).
Proof.
  intros H. unfold activate_binding_only. case_decide.
  { apply (same_programs_inv cfg E False at_ s); [apply notify_same|by apply sched_inv]. }
  destruct (decisions s !! r) as [d|] eqn:Hd; [|done]. simpl. destruct (last_target d) as [t|] eqn:Hl; [|done].
  destruct (commit_spec cfg E r t at_ s H) as [(s' & -> & Hc)|(s' & -> & Hs & _)]; [|by apply Hs].
  apply (committed_ok cfg E False at_ r t s s' (sched_inv at_ s H)); [|done].
  by apply (lo_bound _ _ _ _ _ _ _ _ (so_programs cfg E s H r) d).
Qed.

Lemma acquire_ok identity estimate text at_ activated s res s' : sched_ok s ->
  acquire_locked cfg identity estimate text at_ activated s = Some (res, s') -> sched_ok s'.
Proof.
  intros H Ha. unfold acquire_locked in Ha. destruct (retain_request identity estimate text at_ (runtime s)) as [h rt] eqn:Er.
  destruct (ensure_ok cfg C E identity estimate text at_ s h rt H Er) as (s1 & Es1 & Har).
  destruct (retain_spec identity estimate text at_ (runtime s) (so_runtime cfg E s H)) as (h' & rt' & Er' & Hk & _).
  rewrite Er in Er'. injection Er' as <- <-. injection Hk as Hk _.
  set (r := handle_program h) in *. rewrite Es1 in Ha. cbn [mbind option_bind] in Ha.
  pose proof Har as [Hto Hloc Hw [d Hd]]. rewrite Hd in Ha. cbn [mbind option_bind] in Ha.
  unfold scheduled_ok in Hloc. rewrite Hd in Hloc. destruct (proj1 (lo_live _ _ _ _ _ _ _ _ Hloc)) as [p Hp]; [by eexists|].
  assert (forall s2, sched_ok s2 -> (s3 ← (if binding_only cfg then Some (activate_binding_only cfg r activated s2)
      else run_request_arrival_decisions cfg at_ s2); Some (Ok h, s3)) = Some (res, s') -> sched_ok s') as Hnow.
  { intros s2 H2. intros (s3 & Hs3 & [= <- <-])%bind_Some. destruct (binding_only cfg).
    - injection Hs3 as <-. by apply activate_ok.
    - by apply (returned _ _ s3 (arrival_ok cfg C E False at_ s2 (sched_inv at_ s2 H2))). }
  assert ((E -> rp_state p = Paused -> last_target d <> None -> False) -> sched_ok s1) as Hs1.
  { intros Hno. apply (touches_ok cfg E r s); [done|done|]. unfold scheduled_ok. rewrite Hd. apply local_queue_late; [done|].
    rewrite Hp. intros HE p' d' k [= <-] [= <-] Hs _ Hn. by destruct (Hno HE Hs Hn). }
  assert (view r (runtime s1) ≫= view_placement = rp_placement p) as Hv by (unfold view; by rewrite Hp).
  rewrite Hv in Ha. destruct (rp_placement p) as [t|] eqn:Hpl.
  - apply Hnow in Ha; [done|]. assert (sched_ok s1) as H1.
    { apply Hs1. intros _ Hs. assert (rp_state p = Active) by (apply (pf_active _ _ (ro_facts _ (to_runtime _ _ _ _ Hto (so_runtime cfg E s H)) r p Hp)); by eexists). congruence. }
    destruct (_ && _); [|done]. by apply (core_ok cfg E s1).
  - destruct (last_target d) as [t|] eqn:Hl.
    + apply bind_Some in Ha as (s2 & Hj & Ha). apply Hnow in Ha; [done|].
      destruct (join_ok cfg C E identity r t at_ s s1 s2 d p Har H (eq_sym Hk) Hd Hl Hp Hpl Hj) as [Hto2 Hloc2].
      by apply (touches_ok cfg E r s).
    + injection Ha as <- <-. apply Hs1. done.
Qed.

(** ** Cancellations *)

Lemma schedule_steps now s c s' : sched_ok s -> schedule_waiting cfg now s = Some (c, s') -> sched_ok s'.
Proof.
  intros H Hs. destruct (schedule_ok cfg C E False now s (sched_inv now s H)) as (tr & s1 & Hs1 & _ & HI).
  rewrite Hs in Hs1. injection Hs1 as -> <-. apply HI.
Qed.

Lemma view_live r rt p : live_program r rt = Some p -> exists v, view r rt = Some v /\ view_state v = rp_state p /\
  view_status v = rp_status p /\ view_placement v = rp_placement p /\ view_in_flight_requests v = rp_in_flight_requests p /\
  view_waiting_requests v = waiting_of r rt.
Proof. intros Hp. unfold view. rewrite Hp. eexists. split; [done|]. simpl. by apply live_lookup in Hp as [_ ->]. Qed.

(** A program that waits on, or keeps what it has in flight, after one of its
    requests is gone. *)
Lemma cancel_busy r p s rt : sched_ok s -> live_program r (runtime s) = Some p -> 0 < waiting_of r (runtime s) ->
  rp_in_flight_requests p <> 0 \/ waiting_of r (runtime s) - 1 <> 0 ->
  becomes r p (waiting_of r (runtime s) - 1) (runtime s) rt ->
  sched_ok (s <| runtime := rt |>) /\ (waiting_of r rt = 0 -> sched_ok (unqueue_all r (s <| runtime := rt |>))).
Proof.
  intros H Hp Hw Hb Hbe. pose proof (becomes_touches cfg r p _ s rt Hbe) as Hto. destruct Hbe as (B1 & B2 & B3 & B4 & _).
  pose proof (so_programs cfg E s H r) as L. unfold scheduled_ok in L. rewrite Hp in L. destruct L as [L1 L2 L3 L4 L5 L6 L7].
  pose proof (ro_facts _ (so_runtime cfg E s H) r p Hp) as Hf.
  assert (waiting_of r (runtime s) - 1 = 0 -> rp_state p = Active) as Hact.
  { intros Hz. destruct (rp_state p) eqn:Es; [done|]. pose proof (pf_paused _ _ Hf Es). destruct Hb; lia. }
  assert (sched_ok (s <| runtime := rt |>)) as H1.
  { apply (touches_ok cfg E r s); [done|done|]. unfold scheduled_ok. simpl. rewrite B2, B3. split; auto.
    - intros k Hk. destruct (L2 k Hk) as (p1 & d1 & [= <-] & Hd1 & Hs1 & _ & Hk1). exists p, d1. split_and!; try done.
      intros Hz. apply Hact in Hz. congruence.
    - intros HE p1 d1 k [= <-] Hd1 Hs1 Hn Hl Hk. apply (L3 HE p d1 k); try done; lia. }
  split; [done|]. intros Hz. rewrite B3 in Hz. apply (touches_ok cfg E r (s <| runtime := rt |>)); [done|apply unqueue_touches|].
  destruct (so_programs cfg E _ H1 r) as [K1 K2 K3 K4 K5 K6 K7]. split; auto.
  - intros k. rewrite queue_at_unqueue, list_elem_of_filter. naive_solver.
  - intros _ p1 d1 k _ _ _ Hn. simpl in Hn. congruence.
Qed.

Lemma restart_returns now d d' : restart_shared_prefix_freshness now d = Some d' ->
  last_target d' = last_target d /\ pause_when_idle d' = pause_when_idle d.
Proof. intros H. pose proof (restart_spec now d) as Hs. rewrite H in Hs. apply Hs. Qed.

(** A program that is idle afterwards is paused and in no queue. *)
Lemma cancel_idle r p before s rt at_ s' : sched_ok s -> live_program r (runtime s) = Some p ->
  becomes r (cancelled_program 0 p) 0 (runtime s) rt -> rp_in_flight_requests p = 0 -> view r (runtime s) = Some before ->
  pause_cancelled cfg (Some before) r at_ (s <| runtime := rt |>) = Some s' ->
  runtime s' = rt /\ sched_ok (unqueue_all r s').
Proof.
  intros H Hp Hbe Hi Hv Hpc. destruct (view_live r (runtime s) p Hp) as (v & Hv' & Vs & _). rewrite Hv in Hv'. injection Hv' as <-.
  pose proof (becomes_touches cfg r _ _ s rt Hbe) as Hto. destruct Hbe as (B1 & B2 & B3 & B4 & _).
  destruct (live_decision cfg E s r p H Hp) as [d Hd].
  pose proof (so_programs cfg E s H r) as L. unfold scheduled_ok in L. rewrite Hp, Hd in L. destruct L as [L1 L2 L3 L4 L5 L6 L7].
  pose proof (ro_facts _ (so_runtime cfg E s H) r p Hp) as Hf.
  set (p' := cancelled_program 0 p) in *. assert (rp_state p' = Paused) as Hs'.
  { unfold p', cancelled_program. rewrite Hi. simpl. case_decide as Hs; [done|]. simpl. by destruct (rp_state p). }
  assert (exists d', decisions s' !! r = Some d' /\ last_target d' = last_target d /\ pause_when_idle d' = false /\ runtime s' = rt /\
    touches cfg r s s' /\ model_targets s' = model_targets s) as (d' & Hd' & Hl & Hm & Hr & Hto' & Hmt).
  { unfold pause_cancelled in Hpc. simpl (runtime _) in Hpc. simpl (decisions _) in Hpc.
    destruct (view_live r rt p' B2) as (after & Hva & Va & _). rewrite Hva, Hd in Hpc.
    destruct (last_target d) as [t|] eqn:Hl; [destruct (bool_decide (view_state before = Active)) eqn:Ea|].
    - rewrite bool_decide_eq_true_2 in Hpc by congruence. simpl in Hpc. apply bind_Some in Hpc as (d' & Hd' & [= <-]).
      destruct (restart_returns _ _ _ Hd') as [Hl' Hm'].
      simpl in Hl', Hm'. exists d'. split_and!; try done; [simpl; by rewrite lookup_insert_eq|congruence|].
      apply (touches_trans cfg r s (s <| runtime := rt |>)); [done|]. split; try done. intros r' Hr. simpl. by rewrite lookup_insert_ne.
    - simpl in Hpc. injection Hpc as <-. exists d. split_and!; try done. destruct (pause_when_idle d) eqn:Em; [|done].
      apply bool_decide_eq_false in Ea. rewrite Vs in Ea. by destruct Ea; apply (L7 p d).
    - injection Hpc as <-. exists d. split_and!; try done. destruct (pause_when_idle d) eqn:Em; [|done].
      pose proof (L7 p d eq_refl eq_refl Em) as Hact. apply (pf_active _ _ Hf) in Hact as [t Ht].
      specialize (L4 p d t eq_refl eq_refl Ht). congruence. }
  split; [done|]. apply (touches_ok cfg E r s); [done|eapply touches_trans; [exact Hto'|apply unqueue_touches]|].
  unfold scheduled_ok, pool_ids. simpl. rewrite Hr, Hd', Hmt, B2, B3. fold (pool_ids s (ref_model_pool r)).
  apply local_paused; try done.
  - by rewrite <- B3; apply (ro_facts _ B1).
  - intros t. rewrite Hl. by apply L5.
  - rewrite Hl. by apply L6.
  - intros k. rewrite queue_at_unqueue, list_elem_of_filter. naive_solver.
Qed.

Lemma cancel_ok h t1 t2 t3 s s' : sched_ok s -> cancel_retained_request cfg h t1 t2 t3 s = Some s' -> sched_ok s'.
Proof.
  intros H Hc. unfold cancel_retained_request in Hc. set (r := handle_program h) in *.
  destruct (cancel_spec h (runtime s) (so_runtime cfg E s H)) as [(p & rt & Hp & Hw & Ec & Hb)|Ec]; rewrite Ec in Hc.
  2: { simpl in Hc. injection Hc as <-. by apply (core_ok cfg E s). }
  fold r in Hp, Hw, Hb. simpl in Hc. apply bind_Some in Hc as (s1 & Hpc & Hc). apply bind_Some in Hc as ([c s2] & Hs2 & [= <-]).
  apply schedule_steps in Hs2; [done|]. clear Hs2 s2 c.
  destruct (view_live r (runtime s) p Hp) as (before & Hv & Vs & _). rewrite Hv in Hpc.
  destruct ((rp_in_flight_requests p =? 0) && (waiting_of r (runtime s) - 1 =? 0)) eqn:Ei.
  - apply andb_true_iff in Ei as [Ei%N.eqb_eq Ew%N.eqb_eq]. rewrite Ew in Hb.
    destruct (cancel_idle r p before s rt t1 s1 H Hp Hb Ei Hv Hpc) as [Hr Hok]. destruct Hb as (B1 & B2 & B3 & _). rewrite Hr.
    destruct (view_live r rt _ B2) as (after & Hva & _ & _ & _ & _ & Vw). rewrite B3 in Vw. rewrite Hva. simpl. rewrite Vw. simpl.
    destruct (_ && _); [|done]. apply (release_ok cfg E False r t2 t2 (unqueue_all r s1)); [by apply sched_inv|]. simpl. by rewrite Hr.
  - assert (cancelled_program (waiting_of r (runtime s) - 1) p = p) as Hcp by (unfold cancelled_program; by rewrite Ei).
    rewrite Hcp in Hb. destruct (cancel_busy r p s rt H Hp Hw) as [H1 H2]; [|done|].
    { apply andb_false_iff in Ei as [Ei%N.eqb_neq|Ei%N.eqb_neq]; [by left|by right]. }
    destruct Hb as (B1 & B2 & B3 & _). destruct (view_live r rt p B2) as (after & Hva & Va & _ & _ & Vi & Vw).
    unfold pause_cancelled in Hpc. simpl (runtime _) in Hpc. rewrite Hva in Hpc.
    assert (s1 = s <| runtime := rt |>) as ->.
    { destruct (decisions _ !! r) as [d|]; [|congruence]. destruct (last_target d); [|congruence].
      destruct (bool_decide (view_state before = Active)) eqn:Ea; simpl in Hpc; [|congruence].
      apply bool_decide_eq_true in Ea. rewrite bool_decide_eq_false_2 in Hpc by congruence. simpl in Hpc. congruence. }
    simpl (runtime _). rewrite Hva. simpl. assert (is_idle after = false) as ->.
    { unfold is_idle. rewrite Vi, Vw, B3. done. }
    simpl. destruct (0 <? view_waiting_requests after) eqn:Ewa; [done|]. apply H2. rewrite <- Vw. apply N.ltb_ge in Ewa. lia.
Qed.

(** ** Completions *)

Lemma observe_keeps n d : last_target (observe_completed_context n d) = last_target d /\
  pause_when_idle (observe_completed_context n d) = pause_when_idle d.
Proof. unfold observe_completed_context. by repeat case_match. Qed.

Lemma record_keeps c dispatch success usage decode action now d d' sample :
  record_completion c dispatch success usage decode action now d = Some (d', sample) ->
  last_target d' = last_target d /\ pause_when_idle d' = pause_when_idle d.
Proof.
  unfold record_completion. set (starts := d_placement_start_request dispatch && _). set (due := starts && _).
  set (d1 := match prompt_tokens usage with Some _ => _ | None => _ end).
  assert (last_target d1 = last_target d /\ pause_when_idle d1 = pause_when_idle d) as [<- <-].
  { unfold d1. destruct (prompt_tokens usage); [apply observe_keeps|]. by case_match. }
  clearbody d1 starts due. intros H. apply bind_Some in H as ([d2 sample'] & H2 & H).
  apply bind_Some in H as (d3 & H3 & [= <- _]). simpl.
  assert (last_target d2 = last_target d1 /\ pause_when_idle d2 = pause_when_idle d1) as [<- <-].
  { destruct success; [|by injection H2 as <- _]. apply bind_Some in H2 as (d4 & H4 & [= <- _]). simpl.
    destruct starts; [|by injection H4 as <-]. unfold start_segment in H4. destruct due; [|by injection H4 as <-].
    by apply bind_Some in H4 as (u & _ & [= <-]). }
  case_decide; [|by injection H3 as <-]. by apply bind_Some in H3 as (u & _ & [= <-]).
Qed.

Lemma yield_ok r now s c s' : sched_ok s -> yield_completed_segment cfg r now s = Some (c, s') -> sched_ok s'.
Proof.
  intros H. unfold yield_completed_segment. destruct (view r (runtime s)) as [v|] eqn:Hv; [|by intros [= _ <-]].
  destruct (decisions s !! r) as [d|]; [|by intros [= _ <-]]. destruct (_ || _) eqn:Eo; [by intros [= _ <-]|].
  destruct (view_placement v) as [t|]; [|by intros [= _ <-]]. intros (queued & _ & Hy)%bind_Some.
  destruct (filter _ queued) as [|waiter l]; [by injection Hy as _ <-|]. destruct (float_gt _ _); [|by injection Hy as _ <-].
  unfold view in Hv. destruct (live_program r (runtime s)) as [p|] eqn:Hp; [|done]. injection Hv as <-.
  rewrite !orb_false_iff in Eo. destruct Eo as [[_ Ea%bool_decide_eq_false] _]. simpl in Ea. assert (rp_status p = Acting) as Ha by (by apply dec_stable).
  apply (returned _ _ (c, s') (pause_ok cfg E False r MaxSegmentYield now s (sched_inv now s H)
    (proj2 (pf_acting _ _ (ro_facts _ (so_runtime cfg E s H) r p Hp) Ha))) Hy).
Qed.

Lemma alter_steps r f s : sched_ok s -> (forall d, decisions s !! r = Some d -> last_target (f d) = last_target d /\
  (pause_when_idle (f d) = true -> pause_when_idle d = true)) -> sched_ok (with_decision r f s).
Proof.
  intros H Hf. apply (alter_ok cfg E False 0 r f s); [by apply sched_inv|]. intros d Hd. destruct (Hf d Hd). split_and!; [done..|auto].
Qed.

Lemma completed_ok r p p' t s rt : sched_ok s -> live_program r (runtime s) = Some p -> rp_placement p = Some t ->
  completed_program (waiting_of r (runtime s)) p p' -> becomes r p' (waiting_of r (runtime s)) (runtime s) rt -> sched_ok (s <| runtime := rt |>).
Proof.
  intros H Hp Hpl [_ Cs Cp _ _] Hb. pose proof (becomes_touches cfg r p' _ s rt Hb) as Hto. destruct Hb as (B1 & B2 & B3 & _ & _).
  apply (touches_ok cfg E r s); [done|done|]. destruct (live_decision cfg E s r p H Hp) as [d Hd].
  unfold scheduled_ok. simpl. rewrite B2, B3, Hd. destruct (so_programs cfg E s H r) as [L1 L2 L3 L4 L5 L6 L7].
  pose proof (L4 p d t Hp Hd Hpl) as Hl. apply (local_active cfg E r p' _ d _ _ t); try done.
  - by rewrite <- B3; apply (ro_facts _ B1).
  - congruence.
  - by apply (L5 d).
  - intros k. apply (active_not_queued cfg E s r p k H Hp). apply (pf_active _ _ (ro_facts _ (so_runtime cfg E s H) r p Hp)). by eexists.
Qed.

Lemma complete_ok dispatch success terminate usage decode now s s' : sched_ok s ->
  complete cfg dispatch success terminate usage decode now s = Some s' -> sched_ok s'.
Proof.
  intros H Hc. unfold complete in Hc. set (r := d_program dispatch) in *.
  destruct (view r (runtime s)) as [before|] eqn:Hv; [|by injection Hc as <-].
  destruct (decisions s !! r) as [d0|] eqn:Hd0; [|by injection Hc as <-]. case_decide as Hpl; [|by injection Hc as <-].
  apply bind_Some in Hc as (c & _ & Hc). unfold view in Hv. destruct (live_program r (runtime s)) as [p|] eqn:Hp; [|done].
  injection Hv as <-. simpl in Hpl.
  destruct (complete_spec dispatch usage (runtime s) (so_runtime cfg E s H)) as [(p1 & p' & rt & Hp1 & _ & Ec & Hcp & Hb)|Ec];
    rewrite Ec in Hc; simpl negb in Hc; cbv iota in Hc.
  2: { injection Hc as <-. by apply (core_ok cfg E s). }
  fold r in Hp1, Hcp, Hb. rewrite Hp in Hp1. injection Hp1 as <-.
  pose proof (completed_ok r p p' _ s rt H Hp Hpl Hcp Hb) as H1. destruct Hb as (_ & B2 & B3 & _ & _).
  change (runtime (s <| runtime := rt |>)) with rt in Hc. destruct (view_live r rt p' B2) as (after & Hva & _ & _ & _ & _ & Vw).
  rewrite Hva in Hc. set (s1 := s <| runtime := rt |>) in *. set (s2 := if _ && _ then _ else s1) in Hc.
  assert (sched_ok s2 /\ runtime s2 = rt) as [H2 R2] by (unfold s2; destruct (_ && _); [split; [by apply alter_steps|done]|done]). clearbody s2.
  set (s3 := with_decision r _ s2) in Hc. assert (sched_ok s3) as H3 by (by apply alter_steps).
  assert (runtime s3 = rt) as R3 by done. clearbody s3. set (action := decisions s3 !! r ≫= completion_action _ success) in Hc.
  assert (is_Some action -> waiting_of r rt = 0) as Hidle.
  { intros [a Ha]. unfold action in Ha. apply bind_Some in Ha as (d & _ & Ha). unfold completion_action in Ha. cbn iota in Ha.
    destruct ((view_in_flight_requests after =? 0) && _) eqn:Ei; [|done]. apply andb_true_iff in Ei as [_ Ei%N.eqb_eq]. congruence. }
  clearbody action. apply bind_Some in Hc as (s4 & Hs4 & Hc).
  assert (sched_ok s4 /\ waiting_of r (runtime s4) = waiting_of r rt) as [H4 W4].
  { destruct action as [[|reason|]|]; try (injection Hs4 as <-; by rewrite R3). apply fmap_Some in Hs4 as ([b s5] & Hs5 & ->).
    assert (waiting_of r (runtime s3) = 0) as W3 by (rewrite R3; apply Hidle; by eexists).
    pose proof (returned _ _ (b, s5) (pause_ok cfg E False r reason now s3 (sched_inv now s3 H3) W3) Hs5) as ([H5 _] & _ & Hload).
    split; [done|]. destruct (Hload r) as [Hw5 _]. simpl in Hw5 |- *. by rewrite Hw5, R3. }
  apply bind_Some in Hc as (d & Hd & Hc). apply bind_Some in Hc as ([d' sample] & Hrec & Hc). apply record_keeps in Hrec as [Kl Km].
  assert (sched_ok (s4 <| decisions ::= <[r := d']> |>)) as H5.
  { apply (insert_decision_ok cfg E False now r d d' s4); [by apply sched_inv|done|]. split_and!; [done..|]. rewrite Km. by left. }
  set (s5 := s4 <| decisions ::= _ |>) in *. set (s6 := account_completion _ _ _ _ _) in Hc.
  assert (core s6 = core s5) as C6 by (unfold s6, account_completion; by repeat case_match).
  set (s7 := match sample with Some _ => _ | None => _ end) in Hc.
  assert (core s7 = core s5) as C7 by (rewrite <- C6; unfold s7; by destruct sample).
  assert (sched_ok s7) as H7 by (by apply (core_ok cfg E s5)).
  set (s8 := if decide _ then _ else s7) in Hc.
  assert (sched_ok s8) as H8.
  { unfold s8. case_decide as Ht; [|done]. apply (release_ok cfg E False r now now s7); [by apply sched_inv|].
    injection C7 as -> _. simpl. rewrite W4. apply Hidle. rewrite Ht. by eexists. }
  clearbody s8. apply bind_Some in Hc as (s9 & Hs9 & Hc).
  assert (sched_ok s9) as H9.
  { destruct (binding_only cfg); [by injection Hs9 as <-|]. apply fmap_Some in Hs9 as ([b s10] & Hy & ->). by apply yield_ok in Hy. }
  apply (returned _ _ s' (periodic_ok cfg C E False now s9 (sched_inv now s9 H9)) Hc).
Qed.

End steps.
