(* ===== verification/SchedulerSync.v ===== *)
(** * Target synchronisation keeps the scheduler consistent

    A pool gets a new list of targets.  Nothing about a removed target is kept,
    and the programs of the pool that were bound to one are paused, bound again
    and queued again. *)

From S2P Require Import Prelude RequestPool ProgramRuntime RuntimeFrame Lineage Ieee Factors PrefixTree Binding SchedulerState Scheduler Admission Lifecycle SchedulerInv SchedulerResume SchedulerCalls.

Local Open Scope N_scope.
Local Open Scope update_scope.

Section sync.
Context `{U : Unordered} (cfg : ProgramSchedulerConfig) (C : config_ok cfg) (E : Prop).

(** A program that has to be bound again: it is placed on a removed target or not at all. *)
Definition pending (removed : gset string) (s : ProgramSchedulerState) (r : ProgramRef) : Prop :=
  exists p d, live_program r (runtime s) = Some p /\ decisions s !! r = Some d /\
    (forall t, rp_placement p = Some t -> t ∈ removed) /\ (pause_when_idle d = true -> rp_state p = Active).

Lemma pending_frame removed r r' s s' : touches cfg r s s' -> r' <> r -> pending removed s r' -> pending removed s' r'.
Proof.
  intros Hto Hr (p & d & Hp & Hd & H). exists p, d. by rewrite (to_decisions _ _ _ _ Hto r' Hr), (proj1 (to_frame _ _ _ _ Hto r' Hr)).
Qed.

(** The program is paused, if it is not already. *)
Lemma invalidate_pending r removed s p d : runtime_ok (runtime s) -> live_program r (runtime s) = Some p ->
  decisions s !! r = Some d ->
  (forall t, rp_placement p = Some t -> t ∈ removed) -> (pause_when_idle d = true -> rp_state p = Active) ->
  exists b p' rt, invalidate_placement r (btree_iter removed) (runtime s) = (b, rt) /\ runtime_ok rt /\ frame r (runtime s) rt /\
    live_program r rt = Some p' /\ rp_state p' = Paused /\ waiting_of r rt = waiting_of r (runtime s) /\
    (b = false -> pause_when_idle d = false).
Proof.
  intros Hok Hp Hd Hpl Hm.
  destruct (invalidate_spec r (btree_iter removed) (runtime s) Hok) as [(p0 & rt & e & t & Hp0 & Ht & _ & -> & Hb)|[-> Hno]].
  - destruct Hb as (B1 & B2 & B3 & B4 & _). eexists true, _, rt. by split_and!.
  - assert (rp_placement p = None) as Hn.
    { destruct (rp_placement p) as [t|] eqn:Ht; [|done]. destruct (Hno p t Hp Ht). apply elem_of_btree. auto. }
    assert (rp_state p = Paused) as Hs.
    { destruct (rp_state p) eqn:Es; [|done]. apply (pf_active _ _ (ro_facts _ Hok r p Hp)) in Es as [t Ht]. congruence. }
    exists false, p, (runtime s). split_and!; try done. intros _. destruct (pause_when_idle d); [|done]. rewrite Hm in Hs; done.
Qed.

(** The program is put at the end of the queue it belongs to. *)
Definition requeue (key : option string) (r : ProgramRef) (s : ProgramSchedulerState) : ProgramSchedulerState :=
  match key with
  | Some key => if global_queue cfg then s <| global_queues ::= enqueue key r |> else s <| rank_queues ::= enqueue key r |>
  | None => s
  end.

Lemma requeue_at r key s k : queue_at cfg (requeue key r s) k = queue_at cfg s k ++ if decide (Some k = key) then [r] else [].
Proof.
  unfold requeue, queue_at, queue_map, enqueue. destruct key as [key|]; [|by rewrite app_nil_r].
  destruct (global_queue cfg); simpl; case_decide as Hk; simplify_eq; rewrite ?lookup_insert_eq, ?lookup_insert_ne by congruence;
    rewrite ?app_nil_r; done.
Qed.

Lemma rebound_ok r m p n d (s s' : ProgramSchedulerState) key : runtime_ok (runtime s') -> frame r (runtime s) (runtime s') ->
  live_program r (runtime s') = Some p -> rp_state p = Paused -> waiting_of r (runtime s') = n ->
  decisions s' = <[r := d]> (decisions s) -> model_targets s' = model_targets s -> targets s' = targets s ->
  lineage s' = lineage s -> table_ok cfg (table s') -> m = ref_model_pool r ->
  (forall t, last_target d = Some t -> t ∈ pool_ids s m) -> (last_target d = None -> pool_ids s m = ∅) -> pause_when_idle d = false ->
  (forall k, queue_at cfg s' k = filter (fun q => q <> r) (queue_at cfg s k) ++ if decide (Some k = key) then [r] else []) ->
  key = (if n =? 0 then None else queue_key cfg r d) ->
  touches cfg r s s' /\ scheduled_ok cfg E s' r.
Proof.
  intros H1 H2 H3 H4 H5 H6 H7 H8 H9 H10 -> H11 H12 H13 Hq Hkey. split.
  - split; rewrite ?H6, ?H7, ?H8, ?H9; try done.
    + intros r' Hr. by rewrite lookup_insert_ne.
    + intros k r' Hr. rewrite Hq, elem_of_app, list_elem_of_filter. case_decide; set_solver.
    + intros Hn k. rewrite Hq. apply NoDup_app. split_and!; [by apply NoDup_filter| |].
      * intros q [Hne _]%list_elem_of_filter. case_decide; set_solver.
      * case_decide; [apply NoDup_singleton|apply NoDup_nil_2].
  - unfold scheduled_ok, pool_ids. rewrite H3, H5, H6, H7, lookup_insert_eq. fold (pool_ids s (ref_model_pool r)).
    apply local_paused; try done; [by rewrite <- H5; apply (ro_facts _ H1)| |].
    + intros k. rewrite Hq, elem_of_app, list_elem_of_filter. intros [[? _]|Hk]; [done|]. case_decide as Hk'; [|set_solver].
      rewrite Hkey in Hk'. destruct (N.eqb_spec n 0); done.
    + intros _ k Hn Hl Hk. rewrite Hq, elem_of_app. right. rewrite decide_True; [set_solver|]. rewrite Hkey.
      by destruct (N.eqb_spec n 0).
Qed.

Lemma rebind_ok m removed times a s s' : runtime_ok (runtime s) -> table_ok cfg (table s) ->
  ref_model_pool (aff_program a) = m -> pending removed s (aff_program a) ->
  aff_waiting_requests a = waiting_of (aff_program a) (runtime s) -> rebind cfg m removed times a s = Some s' ->
  touches cfg (aff_program a) s s' /\ scheduled_ok cfg E s' (aff_program a).
Proof.
  intros Hok Htab Hm (p & d & Hp & Hd & Hpl & Hmark) Hw Hre. unfold rebind in Hre. set (r := aff_program a) in *.
  destruct (invalidate_pending r removed s p d Hok Hp Hd Hpl Hmark) as (b & p' & rt & -> & B1 & B2 & B3 & B4 & B5 & B6) in Hre.
  set (s1 := unqueue_all r _) in Hre. set (identity := for_rebinding _ _ _ _) in Hre.
  destruct (bind_ok cfg C identity (times r).1 None s1) as (home & tb & Eb & Htb & Hin & Hno); [done|].
  rewrite Eb in Hre. cbn [mbind option_bind] in Hre. simpl (decisions _) in Hre. rewrite Hd in Hre.
  apply bind_Some in Hre as (s2 & Hs2 & Hre). apply bind_Some in Hs2 as (d2 & Hd2 & [= <-]).
  assert (last_target d2 = home /\ pause_when_idle d2 = false) as [Hl2 Hm2].
  { destruct (b || aff_target_disappeared a) eqn:Eor.
    - by apply restart_returns in Hd2 as [-> ->].
    - injection Hd2 as <-. simpl. split; [done|]. apply B6. by destruct b. }
  clear Hd2. rewrite Hw, <- B5 in Hre. subst m.
  set (s2 := s1 <| table := tb |> <| decisions ::= <[r := d2]> |>) in Hre.
  assert (s' = requeue (if waiting_of r rt =? 0 then None else queue_key cfg r d2) r s2) as ->.
  { injection Hre as <-. unfold requeue, queue_key. rewrite Hl2. destruct (N.ltb_spec 0 (waiting_of r rt)), (N.eqb_spec (waiting_of r rt) 0); try lia; [|done].
    destruct (global_queue cfg) eqn:Eg; rewrite ?Eg; [done|]. by destruct home. }
  set (key := if waiting_of r rt =? 0 then None else queue_key cfg r d2).
  assert (core (requeue key r s2) = core (s2 <| rank_queues := rank_queues (requeue key r s2) |> <| global_queues := global_queues (requeue key r s2) |>))
    as Hc by (unfold requeue; destruct key; [by destruct (global_queue cfg)|done]).
  unfold core in Hc. injection Hc as C1 C2 C3 C4 C5 C8. simpl in C1, C2, C3, C4, C5, C8.
  apply (rebound_ok r (ref_model_pool r) p' (waiting_of r rt) d2 s (requeue key r s2) key); rewrite ?C1, ?C2, ?C3, ?C4, ?C5, ?C8, ?Hl2; try done.
  intros k. rewrite requeue_at. f_equal. apply (queue_at_unqueue cfg r s k).
Qed.

(** ** The affected programs *)

(** The program is bound to none of the current targets. *)
Definition unbound (current : gset string) (d : ProgramDecisionState) : Prop :=
  match last_target d with Some t => t ∉ current | None => True end.

Lemma omap_NoDup {A B K} (key : A -> K) (key' : B -> K) (f : A -> option B) (l : list A) :
  (forall x y, f x = Some y -> key' y = key x) -> NoDup (key <$> l) -> NoDup (key' <$> omap f l).
Proof.
  intros Hf. induction l as [|x l IH]; [by constructor|]. rewrite fmap_cons. intros [Hn Hl]%NoDup_cons. cbn [omap list_omap].
  destruct (f x) as [y|] eqn:Ef; [|by apply IH]. rewrite fmap_cons. apply NoDup_cons. split; [|by apply IH].
  rewrite (Hf x y Ef). intros (y' & Hy' & (x' & Hx & Hxy)%list_elem_of_omap)%list_elem_of_fmap. apply Hn, list_elem_of_fmap.
  exists x'. by rewrite Hy', (Hf x' y' Hxy).
Qed.

Lemma affected_spec m current removed s :
  NoDup (viewref_reference <$> iter_views (runtime s)) ->
  NoDup (aff_program <$> affected_programs m current removed s) /\
  (forall a, a ∈ affected_programs m current removed s -> exists v d, v ∈ iter_views (runtime s) /\ aff_program a = viewref_reference v /\
     ref_model_pool (aff_program a) = m /\ decisions s !! aff_program a = Some d /\ unbound current d /\
     aff_waiting_requests a = viewref_waiting_requests v) /\
  (forall v d, v ∈ iter_views (runtime s) -> ref_model_pool (viewref_reference v) = m -> decisions s !! viewref_reference v = Some d ->
     unbound current d -> viewref_reference v ∈ aff_program <$> affected_programs m current removed s).
Proof.
  intros Hnd. unfold affected_programs. split_and!.
  - apply (omap_NoDup viewref_reference); [|done]. intros v a Ha. case_bool_decide; [|done]. apply bind_Some in Ha as (d & _ & Ha).
    by destruct (match last_target d with Some _ => _ | None => _ end); simplify_eq.
  - intros a (v & Hv & Ha)%list_elem_of_omap. case_bool_decide as Hm; [|done]. apply bind_Some in Ha as (d & Hd & Ha).
    exists v, d. unfold unbound. destruct (last_target d) as [t|]; [case_bool_decide|]; simplify_eq; done.
  - intros v d Hv Hm Hd Hu. apply list_elem_of_fmap.
    assert (match last_target d with None => true | Some t => bool_decide (t ∉ current) end = true) as Hc.
    { unfold unbound in Hu. destruct (last_target d); [by apply bool_decide_eq_true|done]. }
    eexists. split; [|apply list_elem_of_omap; exists v; split; [done|]; rewrite bool_decide_eq_true_2, Hd by done; cbn [mbind option_bind];
      rewrite Hc; reflexivity]. done.
Qed.

(** ** The forgotten targets *)

Lemma forget_ok m l s s' : table_ok cfg (table s) -> foldM (forget_target m) l s = Some s' ->
  runtime s' = runtime s /\ decisions s' = decisions s /\ targets s' = targets s /\ model_targets s' = model_targets s /\
  lineage s' = lineage s /\ global_queues s' = global_queues s /\ table_ok cfg (table s') /\
  forall k, rank_queues s' !! k = if decide (k ∈ l) then None else rank_queues s !! k.
Proof.
  revert s. induction l as [|t l IH]; intros s Ht Hf; [by injection Hf as <-|]. cbn [foldM] in Hf. apply bind_Some in Hf as (s1 & H1 & Hf).
  unfold forget_target in H1. apply bind_Some in H1 as (b & Hb & [= <-]).
  destruct Ht as [Hok Hready]. destruct (run_table_ok (binding_strategy cfg) (hash_virtual_nodes cfg) [OpRemoveTarget t; OpForget m t] (table s))
    as (b' & Eb & [Hok' _] & Hready'); [by repeat constructor|exact Hok|exact Hready|].
  cbn [foldM run_table_op mbind option_bind] in Eb. rewrite Hb in Eb. injection Eb as <-.
  apply IH in Hf as (F1 & F2 & F3 & F4 & F5 & F6 & F7 & F8); [|exact (conj Hok' Hready')].
  split_and!; [exact F1|exact F2|exact F3|exact F4|exact F5|exact F6|exact F7|].
  intros k. rewrite F8. change (rank_queues (_ <| observations ::= _ |>)) with (delete t (rank_queues s)).
  destruct (decide (k = t)) as [->|Hne].
  - rewrite lookup_delete_eq, (decide_True (P := t ∈ t :: l)) by left. by case_decide.
  - rewrite lookup_delete_ne by done. rewrite (decide_ext (k ∈ t :: l) (k ∈ l)) by set_solver. done.
Qed.

(** ** A new list of targets *)

Lemma live_view s r p : live_program r (runtime s) = Some p -> exists v, v ∈ iter_views (runtime s) /\ viewref_reference v = r.
Proof.
  intros [Hp Hr]%live_lookup. unfold iter_views. eexists. split; [|shelve]. apply list_elem_of_fmap. exists (key_of_ref r, p).
  split; [reflexivity|]. by apply elem_of_iter.
  Unshelve. done.
Qed.

(** The state before programs are bound again. *)
Record prepared (m : string) (current : gset string) (s s' : ProgramSchedulerState) : Prop := {
  pr_runtime : runtime s' = runtime s;
  pr_decisions : decisions s' = decisions s;
  pr_lineage : lineage s' = lineage s;
  pr_table : table_ok cfg (table s');
  pr_pools : model_targets s' = <[m := current]> (model_targets s);
  pr_queues : forall k, queue_at cfg s' k =
    if bool_decide (global_queue cfg = false /\ k ∈ pool_ids s m ∖ current) then [] else queue_at cfg s k;
}.

Lemma prepared_pending m current s s' r d : sched_ok cfg E s -> prepared m current s s' -> ref_model_pool r = m ->
  decisions s !! r = Some d -> unbound current d -> pending (pool_ids s m ∖ current) s' r.
Proof.
  intros H [P1 P2 _ _ _ _] Hm Hd Hu. destruct (decision_live cfg E s r d H Hd) as (p & Hp & _). exists p, d.
  rewrite P1, P2. split_and!; [done|done| |].
  - intros t Ht. destruct (so_programs cfg E s H r) as [_ _ _ L4 L5 _ _]. pose proof (L4 p d t Hp Hd Ht) as Hl. unfold unbound in Hu. rewrite Hl in Hu.
    specialize (L5 d t Hd Hl). rewrite Hm in L5. set_solver.
  - by apply (lo_marked _ _ _ _ _ _ _ _ (so_programs cfg E s H r)).
Qed.

Lemma prepared_scheduled m current s s' r : sched_ok cfg E s -> prepared m current s s' ->
  (forall d, ref_model_pool r = m -> decisions s !! r = Some d -> ~ unbound current d) -> scheduled_ok cfg E s' r.
Proof.
  intros H [P1 P2 _ _ P5 P6] Hn. unfold scheduled_ok. rewrite P1, P2.
  destruct (so_programs cfg E s H r) as [L1 L2 L3 L4 L5 L6 L7].
  assert (forall d t, decisions s !! r = Some d -> last_target d = Some t -> t ∈ pool_ids s' (ref_model_pool r)) as Hb.
  { intros d t Hd Hl. unfold pool_ids. rewrite P5. destruct (decide (ref_model_pool r = m)) as [Hm|Hm].
    - rewrite Hm, lookup_insert_eq. simpl. specialize (Hn d Hm Hd). unfold unbound in Hn. rewrite Hl in Hn. by apply dec_stable.
    - rewrite lookup_insert_ne by done. by apply (L5 d t). }
  split; auto.
  - intros k Hk. apply L2. rewrite P6 in Hk. case_bool_decide; [by apply elem_of_nil in Hk|done].
  - intros HE p d k Hp Hd Hs Hw Hl Hk. rewrite P6. case_bool_decide as Hr; [|by apply (L3 HE p d k)]. exfalso.
    destruct Hr as [Hg Hr]. unfold queue_key in Hk. rewrite Hg in Hk. pose proof (Hb d k Hd Hk) as Hcur.
    unfold pool_ids in Hcur. rewrite P5 in Hcur. destruct (decide (ref_model_pool r = m)) as [Hm|Hm].
    + rewrite Hm, lookup_insert_eq in Hcur. simpl in Hcur. set_solver.
    + destruct (so_separate cfg E s H HE) as [?|Hsep]; [congruence|]. apply Hm, (Hsep _ _ k); [by apply (L5 d k)|]. set_solver.
  - intros d Hd Hl. unfold pool_ids. rewrite P5. destruct (decide (ref_model_pool r = m)) as [Hm|Hm].
    + specialize (Hn d Hm Hd). unfold unbound in Hn. by rewrite Hl in Hn.
    + rewrite lookup_insert_ne by done. by apply (L6 d).
Qed.

Lemma rebind_all m removed times l s s' : runtime_ok (runtime s) -> table_ok cfg (table s) -> (forall k, NoDup (queue_at cfg s k)) ->
  forest (lineage s) -> NoDup (aff_program <$> l) ->
  (forall a, a ∈ l -> ref_model_pool (aff_program a) = m /\ pending removed s (aff_program a) /\
    aff_waiting_requests a = waiting_of (aff_program a) (runtime s)) ->
  (forall r, r ∉ aff_program <$> l -> scheduled_ok cfg E s r) ->
  foldM (rebind cfg m removed times) l s = Some s' ->
  runtime_ok (runtime s') /\ table_ok cfg (table s') /\ (forall k, NoDup (queue_at cfg s' k)) /\ forest (lineage s') /\
  model_targets s' = model_targets s /\ targets s' = targets s /\ forall r, scheduled_ok cfg E s' r.
Proof.
  revert s. induction l as [|a l IH]; intros s H1 H2 H3 H4 Hnd Hl Hr Hf.
  { injection Hf as <-. split_and!; try done. intros r. apply Hr. set_solver. }
  cbn [foldM] in Hf. apply bind_Some in Hf as (s1 & Ha & Hf). rewrite fmap_cons in Hnd. apply NoDup_cons in Hnd as [Hna Hnd].
  destruct (Hl a) as (A1 & A2 & A3); [left|]. destruct (rebind_ok m removed times a s s1 H1 H2 A1 A2 A3 Ha) as [Hto Hs1].
  pose proof Hto as [T1 T2 T3 T4 T5 T6 T7 T8 T9].
  destruct (IH s1) as (I1 & I2 & I3 & I4 & I5 & I6 & I7); auto.
  - intros b Hb. destruct (Hl b) as (B1 & B2 & B3); [by right|].
    assert (aff_program b <> aff_program a) as Hne by (intros Heq; apply Hna; rewrite <- Heq; apply list_elem_of_fmap; by exists b).
    split_and!; [done|by apply (pending_frame _ (aff_program a) _ s)|]. by rewrite B3, (proj2 (T2 _ Hne)).
  - intros r Hnr. destruct (decide (r = aff_program a)) as [->|Hne]; [done|]. apply (scheduled_frame cfg E (aff_program a) r s); [done|done|].
    apply Hr. rewrite fmap_cons. set_solver.
  - split_and!; auto; congruence.
Qed.

Lemma synced_ok m current s s2 s3 times : sched_ok cfg E s -> prepared m current s s2 ->
  foldM (rebind cfg m (pool_ids s m ∖ current) times) (affected_programs m current (pool_ids s m ∖ current) s2) s2 = Some s3 ->
  runtime_ok (runtime s3) /\ table_ok cfg (table s3) /\ (forall k, NoDup (queue_at cfg s3 k)) /\ forest (lineage s3) /\
  model_targets s3 = model_targets s2 /\ targets s3 = targets s2 /\ forall r, scheduled_ok cfg E s3 r.
Proof.
  intros H Hp Hf. pose proof Hp as [P1 P2 P3 P4 P5 P6].
  destruct (affected_spec m current (pool_ids s m ∖ current) s2) as (N1 & N2 & N3); [rewrite P1; by apply (views_NoDup cfg E)|].
  eapply rebind_all in Hf; try done.
  - rewrite P1. apply (so_runtime cfg E s H).
  - intros k. rewrite P6. case_bool_decide; [apply NoDup_nil_2|apply (so_queues cfg E s H)].
  - rewrite P3. apply (so_forest cfg E s H).
  - intros a Ha. destruct (N2 a Ha) as (v & d & Hv & Hr & Hm & Hd & Hu & Hw). rewrite P1 in Hv. rewrite P2 in Hd.
    split_and!; [done|by apply (prepared_pending m current s s2 _ d)|].
    destruct (elem_of_views cfg E s v H Hv) as (p & _ & _ & _ & _ & _ & Hvw & _). by rewrite Hw, P1, Hvw, Hr.
  - intros r Hr. apply (prepared_scheduled m current s); [done|done|]. intros d Hm Hd Hu. apply Hr.
    destruct (decision_live cfg E s r d H Hd) as (p & Hpl & _). destruct (live_view s r p Hpl) as (v & Hv & <-).
    apply (N3 v d); [by rewrite P1|done|by rewrite P2|done].
Qed.

Lemma or_defaults_queue (ids : gset string) (m : gmap string (list ProgramRef)) k :
  default [] (or_defaults [] ids m !! k) = default [] (m !! k).
Proof.
  unfold or_defaults. rewrite lookup_union. destruct (m !! k) as [q|]; [by destruct (gset_to_gmap _ _ !! k)|].
  rewrite lookup_gset_to_gmap. unfold guard. case_decide; by destruct (_ !! _) || done.
Qed.

Lemma sync_ok m snapshot times s s' : sched_ok cfg E s -> sync_target_snapshot_locked cfg m snapshot times s = Some s' ->
  (E -> separate cfg (model_targets s')) -> sched_ok cfg E s'.
Proof.
  intros H Hs Hsep. unfold sync_target_snapshot_locked in Hs.
  destruct (match model_target_snapshots s !! m with Some _ => _ | None => _ end); [by injection Hs as <-|].
  set (incoming := targets_by_id _) in Hs. set (current := dom incoming) in Hs.
  destruct (targets_unchanged m incoming s); [injection Hs as <-; by apply (core_ok cfg E s)|].
  destruct (_ <? _); [|done]. cbv zeta in Hs. simpl (model_targets _) in Hs. fold (pool_ids s m) in Hs. set (s1 := _ <| observations ::= _ |>) in Hs.
  apply bind_Some in Hs as (s2 & Hf & Hs). apply bind_Some in Hs as (s3 & Hre & [= <-]).
  destruct (forget_ok m _ s1 s2 (so_table cfg E s H) Hf) as (F1 & F2 & F3 & F4 & F5 & F6 & F7 & F8).
  assert (prepared m current s s2) as Hp.
  { split; try done. intros k. unfold queue_at, queue_map. destruct (global_queue cfg); [rewrite F6|rewrite F8].
    - rewrite bool_decide_eq_false_2 by naive_solver. simpl. destruct (decide (k = m)) as [->|Hne]; [by rewrite lookup_insert_eq|by rewrite lookup_insert_ne].
    - case_decide as Hk; rewrite elem_of_btree in Hk.
      + by rewrite bool_decide_eq_true_2.
      + rewrite bool_decide_eq_false_2 by naive_solver. apply or_defaults_queue. }
  destruct (synced_ok m current s s2 s3 times H Hp Hre) as (I1 & I2 & I3 & I4 & I5 & I6 & I7).
  assert (model_targets s3 = <[m := current]> (model_targets s)) as Em by (by rewrite I5, F4). split; try done.
  intros t. unfold pool_ids. simpl. rewrite I6, F3, Em. simpl.
  split.
  - intros [x [_ (m' & ids & Hm' & Hin)]%map_lookup_filter_Some]. exists m'. by rewrite Hm'.
  - intros [m' Hin]. assert (is_Some ((incoming ∪ targets s) !! t)) as [x Hx].
    { apply lookup_union_is_Some. destruct (decide (m' = m)) as [->|Hne].
      - rewrite lookup_insert_eq in Hin. left. by apply elem_of_dom.
      - rewrite lookup_insert_ne in Hin by done. right. apply (so_targets cfg E s H). by exists m'. }
    exists x. apply map_lookup_filter_Some. split; [done|]. destruct (<[m := current]> (model_targets s) !! m') as [ids|] eqn:Em'; [|set_solver].
    by exists m', ids.
Qed.

End sync.
