(* ===== verification/SchedulerSpec.v ===== *)
(** * The program scheduler

    Every state the calls of the scheduler can reach is consistent; programs
    that wait are scheduled, in order, when their target admits them. *)

From S2P Require Import Prelude RequestPool ProgramRuntime RuntimeFrame Lineage Ieee Factors PrefixTree PrefixTreeSpec Binding SchedulerState Scheduler Admission Lifecycle SchedulerInv SchedulerResume SchedulerCalls SchedulerSync.

Local Open Scope N_scope.
Local Open Scope update_scope.

(** ** Histories *)

(** The calls on the scheduler, with the readings of the clock they take. *)
Inductive call :=
| Sync (model_pool : string) (snapshot : TargetSnapshot) (times : ProgramRef -> N * N)
| Acquire (identity : ProgramIdentity) (estimate : N) (text : option string) (arrived_at activated_at : N)
| Claim (handle : ProgramRequestHandle) (now : N)
| Cancel (handle : ProgramRequestHandle) (paused_at released_at scheduled_at : N)
| Complete (dispatch : ProgramDispatch) (success terminate : bool) (usage : ProgramUsageObservation) (decode : option f64) (now : N)
| Wake (now : N)
| Tick (now : N)
| Observe (epoch : BackendObservationEpoch) (raws : list BackendObservation).

Section histories.
Context `{U : Unordered} `{M : Libm} (cfg : ProgramSchedulerConfig).

(** [None] is a panic. *)
Definition perform (c : call) (s : ProgramSchedulerState) : option ProgramSchedulerState :=
  match c with
  | Sync model_pool snapshot times => sync_target_snapshot_locked cfg model_pool snapshot times s
  | Acquire identity estimate text arrived_at activated_at =>
      snd <$> acquire_locked cfg identity estimate text arrived_at activated_at s
  | Claim handle now => snd <$> claim_dispatch handle now s
  | Cancel handle paused_at released_at scheduled_at => cancel_retained_request cfg handle paused_at released_at scheduled_at s
  | Complete dispatch success terminate usage decode now => complete cfg dispatch success terminate usage decode now s
  | Wake now => run_request_arrival_decisions cfg now s
  | Tick now => tick cfg now s
  | Observe epoch raws => Some (apply_observations cfg epoch raws s)
  end.

(** Calls that only list the targets of one pool. *)
Definition perform_in (m : string) (c : call) (s : ProgramSchedulerState) : option ProgramSchedulerState :=
  s' ← perform c s;
  if decide (dom (model_targets s') ⊆ ({[m]} : gset string)) then Some s' else None.

(** The states that calls reach, none of which panics.  With [E], no call leaves
    one target in two pools, unless the queues are those of the pools. *)
Inductive reachable (E : Prop) : ProgramSchedulerState -> Prop :=
| reach_new counter : reachable E (new_state cfg counter)
| reach_call c s s' : reachable E s -> perform c s = Some s' -> (E -> separate cfg (model_targets s')) -> reachable E s'.

End histories.

(** ** Examples *)

(** One program per target. *)
Definition one_program : ProgramSchedulerConfig :=
  MkSchedulerConfig AgenticContext false false Mru (f64_dec 12 10) ConsistentHash 2 1 (from_secs 1) 1
    (from_secs 600) (from_secs 300) (from_secs 1800) (from_secs 100) (f64_lit 2 1) default_ttl_config.

#[local] Instance some_libm : Libm := {| ln x := x; exp x := x; powi2 x := f64_mul x x |}.

Definition target (t : string) : ProgramTarget := MkTarget t t None.

Definition list_targets (m : string) (addr : nat) (ts : list string) : call :=
  Sync m (MkSnapshot addr (target <$> ts)) (fun _ => (0, 0)).

Definition arrive (m p : string) (at_ : N) : call := Acquire (program_identity m p) 10 None at_ at_.

Definition ref (m p : string) : ProgramRef := MkRef m p 0.

(** The handle of a request of the first generation of a program. *)
Definition handle (m p : string) (id : N) : ProgramRequestHandle := MkHandle (ref m p) id.

Definition hinted_identity (m p : string) (ttl : N) : ProgramIdentity :=
  {| id_model_pool := m; id_program_id := p; id_placement_hash_key := p; id_placement_key := p;
     id_expected_resume := true; id_task_id := None; id_session_id := None; id_agent_id := None;
     id_parent_program_id := None; id_root_program_id := None; id_blocks_parent := false; id_agent_role := None;
     id_spawn_reason := None; id_step_id := None; id_request_hints := {|
       hint_request_id := None; hint_priority := 0; hint_deadline := None; hint_expected_output_tokens := None;
       hint_kv_retention_ttl := Some ttl |} |}.

Definition no_usage : ProgramUsageObservation := MkUsage None None None.

(** Two programs of one pool, of which one waits. *)
Definition one_waits : list call := [list_targets "a" 1 ["t"%string]; arrive "a" "p" 5; arrive "a" "q" 6].

Definition after (calls : list call) : option ProgramSchedulerState :=
  foldM (perform one_program) calls (new_state one_program 0).

(** The state after one of the programs waits. *)
Definition waiting_state : ProgramSchedulerState := default (new_state one_program 0) (after one_waits).

(** ** Lemmas *)

Lemma new_state_ok `{U : Unordered} cfg E counter : sched_ok cfg E (new_state cfg counter).
Proof.
  split.
  - by split.
  - intros r. unfold scheduled_ok, queue_at, queue_map. simpl. apply local_gone. intros k. destruct (global_queue cfg); rewrite lookup_empty; apply not_elem_of_nil.
  - intros k. unfold queue_at, queue_map. simpl. destruct (global_queue cfg); rewrite lookup_empty; apply NoDup_nil_2.
  - split; [apply new_bindings_ok|]. intros cs Hcs. by apply new_bindings_ready.
  - apply forest_empty.
  - intros t. unfold pool_ids. simpl. split; [by intros []|]. intros [m Hm]. rewrite lookup_empty in Hm. set_solver.
  - intros _. right. intros m1 m2 t Ht. simpl in Ht. rewrite lookup_empty in Ht. set_solver.
Qed.

Lemma perform_ok `{U : Unordered} `{M : Libm} cfg (C : config_ok cfg) E c s s' : sched_ok cfg E s -> perform cfg c s = Some s' ->
  (E -> separate cfg (model_targets s')) -> sched_ok cfg E s'.
Proof.
  intros H Hp Hsep. destruct c as [m snapshot times|identity estimate text t1 t2|h now|h t1 t2 t3|dispatch b1 b2 usage decode now|now|now|epoch raws];
    simpl in Hp.
  - by apply (sync_ok cfg C E m snapshot times s s').
  - apply fmap_Some in Hp as ([res s1] & Hp & ->). by apply (acquire_ok cfg C E identity estimate text t1 t2 s res s1).
  - apply fmap_Some in Hp as ([d s1] & Hp & ->).
    destruct (claim_ok cfg E False h now now s (sched_inv cfg E now s H)) as (d' & s2 & Hs2 & [H2 _] & _). by simplify_eq.
  - by apply (cancel_ok cfg C E h t1 t2 t3 s s').
  - by apply (complete_ok cfg C E dispatch b1 b2 usage decode now s s').
  - by apply (returned _ _ s' (arrival_ok cfg C E False now s (sched_inv cfg E now s H))).
  - by apply (returned _ _ s' (tick_ok cfg C E False now s (sched_inv cfg E now s H))).
  - injection Hp as <-. apply (core_ok cfg E s); [apply observations_core|done].
Qed.

Lemma reachable_ok `{U : Unordered} `{M : Libm} cfg E s : config_ok cfg -> reachable cfg E s -> sched_ok cfg E s.
Proof. intros C. induction 1 as [counter|c s s' _ IH Hp Hsep]; [apply new_state_ok|by apply (perform_ok cfg C E c s)]. Qed.

Lemma run_reachable `{U : Unordered} `{M : Libm} cfg E m calls s s' : reachable cfg E s ->
  foldM (perform_in cfg m) calls s = Some s' -> reachable cfg E s'.
Proof.
  revert s. induction calls as [|c calls IH]; intros s Hr H; simpl in H; [by simplify_eq|].
  apply bind_Some in H as (s1 & H1 & H). apply (IH s1); [|done]. unfold perform_in in H1. apply bind_Some in H1 as (s2 & Hp & H1).
  destruct (decide _) as [Hm|]; [|done]. injection H1 as ->. apply (reach_call cfg E c s); [done|done|]. intros _. right.
  assert (forall m1 t, t ∈ default ∅ (model_targets s1 !! m1) -> m1 = m) as Hone; [|intros m1 m2 t H1 H2; by rewrite (Hone m1 t), (Hone m2 t)].
  intros m1 t Ht. destruct (model_targets s1 !! m1) eqn:El; [|set_solver]. apply elem_of_dom_2 in El. set_solver.
Qed.

(** After a schedule of the target queues, each program that waits is refused by
    its target. *)
Lemma settled_refusal `{U : Unordered} cfg (C : config_ok cfg) now s : global_queue cfg = false -> sched_ok cfg True s ->
  (forall t, settled cfg now t s) -> forall r p d, live_program r (runtime s) = Some p -> decisions s !! r = Some d ->
  rp_state p = Paused -> waiting_of r (runtime s) <> 0 -> pool_ids s (ref_model_pool r) <> ∅ ->
  exists t, last_target d = Some t /\ refusal cfg now s r d t.
Proof.
  intros Hg H Hs r p d Hp Hd Hps Hw Hne. destruct (so_programs cfg True s H r) as [L1 L2 L3 L4 L5 L6 L7].
  destruct (last_target d) as [t|] eqn:Hl; [|by destruct (Hne (L6 d Hd Hl))]. exists t. split; [done|].
  assert (r ∈ queue_at cfg s t) as Hq by (apply (L3 I p d t); try done; [congruence|unfold queue_key; by rewrite Hg]).
  assert (waits s r) as Hwt.
  { apply waits_spec. exists p. split_and!; try done. destruct (rp_status p) eqn:Ea; [done|].
    by destruct (pf_acting _ _ (ro_facts _ (so_runtime cfg True s H) r p Hp) Ea). }
  apply refused_why; try done; [by apply Hs|by right].
Qed.

(** ** Properties *)

(** C2: in every reachable state the scheduler, the runtime and the targets agree.
    A program has facts exactly while it lives; a placed program is placed on
    the target it is bound to, which its pool lists; a program without a target
    belongs to a pool without targets; the known targets are those of the pools;
    and each queue lists, once each, paused programs with retained requests that
    belong to it. *)
Theorem scheduler_consistent `{U : Unordered} `{M : Libm} cfg E s : config_ok cfg -> reachable cfg E s ->
  (forall r, is_Some (decisions s !! r) <-> is_Some (live_program r (runtime s))) /\
  (forall r p d t, live_program r (runtime s) = Some p -> decisions s !! r = Some d -> rp_placement p = Some t ->
    last_target d = Some t) /\
  (forall r d, decisions s !! r = Some d -> match last_target d with
    | Some t => t ∈ pool_ids s (ref_model_pool r)
    | None => pool_ids s (ref_model_pool r) = ∅
    end) /\
  (forall t, is_Some (targets s !! t) <-> exists m, t ∈ pool_ids s m) /\
  (forall k, NoDup (queue_at cfg s k)) /\
  (forall k r, r ∈ queue_at cfg s k -> exists p d, live_program r (runtime s) = Some p /\ decisions s !! r = Some d /\
    rp_state p = Paused /\ waiting_of r (runtime s) <> 0 /\ queue_key cfg r d = Some k).
Proof.
  intros C H%reachable_ok; [|done]. pose proof (so_programs cfg E s H) as Hl. split_and!.
  - intros r. apply (Hl r).
  - intros r. apply (Hl r).
  - intros r d Hd. destruct (Hl r) as [_ _ _ _ L5 L6 _]. destruct (last_target d) as [t|] eqn:El; [by apply (L5 d)|by apply (L6 d)].
  - apply (so_targets cfg E s H).
  - apply (so_queues cfg E s H).
  - intros k r. apply (Hl r).
Qed.

(** C5: while no target is in two pools, or with pool queues, no waiting program
    is lost.  A paused program with retained requests whose pool has a target is
    in the queue of the target it is bound to, or of its pool, and in no other. *)
Theorem no_waiter_lost `{U : Unordered} `{M : Libm} cfg s r p d : config_ok cfg -> reachable cfg True s ->
  live_program r (runtime s) = Some p -> decisions s !! r = Some d -> rp_state p = Paused ->
  waiting_of r (runtime s) <> 0 -> pool_ids s (ref_model_pool r) <> ∅ ->
  exists k, queue_key cfg r d = Some k /\ forall k', r ∈ queue_at cfg s k' <-> k' = k.
Proof.
  intros C H%reachable_ok Hp Hd Hs Hw Hne; [|done]. destruct (so_programs cfg True s H r) as [L1 L2 L3 L4 L5 L6 L7].
  destruct (last_target d) as [t|] eqn:Hl; [|by destruct (Hne (L6 d Hd Hl))].
  assert (exists k, queue_key cfg r d = Some k) as [k Hk] by (unfold queue_key; destruct (global_queue cfg); rewrite ?Hl; by eexists).
  exists k. split; [done|]. intros k'. split.
  - intros (p1 & d1 & _ & Hd1 & _ & _ & Hk')%L2. simplify_eq. congruence.
  - intros ->. by apply (L3 I p d k); try done; rewrite Hl.
Qed.

(** C19: a claim always answers.  A dispatch is one of the claimed program and goes
    to the target where the program is placed, which its pool lists and the
    scheduler knows, whatever changed since the request arrived. *)
Theorem dispatch_to_listed_target `{U : Unordered} `{M : Libm} cfg E s h now : config_ok cfg -> reachable cfg E s ->
  exists d s', claim_dispatch h now s = Some (d, s') /\ forall dispatch, d = Some dispatch ->
    d_program dispatch = handle_program h /\ placement (handle_program h) (runtime s) = Some (d_target_id dispatch) /\
    d_target_id dispatch ∈ pool_ids s (ref_model_pool (handle_program h)) /\ is_Some (targets s !! d_target_id dispatch).
Proof.
  intros C H%reachable_ok; [|done]. destruct (claim_ok cfg E False h now now s (sched_inv cfg E now s H)) as (d & s' & Hc & _ & Hd).
  exists d, s'. split; [done|]. intros dispatch Hdis. destruct (Hd dispatch Hdis) as [H1 H2].
  assert (d_target_id dispatch ∈ pool_ids s (ref_model_pool (handle_program h))) as Hin.
  { unfold placement in H2. apply bind_Some in H2 as (p & Hp & Hpl). destruct (live_decision cfg E s _ p H Hp) as [dec Hdec].
    destruct (so_programs cfg E s H (handle_program h)) as [_ _ _ L4 L5 _ _]. by apply (L5 dec), (L4 p dec). }
  split_and!; [done|done|done|]. apply (so_targets cfg E s H). by eexists.
Qed.

(** C6: the schedule of the target queues ends, and does what the order asks for.
    It is a sequence of resumes; each takes a waiting program that its target
    admits, and every program of the same queue that comes before it in resume
    order is refused at that moment.  Afterwards no target admits a program that
    waits for it. *)
Theorem schedule_in_order `{U : Unordered} `{M : Libm} cfg E s now : config_ok cfg -> global_queue cfg = false -> reachable cfg E s ->
  exists tr s', schedule_waiting cfg now s = Some (bool_decide (tr <> []), s') /\ resumes cfg now tr s s' /\
    forall t, settled cfg now t s'.
Proof.
  intros C Hg H%reachable_ok; [|done].
  destruct (schedule_rank_local_ok cfg C E False Hg now s (sched_inv cfg E now s H)) as (tr & s' & Hs & Hr & _ & _ & Hset).
  exists tr, s'. unfold schedule_waiting. by rewrite Hg.
Qed.

(** C7: in a scheduler with target queues (neither pool queues nor binding only)
    whose pools never share a target, a tick ends, as long as no deadline of a
    shared prefix runs past the range of the clock, and no program that could be
    resumed waits on.  Each program that still waits, in a pool that has targets,
    has been refused by its target: its engine has too many requests waiting, or
    the deadline for resuming the program has not passed and there are too many
    programs or too many tokens on the target. *)
Theorem tick_leaves_refused `{U : Unordered} `{M : Libm} cfg s now : config_ok cfg -> global_queue cfg = false ->
  binding_only cfg = false -> reachable cfg True s -> fits now s ->
  exists s', run_periodic_decisions cfg now s = Some s' /\
    tick cfg now s = Some (report_capacity_accounting_transitions cfg now s') /\
    forall r p d, live_program r (runtime s') = Some p -> decisions s' !! r = Some d -> rp_state p = Paused ->
      waiting_of r (runtime s') <> 0 -> pool_ids s' (ref_model_pool r) <> ∅ ->
      exists t, last_target d = Some t /\ refusal cfg now s' r d t.
Proof.
  intros C Hg Hb H%reachable_ok Hf; [|done]. unfold tick, run_periodic_decisions. rewrite Hb.
  assert (inv cfg True True now (s <| runtime ::= prune_released_generations now (N.max (paused_retention_ttl cfg) (from_secs 60)) |>)) as H0
    by (apply (same_programs_inv cfg True True now s); [apply prune_same|by split]).
  pose proof (expire_ok cfg True True now _ H0) as He. destruct (expire_acting_ttls cfg now _) as [[c1 s1]|]; [|by destruct He].
  cbn [mbind option_bind]. pose proof (release_expired_ok cfg True True now now s1 He) as H1.
  pose proof (repair_ok cfg True True now _ H1) as Hr. destruct (repair_capacity cfg now _) as [[c2 s2]|]; [|by destruct Hr].
  cbn [mbind option_bind]. destruct (schedule_rank_local_ok cfg C True True Hg now s2 Hr) as (tr & s3 & Hs & _ & _ & [H3 _] & Hset).
  unfold schedule_waiting. rewrite Hg, Hs. cbn [mbind option_bind]. exists s3. split_and!; [done|done|].
  by apply settled_refusal.
Qed.

(** C38: scheduling keeps the limits of the targets.  In every reachable state, with
    target queues or pool queues, [schedule_waiting] ends, and what it does is a
    sequence of admissions; each takes a program that waits to a target of its pool
    whose engine is not saturated at that moment, and, unless the deadline for
    resuming the program has passed, the target has room for one more program and
    its tokens, with those of the program, stay within the low watermark.  (A
    scheduler that is binding only admits a program when its request arrives,
    without looking at these limits, and does not schedule.) *)
Theorem admission_within_limits `{U : Unordered} `{M : Libm} cfg E s now : config_ok cfg -> reachable cfg E s ->
  exists tr s', schedule_waiting cfg now s = Some (bool_decide (tr <> []), s') /\ admissions cfg now tr s s'.
Proof.
  intros C H%reachable_ok; [|done].
  destruct (schedule_ok cfg C E False now s (sched_inv cfg E now s H)) as (tr & s' & Hs & Ha & _). by exists tr, s'.
Qed.

(** A program moves to another target only when that is better for it.  The
    target is of its pool, not the one it is bound to, admits the program and
    passes the guards, and of these targets none has fewer waiting requests, or
    as many and less load. *)
Theorem cross_rank_moves_to_best `{U : Unordered} cfg s r now : config_ok cfg ->
  exists o, select_cross_rank_admission cfg r now s = Some o /\
  forall t plan, o = Some (t, plan) -> exists d source, decisions s !! r = Some d /\ last_target d = Some source /\ t <> source /\
    t ∈ pool_ids s (ref_model_pool r) /\ rank_admission_plan cfg r t now s = Some (Some plan) /\
    forall t' plan', t' ∈ pool_ids s (ref_model_pool r) -> cross_rank_eligible cfg r d source t' now s = true ->
      rank_admission_plan cfg r t' now s = Some (Some plan') -> destination_cmp cfg now s (t, plan) (t', plan') <> Gt.
Proof.
  intros C. destruct (cross_rank_spec cfg C r now s) as (o & Ho & Hspec). exists o. split; [done|]. intros t plan Ht.
  destruct (Hspec t plan Ht) as (d & source & H1 & H2 & H3 & H4 & H5 & H6). exists d, source. split_and!; try done.
  unfold cross_rank_eligible in H5. rewrite !andb_true_iff in H5. by destruct H5 as [[[[?%bool_decide_eq_true _] _] _] _].
Qed.

(** The deadline for resuming a program is never later than the time after
    which its request gives up, whatever the estimates and the hints of the
    request say, and setting it touches no other program. *)
Theorem force_deadline_bounded `{U : Unordered} cfg s s' r t now d : set_force_resume_deadline cfg t r now s = Some s' ->
  decisions s !! r = Some d -> exists d' deadline, decisions s' !! r = Some d' /\ force_resume_deadline d' = Some deadline /\
    now <= deadline <= now + queue_timeout cfg /\ last_target d' = last_target d /\
    forall r', r' <> r -> decisions s' !! r' = decisions s !! r'.
Proof.
  intros H Hd. unfold set_force_resume_deadline in H. apply bind_Some in H as (estimate & _ & H). rewrite Hd in H.
  apply bind_Some in H as (deadline & Ha & [= <-]). eexists _, deadline. simpl. rewrite lookup_insert_eq. split_and!; try done.
  - unfold instant_add in Ha. destruct (_ <? _); [|done]. injection Ha as <-. lia.
  - unfold instant_add in Ha. destruct (_ <? _); [|done]. injection Ha as <-. lia.
  - intros r' Hr. by rewrite lookup_insert_ne.
Qed.



(** A target in two pools can strand a program.  Pools a and b list target t,
    where p runs and q waits, both of pool a.  When b no longer lists t, the
    queue of t is dropped although a still lists it: q waits for t and is in no
    queue.  It is not resumed when p has ended and t is idle, and not when its
    deadline has passed. *)
Theorem shared_target_strands_waiter : exists s,
  after [list_targets "a" 1 ["t"%string]; list_targets "b" 2 ["t"%string]; arrive "a" "p" 5; arrive "a" "q" 6;
    list_targets "b" 3 ["u"%string]] = Some s /\
  pool_ids s "a" = {["t"%string]} /\ (forall k, ref "a" "q" ∉ queue_at one_program s k) /\
  ('(dispatch, s) ← claim_dispatch (handle "a" "p" 1) 7 s;
   dispatch ← dispatch;
   s ← foldM (perform one_program) [Complete dispatch true true no_usage None 8; Tick (from_secs 1000)] s;
   Some (state (ref "a" "q") (runtime s), waiting_of (ref "a" "q") (runtime s), active_program_count "t" s))
  = Some (Some (Paused, Reasoning), 1, 0).
Proof.
  assert (forall s, bool_decide (map_Forall (fun _ q => ref "a" "q" ∉ q) (rank_queues s)) = true ->
    forall k, ref "a" "q" ∉ queue_at one_program s k) as Hnone.
  { intros s Hq%bool_decide_eq_true k. unfold queue_at. change (queue_map one_program s) with (rank_queues s).
    destruct (rank_queues s !! k) eqn:E; [exact (Hq k _ E)|apply not_elem_of_nil]. }
  exists (default (new_state one_program 0) (after [list_targets "a" 1 ["t"%string]; list_targets "b" 2 ["t"%string];
    arrive "a" "p" 5; arrive "a" "q" 6; list_targets "b" 3 ["u"%string]])).
  split_and!; [vm_compute; reflexivity|vm_compute; reflexivity|apply Hnone; vm_compute; reflexivity|vm_compute; reflexivity].
Qed.

(** A request for a pool without targets is refused but stays retained, and
    blocks the program.  Once the pool has a target, the next request of the
    program cannot be claimed although the program is placed there. *)
Theorem refused_request_blocks_program :
  (s ← after [list_targets "a" 1 []];
   '(res, s) ← acquire_locked one_program (program_identity "a" "p") 10 None 5 5 s;
   Some (res, waiting_of (ref "a" "p") (runtime s))) = Some (Err NoTargets, 1) /\
  (s ← after [list_targets "a" 1 []; arrive "a" "p" 5; list_targets "a" 2 ["t"%string]];
   '(res, s) ← acquire_locked one_program (program_identity "a" "p") 10 None 6 6 s;
   h ← (match res with Ok h => Some h | Err _ => None end);
   '(dispatch, _) ← claim_dispatch h 7 s;
   Some (placement (ref "a" "p") (runtime s), dispatch)) = Some (Some "t"%string, None).
Proof. split; vm_compute; reflexivity. Qed.

(** A client can make the scheduler panic.  A hint that asks to keep the cache
    for 2^63 seconds is a finite, non-negative number, and the completion of the
    request adds it to the clock. *)
Theorem retention_hint_panics :
  (s ← after [list_targets "a" 1 ["t"%string]; Acquire (hinted_identity "a" "p" (from_secs (2 ^ 63))) 10 None 5 5];
   '(dispatch, s) ← claim_dispatch (handle "a" "p" 1) 6 s;
   dispatch ← dispatch;
   Some (complete one_program dispatch true false no_usage None 7 s)) = Some None.
Proof. vm_compute. reflexivity. Qed.

(** ** Witnesses *)

Lemma one_program_ok : config_ok one_program.
Proof. split; [done|done|done]. Qed.

Lemma waiting_reachable E : reachable one_program E waiting_state.
Proof.
  apply (run_reachable one_program E "a" one_waits (new_state one_program 0)); [apply reach_new|]. vm_compute. reflexivity.
Qed.

Lemma waiting_fits : fits 9 waiting_state.
Proof.
  assert (map_Forall (fun _ d => shared_prefix_fresh_until d = None) (decisions waiting_state)) as H
    by (apply (bool_decide_unpack _); vm_compute; exact I).
  intros r d Hd until Hu. by rewrite (H r d Hd) in Hu.
Qed.

Lemma scheduler_consistent_witness :
  ref "a" "q" ∈ queue_at one_program waiting_state "t" /\
  exists p d, live_program (ref "a" "q") (runtime waiting_state) = Some p /\ decisions waiting_state !! ref "a" "q" = Some d /\
    rp_state p = Paused /\ waiting_of (ref "a" "q") (runtime waiting_state) <> 0 /\ queue_key one_program (ref "a" "q") d = Some "t"%string.
Proof.
  assert (ref "a" "q" ∈ queue_at one_program waiting_state "t") as Hq by (apply (bool_decide_unpack _); vm_compute; exact I).
  split; [exact Hq|].
  exact (proj2 (proj2 (proj2 (proj2 (proj2 (scheduler_consistent one_program False waiting_state one_program_ok (waiting_reachable False))))))
    "t"%string (ref "a" "q") Hq).
Defined.

Lemma no_waiter_lost_witness : exists k, forall k', ref "a" "q" ∈ queue_at one_program waiting_state k' <-> k' = k.
Proof.
  destruct (live_program (ref "a" "q") (runtime waiting_state)) as [p|] eqn:Hp; [|vm_compute in Hp; discriminate].
  destruct (decisions waiting_state !! ref "a" "q") as [d|] eqn:Hd; [|vm_compute in Hd; discriminate].
  destruct (no_waiter_lost one_program waiting_state (ref "a" "q") p d one_program_ok (waiting_reachable True) Hp Hd) as (k & _ & Hk).
  - vm_compute in Hp. injection Hp as <-. reflexivity.
  - vm_compute. discriminate.
  - apply (bool_decide_unpack _). vm_compute. exact I.
  - exists k. exact Hk.
Defined.

Lemma dispatch_to_listed_target_witness :
  exists dispatch s', claim_dispatch (handle "a" "p" 1) 7 waiting_state = Some (Some dispatch, s') /\
    d_target_id dispatch ∈ pool_ids waiting_state "a".
Proof.
  destruct (dispatch_to_listed_target one_program False waiting_state (handle "a" "p" 1) 7 one_program_ok (waiting_reachable False))
    as ([dispatch|] & s' & Hc & Hd).
  - exists dispatch, s'. split; [exact Hc|]. destruct (Hd dispatch eq_refl) as (_ & _ & H & _). exact H.
  - assert (fst <$> claim_dispatch (handle "a" "p" 1) 7 waiting_state <> Some None) as Hne by (vm_compute; discriminate).
    rewrite Hc in Hne. destruct (Hne eq_refl).
Defined.

Lemma schedule_in_order_witness : exists tr s', resumes one_program (from_secs 1000) tr waiting_state s' /\ tr <> [] /\
  forall t, settled one_program (from_secs 1000) t s'.
Proof.
  destruct (schedule_in_order one_program False waiting_state (from_secs 1000) one_program_ok eq_refl (waiting_reachable False))
    as (tr & s' & H1 & H2 & H3).
  exists tr, s'. split_and!; [exact H2| |exact H3]. apply (bool_decide_unpack _).
  assert (fst <$> schedule_waiting one_program (from_secs 1000) waiting_state = Some true) as Ht by (vm_compute; reflexivity).
  rewrite H1 in Ht. injection Ht as ->. exact I.
Defined.

Lemma tick_leaves_refused_witness : exists s', run_periodic_decisions one_program 9 waiting_state = Some s' /\
  forall r p d, live_program r (runtime s') = Some p -> decisions s' !! r = Some d -> rp_state p = Paused ->
    waiting_of r (runtime s') <> 0 -> pool_ids s' (ref_model_pool r) <> ∅ ->
    exists t, last_target d = Some t /\ refusal one_program 9 s' r d t.
Proof.
  destruct (tick_leaves_refused one_program waiting_state 9 one_program_ok eq_refl eq_refl (waiting_reachable True) waiting_fits)
    as (s' & H1 & _ & H2).
  exists s'. split; [exact H1|exact H2].
Defined.

Lemma admission_within_limits_witness : exists tr s', schedule_waiting one_program (from_secs 1000) waiting_state = Some (true, s') /\
  admissions one_program (from_secs 1000) tr waiting_state s' /\ tr <> [].
Proof.
  destruct (admission_within_limits one_program False waiting_state (from_secs 1000) one_program_ok (waiting_reachable False))
    as (tr & s' & H1 & H2).
  assert (fst <$> schedule_waiting one_program (from_secs 1000) waiting_state = Some true) as Ht by (vm_compute; reflexivity).
  rewrite H1 in Ht. injection Ht as Ht. exists tr, s'. split_and!; [by rewrite H1, Ht|exact H2|].
  apply (bool_decide_unpack _). rewrite Ht. exact I.
Defined.

Lemma cross_rank_moves_to_best_witness : exists o, select_cross_rank_admission one_program (ref "a" "q") 7 waiting_state = Some o.
Proof.
  destruct (cross_rank_moves_to_best one_program waiting_state (ref "a" "q") 7 one_program_ok) as (o & Ho & _). exists o. exact Ho.
Defined.

Lemma force_deadline_bounded_witness : exists s' d' deadline,
  set_force_resume_deadline one_program "t" (ref "a" "q") 7 waiting_state = Some s' /\ decisions s' !! ref "a" "q" = Some d' /\
  force_resume_deadline d' = Some deadline /\ 7 <= deadline <= 7 + from_secs 600.
Proof.
  destruct (set_force_resume_deadline one_program "t" (ref "a" "q") 7 waiting_state) as [s'|] eqn:Hs; [|vm_compute in Hs; discriminate].
  destruct (decisions waiting_state !! ref "a" "q") as [d|] eqn:Hd; [|vm_compute in Hd; discriminate].
  destruct (force_deadline_bounded one_program waiting_state s' (ref "a" "q") "t" 7 d Hs Hd) as (d' & deadline & H1 & H2 & H3 & _).
  exists s', d', deadline. split_and!; [reflexivity|exact H1|exact H2|exact (proj1 H3)|exact (proj2 H3)].
Defined.
