(* ===== verification/KvAware.v ===== *)
(** * The KV-aware policy ([src/policies/kv_aware.rs])

    A request goes to the worker for which the prompt tokens that are still to be
    computed, times the requests the worker would then have, are fewest.  The
    tokens a worker already holds are asked of the placement index of its cache
    identity.  The indexes are shared objects: a policy holds their addresses and
    a call passes the store of them on.  The slots are [KvSlots].  [None] is a
    panic of an index, or a call that draws more numbers than its environment
    holds. *)

From S2P Require Import Prelude Ieee FloatFacts FloatInt Factors KvTypes KvShard KvIndexer KvSlots Worker Policies.

Local Open Scope N_scope.
Local Open Scope update_scope.

(** ** Costs *)

Record TransferCredits := MkCredits { device : f64; host_pinned : f64; external : f64; disk : f64 }.

Definition default_credits : TransferCredits := MkCredits f1 (f64_dec 8 10) (f64_dec 6 10) (f64_dec 3 10).

Definition for_tier (c : TransferCredits) (tier : StorageTier) : f64 :=
  match tier with Device => device c | HostPinned => host_pinned c | External => external c | Disk => disk c end.

Definition credits_valid (c : TransferCredits) : bool :=
  SFeqb (device c) f1 && forallb (fun v => is_finite v && f64_le f0 v && f64_le v f1) [host_pinned c; external c; disk c].

Record CostParams := MkParams {
  router_temperature : f64;
  transfer_credits : TransferCredits;
  params_block_size : N;   (* u32 *)
}.

#[export] Instance CostParams_eta : Eta CostParams := fun p =>
  MkParams (router_temperature p) (transfer_credits p) (params_block_size p).

Definition default_params : CostParams := MkParams f0 default_credits 16.

Record CandidateView := MkView {
  view_target : RoutableTarget;
  view_matches : list TierMatch;
  view_load : SlotCounters;
  input_tokens : N;
}.

Record CostComponents := MkComponents { ptoken : N; batchsize : N }.

Record CostDecision := MkDecision {
  decision_target : RoutableTarget;
  cost : f64;
  components : CostComponents;
}.

Record KvSelectionReceipt := MkReceipt {
  worker_index : nat;
  new_prefill_tokens : N;
  receipt_decision : CostDecision;
}.

Inductive SelectionError := InvalidParams | CostLengthMismatch | NonFiniteCost.

(** The blocks that the device holds from the start of the prompt, without the
    block of the last token. *)
Definition device_blocks (c : CandidateView) (p : CostParams) : N :=
  let ends := snd <$> filter (fun seg => seg.1 = 0)
    (filter (fun hit => tm_tier hit = Device) (view_matches c) ≫= segments) in
  N.min (foldr N.max 0 ends)
    (N.min (if params_block_size p =? 0 then 0 else saturating_sub (input_tokens c) 1 / params_block_size p) u32_max).

(** The longest continuation of another tier, with the best credit. *)
Definition best_continuation (c : CandidateView) (p : CostParams) (blocks : N) : N * f64 :=
  foldl (fun best hit =>
    foldl (fun best seg =>
      if (seg.1 <=? blocks) && (blocks <? seg.2) then
        let n := seg.2 - blocks in
        let credit := for_tier (transfer_credits p) (tm_tier hit) in
        if (best.1 <? n) || ((n =? best.1) && float_gt credit best.2) then (n, credit) else best
      else best) best (segments hit))
    (0, f0) (filter (fun hit => tm_tier hit <> Device) (view_matches c)).

Definition credited_tokens (c : CandidateView) (p : CostParams) : f64 :=
  let blocks := device_blocks c p in
  let '(n, credit) := best_continuation c p blocks in
  let credited_blocks := f64_add (usize_as_f64 blocks) (f64_mul (usize_as_f64 n) credit) in
  f64_min (f64_mul credited_blocks (usize_as_f64 (params_block_size p))) (usize_as_f64 (saturating_sub (input_tokens c) 1)).

Definition request_prefill_tokens (c : CandidateView) (p : CostParams) : N :=
  f64_as_usize (f64_ceil (f64_max (f64_sub (usize_as_f64 (input_tokens c)) (credited_tokens c p)) f0)).

Definition cost_components (c : CandidateView) (p : CostParams) : CostComponents :=
  MkComponents (u64_saturating_add (request_prefill_tokens c p) (active_prefill_tokens (view_load c)))
    (active_requests (view_load c)).

Definition params_valid (p : CostParams) : bool :=
  negb (params_block_size p =? 0) && is_finite (router_temperature p) && negb (f64_lt (router_temperature p) f0)
  && credits_valid (transfer_credits p).

(** [components.ptoken as f64 * projected_batchsize as f64] *)
Definition contribution (c : CandidateView) (p : CostParams) : f64 :=
  let k := cost_components c p in f64_mul (usize_as_f64 (ptoken k)) (usize_as_f64 (u64_saturating_add (batchsize k) 1)).

(** The loop of the scorer. *)
Fixpoint add_costs (cs : list CandidateView) (p : CostParams) (costs : list f64) : result (list f64) SelectionError :=
  match cs, costs with
  | c :: cs, x :: costs =>
      let y := contribution c p in
      if negb (is_finite y) then Err NonFiniteCost
      else
        let x := f64_add x y in
        if negb (is_finite x) then Err NonFiniteCost
        else match add_costs cs p costs with Ok costs => Ok (x :: costs) | Err e => Err e end
  | _, _ => Ok costs
  end.

(** The trait [Scorer] and its one implementation. *)
Inductive Scorer := MultiplicativeScorer.

Definition score (s : Scorer) (cs : list CandidateView) (p : CostParams) (costs : list f64)
  : result (list f64) SelectionError :=
  if negb (length cs =? length costs)%nat then Err CostLengthMismatch
  else if negb (params_valid p) then Err InvalidParams
  else add_costs cs p costs.

(** ** Picking *)

Record TemperaturePicker := MkPicker { temperature : f64 }.

Definition least_cost (costs : list f64) : option nat :=
  fst <$> min_by (fun l r => total_cmp l.2 r.2) (imap pair costs).

(** The weight under which the draw falls; the last when none is. *)
Fixpoint pick_weight (i : nat) (draw : f64) (weights : list f64) : option nat :=
  match weights with
  | [] => None
  | w :: weights => if f64_lt draw w then Some i else pick_weight (S i) (f64_sub draw w) weights
  end.

(** [random::<f64>()]: 53 random bits. *)
Definition random_f64 (draw : nat) : f64 := f64_div (usize_as_f64 (N.of_nat draw mod 2 ^ 53)) (usize_as_f64 (2 ^ 53)).

(** The outer [None] is a missing draw. *)
Definition pick `{Libm} (p : TemperaturePicker) (e : Env) (costs : list f64) : option (option nat) :=
  if bool_decide (costs = []) || negb (forallb is_finite costs) then Some None
  else if f64_le (temperature p) f0 || negb (is_finite (temperature p)) then Some (least_cost costs)
  else
    match costs with
    | [] => Some None
    | c :: rest =>
        let least := foldl f64_min c rest in
        let weights := (fun x => exp (f64_div (f64_neg (f64_sub x least)) (temperature p))) <$> costs in
        let sum := f64_sum weights in
        if negb (is_finite sum) || f64_le sum f0 then Some (least_cost costs)
        else
          draw ← head (draws e);
          Some (Some (default (length costs - 1)%nat (pick_weight 0 (f64_mul (random_f64 draw) sum) weights)))
    end.

(** ** The policy *)

(** [CacheKey] and [WorkerKvInfo] of [src/kv_index/discovery.rs] *)
Record CacheKey := MkCacheKey { key_model : string; key_hash_mode : HashMode; key_block_size : N }.

#[export] Instance HashMode_eq_dec : EqDecision HashMode.
Proof. solve_decision. Defined.

#[export] Instance HashMode_countable : Countable HashMode.
Proof.
  refine (inj_countable' (fun m => match m with PythonHashSeed => 0 | Sha256 => 1 | XxhashCbor => 2 end)
    (fun n => match n with 0 => PythonHashSeed | 1 => Sha256 | _ => XxhashCbor end) _).
  by intros [].
Defined.

#[export] Instance CacheKey_eq_dec : EqDecision CacheKey.
Proof. solve_decision. Defined.

#[export] Instance CacheKey_countable : Countable CacheKey.
Proof.
  refine (inj_countable' (fun k => (key_model k, key_hash_mode k, key_block_size k)) (fun '(m, h, b) => MkCacheKey m h b) _).
  by intros [].
Defined.

Record WorkerKvInfo := MkKvInfo {
  info_instance_id : string;
  info_block_size : option N;
  info_ranks : list N;
  info_cache_key : option CacheKey;
}.

(** [Arc<dyn TieredMatchProvider>]: [None] is the [EmptyMatchProvider]. *)
Class TieredMatchProvider (P : Type) := find_tiered_matches : MatchQuery -> P -> option (list TierMatch * P).

#[export] Instance indexer_provider : TieredMatchProvider KvBlockIndexer := find_matches.

Record TargetBinding := MkBinding {
  binding_target : RoutableTarget;
  binding_key : option CacheKey;
  binding_matches : option nat;
  binding_block_size : N;
}.

Record KvAwarePolicy := MkKvAware {
  policy_matches : option nat;
  slots : InMemorySlotManager;       (* load, and slot_manager when it is there *)
  has_slot_manager : bool;
  scorers : list Scorer;
  picker : TemperaturePicker;
  policy_params : CostParams;
  kv_targets : gmap string TargetBinding;
}.

#[export] Instance KvAwarePolicy_eta : Eta KvAwarePolicy := fun p =>
  MkKvAware (policy_matches p) (slots p) (has_slot_manager p) (scorers p) (picker p) (policy_params p) (kv_targets p).

Definition new_kv_aware (params : CostParams) : KvAwarePolicy :=
  MkKvAware None ∅ true [MultiplicativeScorer] (MkPicker (router_temperature params)) params ∅.

Definition with_components (matches : option nat) (load : InMemorySlotManager) (ss : list Scorer) (pk : TemperaturePicker)
    (params : CostParams) : KvAwarePolicy :=
  MkKvAware matches load false ss pk params ∅.

Definition register_target (worker_url : string) (t : RoutableTarget) (p : KvAwarePolicy) : KvAwarePolicy :=
  p <| kv_targets ::= <[worker_url := MkBinding t None (policy_matches p) (params_block_size (policy_params p))]> |>.

Definition register_target_with_cache_identity (worker_url : string) (t : RoutableTarget) (key : CacheKey) (matches : option nat)
    (p : KvAwarePolicy) : KvAwarePolicy :=
  p <| kv_targets ::= <[worker_url := MkBinding t (Some key) matches (key_block_size key)]> |>.

Definition unregister_target (worker_url : string) (p : KvAwarePolicy) : KvAwarePolicy :=
  match kv_targets p !! worker_url with
  | Some b =>
      let p := p <| kv_targets ::= delete worker_url |> in
      if has_slot_manager p then p <| slots ::= slot_unregister_target (binding_target b) |> else p
  | None => p
  end.

Definition as_u32_rank (rank : option N) : N := default 0 rank mod u32_mod.

Definition default_target (w : AnyWorker) : RoutableTarget := KvTypes.MkTarget (base_url w) (as_u32_rank (dp_rank w)).

Definition target_for_worker (w : AnyWorker) (p : KvAwarePolicy) : RoutableTarget :=
  from_option binding_target (default_target w) (kv_targets p !! url w).

Definition binding_for_worker (p : KvAwarePolicy) (w : AnyWorker) : TargetBinding :=
  default (MkBinding (default_target w) None (policy_matches p) (params_block_size (policy_params p))) (kv_targets p !! url w).

Definition register_worker (w : AnyWorker) (info : WorkerKvInfo) (matches : option nat) (p : KvAwarePolicy) : KvAwarePolicy :=
  let t := KvTypes.MkTarget (info_instance_id info) (as_u32_rank (dp_rank w)) in
  match info_cache_key info, matches with
  | Some key, Some a => register_target_with_cache_identity (url w) t key (Some a) p
  | _, _ => register_target (url w) t p
  end.

Definition begin_request (r : KvSelectionReceipt) (p : KvAwarePolicy) : option KvRequestSlot * KvAwarePolicy :=
  if has_slot_manager p then
    let t := decision_target (receipt_decision r) in
    (Some (MkSlot t (new_prefill_tokens r) InPrefill), p <| slots ::= begin_prefill t (new_prefill_tokens r) |>)
  else (None, p).

(** The parameters with the block size of a worker. *)
Definition params_of (p : KvAwarePolicy) (b : TargetBinding) : CostParams :=
  (policy_params p) <| params_block_size := binding_block_size b |>.

(** ** Selection *)

Section select.
Context `{U : HashOrder} `{M : Libm} {P : Type} `{TieredMatchProvider P}.
Context (sha256 : list byte -> list byte).

Definition find_at (provider : option nat) (q : MatchQuery) (store : gmap nat P) : option (list TierMatch * gmap nat P) :=
  match provider with
  | None => Some ([], store)
  | Some a =>
      ix ← store !! a;
      '(ms, ix) ← find_tiered_matches q ix;
      Some (ms, <[a := ix]> store)
  end.

Definition tiers : list StorageTier := [Device; HostPinned; External; Disk].

(** One round of the loop over the bindings: the matches of a cache identity are
    asked for once. *)
Definition match_identity (token_ids : option (list N)) (lora_name : option string) (placement : bool) (b : TargetBinding)
    (st : gmap (option CacheKey) (list TierMatch) * gmap nat P) : option (gmap (option CacheKey) (list TierMatch) * gmap nat P) :=
  let '(found, store) := st in
  match found !! binding_key b with
  | Some _ => Some st
  | None =>
      let hashes := if placement
                    then from_option (fun ids => local_block_hash_strings sha256 ids (binding_block_size b) lora_name) [] token_ids
                    else [] in
      '(ms, store) ← match hashes with
                     | [] => Some ([], store)
                     | _ => find_at (binding_matches b) {| group_idx := 0; local_hashes := hashes; tiers_of_interest := tiers |} store
                     end;
      Some (<[binding_key b := ms]> found, store)
  end.

Definition matches_by_identity (token_ids : option (list N)) (lora_name cache_salt : option string) (bindings : list TargetBinding)
    (store : gmap nat P) : option (gmap (option CacheKey) (list TierMatch) * gmap nat P) :=
  let placement := from_option (fun salt => bool_decide (salt = EmptyString)) true cache_salt in
  foldM (match_identity token_ids lora_name placement) bindings (∅, store).

(** What the scorers see of a worker. *)
Definition candidate (found : gmap (option CacheKey) (list TierMatch)) (p : KvAwarePolicy) (tokens : N) (b : TargetBinding)
    (w : AnyWorker) : CandidateView :=
  let sampled := sample (binding_target b) (slots p) in
  MkView (binding_target b) (filter (fun hit => tm_target hit = binding_target b) (default [] (found !! binding_key b)))
    (MkCounters (active_prefill_tokens sampled) (N.max (active_requests sampled) (load w))) tokens.

Fixpoint run_scorers (ss : list Scorer) (cs : list CandidateView) (params : CostParams) (costs : list f64) : option (list f64) :=
  match ss with
  | [] => Some costs
  | s :: ss => match score s cs params costs with Ok costs => run_scorers ss cs params costs | Err _ => None end
  end.

(** The costs and components of the candidates of one cache identity; [None] is
    the early return of [?]. *)
Definition score_identity (p : KvAwarePolicy) (bindings : list TargetBinding) (candidates : list CandidateView)
    (indices : list nat) (st : list (f64 * CostComponents)) : option (list (f64 * CostComponents)) :=
  first ← head indices;
  b ← bindings !! first;
  let params := params_of p b in
  cs ← mapM (fun i => candidates !! i) indices;
  costs ← run_scorers (scorers p) cs params (replicate (length cs) f0);
  Some (foldl (fun st ix => <[ix.1 := (ix.2.1, cost_components ix.2.2 params)]> st) st (zip indices (zip costs cs))).

(** [indices_by_identity] *)
Definition group_indices (ibs : list (nat * TargetBinding)) : gmap (option CacheKey) (list nat) :=
  foldl (fun m ib => <[binding_key ib.2 := default [] (m !! binding_key ib.2) ++ [ib.1]]> m) ∅ ibs.

(** Its values, in the order in which the map is visited. *)
Definition identities (bindings : list TargetBinding) : list (list nat) :=
  snd <$> iter (group_indices (imap pair bindings)).

(** Equal costs of zero are decided by the load. *)
Definition pick_idle (token_ids : option (list N)) (scored : list (f64 * CostComponents)) : option nat :=
  let idle := filter (fun ic => SFeqb ic.2.1 f0 = true) (imap pair scored) in
  fst <$> match token_ids with
          | None => min_by_key (fun ic => batchsize ic.2.2) idle
          | Some _ => min_by (fun l r => then_with (ptoken l.2.2 ?= ptoken r.2.2) (batchsize l.2.2 ?= batchsize r.2.2)) idle
          end.

Definition pick_scored (e : Env) (p : KvAwarePolicy) (token_ids : option (list N)) (scored : list (f64 * CostComponents))
  : option (option nat) :=
  let costs := scored.*1 in
  if forallb (fun c => SFeqb c f0) costs
     || (f64_le (router_temperature (policy_params p)) f0 && existsb (fun c => SFeqb c f0) costs)
  then Some (pick_idle token_ids scored)
  else pick (picker p) e costs.

Definition select_worker_with_receipt (e : Env) (ws : list AnyWorker) (token_ids : option (list N)) (lora_name cache_salt : option string)
    (p : KvAwarePolicy) (store : gmap nat P) : option (option KvSelectionReceipt * list AnyWorker * gmap nat P) :=
  let '(healthy, ws) := get_healthy_worker_indices (now e) ws in
  match healthy with
  | [] => Some (None, ws, store)
  | _ =>
      workers ← mapM (fun i => ws !! i) healthy;
      let bindings := binding_for_worker p <$> workers in
      '(found, store) ← matches_by_identity token_ids lora_name cache_salt bindings store;
      let tokens := from_option (fun ids => N.of_nat (length ids)) 0 token_ids in
      let candidates := zip_with (candidate found p tokens) bindings workers in
      match foldM (score_identity p bindings candidates) (identities bindings) (replicate (length candidates) (f0, MkComponents 0 0)) with
      | None => Some (None, ws, store)
      | Some scored =>
          picked ← pick_scored e p token_ids scored;
          Some (i ← picked;
                index ← healthy !! i;
                b ← bindings !! i;
                c ← candidates !! i;
                '(cost, k) ← scored !! i;
                Some (MkReceipt index
                  (request_prefill_tokens c (params_of p b))
                  (MkDecision (binding_target b) cost k)),
                ws, store)
      end
  end.

Definition select_worker_with_token_ids (e : Env) (ws : list AnyWorker) (token_ids : option (list N)) (p : KvAwarePolicy)
    (store : gmap nat P) : option (option nat * list AnyWorker * gmap nat P) :=
  '(r, ws, store) ← select_worker_with_receipt e ws token_ids None None p store;
  Some (fmap (M:=option) worker_index r, ws, store).

Definition decision_for (e : Env) (ws : list AnyWorker) (token_ids : option (list N)) (p : KvAwarePolicy) (store : gmap nat P)
  : option (option CostDecision * list AnyWorker * gmap nat P) :=
  '(r, ws, store) ← select_worker_with_receipt e ws token_ids None None p store;
  Some (fmap (M:=option) receipt_decision r, ws, store).

(** Without token ids no index is asked. *)
Definition kv_aware_policy : LoadBalancingPolicy KvAwarePolicy := {|
  select_worker_with_headers e ws _ _ p :=
    '(r, ws, _) ← select_worker_with_token_ids e ws None p ∅;
    Some (r, ws, p);
  name _ := "kv_aware";
  needs_request_text _ := false;
  needs_headers _ := false;
  update_loads _ p := p;
  reset p := p;
|}.
End select.

(** ** The contract *)

(** What happens to a policy between two selections.  The requests in flight may
    leave the slots in any state. *)
Inductive kv_op :=
| OpRegister (w : AnyWorker) (info : WorkerKvInfo) (matches : option nat)
| OpUnregister (worker_url : string)
| OpBegin (r : KvSelectionReceipt)
| OpSlots (s : InMemorySlotManager).

Definition kv_step (o : kv_op) (p : KvAwarePolicy) : KvAwarePolicy :=
  match o with
  | OpRegister w info matches => register_worker w info matches p
  | OpUnregister worker_url => unregister_target worker_url p
  | OpBegin r => (begin_request r p).2
  | OpSlots s => p <| slots := s |>
  end.

Definition kv_run (ops : list kv_op) (p : KvAwarePolicy) : KvAwarePolicy := foldl (fun p o => kv_step o p) p ops.

(** Discovery takes a block size of zero for a missing one. *)
Definition op_ready (o : kv_op) : Prop :=
  match o with OpRegister _ info _ => from_option (fun k => 0 < key_block_size k < u32_mod) True (info_cache_key info) | _ => True end.

(** Workers of one cache identity have one block size. *)
Definition binding_ok (params : CostParams) (b : TargetBinding) : Prop :=
  binding_block_size b = from_option key_block_size (params_block_size params) (binding_key b) /\ 0 < binding_block_size b < u32_mod.

Definition policy_ok (params : CostParams) (p : KvAwarePolicy) : Prop :=
  policy_params p = params /\ scorers p = [MultiplicativeScorer] /\ picker p = MkPicker (router_temperature params) /\
  forall u b, kv_targets p !! u = Some b -> binding_ok params b.

(** What the policy sees of a worker, given the matches that were found. *)
Definition view_of (found : gmap (option CacheKey) (list TierMatch)) (p : KvAwarePolicy) (token_ids : option (list N)) (w : AnyWorker)
  : CandidateView :=
  candidate found p (from_option (fun ids => N.of_nat (length ids)) 0 token_ids) (binding_for_worker p w) w.

Definition row_of (found : gmap (option CacheKey) (list TierMatch)) (p : KvAwarePolicy) (token_ids : option (list N)) (w : AnyWorker)
  : f64 * CostComponents :=
  let c := view_of found p token_ids w in
  let params := params_of p (binding_for_worker p w) in
  (contribution c params, cost_components c params).

(** The work that the request would join: tokens to prefill times requests. *)
Definition work (k : CostComponents) : N := ptoken k * (batchsize k + 1).

(** [l] is no worse than [r]: a lower cost in the order of floats, and of the
    workers with nothing to prefill the one with fewer requests. *)
Definition no_worse (l r : f64 * CostComponents) : Prop :=
  total_cmp l.1 r.1 <> Gt /\ (ptoken l.2 = 0 -> ptoken r.2 = 0 -> batchsize l.2 <= batchsize r.2).

(** The available workers. *)
Definition available (healthy : list nat) (ws : list AnyWorker) : list AnyWorker := omap (fun i => ws !! i) healthy.

Definition params_ready (params : CostParams) : Prop := params_valid params = true /\ params_block_size params < u32_mod.

(** Indices of candidates of one block size. *)
Definition group_ok (bindings : list TargetBinding) (candidates : list CandidateView) (js : list nat) : Prop :=
  js <> [] /\ exists n, n <> 0 /\ forall i, i ∈ js -> exists b c, bindings !! i = Some b /\ candidates !! i = Some c /\ binding_block_size b = n.

(** A row as the scorer prices it. *)
Definition priced (row : f64 * CostComponents) : Prop := exists c p, row = (contribution c p, cost_components c p).

(** The indexes after their histories. *)
Definition built (history : gmap nat (list ix_op)) (store : gmap nat KvBlockIndexer) : Prop :=
  forall a ops, history !! a = Some ops -> ix_trace_ok ops empty_ix_abs /\
    exists ix, store !! a = Some ix /\ foldM ix_step ops new_indexer = Some ix.

(** The indexes hold what their histories say. *)
Definition indexes_ok (history : gmap nat (list ix_op)) (store : gmap nat KvBlockIndexer) : Prop :=
  forall a ops, history !! a = Some ops -> ix_trace_ok ops empty_ix_abs /\
    exists ix, store !! a = Some ix /\ ix_implements ix (ix_abs_run ops empty_ix_abs).

Definition query_of (sha256 : list byte -> list byte) (ids : list N) (lora_name : option string) (b : TargetBinding) : MatchQuery :=
  {| group_idx := 0; local_hashes := local_block_hash_strings sha256 ids (binding_block_size b) lora_name; tiers_of_interest := tiers |}.

(** What the index of a worker says of a prompt: [k] blocks from its start are on
    the device, and no other tier holds a part of it. *)
Definition device_prefix (a : IxAbs) (q : MatchQuery) (t : RoutableTarget) (k : nat) : Prop :=
  visible a t /\ (forall d, (d < k)%nat -> exists o, target_holds a q t Device d o) /\ (forall o, ~ target_holds a q t Device k o) /\
  forall tier d o, target_holds a q t tier d o -> tier = Device.

(** The answer of an index to a query. *)
Definition answers (history : gmap nat (list ix_op)) (sha256 : list byte -> list byte) (ids : list N) (lora_name : option string)
    (b : TargetBinding) (ms : list TierMatch) : Prop :=
  forall adr ops, binding_matches b = Some adr -> history !! adr = Some ops ->
  let a := ix_abs_run ops empty_ix_abs in let q := query_of sha256 ids lora_name b in
  exists ms0, ms = filter (fun hit => visible a (tm_target hit)) ms0 /\ answer_ok (group_abs a 0) q ms0.

(** The matches that the bindings so far were given. *)
Definition placed (history : gmap nat (list ix_op)) (sha256 : list byte -> list byte) (ids : list N) (lora_name : option string)
    (bs : list TargetBinding) (st : gmap (option CacheKey) (list TierMatch) * gmap nat KvBlockIndexer) : Prop :=
  indexes_ok history st.2 /\
  forall k ms, st.1 !! k = Some ms -> exists b, b ∈ bs /\ binding_key b = k /\ answers history sha256 ids lora_name b ms.

(** ** Scores *)

Lemma product_cases a b : a < u64_mod -> 0 < b < u64_mod ->
  (f64_mul (usize_as_f64 a) (usize_as_f64 b) = f0 /\ a = 0) \/
  exists m e, f64_mul (usize_as_f64 a) (usize_as_f64 b) = S754_finite false m e /\ (-52 <= e)%Z /\ 0 < a.
Proof.
  intros Ha [Hb Hb']. destruct (mul_usize_finite a b Ha Hb') as [[H1 [H2|H2]]|H]; [left; split; assumption| |right; assumption].
  rewrite H2 in Hb. by apply N.lt_irrefl in Hb.
Qed.

Lemma saturating_bound a b : u64_saturating_add a b < u64_mod.
Proof. unfold u64_saturating_add, u64_max, u64_mod. lia. Qed.

Lemma contribution_cases c p : (contribution c p = f0 /\ ptoken (cost_components c p) = 0) \/
  exists m e, contribution c p = S754_finite false m e /\ (-52 <= e)%Z /\ 0 < ptoken (cost_components c p).
Proof.
  refine (product_cases (ptoken (cost_components c p)) (u64_saturating_add (batchsize (cost_components c p)) 1) _ _).
  - apply saturating_bound.
  - split; [|apply saturating_bound]. unfold u64_saturating_add, u64_max, u64_mod. lia.
Qed.

(** The key of a cost is not negative, and zero only when the cost is. *)
Lemma key_nonneg c p : (0 <= f64_key (contribution c p))%Z.
Proof.
  destruct (contribution_cases c p) as [[-> _]|(m & e & -> & He & _)]; [done|].
  unfold f64_key, f64_magnitude. cbn [is_negative]. case_match; lia.
Qed.

Lemma add_costs_ok cs p : add_costs cs p (replicate (length cs) f0) = Ok ((fun c => contribution c p) <$> cs).
Proof.
  induction cs as [|c cs IH]; [done|]. simpl. rewrite IH.
  by destruct (contribution_cases c p) as [[-> _]|(m & e & -> & _)].
Qed.

Lemma valid_block_size p n : n <> 0 -> params_valid p = true -> params_valid (p <| params_block_size := n |>) = true.
Proof. unfold params_valid. intros Hn. simpl. destruct (N.eqb_spec n 0); [done|]. by destruct (_ =? 0). Qed.

Lemma run_scorers_ok cs p : params_valid p = true ->
  run_scorers [MultiplicativeScorer] cs p (replicate (length cs) f0) = Some ((fun c => contribution c p) <$> cs).
Proof. intros Hp. simpl. unfold score. by rewrite length_replicate, Nat.eqb_refl, Hp, add_costs_ok. Qed.

(** ** The groups of indices *)

Lemma group_indices_spec ibs :
  (forall k js, group_indices ibs !! k = Some js -> js <> [] /\ forall i, i ∈ js -> exists b, (i, b) ∈ ibs /\ binding_key b = k) /\
  (forall i b, (i, b) ∈ ibs -> exists js, group_indices ibs !! binding_key b = Some js /\ i ∈ js).
Proof.
  induction ibs as [|[i b] ibs [H1 H2]] using rev_ind; [split; [by intros ? ? ?|by intros ? ? ?%elem_of_nil]|].
  unfold group_indices. rewrite foldl_snoc. fold (group_indices ibs). cbn [fst snd]. split.
  - intros k js. rewrite lookup_insert. destruct (decide (binding_key b = k)) as [<-|].
    + intros [= <-]. split; [by destruct (default _ _)|]. intros j [Hj| ->%list_elem_of_singleton]%elem_of_app.
      * destruct (group_indices ibs !! binding_key b) as [js0|] eqn:E; simpl in Hj; [|by apply elem_of_nil in Hj].
        destruct (proj2 (H1 _ _ E) j Hj) as (b' & ? & ?). exists b'. rewrite elem_of_app. auto.
      * exists b. rewrite elem_of_app. split; [right; by left|done].
    + intros E. destruct (H1 _ _ E) as [? H]. split; [done|]. intros j Hj. destruct (H j Hj) as (b' & ? & ?). exists b'. rewrite elem_of_app. auto.
  - intros j b' [Hj|[= -> ->]%list_elem_of_singleton]%elem_of_app.
    + destruct (H2 _ _ Hj) as (js & E & ?). rewrite lookup_insert. destruct (decide (binding_key b = binding_key b')) as [Eq|]; [|eauto].
      eexists. split; [done|]. rewrite Eq, E. simpl. apply elem_of_app. by left.
    + rewrite lookup_insert, decide_True by done. eexists. split; [done|]. apply elem_of_app. right. by left.
Qed.

(** ** The loop over the identities *)

Section rows.
Context (p : KvAwarePolicy) (bindings : list TargetBinding) (candidates : list CandidateView) (val : nat -> f64 * CostComponents).
Hypothesis Hscorers : scorers p = [MultiplicativeScorer].
Hypothesis Hvalid : params_valid (policy_params p) = true.
Hypothesis Hval : forall i b c, bindings !! i = Some b -> candidates !! i = Some c ->
  val i = (contribution c (params_of p b), cost_components c (params_of p b)).

Lemma fill_rows params js cs st :
  Forall2 (fun i c => val i = (contribution c params, cost_components c params)) js cs ->
  let st' := foldl (fun st ix => <[ix.1 := (ix.2.1, cost_components ix.2.2 params)]> st) st
    (zip js (zip ((fun c => contribution c params) <$> cs) cs)) in
  length st' = length st /\ forall i, (i < length st)%nat -> i ∈ js \/ st !! i = Some (val i) -> st' !! i = Some (val i).
Proof.
  intros H. revert st. induction H as [|j c js cs E _ IH]; intros st; simpl.
  { split; [done|]. by intros i _ [?%elem_of_nil|]. }
  destruct (IH (<[j := (contribution c params, cost_components c params)]> st)) as [Hl H]. rewrite length_insert in Hl, H.
  split; [done|]. intros i Hi Hin. apply H; [done|]. rewrite <- E. destruct (decide (i = j)) as [->|].
  - right. by rewrite list_lookup_insert_eq.
  - rewrite list_lookup_insert_ne by done. rewrite elem_of_cons in Hin. naive_solver.
Qed.

Lemma score_identity_ok js st : group_ok bindings candidates js -> exists st', score_identity p bindings candidates js st = Some st' /\
  length st' = length st /\ forall i, (i < length st)%nat -> i ∈ js \/ st !! i = Some (val i) -> st' !! i = Some (val i).
Proof.
  intros (Hne & n & Hn & H). unfold score_identity. destruct js as [|j js]; [done|]. cbn [head mbind option_bind].
  destruct (H j) as (b & c & Hb & _ & Ebs); [left|]. rewrite Hb. cbn [mbind option_bind].
  assert (is_Some (mapM (fun i => candidates !! i) (j :: js))) as [cs Hcs].
  { apply mapM_is_Some, Forall_forall. intros i Hi. destruct (H i Hi) as (? & ? & ? & ? & ?). eauto. }
  rewrite Hcs. cbn [mbind option_bind]. rewrite Hscorers, run_scorers_ok by (apply valid_block_size; [by rewrite Ebs|done]).
  cbn [mbind option_bind]. eexists. split; [done|]. apply fill_rows. apply mapM_Some in Hcs.
  rewrite Forall2_lookup in Hcs |- *. intros k. specialize (Hcs k). destruct ((j :: js) !! k) as [i|] eqn:Hi; inversion Hcs as [? c' Hc'|]; constructor.
  apply list_elem_of_lookup_2 in Hi. destruct (H i Hi) as (b' & c'' & Hb' & _ & Ebs').
  rewrite (Hval i b' c' Hb' Hc'). unfold params_of. by rewrite Ebs, Ebs'.
Qed.

Lemma score_identities_ok l st : Forall (group_ok bindings candidates) l -> exists st', foldM (score_identity p bindings candidates) l st = Some st' /\
  length st' = length st /\
  forall i, (i < length st)%nat -> (exists js, js ∈ l /\ i ∈ js) \/ st !! i = Some (val i) -> st' !! i = Some (val i).
Proof.
  intros H. revert st. induction H as [|js l Hjs _ IH]; intros st; simpl.
  { exists st. split_and!; [done|done|]. intros i _ [(js & ?%elem_of_nil & _)|]; done. }
  destruct (score_identity_ok js st Hjs) as (st1 & -> & Hl1 & H1). cbn [mbind option_bind].
  destruct (IH st1) as (st2 & -> & Hl2 & H2). exists st2. rewrite Hl1 in Hl2, H2. split_and!; [done|done|]. intros i Hi Hin. apply H2; [done|].
  destruct Hin as [(js' & [->|?]%elem_of_cons & ?)|?]; [right; auto|left; eauto|right; auto].
Qed.
End rows.

(** ** The pick *)

Lemma priced_zero row : priced row -> SFeqb row.1 f0 = true <-> ptoken row.2 = 0.
Proof.
  intros (c & p & ->). cbn [fst snd]. destruct (contribution_cases c p) as [[-> ->]|(m & e & -> & _ & H)]; [done|].
  split; [done|]. intros E. rewrite E in H. by apply N.lt_irrefl in H.
Qed.

Lemma priced_zero_least row row' : priced row -> priced row' -> SFeqb row.1 f0 = true -> total_cmp row.1 row'.1 <> Gt.
Proof.
  intros (c & p & ->) (c' & p' & ->). cbn [fst snd]. pose proof (key_nonneg c' p') as H.
  destruct (contribution_cases c p) as [[-> _]|(m & e & -> & _ & _)]; [|done]. intros _. unfold total_cmp.
  change (f64_key f0) with 0%Z. rewrite Z.compare_gt_iff. lia.
Qed.

Lemma priced_finite row : priced row -> is_finite row.1 = true.
Proof. intros (c & p & ->). cbn [fst]. by destruct (contribution_cases c p) as [[-> _]|(m & e & -> & _ & _)]. Qed.

Lemma idle_order_total : total_order (fun l r : nat * (f64 * CostComponents) =>
  then_with (ptoken l.2.2 ?= ptoken r.2.2) (batchsize l.2.2 ?= batchsize r.2.2)).
Proof. apply total_then; [exact (total_key (fun x => ptoken x.2.2) _ N_total)|exact (total_key (fun x => batchsize x.2.2) _ N_total)]. Qed.

Lemma min_by_some {A} (cmp : A -> A -> comparison) l x : x ∈ l -> exists m, min_by cmp l = Some m.
Proof. destruct l; [by intros ?%elem_of_nil|]. simpl. eauto. Qed.

Lemma elem_of_imap_pair {A} (l : list A) i x : (i, x) ∈ imap pair l <-> l !! i = Some x.
Proof.
  rewrite elem_of_lookup_imap. split; [by intros (? & ? & [= -> ->] & ?)|]. intros H. by exists i, x.
Qed.

Section pick.
Context `{M : Libm} (e : Env) (p : KvAwarePolicy) (tokens : option (list N)) (scored : list (f64 * CostComponents)).
Hypothesis Htemp : f64_le (router_temperature (policy_params p)) f0 = true.
Hypothesis Hpicker : picker p = MkPicker (router_temperature (policy_params p)).
Hypothesis Hpriced : Forall priced scored.

Lemma idle_elem i row : (i, row) ∈ filter (fun ic => SFeqb ic.2.1 f0 = true) (imap pair scored) <->
  SFeqb row.1 f0 = true /\ scored !! i = Some row.
Proof. by rewrite list_elem_of_filter, elem_of_imap_pair. Qed.

Lemma pick_idle_ok j row : scored !! j = Some row -> SFeqb row.1 f0 = true ->
  exists i r, pick_idle tokens scored = Some i /\ scored !! i = Some r /\ SFeqb r.1 f0 = true /\
    forall k r', scored !! k = Some r' -> SFeqb r'.1 f0 = true -> batchsize r.2 <= batchsize r'.2.
Proof.
  intros Hj Hz. pose proof (proj2 (idle_elem j row) (conj Hz Hj)) as Hin. unfold pick_idle. rewrite Forall_lookup in Hpriced.
  destruct tokens.
  - destruct (min_by_some (fun l r : nat * (f64 * CostComponents) =>
      then_with (ptoken l.2.2 ?= ptoken r.2.2) (batchsize l.2.2 ?= batchsize r.2.2)) _ _ Hin) as [[i r] Hm].
    rewrite Hm. apply (min_by_spec _ _ idle_order_total) in Hm as [Hr Hm]. apply idle_elem in Hr as [Hr1 Hr2].
    exists i, r. split_and!; [done|done|done|]. intros k r' Hk Hk'. specialize (Hm (k, r') (proj2 (idle_elem k r') (conj Hk' Hk))).
    cbn [fst snd] in Hm. rewrite (proj1 (priced_zero r (Hpriced _ _ Hr2)) Hr1), (proj1 (priced_zero r' (Hpriced _ _ Hk)) Hk') in Hm. exact Hm.
  - destruct (min_by_some (fun l r : nat * (f64 * CostComponents) => batchsize l.2.2 ?= batchsize r.2.2) _ _ Hin) as [[i r] Hm].
    unfold min_by_key. rewrite Hm. apply min_by_key_spec in Hm as [Hr Hm]. apply idle_elem in Hr as [Hr1 Hr2].
    exists i, r. split_and!; [done|done|done|]. intros k r' Hk Hk'. exact (Hm (k, r') (proj2 (idle_elem k r') (conj Hk' Hk))).
Qed.

Lemma pick_scored_ok : scored <> [] -> exists i row, pick_scored e p tokens scored = Some (Some i) /\ scored !! i = Some row /\
  forall j row', scored !! j = Some row' -> no_worse row row'.
Proof.
  intros Hne. unfold pick_scored. rewrite Htemp. cbn [andb]. pose proof Hpriced as Hp. rewrite Forall_lookup in Hp.
  destruct (existsb (fun c => SFeqb c f0) scored.*1) eqn:Ez; rewrite ?orb_true_r.
  - apply existsb_exists in Ez as (c & Hc & Hz). apply list_elem_of_In, list_elem_of_fmap in Hc as (row & -> & [j Hj]%list_elem_of_lookup_1).
    destruct (pick_idle_ok j row Hj Hz) as (i & r & -> & Hi & Hiz & Hmin). exists i, r. split_and!; [done|done|]. intros k r' Hk.
    split; [apply priced_zero_least; eauto|]. intros _ H0. apply (Hmin k r' Hk), priced_zero; eauto.
  - assert (forall j row, scored !! j = Some row -> SFeqb row.1 f0 <> true) as Hnz.
    { intros j row Hj Hz. apply not_true_iff_false in Ez. apply Ez, existsb_exists. exists row.1.
      split; [|done]. apply list_elem_of_In, list_elem_of_fmap_2. by apply list_elem_of_lookup_2 in Hj. }
    destruct scored as [|row0 rows] eqn:Es; [done|]. cbn [fmap list_fmap forallb].
    destruct (SFeqb row0.1 f0) eqn:E0; [by destruct (Hnz 0%nat row0 eq_refl)|]. cbn [andb orb]. rewrite Hpicker. unfold pick.
    replace (forallb is_finite _) with true.
    2:{ symmetry. apply forallb_forall. intros c Hc. change (row0.1 :: rows.*1) with (row0 :: rows).*1 in Hc.
        apply list_elem_of_In, list_elem_of_fmap in Hc as (r & -> & [k Hk]%list_elem_of_lookup_1). apply priced_finite. eauto. }
    cbn [temperature]. rewrite Htemp. cbn [bool_decide orb negb decide]. rewrite bool_decide_false by done. cbn [orb]. unfold least_cost.
    change (row0.1 :: rows.*1) with (row0 :: rows).*1. destruct (min_by_some (fun l r : nat * f64 => total_cmp l.2 r.2) (imap pair (row0 :: rows).*1) (0%nat, row0.1)) as [[i c] Hm].
    { by apply elem_of_imap_pair. }
    rewrite Hm. apply (min_by_spec _ _ (total_key snd _ total_cmp_total)) in Hm as [Hi Hm].
    apply elem_of_imap_pair in Hi. rewrite list_lookup_fmap in Hi. destruct ((row0 :: rows) !! i) as [row|] eqn:Hrow; [|done].
    injection Hi as <-. exists i, row. split_and!; [done|done|]. intros k r' Hk. split.
    + apply (Hm (k, r'.1)), elem_of_imap_pair. by rewrite list_lookup_fmap, Hk.
    + intros Hr. apply priced_zero in Hr; [|by eauto]. by destruct (Hnz _ _ Hrow).
Qed.
End pick.

(** ** The policy *)

Section policy.
Context (params : CostParams) (Hready : params_ready params).

Lemma params_block_size_valid : 0 < params_block_size params < u32_mod.
Proof.
  destruct Hready as [Hv Hs]. split; [|done]. unfold params_valid in Hv.
  destruct (N.eqb_spec (params_block_size params) 0); [done|lia].
Qed.

Lemma new_policy_ok : policy_ok params (new_kv_aware params).
Proof. split_and!; [done..|]. intros u b H. simpl in H. by rewrite lookup_empty in H. Qed.

Lemma kv_step_ok o p : op_ready o -> policy_ok params p -> policy_ok params (kv_step o p).
Proof.
  intros Ho (Hp & Hs & Hk & Hb). destruct o as [w info matches|u|r|s]; simpl in *.
  - unfold register_worker, register_target_with_cache_identity, register_target.
    destruct (info_cache_key info) as [key|], matches as [a|]; split_and!; try done; simpl.
    all: intros u b; rewrite lookup_insert; destruct (decide (url w = u)); [intros [= <-]|by eauto]; split; cbn; rewrite ?Hp; auto using params_block_size_valid.
  - unfold unregister_target. destruct (kv_targets p !! u) as [b|]; [|done].
    assert (forall u' b', delete u (kv_targets p) !! u' = Some b' -> binding_ok params b') as Hd by (intros u' b' [_ H]%lookup_delete_Some; eauto).
    cbn. destruct (has_slot_manager p); by split_and!.
  - unfold begin_request. by destruct (has_slot_manager p).
  - done.
Qed.

Lemma kv_run_ok ops p : Forall op_ready ops -> policy_ok params p -> policy_ok params (kv_run ops p).
Proof. intros H. revert p. induction H as [|o ops Ho _ IH]; intros p Hp; [done|]. simpl. by apply IH, kv_step_ok. Qed.

Lemma binding_for_ok p w : policy_ok params p -> binding_ok params (binding_for_worker p w).
Proof.
  intros (Hp & _ & _ & Hb). unfold binding_for_worker. destruct (kv_targets p !! url w) as [b|] eqn:E; [by eauto|].
  split; cbn; rewrite Hp; auto using params_block_size_valid.
Qed.
End policy.

Lemma target_binding p w : binding_target (binding_for_worker p w) = target_for_worker w p.
Proof. unfold target_for_worker, binding_for_worker. by destruct (kv_targets p !! url w). Qed.

Lemma available_spec e ws : let '(healthy, ws') := get_healthy_worker_indices (now e) ws in
  Forall2 (fun i w => ws' !! i = Some w) healthy (available healthy ws').
Proof.
  pose proof (healthy_elem (now e) ws) as Hel. pose proof (healthy_workers_after (now e) ws) as Haft.
  destruct (get_healthy_worker_indices (now e) ws) as [healthy ws']. simpl in Hel, Haft. subst ws'.
  assert (forall i, i ∈ healthy -> is_Some (((fun w => (is_available (now e) w).2) <$> ws) !! i)) as H.
  { intros i (w & Hw & _)%Hel. rewrite list_lookup_fmap, Hw. by eexists. }
  clear Hel. unfold available. induction healthy as [|i healthy IH]; [constructor|]. destruct (H i) as [w Hw]; [left|].
  cbn [omap list_omap]. rewrite Hw. constructor; [done|]. apply IH. intros j Hj. apply H. by right.
Qed.

Section selected.
Context `{U : HashOrder} `{M : Libm} {P : Type} `{TieredMatchProvider P} (sha256 : list byte -> list byte).
Context (params : CostParams) (p : KvAwarePolicy) (Hready : params_ready params) (Hp : policy_ok params p).

Lemma groups_ok ws (cs : list CandidateView) : length cs = length ws ->
  Forall (group_ok (binding_for_worker p <$> ws) cs) (identities (binding_for_worker p <$> ws)).
Proof.
  intros Hl. apply Forall_forall. intros js ([k js'] & -> & Hk%elem_of_iter)%list_elem_of_fmap. cbn [snd].
  destruct (group_indices_spec (imap pair (binding_for_worker p <$> ws))) as [HA _]. destruct (HA _ _ Hk) as [Hne Hj].
  assert (forall i, i ∈ js' -> exists w, ws !! i = Some w /\ binding_key (binding_for_worker p w) = k) as Hi.
  { intros i Hi. destruct (Hj i Hi) as (b & E%elem_of_imap_pair & Ek). rewrite list_lookup_fmap in E.
    destruct (ws !! i) as [w|]; [|done]. injection E as <-. eauto. }
  split; [done|]. exists (from_option key_block_size (params_block_size params) k). split.
  - destruct js' as [|i js']; [done|]. destruct (Hi i) as (w & _ & <-); [left|]. pose proof (binding_for_ok params Hready p w Hp) as [<- Hz]. lia.
  - intros i Hin. destruct (Hi i Hin) as (w & Hw & <-). pose proof (binding_for_ok params Hready p w Hp) as [Hb _].
    destruct (lookup_lt_is_Some_2 cs i) as [c Hc]; [rewrite Hl; by eapply lookup_lt_Some|].
    exists (binding_for_worker p w), c. by rewrite list_lookup_fmap, Hw.
Qed.

Lemma index_grouped (bs : list TargetBinding) i : (i < length bs)%nat -> exists js, js ∈ identities bs /\ i ∈ js.
Proof.
  intros [b Hb]%lookup_lt_is_Some_2. destruct (group_indices_spec (imap pair bs)) as [_ HA].
  destruct (HA i b) as (js & E & ?); [by apply elem_of_imap_pair|]. exists js. split; [|done].
  apply list_elem_of_fmap. exists (binding_key b, js). split; [done|]. by apply elem_of_iter.
Qed.

(** The scores are the rows of the workers. *)
Lemma scored_ok found tokens ws :
  let bs := binding_for_worker p <$> ws in
  let cs := zip_with (candidate found p (from_option (fun ids => N.of_nat (length ids)) 0 tokens)) bs ws in
  foldM (score_identity p bs cs) (identities bs) (replicate (length cs) (f0, MkComponents 0 0)) = Some (row_of found p tokens <$> ws).
Proof.
  intros bs cs. destruct Hp as (Hpp & Hs & _ & _).
  assert (length cs = length ws) as Hl by (unfold cs, bs; rewrite length_zip_with, length_fmap; lia).
  pose (val i := from_option (row_of found p tokens) (f0, MkComponents 0 0) (ws !! i)).
  destruct (score_identities_ok p bs cs val Hs) with (l := identities bs) (st := replicate (length cs) (f0, MkComponents 0 0))
    as (st & E & Hlen & Hst).
  - by rewrite Hpp, (proj1 Hready).
  - intros i b c Eb Ec. unfold cs, bs in Eb, Ec. unfold val. rewrite list_lookup_fmap in Eb. rewrite lookup_zip_with, list_lookup_fmap in Ec.
    destruct (ws !! i) as [w|]; [|done]. simpl in *. injection Eb as <-. by injection Ec as <-.
  - by apply groups_ok.
  - rewrite E. f_equal. rewrite length_replicate in Hlen, Hst. apply list_eq. intros i. rewrite list_lookup_fmap.
    destruct (ws !! i) as [w|] eqn:Hw.
    + pose proof (lookup_lt_Some _ _ _ Hw). rewrite Hst; [unfold val; by rewrite Hw|lia|].
      left. apply index_grouped. unfold bs. by rewrite length_fmap.
    + apply lookup_ge_None in Hw. simpl. apply lookup_ge_None. lia.
Qed.

Lemma kv_select_ok e ws tokens lora salt store healthy ws' found store' :
  f64_le (router_temperature params) f0 = true ->
  get_healthy_worker_indices (now e) ws = (healthy, ws') -> healthy <> [] -> let hws := available healthy ws' in
  matches_by_identity sha256 tokens lora salt (binding_for_worker p <$> hws) store = Some (found, store') ->
  exists i index w, select_worker_with_receipt sha256 e ws tokens lora salt p store =
      Some (Some (MkReceipt index (request_prefill_tokens (view_of found p tokens w) (params_of p (binding_for_worker p w)))
        (MkDecision (target_for_worker w p) (row_of found p tokens w).1 (row_of found p tokens w).2)), ws', store') /\
    healthy !! i = Some index /\ hws !! i = Some w /\ forall j w', hws !! j = Some w' -> no_worse (row_of found p tokens w) (row_of found p tokens w').
Proof.
  intros Ht Hh Hne hws Hm. pose proof (available_spec e ws) as Hws. rewrite Hh in Hws. cbn [fst snd] in Hws. fold hws in Hws. clearbody hws. unfold select_worker_with_receipt. rewrite Hh. destruct healthy as [|h0 hs] eqn:Eh; [done|]. rewrite <- Eh in *.
  rewrite (proj2 (mapM_Some _ _ _) Hws). cbn [mbind option_bind]. rewrite Hm. cbn [mbind option_bind]. rewrite scored_ok.
  destruct Hp as (Hpp & _ & Hpick & _).
  destruct (pick_scored_ok e p tokens (row_of found p tokens <$> hws)) as (i & row & -> & Hi & Hbest).
  - by rewrite Hpp.
  - by rewrite Hpp.
  - apply Forall_fmap, Forall_forall. intros w _. by eexists _, _.
  - rewrite Eh in Hws. by inversion Hws.
  - rewrite list_lookup_fmap in Hi. destruct (hws !! i) as [w|] eqn:Hw; [|done]. injection Hi as <-.
    destruct (Forall2_lookup_r _ _ _ _ _ Hws Hw) as (index & Hindex & _). exists i, index, w.
    cbn [mbind option_bind]. rewrite Hindex. cbn [mbind option_bind]. rewrite lookup_zip_with, !list_lookup_fmap, Hw. cbn.
    split_and!; [|done|done|].
    + rewrite target_binding. reflexivity.
    + intros j w' Hj. apply (Hbest j). by rewrite list_lookup_fmap, Hj.
Qed.
End selected.

(** ** Placement *)

Lemma chunks_fuel_length {A} fuel size (l : list A) : (length (chunks_fuel fuel size l) <= fuel)%nat.
Proof. revert l. induction fuel as [|fuel IH]; intros [|x l]; simpl; [lia|lia|lia|]. specialize (IH (drop size (x :: l))). lia. Qed.

Lemma hash_count sha256 ids bs lora : (length (local_block_hash_strings sha256 ids bs lora) <= length ids)%nat.
Proof.
  unfold local_block_hash_strings, local_block_hashes. rewrite length_fmap. destruct (bs =? 0); [simpl; lia|].
  rewrite length_fmap. apply chunks_fuel_length.
Qed.

Lemma find_at_ok history store adr ops q : indexes_ok history store -> history !! adr = Some ops ->
  N.of_nat (length (local_hashes q)) < u32_mod -> let a := ix_abs_run ops empty_ix_abs in
  exists ms store', find_at (Some adr) q store = Some (filter (fun hit => visible a (tm_target hit)) ms, store') /\
    indexes_ok history store' /\ answer_ok (group_abs a (group_idx q)) q ms.
Proof.
  intros Hs Ha Hq a. destruct (Hs _ _ Ha) as (Htr & ix & Hix & Himp). destruct (find_matches_result q ix _ Himp Hq) as (ms & ix' & E & Himp' & Hans).
  exists ms, (<[adr := ix']> store). split_and!; [|intros adr' ops' Ha'|done].
  - unfold find_at. rewrite Hix. cbn [mbind option_bind]. unfold find_tiered_matches, indexer_provider. by rewrite E.
  - destruct (Hs _ _ Ha') as (? & ix2 & ? & ?). split; [done|]. rewrite lookup_insert. destruct (decide (adr = adr')) as [<-|]; [|by eauto].
    exists ix'. split; [done|]. rewrite Ha in Ha'. by injection Ha' as <-.
Qed.

(** An empty prompt has no blocks. *)
Lemma answers_empty history sha256 ids lora b : local_block_hash_strings sha256 ids (binding_block_size b) lora = [] ->
  answers history sha256 ids lora b [].
Proof.
  intros E adr ops _ _ a q. exists []. split; [done|]. split.
  - by intros m ?%elem_of_nil.
  - intros d o tier _ Hd. unfold q, query_of in Hd. cbn [local_hashes] in Hd. rewrite E in Hd. simpl in Hd. lia.
  - constructor.
Qed.

Lemma placed_start history sha256 ids lora bs store : built history store -> placed history sha256 ids lora bs (∅, store).
Proof.
  intros H. split; [|intros k ms E; cbn [fst] in E; by rewrite lookup_empty in E]. intros a ops Ha.
  destruct (H a ops Ha) as (Htr & ix & Hix & Hrun). split; [done|]. exists ix. split; [done|].
  destruct (ix_run_ok ops _ _ new_indexer_ok Htr) as (ix' & Hrun' & Himp). rewrite Hrun in Hrun'. by injection Hrun' as <-.
Qed.

Lemma prefix_bound a q t k : device_prefix a q t k -> (k <= length (local_hashes q))%nat.
Proof. intros (_ & H & _). destruct k as [|k]; [lia|]. destruct (H k) as (o & ? & _); [lia|]. lia. Qed.

Section placement.
Context (history : gmap nat (list ix_op)) (sha256 : list byte -> list byte) (ids : list N) (lora : option string).
Hypothesis Hids : N.of_nat (length ids) < u32_mod.

Lemma match_identity_ok bs b st : b ∈ bs -> (forall adr, binding_matches b = Some adr -> is_Some (history !! adr)) -> placed history sha256 ids lora bs st ->
  exists st', match_identity sha256 (Some ids) lora true b st = Some st' /\ placed history sha256 ids lora bs st' /\
    is_Some (st'.1 !! binding_key b) /\ forall k, is_Some (st.1 !! k) -> is_Some (st'.1 !! k).
Proof.
  intros Hb Hadr [Hs Hf]. destruct st as [found store]. cbn [fst snd] in *. unfold match_identity.
  destruct (found !! binding_key b) as [ms|] eqn:E; [by exists (found, store)|]. cbn [from_option].
  assert (exists ms store', match local_block_hash_strings sha256 ids (binding_block_size b) lora with
    | [] => Some ([], store) | _ => find_at (binding_matches b) (query_of sha256 ids lora b) store end = Some (ms, store') /\
    indexes_ok history store' /\ answers history sha256 ids lora b ms) as (ms & store' & Em & Hs' & Hans).
  { destruct (local_block_hash_strings sha256 ids (binding_block_size b) lora) as [|h hs] eqn:Eh; [exists [], store; eauto using answers_empty|].
    destruct (binding_matches b) as [adr|] eqn:Ea; [|exists [], store; split_and!; [done|done|]; intros ? ? Ha; by rewrite Ea in Ha].
    destruct (Hadr adr eq_refl) as [ops Hops]. destruct (find_at_ok history store adr ops (query_of sha256 ids lora b)) as (ms & store' & Ef & ? & ?); [done|done| |].
    { unfold query_of. cbn [local_hashes]. pose proof (hash_count sha256 ids (binding_block_size b) lora). lia. }
    eexists _, store'. split_and!; [exact Ef|done|]. intros adr' ops' Ha' Ho'. rewrite Ea in Ha'. injection Ha' as <-. rewrite Hops in Ho'. injection Ho' as <-. eauto. }
  unfold query_of in Em. rewrite Em. cbn [mbind option_bind]. eexists. split; [done|]. cbn [fst snd]. split_and!.
  - split; [done|]. cbn [fst]. intros k ms'. rewrite lookup_insert. destruct (decide (binding_key b = k)) as [<-|]; [intros [= <-]; eauto|eauto].
  - by rewrite lookup_insert_eq.
  - intros k Hk. rewrite lookup_insert. by destruct (decide _).
Qed.

Lemma matches_ok bs todo st : (forall b, b ∈ todo -> b ∈ bs /\ forall adr, binding_matches b = Some adr -> is_Some (history !! adr)) -> placed history sha256 ids lora bs st ->
  exists st', foldM (match_identity sha256 (Some ids) lora true) todo st = Some st' /\ placed history sha256 ids lora bs st' /\
    (forall b, b ∈ todo -> is_Some (st'.1 !! binding_key b)) /\ forall k, is_Some (st.1 !! k) -> is_Some (st'.1 !! k).
Proof.
  revert st. induction todo as [|b todo IH]; intros st Hin Hst; simpl.
  { exists st. split_and!; [done|done|by intros ? ?%elem_of_nil|done]. }
  destruct (Hin b) as [Hb Hadr]; [left|]. destruct (match_identity_ok bs b st Hb Hadr Hst) as (st1 & -> & Hst1 & Hk1 & Hm1). cbn [mbind option_bind].
  destruct (IH st1) as (st2 & -> & Hst2 & Hk2 & Hm2); [intros b' ?; apply Hin; by right|done|]. exists st2. split_and!; [done|done| |auto].
  intros b' [->|]%elem_of_cons; auto.
Qed.
End placement.

(** ** Prefill *)

Lemma separated_gap lo segs s e : separated lo segs -> (s, e) ∈ segs -> forall s' e', (s', e') ∈ segs -> ~ (s' <= e < e').
Proof.
  revert lo. induction segs as [|[a b] segs IH]; intros lo Hs Hin; [by apply elem_of_nil in Hin|].
  destruct Hs as (H1 & H2 & H3). assert (forall lo s e, separated lo segs -> (s, e) ∈ segs -> lo <= s < e) as Hlow.
  { clear. induction segs as [|[a b] segs IH]; intros lo s e; [by intros _ ?%elem_of_nil|].
    intros (? & ? & Hs) [[= -> ->]|Hin]%elem_of_cons; [lia|]. specialize (IH _ _ _ Hs Hin). lia. }
  intros s' e' [[= -> ->]|Hin']%elem_of_cons; apply elem_of_cons in Hin as [[= -> ->]|Hin].
  - lia.
  - specialize (Hlow _ _ _ H3 Hin). lia.
  - specialize (Hlow _ _ _ H3 Hin'). lia.
  - by apply (IH _ H3 Hin).
Qed.

Lemma foldr_max_const k l : (forall x, x ∈ l -> x = k) -> l <> [] -> foldr N.max 0 l = k.
Proof.
  intros H Hne. assert (foldr N.max 0 l <= k) as Hle.
  { clear Hne. induction l as [|x l IH]; simpl; [lia|]. rewrite (H x) by left. assert (foldr N.max 0 l <= k) by (apply IH; intros; apply H; by right). lia. }
  destruct l as [|x l]; [done|]. simpl in *. rewrite (H x) in * by left. lia.
Qed.

Section prefill.
Context (history : gmap nat (list ix_op)) (sha256 : list byte -> list byte) (ids : list N) (lora : option string) (b : TargetBinding).
Context (ms : list TierMatch) (adr : nat) (ops : list ix_op) (k : nat).
Hypothesis Hans : answers history sha256 ids lora b ms.
Hypothesis Hadr : binding_matches b = Some adr.
Hypothesis Hops : history !! adr = Some ops.
Hypothesis Hprefix : device_prefix (ix_abs_run ops empty_ix_abs) (query_of sha256 ids lora b) (binding_target b) k.

Lemma hit_facts m : m ∈ filter (fun hit => tm_target hit = binding_target b) ms ->
  tm_tier m = Device /\ forall e, (0, e) ∈ segments m -> e = N.of_nat k.
Proof.
  destruct (Hans _ _ Hadr Hops) as (ms0 & -> & [Hrows _ _]). destruct Hprefix as (_ & Hlow & Hhigh & Honly).
  intros [Ht [_ Hm]%list_elem_of_filter]%list_elem_of_filter. destruct (Hrows m Hm) as (_ & Hne & Hsep & Hd & _).
  assert (forall d, in_segments d (segments m) <-> exists o, target_holds (ix_abs_run ops empty_ix_abs) (query_of sha256 ids lora b) (binding_target b) (tm_tier m) d o) as Hin.
  { intros d. rewrite Hd, Ht. unfold target_holds. cbn [group_idx query_of]. naive_solver. }
  assert (tm_tier m = Device) as Htier.
  { destruct (segments m) as [|[s e] segs] eqn:Es; [done|]. destruct (proj1 (Hin (N.to_nat s))) as [o Ho]; [|by apply (Honly _ _ _ Ho)].
    exists s, e. split; [left|]. destruct Hsep as (_ & ? & _). lia. }
  split; [done|]. intros e He. rewrite Htier in Hin. apply N.le_antisymm.
  - apply N.le_ngt. intros Hlt. destruct (proj1 (Hin k)) as [o Ho]; [|by apply (Hhigh o)]. exists 0, e. split; [done|lia].
  - apply N.le_ngt. intros Hlt. destruct (proj2 (Hin (N.to_nat e))) as (s' & e' & He' & Hb'); [apply Hlow; lia|].
    rewrite N2Nat.id in Hb'. by apply (separated_gap 0 _ 0 e Hsep He s' e').
Qed.

Lemma hit_exists : (0 < k)%nat -> exists m e, m ∈ filter (fun hit => tm_target hit = binding_target b) ms /\ (0, e) ∈ segments m.
Proof.
  intros Hk. destruct (Hans _ _ Hadr Hops) as (ms0 & -> & [Hrows Hcompl _]). destruct Hprefix as (Hvis & Hlow & _ & _).
  destruct (Hlow 0%nat Hk) as (o & Hlen & Ho & Hh). destruct (Hcompl 0%nat o Device) as (m & Hm & Et & Etier); [left|done|done|].
  destruct (Hrows m Hm) as (_ & _ & _ & Hd & _). destruct (proj2 (Hd 0%nat)) as (s & e & Hse & Hs).
  { split; [done|]. exists o. by rewrite Etier. }
  exists m, e. replace s with 0 in Hse by lia. split; [|done]. rewrite !list_elem_of_filter, Et, Ho. done.
Qed.

Lemma device_blocks_exact load n params : N.of_nat k < u32_mod -> params_block_size params <> 0 ->
  device_blocks (MkView (binding_target b) (filter (fun hit => tm_target hit = binding_target b) ms) load n) params
    = N.min (N.of_nat k) ((n - 1) / params_block_size params).
Proof.
  intros Hk Hbs. unfold device_blocks. cbn [view_matches input_tokens]. rewrite (proj2 (N.eqb_neq _ _) Hbs). unfold saturating_sub.
  set (ends := snd <$> _). assert (foldr N.max 0 ends = N.of_nat k) as ->; [|unfold u32_max, u32_mod in *; lia].
  assert (forall x, x ∈ ends -> x = N.of_nat k) as Hends.
  { intros x ([s e] & -> & [Hs (m & Hse & [_ Hm]%list_elem_of_filter)%list_elem_of_bind]%list_elem_of_filter)%list_elem_of_fmap.
    cbn [fst snd] in *. subst s. by apply (proj2 (hit_facts m Hm)). }
  destruct (decide (k = 0%nat)) as [->|Hk0].
  - clear -Hends. induction ends as [|x l IH]; [done|]. simpl. rewrite (Hends x) by left. rewrite IH; [done|]. intros y Hy. apply Hends. by right.
  - apply foldr_max_const; [done|]. destruct hit_exists as (m & e & Hm & He); [lia|]. intros E.
    assert (e ∈ ends) as Hin; [|rewrite E in Hin; by apply elem_of_nil in Hin]. apply list_elem_of_fmap. exists (0, e). split; [done|]. rewrite list_elem_of_filter, list_elem_of_bind. split; [done|].
    exists m. split; [done|]. rewrite list_elem_of_filter. split; [by apply hit_facts|done].
Qed.

Lemma prefill_exact load n params : N.of_nat k < u32_mod -> 0 < params_block_size params < u32_mod -> n < 2 ^ 53 ->
  request_prefill_tokens (MkView (binding_target b) (filter (fun hit => tm_target hit = binding_target b) ms) load n) params
    = n - params_block_size params * N.min (N.of_nat k) ((n - 1) / params_block_size params).
Proof.
  intros Hk Hbs Hn. unfold request_prefill_tokens, credited_tokens. rewrite device_blocks_exact by lia.
  unfold best_continuation. cbn [view_matches input_tokens]. replace (filter _ (filter _ ms)) with (@nil TierMatch).
  2:{ symmetry. apply elem_of_nil_inv. intros m [Hm1 Hm2]%list_elem_of_filter. by apply Hm1, hit_facts. }
  cbn [foldl]. set (d := N.min _ _). set (bs := params_block_size params) in *. assert (d * bs <= n - 1 /\ d < u32_mod) as [Hd1 Hd2].
  { pose proof (N.Div0.mul_div_le (n - 1) bs). assert (d <= (n - 1) / bs) by (unfold d; lia). unfold d in *. nia. }
  unfold saturating_sub, u32_mod in *. change f0 with (usize_as_f64 0). rewrite mul_int, N.mul_0_l, add_int, N.add_0_r by lia.
  rewrite mul_int, min_int, sub_int, max_zero_int, ceil_int, as_usize_int by lia. lia.
Qed.
End prefill.

(** Below [2 ^ 53] the cost is the work. *)
Lemma row_work found p tokens w : let r := row_of found p tokens w in work r.2 < 2 ^ 53 -> r.1 = usize_as_f64 (work r.2).
Proof.
  intros r. unfold r, row_of. cbn [fst snd]. set (c := view_of _ _ _ _). set (params := params_of _ _). intros Hw.
  destruct (contribution_cases c params) as [[-> E]|(m & e & _ & _ & Hpos)].
  { unfold work. by rewrite E, N.mul_0_l. }
  unfold contribution, work in *. set (k := cost_components c params) in *. assert (ptoken k <= ptoken k * (batchsize k + 1)) by nia.
  assert (batchsize k + 1 <= ptoken k * (batchsize k + 1)) by nia.
  replace (u64_saturating_add (batchsize k) 1) with (batchsize k + 1) by (unfold u64_saturating_add, u64_max, u64_mod; lia).
  apply mul_int; lia.
Qed.

Lemma no_worse_work found p tokens w w' : let r := row_of found p tokens w in let r' := row_of found p tokens w' in
  no_worse r r' -> work r.2 < 2 ^ 53 -> work r'.2 < 2 ^ 53 -> work r.2 <= work r'.2.
Proof. intros r r' [H _] Hr Hr'. unfold r, r' in *. rewrite (row_work _ _ _ _ Hr), (row_work _ _ _ _ Hr'), total_int in H by done. exact H. Qed.

(** ** Properties *)

(** C12: whatever workers were registered and removed and whatever requests are in
    flight, a policy of temperature zero always selects a worker when one is
    available, the indexes answering; the worker it selects is available, and no
    other available worker has a lower cost (tokens to prefill, those of the
    request and those in flight, times the requests with this one), nor, when
    nothing is to be prefilled, fewer requests.  Where floats are exact the work is
    the least as a number.  The receipt has the target, the cost and the tokens
    with which the worker was scored. *)
Theorem cheapest_selected `{U : HashOrder} `{M : Libm} {P : Type} `{TieredMatchProvider P} sha256 ops params e ws tokens lora salt store healthy ws' found store' :
  params_ready params -> f64_le (router_temperature params) f0 = true -> Forall op_ready ops ->
  get_healthy_worker_indices (now e) ws = (healthy, ws') -> healthy <> [] ->
  let p := kv_run ops (new_kv_aware params) in
  matches_by_identity sha256 tokens lora salt (binding_for_worker p <$> available healthy ws') store = Some (found, store') ->
  exists r w, select_worker_with_receipt sha256 e ws tokens lora salt p store = Some (Some r, ws', store') /\
    worker_index r ∈ healthy /\ ws' !! worker_index r = Some w /\
    receipt_decision r = MkDecision (target_for_worker w p) (row_of found p tokens w).1 (row_of found p tokens w).2 /\
    new_prefill_tokens r = request_prefill_tokens (view_of found p tokens w) (params_of p (binding_for_worker p w)) /\
    forall w', w' ∈ available healthy ws' -> no_worse (row_of found p tokens w) (row_of found p tokens w') /\
      (work (row_of found p tokens w).2 < 2 ^ 53 -> work (row_of found p tokens w').2 < 2 ^ 53 ->
       work (row_of found p tokens w).2 <= work (row_of found p tokens w').2).
Proof.
  intros Hready Ht Hops Hh Hne p Hm. pose proof (kv_run_ok params Hready ops _ Hops (new_policy_ok params)) as Hp.
  destruct (kv_select_ok sha256 params p Hready Hp e ws tokens lora salt store healthy ws' found store' Ht Hh Hne Hm)
    as (i & index & w & Hsel & Hi & Hw & Hbest).
  pose proof (available_spec e ws) as Hav. rewrite Hh in Hav. destruct (Forall2_lookup_r _ _ _ _ _ Hav Hw) as (index' & Hi' & Hw').
  rewrite Hi in Hi'. injection Hi' as <-. eexists _, w. split; [exact Hsel|]. cbn [worker_index receipt_decision new_prefill_tokens].
  split_and!; [by eapply list_elem_of_lookup_2|done|done|done|]. intros w' [j Hj]%list_elem_of_lookup_1.
  pose proof (Hbest j w' Hj) as Hn. split; [done|]. by apply no_worse_work.
Qed.

(** C13: the matches are exact.  Whatever the placement indexes were told, a request
    that is not salted is answered by each of them; and for every worker of which its
    index says that the device holds exactly [k] blocks from the start of the
    prompt, and no other tier any, the tokens to prefill are those of the prompt
    without these blocks, but never without the block of the last token. *)
Theorem placement_exact sha256 ops params history store ids lora salt ws :
  params_ready params -> Forall op_ready ops -> built history store -> N.of_nat (length ids) < u32_mod ->
  from_option (fun s => s = ""%string) True salt ->
  let p := kv_run ops (new_kv_aware params) in
  (forall w adr, w ∈ ws -> binding_matches (binding_for_worker p w) = Some adr -> is_Some (history !! adr)) ->
  (forall w w', w ∈ ws -> w' ∈ ws -> binding_key (binding_for_worker p w) = binding_key (binding_for_worker p w') ->
    binding_matches (binding_for_worker p w) = binding_matches (binding_for_worker p w')) ->
  exists found store', matches_by_identity sha256 (Some ids) lora salt (binding_for_worker p <$> ws) store = Some (found, store') /\
    forall w adr ixops k, w ∈ ws -> binding_matches (binding_for_worker p w) = Some adr -> history !! adr = Some ixops ->
      device_prefix (ix_abs_run ixops empty_ix_abs) (query_of sha256 ids lora (binding_for_worker p w)) (target_for_worker w p) k ->
      let n := N.of_nat (length ids) in let size := binding_block_size (binding_for_worker p w) in
      request_prefill_tokens (view_of found p (Some ids) w) (params_of p (binding_for_worker p w))
        = n - size * N.min (N.of_nat k) ((n - 1) / size).
Proof.
  intros Hready Hops Hbuilt Hids Hsalt p Hadr Hone. pose proof (kv_run_ok params Hready ops _ Hops (new_policy_ok params)) as Hp. fold p in Hp.
  destruct (matches_ok history sha256 ids lora Hids (binding_for_worker p <$> ws) (binding_for_worker p <$> ws) (∅, store))
    as ([found store'] & E & [_ Hans] & Hall & _).
  { intros b Hb. split; [done|]. apply list_elem_of_fmap in Hb as (w & -> & Hw). eauto. }
  { by apply placed_start. }
  exists found, store'. split; [unfold matches_by_identity; destruct salt as [s|]; simpl in Hsalt; [rewrite Hsalt|]; exact E|].
  intros w adr ixops k Hw Ha Hx Hk. destruct (Hall (binding_for_worker p w)) as [ms Hms]; [by apply list_elem_of_fmap_2|].
  destruct (Hans _ _ Hms) as (b & (w' & -> & Hw')%list_elem_of_fmap & Ekey & Hb). cbn [fst] in Hms.
  pose proof (binding_for_ok params Hready p w Hp) as [Es Hs]. pose proof (binding_for_ok params Hready p w' Hp) as [Es' _].
  assert (answers history sha256 ids lora (binding_for_worker p w) ms) as Hb'.
  { unfold answers, query_of in *. rewrite Es, <- Ekey, <- Es', <- (Hone w' w Hw' Hw Ekey). exact Hb. }
  rewrite <- target_binding in Hk. intros n size. unfold view_of, candidate. rewrite Hms.
  apply (prefill_exact history sha256 ids lora _ ms adr ixops k Hb' Ha Hx Hk); [|done|unfold u32_mod in Hids; simpl; lia].
  pose proof (prefix_bound _ _ _ _ Hk) as Hlen. cbn [query_of local_hashes] in Hlen. pose proof (hash_count sha256 ids (binding_block_size (binding_for_worker p w)) lora). lia.
Qed.

(** *** Witnesses *)

#[local] Instance kv_libm : Libm := {| ln x := x; exp x := x; powi2 x := f64_mul x x |}.
#[local] Instance kv_order : HashOrder := {| key_order _ _ _ s := elements s; key_order_perm _ _ _ s := Permutation_refl _ |}.

(** Two workers of one model, the second of which holds a prompt of two blocks. *)
Definition kv_workers : list AnyWorker := [create_regular 0 "http://a:1"; create_regular 0 "http://b:1"].

Definition kv_key : CacheKey := MkCacheKey "m" Sha256 2.

Definition kv_ops : list kv_op :=
  (fun w => OpRegister w (MkKvInfo (url w) (Some 2) [0] (Some kv_key)) (Some 7%nat)) <$> kv_workers.

Definition kv_env : Env := MkEnv 0 0 [].

Definition kv_hashes : list string := local_block_hash_strings (fun l => l) [1; 2; 3; 4] 2 None.

Definition kv_history : list ix_op := [IxStore 0 (KvTypes.Worker "http://b:1" 0 0) Device None (zip ["1"; "2"]%string kv_hashes)].

Definition kv_store : gmap nat KvBlockIndexer := {[7%nat := default new_indexer (foldM ix_step kv_history new_indexer)]}.

Lemma kv_ops_ready : Forall op_ready kv_ops.
Proof. repeat constructor. Qed.

Lemma default_ready : params_ready default_params.
Proof. split; vm_compute; reflexivity. Qed.

Lemma cheapest_selected_witness : exists found store' r w,
  matches_by_identity (fun l => l) (Some [1; 2; 3; 4]) None None (binding_for_worker (kv_run kv_ops (new_kv_aware default_params)) <$> kv_workers) kv_store
    = Some (found, store') /\
  select_worker_with_receipt (fun l => l) kv_env kv_workers (Some [1; 2; 3; 4]) None None (kv_run kv_ops (new_kv_aware default_params)) kv_store
    = Some (Some r, kv_workers, store') /\
  kv_workers !! worker_index r = Some w.
Proof.
  destruct (matches_by_identity (fun l => l) (Some [1; 2; 3; 4]) None None
    (binding_for_worker (kv_run kv_ops (new_kv_aware default_params)) <$> available [0; 1]%nat kv_workers) kv_store) as [[found store']|] eqn:E.
  2:{ vm_compute in E. discriminate E. }
  destruct (cheapest_selected (fun l => l) kv_ops default_params kv_env kv_workers (Some [1; 2; 3; 4]) None None kv_store [0; 1]%nat kv_workers found store')
    as (r & w & Hsel & _ & Hw & _).
  - exact default_ready.
  - vm_compute. reflexivity.
  - exact kv_ops_ready.
  - vm_compute. reflexivity.
  - discriminate.
  - exact E.
  - exists found, store', r, w. split; [exact E|]. split; [exact Hsel|exact Hw].
Defined.

(** The selected worker of the example. *)
Example second_worker_selected :
  (fun '(r, _, _) => fmap (M:=option) (fun r => (worker_index r, new_prefill_tokens r)) r) <$>
    select_worker_with_receipt (fun l => l) kv_env kv_workers (Some [1; 2; 3; 4]) None None (kv_run kv_ops (new_kv_aware default_params)) kv_store
  = Some (Some (1%nat, 2)).
Proof. vm_compute. reflexivity. Qed.

Lemma kv_built : built {[7%nat := kv_history]} kv_store.
Proof.
  intros a ops [<- <-]%lookup_singleton_Some. split; [unfold kv_history, kv_hashes; solve_contract|].
  eexists. split; [apply lookup_singleton_eq|]. vm_compute. reflexivity.
Qed.

Lemma kv_prefix : device_prefix (ix_abs_run kv_history empty_ix_abs)
  (query_of (fun l => l) [1; 2; 3; 4] None (MkBinding (KvTypes.MkTarget "http://b:1" 0) (Some kv_key) (Some 7%nat) 2))
  (KvTypes.MkTarget "http://b:1" 0) 2.
Proof.
  split_and!.
  - vm_compute. set_solver.
  - intros [|[|d]] Hd; [| |lia]; exists (KvTypes.Worker "http://b:1" 0 0); (split; [vm_compute; lia|split; [reflexivity|]]).
    + exists "1"%string. split; vm_compute; reflexivity.
    + exists "2"%string. split; vm_compute; reflexivity.
  - intros o [Hlen _]. vm_compute in Hlen. lia.
  - intros tier d o (_ & _ & seq & _ & Ha). cbn in Ha. set_solver.
Qed.

Lemma placement_exact_witness : exists found store',
  matches_by_identity (fun l => l) (Some [1; 2; 3; 4]) None None (binding_for_worker (kv_run kv_ops (new_kv_aware default_params)) <$> kv_workers) kv_store
    = Some (found, store') /\
  forall w, kv_workers !! 1%nat = Some w ->
  let p := kv_run kv_ops (new_kv_aware default_params) in
  request_prefill_tokens (view_of found p (Some [1; 2; 3; 4]) w) (params_of p (binding_for_worker p w)) = 2.
Proof.
  assert (forall w, w ∈ kv_workers -> let b := binding_for_worker (kv_run kv_ops (new_kv_aware default_params)) w in
    binding_matches b = Some 7%nat /\ binding_block_size b = 2) as Hb.
  { intros w [->|[->|?%elem_of_nil]%elem_of_cons]%elem_of_cons; [split; vm_compute; reflexivity..|done]. }
  destruct (placement_exact (fun l => l) kv_ops default_params {[7%nat := kv_history]} kv_store [1; 2; 3; 4] None None kv_workers)
    as (found & store' & E & H).
  - exact default_ready.
  - exact kv_ops_ready.
  - exact kv_built.
  - reflexivity.
  - exact I.
  - intros w adr Hw Ha. destruct (Hb w Hw) as [Hb' _]. rewrite Ha in Hb'. injection Hb' as ->. rewrite lookup_singleton_eq. by eexists.
  - intros w w' Hw Hw' _. by rewrite (proj1 (Hb w Hw)), (proj1 (Hb w' Hw')).
  - exists found, store'. split; [exact E|]. intros w Hw p. assert (w ∈ kv_workers) as Hin by (by eapply list_elem_of_lookup_2).
    pose proof (H w 7%nat kv_history 2%nat Hin (proj1 (Hb w Hin)) (lookup_singleton_eq _ _)) as Hx.
    rewrite (proj2 (Hb w Hin)) in Hx. apply Hx. injection Hw as <-. exact kv_prefix.
Defined.
