(* ===== verification/ResponseStore.v ===== *)
(** * Response storage ([src/data_connector/])

    The trait [ResponseStorage] with its two implementations: the store in memory,
    which keeps the responses by id and the ids of every user in the order in
    which they were stored, and the store that keeps nothing.  Every method takes
    the lock of the store once and is one function of the maps, except
    [get_response_chain], which takes it twice.  JSON values are a type of which
    nothing is used; a moment is the nanoseconds of a [DateTime<Utc>], and the ULID
    of a response that has no id is an argument. *)

From S2P Require Import Prelude.
From stdpp Require Import strings.

Local Open Scope update_scope.

Section storage.
Context {V : Type}.   (* serde_json::Value *)

Record StoredResponse := MkStored {
  id : string;                              (* ResponseId *)
  previous_response_id : option string;
  input : string;
  instructions : option string;
  output : string;
  tool_calls : list V;
  stored_metadata : gmap string V;
  created_at : Z;
  user : option string;
  model : option string;
}.

Definition new_response (ulid : string) (now : Z) (i o : string) (previous : option string) : StoredResponse :=
  MkStored ulid previous i None o [] ∅ now None None.

Definition with_id (r : StoredResponse) (x : string) : StoredResponse :=
  MkStored x (previous_response_id r) (input r) (instructions r) (output r) (tool_calls r) (stored_metadata r) (created_at r) (user r) (model r).

Record ResponseChain := MkChain { chain_responses : list StoredResponse; chain_metadata : gmap string V }.

Definition new_chain : ResponseChain := MkChain [] ∅.

Definition latest_response_id (c : ResponseChain) : option string := id <$> last (chain_responses c).

Definition add_response (r : StoredResponse) (c : ResponseChain) : ResponseChain := MkChain (chain_responses c ++ [r]) (chain_metadata c).

Definition build_context (max_responses : option nat) (c : ResponseChain) : list (string * string) :=
  let rs := match max_responses with
            | Some m => drop (length (chain_responses c) - m) (chain_responses c)
            | None => chain_responses c
            end in
  (fun r => (input r, output r)) <$> rs.

(** ** The trait *)

(** The methods never fail in the implementations at hand: what they return is the
    value in [Ok].  [get_response_chain] sees the store at its two reads. *)
Class ResponseStorage (T : Type) := {
  store_response : string -> StoredResponse -> T -> string * T;
  get_response : string -> T -> option StoredResponse;
  delete_response : string -> T -> T;
  get_response_chain : string -> option nat -> T -> T -> ResponseChain;
  list_user_responses : string -> option nat -> T -> list StoredResponse;
  delete_user_responses : string -> T -> nat * T;
}.

(** ** In memory ([response_memory_store.rs]) *)

Record InnerStore := MkStore {
  responses : gmap string StoredResponse;
  user_index : gmap string (list string);
}.

Definition new_store : InnerStore := MkStore ∅ ∅.

Record MemoryStoreStats := MkStats { response_count : nat; user_count : nat }.

Definition stats (s : InnerStore) : MemoryStoreStats := MkStats (size (responses s)) (size (user_index s)).

Definition clear (s : InnerStore) : InnerStore := MkStore ∅ ∅.

Definition memory_store (ulid : string) (r : StoredResponse) (s : InnerStore) : string * InnerStore :=
  let r := if decide (id r = EmptyString) then with_id r ulid else r in
  let index := match user r with
               | Some u => <[u := default [] (user_index s !! u) ++ [id r]]> (user_index s)
               | None => user_index s
               end in
  (id r, MkStore (<[id r := r]> (responses s)) index).

Definition memory_get (x : string) (s : InnerStore) : option StoredResponse := responses s !! x.

Definition memory_delete (x : string) (s : InnerStore) : InnerStore :=
  match responses s !! x with
  | Some r =>
      let rs := delete x (responses s) in
      match user r with
      | Some u =>
          match user_index s !! u with
          | Some l =>
              let l := filter (fun y => y <> x) l in
              MkStore rs (if decide (l = []) then delete u (user_index s) else <[u := l]> (user_index s))
          | None => MkStore rs (user_index s)
          end
      | None => MkStore rs (user_index s)
      end
  | None => s
  end.

(** The ids from a response back, at most [fuel] of them: [max_depth - depth]. *)
Fixpoint collect_ids (fuel : nat) (current : option string) (s : InnerStore) : list string :=
  match fuel, current with
  | S fuel, Some x =>
      match responses s !! x with
      | Some r => x :: collect_ids fuel (previous_response_id r) s
      | None => []
      end
  | _, _ => []
  end.

Definition memory_chain (x : string) (max_depth : option nat) (s1 s2 : InnerStore) : ResponseChain :=
  let ids := reverse (collect_ids (default 100 max_depth) (Some x) s1) in
  foldl (fun c y => match responses s2 !! y with Some r => add_response r c | None => c end) new_chain ids.

Definition newest_first (l r : Z * string) : comparison := Z.compare r.1 l.1.

Definition memory_list (u : string) (limit : option nat) (s : InnerStore) : list StoredResponse :=
  match user_index s !! u with
  | Some l =>
      let timed := sort_by newest_first (omap (fun x => (fun r => (created_at r, x)) <$> responses s !! x) l) in
      omap (fun tx => responses s !! tx.2) (take (default (length timed) limit) timed)
  | None => []
  end.

Definition memory_delete_user (u : string) (s : InnerStore) : nat * InnerStore :=
  match user_index s !! u with
  | Some l => (length l, MkStore (foldl (fun rs x => delete x rs) (responses s) l) (delete u (user_index s)))
  | None => (0, s)
  end.

#[export] Instance memory_storage : ResponseStorage InnerStore := {|
  store_response := memory_store;
  get_response := memory_get;
  delete_response := memory_delete;
  get_response_chain := memory_chain;
  list_user_responses := memory_list;
  delete_user_responses := memory_delete_user;
|}.

(** ** Nothing ([response_noop_store.rs]) *)

Inductive NoOpResponseStorage := NoOp.

#[export] Instance noop_storage : ResponseStorage NoOpResponseStorage := {|
  store_response _ r s := (id r, s);
  get_response _ _ := None;
  delete_response _ s := s;
  get_response_chain _ _ _ _ := new_chain;
  list_user_responses _ _ _ := [];
  delete_user_responses _ s := (0, s);
|}.

(** ** Calls *)

Inductive call :=
| Store (ulid : string) (r : StoredResponse)
| Get (x : string)
| Delete (x : string)
| Chain (x : string) (max_depth : option nat)
| ListUser (u : string) (limit : option nat)
| DeleteUser (u : string).

Inductive answer :=
| Stored (x : string)
| Got (r : option StoredResponse)
| Deleted
| Chained (c : ResponseChain)
| Listed (l : list StoredResponse)
| DeletedUser (n : nat).

Definition perform {T} `{ResponseStorage T} (c : call) (s : T) : answer * T :=
  match c with
  | Store ulid r => let '(x, s) := store_response ulid r s in (Stored x, s)
  | Get x => (Got (get_response x s), s)
  | Delete x => (Deleted, delete_response x s)
  | Chain x d => (Chained (get_response_chain x d s s), s)
  | ListUser u limit => (Listed (list_user_responses u limit s), s)
  | DeleteUser u => let '(n, s) := delete_user_responses u s in (DeletedUser n, s)
  end.

Fixpoint run_calls {T} `{ResponseStorage T} (cs : list call) (s : T) : list answer * T :=
  match cs with
  | [] => ([], s)
  | c :: cs => let '(a, s) := perform c s in let '(l, s) := run_calls cs s in (a :: l, s)
  end.

(** ** Specification *)

(** A store is the list of its responses, in the order in which they were stored. *)
Abbreviation log := (list StoredResponse).

Definition lookup_log (x : string) (l : log) : option StoredResponse := head (filter (fun r => id r = x) l).

Definition of_user (u : string) (l : log) : log := filter (fun r => user r = Some u) l.

(** The response [x], the one it continues, and so on, at most [fuel]. *)
Fixpoint chain_back (fuel : nat) (current : option string) (l : log) : list StoredResponse :=
  match fuel, current with
  | S fuel, Some x => match lookup_log x l with Some r => r :: chain_back fuel (previous_response_id r) l | None => [] end
  | _, _ => []
  end.

Definition newest (l r : StoredResponse) : comparison := Z.compare (created_at r) (created_at l).

#[export] Instance log_storage : ResponseStorage log := {|
  store_response ulid r l := let r := if decide (id r = EmptyString) then with_id r ulid else r in (id r, l ++ [r]);
  get_response := lookup_log;
  delete_response x l := filter (fun r => id r <> x) l;
  get_response_chain x d l _ := MkChain (reverse (chain_back (default 100 d) (Some x) l)) ∅;
  list_user_responses u limit l := let rs := sort_by newest (of_user u l) in take (default (length rs) limit) rs;
  delete_user_responses u l := (length (of_user u l), filter (fun r => user r <> Some u) l);
|}.

(** The id of a response that is stored is not in the store. *)
Definition call_fresh (c : call) (l : log) : Prop :=
  match c with
  | Store ulid r => lookup_log (if decide (id r = EmptyString) then ulid else id r) l = None
  | _ => True
  end.

Fixpoint calls_fresh (cs : list call) (l : log) : Prop :=
  match cs with
  | [] => True
  | c :: cs => call_fresh c l /\ calls_fresh cs (perform c l).2
  end.

(** The two maps hold a log. *)
Record represents (s : InnerStore) (l : log) : Prop := {
  rep_ids : NoDup (id <$> l);
  rep_responses : forall x, responses s !! x = lookup_log x l;
  rep_index : forall u, user_index s !! u = match of_user u l with [] => None | rs => Some (id <$> rs) end;
}.

(** The responses of the maps from one back. *)
Fixpoint walk_back (s : InnerStore) (fuel : nat) (current : option string) : list StoredResponse :=
  match fuel, current with
  | S fuel, Some x => match responses s !! x with Some r => r :: walk_back s fuel (previous_response_id r) | None => [] end
  | _, _ => []
  end.

(** ** Logs *)

Lemma lookup_log_cons x r l : lookup_log x (r :: l) = if decide (id r = x) then Some r else lookup_log x l.
Proof. unfold lookup_log. rewrite filter_cons. by destruct (decide _). Qed.

Lemma lookup_log_some l x r : NoDup (id <$> l) -> lookup_log x l = Some r <-> r ∈ l /\ id r = x.
Proof.
  induction l as [|a l IH]; cbn [fmap list_fmap]; [intros _; rewrite elem_of_nil; naive_solver|]. intros [Ha Hl]%NoDup_cons. rewrite lookup_log_cons, elem_of_cons.
  destruct (decide (id a = x)) as [E|E]; [|rewrite IH by done; naive_solver]. split; [intros [= <-]; auto|].
  intros [[->|Hr] Hx]; [done|]. destruct Ha. apply list_elem_of_fmap. exists r. by rewrite Hx.
Qed.

Lemma lookup_log_none l x : lookup_log x l = None <-> x ∉ id <$> l.
Proof.
  induction l as [|a l IH]; [split; [intros _; apply not_elem_of_nil|done]|]. rewrite lookup_log_cons. cbn [fmap list_fmap]. rewrite elem_of_cons.
  destruct (decide (id a = x)); naive_solver.
Qed.

Lemma lookup_log_filter (Q : StoredResponse -> Prop) `{!forall r, Decision (Q r)} l x : NoDup (id <$> l) ->
  lookup_log x (filter Q l) = r ← lookup_log x l; if decide (Q r) then Some r else None.
Proof.
  intros Hn. assert (NoDup (id <$> filter Q l)) as Hn'.
  { eapply sublist_NoDup; [exact Hn|]. apply fmap_sublist, sublist_filter. }
  apply option_eq. intros r. rewrite lookup_log_some, list_elem_of_filter by done. split.
  - intros [[Hq Hr] Hx]. rewrite (proj2 (lookup_log_some l x r Hn)) by done. simpl. by rewrite decide_True.
  - destruct (lookup_log x l) as [r'|] eqn:E; [|done]. apply lookup_log_some in E; [|done]. simpl.
    destruct (decide (Q r')); [|done]. intros [= <-]. naive_solver.
Qed.

Lemma sort_by_fmap {A B} (f : A -> B) cmp (l : list A) : sort_by cmp (f <$> l) = f <$> sort_by (fun x y => cmp (f x) (f y)) l.
Proof.
  induction l as [|x l IH]; [done|]. cbn [fmap list_fmap sort_by foldr]. unfold sort_by in IH. rewrite IH. clear IH.
  induction (foldr _ [] l) as [|y l' IH]; [done|]. cbn [fmap list_fmap insert_by]. destruct (cmp (f x) (f y)); [done..|]. cbn. by f_equal.
Qed.

Lemma omap_lookup_fmap {A B C} (f : A -> B) (g : A -> C) (h : B -> option C) (l : list A) :
  (forall x, x ∈ l -> h (f x) = Some (g x)) -> omap h (f <$> l) = g <$> l.
Proof.
  induction l as [|x l IH]; intros H; [done|]. cbn [fmap list_fmap omap list_omap]. rewrite (H x) by left. f_equal. apply IH. intros y Hy. apply H. by right.
Qed.

Lemma foldl_delete (l : list string) (m : gmap string StoredResponse) x : foldl (fun rs x => delete x rs) m l !! x = if decide (x ∈ l) then None else m !! x.
Proof.
  revert m. induction l as [|y l IH]; intros m; cbn [foldl]; [by destruct (decide (x ∈ [])) as [?%elem_of_nil|]|]. rewrite IH.
  destruct (decide (x ∈ l)), (decide (x ∈ y :: l)) as [[->|]%elem_of_cons|Hn]; try done; [set_solver|by rewrite lookup_delete_eq|].
  rewrite lookup_delete_ne; [done|]. set_solver.
Qed.

Lemma list_filter_iff' {A} (P Q : A -> Prop) `{!forall x, Decision (P x), !forall x, Decision (Q x)} (l : list A) :
  (forall x, x ∈ l -> P x <-> Q x) -> filter P l = filter Q l.
Proof.
  induction l as [|x l IH]; intros Hl; [done|]. rewrite !filter_cons, IH by (intros y Hy; apply Hl; by right). specialize (Hl x ltac:(left)).
  destruct (decide (P x)), (decide (Q x)); tauto.
Qed.

Lemma list_filter_all {A} (P : A -> Prop) `{!forall x, Decision (P x)} (l : list A) : (forall x, x ∈ l -> P x) -> filter P l = l.
Proof.
  induction l as [|x l IH]; intros Hl; [done|]. rewrite filter_cons_True by (apply Hl; left). f_equal. apply IH. intros y Hy. apply Hl. by right.
Qed.

Lemma list_filter_none {A} (P : A -> Prop) `{!forall x, Decision (P x)} (l : list A) : (forall x, ~ P x) -> filter P l = [].
Proof. intros Hl. induction l as [|x l IH]; [done|]. by rewrite filter_cons_False. Qed.

(** ** The maps hold a log *)

Section represented.
Context (s : InnerStore) (l : log) (Hs : represents s l).

Lemma represented_elem r : r ∈ l -> responses s !! id r = Some r.
Proof. intros Hr. rewrite (rep_responses s l Hs). by apply lookup_log_some; [apply Hs|]. Qed.

Lemma represented_user u : default [] (user_index s !! u) = id <$> of_user u l.
Proof. rewrite (rep_index s l Hs). by destruct (of_user u l). Qed.

Lemma store_ok ulid r : call_fresh (Store ulid r) l -> (memory_store ulid r s).1 = (store_response ulid r l).1 /\
  represents (memory_store ulid r s).2 (store_response ulid r l).2.
Proof.
  intros Hf. unfold memory_store. cbn [store_response log_storage]. set (r' := if decide _ then with_id r ulid else r).
  assert (lookup_log (id r') l = None) as Hn by (unfold call_fresh, r' in *; by destruct (decide _)). clear Hf. split; [done|]. cbn [snd].
  split; cbn [responses user_index].
  - rewrite fmap_app. apply NoDup_app. split_and!; [apply Hs| |apply NoDup_singleton]. intros x Hx ->%list_elem_of_singleton.
    by apply lookup_log_none in Hn.
  - intros x. rewrite lookup_insert, (rep_responses s l Hs). unfold lookup_log in *. rewrite filter_app. destruct (decide (id r' = x)) as [<-|E].
    + destruct (filter _ l); [|done]. by rewrite filter_cons_True.
    + rewrite filter_cons_False, filter_nil, app_nil_r by done. done.
  - intros u. unfold of_user. rewrite filter_app. destruct (decide (user r' = Some u)) as [E|E].
    + rewrite E, lookup_insert_eq, represented_user, filter_cons_True, filter_nil by done. unfold of_user. rewrite <- (fmap_app id _ [r']).
      by destruct (filter _ l).
    + rewrite filter_cons_False, filter_nil, app_nil_r by done. pose proof (rep_index s l Hs u) as H. unfold of_user in H. rewrite <- H.
      destruct (user r') as [u'|]; [|done]. rewrite lookup_insert_ne; [done|congruence].
Qed.

Lemma filtered_ids (Q : StoredResponse -> Prop) `{!forall r, Decision (Q r)} : NoDup (id <$> filter Q l).
Proof. eapply sublist_NoDup; [apply Hs|]. apply fmap_sublist, sublist_filter. Qed.

Lemma lookup_without x y : lookup_log y (filter (fun r => id r <> x) l) = if decide (x = y) then None else lookup_log y l.
Proof.
  rewrite lookup_log_filter by apply Hs. destruct (lookup_log y l) as [r|] eqn:E; simpl; [|by destruct (decide _)].
  apply lookup_log_some in E as [_ <-]; [|apply Hs]. destruct (decide (id r <> x)), (decide (x = id r)); intuition congruence.
Qed.

(** Removing an id leaves a user who has no response of that id. *)
Lemma users_without x u : (forall r, lookup_log x l = Some r -> user r <> Some u) -> of_user u (filter (fun r => id r <> x) l) = of_user u l.
Proof.
  intros H. unfold of_user. rewrite list_filter_filter. apply list_filter_iff'. intros r Hr. split; [by intros [? _]|]. intros Hu. split; [done|].
  intros E. apply (H r); [|done]. by apply lookup_log_some; [apply Hs|].
Qed.

Lemma owner_without x u : id <$> of_user u (filter (fun r => id r <> x) l) = filter (fun y => y <> x) (id <$> of_user u l).
Proof.
  unfold of_user. clear Hs. induction l as [|r l' IH]; [done|]. rewrite !filter_cons. destruct (decide (id r <> x)) as [E|E].
  - rewrite filter_cons. destruct (decide (user r = Some u)); [|done]. cbn [fmap list_fmap]. rewrite filter_cons_True by done. by f_equal.
  - destruct (decide (user r = Some u)); [|done]. cbn [fmap list_fmap]. by rewrite filter_cons_False.
Qed.

Lemma delete_ok x : represents (memory_delete x s) (delete_response x l).
Proof.
  cbn [delete_response log_storage]. pose proof (rep_responses s l Hs x) as Hx. unfold memory_delete. rewrite Hx.
  destruct (lookup_log x l) as [r|] eqn:E.
  2:{ replace (filter _ l) with l; [done|]. symmetry. apply list_filter_all. intros r Hr Ex. apply lookup_log_none in E. destruct E.
      rewrite <- Ex. by apply list_elem_of_fmap_2. }
  assert (forall idx, (forall u, idx !! u = match of_user u (filter (fun r => id r <> x) l) with [] => None | rs => Some (id <$> rs) end) ->
    represents (MkStore (delete x (responses s)) idx) (filter (fun r => id r <> x) l)) as Hrep.
  { intros idx Hidx. split; [apply filtered_ids| |done]. intros y. cbn [responses]. by rewrite lookup_delete, lookup_without, (rep_responses s l Hs). }
  assert (forall u, user r <> Some u -> match of_user u (filter (fun r => id r <> x) l) with [] => None | rs => Some (id <$> rs) end = user_index s !! u) as Hother.
  { intros u Hu. rewrite users_without; [by rewrite (rep_index s l Hs)|]. intros r' Hr'. rewrite E in Hr'. by injection Hr' as <-. }
  destruct (user r) as [u|] eqn:Eu; [|apply Hrep; intros u; by rewrite Hother]. pose proof (owner_without x u) as Hown.
  assert (user_index s !! u = Some (id <$> of_user u l)) as Hu.
  { rewrite (rep_index s l Hs). assert (r ∈ of_user u l) as Hin by (apply list_elem_of_filter; split; [done|]; apply lookup_log_some in E; [apply E|apply Hs]).
    destruct (of_user u l); [by apply elem_of_nil in Hin|done]. }
  rewrite Hu, <- Hown. apply Hrep. intros u'. destruct (decide (u' = u)) as [->|Hne].
  - destruct (of_user u (filter (fun r => id r <> x) l)) as [|r' rs]; cbn [fmap list_fmap].
    + rewrite decide_True by done. apply lookup_delete_eq.
    + rewrite decide_False by done. apply lookup_insert_eq.
  - rewrite Hother by congruence. destruct (decide _); [by rewrite lookup_delete_ne|by rewrite lookup_insert_ne].
Qed.

Lemma delete_user_ok u : (memory_delete_user u s).1 = (delete_user_responses u l).1 /\
  represents (memory_delete_user u s).2 (delete_user_responses u l).2.
Proof.
  cbn [delete_user_responses log_storage fst snd]. unfold memory_delete_user. rewrite (rep_index s l Hs). destruct (of_user u l) as [|r rs] eqn:E.
  { split; [done|]. replace (filter _ l) with l; [done|]. symmetry. apply list_filter_all. intros r Hr Eu.
    assert (r ∈ of_user u l) as Hin by (by apply list_elem_of_filter). rewrite E in Hin. by apply elem_of_nil in Hin. }
  rewrite <- E. cbn [fst snd]. split; [apply length_fmap|]. split; cbn [responses user_index].
  - apply filtered_ids.
  - intros x. rewrite foldl_delete, (rep_responses s l Hs), lookup_log_filter by apply Hs. destruct (lookup_log x l) as [r'|] eqn:Ex; simpl; [|by destruct (decide _)].
    apply lookup_log_some in Ex as [Hr' <-]; [|apply Hs]. destruct (decide (user r' <> Some u)) as [Hu|Hu], (decide (id r' ∈ id <$> of_user u l)) as [Hin|Hin]; try done.
    + apply list_elem_of_fmap in Hin as (r2 & Eid & [Hu2 Hr2]%list_elem_of_filter). apply represented_elem in Hr', Hr2. rewrite Eid in Hr'. congruence.
    + destruct Hin. apply list_elem_of_fmap_2, list_elem_of_filter. split; [|done]. by apply dec_stable in Hu.
  - intros u'. unfold of_user. rewrite list_filter_filter. destruct (decide (u = u')) as [<-|Hne].
    + rewrite lookup_delete_eq. rewrite list_filter_none; [done|]. naive_solver.
    + rewrite lookup_delete_ne, (rep_index s l Hs) by done. unfold of_user.
      rewrite (list_filter_iff (fun r => user r = Some u' /\ user r <> Some u) (fun r => user r = Some u')); [done|]. naive_solver.
Qed.

Lemma list_ok u limit : memory_list u limit s = list_user_responses u limit l.
Proof.
  cbn [list_user_responses log_storage]. unfold memory_list. pose proof (rep_index s l Hs u) as Hi. destruct (of_user u l) as [|r rs] eqn:E.
  { rewrite Hi. simpl. by rewrite take_nil. }
  rewrite Hi. rewrite <- E. clear Hi E r rs. assert (forall r, r ∈ of_user u l -> responses s !! id r = Some r) as Hr.
  { intros r [_ Hr]%list_elem_of_filter. by apply represented_elem. }
  rewrite (omap_lookup_fmap id (fun r => (created_at r, id r))) by (intros r Hin; by rewrite Hr).
  rewrite sort_by_fmap. change (fun x y => newest_first (created_at x, id x) (created_at y, id y)) with newest.
  rewrite length_fmap, <- fmap_take, (omap_lookup_fmap _ (fun r => r)); [by rewrite list_fmap_id|].
  intros r Hin. cbn [snd]. apply Hr. eapply elem_of_sublist in Hin; [|apply sublist_take]. by rewrite sort_by_perm in Hin.
Qed.

Lemma collect_ok fuel x : collect_ids fuel x s = id <$> chain_back fuel x l /\ Forall (fun r => r ∈ l) (chain_back fuel x l).
Proof.
  revert x. induction fuel as [|fuel IH]; intros [x|]; try done. simpl. rewrite (rep_responses s l Hs).
  destruct (lookup_log x l) as [r|] eqn:E; [|done]. apply lookup_log_some in E as [Hr <-]; [|apply Hs]. destruct (IH (previous_response_id r)) as [-> ?].
  split; [done|]. by constructor.
Qed.

Lemma chain_ok x d : memory_chain x d s s = get_response_chain x d l l.
Proof.
  cbn [get_response_chain log_storage]. unfold memory_chain. destruct (collect_ok (default 100 d) (Some x)) as [-> Hin].
  assert (forall rs c, Forall (fun r => r ∈ l) rs ->
    foldl (fun c y => match responses s !! y with Some r => add_response r c | None => c end) c (id <$> rs) = MkChain (chain_responses c ++ rs) (chain_metadata c)) as Hf.
  { intros rs. induction rs as [|r rs IH]; intros c Hrs; simpl; [rewrite app_nil_r; by destruct c|]. apply Forall_cons in Hrs as [Hr Hrs].
    rewrite (represented_elem r Hr), IH by done. simpl. by rewrite <- app_assoc. }
  rewrite <- fmap_reverse, Hf; [done|]. by apply Forall_reverse.
Qed.

Lemma perform_represents c : call_fresh c l -> (perform c s).1 = (perform c l).1 /\ represents (perform c s).2 (perform c l).2.
Proof.
  intros Hc. destruct c as [ulid r|x|x|x d|u limit|u]; cbn [perform fst snd].
  - destruct (store_ok ulid r Hc) as [H1 H2]. cbn [store_response memory_storage] in *. destruct (memory_store ulid r s), (store_response ulid r l). simpl in *. by subst.
  - split; [|done]. f_equal. apply (rep_responses s l Hs).
  - split; [done|]. apply delete_ok.
  - split; [|done]. f_equal. apply chain_ok.
  - split; [|done]. f_equal. apply list_ok.
  - destruct (delete_user_ok u) as [H1 H2]. cbn [delete_user_responses memory_storage] in *. destruct (memory_delete_user u s), (delete_user_responses u l). simpl in *. by subst.
Qed.
End represented.

(** ** Chains *)

(** Every response is kept under its id. *)
Lemma perform_keyed c s : (forall x r, responses s !! x = Some r -> id r = x) ->
  forall x r, responses (perform c s).2 !! x = Some r -> id r = x.
Proof.
  intros Hk x r. destruct c as [ulid r0|y|y|y d|u limit|u]; cbn [perform fst snd store_response delete_response delete_user_responses memory_storage]; try by eauto.
  - cbn. rewrite lookup_insert. destruct (decide _); [congruence|eauto].
  - unfold memory_delete. repeat case_match; cbn [responses]; try (intros [_ ?]%lookup_delete_Some); eauto.
  - unfold memory_delete_user. destruct (user_index s !! u); cbn [responses snd]; [|by eauto]. rewrite foldl_delete. destruct (decide _); [done|eauto].
Qed.

Lemma run_keyed cs s : (forall x r, responses s !! x = Some r -> id r = x) ->
  forall x r, responses (run_calls cs s).2 !! x = Some r -> id r = x.
Proof.
  revert s. induction cs as [|c cs IH]; intros s Hk; [done|]. simpl. pose proof (perform_keyed c s Hk) as Hk'.
  destruct (perform c s) as [a s1]. specialize (IH s1 Hk'). by destruct (run_calls cs s1).
Qed.

Section walk.
Context (s : InnerStore) (Hk : forall x r, responses s !! x = Some r -> id r = x).

Lemma collect_walk fuel x : collect_ids fuel x s = id <$> walk_back s fuel x.
Proof.
  revert x. induction fuel as [|fuel IH]; intros [x|]; try done. simpl. destruct (responses s !! x) as [r|] eqn:E; [|done].
  rewrite IH. by rewrite <- (Hk x r E).
Qed.

Lemma walk_facts fuel x : let rs := walk_back s fuel x in
  length rs <= fuel /\ Forall (fun r => responses s !! id r = Some r) rs /\ head rs = (if decide (fuel = 0) then None else x ≫= fun x => responses s !! x) /\
  (forall i r r', rs !! i = Some r -> rs !! S i = Some r' -> previous_response_id r = Some (id r')) /\
  (forall r, length rs < fuel -> last rs = Some r -> previous_response_id r ≫= (fun y => responses s !! y) = None).
Proof.
  revert x. induction fuel as [|fuel IH]; intros [x|]; [by (split_and!; try done; simpl; lia)..| |by (split_and!; try done; simpl; lia)].
  cbn [walk_back]. destruct (responses s !! x) as [r|] eqn:E; [|by split_and!; try done; simpl; rewrite ?E; try lia].
  destruct (IH (previous_response_id r)) as (H1 & H2 & H3 & H4 & H5). cbn [head length]. split_and!.
  - lia.
  - constructor; [|done]. by rewrite (Hk x r E).
  - simpl. by rewrite E.
  - intros [|i] r1 r2; cbn [lookup list_lookup]; [|apply H4]. intros [= ->] Hr2. destruct (walk_back s fuel (previous_response_id r1)) as [|r3 rs]; [done|].
    injection Hr2 as ->. destruct (decide (fuel = 0)); [done|]. simpl in H3. destruct (previous_response_id r1) as [y|]; [|done].
    simpl in H3. by rewrite <- (Hk y r2 (eq_sym H3)).
  - intros r1 Hlen Hlast. destruct (walk_back s fuel (previous_response_id r)) as [|r3 rs]; [|apply H5; [lia|done]].
    injection Hlast as <-. destruct (decide (fuel = 0)); [simpl in Hlen; lia|]. done.
Qed.

Lemma memory_chain_walk x d : chain_responses (memory_chain x d s s) = reverse (walk_back s (default 100 d) (Some x)).
Proof.
  unfold memory_chain. rewrite collect_walk, <- fmap_reverse. destruct (walk_facts (default 100 d) (Some x)) as (_ & H & _).
  apply Forall_reverse in H. set (rs := reverse _) in *. change rs with (chain_responses new_chain ++ rs) at 2. generalize new_chain. clear Hk.
  induction H as [|r rs' Hr _ IH]; intros c; simpl; [by rewrite app_nil_r|]. rewrite Hr, IH. simpl. by rewrite <- app_assoc.
Qed.
End walk.

(** ** Properties *)

(** C24: as long as no id is stored again while it is in the store, the store in
    memory is the list of the responses that were stored and not deleted.  Its
    calls get the answers of that list: a response by its id, its chain, the
    responses of a user, newest first and up to the limit, and the number of those
    deleted with the user.  (Storing an id again is [stored_again] below.) *)
Theorem storage_refines cs : calls_fresh cs [] -> (run_calls cs new_store).1 = (run_calls cs ([] : log)).1 /\
  represents (run_calls cs new_store).2 (run_calls cs ([] : log)).2.
Proof.
  assert (represents new_store []) as H0 by (split; [constructor|done|done]). revert H0. generalize new_store ([] : log).
  induction cs as [|c cs IH]; intros s l Hs Hf; [done|]. destruct Hf as [Hc Hf]. destruct (perform_represents s l Hs c Hc) as [H1 H2]. simpl.
  destruct (perform c s) as [a s'], (perform c l) as [a' l']. simpl in *. subst a'. destruct (IH s' l' H2 Hf) as [H3 H4].
  destruct (run_calls cs s') as [l1 s1], (run_calls cs l') as [l2 s2]. simpl in *. by subst.
Qed.

(** A chain ends, even when responses continue each other in a circle.  After
    any calls the chain of an id has at most the given number of responses (100 when
    none is given), each the one the next continues, the last the response of the
    id; and when it is shorter, its first continues no response of the store. *)
Theorem chain_linked cs x d : let s := (run_calls cs new_store).2 in let rs := chain_responses (memory_chain x d s s) in
  length rs <= default 100 d /\ (0 < default 100 d -> last rs = responses s !! x) /\
  (forall i r r', rs !! i = Some r -> rs !! S i = Some r' -> previous_response_id r' = Some (id r)) /\
  (forall r, length rs < default 100 d -> head rs = Some r -> previous_response_id r ≫= (fun y => responses s !! y) = None).
Proof.
  intros s rs. assert (forall x r, responses s !! x = Some r -> id r = x) as Hk by (apply run_keyed; intros ? ? H; simpl in H; by rewrite lookup_empty in H).
  unfold rs. rewrite (memory_chain_walk s Hk). destruct (walk_facts s Hk (default 100 d) (Some x)) as (H1 & _ & H3 & H4 & H5).
  set (ws := walk_back s _ _) in *. rewrite length_reverse. split_and!.
  - done.
  - intros Hd. rewrite last_reverse, H3. by destruct (decide _); [lia|].
  - intros i r r' Hr Hr'. pose proof (lookup_lt_Some _ _ _ Hr') as Hlt. rewrite length_reverse in Hlt.
    rewrite reverse_lookup in Hr, Hr' by lia. apply (H4 (length ws - S (S i)) r' r); [done|].
    replace (S (length ws - S (S i))) with (length ws - S i) by lia. done.
  - intros r Hlt. rewrite head_reverse. by apply H5.
Qed.
End storage.

(** *** Witness *)

Local Open Scope string_scope.

Definition reply (x : string) (previous u : option string) (now : Z) : StoredResponse (V:=nat) :=
  MkStored x previous "hi" None "hello" [] ∅ now u None.

Definition reply_calls : list (call (V:=nat)) :=
  [Store "1" (reply "" None (Some "a") 10); Store "2" (reply "r" (Some "1") (Some "a") 20); ListUser "a" (Some 1);
   Chain "r" None; Delete "1"; DeleteUser "a"].

Lemma storage_refines_witness : (run_calls reply_calls new_store).1 =
  [Stored "1"; Stored "r"; Listed [reply "r" (Some "1") (Some "a") 20];
   Chained (MkChain [reply "1" None (Some "a") 10; reply "r" (Some "1") (Some "a") 20] ∅); Deleted; DeletedUser 1].
Proof.
  destruct (storage_refines reply_calls) as [H _]; [repeat split; reflexivity|]. rewrite H. vm_compute. reflexivity.
Defined.

(** A response that is stored again under another user stays in the list of the
    first, is listed there and is deleted with it. *)
Example stored_again : (run_calls [Store "1" (reply "r" None (Some "a") 10); Store "1" (reply "r" None (Some "b") 20);
    ListUser "a" None; DeleteUser "a"; Get "r"] new_store).1 =
  [Stored "r"; Stored "r"; Listed [reply "r" None (Some "b") 20]; DeletedUser 1; Got None].
Proof. reflexivity. Qed.
