(* ===== verification/Config.v ===== *)
(** * Configuration ([src/config/])

    The configuration of the router, its defaults and [ConfigValidator].  An error
    holds the value it complains of, where the code renders it; messages are those
    of the code.  Parsing a URL is another package: the class [UrlParser]. *)

From S2P Require Import Prelude Ieee WorkerUrl CircuitBreaker Policies CacheAware PolicyRegistry Factors Binding SchedulerState SchedulerInv KvSlots KvAware.
From stdpp Require Import strings.

Local Open Scope N_scope.
Local Open Scope string_scope.

(** ** Errors *)

Inductive ConfigValue := OfFloat (x : f64) | OfFloat32 (x : f32) | OfInt (n : N) | OfStr (s : string).

Inductive ConfigError :=
| ValidationFailed (reason : string)
| InvalidValue (field : string) (v : ConfigValue) (reason : string)
| IncompatibleConfig (reason : string)
| MissingRequired (field : string).

Abbreviation ConfigResult A := (result A ConfigError).

Declare Scope config_scope.
Delimit Scope config_scope with config.

(** [r?; k] *)
Definition and_then (r k : ConfigResult unit) : ConfigResult unit := match r with Ok _ => k | Err e => Err e end.

Notation "r ;? k" := (and_then r k) (at level 100, right associativity) : config_scope.

Definition reject_if (bad : bool) (e : ConfigError) : ConfigResult unit := if bad then Err e else Ok tt.

Fixpoint each {A} (f : A -> ConfigResult unit) (l : list A) : ConfigResult unit :=
  match l with
  | [] => Ok tt
  | x :: l => and_then (f x) (each f l)
  end.

Local Open Scope config_scope.

(** ** Types ([types.rs]) *)

Inductive HistoryBackend := HistoryMemory | HistoryNone.

Inductive KvConnector := Nixl | Mooncake | MoriIO.

#[export] Instance KvConnector_eq_dec : EqDecision KvConnector.
Proof. solve_decision. Defined.

Inductive PolicyConfig :=
| PRandom
| PRoundRobin
| PCacheAware (cfg : CacheAwareConfig)
| PKvAware (router_temperature kv_penalty_host kv_penalty_external kv_penalty_disk : f64)
| PPowerOfTwo (load_check_interval_secs : N)
| PConsistentHash (virtual_nodes : N)
| PRendezvousHash.

Definition policy_config_name (p : PolicyConfig) : string :=
  match p with
  | PRandom => "random"
  | PRoundRobin => "round_robin"
  | PCacheAware _ => "cache_aware"
  | PKvAware _ _ _ _ => "kv_aware"
  | PPowerOfTwo _ => "power_of_two"
  | PConsistentHash _ => "consistent_hash"
  | PRendezvousHash => "rendezvous_hash"
  end.

Inductive RoutingMode :=
| Regular (worker_urls : list string)
| OpenAI (worker_urls : list string)
| VllmPrefillDecode (prefill_urls : list (string * option N)) (decode_urls : list string)
    (prefill_policy decode_policy : option PolicyConfig) (discovery_address : option string).

Definition is_pd_mode (m : RoutingMode) : bool := match m with VllmPrefillDecode _ _ _ _ _ => true | _ => false end.

Definition worker_count (m : RoutingMode) : nat :=
  match m with
  | Regular urls => length urls
  | VllmPrefillDecode ps ds _ _ _ => length ps + length ds
  | OpenAI _ => 1
  end.

Definition get_prefill_policy (m : RoutingMode) (main : PolicyConfig) : PolicyConfig :=
  match m with VllmPrefillDecode _ _ p _ _ => default main p | _ => main end.

Definition get_decode_policy (m : RoutingMode) (main : PolicyConfig) : PolicyConfig :=
  match m with VllmPrefillDecode _ _ _ p _ => default main p | _ => main end.

Record DiscoveryConfig := MkDiscovery {
  enabled : bool;
  namespace : option string;
  discovery_port : N;
  discovery_check_interval_secs : N;
  selector : gmap string string;
  prefill_selector : gmap string string;
  decode_selector : gmap string string;
  bootstrap_port_annotation : string;
}.

Definition default_discovery : DiscoveryConfig :=
  MkDiscovery false None 8000 120 ∅ ∅ ∅ "vllm.ai/bootstrap-port".

Record RetryConfig := MkRetry {
  max_retries : N;            (* u32 *)
  initial_backoff_ms : N;     (* u64 *)
  max_backoff_ms : N;         (* u64 *)
  backoff_multiplier : f32;
  jitter_factor : f32;
}.

Definition default_retry : RetryConfig := MkRetry 5 50 30000 (f32_lit 3 2) (f32_lit 1 5).

Record HealthCheckConfig := MkHealthCheck {
  hc_failure_threshold : N;
  hc_success_threshold : N;
  hc_timeout_secs : N;
  hc_check_interval_secs : N;
  hc_endpoint : string;
}.

Definition default_health_check : HealthCheckConfig := MkHealthCheck 3 2 5 60 "/health".

Record BreakerSettings := MkBreakerSettings {   (* config::CircuitBreakerConfig *)
  bs_failure_threshold : N;
  bs_success_threshold : N;
  timeout_duration_secs : N;
  window_duration_secs : N;
}.

Definition default_breaker : BreakerSettings := MkBreakerSettings 10 3 60 120.

Record MetricsConfig := MkMetrics { metrics_port : N; metrics_host : string }.

Definition default_metrics : MetricsConfig := MkMetrics 29000 "127.0.0.1".

Record TraceConfig := MkTrace { otlp_traces_endpoint : option string; sampling_ratio : f64; excluded_paths : list string }.

Definition default_trace : TraceConfig :=
  MkTrace None (f64_lit 1 1) ["/health"; "/health_generate"; "/liveness"; "/readiness"].

Record EpdConfig := MkEpd { encoder_urls : list string; consumer_zmq_addrs : gmap string string }.

Record ProgramSchedulingConfig := MkScheduling {
  ps_enable_key : ProgramSchedulingEnableKey;
  ps_binding_only : bool;
  ps_global_queue : bool;
  ps_resume_order : ProgramResumeOrder;
  ps_cross_rank_headroom_ratio : f64;
  ps_binding_strategy : ProgramBindingStrategy;
  ps_hash_virtual_nodes : N;
  token_capacity_per_dp_rank : option N;
  ps_max_active_programs_per_target : N;
  metrics_interval_seconds : f64;
  ps_admission_waiting_request_threshold : N;
  queue_timeout_seconds : f64;
  force_resume_timeout_seconds : f64;
  paused_retention_ttl_seconds : f64;
  shared_prefix_freshness_warmup_seconds : f64;
  ps_shared_prefix_freshness_kv_turnovers : f64;
  ps_decode_buffer_tokens : N;
  max_acting_ttl_seconds : f64;
  ps_high_watermark_ratio : f64;
  ps_low_watermark_ratio : f64;
  ps_max_segment_rounds : N;
  ps_stats_window_size : N;
  ps_enable_batch_gain_admission : bool;
  prefill_cost_model : PrefillCostModel;
  decode_throughput_model : DecodeThroughputModel;
  explicit_calibration_fields : N;   (* u8 *)
}.

Definition default_scheduling : ProgramSchedulingConfig :=
  MkScheduling AgenticContext false false Mru (f64_dec 12 10) ConsistentHash 160 None 64 (f64_lit 1 1) 1 (f64_lit 600 1) (f64_lit 300 1)
    (f64_lit 1800 1) (f64_lit 100 1) (f64_lit 2 1) 100 (f64_lit 10 1) (f64_lit 1 1) (f64_lit 1 1) 14 100 true
    default_prefill default_decode 0.

(** [defaulted_calibration_fields] *)
Definition calibration_fields : list string :=
  ["prefill_cost_model.intercept_seconds"; "prefill_cost_model.linear_seconds_per_1k_tokens";
   "prefill_cost_model.quadratic_seconds_per_1k_tokens_squared"; "prefill_cost_model.decode_throughput_alpha";
   "decode_throughput_model.fixed_step_seconds"; "decode_throughput_model.batch_step_seconds_per_request";
   "decode_throughput_model.context_step_seconds_per_token"].

Definition defaulted_calibration_fields (c : ProgramSchedulingConfig) : list string :=
  omap (fun inm => if (N.land (explicit_calibration_fields c) (N.shiftl 1 (N.of_nat inm.1)) =? 0)%N then Some inm.2 else None)
    (imap pair calibration_fields).

(** The coefficients of the input, with the bits of those that are given. *)
Definition configured_or_default (v : option f64) (d : f64) (mask : N) (explicit : N) : f64 * N :=
  match v with Some x => (x, N.lor explicit mask) | None => (d, explicit) end.

Record PrefillCostModelInput := MkPrefillInput {
  in_intercept : option f64; in_linear : option f64; in_quadratic : option f64; in_alpha : option f64
}.

Record DecodeThroughputModelInput := MkDecodeInput { in_fixed : option f64; in_batch : option f64; in_context : option f64 }.

(** The calibration part of [deserialize]; the other fields are those of the input. *)
Definition apply_calibration (p : PrefillCostModelInput) (d : DecodeThroughputModelInput) : PrefillCostModel * DecodeThroughputModel * N :=
  let '(intercept, e) := configured_or_default (in_intercept p) (intercept_seconds default_prefill) 1 0 in
  let '(linear, e) := configured_or_default (in_linear p) (linear_seconds_per_1k_tokens default_prefill) 2 e in
  let '(quadratic, e) := configured_or_default (in_quadratic p) (quadratic_seconds_per_1k_tokens_squared default_prefill) 4 e in
  let '(alpha, e) := configured_or_default (in_alpha p) (decode_throughput_alpha default_prefill) 8 e in
  let '(fixed, e) := configured_or_default (in_fixed d) (fixed_step_seconds default_decode) 16 e in
  let '(batch, e) := configured_or_default (in_batch d) (batch_step_seconds_per_request default_decode) 32 e in
  let '(context, e) := configured_or_default (in_context d) (context_step_seconds_per_token default_decode) 64 e in
  (MkPrefill intercept linear quadratic alpha, MkDecode fixed batch context, e).

(** [ProgramSchedulingConfig::resolve]; [from_json] is the JSON parser. *)
Definition resolve (from_json : string -> result ProgramSchedulingConfig string) (on : bool) (config_json : option string)
  : ConfigResult (option ProgramSchedulingConfig) :=
  match on, config_json with
  | false, None => Ok None
  | false, Some _ => Err (ValidationFailed "program_scheduling_config_json requires enable_program_scheduling")
  | true, None => Ok (Some default_scheduling)
  | true, Some raw =>
      match from_json raw with
      | Ok c => Ok (Some c)
      | Err e => Err (ValidationFailed ("Invalid program_scheduling_config_json: " +:+ e))
      end
  end.

Record RouterConfig := MkRouterConfig {
  epd : option EpdConfig;
  mode : RoutingMode;
  rc_connection_mode : ConnectionMode;
  policy : PolicyConfig;
  host : string;
  rc_port : N;                             (* u16 *)
  max_payload_size : N;
  request_timeout_secs : N;
  worker_startup_timeout_secs : N;
  worker_startup_check_interval_secs : N;
  intra_node_data_parallel_size : N;
  api_key : option string;
  api_key_validation_urls : list string;
  discovery : option DiscoveryConfig;
  metrics : option MetricsConfig;
  log_dir : option string;
  log_level : option string;
  request_id_headers : option (list string);
  max_concurrent_requests : N;
  queue_size : N;
  queue_timeout_secs : N;
  rate_limit_tokens_per_second : option N;
  cors_allowed_origins : list string;
  retry : RetryConfig;
  circuit_breaker : BreakerSettings;
  disable_retries : bool;
  disable_circuit_breaker : bool;
  rc_health_check : HealthCheckConfig;
  enable_igw : bool;
  history_backend : HistoryBackend;
  enable_profiling : bool;
  profile_timeout_secs : N;
  kv_connector : KvConnector;
  program_scheduling : option ProgramSchedulingConfig;
}.

(** [RouterConfig::new], with the defaults for the rest *)
Definition new_router_config (m : RoutingMode) (p : PolicyConfig) : RouterConfig :=
  MkRouterConfig None m Http p "127.0.0.1" 3001 536870912 1800 600 30 1 None [] None None None None None 32768 100 60 None []
    default_retry default_breaker false false default_health_check false HistoryMemory false 10 Nixl None.

Definition default_router_config : RouterConfig := new_router_config (Regular []) PRandom.

Definition mode_type (c : RouterConfig) : string :=
  match mode c with Regular _ => "regular" | VllmPrefillDecode _ _ _ _ _ => "vllm_prefill_decode" | OpenAI _ => "openai" end.

Definition has_service_discovery (c : RouterConfig) : bool := from_option enabled false (discovery c).

Definition effective_retry_config (c : RouterConfig) : RetryConfig :=
  let r := retry c in
  if disable_retries c then MkRetry 1 (initial_backoff_ms r) (max_backoff_ms r) (backoff_multiplier r) (jitter_factor r) else r.

Definition effective_circuit_breaker_config (c : RouterConfig) : BreakerSettings :=
  let b := circuit_breaker c in
  if disable_circuit_breaker c
  then MkBreakerSettings u32_max (bs_success_threshold b) (timeout_duration_secs b) (window_duration_secs b) else b.

(** ** What the configuration becomes *)

(** [From<&ProgramSchedulingConfig> for ProgramSchedulerConfig]: [None] is the
    panic of a duration. *)
Definition scheduler_config (c : ProgramSchedulingConfig) : option ProgramSchedulerConfig :=
  metrics_interval ← from_secs_f64 (metrics_interval_seconds c);
  queue_timeout ← from_secs_f64 (queue_timeout_seconds c);
  force ← from_secs_f64 (force_resume_timeout_seconds c);
  paused ← from_secs_f64 (paused_retention_ttl_seconds c);
  warmup ← from_secs_f64 (shared_prefix_freshness_warmup_seconds c);
  acting ← from_secs_f64 (max_acting_ttl_seconds c);
  Some (MkSchedulerConfig (ps_enable_key c) (ps_binding_only c) (ps_global_queue c) (ps_resume_order c)
    (ps_cross_rank_headroom_ratio c) (ps_binding_strategy c) (ps_hash_virtual_nodes c) (ps_max_active_programs_per_target c)
    metrics_interval (ps_admission_waiting_request_threshold c) queue_timeout force paused warmup
    (ps_shared_prefix_freshness_kv_turnovers c)
    (MkTtlConfig (token_capacity_per_dp_rank c) (ps_decode_buffer_tokens c) acting (ps_high_watermark_ratio c)
      (ps_low_watermark_ratio c) (ps_max_segment_rounds c) (ps_stats_window_size c) (ps_enable_batch_gain_admission c)
      (prefill_cost_model c) (decode_throughput_model c))).

(** [PolicyFactory::create_from_config]: the policy, with its parameters where it
    has some. *)
Inductive CreatedPolicy :=
| CreatedKind (k : PolicyKind)
| CreatedCacheAware (cfg : CacheAwareConfig)
| CreatedKvAware (params : CostParams).

Definition create_from_config (p : PolicyConfig) : CreatedPolicy :=
  match p with
  | PRandom => CreatedKind KRandom
  | PRoundRobin => CreatedKind KRoundRobin
  | PPowerOfTwo _ => CreatedKind KPowerOfTwo
  | PCacheAware cfg => CreatedCacheAware cfg
  | PKvAware t h x d => CreatedKvAware (MkParams t (MkCredits f1 h x d) (params_block_size default_params))
  | PConsistentHash _ => CreatedKind KConsistentHash
  | PRendezvousHash => CreatedKind KRendezvousHash
  end.

(** ** The validator ([validation.rs]) *)

(** [::url::Url], with the message of a failed parse *)
Class UrlParser := {
  Url : Type;
  url_parse : string -> result Url string;
  scheme : Url -> string;
  host_str : Url -> option string;
  url_port : Url -> option N;
}.

Definition in_unit (x : f64) : bool := f64_le f0 x && f64_le x f1.

Definition in_unit32 (x : f32) : bool := SFleb (S754_zero false) x && SFleb x (f32_lit 1 1).

Definition positive_finite (fx : string * f64) : ConfigResult unit :=
  reject_if (negb (is_finite fx.2) || f64_le fx.2 f0) (InvalidValue fx.1 (OfFloat fx.2) "Must be finite and > 0").

Definition nonnegative_finite (fx : string * f64) : ConfigResult unit :=
  reject_if (negb (is_finite fx.2) || f64_lt fx.2 f0) (InvalidValue fx.1 (OfFloat fx.2) "Must be finite and >= 0").

Definition validate_program_scheduling (c : ProgramSchedulingConfig) : ConfigResult unit :=
  reject_if (bool_decide (ps_binding_strategy c = ReasoningTokenBalance) && bool_decide (token_capacity_per_dp_rank c = None))
    (ValidationFailed "reasoning_token_balance requires token_capacity_per_dp_rank") ;?
  each positive_finite [
    ("metrics_interval_seconds", metrics_interval_seconds c);
    ("queue_timeout_seconds", queue_timeout_seconds c);
    ("force_resume_timeout_seconds", force_resume_timeout_seconds c);
    ("paused_retention_ttl_seconds", paused_retention_ttl_seconds c);
    ("shared_prefix_freshness_kv_turnovers", ps_shared_prefix_freshness_kv_turnovers c)] ;?
  each nonnegative_finite [
    ("max_acting_ttl_seconds", max_acting_ttl_seconds c);
    ("shared_prefix_freshness_warmup_seconds", shared_prefix_freshness_warmup_seconds c);
    ("prefill_cost_model.intercept_seconds", intercept_seconds (prefill_cost_model c));
    ("prefill_cost_model.linear_seconds_per_1k_tokens", linear_seconds_per_1k_tokens (prefill_cost_model c));
    ("prefill_cost_model.quadratic_seconds_per_1k_tokens_squared", quadratic_seconds_per_1k_tokens_squared (prefill_cost_model c));
    ("decode_throughput_model.batch_step_seconds_per_request", batch_step_seconds_per_request (decode_throughput_model c));
    ("decode_throughput_model.context_step_seconds_per_token", context_step_seconds_per_token (decode_throughput_model c))] ;?
  (let alpha := decode_throughput_alpha (prefill_cost_model c) in
   reject_if (negb (is_finite alpha) || negb (in_unit alpha))
     (InvalidValue "prefill_cost_model.decode_throughput_alpha" (OfFloat alpha) "Must be finite and between 0 and 1 inclusive")) ;?
  (let fixed := fixed_step_seconds (decode_throughput_model c) in
   reject_if (negb (is_finite fixed) || f64_le fixed f0)
     (InvalidValue "decode_throughput_model.fixed_step_seconds" (OfFloat fixed) "Must be finite and > 0")) ;?
  reject_if ((ps_hash_virtual_nodes c =? 0)%N || (ps_max_active_programs_per_target c =? 0)%N || (ps_stats_window_size c =? 0)%N
             || (ps_max_segment_rounds c =? 0)%N || bool_decide (token_capacity_per_dp_rank c = Some 0%N))
    (ValidationFailed "Program scheduling counts and configured token capacity must be > 0") ;?
  reject_if (negb (is_finite (ps_cross_rank_headroom_ratio c)) || f64_lt (ps_cross_rank_headroom_ratio c) f1)
    (ValidationFailed "cross_rank_headroom_ratio must be finite and >= 1") ;?
  reject_if (negb (f64_lt f0 (ps_low_watermark_ratio c) && f64_le (ps_low_watermark_ratio c) (ps_high_watermark_ratio c)
                   && f64_le (ps_high_watermark_ratio c) f1))
    (ValidationFailed "Program scheduling watermarks must satisfy 0 < low <= high <= 1") ;?
  reject_if (f64_lt (queue_timeout_seconds c) (force_resume_timeout_seconds c))
    (ValidationFailed "force_resume_timeout_seconds must not exceed queue_timeout_seconds").

Definition validate_policy (p : PolicyConfig) : ConfigResult unit :=
  match p with
  | PRandom | PRoundRobin | PRendezvousHash => Ok tt
  | PCacheAware cfg =>
      reject_if (negb (in_unit32 (cache_threshold cfg)))
        (InvalidValue "cache_threshold" (OfFloat32 (cache_threshold cfg)) "Must be between 0.0 and 1.0") ;?
      reject_if (SFltb (balance_rel_threshold cfg) (f32_lit 1 1))
        (InvalidValue "balance_rel_threshold" (OfFloat32 (balance_rel_threshold cfg)) "Must be >= 1.0") ;?
      reject_if (eviction_interval_secs cfg =? 0)%N
        (InvalidValue "eviction_interval_secs" (OfInt (eviction_interval_secs cfg)) "Must be > 0") ;?
      reject_if (max_tree_size cfg =? 0)%N (InvalidValue "max_tree_size" (OfInt (max_tree_size cfg)) "Must be > 0")
  | PKvAware t h x d =>
      reject_if (negb (is_finite t) || f64_lt t f0) (InvalidValue "router_temperature" (OfFloat t) "Must be finite and >= 0.0") ;?
      each (fun fv => reject_if (negb (is_finite fv.2) || negb (in_unit fv.2))
              (InvalidValue fv.1 (OfFloat fv.2) "Must be finite and between 0.0 and 1.0"))
        [("kv_penalty_host", h); ("kv_penalty_external", x); ("kv_penalty_disk", d)]
  | PPowerOfTwo secs => reject_if (secs =? 0)%N (InvalidValue "load_check_interval_secs" (OfInt secs) "Must be > 0")
  | PConsistentHash nodes => reject_if (nodes =? 0)%N (InvalidValue "virtual_nodes" (OfInt nodes) "Must be > 0")
  end.

Definition positive (field : string) (n : N) (reason : string) : ConfigResult unit :=
  reject_if (n =? 0)%N (InvalidValue field (OfInt n) reason).

Definition validate_server_settings (c : RouterConfig) : ConfigResult unit :=
  positive "port" (rc_port c) "Port must be > 0" ;?
  positive "max_payload_size" (max_payload_size c) "Must be > 0" ;?
  positive "request_timeout_secs" (request_timeout_secs c) "Must be > 0" ;?
  positive "worker_startup_timeout_secs" (worker_startup_timeout_secs c) "Must be > 0" ;?
  positive "worker_startup_check_interval_secs" (worker_startup_check_interval_secs c) "Must be > 0".

Definition validate_discovery (d : DiscoveryConfig) (m : RoutingMode) : ConfigResult unit :=
  if negb (enabled d) then Ok tt
  else
    positive "discovery.port" (discovery_port d) "Port must be > 0" ;?
    positive "discovery.check_interval_secs" (discovery_check_interval_secs d) "Must be > 0" ;?
    match m with
    | Regular _ =>
        reject_if (bool_decide (selector d = ∅))
          (ValidationFailed "Regular mode with service discovery requires a non-empty selector")
    | VllmPrefillDecode _ _ _ _ _ =>
        reject_if (bool_decide (prefill_selector d = ∅) && bool_decide (decode_selector d = ∅))
          (ValidationFailed "vLLM PD mode with service discovery requires at least one non-empty selector (prefill or decode)")
    | OpenAI _ => Err (ValidationFailed "OpenAI mode does not support service discovery")
    end.

Definition validate_metrics (m : MetricsConfig) : ConfigResult unit :=
  positive "metrics.port" (metrics_port m) "Port must be > 0" ;?
  reject_if (bool_decide (metrics_host m = EmptyString)) (InvalidValue "metrics.host" (OfStr (metrics_host m)) "Host cannot be empty").

Definition validate_retry (r : RetryConfig) : ConfigResult unit :=
  reject_if (max_retries r <? 1)%N
    (InvalidValue "retry.max_retries" (OfInt (max_retries r)) "Must be >= 1 (set to 1 to effectively disable retries)") ;?
  positive "retry.initial_backoff_ms" (initial_backoff_ms r) "Must be > 0" ;?
  reject_if (max_backoff_ms r <? initial_backoff_ms r)%N
    (InvalidValue "retry.max_backoff_ms" (OfInt (max_backoff_ms r)) "Must be >= initial_backoff_ms") ;?
  reject_if (SFltb (backoff_multiplier r) (f32_lit 1 1))
    (InvalidValue "retry.backoff_multiplier" (OfFloat32 (backoff_multiplier r)) "Must be >= 1.0") ;?
  reject_if (negb (in_unit32 (jitter_factor r)))
    (InvalidValue "retry.jitter_factor" (OfFloat32 (jitter_factor r)) "Must be between 0.0 and 1.0").

Definition validate_circuit_breaker (b : BreakerSettings) : ConfigResult unit :=
  reject_if (bs_failure_threshold b <? 1)%N
    (InvalidValue "circuit_breaker.failure_threshold" (OfInt (bs_failure_threshold b))
       "Must be >= 1 (set to u32::MAX to effectively disable CB)") ;?
  reject_if (bs_success_threshold b <? 1)%N
    (InvalidValue "circuit_breaker.success_threshold" (OfInt (bs_success_threshold b)) "Must be >= 1") ;?
  positive "circuit_breaker.timeout_duration_secs" (timeout_duration_secs b) "Must be > 0" ;?
  positive "circuit_breaker.window_duration_secs" (window_duration_secs b) "Must be > 0".

Definition reject_mixed_worker_urls (urls : list string) : ConfigResult unit :=
  match classify_worker_urls urls with Ok _ => Ok tt | Err reason => Err (ValidationFailed reason) end.

Section parser.
Context `{U : HashOrder} `{UrlParser}.

Definition validate_url (u : string) : ConfigResult unit :=
  reject_if (bool_decide (u = EmptyString)) (InvalidValue "worker_url" (OfStr u) "URL cannot be empty") ;?
  reject_if (negb (str_starts_with u "http://" || str_starts_with u "https://" || str_starts_with u "grpc://"))
    (InvalidValue "worker_url" (OfStr u)
       "URL must start with http://, https://, or grpc://; grpcs:// requires tonic TLS support and is not enabled yet") ;?
  match url_parse (strip_dp_suffix u) with
  | Ok parsed => reject_if (bool_decide (host_str parsed = None)) (InvalidValue "worker_url" (OfStr u) "URL must have a valid host")
  | Err e => Err (InvalidValue "worker_url" (OfStr u) ("Invalid URL format: " +:+ e))
  end.

Definition validate_urls (urls : list string) : ConfigResult unit := each validate_url urls.

(** [if !urls.is_empty() { validate_urls(urls)?; reject_mixed_worker_urls(urls)?; }] *)
Definition validate_pool (urls : list string) : ConfigResult unit :=
  if bool_decide (urls = []) then Ok tt else validate_urls urls ;? reject_mixed_worker_urls urls.

Definition optional {A} (f : A -> ConfigResult unit) (o : option A) : ConfigResult unit :=
  match o with Some x => f x | None => Ok tt end.

Definition validate_mode (m : RoutingMode) (discovered : bool) : ConfigResult unit :=
  match m with
  | Regular urls => validate_pool urls
  | VllmPrefillDecode ps ds pp dp _ =>
      (if negb discovered then
         reject_if (bool_decide (ps = [])) (ValidationFailed "vLLM PD mode requires at least one prefill worker URL") ;?
         reject_if (bool_decide (ds = [])) (ValidationFailed "vLLM PD mode requires at least one decode worker URL")
       else Ok tt) ;?
      validate_pool ps.*1 ;?
      validate_pool ds ;?
      (if negb (bool_decide (ps = [])) && negb (bool_decide (ds = [])) then reject_mixed_worker_urls (ps.*1 ++ ds) else Ok tt) ;?
      each (fun up => optional (fun port => positive "bootstrap_port" port "Port must be between 1 and 65535") up.2) ps ;?
      optional validate_policy pp ;?
      optional validate_policy dp
  | OpenAI urls =>
      match urls with
      | [u] =>
          match url_parse u with
          | Ok _ => Ok tt
          | Err e => Err (ValidationFailed ("Invalid OpenAI worker URL '" +:+ u +:+ "': " +:+ e))
          end
      | _ => Err (ValidationFailed "OpenAI mode requires exactly one --worker-urls entry")
      end
  end.

(** The address of one consumer. *)
Definition validate_ec_addr (addr : string) : ConfigResult unit :=
  match url_parse addr with
  | Err e => Err (ValidationFailed ("Invalid EC address: " +:+ e))
  | Ok parsed =>
      reject_if (negb (bool_decide (scheme parsed = "tcp")) || bool_decide (host_str parsed = None) || bool_decide (url_port parsed = None))
        (ValidationFailed "EC addresses must be tcp://host:port")
  end.

Definition validate_epd (c : RouterConfig) : ConfigResult unit :=
  match epd c with
  | None => Ok tt
  | Some e =>
      match match mode c with
            | Regular urls => Some urls
            | VllmPrefillDecode ps _ _ _ None => Some ps.*1
            | _ => None
            end with
      | None => Err (ValidationFailed "EPD requires regular E+PD or static vLLM E/P/D routing")
      | Some worker_urls =>
          reject_if (negb (intra_node_data_parallel_size c =? 1)%N || enable_igw c)
            (ValidationFailed "EPD currently requires DP=1 and proxy mode") ;?
          reject_if (bool_decide (encoder_urls e = [])) (MissingRequired "epd.encoder_urls") ;?
          validate_urls (encoder_urls e) ;?
          each (fun u => reject_if (negb (str_starts_with u "http://") && negb (str_starts_with u "https://"))
                  (InvalidValue "epd.worker_url" (OfStr u) "EPD requires HTTP(S) encoder and consumer URLs"))
            (encoder_urls e ++ worker_urls) ;?
          if bool_decide (consumer_zmq_addrs e = ∅) then Ok tt
          else
            reject_if (bool_decide (worker_urls = []) || negb (size (consumer_zmq_addrs e) =? length worker_urls)%nat
                       || existsb (fun u => bool_decide (consumer_zmq_addrs e !! u = None)) worker_urls)
              (ValidationFailed "EPD consumer_zmq_addrs must map every embedding consumer URL exactly once") ;?
            each validate_ec_addr (Prelude.iter (consumer_zmq_addrs e)).*2
      end
  end.

Definition is_kv_aware (p : PolicyConfig) : bool := match p with PKvAware _ _ _ _ => true | _ => false end.
Definition is_power_of_two (p : PolicyConfig) : bool := match p with PPowerOfTwo _ => true | _ => false end.

Definition has_vllm_discovery (m : RoutingMode) : bool :=
  match m with VllmPrefillDecode _ _ _ _ (Some _) => true | _ => false end.

Definition validate_compatibility (c : RouterConfig) : ConfigResult unit :=
  let discovered := has_service_discovery c || has_vllm_discovery (mode c) in
  reject_if (negb (bool_decide (program_scheduling c = None)) && negb (match mode c with Regular _ => true | _ => false end))
    (IncompatibleConfig "Program scheduling currently requires regular HTTP routing mode") ;?
  if enable_igw c then Ok tt
  else
    match mode c with
    | VllmPrefillDecode _ _ pp dp _ =>
        reject_if (is_kv_aware (default (policy c) pp) || is_kv_aware (default (policy c) dp))
          (IncompatibleConfig "kv_aware is supported only in regular mode, not PD disaggregation")
    | _ => Ok tt
    end ;?
    (if negb discovered then
       reject_if (is_power_of_two (policy c) && (worker_count (mode c) <? 2)%nat)
         (IncompatibleConfig "Power-of-two policy requires at least 2 workers") ;?
       match mode c with
       | VllmPrefillDecode ps ds pp dp _ =>
           reject_if (from_option is_power_of_two false pp && (length ps <? 2)%nat)
             (IncompatibleConfig "Power-of-two policy for prefill requires at least 2 prefill workers") ;?
           reject_if (from_option is_power_of_two false dp && (length ds <? 2)%nat)
             (IncompatibleConfig "Power-of-two policy for decode requires at least 2 decode workers")
       | _ => Ok tt
       end
     else Ok tt) ;?
    reject_if (bool_decide (kv_connector c = MoriIO) && negb (has_vllm_discovery (mode c)))
      (IncompatibleConfig "MoRI-IO KV connector requires service discovery to be enabled (ZMQ addresses are obtained via instance registration). Please run with `--vllm-discovery-address ${address}`").

Definition validate (c : RouterConfig) : ConfigResult unit :=
  validate_mode (mode c) (has_service_discovery c || has_vllm_discovery (mode c)) ;?
  validate_policy (policy c) ;?
  validate_server_settings c ;?
  optional validate_program_scheduling (program_scheduling c) ;?
  validate_epd c ;?
  optional (fun d => validate_discovery d (mode c)) (discovery c) ;?
  optional validate_metrics (metrics c) ;?
  validate_compatibility c ;?
  validate_retry (effective_retry_config c) ;?
  validate_circuit_breaker (effective_circuit_breaker_config c).
End parser.

(** ** What an accepted configuration has *)

(** Fewer than [2 ^ 64] seconds. *)
Definition fits (x : f64) : bool :=
  match f64_ratio x with Some (n, d) => (n / d <? Z.of_N u64_mod)%Z | None => false end.

(** The fields that become durations. *)
Definition durations (c : ProgramSchedulingConfig) : list f64 :=
  [metrics_interval_seconds c; queue_timeout_seconds c; force_resume_timeout_seconds c; paused_retention_ttl_seconds c;
   shared_prefix_freshness_warmup_seconds c; max_acting_ttl_seconds c].

(** IEEE comparisons are false for NaN: the interval excludes it, the lower bound is
    one the code tests as "not below". *)
Definition unit_interval (x : f64) : Prop := f64_le f0 x = true /\ f64_le x f1 = true.
Definition unit_interval32 (x : f32) : Prop := SFleb (S754_zero false) x = true /\ SFleb x (f32_lit 1 1) = true.
Definition finite_positive (x : f64) : Prop := is_finite x = true /\ f64_lt f0 x = true.
Definition finite_nonnegative (x : f64) : Prop := is_finite x = true /\ f64_le f0 x = true.
Definition nan_or_at_least_one (x : f32) : Prop := x = S754_nan \/ SFleb (f32_lit 1 1) x = true.

Definition policy_valid (p : PolicyConfig) : Prop :=
  match p with
  | PRandom | PRoundRobin | PRendezvousHash => True
  | PCacheAware cfg => unit_interval32 (cache_threshold cfg) /\ nan_or_at_least_one (balance_rel_threshold cfg) /\
      0 < eviction_interval_secs cfg /\ 0 < max_tree_size cfg
  | PKvAware t h x d => finite_nonnegative t /\ unit_interval h /\ unit_interval x /\ unit_interval d
  | PPowerOfTwo secs => 0 < secs
  | PConsistentHash nodes => 0 < nodes
  end.

Definition retry_valid (r : RetryConfig) : Prop :=
  0 < max_retries r /\ 0 < initial_backoff_ms r <= max_backoff_ms r /\ nan_or_at_least_one (backoff_multiplier r) /\
  unit_interval32 (jitter_factor r).

Definition breaker_valid (b : BreakerSettings) : Prop :=
  0 < bs_failure_threshold b /\ 0 < bs_success_threshold b /\ 0 < timeout_duration_secs b /\ 0 < window_duration_secs b.

Definition server_valid (c : RouterConfig) : Prop :=
  0 < rc_port c /\ 0 < max_payload_size c /\ 0 < request_timeout_secs c /\ 0 < worker_startup_timeout_secs c /\
  0 < worker_startup_check_interval_secs c.

Record scheduling_valid (c : ProgramSchedulingConfig) : Prop := {
  sv_capacity : ps_binding_strategy c = ReasoningTokenBalance -> is_Some (token_capacity_per_dp_rank c);
  sv_positive : Forall finite_positive [metrics_interval_seconds c; queue_timeout_seconds c; force_resume_timeout_seconds c;
    paused_retention_ttl_seconds c; ps_shared_prefix_freshness_kv_turnovers c; fixed_step_seconds (decode_throughput_model c)];
  sv_nonnegative : Forall finite_nonnegative [max_acting_ttl_seconds c; shared_prefix_freshness_warmup_seconds c;
    intercept_seconds (prefill_cost_model c); linear_seconds_per_1k_tokens (prefill_cost_model c);
    quadratic_seconds_per_1k_tokens_squared (prefill_cost_model c); batch_step_seconds_per_request (decode_throughput_model c);
    context_step_seconds_per_token (decode_throughput_model c)];
  sv_alpha : unit_interval (decode_throughput_alpha (prefill_cost_model c));
  sv_counts : 0 < ps_hash_virtual_nodes c /\ 0 < ps_max_active_programs_per_target c /\ 0 < ps_stats_window_size c /\
    0 < ps_max_segment_rounds c /\ token_capacity_per_dp_rank c <> Some 0;
  sv_headroom : is_finite (ps_cross_rank_headroom_ratio c) = true /\ f64_le f1 (ps_cross_rank_headroom_ratio c) = true;
  sv_watermarks : f64_lt f0 (ps_low_watermark_ratio c) = true /\ f64_le (ps_low_watermark_ratio c) (ps_high_watermark_ratio c) = true /\
    f64_le (ps_high_watermark_ratio c) f1 = true;
  sv_force : f64_le (force_resume_timeout_seconds c) (queue_timeout_seconds c) = true;
}.

Definition discovery_valid (d : DiscoveryConfig) (m : RoutingMode) : Prop :=
  enabled d = true -> 0 < discovery_port d /\ 0 < discovery_check_interval_secs d /\
  match m with
  | Regular _ => selector d <> ∅
  | VllmPrefillDecode _ _ _ _ _ => prefill_selector d <> ∅ \/ decode_selector d <> ∅
  | OpenAI _ => False
  end.

Definition metrics_valid (m : MetricsConfig) : Prop := 0 < metrics_port m /\ metrics_host m <> EmptyString.

(** Workers are found by Kubernetes or by the vLLM discovery. *)
Definition discovered (c : RouterConfig) : bool := has_service_discovery c || has_vllm_discovery (mode c).

(** Gateway mode skips all but the first. *)
Record compatible (c : RouterConfig) : Prop := {
  cv_scheduling : is_Some (program_scheduling c) -> exists urls, mode c = Regular urls;
  cv_kv_aware : enable_igw c = false -> is_pd_mode (mode c) = true ->
    is_kv_aware (get_prefill_policy (mode c) (policy c)) = false /\ is_kv_aware (get_decode_policy (mode c) (policy c)) = false;
  cv_two : enable_igw c = false -> discovered c = false -> is_power_of_two (policy c) = true -> (2 <= worker_count (mode c))%nat;
  cv_two_pools : forall ps ds pp dp addr, enable_igw c = false -> discovered c = false -> mode c = VllmPrefillDecode ps ds pp dp addr ->
    (from_option is_power_of_two false pp = true -> (2 <= length ps)%nat) /\ (from_option is_power_of_two false dp = true -> (2 <= length ds)%nat);
  cv_moriio : enable_igw c = false -> kv_connector c = MoriIO -> has_vllm_discovery (mode c) = true;
}.

Section valid.
Context `{UrlParser}.

Definition http_url (u : string) : Prop := str_starts_with u "http://" = true \/ str_starts_with u "https://" = true.

(** A supported scheme and, without the rank, a host. *)
Definition url_valid (u : string) : Prop :=
  (http_url u \/ str_starts_with u "grpc://" = true) /\
  exists parsed h, url_parse (strip_dp_suffix u) = Ok parsed /\ host_str parsed = Some h.

(** Valid URLs, all of HTTP or all of gRPC workers. *)
Definition pool_valid (urls : list string) : Prop :=
  Forall url_valid urls /\ forall u v, u ∈ urls -> v ∈ urls -> url_kind u = url_kind v.

Definition mode_valid (m : RoutingMode) (discovered : bool) : Prop :=
  match m with
  | Regular urls => pool_valid urls
  | VllmPrefillDecode ps ds pp dp _ =>
      (discovered = false -> ps <> [] /\ ds <> []) /\ pool_valid (ps.*1 ++ ds) /\
      (forall u port, (u, Some port) ∈ ps -> 0 < port) /\ Forall policy_valid (option_list pp ++ option_list dp)
  | OpenAI urls => exists u parsed, urls = [u] /\ url_parse u = Ok parsed
  end.

Definition ec_addr_valid (addr : string) : Prop := exists parsed, url_parse addr = Ok parsed /\ scheme parsed = "tcp" /\
  is_Some (host_str parsed) /\ is_Some (url_port parsed).

(** The workers that consume embeddings, in the modes that have them. *)
Definition consumer_urls (m : RoutingMode) : option (list string) :=
  match m with
  | Regular urls => Some urls
  | VllmPrefillDecode ps _ _ _ None => Some ps.*1
  | _ => None
  end.

Definition epd_valid (c : RouterConfig) (e : EpdConfig) : Prop := exists consumers, consumer_urls (mode c) = Some consumers /\
  intra_node_data_parallel_size c = 1 /\ enable_igw c = false /\ encoder_urls e <> [] /\ Forall url_valid (encoder_urls e) /\
  Forall http_url (encoder_urls e ++ consumers) /\
  (consumer_zmq_addrs e <> ∅ -> consumers <> [] /\ size (consumer_zmq_addrs e) = length consumers /\
    Forall (fun u => is_Some (consumer_zmq_addrs e !! u)) consumers /\
    forall u addr, consumer_zmq_addrs e !! u = Some addr -> ec_addr_valid addr).

Record config_valid (c : RouterConfig) : Prop := {
  valid_mode : mode_valid (mode c) (discovered c);
  valid_policy : policy_valid (policy c);
  valid_server : server_valid c;
  valid_scheduling : forall ps, program_scheduling c = Some ps -> scheduling_valid ps;
  valid_epd : forall e, epd c = Some e -> epd_valid c e;
  valid_discovery : forall d, discovery c = Some d -> discovery_valid d (mode c);
  valid_metrics : forall m, metrics c = Some m -> metrics_valid m;
  valid_compatible : compatible c;
  valid_retry : retry_valid (effective_retry_config c);
  valid_breaker : breaker_valid (effective_circuit_breaker_config c);
}.
End valid.

(** ** Lemmas *)

Lemma and_then_ok r k : and_then r k = Ok tt <-> r = Ok tt /\ k = Ok tt.
Proof. destruct r as [[]|e]; simpl; [tauto|]. split; [done|by intros [? _]]. Qed.

Lemma reject_if_ok bad e : reject_if bad e = Ok tt <-> bad = false.
Proof. by destruct bad. Qed.

Lemma positive_ok field n reason : positive field n reason = Ok tt <-> 0 < n.
Proof. unfold positive. rewrite reject_if_ok, N.eqb_neq. lia. Qed.

Lemma each_ok {A} (f : A -> ConfigResult unit) l : each f l = Ok tt <-> Forall (fun x => f x = Ok tt) l.
Proof. induction l as [|x l IH]; simpl; [split; constructor|]. by rewrite and_then_ok, IH, Forall_cons. Qed.

Lemma optional_ok {A} (f : A -> ConfigResult unit) o : optional f o = Ok tt <-> forall x, o = Some x -> f x = Ok tt.
Proof. destruct o as [x|]; simpl; [split; [by intros ? ? [= <-]|auto]|done]. Qed.

Create Rewrite HintDb config.
#[export] Hint Rewrite and_then_ok reject_if_ok positive_ok @each_ok @optional_ok orb_false_iff andb_true_iff negb_false_iff negb_true_iff
  @Forall_cons N.eqb_neq N.ltb_ge : config.

(** Split an acceptance into its conditions. *)
Ltac accepted H := autorewrite with config in H; destruct_and? H.

Lemma fits_duration x : is_finite x = true -> f64_lt x f0 = false -> is_Some (from_secs_f64 x) <-> fits x = true.
Proof.
  intros Hf Hn. unfold from_secs_f64, fits. change (SFltb x (S754_zero false)) with (f64_lt x f0). rewrite Hn.
  destruct (f64_ratio x) as [[n d]|]; [|split; [by intros [? ?]|done]]. destruct (n / d <? Z.of_N u64_mod)%Z; split; try done.
Qed.

Lemma not_le_not_lt x : is_finite x = true -> f64_le x f0 = false -> f64_lt x f0 = false.
Proof. destruct x as [[]|[]| |[] m e]; done. Qed.

Lemma scheduling_accepted c : validate_program_scheduling c = Ok tt ->
  Forall (fun x => is_finite x = true /\ f64_lt x f0 = false) (durations c) /\
  (ps_binding_strategy c = ReasoningTokenBalance -> is_Some (token_capacity_per_dp_rank c)) /\
  0 < ps_hash_virtual_nodes c /\ 0 < ps_max_segment_rounds c.
Proof.
  intros H. unfold validate_program_scheduling, positive_finite, nonnegative_finite in H. accepted H. cbn [snd] in *.
  split_and!; [|intros E|lia|lia].
  - unfold durations. repeat constructor; try done; by apply not_le_not_lt.
  - destruct (token_capacity_per_dp_rank c) as [n|]; [by eexists|]. match goal with H : _ && _ = false |- _ => rewrite bool_decide_eq_true_2 in H by done; done end.
Qed.

Lemma scheduler_config_some c : is_Some (scheduler_config c) <-> Forall (fun x => is_Some (from_secs_f64 x)) (durations c).
Proof.
  unfold scheduler_config, durations. rewrite !Forall_cons.
  repeat match goal with |- context [from_secs_f64 ?x ≫= _] => destruct (from_secs_f64 x) as [?|]; cbn [mbind option_bind] end.
  all: split; naive_solver.
Qed.

(** *** Floats *)

Lemma compare_opp x y : SFcompare y x = option_map CompOpp (SFcompare x y).
Proof.
  destruct x as [sx|sx| |sx mx ex], y as [sy|sy| |sy my ey]; try done; try (destruct sx, sy; done); try (destruct sx; done); try (destruct sy; done).
  destruct sx, sy; try done; cbn; rewrite (Z.compare_antisym ex ey); destruct (Z.compare ex ey); cbn; try done;
    change (Pos.compare_cont Eq my mx) with (Pos.compare my mx); change (Pos.compare_cont Eq mx my) with (Pos.compare mx my);
    rewrite (Pos.compare_antisym mx my); destruct (Pos.compare mx my); done.
Qed.

Lemma compare_none x y : SFcompare x y = None <-> x = S754_nan \/ y = S754_nan.
Proof. destruct x as [[]|[]| |[] mx ex], y as [[]|[]| |[] my ey]; cbn; split; try done; try (by left); try (by right); by intros [?|?]. Qed.

Lemma not_lt x y : SFltb x y = false <-> x = S754_nan \/ y = S754_nan \/ SFleb y x = true.
Proof.
  unfold SFltb, SFleb. rewrite (compare_opp x y). pose proof (compare_none x y) as Hn. destruct (SFcompare x y) as [[]|] eqn:E; cbn; split; try done; try tauto.
  intros [?|[?|?]]; [| |done]; destruct Hn as [_ Hn]; specialize (Hn ltac:(tauto)); done.
Qed.

Lemma not_le x y : SFleb x y = false <-> x = S754_nan \/ y = S754_nan \/ SFltb y x = true.
Proof.
  unfold SFltb, SFleb. rewrite (compare_opp x y). pose proof (compare_none x y) as Hn. destruct (SFcompare x y) as [[]|] eqn:E; cbn; split; try done; try tauto.
  all: intros [?|[?|?]]; [| |done]; destruct Hn as [_ Hn]; specialize (Hn ltac:(tauto)); done.
Qed.

Lemma finite_number x : is_finite x = true -> x <> S754_nan.
Proof. by destruct x. Qed.

Lemma below_one x : SFltb x (f32_lit 1 1) = false <-> nan_or_at_least_one x.
Proof. rewrite not_lt. unfold nan_or_at_least_one. split; [|tauto]. intros [?|[?|?]]; [tauto|done|tauto]. Qed.

Lemma positive_number x : negb (is_finite x) || f64_le x f0 = false <-> finite_positive x.
Proof.
  unfold finite_positive, f64_le, f64_lt. rewrite orb_false_iff, negb_false_iff, not_le. split; intros [Hf Hc]; (split; [done|]); [|tauto].
  destruct Hc as [->|[?|?]]; done.
Qed.

Lemma nonnegative_number x : negb (is_finite x) || f64_lt x f0 = false <-> finite_nonnegative x.
Proof.
  unfold finite_nonnegative, f64_le, f64_lt. rewrite orb_false_iff, negb_false_iff, not_lt. split; intros [Hf Hc]; (split; [done|]); [|tauto].
  destruct Hc as [->|[?|?]]; done.
Qed.

Lemma unit_number x : negb (is_finite x) || negb (in_unit x) = false <-> unit_interval x.
Proof.
  unfold unit_interval, in_unit. rewrite orb_false_iff, !negb_false_iff, andb_true_iff. split; [tauto|]. intros [H1 H2]. split; [|done].
  by destruct x as [|[]| |].
Qed.

Lemma unit_number32 x : negb (in_unit32 x) = false <-> unit_interval32 x.
Proof. unfold unit_interval32, in_unit32. by rewrite negb_false_iff, andb_true_iff. Qed.

Create Rewrite HintDb config_floats.
#[export] Hint Rewrite below_one positive_number nonnegative_number unit_number unit_number32 : config_floats.

(** *** Each check *)

Lemma policy_checked p : validate_policy p = Ok tt <-> policy_valid p.
Proof.
  destruct p as [| |cfg|t h x d|n|n|]; cbn [validate_policy policy_valid]; try done; rewrite ?and_then_ok, ?each_ok, ?Forall_cons, ?reject_if_ok; cbn [fst snd];
    rewrite ?reject_if_ok; autorewrite with config_floats; rewrite ?N.eqb_neq, ?Forall_nil; split; intros Hp; split_and?; try tauto; try lia.
Qed.

Lemma retry_checked r : validate_retry r = Ok tt <-> retry_valid r.
Proof.
  unfold validate_retry, retry_valid. rewrite !and_then_ok, !reject_if_ok, positive_ok, below_one, unit_number32, !N.ltb_ge. split; intros; split_and?; try tauto; lia.
Qed.

Lemma breaker_checked b : validate_circuit_breaker b = Ok tt <-> breaker_valid b.
Proof. unfold validate_circuit_breaker, breaker_valid. rewrite !and_then_ok, !reject_if_ok, !positive_ok, !N.ltb_ge. lia. Qed.

Lemma server_checked c : validate_server_settings c = Ok tt <-> server_valid c.
Proof. unfold validate_server_settings, server_valid. by rewrite !and_then_ok, !positive_ok. Qed.

Lemma metrics_checked m : validate_metrics m = Ok tt <-> metrics_valid m.
Proof. unfold validate_metrics, metrics_valid. by rewrite and_then_ok, positive_ok, reject_if_ok, bool_decide_eq_false. Qed.

Lemma discovery_checked d m : validate_discovery d m = Ok tt <-> discovery_valid d m.
Proof.
  unfold validate_discovery, discovery_valid. destruct (enabled d); cbn [negb]; [|done]. rewrite !and_then_ok, !positive_ok.
  destruct m; rewrite ?reject_if_ok, ?andb_false_iff, ?bool_decide_eq_false; [tauto| |tauto]. split; [by intros (_ & _ & ?)|by intros (_ & _ & ?)].
Qed.

Lemma credit_ok v : negb (is_finite v) || negb (in_unit v) = false -> is_finite v && f64_le f0 v && f64_le v f1 = true.
Proof. unfold in_unit. by destruct (is_finite v), (f64_le f0 v), (f64_le v f1). Qed.

Lemma ordered_numbers x y : finite_positive x -> finite_positive y -> f64_lt y x = false <-> f64_le x y = true.
Proof.
  intros [Hx%finite_number _] [Hy%finite_number _]. unfold f64_lt, f64_le. rewrite not_lt. tauto.
Qed.

Lemma scheduling_checked c : validate_program_scheduling c = Ok tt <-> scheduling_valid c.
Proof.
  unfold validate_program_scheduling, positive_finite, nonnegative_finite. rewrite !and_then_ok, !each_ok, !Forall_cons, !Forall_nil. cbn [fst snd].
  rewrite !reject_if_ok. autorewrite with config_floats.
  rewrite !orb_false_iff, !negb_false_iff, !andb_true_iff, !N.eqb_neq, andb_false_iff, !bool_decide_eq_false.
  assert (Hcap : ps_binding_strategy c <> ReasoningTokenBalance \/ token_capacity_per_dp_rank c <> None <->
    (ps_binding_strategy c = ReasoningTokenBalance -> is_Some (token_capacity_per_dp_rank c))).
  { rewrite <- not_eq_None_Some. destruct (decide (ps_binding_strategy c = ReasoningTokenBalance)); tauto. }
  assert (Hhead : is_finite (ps_cross_rank_headroom_ratio c) = true -> f64_lt (ps_cross_rank_headroom_ratio c) f1 = false <-> f64_le f1 (ps_cross_rank_headroom_ratio c) = true).
  { intros Hf%finite_number. unfold f64_lt, f64_le. rewrite not_lt. split; [intros [?|[?|?]]; done|tauto]. }
  pose proof (ordered_numbers (force_resume_timeout_seconds c) (queue_timeout_seconds c)) as Hforce. split.
  - intros (H1 & (P1 & P2 & P3 & P4 & P5 & _) & H3 & H4 & H5 & H6 & H7 & H8 & H9). constructor; rewrite ?Forall_cons, ?Forall_nil; try tauto; split_and?; try tauto; lia.
  - intros [V1 V2 V3 V4 V5 V6 V7 V8]. repeat match goal with H : Forall _ (_ :: _) |- _ => apply Forall_cons in H as [? H] end. split_and?; try tauto; lia.
Qed.

Lemma compatible_checked c : validate_compatibility c = Ok tt <-> compatible c.
Proof.
  unfold validate_compatibility. fold (discovered c). rewrite and_then_ok, reject_if_ok, andb_false_iff, negb_false_iff, bool_decide_eq_true.
  assert (Hps : program_scheduling c = None \/ negb (match mode c with Regular _ => true | _ => false end) = false <->
    (is_Some (program_scheduling c) -> exists urls, mode c = Regular urls)).
  { destruct (program_scheduling c) as [ps|]; [|split; [by intros _ [? ?]|by left]].
    destruct (mode c) as [urls| |]; cbn; (split; [intros [?|?]; [done|]|intros Hm; right]); try done; [by exists urls|by destruct (Hm ltac:(eauto))..]. }
  rewrite Hps. destruct (enable_igw c) eqn:Eg.
  { split; [intros [? _]; constructor; intros; congruence || auto|]. intros []. tauto. }
  rewrite !and_then_ok, reject_if_ok. split.
  - intros (H1 & H2 & H3 & H4). constructor; try done.
    + intros _ Em. destruct (mode c) as [| |ps ds pp dp addr]; [done..|]. rewrite reject_if_ok, orb_false_iff in H2. exact H2.
    + intros _ Ed Ep. rewrite Ed, Ep in H3. cbn [negb] in H3. rewrite and_then_ok, reject_if_ok in H3. destruct H3 as [H3 _]. cbn [andb] in H3. by apply Nat.ltb_ge in H3.
    + intros ps ds pp dp addr _ Ed Em. rewrite Ed, Em in H3. cbn [negb] in H3. rewrite !and_then_ok, !reject_if_ok, !andb_false_iff, !Nat.ltb_ge in H3.
      destruct H3 as (_ & [?|?] & [?|?]); split; intros; congruence || lia.
    + intros _ Ek. rewrite bool_decide_eq_true_2 in H4 by done. by destruct (has_vllm_discovery (mode c)).
  - intros [V1 V2 V3 V4 V5]. split_and!; [done| | |].
    + destruct (mode c) as [| |ps ds pp dp addr]; [done..|]. rewrite reject_if_ok, orb_false_iff. by apply V2.
    + destruct (discovered c); [done|]. cbn [negb]. rewrite and_then_ok, reject_if_ok. split.
      * destruct (is_power_of_two (policy c)); [|done]. apply Nat.ltb_ge, V3; done.
      * destruct (mode c) as [| |ps ds pp dp addr]; [done..|]. destruct (V4 ps ds pp dp addr) as [W1 W2]; try done.
        rewrite and_then_ok, !reject_if_ok, !andb_false_iff, !Nat.ltb_ge.
        split; [destruct (from_option is_power_of_two false pp)|destruct (from_option is_power_of_two false dp)]; tauto.
    + destruct (bool_decide_reflect (kv_connector c = MoriIO)) as [E|]; [|done]. by rewrite V5.
Qed.

(** *** URLs *)

Lemma strip_prefix_app p s r : WorkerUrl.strip_prefix p s = Some r -> s = p +:+ r.
Proof.
  revert s. induction p as [|a p IH]; intros s; simpl; [by intros [= ->]|]. destruct s as [|b s]; [done|].
  destruct (Ascii.eqb_spec a b) as [->|]; [|done]. intros E%IH. by subst.
Qed.

(** A supported scheme is not the unsupported one. *)
Lemma scheme_supported u : http_url u \/ str_starts_with u "grpc://" = true ->
  u <> EmptyString /\ str_starts_with u "grpcs://" = false /\
  str_starts_with u "http://" || str_starts_with u "https://" || str_starts_with u "grpc://" = true.
Proof.
  unfold http_url, str_starts_with. rewrite !bool_decide_eq_true. intros Hu.
  assert (Hne : exists p r, p ∈ ["http://"; "https://"; "grpc://"] /\ u = p +:+ r).
  { destruct Hu as [[[r E]|[r E]]|[r E]]; apply strip_prefix_app in E; eexists _, r; (split; [|exact E]); set_solver. }
  destruct Hne as (p & r & Hp & ->). rewrite !elem_of_cons, elem_of_nil in Hp.
  destruct Hp as [->|[->|[->|[]]]]; (split; [done|]); (split; [by apply bool_decide_eq_false; intros [? ?]|]); rewrite !orb_true_iff, !bool_decide_eq_true; tauto.
Qed.

Section urls.
Context `{UrlParser}.

Lemma url_checked u : validate_url u = Ok tt <-> url_valid u.
Proof.
  unfold validate_url, url_valid. rewrite !and_then_ok, !reject_if_ok, bool_decide_eq_false, negb_false_iff. split.
  - intros (_ & Hs & Hp). split; [unfold http_url; by rewrite !orb_true_iff in Hs|].
    destruct (url_parse (strip_dp_suffix u)) as [parsed|]; [|done]. rewrite reject_if_ok, bool_decide_eq_false in Hp.
    destruct (host_str parsed) as [h|] eqn:Eh; [|done]. by exists parsed, h.
  - intros [Hs (parsed & h & -> & Eh)]. destruct (scheme_supported u Hs) as (? & _ & ?). rewrite reject_if_ok, Eh. done.
Qed.

Lemma mixed_checked urls : Forall (fun u => str_starts_with u "grpcs://" = false) urls ->
  reject_mixed_worker_urls urls = Ok tt <-> forall u v, u ∈ urls -> v ∈ urls -> url_kind u = url_kind v.
Proof.
  intros Hs. unfold reject_mixed_worker_urls, classify_worker_urls. pose proof (classify_from_spec None urls) as Hc.
  destruct (classify_from None urls) as [k|e].
  - split; [intros _|done]. destruct Hc as [_ [(_ & -> & _)|(e & _ & _ & Hk)]]; [by intros ? ? ?%elem_of_nil|].
    rewrite Forall_forall in Hk. intros u v Hu Hv. by rewrite (Hk u Hu), (Hk v Hv).
  - split; [done|]. intros Hk. destruct Hc as [Hc|(k1 & u2 & [?|Hu1] & Hu2 & Hne)]; [|done|].
    + rewrite Exists_exists in Hc. destruct Hc as (u & Hu & E). rewrite Forall_forall in Hs. by rewrite (Hs u Hu) in E.
    + apply list_elem_of_fmap in Hu1 as (u1 & -> & Hu1). destruct Hne. by apply Hk.
Qed.

Lemma valid_supported urls : Forall url_valid urls -> Forall (fun u => str_starts_with u "grpcs://" = false) urls.
Proof. intros Hu. eapply Forall_impl; [exact Hu|]. intros u [Hs _]. apply (scheme_supported u Hs). Qed.

Lemma urls_checked urls : validate_urls urls = Ok tt <-> Forall url_valid urls.
Proof. unfold validate_urls. rewrite each_ok. by setoid_rewrite url_checked. Qed.

Lemma pool_checked urls : validate_pool urls = Ok tt <-> pool_valid urls.
Proof.
  unfold validate_pool, pool_valid. case_bool_decide as E.
  - subst. split; [intros _|done]. split; [constructor|by intros ? ? ?%elem_of_nil].
  - rewrite and_then_ok, urls_checked. split; intros [Hu Hk]; (split; [done|]); by apply (mixed_checked urls (valid_supported urls Hu)).
Qed.

Lemma ports_checked ps :
  each (fun up : string * option N => optional (fun port => positive "bootstrap_port" port "Port must be between 1 and 65535") up.2) ps = Ok tt <->
  forall u port, (u, Some port) ∈ ps -> 0 < port.
Proof.
  rewrite each_ok, Forall_forall. setoid_rewrite optional_ok. setoid_rewrite positive_ok. split.
  - intros Hp u port Hin. by apply (Hp (u, Some port) Hin).
  - intros Hp [u o] Hin port E. simpl in E. subst. by apply (Hp u).
Qed.

Lemma mode_checked m d : validate_mode m d = Ok tt <-> mode_valid m d.
Proof.
  destruct m as [urls|urls|ps ds pp dp addr]; cbn [validate_mode mode_valid]; [apply pool_checked| |].
  - destruct urls as [|u [|v urls]]; [split; [done|by intros (? & ? & ? & _)]| |split; [done|by intros (? & ? & ? & _)]].
    destruct (url_parse u) as [parsed|e] eqn:E; split; try done; [by exists u, parsed|]. intros (u' & parsed & [= <-] & E'). by rewrite E in E'.
  - rewrite !and_then_ok, !pool_checked, ports_checked, !optional_ok. setoid_rewrite policy_checked. rewrite Forall_app.
    assert (Hd : (if negb d then (reject_if (bool_decide (ps = [])) (ValidationFailed "vLLM PD mode requires at least one prefill worker URL") ;?
      reject_if (bool_decide (ds = [])) (ValidationFailed "vLLM PD mode requires at least one decode worker URL")) else Ok tt) = Ok tt <->
      (d = false -> ps <> [] /\ ds <> [])).
    { destruct d; cbn [negb]; [done|]. rewrite and_then_ok, !reject_if_ok, !bool_decide_eq_false. tauto. }
    assert (Hpol : forall o : option PolicyConfig, (forall x, o = Some x -> policy_valid x) <-> Forall policy_valid (option_list o)).
    { intros [p|]; simpl; [rewrite Forall_singleton; naive_solver|]. split; [constructor|done]. }
    rewrite Hd, <- !Hpol.
    assert (Hpool : pool_valid ps.*1 /\ pool_valid ds /\
      (if negb (bool_decide (ps = [])) && negb (bool_decide (ds = [])) then reject_mixed_worker_urls (ps.*1 ++ ds) else Ok tt) = Ok tt <-> pool_valid (ps.*1 ++ ds)).
    { unfold pool_valid. rewrite Forall_app. split.
      - intros ([Hp Kp] & [Hd' Kd] & Hm). split; [done|]. destruct (decide (ps = [])) as [->|Ep]; [done|].
        destruct (decide (ds = [])) as [->|Ed]; [by rewrite app_nil_r|]. rewrite !bool_decide_eq_false_2 in Hm by done. cbn [negb andb] in Hm.
        revert Hm. apply mixed_checked. by apply valid_supported, Forall_app.
      - intros [[Hp Hd'] K]. split_and!; [done|intros u v ? ?; apply K; apply elem_of_app; by left|done|intros u v ? ?; apply K; apply elem_of_app; by right|].
        destruct (negb (bool_decide (ps = [])) && negb (bool_decide (ds = []))); [|done]. apply mixed_checked; [|done]. by apply valid_supported, Forall_app. }
    rewrite <- Hpool. tauto.
Qed.

Lemma ec_addr_checked addr : validate_ec_addr addr = Ok tt <-> ec_addr_valid addr.
Proof.
  unfold validate_ec_addr, ec_addr_valid. destruct (url_parse addr) as [parsed|e]; [|split; [done|by intros (? & ? & _)]].
  rewrite reject_if_ok, !orb_false_iff, negb_false_iff, bool_decide_eq_true, !bool_decide_eq_false, !not_eq_None_Some. split.
  - intros [[? ?] ?]. by exists parsed.
  - intros (p & [= <-] & ? & ? & ?). done.
Qed.

Lemma http_checked urls : each (fun u => reject_if (negb (str_starts_with u "http://") && negb (str_starts_with u "https://"))
    (InvalidValue "epd.worker_url" (OfStr u) "EPD requires HTTP(S) encoder and consumer URLs")) urls = Ok tt <-> Forall http_url urls.
Proof.
  rewrite each_ok, !Forall_forall. setoid_rewrite reject_if_ok. unfold http_url.
  split; intros Hu u Hin; specialize (Hu u Hin); destruct (str_starts_with u "http://"), (str_starts_with u "https://"); cbn in *; naive_solver.
Qed.

Lemma epd_checked `{HashOrder} c : validate_epd c = Ok tt <-> forall e, epd c = Some e -> epd_valid c e.
Proof.
  unfold validate_epd. destruct (epd c) as [e|]; [|done]. fold (consumer_urls (mode c)).
  assert (Hone : (forall e', Some e = Some e' -> epd_valid c e') <-> epd_valid c e) by naive_solver. rewrite Hone. clear Hone. unfold epd_valid.
  destruct (consumer_urls (mode c)) as [consumers|]; [|split; [done|by intros (? & ? & _)]].
  rewrite !and_then_ok, !reject_if_ok, urls_checked, http_checked, orb_false_iff, negb_false_iff, N.eqb_eq, bool_decide_eq_false.
  assert (Hz : (if bool_decide (consumer_zmq_addrs e = ∅) then Ok tt
      else reject_if (bool_decide (consumers = []) || negb (size (consumer_zmq_addrs e) =? length consumers)%nat
             || existsb (fun u => bool_decide (consumer_zmq_addrs e !! u = None)) consumers)
        (ValidationFailed "EPD consumer_zmq_addrs must map every embedding consumer URL exactly once") ;?
        each validate_ec_addr (Prelude.iter (consumer_zmq_addrs e)).*2) = Ok tt <->
    (consumer_zmq_addrs e <> ∅ -> consumers <> [] /\ size (consumer_zmq_addrs e) = length consumers /\
      Forall (fun u => is_Some (consumer_zmq_addrs e !! u)) consumers /\
      forall u addr, consumer_zmq_addrs e !! u = Some addr -> ec_addr_valid addr)).
  { case_bool_decide as E; [tauto|]. rewrite and_then_ok, reject_if_ok, !orb_false_iff, bool_decide_eq_false, negb_false_iff, Nat.eqb_eq, each_ok.
    assert (Hex : existsb (fun u => bool_decide (consumer_zmq_addrs e !! u = None)) consumers = false <->
      Forall (fun u => is_Some (consumer_zmq_addrs e !! u)) consumers).
    { induction consumers as [|u l IH]; simpl; [split; [constructor|done]|]. rewrite orb_false_iff, IH, Forall_cons, bool_decide_eq_false, not_eq_None_Some. done. }
    assert (Hall : Forall (fun x => validate_ec_addr x = Ok tt) (Prelude.iter (consumer_zmq_addrs e)).*2 <->
      forall u addr, consumer_zmq_addrs e !! u = Some addr -> ec_addr_valid addr).
    { rewrite Forall_fmap, Forall_forall. split.
      - intros Ha u addr Hu. apply ec_addr_checked, (Ha (u, addr)). by apply elem_of_iter.
      - intros Ha [u addr] Hu%elem_of_iter. by apply ec_addr_checked, (Ha u). }
    rewrite Hex, Hall. tauto. }
  rewrite Hz. naive_solver.
Qed.
End urls.

(** ** Properties *)

(** A configuration of program scheduling that is accepted is one for which
    the scheduler is proved: its conversion has nodes to hash to, a capacity when
    programs are balanced by tokens, and rounds in a segment.  The conversion
    panics exactly when a duration has [2 ^ 64] seconds or more, which validation
    does not exclude. *)
Theorem validated_scheduler c : validate_program_scheduling c = Ok tt ->
  match scheduler_config c with
  | Some sc => config_ok sc /\ forallb fits (durations c) = true
  | None => existsb (fun x => negb (fits x)) (durations c) = true
  end.
Proof.
  intros (Hd & Hcap & Hn & Hr)%scheduling_accepted. pose proof (scheduler_config_some c) as Hs.
  assert (Forall (fun x => is_Some (from_secs_f64 x)) (durations c) <-> forallb fits (durations c) = true) as Hf.
  { clear Hs. rewrite forallb_forall. setoid_rewrite <- list_elem_of_In. rewrite Forall_forall in Hd |- *.
    split; intros H x Hx; [apply fits_duration|apply fits_duration]; try apply Hd; auto. }
  destruct (scheduler_config c) as [sc|] eqn:E.
  - split; [|apply Hf, Hs; by eexists]. unfold scheduler_config in E. simplify_option_eq. by split.
  - destruct (existsb _ _) eqn:Ex; [done|]. assert (is_Some (None : option ProgramSchedulerConfig)) as [? ?]; [|done]. apply Hs, Hf, forallb_forall.
    intros x Hx. destruct (fits x) eqn:Efx; [done|]. assert (existsb (fun x => negb (fits x)) (durations c) = true); [|congruence].
    apply existsb_exists. exists x. by rewrite Efx.
Qed.

(** C31: a configuration of the router is accepted exactly when it is valid.  All
    workers have a supported scheme and a host, and all are HTTP or all are gRPC workers
    (an OpenAI router has one URL that parses); the ports, sizes and intervals are
    positive; each policy, the retries and the breaker, as they take effect, have
    parameters in range, where a backoff multiplier or a relative balance threshold that
    is NaN passes as one of at least 1; program scheduling, service discovery, metrics
    and encoder pools are valid where they are configured; programs are scheduled in
    regular mode only; and, unless gateway mode skips these checks, no KV-aware policy
    serves a disaggregated pool, a power-of-two policy has two workers or finds them
    itself, and MoRI-IO has the vLLM discovery. *)
Theorem validated_router `{HashOrder} `{UrlParser} c : validate c = Ok tt <-> config_valid c.
Proof.
  unfold validate. fold (discovered c). rewrite !and_then_ok, !optional_ok.
  rewrite mode_checked, policy_checked, server_checked, epd_checked, compatible_checked, retry_checked, breaker_checked.
  setoid_rewrite scheduling_checked. setoid_rewrite discovery_checked. setoid_rewrite metrics_checked.
  split; [intros (? & ? & ? & ? & ? & ? & ? & ? & ? & ?); by constructor|intros []; tauto].
Qed.

(** The parameters of an accepted KV-aware policy are those it is proved for. *)
Theorem validated_kv_aware t h x d params : validate_policy (PKvAware t h x d) = Ok tt ->
  create_from_config (PKvAware t h x d) = CreatedKvAware params -> params_ready params.
Proof.
  rewrite policy_checked. cbn [policy_valid create_from_config]. intros (Ht & Hh & Hx & Hd) [= <-]. split; [|done].
  apply unit_number, credit_ok in Hh, Hx, Hd. apply nonnegative_number, orb_false_iff in Ht as [Ht1%negb_false_iff Ht2].
  unfold params_valid, credits_valid. cbn [router_temperature transfer_credits device host_pinned external disk forallb].
  by rewrite Hh, Hx, Hd, Ht1, Ht2.
Qed.

(** *** Witnesses *)

Lemma validated_scheduler_witness : exists sc, scheduler_config default_scheduling = Some sc /\ config_ok sc.
Proof.
  pose proof (validated_scheduler default_scheduling) as H. destruct (scheduler_config default_scheduling) as [sc|] eqn:E.
  - exists sc. split; [reflexivity|]. apply H. vm_compute. reflexivity.
  - vm_compute in E. discriminate E.
Defined.

#[local] Instance plain_urls : UrlParser := {|
  Url := string; url_parse := Ok; scheme _ := "http"; host_str u := Some u; url_port _ := None |}.

#[local] Instance config_order : HashOrder := {| key_order _ _ _ s := elements s; key_order_perm _ _ _ s := Permutation_refl _ |}.

Definition two_workers : RouterConfig :=
  new_router_config (Regular ["http://a:1"; "http://b:1"]) (PKvAware f0 (f64_dec 8 10) (f64_dec 6 10) (f64_dec 3 10)).

Example two_workers_accepted : validate two_workers = Ok tt.
Proof. vm_compute. reflexivity. Qed.

(** A multiplier that is no number is accepted as one of at least 1, and a queue
    timeout of [2 ^ 64] seconds is accepted but cannot be converted. *)
Example not_a_number_accepted :
  validate_retry (MkRetry 5 50 30000 S754_nan (f32_lit 1 5)) = Ok tt /\
  validate_policy (PCacheAware (MkCacheAwareConfig (f32_lit 1 2) 32 S754_nan 30 10000)) = Ok tt.
Proof. split; vm_compute; reflexivity. Qed.

Example long_timeout_panics : let d := default_scheduling in
  let c := MkScheduling (ps_enable_key d) (ps_binding_only d) (ps_global_queue d) (ps_resume_order d) (ps_cross_rank_headroom_ratio d)
    (ps_binding_strategy d) (ps_hash_virtual_nodes d) (token_capacity_per_dp_rank d) (ps_max_active_programs_per_target d)
    (metrics_interval_seconds d) (ps_admission_waiting_request_threshold d) (f64_lit (2 ^ 64) 1) (force_resume_timeout_seconds d)
    (paused_retention_ttl_seconds d) (shared_prefix_freshness_warmup_seconds d) (ps_shared_prefix_freshness_kv_turnovers d)
    (ps_decode_buffer_tokens d) (max_acting_ttl_seconds d) (ps_high_watermark_ratio d) (ps_low_watermark_ratio d)
    (ps_max_segment_rounds d) (ps_stats_window_size d) (ps_enable_batch_gain_admission d) (prefill_cost_model d) (decode_throughput_model d) 0 in
  validate_program_scheduling c = Ok tt /\ scheduler_config c = None.
Proof. split; vm_compute; reflexivity. Qed.
