(* ===== verification/Retry.v ===== *)
(** * Retries ([src/core/retry.rs])

    The delay between two attempts and the executor that repeats an operation.
    The operation of an attempt, an asynchronous call, is a function of the number
    of the attempt and of the state it changes; what the executor does besides, its
    calls of [on_backoff] and [on_exhausted] and its sleeps, is its trace.  The
    power of a float comes from the platform's library and the jitter from a random
    number generator: both are arguments. *)

From S2P Require Import Prelude Ieee WorkerUrl CircuitBreaker CacheAware Config.
From stdpp Require Import strings.

Local Open Scope N_scope.

Definition is_retryable_status (status : N) : bool := bool_decide (status ∈ [408; 429; 500; 502; 503; 504]).

(** ** Backoff *)

Definition f32_round (x : f32) : f32 :=
  match f64_ratio x with
  | Some (n, d) => binary_normalize 24 128 (Z.sgn n * ((2 * Z.abs n + d) / (2 * d))) 0 (is_negative x)
  | None => x
  end.

(** [x as i64] truncates and saturates; NaN is zero. *)
Definition f32_as_i64 (x : f32) : Z :=
  match x with
  | S754_infinity false => 2 ^ 63 - 1
  | S754_infinity true => - 2 ^ 63
  | _ => match f64_ratio x with Some (n, d) => Z.max (- 2 ^ 63) (Z.min (Z.quot n d) (2 ^ 63 - 1)) | None => 0 end
  end%Z.

(** [n as i32] for a [u32] *)
Definition as_i32 (n : N) : Z := if n <? 2 ^ 31 then Z.of_N n else (Z.of_N n - 2 ^ 32)%Z.

Definition base_delay_ms (powi : f32 -> Z -> f32) (cfg : RetryConfig) (attempt : N) : N :=
  let pow := powi (backoff_multiplier cfg) (as_i32 attempt) in
  let delay_ms := f64_as_usize (f32_mul (usize_as_f32 (initial_backoff_ms cfg)) pow) in
  if max_backoff_ms cfg <? delay_ms then max_backoff_ms cfg else delay_ms.

(** [jitter_scale] is the number drawn from [-jitter ..= jitter].  Milliseconds. *)
Definition calculate_delay (powi : f32 -> Z -> f32) (jitter_scale : f32) (cfg : RetryConfig) (attempt : N) : N :=
  let delay_ms := base_delay_ms powi cfg attempt in
  let jitter := f64_clamp (jitter_factor cfg) (S754_zero false) (f32_lit 1 1) in
  if float_gt jitter (S754_zero false) then
    let jitter_ms := f64_max (f32_round (f32_mul (usize_as_f32 delay_ms) jitter_scale)) (SFopp (usize_as_f32 delay_ms)) in
    Z.to_N (Z.max (as_isize (Z.to_N ((as_isize delay_ms + f32_as_i64 jitter_ms) mod Z.of_N u64_mod))) 0)
  else delay_ms.

(** ** The executor *)

Inductive retry_event :=
| Attempted (attempt : N)
| Backoff (delay : N) (next_attempt : N)   (* and the sleep *)
| Exhausted.

Section executor.
Context {S R : Type} (cfg : RetryConfig) (operation : N -> S -> R * S) (should_retry : R -> N -> bool) (delay : N -> N).

Definition max_attempts : N := N.max (max_retries cfg) 1.

(** The loop, from an attempt on; the fuel is the number of attempts left. *)
Fixpoint retry_loop (fuel : nat) (attempt : N) (s : S) : option (R * S * list retry_event) :=
  match fuel with
  | O => None
  | Datatypes.S fuel =>
      let '(response, s) := operation attempt s in
      let is_last := max_attempts <=? attempt + 1 in
      if negb (should_retry response attempt) then Some (response, s, [Attempted attempt])
      else if is_last then Some (response, s, [Attempted attempt; Exhausted])
      else
        '(r, s, tr) ← retry_loop fuel (attempt + 1) s;
        Some (r, s, Attempted attempt :: Backoff (delay attempt) (attempt + 1) :: tr)
  end.

Definition execute_response_with_retry (s : S) : option (R * S * list retry_event) := retry_loop (N.to_nat max_attempts) 0 s.
End executor.

Inductive RetryError := NoAvailableWorkers | MaxRetriesExceeded.

(** [execute_with_retry]: the same loop on operations that fail. *)
Section fallible.
Context {S T : Type} (cfg : RetryConfig) (operation : N -> S -> option T * S) (delay : N -> N).

Fixpoint retry_fallible (fuel : nat) (attempt : N) (s : S) : option (result T RetryError * S) :=
  match fuel with
  | O => None
  | Datatypes.S fuel =>
      match operation attempt s with
      | (Some v, s) => Some (Ok v, s)
      | (None, s) =>
          if max_attempts cfg <=? attempt + 1 then Some (Err MaxRetriesExceeded, s)
          else retry_fallible fuel (attempt + 1) s
      end
  end.

Definition execute_with_retry (s : S) : option (result T RetryError * S) := retry_fallible (N.to_nat (max_attempts cfg)) 0 s.
End fallible.

(** ** Specification *)

Section spec.
Context {S R : Type} (operation : N -> S -> R * S) (delay : N -> N).

(** The state and the response of attempt [n], when all before are made. *)
Fixpoint after_attempts (n : nat) (first : N) (s : S) : S :=
  match n with O => s | Datatypes.S n => after_attempts n (first + 1) (operation first s).2 end.

Definition response_of (s : S) (n : nat) : R := (operation (N.of_nat n) (after_attempts n 0 s)).1.

(** The events of [n] attempts that are retried. *)
Fixpoint retried (n : nat) (first : N) : list retry_event :=
  match n with O => [] | Datatypes.S n => Attempted first :: Backoff (delay first) (first + 1) :: retried n (first + 1) end.
End spec.

(** ** Lemmas *)

Section loop.
Context {S R : Type} (cfg : RetryConfig) (operation : N -> S -> R * S) (should_retry : R -> N -> bool) (delay : N -> N).

Lemma retry_loop_spec fuel first s : (0 < fuel)%nat -> first + N.of_nat fuel = max_attempts cfg ->
  exists k, (k < fuel)%nat /\
    let response n := (operation (first + N.of_nat n) (after_attempts operation n first s)).1 in
    (forall i, (i < k)%nat -> should_retry (response i) (first + N.of_nat i) = true) /\
    (should_retry (response k) (first + N.of_nat k) = true -> first + N.of_nat k + 1 = max_attempts cfg) /\
    retry_loop cfg operation should_retry delay fuel first s =
      Some (response k, (operation (first + N.of_nat k) (after_attempts operation k first s)).2,
        retried delay k first ++ Attempted (first + N.of_nat k) ::
          if should_retry (response k) (first + N.of_nat k) then [Exhausted] else []).
Proof.
  revert first s. induction fuel as [|fuel IH]; intros first s Hf Hmax; [lia|]. cbn [retry_loop].
  destruct (operation first s) as [r s'] eqn:E. destruct (should_retry r first) eqn:Er; cbn [negb].
  - destruct (N.leb_spec (max_attempts cfg) (first + 1)) as [Hle|Hlt].
    + exists 0%nat. cbn. rewrite N.add_0_r, E. cbn. rewrite Er. split_and!; [lia|lia|lia|done].
    + destruct (IH (first + 1) s') as (k & Hk & H1 & H2 & ->); [lia|lia|]. exists (Datatypes.S k).
      cbn zeta. rewrite Nat2N.inj_succ. replace (first + N.succ (N.of_nat k)) with (first + 1 + N.of_nat k) by lia.
      cbn [after_attempts]. rewrite E. cbn [snd]. split_and!; [lia| |done|done].
      intros [|i] Hi; [cbn; by rewrite N.add_0_r, E|]. rewrite Nat2N.inj_succ. replace (first + N.succ (N.of_nat i)) with (first + 1 + N.of_nat i) by lia.
      cbn [after_attempts]. rewrite E. apply H1. lia.
  - exists 0%nat. cbn. rewrite N.add_0_r, E. cbn. rewrite Er. split_and!; [lia|lia|done|done].
Qed.
End loop.

(** An operation that fails is retried like a response that is no value. *)
Lemma retry_fallible_spec {S T} cfg (operation : N -> S -> option T * S) fuel first s : (0 < fuel)%nat -> first + N.of_nat fuel = max_attempts cfg ->
  exists s', retry_fallible cfg operation fuel first s =
    ('(r, s, _) ← retry_loop cfg operation (fun r _ => bool_decide (r = None)) (fun _ => 0) fuel first s;
     Some (match r with Some v => Ok v | None => Err MaxRetriesExceeded end, s)) /\
  exists r, retry_fallible cfg operation fuel first s = Some (r, s').
Proof.
  revert first s. induction fuel as [|fuel IH]; intros first s Hf Hmax; [lia|]. cbn [retry_fallible retry_loop].
  destruct (operation first s) as [[v|] s'].
  - rewrite bool_decide_eq_false_2 by done. cbn. eauto.
  - rewrite bool_decide_eq_true_2 by done. cbn [negb]. destruct (N.leb_spec (max_attempts cfg) (first + 1)) as [Hle|Hlt]; [cbn; eauto|].
    destruct (IH (first + 1) s') as (s2 & E & r & E'); [lia|lia|]. rewrite E'. exists s2. split; [|eauto].
    rewrite E in E'. destruct (retry_loop _ _ _ _ fuel _ s') as [[[r' ?] ?]|]; [|done]. cbn in *. by injection E' as <- <-.
Qed.

Lemma base_capped powi cfg attempt : base_delay_ms powi cfg attempt <= max_backoff_ms cfg.
Proof. unfold base_delay_ms. set (d := f64_as_usize _). destruct (N.ltb_spec (max_backoff_ms cfg) d); lia. Qed.

(** ** Properties *)

(** C30: the executor ends.  It makes the attempts [0], [1], ... up to some [k], at
    most the maximum (and one when that is zero), sleeping between two of them and
    nowhere else; every response before the last is one to retry, and the answer is
    the last response.  Retries are exhausted exactly when that one is still to be
    retried, and then all attempts were made. *)
Theorem retry_contract {S R} cfg (operation : N -> S -> R * S) should_retry delay s :
  exists k, (k < N.to_nat (N.max (max_retries cfg) 1))%nat /\
    let response := response_of operation s in
    (forall i, (i < k)%nat -> should_retry (response i) (N.of_nat i) = true) /\
    (should_retry (response k) (N.of_nat k) = true -> N.of_nat k + 1 = N.max (max_retries cfg) 1) /\
    execute_response_with_retry cfg operation should_retry delay s =
      Some (response k, (operation (N.of_nat k) (after_attempts operation k 0 s)).2,
        retried delay k 0 ++ Attempted (N.of_nat k) :: if should_retry (response k) (N.of_nat k) then [Exhausted] else []).
Proof. apply (retry_loop_spec cfg operation should_retry delay (N.to_nat (max_attempts cfg)) 0 s); unfold max_attempts; lia. Qed.

(** A delay without jitter is never above the configured maximum, whatever the
    multiplier. *)
Theorem backoff_capped powi scale cfg attempt : float_gt (f64_clamp (jitter_factor cfg) (S754_zero false) (f32_lit 1 1)) (S754_zero false) = false ->
  calculate_delay powi scale cfg attempt <= max_backoff_ms cfg.
Proof. intros Hj. unfold calculate_delay. rewrite Hj. apply base_capped. Qed.

(** *** Witness *)

Lemma backoff_capped_witness : calculate_delay (fun _ _ => S754_infinity false) (S754_zero false) (MkRetry 5 50 30000 (f32_lit 3 2) (S754_zero false)) 4 <= 30000.
Proof. apply (backoff_capped _ _ (MkRetry 5 50 30000 (f32_lit 3 2) (S754_zero false)) 4). vm_compute. reflexivity. Defined.

(** A multiplier that is no number, which validation accepts, leaves no delay. *)
Example no_backoff : calculate_delay (fun x _ => x) (S754_zero false) (MkRetry 5 50 30000 S754_nan (S754_zero false)) 1 = 0.
Proof. vm_compute. reflexivity. Qed.
