(* ===== verification/RateLimit.v ===== *)
(** * Rate limiting ([src/core/token_bucket.rs], [src/middleware.rs])

    The token bucket and the middleware that lets a request through for a token,
    queues it or refuses it.  The lock of the bucket makes each of its methods one
    step; between them the tasks (the handlers of requests, the queue processor and
    the tasks it spawns for requests that must wait) run in any order, so a history
    is a list of events, each with the moment it happens.  Times are nanoseconds.
    Gauges and logs are left out. *)

From S2P Require Import Prelude Ieee Factors FloatFacts FloatInt.

Local Open Scope N_scope.
Local Open Scope update_scope.

(** ** The bucket *)

Record TokenBucket := MkBucket {
  capacity : f64;
  refill_rate : f64;      (* tokens per second *)
  tokens : f64;
  last_refill : N;
}.

#[export] Instance TokenBucket_eta : Eta TokenBucket := fun b => MkBucket (capacity b) (refill_rate b) (tokens b) (last_refill b).

Definition new_bucket (cap rate now : N) : TokenBucket :=
  let cap := usize_as_f64 cap in
  let rate := usize_as_f64 rate in
  MkBucket cap (if f64_lt f0 rate then rate else f1) cap now.

Definition refill (now : N) (b : TokenBucket) : TokenBucket :=
  let amount := f64_mul (as_secs_f64 (saturating_sub now (last_refill b))) (refill_rate b) in
  b <| tokens := f64_min (f64_add (tokens b) amount) (capacity b) |> <| last_refill := now |>.

Definition try_acquire (now : N) (n : f64) (b : TokenBucket) : bool * TokenBucket :=
  let b := refill now b in
  if f64_le n (tokens b) then (true, b <| tokens := f64_sub (tokens b) n |>) else (false, b).

Definition return_tokens (n : f64) (b : TokenBucket) : TokenBucket :=
  b <| tokens := f64_min (f64_add (tokens b) n) (capacity b) |>.

Definition available_tokens (now : N) (b : TokenBucket) : f64 * TokenBucket :=
  let b := refill now b in (tokens b, b).

Definition seconds_until_available (now : N) (n : f64) (b : TokenBucket) : f64 * TokenBucket :=
  let '(available, b) := available_tokens now b in
  (f64_div (f64_max (f64_sub n available) f0) (refill_rate b), b).

(** How long [acquire] waits: [None] is a panic of [from_secs_f64]. *)
Definition wait_time (n : f64) (b : TokenBucket) : option N :=
  from_secs_f64 (f64_max (f64_div (f64_max (f64_sub n (tokens b)) f0) (refill_rate b)) f0).

(** ** The limiter *)

Inductive reply :=
| Passed                       (* the response of the router *)
| TooManyRequests (retry_after : N)
| RequestTimeout
| InternalServerError.

(** A request that waits for a token in a task of its own: before the task runs,
    and in the loop of [acquire].  [Notify] wakes the waiters of the loop. *)
Inductive waiter_state :=
| Spawned (remaining : N)
| Looping (deadline sleep_until : N) (notified : bool).

Record Waiter := MkWaiter { waiter : nat; entered_at : N; waiter_state_of : waiter_state }.

Record Limiter := MkLimiter {
  bucket : TokenBucket;
  queue_size : N;                (* 0: no queue *)
  queue_timeout : N;
  queue : list (nat * N);        (* id, queued_at *)
  waiting : list Waiter;
  running : list nat;
  gone : list nat;               (* the client has gone *)
  replies : list (nat * reply);
}.

#[export] Instance Limiter_eta : Eta Limiter := fun s =>
  MkLimiter (bucket s) (queue_size s) (queue_timeout s) (queue s) (waiting s) (running s) (gone s) (replies s).

Definition new_limiter (max_concurrent_requests : N) (rate_limit_tokens_per_second : option N) (size timeout now : N) : Limiter :=
  MkLimiter (new_bucket max_concurrent_requests (default max_concurrent_requests rate_limit_tokens_per_second) now)
    size timeout [] [] [] [] [].

(** A reply to a client that is still there. *)
Definition answer (id : nat) (r : reply) (s : Limiter) : Limiter :=
  if decide (id ∈ gone s) then s else s <| replies ::= cons (id, r) |>.

(** [permit_tx.send(Ok(()))]: the token of a client that has gone is lost. *)
Definition permit (id : nat) (s : Limiter) : Limiter :=
  if decide (id ∈ gone s) then s else s <| running ::= cons id |>.

Definition too_many_requests (now : N) (id : nat) (s : Limiter) : Limiter :=
  let '(secs, b) := seconds_until_available now f1 (bucket s) in
  answer id (TooManyRequests (N.max (f64_as_usize (f64_ceil secs)) 1)) (s <| bucket := b |>).

(** The start of [concurrency_limit_middleware]. *)
Definition arrive (now : N) (id : nat) (s : Limiter) : Limiter :=
  let '(ok, b) := try_acquire now f1 (bucket s) in
  let s := s <| bucket := b |> in
  if ok then s <| running ::= cons id |>
  else if (queue_size s =? 0) then too_many_requests now id s
  else if N.of_nat (length (queue s)) <? queue_size s then s <| queue ::= fun q => q ++ [(id, now)] |>
  else too_many_requests now id s.

(** One round of [QueueProcessor::run]. *)
Definition receive (now : N) (s : Limiter) : Limiter :=
  match queue s with
  | [] => s
  | (id, queued_at) :: q =>
      let s := s <| queue := q |> in
      let elapsed := saturating_sub now queued_at in
      if queue_timeout s <=? elapsed then answer id RequestTimeout s
      else
        let '(ok, b) := try_acquire now f1 (bucket s) in
        let s := s <| bucket := b |> in
        if ok then permit id s
        else s <| waiting ::= fun ws => ws ++ [MkWaiter id queued_at (Spawned (queue_timeout s - elapsed))] |>
  end.

Definition SLEEP : N := 10 * 1000000.   (* 10 ms *)

(** The loop of [acquire] from its check on, and the timeouts around it when the
    check fails. *)
Definition check (now : N) (w : Waiter) (deadline : N) (s : Limiter) : Limiter :=
  let '(ok, b) := try_acquire now f1 (bucket s) in
  let s := s <| bucket := b |> in
  if ok then permit (waiter w) s
  else if deadline <=? now then answer (waiter w) RequestTimeout s
  else s <| waiting ::= fun ws => ws ++ [MkWaiter (waiter w) (entered_at w) (Looping deadline (now + SLEEP) false)] |>.

(** A waiting task is polled: [acquire_timeout] of a task that starts, or its loop,
    woken by a returned token, by its own sleep or by the timeout. *)
Definition poll (now : N) (i : nat) (s : Limiter) : Limiter :=
  match waiting s !! i with
  | None => s
  | Some w =>
      let rest := s <| waiting ::= delete i |> in
      match waiter_state_of w with
      | Spawned remaining =>
          let '(ok, b) := try_acquire now f1 (bucket s) in
          let s := rest <| bucket := b |> in
          if ok then permit (waiter w) s
          else
            match wait_time f1 b with
            | None => answer (waiter w) InternalServerError s
            | Some wait => check now w (now + N.min remaining wait) s
            end
      | Looping deadline sleep_until notified =>
          if notified || (sleep_until <=? now) then check now w deadline rest
          else if deadline <=? now then answer (waiter w) RequestTimeout rest
          else s
      end
  end.

(** [notify_waiters] *)
Definition notify (w : Waiter) : Waiter :=
  match waiter_state_of w with
  | Looping deadline sleep_until _ => MkWaiter (waiter w) (entered_at w) (Looping deadline sleep_until true)
  | Spawned _ => w
  end.

(** The router has answered: the token goes back. *)
Definition finish (id : nat) (s : Limiter) : Limiter :=
  if decide (id ∈ running s) then
    let s := s <| running ::= filter (fun x => x <> id) |> in
    let s := s <| bucket ::= return_tokens f1 |> <| waiting ::= fmap notify |> in
    answer id Passed s
  else s.

(** The client goes away: its handler is dropped, and with it the token it had. *)
Definition cancel (id : nat) (s : Limiter) : Limiter :=
  if decide (id ∈ running s) then s <| running ::= filter (fun x => x <> id) |> <| gone ::= cons id |>
  else if decide (id ∈ (queue s).*1 ++ (waiter <$> waiting s) /\ id ∉ gone s) then s <| gone ::= cons id |>
  else s.

Inductive event :=
| Arrive (now : N) (id : nat)
| Receive (now : N)
| Poll (now : N) (i : nat)
| Finish (id : nat)
| Cancel (id : nat).

Definition perform (e : event) (s : Limiter) : Limiter :=
  match e with
  | Arrive now id => arrive now id s
  | Receive now => receive now s
  | Poll now i => poll now i s
  | Finish id => finish id s
  | Cancel id => cancel id s
  end.

Definition run (es : list event) (s : Limiter) : Limiter := foldl (fun s e => perform e s) s es.

(** ** Specification *)

(** The requests that arrived. *)
Definition arrivals (es : list event) : list nat := omap (fun e => match e with Arrive _ id => Some id | _ => None end) es.

(** The requests that wait, in the queue or in a task. *)
Definition pending (s : Limiter) : list nat := (queue s).*1 ++ (waiter <$> waiting s).

(** Every request that arrived waits, runs, has its one reply or is gone. *)
Definition places (s : Limiter) : list nat :=
  filter (fun id => id ∉ gone s) (pending s) ++ running s ++ (replies s).*1 ++ gone s.

Definition accounted (ids : list nat) (s : Limiter) : Prop :=
  ids ≡ₚ places s /\ NoDup (pending s) /\ (0 < queue_size s -> N.of_nat (length (queue s)) <= queue_size s) /\ (queue_size s = 0 -> queue s = []).

(** A request that waits is taken out. *)
Definition lifted (id : nat) (s s0 : Limiter) : Prop :=
  pending s ≡ₚ id :: pending s0 /\ running s = running s0 /\ replies s = replies s0 /\ gone s = gone s0 /\
  queue_size s0 = queue_size s /\ (length (queue s0) <= length (queue s))%nat.

(** A step of a task: every request keeps its one place. *)
Definition moved (s s' : Limiter) : Prop :=
  places s' ≡ₚ places s /\ (pending s' ≡ₚ pending s \/ exists id, pending s ≡ₚ id :: pending s') /\
  queue_size s' = queue_size s /\ (length (queue s') <= length (queue s))%nat.

(** All events happen at one moment. *)
Definition at_moment (t : N) (e : event) : Prop :=
  match e with Arrive now _ | Receive now | Poll now _ => now = t | _ => True end.

(** The tokens are whole and with the running requests no more than the limit. *)
Definition whole (cap t : N) (s : Limiter) : Prop :=
  capacity (bucket s) = usize_as_f64 cap /\ last_refill (bucket s) = t /\ f64_mul f0 (refill_rate (bucket s)) = f0 /\
  exists k, tokens (bucket s) = usize_as_f64 k /\ k + N.of_nat (length (running s)) <= cap.

(** ** The bucket at one moment *)

Section moment.
Context (cap t : N) (Hcap : cap < 2 ^ 53).

Lemma refill_whole b k : capacity b = usize_as_f64 cap -> last_refill b = t -> f64_mul f0 (refill_rate b) = f0 -> tokens b = usize_as_f64 k -> k <= cap ->
  refill t b = b.
Proof.
  intros Hc Hl Hr Hk Hle. unfold refill. rewrite Hl. unfold saturating_sub. rewrite N.sub_diag. change (as_secs_f64 0) with f0. rewrite Hr, Hc, Hk.
  change f0 with (usize_as_f64 0). rewrite add_int, N.add_0_r, min_int by lia. rewrite N.min_l, <- Hk, <- Hl by done. by destruct b.
Qed.

Lemma try_acquire_whole b k : capacity b = usize_as_f64 cap -> last_refill b = t -> f64_mul f0 (refill_rate b) = f0 -> tokens b = usize_as_f64 k -> k <= cap ->
  try_acquire t f1 b = if 1 <=? k then (true, b <| tokens := usize_as_f64 (k - 1) |>) else (false, b).
Proof.
  intros Hc Hl Hr Hk Hle. unfold try_acquire. rewrite (refill_whole b k) by done. change f1 with (usize_as_f64 1). rewrite Hk.
  unfold f64_le, SFleb. rewrite compare_int by lia. destruct (N.leb_spec 1 k) as [H|H].
  - rewrite sub_int by lia. destruct (N.compare_spec 1 k); [done|done|lia].
  - destruct (N.compare_spec 1 k); [lia|lia|done].
Qed.
End moment.

(** ** Replies *)

Lemma answer_bucket id r s : bucket (answer id r s) = bucket s /\ running (answer id r s) = running s.
Proof. unfold answer. by destruct (decide _). Qed.

Section burst.
Context (cap t : N) (Hcap : cap < 2 ^ 53).

(** A step that asks for a token. *)
Lemma acquire_whole s : whole cap t s -> exists ok b, try_acquire t f1 (bucket s) = (ok, b) /\ whole cap t (s <| bucket := b |>) /\
  (ok = true -> forall id, whole cap t (s <| bucket := b |> <| running ::= cons id |>)).
Proof.
  intros (Hc & Hl & Hr & k & Hk & Hle). rewrite (try_acquire_whole cap t Hcap (bucket s) k) by (done || lia).
  destruct (N.leb_spec 1 k) as [H|H].
  - eexists true, _. split; [done|]. split; [|intros _ id]; repeat (split; [done|]); exists (k - 1); (split; [done|]); cbn; lia.
  - eexists false, _. split; [done|]. split; [|done]. repeat (split; [done|]). by exists k.
Qed.

Lemma answer_whole id r s : whole cap t s -> whole cap t (answer id r s).
Proof. unfold answer. by destruct (decide _). Qed.

Lemma permit_whole id s : whole cap t s -> whole cap t (s <| running ::= cons id |>) -> whole cap t (permit id s).
Proof. unfold permit. by destruct (decide _). Qed.

Lemma too_many_whole id s : whole cap t s -> whole cap t (too_many_requests t id s).
Proof.
  intros Hw. unfold too_many_requests, seconds_until_available, available_tokens. apply answer_whole. destruct Hw as (Hc & Hl & Hr & k & Hk & Hle).
  rewrite (refill_whole cap t Hcap (bucket s) k) by (done || lia). repeat (split; [done|]). by exists k.
Qed.

Lemma check_whole w d s : whole cap t s -> whole cap t (check t w d s).
Proof.
  intros Hw. unfold check. destruct (acquire_whole s Hw) as (ok & b & -> & H1 & H2). destruct ok; [apply permit_whole; auto|].
  destruct (d <=? t); [by apply answer_whole|done].
Qed.

Lemma perform_whole e s : at_moment t e -> whole cap t s -> whole cap t (perform e s).
Proof.
  intros He Hw. destruct e as [now id|now|now i|id|id]; cbn [perform at_moment] in *; try subst now.
  - unfold arrive. destruct (acquire_whole s Hw) as (ok & b & -> & H1 & H2). destruct ok; [auto|].
    repeat (case_match; [done || by apply too_many_whole|]); by apply too_many_whole.
  - unfold receive. destruct (queue s) as [|[id at_] q]; [done|]. assert (whole cap t (s <| queue := q |>)) as Hw' by done.
    cbn [queue_timeout]. destruct (_ <=? _); [by apply answer_whole|]. destruct (acquire_whole _ Hw') as (ok & b & -> & H1 & H2).
    destruct ok; [apply permit_whole; auto|done].
  - unfold poll. destruct (waiting s !! i) as [w|]; [|done]. assert (whole cap t (s <| waiting ::= delete i |>)) as Hw' by done.
    destruct (waiter_state_of w) as [rem|d sl n].
    + destruct (acquire_whole _ Hw') as (ok & b & E & H1 & H2). cbn [bucket] in E. change (bucket (s <| waiting ::= delete i |>)) with (bucket s) in E. rewrite E.
      destruct ok; [apply permit_whole; auto|]. destruct (wait_time f1 b); [by apply check_whole|by apply answer_whole].
    + destruct (_ || _); [by apply check_whole|]. destruct (d <=? t); [by apply answer_whole|done].
  - unfold finish. destruct (decide (id ∈ running s)) as [Hin|]; [|done]. apply answer_whole. destruct Hw as (Hc & Hl & Hr & k & Hk & Hle).
    assert (length (filter (fun x => x <> id) (running s)) < length (running s))%nat as Hlt by (apply (length_filter_lt _ _ id); [done|by intros []]).
    repeat (split; [done|]). exists (k + 1). cbn. rewrite Hk, Hc. change f1 with (usize_as_f64 1). rewrite add_int, min_int by lia.
    split; [f_equal; lia|lia].
  - unfold cancel. destruct (decide (id ∈ running s)); [|by destruct (decide _)]. destruct Hw as (Hc & Hl & Hr & k & Hk & Hle).
    repeat (split; [done|]). exists k. split; [done|]. cbn. pose proof (length_filter (fun x => x <> id) (running s)). lia.
Qed.
End burst.

(** ** Lists *)

Lemma running_without (x : nat) (l : list nat) : NoDup l -> x ∈ l -> l ≡ₚ x :: filter (fun y => y <> x) l.
Proof.
  induction 1 as [|y l Hy Hl IH]; intros Hx; [by apply elem_of_nil in Hx|]. rewrite filter_cons. destruct (decide (y <> x)) as [Hne|He].
  - apply elem_of_cons in Hx as [->|Hx]; [done|]. rewrite (IH Hx) at 1. apply Permutation_swap.
  - apply dec_stable in He as ->. f_equiv. clear IH Hl Hx. induction l as [|z l IH]; [done|]. apply not_elem_of_cons in Hy as [Hz Hy].
    rewrite filter_cons, decide_True by done. f_equiv. by apply IH.
Qed.

Lemma filter_gone (x : nat) (g l : list nat) : x ∉ filter (fun y => y ∉ g) l -> filter (fun y => y ∉ g) l = filter (fun y => y ∉ x :: g) l.
Proof.
  intros Hx. induction l as [|y l IH]; [done|]. rewrite filter_cons in Hx. rewrite !filter_cons. destruct (decide (y ∉ g)) as [Hy|Hy].
  - apply not_elem_of_cons in Hx as [Hne Hx]. rewrite decide_True by set_solver. f_equal. auto.
  - rewrite decide_False by set_solver. auto.
Qed.

Lemma filter_leaves (x : nat) (g l : list nat) : NoDup l -> x ∈ l -> x ∉ g -> filter (fun y => y ∉ g) l ≡ₚ x :: filter (fun y => y ∉ x :: g) l.
Proof.
  intros Hl Hx Hg. rewrite (running_without x l Hl Hx) at 1. rewrite filter_cons, decide_True by done. f_equiv.
  clear. induction l as [|y l IH]; [done|]. rewrite !filter_cons. destruct (decide (y <> x)) as [Hy|Hy].
  - rewrite filter_cons. destruct (decide (y ∉ g)), (decide (y ∉ x :: g)); try (f_equiv; exact IH); try exact IH; set_solver.
  - destruct (decide (y ∉ x :: g)); [set_solver|exact IH].
Qed.

(** ** Accounting *)

Lemma answer_moved id r s s0 : lifted id s s0 -> moved s (answer id r s0).
Proof.
  intros (Hp & Hr & Hd & Hg & Hz & Hq). unfold moved, answer, places. rewrite Hp, Hr, Hd, Hg, filter_cons.
  destruct (decide (id ∈ gone s0)) as [Hin|Hn]; destruct (decide (id ∉ gone s0)); try done; (split_and!; [|by right; exists id|done|done]); [done|].
  cbn. by rewrite <- !Permutation_middle.
Qed.

Lemma permit_moved id s s0 : lifted id s s0 -> moved s (permit id s0).
Proof.
  intros (Hp & Hr & Hd & Hg & Hz & Hq). unfold moved, permit, places. rewrite Hp, Hr, Hd, Hg, filter_cons.
  destruct (decide (id ∈ gone s0)) as [Hin|Hn]; destruct (decide (id ∉ gone s0)); try done; (split_and!; [|by right; exists id|done|done]); [done|].
  cbn. by rewrite <- !Permutation_middle.
Qed.

(** A task that waits on. *)
Lemma again_moved w s s0 : lifted (waiter w) s s0 -> moved s (s0 <| waiting ::= fun ws => ws ++ [w] |>).
Proof.
  intros (Hp & Hr & Hd & Hg & Hz & Hq). assert (pending (s0 <| waiting ::= fun ws => ws ++ [w] |>) ≡ₚ pending s) as E.
  { rewrite Hp. unfold pending. cbn. rewrite fmap_app, (assoc_L (++)). cbn. by rewrite <- Permutation_cons_append. }
  unfold moved, places. cbn. rewrite E, Hr, Hd, Hg. split_and!; [done|by left|done|done].
Qed.

Lemma check_moved now w d s s0 : lifted (waiter w) s s0 -> moved s (check now w d s0).
Proof.
  intros H. unfold check. destruct (try_acquire now f1 (bucket s0)) as [ok b]. destruct ok; [by apply permit_moved|].
  destruct (d <=? now); [by apply answer_moved|]. by apply again_moved.
Qed.

Lemma receive_moved now s : moved s (receive now s).
Proof.
  unfold receive. destruct (queue s) as [|[id at_] q] eqn:Eq; [split_and!; [done|by left|done|done]|].
  assert (lifted id s (s <| queue := q |>)) as H by (unfold lifted, pending; rewrite Eq; cbn; split_and!; [done..|lia]).
  cbn [queue_timeout]. destruct (_ <=? _); [by apply answer_moved|]. destruct (try_acquire now f1 _) as [ok b].
  destruct ok; [by apply permit_moved|]. set (w := MkWaiter _ _ _). by apply (again_moved w).
Qed.

Lemma poll_moved now i s : moved s (poll now i s).
Proof.
  unfold poll. destruct (waiting s !! i) as [w|] eqn:Ew; [|split_and!; [done|by left|done|done]].
  assert (lifted (waiter w) s (s <| waiting ::= delete i |>)) as H.
  { unfold lifted, pending. cbn. split_and!; [|done..]. rewrite (delete_Permutation (waiting s) i w Ew) at 1. cbn. by rewrite <- Permutation_middle. }
  destruct (waiter_state_of w) as [rem|d sl n].
  - destruct (try_acquire now f1 (bucket s)) as [ok b]. destruct ok; [by apply permit_moved|]. destruct (wait_time f1 b); [by apply check_moved|by apply answer_moved].
  - destruct (_ || _); [by apply check_moved|]. destruct (d <=? now); [by apply answer_moved|]. split_and!; [done|by left|done|done].
Qed.

Lemma moved_accounted ids s s' : moved s s' -> accounted ids s -> accounted ids s'.
Proof.
  intros (Hp & Hpend & Hz & Hq) (Ha & Hn & H1 & H2). unfold accounted. rewrite Hz. split_and!.
  - by rewrite Hp.
  - destruct Hpend as [E|[id E]]; rewrite E in *; [done|]. by apply NoDup_cons in Hn as [_ ?].
  - intros Hpos. specialize (H1 Hpos). lia.
  - intros E. specialize (H2 E). rewrite H2 in Hq. apply length_zero_iff_nil. simpl in Hq. lia.
Qed.

Lemma too_many_accounted now id ids s : id ∉ ids -> accounted ids s -> accounted (id :: ids) (too_many_requests now id s).
Proof.
  intros Hid (Ha & Hn & H1 & H2). unfold too_many_requests. destruct (seconds_until_available now f1 (bucket s)) as [secs b]. unfold answer.
  assert (id ∉ gone s) as Hg by (intros Hin; apply Hid; rewrite Ha; unfold places; rewrite !elem_of_app; auto).
  destruct (decide _) as [Hin|_]; [done|]. unfold accounted, places. cbn. split_and!; [|done|done|done]. rewrite <- !Permutation_middle. by f_equiv.
Qed.

Lemma pending_arrived ids s id : accounted ids s -> id ∈ pending s -> id ∈ ids.
Proof.
  intros (Ha & _) Hin. rewrite Ha. unfold places. rewrite !elem_of_app, list_elem_of_filter. destruct (decide (id ∈ gone s)); auto.
Qed.

Lemma arrive_accounted now id ids s : id ∉ ids -> accounted ids s -> accounted (id :: ids) (arrive now id s).
Proof.
  intros Hid Hacc. pose proof (pending_arrived ids s id Hacc) as Hnp. pose proof Hacc as (Ha & Hn & H1 & H2). unfold arrive.
  destruct (try_acquire now f1 (bucket s)) as [ok b]. destruct ok.
  { unfold accounted, places. cbn. split_and!; [|done|done|done]. rewrite <- Permutation_middle. by f_equiv. }
  change (queue_size (s <| bucket := b |>)) with (queue_size s). change (queue (s <| bucket := b |>)) with (queue s).
  destruct (N.eqb_spec (queue_size s) 0) as [E|E]; [by apply too_many_accounted|].
  destruct (N.ltb_spec (N.of_nat (length (queue s))) (queue_size s)) as [Hlt|]; [|by apply too_many_accounted].
  assert (pending (s <| bucket := b |> <| queue ::= fun q => q ++ [(id, now)] |>) ≡ₚ id :: pending s) as Hp.
  { unfold pending. cbn. rewrite fmap_app. cbn. rewrite <- (assoc_L (++)). cbn [app]. by rewrite <- Permutation_middle. }
  assert (id ∉ gone s) as Hg by (intros Hin; apply Hid; rewrite Ha; unfold places; rewrite !elem_of_app; auto).
  set (s1 := s <| bucket := b |> <| queue ::= fun q => q ++ [(id, now)] |>) in *.
  assert (filter (fun x => x ∉ gone s) (pending s1) ≡ₚ id :: filter (fun x => x ∉ gone s) (pending s)) as Hf.
  { by rewrite Hp, filter_cons, decide_True. }
  split_and!; [|rewrite Hp; apply NoDup_cons; split; [auto|done]| |done].
  - unfold places. change (gone s1) with (gone s). rewrite Hf, Ha. done.
  - intros _. change (queue s1) with (queue s ++ [(id, now)]). change (queue_size s1) with (queue_size s). rewrite length_app. cbn [length]. lia.
Qed.

Lemma finish_accounted id ids s : NoDup ids -> accounted ids s -> accounted ids (finish id s).
Proof.
  intros Hids (Ha & Hn & H1 & H2). unfold finish. destruct (decide (id ∈ running s)) as [Hin|]; [|done].
  assert (NoDup (running s)) as Hr by (rewrite Ha in Hids; unfold places in Hids; apply NoDup_app in Hids as (_ & _ & Hids); by apply NoDup_app in Hids as (? & _)).
  assert (id ∉ gone s) as Hg.
  { intros Hg. rewrite Ha in Hids. unfold places in Hids. apply NoDup_app in Hids as (_ & _ & (_ & Hd & _)%NoDup_app). apply (Hd id Hin), elem_of_app. by right. }
  assert (forall ws : list Waiter, waiter <$> (notify <$> ws) = waiter <$> ws) as Hw.
  { intros ws. induction ws as [|w ws IH]; [done|]. cbn. rewrite IH. f_equal. unfold notify. by destruct (waiter_state_of w). }
  unfold answer. cbn [gone]. destruct (decide _) as [|_]; [done|]. unfold accounted, places, pending. cbn. rewrite Hw. split_and!; [|done|done|done].
  rewrite Ha. unfold places, pending. f_equiv. rewrite (running_without id (running s) Hr Hin) at 1. cbn. by rewrite <- Permutation_middle.
Qed.

Lemma cancel_accounted id ids s : NoDup ids -> accounted ids s -> accounted ids (cancel id s).
Proof.
  intros Hids (Ha & Hn & H1 & H2). unfold cancel. destruct (decide (id ∈ running s)) as [Hin|Hout].
  - assert (NoDup (running s)) as Hr by (rewrite Ha in Hids; unfold places in Hids; apply NoDup_app in Hids as (_ & _ & Hids); by apply NoDup_app in Hids as (? & _)).
    assert (id ∉ filter (fun x => x ∉ gone s) (pending s)) as Hp.
    { intros Hp. rewrite Ha in Hids. unfold places in Hids. apply NoDup_app in Hids as (_ & Hd & _). apply (Hd id Hp), elem_of_app. by left. }
    unfold accounted, places. cbn. split_and!; [|done|done|done]. rewrite Ha. unfold places.
    rewrite (running_without id (running s) Hr Hin) at 1. rewrite (filter_gone id (gone s) (pending s) Hp).
    change (pending (s <| running ::= filter (fun x => x <> id) |> <| gone ::= cons id |>)) with (pending s).
    cbn. rewrite <- !Permutation_middle. done.
  - destruct (decide _) as [[Hin Hg]|]; [|done]. fold (pending s) in Hin. unfold accounted, places. cbn. split_and!; [|done|done|done].
    change (pending (s <| gone ::= cons id |>)) with (pending s). rewrite Ha. unfold places. rewrite (filter_leaves id (gone s) (pending s) Hn Hin Hg).
    cbn. rewrite <- !Permutation_middle. done.
Qed.

Lemma perform_accounted e ids s : accounted ids s -> NoDup (ids ++ arrivals [e]) -> accounted (ids ++ arrivals [e]) (perform e s).
Proof.
  intros Ha Hn. destruct e as [now id|now|now i|id|id]; cbn [arrivals omap list_omap perform] in *; rewrite ?app_nil_r in *.
  - assert (id ∉ ids) as Hid by (apply NoDup_app in Hn as (_ & Hd & _); intros Hin; apply (Hd id Hin); left).
    destruct (arrive_accounted now id ids s Hid Ha) as [Hp Hrest]. split; [|exact Hrest]. rewrite <- Hp. symmetry. apply Permutation_cons_append.
  - apply (moved_accounted ids s); [apply receive_moved|done].
  - apply (moved_accounted ids s); [apply poll_moved|done].
  - by apply finish_accounted.
  - by apply cancel_accounted.
Qed.

Lemma run_accounted es ids s : accounted ids s -> NoDup (ids ++ arrivals es) -> accounted (ids ++ arrivals es) (run es s).
Proof.
  revert ids s. induction es as [|e es IH]; intros ids s Ha Hn; [by rewrite app_nil_r|].
  assert (arrivals (e :: es) = arrivals [e] ++ arrivals es) as E by (unfold arrivals; cbn; by destruct e).
  rewrite E, (assoc_L (++)) in *. apply (IH _ (perform e s)); [|done]. apply perform_accounted; [done|]. by apply NoDup_app in Hn as [? _].
Qed.

Lemma zero_rate rate : rate < u64_mod -> f64_mul f0 (if f64_lt f0 (usize_as_f64 rate) then usize_as_f64 rate else f1) = f0.
Proof.
  intros Hr. destruct rate as [|p]; [done|]. destruct (usize_finite p (u64_digits p Hr)) as (m & e & -> & _). done.
Qed.

(** ** Properties *)

(** C23: every request has one fate.  Whatever the order of the tasks, a request
    that arrived waits, runs, has exactly one reply or was dropped by its client,
    and is in no two of these places; the queue never holds more than its size. *)
Theorem every_request_accounted cap rate size timeout now es : NoDup (arrivals es) ->
  accounted (arrivals es) (run es (new_limiter cap rate size timeout now)).
Proof.
  intros Hn. apply (run_accounted es [] (new_limiter cap rate size timeout now)); [|done].
  split_and!; [done|constructor|cbn; lia|done].
Qed.

(** The tokens are exact within a moment.  Requests that arrive before time
    passes, however tasks interleave and however many clients leave, never run more
    than the limit at once. *)
Theorem burst_bounded cap rate size timeout t es : cap < 2 ^ 53 -> default cap rate < u64_mod -> Forall (at_moment t) es ->
  N.of_nat (length (running (run es (new_limiter cap rate size timeout t)))) <= cap.
Proof.
  intros Hcap Hr Hes. assert (whole cap t (run es (new_limiter cap rate size timeout t))) as (_ & _ & _ & k & _ & H); [|lia].
  assert (whole cap t (new_limiter cap rate size timeout t)) as Hw.
  { split_and!; [done|done|by apply zero_rate|]. exists cap. split; [done|cbn; lia]. }
  revert Hw. generalize (new_limiter cap rate size timeout t). induction Hes as [|e es He _ IH]; intros s Hs; [done|].
  apply (IH (perform e s)). by apply perform_whole.
Qed.

(** The queue timeout is cut short.  A queued request that has to wait is given
    the time in which the bucket refills what it lacks, not the time that is left of
    the queue timeout; when that is shorter than the pause between two checks, the
    request is refused at its end without another check, unless a token is
    returned. *)
Theorem queue_timeout_cut s i id at_ remaining now b b' wait :
  waiting s !! i = Some (MkWaiter id at_ (Spawned remaining)) -> id ∉ gone s ->
  try_acquire now f1 (bucket s) = (false, b) -> wait_time f1 b = Some wait -> try_acquire now f1 b = (false, b') ->
  0 < wait < SLEEP -> wait < remaining ->
  let s1 := poll now i s in let last := (length (waiting s1) - 1)%nat in
  waiting s1 !! last = Some (MkWaiter id at_ (Looping (now + wait) (now + SLEEP) false)) /\
  replies (poll (now + wait) last s1) = (id, RequestTimeout) :: replies s.
Proof.
  intros Hw Hg Ht Hwait Ht' Hs Hr s1 last. set (w := MkWaiter id at_ (Looping (now + wait) (now + SLEEP) false)).
  assert (s1 = s <| bucket := b' |> <| waiting := delete i (waiting s) ++ [w] |>) as E.
  { unfold s1, poll. rewrite Hw. cbn [waiter_state_of waiter]. rewrite Ht, Hwait. unfold check. rewrite N.min_r by lia.
    change (bucket (s <| waiting ::= delete i |> <| bucket := b |>)) with b. rewrite Ht', (proj2 (N.leb_gt _ _)) by lia. done. }
  assert (waiting s1 !! last = Some w) as Hlast.
  { unfold last. rewrite E. change (waiting (s <| bucket := b' |> <| waiting := delete i (waiting s) ++ [w] |>)) with (delete i (waiting s) ++ [w]). rewrite length_app. cbn [length].
    rewrite Nat.add_sub. by apply list_lookup_middle. }
  split; [done|]. unfold poll. rewrite Hlast. cbn [waiter_state_of w waiter]. unfold SLEEP in *. rewrite (proj2 (N.leb_gt _ _)) by lia. cbn [orb].
  rewrite N.leb_refl. unfold answer. rewrite E. by destruct (decide _).
Qed.

(** *** Witnesses *)

Definition busy : list event := [Arrive 0 0; Arrive 0 1; Arrive 0 2; Receive 0; Cancel 0; Poll 5000000 0; Finish 1].

Lemma every_request_accounted_witness : NoDup (arrivals busy) /\ accounted (arrivals busy) (run busy (new_limiter 2 None 1 (60 * NANOS_PER_SEC) 0)).
Proof.
  assert (NoDup (arrivals busy)) as H by (apply (bool_decide_eq_true_1 _); vm_compute; reflexivity).
  split; [exact H|]. exact (every_request_accounted 2 None 1 (60 * NANOS_PER_SEC) 0 busy H).
Defined.

Lemma burst_bounded_witness : N.of_nat (length (running (run [Arrive 0 0; Arrive 0 1; Arrive 0 2] (new_limiter 2 None 1 (60 * NANOS_PER_SEC) 0)))) <= 2.
Proof.
  pose proof (burst_bounded 2 None 1 (60 * NANOS_PER_SEC) 0 [Arrive 0 0; Arrive 0 1; Arrive 0 2]) as H.
  specialize (H ltac:(reflexivity) ltac:(reflexivity) ltac:(repeat constructor)). exact H.
Defined.

(** A bucket of one token that refills 1000 in a second, and a queue timeout of a
    minute. *)
Definition waiting_one : Limiter := run [Arrive 0 0; Arrive 0 1; Receive 0] (new_limiter 1 (Some 1000) 1 (60 * NANOS_PER_SEC) 0).

Lemma queue_timeout_cut_witness : exists b b' wait, wait_time f1 b = Some wait /\
  try_acquire 0 f1 (bucket waiting_one) = (false, b) /\ try_acquire 0 f1 b = (false, b') /\
  replies (poll (0 + wait) (length (waiting (poll 0 0 waiting_one)) - 1) (poll 0 0 waiting_one)) = [(1%nat, RequestTimeout)].
Proof.
  pose (b := (try_acquire 0 f1 (bucket waiting_one)).2). exists b, (try_acquire 0 f1 b).2, 1000000.
  assert (try_acquire 0 f1 (bucket waiting_one) = (false, b)) as E1 by (vm_compute; reflexivity).
  assert (try_acquire 0 f1 b = (false, (try_acquire 0 f1 b).2)) as E2 by (vm_compute; reflexivity).
  assert (wait_time f1 b = Some 1000000) as E3 by (vm_compute; reflexivity). split; [exact E3|]. split; [exact E1|]. split; [exact E2|].
  refine (proj2 (queue_timeout_cut waiting_one 0 1 0 (60 * NANOS_PER_SEC) 0 b _ 1000000 _ _ E1 E3 E2 _ _)).
  - vm_compute. reflexivity.
  - vm_compute. intros H. inversion H.
  - split; reflexivity.
  - reflexivity.
Defined.

(** Tokens refill while requests run, so the limit is not one of concurrent
    requests: with a limit of one, a second request runs after a second. *)
Example limit_exceeded : length (running (run [Arrive 0 0; Arrive NANOS_PER_SEC 1] (new_limiter 1 None 0 0 0))) = 2%nat.
Proof. vm_compute. reflexivity. Qed.
