(* ===== verification/Json.v ===== *)
(** * JSON and headers ([serde_json], [http], [src/utils/json.rs])

    The values of requests.  A string is its UTF-8 bytes; a header value is any
    bytes, and names are lower case.  An object keeps the order in which its keys
    were inserted, as [serde_json] does with the feature the router sets.  Parsing
    and printing JSON is another package, the class [SerdeJson]. *)

From S2P Require Import Prelude Ieee KvTypes TextDecode HashKey.
From stdpp Require Import pretty strings.

Local Open Scope string_scope.

#[local] Set Warnings "-register-all".

(** ** Values *)

(** [serde_json::Number] *)
Inductive JsonNumber := PosInt (n : N) (* u64 *) | NegInt (z : Z) (* i64, negative *) | Float (x : f64).

Inductive JsonValue :=
| JNull
| JBool (b : bool)
| JNumber (n : JsonNumber)
| JString (s : string)
| JArray (l : list JsonValue)
| JObject (m : list (string * JsonValue)).

Abbreviation JsonMap := (list (string * JsonValue)).

(** [map.get(key)]: the keys of a map are distinct. *)
Definition get (key : string) (m : JsonMap) : option JsonValue := snd <$> head (filter (fun kv => kv.1 = key) m).

Definition as_object (v : JsonValue) : option JsonMap := match v with JObject m => Some m | _ => None end.

Definition is_null (v : JsonValue) : bool := match v with JNull => true | _ => false end.

Definition as_u64 (v : JsonValue) : option N := match v with JNumber (PosInt n) => Some n | _ => None end.

Definition as_i64 (v : JsonValue) : option Z :=
  match v with
  | JNumber (PosInt n) => if (n <? 2 ^ 63)%N then Some (Z.of_N n) else None
  | JNumber (NegInt z) => Some z
  | _ => None
  end.

Definition as_f64 (v : JsonValue) : option f64 :=
  match v with
  | JNumber (PosInt n) => Some (usize_as_f64 n)
  | JNumber (NegInt z) => Some (f64_neg (usize_as_f64 (Z.to_N (- z))))
  | JNumber (Float x) => Some x
  | _ => None
  end.

(** [serde_json::from_str] and [to_string] *)
Class SerdeJson := { from_str : string -> option JsonValue; to_string : JsonValue -> string }.

Definition as_str (v : JsonValue) : option string := match v with JString s => Some s | _ => None end.

Definition as_bool (v : JsonValue) : option bool := match v with JBool b => Some b | _ => None end.

Definition as_array (v : JsonValue) : option (list JsonValue) := match v with JArray l => Some l | _ => None end.

(** [value.get(key)] *)
Definition value_get (key : string) (v : JsonValue) : option JsonValue := as_object v ≫= get key.

(** [map.insert(key, value)]: in the place of the key, or at the end. *)
Fixpoint map_insert (key : string) (v : JsonValue) (m : JsonMap) : JsonMap :=
  match m with
  | [] => [(key, v)]
  | (k, x) :: m => if decide (k = key) then (k, v) :: m else (k, x) :: map_insert key v m
  end.

(** [Value::from(z)] for an [i64] *)
Definition of_i64 (z : Z) : JsonValue := JNumber (if (z <? 0)%Z then NegInt z else PosInt (Z.to_N z)).

(** ** Headers *)

(** [http::HeaderMap] *)
Abbreviation HeaderMap := (list (string * text)).

Definition header_get (name : string) (hs : HeaderMap) : option text := snd <$> head (filter (fun kv => kv.1 = name) hs).

(** [HeaderValue::to_str]: visible ASCII and tabs *)
Definition to_str (v : text) : option text :=
  if forallb (fun b => let n := Byte.to_N b in ((32 <=? n) && (n <? 127))%N || (n =? 9)%N) v then Some v else None.

(** ** Strings *)

Definition str (t : text) : string := String.string_of_list_byte t.
Definition bytes (s : string) : text := String.list_byte_of_string s.

(** The whitespace character at the end of a text, which is reversed. *)
Definition whitespace_len_rev (t : text) : nat :=
  match t with
  | (x09 | x0a | x0b | x0c | x0d | x20) :: _ => 1
  | (x85 | xa0) :: xc2 :: _ => 2
  | x80 :: x9a :: xe1 :: _ => 3
  | (x80 | x81 | x82 | x83 | x84 | x85 | x86 | x87 | x88 | x89 | x8a | xa8 | xa9 | xaf) :: x80 :: xe2 :: _ => 3
  | x9f :: x81 :: xe2 :: _ => 3
  | x80 :: x80 :: xe3 :: _ => 3
  | _ => 0
  end.

Fixpoint trim_rev (fuel : nat) (t : text) : text :=
  match fuel, whitespace_len_rev t with
  | S fuel, S n => trim_rev fuel (drop (S n) t)
  | _, _ => t
  end.

(** [str::trim] *)
Definition trim (s : string) : string :=
  let t := trim_start (length (bytes s)) (bytes s) in
  str (reverse (trim_rev (length t) (reverse t))).

(** ** Required fields *)

Inductive RequireError :=
| NotAnObject (found : string)
| MissingField (field : string)
| MismatchedFieldType (field expected actual : string).

Definition value_type (v : JsonValue) : string :=
  match v with
  | JNull => "null" | JBool _ => "boolean" | JNumber _ => "number" | JString _ => "string" | JArray _ => "array" | JObject _ => "object"
  end.

(** [JsonTypeName] and [TryFrom<ValueRef>] of a type *)
Record JsonType (T : Type) := MkJsonType { type_name : string; try_from : JsonValue -> option T }.
Arguments type_name {T}.
Arguments try_from {T}.

Definition as_u16 (v : JsonValue) : option N := n ← as_u64 v; if (n <? 2 ^ 16)%N then Some n else None.

Definition bool_field : JsonType bool := {| type_name := "boolean"; try_from := as_bool |}.
Definition i64_field : JsonType Z := {| type_name := "i64"; try_from := as_i64 |}.
Definition u16_field : JsonType N := {| type_name := "u16"; try_from := as_u16 |}.
Definition u64_field : JsonType N := {| type_name := "u64"; try_from := as_u64 |}.
Definition f64_field : JsonType f64 := {| type_name := "f64"; try_from := as_f64 |}.
Definition str_field : JsonType string := {| type_name := "string"; try_from := as_str |}.
Definition array_field : JsonType (list JsonValue) := {| type_name := "array"; try_from := as_array |}.
Definition object_field : JsonType JsonMap := {| type_name := "object"; try_from := as_object |}.

(** [map.require::<T>(field)] *)
Definition map_require {T} (t : JsonType T) (field : string) (m : JsonMap) : result T RequireError :=
  match get field m with
  | Some v => match try_from t v with Some x => Ok x | None => Err (MismatchedFieldType field (type_name t) (value_type v)) end
  | None => Err (MissingField field)
  end.

(** [value.require::<T>(field)] *)
Definition require {T} (t : JsonType T) (field : string) (v : JsonValue) : result T RequireError :=
  match v with
  | JObject m => map_require t field m
  | _ => Err (NotAnObject (value_type v))
  end.

(** ** Lemmas *)

Lemma get_cons k key v m : get k ((key, v) :: m) = if decide (key = k) then Some v else get k m.
Proof. unfold get. rewrite filter_cons. simpl. by case_decide. Qed.

Lemma get_app k m1 m2 : get k (m1 ++ m2) = match get k m1 with Some v => Some v | None => get k m2 end.
Proof. induction m1 as [|[k' v] m1 IH]; [done|]. rewrite <- app_comm_cons, !get_cons. by case_decide. Qed.

Lemma get_insert k key v m : get k (map_insert key v m) = if decide (key = k) then Some v else get k m.
Proof.
  induction m as [|[k' x] m IH]; cbn [map_insert]; [by rewrite get_cons|]. repeat case_decide; subst; rewrite !get_cons; repeat case_decide; congruence.
Qed.

(** Inserting never doubles a key. *)
Lemma insert_keys key v m : NoDup m.*1 -> NoDup (map_insert key v m).*1.
Proof.
  induction m as [|[k x] m IH]; intros Hm; cbn [map_insert]; [apply NoDup_singleton|].
  apply NoDup_cons in Hm as [Hk Hm]. case_decide; [by constructor|]. constructor; [|auto].
  intros Hin. apply Hk. clear IH Hk Hm. induction m as [|[k' x'] m IH]; cbn [map_insert] in Hin.
  - set_solver.
  - case_decide; [done|]. set_solver.
Qed.

(** A field is returned exactly when it is there with its type. *)
Lemma require_returns {T} (t : JsonType T) field v x : require t field v = Ok x <-> value_get field v ≫= try_from t = Some x.
Proof.
  destruct v as [| | | | |m]; simpl; try done. unfold map_require, value_get. simpl.
  destruct (get field m) as [v|]; simpl; [|done]. destruct (try_from t v); simpl; naive_solver.
Qed.

Create Rewrite HintDb json.
#[export] Hint Rewrite get_cons get_app get_insert : json.
