(* ===== verification/Protocols.v ===== *)
(** * The requests of the OpenAI and vLLM interfaces ([src/protocols/spec.rs],
      [src/protocols/validation.rs], [structured_output] of [src/backend/convert.rs])

    The bodies of requests, the text by which they are routed, the parsing of chat
    messages and the checks of their parameters.  A derived (de)serializer is an
    instance of [ValueSerde], with what [serde] documents of it as
    [ValueSerdeLaws]; [None] is a failure or a panic. *)

From S2P Require Import Prelude Ieee KvTypes TextDecode HashKey Json.
From stdpp Require Import pretty strings.

Local Open Scope string_scope.

(** ** Messages *)

Record ImageUrl := MkImageUrl { image_url_of : string; detail : option string }.

Inductive ContentPart := PartText (t : string) | PartImageUrl (i : ImageUrl).

Inductive UserMessageContent := ContentText (t : string) | ContentParts (parts : list ContentPart).

Record FunctionCallResponse := MkCall { call_name : string; call_arguments : option string }.

Record ToolCall := MkToolCall { tool_call_id_of : string; tool_call_type : string; tool_call_function : FunctionCallResponse }.

Inductive ChatMessage :=
| System (role : string) (content : UserMessageContent) (name : option string)
| User (role : string) (content : UserMessageContent) (name : option string)
| Assistant (role : string) (content : option UserMessageContent) (name : option string)
    (tool_calls : option (list ToolCall)) (function_call : option FunctionCallResponse) (reasoning : option string)
| ToolMessage (role : string) (content : JsonValue) (tool_call_id : string)
| FunctionMessage (role : string) (content : string) (name : string)
| Other (v : JsonValue).

(** A type with a derived [Serialize] and [Deserialize], and what they document:
    a value that is written is read back, and none of these types is written as
    null. *)
Class ValueSerde (T : Type) := { from_value : JsonValue -> option T; to_value : T -> JsonValue }.

Class ValueSerdeLaws (T : Type) `{ValueSerde T} := {
  from_to_value : forall x : T, from_value (to_value x) = Some x;
  to_value_not_null : forall x : T, is_null (to_value x) = false;
}.

Section messages.
Context `{ValueSerde UserMessageContent, ValueSerde (list ToolCall), ValueSerde FunctionCallResponse}.

(** A field that is not null, parsed; a failure counts as absent. *)
Definition optional_field {T} `{ValueSerde T} (key : string) (v : JsonValue) : option T :=
  x ← value_get key v; if is_null x then None else from_value x.

Definition optional_string (key : string) (v : JsonValue) : option string := value_get key v ≫= as_str.

(** [Deserialize for ChatMessage] *)
Definition message_from_value (v : JsonValue) : result ChatMessage string :=
  match value_get "role" v with
  | None => Err "missing role field"
  | Some r =>
      match as_str r with
      | None => Err "role field must be a string"
      | Some role =>
          if decide (role = "assistant") then
            Ok (Assistant role (optional_field "content" v) (optional_string "name" v) (optional_field "tool_calls" v)
                  (optional_field "function_call" v)
                  (match optional_string "reasoning" v with Some r => Some r | None => optional_string "reasoning_content" v end))
          else if decide (role = "system") then
            Ok (System role (default (ContentText "") (value_get "content" v ≫= from_value)) (optional_string "name" v))
          else if decide (role = "user") then
            Ok (User role (default (ContentText "") (value_get "content" v ≫= from_value)) (optional_string "name" v))
          else if decide (role = "tool") then
            Ok (ToolMessage role (default (JString "") (value_get "content" v)) (default "" (optional_string "tool_call_id" v)))
          else if decide (role = "function") then
            Ok (FunctionMessage role (default "" (optional_string "content" v)) (default "" (optional_string "name" v)))
          else Ok (Other v)
      end
  end.

(** [skip_serializing_if = "Option::is_none"] *)
Definition skip_none {T} (key : string) (f : T -> JsonValue) (o : option T) : JsonMap :=
  match o with Some x => [(key, f x)] | None => [] end.

(** The derived [Serialize]: the fields of the variant. *)
Definition message_to_value (m : ChatMessage) : JsonValue :=
  match m with
  | System role content name | User role content name =>
      JObject ([("role", JString role); ("content", to_value content)] ++ skip_none "name" JString name)
  | Assistant role content name tool_calls function_call reasoning =>
      JObject ([("role", JString role)] ++ skip_none "content" to_value content ++ skip_none "name" JString name ++
        skip_none "tool_calls" to_value tool_calls ++ skip_none "function_call" to_value function_call ++ skip_none "reasoning" JString reasoning)
  | ToolMessage role content id => JObject [("role", JString role); ("content", content); ("tool_call_id", JString id)]
  | FunctionMessage role content name => JObject [("role", JString role); ("content", JString content); ("name", JString name)]
  | Other v => v
  end.
End messages.

(** ** Tools and formats *)

Record Function := MkFunction {
  function_name : string;
  function_description : option string;
  function_parameters : JsonValue;
  function_strict : option bool;
}.

Record Tool := MkTool { tool_type : string; tool_function : Function }.

Inductive ToolChoiceValue := ChoiceAuto | ChoiceRequired | ChoiceNone.

Inductive ToolChoice := ToolValue (v : ToolChoiceValue) | ToolFunction (tool_type : string) (name : string).

Inductive FunctionCall := CallNone | CallAuto | CallFunction (name : string).

Record JsonSchemaFormat := MkSchema { schema_name : string; schema : JsonValue; schema_strict : option bool }.

Inductive ResponseFormat := FormatText | FormatJsonObject | FormatJsonSchema (json_schema : JsonSchemaFormat).

Record StructuredOutputsParams := MkStructured {
  so_json : option JsonValue;
  so_regex : option string;
  so_choice : option (list string);
  so_grammar : option string;
  so_json_object : option bool;
  so_structural_tag : option string;
  so_disable_fallback : option bool;
  so_disable_any_whitespace : option bool;
  so_disable_additional_properties : option bool;
  so_whitespace_pattern : option string;
}.

Inductive StringOrArray := SoaString (s : string) | SoaArray (l : list string).

Inductive LoRAPath := LoraSingle (p : option string) | LoraBatch (ps : list (option string)).

Inductive ReasoningEffort := EffortNone | Minimal | Low | Medium | High | Xhigh | Max.

(** [PromptInput] *)
Inductive PromptInput :=
| PromptString (s : string)
| PromptIntBatch (b : list (list Z))
| PromptStringArray (l : list string)
| PromptIntArray (ids : list Z).

Definition prompt_len (p : PromptInput) : nat :=
  match p with
  | PromptString _ => 1
  | PromptStringArray l => length l
  | PromptIntArray _ => 1
  | PromptIntBatch b => length b
  end.

Definition prompt_is_empty (p : PromptInput) : bool :=
  match p with
  | PromptString s => bool_decide (s = "")
  | PromptStringArray l => bool_decide (l = [])
  | PromptIntArray l => bool_decide (l = [])
  | PromptIntBatch b => bool_decide (b = [])
  end.

Definition prompt_text (p : PromptInput) : string :=
  match p with
  | PromptString s => s
  | PromptStringArray l => String.concat " " l
  | PromptIntArray ids => "token_ids:" +:+ pretty (length ids)
  | PromptIntBatch b => "token_ids_batch:" +:+ pretty (length b) +:+ ":" +:+ pretty (sum_list (length <$> b))
  end.

Definition estimated_token_count (p : PromptInput) : nat :=
  match p with
  | PromptString s => String.length s / 4
  | PromptStringArray l => sum_list ((fun s => String.length s / 4)%nat <$> l)
  | PromptIntArray ids => length ids
  | PromptIntBatch b => sum_list (length <$> b)
  end.

(** ** Request bodies *)

Record ChatCompletionRequest := MkChat {
  chat_model : option string;
  chat_messages : list ChatMessage;
  chat_temperature : option f32;
  chat_top_p : option f32;
  chat_n : option N;
  chat_stream : bool;
  chat_include_usage : option (option bool);          (* stream_options *)
  chat_stop : option StringOrArray;
  chat_max_tokens : option N;
  chat_max_completion_tokens : option N;
  chat_presence_penalty : option f32;
  chat_frequency_penalty : option f32;
  chat_logit_bias : option (gmap string f32);
  chat_user : option string;
  chat_seed : option Z;
  chat_logprobs : bool;
  chat_top_logprobs : option N;
  chat_response_format : option ResponseFormat;
  chat_tools : option (list Tool);
  chat_tool_choice : option ToolChoice;
  chat_parallel_tool_calls : option bool;
  chat_functions : option (list Function);
  chat_function_call : option FunctionCall;
  chat_top_k : option Z;
  chat_min_p : option f32;
  chat_min_tokens : option N;
  chat_repetition_penalty : option f32;
  chat_regex : option string;
  chat_ebnf : option string;
  chat_stop_token_ids : option (list Z);
  chat_no_stop_trim : bool;
  chat_ignore_eos : bool;
  chat_add_generation_prompt : option bool;
  chat_continue_final_message : bool;
  chat_skip_special_tokens : bool;
  chat_lora_path : option LoRAPath;
  chat_session_params : option (gmap string JsonValue);
  chat_separate_reasoning : bool;
  chat_stream_reasoning : bool;
  chat_template_kwargs : option (gmap string JsonValue);
  chat_return_hidden_states : bool;
  chat_echo : option bool;
  chat_reasoning_effort : option ReasoningEffort;
  chat_include_reasoning : bool;
  chat_structured_outputs : option StructuredOutputsParams;
  chat_other : JsonMap;
}.

Record CompletionRequest := MkCompletion {
  compl_model : option string;
  compl_prompt : PromptInput;
  compl_suffix : option string;
  compl_max_tokens : option N;
  compl_temperature : option f32;
  compl_top_p : option f32;
  compl_n : option N;
  compl_stream : bool;
  compl_include_usage : option (option bool);
  compl_logprobs : option N;
  compl_echo : bool;
  compl_stop : option StringOrArray;
  compl_presence_penalty : option f32;
  compl_frequency_penalty : option f32;
  compl_best_of : option N;
  compl_logit_bias : option (gmap string f32);
  compl_user : option string;
  compl_seed : option Z;
  compl_top_k : option Z;
  compl_min_p : option f32;
  compl_min_tokens : option N;
  compl_repetition_penalty : option f32;
  compl_regex : option string;
  compl_ebnf : option string;
  compl_json_schema : option string;
  compl_stop_token_ids : option (list Z);
  compl_no_stop_trim : bool;
  compl_ignore_eos : bool;
  compl_skip_special_tokens : bool;
  compl_lora_path : option LoRAPath;
  compl_session_params : option (gmap string JsonValue);
  compl_return_hidden_states : bool;
  compl_other : JsonMap;
}.

Record InferenceGenerateRequest := MkInference {
  inf_token_ids : list Z;
  inf_stream : bool;
  inf_model : option string;
  inf_other : JsonMap;
}.

Record RerankRequest := MkRerank {
  rr_query : string;
  rr_documents : list string;
  rr_model : string;
  rr_top_k : option nat;
  rr_return_documents : bool;
  rr_rid : option StringOrArray;
  rr_user : option string;
}.

Record EmbeddingRequest := MkEmbedding {
  emb_model : option string;
  emb_input : JsonValue;
  emb_encoding_format : option string;
  emb_user : option string;
  emb_dimensions : option N;
  emb_rid : option string;
}.

Inductive InputIds := IdsSingle (ids : list Z) | IdsBatch (batches : list (list Z)).

Record GenerateParameters := MkGenParams {
  gp_best_of : option N;
  gp_decoder_input_details : option bool;
  gp_details : option bool;
  gp_do_sample : option bool;
  gp_max_new_tokens : option N;
  gp_repetition_penalty : option f32;
  gp_return_full_text : option bool;
  gp_seed : option N;
  gp_stop : option (list string);
  gp_temperature : option f32;
  gp_top_k : option N;
  gp_top_p : option f32;
  gp_truncate : option N;
  gp_typical_p : option f32;
  gp_watermark : option bool;
}.

Record SamplingParams := MkSampling {
  sp_temperature : option f32;
  sp_max_new_tokens : option N;
  sp_top_p : option f32;
  sp_top_k : option Z;
  sp_frequency_penalty : option f32;
  sp_presence_penalty : option f32;
  sp_repetition_penalty : option f32;
  sp_stop : option StringOrArray;
  sp_ignore_eos : option bool;
  sp_skip_special_tokens : option bool;
  sp_json_schema : option string;
  sp_regex : option string;
  sp_ebnf : option string;
  sp_min_p : option f32;
  sp_min_tokens : option N;
  sp_stop_token_ids : option (list Z);
  sp_no_stop_trim : option bool;
}.

Record GenerateRequest := MkGenerate {
  gen_prompt : option StringOrArray;
  gen_text : option string;
  gen_input_ids : option InputIds;
  gen_parameters : option GenerateParameters;
  gen_sampling_params : option SamplingParams;
  gen_stream : bool;
  gen_return_logprob : bool;
  gen_lora_path : option LoRAPath;
  gen_session_params : option (gmap string JsonValue);
  gen_return_hidden_states : bool;
  gen_rid : option string;
}.

(** ** The responses interface *)

Inductive ResponseToolType := WebSearchPreview | CodeInterpreter.

Inductive ResponseContentPart := OutputText (t : string) (annotations : list string) (logprobs : option JsonValue).

Inductive ResponseReasoningContent := ReasoningText (t : string).

Inductive ResponseInputOutputItem :=
| ItemMessage (id role : string) (content : list ResponseContentPart) (status : option string)
| ItemReasoning (id : string) (summary : list string) (content : list ResponseReasoningContent) (status : option string)
| ItemFunctionToolCall (id name arguments : string) (output status : option string).

Inductive ResponseInput := InputText (t : string) | InputItems (items : list ResponseInputOutputItem).

Inductive ServiceTier := TierAuto | TierDefault | TierFlex | TierScale | TierPriority.

Inductive Truncation := TruncationAuto | TruncationDisabled.

Inductive IncludeField :=
| CodeInterpreterCallOutputs | ComputerCallOutputImageUrl | FileSearchCallResults
| MessageInputImageUrl | MessageOutputTextLogprobs | ReasoningEncryptedContent.

Record ResponsesRequest := MkResponses {
  resp_background : bool;
  resp_include : option (list IncludeField);
  resp_input : ResponseInput;
  resp_instructions : option string;
  resp_max_output_tokens : option N;
  resp_max_tool_calls : option N;
  resp_metadata : option (gmap string JsonValue);
  resp_model : option string;
  resp_parallel_tool_calls : bool;
  resp_previous_response_id : option string;
  resp_reasoning : option (option ReasoningEffort);
  resp_service_tier : ServiceTier;
  resp_store : bool;
  resp_stream : bool;
  resp_temperature : option f32;
  resp_tool_choice : ToolChoice;
  resp_tools : list ResponseToolType;
  resp_top_logprobs : N;
  resp_top_p : option f32;
  resp_truncation : Truncation;
  resp_user : option string;
  resp_request_id : string;
  resp_priority : Z;
  resp_frequency_penalty : f32;
  resp_presence_penalty : f32;
  resp_stop : option StringOrArray;
  resp_top_k : Z;
  resp_min_p : f32;
  resp_repetition_penalty : f32;
}.

(** [x as f64] for an [f32] *)
Definition f32_as_f64 (x : f32) : f64 :=
  match x with S754_finite s m e => binary_normalize 53 1024 (cond_Zopp s (Zpos m)) e s | _ => x end.

(** [Number::from_f64(x as f64).unwrap()] *)
Definition number_of_f32 (x : f32) : option JsonValue :=
  if is_finite (f32_as_f64 x) then Some (JNumber (Float (f32_as_f64 x))) else None.

(** The value of a request, of the defaults, or of the interface. *)
Definition sampling_value (own : option f32) (defaults : option (gmap string JsonValue)) (key : string) (fallback : f32) : f32 :=
  match own with
  | Some x => x
  | None => default fallback (f64_as_f32 <$> ((defaults ≫= (fun p : gmap string JsonValue => p !! key)) ≫= as_f64))
  end.

Definition stop_to_value (s : StringOrArray) : JsonValue :=
  match s with SoaString s => JString s | SoaArray l => JArray (JString <$> l) end.

(** [to_sampling_params] *)
Definition to_sampling_params (r : ResponsesRequest) (default_max_tokens : N) (defaults : option (gmap string JsonValue))
  : option (gmap string JsonValue) :=
  let max_tokens := match resp_max_output_tokens r with Some m => N.min m default_max_tokens | None => default_max_tokens end in
  let max_tokens := saturating_sub max_tokens 1 in
  temperature ← number_of_f32 (sampling_value (resp_temperature r) defaults "temperature" (f32_lit 7 10));
  top_p ← number_of_f32 (sampling_value (resp_top_p r) defaults "top_p" (f32_lit 1 1));
  frequency_penalty ← number_of_f32 (resp_frequency_penalty r);
  presence_penalty ← number_of_f32 (resp_presence_penalty r);
  min_p ← number_of_f32 (resp_min_p r);
  repetition_penalty ← number_of_f32 (resp_repetition_penalty r);
  let params : gmap string JsonValue :=
    <["repetition_penalty" := repetition_penalty]> (<["min_p" := min_p]> (<["top_k" := of_i64 (resp_top_k r)]>
    (<["presence_penalty" := presence_penalty]> (<["frequency_penalty" := frequency_penalty]>
    (<["top_p" := top_p]> (<["temperature" := temperature]> {["max_new_tokens" := JNumber (PosInt max_tokens)]})))))) in
  let params := match resp_stop r with Some s => <["stop" := stop_to_value s]> params | None => params end in
  Some (params ∪ default ∅ defaults).

(** ** Usage *)

Record UsageInfo := MkUsage {
  prompt_tokens : N; completion_tokens : N; total_tokens : N; reasoning_tokens : option N; cached_tokens : option N   (* prompt_tokens_details *)
}.

Record ResponseUsage := MkResponseUsage {
  input_tokens : N; output_tokens : N; response_total_tokens : N;
  input_cached_tokens : option N;      (* input_tokens_details *)
  output_reasoning_tokens : option N;  (* output_tokens_details *)
}.

Definition to_response_usage (u : UsageInfo) : ResponseUsage :=
  MkResponseUsage (prompt_tokens u) (completion_tokens u) (total_tokens u) (cached_tokens u) (reasoning_tokens u).

Definition to_usage_info (u : ResponseUsage) : UsageInfo :=
  MkUsage (input_tokens u) (output_tokens u) (response_total_tokens u) (output_reasoning_tokens u) (input_cached_tokens u).

(** ** Text for routing *)

(** [GenerationRequest] *)
Class GenerationRequest (R : Type) := {
  is_stream : R -> bool;
  get_model : R -> option string;
  extract_text_for_routing : R -> string;
  extract_text_for_program_scheduling : R -> string;
  extract_program_identity_payload : R -> option JsonValue;
}.

(** [trim().is_empty()] *)
Definition blank (s : string) : bool := bool_decide (trim s = "").

Definition routing_texts (c : UserMessageContent) : list string :=
  match c with
  | ContentText t => if blank t then [] else [t]
  | ContentParts parts => omap (fun p => match p with PartText t => if blank t then None else Some t | PartImageUrl _ => None end) parts
  end.

Definition labelled (label : string) (c : UserMessageContent) : list string :=
  (fun t => label +:+ ":" +:+ trim t) <$> routing_texts c.

Definition call_text (label : string) (c : FunctionCallResponse) : list string :=
  match call_arguments c with
  | Some a => if blank a then [] else [label +:+ ":" +:+ trim (call_name c) +:+ ":" +:+ trim a]
  | None => []
  end.

Definition tool_text (t : string) : list string := if blank t then [] else ["tool:" +:+ trim t].

(** The texts of one message. *)
Definition message_texts (m : ChatMessage) : list string :=
  match m with
  | System _ c _ => labelled "system" c
  | User _ c _ => labelled "user" c
  | Assistant _ c _ calls call _ =>
      from_option (labelled "assistant") [] c ++
      from_option (mjoin ∘ fmap (fun t => call_text "assistant_tool_call" (tool_call_function t))) [] calls ++
      from_option (call_text "assistant_function_call") [] call
  | ToolMessage _ content _ =>
      match content with
      | JString t => tool_text t
      | JArray items => items ≫= (fun item => from_option tool_text [] (value_get "text" item ≫= as_str))
      | _ => []
      end
  | FunctionMessage _ content name => if blank content then [] else ["function:" +:+ trim name +:+ ":" +:+ trim content]
  | Other _ => []
  end.

Section texts.
Context `{SerdeJson, ValueSerde UserMessageContent, ValueSerde (list ToolCall), ValueSerde FunctionCallResponse}.

Definition function_text (label : string) (f : Function) : string :=
  label +:+ ":" +:+ trim (function_name f) +:+ ":" +:+ trim (default "" (function_description f)) +:+ ":" +:+ to_string (function_parameters f).

Definition by_name (f g : Function) : comparison := String.compare (function_name f) (function_name g).

Definition chat_routing_text (r : ChatCompletionRequest) : string :=
  match (chat_session_params r ≫= (fun p : gmap string JsonValue => p !! "session_id")) ≫= as_str with
  | Some s => if blank s then to_string (JArray (message_to_value <$> chat_messages r)) else s
  | None => to_string (JArray (message_to_value <$> chat_messages r))
  end.

(** [extract_text_for_program_scheduling] *)
Definition chat_scheduling_text (r : ChatCompletionRequest) : string :=
  let parts := ((chat_messages r ≫= message_texts) ++
    (function_text "tool_schema" <$> sort_by by_name (tool_function <$> default [] (chat_tools r))) ++
    (function_text "function_schema" <$> sort_by by_name (default [] (chat_functions r))))%list in
  if bool_decide (parts = []) then chat_routing_text r
  else String.concat (String (Ascii.ascii_of_nat 10) "") parts.

(** [program_identity_payload] *)
Definition program_identity_payload (other : JsonMap) (user : option string) : option JsonValue :=
  let payload := foldl (fun p field => match get field other with Some v => map_insert field v p | None => p end) []
    ["vllm_xargs"; "agent_hint"; "session_params"; "session_id"; "user_id"] in
  let payload := match user with Some u => map_insert "user" (JString u) payload | None => payload end in
  if bool_decide (payload = []) then None else Some (JObject payload).

#[export] Instance chat_request : GenerationRequest ChatCompletionRequest := {|
  is_stream := chat_stream;
  get_model := chat_model;
  extract_text_for_routing := chat_routing_text;
  extract_text_for_program_scheduling := chat_scheduling_text;
  extract_program_identity_payload r := program_identity_payload (chat_other r) (chat_user r);
|}.
End texts.

#[export] Instance completion_request : GenerationRequest CompletionRequest := {|
  is_stream := compl_stream;
  get_model := compl_model;
  extract_text_for_routing r := prompt_text (compl_prompt r);
  extract_text_for_program_scheduling r := prompt_text (compl_prompt r);
  extract_program_identity_payload r := program_identity_payload (compl_other r) (compl_user r);
|}.

Definition item_text (i : ResponseInputOutputItem) : option string :=
  let joined l := if bool_decide (l = []) then None else Some (String.concat " " l) in
  match i with
  | ItemMessage _ _ content _ => joined ((fun p => match p with OutputText t _ _ => t end) <$> content)
  | ItemReasoning _ _ content _ => joined ((fun p => match p with ReasoningText t => t end) <$> content)
  | ItemFunctionToolCall _ _ arguments _ _ => Some arguments
  end.

Definition responses_text (r : ResponsesRequest) : string :=
  match resp_input r with InputText t => t | InputItems items => String.concat " " (omap item_text items) end.

#[export] Instance responses_request : GenerationRequest ResponsesRequest := {|
  is_stream := resp_stream;
  get_model := resp_model;
  extract_text_for_routing := responses_text;
  extract_text_for_program_scheduling := responses_text;
  extract_program_identity_payload _ := None;
|}.

Definition generate_text (r : GenerateRequest) : string :=
  match gen_text r, gen_prompt r, gen_input_ids r with
  | Some t, _, _ => t
  | None, Some (SoaString s), _ => s
  | None, Some (SoaArray l), _ => String.concat " " l
  | None, None, Some (IdsSingle ids) => String.concat " " (pretty <$> ids)
  | None, None, Some (IdsBatch bs) => String.concat " " (pretty <$> mjoin bs)
  | None, None, None => ""
  end.

#[export] Instance generate_request : GenerationRequest GenerateRequest := {|
  is_stream := gen_stream;
  get_model _ := None;
  extract_text_for_routing := generate_text;
  extract_text_for_program_scheduling := generate_text;
  extract_program_identity_payload _ := None;
|}.

#[export] Instance inference_request : GenerationRequest InferenceGenerateRequest := {|
  is_stream := inf_stream;
  get_model := inf_model;
  extract_text_for_routing r := String.concat " " (pretty <$> inf_token_ids r);
  extract_text_for_program_scheduling r := String.concat " " (pretty <$> inf_token_ids r);
  extract_program_identity_payload r := program_identity_payload (inf_other r) None;
|}.

#[export] Instance rerank_request : GenerationRequest RerankRequest := {|
  is_stream _ := false;
  get_model r := Some (rr_model r);
  extract_text_for_routing := rr_query;
  extract_text_for_program_scheduling := rr_query;
  extract_program_identity_payload _ := None;
|}.

Definition embedding_text (r : EmbeddingRequest) : string :=
  match emb_input r with JString s => s | JArray l => String.concat " " (omap as_str l) | _ => "" end.

#[export] Instance embedding_request : GenerationRequest EmbeddingRequest := {|
  is_stream _ := false;
  get_model := emb_model;
  extract_text_for_routing := embedding_text;
  extract_text_for_program_scheduling := embedding_text;
  extract_program_identity_payload _ := None;
|}.

(** ** Reranking *)

Record RerankResult := MkRerankResult {
  score : f32;
  document : option string;
  index : nat;
  meta_info : option (gmap string JsonValue);
}.

Record RerankResponse := MkRerankResponse {
  results : list RerankResult;
  rerank_model : string;
  rerank_usage : option UsageInfo;
  rerank_object : string;
  rerank_id : option StringOrArray;
  rerank_created : Z;
}.

Definition validate_rerank (r : RerankRequest) : result unit string :=
  if blank (rr_query r) then Err "Query cannot be empty"
  else if bool_decide (rr_documents r = []) then Err "Documents list cannot be empty"
  else match rr_top_k r with
  | Some 0%nat => Err "top_k must be greater than 0"
  | _ => Ok tt
  end.

Definition new_rerank_response (now : Z) (rs : list RerankResult) (model : string) (rid : option StringOrArray) : RerankResponse :=
  MkRerankResponse rs model None "rerank" rid now.

(** [b.score.partial_cmp(&a.score).unwrap_or(Equal)] *)
Definition by_score (a b : RerankResult) : comparison := default Eq (SFcompare (score b) (score a)).

Definition with_results (rs : list RerankResult) (r : RerankResponse) : RerankResponse :=
  MkRerankResponse rs (rerank_model r) (rerank_usage r) (rerank_object r) (rerank_id r) (rerank_created r).

Definition sort_by_score (r : RerankResponse) : RerankResponse := with_results (sort_by by_score (results r)) r.

Definition apply_top_k (k : nat) (r : RerankResponse) : RerankResponse := with_results (take k (results r)) r.

Definition without_document (x : RerankResult) : RerankResult := MkRerankResult (score x) None (index x) (meta_info x).

Definition drop_documents (r : RerankResponse) : RerankResponse := with_results (without_document <$> results r) r.

(** [build_rerank_response] of [src/routers/http/router.rs], on the parsed results of the worker. *)
Definition build_rerank_response (now : Z) (req : RerankRequest) (rs : list RerankResult) : RerankResponse :=
  let r := sort_by_score (new_rerank_response now rs (rr_model req) (rr_rid req)) in
  let r := match rr_top_k req with Some k => apply_top_k k r | None => r end in
  if rr_return_documents req then r else drop_documents r.

(** ** Checks of parameters *)

(** A value in a message, before it is printed. *)
Inductive Shown := ShowF32 (x : f32) | ShowU32 (n : N) | ShowI32 (z : Z) | ShowStr (s : string).

Inductive ValidationError :=
| OutOfRange (parameter : string) (value min max : Shown)
| InvalidValue (parameter : string) (value : Shown) (reason : string)
| ConflictingParameters (parameter1 parameter2 reason : string)
| MissingRequired (parameter : string)
| TooManyItems (parameter : string) (count max : nat)
| Custom (msg : string).

Abbreviation checked := (result unit ValidationError).

Definition check_then (r k : checked) : checked := match r with Ok _ => k | Err e => Err e end.

Declare Scope checked_scope.
Notation "r ;; k" := (check_then r k) (at level 100, k at level 200, right associativity) : checked_scope.
Local Open Scope checked_scope.

(** The check of a parameter that is given. *)
Definition when_some {A} (o : option A) (f : A -> checked) : checked := from_option f (Ok tt) o.

(** [PartialOrd] and [Display] *)
Class Ranged (T : Type) := { le_bool : T -> T -> bool; shown : T -> Shown }.

#[export] Instance ranged_f32 : Ranged f32 := {| le_bool := SFleb; shown := ShowF32 |}.
#[export] Instance ranged_u32 : Ranged N := {| le_bool := N.leb; shown := ShowU32 |}.

Definition validate_range {T} `{Ranged T} (value : T) (range : T * T) (param_name : string) : checked :=
  if le_bool range.1 value && le_bool value range.2 then Ok tt
  else Err (OutOfRange param_name (shown value) (shown range.1) (shown range.2)).

Definition validate_positive (value : N) (param_name : string) : checked :=
  if (0 <? value)%N then Ok tt else Err (InvalidValue param_name (ShowU32 value) "must be positive").

Definition validate_max_items {A} (items : list A) (max_count : nat) (param_name : string) : checked :=
  if (length items <=? max_count)%nat then Ok tt else Err (TooManyItems param_name (length items) max_count).

Definition TOP_K_MIN : Z := -1.

Definition validate_top_k (top_k : Z) : checked :=
  if (top_k =? TOP_K_MIN)%Z || (0 <? top_k)%Z then Ok tt
  else Err (InvalidValue "top_k" (ShowI32 top_k) "must be -1 (disabled) or positive").

(** The ranges of [constants]. *)
Definition f32_int (z : Z) : f32 := if (z <? 0)%Z then SFopp (usize_as_f32 (Z.to_N (- z))) else usize_as_f32 (Z.to_N z).
Definition TEMPERATURE_RANGE : f32 * f32 := (f32_int 0, f32_int 2).
Definition TOP_P_RANGE : f32 * f32 := (f32_int 0, f32_int 1).
Definition PENALTY_RANGE : f32 * f32 := (f32_int (-2), f32_int 2).
Definition MIN_P_RANGE : f32 * f32 := (f32_int 0, f32_int 1).
Definition REPETITION_PENALTY_RANGE : f32 * f32 := (f32_int 0, f32_int 2).
Definition MAX_STOP_SEQUENCES : nat := 4.

(** The providers of parameters *)
Class SamplingOptionsProvider (R : Type) := {
  get_temperature : R -> option f32; get_top_p : R -> option f32;
  get_frequency_penalty : R -> option f32; get_presence_penalty : R -> option f32;
}.
Class StopConditionsProvider (R : Type) := get_stop_sequences : R -> option StringOrArray.
Class TokenLimitsProvider (R : Type) := { get_max_tokens : R -> option N; get_min_tokens : R -> option N }.
Class LogProbsProvider (R : Type) := { get_logprobs : R -> option N; get_top_logprobs : R -> option N }.
Class VLLMExtensionsProvider (R : Type) := {
  get_top_k : R -> option Z; get_min_p : R -> option f32; get_repetition_penalty : R -> option f32;
}.
Class CompletionCountProvider (R : Type) := get_n : R -> option N.

Section validators.
Context {R : Type} `{SamplingOptionsProvider R, StopConditionsProvider R, TokenLimitsProvider R, LogProbsProvider R, VLLMExtensionsProvider R, CompletionCountProvider R}.

Definition validate_sampling_options (r : R) : checked :=
  when_some (get_temperature r) (fun t => validate_range t TEMPERATURE_RANGE "temperature") ;;
  when_some (get_top_p r) (fun p =>
    if SFleb p TOP_P_RANGE.1 then Err (OutOfRange "top_p" (ShowF32 p) (ShowF32 TOP_P_RANGE.1) (ShowF32 TOP_P_RANGE.2))
    else validate_range p TOP_P_RANGE "top_p") ;;
  when_some (get_frequency_penalty r) (fun p => validate_range p PENALTY_RANGE "frequency_penalty") ;;
  when_some (get_presence_penalty r) (fun p => validate_range p PENALTY_RANGE "presence_penalty").

(** The first empty stop sequence. *)
Fixpoint empty_stop (i : nat) (l : list string) : checked :=
  match l with
  | [] => Ok tt
  | s :: l =>
      if bool_decide (s = "") then Err (InvalidValue ("stop[" +:+ pretty i +:+ "]") (ShowStr "empty string") "stop sequences cannot be empty")
      else empty_stop (S i) l
  end.

Definition validate_stop_conditions (r : R) : checked :=
  when_some (get_stop_sequences r) (fun stop =>
    match stop with
    | SoaString s => if bool_decide (s = "") then Err (InvalidValue "stop" (ShowStr "empty string") "stop sequences cannot be empty") else Ok tt
    | SoaArray l => validate_max_items l MAX_STOP_SEQUENCES "stop" ;; empty_stop 0 l
    end).

Definition validate_token_limits (r : R) : checked :=
  when_some (get_max_tokens r) (fun n => validate_positive n "max_tokens") ;;
  when_some (get_min_tokens r) (fun n => validate_positive n "min_tokens").

Definition validate_logprobs (r : R) : checked :=
  when_some (get_logprobs r) (fun n => validate_range n (0, 5)%N "logprobs") ;;
  when_some (get_top_logprobs r) (fun n => validate_range n (0, 20)%N "top_logprobs").

Definition validate_cross_parameters (r : R) : checked :=
  match get_min_tokens r, get_max_tokens r with
  | Some min_tokens, Some max_tokens =>
      if (max_tokens <? min_tokens)%N
      then Err (ConflictingParameters "min_tokens" "max_tokens"
             ("min_tokens (" +:+ pretty min_tokens +:+ ") cannot be greater than max_tokens (" +:+ pretty max_tokens +:+ ")"))
      else Ok tt
  | _, _ => Ok tt
  end.

Definition validate_conflicting_parameters (name1 : string) (value1 : bool) (name2 : string) (value2 : bool) (reason : string) : checked :=
  if value1 && value2 then Err (ConflictingParameters name1 name2 reason) else Ok tt.

Definition validate_mutually_exclusive_options (options : list (string * bool)) (error_msg : string) : checked :=
  if (1 <? length (filter (fun o => o.2 = true) options))%nat then Err (Custom error_msg) else Ok tt.

Definition validate_vllm_extensions (r : R) : checked :=
  when_some (get_top_k r) validate_top_k ;;
  when_some (get_min_p r) (fun p => validate_range p MIN_P_RANGE "min_p") ;;
  when_some (get_repetition_penalty r) (fun p => validate_range p REPETITION_PENALTY_RANGE "repetition_penalty").

Definition validate_completion_count (r : R) : checked :=
  when_some (get_n r) (fun n => validate_range n (1, 10)%N "n").

Definition validate_non_empty_array {A} (items : list A) (param_name : string) : checked :=
  if bool_decide (length items = 0%nat) then Err (MissingRequired param_name) else Ok tt.

Definition validate_common_request_params (r : R) : checked :=
  validate_sampling_options r ;;
  validate_stop_conditions r ;;
  validate_token_limits r ;;
  validate_logprobs r ;;
  validate_vllm_extensions r ;;
  validate_completion_count r ;;
  validate_cross_parameters r.
End validators.

#[export] Instance chat_sampling : SamplingOptionsProvider ChatCompletionRequest := {|
  get_temperature := chat_temperature; get_top_p := chat_top_p;
  get_frequency_penalty := chat_frequency_penalty; get_presence_penalty := chat_presence_penalty |}.
#[export] Instance chat_stops : StopConditionsProvider ChatCompletionRequest := chat_stop.
#[export] Instance chat_limits : TokenLimitsProvider ChatCompletionRequest := {|
  get_max_tokens r := match chat_max_completion_tokens r with Some n => Some n | None => chat_max_tokens r end;
  get_min_tokens := chat_min_tokens |}.
#[export] Instance chat_logprob : LogProbsProvider ChatCompletionRequest := {|
  get_logprobs r := if chat_logprobs r then Some 1%N else None; get_top_logprobs := chat_top_logprobs |}.
#[export] Instance chat_extensions : VLLMExtensionsProvider ChatCompletionRequest := {|
  get_top_k := chat_top_k; get_min_p := chat_min_p; get_repetition_penalty := chat_repetition_penalty |}.
#[export] Instance chat_count : CompletionCountProvider ChatCompletionRequest := chat_n.

(** The check of the content of the messages from number [i] on. *)
Fixpoint validate_contents (i : nat) (ms : list ChatMessage) : checked :=
  match ms with
  | [] => Ok tt
  | m :: ms =>
      let at_ := "messages[" +:+ pretty i +:+ "].content" in
      match m with
      | User _ (ContentText "") _ => Err (InvalidValue at_ (ShowStr "empty") "message content cannot be empty")
      | User _ (ContentParts []) _ => Err (InvalidValue at_ (ShowStr "empty array") "message content parts cannot be empty")
      | _ => validate_contents (S i) ms
      end
  end.

Definition validate_messages (r : ChatCompletionRequest) : checked :=
  validate_non_empty_array (chat_messages r) "messages" ;; validate_contents 0 (chat_messages r).

Definition validate_response_format (r : ChatCompletionRequest) : checked :=
  match chat_response_format r with
  | Some (FormatJsonSchema s) =>
      if bool_decide (schema_name s = "")
      then Err (InvalidValue "response_format.json_schema.name" (ShowStr "empty") "JSON schema name cannot be empty") else Ok tt
  | _ => Ok tt
  end.

Definition given {A} (o : option A) : bool := match o with Some _ => true | None => false end.

Definition validate_chat_logprobs (r : ChatCompletionRequest) : checked :=
  if chat_logprobs r && negb (given (chat_top_logprobs r)) then Err (MissingRequired "top_logprobs")
  else if given (chat_top_logprobs r) && negb (chat_logprobs r)
  then Err (InvalidValue "logprobs" (ShowStr "false") "must be true when top_logprobs is specified")
  else Ok tt.

Definition has_json_format (r : ChatCompletionRequest) : bool :=
  match chat_response_format r with Some (FormatJsonObject | FormatJsonSchema _) => true | _ => false end.

Definition has_json_schema (r : ChatCompletionRequest) : bool :=
  match chat_response_format r with Some (FormatJsonSchema _) => true | _ => false end.

Definition validate_chat_cross_parameters (r : ChatCompletionRequest) : checked :=
  validate_conflicting_parameters "max_tokens" (given (chat_max_tokens r)) "max_completion_tokens" (given (chat_max_completion_tokens r))
    "cannot specify both max_tokens and max_completion_tokens" ;;
  validate_conflicting_parameters "tools" (given (chat_tools r)) "functions" (given (chat_functions r))
    "functions is deprecated, use tools instead" ;;
  validate_conflicting_parameters "response_format" (has_json_format r) "regex" (given (chat_regex r))
    "cannot use regex constraint with JSON response format" ;;
  validate_conflicting_parameters "response_format" (has_json_format r) "ebnf" (given (chat_ebnf r))
    "cannot use EBNF constraint with JSON response format" ;;
  validate_mutually_exclusive_options
    [("regex", given (chat_regex r)); ("ebnf", given (chat_ebnf r)); ("json_schema", has_json_schema r)]
    "Only one structured output constraint (regex, ebnf, or json_schema) can be active at a time".

(** [ValidatableRequest for ChatCompletionRequest] *)
Definition validate_chat (r : ChatCompletionRequest) : checked :=
  validate_common_request_params r ;;
  validate_messages r ;;
  validate_response_format r ;;
  validate_chat_logprobs r ;;
  validate_chat_cross_parameters r.

(** *** Constraints on the output ([src/backend/convert.rs]) *)

(** [pb::decoding_parameters::StructuredOutput] *)
Inductive StructuredOutput :=
| OutRegex (regex : string)
| OutGrammar (grammar : string)
| OutJsonObject (b : bool)
| OutJson (schema : string)
| OutChoice (choices : list string)
| OutStructuralTag (tag : string).

Definition pushed {A} (f : A -> StructuredOutput) (o : option A) : list StructuredOutput :=
  match o with Some x => [f x] | None => [] end.

(** The conversion of a request for a worker; [print] is [Value::to_string]. *)
Definition structured_output (print : JsonValue -> string) (r : ChatCompletionRequest) : result (option StructuredOutput) string :=
  let selected :=
    (pushed OutRegex (chat_regex r) ++ pushed OutGrammar (chat_ebnf r) ++
     match chat_response_format r with
     | Some FormatJsonObject => [OutJsonObject true]
     | Some (FormatJsonSchema s) => [OutJson (print (schema s))]
     | _ => []
     end ++
     match chat_structured_outputs r with
     | Some params =>
         pushed (fun v => OutJson (print v)) (so_json params) ++ pushed OutRegex (so_regex params) ++
         pushed OutChoice (so_choice params) ++ pushed OutGrammar (so_grammar params) ++
         (if bool_decide (so_json_object params = Some true) then [OutJsonObject true] else []) ++
         pushed OutStructuralTag (so_structural_tag params)
     | None => []
     end)%list in
  match selected with
  | [] => Ok None
  | [o] => Ok (Some o)
  | _ => Err "only one structured output constraint may be specified"
  end.

(** ** What the checks ask for *)

Definition in_range (lo hi : Z) (x : f32) : Prop := is_finite x = true /\ SFleb (f32_int lo) x = true /\ SFleb x (f32_int hi) = true.

Definition given_and {A} (P : A -> Prop) (o : option A) : Prop := forall x, o = Some x -> P x.

Record sampling_ok (r : ChatCompletionRequest) : Prop := {
  temperature_ok : given_and (in_range 0 2) (chat_temperature r);
  top_p_ok : given_and (fun p => in_range 0 1 p /\ SFleb p (f32_int 0) = false) (chat_top_p r);
  frequency_ok : given_and (in_range (-2) 2) (chat_frequency_penalty r);
  presence_ok : given_and (in_range (-2) 2) (chat_presence_penalty r);
  min_p_ok : given_and (in_range 0 1) (chat_min_p r);
  repetition_ok : given_and (in_range 0 2) (chat_repetition_penalty r);
  top_k_ok : given_and (fun k => k = -1 \/ 0 < k)%Z (chat_top_k r);
  n_ok : given_and (fun n => 1 <= n <= 10)%N (chat_n r);
}.

Definition stop_list (s : StringOrArray) : list string := match s with SoaString s => [s] | SoaArray l => l end.

Definition content_given (m : ChatMessage) : Prop :=
  match m with User _ c _ => c <> ContentText "" /\ c <> ContentParts [] | _ => True end.

Record chat_ok (r : ChatCompletionRequest) : Prop := {
  ok_sampling : sampling_ok r;
  ok_stop : given_and (fun s => (length (stop_list s) <= 4)%nat /\ "" ∉ stop_list s) (chat_stop r);
  ok_limits : given_and (N.lt 0) (chat_min_tokens r) /\
    given_and (fun n => 0 < n /\ given_and (fun m => m <= n) (chat_min_tokens r))%N
      (match chat_max_completion_tokens r with Some n => Some n | None => chat_max_tokens r end);
  ok_logprobs : (chat_logprobs r = true <-> is_Some (chat_top_logprobs r)) /\ given_and (fun n => n <= 20)%N (chat_top_logprobs r);
  ok_messages : chat_messages r <> [] /\ Forall content_given (chat_messages r);
  ok_schema : forall s, chat_response_format r = Some (FormatJsonSchema s) -> schema_name s <> "";
  ok_max : chat_max_tokens r = None \/ chat_max_completion_tokens r = None;
  ok_tools : chat_tools r = None \/ chat_functions r = None;
  ok_constraint : (chat_regex r = None \/ chat_ebnf r = None) /\
    (has_json_format r = true -> chat_regex r = None /\ chat_ebnf r = None);
}.

(** The constraints of [structured_outputs] that are active. *)
Definition active_constraints (p : StructuredOutputsParams) : nat :=
  length (filter (fun b => b = true) [given (so_json p); given (so_regex p); given (so_choice p); given (so_grammar p);
    bool_decide (so_json_object p = Some true); given (so_structural_tag p)]).

(** There is a constraint beside [structured_outputs]. *)
Definition constrained (r : ChatCompletionRequest) : Prop :=
  is_Some (chat_regex r) \/ is_Some (chat_ebnf r) \/ has_json_format r = true.

(** ** The derived (de)serializers *)

(** An [Option<String>] field: absent or null is [None]. *)
Definition option_field (key : string) (v : JsonValue) : option (option string) :=
  match value_get key v with
  | None | Some JNull => Some None
  | Some (JString s) => Some (Some s)
  | Some _ => None
  end.

(** A struct may also be written as the array of its fields, of which the last
    [defaults] have a default and may be missing. *)
Definition as_struct (keys : list string) (defaults : nat) (v : JsonValue) : option JsonValue :=
  match v with
  | JArray l => if decide (length keys - defaults <= length l <= length keys)%nat then Some (JObject (zip keys l)) else None
  | _ => Some v
  end.

(** [#[serde(tag = "type")]]; the first element of an array is the tag.  Both
    variants have one field, which is named like the tag. *)
Definition part_from_value (v : JsonValue) : option ContentPart :=
  '(tag, v) ← match v with
    | JArray (JString tag :: l) => v ← as_struct [tag] 0 (JArray l); Some (tag, v)
    | _ => tag ← value_get "type" v ≫= as_str; Some (tag, v)
    end;
  if decide (tag = "text") then PartText <$> (value_get "text" v ≫= as_str)
  else if decide (tag = "image_url") then
    i ← value_get "image_url" v ≫= as_struct ["url"; "detail"] 0; url ← value_get "url" i ≫= as_str; d ← option_field "detail" i; Some (PartImageUrl (MkImageUrl url d))
  else None.

Definition part_to_value (p : ContentPart) : JsonValue :=
  match p with
  | PartText t => JObject [("type", JString "text"); ("text", JString t)]
  | PartImageUrl i => JObject [("type", JString "image_url"); ("image_url", JObject (("url", JString (image_url_of i)) :: skip_none "detail" JString (detail i)))]
  end.

(** [#[serde(untagged)]] *)
#[export] Instance content_serde : ValueSerde UserMessageContent := {|
  from_value v := match v with JString s => Some (ContentText s) | JArray l => ContentParts <$> mapM part_from_value l | _ => None end;
  to_value c := match c with ContentText t => JString t | ContentParts ps => JArray (part_to_value <$> ps) end;
|}.

#[export] Instance call_serde : ValueSerde FunctionCallResponse := {|
  from_value v := v ← as_struct ["name"; "arguments"] 1 v; name ← value_get "name" v ≫= as_str; arguments ← option_field "arguments" v; Some (MkCall name arguments);
  to_value c := JObject [("name", JString (call_name c)); ("arguments", from_option JString JNull (call_arguments c))];
|}.

Definition tool_call_from_value (v : JsonValue) : option ToolCall :=
  v ← as_struct ["id"; "type"; "function"] 0 v; id ← value_get "id" v ≫= as_str; type ← value_get "type" v ≫= as_str; f ← value_get "function" v ≫= from_value; Some (MkToolCall id type f).

Definition tool_call_to_value (c : ToolCall) : JsonValue :=
  JObject [("id", JString (tool_call_id_of c)); ("type", JString (tool_call_type c)); ("function", to_value (tool_call_function c))].

#[export] Instance tool_calls_serde : ValueSerde (list ToolCall) := {|
  from_value v := match v with JArray l => mapM tool_call_from_value l | _ => None end;
  to_value l := JArray (tool_call_to_value <$> l);
|}.

(** ** Lemmas *)

Lemma check_then_ok (r k : checked) : (r ;; k) = Ok tt <-> r = Ok tt /\ k = Ok tt.
Proof. destruct r as [[]|]; simpl; naive_solver. Qed.

Lemma when_some_ok {A} (o : option A) f : when_some o f = Ok tt <-> given_and (fun x => f x = Ok tt) o.
Proof. destruct o; simpl; unfold given_and; naive_solver. Qed.

Lemma given_and_iff {A} (P Q : A -> Prop) o : (forall x, P x <-> Q x) -> given_and P o <-> given_and Q o.
Proof. unfold given_and. naive_solver. Qed.

Lemma given_some {A} (P : A -> Prop) x : given_and P (Some x) <-> P x.
Proof. unfold given_and. naive_solver. Qed.

Lemma given_nothing {A} (P : A -> Prop) : given_and P None <-> True.
Proof. unfold given_and. naive_solver. Qed.

(** A check that rejects when a condition holds. *)
Lemma reject_ok {E} (b : bool) (e : E) : (if b then Err e else Ok tt) = Ok tt <-> b = false.
Proof. by destruct b. Qed.

Lemma accept_ok {E} (b : bool) (e : E) : (if b then Ok tt else Err e) = Ok tt <-> b = true.
Proof. by destruct b. Qed.

Lemma f32_int_finite z : (Z.abs z < 4)%Z -> is_finite (f32_int z) = true.
Proof. intros Hz. assert (z = -3 \/ z = -2 \/ z = -1 \/ z = 0 \/ z = 1 \/ z = 2 \/ z = 3)%Z as Hc by lia. by destruct Hc as [->|[->|[->|[->|[->|[->| ->]]]]]]. Qed.

Lemma between_finite lo x hi : is_finite lo = true -> is_finite hi = true -> SFleb lo x = true -> SFleb x hi = true -> is_finite x = true.
Proof. by destruct lo, hi, x as [|[]| |]. Qed.

Lemma range_ok lo hi x p : (Z.abs lo < 4)%Z -> (Z.abs hi < 4)%Z -> validate_range x (f32_int lo, f32_int hi) p = Ok tt <-> in_range lo hi x.
Proof.
  intros Hlo Hhi. unfold validate_range, in_range. rewrite accept_ok, andb_true_iff. simpl. split; [|tauto].
  intros [H1 H2]. split; [|done]. eapply between_finite; [| |exact H1|exact H2]; by apply f32_int_finite.
Qed.

Lemma range_u32_ok lo hi n p : validate_range n (lo, hi)%N p = Ok tt <-> (lo <= n <= hi)%N.
Proof. unfold validate_range. rewrite accept_ok, andb_true_iff. simpl. by rewrite !N.leb_le. Qed.

Lemma conflict_ok n1 b1 n2 b2 why : validate_conflicting_parameters n1 b1 n2 b2 why = Ok tt <-> (b1 = true -> b2 = false).
Proof. unfold validate_conflicting_parameters. rewrite reject_ok. destruct b1, b2; naive_solver. Qed.

Lemma given_none {A} (o : option A) : given o = false <-> o = None.
Proof. destruct o; naive_solver. Qed.

Lemma given_is_some {A} (o : option A) : given o = true <-> is_Some o.
Proof. destruct o; simpl; split; [by eexists|done|done|by intros []]. Qed.

(** Not both are given. *)
Lemma given_or {A B} (o1 : option A) (o2 : option B) : (given o1 = true -> given o2 = false) <-> o1 = None \/ o2 = None.
Proof. destruct o1, o2; simpl; naive_solver. Qed.

Lemma empty_stop_ok i l : empty_stop i l = Ok tt <-> "" ∉ l.
Proof. revert i. induction l as [|s l IH]; intros i; cbn [empty_stop]; [set_solver|]. case_bool_decide; subst; [set_solver|]. rewrite IH. set_solver. Qed.

Lemma contents_ok i ms : validate_contents i ms = Ok tt <-> Forall content_given ms.
Proof.
  revert i. induction ms as [|m ms IH]; intros i; [naive_solver|]. rewrite Forall_cons. cbn [validate_contents].
  destruct m as [|? [[]|[]] ?| | | |]; rewrite ?IH; simpl; naive_solver.
Qed.

Create Rewrite HintDb checks.
#[export] Hint Rewrite check_then_ok @when_some_ok @conflict_ok range_u32_ok empty_stop_ok contents_ok : checks.

Lemma sampling_checked r : validate_sampling_options r = Ok tt /\ validate_vllm_extensions r = Ok tt /\ validate_completion_count r = Ok tt <-> sampling_ok r.
Proof.
  unfold validate_sampling_options, validate_vllm_extensions, validate_completion_count. autorewrite with checks. simpl.
  assert (forall (p : f32), (if SFleb p TOP_P_RANGE.1 then Err (OutOfRange "top_p" (ShowF32 p) (ShowF32 TOP_P_RANGE.1) (ShowF32 TOP_P_RANGE.2))
    else validate_range p TOP_P_RANGE "top_p") = Ok tt <-> in_range 0 1 p /\ SFleb p (f32_int 0) = false) as Hp.
  { intros p. change (TOP_P_RANGE.1) with (f32_int 0). destruct (SFleb p (f32_int 0)); [naive_solver|]. unfold TOP_P_RANGE. rewrite range_ok by done. tauto. }
  assert (forall k, validate_top_k k = Ok tt <-> (k = -1 \/ 0 < k)%Z) as Hk.
  { intros k. unfold validate_top_k, TOP_K_MIN. rewrite accept_ok, orb_true_iff. lia. }
  assert (forall lo hi p x, (Z.abs lo < 4)%Z -> (Z.abs hi < 4)%Z -> validate_range x (f32_int lo, f32_int hi) p = Ok tt <-> in_range lo hi x) as Hr by (intros; by apply range_ok).
  assert (forall n, validate_range n (1, 10)%N "n" = Ok tt <-> (1 <= n <= 10)%N) as Hn by (intros; apply range_u32_ok).
  unfold get_n, chat_count. rewrite (given_and_iff _ _ (chat_top_p r) Hp), (given_and_iff _ _ (chat_top_k r) Hk), (given_and_iff _ _ (chat_n r) Hn).
  rewrite (given_and_iff _ _ (chat_temperature r) (fun x => Hr 0%Z 2%Z "temperature" x ltac:(done) ltac:(done))).
  rewrite (given_and_iff _ _ (chat_frequency_penalty r) (fun x => Hr (-2)%Z 2%Z "frequency_penalty" x ltac:(done) ltac:(done))).
  rewrite (given_and_iff _ _ (chat_presence_penalty r) (fun x => Hr (-2)%Z 2%Z "presence_penalty" x ltac:(done) ltac:(done))).
  rewrite (given_and_iff _ _ (chat_min_p r) (fun x => Hr 0%Z 1%Z "min_p" x ltac:(done) ltac:(done))).
  rewrite (given_and_iff _ _ (chat_repetition_penalty r) (fun x => Hr 0%Z 2%Z "repetition_penalty" x ltac:(done) ltac:(done))).
  split; [intros (? & ? & ?); constructor; tauto|intros []; tauto].
Qed.

Lemma stops_checked r : validate_stop_conditions r = Ok tt <-> given_and (fun s => (length (stop_list s) <= 4)%nat /\ "" ∉ stop_list s) (chat_stop r).
Proof.
  unfold validate_stop_conditions, get_stop_sequences, chat_stops. rewrite when_some_ok. apply given_and_iff. intros [s|l]; cbn [stop_list].
  - rewrite reject_ok, bool_decide_eq_false. simpl. split; [intros Hs; split; [lia|set_solver]|intros [_ Hs]; set_solver].
  - rewrite check_then_ok, empty_stop_ok. unfold validate_max_items, MAX_STOP_SEQUENCES. by rewrite accept_ok, Nat.leb_le.
Qed.

Lemma limits_checked r : validate_token_limits r = Ok tt /\ validate_cross_parameters r = Ok tt <->
  given_and (N.lt 0) (chat_min_tokens r) /\
  given_and (fun n => 0 < n /\ given_and (fun m => m <= n) (chat_min_tokens r))%N
    (match chat_max_completion_tokens r with Some n => Some n | None => chat_max_tokens r end).
Proof.
  unfold validate_token_limits, validate_cross_parameters, validate_positive, get_max_tokens, get_min_tokens, chat_limits. rewrite check_then_ok, !when_some_ok.
  set (most := match chat_max_completion_tokens r with Some n => Some n | None => chat_max_tokens r end).
  destruct most as [n|], (chat_min_tokens r) as [m|]; rewrite ?given_some, ?given_nothing, ?accept_ok, ?reject_ok, ?N.ltb_lt, ?N.ltb_ge; intuition lia.
Qed.

Lemma logprobs_checked r : validate_logprobs r = Ok tt /\ validate_chat_logprobs r = Ok tt <->
  (chat_logprobs r = true <-> is_Some (chat_top_logprobs r)) /\ given_and (fun n => n <= 20)%N (chat_top_logprobs r).
Proof.
  unfold validate_logprobs, validate_chat_logprobs, get_logprobs, get_top_logprobs, chat_logprob. rewrite check_then_ok, !when_some_ok.
  assert (forall n, validate_range n (0, 20)%N "top_logprobs" = Ok tt <-> (n <= 20)%N) as Hn by (intros; rewrite range_u32_ok; lia).
  rewrite (given_and_iff _ _ _ Hn), <- given_is_some.
  destruct (chat_logprobs r), (given (chat_top_logprobs r)); simpl; unfold given_and; naive_solver.
Qed.

Lemma format_json r : has_json_schema r = true -> has_json_format r = true.
Proof. unfold has_json_schema, has_json_format. by destruct (chat_response_format r) as [[]|]. Qed.

Lemma cross_checked r : validate_chat_cross_parameters r = Ok tt <->
  (chat_max_tokens r = None \/ chat_max_completion_tokens r = None) /\ (chat_tools r = None \/ chat_functions r = None) /\
  (chat_regex r = None \/ chat_ebnf r = None) /\ (has_json_format r = true -> chat_regex r = None /\ chat_ebnf r = None).
Proof.
  unfold validate_chat_cross_parameters, validate_mutually_exclusive_options. rewrite !check_then_ok, !conflict_ok, !given_or, reject_ok, !given_none.
  pose proof (format_json r) as Hj. destruct (has_json_schema r), (has_json_format r), (chat_regex r), (chat_ebnf r); cbn; naive_solver.
Qed.

Lemma schema_checked r : validate_response_format r = Ok tt <-> forall s, chat_response_format r = Some (FormatJsonSchema s) -> schema_name s <> "".
Proof.
  unfold validate_response_format. destruct (chat_response_format r) as [[| |s]|]; try naive_solver.
  rewrite reject_ok, bool_decide_eq_false. naive_solver.
Qed.

(** ** Messages *)

Section roundtrip.
Context `{ValueSerdeLaws UserMessageContent, ValueSerdeLaws (list ToolCall), ValueSerdeLaws FunctionCallResponse}.

Lemma get_skip {T} k key (f : T -> JsonValue) o : get k (skip_none key f o) = if decide (key = k) then f <$> o else None.
Proof. destruct o; simpl; rewrite ?get_cons; by case_decide. Qed.

(** What was written is read back. *)
Lemma read_back {T} `{ValueSerdeLaws T} (o : option T) : (x ← to_value <$> o; if is_null x then None else from_value x) = o.
Proof. destruct o as [x|]; simpl; [|done]. by rewrite to_value_not_null, from_to_value. Qed.

Lemma strings_back (o : option string) : (JString <$> o) ≫= as_str = o.
Proof. by destruct o. Qed.

Lemma option_last {A} (o : option A) : match o with Some x => Some x | None => None end = o.
Proof. by destruct o. Qed.
End roundtrip.

(** ** Sorting *)

Lemma insert_by_ext {A} (c1 c2 : A -> A -> comparison) x l : (forall y, y ∈ l -> c1 x y = c2 x y) -> insert_by c1 x l = insert_by c2 x l.
Proof. induction l as [|y l IH]; intros E; [done|]. cbn [insert_by]. rewrite (E y) by set_solver. rewrite IH by set_solver. done. Qed.

Lemma sort_by_ext {A} (c1 c2 : A -> A -> comparison) l : total_order c2 -> (forall x y, x ∈ l -> y ∈ l -> c1 x y = c2 x y) -> sort_by c1 l = sort_by c2 l.
Proof.
  intros H2. induction l as [|x l IH]; intros E; [done|]. cbn [sort_by foldr]. fold (sort_by c1 l). fold (sort_by c2 l).
  rewrite IH by set_solver. apply insert_by_ext. intros y Hy. rewrite (sort_by_perm c2) in Hy. apply E; set_solver.
Qed.

(** Where only equal elements compare equal, the order of the list is of no matter. *)
Lemma sort_by_canonical {A} (cmp : A -> A -> comparison) l l' : total_order cmp ->
  (forall x y, x ∈ l -> y ∈ l -> cmp x y = Eq -> x = y) -> l ≡ₚ l' -> sort_by cmp l = sort_by cmp l'.
Proof.
  intros Ho Hinj HP. apply (StronglySorted_unique_strong (fun x y => cmp x y <> Gt)).
  - intros x y Hx Hy H1 H2. rewrite (sort_by_perm cmp) in Hx, Hy. apply Hinj; [done|by rewrite HP|].
    rewrite (cmp_sym cmp Ho x y) in H2. by destruct (cmp x y).
  - by apply sort_by_sorted.
  - by apply sort_by_sorted.
  - by rewrite !sort_by_perm.
Qed.

(** The place of a number, NaN apart, in three comparisons. *)
Definition float_rank (x : spec_float) : Z * Z * Z :=
  match x with
  | S754_nan | S754_zero _ => (0, 0, 0)
  | S754_infinity s => (if s then -2 else 2, 0, 0)
  | S754_finite s m e => if s then (-1, - e, - Zpos m) else (1, e, Zpos m)
  end%Z.

Definition rank_cmp (x y : spec_float) : comparison :=
  then_with ((float_rank x).1.1 ?= (float_rank y).1.1)%Z
    (then_with ((float_rank x).1.2 ?= (float_rank y).1.2)%Z ((float_rank x).2 ?= (float_rank y).2)%Z).

Lemma rank_total : total_order rank_cmp.
Proof.
  unfold rank_cmp. apply total_then; [exact (total_key (fun x => (float_rank x).1.1) _ Z_total)|].
  apply total_then; [exact (total_key (fun x => (float_rank x).1.2) _ Z_total)|exact (total_key (fun x => (float_rank x).2) _ Z_total)].
Qed.

Lemma compare_rank x y : is_nan x = false -> is_nan y = false -> SFcompare x y = Some (rank_cmp x y).
Proof.
  unfold rank_cmp. destruct x as [s|s| |s m e], y as [s'|s'| |s' m' e']; try done; intros _ _; destruct s; try destruct s'; try done; simpl.
  - rewrite Z.compare_opp. destruct (Z.compare_spec e e'), (Z.compare_spec e' e); try lia; done.
  - by destruct (Z.compare_spec e e').
Qed.

(** ** The derived (de)serializers are inverse *)

Lemma mapM_back {A} (f : JsonValue -> option A) g l : (forall x, f (g x) = Some x) -> mapM f (g <$> l) = Some l.
Proof. intros E. apply mapM_fmap_Some. auto. Qed.

#[export] Instance content_laws : ValueSerdeLaws UserMessageContent.
Proof.
  split; [|by intros []]. intros [t|ps]; [done|]. change (ContentParts <$> mapM part_from_value (part_to_value <$> ps) = Some (ContentParts ps)).
  rewrite mapM_back; [done|]. by intros [t|[url [d|]]].
Qed.

#[export] Instance call_laws : ValueSerdeLaws FunctionCallResponse.
Proof. split; [|by intros []]. by intros [name [a|]]. Qed.

#[export] Instance tool_calls_laws : ValueSerdeLaws (list ToolCall).
Proof. split; [|done]. intros l. apply (mapM_back tool_call_from_value). by intros [id type [name [a|]]]. Qed.

(** ** Properties *)

Lemma pushed_length {A} (f : A -> StructuredOutput) o : length (pushed f o) = if given o then 1%nat else 0%nat.
Proof. by destruct o. Qed.

(** The constraints outside [structured_outputs] are checked, those inside are not. *)
Lemma conversion_refuses print r : chat_ok r -> (exists e, structured_output print r = Err e) <->
  exists p, chat_structured_outputs r = Some p /\ (1 < active_constraints p \/ active_constraints p = 1 /\ constrained r)%nat.
Proof.
  intros [_ _ _ _ _ _ _ _ [Hre Hj]]. unfold structured_output.
  set (outer := match chat_response_format r with Some FormatJsonObject => _ | Some (FormatJsonSchema s) => _ | _ => _ end).
  set (inner := match chat_structured_outputs r with Some params => _ | None => _ end).
  assert (length (pushed OutRegex (chat_regex r) ++ pushed OutGrammar (chat_ebnf r) ++ outer) <= 1 /\
    (1 <= length (pushed OutRegex (chat_regex r) ++ pushed OutGrammar (chat_ebnf r) ++ outer) <-> constrained r))%nat as [Hle Hc].
  { unfold constrained, has_json_format in *. subst outer. rewrite !length_app, !pushed_length.
    destruct (chat_regex r), (chat_ebnf r), (chat_response_format r) as [[| |]|]; simpl in *;
      try (destruct Hre; discriminate); try (destruct (Hj eq_refl); discriminate);
      (split; [lia|]); (split; [intros; eauto using mk_is_Some || lia|try lia; by intros [[? ?]|[[? ?]|?]]]). }
  assert (length inner = from_option active_constraints 0 (chat_structured_outputs r))%nat as Hi.
  { subst inner. destruct (chat_structured_outputs r) as [p|]; [|done]. unfold active_constraints. simpl from_option.
    rewrite !length_app, !pushed_length.
    destruct (so_json p), (so_regex p), (so_choice p), (so_grammar p), (bool_decide _), (so_structural_tag p); done. }
  rewrite !(assoc_L (++)%list) in *. set (l := (_ ++ outer)%list) in *. clearbody l inner. clear outer.
  assert ((exists e, match (l ++ inner)%list with [] => Ok None | [o] => Ok (Some o)
    | _ => Err "only one structured output constraint may be specified" end = Err e) <-> 1 < length l + length inner)%nat as ->.
  { rewrite <- length_app. destruct (l ++ inner)%list as [|o [|o' l']]; simpl; split; intros H; try lia; try (destruct H; discriminate); by eexists. }
  rewrite Hi. destruct (chat_structured_outputs r) as [p|]; simpl; split.
  - intros Hlt. exists p. split; [done|]. destruct (decide (1 < active_constraints p)%nat); [by left|right]. rewrite <- Hc. lia.
  - intros (p' & [= <-] & [?|[? ?%Hc]]); lia.
  - lia.
  - by intros (p & ? & _).
Qed.


Section message_theorem.
Context `{ValueSerdeLaws UserMessageContent, ValueSerdeLaws (list ToolCall), ValueSerdeLaws FunctionCallResponse}.

(** The keys of an object that is written out are looked up by computation. *)
Ltac fields := lazy -[to_value from_value is_null]; rewrite ?to_value_not_null, ?from_to_value; reflexivity.
Lemma assistant_back c n t f r : let m := Assistant "assistant" c n t f r in message_from_value (message_to_value m) = Ok m.
Proof. intros m. subst m. destruct c, n, t, f, r; fields. Qed.

Lemma content_back c n : message_from_value (message_to_value (System "system" c n)) = Ok (System "system" c n) /\
  message_from_value (message_to_value (User "user" c n)) = Ok (User "user" c n).
Proof. split; destruct n; fields. Qed.

Lemma tool_back v i : message_from_value (message_to_value (ToolMessage "tool" v i)) = Ok (ToolMessage "tool" v i).
Proof. fields. Qed.

Lemma function_back c n : message_from_value (message_to_value (FunctionMessage "function" c n)) = Ok (FunctionMessage "function" c n).
Proof. fields. Qed.
(** C29: a chat message that was read and is written for the worker reads the same
    there: no role, content, name, call or reasoning changes on the way.  A message
    of an unknown role is passed on as it is. *)
Theorem message_roundtrip v m : message_from_value v = Ok m -> message_from_value (message_to_value m) = Ok m.
Proof.
  intros E. pose proof E as E0. revert E0. unfold message_from_value at 1.
  destruct (value_get "role" v) as [r|]; [|done]. destruct (as_str r) as [role|]; [|done].
  repeat case_decide; subst; intros [= <-]; [apply assistant_back|apply content_back|apply content_back|apply tool_back|apply function_back|exact E].
Qed.
End message_theorem.

(** A part that the router does not know erases the whole content: the text beside
    a video is not sent to the worker. *)
Example unknown_part_erased :
  let part kind key v := JObject [("type", JString kind); (key, v)] in
  let user content := JObject [("role", JString "user"); ("content", content)] in
  message_from_value (user (JArray [part "text" "text" (JString "Describe it."); part "video_url" "video_url" (JObject [("url", JString "http://v")])]))
    = Ok (User "user" (ContentText "") None) /\
  message_to_value (User "user" (ContentText "") None) = user (JString "").
Proof. by split. Qed.

Lemma message_roundtrip_witness :
  let v := JObject [("role", JString "assistant"); ("content", JNull); ("reasoning_content", JString "why");
    ("tool_calls", JArray [JObject [("id", JString "c"); ("type", JString "function"); ("function", JObject [("name", JString "f"); ("arguments", JString "{}")])]])] in
  let m := Assistant "assistant" None None (Some [MkToolCall "c" "function" (MkCall "f" (Some "{}"))]) None (Some "why") in
  message_from_value v = Ok m /\ message_from_value (message_to_value m) = Ok m.
Proof. intros v m. assert (message_from_value v = Ok m) as E by reflexivity. split; [exact E|exact (message_roundtrip v m E)]. Defined.

(** ** Reranking *)

Definition by_rank (a b : RerankResult) : comparison := rank_cmp (score b) (score a).

Lemma by_rank_total : total_order by_rank.
Proof. exact (total_flip _ (total_key score _ rank_total)). Qed.

Abbreviation scored := (fun x : RerankResult => is_nan (score x) = false).

Lemma by_score_rank x y : scored x -> scored y -> by_score x y = by_rank x y.
Proof. intros Hx Hy. unfold by_score. by rewrite compare_rank. Qed.

Lemma sort_score rs : Forall scored rs -> sort_by by_score rs = sort_by by_rank rs.
Proof. rewrite Forall_forall. intros H. apply sort_by_ext; [apply by_rank_total|]. intros x y Hx Hy. apply by_score_rank; auto. Qed.

Lemma sorted_impl {A} (P : A -> Prop) (R R' : A -> A -> Prop) l : (forall x y, P x -> P y -> R x y -> R' x y) ->
  Forall P l -> StronglySorted R l -> StronglySorted R' l.
Proof.
  intros HR. induction l as [|x l IH]; intros HP Hs; [constructor|]. apply Forall_cons in HP as [Hx HP]. apply StronglySorted_inv in Hs as [Hs HF].
  constructor; [auto|]. rewrite Forall_forall in HF, HP |- *. auto.
Qed.

Lemma sort_by_equal {A} (cmp : A -> A -> comparison) l : (forall x y, x ∈ l -> y ∈ l -> cmp x y <> Gt) -> sort_by cmp l = l.
Proof.
  induction l as [|x l IH]; intros H; [done|]. cbn [sort_by foldr]. fold (sort_by cmp l). rewrite IH by set_solver.
  destruct l as [|y l]; [done|]. cbn [insert_by]. specialize (H x y ltac:(set_solver) ltac:(set_solver)). by destruct (cmp x y).
Qed.

Lemma rank_le x y : scored x -> scored y -> by_rank x y <> Gt -> SFleb (score y) (score x) = true.
Proof. intros Hx Hy. unfold by_rank, SFleb. rewrite compare_rank by done. by destruct (rank_cmp _ _). Qed.

Lemma rank_equal x s : scored x -> is_nan s = false -> SFeqb (score x) s = true -> rank_cmp (score x) s = Eq.
Proof. intros Hx Hs. unfold SFeqb. rewrite compare_rank by done. by destruct (rank_cmp _ _). Qed.

(** Reranking returns the best documents.  The results are the worker's, ordered
    by score from the highest, those of the same score in the worker's order, and
    cut to [top_k]: none that is left out has a higher score than one that is kept.
    Documents are removed exactly when the request does not want them. *)
Theorem rerank_best now req rs : Forall (fun x => is_nan (score x) = false) rs ->
  exists kept dropped, (kept ++ dropped)%list ≡ₚ rs /\ length kept = Nat.min (default (length rs) (rr_top_k req)) (length rs) /\
    results (build_rerank_response now req rs) = (if rr_return_documents req then kept else without_document <$> kept) /\
    StronglySorted (fun x y => SFleb (score y) (score x) = true) (kept ++ dropped)%list /\
    (forall s, is_nan s = false -> filter (fun x => SFeqb (score x) s = true) (kept ++ dropped)%list = filter (fun x => SFeqb (score x) s = true) rs).
Proof.
  intros Hs. set (sorted := sort_by by_rank rs). set (k := default (length rs) (rr_top_k req)).
  assert (Hp : sorted ≡ₚ rs) by (apply sort_by_perm). assert (Forall scored sorted) as Hss by (by rewrite Hp).
  exists (take k sorted), (drop k sorted). rewrite take_drop. split_and!; [done| | | |].
  - by rewrite length_take, (Permutation_length Hp).
  - unfold build_rerank_response, sort_by_score, new_rerank_response. simpl. rewrite sort_score by done. fold sorted.
    assert (take k sorted = match rr_top_k req with Some k => take k sorted | None => sorted end) as ->.
    { subst k. destruct (rr_top_k req); [done|]. simpl. apply take_ge. by rewrite (Permutation_length Hp). }
    by destruct (rr_top_k req), (rr_return_documents req).
  - apply (sorted_impl scored (fun x y => by_rank x y <> Gt)); [|done|by apply sort_by_sorted, by_rank_total]. apply rank_le.
  - intros s Hn. subst sorted. rewrite <- sort_by_filter by apply by_rank_total. apply sort_by_equal. rewrite Forall_forall in Hs.
    intros x y [Ex Hx]%list_elem_of_filter [Ey Hy]%list_elem_of_filter. unfold by_rank.
    apply rank_equal in Ex; [|auto|done]. apply rank_equal in Ey; [|auto|done].
    rewrite (cmp_eq_l _ rank_total _ _ _ Ey), (cmp_sym _ rank_total (score x) s), Ex. done.
Qed.

Lemma rerank_best_witness :
  let x i s := MkRerankResult (f32_lit s 10) (Some "d") i None in let rs := [x 0%nat 2%N; x 1%nat 9%N; x 2%nat 5%N] in
  let req := MkRerank "q" ["a"; "b"; "c"] "m" (Some 2%nat) false None None in
  (index <$> results (build_rerank_response 0 req rs)) = [1; 2]%nat /\
  exists kept dropped, (kept ++ dropped)%list ≡ₚ rs /\ results (build_rerank_response 0 req rs) = without_document <$> kept.
Proof.
  intros x rs req. split; [reflexivity|].
  destruct (rerank_best 0 req rs ltac:(by repeat constructor)) as (kept & dropped & Hp & _ & Hr & _). by exists kept, dropped.
Defined.

(** ** Texts and payloads *)

(** The text by which a program is placed does not depend on the order in which a
    client lists its tools. *)
Theorem tools_any_order `{SerdeJson} r r' ts ts' : chat_messages r' = chat_messages r -> chat_functions r' = chat_functions r ->
  chat_session_params r' = chat_session_params r -> chat_tools r = Some ts -> chat_tools r' = Some ts' -> ts ≡ₚ ts' ->
  NoDup (function_name <$> (tool_function <$> ts)) -> chat_scheduling_text r' = chat_scheduling_text r.
Proof.
  intros Hm Hf Hs Ht Ht' HP Hd. unfold chat_scheduling_text, chat_routing_text. rewrite Hm, Hf, Hs, Ht, Ht'. cbn [default from_option].
  rewrite (sort_by_canonical by_name (tool_function <$> ts) (tool_function <$> ts')); [done|exact (total_key function_name _ string_total)| |by rewrite HP].
  intros f g Hf' Hg' E. apply String.compare_eq_iff in E.
  apply list_elem_of_lookup in Hf' as [i Hi], Hg' as [j Hj].
  assert (i = j) as <-; [|congruence]. apply (NoDup_lookup _ i j (function_name f) Hd); rewrite list_lookup_fmap; [by rewrite Hi|]. rewrite Hj, E. done.
Qed.

Definition identity_fields : list string := ["vllm_xargs"; "agent_hint"; "session_params"; "session_id"; "user_id"].

Lemma payload_fields other fs p k : get k (foldl (fun p field => match get field other with Some v => map_insert field v p | None => p end) p fs) =
  if decide (k ∈ fs) then match get k other with Some v => Some v | None => get k p end else get k p.
Proof.
  revert p. induction fs as [|f fs IH]; intros p; cbn [foldl]; [by case_decide; set_solver|].
  rewrite IH. destruct (decide (k = f)) as [->|Hk].
  - rewrite (decide_True (P := f ∈ f :: fs)) by set_solver. destruct (get f other) as [v|] eqn:E; [|by case_decide].
    rewrite get_insert, (decide_True (P := f = f)) by done. by case_decide.
  - assert (get k (match get f other with Some v => map_insert f v p | None => p end) = get k p) as ->.
    { destruct (get f other); [|done]. rewrite get_insert, decide_False; [done|congruence]. }
    destruct (decide (k ∈ fs)); [rewrite decide_True by set_solver|rewrite decide_False by set_solver]; done.
Qed.

(** The part of a body from which a program is identified has the fields of the
    body that name programs, and no other but the user. *)
Theorem payload_exact other user k : (program_identity_payload other user ≫= value_get k) =
  if decide (k ∈ identity_fields) then get k other else if decide (k = "user") then JString <$> user else None.
Proof.
  unfold program_identity_payload. set (p := foldl _ _ _). pose proof (payload_fields other identity_fields [] k) as Hp. fold identity_fields in p. fold p in Hp.
  assert (forall q : JsonMap, (if bool_decide (q = []) then None else Some (JObject q)) ≫= value_get k = get k q) as Hq.
  { intros q. by case_bool_decide; subst. }
  rewrite Hq. destruct user as [u|]; rewrite ?get_insert, Hp.
  all: destruct (decide (k ∈ identity_fields)) as [Hk|Hk]; [|by repeat case_decide; subst].
  2: by destruct (get k other).
  rewrite decide_False by (intros <-; revert Hk; clear; unfold identity_fields; set_solver). by destruct (get k other).
Qed.
