(* ===== verification/LogprobsMerge.v ===== *)
(** * Merging log probabilities ([src/routers/http/logprobs_merge.rs])

    With disaggregated prefill the prompt's log probabilities come from the prefill
    worker and the output's from the decode worker.  The merge puts them into the
    decode response.  Offsets count bytes, as [len] of a string does.  [i64] additions wrap, as they do in a release build; log lines
    are left out. *)

From S2P Require Import Prelude Ieee KvTypes TextDecode HashKey Json.
From stdpp Require Import strings.

Local Open Scope string_scope.

(** Did anything change, and the response. *)
Definition merged (A : Type) : Type := bool * A.

(** [a + b] for [i64] *)
Definition i64_add (a b : Z) : Z := ((a + b + 2 ^ 63) mod 2 ^ 64 - 2 ^ 63)%Z.

Definition array_at (key : string) (m : JsonMap) : option (list JsonValue) := get key m ≫= as_array.

(** The prompt's part of an array and all of the decode worker's. *)
Definition merge_array (n : nat) (key : string) (prefill : JsonMap) (r : merged JsonMap) : merged JsonMap :=
  match array_at key prefill, array_at key r.2 with
  | Some p, Some d => (true, map_insert key (JArray (take n p ++ d)) r.2)
  | _, _ => r
  end.

(** Where the text of the decode worker starts, after the prompt's offsets [l]. *)
Definition base_offset (n : nat) (prefill : JsonMap) (l : list JsonValue) : Z :=
  let last_prefill_offset := default 0%Z (last l ≫= as_i64) in
  match array_at "tokens" prefill with
  | Some tokens =>
      if (0 <? n)%nat && (n <=? length tokens)%nat then
        i64_add last_prefill_offset (from_option (fun s => Z.of_nat (String.length s)) 0%Z (tokens !! (n - 1)%nat ≫= as_str))
      else last_prefill_offset
  | None => last_prefill_offset
  end.

Definition merge_offsets (n : nat) (prefill : JsonMap) (r : merged JsonMap) : merged JsonMap :=
  match array_at "text_offset" prefill, array_at "text_offset" r.2 with
  | Some p, Some d =>
      let l := take n p in
      let d := if bool_decide (l = []) then d else omap (fun v => (fun o => of_i64 (i64_add o (base_offset n prefill l))) <$> as_i64 v) d in
      (true, map_insert "text_offset" (JArray (l ++ d)) r.2)
  | _, _ => r
  end.

(** The [logprobs] object of a choice. *)
Definition merge_logprobs (n : nat) (prefill decode : JsonMap) : merged JsonMap :=
  let r := merge_array n "token_logprobs" prefill (false, decode) in
  let r := merge_array n "tokens" prefill r in
  let r := merge_offsets n prefill r in
  merge_array n "top_logprobs" prefill r.

Definition num_prompt_tokens (prefill : JsonMap) : nat := from_option length 0%nat (array_at "prompt_logprobs" prefill).

Definition insert_prompt (prefill decode : JsonMap) : merged JsonMap :=
  match get "prompt_logprobs" prefill with Some v => (true, map_insert "prompt_logprobs" v decode) | None => (false, decode) end.

Definition merge_choice (prefill decode : JsonMap) : merged JsonMap :=
  let r := insert_prompt prefill decode in
  match get "logprobs" prefill ≫= as_object, get "logprobs" r.2 ≫= as_object with
  | Some p, Some d =>
      let l := merge_logprobs (num_prompt_tokens prefill) p d in
      (r.1 || l.1, map_insert "logprobs" (JObject l.2) r.2)
  | _, _ => r
  end.

(** The choices of both responses, side by side. *)
Fixpoint merge_choices (prefill decode : list JsonValue) : merged (list JsonValue) :=
  match prefill, decode with
  | p :: prefill, d :: decode =>
      let rest := merge_choices prefill decode in
      match p, d with
      | JObject p, JObject d => let c := merge_choice p d in (c.1 || rest.1, JObject c.2 :: rest.2)
      | _, _ => (rest.1, d :: rest.2)
      end
  | _, _ => (false, decode)
  end.

Definition merge_meta_info (prefill decode : JsonValue) : merged JsonValue :=
  match value_get "meta_info" prefill, decode with
  | Some pm, JObject d =>
      match get "meta_info" d with
      | Some (JObject dm) =>
          match value_get "input_token_logprobs" pm ≫= as_array, array_at "input_token_logprobs" dm with
          | Some p, Some l => (true, JObject (map_insert "meta_info" (JObject (map_insert "input_token_logprobs" (JArray (p ++ l)) dm)) d))
          | _, _ => (false, decode)
          end
      | _ => (false, decode)
      end
  | _, _ => (false, decode)
  end.

Definition merge_prompt (prefill : JsonValue) (r : merged JsonValue) : merged JsonValue :=
  match value_get "prompt_logprobs" prefill, r.2 with
  | Some v, JObject d => (true, JObject (map_insert "prompt_logprobs" v d))
  | _, _ => r
  end.

Definition merge_all_choices (prefill : JsonValue) (r : merged JsonValue) : merged JsonValue :=
  match r.2 with
  | JObject d =>
      match array_at "choices" d, value_get "choices" prefill ≫= as_array with
      | Some dc, Some pc => let c := merge_choices pc dc in (r.1 || c.1, JObject (map_insert "choices" (JArray c.2) d))
      | _, _ => r
      end
  | _ => r
  end.

(** [merge_logprobs_in_json] *)
Definition merge_logprobs_in_json (prefill decode : JsonValue) : merged JsonValue :=
  merge_all_choices prefill (merge_prompt prefill (merge_meta_info prefill decode)).

(** ** What offsets are *)

(** Every token's place in the text that starts at [start]. *)
Fixpoint offsets (start : Z) (tokens : list string) : list JsonValue :=
  match tokens with
  | [] => []
  | t :: tokens => of_i64 start :: offsets (start + Z.of_nat (String.length t)) tokens
  end.

(** The bytes of some tokens. *)
Definition text_length (tokens : list string) : Z := foldr (fun t n => Z.of_nat (String.length t) + n)%Z 0%Z tokens.

(** The [logprobs] and the object of a choice of a response. *)
Definition choice_at (i : nat) (v : JsonValue) : option JsonMap :=
  (value_get "choices" v ≫= as_array) ≫= (fun l => l !! i ≫= as_object).

Definition logprobs_at (i : nat) (v : JsonValue) : option JsonMap := choice_at i v ≫= (fun c => get "logprobs" c ≫= as_object).

(** [m] has these tokens and their offsets. *)
Definition token_texts (m : JsonMap) (tokens : list string) : Prop :=
  array_at "tokens" m = Some (JString <$> tokens) /\ array_at "text_offset" m = Some (offsets 0 tokens).

(** ** Lemmas *)

Lemma array_insert k key v m : array_at k (map_insert key v m) = if decide (key = k) then as_array v else array_at k m.
Proof. unfold array_at. rewrite get_insert. by case_decide. Qed.

(** Writing what is there changes nothing. *)
Lemma insert_same key v m : get key m = Some v -> map_insert key v m = m.
Proof.
  induction m as [|[k x] m IH]; [done|]. rewrite get_cons. cbn [map_insert]. case_decide; [by intros [= ->]|]. intros E. by rewrite IH.
Qed.

Lemma as_array_some v l : as_array v = Some l -> v = JArray l.
Proof. destruct v; simpl; congruence. Qed.

Lemma as_object_some v m : as_object v = Some m -> v = JObject m.
Proof. destruct v; simpl; congruence. Qed.

(** Nothing merged, nothing changed. *)
Definition quiet {A} (r : merged A) (original : A) : Prop := r.1 = false -> r.2 = original.

Lemma quiet_array n key p r d : quiet r d -> quiet (merge_array n key p r) d.
Proof. unfold merge_array, quiet. destruct (array_at key p), (array_at key r.2); simpl; done. Qed.

Lemma quiet_offsets n p r d : quiet r d -> quiet (merge_offsets n p r) d.
Proof. unfold merge_offsets, quiet. destruct (array_at "text_offset" p), (array_at "text_offset" r.2); simpl; done. Qed.

Lemma quiet_logprobs n p d : quiet (merge_logprobs n p d) d.
Proof. unfold merge_logprobs. apply quiet_array, quiet_offsets, quiet_array, quiet_array. by unfold quiet. Qed.

Lemma quiet_choice p d : quiet (merge_choice p d) d.
Proof.
  unfold merge_choice, insert_prompt. destruct (get "prompt_logprobs" p) as [v|]; cbn [snd fst].
  - destruct (get "logprobs" p ≫= as_object), (get "logprobs" (map_insert "prompt_logprobs" v d) ≫= as_object); by unfold quiet.
  - destruct (get "logprobs" p ≫= as_object) as [pl|]; [|by unfold quiet].
    destruct (get "logprobs" d) as [l|] eqn:El; [|by unfold quiet]. cbn [mbind option_bind]. destruct (as_object l) as [dl|] eqn:Eo; [|by unfold quiet].
    unfold quiet. cbn [fst snd orb]. intros Hq. rewrite (quiet_logprobs _ _ _ Hq). apply insert_same. by rewrite El, (as_object_some l dl).
Qed.

Lemma quiet_choices pc dc : quiet (merge_choices pc dc) dc.
Proof.
  revert dc. induction pc as [|p pc IH]; intros [|d dc]; [by unfold quiet..|]. cbn [merge_choices]. specialize (IH dc). unfold quiet in *.
  destruct p; simpl; try (intros Hq; by rewrite IH). destruct d; simpl; try (intros Hq; by rewrite IH).
  intros [Hc Hr]%orb_false_iff. rewrite IH by done. by rewrite (quiet_choice _ _ Hc).
Qed.

(** A merge that reports nothing leaves the decode response as it is. *)
Theorem unmerged_unchanged prefill decode : (merge_logprobs_in_json prefill decode).1 = false -> (merge_logprobs_in_json prefill decode).2 = decode.
Proof.
  assert (quiet (merge_meta_info prefill decode) decode) as H1.
  { unfold merge_meta_info, quiet. repeat case_match; done. }
  assert (quiet (merge_prompt prefill (merge_meta_info prefill decode)) decode) as H2.
  { unfold merge_prompt. destruct (value_get "prompt_logprobs" prefill); [|done]. by destruct (merge_meta_info prefill decode).2. }
  unfold merge_logprobs_in_json, merge_all_choices. set (r := merge_prompt _ _) in *. destruct (r.2) as [| | | | |d] eqn:Er; try (intros Hq; rewrite <- (H2 Hq); congruence).
  destruct (array_at "choices" d) as [dc|] eqn:Ed; [|intros Hq; rewrite <- (H2 Hq); congruence].
  destruct (value_get "choices" prefill ≫= as_array) as [pc|]; [|intros Hq; rewrite <- (H2 Hq); congruence].
  cbn [fst snd]. intros [Hr Hc]%orb_false_iff. rewrite (quiet_choices _ _ Hc), insert_same; [by rewrite <- (H2 Hr)|].
  unfold array_at in Ed. destruct (get "choices" d) as [v|]; [|done]. by apply as_array_some in Ed as ->.
Qed.

(** ** Offsets *)

Lemma text_length_app l1 l2 : text_length (l1 ++ l2) = (text_length l1 + text_length l2)%Z.
Proof. induction l1 as [|t l1 IH]; [done|]. simpl. rewrite IH. lia. Qed.

Lemma text_length_nonneg l : (0 <= text_length l)%Z.
Proof. induction l; simpl; lia. Qed.

Lemma offsets_app s l1 l2 : offsets s (l1 ++ l2) = (offsets s l1 ++ offsets (s + text_length l1) l2)%list.
Proof.
  revert s. induction l1 as [|t l1 IH]; intros s; simpl; [by rewrite Z.add_0_r|]. rewrite IH. do 3 f_equal. lia.
Qed.

Lemma offsets_take n s l : take n (offsets s l) = offsets s (take n l).
Proof. revert s l. induction n as [|n IH]; intros s [|t l]; simpl; [done..|]. by rewrite IH. Qed.

Lemma as_of_i64 z : (0 <= z < 2 ^ 63)%Z -> as_i64 (of_i64 z) = Some z.
Proof.
  intros Hz. unfold of_i64. destruct (Z.ltb_spec z 0); [lia|]. simpl. destruct (N.ltb_spec (Z.to_N z) (2 ^ 63)); [f_equal; lia|lia].
Qed.

Lemma i64_small a b : (0 <= a)%Z -> (0 <= b)%Z -> (a + b < 2 ^ 63)%Z -> i64_add a b = (a + b)%Z.
Proof. intros. unfold i64_add. rewrite Z.mod_small by lia. lia. Qed.

(** The decode worker's offsets, moved behind the prompt. *)
Lemma offsets_moved base s l : (0 <= base)%Z -> (0 <= s)%Z -> (base + s + text_length l < 2 ^ 63)%Z ->
  omap (fun v => (fun o => of_i64 (i64_add o base)) <$> as_i64 v) (offsets s l) = offsets (base + s) l.
Proof.
  revert s. induction l as [|t l IH]; intros s Hb Hs Hl; [done|]. cbn [offsets omap list_omap text_length foldr] in *.
  fold (text_length l) in Hl. pose proof (text_length_nonneg l). rewrite as_of_i64 by lia. cbn [fmap option_fmap option_map].
  rewrite i64_small by lia. f_equal; [f_equal; lia|]. rewrite IH by lia. f_equal. lia.
Qed.

Lemma base_exact n prefill tokens : array_at "tokens" prefill = Some (JString <$> tokens) -> (n <= length tokens)%nat ->
  take n tokens <> [] -> (text_length (take n tokens) < 2 ^ 63)%Z ->
  base_offset n prefill (offsets 0 (take n tokens)) = text_length (take n tokens).
Proof.
  intros Ht Hn Hne Hlen. destruct n as [|n]; [done|]. destruct (lookup_lt_is_Some_2 tokens n ltac:(lia)) as [t Hl].
  rewrite (take_S_r tokens n t Hl) in *. rewrite text_length_app in Hlen |- *. change (text_length [t]) with (Z.of_nat (String.length t) + 0)%Z in *. pose proof (text_length_nonneg (take n tokens)).
  unfold base_offset. rewrite offsets_app, last_app, Ht. cbn [offsets last mbind option_bind]. rewrite as_of_i64 by lia. cbn [default from_option].
  rewrite length_fmap. destruct (Nat.leb_spec (S n) (length tokens)); [|lia]. cbn [Nat.ltb Nat.leb andb].
  replace (S n - 1)%nat with n by lia. rewrite list_lookup_fmap, Hl. cbn [fmap option_fmap option_map mbind option_bind as_str from_option id]. rewrite i64_small by lia. lia.
Qed.

Section arrays.
Context (n : nat) (p : JsonMap).

Lemma merge_array_other key k r : key <> k -> array_at k (merge_array n key p r).2 = array_at k r.2.
Proof. intros Hk. unfold merge_array. destruct (array_at key p), (array_at key r.2); try done. cbn [snd]. by rewrite array_insert, decide_False. Qed.

Lemma merge_array_at key r l d : array_at key p = Some l -> array_at key r.2 = Some d -> array_at key (merge_array n key p r).2 = Some (take n l ++ d)%list.
Proof. intros Hl Hd. unfold merge_array. rewrite Hl, Hd. cbn [snd]. by rewrite array_insert, decide_True. Qed.

Lemma merge_offsets_other k r : "text_offset" <> k -> array_at k (merge_offsets n p r).2 = array_at k r.2.
Proof. intros Hk. unfold merge_offsets. destruct (array_at "text_offset" p), (array_at "text_offset" r.2); try done. cbn [snd]. by rewrite array_insert, decide_False. Qed.

Lemma merge_texts d pt dt : (n <= length pt)%nat -> (text_length (take n pt ++ dt) < 2 ^ 63)%Z -> token_texts p pt -> token_texts d dt ->
  token_texts (merge_logprobs n p d).2 (take n pt ++ dt).
Proof.
  intros Hn Hlen [Hpt Hpo] [Hdt Hdo]. rewrite text_length_app in Hlen. pose proof (text_length_nonneg (take n pt)). pose proof (text_length_nonneg dt).
  unfold merge_logprobs, token_texts. set (r1 := merge_array n "token_logprobs" p (false, d)). set (r2 := merge_array n "tokens" p r1). set (r3 := merge_offsets n p r2).
  assert (forall k, k <> "token_logprobs" -> array_at k r1.2 = array_at k d) as H1 by (intros k Hk; by apply merge_array_other).
  rewrite !merge_array_other by done. split.
  - subst r3. rewrite merge_offsets_other by done. subst r2. rewrite (merge_array_at "tokens" r1 (JString <$> pt) (JString <$> dt)); [|done|by rewrite H1].
    by rewrite fmap_app, fmap_take.
  - subst r3. unfold merge_offsets. rewrite Hpo. assert (array_at "text_offset" r2.2 = Some (offsets 0 dt)) as ->.
    { subst r2. rewrite merge_array_other by done. by rewrite H1. }
    cbn [snd]. rewrite array_insert, decide_True by done. cbn [as_array]. f_equal. rewrite offsets_take, offsets_app, Z.add_0_l. f_equal.
    case_bool_decide as He; [by destruct (take n pt)|].
    rewrite base_exact; [|done|done|by intros Hz; rewrite Hz in He|lia]. rewrite offsets_moved by lia. f_equal. lia.
Qed.
End arrays.

Lemma choices_lookup pcs dcs i p d : pcs !! i = Some (JObject p) -> dcs !! i = Some (JObject d) ->
  (merge_choices pcs dcs).2 !! i = Some (JObject (merge_choice p d).2).
Proof.
  revert dcs i. induction pcs as [|x pcs IH]; intros [|y dcs] [|i]; try done.
  - by intros [= ->] [= ->].
  - intros Hp Hd. cbn [merge_choices]. destruct x; try exact (IH dcs i Hp Hd). destruct y; exact (IH dcs i Hp Hd).
Qed.

Lemma value_get_insert k key v m : value_get k (JObject (map_insert key v m)) = if decide (key = k) then Some v else value_get k (JObject m).
Proof. exact (get_insert k key v m). Qed.

(** The first two steps leave the choices. *)
Lemma choices_kept prefill decode : value_get "choices" (merge_prompt prefill (merge_meta_info prefill decode)).2 = value_get "choices" decode.
Proof.
  assert (value_get "choices" (merge_meta_info prefill decode).2 = value_get "choices" decode) as <-.
  { unfold merge_meta_info. repeat case_match; try done. cbn [snd]. by rewrite value_get_insert, decide_False. }
  generalize (merge_meta_info prefill decode). intros [b []]; unfold merge_prompt; destruct (value_get "prompt_logprobs" prefill); try done.
  cbn [snd]. by rewrite value_get_insert, decide_False.
Qed.

Lemma choice_merged prefill decode i p d : choice_at i prefill = Some p -> choice_at i decode = Some d ->
  choice_at i (merge_logprobs_in_json prefill decode).2 = Some (merge_choice p d).2.
Proof.
  unfold choice_at, merge_logprobs_in_json, merge_all_choices. rewrite <- (choices_kept prefill decode).
  set (r := merge_prompt _ _). destruct (value_get "choices" prefill ≫= as_array) as [pcs|]; [|done].
  destruct (r.2) as [| | | | |m]; try done. unfold array_at. cbn [value_get as_object mbind option_bind].
  destruct (get "choices" m ≫= as_array) as [dcs|] eqn:Ed; cbn [mbind option_bind]; [|done].
  destruct (pcs !! i) as [pv|] eqn:Hp; [|done]. destruct (dcs !! i) as [dv|] eqn:Hd; [|done]. intros Hpo Hdo.
  apply as_object_some in Hpo as ->. apply as_object_some in Hdo as ->. cbn [snd]. rewrite value_get_insert, decide_True by done.
  cbn [as_array mbind option_bind]. by rewrite (choices_lookup _ _ _ _ _ Hp Hd).
Qed.

(** C33: the merged choice is that of one worker.  Where both responses have tokens
    with their places in the text, the merged tokens are those of the prompt, as
    many as the prefill worker counts, and behind them all of the decode worker's,
    and every offset is the place of its token in the joined text.  The log
    probabilities of the prompt are the prefill worker's. *)
Theorem merged_texts prefill decode i p d pl dl pt dt : choice_at i prefill = Some p -> choice_at i decode = Some d ->
  get "logprobs" p ≫= as_object = Some pl -> get "logprobs" d ≫= as_object = Some dl -> token_texts pl pt -> token_texts dl dt ->
  let n := num_prompt_tokens p in (n <= length pt)%nat -> (text_length (take n pt ++ dt) < 2 ^ 63)%Z ->
  exists c m, choice_at i (merge_logprobs_in_json prefill decode).2 = Some c /\ get "logprobs" c = Some (JObject m) /\
    token_texts m (take n pt ++ dt) /\ (forall v, get "prompt_logprobs" p = Some v -> get "prompt_logprobs" c = Some v).
Proof.
  intros Hp Hd Hpl Hdl Tp Td n Hn Hlen. exists (merge_choice p d).2, (merge_logprobs n pl dl).2. split; [by apply choice_merged|].
  unfold merge_choice. assert (get "logprobs" (insert_prompt p d).2 ≫= as_object = Some dl) as Hr.
  { unfold insert_prompt. destruct (get "prompt_logprobs" p); [|done]. cbn [snd]. by rewrite get_insert, decide_False. }
  rewrite Hpl, Hr. cbn [snd]. rewrite !get_insert, (decide_True (P := "logprobs" = "logprobs")), (decide_False (P := "logprobs" = "prompt_logprobs")) by done.
  split_and!; [done|by apply merge_texts|]. intros v Hv. unfold insert_prompt. rewrite Hv. cbn [snd]. by rewrite get_insert, decide_True.
Qed.

Definition logprobs_of (tokens : list string) : JsonMap := [("tokens", JArray (JString <$> tokens)); ("text_offset", JArray (offsets 0 tokens))].

Definition choice_of (prompt : nat) (tokens : list string) : JsonMap :=
  [("prompt_logprobs", JArray (replicate prompt JNull)); ("logprobs", JObject (logprobs_of tokens))].

Definition response_of (prompt : nat) (tokens : list string) : JsonValue := JObject [("choices", JArray [JObject (choice_of prompt tokens)])].

Lemma merged_texts_witness : let p := ["Hel"; "lo"; "!"] in let d := [" wor"; "ld"] in exists c m,
  choice_at 0 (merge_logprobs_in_json (response_of 2 p) (response_of 0 d)).2 = Some c /\
  get "logprobs" c = Some (JObject m) /\ token_texts m ["Hel"; "lo"; " wor"; "ld"].
Proof.
  intros p d. assert ((num_prompt_tokens (choice_of 2 p) <= length p)%nat) as Hn by (vm_compute; lia).
  assert ((text_length (take (num_prompt_tokens (choice_of 2 p)) p ++ d) < 2 ^ 63)%Z) as Hl by reflexivity.
  destruct (merged_texts (response_of 2 p) (response_of 0 d) 0 (choice_of 2 p) (choice_of 0 d) (logprobs_of p) (logprobs_of d) p d
    eq_refl eq_refl eq_refl eq_refl (conj eq_refl eq_refl) (conj eq_refl eq_refl) Hn Hl) as (c & m & H1 & H2 & H3 & _).
  exists c, m. split_and!; [exact H1|exact H2|exact H3].
Defined.

Lemma unmerged_unchanged_witness :
  (merge_logprobs_in_json (JObject []) (response_of 0 ["a"])).1 = false /\ (merge_logprobs_in_json (JObject []) (response_of 0 ["a"])).2 = response_of 0 ["a"].
Proof. split; [reflexivity|]. apply unmerged_unchanged. reflexivity. Defined.
