(* ===== verification/Identity.v ===== *)
(** * Program identity ([src/program_scheduling/identity.rs])

    What a request says of the program it belongs to: the context in its body, an
    [agent_hint], or the headers of a framework.  [None] is a panic. *)

From S2P Require Import Prelude Ieee KvTypes TextDecode Hashing HashKey Json RequestPool ProgramRuntime WorkerUrl Factors SchedulerState Lifecycle.
From stdpp Require Import pretty strings.

Local Open Scope string_scope.

(** ** Strings *)

(** [s.strip_suffix(suffix)] *)
Fixpoint strip_suffix (suffix s : string) : option string :=
  if decide (s = suffix) then Some "" else
  match s with
  | "" => None
  | String c s => String c <$> strip_suffix suffix s
  end.

(** ** Failures *)

Definition parsed (A : Type) : Type := option (result A ScheduleError).

Definition ret {A} (a : A) : parsed A := Some (Ok a).
Definition invalid {A} (reason : string) : parsed A := Some (Err (InvalidIdentity reason)).

Definition bind {A B} (r : parsed A) (k : A -> parsed B) : parsed B :=
  match r with Some (Ok a) => k a | Some (Err e) => Some (Err e) | None => None end.

Declare Scope parsed_scope.
Notation "x <-? r ; k" := (bind r (fun x => k)) (at level 100, r at next level, right associativity) : parsed_scope.
Local Open Scope parsed_scope.

Definition MAX_IDENTITY_COMPONENT_BYTES : nat := 256.
Definition MAX_PLACEMENT_HASH_KEY_BYTES : nat := 512.
Definition MAX_AGENTIC_CONTEXT_BYTES : N := 16 * 1024.

(** ** Fields of a context *)

(** The first of the keys with a value that is not null. *)
Fixpoint first_value (context : JsonMap) (keys : list string) : option (string * JsonValue) :=
  match keys with
  | [] => None
  | key :: keys =>
      match get key context with
      | Some v => if is_null v then first_value context keys else Some (key, v)
      | None => first_value context keys
      end
  end.

Definition context_string (context : JsonMap) (keys : list string) : parsed (option string) :=
  match first_value context keys with
  | None => ret None
  | Some (key, v) =>
      normalized <-? match v with
                     | JString s => ret (trim s)
                     | JNumber (PosInt n) => ret (pretty n)
                     | JNumber (NegInt z) => ret (pretty z)
                     | _ => invalid (key +:+ " must be a string-compatible identifier")
                     end ;
      if decide (normalized = "") then invalid (key +:+ " must not be empty") else ret (Some normalized)
  end.

(** [value.as_X().map(Some).ok_or_else(..)] *)
Definition context_with {A} (f : JsonValue -> option A) (what : string) (context : JsonMap) (keys : list string) : parsed (option A) :=
  match first_value context keys with
  | None => ret None
  | Some (key, v) => match f v with Some a => ret (Some a) | None => invalid (key +:+ what) end
  end.

Definition context_bool : JsonMap -> list string -> parsed (option bool) :=
  context_with (fun v => match v with JBool b => Some b | _ => None end) " must be a boolean".

(** A [u64] is a [usize] here, so that [context_usize] is the same. *)
Definition context_u64 : JsonMap -> list string -> parsed (option N) := context_with as_u64 " must be a non-negative integer".

Definition context_i64 : JsonMap -> list string -> parsed (option Z) := context_with as_i64 " must be an integer".

Definition context_duration (context : JsonMap) (keys : list string) : parsed (option N) :=
  match first_value context keys with
  | None => ret None
  | Some (key, v) =>
      match as_f64 v with
      | None => invalid (key +:+ " must be seconds as a number")
      | Some seconds =>
          if negb (is_finite seconds) || f64_lt seconds f0 then invalid (key +:+ " must be finite and non-negative")
          else match from_secs_f64 seconds with Some d => ret (Some d) | None => None end
      end
  end.

(** ** Headers *)

Definition CLAUDE_SESSION_HEADER := "x-claude-code-session-id".
Definition CLAUDE_AGENT_HEADER := "x-claude-code-agent-id".
Definition CLAUDE_PARENT_AGENT_HEADER := "x-claude-code-parent-agent-id".
Definition CODEX_SESSION_HEADER := "session-id".
Definition CODEX_THREAD_HEADER := "thread-id".
Definition GENERIC_SESSION_HEADER := "x-session-id".

Definition read_nonempty_header (hs : HeaderMap) (name : string) : parsed (option string) :=
  match header_get name hs with
  | None => ret None
  | Some v =>
      match to_str v with
      | None => invalid ("Invalid " +:+ name +:+ " header")
      | Some v => let s := trim (str v) in ret (if decide (s = "") then None else Some s)
      end
  end.

Definition read_optional (hs : HeaderMap) (name : option string) : parsed (option string) :=
  match name with Some name => read_nonempty_header hs name | None => ret None end.

Fixpoint framework_from (hs : HeaderMap) (names : list (string * option string * option string))
  : parsed (option string * option string * option string) :=
  match names with
  | [] => ret (None, None, None)
  | (session_header, agent_header, parent_header) :: names =>
      session <-? read_nonempty_header hs session_header ;
      match session with
      | None => framework_from hs names
      | Some session_id =>
          agent_id <-? read_optional hs agent_header ;
          parent_agent_id <-? read_optional hs parent_header ;
          ret (Some session_id, agent_id, parent_agent_id)
      end
  end.

Definition framework_identity_headers (headers : option HeaderMap) : parsed (option string * option string * option string) :=
  match headers with
  | None => ret (None, None, None)
  | Some hs =>
      framework_from hs
        [(CLAUDE_SESSION_HEADER, Some CLAUDE_AGENT_HEADER, Some CLAUDE_PARENT_AGENT_HEADER);
         (CODEX_SESSION_HEADER, Some CODEX_THREAD_HEADER, None);
         (GENERIC_SESSION_HEADER, None, None)]
  end.

(** ** Names of programs *)

Definition scoped_program_id (session_id : string) (actor_id : option string) : string :=
  let actor_id := default "lead" actor_id in
  let prefix := session_id +:+ ":" in
  if str_starts_with actor_id prefix then actor_id else prefix +:+ actor_id.

Definition related_program_id (program_id : string) (agent_id : option string) (related_agent_id : string) (task_id : option string)
  : option string :=
  match agent_id ≫= (fun agent_id => strip_suffix (":" +:+ agent_id) program_id) with
  | Some prefix => Some (prefix +:+ ":" +:+ related_agent_id)
  | None => (fun task_id => scoped_program_id task_id (Some related_agent_id)) <$> task_id
  end.

Definition normalized_agent_component (task_id agent_id : option string) : parsed (option string) :=
  match agent_id, task_id with
  | None, _ => ret None
  | Some agent_id, None => ret (Some agent_id)
  | Some agent_id, Some task_id =>
      match WorkerUrl.strip_prefix (task_id +:+ ":") agent_id with
      | None => ret (Some agent_id)
      | Some "" => invalid "agent_id must include an agent component"
      | Some component => ret (Some component)
      end
  end.

(** ** Identities *)

Definition too_long (name : string) : string := name +:+ " exceeds 256 bytes".

(** The first of the named strings that is too long. *)
Fixpoint bounded (fields : list (string * option string)) : parsed unit :=
  match fields with
  | [] => ret tt
  | (name, v) :: fields =>
      if (MAX_IDENTITY_COMPONENT_BYTES <? String.length (default "" v))%nat then invalid (too_long name) else bounded fields
  end.

Definition build (program_id placement_key : string) (expected_resume : bool) (model_pool : option string) : parsed ProgramIdentity :=
  let model_pool := default "default" model_pool in
  _ <-? bounded [("program_id", Some program_id); ("placement key", Some placement_key); ("model pool", Some model_pool)] ;
  ret {| id_model_pool := model_pool; id_program_id := program_id; id_placement_hash_key := placement_key; id_placement_key := placement_key;
         id_expected_resume := expected_resume; id_task_id := None; id_session_id := None; id_agent_id := None; id_parent_program_id := None;
         id_root_program_id := None; id_blocks_parent := false; id_agent_role := None; id_spawn_reason := None; id_step_id := None;
         id_request_hints := default_hints |}.

(** The fields that the sources of an identity set. *)
Definition with_fields (i : ProgramIdentity) (task_id session_id agent_id parent_program_id root_program_id : option string)
    (blocks_parent : bool) (agent_role spawn_reason : option string) (step_id : option N) (hints : ProgramRequestHints) : ProgramIdentity :=
  {| id_model_pool := id_model_pool i; id_program_id := id_program_id i; id_placement_hash_key := id_placement_hash_key i;
     id_placement_key := id_placement_key i; id_expected_resume := id_expected_resume i; id_task_id := task_id; id_session_id := session_id;
     id_agent_id := agent_id; id_parent_program_id := parent_program_id; id_root_program_id := root_program_id;
     id_blocks_parent := blocks_parent; id_agent_role := agent_role; id_spawn_reason := spawn_reason; id_step_id := step_id;
     id_request_hints := hints |}.

Definition with_placement_hash_key (i : ProgramIdentity) (key : string) : parsed ProgramIdentity :=
  if (MAX_PLACEMENT_HASH_KEY_BYTES <? String.length key)%nat then invalid "placement hash key exceeds 512 bytes"
  else ret {| id_model_pool := id_model_pool i; id_program_id := id_program_id i; id_placement_hash_key := key;
         id_placement_key := id_placement_key i; id_expected_resume := id_expected_resume i; id_task_id := id_task_id i;
         id_session_id := id_session_id i; id_agent_id := id_agent_id i; id_parent_program_id := id_parent_program_id i;
         id_root_program_id := id_root_program_id i; id_blocks_parent := id_blocks_parent i; id_agent_role := id_agent_role i;
         id_spawn_reason := id_spawn_reason i; id_step_id := id_step_id i; id_request_hints := id_request_hints i |}.

Definition persisted_strings (i : ProgramIdentity) : list (string * option string) :=
  [("model_pool", Some (id_model_pool i)); ("program_id", Some (id_program_id i)); ("placement_key", Some (id_placement_key i));
   ("task_id", id_task_id i); ("session_id", id_session_id i); ("agent_id", id_agent_id i);
   ("parent_program_id", id_parent_program_id i); ("root_program_id", id_root_program_id i); ("agent_role", id_agent_role i);
   ("spawn_reason", id_spawn_reason i); ("request_id", hint_request_id (id_request_hints i))].

Definition validate_persisted_strings (i : ProgramIdentity) : parsed unit := bounded (persisted_strings i).

Definition for_rebinding (r : ProgramRef) (placement_hash_key placement_key : string) (expected_resume : bool) : ProgramIdentity :=
  {| id_model_pool := ref_model_pool r; id_program_id := ref_program_id r; id_placement_hash_key := placement_hash_key;
     id_placement_key := placement_key; id_expected_resume := expected_resume; id_task_id := None; id_session_id := None;
     id_agent_id := None; id_parent_program_id := None; id_root_program_id := None; id_blocks_parent := false; id_agent_role := None;
     id_spawn_reason := None; id_step_id := None; id_request_hints := default_hints |}.

Definition is_role (role : option string) (name : string) : bool := bool_decide (role = Some name).

Definition role_of (agent_id : string) : string := if decide (agent_id = "lead") then "lead" else "subagent".

(** *** The context of the body *)

Section sources.
Context `{SerdeJson}.

Definition bounded_agentic_context_error {A} : parsed A :=
  invalid "vllm_xargs.agentic_context must contain a bounded JSON object".

Definition canonical_context (request : option JsonMap) : parsed (option JsonMap) :=
  match request ≫= get "vllm_xargs" with
  | None | Some JNull => ret None
  | Some (JObject xargs) =>
      match get "agentic_context" xargs with
      | None | Some JNull => ret None
      | Some (JString s) =>
          if (MAX_AGENTIC_CONTEXT_BYTES <? N.of_nat (String.length s))%N then bounded_agentic_context_error
          else match from_str s ≫= as_object with Some m => ret (Some m) | None => bounded_agentic_context_error end
      | Some (JObject m) =>
          if (MAX_AGENTIC_CONTEXT_BYTES <? N.of_nat (String.length (to_string (JObject m))))%N then bounded_agentic_context_error
          else ret (Some m)
      | Some _ => invalid "vllm_xargs.agentic_context must be an object"
      end
  | Some _ => invalid "vllm_xargs must be an object"
  end.

Definition canonical_identity (context : JsonMap) (headers : option HeaderMap) (model_pool : option string) : parsed (option ProgramIdentity) :=
  from_headers <-? framework_identity_headers headers ;
  let '(header_session_id, header_agent_id, header_parent_agent_id) := from_headers in
  explicit_program_id <-? context_string context ["program_id"] ;
  body_task_id <-? context_string context ["task_id"] ;
  body_session_id <-? context_string context ["session_id"] ;
  let session_id := match body_session_id with Some s => Some s | None => header_session_id end in
  let task_id := if negb (bool_decide (body_task_id = None))
                    || (negb (bool_decide (explicit_program_id = None)) && negb (bool_decide (get "task_id" context = None)))
                 then body_task_id else session_id in
  body_agent_id <-? context_string context ["agent_id"] ;
  let agent_id := match body_agent_id with Some a => Some a | None => header_agent_id end in
  let agent_id := if bool_decide (agent_id = None) && negb (bool_decide (task_id = None)) then Some "lead" else agent_id in
  agent_id <-? normalized_agent_component task_id agent_id ;
  body_agent_role <-? context_string context ["agent_role"] ;
  let agent_role := match body_agent_role with Some r => Some r | None => role_of <$> agent_id end in
  let program_id := match explicit_program_id, task_id, agent_id with
                    | Some p, _, _ => Some p
                    | None, Some task_id, Some agent_id => Some (scoped_program_id task_id (Some agent_id))
                    | _, _, _ => None
                    end in
  match program_id with
  | None => ret None
  | Some program_id =>
      let placement_key := match task_id, session_id with Some t, _ => t | None, Some s => s | None, None => program_id end in
      body_parent <-? context_string context ["parent_program_id"; "parent_id"] ;
      body_parent_agent <-? context_string context ["parent_agent_id"] ;
      parent_agent_id <-? normalized_agent_component task_id
        match body_parent_agent with Some a => Some a | None => header_parent_agent_id end ;
      let by_agent := parent_agent_id ≫= (fun parent => related_program_id program_id agent_id parent task_id) in
      let by_role := if is_role agent_role "subagent" then related_program_id program_id agent_id "lead" task_id else None in
      let parent_program_id := match body_parent, by_agent with Some p, _ => Some p | None, Some p => Some p | None, None => by_role end in
      root_program_id <-? context_string context ["root_program_id"; "root_id"] ;
      body_blocks <-? context_bool context ["blocks_parent"; "blocking_parent"] ;
      let blocks_parent := default (is_role agent_role "subagent") body_blocks in
      if decide (parent_program_id = Some program_id) then invalid "parent_program_id must differ from program_id"
      else if blocks_parent && bool_decide (parent_program_id = None) then invalid "blocks_parent requires parent_program_id"
      else
        body_resume <-? context_bool context ["expected_resume"] ;
        let expected_resume := default (negb (blocks_parent && is_role agent_role "subagent")) body_resume in
        found <-? build program_id placement_key expected_resume model_pool ;
        spawn_reason <-? context_string context ["spawn_reason"; "subagent_type"; "agent_type"] ;
        step_id <-? context_u64 context ["step_id"] ;
        request_id <-? context_string context ["request_id"] ;
        priority <-? context_i64 context ["priority"] ;
        deadline <-? context_duration context ["deadline"; "deadline_seconds"] ;
        expected_output_tokens <-? context_u64 context ["expected_output_length"; "expected_output_tokens"] ;
        kv_retention_ttl <-? context_duration context ["kv_retention_ttl"; "kv_retention_ttl_seconds"] ;
        ret (Some (with_fields found task_id session_id agent_id parent_program_id root_program_id blocks_parent agent_role spawn_reason step_id
          {| hint_request_id := request_id; hint_priority := default 0%Z priority; hint_deadline := deadline;
             hint_expected_output_tokens := expected_output_tokens; hint_kv_retention_ttl := kv_retention_ttl |}))
  end.

(** *** The hint of the body *)

Definition agent_hint_identity (request : option JsonMap) (model_pool : option string) : parsed (option ProgramIdentity) :=
  match request ≫= get "agent_hint" with
  | None | Some JNull => ret None
  | Some (JObject hint) =>
      session <-? context_string hint ["session_id"] ;
      match session with
      | None => invalid "agent_hint.session_id is required"
      | Some session_id =>
          parent_session_id <-? context_string hint ["parent_session_id"] ;
          blocks <-? context_bool hint ["blocks_parent"] ;
          let blocks_parent := default true blocks in
          if blocks_parent && bool_decide (parent_session_id = None) then invalid "blocking agent_hint requires parent_session_id"
          else
            resume <-? context_bool hint ["expected_resume"] ;
            found <-? build session_id session_id (default (negb blocks_parent) resume) model_pool ;
            ret (Some (with_fields found None (Some session_id) None parent_session_id None blocks_parent None None None default_hints))
      end
  | Some _ => invalid "agent_hint must be an object"
  end.

(** *** The headers *)

Definition header_identity (headers : option HeaderMap) (model_pool : option string) : parsed (option ProgramIdentity) :=
  from_headers <-? framework_identity_headers headers ;
  let '(session_id, actor_id, parent_actor_id) := from_headers in
  match session_id with
  | None => ret None
  | Some session_id =>
      actor_id <-? normalized_agent_component (Some session_id) actor_id ;
      let lead := from_option (fun a => bool_decide (a = "lead")) true actor_id in
      found <-? build (scoped_program_id session_id actor_id) session_id lead model_pool ;
      let agent_role := if lead then "lead" else "subagent" in
      parent <-? normalized_agent_component (Some session_id) parent_actor_id ;
      let parent_program_id := match parent with
                               | Some parent => Some (scoped_program_id session_id (Some parent))
                               | None => if is_role (Some agent_role) "subagent" then Some (scoped_program_id session_id (Some "lead")) else None
                               end in
      ret (Some (with_fields found (Some session_id) (Some session_id) actor_id parent_program_id None
        (is_role (Some agent_role) "subagent") (Some agent_role) None None default_hints))
  end.

(** *** The key for hashing *)

Fixpoint session_key (hs : HeaderMap) (names : list string) : option string :=
  match names with
  | [] => None
  | name :: names =>
      match read_nonempty_header hs name with
      | Some (Ok (Some v)) => Some ("header:" +:+ name +:+ ":" +:+ v)
      | _ => session_key hs names
      end
  end.

(** [headers.iter().filter_map(..).collect::<RequestHeaders>()]: of the values of a
    name the last stays. *)
Definition request_headers (hs : HeaderMap) : RequestHeaders :=
  foldl (fun m kv => match to_str kv.2 with Some v => <[kv.1 := v]> m | None => m end) ∅ hs.

Definition consistent_hash_request_key (headers : option HeaderMap) (request : option JsonValue) : string :=
  match headers ≫= (fun hs => session_key hs [CLAUDE_SESSION_HEADER; CODEX_SESSION_HEADER; GENERIC_SESSION_HEADER]) with
  | Some key => key
  | None =>
      match headers ≫= (fun hs => extract_hash_key_from_headers (request_headers hs)) with
      | Some key => str key
      | None => str (extract_hash_key ((fun r => bytes (to_string r)) <$> request) None)
      end
  end.

(** ** A request *)

Definition from_request_with_enable_key (headers : option HeaderMap) (request : option JsonValue) (model_pool : option string)
    (enable_key : ProgramSchedulingEnableKey) : parsed (option ProgramIdentity) :=
  let request_object := request ≫= as_object in
  canonical <-? canonical_context request_object ;
  found <-? match canonical, enable_key with
               | Some context, _ => canonical_identity context headers model_pool
               | None, AgenticContext => ret None
               | None, Auto =>
                   hint <-? agent_hint_identity request_object model_pool ;
                   match hint with
                   | Some i => ret (Some i)
                   | None => header_identity headers model_pool
                   end
               end ;
  match found with
  | None => ret None
  | Some i =>
      i <-? with_placement_hash_key i (consistent_hash_request_key headers request) ;
      _ <-? validate_persisted_strings i ;
      ret (Some i)
  end.

Definition from_request (headers : option HeaderMap) (request : option JsonValue) (model_pool : option string) : parsed (option ProgramIdentity) :=
  from_request_with_enable_key headers request model_pool Auto.
End sources.

(** ** Specification *)

(** What the rest of the router relies on. *)
Definition persistable (i : ProgramIdentity) : Prop :=
  Forall (fun f => (String.length (default "" f.2) <= MAX_IDENTITY_COMPONENT_BYTES)%nat) (persisted_strings i) /\
  (String.length (id_placement_hash_key i) <= MAX_PLACEMENT_HASH_KEY_BYTES)%nat.

Definition lineage_ok (i : ProgramIdentity) : Prop := id_blocks_parent i = true -> is_Some (id_parent_program_id i).

(** Where the identity of a request comes from. *)
Definition sourced `{SerdeJson} (headers : option HeaderMap) (request : option JsonValue) (model_pool : option string)
    (enable_key : ProgramSchedulingEnableKey) (i : ProgramIdentity) : Prop :=
  (exists context, canonical_context (request ≫= as_object) = Some (Ok (Some context)) /\
     canonical_identity context headers model_pool = Some (Ok (Some i))) \/
  canonical_context (request ≫= as_object) = Some (Ok None) /\ enable_key = Auto /\
    (agent_hint_identity (request ≫= as_object) model_pool = Some (Ok (Some i)) \/
     agent_hint_identity (request ≫= as_object) model_pool = Some (Ok None) /\ header_identity headers model_pool = Some (Ok (Some i))).

(** The same context with another correlation id. *)
Definition same_but_request_id (c c' : JsonMap) : Prop := forall key, key <> "request_id" -> get key c = get key c'.

(** ** Lemmas *)

Lemma bind_returns {A B} (r : parsed A) (k : A -> parsed B) b : bind r k = Some (Ok b) <-> exists a, r = Some (Ok a) /\ k a = Some (Ok b).
Proof. destruct r as [[a|e]|]; simpl; naive_solver. Qed.

(** Take a parse that succeeded apart. *)
Ltac parsed_step H :=
  match type of H with
  | bind _ _ = Some (Ok _) => apply bind_returns in H as (? & ? & H)
  | (let '(_, _) := ?p in _) = Some (Ok _) => destruct p
  | (if ?c then _ else _) = Some (Ok _) => destruct c eqn:?; try discriminate H
  | match ?x with _ => _ end = Some (Ok _) => destruct x eqn:?; try discriminate H
  | ret _ = Some (Ok _) => injection H as H
  | invalid _ = Some (Ok _) => discriminate H
  | bounded_agentic_context_error = Some (Ok _) => discriminate H
  end.

Lemma bounded_ok fields : bounded fields = Some (Ok tt) -> Forall (fun f => (String.length (default "" f.2) <= MAX_IDENTITY_COMPONENT_BYTES)%nat) fields.
Proof.
  induction fields as [|[name v] fields IH]; [constructor|]. simpl. destruct (Nat.ltb_spec MAX_IDENTITY_COMPONENT_BYTES (String.length (default "" v))) as [|Hle]; [done|].
  intros H. constructor; [done|auto].
Qed.

Lemma build_ok program_id placement_key resume model_pool i : build program_id placement_key resume model_pool = Some (Ok i) ->
  id_program_id i = program_id /\ id_placement_key i = placement_key /\ id_model_pool i = default "default" model_pool.
Proof. unfold build. intros E. repeat parsed_step E. by subst. Qed.

Lemma blocked_has_parent (blocks : bool) (parent : option string) : blocks && bool_decide (parent = None) = false -> blocks = true -> is_Some parent.
Proof. intros E ->. destruct parent; [by eexists|]. done. Qed.

Section sources.
Context `{SerdeJson}.

Lemma canonical_lineage context headers model_pool i : canonical_identity context headers model_pool = Some (Ok (Some i)) ->
  lineage_ok i /\ id_parent_program_id i <> Some (id_program_id i).
Proof.
  unfold canonical_identity. intros E. repeat parsed_step E.
  match goal with B : build _ _ _ _ = Some (Ok _) |- _ => apply build_ok in B as (Hp & _ & _) end.
  subst i. cbn [lineage_ok id_blocks_parent id_parent_program_id id_program_id with_fields]. rewrite Hp. split; [|done].
  unfold lineage_ok. cbn [id_blocks_parent id_parent_program_id with_fields]. by apply blocked_has_parent.
Qed.

Lemma hint_lineage request model_pool i : agent_hint_identity request model_pool = Some (Ok (Some i)) -> lineage_ok i.
Proof.
  unfold agent_hint_identity. intros E. repeat parsed_step E. subst i.
  unfold lineage_ok. cbn [id_blocks_parent id_parent_program_id with_fields]. by apply blocked_has_parent.
Qed.

Lemma header_lineage headers model_pool i : header_identity headers model_pool = Some (Ok (Some i)) -> lineage_ok i.
Proof.
  unfold header_identity. intros E. repeat parsed_step E. subst i.
  unfold lineage_ok. cbn [id_blocks_parent id_parent_program_id with_fields]. intros Hb.
  match goal with |- is_Some (match ?o with _ => _ end) => destruct o end; [by eexists|]. rewrite Hb. by eexists.
Qed.

Lemma placed_key i0 key i : with_placement_hash_key i0 key = Some (Ok i) -> (String.length (id_placement_hash_key i) <= MAX_PLACEMENT_HASH_KEY_BYTES)%nat.
Proof.
  unfold with_placement_hash_key. destruct (Nat.ltb_spec MAX_PLACEMENT_HASH_KEY_BYTES (String.length key)); [done|]. by intros [= <-].
Qed.

(** An identity of a request is that of its source, with the key for hashing. *)
Lemma request_source headers request model_pool enable_key i : from_request_with_enable_key headers request model_pool enable_key = Some (Ok (Some i)) ->
  exists i0, sourced headers request model_pool enable_key i0 /\
    with_placement_hash_key i0 (consistent_hash_request_key headers request) = Some (Ok i) /\ persistable i.
Proof.
  unfold from_request_with_enable_key. intros E. parsed_step E. parsed_step E. rename x0 into found. destruct found as [i0|]; [|discriminate E].
  repeat parsed_step E. subst x0. exists i0. split_and!; [|done|].
  - destruct x as [context|]; [left; eauto|]. right. destruct enable_key; [done|]. split_and!; [done|done|].
    match goal with B : bind _ _ = Some (Ok (Some i0)) |- _ => apply bind_returns in B as ([hint|] & Hh & Hk) end; [injection Hk as ->; by left|by right].
  - destruct x1. split; [by apply bounded_ok|]. by eapply placed_key.
Qed.

Lemma placed_lineage i0 key i : with_placement_hash_key i0 key = Some (Ok i) -> id_blocks_parent i = id_blocks_parent i0 /\
  id_parent_program_id i = id_parent_program_id i0 /\ id_program_id i = id_program_id i0.
Proof. unfold with_placement_hash_key. intros E. parsed_step E. injection E as <-. done. Qed.

(** *** Correlation ids *)

Lemma first_value_same c c' keys : same_but_request_id c c' -> "request_id" ∉ keys -> first_value c keys = first_value c' keys.
Proof.
  intros Hs. induction keys as [|key keys IH]; [done|]. intros [Hne Hk]%not_elem_of_cons. simpl. rewrite (Hs key) by done. by rewrite IH.
Qed.

Lemma context_string_same c c' keys : same_but_request_id c c' -> "request_id" ∉ keys -> context_string c keys = context_string c' keys.
Proof. intros Hs Hk. unfold context_string. by rewrite (first_value_same c c'). Qed.

Lemma context_with_same {A} (f : JsonValue -> option A) what c c' keys : same_but_request_id c c' -> "request_id" ∉ keys ->
  context_with f what c keys = context_with f what c' keys.
Proof. intros Hs Hk. unfold context_with. by rewrite (first_value_same c c'). Qed.

Lemma context_duration_same c c' keys : same_but_request_id c c' -> "request_id" ∉ keys -> context_duration c keys = context_duration c' keys.
Proof. intros Hs Hk. unfold context_duration. by rewrite (first_value_same c c'). Qed.
End sources.

(** *** Sessions *)

Lemma prefix_cut p x rest : WorkerUrl.strip_prefix p x = Some rest -> x = p +:+ rest.
Proof.
  revert x. induction p as [|c p IH]; intros x; [by intros [= ->]|]. destruct x as [|d x]; [done|]. simpl. destruct (Ascii.eqb_spec c d) as [->|]; [|done]. intros E. by rewrite (IH x E).
Qed.

Lemma scoped_prefix s a : exists rest, scoped_program_id s a = s +:+ String ":" rest.
Proof.
  unfold scoped_program_id. unfold str_starts_with. case_bool_decide as Hp.
  - destruct Hp as [rest E]. apply prefix_cut in E. exists rest. rewrite E. clear. induction s as [|c s IH]; [done|]. exact (f_equal (String c) IH).
  - exists (default "lead" a). clear. induction s as [|c s IH]; [done|]. exact (f_equal (String c) IH).
Qed.

Lemma cut_at_colon s1 s2 r1 r2 : has_char ":" s1 = false -> has_char ":" s2 = false -> s1 +:+ String ":" r1 = s2 +:+ String ":" r2 -> s1 = s2.
Proof.
  revert s2. induction s1 as [|c s1 IH]; intros [|d s2] H1 H2 E; [done| | |].
  - apply has_char_cons in H2 as [H2 _]. injection E as E _. congruence.
  - apply has_char_cons in H1 as [H1 _]. injection E as E _. congruence.
  - apply has_char_cons in H1 as [_ H1], H2 as [_ H2]. injection E as -> E. f_equal. by apply IH.
Qed.

(** ** Properties *)

(** C32: the identity of a request.  Whatever the body and the headers, an identity
    that is accepted has no string longer than 256 bytes and no hashing key longer
    than 512; a program that blocks its parent names it; and one that the body's
    context describes is not its own parent. *)
Theorem identity_contract `{SerdeJson} headers request model_pool enable_key i :
  from_request_with_enable_key headers request model_pool enable_key = Some (Ok (Some i)) ->
  persistable i /\ lineage_ok i /\
  (forall context, canonical_context (request ≫= as_object) = Some (Ok (Some context)) -> id_parent_program_id i <> Some (id_program_id i)).
Proof.
  intros (i0 & Hs & Hk & Hp)%request_source. apply placed_lineage in Hk as (E1 & E2 & E3). unfold lineage_ok. rewrite E1, E2, E3. split; [done|].
  destruct Hs as [(context & _ & Hc)|(Hn & _ & [Hh|[_ Hh]])].
  - apply canonical_lineage in Hc as [? ?]. auto.
  - split; [by eapply hint_lineage|]. intros context Hc. rewrite Hn in Hc. done.
  - split; [by eapply header_lineage|]. intros context Hc. rewrite Hn in Hc. done.
Qed.

(** The correlation id of a request is no part of its program.  Two contexts
    that differ in [request_id] only, both accepted, give the same program, in the
    same place, with the same relations and the same hints but that id. *)
Theorem request_id_irrelevant `{SerdeJson} c c' headers model_pool i i' : same_but_request_id c c' ->
  canonical_identity c headers model_pool = Some (Ok (Some i)) -> canonical_identity c' headers model_pool = Some (Ok (Some i')) ->
  exists r, i' = with_fields i (id_task_id i) (id_session_id i) (id_agent_id i) (id_parent_program_id i) (id_root_program_id i) (id_blocks_parent i)
    (id_agent_role i) (id_spawn_reason i) (id_step_id i)
    {| hint_request_id := r; hint_priority := hint_priority (id_request_hints i); hint_deadline := hint_deadline (id_request_hints i);
       hint_expected_output_tokens := hint_expected_output_tokens (id_request_hints i); hint_kv_retention_ttl := hint_kv_retention_ttl (id_request_hints i) |}.
Proof.
  intros Hs. unfold canonical_identity, context_bool, context_u64, context_i64.
  assert (forall keys, "request_id" ∉ keys -> context_string c' keys = context_string c keys) as H1 by (intros; symmetry; by apply context_string_same).
  assert (forall A f w keys, "request_id" ∉ keys -> @context_with A f w c' keys = @context_with A f w c keys) as H2 by (intros; symmetry; by apply context_with_same).
  assert (forall keys, "request_id" ∉ keys -> context_duration c' keys = context_duration c keys) as H3 by (intros; symmetry; by apply context_duration_same).
  rewrite !H1, !H2, !H3 by set_solver. rewrite (Hs "task_id") by done.
  repeat match goal with
  | |- bind ?r _ = _ -> _ => destruct r as [[?|?]|]; cbn [bind]; [|discriminate 1..]
  | |- (let '(_, _) := ?q in _) = _ -> _ => destruct q
  | |- match ?q with Some _ => _ | None => _ end = _ -> _ => destruct q; [|discriminate 1]
  | |- (if ?q then _ else _) = _ -> _ => destruct q; [discriminate 1|]
  end.
  intros [= <-]. destruct (context_string c' ["request_id"]) as [[r|]|]; cbn [bind]; [|discriminate 1..].
  intros [= <-]. exists r. reflexivity.
Qed.

(** Programs of different sessions have different names, when the names of the
    sessions have no colon. *)
Theorem sessions_apart s1 s2 a1 a2 : has_char ":" s1 = false -> has_char ":" s2 = false -> s1 <> s2 ->
  scoped_program_id s1 a1 <> scoped_program_id s2 a2.
Proof.
  intros H1 H2 Hne E. destruct (scoped_prefix s1 a1) as [r1 E1], (scoped_prefix s2 a2) as [r2 E2]. rewrite E1, E2 in E.
  by apply Hne, (cut_at_colon s1 s2 r1 r2).
Qed.

(** *** Witnesses *)

#[local] Instance no_json : SerdeJson := {| from_str _ := None; to_string _ := "{}" |}.

Definition agentic (context : JsonMap) : JsonValue := JObject [("vllm_xargs", JObject [("agentic_context", JObject context)])].

Definition sub_context (request_id : string) : JsonMap :=
  [("task_id", JString "t"); ("agent_id", JString " worker "); ("request_id", JString request_id)].

Lemma identity_contract_witness : exists i, from_request_with_enable_key None (Some (agentic (sub_context "r1"))) (Some "m") AgenticContext = Some (Ok (Some i)) /\
  id_program_id i = "t:worker" /\ id_parent_program_id i = Some "t:lead" /\ persistable i.
Proof.
  destruct (from_request_with_enable_key None (Some (agentic (sub_context "r1"))) (Some "m") AgenticContext) as [[[i|]|]|] eqn:E; try (vm_compute in E; discriminate E).
  exists i. pose proof (identity_contract None _ (Some "m") AgenticContext i E) as [Hp _].
  vm_compute in E. injection E as <-. split; [reflexivity|]. split; [reflexivity|]. split; [reflexivity|exact Hp].
Defined.

Lemma same_contexts : same_but_request_id (sub_context "r1") (sub_context "r2").
Proof. intros key Hk. unfold get, sub_context. cbn [fst]. rewrite !filter_cons. cbn [fst]. by rewrite !(decide_False (P := "request_id" = key)). Qed.

Lemma request_id_irrelevant_witness : exists i i', canonical_identity (sub_context "r1") None None = Some (Ok (Some i)) /\
  canonical_identity (sub_context "r2") None None = Some (Ok (Some i')) /\ id_program_id i = id_program_id i'.
Proof.
  destruct (canonical_identity (sub_context "r1") None None) as [[[i|]|]|] eqn:E; try (vm_compute in E; discriminate E).
  destruct (canonical_identity (sub_context "r2") None None) as [[[i'|]|]|] eqn:E'; try (vm_compute in E'; discriminate E').
  exists i, i'. split; [reflexivity|]. split; [reflexivity|].
  destruct (request_id_irrelevant _ _ None None i i' same_contexts E E') as [r ->]. reflexivity.
Defined.

Lemma sessions_apart_witness : scoped_program_id "a" (Some "b") <> scoped_program_id "c" None.
Proof. apply sessions_apart; [reflexivity|reflexivity|discriminate]. Defined.

(** Session and agent are joined by a colon that either may contain. *)
Example sessions_collide : scoped_program_id "a" (Some "b:c") = scoped_program_id "a:b" (Some "c").
Proof. reflexivity. Qed.

(** A header may name the agent as its own parent. *)
Example own_parent : exists i,
  from_request (Some [(CLAUDE_SESSION_HEADER, as_bytes "s"); (CLAUDE_AGENT_HEADER, as_bytes "x"); (CLAUDE_PARENT_AGENT_HEADER, as_bytes "x")]) None None
    = Some (Ok (Some i)) /\ id_parent_program_id i = Some (id_program_id i) /\ id_blocks_parent i = true.
Proof. eexists. split; [vm_compute; reflexivity|]. split; reflexivity. Qed.

(** A deadline of [2 ^ 64] seconds in the body makes the parser panic. *)
Example long_deadline_panics :
  from_request None (Some (agentic [("program_id", JString "p"); ("deadline", JNumber (Float (f64_lit (2 ^ 64) 1)))])) None = None.
Proof. vm_compute. reflexivity. Qed.
