(* ===== verification/KvDiscovery.v ===== *)
(** * KV discovery and endpoints ([src/kv_index/discovery.rs],
      [src/kv_index/endpoints.rs])

    The supervisor asks a new worker for its KV configuration and starts one
    subscriber per rank, which feeds the index of the worker's cache identity; the
    last worker of an identity takes the index with it.  What the worker answers is
    an argument.  Indexes and subscribers live in heaps of their own, since they are
    shared; [None] is a panic.  Here a call runs without interruption; [KvThreads] runs
    calls at the same time, and what goes wrong between the steps of two calls is
    stated on those steps ([acquire_race_panics], [added_twice_leaks]).  The [url]
    package is the class [UrlLib]. *)

From stdpp Require Import pretty.
From S2P Require Import Prelude Ieee KvTypes KvShard KvIndexer TextDecode HashKey Json KvAware WorkerUrl.

Local Open Scope string_scope.
Local Open Scope update_scope.

(** ** Answers of a worker *)

Record ServerInfo := MkServerInfo {
  model_id : option string;
  model_path : option string;
  info_priority : option N;
  info_cost : option f32;
  info_worker_type : option string;
  server_instance_id : option string;
  kv_block_size : option N;
  effective_attention_block_size : option N;
}.

Definition default_server_info : ServerInfo := MkServerInfo None None None None None None None None.

Record KvEventSourceEntry := MkEntry {
  endpoint : string;
  replay_endpoint : option string;
  topic : string;
  hwm : option Z;
  buffer_steps : option N;
  publisher : option string;
  encoding : option string;
  schema_version : option N;
  enable_kv_cache_events : option bool;
}.

Abbreviation KvEventSourcesResponse := (gmap string KvEventSourceEntry).

Record WorkerDiscovery := MkDiscovered {
  server_info : result ServerInfo string;
  sources : result KvEventSourcesResponse string;
  discovered_model : result (option string) string;
}.

(** The answers of a gRPC worker, of generated types. *)
Record GrpcServerInfo := MkGrpcServer { grpc_instance_id : string; grpc_kv_block_size : N; grpc_attention_block_size : option N }.

Record GrpcEventSource := MkGrpcSource {
  data_parallel_rank : option N; grpc_endpoint : string; grpc_replay_endpoint : string; grpc_topic : string;
  grpc_hwm : N; grpc_buffer_steps : N; transport : string; grpc_encoding : string; grpc_schema_version : N;
}.

(** [trim().is_empty()] *)
Definition blank (s : string) : bool := bool_decide (trim s = "").

Definition keep_if {A} (b : bool) (x : A) : option A := if b then Some x else None.

(** [Option::filter] *)
Definition keep {A} (p : A -> bool) (o : option A) : option A := x ← o; keep_if (p x) x.

Definition server_model_id (i : ServerInfo) : option string :=
  match keep (fun id => negb (blank id)) (model_id i) with
  | Some id => Some id
  | None => keep (fun id => negb (blank id)) (model_path i ≫= (fun p => last (str_split "/" p)))
  end.

Definition grpc_model_id (m : result string string) : result (option string) string :=
  match m with Ok id => Ok (keep_if (negb (blank id)) id) | Err e => Err e end.

Definition grpc_entry (s : GrpcEventSource) : option (string * KvEventSourceEntry) :=
  rank ← data_parallel_rank s;
  Some (pretty rank, MkEntry (grpc_endpoint s) (keep_if (negb (bool_decide (grpc_replay_endpoint s = ""))) (grpc_replay_endpoint s))
    (grpc_topic s) (keep_if (grpc_hwm s <? 2 ^ 31)%N (Z.of_N (grpc_hwm s))) (Some (grpc_buffer_steps s)) (Some (transport s)) (Some (grpc_encoding s))
    (Some (grpc_schema_version s)) (Some true)).

(** Later sources replace earlier ones of the same rank. *)
Definition grpc_kv_event_source_entries (l : list GrpcEventSource) : KvEventSourcesResponse :=
  foldl (fun m e => <[e.1 := e.2]> m) ∅ (omap grpc_entry l).

Definition discover_http (worker_url : string) (info : result ServerInfo string) (srcs : result KvEventSourcesResponse string) : WorkerDiscovery :=
  MkDiscovered info srcs (match info with Ok i => Ok (Some (default worker_url (server_model_id i))) | Err e => Err e end).

Definition discover_grpc (server : result GrpcServerInfo string) (model : result string string) (srcs : result (list GrpcEventSource) string) : WorkerDiscovery :=
  let model := grpc_model_id model in
  MkDiscovered
    (match server with
     | Ok s => Ok (MkServerInfo (match model with Ok m => m | Err _ => None end) None None None None
         (keep_if (negb (bool_decide (grpc_instance_id s = ""))) (grpc_instance_id s)) (keep_if (negb (grpc_kv_block_size s =? 0)%N) (grpc_kv_block_size s))
         (keep (fun n => n <? 2 ^ 32)%N (grpc_attention_block_size s)))
     | Err e => Err e
     end)
    (match srcs with Ok l => Ok (grpc_kv_event_source_entries l) | Err e => Err e end) model.

(** A rank emits events only in the format the subscriber decodes. *)
Definition events_enabled (e : KvEventSourceEntry) : bool :=
  if negb (bool_decide (publisher e = Some "zmq") && bool_decide (encoding e = Some "msgpack") && bool_decide (schema_version e = Some 1%N)) then false
  else if bool_decide (enable_kv_cache_events e = Some false) then false
  else negb (bool_decide (endpoint e = "")).

Definition resolve_endpoint (ep worker_host : string) : string :=
  match strip_prefix "tcp://" ep with
  | Some rest =>
      match split_once ":" rest with
      | Some (host, port) => if bool_decide (host = "*") || bool_decide (host = "0.0.0.0") then "tcp://" +:+ worker_host +:+ ":" +:+ port else ep
      | None => ep
      end
  | None => ep
  end.

Definition discovered_block_size (i : ServerInfo) : option N :=
  match keep (fun n => 0 <? n)%N (kv_block_size i) with
  | Some n => Some n
  | None => keep (fun n => 0 <? n)%N (effective_attention_block_size i)
  end.

(** ** The [url] package *)

(** A parsed URL and the values of its accessors. *)
Record Url := MkUrl {
  scheme : string; host_str : option string; username : string; password : option string; query : option string; fragment : option string;
  path : string; url_port : option N; printed : string;   (* to_string() *)
}.

(** [Host::parse]; addresses are their bits. *)
Inductive Host := Domain (d : string) | Ipv4 (bits : N) | Ipv6 (bits : N).

Class UrlLib := {
  url_parse : string -> result Url string;
  host_parse : string -> result Host string;
  print_ipv6 : N -> string;
}.

(** ** The supervisor *)

Record EventSource := MkSource {
  source : string; source_rank : N; pub_endpoint : string; source_replay : option string; source_topic : string; source_hwm : option Z;
}.

Record WorkerSubs := MkSubs {
  subs_key : CacheKey;
  source_id : string;
  subs_ranks : list N;
  indexer : nat;            (* Arc<KvBlockIndexer> *)
  handles : list nat;       (* SubscriberHandle *)
}.

Record KvIndexSupervisor := MkSupervisor {
  hash_mode : HashMode;
  indexers : gmap CacheKey nat;
  identity_refs : gmap CacheKey N;
  workers : gmap string WorkerSubs;
  first_block_size : option N;
  index_heap : gmap nat KvBlockIndexer;
  next_index : nat;
  running : gmap nat (EventSource * nat);   (* the subscriber tasks and the index they feed *)
  stopping : gset nat;                      (* those told to shut down *)
  next_handle : nat;
}.

#[export] Instance KvIndexSupervisor_eta : Eta KvIndexSupervisor := fun s =>
  MkSupervisor (hash_mode s) (indexers s) (identity_refs s) (workers s) (first_block_size s) (index_heap s) (next_index s) (running s) (stopping s) (next_handle s).

Definition new_supervisor (mode : HashMode) : KvIndexSupervisor := MkSupervisor mode ∅ ∅ ∅ None ∅ 0 ∅ ∅ 0.

(** The two halves of [acquire_identity]: under the lock of the counts, and the
    lookup after it. *)
Definition acquire_count (key : CacheKey) (s : KvIndexSupervisor) : KvIndexSupervisor :=
  let count := default 0%N (identity_refs s !! key) in
  let s := if (count =? 0)%N then
      s <| indexers ::= <[key := next_index s]> |> <| index_heap ::= <[next_index s := new_indexer]> |> <| next_index ::= S |>
    else s in
  s <| identity_refs ::= <[key := (count + 1)%N]> |>.

Definition acquire_get (key : CacheKey) (s : KvIndexSupervisor) : option nat := indexers s !! key.

Definition acquire_identity (key : CacheKey) (s : KvIndexSupervisor) : option (nat * KvIndexSupervisor) :=
  let s := acquire_count key s in
  adr ← acquire_get key s; Some (adr, s).

(** The two halves of [release_identity]: the second, outside the lock, is for the
    last release. *)
Definition release_count (key : CacheKey) (s : KvIndexSupervisor) : bool * KvIndexSupervisor :=
  match identity_refs s !! key with
  | Some c =>
      let c := saturating_sub c 1 in
      if (c =? 0)%N then (true, s <| identity_refs ::= delete key |>) else (false, s <| identity_refs ::= <[key := c]> |>)
  | None => (false, s)
  end.

Definition release_drop (key : CacheKey) (s : KvIndexSupervisor) : KvIndexSupervisor := s <| indexers ::= delete key |>.

Definition release_identity (key : CacheKey) (s : KvIndexSupervisor) : KvIndexSupervisor :=
  let '(last, s) := release_count key s in if last then release_drop key s else s.

Definition check_block_size (block_size : option N) (s : KvIndexSupervisor) : KvIndexSupervisor :=
  match block_size, first_block_size s with Some bs, None => s <| first_block_size := Some bs |> | _, _ => s end.

(** [handle.shutdown()] of every handle: a task looks at the signal between two
    messages, so it may still apply one. *)
Definition stop (hs : list nat) (s : KvIndexSupervisor) : KvIndexSupervisor := s <| stopping ::= union (list_to_set hs) |>.

(** [indexer.clear(&owner, ClearScope::Worker)] for every rank *)
Definition clear_ranks (subs : WorkerSubs) (s : KvIndexSupervisor) : option KvIndexSupervisor :=
  ix ← index_heap s !! indexer subs;
  ix ← foldM ix_step ((fun rank => IxClear (Worker (source_id subs) rank 0) ScopeWorker) <$> subs_ranks subs) ix;
  Some (s <| index_heap ::= <[indexer subs := ix]> |>).

Definition on_worker_removed (worker_url : string) (s : KvIndexSupervisor) : option KvIndexSupervisor :=
  match workers s !! worker_url with
  | None => Some s
  | Some subs =>
      let s := stop (handles subs) (s <| workers ::= delete worker_url |>) in
      s ← clear_ranks subs s;
      Some (release_identity (subs_key subs) s)
  end.

Definition shutdown `{HashOrder} (s : KvIndexSupervisor) : KvIndexSupervisor :=
  let subs := snd <$> Prelude.iter (workers s) in
  let s := stop (subs ≫= handles) (s <| workers := ∅ |>) in
  foldl (fun s x => release_identity (subs_key x) s) s subs.

Definition match_provider_for_worker (worker_url : string) (s : KvIndexSupervisor) : option nat := indexer <$> workers s !! worker_url.

Section supervisor.
Context `{UrlLib, HashOrder}.

Definition worker_host (worker_url : string) : option string :=
  let with_scheme := match split_once "://" worker_url with Some _ => worker_url | None => "http://" +:+ worker_url end in
  match url_parse with_scheme with Ok u => host_str u | Err _ => None end.

(** One subscriber per rank that emits events. *)
Definition spawn_sources (worker_host : string) (src : string) (adr : nat) (entries : list (string * KvEventSourceEntry)) (s : KvIndexSupervisor)
  : list N * list nat * KvIndexSupervisor :=
  foldl (fun '(ranks, hs, s) '(rank_str, e) =>
    if negb (events_enabled e) then (ranks, hs, s) else
    match parse_u32 rank_str with
    | None => (ranks, hs, s)
    | Some rank =>
        let ev := MkSource src rank (resolve_endpoint (endpoint e) worker_host) ((fun ep => resolve_endpoint ep worker_host) <$> replay_endpoint e) (topic e) (hwm e) in
        let h := next_handle s in
        (ranks ++ [rank], hs ++ [h], s <| running ::= <[h := (ev, adr)]> |> <| next_handle ::= S |>)%list
    end) ([], [], s) entries.

(** [on_worker_added] after the worker has answered. *)
Definition track_worker (worker_url : string) (discovery : WorkerDiscovery) (s : KvIndexSupervisor) : option (WorkerKvInfo * KvIndexSupervisor) :=
  let info := match server_info discovery with
    | Ok i => i
    | Err _ => MkServerInfo (Some worker_url) None None None None None None None
    end in
  let instance_id := default worker_url (keep (fun s => negb (bool_decide (s = ""))) (server_instance_id info)) in
  let block_size := discovered_block_size info in
  let s := check_block_size block_size s in
  let model := match discovered_model discovery with Ok (Some m) => keep_if (negb (blank m)) m | _ => None end in
  match sources discovery, block_size, model with
  | Ok srcs, Some bs, Some model =>
      let key := MkCacheKey model (hash_mode s) bs in
      '(adr, s) ← acquire_identity key s;
      let host := default worker_url (worker_host worker_url) in
      let '(ranks, hs, s) := spawn_sources host instance_id adr (Prelude.iter srcs) s in
      let s := s <| workers ::= <[worker_url := MkSubs key instance_id ranks adr hs]> |> in
      Some (MkKvInfo instance_id (Some bs) ranks (Some key), s)
  | _, _, _ => Some (MkKvInfo instance_id block_size [] None, s)
  end.

(** The whole call: [on_worker_removed] does nothing for a worker that is not tracked. *)
Definition on_worker_added (worker_url : string) (discovery : WorkerDiscovery) (s : KvIndexSupervisor) : option (WorkerKvInfo * KvIndexSupervisor) :=
  s ← on_worker_removed worker_url s; track_worker worker_url discovery s.

(** ** Calls *)

(** A subscriber task feeds its index until it ends. *)
Definition ingest (h : nat) (o : ix_op) (s : KvIndexSupervisor) : option KvIndexSupervisor :=
  match running s !! h with
  | Some (_, adr) => ix ← index_heap s !! adr; ix ← ix_step o ix; Some (s <| index_heap ::= <[adr := ix]> |>)
  | None => Some s
  end.

Inductive call :=
| Added (worker_url : string) (discovery : WorkerDiscovery)
| Removed (worker_url : string)
| Shutdown
| Ingest (handle : nat) (o : ix_op)
| Exit (handle : nat).

Definition perform (c : call) (s : KvIndexSupervisor) : option KvIndexSupervisor :=
  match c with
  | Added url d => snd <$> on_worker_added url d s
  | Removed url => on_worker_removed url s
  | Shutdown => Some (shutdown s)
  | Ingest h o => ingest h o s
  | Exit h => Some (s <| running ::= delete h |>)
  end.
End supervisor.

(** ** Endpoints ([endpoints.rs]) *)

Section endpoints.
Context `{UrlLib}.

(** [Ipv6Addr::to_ipv4_mapped] *)
Definition to_ipv4_mapped (bits : N) : option N := if (bits / 2 ^ 32 =? 65535)%N then Some (bits mod 2 ^ 32)%N else None.

Definition unspecified : result string string := Err "KV connect host cannot be unspecified".

Definition display_host (u : Url) : result string string :=
  match host_str u with
  | None => Err "missing endpoint host"
  | Some h =>
      match host_parse h with
      | Err e => Err ("invalid endpoint host: " +:+ e)
      | Ok host =>
          match (match host with Ipv6 a => from_option Ipv4 (Ipv6 a) (to_ipv4_mapped a) | host => host end) with
          | Ipv6 a => if (a =? 0)%N then unspecified else Ok ("[" +:+ print_ipv6 a +:+ "]")
          | Ipv4 a => if (a =? 0)%N then unspecified else Ok (print_ipv4 a)
          | Domain d => if bool_decide (d = "*") then Err "KV connect host cannot be a wildcard" else Ok (to_ascii_lowercase d)
          end
      end
  end.

(** No credentials, query, fragment or path. *)
Definition plain (u : Url) : bool :=
  bool_decide (is_Some (host_str u)) && bool_decide (username u = "") && bool_decide (password u = None) && bool_decide (query u = None) &&
  bool_decide (fragment u = None) && (bool_decide (path u = "") || bool_decide (path u = "/")).

Definition canonical_worker (value : string) : result (string * string) string :=
  match url_parse value with
  | Err e => Err ("invalid worker URL: " +:+ e)
  | Ok u =>
      if negb ((bool_decide (scheme u = "http") || bool_decide (scheme u = "https")) && plain u)
      then Err "KV workers must be plain HTTP(S) origins without credentials or paths"
      else if bool_decide (url_port u = Some 0%N) then Err "KV worker port must be nonzero"
      else match display_host u with Ok host => Ok (trim_end "/" (printed u), host) | Err e => Err e end
  end.

Definition canonical_endpoint (value : string) : result string string :=
  match url_parse value with
  | Err e => Err ("invalid KV endpoint: " +:+ e)
  | Ok u =>
      match url_port u with
      | Some port =>
          if negb (bool_decide (scheme u = "tcp") && negb (port =? 0)%N && plain u)
          then Err "KV endpoint must be tcp://HOST:PORT without credentials or paths"
          else match display_host u with Ok host => Ok ("tcp://" +:+ host +:+ ":" +:+ pretty port) | Err e => Err e end
      | None => Err "KV endpoint must be tcp://HOST:PORT without credentials or paths"
      end
  end.

Definition parse_endpoint_mapping (value : string) : result (string * string) string :=
  match split_once "=" value with
  | None => Err "KV endpoint mapping must be WORKER_HTTP_URL=tcp://HOST:PORT; for example: http://worker:8000=tcp://publisher:5557"
  | Some (worker, ep) =>
      match canonical_worker worker with
      | Err e => Err e
      | Ok (worker, _) => match canonical_endpoint ep with Ok ep => Ok (worker, ep) | Err e => Err e end
      end
  end.

Fixpoint read_overrides (mappings : list (string * string)) (m : gmap string string) : result (gmap string string) string :=
  match mappings with
  | [] => Ok m
  | (worker, ep) :: mappings =>
      match canonical_worker worker with
      | Err e => Err e
      | Ok (worker, _) =>
          match canonical_endpoint ep with
          | Err e => Err e
          | Ok ep =>
              if bool_decide (is_Some (m !! worker)) then Err ("duplicate KV endpoint mapping for " +:+ worker)
              else read_overrides mappings (<[worker := ep]> m)
          end
      end
  end.

(** What is resolved so far, and the overrides that are unused. *)
Fixpoint resolve_workers (fallback_port : N) (urls : list string) (overrides : gmap string string) (workers_seen endpoints_seen : gset string)
  : result (list (string * string) * gmap string string) string :=
  match urls with
  | [] => Ok ([], overrides)
  | worker :: urls =>
      match canonical_worker worker with
      | Err e => Err e
      | Ok (canonical, host) =>
          if bool_decide (canonical ∈ workers_seen) then Err ("duplicate static worker URL: " +:+ canonical) else
          match (match overrides !! canonical with
                 | Some ep => Ok ep
                 | None => canonical_endpoint ("tcp://" +:+ host +:+ ":" +:+ pretty fallback_port)
                 end) with
          | Err e => Err e
          | Ok ep =>
              if bool_decide (ep ∈ endpoints_seen)
              then Err ("workers cannot share KV endpoint " +:+ ep +:+ "; configure explicit per-worker endpoints")
              else match resolve_workers fallback_port urls (delete canonical overrides) ({[canonical]} ∪ workers_seen) ({[ep]} ∪ endpoints_seen) with
              | Ok (resolved, unused) => Ok ((worker, ep) :: resolved, unused)
              | Err e => Err e
              end
          end
      end
  end.

Definition resolve_endpoints (worker_urls : list string) (mappings : list (string * string)) (fallback_port : N) : result (list (string * string)) string :=
  if (fallback_port =? 0)%N || bool_decide (worker_urls = []) then Err "KV events require static workers and a nonzero fallback port" else
  match read_overrides mappings ∅ with
  | Err e => Err e
  | Ok overrides =>
      match resolve_workers fallback_port worker_urls overrides ∅ ∅ with
      | Err e => Err e
      | Ok (resolved, unused) =>
          match btree_iter (dom unused) with
          | unknown :: _ => Err ("KV endpoint mapping refers to an unconfigured worker: " +:+ unknown)
          | [] => Ok resolved
          end
      end
  end.
End endpoints.

(** ** Specification *)

(** The identities the tracked workers hold, one per worker. *)
Definition held (s : KvIndexSupervisor) : list CacheKey := (fun w => subs_key w.2) <$> map_to_list (workers s).

Definition count (key : CacheKey) (keys : list CacheKey) : N := N.of_nat (length (filter (fun k => k = key) keys)).

(** Counts and indexes of the identities, for the holders [keys]. *)
Record identities_ok (keys : list CacheKey) (s : KvIndexSupervisor) : Prop := {
  refs_ok : forall key, identity_refs s !! key = keep_if (0 <? count key keys)%N (count key keys);
  indexed : forall key, is_Some (indexers s !! key) <-> key ∈ keys;
  one_key : forall k1 k2 a, indexers s !! k1 = Some a -> indexers s !! k2 = Some a -> k1 = k2;
  allocated : forall key a, indexers s !! key = Some a -> a < next_index s;
}.

Record heap_ok (s : KvIndexSupervisor) : Prop := {
  heap_full : forall a, is_Some (index_heap s !! a) <-> a < next_index s;
  heap_impl : forall a ix, index_heap s !! a = Some ix -> exists abs, ix_implements ix abs;
}.

Definition shares (s : KvIndexSupervisor) : Prop := forall url w, workers s !! url = Some w -> indexers s !! subs_key w = Some (indexer w).

(** A task that was not told to stop is one of a tracked worker. *)
Record task_of (w : WorkerSubs) (h : nat) (ev : EventSource) (a : nat) : Prop := {
  its_handle : h ∈ handles w;
  its_index : indexer w = a;
  its_source : source ev = source_id w;
  its_rank : source_rank ev ∈ subs_ranks w;
}.

Definition tasks_ok (s : KvIndexSupervisor) : Prop := forall h ev a, running s !! h = Some (ev, a) ->
  h < next_handle s /\ a < next_index s /\ (h ∉ stopping s -> exists url w, workers s !! url = Some w /\ task_of w h ev a).

Record sup_ok (s : KvIndexSupervisor) : Prop := {
  ok_identities : identities_ok (held s) s;
  ok_heap : heap_ok s;
  ok_shares : shares s;
  ok_tasks : tasks_ok s;
}.

(** What a removed worker leaves: the claims of others. *)
Definition claim_of (w : WorkerSubs) (o : ResidencyOwner) : Prop :=
  match o with Worker src rank _ => src = source_id w /\ rank ∈ subs_ranks w | CacheOwner _ _ _ => False end.

Section reach.
Context `{UrlLib, HashOrder}.

(** A task's events keep the contract of the index it feeds. *)
Definition call_ok (c : call) (s : KvIndexSupervisor) : Prop :=
  match c with
  | Ingest h o => forall ev a ix abs, running s !! h = Some (ev, a) -> index_heap s !! a = Some ix -> ix_implements ix abs -> ix_contract o abs
  | _ => True
  end.

Inductive reachable : KvIndexSupervisor -> Prop :=
| reach_new mode : reachable (new_supervisor mode)
| reach_call c s s' : reachable s -> call_ok c s -> perform c s = Some s' -> reachable s'.
End reach.

(** ** Identities *)

Lemma count_cons key k keys : count key (k :: keys) = ((if decide (k = key) then 1 else 0) + count key keys)%N.
Proof. unfold count. rewrite filter_cons. destruct (decide (k = key)); simpl length; lia. Qed.

Lemma count_perm key keys keys' : keys ≡ₚ keys' -> count key keys = count key keys'.
Proof. intros E. unfold count. by rewrite E. Qed.

Lemma count_pos key keys : (0 < count key keys)%N <-> key ∈ keys.
Proof.
  induction keys as [|k keys IH]; [split; [unfold count; simpl; lia|by intros ?%elem_of_nil]|].
  rewrite count_cons, elem_of_cons, <- IH. destruct (decide (k = key)); [split; [by left|lia]|].
  split; [right; lia|intros [->|]; [done|lia]].
Qed.

Lemma refs_count keys s key : identities_ok keys s -> default 0%N (identity_refs s !! key) = count key keys.
Proof. intros Hok. rewrite (refs_ok _ _ Hok). unfold keep_if. destruct (N.ltb_spec 0 (count key keys)); simpl; lia. Qed.

Lemma identities_perm keys keys' s : keys ≡ₚ keys' -> identities_ok keys s -> identities_ok keys' s.
Proof.
  intros E []. split; [|intros key; by rewrite <- E|done|done].
  intros key. by rewrite <- (count_perm key keys keys') by done.
Qed.

(** Acquiring an identity adds a holder. *)
Lemma acquire_identity_ok keys key s : identities_ok keys s -> heap_ok s -> exists a s', acquire_identity key s = Some (a, s') /\
  identities_ok (key :: keys) s' /\ heap_ok s' /\ indexers s' !! key = Some a /\ next_index s <= next_index s' /\
  (forall k, k ∈ keys -> indexers s' !! k = indexers s !! k) /\
  workers s' = workers s /\ running s' = running s /\ stopping s' = stopping s /\ next_handle s' = next_handle s.
Proof.
  intros Hid Hh. unfold acquire_identity, acquire_count. rewrite (refs_count _ _ key Hid).
  assert (Hrefs : forall k, <[key := (count key keys + 1)%N]> (identity_refs s) !! k = keep_if (0 <? count k (key :: keys))%N (count k (key :: keys))).
  { intros k. rewrite count_cons. destruct (decide (key = k)) as [<-|Hne].
    - rewrite lookup_insert_eq. rewrite (proj2 (N.ltb_lt _ _)) by lia. simpl. f_equal. lia.
    - rewrite lookup_insert_ne by done. rewrite N.add_0_l. apply (refs_ok _ _ Hid). }
  destruct (N.eqb_spec (count key keys) 0) as [E|E].
  - assert (key ∉ keys) by (rewrite <- count_pos; lia).
    unfold acquire_get. simpl. rewrite lookup_insert_eq. simpl.
    eexists _, _. split; [done|]. split_and!; try done; simpl; [| |by rewrite lookup_insert_eq|lia|].
    + split; simpl; [exact Hrefs| | |].
      * intros k. rewrite elem_of_cons. destruct (decide (key = k)) as [<-|]; [rewrite lookup_insert_eq; naive_solver|].
        rewrite lookup_insert_ne by done. rewrite (indexed _ _ Hid). naive_solver.
      * intros k1 k2 a. pose proof (allocated _ _ Hid) as Ha. pose proof (one_key _ _ Hid) as Hk. rewrite !lookup_insert_Some.
        intros [[<- <-]|[? E1]] [[<- E2]|[? E2]]; [done| | |by eapply Hk].
        -- specialize (Ha _ _ E2). lia.
        -- subst a. specialize (Ha _ _ E1). lia.
      * intros k a. rewrite lookup_insert_Some. intros [[_ <-]|[_ E1]]; [lia|]. pose proof (allocated _ _ Hid _ _ E1). lia.
    + destruct Hh as [Hf Hi]. split; simpl.
      * intros a. destruct (decide (next_index s = a)) as [<-|]; [rewrite lookup_insert_eq; split; [lia|by eexists]|].
        rewrite lookup_insert_ne, Hf by done. lia.
      * intros a ix. rewrite lookup_insert_Some. intros [[_ <-]|[_ ?]]; [exists empty_ix_abs; apply new_indexer_ok|eauto].
    + intros k Hk. apply lookup_insert_ne. by intros ->.
  - assert (Hin : key ∈ keys) by (rewrite <- count_pos; lia). apply (indexed _ _ Hid) in Hin as Hin'. destruct Hin' as [a Ha].
    unfold acquire_get. simpl. rewrite Ha. simpl.
    eexists _, _. split; [done|]. split_and!; try done; [|by destruct Hh].
    split; simpl; [exact Hrefs| |apply (one_key _ _ Hid)|apply (allocated _ _ Hid)].
    intros k. rewrite (indexed _ _ Hid), elem_of_cons. naive_solver.
Qed.

(** Releasing takes one away; the last takes the index. *)
Lemma release_identity_ok keys rest key s : identities_ok keys s -> keys ≡ₚ key :: rest -> heap_ok s ->
  exists s', release_identity key s = s' /\ identities_ok rest s' /\ heap_ok s' /\ (forall k, k ∈ rest -> indexers s' !! k = indexers s !! k) /\
  workers s' = workers s /\ running s' = running s /\ stopping s' = stopping s /\ next_handle s' = next_handle s /\
  next_index s' = next_index s /\ index_heap s' = index_heap s.
Proof.
  intros Hid E Hh. apply (identities_perm _ _ _ E) in Hid.
  assert (Hrest : forall k, key <> k -> identity_refs s !! k = keep_if (0 <? count k rest)%N (count k rest)).
  { intros k Hk. rewrite (refs_ok _ _ Hid), count_cons, decide_False by done. by rewrite N.add_0_l. }
  unfold release_identity, release_count. rewrite (refs_ok _ _ Hid), count_cons, decide_True by done.
  rewrite (proj2 (N.ltb_lt _ _)) by lia. unfold keep_if at 1. unfold saturating_sub.
  replace (1 + count key rest - 1)%N with (count key rest) by lia.
  destruct (N.eqb_spec (count key rest) 0) as [E0|E0].
  - assert (Hno : key ∉ rest) by (rewrite <- count_pos; lia).
    eexists. split; [done|]. unfold release_drop. split_and!; try done; simpl; [|by destruct Hh|].
    + split; simpl.
      * intros k. destruct (decide (key = k)) as [<-|]; [rewrite lookup_delete_eq, E0; done|]. rewrite lookup_delete_ne by done. auto.
      * intros k. destruct (decide (key = k)) as [<-|]; [rewrite lookup_delete_eq; split; [by intros []|done]|].
        rewrite lookup_delete_ne, (indexed _ _ Hid), elem_of_cons by done. naive_solver.
      * intros k1 k2 a [_ E1]%lookup_delete_Some [_ E2]%lookup_delete_Some. by eapply (one_key _ _ Hid).
      * intros k a [_ E1]%lookup_delete_Some. by eapply (allocated _ _ Hid).
    + intros k Hk. apply lookup_delete_ne. by intros ->.
  - assert (Hin : key ∈ rest) by (rewrite <- count_pos; lia).
    eexists. split; [done|]. split_and!; try done; simpl; [|by destruct Hh].
    split; simpl; [|intros k; rewrite (indexed _ _ Hid), elem_of_cons; naive_solver|apply (one_key _ _ Hid)|apply (allocated _ _ Hid)].
    intros k. destruct (decide (key = k)) as [<-|]; [|rewrite lookup_insert_ne by done; auto].
    rewrite lookup_insert_eq, (proj2 (N.ltb_lt _ _)) by lia. done.
Qed.

(** ** Workers *)

Lemma held_delete url w s : workers s !! url = Some w -> held s ≡ₚ subs_key w :: ((fun w => subs_key w.2) <$> map_to_list (delete url (workers s))).
Proof. intros E. unfold held. by rewrite <- (map_to_list_delete _ _ _ E). Qed.

Lemma held_insert url w (m : gmap string WorkerSubs) : m !! url = None ->
  (fun w => subs_key w.2) <$> map_to_list (<[url := w]> m) ≡ₚ subs_key w :: ((fun w => subs_key w.2) <$> map_to_list m).
Proof. intros E. by rewrite (map_to_list_insert _ _ _ E). Qed.

Lemma elem_of_held url w (m : gmap string WorkerSubs) : m !! url = Some w -> subs_key w ∈ (fun w => subs_key w.2) <$> map_to_list m.
Proof. intros E. apply list_elem_of_fmap. exists (url, w). split; [done|]. by apply elem_of_map_to_list. Qed.

Lemma clears_ok l a : ix_trace_ok ((fun '(o, sc) => IxClear o sc) <$> l) a.
Proof. revert a. induction l as [|[o sc] l IH]; intros a; [done|]. split; [done|apply IH]. Qed.

Definition clear_calls (w : WorkerSubs) : list ix_op := (fun rank => IxClear (Worker (source_id w) rank 0) ScopeWorker) <$> subs_ranks w.

Lemma clear_calls_ok w ix abs : ix_implements ix abs ->
  exists ix', foldM ix_step (clear_calls w) ix = Some ix' /\ ix_implements ix' (ix_abs_run (clear_calls w) abs).
Proof.
  intros Hi. apply ix_run_ok; [done|]. unfold clear_calls.
  generalize (clears_ok ((fun rank => (Worker (source_id w) rank 0, ScopeWorker)) <$> subs_ranks w) abs). by rewrite <- list_fmap_compose.
Qed.

Lemma worker_index url w s : sup_ok s -> workers s !! url = Some w ->
  exists ix abs, index_heap s !! indexer w = Some ix /\ ix_implements ix abs /\ indexer w < next_index s.
Proof.
  intros Hok Hw. pose proof (allocated _ _ (ok_identities _ Hok) _ _ (ok_shares _ Hok _ _ Hw)) as Ha.
  destruct (proj2 (heap_full _ (ok_heap _ Hok) _) Ha) as [ix Hix].
  destruct (heap_impl _ (ok_heap _ Hok) _ _ Hix) as [abs Habs]. eauto.
Qed.

Lemma heap_update a ix abs s : heap_ok s -> a < next_index s -> ix_implements ix abs ->
  heap_ok (s <| index_heap ::= <[a := ix]> |>).
Proof.
  intros [Hf Hi] Ha Habs. split; simpl.
  - intros b. destruct (decide (a = b)) as [<-|]; [by rewrite lookup_insert_eq|]. by rewrite lookup_insert_ne, Hf.
  - intros b ix'. rewrite lookup_insert_Some. intros [[_ <-]|[_ ?]]; eauto.
Qed.

(** Removing a tracked worker: its tasks are told to stop, its ranks are cleared, and
    its identity is released. *)
Lemma removed_ok url w s : sup_ok s -> workers s !! url = Some w -> exists s' ix ix', on_worker_removed url s = Some s' /\ sup_ok s' /\
  workers s' = delete url (workers s) /\ stopping s' = list_to_set (handles w) ∪ stopping s /\ running s' = running s /\
  index_heap s !! indexer w = Some ix /\ foldM ix_step (clear_calls w) ix = Some ix' /\ index_heap s' = <[indexer w := ix']> (index_heap s).
Proof.
  intros Hok Hw. destruct (worker_index _ _ _ Hok Hw) as (ix & abs & Hix & Habs & Hlt).
  destruct (clear_calls_ok w ix abs Habs) as (ix' & Hcl & Habs').
  unfold on_worker_removed. rewrite Hw. unfold clear_ranks. change (index_heap (stop _ _)) with (index_heap s). rewrite Hix.
  cbn [mbind option_bind]. fold (clear_calls w). rewrite Hcl. cbn [mbind option_bind].
  set (s1 := stop (handles w) (s <| workers ::= delete url |>) <| index_heap ::= <[indexer w := ix']> |>).
  assert (Hid : identities_ok (held s) s1) by (by destruct (ok_identities _ Hok)).
  assert (Hh : heap_ok s1).
  { change (heap_ok ((stop (handles w) (s <| workers ::= delete url |>)) <| index_heap ::= <[indexer w := ix']> |>)).
    eapply heap_update; [|done|done]. by destruct (ok_heap _ Hok). }
  destruct (release_identity_ok _ _ (subs_key w) s1 Hid (held_delete _ _ _ Hw) Hh) as (s' & Hs' & Hid' & Hh' & Hkeep & Ew & Er & Es & En & Ei & Eh).
  exists s', ix, ix'. split_and!; [by rewrite <- Hs'| |by rewrite Ew|by rewrite Es|by rewrite Er|done|done|by rewrite Eh].
  split; [by unfold held; rewrite Ew|done| |].
  - intros u v. rewrite Ew. intros Hv. change (delete url (workers s) !! u = Some v) in Hv. pose proof (elem_of_held _ _ _ Hv) as Hin. apply lookup_delete_Some in Hv as [_ Hv].
    rewrite Hkeep by done. apply (ok_shares _ Hok _ _ Hv).
  - intros h ev a. rewrite Er, Es, En, Ei, Ew. intros Hr. destruct (ok_tasks _ Hok _ _ _ Hr) as (? & ? & Htask).
    split_and!; [done|done|]. cbn. intros [Hh1 Hh2]%not_elem_of_union. rewrite elem_of_list_to_set in Hh1.
    destruct (Htask Hh2) as (u & v & Hv & Hv'). exists u, v. split; [|done].
    rewrite lookup_delete_Some. split; [|done]. intros ->. simplify_eq. by destruct Hv'.
Qed.

Lemma removed_total url s : sup_ok s -> exists s', on_worker_removed url s = Some s' /\ sup_ok s' /\ workers s' = delete url (workers s).
Proof.
  intros Hok. destruct (workers s !! url) as [w|] eqn:Hw.
  - destruct (removed_ok _ _ _ Hok Hw) as (s' & ? & ? & ? & ? & ? & _). eauto.
  - exists s. unfold on_worker_removed. rewrite Hw, delete_id by done. done.
Qed.

Lemma release_all ks s : identities_ok ks s -> heap_ok s -> exists s', foldl (fun s k => release_identity k s) s ks = s' /\
  identities_ok [] s' /\ heap_ok s' /\ workers s' = workers s /\ running s' = running s /\ stopping s' = stopping s /\
  next_handle s' = next_handle s /\ next_index s' = next_index s.
Proof.
  revert s. induction ks as [|k ks IH]; intros s Hid Hh; [by exists s|].
  destruct (release_identity_ok _ ks k s Hid (Permutation_refl _) Hh) as (s1 & E & Hid1 & Hh1 & _ & E1 & E2 & E3 & E4 & E5 & _).
  simpl. rewrite E. destruct (IH s1 Hid1 Hh1) as (s' & E' & ? & ? & E1' & E2' & E3' & E4' & E5').
  exists s'. split_and!; [done|done|done|congruence..].
Qed.

Section calls.
Context `{UrlLib, HashOrder}.

Lemma shutdown_ok s : sup_ok s -> sup_ok (shutdown s) /\ workers (shutdown s) = ∅ /\ indexers (shutdown s) = ∅.
Proof.
  intros Hok. unfold shutdown. set (subs := snd <$> Prelude.iter (workers s)).
  set (s1 := stop (subs ≫= handles) (s <| workers := ∅ |>)).
  assert (Hk : held s ≡ₚ subs_key <$> subs).
  { unfold held, subs. rewrite <- list_fmap_compose, <- (iter_perm (workers s)). done. }
  assert (Hid : identities_ok (subs_key <$> subs) s1).
  { eapply identities_perm; [exact Hk|]. by destruct (ok_identities _ Hok). }
  assert (Hh : heap_ok s1) by (by destruct (ok_heap _ Hok)).
  destruct (release_all _ _ Hid Hh) as (s' & E & Hid' & Hh' & Ew & Er & Es & En & Ei).
  assert (foldl (fun s x => release_identity (subs_key x) s) s1 subs = s') as -> by (by rewrite <- E, foldl_fmap).
  split_and!; [|by rewrite Ew|apply map_empty; intros k; apply eq_None_not_Some; rewrite (indexed _ _ Hid'); apply not_elem_of_nil].
  split; [by unfold held; rewrite Ew|done|by intros u w; rewrite Ew|].
  intros h ev a. rewrite Er, Es, En, Ei, Ew. intros Hr. destruct (ok_tasks _ Hok _ _ _ Hr) as (? & ? & Htask).
  split_and!; [done|done|]. cbn. intros [Hn1 Hn2]%not_elem_of_union. exfalso. rewrite elem_of_list_to_set in Hn1.
  destruct (Htask Hn2) as (u & w & Hw & Hw'). apply Hn1, list_elem_of_bind. exists w. split; [apply Hw'|].
  apply list_elem_of_fmap. exists (u, w). split; [done|]. by apply elem_of_iter.
Qed.

Lemma ingest_ok h o s : sup_ok s -> call_ok (Ingest h o) s -> exists s', ingest h o s = Some s' /\ sup_ok s'.
Proof.
  intros Hok Hc. unfold ingest. destruct (running s !! h) as [[ev a]|] eqn:Hr; [|by exists s].
  destruct (ok_tasks _ Hok _ _ _ Hr) as (_ & Ha & _). destruct (proj2 (heap_full _ (ok_heap _ Hok) _) Ha) as [ix Hix].
  destruct (heap_impl _ (ok_heap _ Hok) _ _ Hix) as [abs Habs].
  destruct (ix_step_ok o ix abs Habs (Hc _ _ _ _ Hr Hix Habs)) as (ix' & E & Habs').
  rewrite Hix. cbn [mbind option_bind]. rewrite E. cbn [mbind option_bind]. eexists. split; [done|].
  pose proof (heap_update _ _ _ _ (ok_heap _ Hok) Ha Habs'). destruct Hok as [[] _ ? ?]. by split.
Qed.

(** What [spawn_sources] adds: tasks that feed [adr] for the ranks it lists. *)
Lemma spawned host src adr entries s : exists ranks hs n m, spawn_sources host src adr entries s = (ranks, hs, s <| running := m |> <| next_handle := n |>) /\
  next_handle s <= n /\ (forall h ev a, m !! h = Some (ev, a) -> running s !! h = Some (ev, a) \/
    (h < n /\ a = adr /\ h ∈ hs /\ source ev = src /\ source_rank ev ∈ ranks)).
Proof.
  unfold spawn_sources. induction entries as [|[r e] entries IH] using rev_ind.
  { exists [], [], (next_handle s), (running s). split; [by destruct s|]. split; [done|auto]. }
  destruct IH as (ranks & hs & n & m & E & Hn & Hm). rewrite foldl_app, E. simpl foldl.
  destruct (negb (events_enabled e)); [by exists ranks, hs, n, m|].
  destruct (parse_u32 r) as [rank|]; [|by exists ranks, hs, n, m].
  set (ev0 := MkSource _ _ _ _ _ _). exists (ranks ++ [rank])%list, (hs ++ [n])%list, (S n), (<[n := (ev0, adr)]> m).
  split; [done|]. split; [lia|]. intros h ev a.
  rewrite lookup_insert_Some. intros [[<- [= <- <-]]|[_ Hh]].
  - right. simpl. rewrite !elem_of_app, !list_elem_of_singleton. split_and!; [lia|done|by right|done|by right].
  - destruct (Hm _ _ _ Hh) as [|(? & ? & ? & ? & ?)]; [by left|]. right. rewrite !elem_of_app. split_and!; [lia|done|by left|done|by left].
Qed.

(** Adding a worker always goes through; an answer that lacks a part leaves the worker
    untracked. *)
Lemma added_ok url d s : sup_ok s -> exists info s', on_worker_added url d s = Some (info, s') /\ sup_ok s'.
Proof.
  intros Hok. unfold on_worker_added, track_worker. destruct (removed_total url s Hok) as (s1 & -> & Hok1 & Ew1). cbn [mbind option_bind].
  set (i := match server_info d with Ok i => i | Err _ => _ end).
  assert (Hok2 : sup_ok (check_block_size (discovered_block_size i) s1)).
  { unfold check_block_size. destruct (discovered_block_size i), (first_block_size s1); try done. by destruct Hok1 as [[] [] ? ?]. }
  assert (Hno : workers (check_block_size (discovered_block_size i) s1) !! url = None).
  { unfold check_block_size. destruct (discovered_block_size i), (first_block_size s1); cbn; rewrite Ew1; apply lookup_delete_eq. }
  revert Hok2 Hno. generalize (check_block_size (discovered_block_size i) s1). clear s s1 Hok Hok1 Ew1. intros s Hok Hno.
  destruct (sources d) as [srcs|]; [|eauto]. destruct (discovered_block_size i) as [bs|]; [|eauto].
  match goal with |- context [match ?m with Some _ => _ | None => _ end] => destruct m as [model|]; [|eauto] end.
  set (key := MkCacheKey model (hash_mode s) bs).
  destruct (acquire_identity_ok _ key s (ok_identities _ Hok) (ok_heap _ Hok)) as (adr & s1 & -> & Hid & Hh & Hadr & Hle & Hkeep & Ew & Er & Es & En).
  cbn [mbind option_bind].
  destruct (spawned (default url (worker_host url)) (default url (keep (fun s => negb (bool_decide (s = ""))) (server_instance_id i))) adr (Prelude.iter srcs) s1)
    as (ranks & hs & n & m & -> & Hn & Hm).
  eexists _, _. split; [done|]. split; simpl.
  - unfold held. cbn. rewrite Ew. eapply identities_perm; [symmetry; by apply held_insert|]. by destruct Hid.
  - by destruct Hh.
  - intros u w. cbn. rewrite Ew. intros [[<- <-]|[_ Hw]]%lookup_insert_Some; [done|].
    rewrite Hkeep by (by eapply elem_of_held). apply (ok_shares _ Hok _ _ Hw).
  - intros h ev a. cbn. rewrite Es, Ew. intros Hr. destruct (Hm _ _ _ Hr) as [Hold|(? & -> & ? & ? & ?)].
    + rewrite Er in Hold. destruct (ok_tasks _ Hok _ _ _ Hold) as (? & ? & Htask). rewrite En in Hn. split_and!; [lia|lia|].
      intros Hs. destruct (Htask Hs) as (u & w & Hw & ?). exists u, w. split; [|done]. apply lookup_insert_Some. right.
      split; [|done]. by intros ->; rewrite Hno in Hw.
    + split_and!; [done|by eapply (allocated _ _ Hid)|]. intros _. eexists url, _. split; [by apply lookup_insert_eq|]. done.
Qed.

Lemma sup_perform_ok c s : sup_ok s -> call_ok c s -> exists s', perform c s = Some s' /\ sup_ok s'.
Proof.
  intros Hok Hc. destruct c as [url d|url| |h o|h]; simpl.
  - destruct (added_ok url d s Hok) as (info & s' & -> & ?). by exists s'.
  - destruct (removed_total url s Hok) as (s' & ? & ? & _). by exists s'.
  - eexists. split; [done|]. by apply shutdown_ok.
  - by apply ingest_ok.
  - eexists. split; [done|]. destruct Hok as [[] [] ? Ht]. split; [done..|]. intros h' ev a. cbn. intros [_ Hr]%lookup_delete_Some. by apply Ht.
Qed.

Lemma sup_reachable_ok s : reachable s -> sup_ok s.
Proof.
  induction 1 as [mode|c s s' _ IH Hc E].
  - split; [split|split|intros ? ?|intros ? ? ?]; cbn; [..|by rewrite lookup_empty|by rewrite lookup_empty].
    + done.
    + intros key. rewrite lookup_empty. split; [by intros []|by intros ?%elem_of_nil].
    + intros ? ? ?. by rewrite lookup_empty.
    + intros ? ?. by rewrite lookup_empty.
    + intros a. rewrite lookup_empty. split; [by intros []|lia].
    + intros ? ?. by rewrite lookup_empty.
  - destruct (sup_perform_ok c s IH Hc) as (s1 & E1 & ?). by simplify_eq.
Qed.
End calls.

(** What the clears of a removal leave of an index. *)
Lemma cleared_active w abs g claim : claim ∈ active (group_abs (ix_abs_run (clear_calls w) abs) g) <->
  claim ∈ active (group_abs abs g) /\ ~ claim_of w claim.1.1.
Proof.
  unfold clear_calls, claim_of. destruct claim as [[o tier] seq]. generalize (subs_ranks w) as rs. intros rs. revert abs. induction rs as [|r rs IH]; intros abs.
  { simpl. destruct o; [|tauto]. rewrite elem_of_nil. tauto. }
  change (ix_abs_run _ abs) with (ix_abs_run ((fun rank => IxClear (Worker (source_id w) rank 0) ScopeWorker) <$> rs) (ix_abs_step (IxClear (Worker (source_id w) r 0) ScopeWorker) abs)).
  rewrite IH. simpl. rewrite elem_of_filter. unfold in_clear. simpl.
  destruct o as [src rank inc|]; simpl; [|rewrite ?andb_false_r; tauto].
  rewrite elem_of_cons. destruct (bool_decide_reflect (source_id w = src)), (bool_decide_reflect (r = rank)); simpl; naive_solver.
Qed.

(** ** Examples *)

(** URLs of the form [scheme://host:port]. *)
Definition parse_origin (value : string) : result Url string :=
  match split_once "://" value with
  | None => Err "relative URL without a base"
  | Some (scheme, rest) =>
      match split_once ":" rest with
      | None => Ok (MkUrl scheme (Some rest) "" None None None "" None value)
      | Some (host, port) =>
          match parse_uint 65535 port with
          | Some port => Ok (MkUrl scheme (Some host) "" None None None "" (Some port) value)
          | None => Err "invalid port number"
          end
      end
  end.

#[local] Instance origin_urls : UrlLib := {| url_parse := parse_origin; host_parse s := Ok (Domain s); print_ipv6 := pretty |}.

#[local] Instance sup_order : HashOrder := {| key_order _ _ _ s := elements s; key_order_perm _ _ _ s := Permutation_refl _ |}.

Definition sup_answer (instance : string) : WorkerDiscovery :=
  discover_grpc (Ok (MkGrpcServer instance 16 None)) (Ok "model") (Ok [MkGrpcSource (Some 0%N) "tcp://*:5557" "" "kv" 1000 64 "zmq" "msgpack" 1]).

Definition sup_calls : list call := [
  Added "grpc://a:8000" (sup_answer "a"); Added "grpc://b:8000" (sup_answer "b"); Ingest 0 (IxSuspend "a" 0);
  Added "grpc://a:8000" (sup_answer "a2"); Ingest 0 (IxResume "a" 0); Exit 0].

Definition sup_state : KvIndexSupervisor := default (new_supervisor Sha256) (foldM perform sup_calls (new_supervisor Sha256)).

Lemma sup_run_reachable `{UrlLib, HashOrder} cs s s' : reachable s ->
  Forall (fun c => match c with Ingest _ (IxStore _ _ _ _ _) => False | _ => True end) cs -> foldM perform cs s = Some s' -> reachable s'.
Proof.
  intros Hr Hcs. revert s Hr. induction Hcs as [|c cs Hc _ IH]; intros s Hr; simpl; [by intros [= <-]|].
  destruct (perform c s) as [s1|] eqn:E; [|done]. simpl. apply IH. eapply reach_call; [done| |done].
  destruct c as [| | |h o|]; try done. by destruct o.
Qed.

Lemma sup_state_reachable : reachable sup_state.
Proof. apply (sup_run_reachable sup_calls (new_supervisor Sha256)); [apply reach_new|by repeat constructor|vm_compute; reflexivity]. Qed.

(** C35: Removing a worker tells its tasks to stop and takes its own claims out of its
    index, and nothing else: the claims of other workers, and those of cache pools,
    stay. *)
Theorem removal_clears `{UrlLib, HashOrder} s url w : reachable s -> workers s !! url = Some w ->
  exists s' ix ix', on_worker_removed url s = Some s' /\ workers s' = delete url (workers s) /\
    (forall h, h ∈ handles w -> h ∈ stopping s') /\
    index_heap s !! indexer w = Some ix /\ index_heap s' = <[indexer w := ix']> (index_heap s) /\
    forall abs, ix_implements ix abs -> exists abs', ix_implements ix' abs' /\
      forall g claim, claim ∈ active (group_abs abs' g) <-> claim ∈ active (group_abs abs g) /\ ~ claim_of w claim.1.1.
Proof.
  intros Hr%sup_reachable_ok Hw. destruct (removed_ok url w s Hr Hw) as (s' & ix & ix' & E & _ & Ew & Es & _ & Hix & Hcl & Eh).
  exists s', ix, ix'. split_and!; [done|done| |done|done|].
  - intros h Hh. rewrite Es, elem_of_union, elem_of_list_to_set. by left.
  - intros abs Habs. destruct (clear_calls_ok w ix abs Habs) as (ix'' & E' & Habs'). rewrite Hcl in E'. simplify_eq.
    eexists. split; [done|]. intros g claim. apply cleared_active.
Qed.

Lemma removal_clears_witness : exists w s', workers sup_state !! "grpc://b:8000" = Some w /\
  on_worker_removed "grpc://b:8000" sup_state = Some s' /\ forall h, h ∈ handles w -> h ∈ stopping s'.
Proof.
  eexists. destruct (removal_clears sup_state "grpc://b:8000" _ sup_state_reachable ltac:(vm_compute; reflexivity)) as (s' & _ & _ & E & _ & Hs & _).
  exists s'. split; [vm_compute; reflexivity|]. split; [exact E|exact Hs].
Defined.

(** An identity that is counted but has no index stays so, and acquiring it panics. *)
Lemma orphaned key s c n : identity_refs s !! key = Some c -> (0 < c)%N -> indexers s !! key = None ->
  acquire_identity key (Nat.iter n (acquire_count key) s) = None.
Proof.
  revert s c. induction n as [|n IH]; intros s c Hc Hpos Hno.
  - unfold acquire_identity, acquire_count. simpl. rewrite Hc. simpl. rewrite (proj2 (N.eqb_neq _ _)) by lia.
    unfold acquire_get. cbn. by rewrite Hno.
  - rewrite Nat.iter_succ_r. apply (IH _ (c + 1)%N); [|lia|]; unfold acquire_count; rewrite Hc; simpl; rewrite (proj2 (N.eqb_neq _ _)) by lia; cbn;
      [apply lookup_insert_eq|done].
Qed.

(** The index is dropped after the lock of the counts is given up.  When a worker of
    an identity is added between the two steps that remove its last worker, the new
    worker's call panics; the count stays, so every later worker of the identity
    panics too. *)
Theorem acquire_race_panics s key : identity_refs s !! key = Some 1%N ->
  let s2 := release_drop key (acquire_count key (release_count key s).2) in
  (release_count key s).1 = true /\ acquire_get key s2 = None /\ forall n, acquire_identity key (Nat.iter n (acquire_count key) s2) = None.
Proof.
  intros E. unfold release_count. rewrite E. cbn [saturating_sub]. change (1 - 1 =? 0)%N with true. cbn iota.
  assert (Hc : identity_refs (acquire_count key (s <| identity_refs ::= delete key |>)) !! key = Some 1%N).
  { unfold acquire_count. cbn. rewrite lookup_delete_eq. cbn. apply lookup_insert_eq. }
  split_and!; [done|by apply lookup_delete_eq|]. intros n. by apply (orphaned _ _ 1%N); [|lia|apply lookup_delete_eq].
Qed.

Lemma acquire_race_panics_witness :
  let key := MkCacheKey "model" Sha256 16 in
  let s := acquire_count key (new_supervisor Sha256) in
  identity_refs s !! key = Some 1%N /\ acquire_identity key (release_drop key (acquire_count key (release_count key s).2)) = None.
Proof.
  split; [vm_compute; reflexivity|].
  destruct (acquire_race_panics (acquire_count (MkCacheKey "model" Sha256 16) (new_supervisor Sha256)) (MkCacheKey "model" Sha256 16)
    ltac:(vm_compute; reflexivity)) as (_ & _ & Hn). exact (Hn 0).
Defined.

(** Two calls that add a worker, both waiting for its answer, count its identity
    twice; removing the worker then leaves an index that no worker has. *)
Example added_twice_leaks :
  match ('(_, s) ← track_worker "grpc://a:8000" (sup_answer "a") (new_supervisor Sha256);
         '(_, s) ← track_worker "grpc://a:8000" (sup_answer "a") s;
         on_worker_removed "grpc://a:8000" s) with
  | Some s => held s = [] /\ identity_refs s !! MkCacheKey "model" Sha256 16 = Some 1%N /\ is_Some (indexers s !! MkCacheKey "model" Sha256 16)
  | None => False
  end.
Proof. vm_compute. eauto. Qed.

(** ** Endpoints *)

Section resolved.
Context `{UrlLib}.

(** What a mapping says: the canonical worker and endpoint. *)
Definition mapping_says (m : string * string) (worker ep : string) : Prop :=
  (exists host, canonical_worker m.1 = Ok (worker, host)) /\ canonical_endpoint m.2 = Ok ep.

Lemma overrides_read mappings m0 m : read_overrides mappings m0 = Ok m ->
  (forall worker ep, m !! worker = Some ep <-> m0 !! worker = Some ep \/ exists x, x ∈ mappings /\ mapping_says x worker ep) /\
  Forall (fun x => exists worker ep, mapping_says x worker ep) mappings.
Proof.
  revert m0. induction mappings as [|[w e] mappings IH]; intros m0; simpl.
  { intros [= <-]. split; [|done]. intros worker ep. split; [by left|]. intros [?|(x & ?%elem_of_nil & _)]; done. }
  destruct (canonical_worker w) as [[worker host]|] eqn:Ew; [|done]. destruct (canonical_endpoint e) as [ep|] eqn:Ee; [|done].
  destruct (bool_decide_reflect (is_Some (m0 !! worker))) as [|Hno]; [done|]. apply eq_None_not_Some in Hno.
  intros [Hm Hall]%IH. assert (Hsays : mapping_says (w, e) worker ep) by (split; [by exists host|done]).
  split; [|constructor; [by exists worker, ep|done]].
  intros worker' ep'. rewrite Hm, lookup_insert_Some. split.
  - intros [[[<- <-]|[_ ?]]|(x & ? & ?)]; [right; exists (w, e); split; [left|done]|by left|right; exists x; split; [by right|done]].
  - intros [E|(x & [->|Hx]%elem_of_cons & Hx')]; [| |right; by exists x].
    + left. right. split; [|done]. intros ->. congruence.
    + left. left. destruct Hx' as [[h E1] E2]. simpl in *. split; congruence.
Qed.

(** What a resolved worker uses: its override or the endpoint of its own host. *)
Definition endpoint_of (port : N) (overrides : gmap string string) (worker : string) (ep : string) : Prop :=
  exists canonical host, canonical_worker worker = Ok (canonical, host) /\
    (overrides !! canonical = Some ep \/
     overrides !! canonical = None /\ canonical_endpoint ("tcp://" +:+ host +:+ ":" +:+ pretty port) = Ok ep).

Lemma workers_resolved port urls overrides ws es resolved unused : resolve_workers port urls overrides ws es = Ok (resolved, unused) ->
  resolved.*1 = urls /\ NoDup resolved.*2 /\ (forall ep, ep ∈ resolved.*2 -> ep ∉ es) /\
  (forall canonical, overrides !! canonical <> None -> unused !! canonical = None -> exists url host, url ∈ urls /\ canonical_worker url = Ok (canonical, host)) /\
  Forall (fun x => exists canonical host, canonical_worker x.1 = Ok (canonical, host) /\ canonical ∉ ws) resolved /\
  Forall (fun x => endpoint_of port overrides x.1 x.2) resolved.
Proof.
  revert overrides ws es resolved unused. induction urls as [|url urls IH]; intros overrides ws es resolved unused; simpl.
  { intros [= <- <-]. split_and!; [done|constructor|by intros ? ?%elem_of_nil|done|done|done]. }
  destruct (canonical_worker url) as [[canonical host]|] eqn:Ec; [|done].
  destruct (bool_decide_reflect (canonical ∈ ws)) as [|Hws]; [done|].
  destruct (match overrides !! canonical with Some ep => Ok ep | None => _ end) as [ep|] eqn:Eep; [|done].
  destruct (bool_decide_reflect (ep ∈ es)) as [|Hes]; [done|].
  destruct (resolve_workers _ _ _ _ _) as [[r u]|] eqn:Er; [|done]. intros [= <- <-].
  destruct (IH _ _ _ _ _ Er) as (E1 & Hnd & Hfresh & Hused & Hseen & Hep). csimpl.
  split_and!; [by rewrite E1| | | |constructor; [by exists canonical, host|]|constructor].
  - constructor; [|done]. intros Hin. by apply (Hfresh _ Hin), elem_of_union_l, elem_of_singleton.
  - intros ep' [->|Hin]%elem_of_cons; [done|]. intros Hin'. by apply (Hfresh _ Hin), elem_of_union_r.
  - intros c Hc Hu. destruct (decide (canonical = c)) as [<-|Hne]; [exists url, host; split; [left|done]|].
    destruct (Hused c) as (url' & host' & ? & ?); [by rewrite lookup_delete_ne|done|]. exists url', host'. split; [by right|done].
  - eapply Forall_impl; [exact Hseen|]. intros x (c & h & ? & [_ ?]%not_elem_of_union). by exists c, h.
  - exists canonical, host. split; [done|]. revert Eep. destruct (overrides !! canonical); [intros [= ->]; by left|by right].
  - apply Forall_forall. intros x Hx. rewrite Forall_forall in Hseen, Hep. destruct (Hseen x Hx) as (c & h & E & Hn), (Hep x Hx) as (c' & h' & E' & Hor).
    exists c', h'. split; [done|]. rewrite E in E'. injection E' as <- <-.
    assert (canonical <> c) by (intros ->; by apply Hn, elem_of_union_l, elem_of_singleton). by rewrite lookup_delete_ne in Hor.
Qed.

(** Endpoints that resolve pair every worker, in order and under its own URL, with
    an endpoint no other worker has: the one its mapping gives, or the one of its host
    at the fallback port; every mapping is for one of the workers. *)
Theorem endpoints_resolved urls mappings port resolved : resolve_endpoints urls mappings port = Ok resolved ->
  resolved.*1 = urls /\ NoDup resolved.*2 /\ port <> 0%N /\
  (forall x, x ∈ mappings -> exists url canonical host ep, mapping_says x canonical ep /\ canonical_worker url = Ok (canonical, host) /\ (url, ep) ∈ resolved) /\
  (forall url ep, (url, ep) ∈ resolved -> exists canonical host, canonical_worker url = Ok (canonical, host) /\
    ((exists x, x ∈ mappings /\ mapping_says x canonical ep) \/ canonical_endpoint ("tcp://" +:+ host +:+ ":" +:+ pretty port) = Ok ep)).
Proof.
  unfold resolve_endpoints. destruct (N.eqb_spec port 0) as [|Hp]; [done|]. simpl. case_bool_decide; [done|].
  destruct (read_overrides mappings ∅) as [m|] eqn:Em; [|done]. apply overrides_read in Em as [Hm Hall].
  destruct (resolve_workers port urls m ∅ ∅) as [[r unused]|] eqn:Er; [|done].
  destruct (btree_iter (dom unused)) as [|c l] eqn:Eb; [|done]. intros [= <-].
  destruct (workers_resolved _ _ _ _ _ _ _ Er) as (E1 & Hnd & _ & Hused & _ & Hep). rewrite Forall_forall in Hep, Hall.
  assert (Hnone : forall c, unused !! c = None).
  { intros c. apply not_elem_of_dom. rewrite <- elem_of_btree. rewrite Eb. apply not_elem_of_nil. }
  split_and!; [done|done|done| |].
  - intros x Hx. destruct (Hall x Hx) as (c & ep & Hsays). assert (Hc : m !! c = Some ep) by (apply Hm; right; by exists x).
    destruct (Hused c) as (url & host & Hurl & Ec); [by rewrite Hc|done|]. exists url, c, host, ep. split_and!; [done|done|].
    rewrite <- E1 in Hurl. apply list_elem_of_fmap in Hurl as ([url' ep'] & -> & Hin). destruct (Hep _ Hin) as (c' & h' & E & Hor). simpl in *.
    rewrite Ec in E. simplify_eq. destruct Hor as [|[? _]]; congruence.
  - intros url ep Hin. destruct (Hep _ Hin) as (c & h & E & Hor). exists c, h. split; [done|]. destruct Hor as [Hor|[_ ?]]; [left|by right].
    apply Hm in Hor as [Hor|]; [by rewrite lookup_empty in Hor|done].
Qed.
End resolved.

Lemma endpoints_resolved_witness :
  let resolved := [("http://a:8000", "tcp://a:5557"); ("http://b:8000", "tcp://pub:7000")] in
  resolve_endpoints ["http://a:8000"; "http://b:8000"] [("http://b:8000", "tcp://pub:7000")] 5557 = Ok resolved /\ NoDup resolved.*2.
Proof.
  split; [vm_compute; reflexivity|].
  apply (endpoints_resolved ["http://a:8000"; "http://b:8000"] [("http://b:8000", "tcp://pub:7000")] 5557). vm_compute. reflexivity.
Defined.
