(* ===== verification/KvThreads.v ===== *)
(** * Concurrent calls of the supervisor ([src/kv_index/discovery.rs])

    The calls of [KvIndexSupervisor] take [&self] and run at the same time: one that
    adds a worker waits for its answer, and each takes the locks of the workers, of
    the counts and of the indexes one after the other.  Here a call is a thread, and a
    step of a thread is what it does under one lock.  Threads, the answers of workers
    and the subscriber tasks interleave in any order, under two conditions that the
    code does not check: no two calls that add the same worker overlap
    ([added_twice_leaks]), and no identity is counted while the index of its last
    holder is still to be dropped ([acquire_race_panics]). *)

From S2P Require Import Prelude Ieee KvTypes KvShard KvIndexer TextDecode HashKey Json KvAware WorkerUrl KvDiscovery.

Local Open Scope string_scope.
Local Open Scope update_scope.

(** ** Threads *)

(** What [on_worker_added] knows once the worker has answered. *)
Record addition := MkAddition {
  add_url : string;
  add_key : CacheKey;
  add_source : string;
  add_entries : list (string * KvEventSourceEntry);
}.

(** Where a call is; [again] and [next] say which worker is added after the removal. *)
Inductive thread :=
| Adding (url : string)
| Removing (url : string) (again : bool)
| Draining
| Stopping (hs : list nat) (subs : WorkerSubs) (next : option string)
| Clearing (ranks : list N) (subs : WorkerSubs) (next : option string)
| Releasing (keys : list CacheKey) (next : option string)
| Dropping (key : CacheKey) (keys : list CacheKey) (next : option string)
| Asking (url : string)
| Answered (url : string) (discovery : WorkerDiscovery)
| Acquiring (x : addition)
| Counted (x : addition)
| Spawning (x : addition) (adr : nat) (ranks : list N) (hs : list nat) (entries : list (string * KvEventSourceEntry)).

Definition resume (next : option string) : list thread := match next with Some url => [Asking url] | None => [] end.

Section threads.
Context `{UrlLib, HashOrder}.

(** The answer of a worker that can be indexed. *)
Definition addition_of (mode : HashMode) (worker_url : string) (discovery : WorkerDiscovery) : option N * option addition :=
  let info := match server_info discovery with
    | Ok i => i
    | Err _ => MkServerInfo (Some worker_url) None None None None None None None
    end in
  let instance_id := default worker_url (keep (fun s => negb (bool_decide (s = ""))) (server_instance_id info)) in
  let block_size := discovered_block_size info in
  let model := match discovered_model discovery with Ok (Some m) => keep_if (negb (blank m)) m | _ => None end in
  (block_size, match sources discovery, block_size, model with
   | Ok srcs, Some bs, Some model => Some (MkAddition worker_url (MkCacheKey model mode bs) instance_id (Prelude.iter srcs))
   | _, _, _ => None
   end).

(** One step of a thread: what is left of it and the supervisor; [None] is a panic.  A
    thread that asks waits. *)
Definition step (t : thread) (s : KvIndexSupervisor) : option (list thread * KvIndexSupervisor) :=
  match t with
  | Adding url => Some ((if bool_decide (is_Some (workers s !! url)) then [Removing url true] else [Asking url]), s)
  | Removing url again =>
      let next := if again then Some url else None in
      match workers s !! url with
      | None => Some (resume next, s)
      | Some subs => Some ([Stopping (handles subs) subs next], s <| workers ::= delete url |>)
      end
  | Draining =>
      let subs := snd <$> Prelude.iter (workers s) in
      Some ([Releasing (subs_key <$> subs) None], stop (subs ≫= handles) (s <| workers := ∅ |>))
  | Stopping [] subs next => Some ([Clearing (subs_ranks subs) subs next], s)
  | Stopping (h :: hs) subs next => Some ([Stopping hs subs next], stop [h] s)
  | Clearing [] subs next => Some ([Releasing [subs_key subs] next], s)
  | Clearing (rank :: ranks) subs next =>
      ix ← index_heap s !! indexer subs;
      ix ← ix_step (IxClear (Worker (source_id subs) rank 0) ScopeWorker) ix;
      Some ([Clearing ranks subs next], s <| index_heap ::= <[indexer subs := ix]> |>)
  | Releasing [] next => Some (resume next, s)
  | Releasing (key :: keys) next =>
      let '(last, s) := release_count key s in
      Some ([if last then Dropping key keys next else Releasing keys next], s)
  | Dropping key keys next => Some ([Releasing keys next], release_drop key s)
  | Asking url => Some ([Asking url], s)
  | Answered url d =>
      let '(block_size, x) := addition_of (hash_mode s) url d in
      Some (match x with Some x => [Acquiring x] | None => [] end, check_block_size block_size s)
  | Acquiring x => Some ([Counted x], acquire_count (add_key x) s)
  | Counted x => adr ← acquire_get (add_key x) s; Some ([Spawning x adr [] [] (add_entries x)], s)
  | Spawning x adr ranks hs (e :: entries) =>
      let '(rs, h, s) := spawn_sources (default (add_url x) (worker_host (add_url x))) (add_source x) adr [e] s in
      Some ([Spawning x adr (ranks ++ rs) (hs ++ h) entries]%list, s)
  | Spawning x adr ranks hs [] =>
      Some ([], s <| workers ::= <[add_url x := MkSubs (add_key x) (add_source x) ranks adr hs]> |>)
  end.

(** The worker a thread adds. *)
Definition adds (t : thread) : list string :=
  match t with
  | Adding url | Removing url true | Asking url | Answered url _ => [url]
  | Stopping _ _ next | Clearing _ _ next | Releasing _ next | Dropping _ _ next => option_list next
  | Acquiring x | Counted x | Spawning x _ _ _ _ => [add_url x]
  | Removing _ false | Draining => []
  end.

(** The identities whose index a thread is about to drop. *)
Definition drops (t : thread) : list CacheKey := match t with Dropping key _ _ => [key] | _ => [] end.

(** The conditions: a call that adds a worker starts when no other does, and an
    identity is not counted while its index is to be dropped. *)
Definition may_start (t : thread) (ts : list thread) : Prop :=
  match t with
  | Adding url => url ∉ ts ≫= adds
  | Removing _ false | Draining => True
  | _ => False
  end.

Definition may_step (t : thread) (ts : list thread) : Prop :=
  match t with Acquiring x => add_key x ∉ ts ≫= drops | _ => True end.

(** The states of the supervisor, with the calls in progress. *)
Inductive runs : KvIndexSupervisor -> list thread -> Prop :=
| runs_new mode : runs (new_supervisor mode) []
| runs_start t s ts : runs s ts -> may_start t ts -> runs s (t :: ts)
| runs_answer url d s ts ts' : runs s ts -> ts ≡ₚ Asking url :: ts' -> runs s (Answered url d :: ts')
| runs_step t s ts ts' l s' : runs s ts -> ts ≡ₚ t :: ts' -> may_step t ts -> step t s = Some (l, s') -> runs s' (l ++ ts')
| runs_task c s ts s' : runs s ts -> (exists h o, c = Ingest h o) \/ (exists h, c = Exit h) -> call_ok c s -> perform c s = Some s' ->
    runs s' ts.
End threads.

(** ** What is in progress *)

Definition with_handles (hs : list nat) (w : WorkerSubs) : WorkerSubs := MkSubs (subs_key w) (source_id w) (subs_ranks w) (indexer w) hs.

(** A worker that a thread is about to track, or no longer tracks, with the handles not
    told to stop. *)
Definition parts (t : thread) : list WorkerSubs :=
  match t with
  | Stopping hs subs _ => [with_handles hs subs]
  | Clearing _ subs _ => [with_handles [] subs]
  | Spawning x adr ranks hs _ => [MkSubs (add_key x) (add_source x) ranks adr hs]
  | _ => []
  end.

(** The identities a thread has counted, or is to release, beside those. *)
Definition owes (t : thread) : list CacheKey :=
  match t with Releasing keys _ | Dropping _ keys _ => keys | Counted x => [add_key x] | _ => [] end.

(** The worker a thread adds, once nothing of it is tracked any more. *)
Definition gone (t : thread) : list string :=
  match t with Adding _ | Removing _ _ => [] | _ => adds t end.

Definition tracked (s : KvIndexSupervisor) : list WorkerSubs := snd <$> map_to_list (workers s).

(** The workers, tracked or in progress, and the holders of identities. *)
Definition units (s : KvIndexSupervisor) (ts : list thread) : list WorkerSubs := (ts ≫= parts) ++ tracked s.
Definition holders (s : KvIndexSupervisor) (ts : list thread) : list CacheKey := (subs_key <$> units s ts) ++ (ts ≫= owes).

(** ** The invariant *)

(** The holders [H] are counted; an index is there for them and for the drops [P]. *)
Record ids_ok (H P : list CacheKey) (s : KvIndexSupervisor) : Prop := {
  ids_refs : forall key, identity_refs s !! key = keep_if (0 <? count key H)%N (count key H);
  ids_indexed : forall key, is_Some (indexers s !! key) <-> key ∈ H \/ key ∈ P;
  ids_pending : NoDup P /\ forall key, key ∈ P -> key ∉ H;
  ids_one_key : forall k1 k2 a, indexers s !! k1 = Some a -> indexers s !! k2 = Some a -> k1 = k2;
  ids_allocated : forall key a, indexers s !! key = Some a -> a < next_index s;
}.

(** For the workers [U], the further holders [K] and the drops [P]. *)
Record inv (U : list WorkerSubs) (K P : list CacheKey) (s : KvIndexSupervisor) : Prop := {
  inv_ids : ids_ok ((subs_key <$> U) ++ K) P s;
  inv_heap : heap_ok s;
  inv_shares : forall w, w ∈ U -> indexers s !! subs_key w = Some (indexer w);
  inv_tasks : forall h ev a, running s !! h = Some (ev, a) ->
    h < next_handle s /\ a < next_index s /\ (h ∉ stopping s -> exists w, w ∈ U /\ task_of w h ev a);
}.

Record sys_ok (s : KvIndexSupervisor) (ts : list thread) : Prop := {
  sys_inv : inv (units s ts) (ts ≫= owes) (ts ≫= drops) s;
  sys_adds : NoDup (ts ≫= adds);
  sys_gone : forall url, url ∈ ts ≫= gone -> workers s !! url = None;
}.

#[export] Instance ids_ok_proper : Proper (Permutation ==> Permutation ==> eq ==> iff) ids_ok.
Proof.
  assert (forall H H' P P' s, H ≡ₚ H' -> P ≡ₚ P' -> ids_ok H P s -> ids_ok H' P' s) as Hone.
  { intros H H' P P' s EH EP [Hr Hi [Hn Hp] Ho Ha]. split; [| | |done|done].
    - intros key. rewrite <- (count_perm key H H') by done. apply Hr.
    - intros key. rewrite <- EH, <- EP. apply Hi.
    - split; [by rewrite <- EP|]. intros key. rewrite <- EH, <- EP. apply Hp. }
  intros H H' EH P P' EP s ? <-. split; apply Hone; done.
Qed.

#[export] Instance inv_proper : Proper (Permutation ==> Permutation ==> Permutation ==> eq ==> iff) inv.
Proof.
  assert (forall U U' K K' P P' s, U ≡ₚ U' -> K ≡ₚ K' -> P ≡ₚ P' -> inv U K P s -> inv U' K' P' s) as Hone.
  { intros U U' K K' P P' s EU EK EP [Hi Hh Hs Ht]. split; [by rewrite <- EU, <- EK, <- EP|done| |].
    - intros w. rewrite <- EU. apply Hs.
    - intros h ev a Hr. destruct (Ht h ev a Hr) as (? & ? & Hw). split_and!; [done|done|].
      intros (w & Hin & ?)%Hw. exists w. by rewrite <- EU. }
  intros U U' EU K K' EK P P' EP s ? <-. split; apply Hone; done.
Qed.

#[export] Instance bind_perm_proper {A B} (f : A -> list B) : Proper (Permutation ==> Permutation) (fun l => l ≫= f).
Proof. intros l l' E. by rewrite E. Qed.

Lemma sys_ok_perm s ts ts' : ts ≡ₚ ts' -> sys_ok s ts -> sys_ok s ts'.
Proof.
  intros E [Hi Ha Hg]. split.
  - unfold units in *. by rewrite <- E.
  - by rewrite <- E.
  - intros url. rewrite <- E. apply Hg.
Qed.

(** ** Identities *)

Lemma ids_count H P s key : ids_ok H P s -> default 0%N (identity_refs s !! key) = count key H.
Proof. intros Hok. rewrite (ids_refs _ _ _ Hok). unfold keep_if. destruct (N.ltb_spec 0 (count key H)); simpl; lia. Qed.

(** Counting a holder; the first creates the index. *)
Lemma count_ok H P s key : ids_ok H P s -> heap_ok s -> key ∉ P -> let s' := acquire_count key s in
  ids_ok (key :: H) P s' /\ heap_ok s' /\ next_index s <= next_index s' /\ (forall k, k ∈ H -> indexers s' !! k = indexers s !! k).
Proof.
  intros Hid Hh HP s'. subst s'. unfold acquire_count. rewrite (ids_count _ _ _ key Hid).
  assert (Hrefs : forall k, <[key := (count key H + 1)%N]> (identity_refs s) !! k = keep_if (0 <? count k (key :: H))%N (count k (key :: H))).
  { intros k. rewrite count_cons. destruct (decide (key = k)) as [<-|Hne].
    - rewrite lookup_insert_eq. rewrite (proj2 (N.ltb_lt _ _)) by lia. simpl. f_equal. lia.
    - rewrite lookup_insert_ne by done. rewrite N.add_0_l. apply (ids_refs _ _ _ Hid). }
  assert (Hpend : NoDup P /\ forall k, k ∈ P -> k ∉ key :: H).
  { destruct (ids_pending _ _ _ Hid) as [? Hp]. split; [done|]. intros k Hk [->|?]%elem_of_cons; [done|]. by apply (Hp k). }
  destruct (N.eqb_spec (count key H) 0) as [E|E].
  - assert (key ∉ H) by (rewrite <- count_pos; lia). split_and!; simpl; [| |lia|].
    + split; simpl; [exact Hrefs| |done| |].
      * intros k. rewrite elem_of_cons. destruct (decide (key = k)) as [<-|]; [rewrite lookup_insert_eq; naive_solver|].
        rewrite lookup_insert_ne by done. rewrite (ids_indexed _ _ _ Hid). naive_solver.
      * intros k1 k2 a. pose proof (ids_allocated _ _ _ Hid) as Ha. pose proof (ids_one_key _ _ _ Hid) as Hk. rewrite !lookup_insert_Some.
        intros [[<- <-]|[? E1]] [[<- E2]|[? E2]]; [done| | |by eapply Hk].
        -- specialize (Ha _ _ E2). lia.
        -- subst a. specialize (Ha _ _ E1). lia.
      * intros k a. rewrite lookup_insert_Some. intros [[_ <-]|[_ E1]]; [lia|]. pose proof (ids_allocated _ _ _ Hid _ _ E1). lia.
    + destruct Hh as [Hf Hi]. split; simpl.
      * intros a. destruct (decide (next_index s = a)) as [<-|]; [rewrite lookup_insert_eq; split; [lia|by eexists]|].
        rewrite lookup_insert_ne, Hf by done. lia.
      * intros a ix. rewrite lookup_insert_Some. intros [[_ <-]|[_ ?]]; [exists empty_ix_abs; apply new_indexer_ok|eauto].
    + intros k Hk. apply lookup_insert_ne. by intros ->.
  - assert (Hin : key ∈ H) by (rewrite <- count_pos; lia). split_and!; [|by destruct Hh|done|done].
    split; simpl; [exact Hrefs| |done|apply (ids_one_key _ _ _ Hid)|apply (ids_allocated _ _ _ Hid)].
    intros k. rewrite (ids_indexed _ _ _ Hid), elem_of_cons. naive_solver.
Qed.

Lemma acquire_count_frame key s : let s' := acquire_count key s in
  workers s' = workers s /\ running s' = running s /\ stopping s' = stopping s /\ next_handle s' = next_handle s.
Proof. unfold acquire_count. by destruct (_ =? 0)%N. Qed.

(** Giving up a holder; the last leaves its index to be dropped. *)
Lemma uncount_ok H P s key : ids_ok (key :: H) P s -> let '(last, s') := release_count key s in
  ids_ok H (if last then key :: P else P) s' /\
  indexers s' = indexers s /\ workers s' = workers s /\ running s' = running s /\ stopping s' = stopping s /\
  next_handle s' = next_handle s /\ next_index s' = next_index s /\ index_heap s' = index_heap s.
Proof.
  intros Hid. assert (Hrest : forall k, key <> k -> identity_refs s !! k = keep_if (0 <? count k H)%N (count k H)).
  { intros k Hk. rewrite (ids_refs _ _ _ Hid), count_cons, decide_False by done. by rewrite N.add_0_l. }
  unfold release_count. rewrite (ids_refs _ _ _ Hid), count_cons, decide_True by done.
  rewrite (proj2 (N.ltb_lt _ _)) by lia. unfold keep_if at 1. unfold saturating_sub.
  replace (1 + count key H - 1)%N with (count key H) by lia. destruct (ids_pending _ _ _ Hid) as [Hnd Hp].
  assert (HnP : key ∉ P) by (intros Hk; by apply (Hp key Hk); left).
  destruct (N.eqb_spec (count key H) 0) as [E0|E0]; (split; [|done]).
  - assert (Hno : key ∉ H) by (rewrite <- count_pos; lia). split; simpl; [| | |apply (ids_one_key _ _ _ Hid)|apply (ids_allocated _ _ _ Hid)].
    + intros k. destruct (decide (key = k)) as [<-|]; [rewrite lookup_delete_eq, E0; done|]. rewrite lookup_delete_ne by done. auto.
    + intros k. rewrite (ids_indexed _ _ _ Hid), !elem_of_cons. naive_solver.
    + split; [by constructor|]. intros k [->|Hk]%elem_of_cons; [done|]. intros Hin. by apply (Hp k Hk); right.
  - assert (Hin : key ∈ H) by (rewrite <- count_pos; lia).
    split; simpl; [| | |apply (ids_one_key _ _ _ Hid)|apply (ids_allocated _ _ _ Hid)].
    + intros k. destruct (decide (key = k)) as [<-|]; [|rewrite lookup_insert_ne by done; auto].
      rewrite lookup_insert_eq, (proj2 (N.ltb_lt _ _)) by lia. done.
    + intros k. rewrite (ids_indexed _ _ _ Hid), elem_of_cons. naive_solver.
    + split; [done|]. intros k Hk Hk'. by apply (Hp k Hk); right.
Qed.

Lemma drop_ok H P s key : ids_ok H (key :: P) s ->
  ids_ok H P (release_drop key s) /\ forall k, k ∈ H -> indexers (release_drop key s) !! k = indexers s !! k.
Proof.
  intros [Hr Hi [Hn Hp] Ho Ha]. apply NoDup_cons in Hn as [HnP Hn]. assert (Hno : key ∉ H) by (apply Hp; left).
  unfold release_drop. split; [|intros k Hk; apply lookup_delete_ne; by intros ->]. split; simpl.
  - done.
  - intros k. destruct (decide (key = k)) as [<-|]; [rewrite lookup_delete_eq; split; [by intros []|naive_solver]|].
    rewrite lookup_delete_ne, Hi, elem_of_cons by done. naive_solver.
  - split; [done|]. intros k Hk. apply Hp. by right.
  - intros k1 k2 a [_ E1]%lookup_delete_Some [_ E2]%lookup_delete_Some. by eapply Ho.
  - intros k a [_ E1]%lookup_delete_Some. by eapply Ha.
Qed.

(** ** Steps on the invariant *)

(** The parts of the supervisor the invariant looks at. *)
Record same (s s' : KvIndexSupervisor) : Prop := {
  same_refs : identity_refs s' = identity_refs s;
  same_indexers : indexers s' = indexers s;
  same_heap : index_heap s' = index_heap s;
  same_next : next_index s' = next_index s;
  same_running : running s' = running s;
  same_stopping : stopping s' = stopping s;
  same_handle : next_handle s' = next_handle s;
}.

Lemma ids_same H P s s' : identity_refs s' = identity_refs s -> indexers s' = indexers s -> next_index s' = next_index s ->
  ids_ok H P s -> ids_ok H P s'.
Proof. intros E1 E2 E3 [? ? ? ? ?]. split; rewrite ?E1, ?E2, ?E3; done. Qed.

Lemma heap_same s s' : index_heap s' = index_heap s -> next_index s' = next_index s -> heap_ok s -> heap_ok s'.
Proof. intros E1 E2 [? ?]. split; rewrite ?E1, ?E2; done. Qed.

Lemma inv_same U K P s s' : same s s' -> inv U K P s -> inv U K P s'.
Proof.
  intros [E1 E2 E3 E4 E5 E6 E7] [Hi Hh Hs Ht].
  split; [by apply (ids_same _ _ s)|by apply (heap_same s)|by rewrite E2|by rewrite E4, E5, E6, E7].
Qed.

(** Fewer handles, those that are told to stop. *)
Lemma inv_stop h hs w U K P s : inv (with_handles (h :: hs) w :: U) K P s -> inv (with_handles hs w :: U) K P (stop [h] s).
Proof.
  intros [Hi Hh Hs Ht]. split; [by apply (ids_same _ _ s)|by apply (heap_same s)| |].
  - intros w' [->|Hw]%elem_of_cons; [by apply (Hs (with_handles (h :: hs) w)); left|by apply Hs; right].
  - intros h' ev a Hr. destruct (Ht h' ev a Hr) as (? & ? & Hw). split_and!; [done|done|]. unfold stop. cbn.
    intros [Hne%not_elem_of_union Hns]%not_elem_of_union. destruct Hne as [Hne _]. apply not_elem_of_singleton in Hne.
    destruct (Hw Hns) as (w' & [->|Hw']%elem_of_cons & [T1 T2 T3 T4]); [|exists w'; split; [by right|done]].
    eexists. split; [left|]. split; [|done..]. simpl in T1. by apply elem_of_cons in T1 as [->|].
Qed.

Lemma inv_clear w rank U K P s : inv (w :: U) K P s -> exists ix ix',
  index_heap s !! indexer w = Some ix /\ ix_step (IxClear (Worker (source_id w) rank 0) ScopeWorker) ix = Some ix' /\
  inv (w :: U) K P (s <| index_heap ::= <[indexer w := ix']> |>).
Proof.
  intros [Hi Hh Hs Ht]. pose proof (ids_allocated _ _ _ Hi _ _ (Hs w ltac:(left))) as Ha.
  destruct (proj2 (heap_full _ Hh _) Ha) as [ix Hix]. destruct (heap_impl _ Hh _ _ Hix) as [abs Habs].
  destruct (ix_step_ok (IxClear (Worker (source_id w) rank 0) ScopeWorker) ix abs Habs I) as (ix' & E & Habs').
  exists ix, ix'. split_and!; [done|done|]. split; [by apply (ids_same _ _ s)|by eapply heap_update|done|done].
Qed.

(** A worker without tasks is a holder. *)
Lemma inv_cleared w U K P s : inv (with_handles [] w :: U) K P s -> inv U (subs_key w :: K) P s.
Proof.
  intros [Hi Hh Hs Ht]. split; [|done|intros w' Hw; apply Hs; by right|].
  - simpl in Hi. by rewrite <- Permutation_middle.
  - intros h ev a Hr. destruct (Ht h ev a Hr) as (? & ? & Hw). split_and!; [done|done|].
    intros (w' & [->|Hw']%elem_of_cons & [T1 T2 T3 T4])%Hw; [by apply elem_of_nil in T1|]. by exists w'.
Qed.

Lemma inv_release key U K P s : inv U (key :: K) P s -> let '(last, s') := release_count key s in
  inv U K (if last then key :: P else P) s' /\ workers s' = workers s.
Proof.
  intros [Hi Hh Hs Ht]. rewrite <- Permutation_middle in Hi. pose proof (uncount_ok _ _ _ _ Hi) as Hu.
  destruct (release_count key s) as [last s']. destruct Hu as (Hi' & E1 & E2 & E3 & E4 & E5 & E6 & E7). split; [|done].
  split; [done|by apply (heap_same s)|by rewrite E1|by rewrite E3, E4, E5, E6].
Qed.

Lemma inv_drop key U K P s : inv U K (key :: P) s -> inv U K P (release_drop key s).
Proof.
  intros [Hi Hh Hs Ht]. destruct (drop_ok _ _ _ _ Hi) as [Hi' Hk]. split; [done|by apply (heap_same s)| |done].
  intros w Hw. rewrite Hk; [by apply Hs|]. apply elem_of_app. left. by apply list_elem_of_fmap_2.
Qed.

Lemma inv_count key U K P s : inv U K P s -> key ∉ P -> inv U (key :: K) P (acquire_count key s).
Proof.
  intros [Hi Hh Hs Ht] HP. destruct (count_ok _ _ _ key Hi Hh HP) as (Hi' & Hh' & Hle & Hk).
  destruct (acquire_count_frame key s) as (E1 & E2 & E3 & E4). split; [by rewrite <- Permutation_middle|done| |].
  - intros w Hw. rewrite Hk; [by apply Hs|]. apply elem_of_app. left. by apply list_elem_of_fmap_2.
  - intros h ev a. rewrite E2, E3, E4. intros Hr. destruct (Ht h ev a Hr) as (? & ? & ?). split_and!; [done|lia|done].
Qed.

(** A counted identity has an index, and the worker without tasks feeds it. *)
Lemma inv_get x U K P s : inv U (add_key x :: K) P s -> exists adr, acquire_get (add_key x) s = Some adr /\
  inv (MkSubs (add_key x) (add_source x) [] adr [] :: U) K P s.
Proof.
  intros [Hi Hh Hs Ht]. destruct (proj2 (ids_indexed _ _ _ Hi (add_key x))) as [adr Hadr]; [left; apply elem_of_app; right; left|].
  exists adr. split; [done|]. split; [|done| |].
  - simpl. by rewrite <- Permutation_middle in Hi.
  - intros w [->|Hw]%elem_of_cons; [done|by apply Hs].
  - intros h ev a Hr. destruct (Ht h ev a Hr) as (? & ? & Hw). split_and!; [done|done|].
    intros (w & ? & ?)%Hw. exists w. split; [by right|done].
Qed.

Section steps.
Context `{UrlLib, HashOrder}.

Lemma inv_spawn host e key src adr ranks hs U K P s : inv (MkSubs key src ranks adr hs :: U) K P s ->
  let '(rs, h, s') := spawn_sources host src adr [e] s in
  inv (MkSubs key src (ranks ++ rs) adr (hs ++ h) :: U)%list K P s' /\ workers s' = workers s.
Proof.
  intros [Hi Hh Hs Ht]. destruct (spawned host src adr [e] s) as (rs & h & n & m & -> & Hn & Hm). split; [|done].
  pose proof (ids_allocated _ _ _ Hi _ _ (Hs _ ltac:(left))) as Ha. simpl in Ha.
  split; [by apply (ids_same _ _ s)|by apply (heap_same s)| |].
  - intros w [->|Hw]%elem_of_cons; [by apply (Hs (MkSubs key src ranks adr hs)); left|by apply Hs; right].
  - intros h' ev a Hr. cbn in Hr |- *. destruct (Hm _ _ _ Hr) as [Hold|(? & -> & ? & ? & ?)].
    + destruct (Ht _ _ _ Hold) as (? & ? & Hw). split_and!; [lia|done|]. intros (w & [->|Hw']%elem_of_cons & [T1 T2 T3 T4])%Hw.
      * eexists. split; [left|]. split; simpl in *; [apply elem_of_app; by left|done|done|apply elem_of_app; by left].
      * exists w. split; [by right|done].
    + split_and!; [done|done|]. intros _. eexists. split; [left|]. split; simpl; [apply elem_of_app; by right|done|done|apply elem_of_app; by right].
Qed.

(** Every tracked worker at once. *)
Lemma inv_drain W U K P s : inv (W ++ U) K P s -> inv U ((subs_key <$> W) ++ K) P (stop (W ≫= handles) (s <| workers := ∅ |>)).
Proof.
  intros [Hi Hh Hs Ht]. split; [|by apply (heap_same s)|intros w Hw; apply Hs, elem_of_app; by right|].
  - apply (ids_same _ _ s); [done..|]. rewrite fmap_app in Hi. by rewrite (assoc_L (++)), (comm (++) (subs_key <$> U)).
  - intros h ev a Hr. destruct (Ht h ev a Hr) as (? & ? & Hw). split_and!; [done|done|]. unfold stop. cbn.
    intros [Hn1 Hn2]%not_elem_of_union. rewrite elem_of_list_to_set in Hn1.
    destruct (Hw Hn2) as (w & [Hw'|Hw']%elem_of_app & Htask); [|by exists w]. destruct Hn1. apply list_elem_of_bind.
    exists w. split; [apply Htask|done].
Qed.

Lemma inv_ingest h o U K P s : inv U K P s -> call_ok (Ingest h o) s -> exists s', ingest h o s = Some s' /\
  inv U K P s' /\ workers s' = workers s.
Proof.
  intros [Hi Hh Hs Ht] Hc. unfold ingest. destruct (running s !! h) as [[ev a]|] eqn:Hr; [|by exists s].
  destruct (Ht _ _ _ Hr) as (_ & Ha & _). destruct (proj2 (heap_full _ Hh _) Ha) as [ix Hix].
  destruct (heap_impl _ Hh _ _ Hix) as [abs Habs].
  destruct (ix_step_ok o ix abs Habs (Hc _ _ _ _ Hr Hix Habs)) as (ix' & E & Habs').
  rewrite Hix. cbn [mbind option_bind]. rewrite E. cbn [mbind option_bind]. eexists. split; [done|]. split; [|done].
  split; [by apply (ids_same _ _ s)|by eapply heap_update|done|done].
Qed.
End steps.

(** ** Steps of threads *)

Lemma gone_adds t url : url ∈ gone t -> url ∈ adds t.
Proof. destruct t as [| ? []| | | | | | | | | |]; simpl; try done; by intros ?%elem_of_nil. Qed.

Lemma resumed next : (resume next ≫= adds) = option_list next /\ (resume next ≫= gone) = option_list next /\
  (resume next ≫= parts) = [] /\ (resume next ≫= owes) = [] /\ (resume next ≫= drops) = [].
Proof. by destruct next. Qed.

(** What a step has to show for the rest of the threads. *)
Lemma sys_steps t s ts l s' : sys_ok s (t :: ts) ->
  (let U := ts ≫= parts in let K := ts ≫= owes in let P := ts ≫= drops in
   inv (parts t ++ U ++ tracked s) (owes t ++ K) (drops t ++ P) s ->
   inv ((l ≫= parts) ++ U ++ tracked s') ((l ≫= owes) ++ K) ((l ≫= drops) ++ P) s') ->
  (l ≫= adds = adds t \/ l ≫= adds = []) ->
  (forall url, url ∈ l ≫= gone -> workers s' !! url = None) ->
  (forall url, url ∉ adds t -> workers s !! url = None -> workers s' !! url = None) -> sys_ok s' (l ++ ts).
Proof.
  intros [Hi Ha Hg] Hinv Hl Hlg Hw. unfold units in Hi. rewrite !bind_cons in Hi. rewrite bind_cons in Ha. apply NoDup_app in Ha as (Ha1 & Ha2 & Ha3).
  split; rewrite ?bind_app.
  - unfold units. rewrite bind_app, <- (assoc_L (++)). apply Hinv. by rewrite <- (assoc_L (++)) in Hi.
  - destruct Hl as [->| ->]; [|done]. by apply NoDup_app.
  - intros url [Hu|Hu]%elem_of_app; [by apply Hlg|]. apply Hw; [|apply Hg; rewrite bind_cons; by apply elem_of_app; right].
    intros Hin. apply (Ha2 url Hin). apply list_elem_of_bind in Hu as (t' & Hu & Ht'). apply list_elem_of_bind. exists t'. split; [by apply gone_adds|done].
Qed.

Lemma tracked_delete url w s : workers s !! url = Some w -> tracked s ≡ₚ w :: tracked (s <| workers ::= delete url |>).
Proof. intros E. unfold tracked. cbn. by rewrite <- (map_to_list_delete _ _ _ E). Qed.

Lemma tracked_insert url w s : workers s !! url = None -> tracked (s <| workers ::= <[url := w]> |>) ≡ₚ w :: tracked s.
Proof. intros E. unfold tracked. cbn. by rewrite (map_to_list_insert _ _ _ E). Qed.

Section thread_steps.
Context `{UrlLib, HashOrder}.

(** The threads that leave the workers as they are. *)
Lemma quiet_steps t s ts l s' : sys_ok s (t :: ts) -> workers s' = workers s ->
  (forall U K P, inv (parts t ++ U) (owes t ++ K) (drops t ++ P) s -> inv ((l ≫= parts) ++ U) ((l ≫= owes) ++ K) ((l ≫= drops) ++ P) s') ->
  (l ≫= adds = adds t \/ l ≫= adds = []) -> (forall url, url ∈ l ≫= gone -> url ∈ gone t) -> sys_ok s' (l ++ ts).
Proof.
  intros Hok Ew Hinv Hl Hg. eapply sys_steps; [done| |done| |by rewrite Ew].
  - intros U K P HI. assert (tracked s' = tracked s) as -> by (unfold tracked; by rewrite Ew). by apply Hinv.
  - intros url Hu%Hg. rewrite Ew. apply (sys_gone _ _ Hok). rewrite bind_cons. by apply elem_of_app; left.
Qed.

Lemma removing_ok url again s ts : sys_ok s (Removing url again :: ts) ->
  exists l s', step (Removing url again) s = Some (l, s') /\ sys_ok s' (l ++ ts).
Proof.
  intros Hok. unfold step. set (next := if again then Some url else None).
  assert (Hadds : option_list next = adds (Removing url again)) by (unfold next; by destruct again).
  assert (Hnext : forall u, u ∈ option_list next -> u = url) by (unfold next; destruct again; simpl; intros u; [by intros ?%list_elem_of_singleton|by intros ?%elem_of_nil]).
  destruct (resumed next) as (R1 & R2 & R3 & R4 & R5).
  destruct (workers s !! url) as [w|] eqn:Hw; eexists _, _; (split; [done|]).
  - eapply sys_steps; [done| |left; simpl; by rewrite app_nil_r| |].
    + intros U K P HI. cbn [mbind list_bind parts owes drops app] in *. rewrite (tracked_delete url w s Hw), <- Permutation_middle in HI.
      apply (inv_same _ _ _ s); [done|]. by destruct w.
    + intros u. simpl. rewrite app_nil_r. intros ->%Hnext. apply lookup_delete_eq.
    + intros u _ Hu. cbn. rewrite lookup_delete_ne; [done|]. congruence.
  - eapply sys_steps; [done| |left; congruence| |done].
    + intros U K P. by rewrite R3, R4, R5.
    + intros u. rewrite R2. by intros ->%Hnext.
Qed.

Lemma draining_ok s ts : sys_ok s (Draining :: ts) -> exists l s', step Draining s = Some (l, s') /\ sys_ok s' (l ++ ts).
Proof.
  intros Hok. eexists _, _. split; [done|]. eapply sys_steps; [done| |by right| |].
  - intros U K P. cbn [mbind list_bind parts owes drops app]. rewrite app_nil_r. intros HI.
    assert (tracked s ≡ₚ snd <$> Prelude.iter (workers s)) as Hp by (unfold tracked; by rewrite (iter_perm (workers s))).
    rewrite Hp, (comm (++) U) in HI. change (tracked (stop _ _)) with ([] : list WorkerSubs). rewrite app_nil_r. by apply inv_drain.
  - by intros url ?%elem_of_nil.
  - intros url _ _. apply lookup_empty.
Qed.

Lemma spawning_ok x adr ranks hs entries s ts : sys_ok s (Spawning x adr ranks hs entries :: ts) ->
  exists l s', step (Spawning x adr ranks hs entries) s = Some (l, s') /\ sys_ok s' (l ++ ts).
Proof.
  intros Hok. destruct entries as [|e entries].
  - assert (workers s !! add_url x = None) as Hno by (apply (sys_gone _ _ Hok); left).
    eexists _, _. split; [done|]. eapply sys_steps; [done| |by right|by intros url ?%elem_of_nil|].
    + intros U K P HI. cbn [mbind list_bind parts owes drops app] in *. rewrite (tracked_insert _ _ s Hno), <- Permutation_middle.
      by apply (inv_same _ _ _ s).
    + intros url Hu Hurl. cbn. rewrite lookup_insert_ne; [done|]. intros <-. apply Hu. left.
  - simpl step. pose proof (fun U K P => inv_spawn (default (add_url x) (worker_host (add_url x))) e (add_key x) (add_source x) adr ranks hs U K P s) as Hspawn.
    destruct (spawn_sources _ _ _ _ _) as [[rs h] s']. eexists _, _. split; [done|].
    assert (workers s' = workers s) as Ew by exact (proj2 (Hspawn _ _ _ (sys_inv _ _ Hok))).
    eapply quiet_steps; [done|done| |by left|done].
    intros U K P HI. cbn [mbind list_bind parts owes drops app] in *. by apply Hspawn.
Qed.

Lemma clearing_ok ranks w next s ts : sys_ok s (Clearing ranks w next :: ts) ->
  exists l s', step (Clearing ranks w next) s = Some (l, s') /\ sys_ok s' (l ++ ts).
Proof.
  intros Hok. destruct ranks as [|rank ranks].
  - eexists _, _. split; [done|]. eapply quiet_steps; [done|done| |left; simpl; by rewrite app_nil_r|intros u; simpl; by rewrite app_nil_r].
    intros U K P. apply inv_cleared.
  - pose proof (sys_inv _ _ Hok) as HI. destruct (inv_clear (with_handles [] w) rank _ _ _ s HI) as (ix & ix' & E1 & E2 & _).
    simpl in E1, E2. simpl. rewrite E1. cbn [mbind option_bind]. rewrite E2. cbn [mbind option_bind]. eexists _, _. split; [done|].
    eapply quiet_steps; [done|done| |left; simpl; by rewrite app_nil_r|intros u; simpl; by rewrite app_nil_r].
    intros U K P HI'. destruct (inv_clear (with_handles [] w) rank _ _ _ s HI') as (ix1 & ix1' & E3 & E4 & HI2). simpl in *. by simplify_eq.
Qed.

Lemma releasing_ok keys next s ts : sys_ok s (Releasing keys next :: ts) ->
  exists l s', step (Releasing keys next) s = Some (l, s') /\ sys_ok s' (l ++ ts).
Proof.
  intros Hok. destruct (resumed next) as (R1 & R2 & R3 & R4 & R5). destruct keys as [|key keys]; simpl step.
  - eexists _, _. split; [done|]. eapply quiet_steps; [done|done| |left; done|by rewrite R2]. intros U K P. by rewrite R3, R4, R5.
  - pose proof (fun U K P => inv_release key U K P s) as Hrel. destruct (release_count key s) as [last s']. eexists _, _. split; [done|].
    assert (workers s' = workers s) as Ew by exact (proj2 (Hrel _ _ _ (sys_inv _ _ Hok))).
    eapply quiet_steps; [done|done| |left; simpl; by destruct last; rewrite app_nil_r|intros u; simpl; by destruct last; rewrite app_nil_r].
    intros U K P HI. destruct (Hrel U (keys ++ K)%list P HI) as [HI' _]. by destruct last; simpl; rewrite app_nil_r.
Qed.

Lemma addition_url mode url d bs x : addition_of mode url d = (bs, Some x) -> add_url x = url.
Proof. unfold addition_of. intros [= _ E]. repeat case_match; by simplify_eq. Qed.

Lemma answered_ok url d s ts : sys_ok s (Answered url d :: ts) ->
  exists l s', step (Answered url d) s = Some (l, s') /\ sys_ok s' (l ++ ts).
Proof.
  intros Hok. unfold step. destruct (addition_of (hash_mode s) url d) as [bs x] eqn:Ex. eexists _, _. split; [done|].
  assert (same s (check_block_size bs s) /\ workers (check_block_size bs s) = workers s) as [Hs Ew]
    by (unfold check_block_size; by destruct bs, (first_block_size s)).
  destruct x as [x|].
  - apply addition_url in Ex. eapply quiet_steps; [exact Hok|done|intros U K P; by apply inv_same|left|]; simpl; by rewrite Ex.
  - eapply quiet_steps; [exact Hok|done|intros U K P; by apply inv_same|by right|by intros u ?%elem_of_nil].
Qed.

Lemma step_ok t s ts : sys_ok s (t :: ts) -> may_step t (t :: ts) -> exists l s', step t s = Some (l, s') /\ sys_ok s' (l ++ ts).
Proof.
  intros Hok Hm. destruct t as [url|url again| |hs w next|ranks w next|keys next|key keys next|url|url d|x|x|x adr ranks hs entries].
  - eexists _, _. split; [done|]. case_bool_decide as Hw; [by eapply quiet_steps; [..|left|]|].
    eapply sys_steps; [done|done|by left| |done]. intros u ->%list_elem_of_singleton. by apply eq_None_not_Some.
  - by apply removing_ok.
  - by apply draining_ok.
  - destruct hs as [|h hs]; eexists _, _; (split; [done|]).
    + eapply quiet_steps; [done|done|done|left; simpl; by rewrite app_nil_r|intros u; simpl; by rewrite app_nil_r].
    + eapply quiet_steps; [done|done| |left; simpl; by rewrite app_nil_r|intros u; simpl; by rewrite app_nil_r]. intros U K P. apply inv_stop.
  - by apply clearing_ok.
  - by apply releasing_ok.
  - eexists _, _. split; [done|]. eapply quiet_steps; [done|done| |left; simpl; by rewrite app_nil_r|intros u; simpl; by rewrite app_nil_r].
    intros U K P HI. simpl. rewrite app_nil_r. by apply inv_drop.
  - eexists _, _. split; [done|]. by eapply quiet_steps; [done|done|done|left|].
  - by apply answered_ok.
  - destruct (acquire_count_frame (add_key x) s) as (Ew & _). eexists _, _. split; [done|].
    eapply sys_steps; [done| |by left| |by rewrite Ew].
    + intros U K P HI. simpl in Hm. assert (tracked (acquire_count (add_key x) s) = tracked s) as -> by (unfold tracked; by rewrite Ew).
      by apply inv_count.
    + intros u Hu. rewrite Ew. by apply (sys_gone _ _ Hok); rewrite bind_cons; apply elem_of_app; left.
  - pose proof (sys_inv _ _ Hok) as HI. destruct (inv_get x _ _ _ s HI) as (adr & E & _). simpl. rewrite E. cbn [mbind option_bind].
    eexists _, _. split; [done|]. eapply quiet_steps; [done|done| |by left|done].
    intros U K P HI'. destruct (inv_get x _ _ _ s HI') as (adr' & E' & HI2). by simplify_eq.
  - by apply spawning_ok.
Qed.

(** ** Interleavings *)

Lemma start_ok t s ts : sys_ok s ts -> may_start t ts -> sys_ok s (t :: ts).
Proof.
  intros [Hi Ha Hg] Hm. destruct t as [url|url []| | | | | | | | | |]; try done; split; try done.
  simpl. by apply NoDup_cons.
Qed.

Lemma runs_ok s ts : runs s ts -> sys_ok s ts.
Proof.
  induction 1 as [mode|t s ts _ IH Hm|url d s ts ts' _ IH E|t s ts ts' l s' _ IH E Hm Hs|c s ts s' _ IH Hc Hok Hp].
  - split; [|constructor|by intros ? ?%elem_of_nil]. split; [split|split|by intros ? ?%elem_of_nil|intros ? ? ?]; cbn.
    + done.
    + intros key. rewrite lookup_empty. split; [by intros []|by intros [?%elem_of_nil|?%elem_of_nil]].
    + split; [constructor|by intros ? ?%elem_of_nil].
    + intros ? ? ?. by rewrite lookup_empty.
    + intros ? ?. by rewrite lookup_empty.
    + intros a. rewrite lookup_empty. split; [by intros []|lia].
    + intros ? ?. by rewrite lookup_empty.
    + by rewrite lookup_empty.
  - by apply start_ok.
  - apply (sys_ok_perm _ _ _ E) in IH. destruct IH as [Hi Ha Hg]. by split.
  - apply (sys_ok_perm _ _ _ E) in IH. destruct (step_ok t s ts' IH) as (l' & s1 & E1 & Hok); [|by simplify_eq].
    destruct t; try done. cbn [may_step] in *. by rewrite <- E.
  - destruct IH as [Hi Ha Hg]. destruct Hc as [(h & o & ->)|[h ->]]; simpl in Hp.
    + destruct (inv_ingest h o _ _ _ s Hi Hok) as (s1 & E1 & Hi' & Ew). rewrite Hp in E1. injection E1 as <-.
      split; [unfold units, tracked in *; by rewrite Ew|done|by rewrite Ew].
    + injection Hp as <-. split; [|done|done]. destruct Hi as [Hids Hh Hs Ht]. split; [by apply (ids_same _ _ s)|by apply (heap_same s)|done|].
      intros h' ev a. cbn. intros [_ Hr]%lookup_delete_Some. by apply Ht.
Qed.

(** How far a call is from its end. *)
Definition progress (t : thread) : nat * nat :=
  match t with
  | Adding _ => (9, 0)
  | Removing _ _ | Draining => (8, 0)
  | Stopping hs _ _ => (7, length hs)
  | Clearing ranks _ _ => (6, length ranks)
  | Releasing keys _ => (5, 2 * length keys)
  | Dropping _ keys _ => (5, S (2 * length keys))
  | Asking _ => (4, 0)
  | Answered _ _ => (3, 0)
  | Acquiring _ => (2, 0)
  | Counted _ => (1, 0)
  | Spawning _ _ _ _ entries => (0, length entries)
  end.

Definition closer (t' t : thread) : Prop :=
  (progress t').1 < (progress t).1 \/ (progress t').1 = (progress t).1 /\ (progress t').2 < (progress t).2.

Lemma step_closer t s l s' : step t s = Some (l, s') -> (forall url, t <> Asking url) -> l = [] \/ exists t', l = [t'] /\ closer t' t.
Proof.
  intros Hs Hn. assert (forall next (n : nat * nat), 4 < n.1 -> resume next = [] \/ exists t', resume next = [t'] /\ (progress t').1 < n.1) as Hres.
  { intros [u|] n Hlt; [right; exists (Asking u); auto|by left]. }
  unfold closer. destruct t as [url|url again| |[|h hs] w next|[|rank ranks] w next|[|key keys] next|key keys next|url|url d|x|x|x adr ranks hs [|e entries]]; cbn [step] in Hs.
  all: try by injection Hs as <- <-; right; eexists; split; [done|]; simpl; lia.
  - injection Hs as <- <-. right. case_bool_decide; eexists; (split; [done|]); simpl; lia.
  - destruct (workers s !! url); injection Hs as <- <-; [right; eexists; split; [done|]; simpl; lia|].
    destruct (Hres (if again then Some url else None) (8, 0)) as [|(t' & ? & ?)]; [simpl; lia|by left|right; exists t'; auto].
  - apply bind_Some in Hs as (ix & _ & (ix' & _ & [= <- <-])%bind_Some). right. eexists. split; [done|]. simpl. lia.
  - injection Hs as <- <-. destruct (Hres next (5, 0)) as [|(t' & ? & ?)]; [simpl; lia|by left|right; exists t'; auto].
  - destruct (release_count key s) as [last s1]. injection Hs as <- <-. right. destruct last; eexists; (split; [done|]); simpl; lia.
  - by destruct (Hn url).
  - destruct (addition_of (hash_mode s) url d) as [bs [x|]]; injection Hs as <- <-; [right; eexists; split; [done|]; simpl; lia|by left].
  - apply bind_Some in Hs as (adr & _ & [= <- <-]). right. eexists. split; [done|]. simpl. lia.
  - injection Hs as <- <-. by left.
  - destruct (spawn_sources _ _ _ _ _) as [[rs hs'] s1]. injection Hs as <- <-. right. eexists. split; [done|]. simpl. lia.
Qed.
End thread_steps.

(** ** A call that runs alone *)

Section alone.
Context `{UrlLib, HashOrder} (d : WorkerDiscovery).

(** One thread runs to its end; a worker that is asked answers [d]. *)
Inductive alone : list thread -> KvIndexSupervisor -> KvIndexSupervisor -> Prop :=
| alone_done s : alone [] s s
| alone_answer url s s' : alone [Answered url d] s s' -> alone [Asking url] s s'
| alone_step t s l s1 s' : step t s = Some (l, s1) -> (forall url, t <> Asking url) -> alone l s1 s' -> alone [t] s s'.

(** The updates as records. *)
Lemma stop_fields hs s : stop hs s = MkSupervisor (hash_mode s) (indexers s) (identity_refs s) (workers s) (first_block_size s)
  (index_heap s) (next_index s) (running s) (list_to_set hs ∪ stopping s) (next_handle s).
Proof. done. Qed.

Lemma heap_fields a ix s : s <| index_heap ::= <[a := ix]> |> = MkSupervisor (hash_mode s) (indexers s) (identity_refs s) (workers s)
  (first_block_size s) (<[a := ix]> (index_heap s)) (next_index s) (running s) (stopping s) (next_handle s).
Proof. done. Qed.

Lemma alone_stopping hs w next s s' : alone [Clearing (subs_ranks w) w next] (stop hs s) s' -> alone [Stopping hs w next] s s'.
Proof.
  revert s. induction hs as [|h hs IH]; intros s Ha; (eapply alone_step; [done|done|]).
  - assert (stop [] s = s) as <-; [|done]. rewrite stop_fields, list_to_set_nil, union_empty_l_L. by destruct s.
  - apply IH. assert (stop hs (stop [h] s) = stop (h :: hs) s) as ->; [|done]. rewrite !stop_fields. cbn [stopping hash_mode indexers identity_refs workers first_block_size index_heap next_index running next_handle].
    f_equal. rewrite !list_to_set_cons, list_to_set_nil. set_solver.
Qed.

Lemma alone_clearing ranks w next s s' ix ix' : index_heap s !! indexer w = Some ix ->
  foldM ix_step ((fun rank => IxClear (Worker (source_id w) rank 0) ScopeWorker) <$> ranks) ix = Some ix' ->
  alone [Releasing [subs_key w] next] (s <| index_heap ::= <[indexer w := ix']> |>) s' -> alone [Clearing ranks w next] s s'.
Proof.
  revert s ix. induction ranks as [|rank ranks IH]; intros s ix Hix; simpl.
  - intros [= <-] Ha. eapply alone_step; [done|done|]. assert (s <| index_heap ::= <[indexer w := ix]> |> = s) as <-; [|done].
    rewrite heap_fields, insert_id by done. by destruct s.
  - intros (ix1 & E1 & Hf)%bind_Some Ha. eapply alone_step; [simpl; rewrite Hix; cbn [mbind option_bind]; by rewrite E1|done|].
    eapply (IH _ ix1); [apply lookup_insert_eq|exact Hf|].
    match goal with H : alone _ ?x s' |- alone _ ?y s' => assert (y = x) as ->; [|done] end.
    rewrite !heap_fields. cbn [stopping hash_mode indexers identity_refs workers first_block_size index_heap next_index running next_handle].
    by rewrite insert_insert_eq.
Qed.

Lemma alone_releasing keys next s s' : alone (resume next) (foldl (fun s key => release_identity key s) s keys) s' ->
  alone [Releasing keys next] s s'.
Proof.
  revert s. induction keys as [|key keys IH]; intros s Ha; [by eapply alone_step|]. simpl in Ha. unfold release_identity at 2 in Ha.
  destruct (release_count key s) as [last s1] eqn:E. apply (alone_step (Releasing (key :: keys) next) s [if last then Dropping key keys next else Releasing keys next] s1); [by simpl; rewrite E|done|].
  destruct last; [eapply alone_step; [done|done|]|]; by apply IH.
Qed.

Lemma alone_removing url (again : bool) s s1 s' : on_worker_removed url s = Some s1 ->
  alone (resume (if again then Some url else None)) s1 s' -> alone [Removing url again] s s'.
Proof.
  unfold on_worker_removed. intros E Ha. destruct (workers s !! url) as [w|] eqn:Hw.
  - eapply alone_step; [cbn [step]; rewrite Hw; reflexivity|done|]. apply alone_stopping.
    apply bind_Some in E as (s2 & E & [= <-]). unfold clear_ranks in E. apply bind_Some in E as (ix & Hix & (ix' & Hf & [= <-])%bind_Some).
    eapply alone_clearing; [exact Hix|exact Hf|]. by apply alone_releasing.
  - injection E as <-. eapply alone_step; [cbn [step]; rewrite Hw; reflexivity|done|done].
Qed.

Lemma spawn_cons host src adr e entries s : spawn_sources host src adr (e :: entries) s =
  let '(r, h, s) := spawn_sources host src adr [e] s in
  let '(r', h', s) := spawn_sources host src adr entries s in (r ++ r', h ++ h', s)%list.
Proof.
  unfold spawn_sources. match goal with |- foldl ?g _ _ = _ => set (f := g) end.
  assert (forall entries r h s, foldl f (r, h, s) entries =
    let '(r', h', s') := foldl f ([], [], s) entries in (r ++ r', h ++ h', s')%list) as Hf.
  { clear. induction entries as [|[k e] entries IH]; intros r h s; cbn [foldl]; [by rewrite !app_nil_r|].
    unfold f at 2 4. destruct (negb (events_enabled e)); [apply IH|]. destruct (parse_u32 k) as [rank|]; [|apply IH].
    rewrite IH, (IH ([] ++ [rank])%list). destruct (foldl f ([], [], _) entries) as [[r' h'] s']. by rewrite <- !(assoc_L (++)). }
  change (foldl f ([], [], s) (e :: entries)) with (foldl f (f ([], [], s) e) entries).
  change (foldl f ([], [], s) [e]) with (f ([], [], s) e). destruct (f ([], [], s) e) as [[r h] s1]. apply Hf.
Qed.

Lemma alone_spawning x adr ranks hs entries s s' r h s1 :
  spawn_sources (default (add_url x) (worker_host (add_url x))) (add_source x) adr entries s = (r, h, s1) ->
  s' = s1 <| workers ::= <[add_url x := MkSubs (add_key x) (add_source x) (ranks ++ r) adr (hs ++ h)]> |> ->
  alone [Spawning x adr ranks hs entries]%list s s'.
Proof.
  revert ranks hs s r h. induction entries as [|e entries IH]; intros ranks hs s r h E ->.
  - injection E as <- <- <-. rewrite !app_nil_r. eapply alone_step; [done|done|]. constructor.
  - rewrite spawn_cons in E. destruct (spawn_sources _ _ _ [e] s) as [[r1 h1] s2] eqn:E1.
    destruct (spawn_sources _ _ _ entries s2) as [[r2 h2] s3] eqn:E2. injection E as <- <- <-.
    eapply alone_step; [cbn [step]; rewrite E1; reflexivity|done|]. eapply IH; [done|]. by rewrite <- !(assoc_L (++)).
Qed.

Lemma alone_answered url info s s' : track_worker url d s = Some (info, s') -> alone [Answered url d] s s'.
Proof.
  unfold track_worker. set (i := match server_info d with Ok i => i | Err _ => _ end). intros E.
  assert (hash_mode (check_block_size (discovered_block_size i) s) = hash_mode s) as Em
    by (unfold check_block_size; by destruct (discovered_block_size i), (first_block_size s)).
  rewrite Em in E. eapply alone_step; [unfold step, addition_of; fold i; reflexivity|done|]. simpl.
  destruct (sources d) as [srcs|]; [|injection E as _ <-; constructor].
  destruct (discovered_block_size i) as [bs|]; [|injection E as _ <-; constructor].
  destruct (match discovered_model d with Ok _ => _ | Err _ => _ end) as [model|]; [|injection E as _ <-; constructor].
  apply bind_Some in E as ([adr s1] & Ea & E). unfold acquire_identity in Ea. apply bind_Some in Ea as (adr' & Eg & [= -> <-]).
  destruct (spawn_sources _ _ _ _ _) as [[r h] s2] eqn:Es. injection E as _ <-.
  eapply alone_step; [done|done|]. eapply alone_step; [cbn [step add_key]; rewrite Eg; reflexivity|done|]. by eapply alone_spawning.
Qed.

(** The calls of [KvDiscovery] are the threads that nothing interrupts. *)
Lemma calls_alone s s' :
  (forall url, perform (Added url d) s = Some s' -> alone [Adding url] s s') /\
  (forall url, perform (Removed url) s = Some s' -> alone [Removing url false] s s') /\
  (perform Shutdown s = Some s' -> alone [Draining] s s').
Proof.
  split_and!; [intros url|intros url|]; simpl.
  - intros ([info s2] & E & ->)%fmap_Some. unfold on_worker_added in E. apply bind_Some in E as (s1 & Er & E).
    assert (alone (resume (Some url)) s1 s2) as Hrest by (apply alone_answer; by eapply alone_answered).
    eapply alone_step; [done|done|]. case_bool_decide as Hw; [by eapply alone_removing|].
    apply eq_None_not_Some in Hw. unfold on_worker_removed in Er. rewrite Hw in Er. by injection Er as <-.
  - intros E. eapply alone_removing; [done|constructor].
  - intros [= <-]. eapply alone_step; [done|done|]. apply alone_releasing. rewrite foldl_fmap. constructor.
Qed.
End alone.

(** ** Schedules *)

#[export] Instance may_start_dec t ts : Decision (may_start t ts).
Proof. destruct t as [| ? []| | | | | | | | | |]; apply _. Defined.

#[export] Instance may_step_dec t ts : Decision (may_step t ts).
Proof. destruct t; apply _. Defined.

(** A call begins, a worker answers, a thread takes a step. *)
Inductive event := Start (t : thread) | Answer (i : nat) (discovery : WorkerDiscovery) | Turn (i : nat).

Definition happens `{UrlLib, HashOrder} (e : event) (x : KvIndexSupervisor * list thread) : option (KvIndexSupervisor * list thread) :=
  let '(s, ts) := x in
  match e with
  | Start t => if decide (may_start t ts) then Some (s, t :: ts) else None
  | Answer i d => match ts !! i with Some (Asking url) => Some (s, Answered url d :: delete i ts) | _ => None end
  | Turn i =>
      t ← ts !! i;
      if decide (may_step t ts) then '(l, s) ← step t s; Some (s, l ++ delete i ts)%list else None
  end.

Lemma schedule_runs `{UrlLib, HashOrder} es s ts s' ts' : runs s ts -> foldM happens es (s, ts) = Some (s', ts') -> runs s' ts'.
Proof.
  revert s ts. induction es as [|e es IH]; intros s ts Hr; simpl; [by intros [= <- <-]|].
  intros ([s1 ts1] & He & Hes)%bind_Some. apply (IH s1 ts1); [|done]. destruct e as [t|i d|i]; simpl in He.
  - destruct (decide (may_start t ts)); [|done]. injection He as <- <-. by apply runs_start.
  - destruct (ts !! i) as [t|] eqn:Ei; [|done]. destruct t; try done. injection He as <- <-.
    eapply runs_answer; [done|by apply delete_Permutation].
  - apply bind_Some in He as (t & Ei & He). destruct (decide (may_step t ts)); [|done].
    apply bind_Some in He as ([l s2] & Hs & [= <- <-]). eapply runs_step; [done|by apply delete_Permutation|done|done].
Qed.

(** ** Properties *)

(** Without calls in progress the holders are the tracked workers. *)
Lemma idle_holders s : holders s [] = held s.
Proof. unfold holders, units, tracked, held. cbn. by rewrite app_nil_r, <- list_fmap_compose. Qed.

(** C9: calls that add and remove workers or shut the supervisor down run at the same
    time, each a step at a time under one lock, with any answers, while the subscribers
    feed the indexes.  Two things are assumed of the callers that the code does not
    check: no two calls that add the same worker overlap, and no identity is counted
    between the last release of it and the drop of its index.  Then no step panics
    and each takes its call closer to its end; the count of an identity is the number of
    workers of it that are tracked or still to be tracked or released by a call; it
    has an index exactly while it is counted or the drop is pending; two such workers
    feed the same index exactly when they have the same identity; and a task that was not
    told to stop belongs to such a worker, whose index it feeds. *)
Theorem supervisor_sound `{UrlLib, HashOrder} s ts : runs s ts ->
  (forall t, t ∈ ts -> may_step t ts -> (exists url, t = Asking url) \/
    exists l s', step t s = Some (l, s') /\ (l = [] \/ exists t', l = [t'] /\ closer t' t)) /\
  (forall h o, call_ok (Ingest h o) s -> is_Some (ingest h o s)) /\
  (forall key, default 0%N (identity_refs s !! key) = count key (holders s ts)) /\
  (forall key, is_Some (indexers s !! key) <-> key ∈ holders s ts \/ key ∈ ts ≫= drops) /\
  (forall w1 w2, w1 ∈ units s ts -> w2 ∈ units s ts -> indexer w1 = indexer w2 <-> subs_key w1 = subs_key w2) /\
  (forall h ev a, running s !! h = Some (ev, a) -> h ∉ stopping s -> exists w, w ∈ units s ts /\ task_of w h ev a).
Proof.
  intros Hok%runs_ok. pose proof (sys_inv _ _ Hok) as HI. destruct HI as [Hids Hh Hs Ht]. split_and!.
  - intros t Ht' Hm. assert ((exists url, t = Asking url) \/ forall url, t <> Asking url) as [Hask|Hask]
      by (destruct t; try (by right); left; by eexists); [by left|right].
    apply list_elem_of_split in Ht' as (l1 & l2 & ->). assert (l1 ++ t :: l2 ≡ₚ t :: (l1 ++ l2)) as E by by rewrite Permutation_middle.
    destruct (step_ok t s (l1 ++ l2)) as (l & s' & Hst & _); [by eapply sys_ok_perm| |].
    { destruct t; try done. cbn [may_step] in *. by rewrite <- E. }
    exists l, s'. split; [done|]. by eapply step_closer.
  - intros h o Hc. destruct (inv_ingest h o _ _ _ s (sys_inv _ _ Hok) Hc) as (s' & -> & _). done.
  - intros key. by apply (ids_count _ _ _ key Hids).
  - apply (ids_indexed _ _ _ Hids).
  - intros w1 w2 H1%Hs H2%Hs. split; [|intros E; rewrite E in *; congruence].
    intros E. rewrite E in H1. by eapply (ids_one_key _ _ _ Hids).
  - intros h ev a Hrun. by apply (Ht _ _ _ Hrun).
Qed.

(** ** Examples *)

#[local] Existing Instances origin_urls sup_order.

(** Two workers of one identity are added at the same time: both are asked, both
    answer, and their counts, lookups and subscribers interleave. *)
Definition two_added : list event := [
  Start (Adding "grpc://a:8000"); Start (Adding "grpc://b:8000"); Turn 0; Turn 1; Answer 0 (sup_answer "a"); Answer 1 (sup_answer "b");
  Turn 0; Turn 1; Turn 0; Turn 1; Turn 0].

Definition two_state : KvIndexSupervisor * list thread := default (new_supervisor Sha256, []) (foldM happens two_added (new_supervisor Sha256, [])).

Lemma supervisor_sound_witness : length two_state.2 = 2 /\ count (MkCacheKey "model" Sha256 16) (holders two_state.1 two_state.2) = 2%N /\
  default 0%N (identity_refs two_state.1 !! MkCacheKey "model" Sha256 16) = 2%N /\
  forall t, t ∈ two_state.2 -> may_step t two_state.2 -> (exists url, t = Asking url) \/ is_Some (step t two_state.1).
Proof.
  assert (runs two_state.1 two_state.2) as Hr.
  { apply (schedule_runs two_added (new_supervisor Sha256) []); [apply runs_new|]. vm_compute. reflexivity. }
  destruct (supervisor_sound two_state.1 two_state.2 Hr) as (H1 & _ & H3 & _).
  split; [vm_compute; reflexivity|]. split; [vm_compute; reflexivity|]. split; [rewrite H3; vm_compute; reflexivity|].
  intros t Ht Hm. destruct (H1 t Ht Hm) as [?|(l & s' & E & _)]; [by left|right; by exists (l, s')].
Defined.

(** A worker is added again while the last worker of its identity is removed: with the
    drop between its count and its lookup, the call panics. *)
Example count_before_drop_panics :
  let key := MkCacheKey "model" Sha256 16 in
  let x := MkAddition "grpc://b:8000" key "b" [] in
  match foldM happens [Start (Adding "grpc://a:8000"); Turn 0; Answer 0 (sup_answer "a"); Turn 0; Turn 0; Turn 0; Turn 0; Turn 0;
      Start (Removing "grpc://a:8000" false); Turn 0; Turn 0; Turn 0; Turn 0; Turn 0; Turn 0] (new_supervisor Sha256, []) with
  | Some (s, ts) => ts = [Dropping key [] None] /\
      ('(l, s) ← step (Acquiring x) s; '(_, s) ← step (Dropping key [] None) s; t ← head l; step t s) = None
  | None => False
  end.
Proof. vm_compute. done. Qed.
