(* ===== verification/KvHash.v ===== *)
(** * Engine-compatible block keys ([src/kv_hash.rs])

    The keys an engine gives the blocks of a prompt: each is the SHA-256 digest of the
    canonical CBOR of the parent's key and the block's tokens, and the first parent is
    the digest of the hash seed.  The digest is an argument.  The encoder is judged by a
    reader of CBOR (RFC 8949) that accepts only the shortest header of each item. *)

From S2P Require Import Prelude KvTypes.
From stdpp Require Import pretty.

Local Open Scope N_scope.

(** [to_be_bytes] of an integer of [k] bytes *)
Fixpoint be_bytes_of (k : nat) (n : N) : list byte :=
  match k with O => [] | S k => be_bytes_of k (n / 256) ++ [byte_of n] end.

(** The header of a CBOR item: its major type and its argument, in as few bytes as it
    needs. *)
Definition encode_major (major value : N) : list byte :=
  let prefix := N.shiftl major 5 in
  if value <=? 23 then [byte_of (N.lor prefix value)]
  else if value <=? 0xff then byte_of (N.lor prefix 24) :: be_bytes_of 1 value
  else if value <=? 0xffff then byte_of (N.lor prefix 25) :: be_bytes_of 2 value
  else if value <=? 0xffffffff then byte_of (N.lor prefix 26) :: be_bytes_of 4 value
  else byte_of (N.lor prefix 27) :: be_bytes_of 8 value.

(** [slice::chunks_exact(size)] for a nonzero size; the fuel is the length. *)
Fixpoint chunks_exact_of {A} (fuel size : nat) (l : list A) : list (list A) :=
  match fuel with
  | O => []
  | S fuel => if (size <=? length l)%nat then take size l :: chunks_exact_of fuel size (drop size l) else []
  end.

Section keys.
Context (sha256 : list byte -> list byte).

(** The bytes [new] and [hash_block] digest. *)
Definition seed_preimage (hash_seed : N) : list byte :=
  let seed := as_bytes (pretty hash_seed) in encode_major 3 (N.of_nat (length seed)) ++ seed.

Definition block_preimage_of (parent : list byte) (token_ids : list N) : list byte :=
  encode_major 4 3 ++ encode_major 2 (N.of_nat (length parent)) ++ parent ++
  encode_major 4 (N.of_nat (length token_ids)) ++ (token_ids ≫= encode_major 0) ++ [xf6].

Record BlockKeyGenerator := MkGenerator { generator_block_size : N; none_hash : list byte }.

(** [BlockKeyGenerator::new], [None] when it panics *)
Definition new_generator (block_size hash_seed : N) : option BlockKeyGenerator :=
  if (0 <? block_size) && (hash_seed <=? u32_max) then Some (MkGenerator block_size (sha256 (seed_preimage hash_seed))) else None.

Definition hash_block (parent : list byte) (token_ids : list N) : list byte := sha256 (block_preimage_of parent token_ids).

Fixpoint chained (parent : list byte) (blocks : list (list N)) : list (list byte) :=
  match blocks with
  | [] => []
  | tokens :: blocks => let key := hash_block parent tokens in key :: chained key blocks
  end.

Definition generate_block_keys (g : BlockKeyGenerator) (token_ids : list N) : list (list byte) :=
  chained (none_hash g) (chunks_exact_of (length token_ids) (N.to_nat (generator_block_size g)) token_ids).
End keys.

(** ** Specification *)

(** The CBOR items the engine hashes, and their reader. *)
Inductive Cbor :=
| CUint (n : N)
| CBytes (b : list byte)
| CText (b : list byte)
| CArray (items : list Cbor)
| CNull.

Definition be_value_of (l : list byte) : N := foldl (fun acc b => acc * 256 + Byte.to_N b) 0 l.

(** The major type and the argument of an item; an argument must not fit a shorter
    header. *)
Definition read_head (l : list byte) : option (N * N * list byte) :=
  match l with
  | [] => None
  | b :: l =>
      let major := Byte.to_N b / 32 in
      let low := Byte.to_N b mod 32 in
      let k := N.to_nat (2 ^ (low - 24)) in
      let value := be_value_of (take k l) in
      let least := if low =? 24 then 24 else 256 ^ (2 ^ (low - 25)) in
      if low <? 24 then Some (major, low, l)
      else if (low <? 28) && (k <=? length l)%nat && (least <=? value) then Some (major, value, drop k l) else None
  end.

Fixpoint read_n (read : list byte -> option (Cbor * list byte)) (n : nat) (l : list byte) : option (list Cbor * list byte) :=
  match n with
  | O => Some ([], l)
  | S n => '(x, l) ← read l; '(xs, l) ← read_n read n l; Some (x :: xs, l)
  end.

(** The fuel bounds the nesting. *)
Fixpoint read_item (fuel : nat) (l : list byte) : option (Cbor * list byte) :=
  match fuel with
  | O => None
  | S fuel =>
      '(major, arg, l) ← read_head l;
      let n := N.to_nat arg in
      if major =? 0 then Some (CUint arg, l)
      else if (major =? 2) && (n <=? length l)%nat then Some (CBytes (take n l), drop n l)
      else if (major =? 3) && (n <=? length l)%nat then Some (CText (take n l), drop n l)
      else if major =? 4 then '(xs, l) ← read_n (read_item fuel) n l; Some (CArray xs, l)
      else if (major =? 7) && (arg =? 22) then Some (CNull, l)
      else None
  end.

(** The bytes are the canonical CBOR of an item, nested three deep at most. *)
Definition encodes (l : list byte) (x : Cbor) : Prop := read_item 3 l = Some (x, []).

(** What the engine hashes for a block. *)
Definition block_item (parent : list byte) (token_ids : list N) : Cbor :=
  CArray [CBytes parent; CArray (CUint <$> token_ids); CNull].

(** Block [i] of a prompt, and its first [n] blocks. *)
Definition block_tokens (block_size : N) (i : nat) (token_ids : list N) : list N :=
  take (N.to_nat block_size) (drop (i * N.to_nat block_size) token_ids).

Definition prefix_tokens (block_size : N) (n : nat) (token_ids : list N) : list N := take (n * N.to_nat block_size) token_ids.

(** The inputs of the digest in a chain of keys, and for a whole prompt. *)
Fixpoint chain_inputs (sha256 : list byte -> list byte) (parent : list byte) (blocks : list (list N)) : list (list byte) :=
  match blocks with
  | [] => []
  | b :: blocks => block_preimage_of parent b :: chain_inputs sha256 (hash_block sha256 parent b) blocks
  end.

Definition digested (sha256 : list byte -> list byte) (block_size seed : N) (token_ids : list N) : list (list byte) :=
  seed_preimage seed :: chain_inputs sha256 (sha256 (seed_preimage seed)) (chunks_exact_of (length token_ids) (N.to_nat block_size) token_ids).

(** Two different inputs, one of each list, have one digest. *)
Definition collision (sha256 : list byte -> list byte) (l l' : list (list byte)) : Prop :=
  exists a b, a ∈ l /\ b ∈ l' /\ a <> b /\ sha256 a = sha256 b.

(** ** The encoding can be read back *)

Lemma be_bytes_length k n : length (be_bytes_of k n) = k.
Proof. revert n. induction k as [|k IH]; intros n; [done|]. simpl. rewrite length_app, IH. simpl. lia. Qed.

Lemma be_value_bytes k n : n < 256 ^ N.of_nat k -> be_value_of (be_bytes_of k n) = n.
Proof.
  revert n. induction k as [|k IH]; intros n Hn; [simpl in Hn; unfold be_value_of; simpl; lia|].
  unfold be_value_of in *. simpl be_bytes_of. rewrite foldl_app. simpl. rewrite to_N_byte_of, IH.
  - pose proof (N.div_mod n 256). lia.
  - apply N.Div0.div_lt_upper_bound. rewrite Nat2N.inj_succ, N.pow_succ_r' in Hn. done.
Qed.

Lemma prefix_sum major v : v < 32 -> N.lor (N.shiftl major 5) v = 32 * major + v.
Proof.
  intros Hv. rewrite N.shiftl_mul_pow2. change (2 ^ 5) with 32. rewrite (N.mul_comm 32 major).
  assert (Hd : N.land (major * 32) v = 0).
  { change 32 with (2 ^ 5). rewrite <- N.shiftl_mul_pow2. apply N.bits_inj. intros i. rewrite N.land_spec, N.bits_0.
    destruct (N.ltb_spec i 5) as [Hi|Hi]; [by rewrite N.shiftl_spec_low|]. rewrite (N.testbit_eqb v), (N.div_small v).
    - by rewrite andb_false_r.
    - eapply N.lt_le_trans; [exact Hv|]. change 32 with (2 ^ 5). by apply N.pow_le_mono_r. }
  by rewrite N.add_nocarry_lxor, N.lxor_lor.
Qed.

Lemma header_byte major v : major <= 7 -> v < 32 ->
  Byte.to_N (byte_of (N.lor (N.shiftl major 5) v)) / 32 = major /\ Byte.to_N (byte_of (N.lor (N.shiftl major 5) v)) mod 32 = v.
Proof.
  intros Hm Hv. rewrite to_N_byte_of, prefix_sum by done. rewrite (N.mod_small (32 * major + v)) by lia.
  split; [symmetry; apply (N.div_unique _ _ _ v)|symmetry; apply (N.mod_unique _ _ major)]; lia.
Qed.

Lemma decode_encode major value rest : major <= 7 -> value < u64_mod ->
  read_head (encode_major major value ++ rest) = Some (major, value, rest).
Proof.
  intros Hm Hv. unfold encode_major.
  assert (Hlong : forall low k least, 24 <= low < 28 -> N.to_nat (2 ^ (low - 24)) = k -> value < 256 ^ N.of_nat k ->
    (if low =? 24 then 24 else 256 ^ (2 ^ (low - 25))) = least -> least <= value ->
    read_head ((byte_of (N.lor (N.shiftl major 5) low) :: be_bytes_of k value) ++ rest) = Some (major, value, rest)).
  { intros low k least Hl Hk Hval El Hleast. simpl app. unfold read_head. destruct (header_byte major low) as [-> ->]; [done|lia|].
    rewrite (proj2 (N.ltb_ge low 24)), (proj2 (N.ltb_lt low 28)), Hk, El by lia.
    rewrite take_app_length', drop_app_length' by (by rewrite be_bytes_length). rewrite be_value_bytes by done.
    rewrite (proj2 (Nat.leb_le _ _)) by (rewrite length_app, be_bytes_length; lia). by rewrite (proj2 (N.leb_le _ value)). }
  repeat match goal with |- context [if ?x <=? ?y then _ else _] => destruct (N.leb_spec x y) end.
  - simpl app. unfold read_head. destruct (header_byte major value) as [-> ->]; [done|lia|]. by rewrite (proj2 (N.ltb_lt _ _)) by lia.
  - apply (Hlong 24 1%nat 24); [lia|done|simpl; lia|done|lia].
  - apply (Hlong 25 2%nat 0x100); [lia|done|simpl; lia|done|lia].
  - apply (Hlong 26 4%nat 0x10000); [lia|done|simpl; lia|done|lia].
  - apply (Hlong 27 8%nat 0x100000000); [lia|done|exact Hv|done|lia].
Qed.

Lemma encode_inj m v r m' v' r' : m <= 7 -> m' <= 7 -> v < u64_mod -> v' < u64_mod ->
  encode_major m v ++ r = encode_major m' v' ++ r' -> m = m' /\ v = v' /\ r = r'.
Proof.
  intros Hm Hm' Hv Hv' E. pose proof (decode_encode m v r Hm Hv) as D. rewrite E, decode_encode in D by done. by injection D as -> -> ->.
Qed.

Lemma tokens_inj ts ts' r r' : Forall is_u32 ts -> Forall is_u32 ts' -> length ts = length ts' ->
  (ts ≫= encode_major 0) ++ r = (ts' ≫= encode_major 0) ++ r' -> ts = ts' /\ r = r'.
Proof.
  intros H1. revert ts'. induction H1 as [|t ts Ht _ IH]; intros [|t' ts'] H2 Hl E; try done. apply Forall_cons in H2 as [Ht' H2].
  simpl in E. rewrite <- !app_assoc in E. apply encode_inj in E as (_ & -> & E); [|done|done|unfold is_u32, u32_mod, u64_mod in *; lia..].
  destruct (IH ts' H2 ltac:(simpl in Hl; lia) E) as [-> ->]. done.
Qed.

Lemma block_preimage_of_inj p p' ts ts' : length p = length p' -> N.of_nat (length p) < u64_mod -> Forall is_u32 ts -> Forall is_u32 ts' ->
  N.of_nat (length ts) < u64_mod -> N.of_nat (length ts') < u64_mod ->
  block_preimage_of p ts = block_preimage_of p' ts' -> p = p' /\ ts = ts'.
Proof.
  intros Hp Hl H1 H2 H3 H4 E. unfold block_preimage_of in E.
  apply encode_inj in E as (_ & _ & E); [|done..]. apply encode_inj in E as (_ & _ & E); [|done|done|done|by rewrite <- Hp].
  apply app_inj_1 in E as [-> E]; [|done]. apply encode_inj in E as (_ & El & E); [|done..].
  apply tokens_inj in E as [-> _]; [done|done|done|lia].
Qed.

Lemma length_list_ascii s : length (String.list_ascii_of_string s) = String.length s.
Proof. induction s as [|x s IH]; simpl; [done|]. by rewrite IH. Qed.

Lemma pretty_go_length x s : (String.length (pretty_N_go x s) <= N.to_nat x + String.length s)%nat.
Proof.
  revert s. induction (N.lt_wf_0 x) as [x _ IH]. intros s. destruct (N.eq_dec x 0) as [->|Hx]; [by rewrite pretty_N_go_0|].
  rewrite pretty_N_go_step by lia. assert (x / 10 < x) by (apply N.div_lt; lia).
  etransitivity; [by apply IH|]. simpl. lia.
Qed.

Lemma pretty_length n : (String.length (pretty n) <= S (N.to_nat n))%nat.
Proof.
  unfold pretty, pretty_N. case_decide; [simpl; lia|]. etransitivity; [apply pretty_go_length|]. simpl. lia.
Qed.

Lemma seed_bound n : n <= u32_max -> N.of_nat (length (as_bytes (pretty n))) < u64_mod.
Proof.
  intros Hn. unfold as_bytes. rewrite length_fmap. rewrite length_list_ascii. pose proof (pretty_length n).
  unfold u32_max, u32_mod, u64_mod in *. lia.
Qed.

Lemma read_uint fuel t rest : is_u32 t -> read_item (S fuel) (encode_major 0 t ++ rest) = Some (CUint t, rest).
Proof. intros Ht. cbn [read_item]. rewrite decode_encode; [done|done|]. unfold is_u32, u32_mod, u64_mod in *. lia. Qed.

Lemma read_uints fuel ts rest : Forall is_u32 ts ->
  read_n (read_item (S fuel)) (length ts) ((ts ≫= encode_major 0) ++ rest) = Some (CUint <$> ts, rest).
Proof.
  induction 1 as [|t ts Ht _ IH]; [done|]. cbn [length read_n mbind list_bind]. rewrite <- app_assoc, read_uint by done.
  cbn [mbind option_bind]. by rewrite IH.
Qed.

Lemma read_bytes fuel major b rest : major = 2 \/ major = 3 -> N.of_nat (length b) < u64_mod ->
  read_item (S fuel) (encode_major major (N.of_nat (length b)) ++ b ++ rest) = Some ((if major =? 2 then CBytes else CText) b, rest).
Proof.
  intros Hm Hb. cbn [read_item]. rewrite decode_encode by (done || lia). cbn [mbind option_bind]. rewrite Nat2N.id.
  rewrite (proj2 (Nat.leb_le _ (length (b ++ rest)))) by (rewrite length_app; lia).
  rewrite take_app_length, drop_app_length. by destruct Hm as [-> | ->].
Qed.

Lemma read_array fuel n l : n < u64_mod ->
  read_item (S fuel) (encode_major 4 n ++ l) = ('(xs, l) ← read_n (read_item fuel) (N.to_nat n) l; Some (CArray xs, l)).
Proof. intros Hn. cbn [read_item]. by rewrite decode_encode by done. Qed.

(** What [new] digests is the seed in decimal, as text. *)
Lemma seed_encodes n : n <= u32_max -> encodes (seed_preimage n) (CText (as_bytes (pretty n))).
Proof.
  intros Hn. unfold encodes, seed_preimage. rewrite <- (app_nil_r (as_bytes (pretty n))) at 2.
  rewrite read_bytes; [done|by right|by apply seed_bound].
Qed.

(** What [hash_block] digests is the item of the block. *)
Lemma block_encodes p ts : N.of_nat (length p) < u64_mod -> Forall is_u32 ts -> N.of_nat (length ts) < u64_mod ->
  encodes (block_preimage_of p ts) (block_item p ts).
Proof.
  intros Hp Hts Hl. unfold encodes, block_preimage_of, block_item. rewrite read_array by done. change (N.to_nat 3) with 3%nat.
  cbn [read_n]. rewrite (read_bytes 1 2) by (done || by left). cbn [mbind option_bind].
  rewrite read_array, Nat2N.id by done. rewrite read_uints by done. done.
Qed.

Section chains.
Context (sha256 : list byte -> list byte) (sha256_length : forall x, length (sha256 x) = 32%nat).

Definition block_ok (b : list N) : Prop := Forall is_u32 b /\ N.of_nat (length b) < u64_mod.

Abbreviation key_after := (fun seed blocks => foldl (hash_block sha256) (sha256 (seed_preimage seed)) blocks).

Lemma key_length seed blocks : length (key_after seed blocks) = 32%nat.
Proof. destruct blocks as [|b blocks] using rev_ind; [apply sha256_length|]. rewrite foldl_app. apply sha256_length. Qed.

Lemma seed_block_apart seed p b : seed <= u32_max -> seed_preimage seed <> block_preimage_of p b.
Proof. intros Hs E. unfold seed_preimage, block_preimage_of in E. apply encode_inj in E as [? _]; [done|done|done|by apply seed_bound|done]. Qed.

Lemma seed_inj s s' : s <= u32_max -> s' <= u32_max -> seed_preimage s = seed_preimage s' -> s = s'.
Proof.
  intros Hs Hs' E. unfold seed_preimage in E. apply encode_inj in E as (_ & _ & E); [|done|done|by apply seed_bound..].
  by apply as_bytes_inj, (inj pretty) in E.
Qed.

Abbreviation inputs_of := (fun seed blocks => seed_preimage seed :: chain_inputs sha256 (sha256 (seed_preimage seed)) blocks).

Lemma chain_inputs_app p bs bs' :
  chain_inputs sha256 p (bs ++ bs') = chain_inputs sha256 p bs ++ chain_inputs sha256 (foldl (hash_block sha256) p bs) bs'.
Proof. revert p. induction bs as [|b bs IH]; intros p; [done|]. simpl. by rewrite IH. Qed.

(** The last input of a chain. *)
Lemma last_input seed bs b : block_preimage_of (key_after seed bs) b ∈ inputs_of seed (bs ++ [b]).
Proof. cbn beta. rewrite chain_inputs_app. apply elem_of_cons. right. apply elem_of_app. right. by left. Qed.

Lemma inputs_grow seed bs b : inputs_of seed bs ⊆ inputs_of seed (bs ++ [b]).
Proof. cbn beta. rewrite chain_inputs_app. intros x. rewrite !elem_of_cons, elem_of_app. tauto. Qed.

(** Equal keys come from the same seed and blocks, or two of the inputs collide. *)
Lemma key_inj s s' bs bs' : s <= u32_max -> s' <= u32_max -> Forall block_ok bs -> Forall block_ok bs' ->
  key_after s bs = key_after s' bs' -> s = s' /\ bs = bs' \/ collision sha256 (inputs_of s bs) (inputs_of s' bs').
Proof.
  intros Hs Hs' H1. revert bs'. induction bs as [|b bs IH] using rev_ind; intros bs' H2 E; destruct bs' as [|b' bs'] using rev_ind.
  - destruct (decide (seed_preimage s = seed_preimage s')) as [Ep|Ep]; [left; split; [by apply seed_inj|done]|right].
    exists (seed_preimage s), (seed_preimage s'). split_and!; [by left|by left|done|done].
  - right. rewrite foldl_app in E. exists (seed_preimage s), (block_preimage_of (key_after s' bs') b').
    split_and!; [by left|apply last_input|by apply seed_block_apart|done].
  - right. rewrite foldl_app in E. exists (block_preimage_of (key_after s bs) b), (seed_preimage s').
    split_and!; [apply last_input|by left|by apply not_eq_sym, seed_block_apart|done].
  - clear IHbs'. rewrite !foldl_app in E. apply Forall_app in H1 as [H1 [[Hb Hl] _]%Forall_cons], H2 as [H2 [[Hb' Hl'] _]%Forall_cons].
    destruct (decide (block_preimage_of (key_after s bs) b = block_preimage_of (key_after s' bs') b')) as [Ep|Ep].
    + apply block_preimage_of_inj in Ep as [Ek ->]; [|by rewrite !key_length|by rewrite key_length|done..].
      destruct (IH H1 bs' H2 Ek) as [[-> ->]|(x & y & Hx & Hy & ?)]; [by left|right]. exists x, y. split_and!; [by apply inputs_grow|by apply inputs_grow|tauto..].
    + right. eexists _, _. split_and!; [apply last_input|apply last_input|exact Ep|exact E].
Qed.
End chains.

(** ** Blocks *)

Lemma chunks_lookup {A} fuel size (l : list A) i : (0 < size)%nat -> (length l <= fuel)%nat ->
  chunks_exact_of fuel size l !! i = if (S i * size <=? length l)%nat then Some (take size (drop (i * size) l)) else None.
Proof.
  intros Hs. revert l i. induction fuel as [|fuel IH]; intros l i Hl; simpl.
  { rewrite (proj2 (Nat.leb_gt _ _)) by lia. done. }
  destruct (Nat.leb_spec size (length l)) as [Hle|Hgt]; [|rewrite (proj2 (Nat.leb_gt _ _)) by lia; done].
  destruct i as [|i]; simpl; [by rewrite (proj2 (Nat.leb_le _ _)) by lia|].
  rewrite IH by (rewrite length_drop; lia). rewrite length_drop, drop_drop. simpl.
  destruct (Nat.leb_spec (size + i * size) (length l - size)), (Nat.leb_spec (size + (size + i * size)) (length l)); try lia; done.
Qed.

Lemma chunks_take {A} fuel size (l : list A) n : (0 < size)%nat -> (length l <= fuel)%nat -> (n * size <= length l)%nat ->
  length (take n (chunks_exact_of fuel size l)) = n /\ mjoin (take n (chunks_exact_of fuel size l)) = take (n * size) l.
Proof.
  intros Hs. revert l n. induction fuel as [|fuel IH]; intros l n Hl Hn; [destruct n; [done|simpl in Hn; lia]|].
  destruct n as [|n]; [done|]. simpl in Hn |- *. rewrite (proj2 (Nat.leb_le _ _)) by lia. simpl.
  destruct (IH (drop size l) n) as [E1 E2]; [rewrite length_drop; lia|rewrite length_drop; lia|].
  rewrite E1. split; [done|]. rewrite E2. by rewrite take_take_drop.
Qed.

Lemma chained_lookup sha256 p blocks i : chained sha256 p blocks !! i = (fun _ => foldl (hash_block sha256) p (take (S i) blocks)) <$> blocks !! i.
Proof. revert p i. induction blocks as [|b blocks IH]; intros p [|i]; try done. simpl. rewrite IH. done. Qed.

Lemma elem_of_chunks {A} (P : A -> Prop) size (l b : list A) : (0 < size)%nat -> Forall P l -> b ∈ chunks_exact_of (length l) size l ->
  length b = size /\ Forall P b.
Proof.
  intros Hs Hl [i Hi]%list_elem_of_lookup. rewrite chunks_lookup in Hi by lia. destruct (Nat.leb_spec (S i * size) (length l)); [|done].
  injection Hi as <-. split; [rewrite length_take, length_drop; simpl in *; lia|]. by apply Forall_take, Forall_drop.
Qed.

Lemma generator_of sha256 bs seed g : new_generator sha256 bs seed = Some g ->
  0 < bs /\ seed <= u32_max /\ g = MkGenerator bs (sha256 (seed_preimage seed)).
Proof.
  unfold new_generator. destruct (N.ltb_spec 0 bs) as [Hb|]; [|done]. destruct (N.leb_spec seed u32_max) as [Hs|]; [|done].
  by intros [= <-].
Qed.

(** The keys of a prompt, one after the other. *)
Lemma keys_lookup sha256 bs seed g ts i : new_generator sha256 bs seed = Some g ->
  generate_block_keys sha256 g ts !! i =
    if (S i * N.to_nat bs <=? length ts)%nat
    then Some (foldl (hash_block sha256) (none_hash g) (take (S i) (chunks_exact_of (length ts) (N.to_nat bs) ts))) else None.
Proof.
  intros (Hb & _ & ->)%generator_of. unfold generate_block_keys. cbn [none_hash generator_block_size].
  rewrite chained_lookup, chunks_lookup by lia. by destruct (S i * N.to_nat bs <=? length ts)%nat.
Qed.

Lemma chunks_count {A} size (l : list A) : (0 < size)%nat -> length (chunks_exact_of (length l) size l) = (length l / size)%nat.
Proof.
  intros Hs. assert (forall i, (i < length (chunks_exact_of (length l) size l) <-> i < length l / size)%nat) as H.
  { intros i. rewrite <- lookup_lt_is_Some, chunks_lookup by lia. pose proof (Nat.div_mod (length l) size).
    pose proof (Nat.mod_upper_bound (length l) size). split.
    - destruct (Nat.leb_spec (S i * size) (length l)); [|by intros [? ?]]. intros _. apply Nat.div_le_lower_bound; lia.
    - intros Hi. rewrite (proj2 (Nat.leb_le _ _)); [done|]. nia. }
  destruct (Nat.lt_trichotomy (length (chunks_exact_of (length l) size l)) (length l / size)) as [Hl|[?|Hl]]; [|done|];
    apply H in Hl; lia.
Qed.

Lemma chain_inputs_prefix sha256 p n bs : chain_inputs sha256 p (take n bs) ⊆ chain_inputs sha256 p bs.
Proof. rewrite <- (take_drop n bs) at 2. rewrite chain_inputs_app. intros x. rewrite elem_of_app. tauto. Qed.

(** The key of a block is the digest of its item. *)
Lemma key_item sha256 bs seed g ts i key : (forall x, length (sha256 x) = 32%nat) -> new_generator sha256 bs seed = Some g ->
  bs < u64_mod -> Forall is_u32 ts -> generate_block_keys sha256 g ts !! i = Some key -> exists parent x,
  (none_hash g :: generate_block_keys sha256 g ts) !! i = Some parent /\ encodes x (block_item parent (block_tokens bs i ts)) /\ key = sha256 x.
Proof.
  intros Hsha Hg Hb Hts. rewrite (keys_lookup _ _ _ _ ts i Hg). destruct (Nat.leb_spec (S i * N.to_nat bs) (length ts)) as [Hi|]; [|done].
  intros [= <-]. apply generator_of in Hg as Hg'. destruct Hg' as (Hp & _ & Eg).
  assert (Hc : chunks_exact_of (length ts) (N.to_nat bs) ts !! i = Some (block_tokens bs i ts))
    by (rewrite chunks_lookup, (proj2 (Nat.leb_le _ _)) by lia; done).
  destruct (elem_of_chunks is_u32 (N.to_nat bs) ts _ ltac:(lia) Hts (list_elem_of_lookup_2 _ _ _ Hc)) as [Hlen Hu].
  set (parent := foldl (hash_block sha256) (none_hash g) (take i (chunks_exact_of (length ts) (N.to_nat bs) ts))).
  exists parent, (block_preimage_of parent (block_tokens bs i ts)). split_and!.
  - unfold parent. destruct i as [|i]; [done|]. cbn [lookup list_lookup].
    change (generate_block_keys sha256 g ts !! i = Some parent). rewrite (keys_lookup _ _ _ _ ts i Hg).
    by rewrite (proj2 (Nat.leb_le _ _)) by lia.
  - apply block_encodes; [|done|rewrite Hlen; lia]. unfold parent. rewrite Eg. cbn [none_hash]. by rewrite key_length.
  - rewrite (take_S_r _ _ _ Hc), foldl_app. done.
Qed.

(** Keys that agree are of one seed, block size and prefix, or two inputs collide. *)
Lemma keys_apart sha256 bs seed g bs' seed' g' ts ts' i j key :
  (forall x, length (sha256 x) = 32%nat) -> new_generator sha256 bs seed = Some g -> new_generator sha256 bs' seed' = Some g' ->
  bs < u64_mod -> bs' < u64_mod -> Forall is_u32 ts -> Forall is_u32 ts' ->
  generate_block_keys sha256 g ts !! i = Some key -> generate_block_keys sha256 g' ts' !! j = Some key ->
  seed = seed' /\ bs = bs' /\ i = j /\ prefix_tokens bs (S i) ts = prefix_tokens bs (S i) ts' \/
  collision sha256 (digested sha256 bs seed ts) (digested sha256 bs' seed' ts').
Proof.
  intros Hsha Hg Hg' Hb Hb' Hts Hts'. rewrite (keys_lookup _ _ _ _ ts i Hg), (keys_lookup _ _ _ _ ts' j Hg').
  apply generator_of in Hg as (Hp & Hs & ->), Hg' as (Hp' & Hs' & ->). cbn [none_hash].
  destruct (Nat.leb_spec (S i * N.to_nat bs) (length ts)) as [Hi|]; [|done].
  destruct (Nat.leb_spec (S j * N.to_nat bs') (length ts')) as [Hj|]; [|done]. intros [= E] [= <-].
  destruct (chunks_take (length ts) (N.to_nat bs) ts (S i)) as [Hl Hm]; [lia|done|done|].
  destruct (chunks_take (length ts') (N.to_nat bs') ts' (S j)) as [Hl' Hm']; [lia|done|done|].
  assert (Hok : forall n (l : list N) k, 0 < n -> Forall is_u32 l ->
    Forall (fun b => length b = N.to_nat n /\ Forall is_u32 b) (take k (chunks_exact_of (length l) (N.to_nat n) l))).
  { intros n l k Hn Hl0. apply Forall_take, Forall_forall. intros b. apply elem_of_chunks; [lia|done]. }
  pose proof (Hok bs ts (S i) Hp Hts) as H1. pose proof (Hok bs' ts' (S j) Hp' Hts') as H2. clear Hok.
  destruct (fun A B => key_inj sha256 Hsha seed seed' _ _ Hs Hs' A B E) as [[<- Eb]|(x & y & Hx & Hy & ?)].
  1,2: eapply Forall_impl; [eassumption|]; intros b [Hlen Hu]; split; [done|rewrite Hlen; lia].
  - left. rewrite Eb in H1, Hl, Hm. assert (i = j) as <- by congruence.
    destruct (take (S i) (chunks_exact_of (length ts') (N.to_nat bs') ts')) as [|b blocks]; [done|].
    apply Forall_cons in H1 as [[Hlen _] _], H2 as [[Hlen' _] _]. assert (bs = bs') as <- by lia. split_and!; try done. unfold prefix_tokens. congruence.
  - right. exists x, y. unfold digested. rewrite elem_of_cons in Hx, Hy |- *. rewrite elem_of_cons.
    split_and!; [destruct Hx; [by left|right; by eapply chain_inputs_prefix]|destruct Hy; [by left|right; by eapply chain_inputs_prefix]|tauto..].
Qed.

(** C14: The generator makes the engine's block keys, and they name prompt prefixes.  It
    is made exactly for a nonzero block size and a seed of 32 bits.  There is one key for
    each complete block; the key of a block is the digest of the canonical CBOR of the
    array of the parent's key as bytes, the array of the block's tokens and null, where
    the first parent is the digest of the canonical CBOR of the seed in decimal as text.
    When two prompts, under any seeds and block sizes, share a key, then the seeds, the
    block sizes, the places and the tokens up to the end of the block agree, or two
    different ones of the inputs digested for these very prompts have the same digest. *)
Theorem block_keys_exact sha256 bs seed ts : (forall x, length (sha256 x) = 32%nat) -> bs < u64_mod -> Forall is_u32 ts ->
  (is_Some (new_generator sha256 bs seed) <-> 0 < bs /\ seed <= u32_max) /\
  forall g, new_generator sha256 bs seed = Some g ->
  length (generate_block_keys sha256 g ts) = (length ts / N.to_nat bs)%nat /\
  (exists x, encodes x (CText (as_bytes (pretty seed))) /\ none_hash g = sha256 x) /\
  (forall i key, generate_block_keys sha256 g ts !! i = Some key -> exists parent x,
    (none_hash g :: generate_block_keys sha256 g ts) !! i = Some parent /\ encodes x (block_item parent (block_tokens bs i ts)) /\
    key = sha256 x) /\
  (forall bs' seed' g' ts' i j key, new_generator sha256 bs' seed' = Some g' -> bs' < u64_mod -> Forall is_u32 ts' ->
    generate_block_keys sha256 g ts !! i = Some key -> generate_block_keys sha256 g' ts' !! j = Some key ->
    seed = seed' /\ bs = bs' /\ i = j /\ prefix_tokens bs (S i) ts = prefix_tokens bs (S i) ts' \/
    collision sha256 (digested sha256 bs seed ts) (digested sha256 bs' seed' ts')).
Proof.
  intros Hsha Hb Hts. split.
  - unfold new_generator. destruct (N.ltb_spec 0 bs), (N.leb_spec seed u32_max); cbn [andb]; split; try (by intros [? ?]); try lia; by eauto.
  - intros g Hg. split_and!.
    + apply generator_of in Hg as (Hp & _ & ->). unfold generate_block_keys. cbn [none_hash generator_block_size].
      rewrite <- chunks_count by lia. generalize (sha256 (seed_preimage seed)) as p.
      induction (chunks_exact_of (length ts) (N.to_nat bs) ts) as [|b l IH]; intros p; [done|]. simpl. by rewrite IH.
    + apply generator_of in Hg as (_ & Hs & ->). exists (seed_preimage seed). split; [by apply seed_encodes|done].
    + intros i key. by apply (key_item sha256 bs seed).
    + intros bs' seed' g' ts' i j key Hg' Hb' Hts'. by apply (keys_apart sha256 bs seed g bs' seed' g').
Qed.

(** A digest of 32 bytes for the example: the end of the input. *)
Definition tail_digest (x : list byte) : list byte := take 32 (reverse x ++ replicate 32 x00).

Lemma block_keys_exact_witness : exists g key, new_generator tail_digest 2 42 = Some g /\
  generate_block_keys tail_digest g [1; 2; 3; 4; 5] !! 1%nat = Some key /\
  exists parent x, encodes x (block_item parent [3; 4]) /\ key = tail_digest x.
Proof.
  assert (Hlen : forall x, length (tail_digest x) = 32%nat) by
    (intros x; unfold tail_digest; rewrite length_take, length_app, length_replicate; lia).
  assert (Hts : Forall is_u32 [1; 2; 3; 4; 5]) by (by repeat constructor).
  destruct (block_keys_exact tail_digest 2 42 [1; 2; 3; 4; 5] Hlen eq_refl Hts) as [_ H].
  destruct (new_generator tail_digest 2 42) as [g|] eqn:Hg; [|vm_compute in Hg; discriminate].
  destruct (H g eq_refl) as (Hl & _ & Hkeys & _).
  destruct (generate_block_keys tail_digest g [1; 2; 3; 4; 5] !! 1%nat) as [key|] eqn:Hk;
    [|apply lookup_ge_None in Hk; rewrite Hl in Hk; vm_compute in Hk; lia].
  exists g, key. split; [reflexivity|]. split; [exact Hk|].
  destruct (Hkeys 1%nat key Hk) as (parent & x & _ & He & Ex). exists parent, x. split; [exact He|exact Ex].
Defined.
