(* ===== verification/KvDecode.v ===== *)
(** * Decoding of KV events ([src/kv_index/decode.rs])

    A payload becomes a batch of events or an error; nothing of a payload with a fault
    is kept.  The MessagePack parsers and the derived deserialisation of an event are
    other packages, the class [Msgpack]. *)

From S2P Require Import Prelude Ieee KvTypes.

Local Open Scope string_scope.

#[local] Set Warnings "-register-all".

(** [rmpv::Value]; a string that is not UTF-8 keeps its bytes. *)
Inductive MsgValue :=
| VNil
| VBoolean (b : bool)
| VInteger (z : Z)
| VF32 (x : f32)
| VF64 (x : f64)
| VString (s : result string (list byte))
| VBinary (b : list byte)
| VArray (l : list MsgValue)
| VMap (l : list (MsgValue * MsgValue))
| VExt (ty : Z) (b : list byte).

#[export] Instance msgpack_value : MsgpackValue := {| value := MsgValue; is_nil v := match v with VNil => true | _ => false end |}.

Definition msg_as_str (v : MsgValue) : option string := match v with VString (Ok s) => Some s | _ => None end.
Definition msg_as_u64 (v : MsgValue) : option N := match v with VInteger z => if (0 <=? z)%Z then Some (Z.to_N z) else None | _ => None end.
Definition msg_as_array (v : MsgValue) : option (list MsgValue) := match v with VArray l => Some l | _ => None end.
Definition msg_as_map (v : MsgValue) : option (list (MsgValue * MsgValue)) := match v with VMap l => Some l | _ => None end.

(** The packages: the syntax check of [rmp_serde], [rmpv]'s reader with the position it
    ends at, both with the nesting depth they allow, [Value::as_f64], the text of a
    value and [rmpv::ext::from_value]. *)
Class Msgpack := {
  check_syntax : nat -> list byte -> result unit string;
  read_value : nat -> list byte -> result (MsgValue * nat) string;
  msg_as_f64 : MsgValue -> option f64;
  display : MsgValue -> string;
  event_from_value : MsgValue -> result KVEvent string;
}.

Definition MAX_PAYLOAD_BYTES : N := 16 * 1024 * 1024.

Definition validate_wire_hash (hash : MsgValue) : result unit string :=
  match hash with
  | VBinary _ => Ok ()
  | _ => if bool_decide (is_Some (msg_as_u64 hash)) then Ok () else Err "KV wire hash must be bytes or an unsigned integer"
  end.

(** [for x in l { f(x)?; }] *)
Fixpoint each {A} (f : A -> result unit string) (l : list A) : result unit string :=
  match l with [] => Ok () | x :: l => match f x with Ok _ => each f l | Err e => Err e end end.

Fixpoint validate_utf8_strings (v : MsgValue) : result unit string :=
  match v with
  | VString (Err _) => Err "invalid UTF-8 KV event string"
  | VArray l => each validate_utf8_strings l
  | VMap l => each (fun kv => match validate_utf8_strings kv.1 with Ok _ => validate_utf8_strings kv.2 | Err e => Err e end) l
  | _ => Ok ()
  end.

(** The keys of an event, which are distinct strings. *)
Fixpoint event_keys (pairs : list (MsgValue * MsgValue)) (keys : gset string) : result (gset string) string :=
  match pairs with
  | [] => Ok keys
  | (key, _) :: pairs =>
      match msg_as_str key with
      | None => Err "KV event keys must be strings"
      | Some key => if bool_decide (key ∈ keys) then Err ("duplicate KV event field: " +:+ key) else event_keys pairs ({[key]} ∪ keys)
      end
  end.

Definition event_kind (pairs : list (MsgValue * MsgValue)) : option string :=
  '(_, v) ← head (filter (fun kv => msg_as_str kv.1 = Some "type") pairs); msg_as_str v.

Definition stored_required : list string := ["block_hashes"; "parent_block_hash"; "token_ids"; "block_size"; "lora_id"; "medium"; "lora_name"].

Definition fields_of (kind : string) : option (list string * list string) :=
  if bool_decide (kind = "BlockStored") then
    Some (["type"; "block_hashes"; "parent_block_hash"; "token_ids"; "block_size"; "lora_id"; "medium"; "lora_name"; "extra_keys"; "group_idx";
           "kv_cache_spec_kind"; "kv_cache_spec_sliding_window"; "locality"; "ownership"; "session_id"], stored_required)
  else if bool_decide (kind = "BlockRemoved") then
    Some (["type"; "block_hashes"; "medium"; "group_idx"; "locality"; "ownership"], ["block_hashes"; "medium"])
  else if bool_decide (kind = "AllBlocksCleared") then Some (["type"], [])
  else None.

Definition text_fields : list string := ["medium"; "lora_name"; "kv_cache_spec_kind"; "locality"; "ownership"; "session_id"].

(** The checks of one field. *)
Definition check_field `{Msgpack} (kv : MsgValue * MsgValue) : result unit string :=
  match msg_as_str kv.1 with
  | None => Ok ()
  | Some key =>
      if bool_decide (key = "block_hashes") then
        match msg_as_array kv.2 with
        | Some (h :: hs) => each validate_wire_hash (h :: hs)
        | _ => Err "KV event hashes must be a nonempty array"
        end
      else if bool_decide (key = "parent_block_hash") then (if is_nil kv.2 then Ok () else validate_wire_hash kv.2)
      else if bool_decide (key ∈ text_fields) then
        match kv.2 with
        | VString _ | VNil => Ok ()
        | _ => Err ("KV event field " +:+ display kv.1 +:+ " must be a string or nil")
        end
      else Ok ()
  end.

Section decode.
Context `{Msgpack}.

Definition decode_event (event : MsgValue) : result KVEvent string :=
  match msg_as_map event with
  | None => Err "KV event must be a tagged map"
  | Some pairs =>
      match event_keys pairs ∅ with
      | Err e => Err e
      | Ok keys =>
          match event_kind pairs with
          | None => Err "missing or invalid KV event type"
          | Some kind =>
              match fields_of kind with
              | None => Err ("unsupported KV event type: " +:+ kind)
              | Some (allowed, required) =>
                  match filter (fun key => key ∉ allowed) (btree_iter keys), filter (fun key => key ∉ keys) required with
                  | key :: _, _ => Err ("unsupported KV event field: " +:+ key)
                  | [], key :: _ => Err ("missing KV event field: " +:+ key)
                  | [], [] =>
                      match each check_field pairs with
                      | Err e => Err e
                      | Ok _ =>
                          match validate_utf8_strings event with
                          | Err e => Err e
                          | Ok _ => match event_from_value event with Ok ev => Ok ev | Err e => Err ("invalid KV event: " +:+ e) end
                          end
                      end
                  end
              end
          end
      end
  end.

(** [events.into_iter().map(decode_event).collect()] *)
Fixpoint decode_events (l : list MsgValue) : result (list KVEvent) string :=
  match l with
  | [] => Ok []
  | v :: l =>
      match decode_event v with
      | Err e => Err e
      | Ok ev => match decode_events l with Ok evs => Ok (ev :: evs) | Err e => Err e end
      end
  end.

Definition decode_rank (v : option MsgValue) : result (option N) string :=
  match v with
  | None | Some VNil => Ok None
  | Some rank => match msg_as_u64 rank with Some n => if (n <? 2 ^ 32)%N then Ok (Some n) else Err "invalid DP rank" | None => Err "invalid DP rank" end
  end.

Definition decode_ts (v : MsgValue) : option f64 :=
  x ← msg_as_f64 v; if is_finite x && SFleb (S754_zero false) x then Some x else None.

(** The timestamp, the events and the optional rank of a batch. *)
Definition decode_parts (first second : MsgValue) (third : option MsgValue) : result KVEventBatch string :=
  match decode_ts first with
  | None => Err "invalid KV event timestamp"
  | Some t =>
      match decode_rank third with
      | Err e => Err e
      | Ok rank =>
          match second with
          | VArray evs =>
              if (4096 <? N.of_nat (length evs))%N then Err "KV event batch exceeds the event limit"
              else match decode_events evs with Ok evs => Ok {| ts := t; events := evs; data_parallel_rank := rank |} | Err e => Err e end
          | _ => Err "KV events must be an array"
          end
      end
  end.

Definition decode_value (v : MsgValue) : result KVEventBatch string :=
  match v with
  | VArray [first; second] => decode_parts first second None
  | VArray [first; second; third] => decode_parts first second (Some third)
  | VArray _ => Err "KV batch requires timestamp, events, and optional rank"
  | _ => Err "KV event batch must be an array"
  end.

Definition decode_batch (payload : list byte) : result KVEventBatch string :=
  if (MAX_PAYLOAD_BYTES <? N.of_nat (length payload))%N then Err "KV event payload exceeds 16 MiB" else
  match check_syntax 16 payload with
  | Err e => Err ("invalid MessagePack: " +:+ e)
  | Ok _ =>
      match read_value 16 payload with
      | Err e => Err ("invalid MessagePack: " +:+ e)
      | Ok (v, position) => if negb (position =? length payload)%nat then Err "trailing bytes after KV event batch" else decode_value v
      end
  end.
End decode.

(** ** Specification *)

Definition wire_hash (v : MsgValue) : Prop := (exists b, v = VBinary b) \/ (exists n, v = VInteger (Z.of_N n)).

Definition field_ok (name : string) (v : MsgValue) : Prop :=
  (name = "block_hashes" -> exists hs, v = VArray hs /\ hs <> [] /\ Forall wire_hash hs) /\
  (name = "parent_block_hash" -> v = VNil \/ wire_hash v) /\
  (name ∈ text_fields -> v = VNil \/ exists s, v = VString s).

(** [inside v w]: [v] is [w] or occurs in it. *)
Inductive inside (v : MsgValue) : MsgValue -> Prop :=
| inside_here : inside v v
| inside_array l x : x ∈ l -> inside v x -> inside v (VArray l)
| inside_key l kv : kv ∈ l -> inside v kv.1 -> inside v (VMap l)
| inside_value l kv : kv ∈ l -> inside v kv.2 -> inside v (VMap l).

Definition all_text (v : MsgValue) : Prop := forall b, ~ inside (VString (Err b)) v.

(** A map of distinct names with a known kind, the fields of that kind, each of its
    shape, and text that is UTF-8 throughout. *)
Definition event_ok `{Msgpack} (v : MsgValue) (ev : KVEvent) : Prop := exists fields kind allowed required,
  v = VMap ((fun f => (VString (Ok f.1), f.2)) <$> fields) /\ NoDup fields.*1 /\
  ("type", VString (Ok kind)) ∈ fields /\ fields_of kind = Some (allowed, required) /\
  fields.*1 ⊆ allowed /\ required ⊆ fields.*1 /\ Forall (fun f => field_ok f.1 f.2) fields /\ all_text v /\ event_from_value v = Ok ev.

(** What follows the events of a batch. *)
Definition rank_of (rest : list MsgValue) (rank : option N) : Prop :=
  (rest = [] \/ rest = [VNil]) /\ rank = None \/ exists n, (n < 2 ^ 32)%N /\ rest = [VInteger (Z.of_N n)] /\ rank = Some n.

(** ** Lemmas *)

Lemma each_valid {A} (f : A -> result unit string) l : each f l = Ok () <-> Forall (fun x => f x = Ok ()) l.
Proof.
  induction l as [|x l IH]; simpl; [by split|]. rewrite Forall_cons, <- IH. destruct (f x) as [[]|]; naive_solver.
Qed.

Lemma msg_value_ind (P : MsgValue -> Prop) :
  (forall v, match v with VArray _ | VMap _ => False | _ => True end -> P v) -> (forall l, Forall P l -> P (VArray l)) ->
  (forall l, Forall (fun kv => P kv.1 /\ P kv.2) l -> P (VMap l)) -> forall v, P v.
Proof.
  intros H0 Ha Hm. fix IH 1. intros [| | | | | | |l|l|]; try (by apply H0).
  - apply Ha. induction l as [|x l IHl]; [constructor|]. constructor; [apply IH|exact IHl].
  - apply Hm. induction l as [|[k x] l IHl]; [constructor|]. constructor; [split; apply IH|exact IHl].
Qed.

Lemma utf8_ok v : validate_utf8_strings v = Ok () <-> all_text v.
Proof.
  induction v as [v Hv|l IH|l IH] using msg_value_ind.
  - assert (Hno : (forall b, v <> VString (Err b)) -> all_text v).
    { intros Hne b Hb. inversion Hb; subst; try done. by apply (Hne b). }
    destruct v as [| | | | |[s|b]| | | |]; try done; simpl; try (split; [by intros _; apply Hno|done]).
    split; [done|]. intros Ht. destruct (Ht b). constructor.
  - simpl. rewrite each_valid. unfold all_text in *. rewrite Forall_forall in IH |- *. split.
    + intros Hl b Hb. inversion Hb as [|? x Hx Hin| |]; subst. by apply (proj1 (IH x Hx) (Hl x Hx) b).
    + intros Hb x Hx. apply (IH x Hx). intros b Hi. apply (Hb b). by eapply inside_array.
  - simpl. rewrite each_valid. unfold all_text in *. rewrite Forall_forall in IH |- *. split.
    + intros Hl b Hb. inversion Hb as [| |? kv Hx Hin|? kv Hx Hin]; subst; destruct (IH kv Hx) as [I1 I2]; specialize (Hl kv Hx);
        destruct (validate_utf8_strings kv.1) as [[]|] eqn:E; try done; [by apply (proj1 I1 eq_refl b)|by apply (proj1 I2 Hl b)].
    + intros Hb kv Hx. destruct (IH kv Hx) as [I1 I2].
      rewrite (proj2 I1) by (intros b Hi; apply (Hb b); by eapply inside_key).
      apply I2. intros b Hi. apply (Hb b). by eapply inside_value.
Qed.

Lemma wire_hash_ok v : validate_wire_hash v = Ok () <-> wire_hash v.
Proof.
  unfold validate_wire_hash, wire_hash. destruct v as [| |z| | | | | | |]; simpl; try (split; [done|intros [[? ?]|[? ?]]; done]).
  - destruct (Z.leb_spec 0 z); simpl.
    + split; [|done]. intros _. right. exists (Z.to_N z). by rewrite Z2N.id.
    + split; [done|]. intros [[? ?]|[n [= ->]]]; [done|lia].
  - split; [|done]. intros _. left. by eexists.
Qed.

Lemma keys_ok pairs keys0 keys : event_keys pairs keys0 = Ok keys <-> exists fields,
  pairs = (fun f => (VString (Ok f.1), f.2)) <$> fields /\ NoDup fields.*1 /\ (forall k, k ∈ fields.*1 -> k ∉ keys0) /\ keys = list_to_set fields.*1 ∪ keys0.
Proof.
  revert keys0. induction pairs as [|[k v] pairs IH]; intros keys0; simpl.
  { split; [intros [= ->]; exists []; split_and!; [done|constructor|by intros ? ?%elem_of_nil|set_solver]|].
    intros (fields & E & _ & _ & ->). symmetry in E. apply fmap_nil_inv in E as ->. f_equal. set_solver. }
  split.
  - destruct (msg_as_str k) as [key|] eqn:Ek; [|done]. destruct k as [| | | | |[s|]| | | |]; try done. injection Ek as ->.
    destruct (bool_decide_reflect (key ∈ keys0)) as [|Hn]; [done|]. intros (fields & -> & Hnd & Hf & ->)%IH.
    exists ((key, v) :: fields). split_and!; [done| | |set_solver].
    + constructor; [|done]. intros Hin. specialize (Hf _ Hin). set_solver.
    + simpl. intros k [->|Hin]%elem_of_cons; [done|]. specialize (Hf _ Hin). set_solver.
  - intros ([|[key v'] fields] & [= -> -> ->] & Hnd & Hf & ->). simpl in *. apply NoDup_cons in Hnd as [Hnin Hnd].
    rewrite bool_decide_eq_false_2 by (apply Hf; left). apply IH. exists fields. split_and!; [done|done| |set_solver].
    intros k Hin. assert (k ∉ keys0) by (apply Hf; by right). set_solver.
Qed.

Lemma kind_ok fields kind : NoDup fields.*1 ->
  event_kind ((fun f => (VString (Ok f.1), f.2)) <$> fields) = Some kind <-> ("type", VString (Ok kind)) ∈ fields.
Proof.
  unfold event_kind. induction fields as [|[k v] fields IH]; intros Hnd; [split; [done|by intros ?%elem_of_nil]|].
  apply NoDup_cons in Hnd as [Hn Hnd]. csimpl. rewrite filter_cons, elem_of_cons. simpl. destruct (decide (Some k = Some "type")) as [[= ->]|Hk].
  - simpl. split.
    + destruct v as [| | | | |[s|]| | | |]; try done. intros [= ->]. by left.
    + intros [[= <-]|Hin]; [done|]. destruct Hn. apply list_elem_of_fmap. by exists ("type", VString (Ok kind)).
  - rewrite IH by done. split; [by right|]. intros [[= <- _]|]; [done|done].
Qed.

Section decoded.
Context `{Msgpack}.

Lemma field_checked name v : check_field (VString (Ok name), v) = Ok () <-> field_ok name v.
Proof.
  unfold check_field, field_ok. simpl. destruct (bool_decide_reflect (name = "block_hashes")) as [->|H1].
  { assert ("block_hashes" ∉ text_fields) by (apply (bool_decide_eq_false_1 _); vm_compute; reflexivity).
    split.
    - intros E. split; [|done]. intros _. destruct v as [| | | | | | |[|h hs]| |]; try done. change (each validate_wire_hash (h :: hs) = Ok ()) in E.
      exists (h :: hs). split_and!; [done|done|]. apply each_valid in E. eapply Forall_impl; [exact E|]. intros x. apply wire_hash_ok.
    - intros [(hs & -> & Hne & Hw) _]; [done|]. destruct hs as [|h hs]; [done|]. change (each validate_wire_hash (h :: hs) = Ok ()). apply each_valid. eapply Forall_impl; [exact Hw|]. intros x. apply wire_hash_ok. }
  destruct (bool_decide_reflect (name = "parent_block_hash")) as [->|H2].
  { assert ("parent_block_hash" ∉ text_fields) by (apply (bool_decide_eq_false_1 _); vm_compute; reflexivity).
    rewrite <- wire_hash_ok. destruct v; simpl; naive_solver. }
  destruct (bool_decide_reflect (name ∈ text_fields)) as [H3|H3].
  - destruct v; simpl; naive_solver.
  - naive_solver.
Qed.

Lemma fields_checked fields : each check_field ((fun f => (VString (Ok f.1), f.2)) <$> fields) = Ok () <-> Forall (fun f => field_ok f.1 f.2) fields.
Proof. rewrite each_valid, Forall_fmap. apply Forall_iff. intros [name v]. apply field_checked. Qed.

Lemma none_left {A} (P : A -> Prop) `{!forall x, Decision (P x)} l : filter (fun x => ~ P x) l = [] <-> Forall P l.
Proof.
  induction l as [|x l IH]; [by split|]. rewrite filter_cons, Forall_cons. destruct (decide (~ P x)) as [Hx|Hx].
  - split; [done|]. intros [? _]. done.
  - rewrite IH. split; [split; [by apply dec_stable|done]|by intros [_ ?]].
Qed.

Lemma event_decoded v ev : decode_event v = Ok ev <-> event_ok v ev.
Proof.
  unfold decode_event, event_ok. split.
  - destruct v as [| | | | | | | |pairs|]; try done. simpl msg_as_map. cbn iota.
    destruct (event_keys pairs ∅) as [keys|] eqn:Ek; [|done]. apply keys_ok in Ek as (fields & -> & Hnd & _ & ->).
    destruct (event_kind _) as [kind|] eqn:Ekind; [|done]. apply kind_ok in Ekind; [|done].
    destruct (fields_of kind) as [[allowed required]|] eqn:Ef; [|done].
    destruct (filter _ (btree_iter _)) eqn:E1; [|done]. destruct (filter _ required) eqn:E2; [|done].
    destruct (each check_field _) as [[]|] eqn:Ec; [|done]. destruct (validate_utf8_strings _) as [[]|] eqn:Eu; [|done].
    destruct (event_from_value _) as [ev'|] eqn:Ev; [|done]. intros [= ->].
    apply none_left in E1, E2. rewrite Forall_forall in E1, E2. exists fields, kind, allowed, required. split_and!; try done.
    + intros k Hk. apply E1, elem_of_btree. apply elem_of_union_l. by apply elem_of_list_to_set.
    + intros k Hk. apply E2 in Hk. rewrite elem_of_union, elem_of_list_to_set in Hk. set_solver.
    + by apply fields_checked.
    + by apply utf8_ok.
  - intros (fields & kind & allowed & required & -> & Hnd & Hk & Hf & Ha & Hr & Hc & Hu & Hev). simpl msg_as_map. cbn iota.
    rewrite (proj2 (keys_ok _ ∅ (list_to_set fields.*1 ∪ ∅))) by (exists fields; split_and!; [done|done|set_solver|done]).
    rewrite (proj2 (kind_ok fields kind Hnd)) by done. rewrite Hf.
    rewrite (proj2 (none_left (fun key => key ∈ allowed) _)) by (apply Forall_forall; intros k Hin; apply Ha; apply elem_of_btree in Hin; set_solver).
    rewrite (proj2 (none_left (fun key => key ∈ _) required)) by (apply Forall_forall; intros k Hin; specialize (Hr _ Hin); set_solver).
    rewrite (proj2 (fields_checked fields)) by done. rewrite (proj2 (utf8_ok _)) by done. by rewrite Hev.
Qed.

Lemma events_decoded l evs : decode_events l = Ok evs <-> Forall2 event_ok l evs.
Proof.
  revert evs. induction l as [|v l IH]; intros evs; simpl.
  { split; [by intros [= <-]|]. by intros ->%Forall2_nil_inv_l. }
  split.
  - destruct (decode_event v) as [ev|] eqn:E; [|done]. destruct (decode_events l) as [evs'|]; [|done]. intros [= <-].
    constructor; [by apply event_decoded|by apply IH].
  - intros (ev & evs' & Hev%event_decoded & Hevs%IH & ->)%Forall2_cons_inv_l. by rewrite Hev, Hevs.
Qed.
Lemma rank_decoded rest rank : (length rest <= 1)%nat -> decode_rank (head rest) = Ok rank <-> rank_of rest rank.
Proof.
  intros Hl. unfold rank_of, decode_rank. destruct rest as [|v [|]]; [|destruct v as [| |z| | | | | | |]|simpl in Hl; lia]; simpl; try naive_solver.
  destruct (Z.leb_spec 0 z); [|split; [done|]; intros [[[|]]|(n & _ & [= ->] & _)]; try done; lia].
  destruct (N.ltb_spec (Z.to_N z) (2 ^ 32)).
  - split.
    + intros [= <-]. right. exists (Z.to_N z). by rewrite Z2N.id.
    + intros [[[|]]|(n & _ & [= ->] & ->)]; try done. by rewrite N2Z.id.
  - split; [done|]. intros [[[|]]|(n & ? & [= ->] & _)]; try done. rewrite N2Z.id in *. lia.
Qed.

Lemma ts_decoded v x : decode_ts v = Some x <-> msg_as_f64 v = Some x /\ is_finite x = true /\ SFleb (S754_zero false) x = true.
Proof.
  unfold decode_ts. destruct (msg_as_f64 v) as [y|]; cbn [mbind option_bind]; [|split; [done|by intros [? _]]].
  destruct (is_finite y && SFleb (S754_zero false) y) eqn:E.
  - apply andb_true_iff in E. split; [intros [= <-]; done|intros ([= ->] & _ & _); done].
  - split; [done|]. intros ([= ->] & E1 & E2). by rewrite E1, E2 in E.
Qed.

(** The batch in a value: a timestamp, the events and at most one rank. *)
Lemma value_decoded v batch : decode_value v = Ok batch <-> exists first evs rest,
  v = VArray (first :: VArray evs :: rest) /\ (N.of_nat (length evs) <= 4096)%N /\ rank_of rest (data_parallel_rank batch) /\
  msg_as_f64 first = Some (ts batch) /\ is_finite (ts batch) = true /\ SFleb (S754_zero false) (ts batch) = true /\ Forall2 event_ok evs (events batch).
Proof.
  split.
  - unfold decode_value. destruct v as [| | | | | | |l| |]; try done. intros E.
    assert (exists first second rest, l = first :: second :: rest /\ (length rest <= 1)%nat /\ decode_parts first second (head rest) = Ok batch)
      as (first & second & rest & -> & Hl & E').
    { destruct l as [|first [|second [|third [|]]]]; try done; eexists first, second, _; (split; [done|]; split; [simpl; lia|exact E]). }
    clear E. revert E'. unfold decode_parts. destruct (decode_ts first) as [t|] eqn:Et; [|done]. apply ts_decoded in Et as (? & ? & ?).
    destruct (decode_rank (head rest)) as [rank|] eqn:Er; [|done]. apply rank_decoded in Er; [|done].
    destruct second as [| | | | | | |evs| |]; try done. destruct (N.ltb_spec 4096 (N.of_nat (length evs))); [done|].
    destruct (decode_events evs) as [evs'|] eqn:Ee; [|done]. apply events_decoded in Ee. intros [= <-]. by exists first, evs, rest.
  - intros (first & evs & rest & -> & Hle & Hr & Ht & Hfin & Hpos & Hev).
    assert (Hl : (length rest <= 1)%nat) by (destruct Hr as [[[->| ->] _]|(? & _ & -> & _)]; simpl; lia).
    apply rank_decoded in Hr; [|done]. apply events_decoded in Hev. pose proof (proj2 (ts_decoded first (ts batch)) (conj Ht (conj Hfin Hpos))) as Et.
    apply N.ltb_ge in Hle. destruct batch as [t evs' rank]. cbn [ts events data_parallel_rank] in *.
    assert (decode_value (VArray (first :: VArray evs :: rest)) = decode_parts first (VArray evs) (head rest)) as ->
      by (by destruct rest as [|x [|]]; [| |simpl in Hl; lia]).
    unfold decode_parts. by rewrite Et, Hr, Hle, Hev.
Qed.
End decoded.

(** C27: A payload is accepted exactly when it has at most 16 MiB, is one MessagePack
    value within the nesting depth, and that value is an array of a finite timestamp
    that is not negative, at most 4096 events and at most a rank of 32 bits, where each
    event is a map of distinct names with the fields of its kind, their shapes and only
    UTF-8 text. *)
Theorem batch_decoded `{Msgpack} payload batch : decode_batch payload = Ok batch <->
  (N.of_nat (length payload) <= MAX_PAYLOAD_BYTES)%N /\ check_syntax 16 payload = Ok () /\ exists first evs rest,
  read_value 16 payload = Ok (VArray (first :: VArray evs :: rest), length payload) /\ (N.of_nat (length evs) <= 4096)%N /\
  rank_of rest (data_parallel_rank batch) /\ msg_as_f64 first = Some (ts batch) /\ is_finite (ts batch) = true /\
  SFleb (S754_zero false) (ts batch) = true /\ Forall2 event_ok evs (events batch).
Proof.
  unfold decode_batch. split.
  - destruct (N.ltb_spec MAX_PAYLOAD_BYTES (N.of_nat (length payload))) as [|Hle]; [done|]. destruct (check_syntax 16 payload) as [[]|]; [|done].
    destruct (read_value 16 payload) as [[v n]|] eqn:Ev; [|done]. destruct (Nat.eqb_spec n (length payload)) as [->|]; [|done].
    intros (first & evs & rest & -> & Hrest)%value_decoded. split_and!; [done|done|]. by exists first, evs, rest.
  - intros (Hle & -> & first & evs & rest & -> & Hrest). apply N.ltb_ge in Hle. rewrite Hle, Nat.eqb_refl. cbn [negb].
    apply value_decoded. by exists first, evs, rest.
Qed.
