(* ===== verification/ProgramAdapter.v ===== *)
(** * Completion of program requests ([src/routers/http/program_adapter.rs],
      [src/token_estimator.rs])

    The router reads the usage of tokens out of a response, which arrives as one JSON
    body or as a stream of chunks, and completes the program's request once, when the
    response ends or the last handle of it is dropped.  The usage also calibrates the
    estimate of prompt tokens from bytes.  Parsing JSON is the class [JsonSlice]. *)

From S2P Require Import Prelude Ieee RequestPool ProgramRuntime KvTypes TextDecode HashKey Json.

Local Open Scope update_scope.

(** ** Estimates of prompt tokens *)

(** [a.mul_add(b, c)]: the product is not rounded. *)
Definition f64_mul_add (a b c : f64) : f64 :=
  match a, b with
  | S754_finite sa ma ea, S754_finite sb mb eb => SFadd 53 1024 (S754_finite (xorb sa sb) (ma * mb) (ea + eb)) c
  | _, _ => f64_add (f64_mul a b) c
  end.

Definition DEFAULT_TOKENS_PER_BYTE : f64 := f64_dec 25 100.
Definition DEFAULT_COEFFICIENT_MOMENTUM : f64 := f64_dec 9 10.
Definition MIN_TOKENS_PER_BYTE : f64 := f64_dec 1 100.
Definition MAX_TOKENS_PER_BYTE : f64 := usize_as_f64 4.

Record TokenEstimateScope := MkScope { scope_model_pool : string; scope_endpoint : string }.

#[export] Instance TokenEstimateScope_eq_dec : EqDecision TokenEstimateScope.
Proof. solve_decision. Defined.

#[export] Instance TokenEstimateScope_countable : Countable TokenEstimateScope.
Proof.
  refine (inj_countable' (fun s => (scope_model_pool s, scope_endpoint s)) (fun '(m, e) => MkScope m e) _).
  by intros [].
Defined.

Record TokenEstimateCalibration := MkCalibration { calibration_scope : TokenEstimateScope; input_bytes : N }.

Record MomentumTokenEstimator := MkEstimator { momentum : f64; coefficients : gmap TokenEstimateScope f64 }.

#[export] Instance MomentumTokenEstimator_eta : Eta MomentumTokenEstimator := fun e => MkEstimator (momentum e) (coefficients e).

(** [MomentumTokenEstimator::new], [None] when it panics *)
Definition new_estimator (m : f64) : option MomentumTokenEstimator :=
  if SFleb (S754_zero false) m && SFltb m (usize_as_f64 1) then Some (MkEstimator m ∅) else None.

Definition coefficient_of (scope : TokenEstimateScope) (e : MomentumTokenEstimator) : f64 :=
  default DEFAULT_TOKENS_PER_BYTE (coefficients e !! scope).

Definition estimate (scope : TokenEstimateScope) (input_text : string) (e : MomentumTokenEstimator) : N * TokenEstimateCalibration :=
  let input_bytes := N.of_nat (String.length input_text) in
  (N.max (f64_as_usize (f64_ceil (f64_mul (usize_as_f64 input_bytes) (coefficient_of scope e)))) 1, MkCalibration scope input_bytes).

Definition observe (c : TokenEstimateCalibration) (actual_prompt_tokens : N) (e : MomentumTokenEstimator) : option f64 * MomentumTokenEstimator :=
  if (input_bytes c =? 0)%N || (actual_prompt_tokens =? 0)%N then (None, e) else
  let observed := f64_clamp (f64_div (usize_as_f64 actual_prompt_tokens) (usize_as_f64 (input_bytes c))) MIN_TOKENS_PER_BYTE MAX_TOKENS_PER_BYTE in
  let updated := f64_mul_add (momentum e) (coefficient_of (calibration_scope c) e) (f64_mul (f64_sub (usize_as_f64 1) (momentum e)) observed) in
  (Some updated, e <| coefficients ::= <[calibration_scope c := updated]> |>).

Definition observe_feedback (c : TokenEstimateCalibration) (actual_prompt_tokens : option N) (e : MomentumTokenEstimator)
  : option f64 * MomentumTokenEstimator :=
  match actual_prompt_tokens with Some n => observe c n e | None => (None, e) end.

(** ** Usage *)

(** [serde_json::from_slice] *)
Class JsonSlice := from_slice : list byte -> option JsonValue.

Definition first_u64 (v : JsonValue) (fields : list string) : option N := find_map (fun f => value_get f v ≫= as_u64) fields.

(** Of one [usage] object: prompt tokens with the cached ones, which Anthropic's
    [input_tokens] leaves out. *)
Definition usage_of (usage : JsonValue) : ProgramUsageObservation :=
  let cache_read := first_u64 usage ["cache_read_input_tokens"; "cached_input_tokens"; "cached_tokens"]%string in
  let cache_creation := first_u64 usage ["cache_creation_input_tokens"]%string in
  let prompt := match value_get "prompt_tokens" usage ≫= as_u64 with
    | Some n => Some n
    | None => (fun tokens => u64_saturating_add (u64_saturating_add tokens (default 0%N cache_read)) (default 0%N cache_creation))
        <$> (value_get "input_tokens" usage ≫= as_u64)
    end in
  let cached := match (value_get "prompt_tokens_details" usage ≫= value_get "cached_tokens") ≫= as_u64 with
    | Some n => Some n
    | None =>
        match (value_get "input_tokens_details" usage ≫= value_get "cached_tokens") ≫= as_u64 with
        | Some n => Some n
        | None => cache_read
        end
    end in
  MkUsage prompt (first_u64 usage ["completion_tokens"; "output_tokens"]%string) cached.

Record ProgramUsageAccumulator := MkAccumulator { observation : ProgramUsageObservation; sse_buffer : list byte }.

#[export] Instance ProgramUsageAccumulator_eta : Eta ProgramUsageAccumulator := fun a => MkAccumulator (observation a) (sse_buffer a).

Definition new_accumulator : ProgramUsageAccumulator := MkAccumulator (MkUsage None None None) [].

Definition observe_value (v : JsonValue) (a : ProgramUsageAccumulator) : ProgramUsageAccumulator :=
  let usages := omap id [value_get "usage" v; value_get "message" v ≫= value_get "usage"; value_get "response" v ≫= value_get "usage"] in
  foldl (fun a usage => a <| observation ::= fun o => usage_merge o (usage_of usage) |>) a usages.

(** ** Lines of a stream *)

(** [std::str::from_utf8(..).is_ok()]; the fuel is the length. *)
Definition continuation (b : byte) : bool := (N.land (Byte.to_N b) 192 =? 128)%N.

Fixpoint valid_utf8_fuel (fuel : nat) (t : list byte) : bool :=
  match fuel, t with
  | _, [] => true
  | O, _ => false
  | S fuel, b :: t =>
      let n := Byte.to_N b in
      if (n <? 128)%N then valid_utf8_fuel fuel t
      else if (194 <=? n)%N && (n <=? 223)%N then
        match t with c :: t => continuation c && valid_utf8_fuel fuel t | _ => false end
      else if (224 <=? n)%N && (n <=? 239)%N then
        match t with
        | c :: d :: t =>
            let m := Byte.to_N c in
            continuation c && (negb (n =? 224)%N || (160 <=? m)%N) && (negb (n =? 237)%N || (m <=? 159)%N) && continuation d && valid_utf8_fuel fuel t
        | _ => false
        end
      else if (240 <=? n)%N && (n <=? 244)%N then
        match t with
        | c :: d :: e :: t =>
            let m := Byte.to_N c in
            continuation c && (negb (n =? 240)%N || (144 <=? m)%N) && (negb (n =? 244)%N || (m <=? 143)%N) && continuation d && continuation e &&
            valid_utf8_fuel fuel t
        | _ => false
        end
      else false
  end.

Definition valid_utf8 (t : list byte) : bool := valid_utf8_fuel (length t) t.

(** [windows(pat.len()).any(|window| window == pat)] *)
Fixpoint has_window (pat t : list byte) : bool :=
  bool_decide (take (length pat) t = pat) || match t with [] => false | _ :: t => has_window pat t end.

Definition trim_bytes (t : list byte) : list byte := bytes (trim (str t)).

Definition USAGE : list byte := [x22] ++ bytes "usage" ++ [x22].

(** [while line.last() is '\n' or '\r' { line.pop(); }], on the reversed line *)
Fixpoint pop_reversed (r : list byte) : list byte :=
  match r with
  | b :: r' => if bool_decide (b = x0a) || bool_decide (b = x0d) then pop_reversed r' else r
  | [] => []
  end.

Definition pop_line_end (line : list byte) : list byte := reverse (pop_reversed (reverse line)).

Definition MAX_PARTIAL_SSE_BYTES : N := 1024 * 1024.

Definition take_line (buffer : list byte) : option (list byte * list byte) :=
  '(n, _) ← list_find (fun b => b = x0a) buffer; Some (take (S n) buffer, drop (S n) buffer).

(** ** The completion of a request *)

(** [scheduler.complete(dispatch, success, false, usage, decode_seconds)] *)
Record CompleteCall := MkComplete {
  call_dispatch : ProgramDispatch; call_success : bool; call_usage : ProgramUsageObservation; call_decode_seconds : option f64;
}.

(** The state behind the shared handles, the number of handles, the estimator and the
    calls the scheduler got. *)
Record ProgramCompletion := MkCompletion {
  dispatch : ProgramDispatch;
  usage : ProgramUsageAccumulator;
  first_stream_output_at : option N;
  calibration : TokenEstimateCalibration;
  finished : bool;
  handle_count : nat;
  estimator : MomentumTokenEstimator;
  calls : list CompleteCall;
}.

#[export] Instance ProgramCompletion_eta : Eta ProgramCompletion := fun c =>
  MkCompletion (dispatch c) (usage c) (first_stream_output_at c) (calibration c) (finished c) (handle_count c) (estimator c) (calls c).

Definition new_completion (d : ProgramDispatch) (e : MomentumTokenEstimator) (cal : TokenEstimateCalibration) : ProgramCompletion :=
  MkCompletion d new_accumulator None cal false 1 e [].

Section adapter.
Context `{JsonSlice}.

Definition observe_json (body : list byte) (a : ProgramUsageAccumulator) : ProgramUsageAccumulator :=
  match from_slice body with Some v => observe_value v a | None => a end.

Definition observe_sse_line (line : list byte) (a : ProgramUsageAccumulator) : ProgramUsageAccumulator :=
  if negb (valid_utf8 line) then a else
  let line := trim_bytes line in
  let prefix := bytes "data:" in
  if negb (bool_decide (take (length prefix) line = prefix)) then a else
  let data := trim_bytes (drop (length prefix) line) in
  if has_window USAGE data then observe_json data a else a.

(** The loop over the complete lines of the buffer; the fuel is its length. *)
Fixpoint drain_lines (fuel : nat) (a : ProgramUsageAccumulator) : ProgramUsageAccumulator :=
  match fuel with
  | O => a
  | S fuel =>
      match take_line (sse_buffer a) with
      | Some (line, rest) => drain_lines fuel (observe_sse_line (pop_line_end line) (a <| sse_buffer := rest |>))
      | None => a
      end
  end.

Definition observe_sse_chunk (chunk : list byte) (a : ProgramUsageAccumulator) : ProgramUsageAccumulator :=
  let a := a <| sse_buffer ::= fun b => b ++ chunk |> in
  let a := drain_lines (length (sse_buffer a)) a in
  if (MAX_PARTIAL_SSE_BYTES <? N.of_nat (length (sse_buffer a)))%N then a <| sse_buffer := [] |> else a.

Definition finish_sse (a : ProgramUsageAccumulator) : ProgramUsageAccumulator :=
  match sse_buffer a with
  | [] => a
  | line => observe_sse_line line (a <| sse_buffer := [] |>)
  end.

Definition completion_observe_json (body : list byte) (c : ProgramCompletion) : ProgramCompletion := c <| usage ::= observe_json body |>.

Definition completion_observe_chunk (chunk : list byte) (now : N) (c : ProgramCompletion) : ProgramCompletion :=
  let c := match chunk, first_stream_output_at c with _ :: _, None => c <| first_stream_output_at := Some now |> | _, _ => c end in
  c <| usage ::= observe_sse_chunk chunk |>.

Definition finish (success : bool) (now : N) (c : ProgramCompletion) : ProgramCompletion :=
  if finished c then c else
  let c := c <| finished := true |> <| usage ::= finish_sse |> in
  let o := observation (usage c) in
  let c := if success then c <| estimator ::= fun e => (observe_feedback (calibration c) (prompt_tokens o) e).2 |> else c in
  let decode_seconds := (fun first => as_secs_f64 (saturating_sub now first)) <$> first_stream_output_at c in
  c <| calls ::= fun l => l ++ [MkComplete (dispatch c) success o decode_seconds] |>.

(** Dropping a handle; the last one drops the state, which finishes it. *)
Definition drop_handle (now : N) (c : ProgramCompletion) : ProgramCompletion :=
  let c := c <| handle_count ::= pred |> in
  match handle_count c with O => finish false now c | S _ => c end.

Inductive step :=
| Clone
| Drop (now : N)
| Body (body : list byte)
| Chunk (chunk : list byte) (now : N)
| Finish (success : bool) (now : N).

(** A step is taken through a handle. *)
Definition perform (s : step) (c : ProgramCompletion) : option ProgramCompletion :=
  if (handle_count c =? 0)%nat then None else
  Some match s with
  | Clone => c <| handle_count ::= S |>
  | Drop now => drop_handle now c
  | Body body => completion_observe_json body c
  | Chunk chunk now => completion_observe_chunk chunk now c
  | Finish success now => finish success now c
  end.
End adapter.

(** ** Specification *)

(** The complete lines of a stream, with their line feeds, and what follows them. *)
Fixpoint split_lines (t : list byte) : list (list byte) * list byte :=
  match t with
  | [] => ([], [])
  | b :: t =>
      let '(ls, rest) := split_lines t in
      if bool_decide (b = x0a) then ([b] :: ls, rest)
      else match ls with [] => ([], b :: rest) | l :: ls => ((b :: l) :: ls, rest) end
  end.

(** The usage of a whole stream. *)
Definition stream_usage `{JsonSlice} (t : list byte) : ProgramUsageObservation :=
  let '(ls, rest) := split_lines t in
  let a := foldl (fun a l => observe_sse_line (pop_line_end l) a) new_accumulator ls in
  observation (match rest with [] => a | _ => observe_sse_line rest a end).

(** The success the first [Finish] reports, [false] when there is none. *)
Fixpoint first_finish (ss : list step) : bool :=
  match ss with
  | [] => false
  | Finish success _ :: _ => success
  | _ :: ss => first_finish ss
  end.

(** The chunks that arrive before the first [Finish]. *)
Fixpoint chunks_before (ss : list step) : list (list byte) :=
  match ss with
  | [] | Finish _ _ :: _ => []
  | Chunk chunk _ :: ss => chunk :: chunks_before ss
  | _ :: ss => chunks_before ss
  end.

Definition streamed (s : step) : Prop := match s with Body _ => False | _ => True end.

Definition short_lines (t : list byte) : Prop :=
  Forall (fun l => N.of_nat (length l) <= MAX_PARTIAL_SSE_BYTES)%N ((split_lines t).1 ++ [(split_lines t).2]).

#[export] Instance short_lines_dec t : Decision (short_lines t).
Proof. unfold short_lines. apply _. Defined.

(** ** Lines *)

Lemma take_line_split t : match take_line t with
  | Some (line, rest) => split_lines t = (line :: (split_lines rest).1, (split_lines rest).2) /\ length rest < length t
  | None => split_lines t = ([], t)
  end.
Proof.
  induction t as [|b t IH]; [done|]. unfold take_line in *. simpl list_find. destruct (decide (b = x0a)) as [->|Hb].
  - simpl. rewrite drop_0. destruct (split_lines t) as [ls rest]. simpl. split; [done|lia].
  - destruct (list_find (fun b => b = x0a) t) as [[n x]|]; simpl in IH |- *; destruct (split_lines t) as [ls rest]; rewrite bool_decide_eq_false_2 by done.
    + destruct IH as [[= -> ->] Hl]. split; [done|]. simpl in Hl. lia.
    + by injection IH as -> ->.
Qed.

Lemma split_rest_plain t b : b ∈ (split_lines t).2 -> b <> x0a.
Proof.
  induction t as [|c t IH]; simpl; [by intros ?%elem_of_nil|]. destruct (split_lines t) as [ls rest]. simpl in IH.
  case_bool_decide; [done|]. destruct ls; simpl; [|done]. by intros [->|?]%elem_of_cons; [|apply IH].
Qed.

(** A line that began before [t]. *)
Lemma split_prefixed r t : (forall b, b ∈ r -> b <> x0a) -> split_lines (r ++ t) =
  match (split_lines t).1 with [] => ([], r ++ (split_lines t).2) | l :: ls => ((r ++ l) :: ls, (split_lines t).2) end.
Proof.
  induction r as [|b r IH]; intros Hr; simpl; [by destruct (split_lines t) as [[|] ?]|].
  rewrite IH by (intros c Hc; apply Hr; by right). rewrite bool_decide_eq_false_2 by (apply Hr; left).
  by destruct (split_lines t) as [[|] ?].
Qed.

Lemma split_app t u : split_lines (t ++ u) =
  ((split_lines t).1 ++ (split_lines ((split_lines t).2 ++ u)).1, (split_lines ((split_lines t).2 ++ u)).2).
Proof.
  induction t as [|b t IH]; simpl; [by destruct (split_lines u)|]. rewrite IH. destruct (split_lines t) as [ls rest] eqn:E. simpl.
  case_bool_decide as Hb; [done|]. destruct ls as [|l ls]; [|done]. simpl.
  destruct (split_lines (rest ++ u)) as [ls' rest']. simpl. rewrite bool_decide_eq_false_2 by done. by destruct ls'.
Qed.

Lemma short_prefix t u : short_lines (t ++ u) -> (N.of_nat (length (split_lines t).2) <= MAX_PARTIAL_SSE_BYTES)%N.
Proof.
  unfold short_lines. rewrite split_app. simpl. rewrite split_prefixed by apply split_rest_plain.
  destruct (split_lines u) as [[|l ls] rest]; simpl; rewrite ?app_nil_r, !Forall_app.
  - intros [_ [Hl _]%Forall_cons]. rewrite length_app in Hl. lia.
  - intros [[_ [Hl _]%Forall_cons] _]. rewrite length_app in Hl. lia.
Qed.

Section streams.
Context `{JsonSlice}.

Lemma observe_value_eq v a : observe_value v a = MkAccumulator (observation (observe_value v (MkAccumulator (observation a) []))) (sse_buffer a).
Proof.
  unfold observe_value. generalize (omap id [value_get "usage" v; value_get "message" v ≫= value_get "usage"; value_get "response" v ≫= value_get "usage"]).
  intros us. destruct a as [o b]. simpl. revert o. induction us as [|x us IH]; intros o; [done|]. simpl. apply IH.
Qed.

Definition line_usage (l : list byte) (o : ProgramUsageObservation) : ProgramUsageObservation := observation (observe_sse_line l (MkAccumulator o [])).

Lemma observe_line_eq l a : observe_sse_line l a = MkAccumulator (line_usage l (observation a)) (sse_buffer a).
Proof.
  unfold line_usage, observe_sse_line, observe_json. destruct a as [o b].
  repeat match goal with |- context [if ?x then _ else _] => destruct x; [try done|try done] end.
  destruct (from_slice _); [|done]. apply observe_value_eq.
Qed.

Definition lines_usage (ls : list (list byte)) (o : ProgramUsageObservation) : ProgramUsageObservation :=
  foldl (fun o l => line_usage (pop_line_end l) o) o ls.

Lemma drain_ok fuel a : length (sse_buffer a) <= fuel ->
  drain_lines fuel a = MkAccumulator (lines_usage (split_lines (sse_buffer a)).1 (observation a)) (split_lines (sse_buffer a)).2.
Proof.
  revert a. induction fuel as [|fuel IH]; intros [o b] Hf; simpl in *; [by destruct b; [|simpl in Hf; lia]|].
  pose proof (take_line_split b) as Ht. destruct (take_line b) as [[line rest]|]; [|by rewrite Ht]. destruct Ht as [-> Hl].
  rewrite observe_line_eq. simpl. rewrite IH by (simpl; lia). done.
Qed.

Lemma chunks_ok cs t o : short_lines (t ++ mjoin cs) ->
  foldl (fun a c => observe_sse_chunk c a) (MkAccumulator (lines_usage (split_lines t).1 o) (split_lines t).2) cs =
  MkAccumulator (lines_usage (split_lines (t ++ mjoin cs)).1 o) (split_lines (t ++ mjoin cs)).2.
Proof.
  revert t. induction cs as [|c cs IH]; intros t Hs; simpl; [by rewrite app_nil_r|]. simpl in Hs. rewrite app_assoc in Hs |- *.
  rewrite <- IH by done. f_equal. unfold observe_sse_chunk. rewrite drain_ok by done. cbn.
  rewrite (split_app t c). simpl. pose proof (short_prefix _ _ Hs) as Hm. rewrite (split_app t c) in Hm. simpl in Hm.
  rewrite (proj2 (N.ltb_ge _ _)) by done. f_equal. unfold lines_usage. by rewrite foldl_app.
Qed.

(** However a stream is cut into chunks, its usage is that of its lines. *)
Lemma stream_read cs : short_lines (mjoin cs) ->
  observation (finish_sse (foldl (fun a c => observe_sse_chunk c a) new_accumulator cs)) = stream_usage (mjoin cs).
Proof.
  intros Hs. change new_accumulator with (MkAccumulator (lines_usage (split_lines []).1 (MkUsage None None None)) (split_lines []).2).
  rewrite chunks_ok by done. rewrite app_nil_l. unfold stream_usage. destruct (split_lines (mjoin cs)) as [ls rest]. simpl.
  assert (Hfold : forall a, foldl (fun a l => observe_sse_line (pop_line_end l) a) a ls = MkAccumulator (lines_usage ls (observation a)) (sse_buffer a)).
  { clear. induction ls as [|l ls IH]; intros [o b]; [done|]. simpl. rewrite observe_line_eq. rewrite IH. done. }
  rewrite Hfold. unfold finish_sse. simpl. destruct rest as [|b rest]; [done|]. done.
Qed.

(** ** Completion *)

Lemma chunk_keeps chunk now c (c1 := completion_observe_chunk chunk now c) :
  finished c1 = finished c /\ calls c1 = calls c /\ handle_count c1 = handle_count c /\ dispatch c1 = dispatch c /\ usage c1 = observe_sse_chunk chunk (usage c).
Proof. unfold c1, completion_observe_chunk. by destruct chunk, (first_stream_output_at c). Qed.

Lemma finished_step s c c' : finished c = true -> perform s c = Some c' -> finished c' = true /\ calls c' = calls c.
Proof.
  intros Hf. unfold perform. destruct (handle_count c =? 0)%nat; [done|]. intros [= <-].
  assert (Hfin : forall b now c, finished c = true -> finish b now c = c) by (intros b now c0 E; unfold finish; by rewrite E).
  destruct s as [|now|body|chunk now|b now]; try done.
  - unfold drop_handle. destruct (handle_count _); [|done]. by rewrite Hfin.
  - destruct (chunk_keeps chunk now c) as (-> & -> & _). done.
  - by rewrite Hfin.
Qed.

Lemma finished_stays ss c c' : finished c = true -> foldM perform ss c = Some c' -> finished c' = true /\ calls c' = calls c.
Proof.
  revert c. induction ss as [|s ss IH]; intros c Hf; simpl; [by intros [= <-]|].
  destruct (perform s c) as [c1|] eqn:Ep; [|done]. simpl. apply finished_step in Ep as [Hf1 <-]; [|done]. by apply IH.
Qed.

(** What a call of the scheduler says. *)
Definition call_says (d : ProgramDispatch) (success : bool) (o : ProgramUsageObservation) (l : list CompleteCall) : Prop :=
  exists call, l = [call] /\ call_dispatch call = d /\ call_success call = success /\ call_usage call = o.

Lemma finish_calls b now c : finished c = false -> calls c = [] ->
  finished (finish b now c) = true /\ call_says (dispatch c) b (observation (finish_sse (usage c))) (calls (finish b now c)).
Proof.
  intros Hf Hc. unfold finish. rewrite Hf. destruct b; cbn; rewrite Hc; (split; [done|]); by eexists.
Qed.

Lemma finish_handles b now c : handle_count (finish b now c) = handle_count c.
Proof. unfold finish. by destruct (finished c), b. Qed.

Lemma completion_runs ss c c' : finished c = false -> calls c = [] -> Forall streamed ss -> foldM perform ss c = Some c' ->
  let a := foldl (fun a c => observe_sse_chunk c a) (usage c) (chunks_before ss) in
  (finished c' = false /\ calls c' = [] /\ (handle_count c <> 0 -> handle_count c' <> 0)) \/
  call_says (dispatch c) (first_finish ss) (observation (finish_sse a)) (calls c').
Proof.
  intros Hf Hc Hs. revert c Hf Hc. induction Hs as [|s ss Hs Hss IH]; intros c Hf Hc; simpl; [intros [= <-]; by left|].
  destruct (perform s c) as [c1|] eqn:Ep; [|done]. cbn [mbind option_bind]. unfold perform in Ep.
  destruct (Nat.eqb_spec (handle_count c) 0) as [|Hn]; [done|]. injection Ep as <-.
  destruct s as [|now|body|chunk now|b now]; simpl in Hs; try done.
  - intros E. apply IH in E as [(? & ? & Hh)|?]; [left|by right|exact Hf|exact Hc]. split_and!; [done|done|].
    intros _. by apply Hh.
  - unfold drop_handle. cbn [handle_count]. destruct (handle_count (c <| handle_count ::= pred |>)) as [|n] eqn:Eh.
    + set (c1 := c <| handle_count ::= pred |>) in *. intros E. destruct (finish_calls false now c1 Hf Hc) as [_ Hsay].
      assert (ss = []) as ->.
      { destruct ss as [|s' ss]; [done|]. simpl in E. destruct (perform s' _) eqn:Ep; [|done]. unfold perform in Ep.
        rewrite finish_handles, Eh in Ep. done. }
      injection E as <-. right. exact Hsay.
    + intros E. apply IH in E as [(? & ? & Hh)|?]; [left|by right|exact Hf|exact Hc]. split_and!; [done|done|]. intros _. apply Hh. by rewrite Eh.
  - destruct (chunk_keeps chunk now c) as (E1 & E2 & E3 & E4 & E5). intros E. apply IH in E; [|by rewrite E1|by rewrite E2].
    rewrite E3, E4, E5 in E. done.
  - intros E. right. destruct (finish_calls b now c Hf Hc) as [Hfin Hsay]. apply finished_stays in E as [_ ->]; done.
Qed.
End streams.

(** C25: A streamed response is accounted for once.  However its handles are cloned,
    dropped and finished, when the last is gone the scheduler got exactly one completion,
    for this dispatch and with the success that was reported first (a failure when none
    was).  If no line of the stream is longer than 1 MiB, where the code starts to discard
    what it has of a line, its usage is that of the lines that arrived before the first
    report, however they were cut into chunks. *)
Theorem response_accounted `{JsonSlice} d e cal ss c : Forall streamed ss ->
  foldM perform ss (new_completion d e cal) = Some c -> handle_count c = 0 ->
  exists o, call_says d (first_finish ss) o (calls c) /\
    (short_lines (mjoin (chunks_before ss)) -> o = stream_usage (mjoin (chunks_before ss))).
Proof.
  intros Hs E Hh. destruct (completion_runs ss (new_completion d e cal) c eq_refl eq_refl Hs E) as [(_ & _ & Hn)|Hsay]; [by destruct (Hn ltac:(done))|].
  eexists. split; [exact Hsay|]. apply stream_read.
Qed.

(** A parser that knows one document. *)
#[local] Instance one_usage : JsonSlice := fun t =>
  if bool_decide (t = [x7b] ++ USAGE ++ [x7d])
  then Some (JObject [("usage", JObject [("input_tokens", JNumber (PosInt 10)); ("cached_tokens", JNumber (PosInt 30)); ("output_tokens", JNumber (PosInt 5))])])%string
  else None.

Definition sse_line : list byte := bytes "data: {" ++ USAGE ++ bytes "}" ++ [x0d; x0a].

Definition response_steps : list step := [Clone; Chunk (take 9 sse_line) 1; Chunk (drop 9 sse_line) 2; Finish true 3; Drop 4; Finish false 5; Drop 6].

Definition response_dispatch : ProgramDispatch :=
  MkDispatch (MkRef "pool" "program" 0) "target" 0 0 0 40 false None default_hints.

Definition response_start : ProgramCompletion :=
  new_completion response_dispatch (MkEstimator DEFAULT_COEFFICIENT_MOMENTUM ∅) (MkCalibration (MkScope "pool" "chat") 160).

Lemma response_accounted_witness : exists c,
  foldM perform response_steps response_start = Some c /\ call_says response_dispatch true (MkUsage (Some 40) (Some 5) (Some 30))%N (calls c).
Proof.
  assert (Hh : handle_count <$> foldM perform response_steps response_start = Some 0) by (vm_compute; reflexivity).
  destruct (foldM perform response_steps response_start) as [c|] eqn:E; [|discriminate Hh]. injection Hh as Hh. exists c. split; [reflexivity|].
  destruct (response_accounted response_dispatch (MkEstimator DEFAULT_COEFFICIENT_MOMENTUM ∅) (MkCalibration (MkScope "pool" "chat") 160) response_steps c)
    as (o & Hsay & Ho); [repeat constructor|exact E|exact Hh|].
  replace (MkUsage (Some 40) (Some 5) (Some 30))%N with o; [exact Hsay|]. rewrite Ho; [vm_compute; reflexivity|].
  apply (bool_decide_unpack (short_lines (mjoin (chunks_before response_steps)))). vm_compute. exact I.
Defined.

(** The estimate of 400 bytes is 100 tokens; after 200 were counted the coefficient is
    0.275, and 800 bytes are 220 tokens. *)
Example feedback_calibrates :
  let scope := MkScope "model" "/v1/chat/completions" in
  let e := MkEstimator DEFAULT_COEFFICIENT_MOMENTUM ∅ in
  let text n := String.string_of_list_byte (replicate n x78) in
  let '(initial, c) := estimate scope (text 400) e in
  let '(coefficient, e) := observe c 200 e in
  initial = 100%N /\ coefficient = Some (f64_dec 275 1000) /\ (estimate scope (text 800) e).1 ∈ [220; 221]%N.
Proof. vm_compute. split_and!; [reflexivity|reflexivity|]. repeat constructor. Qed.
