(* ===== verification/ServiceDiscovery.v ===== *)
(** * Discovery of workers in Kubernetes ([src/service_discovery.rs])

    Pods that match the selectors and are healthy are added to the router, and removed
    when they are deleted.  The watch delivers pods one after the other; a pod is the
    part of the Kubernetes object the code reads.  The router is any implementation
    of the class [RouterTrait], which answers its calls as it likes; the text of an
    IPv6 address is the class [Ipv6Text]. *)

From S2P Require Import Prelude.
From stdpp Require Import pretty.
From Stdlib Require Import Strings.Ascii.
From S2P Require Import WorkerUrl.

Local Open Scope string_scope.

(** ** Pods *)

Record PodStatus := MkStatus {
  pod_ip : option string;
  phase : option string;
  conditions : option (list (string * string));   (* type and status *)
}.

Record Pod := MkPod {
  pod_name : option string;
  labels : option (gmap string string);
  annotations : option (gmap string string);
  deletion_timestamp : bool;   (* is_some() *)
  pod_status : option PodStatus;
}.

Record ServiceDiscoveryConfig := MkDiscovery {
  enabled : bool;
  selector : gmap string string;
  check_interval : N;   (* seconds *)
  port : N;
  namespace : option string;
  pd_mode : bool;
  prefill_selector : gmap string string;
  decode_selector : gmap string string;
  bootstrap_port_annotation : string;
}.

Definition default_service_discovery : ServiceDiscoveryConfig := MkDiscovery false ∅ 60 8000 None false ∅ ∅ "vllm.ai/bootstrap-port".

Inductive PodType := Prefill | Decode | Regular.

#[export] Instance PodType_eq_dec : EqDecision PodType.
Proof. solve_decision. Defined.

#[export] Instance PodType_countable : Countable PodType.
Proof.
  refine (inj_countable' (fun t => match t with Prefill => 0 | Decode => 1 | Regular => 2 end)
    (fun n => match n with 0 => Prefill | 1 => Decode | _ => Regular end) _).
  by intros [].
Defined.

(** [IpAddr], by its bits *)
Inductive IpAddr := V4 (bits : N) | V6 (bits : N).

#[export] Instance IpAddr_eq_dec : EqDecision IpAddr.
Proof. solve_decision. Defined.

#[export] Instance IpAddr_countable : Countable IpAddr.
Proof.
  refine (inj_countable' (fun a => match a with V4 b => inl b | V6 b => inr b end) (fun x => match x with inl b => V4 b | inr b => V6 b end) _).
  by intros [].
Defined.

Record PodInfo := MkPodInfo {
  name : string;
  ip : IpAddr;
  status : string;
  is_ready : bool;
  pod_type : option PodType;
  bootstrap_port : option N;
}.

#[export] Instance PodInfo_eq_dec : EqDecision PodInfo.
Proof. solve_decision. Defined.

#[export] Instance PodInfo_countable : Countable PodInfo.
Proof.
  refine (inj_countable' (fun p => (name p, ip p, status p, is_ready p, pod_type p, bootstrap_port p))
    (fun '(n, i, s, r, t, b) => MkPodInfo n i s r t b) _).
  by intros [].
Defined.

Class Ipv6Text := { parse_ipv6 : string -> option N; print_ipv6 : N -> string }.

Definition parse_ip `{Ipv6Text} (s : string) : option IpAddr :=
  match parse_ipv4 s with Some bits => Some (V4 bits) | None => V6 <$> parse_ipv6 s end.

Definition matches_selector (pod : Pod) (sel : gmap string string) : bool :=
  if bool_decide (sel = ∅) then false
  else match labels pod with
  | Some ls => forallb (fun kv => bool_decide (ls !! kv.1 = Some kv.2)) (map_to_list sel)
  | None => false
  end.

Definition should_include (pod : Pod) (config : ServiceDiscoveryConfig) : bool :=
  if pd_mode config then
    if bool_decide (prefill_selector config = ∅) && bool_decide (decode_selector config = ∅) then false
    else matches_selector pod (prefill_selector config) || matches_selector pod (decode_selector config)
  else if bool_decide (selector config = ∅) then false
  else matches_selector pod (selector config).

Definition is_healthy (p : PodInfo) : bool := is_ready p && bool_decide (status p = "Running").

(** ** The router *)

(** The trait, and the methods of the disaggregated router where it is one. *)
Class RouterTrait (R : Type) := {
  is_pd_router : bool;
  add_worker : string -> R -> result string string * R;
  remove_worker : string -> R -> R;
  add_prefill_server : string -> option N -> R -> result string string * R;
  add_decode_server : string -> R -> result string string * R;
  remove_prefill_server : string -> R -> result string string * R;
  remove_decode_server : string -> R -> result string string * R;
}.

Section discovery.
Context `{Ipv6Text} {R : Type} `{RouterTrait R}.

Definition from_pod (pod : Pod) (config : option ServiceDiscoveryConfig) : option PodInfo :=
  n ← pod_name pod;
  st ← pod_status pod;
  addr ← pod_ip st ≫= parse_ip;
  let ready := match conditions st with
    | Some cs => existsb (fun c => bool_decide (c.1 = "Ready") && bool_decide (c.2 = "True")) cs
    | None => false
    end in
  let ty := match config with
    | Some config =>
        Some (if pd_mode config then
          if matches_selector pod (prefill_selector config) then Prefill
          else if matches_selector pod (decode_selector config) then Decode else Regular
        else Regular)
    | None => None
    end in
  let boot := match ty, config with
    | Some Prefill, Some config => (annotations pod ≫= (fun m => m !! bootstrap_port_annotation config)) ≫= parse_uint 65535
    | _, _ => None
    end in
  Some (MkPodInfo n addr (default "Unknown" (phase st)) ready ty boot).

Definition worker_url (p : PodInfo) (port : N) : string :=
  "http://" +:+ match ip p with
    | V4 bits => print_ipv4 bits +:+ ":" +:+ pretty port
    | V6 bits => "[" +:+ print_ipv6 bits +:+ "]:" +:+ pretty port
    end.

(** The set of pods the task tracks and the router. *)
Record Watch := MkWatch { tracked_pods : gset PodInfo; router : R }.

(** How a pod is added and removed. *)
Definition add_pod (p : PodInfo) (port : N) (pd : bool) (r : R) : result string string * R :=
  let url := worker_url p port in
  match pd, pod_type p with
  | true, Some ty =>
      if is_pd_router then
        match ty with
        | Prefill => add_prefill_server url (bootstrap_port p) r
        | Decode => add_decode_server url r
        | Regular => add_worker url r
        end
      else (Err "PD mode enabled but router is not a VllmPDRouter", r)
  | _, _ => add_worker url r
  end.

Definition remove_pod (p : PodInfo) (port : N) (pd : bool) (r : R) : R :=
  let url := worker_url p port in
  match pd, pod_type p with
  | true, Some ty =>
      if is_pd_router then
        match ty with
        | Prefill => (remove_prefill_server url r).2
        | Decode => (remove_decode_server url r).2
        | Regular => remove_worker url r
        end
      else remove_worker url r
  | _, _ => remove_worker url r
  end.

Definition handle_pod_event (p : PodInfo) (port : N) (pd : bool) (w : Watch) : Watch :=
  if negb (is_healthy p) || bool_decide (p ∈ tracked_pods w) then w else
  let '(res, r) := add_pod p port pd (router w) in
  match res with
  | Ok _ => MkWatch ({[p]} ∪ tracked_pods w) r
  | Err _ => MkWatch (({[p]} ∪ tracked_pods w) ∖ {[p]}) r
  end.

Definition handle_pod_deletion (p : PodInfo) (port : N) (pd : bool) (w : Watch) : Watch :=
  if bool_decide (p ∈ tracked_pods w) then MkWatch (tracked_pods w ∖ {[p]}) (remove_pod p port pd (router w)) else w.

(** One object of the watch. *)
Definition on_pod (config : ServiceDiscoveryConfig) (pod : Pod) (w : Watch) : Watch :=
  if negb (should_include pod config) then w else
  match from_pod pod (Some config) with
  | None => w
  | Some p => if deletion_timestamp pod then handle_pod_deletion p (port config) (pd_mode config) w else handle_pod_event p (port config) (pd_mode config) w
  end.
End discovery.

(** The delay before the next watch after an error, in seconds. *)
Definition MAX_RETRY_DELAY : N := 300.
Definition next_retry_delay (delay : N) : N := N.min (delay * 2) MAX_RETRY_DELAY.

(** ** Specification *)

(** The labels have every pair of a selector that is not empty. *)
Definition selects (sel : gmap string string) (pod : Pod) : Prop :=
  sel <> ∅ /\ exists ls, labels pod = Some ls /\ sel ⊆ ls.

(** The role the labels give a pod; one that both selectors match is for prefill. *)
Inductive has_role (config : ServiceDiscoveryConfig) (pod : Pod) : PodType -> Prop :=
| role_regular : pd_mode config = false -> selects (selector config) pod -> has_role config pod Regular
| role_prefill : pd_mode config = true -> selects (prefill_selector config) pod -> has_role config pod Prefill
| role_decode : pd_mode config = true -> ~ selects (prefill_selector config) pod -> selects (decode_selector config) pod ->
    has_role config pod Decode.

(** A pod that has a role says [p] of itself: its name, its address, its phase,
    whether it is ready, and for prefill the port of its annotation. *)
Record reports `{Ipv6Text} (config : ServiceDiscoveryConfig) (pod : Pod) (p : PodInfo) : Prop := {
  reports_role : exists ty, pod_type p = Some ty /\ has_role config pod ty;
  reports_name : pod_name pod = Some (name p);
  reports_status : exists st, pod_status pod = Some st /\ status p = default "Unknown" (phase st) /\
    (exists s, pod_ip st = Some s /\ parse_ip s = Some (ip p)) /\
    (is_ready p = true <-> exists cs, conditions st = Some cs /\ ("Ready", "True") ∈ cs);
  reports_port : bootstrap_port p = if decide (pod_type p = Some Prefill)
    then (annotations pod ≫= (fun m => m !! bootstrap_port_annotation config)) ≫= parse_uint 65535 else None;
}.

(** The calls of a router, by the role they are for. *)
Inductive call :=
| Add (ty : PodType) (url : string) (boot : option N)
| Remove (ty : PodType) (url : string).

Definition accepted {A R : Type} (x : result A string * R) : bool * R := (match x.1 with Ok _ => true | Err _ => false end, x.2).

(** Whether the router accepts the call, and the router then. *)
Definition perform {R} `{RouterTrait R} (c : call) (r : R) : bool * R :=
  match c with
  | Add Prefill url boot => accepted (add_prefill_server url boot r)
  | Add Decode url _ => accepted (add_decode_server url r)
  | Add Regular url _ => accepted (add_worker url r)
  | Remove Prefill url => accepted (remove_prefill_server url r)
  | Remove Decode url => accepted (remove_decode_server url r)
  | Remove Regular url => (true, remove_worker url r)
  end.

(** What the router is asked when a pod is seen and the pods [T] are tracked. *)
Inductive asks `{Ipv6Text} {R} `{RouterTrait R} (config : ServiceDiscoveryConfig) (T : gset PodInfo) (pod : Pod) : option call -> Prop :=
| asks_add p ty : reports config pod p -> deletion_timestamp pod = false -> is_ready p = true -> status p = "Running" ->
    p ∉ T -> pod_type p = Some ty -> (pd_mode config = true -> is_pd_router = true) ->
    asks config T pod (Some (Add ty (worker_url p (port config)) (bootstrap_port p)))
| asks_remove p ty : reports config pod p -> deletion_timestamp pod = true -> p ∈ T -> pod_type p = Some ty ->
    asks config T pod (Some (Remove (if is_pd_router then ty else Regular) (worker_url p (port config))))
| asks_nothing : (forall p, reports config pod p -> if deletion_timestamp pod then p ∉ T else
    is_ready p = false \/ status p <> "Running" \/ p ∈ T \/ (pd_mode config = true /\ is_pd_router = false)) ->
    asks config T pod None.

(** The state of the task after the first [n] pods of the watch. *)
Definition watched `{Ipv6Text} {R} `{RouterTrait R} (config : ServiceDiscoveryConfig) (pods : list Pod) (r : R) (n : nat) : Watch :=
  foldl (fun w pod => on_pod config pod w) (MkWatch ∅ r) (take n pods).

(** ** Addresses *)

Lemma digit_char c d : digit c = Some d -> (d < 10)%N /\ pretty_N_char d = c.
Proof.
  unfold digit. intros H. destruct (_ && _) eqn:E; [|done]. injection H as <-.
  apply andb_true_iff in E as [H1%N.leb_le H2%N.leb_le].
  set (d := (Ascii.N_of_ascii c - 48)%N). assert (Hd : (d < 10)%N) by lia. split; [done|].
  rewrite <- (Ascii.ascii_N_embedding c). replace (Ascii.N_of_ascii c) with (d + 48)%N by lia. clearbody d.
  assert (d ∈ (0 :: 1 :: 2 :: 3 :: 4 :: 5 :: 6 :: 7 :: 8 :: 9 :: [])%N) as Hin.
  { destruct (decide (d ∈ [0; 1; 2; 3; 4; 5; 6; 7; 8; 9]%N)) as [|Hn]; [done|]. rewrite !not_elem_of_cons in Hn. lia. }
  repeat (apply elem_of_cons in Hin as [->|Hin]; [reflexivity|]). by apply elem_of_nil in Hin.
Qed.

Lemma pretty_parsed max s acc n : (0 < acc)%N -> parse_digits max acc s = Some n -> (0 < n)%N /\ pretty_N_go n "" = pretty_N_go acc s.
Proof.
  revert acc. induction s as [|c s IH]; intros acc Ha; simpl; [by intros [= <-]|].
  destruct (digit c) as [d|] eqn:Ed; [|done]. apply digit_char in Ed as [Hd <-]. destruct (_ <=? max)%N; [|done].
  intros [Hn Hp]%IH; [|lia]. split; [done|]. rewrite Hp, (pretty_N_go_step (acc * 10 + d)) by lia.
  rewrite <- (N.div_unique (acc * 10 + d) 10 acc d), <- (N.mod_unique (acc * 10 + d) 10 acc d) by lia. done.
Qed.

Lemma parse_digits_bound max s acc n : (acc <= max)%N -> parse_digits max acc s = Some n -> (n <= max)%N.
Proof.
  revert acc. induction s as [|c s IH]; intros acc Ha; simpl; [by intros [= <-]|]. destruct (digit c); [|done].
  destruct (N.leb_spec (acc * 10 + n0) max)%N; [|done]. by apply IH.
Qed.

(** An octet that is read is written the same. *)
Lemma octet_back s n : parse_octet s = Some n -> (n <= 255)%N /\ s = pretty n.
Proof.
  destruct s as [|c s]; [done|]. unfold parse_octet. destruct (bool_decide (c = "+"%char)) eqn:Ep; [done|]. cbn [orb].
  apply bool_decide_eq_false in Ep. destruct (_ && _) eqn:Ez; [done|]. apply andb_false_iff in Ez.
  assert (parse_uint 255 (String c s) = parse_digits 255 0 (String c s)) as ->.
  { unfold parse_uint. destruct c as [[] [] [] [] [] [] [] []]; reflexivity || (exfalso; by apply Ep). }
  intros Hp. split; [by apply (parse_digits_bound 255 (String c s) 0)|]. cbn [parse_digits] in Hp. destruct (digit c) as [d|] eqn:Ed; [|done].
  apply digit_char in Ed as [Hd <-]. change (0 * 10 + d)%N with d in Hp. destruct (d <=? 255)%N; [|done].
  destruct (decide (d = 0)%N) as [->|Hnz].
  - destruct Ez as [Ez|Ez]; [discriminate Ez|]. apply negb_false_iff, bool_decide_eq_true in Ez. subst s. by injection Hp as <-.
  - apply pretty_parsed in Hp as [Hn Hp]; [|lia]. unfold pretty, pretty_N. rewrite decide_False, Hp by lia.
    rewrite pretty_N_go_step by lia. rewrite N.div_small, N.mod_small, pretty_N_go_0 by lia. done.
Qed.

Lemma split_join c s : s = match str_split c s with [] => "" | h :: t => foldl (fun acc p => acc +:+ String c p) h t end.
Proof.
  assert (forall h t a, foldl (fun acc p => acc +:+ String c p) (String a h) t = String a (foldl (fun acc p => acc +:+ String c p) h t)) as Hcons.
  { intros h t a. revert h. induction t as [|p t IH]; intros h; [done|]. simpl. by rewrite <- IH. }
  assert (forall t, foldl (fun acc p => acc +:+ String c p) "" t = match t with [] => "" | h :: t => String c (foldl (fun acc p => acc +:+ String c p) h t) end) as Hnil.
  { intros [|h t]; [done|]. simpl. by rewrite <- Hcons. }
  induction s as [|a s IH]; [done|]. simpl. destruct (Ascii.eqb_spec a c) as [->|_].
  - rewrite Hnil. destruct (str_split c s) as [|h t] eqn:E; [by destruct s; simpl in E; repeat case_match|]. by rewrite IH at 1.
  - destruct (str_split c s) as [|h t]; [by rewrite IH|]. by rewrite Hcons, <- IH.
Qed.

(** An IPv4 address that is read is written the same. *)
Lemma ipv4_back s bits : parse_ipv4 s = Some bits -> print_ipv4 bits = s.
Proof.
  unfold parse_ipv4. pose proof (split_join "." s) as Hs. destruct (str_split "." s) as [|a [|b [|c [|d [|? ?]]]]]; try done.
  intros (n1 & H1 & (n2 & H2 & (n3 & H3 & (n4 & H4 & [= <-])%bind_Some)%bind_Some)%bind_Some)%bind_Some.
  apply octet_back in H1 as [L1 ->], H2 as [L2 ->], H3 as [L3 ->], H4 as [L4 ->]. simpl in Hs. rewrite Hs. clear Hs s. unfold print_ipv4.
  change (2 ^ 24)%N with 16777216%N. change (2 ^ 16)%N with 65536%N. change (2 ^ 8)%N with 256%N.
  set (x := (_ + n4)%N). assert (x = n1 * 16777216 + n2 * 65536 + n3 * 256 + n4)%N as Hx by done. clearbody x.
  rewrite <- (N.div_unique x 16777216 n1 (n2 * 65536 + n3 * 256 + n4)) by lia.
  rewrite <- (N.div_unique x 65536 (n1 * 256 + n2) (n3 * 256 + n4)) by lia.
  rewrite <- (N.div_unique x 256 (n1 * 65536 + n2 * 256 + n3) n4) by lia.
  rewrite <- (N.mod_unique (n1 * 256 + n2) 256 n1 n2), <- (N.mod_unique (n1 * 65536 + n2 * 256 + n3) 256 (n1 * 256 + n2) n3), <- (N.mod_unique x 256 (n1 * 65536 + n2 * 256 + n3) n4) by lia.
  assert (forall x y z, (x +:+ y) +:+ z = x +:+ (y +:+ z)) as Hassoc by (clear; intros x y z; induction x as [|a x IH]; [done|]; change (String a ((x +:+ y) +:+ z) = String a (x +:+ (y +:+ z))); by rewrite IH).
  by rewrite !Hassoc.
Qed.

(** ** Pods that are read *)

Lemma selects_spec sel pod : matches_selector pod sel = true <-> selects sel pod.
Proof.
  unfold matches_selector, selects. case_bool_decide as E; [naive_solver|]. destruct (labels pod) as [ls|]; [|naive_solver].
  rewrite forallb_forall. setoid_rewrite <- list_elem_of_In. split.
  - intros Hall. split; [done|]. exists ls. split; [done|]. apply map_subseteq_spec. intros k v Hk.
    specialize (Hall (k, v) ltac:(by apply elem_of_map_to_list)). by apply bool_decide_eq_true in Hall.
  - intros (_ & ls' & [= <-] & Hsub) [k v] Hk%elem_of_map_to_list. apply bool_decide_eq_true. by apply (lookup_weaken sel).
Qed.

Lemma include_spec config pod : should_include pod config = true <-> exists ty, has_role config pod ty.
Proof.
  unfold should_include. destruct (pd_mode config) eqn:Em.
  - destruct (_ && _) eqn:Ee.
    + apply andb_true_iff in Ee as [E1%bool_decide_eq_true E2%bool_decide_eq_true].
      split; [done|]. intros [ty [| |]]; [congruence|by destruct H0 as [? _]|by destruct H1 as [? _]].
    + rewrite orb_true_iff, !selects_spec. split.
      * destruct (matches_selector pod (prefill_selector config)) eqn:Ep.
        -- intros _. exists Prefill. constructor; [done|]. by apply selects_spec.
        -- assert (~ selects (prefill_selector config) pod) as Hn by (rewrite <- selects_spec; congruence).
           intros [?|Hd]; [done|]. exists Decode. by constructor.
      * intros [ty [| |]]; [congruence|by left|by right].
  - assert ((if bool_decide (selector config = ∅) then false else matches_selector pod (selector config)) = true <-> selects (selector config) pod) as ->.
    { rewrite <- selects_spec. unfold matches_selector. by case_bool_decide. }
    split; [intros Hs; exists Regular; by constructor|]. intros [ty [| |]]; [done|congruence|congruence].
Qed.

Section read.
Context `{Ipv6Text} (config : ServiceDiscoveryConfig) (pod : Pod).

Lemma role_read ty : has_role config pod ty -> (if pd_mode config then
    if matches_selector pod (prefill_selector config) then Prefill
    else if matches_selector pod (decode_selector config) then Decode else Regular
  else Regular) = ty.
Proof.
  intros [Em Hs|Em Hs|Em Hn Hs]; rewrite Em; [done|by apply selects_spec in Hs as ->|].
  destruct (matches_selector pod (prefill_selector config)) eqn:E; [by apply selects_spec in E|]. by apply selects_spec in Hs as ->.
Qed.

Lemma ready_read st : (match conditions st with
    | Some cs => existsb (fun c => bool_decide (c.1 = "Ready") && bool_decide (c.2 = "True")) cs
    | None => false
    end) = true <-> exists cs, conditions st = Some cs /\ ("Ready", "True") ∈ cs.
Proof.
  destruct (conditions st) as [cs|]; [|naive_solver]. rewrite existsb_exists. setoid_rewrite <- list_elem_of_In. split.
  - intros ([k v] & Hin & [H1%bool_decide_eq_true H2%bool_decide_eq_true]%andb_true_iff). simpl in *. subst. eauto.
  - intros (cs' & [= <-] & Hin). eauto.
Qed.

Lemma reports_spec p : reports config pod p <-> should_include pod config = true /\ from_pod pod (Some config) = Some p.
Proof.
  rewrite include_spec. unfold from_pod. split.
  - intros [(ty & Ety & Hty) En (st & Est & Eph & (s & Es & Ea) & Er) Eb]. split; [by exists ty|].
    rewrite En, Est. cbn [mbind option_bind]. rewrite Es. cbn [mbind option_bind]. rewrite Ea. cbn [mbind option_bind].
    rewrite (role_read ty Hty). f_equal. destruct p as [n i ph rd ty' boot]. simpl in *. subst.
    f_equal; [|by destruct ty]. apply Bool.eq_iff_eq_true. by rewrite ready_read.
  - intros [[ty Hty] H1]. rewrite (role_read ty Hty) in H1.
    apply bind_Some in H1 as (n & En & (st & Est & (i & (s & Es & Ea)%bind_Some & [= <-])%bind_Some)%bind_Some).
    constructor; simpl; [by exists ty|done| |by destruct ty].
    exists st. split_and!; [done|done|by exists s|apply ready_read].
Qed.

Lemma reports_unique p q : reports config pod p -> reports config pod q -> p = q.
Proof. intros [_ Hp]%reports_spec [_ Hq]%reports_spec. congruence. Qed.
End read.

(** ** What a pod does *)

Section steps.
Context `{Ipv6Text} {R : Type} `{RouterTrait R} (config : ServiceDiscoveryConfig).

Lemma add_pod_calls p ty (r : R) : pod_type p = Some ty -> (pd_mode config = false -> ty = Regular) ->
  (pd_mode config = true -> is_pd_router = true) ->
  accepted (add_pod p (port config) (pd_mode config) r) = perform (Add ty (worker_url p (port config)) (bootstrap_port p)) r.
Proof.
  intros Ety Hreg Hpd. unfold add_pod. rewrite Ety. destruct (pd_mode config); [by rewrite Hpd by done; destruct ty|]. by rewrite Hreg.
Qed.

Lemma remove_pod_calls p ty (r : R) : pod_type p = Some ty -> (pd_mode config = false -> ty = Regular) ->
  remove_pod p (port config) (pd_mode config) r =
    (perform (Remove (if is_pd_router then ty else Regular) (worker_url p (port config))) r).2.
Proof.
  intros Ety Hreg. unfold remove_pod. rewrite Ety. destruct (pd_mode config); [by destruct is_pd_router, ty|].
  rewrite Hreg by done. by destruct is_pd_router.
Qed.

Lemma role_regular_only pod p ty : reports config pod p -> pod_type p = Some ty -> pd_mode config = false -> ty = Regular.
Proof. intros Hr Ety Em. destruct (reports_role _ _ _ Hr) as (ty' & Ety' & Hty'). inversion Hty'; congruence. Qed.

Lemma asks_det T pod c1 c2 : asks config T pod c1 -> asks config T pod c2 -> c1 = c2.
Proof.
  assert (forall p q, reports config pod p -> reports config pod q -> p = q) as Hu by (intros p q; apply reports_unique).
  intros [p1 t1 A1 A2 A3 A4 A5 A6 A7|p1 t1 A1 A2 A3 A4|A] [p2 t2 B1 B2 B3 B4 B5 B6 B7|p2 t2 B1 B2 B3 B4|B]; try congruence.
  - pose proof (Hu p1 p2 A1 B1). subst p2. assert (t1 = t2) by congruence. by subst.
  - specialize (B p1 A1). rewrite A2 in B. destruct B as [?|[?|[?|[Em Ei]]]]; [congruence|done|done|by rewrite (A7 Em) in Ei].
  - pose proof (Hu p1 p2 A1 B1). subst p2. assert (t1 = t2) by congruence. by subst.
  - specialize (B p1 A1). by rewrite A2 in B.
  - specialize (A p2 B1). rewrite B2 in A. destruct A as [?|[?|[?|[Em Ei]]]]; [congruence|done|done|by rewrite (B7 Em) in Ei].
  - specialize (A p2 B1). by rewrite B2 in A.
Qed.

(** A pod makes a call [c] in the state [w] and leaves [w']. *)
Definition steps (pod : Pod) (w w' : Watch (R := R)) : Prop := exists c, asks config (tracked_pods w) pod c /\
  router w' = from_option (fun c => (perform c (router w)).2) (router w) c /\
  forall p, p ∈ tracked_pods w' <->
    (p ∈ tracked_pods w /\ ~ (reports config pod p /\ deletion_timestamp pod = true)) \/
    (reports config pod p /\ deletion_timestamp pod = false /\ exists c', c = Some c' /\ (perform c' (router w)).1 = true).

Lemma nothing_steps pod w : asks config (tracked_pods w) pod None ->
  (forall p, reports config pod p -> deletion_timestamp pod = true -> p ∉ tracked_pods w) -> steps pod w w.
Proof. intros Ha Hd. exists None. split_and!; [done|done|]. intros p. split; [|naive_solver]. intros Hp. left. naive_solver. Qed.

Lemma deletion_steps pod p w : reports config pod p -> deletion_timestamp pod = true ->
  steps pod w (handle_pod_deletion p (port config) (pd_mode config) w).
Proof.
  intros Hr Ed. pose proof (fun q Hq => reports_unique config pod q p Hq Hr) as Hu. destruct (reports_role _ _ _ Hr) as (ty & Ety & _).
  unfold handle_pod_deletion. case_bool_decide as Hin.
  - eexists (Some _). split_and!; [by apply (asks_remove _ _ _ p ty)|apply (remove_pod_calls p ty); [done|by apply (role_regular_only pod p)]|].
    intros q. simpl. rewrite elem_of_difference, elem_of_singleton. split; [intros [? ?]; left; split; [done|]; intros [?%Hu _]; done|].
    intros [[? Hq]|(? & ? & _)]; [|congruence]. split; [done|]. intros ->. by apply Hq.
  - apply nothing_steps; [constructor; rewrite Ed; by intros q ->%Hu|by intros q ->%Hu].
Qed.

Lemma event_steps pod p w : reports config pod p -> deletion_timestamp pod = false ->
  steps pod w (handle_pod_event p (port config) (pd_mode config) w).
Proof.
  intros Hr Ed. pose proof (fun q Hq => reports_unique config pod q p Hq Hr) as Hu. destruct (reports_role _ _ _ Hr) as (ty & Ety & _).
  pose proof (role_regular_only pod p ty Hr Ety) as Hreg.
  assert (forall T, (({[p]} ∪ T) ∖ {[p]} : gset PodInfo) = T ∖ {[p]}) as Hback by set_solver.
  assert (is_ready p = false \/ status p <> "Running" \/ p ∈ tracked_pods w -> steps pod w w) as Hno.
  { intros Hc. apply nothing_steps; [constructor; rewrite Ed; intros q ->%Hu; tauto|congruence]. }
  unfold handle_pod_event, is_healthy. destruct (is_ready p) eqn:Erd; [|by apply Hno; left].
  case_bool_decide as Est; [|by apply Hno; right; left]. simpl. case_bool_decide as Hin; [by apply Hno; right; right|]. clear Hno.
  assert (tracked_pods w ∖ {[p]} = tracked_pods w) as Hout by set_solver.
  destruct (decide (pd_mode config = true -> is_pd_router = true)) as [Hpd|Hpd].
  - pose proof (add_pod_calls p ty (router w) Ety Hreg Hpd) as Hcall. destruct (add_pod _ _ _ _) as [res r'].
    exists (Some (Add ty (worker_url p (port config)) (bootstrap_port p))). split; [by constructor|].
    cbn beta iota delta [from_option]. rewrite <- Hcall. destruct res; cbn [fst snd accepted tracked_pods router]; (split; [done|]); intros q; rewrite ?Hback, ?Hout, ?elem_of_union, ?elem_of_singleton.
    + split; [intros [->|?]|intros [[? _]|(->%Hu & _)]]; [right; split_and!; [done..|]; eexists; split; [done|]; by rewrite <- Hcall|left; split; [done|]; intros [_ ?]; congruence|by right|by left].
    + split; [intros ?; left; split; [done|]; intros [_ ?]; congruence|]. intros [[? _]|(_ & _ & c & [= <-] & Hc)]; [done|]. by rewrite <- Hcall in Hc.
  - assert (pd_mode config = true /\ is_pd_router = false) as [Em Ei] by (destruct (pd_mode config), is_pd_router; naive_solver).
    unfold add_pod. rewrite Em, Ety, Ei. rewrite Hback, Hout. destruct w as [T r]. simpl in *.
    apply nothing_steps; [constructor; rewrite Ed; intros q ->%Hu; tauto|congruence].
Qed.

Lemma on_pod_steps pod w : steps pod w (on_pod config pod w).
Proof.
  assert ((forall p, ~ reports config pod p) -> steps pod w w) as Hno
    by (intros Hn; apply nothing_steps; [constructor|]; intros p Hp; by destruct (Hn p)).
  unfold on_pod. destruct (should_include pod config) eqn:Ei; [|apply Hno; intros p [? _]%reports_spec; congruence]. simpl.
  destruct (from_pod pod (Some config)) as [p|] eqn:Ef; [|apply Hno; intros p [_ ?]%reports_spec; congruence].
  assert (reports config pod p) by (by apply reports_spec).
  destruct (deletion_timestamp pod) eqn:Ed; [by apply deletion_steps|by apply event_steps].
Qed.

Lemma watched_steps pods r n pod : pods !! n = Some pod -> steps pod (watched config pods r n) (watched config pods r (S n)).
Proof. intros Hn. unfold watched. rewrite (take_S_r _ _ _ Hn), foldl_snoc. apply on_pod_steps. Qed.

(** The pods that are tracked are those accepted and not deleted since. *)
Lemma watched_tracked pods r n p : n <= length pods -> p ∈ tracked_pods (watched config pods r n) <->
  exists i pod c, i < n /\ pods !! i = Some pod /\ reports config pod p /\ deletion_timestamp pod = false /\
    asks config (tracked_pods (watched config pods r i)) pod (Some c) /\ (perform c (router (watched config pods r i))).1 = true /\
    forall j pod', i < j < n -> pods !! j = Some pod' -> reports config pod' p -> deletion_timestamp pod' = false.
Proof.
  induction n as [|n IH]; intros Hn; [split; [by intros ?%elem_of_empty|intros (i & ? & ? & ? & _); lia]|].
  destruct (lookup_lt_is_Some_2 pods n) as [pod Hpod]; [lia|]. specialize (IH ltac:(lia)).
  destruct (watched_steps pods r n pod Hpod) as (c & Hask & _ & Htr). rewrite Htr, IH. split.
  - intros [[(i & pod1 & c1 & Hi & H1 & H2 & H3 & H4 & H5 & H6) Hnd]|(H1 & H2 & c' & -> & H3)].
    + exists i, pod1, c1. split_and!; [lia|done..|]. intros j pod' Hj Hj' Hr. destruct (decide (j = n)) as [->|]; [|by apply (H6 j); [lia|..]].
      assert (pod' = pod) as -> by congruence. destruct (deletion_timestamp pod); naive_solver.
    + exists n, pod, c'. split_and!; [lia|done..|]. lia.
  - intros (i & pod1 & c1 & Hi & H1 & H2 & H3 & H4 & H5 & H6). destruct (decide (i = n)) as [->|].
    + right. assert (pod1 = pod) as -> by congruence. split_and!; [done..|]. rewrite (asks_det _ _ _ _ Hask H4). eauto.
    + left. split; [|intros [Hr Hd]; rewrite (H6 n pod) in Hd; done || lia]. exists i, pod1, c1. split_and!; [lia|done..|].
      intros j pod' Hj. apply H6. lia.
Qed.
End steps.

(** C26: Discovery does with each pod what its labels and its state ask for, whatever the
    router answers.  When a pod is seen, the router is asked exactly one thing or
    nothing: to add the pod in the role of its labels when they match a selector,
    its name and address can be read, it is ready, running, not being deleted and
    not tracked as it is; to remove it in that role when it is being deleted and
    tracked as it is.  A pod that no selector matches, or that reports anything else,
    asks for nothing.  Tracked are exactly the pods whose addition the router accepted
    and that have not been seen being deleted since, with the same fields.  The URL
    of a pod with an IPv4 address is that address as reported, with the configured
    port. *)
Theorem discovery_exact `{Ipv6Text} {R} `{RouterTrait R} config pods (r : R) : let w := watched config pods r in
  (forall n pod, pods !! n = Some pod -> exists c, asks config (tracked_pods (w n)) pod c /\
    router (w (S n)) = from_option (fun c => (perform c (router (w n))).2) (router (w n)) c) /\
  (forall n p, n <= length pods -> p ∈ tracked_pods (w n) <->
    exists i pod c, i < n /\ pods !! i = Some pod /\ reports config pod p /\ deletion_timestamp pod = false /\
      asks config (tracked_pods (w i)) pod (Some c) /\ (perform c (router (w i))).1 = true /\
      forall j pod', i < j < n -> pods !! j = Some pod' -> reports config pod' p -> deletion_timestamp pod' = false) /\
  (forall pod p st s, reports config pod p -> pod_status pod = Some st -> pod_ip st = Some s -> is_Some (parse_ipv4 s) ->
    worker_url p (port config) = "http://" +:+ s +:+ ":" +:+ pretty (port config)).
Proof.
  intros w. split_and!.
  - intros n pod Hn. destruct (watched_steps config pods r n pod Hn) as (c & Ha & Hr & _). by exists c.
  - intros n p. apply watched_tracked.
  - intros pod p st s Hr Hst Hs [bits Hb]. destruct (reports_status _ _ _ Hr) as (st' & Hst' & _ & (s' & Hs' & Ha) & _).
    simplify_eq. unfold parse_ip in Ha. rewrite Hb in Ha. injection Ha as Ha. unfold worker_url. rewrite <- Ha.
    by rewrite (ipv4_back _ _ Hb).
Qed.

(** ** Examples *)

(** A router that is the map of its members. *)
Definition map_add (kind : PodType) (url : string) (r : gmap string PodType) : result string string * gmap string PodType :=
  match r !! url with Some _ => (Err "exists", r) | None => (Ok url, <[url := kind]> r) end.

#[local] Instance map_router : RouterTrait (gmap string PodType) := {|
  is_pd_router := true; add_worker := map_add Regular; remove_worker := delete;
  add_prefill_server url _ := map_add Prefill url; add_decode_server := map_add Decode;
  remove_prefill_server url r := (Ok url, delete url r); remove_decode_server url r := (Ok url, delete url r) |}.

#[local] Instance no_ipv6 : Ipv6Text := {| parse_ipv6 _ := None; print_ipv6 := pretty |}.

Definition watch_config : ServiceDiscoveryConfig := MkDiscovery true {["app" := "vllm"]} 60 8000 None false ∅ ∅ "vllm.ai/bootstrap-port".

Definition watch_pod (ready : string) (deleted : bool) : Pod :=
  MkPod (Some "a") (Some {["app" := "vllm"]}) None deleted (Some (MkStatus (Some "10.0.0.7") (Some "Running") (Some [("Ready", ready)]))).

(** A ready pod is added under its address and removed when it is deleted. *)
Example pod_added_and_removed :
  let pods := [watch_pod "True" false; watch_pod "True" true] in
  router (watched watch_config pods (∅ : gmap string PodType) 1) = {["http://10.0.0.7:8000" := Regular]} /\
  router (watched watch_config pods (∅ : gmap string PodType) 2) = ∅.
Proof. split; vm_compute; reflexivity. Qed.

(** The tracked pod is compared with all its fields: a pod that is not ready any more
    when it is deleted is not found, and its worker stays. *)
Example unready_pod_stays :
  let w := foldl (fun w pod => on_pod watch_config pod w) (MkWatch ∅ (∅ : gmap string PodType)) [watch_pod "True" false; watch_pod "False" false; watch_pod "False" true] in
  router w = {["http://10.0.0.7:8000" := Regular]}.
Proof. vm_compute. reflexivity. Qed.
